(* ===== verification/_CoqProject ===== *)
-Q . S2P
Prelude.v
Sched.v
Semaphore.v
Rwlock.v
Pthread.v
Timer.v
Endian.v
PageAlloc.v
MemAlloc.v
MemAllocSafe.v
CString.v
Thread.v
Keys.v
Crc32.v
Md5.v
Arc4.v
Mwmr.v
Qsort.v
GompIter.v
GompOrdered.v
Route.v
Ipv4.v
Ipv4Frag.v
Arp.v
IntConv.v
Formatter.v
Ring.v
CList.v
CListSort.v
FileOps.v
RamfsFile.v
Stdio.v
StdioSpec.v
Fdt.v
FdtSpec.v
Ramfs.v
RamfsSpec.v
RamfsTree.v
RamfsNames.v
Vfs.v
VfsSpec.v
VfsOps.v
VfsNodes.v
VfsPath.v
VfsWalk.v
VfsApi.v
VfsCalls.v
VfsRamfs.v
VfsBoot.v
VfsTree.v
