(* ===== verification/Prelude.v ===== *)
(** * MutekH kernel and C library: a verification library (root file)

    MutekH is an operating system for embedded multiprocessors.  Its kernel
    ([mutek/]) schedules contexts, synchronises them, keeps time and manages memory;
    the container library ([gpct/]) gives it lists, rings and hash tables; POSIX
    threads ([libpthread/]), OpenMP ([libgomp/]) and the MWMR channels ([libmwmr/])
    stand on the scheduler; a C library ([libc/]), cryptography ([libcrypto/]), a
    network stack ([libnetwork/]), device trees ([libfdt/]) and file systems
    ([libvfs/]) serve applications.  This library translates the hardware independent
    part of that code to functions and proves what the parts promise to each other.
    All paths below are relative to [src/].

    ** How the code is translated

    A function of the source is a definition of the same name.  State is passed
    explicitly; an operation that can go wrong returns an [outcome] (this file): a
    value, or the fault the C code would run into: a failed assertion ([FAssert]), a
    corrupted structure or freed object ([FCorrupt]), an access out of bounds
    ([FBounds]), undefined behaviour ([FUndef]), a lock that is never released
    ([FSpin]), a loop that does not end within its bound ([FFuel]).  Error codes of
    the source are ordinary results.  Integers are [Z]; where the width matters
    [wrapu] and [wraps] reduce them to it, and widths the C standard leaves open are
    arguments.  A critical section is one step; interleavings are lists of steps of
    several clients.  The answers of an allocator, the functions of a client and the
    file under a stream are arguments.

    ** Kernel

    - [Sched]: [mutek/scheduler.c].  [scheduler_s] with the running queue and the idle
      list; start, switch, stop, exit, wait, wake, and the idle loop with its inter
      processor interrupts.  Contexts are conserved: they only move, appear when they are
      started and end by their own exit; while contexts are queued every processor runs
      a thread, or an idle one is awake or has been sent an interrupt.
    - [Semaphore], [Rwlock]: [mutek/semaphore.c], [mutek/rwlock.c] on the queues of the
      scheduler.  No unit is granted that was not given; by the codes the callers are
      told, writers exclude everybody as long as [rwlock_trywrlock] is not used, whose
      result is wrong; nobody waits for what is free.
    - [Timer]: [mutek/timer.c].  The sorted list of events and the tick; the class
      [TimerCallback] says what a callback may do to the timer and to its own state:
      make no event due at once and withdraw none that is due.  Callbacks that leave
      the timer alone and callbacks that arm their event again are instances.  A tick
      calls exactly the callbacks of the events that are due, in order, and ends; with
      a periodic event that crosses the wrap-around of the counter it does not.
    - [MemAlloc], [MemAllocSafe]: [mutek/memory_allocator_smart.c] with guards,
      scrambling, statistics, first and best fit.  Under every sequence of
      allocations, releases and resizings of sizes that fit in a [size_t] ([mem_step]):
      no fault, blocks are disjoint, contents are kept, free blocks are merged, an
      allocation fails only if no block fits.  Reservations, extensions and larger
      sizes are modelled; theorems show their defects.
    - [PageAlloc]: [mutek/page_alloc.c].  No page is handed out twice or lost.
    - [Endian]: [hexo/include/hexo/endian.h].  Swaps and byte-wise accesses.

    ** Containers

    - [Ring]: [gpct] RING.  A bounded double ended queue, also when its free running
      index wraps.
    - [CList], [CListSort]: [gpct] CLIST on a memory of links.  Lists that share a
      memory implement list operations without disturbing each other; the merge sort
      with its stack of 32 runs ends with the stable sort.
    - The HASHLIST and the counted objects are part of [Ramfs].

    ** Threads and parallel loops

    - [Pthread]: [libpthread/mutex.c], [cond.c], [barrier.c].  Mutual exclusion for the
      three kinds of mutexes; waiting on a condition is atomic; what barriers wake.
    - [Thread]: [libpthread/thread.c], [cancel.c], over [Sched].  Creation, end, join,
      detach, cancellation: a join delivers the value of the thread and no wake-up is
      lost, on any number of processors; on one processor no operation touches a freed
      descriptor, on several a join can.
    - [Keys]: [libpthread/keys.c].  Thread specific data.
    - [Mwmr]: [libmwmr/mwmr_pthread.c].  A bounded queue for any number of readers and
      writers; blocking transfers lose no wake-up, try accesses can.
    - [GompIter]: [libgomp/iter.c], [loop.c].  Every schedule hands out each iteration
      once in every interleaving.
    - [GompOrdered]: [libgomp/ordered.c], against the class [BlockSource] that the
      schedules implement: in every interleaving of the threads the ordered regions run
      in the order of the iterations, and the threads do not block each other.

    ** C library and cryptography

    - [CString]: [libc/string.c] on a memory of bytes.  Word-wise copies are byte-wise
      copies; [memmove] and overlapping areas; the string functions.
    - [Qsort]: [libc/qsort.c], [libc/stdlib.c].  Sorting ends in bounds with a sorted
      permutation; binary search finds.
    - [IntConv], [Formatter]: [libc/intconv.c], [libc/formatter.c], [libc/printf.c].
      Conversions are inverse; the format state machine is a denotation of the
      format ([run_converted]), which is the text of the C standard for the arguments
      that [conforming] admits; [vsnprintf] stays in its buffer.
    - [FileOps], [Stdio], [StdioSpec]: [mutek/include/mutek/fileops.h],
      [libc/stdio.c].  Streams with two rings ([Ring]) over any file that satisfies
      the class [FileLaws] return what a list of bytes returns, for the calls that
      [ref_op] admits; a flush that fails loses nothing; composed with [RamfsFile].
    - [Crc32], [Md5], [Arc4]: [libcrypto/].  Table and bit-wise CRC agree; the digest
      is that of RFC 1321 for any cutting of the message and both byte orders; ARC4
      deciphers what it ciphers.

    ** Network

    - [Route]: [libnetwork/route.c].  The table gives the longest matching prefix in
      every reachable state.
    - [Ipv4], [Ipv4Frag]: [libnetwork/packet.c], [libnetwork/protocols/ipv4.c], over
      [Route].  Checksums, sending, forwarding, fragmentation, reassembly: a payload
      that is sent through [ip_pushpkt] of any routers, which may fragment it, and any
      links, which may reorder it, is accepted and delivered once and unchanged, on
      little endian processors and without the sums whose carry or borrow the code
      loses ([send_kept], [journey_kept]).
    - [Arp]: [libnetwork/protocols/arp.c].  Packets that wait for an address are sent
      or reported exactly once and in order, and the wait ends, for the traffic that
      [allowed] describes.

    ** Device trees and files

    - [Fdt], [FdtSpec]: [libfdt/].  What the writer is given is what a reader of the
      blob sees, on both byte orders, within the limits of [valid] and [needed].
    - [RamfsFile]: [libvfs/fs/ramfs/ramfs_file.c], [ramfs_data.c], [libc/alloc.c].
      Open files share one sequence of bytes while the block of the file is made larger
      in place and nothing is truncated; an instance of [FileLaws].
    - [Ramfs]: [libvfs/fs/ramfs/ramfs.c] with the hash lists and counted objects of
      [gpct]: a heap [ramfs] of nodes and file data with counters and locks.
      [RamfsSpec]: the reference semantics [astate] and the relation [core] between
      both.  [RamfsTree]: every legal sequence of calls returns what the reference
      returns, leaves a tree, and the counters are exact.  [RamfsNames]: which names a
      lookup finds after each call, and that reading a directory lists each entry once.
    - [Vfs]: [libvfs/vfs.c], [node.c] and [helpers.c], the cache of nodes with its
      reference counts, semaphores and recycling, mounts, and the calls by path, over a
      table of functions, the class [FsOps] ([struct vfs_fs_ops_s]).  [VfsSpec]: the
      contract [FsLaws] of that table on a tree ([view]: entries, parents, references
      held), the abstract [cache], the relation [st] of both with the state and the
      coherence [coh] of the cache with the tree.  [VfsOps], [VfsNodes]: life cycle and
      operations of nodes.  [VfsPath], [VfsWalk], [VfsApi]: paths as lists of names,
      [resolve] (where a path leads in a tree), and the calls by path.  [VfsCalls]:
      sequences of calls a process may make ([legal]).  The tree decides each of them
      ([verdict]): its error, its change of the tree, and the node, file or attributes
      it gives; only a call that is refused memory does something else, it fails.
      [VfsRamfs]: the memory file system keeps the contract.  [VfsBoot]: the root.
      [VfsTree]: lookups, creations and removals follow the tree whatever is cached,
      also over the memory file system.  Mounts and moves are modelled; they have
      defects, which theorems show, and are not among the legal calls.

    Where the code has a defect the property is stated for the uses in which it holds,
    and another theorem shows the defect on a concrete state.

    ** Bounds and fuel

    Loops of the source are structural recursions where the data allows it.  Others
    have fuel that the definition computes from its state: the entries of a heap
    ([walk_fuel]), the slots of a ring ([loop_fuel]), the bytes of a blob or string,
    the nodes of a file system or of the cache ([ramfs_node_refdrop],
    [Vfs.vfs_node_refdrop]), the characters of a path ([Vfs.vfs_lookup_part]), so the
    theorems that an operation returns also show that the fuel is enough.  Where the fuel is an
    argument ([Ipv4.ip_send], [GompIter.static_team], [Stdio], [Arc4]) the theorems
    give a bound from which on the operation returns, or show that none exists.

    ** Not modelled

    Processor and board code, drivers and boot code (assembly and registers); the
    contents of protocols above IP, network interfaces; FAT, ISO 9660 and device
    file systems (block devices); floating point, the Lua interpreter, the dynamic
    linker, terminal interfaces and process emulation (imported or processor specific
    code); containers nothing above uses; OpenMP teams and tasks; tools, examples and
    the build system.  Statistics counters and debug output are left out everywhere. *)

From stdpp Require Export base tactics numbers list gmap.
From Stdlib Require Export ZArith Lia.

#[export] Set Default Goal Selector "!".
#[global] Open Scope Z_scope.

(** ** Machine integers *)

(** An unsigned [w]-bit store keeps the value modulo [2^w]. *)
Definition wrapu (w x : Z) : Z := x mod 2 ^ w.

(** A signed [w]-bit store keeps the two's complement representative. *)
Definition wraps (w x : Z) : Z := (x + 2 ^ (w - 1)) mod 2 ^ w - 2 ^ (w - 1).

Lemma pow2_pos w : 0 ≤ w → 0 < 2 ^ w.
Proof. intros; by apply Z.pow_pos_nonneg. Qed.

Lemma pow2_pred w : 1 ≤ w → 2 ^ w = 2 * 2 ^ (w - 1).
Proof. intros Hw. replace w with (1 + (w - 1)) at 1 by lia. rewrite Z.pow_add_r by lia. lia. Qed.

Lemma wrapu_small w x : 0 ≤ x < 2 ^ w → wrapu w x = x.
Proof. intros H. by apply Z.mod_small. Qed.

Lemma wrapu_range w x : 0 ≤ w → 0 ≤ wrapu w x < 2 ^ w.
Proof. intros H. apply Z.mod_pos_bound. by apply pow2_pos. Qed.

(** Numbers that agree modulo [m] and are less than [m] apart are equal. *)
Lemma mod_near m p q : p mod m = q mod m → - m < p - q < m → p = q.
Proof.
  intros E Hd. assert ((p - q) mod m = 0) as E0 by (rewrite Zminus_mod, E, Z.sub_diag; by rewrite Zmod_0_l).
  apply Z.mod_divide in E0 as [k Ek]; [|lia]. assert (k = 0) by nia. lia.
Qed.

Lemma wraps_small w x : 1 ≤ w → -2 ^ (w - 1) ≤ x < 2 ^ (w - 1) → wraps w x = x.
Proof.
  intros Hw Hx. unfold wraps.
  pose proof (pow2_pred w Hw) as E.
  rewrite Z.mod_small by lia. lia.
Qed.

Lemma wraps_range w x : 1 ≤ w → -2 ^ (w - 1) ≤ wraps w x < 2 ^ (w - 1).
Proof.
  intros Hw. unfold wraps.
  pose proof (pow2_pred w Hw) as E.
  pose proof (Z.mod_pos_bound (x + 2 ^ (w - 1)) (2 ^ w)) as B.
  pose proof (pow2_pos (w - 1)). lia.
Qed.

(** ** Bits *)

Lemma testbit_wrapu w x i : 0 ≤ w → Z.testbit (wrapu w x) i = (i <? w) && Z.testbit x i.
Proof. apply Z.testbit_mod_pow2. Qed.

Lemma wraps_mod w x : 1 ≤ w → wraps w x mod 2 ^ w = x mod 2 ^ w.
Proof.
  intros Hw. unfold wraps. pose proof (pow2_pos w).
  rewrite Zminus_mod_idemp_l. f_equal. lia.
Qed.

Lemma testbit_wraps w x i : 1 ≤ w → i < w → Z.testbit (wraps w x) i = Z.testbit x i.
Proof.
  intros Hw Hi. pose proof (testbit_wrapu w (wraps w x) i ltac:(lia)) as H1.
  pose proof (testbit_wrapu w x i ltac:(lia)) as H2. unfold wrapu in *.
  rewrite wraps_mod in H1 by done. rewrite H1 in H2.
  destruct (Z.ltb_spec i w); [done|lia].
Qed.

(** [zbits] proves an equation between bit-vector expressions bit by bit. *)
Ltac zbits_rewrite :=
  repeat first
    [ rewrite Z.lor_spec | rewrite Z.land_spec | rewrite Z.lxor_spec
    | rewrite testbit_wrapu by lia | rewrite testbit_wraps by lia
    | rewrite Z.shiftr_spec by lia
    | rewrite Z.shiftl_spec by lia | rewrite Z.testbit_ones by lia
    | rewrite Z.lnot_spec by lia | rewrite Z.bits_0 ].

Ltac zbits_cases :=
  repeat match goal with
  | |- context [?a <? ?b] => destruct (Z.ltb_spec a b); simpl; try lia
  | |- context [?a <=? ?b] => destruct (Z.leb_spec a b); simpl; try lia
  | |- context [Z.testbit ?x ?i] =>
      lazymatch i with Zneg _ => fail | _ => idtac end;
      rewrite (Z.testbit_neg_r x i) by lia
  end.

Ltac zbits :=
  apply Z.bits_inj'; intros ?i ?Hi; do 3 (zbits_rewrite; zbits_cases);
  rewrite ?andb_true_r, ?andb_false_r, ?orb_false_r, ?orb_true_r,
    ?andb_true_l, ?andb_false_l, ?orb_false_l, ?orb_true_l, ?xorb_false_r, ?xorb_false_l;
  try reflexivity; try (f_equal; lia).

(** ** Outcomes of C code

    [Ok] is a normal return.  [Err FAssert] is a failed [assert],
    [Err FCorrupt] the [abort] of a consistency check, [Err FBounds] an access
    outside the object it designates, [Err FUndef] an operation the C language
    leaves undefined, [Err FSpin] a spin on a lock that nobody will release, and
    [Err FFuel] is a loop bound of the model that was too small. *)
Inductive fault := FAssert | FCorrupt | FBounds | FUndef | FSpin | FFuel.

Inductive outcome (A : Type) := Ok (a : A) | Err (f : fault).
Arguments Ok {A} _.
Arguments Err {A} _.

#[export] Instance fault_eq_dec : EqDecision fault.
Proof. solve_decision. Defined.

#[export] Instance outcome_ret : MRet outcome := λ A a, Ok a.
#[export] Instance outcome_bind : MBind outcome :=
  λ A B f o, match o with Ok a => f a | Err e => Err e end.

(** [require b e] is the C idiom [assert(b)] (or a check that aborts). *)
Definition require (b : bool) (e : fault) : outcome unit :=
  if b then Ok tt else Err e.

(** Reading an element that must exist. *)
Definition of_option {A} (e : fault) (o : option A) : outcome A :=
  match o with Some a => Ok a | None => Err e end.

(** Signed arithmetic of [W] bits, whose overflow is undefined. *)
Definition schk (W x : Z) : outcome Z := if (- 2 ^ (W - 1) <=? x) && (x <? 2 ^ (W - 1)) then Ok x else Err FUndef.

Lemma schk_Ok W x : - 2 ^ (W - 1) ≤ x < 2 ^ (W - 1) → schk W x = Ok x.
Proof. intros H. unfold schk. destruct (Z.leb_spec (- 2 ^ (W - 1)) x), (Z.ltb_spec x (2 ^ (W - 1))); done || lia. Qed.

(** The value of an outcome known to be normal. *)
Definition is_ok {A} (o : outcome A) : bool := match o with Ok _ => true | Err _ => false end.
Definition ok_or {A} (d : A) (o : outcome A) : A := match o with Ok a => a | Err _ => d end.

Lemma ok_or_spec {A} (d : A) o : is_ok o = true → o = Ok (ok_or d o).
Proof. by destruct o. Qed.

Lemma bind_Ok {A B} (f : A → outcome B) (o : outcome A) b :
  (o ≫= f) = Ok b ↔ ∃ a, o = Ok a ∧ f a = Ok b.
Proof. destruct o; simpl; split; [eauto|naive_solver|done|naive_solver]. Qed.

Lemma require_Ok b e u : require b e = Ok u ↔ b = true.
Proof. destruct u, b; unfold require; naive_solver. Qed.

Lemma of_option_Ok {A} e (o : option A) a : of_option e o = Ok a ↔ o = Some a.
Proof. destruct o; simpl; naive_solver. Qed.

(** Exchanging two entries. *)
Lemma list_swap_perm {A} (l : list A) i j x y :
  l !! i = Some x → l !! j = Some y → <[j := x]> (<[i := y]> l) ≡ₚ l.
Proof.
  intros Hi Hj. destruct (decide (i = j)) as [->|Hne].
  { assert (x = y) as -> by congruence. rewrite list_insert_insert_eq. by rewrite list_insert_id. }
  assert (∀ a b (u v : A), (a < b)%nat → l !! a = Some u → l !! b = Some v →
    <[a := v]> (<[b := u]> l) ≡ₚ l) as H.
  { intros a b u v Hab Ha Hb.
    apply list_elem_of_split_length in Ha as (t & r & -> & ->).
    rewrite lookup_app_r in Hb by lia. replace (b - length t)%nat with (S (b - S (length t))) in Hb by lia.
    cbn [lookup list_lookup] in Hb. apply list_elem_of_split_length in Hb as (m & d & -> & Hm).
    rewrite (insert_app_r_alt t) by lia. replace (b - length t)%nat with (S (length m)) by lia.
    cbn [list_insert insert]. rewrite (insert_app_r_alt m), Nat.sub_diag by lia. cbn [list_insert insert].
    rewrite (insert_app_r_alt t), Nat.sub_diag by lia. cbn [list_insert insert].
    apply Permutation_app_head. rewrite <-!Permutation_middle. apply Permutation_swap. }
  destruct (decide (i < j)%nat).
  - rewrite list_insert_insert_ne by done. by apply H.
  - apply H; [lia|done|done].
Qed.

(** ** Lists *)

(** Element access of a C array, out of range indices included. *)
Definition aget {A} (l : list A) (i : Z) : outcome A :=
  if i <? 0 then Err FBounds else of_option FBounds (l !! Z.to_nat i).
Definition aset {A} (l : list A) (i : Z) (x : A) : outcome (list A) :=
  if (0 <=? i) && (i <? Z.of_nat (length l)) then Ok (<[Z.to_nat i := x]> l) else Err FBounds.

Lemma aget_nat {A} (l : list A) (i : nat) x : l !! i = Some x → aget l (Z.of_nat i) = Ok x.
Proof.
  intros Hl. unfold aget. destruct (Z.ltb_spec (Z.of_nat i) 0); [lia|].
  by rewrite Nat2Z.id, Hl.
Qed.

Lemma aset_nat {A} (l : list A) (i : nat) x :
  (i < length l)%nat → aset l (Z.of_nat i) x = Ok (<[i := x]> l).
Proof.
  intros Hl. unfold aset. destruct (Z.leb_spec 0 (Z.of_nat i)), (Z.ltb_spec (Z.of_nat i) (Z.of_nat (length l)));
    simpl; try lia. by rewrite Nat2Z.id.
Qed.

Lemma aget_Ok {A} (l : list A) i x :
  aget l i = Ok x ↔ 0 ≤ i ∧ l !! Z.to_nat i = Some x.
Proof.
  unfold aget. destruct (Z.ltb_spec i 0).
  - split; [done|]. intros []; lia.
  - rewrite of_option_Ok. naive_solver.
Qed.

Lemma list_filter_ext_in {A} (P Q : A → Prop) `{∀ x, Decision (P x), ∀ x, Decision (Q x)} (l : list A) :
  (∀ x, x ∈ l → P x ↔ Q x) → filter P l = filter Q l.
Proof.
  induction l as [|x l IH]; intros Hl; [done|]. rewrite !filter_cons.
  rewrite IH by (intros; apply Hl; set_solver).
  assert (P x ↔ Q x) by (apply Hl; set_solver). repeat case_decide; tauto.
Qed.

Lemma list_filter_all {A} (P : A → Prop) `{∀ x, Decision (P x)} (l : list A) :
  Forall P l → filter P l = l.
Proof. induction 1; [done|]. rewrite filter_cons, decide_True by done. congruence. Qed.

Lemma list_filter_none {A} (P : A → Prop) `{∀ x, Decision (P x)} (l : list A) :
  Forall (λ x, ¬ P x) l → filter P l = [].
Proof. induction 1; [done|]. by rewrite filter_cons, decide_False. Qed.

(** ** Error codes of [hexo/error.h] used by the modelled components *)
Definition ENOENT : Z := 2.
Definition EBUSY : Z := 3.
Definition ENOMEM : Z := 4.
Definition EINVAL : Z := 5.
Definition EDEADLK : Z := 6.
Definition EPERM : Z := 7.
Definition ENOTSUP : Z := 8.
