(* ===== verification/Sched.v ===== *)
(** * The context scheduler (mutek/scheduler.c)

    The running queue, the idle processor list and the processors' current
    contexts; each primitive is one critical section of the scheduler lock
    (the lock is taken by the caller and released by the context that is
    resumed, so nothing else touches the queue in between).  The idle loop is
    modelled with its sleeping and polling points, and the theorems show that
    contexts are never lost or duplicated and that an idle processor is never
    left asleep while work is queued. *)

From S2P Require Import Prelude.

Module Sched.

(** An execution context: an ordinary thread or the idle context of a
    processor ([CPU_LOCAL struct sched_context_s sched_idle]). *)
Inductive sched_context := Ctx (n : nat) | IdleCtx (cpu : nat).

#[export] Instance sched_context_eq_dec : EqDecision sched_context.
Proof. solve_decision. Defined.

(** Build options: [CONFIG_MUTEK_SCHEDULER_CANDIDATE_FCN] and
    [CONFIG_HEXO_IPI]. *)
Record sched_config := { candidate_fcn : bool; hexo_ipi : bool }.

(** [struct scheduler_s]: the running queue and the idle processors, each
    known by its IPI endpoint (one per processor). *)
Record scheduler_s := { root : list sched_context; idle_cpu : list nat }.

(** A processor: its current context and, for an idle one, whether it is
    inside [cpu_interrupt_wait]. *)
Record cpu_state := { sched_cur : sched_context; asleep : bool }.

(** The whole system: the shared scheduler, the processors and the IPIs that
    were posted and not yet received. *)
Record sched_sys := { sched : scheduler_s; cpus : list cpu_state; ipi : list nat }.

(** ** Base operations *)

(** The first queued context accepted by [is_candidate], and the rest. *)
Fixpoint pop_candidate (is_candidate : sched_context → bool)
    (q : list sched_context) : option (sched_context * list sched_context) :=
  match q with
  | [] => None
  | c :: q' =>
      if is_candidate c then Some (c, q')
      else match pop_candidate is_candidate q' with
           | Some (c', q'') => Some (c', c :: q'')
           | None => None
           end
  end.

Section ops.
Context (cfg : sched_config).

(** [is_candidate] is [NULL] or the function installed by
    [sched_context_candidate_fcn]: [None] accepts the context. *)
Context (is_candidate : sched_context → option bool).

Definition __sched_candidate_noidle (q : list sched_context)
    : option (sched_context * list sched_context) :=
  if candidate_fcn cfg
  then pop_candidate (λ c, default true (is_candidate c)) q
  else match q with [] => None | c :: q' => Some (c, q') end.

Definition __sched_candidate (cpu : nat) (q : list sched_context)
    : sched_context * list sched_context :=
  match __sched_candidate_noidle q with
  | Some r => r
  | None => (IdleCtx cpu, q)
  end.

(** Append to the running queue; with IPIs, take one idle processor off the
    idle list and post it an IPI. *)
Definition __sched_context_push (c : sched_context) (s : sched_sys) : sched_sys :=
  let q := root (sched s) ++ [c] in
  match hexo_ipi cfg, idle_cpu (sched s) with
  | true, e :: idle' =>
      {| sched := {| root := q; idle_cpu := idle' |};
         cpus := cpus s; ipi := e :: ipi s |}
  | _, idle =>
      {| sched := {| root := q; idle_cpu := idle |}; cpus := cpus s; ipi := ipi s |}
  end.

(** ** Switching *)

Definition set_cpu (cpu : nat) (c : cpu_state) (s : sched_sys) : sched_sys :=
  {| sched := sched s; cpus := <[cpu := c]> (cpus s); ipi := ipi s |}.

Definition set_root (q : list sched_context) (s : sched_sys) : sched_sys :=
  {| sched := {| root := q; idle_cpu := idle_cpu (sched s) |};
     cpus := cpus s; ipi := ipi s |}.

(** What the idle context does once it owns the processor and the scheduler
    lock and found nothing to run: declare itself idle, unlock, sleep. *)
Definition idle_sleep (cpu : nat) (s : sched_sys) : sched_sys :=
  let s := set_cpu cpu {| sched_cur := IdleCtx cpu; asleep := true |} s in
  if hexo_ipi cfg
  then {| sched := {| root := root (sched s); idle_cpu := cpu :: idle_cpu (sched s) |};
          cpus := cpus s; ipi := ipi s |}
  else s.

(** [context_switch_to]: the resumed context runs and releases the scheduler
    lock; an idle context resumes in its loop, after the candidate test. *)
Definition context_switch_to (cpu : nat) (next : sched_context) (s : sched_sys) : sched_sys :=
  match next with
  | Ctx n => set_cpu cpu {| sched_cur := Ctx n; asleep := false |} s
  | IdleCtx _ => idle_sleep cpu s
  end.

Definition get_cur (cpu : nat) (s : sched_sys) : outcome sched_context :=
  c ← of_option FBounds (cpus s !! cpu); Ok (sched_cur c).

Definition sched_context_switch (cpu : nat) (s : sched_sys) : outcome sched_sys :=
  cur ← get_cur cpu s;
  match __sched_candidate_noidle (root (sched s)) with
  | Some (next, q) => Ok (context_switch_to cpu next (set_root (q ++ [cur]) s))
  | None => Ok s
  end.

(** [sched_context_exit], called with the scheduler locked. *)
Definition sched_context_exit (cpu : nat) (s : sched_sys) : outcome sched_sys :=
  _ ← get_cur cpu s;
  let '(next, q) := __sched_candidate cpu (root (sched s)) in
  Ok (context_switch_to cpu next (set_root q s)).

Definition sched_context_start (c : sched_context) (s : sched_sys) : sched_sys :=
  __sched_context_push c s.

(** [sched_wait_callback]: queue the current context, lock the scheduler, run
    the callback (a state transformer that must leave the scheduler alone),
    switch. *)
Definition sched_wait_callback {A} (cpu : nat) (queue : list sched_context)
    (callback : A → A) (a : A) (s : sched_sys)
    : outcome (list sched_context * A * sched_sys) :=
  cur ← get_cur cpu s;
  let a' := callback a in
  let '(next, q) := __sched_candidate cpu (root (sched s)) in
  Ok (queue ++ [cur], a', context_switch_to cpu next (set_root q s)).

Definition sched_wait_unlock (cpu : nat) (queue : list sched_context) (s : sched_sys)
    : outcome (list sched_context * sched_sys) :=
  cur ← get_cur cpu s;
  let '(next, q) := __sched_candidate cpu (root (sched s)) in
  Ok (queue ++ [cur], context_switch_to cpu next (set_root q s)).

Definition sched_context_stop (cpu : nat) (s : sched_sys) : outcome sched_sys :=
  _ ← get_cur cpu s;
  let '(next, q) := __sched_candidate cpu (root (sched s)) in
  Ok (context_switch_to cpu next (set_root q s)).

(** [sched_context_stop_unlock] also releases the spinlock it is given. *)
Definition sched_context_stop_unlock (cpu : nat) (lock : bool) (s : sched_sys)
    : outcome (bool * sched_sys) :=
  s' ← sched_context_stop cpu s; Ok (false, s').

Definition sched_wake (queue : list sched_context) (s : sched_sys)
    : option sched_context * list sched_context * sched_sys :=
  match queue with
  | [] => (None, [], s)
  | c :: queue' => (Some c, queue', __sched_context_push c s)
  end.

(** ** The idle loop *)

(** One turn of [sched_context_idle] from the wake-up to the next sleep: take
    the lock; when still declared idle go back to sleep, else poll the running
    queue. *)
Definition sched_context_idle (cpu : nat) (s : sched_sys) : sched_sys :=
  if hexo_ipi cfg && bool_decide (cpu ∈ idle_cpu (sched s))
  then set_cpu cpu {| sched_cur := IdleCtx cpu; asleep := true |} s
  else match __sched_candidate_noidle (root (sched s)) with
       | Some (next, q) => context_switch_to cpu next (set_root q s)
       | None => idle_sleep cpu s
       end.
End ops.

(** ** The system as a transition system *)

(** The scheduler together with every wait queue of the kernel and the
    contexts that are stopped outside any queue. *)
Record world := { sys : sched_sys; queues : list (list sched_context);
                  stopped : list sched_context }.

Definition is_thread (c : sched_context) : bool :=
  match c with Ctx _ => true | IdleCtx _ => false end.

Definition thread_of (c : cpu_state) : option sched_context :=
  if is_thread (sched_cur c) then Some (sched_cur c) else None.

(** Every thread context, where it is. *)
Definition threads (s : sched_sys) : list sched_context :=
  root (sched s) ++ omap thread_of (cpus s).
Definition contexts (w : world) : list sched_context :=
  threads (sys w) ++ concat (queues w) ++ stopped w.

Definition runs (s : sched_sys) (cpu : nat) (c : sched_context) : Prop :=
  ∃ b, cpus s !! cpu = Some {| sched_cur := c; asleep := b |}.

Section steps.
Context (cfg : sched_config) (is_candidate : sched_context → option bool).

(** What a step does to the set of contexts, by the primitive that is called. *)
Inductive label := Moves | Creates (n : nat) | Ends (n : nat).

(** One step: a primitive called by the thread that runs on a processor, a
    wake-up or start (by any code), an interrupt, or a turn of an idle loop. *)
Inductive step : label → world → world → Prop :=
| step_switch w cpu n s' :
    runs (sys w) cpu (Ctx n) →
    sched_context_switch cfg is_candidate cpu (sys w) = Ok s' →
    step Moves w {| sys := s'; queues := queues w; stopped := stopped w |}
| step_stop w cpu n s' :
    runs (sys w) cpu (Ctx n) →
    sched_context_stop cfg is_candidate cpu (sys w) = Ok s' →
    step Moves w {| sys := s'; queues := queues w; stopped := Ctx n :: stopped w |}
| step_exit w cpu n s' :
    runs (sys w) cpu (Ctx n) →
    sched_context_exit cfg is_candidate cpu (sys w) = Ok s' →
    step (Ends n) w {| sys := s'; queues := queues w; stopped := stopped w |}
| step_wait w cpu n k q q' s' :
    runs (sys w) cpu (Ctx n) → queues w !! k = Some q →
    sched_wait_unlock cfg is_candidate cpu q (sys w) = Ok (q', s') →
    step Moves w {| sys := s'; queues := <[k := q']> (queues w); stopped := stopped w |}
| step_wake w k q c q' s' :
    queues w !! k = Some q →
    sched_wake cfg q (sys w) = (c, q', s') →
    step Moves w {| sys := s'; queues := <[k := q']> (queues w); stopped := stopped w |}
| step_restart w i c :
    stopped w !! i = Some c →
    step Moves w {| sys := sched_context_start cfg c (sys w); queues := queues w;
              stopped := delete i (stopped w) |}
| step_create w n :
    Ctx n ∉ contexts w →
    step (Creates n) w {| sys := sched_context_start cfg (Ctx n) (sys w); queues := queues w;
              stopped := stopped w |}
| step_irq w cpu :
    runs (sys w) cpu (IdleCtx cpu) →
    step Moves w {| sys := set_cpu cpu {| sched_cur := IdleCtx cpu; asleep := false |} (sys w);
              queues := queues w; stopped := stopped w |}
| step_ipi w i cpu c :
    ipi (sys w) !! i = Some cpu →
    cpus (sys w) !! cpu = Some c →
    step Moves w {| sys := {| sched := sched (sys w);
                        cpus := <[cpu := {| sched_cur := sched_cur c; asleep := false |}]>
                                  (cpus (sys w));
                        ipi := delete i (ipi (sys w)) |};
              queues := queues w; stopped := stopped w |}
| step_idle w cpu :
    cpus (sys w) !! cpu = Some {| sched_cur := IdleCtx cpu; asleep := false |} →
    step Moves w {| sys := sched_context_idle cfg is_candidate cpu (sys w);
              queues := queues w; stopped := stopped w |}.

(** [ncpu] processors and [nq] empty wait queues; the bootstrap processor runs
    the application's main context, the others enter the idle loop. *)
Definition initial (ncpu nq : nat) : world :=
  {| sys := {| sched := {| root := []; idle_cpu := [] |};
               cpus := {| sched_cur := Ctx 0; asleep := false |} ::
                       ((λ i, {| sched_cur := IdleCtx i; asleep := false |}) <$> seq 1 ncpu);
               ipi := [] |};
     queues := replicate nq []; stopped := [] |}.

Inductive reachable (ncpu nq : nat) : world → Prop :=
| reach_init : reachable ncpu nq (initial ncpu nq)
| reach_step l w w' : reachable ncpu nq w → step l w w' → reachable ncpu nq w'.
End steps.

(** ** Conservation of contexts *)

Lemma pop_candidate_perm f q c q' :
  pop_candidate f q = Some (c, q') → q ≡ₚ c :: q'.
Proof.
  revert c q'; induction q as [|a q IH]; intros c q' H; simplify_eq/=.
  destruct (f a); [by simplify_eq|].
  destruct (pop_candidate f q) as [[c' q'']|]; simplify_eq/=.
  rewrite (IH _ _ eq_refl). apply Permutation_swap.
Qed.

Lemma candidate_noidle_perm cfg f q c q' :
  __sched_candidate_noidle cfg f q = Some (c, q') → q ≡ₚ c :: q'.
Proof.
  unfold __sched_candidate_noidle. destruct (candidate_fcn cfg).
  - apply pop_candidate_perm.
  - destruct q; naive_solver.
Qed.

Lemma set_cpu_threads s cpu c c' :
  cpus s !! cpu = Some c →
  option_list (thread_of c) ++ threads (set_cpu cpu c' s)
  ≡ₚ option_list (thread_of c') ++ threads s.
Proof.
  intros Hc. unfold threads, set_cpu; simpl.
  rewrite (insert_take_drop _ _ _ (lookup_lt_Some _ _ _ Hc)).
  rewrite <-(take_drop_middle _ _ _ Hc) at 3.
  rewrite !omap_app. simpl.
  destruct (thread_of c), (thread_of c'); simpl; solve_Permutation.
Qed.

Definition thread_list (c : sched_context) : list sched_context :=
  if is_thread c then [c] else [].

Lemma switch_to_threads cfg cpu next s c :
  cpus s !! cpu = Some c →
  thread_list (sched_cur c) ++ threads (context_switch_to cfg cpu next s)
  ≡ₚ thread_list next ++ threads s.
Proof.
  intros Hc. unfold thread_list.
  assert (∀ d b, is_thread d = is_thread next → (is_thread d = true → d = next) →
    (if is_thread (sched_cur c) then [sched_cur c] else [])
    ++ threads (set_cpu cpu {| sched_cur := d; asleep := b |} s)
    ≡ₚ (if is_thread next then [next] else []) ++ threads s) as H.
  { intros d b Hd He.
    pose proof (set_cpu_threads s cpu c {| sched_cur := d; asleep := b |} Hc) as P.
    unfold thread_of in P; simpl in P. rewrite Hd in P.
    destruct (is_thread next); [rewrite (He Hd) in P |- *|];
      by destruct (is_thread (sched_cur c)). }
  destruct next as [n|i]; simpl; [by apply (H (Ctx n))|].
  unfold idle_sleep. specialize (H (IdleCtx cpu) true).
  destruct (hexo_ipi cfg); simpl in *; unfold threads in *; simpl in *; by apply H.
Qed.

Lemma set_root_threads q s :
  threads (set_root q s) = q ++ omap thread_of (cpus s).
Proof. done. Qed.

Lemma push_threads cfg c s :
  threads (__sched_context_push cfg c s) ≡ₚ c :: threads s.
Proof.
  unfold __sched_context_push, threads.
  destruct (hexo_ipi cfg), (idle_cpu (sched s)); simpl; solve_Permutation.
Qed.

Lemma candidate_perm cfg f cpu q c q' :
  Forall is_thread q →
  __sched_candidate cfg f cpu q = (c, q') →
  q ≡ₚ thread_list c ++ q' ∧ (is_thread c = false → c = IdleCtx cpu).
Proof.
  unfold __sched_candidate. intros Hq.
  destruct (__sched_candidate_noidle cfg f q) as [[d r]|] eqn:E; intros; simplify_eq/=.
  - apply candidate_noidle_perm in E. rewrite E in Hq. inversion Hq as [|?? Hd]; subst.
    unfold thread_list. destruct (is_thread c); simpl; [done|done].
  - done.
Qed.

(** Replacing the current thread [cur] by the next candidate (the common end of
    [sched_context_stop], [_exit], [_wait_unlock]) takes exactly [cur] out of
    the scheduled contexts. *)
Lemma leave_threads cfg f cpu s cur b next q :
  Forall is_thread (root (sched s)) →
  cpus s !! cpu = Some {| sched_cur := cur; asleep := b |} →
  is_thread cur →
  __sched_candidate cfg f cpu (root (sched s)) = (next, q) →
  cur :: threads (context_switch_to cfg cpu next (set_root q s)) ≡ₚ threads s.
Proof.
  intros Hr Hc Hcur Hn. apply candidate_perm in Hn as [Hn _]; [|done].
  pose proof (switch_to_threads cfg cpu next (set_root q s) _ Hc) as P.
  unfold thread_list in P at 1; simpl in P. rewrite Is_true_true in Hcur.
  rewrite Hcur in P. simpl in P. rewrite P, set_root_threads.
  unfold threads. rewrite Hn. solve_Permutation.
Qed.

Lemma get_cur_Ok cpu s c b :
  cpus s !! cpu = Some {| sched_cur := c; asleep := b |} → get_cur cpu s = Ok c.
Proof. intros H. unfold get_cur. by rewrite H. Qed.

Section op_threads.
Context (cfg : sched_config) (f : sched_context → option bool).
Context (s : sched_sys) (Hr : Forall is_thread (root (sched s))).

Lemma switch_threads cpu n s' :
  runs s cpu (Ctx n) → sched_context_switch cfg f cpu s = Ok s' → threads s' ≡ₚ threads s.
Proof using Hr.
  intros [b Hc] H. unfold sched_context_switch in H.
  erewrite get_cur_Ok in H by done. simpl in H.
  destruct (__sched_candidate_noidle _ _ _) as [[next q]|] eqn:E; simplify_eq/=; [|done].
  pose proof (candidate_noidle_perm _ _ _ _ _ E) as Pq.
  pose proof (switch_to_threads cfg cpu next (set_root (q ++ [Ctx n]) s) _ Hc) as P.
  rewrite Pq in Hr. inversion Hr as [|?? Hnext]; subst.
  unfold thread_list in P; simpl in P. destruct (is_thread next); [|done].
  rewrite set_root_threads in P. simpl in P.
  apply (Permutation_cons_inv (a:=Ctx n)). rewrite P.
  unfold threads. rewrite Pq. solve_Permutation.
Qed.

Lemma stop_threads cpu n s' :
  runs s cpu (Ctx n) → sched_context_stop cfg f cpu s = Ok s' →
  Ctx n :: threads s' ≡ₚ threads s.
Proof using Hr.
  intros [b Hc] H. unfold sched_context_stop in H.
  erewrite get_cur_Ok in H by done. simpl in H.
  destruct (__sched_candidate _ _ _ _) as [next q] eqn:E; simplify_eq/=.
  exact (leave_threads _ _ _ _ _ _ _ _ Hr Hc I E).
Qed.

Lemma wait_threads cpu n q q' s' :
  runs s cpu (Ctx n) → sched_wait_unlock cfg f cpu q s = Ok (q', s') →
  q' = q ++ [Ctx n] ∧ Ctx n :: threads s' ≡ₚ threads s.
Proof using Hr.
  intros [b Hc] H. unfold sched_wait_unlock in H.
  erewrite get_cur_Ok in H by done. simpl in H.
  destruct (__sched_candidate _ _ _ _) as [next q0] eqn:E; simplify_eq/=.
  split; [done|]. exact (leave_threads _ _ _ _ _ _ _ _ Hr Hc I E).
Qed.

Lemma set_idle_threads cpu b b' :
  cpus s !! cpu = Some {| sched_cur := IdleCtx cpu; asleep := b |} →
  threads (set_cpu cpu {| sched_cur := IdleCtx cpu; asleep := b' |} s) ≡ₚ threads s.
Proof. intros Hc. exact (set_cpu_threads _ _ _ {| sched_cur := IdleCtx cpu; asleep := b' |} Hc). Qed.

Lemma idle_threads cpu b :
  cpus s !! cpu = Some {| sched_cur := IdleCtx cpu; asleep := b |} →
  threads (sched_context_idle cfg f cpu s) ≡ₚ threads s.
Proof using Hr.
  intros Hc. unfold sched_context_idle. case_match; [by eapply set_idle_threads|].
  destruct (__sched_candidate_noidle _ _ _) as [[next q]|] eqn:E.
  - pose proof (candidate_noidle_perm _ _ _ _ _ E) as Pq.
    rewrite Pq in Hr. inversion Hr as [|?? Hnext]; subst.
    pose proof (switch_to_threads cfg cpu next (set_root q s) _ Hc) as P.
    unfold thread_list in P; simpl in P. destruct (is_thread next); [|done].
    rewrite P, set_root_threads. unfold threads. rewrite Pq. solve_Permutation.
  - exact (switch_to_threads cfg cpu (IdleCtx cpu) s _ Hc).
Qed.
End op_threads.

Lemma queue_update_concat (Q : list (list sched_context)) k q q' :
  Q !! k = Some q → q ++ concat (<[k:=q']> Q) ≡ₚ q' ++ concat Q.
Proof.
  intros Hq. rewrite (insert_take_drop _ _ _ (lookup_lt_Some _ _ _ Hq)).
  rewrite <-(take_drop_middle _ _ _ Hq) at 3.
  rewrite !concat_app; simpl. solve_Permutation.
Qed.

(** How the contexts before and after a step are related. *)
Definition changes (l : label) (c c' : list sched_context) : Prop :=
  match l with
  | Moves => c' ≡ₚ c
  | Creates n => c' ≡ₚ Ctx n :: c ∧ Ctx n ∉ c
  | Ends n => c ≡ₚ Ctx n :: c'
  end.

(** Each step changes the set of contexts only by creating or ending the one its
    primitive is called for. *)
Lemma step_contexts cfg f l w w' :
  Forall is_thread (root (sched (sys w))) →
  step cfg f l w w' → changes l (contexts w) (contexts w').
Proof.
  intros Hr Hs. unfold changes, contexts.
  destruct Hs as [w cpu n s' Hc H|w cpu n s' Hc H|w cpu n s' Hc H
    |w cpu n k q q' s' Hc Hq H|w k q c q' s' Hq H|w i c Hi|w n Hn
    |w cpu [b Hc]|w i cpu c Hi Hc|w cpu Hc]; simpl in *.
  - by rewrite (switch_threads _ _ _ Hr _ _ _ Hc H).
  - rewrite <-(stop_threads _ _ _ Hr _ _ _ Hc H). solve_Permutation.
  - by rewrite <-(stop_threads _ _ _ Hr _ _ _ Hc H).
  - destruct (wait_threads _ _ _ Hr _ _ _ _ _ Hc H) as [-> P]. rewrite <-P.
    pose proof (queue_update_concat _ _ _ (q ++ [Ctx n]) Hq) as Q.
    rewrite <-(assoc (++)), (Permutation_app_comm [_]) in Q.
    apply (Permutation_app_inv_l) in Q. rewrite Q. solve_Permutation.
  - pose proof (queue_update_concat _ _ _ q' Hq) as Q.
    destruct q as [|d q]; simplify_eq/=; [by rewrite Q|].
    rewrite push_threads. rewrite (Permutation_middle q') in Q.
    apply Permutation_app_inv_l in Q. rewrite <-Q. solve_Permutation.
  - unfold sched_context_start. rewrite push_threads.
    pose proof (delete_Permutation (stopped w) i c Hi) as P.
    set (d := delete i (stopped w)) in *. rewrite P. solve_Permutation.
  - split; [|done].
    unfold sched_context_start. by rewrite push_threads.
  - by rewrite (set_idle_threads _ _ b).
  - pose proof (set_cpu_threads _ _ _ {| sched_cur := sched_cur c; asleep := false |} Hc) as P.
    unfold thread_of in P; simpl in P. apply Permutation_app_inv_l in P. by rewrite <-P.
  - by rewrite (idle_threads _ _ _ Hr _ _ Hc).
Qed.

(** ** Idle processors and inter-processor interrupts *)

Definition idle_at (s : sched_sys) (i : nat) : bool :=
  match cpus s !! i with Some c => negb (is_thread (sched_cur c)) | None => false end.

(** The processors that are in their idle loop. *)
Definition idle_set (s : sched_sys) : list nat :=
  filter (λ i, idle_at s i) (seq 0 (length (cpus s))).

Lemma elem_of_idle_set s i : i ∈ idle_set s ↔ idle_at s i.
Proof.
  unfold idle_set. rewrite list_elem_of_filter, elem_of_seq. split; [tauto|].
  intros H. split; [done|]. unfold idle_at in H.
  destruct (cpus s !! i) eqn:E; [|done]. apply lookup_lt_Some in E. lia.
Qed.

Lemma idle_set_NoDup s : NoDup (idle_set s).
Proof. apply NoDup_filter, NoDup_seq. Qed.

Lemma idle_set_cpus s s' : cpus s = cpus s' → idle_set s = idle_set s'.
Proof. unfold idle_set, idle_at. by intros ->. Qed.

Lemma idle_at_set_cpu s cpu c i :
  (cpu < length (cpus s))%nat →
  idle_at (set_cpu cpu c s) i =
  if decide (cpu = i) then negb (is_thread (sched_cur c)) else idle_at s i.
Proof.
  intros Hlt. unfold idle_at, set_cpu; simpl. case_decide; subst.
  - by rewrite list_lookup_insert_eq.
  - by rewrite list_lookup_insert_ne.
Qed.

Lemma idle_set_same s cpu c c' :
  cpus s !! cpu = Some c → is_thread (sched_cur c) = is_thread (sched_cur c') →
  idle_set (set_cpu cpu c' s) ≡ₚ idle_set s.
Proof.
  intros Hc Ht. apply NoDup_Permutation; [apply idle_set_NoDup..|]. intros i.
  rewrite !elem_of_idle_set, idle_at_set_cpu by (by eapply lookup_lt_Some).
  case_decide; subst; [|done]. unfold idle_at. by rewrite Hc, Ht.
Qed.

(** A processor that goes from a thread to the idle context joins the set. *)
Lemma idle_set_enter s cpu c c' :
  cpus s !! cpu = Some c → is_thread (sched_cur c) → is_thread (sched_cur c') = false →
  idle_set (set_cpu cpu c' s) ≡ₚ cpu :: idle_set s.
Proof.
  intros Hc Ht Ht'. rewrite Is_true_true in Ht.
  apply NoDup_Permutation; [apply idle_set_NoDup|constructor; [|apply idle_set_NoDup]|].
  - rewrite elem_of_idle_set. unfold idle_at. rewrite Hc, Ht. by intros [].
  - intros i. rewrite elem_of_cons, !elem_of_idle_set,
      idle_at_set_cpu by (by eapply lookup_lt_Some).
    case_decide; subst; [rewrite Ht'; simpl; tauto|split; [by right|by intros [->|]]].
Qed.

Lemma idle_set_leave s cpu c c' :
  cpus s !! cpu = Some c → is_thread (sched_cur c) = false → is_thread (sched_cur c') →
  idle_set s ≡ₚ cpu :: idle_set (set_cpu cpu c' s).
Proof.
  intros Hc Ht Ht'. rewrite Is_true_true in Ht'.
  assert (cpu < length (cpus s))%nat by (by eapply lookup_lt_Some).
  apply NoDup_Permutation; [apply idle_set_NoDup|constructor; [|apply idle_set_NoDup]|].
  - rewrite elem_of_idle_set, idle_at_set_cpu, decide_True, Ht' by done. by intros [].
  - intros i. rewrite elem_of_cons, !elem_of_idle_set, idle_at_set_cpu by done.
    case_decide; subst; [|split; [by right|by intros [->|]]]. unfold idle_at. rewrite Hc, Ht. simpl; tauto.
Qed.

(** The invariant of the idle machinery.  [inv_work] counts: while a processor
    is declared idle, there are at least as many idle processors that have been
    taken off the list (hence awake or with an IPI posted) as queued contexts. *)
Record idle_inv (cfg : sched_config) (s : sched_sys) : Prop := {
  inv_own i j b : cpus s !! i = Some {| sched_cur := IdleCtx j; asleep := b |} → j = i;
  inv_noipi : hexo_ipi cfg = false → idle_cpu (sched s) = [];
  inv_declared_nodup : NoDup (idle_cpu (sched s));
  inv_declared i : i ∈ idle_cpu (sched s) → idle_at s i;
  inv_sleep i : hexo_ipi cfg = true →
    cpus s !! i = Some {| sched_cur := IdleCtx i; asleep := true |} →
    i ∉ idle_cpu (sched s) → i ∈ ipi s;
  inv_work : idle_cpu (sched s) ≠ [] →
    (length (root (sched s)) + length (idle_cpu (sched s)) ≤ length (idle_set s))%nat }.

Section idle.
Context (cfg : sched_config).

Lemma inv_declared_length s :
  idle_inv cfg s → (length (idle_cpu (sched s)) ≤ length (idle_set s))%nat.
Proof.
  intros [_ _ Hnd Hd _ _]. apply submseteq_length, NoDup_submseteq; [done|].
  intros i Hi. rewrite elem_of_idle_set. auto.
Qed.

Lemma push_idle_inv c s : idle_inv cfg s → idle_inv cfg (__sched_context_push cfg c s).
Proof.
  intros [Ho Hn Hnd Hd Hs Hw]. unfold __sched_context_push.
  destruct (hexo_ipi cfg) eqn:Ei; [destruct (idle_cpu (sched s)) as [|e l] eqn:El|].
  - constructor; simpl; rewrite ?El; try done; set_solver.
  - apply NoDup_cons in Hnd as [He Hnd]. constructor; simpl; [done|congruence|done|set_solver|..].
    + intros i _ Hi Hni. destruct (decide (i = e)) as [->|]; [set_solver|].
      apply list_elem_of_further, Hs; set_solver.
    + intros _. specialize (Hw ltac:(done)).
      rewrite length_app, (idle_set_cpus _ s) by done. simpl in *. lia.
  - rewrite (Hn eq_refl) in *. constructor; simpl; try done. congruence.
Qed.

(** Switching processor [cpu] from a thread to another thread. *)
Lemma set_thread_idle_inv s cpu c n q :
  idle_inv cfg s → cpus s !! cpu = Some c → is_thread (sched_cur c) →
  (length q ≤ length (root (sched s)))%nat →
  idle_inv cfg (set_cpu cpu {| sched_cur := Ctx n; asleep := false |} (set_root q s)).
Proof.
  intros [Ho Hn Hnd Hd Hs Hw] Hc Ht Hq.
  assert (cpu < length (cpus s))%nat by (by eapply lookup_lt_Some).
  set (c' := {| sched_cur := Ctx n; asleep := false |}).
  assert (idle_set (set_cpu cpu c' (set_root q s)) ≡ₚ idle_set s) as P.
  { apply (idle_set_same (set_root q s) cpu c); [done|]. by destruct (is_thread _). }
  constructor; simpl; [|done|done|..].
  - intros i j b. rewrite list_lookup_insert. case_decide; naive_solver.
  - intros i Hi. specialize (Hd i Hi). change (idle_at (set_cpu cpu c' (set_root q s)) i).
    rewrite idle_at_set_cpu by done. case_decide; subst; [|done].
    unfold idle_at in Hd. rewrite Hc in Hd. by destruct (is_thread _).
  - intros i Hi. rewrite list_lookup_insert. case_decide; naive_solver.
  - intros Hne. rewrite P. specialize (Hw Hne). lia.
Qed.

(** An idle processor that is not declared idle takes a queued context. *)
Lemma set_picked_idle_inv s cpu b n q :
  idle_inv cfg s → cpus s !! cpu = Some {| sched_cur := IdleCtx cpu; asleep := b |} →
  cpu ∉ idle_cpu (sched s) → (S (length q) ≤ length (root (sched s)))%nat →
  idle_inv cfg (set_cpu cpu {| sched_cur := Ctx n; asleep := false |} (set_root q s)).
Proof.
  intros [Ho Hn Hnd Hd Hs Hw] Hc Hni Hq.
  assert (cpu < length (cpus s))%nat by (by eapply lookup_lt_Some).
  set (c' := {| sched_cur := Ctx n; asleep := false |}).
  pose proof (idle_set_leave (set_root q s) cpu _ c' Hc eq_refl I) as P.
  apply Permutation_length in P. rewrite (idle_set_cpus _ s) in P by done. simpl in P.
  constructor; simpl; [|done|done|..].
  - intros i j b'. rewrite list_lookup_insert. case_decide; naive_solver.
  - intros i Hi. specialize (Hd i Hi). change (idle_at (set_cpu cpu c' (set_root q s)) i).
    rewrite idle_at_set_cpu by done. case_decide; subst; done.
  - intros i Hi. rewrite list_lookup_insert. case_decide; naive_solver.
  - intros Hne. specialize (Hw Hne). lia.
Qed.

(** A processor that finds the running queue empty goes to sleep. *)
Lemma idle_sleep_inv s cpu c :
  idle_inv cfg s → cpus s !! cpu = Some c → cpu ∉ idle_cpu (sched s) →
  root (sched s) = [] → idle_inv cfg (idle_sleep cfg cpu s).
Proof.
  intros Hinv Hc Hni Hroot. pose proof Hinv as [Ho Hn Hnd Hd Hs Hw].
  assert (cpu < length (cpus s))%nat by (by eapply lookup_lt_Some).
  set (c' := {| sched_cur := IdleCtx cpu; asleep := true |}).
  assert (cpu :: idle_cpu (sched s) ⊆+ idle_set (set_cpu cpu c' s)) as Hsub.
  { apply NoDup_submseteq; [by constructor|]. intros i Hi.
    rewrite elem_of_idle_set, idle_at_set_cpu by done.
    case_decide; [done|]. apply Hd. set_solver. }
  apply submseteq_length in Hsub.
  unfold idle_sleep. destruct (hexo_ipi cfg) eqn:Ei; constructor; simpl.
  - intros i j b. rewrite list_lookup_insert. case_decide; naive_solver.
  - congruence.
  - by constructor.
  - intros i Hi. change (idle_at (set_cpu cpu c' s) i).
    rewrite idle_at_set_cpu by done. case_decide; [done|]. apply Hd. set_solver.
  - intros i _. rewrite list_lookup_insert. case_decide; set_solver.
  - intros _. rewrite Hroot. rewrite (idle_set_cpus _ (set_cpu cpu c' s)) by done.
    simpl in *. lia.
  - intros i j b. rewrite list_lookup_insert. case_decide; naive_solver.
  - auto.
  - done.
  - intros i Hi. rewrite (Hn eq_refl) in Hi. set_solver.
  - congruence.
  - intros Hne. by rewrite (Hn eq_refl) in Hne.
Qed.

(** A change of an idle processor's sleep state. *)
Lemma set_awake_idle_inv s cpu c ipi' :
  idle_inv cfg s → cpus s !! cpu = Some c →
  (∀ i, i ≠ cpu → i ∈ ipi s → i ∈ ipi') →
  idle_inv cfg {| sched := sched s;
    cpus := <[cpu := {| sched_cur := sched_cur c; asleep := false |}]> (cpus s);
    ipi := ipi' |}.
Proof.
  intros [Ho Hn Hnd Hd Hs Hw] Hc Hip.
  assert (cpu < length (cpus s))%nat by (by eapply lookup_lt_Some).
  set (c' := {| sched_cur := sched_cur c; asleep := false |}).
  pose proof (idle_set_same s cpu c c' Hc eq_refl) as P.
  constructor; simpl; [|done|done|..].
  - intros i j b. rewrite list_lookup_insert. case_decide; [|naive_solver].
    intros. destruct c; naive_solver.
  - intros i Hi. specialize (Hd i Hi). change (idle_at (set_cpu cpu c' s) i).
    rewrite idle_at_set_cpu by done. case_decide; subst; [|done].
    unfold idle_at in Hd. by rewrite Hc in Hd.
  - intros i Hi. rewrite list_lookup_insert. case_decide; [naive_solver|].
    intros. apply Hip; [naive_solver|]. by apply Hs.
  - intros Hne. rewrite (idle_set_cpus _ (set_cpu cpu c' s)), P by done. auto.
Qed.

Lemma declared_not_thread s cpu c :
  idle_inv cfg s → cpus s !! cpu = Some c → is_thread (sched_cur c) →
  cpu ∉ idle_cpu (sched s).
Proof.
  intros Hinv Hc Ht Hin. apply (inv_declared _ _ Hinv) in Hin.
  unfold idle_at in Hin. rewrite Hc in Hin. by destruct (is_thread _).
Qed.
End idle.

Section idle_steps.
Context (cfg : sched_config) (f : sched_context → option bool).
Hypothesis Hfcn : candidate_fcn cfg = false.

Lemma candidate_noidle_head q :
  __sched_candidate_noidle cfg f q = match q with [] => None | c :: q' => Some (c, q') end.
Proof using Hfcn. unfold __sched_candidate_noidle. by rewrite Hfcn. Qed.

Lemma stop_idle_inv s cpu n s' :
  idle_inv cfg s → Forall is_thread (root (sched s)) → runs s cpu (Ctx n) →
  sched_context_stop cfg f cpu s = Ok s' → idle_inv cfg s'.
Proof using Hfcn.
  intros Hinv Hr [b Hc] H. unfold sched_context_stop, __sched_candidate in H.
  erewrite get_cur_Ok in H by done. simpl in H. rewrite candidate_noidle_head in H.
  destruct (root (sched s)) as [|c q] eqn:E; simplify_eq/=.
  - eapply idle_sleep_inv; [|done|by apply (declared_not_thread cfg s _ _ Hinv Hc)|done].
    destruct Hinv as [Ho Hn Hnd Hd Hs Hw]. constructor; simpl; try done.
    rewrite E in Hw. by rewrite (idle_set_cpus _ s).
  - inversion Hr as [|?? Hthr]; subst. destruct c as [m|]; [|done].
    eapply set_thread_idle_inv; [done..|]. rewrite E. simpl; lia.
Qed.

Lemma switch_idle_inv s cpu n s' :
  idle_inv cfg s → Forall is_thread (root (sched s)) → runs s cpu (Ctx n) →
  sched_context_switch cfg f cpu s = Ok s' → idle_inv cfg s'.
Proof using Hfcn.
  intros Hinv Hr [b Hc] H. unfold sched_context_switch in H.
  erewrite get_cur_Ok in H by done. simpl in H. rewrite candidate_noidle_head in H.
  destruct (root (sched s)) as [|c q] eqn:E; simplify_eq/=; [done|].
  inversion Hr as [|?? Hthr]; subst. destruct c as [m|]; [|done].
  eapply set_thread_idle_inv; [done..|]. rewrite E, length_app. simpl; lia.
Qed.

Lemma wait_idle_inv s cpu n q q' s' :
  idle_inv cfg s → Forall is_thread (root (sched s)) → runs s cpu (Ctx n) →
  sched_wait_unlock cfg f cpu q s = Ok (q', s') → idle_inv cfg s'.
Proof using Hfcn.
  intros Hinv Hr Hc H. eapply stop_idle_inv; [done..|].
  unfold sched_wait_unlock in H. unfold sched_context_stop.
  destruct (get_cur cpu s); simpl in *; [|done].
  destruct (__sched_candidate _ _ _ _). by simplify_eq.
Qed.

Lemma idle_turn_inv s cpu b :
  idle_inv cfg s → Forall is_thread (root (sched s)) →
  cpus s !! cpu = Some {| sched_cur := IdleCtx cpu; asleep := b |} →
  idle_inv cfg (sched_context_idle cfg f cpu s).
Proof using Hfcn.
  intros Hinv Hr Hc. unfold sched_context_idle. rewrite candidate_noidle_head.
  destruct (hexo_ipi cfg && _) eqn:Ed.
  - apply andb_true_iff in Ed as [Ei Ed%bool_decide_eq_true].
    destruct Hinv as [Ho Hn Hnd Hd Hs Hw].
    pose proof (idle_set_same s cpu _ {| sched_cur := IdleCtx cpu; asleep := true |} Hc eq_refl) as P.
    assert (cpu < length (cpus s))%nat by (by eapply lookup_lt_Some).
    constructor; [|done|done|..].
    + intros i j b'. simpl. rewrite list_lookup_insert. case_decide; naive_solver.
    + intros i Hi. rewrite idle_at_set_cpu by done. case_decide; [done|]. by apply Hd.
    + intros i _. simpl. rewrite list_lookup_insert. case_decide; naive_solver.
    + intros Hne. rewrite P. auto.
  - assert (cpu ∉ idle_cpu (sched s)) as Hni.
    { intros Hin. destruct (hexo_ipi cfg) eqn:Ei.
      - by rewrite bool_decide_eq_true_2 in Ed.
      - by rewrite (inv_noipi _ _ Hinv Ei) in Hin; apply not_elem_of_nil in Hin. }
    destruct (root (sched s)) as [|c q] eqn:E.
    + by eapply idle_sleep_inv.
    + inversion Hr as [|?? Hthr]; subst. destruct c as [m|]; [|done].
      eapply set_picked_idle_inv; [done..|]. rewrite E. simpl; lia.
Qed.

Lemma step_idle_inv l w w' :
  idle_inv cfg (sys w) → Forall is_thread (root (sched (sys w))) →
  step cfg f l w w' → idle_inv cfg (sys w').
Proof using Hfcn.
  intros Hinv Hr Hs.
  destruct Hs as [w cpu n s' Hc H|w cpu n s' Hc H|w cpu n s' Hc H
    |w cpu n k q q' s' Hc Hq H|w k q c q' s' Hq H|w i c Hi|w n Hn
    |w cpu [b Hc]|w i cpu c Hi Hc|w cpu Hc]; simpl.
  - by eapply switch_idle_inv.
  - by eapply stop_idle_inv.
  - by eapply stop_idle_inv.
  - by eapply wait_idle_inv.
  - destruct q; simplify_eq/=; [done|by apply push_idle_inv].
  - by apply push_idle_inv.
  - by apply push_idle_inv.
  - by eapply (set_awake_idle_inv _ _ _ _ (ipi (sys w)) Hinv Hc).
  - eapply set_awake_idle_inv; [done..|]. intros j Hj Hin.
    rewrite (delete_Permutation _ _ _ Hi) in Hin. set_solver.
  - by eapply idle_turn_inv.
Qed.
End idle_steps.

(** ** Reachable states *)

Record ctx_inv (w : world) : Prop := {
  inv_is_thread : Forall is_thread (contexts w);
  inv_nodup : NoDup (contexts w) }.

Lemma ctx_inv_root w : ctx_inv w → Forall is_thread (root (sched (sys w))).
Proof.
  intros [H _]. unfold contexts, threads in H. rewrite !Forall_app in H. tauto.
Qed.

Lemma step_ctx_inv cfg f l w w' : ctx_inv w → step cfg f l w w' → ctx_inv w'.
Proof.
  intros Hw Hs. pose proof (step_contexts _ _ _ _ _ (ctx_inv_root _ Hw) Hs) as P.
  destruct Hw as [Ht Hd]. destruct l as [|n|n]; cbn in P.
  - constructor; by rewrite P.
  - destruct P as [P Hn]. constructor; rewrite P; by constructor.
  - rewrite P in Ht, Hd. apply NoDup_cons in Hd as [_ Hd].
    by inversion Ht; constructor.
Qed.

Lemma initial_idle_none ncpu :
  omap thread_of ((λ i, {| sched_cur := IdleCtx i; asleep := false |}) <$> seq 1 ncpu) = [].
Proof. generalize 1%nat. induction ncpu as [|k IH]; intros m; simpl; [done|apply IH]. Qed.

Lemma initial_contexts ncpu nq : contexts (initial ncpu nq) = [Ctx 0].
Proof.
  unfold contexts, threads; simpl. rewrite initial_idle_none.
  assert (concat (replicate nq []) = @nil sched_context) as -> by (by induction nq).
  done.
Qed.

Lemma initial_idle_inv cfg ncpu nq : idle_inv cfg (sys (initial ncpu nq)).
Proof.
  constructor; simpl; try done; [|constructor|set_solver|].
  - intros [|i] j b; simpl; [done|]. rewrite list_lookup_fmap, fmap_Some.
    intros (k & [-> ?]%lookup_seq & ?). simplify_eq. lia.
  - intros [|i] _; simpl; [done|]. rewrite list_lookup_fmap, fmap_Some.
    intros (k & _ & ?). simplify_eq.
Qed.

Lemma reachable_ctx_inv cfg f ncpu nq w : reachable cfg f ncpu nq w → ctx_inv w.
Proof.
  induction 1 as [|l w w' _ IH Hs]; [|by eapply step_ctx_inv].
  constructor; rewrite initial_contexts; [by repeat constructor|apply NoDup_singleton].
Qed.

Lemma reachable_idle_inv cfg f ncpu nq w :
  candidate_fcn cfg = false → reachable cfg f ncpu nq w → idle_inv cfg (sys w).
Proof.
  intros Hf H. induction H as [|l w w' Hr IH Hs]; [apply initial_idle_inv|].
  eapply step_idle_inv; [done..| |done]. eapply ctx_inv_root, reachable_ctx_inv, Hr.
Qed.



(** ** Properties *)

(** C3.  In every reachable state each thread context is in exactly one place
    (on one processor, in the running queue, in one wait queue, or stopped), and
    switch, stop, wait, wake, restart, interrupts and the idle loop only move contexts
    around: a context appears only when it is started for the first time, and
    disappears only when it runs on a processor and calls [sched_context_exit]
    itself. *)
Theorem contexts_conserved cfg f ncpu nq l w w' :
  reachable cfg f ncpu nq w → step cfg f l w w' →
  NoDup (contexts w) ∧ NoDup (contexts w') ∧
  match l with
  | Moves => contexts w' ≡ₚ contexts w
  | Creates n => contexts w' ≡ₚ Ctx n :: contexts w ∧ Ctx n ∉ contexts w
  | Ends n => contexts w ≡ₚ Ctx n :: contexts w' ∧
      ∃ cpu, runs (sys w) cpu (Ctx n) ∧ sched_context_exit cfg f cpu (sys w) = Ok (sys w')
  end.
Proof.
  intros Hr Hs. pose proof (reachable_ctx_inv _ _ _ _ _ Hr) as Hi.
  split; [by apply inv_nodup|]. split; [by eapply inv_nodup, step_ctx_inv|].
  pose proof (step_contexts _ _ _ _ _ (ctx_inv_root _ Hi) Hs) as P.
  destruct l as [|n|n]; [exact P|exact P|]. split; [exact P|]. inversion Hs; subst; eauto.
Qed.

(** The undeclared idle processors: awake, or with an interrupt on its way. *)
Definition undeclared (s : sched_sys) : list nat := filter (λ i, i ∉ idle_cpu (sched s)) (idle_set s).

Lemma undeclared_notified cfg s cpu : hexo_ipi cfg = true → idle_inv cfg s → cpu ∈ undeclared s →
  ∃ b, cpus s !! cpu = Some {| sched_cur := IdleCtx cpu; asleep := b |} ∧ (b = false ∨ cpu ∈ ipi s).
Proof.
  intros Hi Hinv [Hni Hin]%list_elem_of_filter. apply elem_of_idle_set in Hin. unfold idle_at in Hin.
  destruct (cpus s !! cpu) as [[[n|j] b]|] eqn:Hc; try done.
  pose proof (inv_own _ _ Hinv _ _ _ Hc) as ->. exists b. split; [done|]. destruct b; [right|by left]. by eapply inv_sleep.
Qed.

Lemma undeclared_length cfg s : idle_inv cfg s → length (idle_set s) = (length (idle_cpu (sched s)) + length (undeclared s))%nat.
Proof.
  intros Hinv. rewrite <-length_app. apply Permutation_length, NoDup_Permutation; [apply idle_set_NoDup|..].
  - apply NoDup_app. split_and!; [apply Hinv| |apply NoDup_filter, idle_set_NoDup].
    intros i Hi. unfold undeclared. rewrite list_elem_of_filter. tauto.
  - intros i. unfold undeclared. rewrite elem_of_app, list_elem_of_filter.
    destruct (decide (i ∈ idle_cpu (sched s))) as [Hd|Hd]; [|tauto].
    rewrite elem_of_idle_set. pose proof (inv_declared _ _ Hinv i Hd). tauto.
Qed.

(** C5.  No wake-up is lost, with inter-processor interrupts and without candidate
    functions.  While contexts are queued either every processor runs a thread, or
    some idle processor has been taken off the idle list and is awake or has an
    interrupt posted to it, so that it will poll the running queue.  And while some
    processor is still declared idle there is such a processor for each queued
    context. *)
Theorem idle_wakeup_not_lost cfg f ncpu nq w :
  candidate_fcn cfg = false → hexo_ipi cfg = true →
  reachable cfg f ncpu nq w →
  (∀ cpu, cpu ∈ undeclared (sys w) →
     ∃ b, cpus (sys w) !! cpu = Some {| sched_cur := IdleCtx cpu; asleep := b |} ∧ (b = false ∨ cpu ∈ ipi (sys w))) ∧
  (root (sched (sys w)) ≠ [] → Forall (λ c, is_thread (sched_cur c)) (cpus (sys w)) ∨ undeclared (sys w) ≠ []) ∧
  (idle_cpu (sched (sys w)) ≠ [] → (length (root (sched (sys w))) ≤ length (undeclared (sys w)))%nat).
Proof.
  intros Hf Hi Hr. pose proof (reachable_idle_inv _ _ _ _ _ Hf Hr) as Hinv.
  pose proof (undeclared_length _ _ Hinv) as Hl.
  assert (idle_cpu (sched (sys w)) ≠ [] → (length (root (sched (sys w))) ≤ length (undeclared (sys w)))%nat) as Hcount.
  { intros Hd. pose proof (inv_work _ _ Hinv Hd). lia. }
  split_and!; [intros cpu; by apply (undeclared_notified cfg)| |done].
  intros Hq. destruct (undeclared (sys w)) as [|i l] eqn:Eu; [left|by right].
  assert (idle_cpu (sched (sys w)) = []) as Ed.
  { destruct (idle_cpu (sched (sys w))); [done|]. destruct (root _); [done|]. specialize (Hcount ltac:(done)). simpl in *. lia. }
  rewrite Ed in Hl. simpl in Hl. apply nil_length_inv in Hl. apply Forall_lookup. intros i c Hc.
  destruct (is_thread (sched_cur c)) eqn:Et; [done|]. assert (i ∈ idle_set (sys w)) as Hx.
  { apply elem_of_idle_set. unfold idle_at. by rewrite Hc, Et. }
  rewrite Hl in Hx. by apply elem_of_nil in Hx.
Qed.

(** ** Witnesses *)

Definition demo_cfg := {| candidate_fcn := false; hexo_ipi := true |}.

(** Two processors go idle, then the first one starts a thread. *)
Definition demo_idle1 : world :=
  {| sys := sched_context_idle demo_cfg (λ _, None) 1 (sys (initial 2 1));
     queues := [[]]; stopped := [] |}.
Definition demo_idle2 : world :=
  {| sys := sched_context_idle demo_cfg (λ _, None) 2 (sys demo_idle1);
     queues := [[]]; stopped := [] |}.
Definition demo_world : world :=
  {| sys := sched_context_start demo_cfg (Ctx 1) (sys demo_idle2);
     queues := [[]]; stopped := [] |}.

Lemma demo_reachable : reachable demo_cfg (λ _, None) 2 1 demo_world.
Proof.
  apply (reach_step _ _ _ _ (Creates 1) demo_idle2); [apply (reach_step _ _ _ _ Moves demo_idle1);
    [apply (reach_step _ _ _ _ Moves (initial 2 1)); [apply reach_init|]|]|].
  - by apply (step_idle _ _ (initial 2 1) 1).
  - by apply (step_idle _ _ demo_idle1 2).
  - apply (step_create _ _ demo_idle2 1). by apply (bool_decide_unpack _).
Qed.

Lemma contexts_conserved_witness : NoDup (contexts demo_idle1) ∧ contexts demo_idle1 ≡ₚ contexts (initial 2 1).
Proof.
  destruct (contexts_conserved demo_cfg (λ _, None) 2 1 Moves (initial 2 1) demo_idle1) as (_ & H1 & H2).
  - apply reach_init.
  - by apply (step_idle _ _ (initial 2 1) 1).
  - split; [exact H1|exact H2].
Defined.

Lemma idle_wakeup_not_lost_witness :
  root (sched (sys demo_world)) = [Ctx 1] ∧ idle_cpu (sched (sys demo_world)) = [1%nat] ∧ undeclared (sys demo_world) ≠ [].
Proof.
  split_and!; [reflexivity..|].
  destruct (idle_wakeup_not_lost demo_cfg (λ _, None) 2 1 demo_world) as (_ & _ & H3);
    [reflexivity|reflexivity|apply demo_reachable|].
  intros E. rewrite E in H3. specialize (H3 ltac:(discriminate)). inversion H3.
Defined.

End Sched.
