(* ===== verification/Semaphore.v ===== *)
(** * Kernel counting semaphores (mutek/semaphore.c)

    The counter is kept at the width of [int_fast8_t]; a blocked taker leaves
    its debt in the counter (minus one), and [semaphore_give] wakes waiters
    while the counter is positive.  The theorems show that this accounting
    never grants more than was given, which waiters a give wakes, and that no
    waiter is left behind once everything asked for is available. *)

From S2P Require Import Prelude Sched.
Import Sched.

(** How a call made by a context ends: it returned a code, or the context is
    now queued and another one runs. *)
Inductive progress := Returned (err : Z) | Blocked.

Module Semaphore.

(** [struct semaphore_s] *)
Record semaphore_s := { count : Z; wait : list sched_context }.

Section ops.
(** Build options, candidate functions, and the width of [semaphore_count_t]. *)
Context (cfg : sched_config) (is_candidate : sched_context → option bool) (w : Z).

(** [lock_err] is what the spinlock initialisation of the queue returned. *)
Definition semaphore_init (value lock_err : Z) : Z * semaphore_s :=
  (lock_err, {| count := wraps w value; wait := [] |}).

Definition semaphore_take (cpu : nat) (value : Z) (sem : semaphore_s) (s : sched_sys)
    : outcome (progress * semaphore_s * sched_sys) :=
  let c := wraps w (count sem - value) in
  if c <? 0 then
    let c := wraps w (c + 1) in
    '(q, s') ← sched_wait_unlock cfg is_candidate cpu (wait sem) s;
    Ok (Blocked, {| count := c; wait := q |}, s')
  else Ok (Returned 0, {| count := c; wait := wait sem |}, s).

Definition semaphore_try_take (value : Z) (sem : semaphore_s) : Z * semaphore_s :=
  if count sem - value <? 0 then (EBUSY, sem)
  else (0, {| count := wraps w (count sem - value); wait := wait sem |}).

(** [while ((count > 0) && sched_wake(&wait)) count -= 1;] *)
Fixpoint give_loop (fuel : nat) (sem : semaphore_s) (s : sched_sys)
    : outcome (semaphore_s * sched_sys) :=
  match fuel with
  | O => Err FFuel
  | S fuel =>
      if 0 <? count sem then
        match sched_wake cfg (wait sem) s with
        | (Some _, q, s') => give_loop fuel {| count := wraps w (count sem - 1); wait := q |} s'
        | (None, q, s') => Ok ({| count := count sem; wait := q |}, s')
        end
      else Ok (sem, s)
  end.

Definition semaphore_give (value : Z) (sem : semaphore_s) (s : sched_sys)
    : outcome (semaphore_s * sched_sys) :=
  give_loop (S (length (wait sem)))
    {| count := wraps w (count sem + value); wait := wait sem |} s.

Definition semaphore_value (sem : semaphore_s) : Z := count sem.
End ops.

(** ** Which waiters a give wakes *)

Section give.
Context (cfg : sched_config) (w : Z) (Hw : 2 ≤ w).

(** Waking a list of contexts pushes them in order on the running queue. *)
Definition wake_all (cs : list sched_context) (s : sched_sys) : sched_sys :=
  foldl (λ s c, __sched_context_push cfg c s) s cs.

Lemma wake_all_root cs s : root (sched (wake_all cs s)) = root (sched s) ++ cs.
Proof.
  revert s; induction cs as [|c cs IH]; intros s; simpl; [by rewrite app_nil_r|].
  rewrite IH. unfold __sched_context_push.
  destruct (hexo_ipi cfg), (idle_cpu (sched s)); simpl; by rewrite <-(assoc (++)).
Qed.

Lemma give_loop_spec fuel sem s :
  -2 ^ (w - 1) ≤ count sem < 2 ^ (w - 1) →
  (length (wait sem) < fuel)%nat →
  let k := (Z.to_nat (count sem) `min` length (wait sem))%nat in
  give_loop cfg w fuel sem s =
    Ok ({| count := count sem - Z.of_nat k; wait := drop k (wait sem) |},
        wake_all (take k (wait sem)) s).
Proof using Hw.
  revert sem s; induction fuel as [|fuel IH]; intros [c q] s Hr Hl; simpl in *; [lia|].
  destruct (Z.ltb_spec 0 c) as [Hc|Hc].
  - destruct q as [|d q]; simpl in *.
    + rewrite Nat.min_0_r. simpl. do 3 f_equal. lia.
    + rewrite wraps_small by lia. rewrite IH by (simpl; lia). simpl.
      replace (Z.to_nat c) with (S (Z.to_nat (c - 1))) by lia. simpl.
      do 3 f_equal. lia.
  - replace (Z.to_nat c) with 0%nat by lia. simpl. do 3 f_equal. lia.
Qed.
End give.

(** ** Accounting *)

(** The semaphore in the system, with the history the C code does not keep:
    what each queued context asked for ([want], in queue order), the initial
    value plus everything given ([cap]) and everything granted ([taken]). *)
Record sem_world := { sem : semaphore_s; sch : sched_sys;
                      want : list Z; cap : Z; taken : Z }.

Definition zsum (l : list Z) : Z := foldr Z.add 0 l.

Section world.
Context (cfg : sched_config) (is_candidate : sched_context → option bool) (w : Z).

(** Values of the counter type: what a call may leave in the counter. *)
Definition in_count (x : Z) : Prop := -2 ^ (w - 1) ≤ x < 2 ^ (w - 1).

Inductive sem_step : sem_world → sem_world → Prop :=
| sem_take_now x cpu v sem' s' :
    1 ≤ v → in_count (count (sem x) - v) →
    semaphore_take cfg is_candidate w cpu v (sem x) (sch x) = Ok (Returned 0, sem', s') →
    sem_step x {| sem := sem'; sch := s'; want := want x; cap := cap x; taken := taken x + v |}
| sem_take_wait x cpu v sem' s' :
    1 ≤ v → in_count (count (sem x) - v) →
    semaphore_take cfg is_candidate w cpu v (sem x) (sch x) = Ok (Blocked, sem', s') →
    sem_step x {| sem := sem'; sch := s'; want := want x ++ [v]; cap := cap x; taken := taken x |}
| sem_try_ok x v sem' :
    1 ≤ v → semaphore_try_take w v (sem x) = (0, sem') →
    sem_step x {| sem := sem'; sch := sch x; want := want x; cap := cap x; taken := taken x + v |}
| sem_try_busy x v sem' :
    1 ≤ v → semaphore_try_take w v (sem x) = (EBUSY, sem') →
    sem_step x {| sem := sem'; sch := sch x; want := want x; cap := cap x; taken := taken x |}
| sem_give_some x v sem' s' :
    0 ≤ v → in_count (count (sem x) + v) →
    semaphore_give cfg w v (sem x) (sch x) = Ok (sem', s') →
    let k := (length (wait (sem x)) - length (wait sem'))%nat in
    sem_step x {| sem := sem'; sch := s'; want := drop k (want x);
                  cap := cap x + v; taken := taken x + zsum (take k (want x)) |}
| sem_other x s' :
    sem_step x {| sem := sem x; sch := s'; want := want x; cap := cap x; taken := taken x |}.

Inductive sem_reachable (value : Z) : sem_world → Prop :=
| sem_start s :
    0 ≤ value → in_count value →
    sem_reachable value {| sem := (semaphore_init w value 0).2; sch := s;
                           want := []; cap := value; taken := 0 |}
| sem_next x x' : sem_reachable value x → sem_step x x' → sem_reachable value x'.
End world.

(** [avail = cap - taken] is what remains to be granted. *)
Record sem_inv (w : Z) (sm : semaphore_s) (wants : list Z) (avail : Z) : Prop := {
  inv_range : -2 ^ (w - 1) ≤ count sm < 2 ^ (w - 1);
  inv_count : count sm + zsum wants - Z.of_nat (length wants) = avail;
  inv_avail : 0 ≤ avail;
  inv_want : Forall (λ v, 1 ≤ v) wants;
  inv_len : length wants = length (wait sm);
  inv_wait : wait sm ≠ [] → count sm ≤ 0;
  inv_nowait : wait sm = [] → 0 ≤ count sm }.

Lemma zsum_app l1 l2 : zsum (l1 ++ l2) = zsum l1 + zsum l2.
Proof. unfold zsum. induction l1; simpl; lia. Qed.

Lemma zsum_length l : Forall (λ v, 1 ≤ v) l → Z.of_nat (length l) ≤ zsum l.
Proof. unfold zsum. induction 1; simpl; lia. Qed.

Section preservation.
Context (w : Z) (Hw : 2 ≤ w).

Lemma take_now_inv sm wants avail v :
  sem_inv w sm wants avail → 1 ≤ v → 0 ≤ count sm - v →
  sem_inv w {| count := count sm - v; wait := wait sm |} wants (avail - v).
Proof.
  intros [Hr Hc Ha Hf Hl Hwt Hn] Hv H0.
  assert (wait sm = []) as E.
  { destruct (wait sm); [done|]. specialize (Hwt ltac:(done)). lia. }
  rewrite E in *. destruct wants; [|done].
  constructor; simpl in *; try done; lia.
Qed.

Lemma take_wait_inv sm wants avail v c :
  sem_inv w sm wants avail → 1 ≤ v →
  -2 ^ (w - 1) ≤ count sm - v < 0 →
  sem_inv w {| count := count sm - v + 1; wait := wait sm ++ [c] |} (wants ++ [v]) avail.
Proof.
  intros [Hr Hc Ha Hf Hl Hwt Hn] Hv H0.
  constructor; simpl; rewrite ?zsum_app, ?length_app; simpl in *; try lia.
  - apply Forall_app; split; [done|]. by repeat constructor.
  - intros E. by apply app_eq_nil in E as [_ ?].
Qed.

Lemma give_inv sm wants avail v :
  sem_inv w sm wants avail → 0 ≤ v → count sm + v < 2 ^ (w - 1) →
  let k := (Z.to_nat (count sm + v) `min` length (wait sm))%nat in
  sem_inv w {| count := count sm + v - Z.of_nat k; wait := drop k (wait sm) |}
    (drop k wants) (avail + v - zsum (take k wants)).
Proof.
  intros [Hr Hc Ha Hf Hl Hwt Hn] Hv Hb k.
  assert (zsum wants = zsum (take k wants) + zsum (drop k wants)) as E.
  { by rewrite <-zsum_app, take_drop. }
  pose proof (zsum_length _ (Forall_drop _ k _ Hf)) as Hd. rewrite length_drop in Hd.
  assert (k = 0%nat → zsum (take k wants) = 0) as Hz by (by intros ->).
  assert (length (drop k (wait sm)) = length (wait sm) - k)%nat as Hdl by apply length_drop.
  assert (wait sm = [] ∨ length (wait sm) ≠ 0%nat ∧ count sm ≤ 0) as Hcase.
  { destruct (wait sm) eqn:Ew; [by left|right]. split; [done|]. by apply Hwt. }
  constructor; simpl; rewrite ?length_drop.
  - lia.
  - lia.
  - destruct (decide (k = 0%nat)) as [->|]; simpl in *; lia.
  - by apply Forall_drop.
  - by rewrite Hl.
  - intros Hne. assert (length (drop k (wait sm)) ≠ 0%nat) by (by destruct (drop k (wait sm))). lia.
  - intros He. rewrite He in Hdl. simpl in Hdl.
    destruct Hcase as [E'|[]]; [specialize (Hn E')|]; lia.
Qed.
End preservation.

Lemma give_spec cfg w v sm s :
  2 ≤ w → -2 ^ (w - 1) ≤ count sm + v < 2 ^ (w - 1) →
  let k := (Z.to_nat (count sm + v) `min` length (wait sm))%nat in
  semaphore_give cfg w v sm s =
    Ok ({| count := count sm + v - Z.of_nat k; wait := drop k (wait sm) |},
        wake_all cfg (take k (wait sm)) s).
Proof.
  intros Hw Hb. unfold semaphore_give. rewrite wraps_small by lia.
  by rewrite give_loop_spec by (simpl; lia).
Qed.

Lemma take_spec cfg f w cpu v sm s r sm' s' :
  2 ≤ w → -2 ^ (w - 1) ≤ count sm - v < 2 ^ (w - 1) →
  semaphore_take cfg f w cpu v sm s = Ok (r, sm', s') →
  (r = Returned 0 ∧ 0 ≤ count sm - v ∧
     sm' = {| count := count sm - v; wait := wait sm |})
  ∨ (r = Blocked ∧ count sm - v < 0 ∧
     ∃ c, sm' = {| count := count sm - v + 1; wait := wait sm ++ [c] |}).
Proof.
  intros Hw Hb H. unfold semaphore_take in H. rewrite wraps_small in H by lia.
  destruct (Z.ltb_spec (count sm - v) 0); [right|left; by simplify_eq].
  apply bind_Ok in H as ([q s''] & E & ?); simplify_eq.
  unfold sched_wait_unlock in E. apply bind_Ok in E as (c & _ & E).
  destruct (__sched_candidate _ _ _ _); simplify_eq.
  rewrite wraps_small by lia. eauto.
Qed.

Definition world_inv (w : Z) (x : sem_world) : Prop :=
  sem_inv w (sem x) (want x) (cap x - taken x).

Lemma sem_step_inv cfg f w x x' :
  2 ≤ w → world_inv w x → sem_step cfg f w x x' → world_inv w x'.
Proof.
  intros Hw Hi Hs. unfold world_inv, in_count in *.
  destruct Hs as [x cpu v sem' s' Hv Hin H|x cpu v sem' s' Hv Hin H|x v sem' Hv H
    |x v sem' Hv H|x v sem' s' Hv Hin H k|x s']; simpl in *; unfold in_count in *.
  - apply (take_spec _ _ _ _ _ _ _ _ _ _ Hw Hin) in H as [(_ & ? & ->)|(? & _)]; [|done].
    rewrite Z.sub_add_distr. by apply take_now_inv.
  - apply (take_spec _ _ _ _ _ _ _ _ _ _ Hw Hin) in H as [(? & _)|(_ & ? & c & ->)]; [done|].
    apply take_wait_inv; [done|done|done|lia].
  - unfold semaphore_try_take in H. destruct (Z.ltb_spec (count (sem x) - v) 0); simplify_eq.
    pose proof (inv_range _ _ _ _ Hi). rewrite wraps_small by lia.
    rewrite Z.sub_add_distr. by apply take_now_inv.
  - unfold semaphore_try_take in H. by destruct (Z.ltb_spec (count (sem x) - v) 0); simplify_eq.
  - rewrite give_spec in H by done. simplify_eq/=. subst k.
    set (k := (Z.to_nat _ `min` _)%nat) in *. rewrite length_drop.
    replace (length (wait (sem x)) - (length (wait (sem x)) - k))%nat with k by lia.
    replace (cap x + v - (taken x + zsum (take k (want x))))
      with (cap x - taken x + v - zsum (take k (want x))) by lia.
    by apply give_inv; [..|lia].
  - done.
Qed.

Lemma sem_reachable_inv cfg f w value x :
  2 ≤ w → sem_reachable cfg f w value x → world_inv w x.
Proof.
  intros Hw. induction 1 as [s Hv Hin|x x' _ IH Hs]; [|by eapply sem_step_inv].
  unfold in_count, world_inv in *; simpl. rewrite wraps_small by lia.
  constructor; simpl; try done; lia.
Qed.

(** ** Properties *)

(** C34.  A semaphore never grants more than its initial value plus everything
    given to it, whatever the interleaving of takes (of any positive amount),
    try-takes and gives; and contexts wait only when the counter is exhausted. *)
Theorem semaphore_never_overcommits cfg f w value x :
  2 ≤ w → sem_reachable cfg f w value x →
  taken x ≤ cap x ∧ (wait (sem x) ≠ [] → count (sem x) ≤ 0) ∧
  length (want x) = length (wait (sem x)).
Proof.
  intros Hw Hr. pose proof (sem_reachable_inv _ _ _ _ _ Hw Hr) as [_ _ Ha _ Hl Hq _].
  split_and!; [lia|done|done].
Qed.

(**  No taker is left behind: as soon as what remains covers everything the
    queued contexts asked for, the wait queue is empty. *)
Theorem semaphore_all_served cfg f w value x :
  2 ≤ w → sem_reachable cfg f w value x →
  zsum (want x) ≤ cap x - taken x → wait (sem x) = [].
Proof.
  intros Hw Hr Hs. pose proof (sem_reachable_inv _ _ _ _ _ Hw Hr) as [_ Hc Ha _ Hl Hq _].
  destruct (wait (sem x)) as [|c q] eqn:E; [done|].
  specialize (Hq ltac:(done)). simpl in Hl. lia.
Qed.

(**  [semaphore_give] always terminates and wakes, in queue order, exactly
    the first [min (count + value) (length wait)] waiters, decrementing the
    counter once per waiter; they are appended to the running queue. *)
Theorem semaphore_give_wakes cfg w v sm s :
  2 ≤ w → -2 ^ (w - 1) ≤ count sm + v < 2 ^ (w - 1) →
  let k := (Z.to_nat (count sm + v) `min` length (wait sm))%nat in
  ∃ s', semaphore_give cfg w v sm s =
          Ok ({| count := count sm + v - Z.of_nat k; wait := drop k (wait sm) |}, s') ∧
        root (sched s') = root (sched s) ++ take k (wait sm).
Proof.
  intros Hw Hb k. eexists. split; [by apply give_spec|]. apply wake_all_root.
Qed.

(** ** Witnesses and an observed behaviour *)

(** Three processors, each running a thread. *)
Definition demo_sys : sched_sys :=
  {| sched := {| root := []; idle_cpu := [] |};
     cpus := (λ n, {| sched_cur := Ctx n; asleep := false |}) <$> [0; 1; 2]%nat;
     ipi := [] |}.

Definition demo_start : sem_world :=
  {| sem := (semaphore_init 8 2 0).2; sch := demo_sys; want := []; cap := 2; taken := 0 |}.

(** Thread 0 takes 5 of 2 and blocks, then 3 are given. *)
Definition demo_wait : sem_world :=
  {| sem := {| count := -2; wait := [Ctx 0] |};
     sch := set_cpu 0 {| sched_cur := IdleCtx 0; asleep := true |}
              {| sched := {| root := []; idle_cpu := [0%nat] |}; cpus := cpus demo_sys; ipi := [] |};
     want := [5]; cap := 2; taken := 0 |}.

Definition demo_given : sem_world :=
  {| sem := {| count := 0; wait := [] |};
     sch := wake_all demo_cfg [Ctx 0] (sch demo_wait);
     want := []; cap := 5; taken := 5 |}.

Lemma demo_given_reachable : sem_reachable demo_cfg (λ _, None) 8 2 demo_given.
Proof.
  apply (sem_next _ _ _ _ demo_wait); [apply (sem_next _ _ _ _ demo_start)|].
  - by apply sem_start.
  - by apply (sem_take_wait _ _ _ demo_start 0 5).
  - by apply (sem_give_some _ _ _ demo_wait 3).
Qed.

Lemma semaphore_never_overcommits_witness :
  taken demo_given ≤ cap demo_given.
Proof.
  refine (proj1 (semaphore_never_overcommits demo_cfg (λ _, None) 8 2 demo_given _ _));
    [lia|apply demo_given_reachable].
Defined.

Lemma semaphore_all_served_witness : wait (sem demo_given) = [].
Proof.
  refine (semaphore_all_served demo_cfg (λ _, None) 8 2 demo_given _ _ _);
    [lia|apply demo_given_reachable|vm_compute; discriminate].
Defined.

Lemma semaphore_give_wakes_witness :
  ∃ s', semaphore_give demo_cfg 8 3 (sem demo_wait) (sch demo_wait)
        = Ok ({| count := 0; wait := [] |}, s') ∧ root (sched s') = [Ctx 0].
Proof.
  refine (semaphore_give_wakes demo_cfg 8 3 (sem demo_wait) (sch demo_wait) _ _); simpl; lia.
Defined.

(** With the value 1 wanted by the first waiter and 3 by the second, giving 1
    wakes nobody although the first waiter's request is covered: the debt of
    every queued context is in the one counter. *)
Example partial_give_wakes_nobody :
  let '(sm, s) := ({| count := 0; wait := [] |}, demo_sys) in
  ∃ sm1 s1 sm2 s2,
    semaphore_take demo_cfg (λ _, None) 8 0 1 sm s = Ok (Blocked, sm1, s1) ∧
    semaphore_take demo_cfg (λ _, None) 8 1 3 sm1 s1 = Ok (Blocked, sm2, s2) ∧
    semaphore_give demo_cfg 8 1 sm2 s2 = Ok ({| count := -1; wait := [Ctx 0; Ctx 1] |}, s2).
Proof. do 4 eexists. split_and!; vm_compute; reflexivity. Qed.

End Semaphore.
