(* ===== verification/Rwlock.v ===== *)
(** * Kernel read/write locks (mutek/rwlock.c)

    One signed counter (negative: write locked, positive: number of readers)
    and two wait queues.  The theorems show mutual exclusion between a writer
    and everybody else under every interleaving, that nobody waits on a free
    lock, and how an unlock hands the lock over. *)

From S2P Require Import Prelude Sched Semaphore.
Import Sched.

Module Rwlock.

(** [struct rwlock_s] *)
Record rwlock_s := { count : Z; wait_rd : list sched_context; wait_wr : list sched_context }.

Definition is_nil {A} (l : list A) : bool := match l with [] => true | _ => false end.

Section ops.
(** Scheduler options, width of [int_fast8_t], and [CONFIG_DEBUG]. *)
Context (cfg : sched_config) (is_candidate : sched_context → option bool).
Context (w : Z) (debug : bool).

(** The arguments are the results of the two queue initialisations. *)
Definition rwlock_init (err_rd err_wr : Z) : Z * rwlock_s :=
  let rw := {| count := 0; wait_rd := []; wait_wr := [] |} in
  if err_rd =? 0 then if err_wr =? 0 then (0, rw) else (- ENOMEM, rw) else (- ENOMEM, rw).

Definition rwlock_rdlock (cpu : nat) (rw : rwlock_s) (s : sched_sys)
    : outcome (progress * rwlock_s * sched_sys) :=
  if (count rw <? 0) || negb (is_nil (wait_wr rw)) then
    '(q, s') ← sched_wait_unlock cfg is_candidate cpu (wait_rd rw) s;
    Ok (Blocked, {| count := count rw; wait_rd := q; wait_wr := wait_wr rw |}, s')
  else
    Ok (Returned 0, {| count := wraps w (count rw + 1);
                       wait_rd := wait_rd rw; wait_wr := wait_wr rw |}, s).

Definition rwlock_tryrdlock (rw : rwlock_s) : Z * rwlock_s :=
  if (count rw <? 0) || negb (is_nil (wait_wr rw)) then (- EBUSY, rw)
  else (0, {| count := wraps w (count rw + 1);
              wait_rd := wait_rd rw; wait_wr := wait_wr rw |}).

Definition rwlock_wrlock (cpu : nat) (rw : rwlock_s) (s : sched_sys)
    : outcome (progress * rwlock_s * sched_sys) :=
  if negb (count rw =? 0) then
    '(q, s') ← sched_wait_unlock cfg is_candidate cpu (wait_wr rw) s;
    Ok (Blocked, {| count := count rw; wait_rd := wait_rd rw; wait_wr := q |}, s')
  else
    Ok (Returned 0, {| count := wraps w (count rw - 1);
                       wait_rd := wait_rd rw; wait_wr := wait_wr rw |}, s).

(** The local [res] is computed and not returned. *)
Definition rwlock_trywrlock (rw : rwlock_s) : Z * rwlock_s :=
  let '(_, rw') :=
    if negb (count rw =? 0) then (- EBUSY, rw)
    else (0, {| count := wraps w (count rw - 1);
                wait_rd := wait_rd rw; wait_wr := wait_wr rw |}) in
  (0, rw').

(** [while (sched_wake(&rwlock->wait_rd)) rwlock->count++;] *)
Fixpoint wake_readers (fuel : nat) (rw : rwlock_s) (s : sched_sys)
    : outcome (rwlock_s * sched_sys) :=
  match fuel with
  | O => Err FFuel
  | S fuel =>
      match sched_wake cfg (wait_rd rw) s with
      | (Some _, q, s') =>
          wake_readers fuel {| count := wraps w (count rw + 1); wait_rd := q;
                               wait_wr := wait_wr rw |} s'
      | (None, q, s') =>
          Ok ({| count := count rw; wait_rd := q; wait_wr := wait_wr rw |}, s')
      end
  end.

Definition rwlock_unlock (rw : rwlock_s) (s : sched_sys) : outcome (Z * rwlock_s * sched_sys) :=
  if (count rw =? 1) || (count rw =? -1) then
    match sched_wake cfg (wait_wr rw) s with
    | (Some _, q, s') =>
        Ok (0, {| count := wraps w (0 - 1); wait_rd := wait_rd rw; wait_wr := q |}, s')
    | (None, q, s') =>
        '(rw', s'') ← wake_readers (S (length (wait_rd rw)))
                        {| count := 0; wait_rd := wait_rd rw; wait_wr := q |} s';
        Ok (0, rw', s'')
    end
  else if debug && (count rw =? 0) then Ok (- EPERM, rw, s)
  else Ok (0, {| count := wraps w (count rw - 1);
                 wait_rd := wait_rd rw; wait_wr := wait_wr rw |}, s).
End ops.

(** ** Functional behaviour *)

Section spec.
Context (cfg : sched_config) (f : sched_context → option bool) (w : Z) (debug : bool).
Context (Hw : 2 ≤ w).

Lemma pow2_w : 2 ≤ 2 ^ (w - 1).
Proof using Hw. apply (Z.pow_le_mono_r 2 1 (w - 1)); lia. Qed.

Lemma wake_readers_spec fuel rw s :
  0 ≤ count rw → count rw + Z.of_nat (length (wait_rd rw)) < 2 ^ (w - 1) →
  (length (wait_rd rw) < fuel)%nat →
  wake_readers cfg w fuel rw s =
    Ok ({| count := count rw + Z.of_nat (length (wait_rd rw)); wait_rd := [];
           wait_wr := wait_wr rw |}, Semaphore.wake_all cfg (wait_rd rw) s).
Proof using Hw.
  pose proof pow2_w.
  revert rw s; induction fuel as [|fuel IH]; intros [c rd wr] s H0 Hb Hl; simpl in *; [lia|].
  destruct rd as [|d rd]; simpl in *; [by rewrite Z.add_0_r|].
  rewrite wraps_small by lia. rewrite IH by (simpl; lia). simpl. do 3 f_equal. lia.
Qed.

(** The lock goes to the first waiting writer if there is one, else to all the
    waiting readers. *)
Lemma unlock_last_spec rw s :
  count rw = 1 ∨ count rw = -1 →
  Z.of_nat (length (wait_rd rw)) < 2 ^ (w - 1) →
  rwlock_unlock cfg w debug rw s =
  match wait_wr rw with
  | c :: q => Ok (0, {| count := -1; wait_rd := wait_rd rw; wait_wr := q |},
                  __sched_context_push cfg c s)
  | [] => Ok (0, {| count := Z.of_nat (length (wait_rd rw)); wait_rd := []; wait_wr := [] |},
              Semaphore.wake_all cfg (wait_rd rw) s)
  end.
Proof using Hw.
  intros Hc Hb. pose proof pow2_w. unfold rwlock_unlock.
  replace ((count rw =? 1) || (count rw =? -1)) with true by lia.
  destruct (wait_wr rw) as [|c q]; cbn [sched_wake].
  - by rewrite wake_readers_spec by (simpl; lia).
  - by rewrite wraps_small by lia.
Qed.

Lemma unlock_reader_spec rw s :
  2 ≤ count rw < 2 ^ (w - 1) →
  rwlock_unlock cfg w debug rw s =
  Ok (0, {| count := count rw - 1; wait_rd := wait_rd rw; wait_wr := wait_wr rw |}, s).
Proof using Hw.
  intros Hc. pose proof pow2_w. unfold rwlock_unlock.
  replace ((count rw =? 1) || (count rw =? -1)) with false by lia.
  replace (debug && (count rw =? 0)) with false by (destruct debug; lia).
  by rewrite wraps_small by lia.
Qed.
End spec.

(** ** Holders *)

(** The lock in the system, with the contexts whose last call told them that they
    hold it: the ones that got 0, or that were waiting and have been woken.  The C
    code keeps only the count. *)
Record rw_world := { rw : rwlock_s; sch : sched_sys;
                     readers : list sched_context; writers : list sched_context }.

Section world.
Context (cfg : sched_config) (f : sched_context → option bool) (w : Z) (debug : bool).
(** Whether somebody uses [rwlock_trywrlock]. *)
Context (trywr : bool).

Definition fits (n : nat) : Prop := Z.of_nat n < 2 ^ (w - 1).

(** The contexts that an unlock takes off a wait queue. *)
Definition left (q q' : list sched_context) : list sched_context := take (length q - length q') q.

(** [rw_unlock_writer]/[rw_unlock_reader]: a holder releases; the contexts that
    left a wait queue are the new holders. *)
Inductive rw_step : rw_world → rw_world → Prop :=
| rw_rd_now x cpu c r' s' :
    runs (sch x) cpu c → fits (S (length (readers x))) →
    rwlock_rdlock cfg f w cpu (rw x) (sch x) = Ok (Returned 0, r', s') →
    rw_step x {| rw := r'; sch := s'; readers := c :: readers x; writers := writers x |}
| rw_rd_wait x cpu r' s' :
    rwlock_rdlock cfg f w cpu (rw x) (sch x) = Ok (Blocked, r', s') →
    rw_step x {| rw := r'; sch := s'; readers := readers x; writers := writers x |}
| rw_tryrd x c e r' :
    fits (S (length (readers x))) →
    rwlock_tryrdlock w (rw x) = (e, r') →
    rw_step x {| rw := r'; sch := sch x;
                 readers := if e =? 0 then c :: readers x else readers x; writers := writers x |}
| rw_wr_now x cpu c r' s' :
    runs (sch x) cpu c →
    rwlock_wrlock cfg f w cpu (rw x) (sch x) = Ok (Returned 0, r', s') →
    rw_step x {| rw := r'; sch := s'; readers := readers x; writers := c :: writers x |}
| rw_wr_wait x cpu r' s' :
    rwlock_wrlock cfg f w cpu (rw x) (sch x) = Ok (Blocked, r', s') →
    rw_step x {| rw := r'; sch := s'; readers := readers x; writers := writers x |}
| rw_trywr x c e r' :
    trywr = true →
    rwlock_trywrlock w (rw x) = (e, r') →
    rw_step x {| rw := r'; sch := sch x; readers := readers x;
                 writers := if e =? 0 then c :: writers x else writers x |}
| rw_unlock_writer x i c r' s' :
    writers x !! i = Some c → fits (length (wait_rd (rw x))) →
    rwlock_unlock cfg w debug (rw x) (sch x) = Ok (0, r', s') →
    rw_step x {| rw := r'; sch := s';
                 readers := readers x ++ left (wait_rd (rw x)) (wait_rd r');
                 writers := delete i (writers x) ++ left (wait_wr (rw x)) (wait_wr r') |}
| rw_unlock_reader x i c r' s' :
    readers x !! i = Some c → fits (length (wait_rd (rw x))) →
    rwlock_unlock cfg w debug (rw x) (sch x) = Ok (0, r', s') →
    rw_step x {| rw := r'; sch := s';
                 readers := delete i (readers x) ++ left (wait_rd (rw x)) (wait_rd r');
                 writers := writers x ++ left (wait_wr (rw x)) (wait_wr r') |}
| rw_other x s' :
    rw_step x {| rw := rw x; sch := s'; readers := readers x; writers := writers x |}.

Inductive rw_reachable : rw_world → Prop :=
| rw_start s : rw_reachable {| rw := (rwlock_init 0 0).2; sch := s; readers := []; writers := [] |}
| rw_next x x' : rw_reachable x → rw_step x x' → rw_reachable x'.
End world.

Record rw_inv (w : Z) (x : rw_world) : Prop := {
  inv_holders : match writers x with
                | [] => count (rw x) = Z.of_nat (length (readers x))
                | [_] => readers x = [] ∧ count (rw x) = -1
                | _ => False
                end;
  inv_fits : fits w (length (readers x));
  inv_wr : wait_wr (rw x) ≠ [] → count (rw x) ≠ 0;
  inv_rd : wait_rd (rw x) ≠ [] → count (rw x) < 0 ∨ wait_wr (rw x) ≠ [] }.

Lemma is_nil_spec {A} (l : list A) : is_nil l = true ↔ l = [].
Proof. by destruct l. Qed.

Lemma wait_unlock_queue cfg f cpu q s q' s' :
  sched_wait_unlock cfg f cpu q s = Ok (q', s') → ∃ c, q' = q ++ [c].
Proof.
  unfold sched_wait_unlock. rewrite bind_Ok. intros (c & _ & H).
  destruct (__sched_candidate _ _ _ _). naive_solver.
Qed.

Section preservation.
Context (w : Z) (Hw : 2 ≤ w).

Lemma lock_free_inv x :
  rw_inv w x → count (rw x) = 0 → writers x = [] ∧ readers x = [] ∧
  wait_rd (rw x) = [] ∧ wait_wr (rw x) = [].
Proof.
  intros [Hh _ Hwr Hrd] H0.
  assert (wait_wr (rw x) = []) as E by (destruct (wait_wr _); naive_solver).
  destruct (writers x) as [|? [|]]; [|lia|done].
  destruct (readers x); [|simpl in *; lia].
  split_and!; [done..| |done]. destruct (wait_rd (rw x)); [done|].
  destruct Hrd; [done|lia|done].
Qed.

(** A successful read lock: not write locked and no writer waiting. *)
Lemma rdlock_now_inv x s c r' :
  rw_inv w x → fits w (S (length (readers x))) →
  (count (rw x) <? 0) || negb (is_nil (wait_wr (rw x))) = false →
  r' = {| count := wraps w (count (rw x) + 1);
          wait_rd := wait_rd (rw x); wait_wr := wait_wr (rw x) |} →
  rw_inv w {| rw := r'; sch := s; readers := c :: readers x; writers := writers x |}.
Proof using Hw.
  intros [Hh Hf Hwr Hrd] Hb Hc ->. unfold fits in *.
  apply orb_false_iff in Hc as [H0 Hn%negb_false_iff%is_nil_spec].
  pose proof (pow2_w w Hw). destruct (writers x) as [|? [|]] eqn:E; [|lia|done].
  rewrite wraps_small by lia. rewrite Hn in *.
  constructor; simpl; unfold fits in *; rewrite ?E; simpl in *; [lia|lia|done|].
  intros Hne. destruct Hrd; [done|lia|done].
Qed.

Lemma wrlock_now_inv x s c r' :
  rw_inv w x → count (rw x) = 0 →
  r' = {| count := wraps w (count (rw x) - 1);
          wait_rd := wait_rd (rw x); wait_wr := wait_wr (rw x) |} →
  rw_inv w {| rw := r'; sch := s; readers := readers x; writers := c :: writers x |}.
Proof using Hw.
  intros Hi H0 ->. destruct (lock_free_inv _ Hi H0) as (Hww & Hr & E1 & E2).
  pose proof (pow2_w w Hw). rewrite wraps_small by lia. rewrite E1, E2, Hr, H0, Hww.
  constructor; simpl; unfold fits; simpl; [done|lia|done|done].
Qed.

Context (cfg : sched_config) (debug : bool).

Lemma left_all q : left q [] = q.
Proof. unfold left. by rewrite Nat.sub_0_r, firstn_all. Qed.
Lemma left_none q : left q q = [].
Proof. unfold left. by rewrite Nat.sub_diag. Qed.
Lemma left_one c q : left (c :: q) q = [c].
Proof. unfold left. simpl length. by replace (S (length q) - length q)%nat with 1%nat by lia. Qed.

(** A release by the last holder. *)
Lemma unlock_last_inv x s r' s' :
  rw_inv w x → count (rw x) = 1 ∨ count (rw x) = -1 → fits w (length (wait_rd (rw x))) →
  rwlock_unlock cfg w debug (rw x) s = Ok (0, r', s') →
  rw_inv w {| rw := r'; sch := s'; readers := left (wait_rd (rw x)) (wait_rd r');
              writers := left (wait_wr (rw x)) (wait_wr r') |}.
Proof using Hw.
  intros [Hh Hf Hwr Hrd] H1 Hb H. pose proof (pow2_w w Hw). unfold fits in *.
  rewrite unlock_last_spec in H by done.
  destruct (wait_wr (rw x)) as [|c q] eqn:E; simplify_eq/=.
  - rewrite left_all. constructor; simpl; done.
  - rewrite left_none, left_one.
    constructor; simpl; unfold fits; simpl; [done|lia|done|left; lia].
Qed.

Context (f : sched_context → option bool).

Lemma rw_step_inv x x' : rw_inv w x → rw_step cfg f w debug false x x' → rw_inv w x'.
Proof using Hw.
  intros Hi Hs. pose proof Hi as [Hh Hf Hwr Hrd].
  destruct Hs as [x cpu c r' s' Hc Hb H|x cpu r' s' H|x c e r' Hb H|x cpu c r' s' Hc H
    |x cpu r' s' H|x c e r' Ht H|x i c r' s' Hc Hb H|x i c r' s' Hc Hb H|x s'].
  - unfold rwlock_rdlock in H. destruct (_ || _) eqn:E.
    + apply bind_Ok in H as ([] & _ & ?); simplify_eq.
    + simplify_eq. by eapply rdlock_now_inv.
  - unfold rwlock_rdlock in H. destruct (_ || _) eqn:E; [|simplify_eq].
    apply bind_Ok in H as ([q s2] & [c ->]%wait_unlock_queue & ?); simplify_eq.
    constructor; simpl; try done. intros _.
    apply orb_true_iff in E as [?|E]; [left; lia|right].
    by destruct (wait_wr (rw x)).
  - unfold rwlock_tryrdlock in H. destruct (_ || _) eqn:E; simplify_eq/=.
    + by constructor.
    + by eapply rdlock_now_inv.
  - unfold rwlock_wrlock in H. destruct (Z.eqb_spec (count (rw x)) 0) as [E|E]; simpl in H.
    + simplify_eq. by eapply wrlock_now_inv.
    + apply bind_Ok in H as ([] & _ & ?); simplify_eq.
  - unfold rwlock_wrlock in H. destruct (Z.eqb_spec (count (rw x)) 0) as [E|E]; [simplify_eq/=|].
    apply bind_Ok in H as ([q s2] & [c ->]%wait_unlock_queue & ?); simplify_eq.
    constructor; simpl; try done. intros Hne. right. intros Hn.
    by apply app_eq_nil in Hn as [_ ?].
  - done.
  - destruct (writers x) as [|? [|]] eqn:Ew; [done| |done]. destruct Hh as [Hr Hh]. destruct i; simplify_eq/=.
    rewrite Hr. eapply unlock_last_inv; [done| |done..]. lia.
  - destruct (writers x) as [|? [|]] eqn:Ew; [|destruct Hh as [Hh _]; by rewrite Hh in Hc|done]. simpl.
    pose proof (lookup_lt_Some _ _ _ Hc) as Hlt.
    destruct (decide (length (readers x) = 1)%nat) as [E1|E1].
    + destruct (readers x) as [|? [|]]; simplify_eq/=. destruct i; [|done]. simpl.
      eapply unlock_last_inv; [done| |done..]. lia.
    + unfold fits in *. rewrite unlock_reader_spec in H by lia. simplify_eq/=.
      rewrite !left_none. simpl. rewrite app_nil_r.
      assert (length (delete i (readers x)) = length (readers x) - 1)%nat as El.
      { rewrite length_delete by done. lia. }
      constructor; simpl; unfold fits; rewrite ?El; [lia|lia|intros; lia|].
      intros Hne. destruct (Hrd Hne); [lia|by right].
  - by constructor.
Qed.

Lemma rw_reachable_inv x : rw_reachable cfg f w debug false x → rw_inv w x.
Proof using Hw.
  pose proof (pow2_w w Hw).
  induction 1 as [s|x x' _ IH Hs]; [|by eapply rw_step_inv].
  constructor; simpl; unfold fits; simpl; done || lia.
Qed.
End preservation.

(** ** Properties *)

(** C35.  Mutual exclusion, by what the callers are told, under any interleaving of
    read, write and try-read locks and unlocks by holders, without
    [rwlock_trywrlock] and while the readers fit the counter: a context that was told
    that it holds the lock for writing is alone, and the counter is then [-1];
    otherwise the counter is exactly the number of readers.  A context waits only
    while somebody holds the lock. *)
Theorem rwlock_exclusion cfg f w debug x :
  2 ≤ w → rw_reachable cfg f w debug false x →
  match writers x with
  | [] => count (rw x) = Z.of_nat (length (readers x))
  | [_] => readers x = [] ∧ count (rw x) = -1
  | _ => False
  end ∧
  (wait_rd (rw x) ≠ [] ∨ wait_wr (rw x) ≠ [] → writers x ≠ [] ∨ readers x ≠ []).
Proof.
  intros Hw Hr. pose proof (rw_reachable_inv w Hw cfg debug f x Hr) as [Hh _ Hwr Hrd].
  split; [done|]. intros Hq. assert (count (rw x) ≠ 0) as Hne.
  { destruct Hq as [Hq|Hq]; [destruct (Hrd Hq)|]; auto. lia. }
  destruct (writers x); [right|by left]. by destruct (readers x).
Qed.

(**  The last release hands the lock over inside the same critical section:
    to the first waiting writer if there is one (readers keep waiting), else to
    every waiting reader at once, in queue order. *)
Theorem rwlock_unlock_handover cfg w debug r s :
  2 ≤ w → count r = 1 ∨ count r = -1 → Z.of_nat (length (wait_rd r)) < 2 ^ (w - 1) →
  ∃ s', root (sched s') = root (sched s) ++
          match wait_wr r with c :: _ => [c] | [] => wait_rd r end ∧
        rwlock_unlock cfg w debug r s =
          Ok (0, match wait_wr r with
                 | _ :: q => {| count := -1; wait_rd := wait_rd r; wait_wr := q |}
                 | [] => {| count := Z.of_nat (length (wait_rd r)); wait_rd := []; wait_wr := [] |}
                 end, s').
Proof.
  intros Hw Hc Hb. rewrite unlock_last_spec by done.
  destruct (wait_wr r) as [|c q]; eexists; (split; [|done]).
  - apply Semaphore.wake_all_root.
  - apply (Semaphore.wake_all_root cfg [c]).
Qed.

(**  [rwlock_trywrlock] reports success on a lock that is held: it returns
    0 whatever the state, and leaves a held lock unchanged. *)
Theorem rwlock_trywrlock_reports_success w r :
  (rwlock_trywrlock w r).1 = 0 ∧
  (count r ≠ 0 → (rwlock_trywrlock w r).2 = r).
Proof.
  unfold rwlock_trywrlock. destruct (Z.eqb_spec (count r) 0); simpl; [|done].
  split; [done|lia].
Qed.

(** ** Witnesses *)

Definition demo_free : rw_world :=
  {| rw := (rwlock_init 0 0).2; sch := Semaphore.demo_sys; readers := []; writers := [] |}.
Definition demo_write : rw_world :=
  {| rw := {| count := -1; wait_rd := []; wait_wr := [] |}; sch := Semaphore.demo_sys;
     readers := []; writers := [Ctx 0] |}.

Lemma rwlock_exclusion_witness : readers demo_write = [] ∧ count (rw demo_write) = -1.
Proof.
  refine (proj1 (rwlock_exclusion demo_cfg (λ _, None) 8 false demo_write _ _)); [lia|].
  apply (rw_next _ _ _ _ _ demo_free); [apply rw_start|].
  apply (rw_wr_now _ _ _ _ _ demo_free 0 (Ctx 0)); [by exists false|reflexivity].
Defined.

(** With [rwlock_trywrlock] two contexts are told that they hold the lock for
    writing. *)
Theorem trywrlock_breaks_exclusion : ∃ x, rw_reachable demo_cfg (λ _, None) 8 false true x ∧ writers x = [Ctx 1; Ctx 0].
Proof.
  exists {| rw := rw demo_write; sch := Semaphore.demo_sys; readers := []; writers := [Ctx 1; Ctx 0] |}. split; [|reflexivity].
  apply (rw_next _ _ _ _ _ demo_write); [apply (rw_next _ _ _ _ _ demo_free); [apply rw_start|]|].
  - exact (rw_trywr _ _ 8 _ true demo_free (Ctx 0) 0 (rw demo_write) eq_refl eq_refl).
  - exact (rw_trywr _ _ 8 _ true demo_write (Ctx 1) 0 (rw demo_write) eq_refl eq_refl).
Qed.

Lemma rwlock_unlock_handover_witness :
  ∃ s', root (sched s') = [Ctx 1; Ctx 2] ∧
    rwlock_unlock demo_cfg 8 false
      {| count := -1; wait_rd := [Ctx 1; Ctx 2]; wait_wr := [] |} Semaphore.demo_sys
    = Ok (0, {| count := 2; wait_rd := []; wait_wr := [] |}, s').
Proof.
  refine (rwlock_unlock_handover demo_cfg 8 false
    {| count := -1; wait_rd := [Ctx 1; Ctx 2]; wait_wr := [] |} Semaphore.demo_sys _ _ _);
    [lia|by right|simpl; lia].
Defined.

Lemma rwlock_trywrlock_reports_success_witness :
  rwlock_trywrlock 8 {| count := -1; wait_rd := []; wait_wr := [] |}
  = (0, {| count := -1; wait_rd := []; wait_wr := [] |}).
Proof.
  pose proof (rwlock_trywrlock_reports_success 8 {| count := -1; wait_rd := []; wait_wr := [] |})
    as [H1 H2].
  rewrite (surjective_pairing (rwlock_trywrlock _ _)), H1, H2; [reflexivity|discriminate].
Defined.

(** With an 8-bit [int_fast8_t] the 128th concurrent reader wraps the counter,
    and the lock then looks write locked. *)
Example reader_overflow :
  rwlock_tryrdlock 8 {| count := 127; wait_rd := []; wait_wr := [] |}
  = (0, {| count := -128; wait_rd := []; wait_wr := [] |}).
Proof. vm_compute. reflexivity. Qed.

End Rwlock.
