(* ===== verification/Pthread.v ===== *)
(** * POSIX mutexes, condition variables and barriers (libpthread)

    The three mutex types of mutex.c with their dispatch, cond.c and barrier.c.
    The theorems show mutual exclusion for lock/unlock of each type under every
    interleaving, what broadcast and the barrier wake, and two defects of the
    try-lock operations that do not record the owner. *)

From S2P Require Import Prelude Sched Semaphore.
Import Sched.

Module Mutex.

(** The three operation tables of [pthread_mutexattr_t]. *)
Inductive mutex_type := Normal | ErrorCheck | Recursive.

#[export] Instance mutex_type_eq_dec : EqDecision mutex_type.
Proof. solve_decision. Defined.

(** [struct pthread_mutex_s]; [owner] is [None] for [NULL]. *)
Record pthread_mutex_t := { count : Z; attr : mutex_type;
                            owner : option sched_context; wait : list sched_context }.

Definition set_count (c : Z) (m : pthread_mutex_t) : pthread_mutex_t :=
  {| count := c; attr := attr m; owner := owner m; wait := wait m |}.
Definition set_wait (q : list sched_context) (m : pthread_mutex_t) : pthread_mutex_t :=
  {| count := count m; attr := attr m; owner := owner m; wait := q |}.
Definition set_owner (o : option sched_context) (m : pthread_mutex_t) : pthread_mutex_t :=
  {| count := count m; attr := attr m; owner := o; wait := wait m |}.

Section ops.
(** Scheduler options and the width of the unsigned [uint_fast8_t] counter. *)
Context (cfg : sched_config) (is_candidate : sched_context → option bool) (w : Z).

Implicit Types (m : pthread_mutex_t) (s : sched_sys) (cpu : nat).

(** [sched_wait_unlock(&mutex->wait)] *)
Definition block cpu m s : outcome (progress * pthread_mutex_t * sched_sys) :=
  '(q, s') ← sched_wait_unlock cfg is_candidate cpu (wait m) s;
  Ok (Blocked, set_wait q m, s').

Definition __pthread_mutex_normal_lock cpu m s
    : outcome (progress * pthread_mutex_t * sched_sys) :=
  if negb (count m =? 0) then block cpu m s
  else Ok (Returned 0, set_count (wrapu w (count m + 1)) m, s).

Definition __pthread_mutex_normal_trylock m : Z * pthread_mutex_t :=
  if count m =? 0 then (0, set_count (wrapu w (count m + 1)) m) else (EBUSY, m).

Definition __pthread_mutex_normal_unlock m s : Z * pthread_mutex_t * sched_sys :=
  match sched_wake cfg (wait m) s with
  | (Some _, q, s') => (0, set_wait q m, s')
  | (None, q, s') => (0, set_count (wrapu w (count m - 1)) (set_wait q m), s')
  end.

Definition __pthread_mutex_errorcheck_lock cpu m s
    : outcome (progress * pthread_mutex_t * sched_sys) :=
  cur ← get_cur cpu s;
  if negb (count m =? 0) then
    if bool_decide (owner m = Some cur) then Ok (Returned EDEADLK, m, s) else block cpu m s
  else Ok (Returned 0, set_count (wrapu w (count m + 1)) (set_owner (Some cur) m), s).

Definition __pthread_mutex_errorcheck_trylock cpu m s : outcome (Z * pthread_mutex_t) :=
  cur ← get_cur cpu s;
  if negb (count m =? 0) then
    if bool_decide (owner m = Some cur) then Ok (EDEADLK, m) else Ok (EBUSY, m)
  else Ok (0, set_count (wrapu w (count m + 1)) m).

(** The local [res] ([EPERM], [EBUSY]) is computed and 0 is returned. *)
Definition __pthread_mutex_errorcheck_unlock cpu m s
    : outcome (Z * pthread_mutex_t * sched_sys) :=
  cur ← get_cur cpu s;
  if negb (count m =? 0) then
    if bool_decide (owner m = Some cur) then
      match sched_wake cfg (wait m) s with
      | (Some c, q, s') => Ok (0, set_owner (Some c) (set_wait q m), s')
      | (None, q, s') =>
          Ok (0, set_count (wrapu w (count m - 1)) (set_owner None (set_wait q m)), s')
      end
    else Ok (0, m, s)
  else Ok (0, m, s).

Definition __pthread_mutex_recursive_lock cpu m s
    : outcome (progress * pthread_mutex_t * sched_sys) :=
  cur ← get_cur cpu s;
  if negb (count m =? 0) && negb (bool_decide (owner m = Some cur)) then block cpu m s
  else Ok (Returned 0, set_count (wrapu w (count m + 1)) (set_owner (Some cur) m), s).

Definition __pthread_mutex_recursive_trylock cpu m s : outcome (Z * pthread_mutex_t) :=
  cur ← get_cur cpu s;
  if negb (count m =? 0) && negb (bool_decide (owner m = Some cur)) then Ok (EBUSY, m)
  else Ok (0, set_count (wrapu w (count m + 1)) m).

Definition __pthread_mutex_recursive_unlock m s : Z * pthread_mutex_t * sched_sys :=
  let m := set_count (wrapu w (count m - 1)) m in
  if count m =? 0 then
    match sched_wake cfg (wait m) s with
    | (Some c, q, s') => (0, set_count (wrapu w (count m + 1)) (set_owner (Some c) (set_wait q m)), s')
    | (None, q, s') => (0, set_owner None (set_wait q m), s')
    end
  else (0, m, s).

(** The inline dispatchers of pthread.h. *)
Definition pthread_mutex_lock cpu m s : outcome (progress * pthread_mutex_t * sched_sys) :=
  match attr m with
  | Normal => __pthread_mutex_normal_lock cpu m s
  | ErrorCheck => __pthread_mutex_errorcheck_lock cpu m s
  | Recursive => __pthread_mutex_recursive_lock cpu m s
  end.

Definition pthread_mutex_trylock cpu m s : outcome (Z * pthread_mutex_t) :=
  match attr m with
  | Normal => Ok (__pthread_mutex_normal_trylock m)
  | ErrorCheck => __pthread_mutex_errorcheck_trylock cpu m s
  | Recursive => __pthread_mutex_recursive_trylock cpu m s
  end.

Definition pthread_mutex_unlock cpu m s : outcome (Z * pthread_mutex_t * sched_sys) :=
  match attr m with
  | Normal => Ok (__pthread_mutex_normal_unlock m s)
  | ErrorCheck => __pthread_mutex_errorcheck_unlock cpu m s
  | Recursive => Ok (__pthread_mutex_recursive_unlock m s)
  end.

(** [pthread_mutex_init] with the default attribute when [a] is [NULL]; the
    owner field keeps whatever the memory held. *)
Definition pthread_mutex_init (a : option mutex_type) (stale : option sched_context)
    (queue_err : Z) : Z * pthread_mutex_t :=
  (queue_err, {| count := 0; attr := default Normal a; owner := stale; wait := [] |}).

(** [pthread_mutexattr_settype]: constants 0 to 3 of pthread.h. *)
Definition pthread_mutexattr_settype (type : Z) (a : mutex_type) : Z * mutex_type :=
  if (type =? 3) || (type =? 0) then (0, Normal)
  else if type =? 1 then (0, ErrorCheck)
  else if type =? 2 then (0, Recursive)
  else (EINVAL, a).
End ops.

(** ** Mutual exclusion *)

(** The mutex in the system, with the list of grants: one entry for every
    successful lock (or hand-over by an unlock) not yet released. *)
Record mutex_world := { mtx : pthread_mutex_t; sch : sched_sys; grants : list sched_context }.

Section world.
Context (cfg : sched_config) (f : sched_context → option bool) (w : Z).

(** Contexts that an operation took off the wait queue. *)
Definition woken (m m' : pthread_mutex_t) : list sched_context :=
  take (length (wait m) - length (wait m')) (wait m).

(** Lock by any running context; try-lock on a normal mutex; unlock by a
    context that holds a grant, or, on an error checking mutex, by anybody. *)
Inductive mutex_step : mutex_world → mutex_world → Prop :=
| mutex_lock_now x cpu c m' s' :
    runs (sch x) cpu c → count (mtx x) + 1 < 2 ^ w →
    pthread_mutex_lock cfg f w cpu (mtx x) (sch x) = Ok (Returned 0, m', s') →
    mutex_step x {| mtx := m'; sch := s'; grants := c :: grants x |}
| mutex_lock_wait x cpu m' s' :
    pthread_mutex_lock cfg f w cpu (mtx x) (sch x) = Ok (Blocked, m', s') →
    mutex_step x {| mtx := m'; sch := s'; grants := grants x |}
| mutex_lock_err x cpu e m' s' :
    e ≠ 0 → pthread_mutex_lock cfg f w cpu (mtx x) (sch x) = Ok (Returned e, m', s') →
    mutex_step x {| mtx := m'; sch := s'; grants := grants x |}
| mutex_trylock x cpu c e m' :
    attr (mtx x) = Normal → runs (sch x) cpu c →
    pthread_mutex_trylock w cpu (mtx x) (sch x) = Ok (e, m') →
    mutex_step x {| mtx := m'; sch := sch x;
                    grants := if e =? 0 then c :: grants x else grants x |}
| mutex_unlock_held x cpu c i e m' s' :
    runs (sch x) cpu c → grants x !! i = Some c →
    pthread_mutex_unlock cfg w cpu (mtx x) (sch x) = Ok (e, m', s') →
    mutex_step x {| mtx := m'; sch := s'; grants := woken (mtx x) m' ++ delete i (grants x) |}
| mutex_unlock_foreign x cpu c e m' s' :
    attr (mtx x) = ErrorCheck → runs (sch x) cpu c → c ∉ grants x →
    pthread_mutex_unlock cfg w cpu (mtx x) (sch x) = Ok (e, m', s') →
    mutex_step x {| mtx := m'; sch := s'; grants := woken (mtx x) m' ++ grants x |}
| mutex_other x s' :
    mutex_step x {| mtx := mtx x; sch := s'; grants := grants x |}.

Inductive mutex_reachable (t : mutex_type) : mutex_world → Prop :=
| mutex_start s : mutex_reachable t {| mtx := (pthread_mutex_init (Some t) None 0).2; sch := s; grants := [] |}
| mutex_next x x' : mutex_reachable t x → mutex_step x x' → mutex_reachable t x'.
End world.

Record mutex_inv (w : Z) (t : mutex_type) (x : mutex_world) : Prop := {
  inv_attr : attr (mtx x) = t;
  inv_count : count (mtx x) = Z.of_nat (length (grants x));
  inv_fits : Z.of_nat (length (grants x)) < 2 ^ w;
  inv_same a b : a ∈ grants x → b ∈ grants x → a = b;
  inv_once : t ≠ Recursive → (length (grants x) ≤ 1)%nat;
  inv_owner a : t ≠ Normal → a ∈ grants x → owner (mtx x) = Some a;
  inv_wait : grants x = [] → wait (mtx x) = [] }.

Section preservation.
Context (w : Z) (Hw : 1 ≤ w).

Lemma count_zero t x : mutex_inv w t x → count (mtx x) = 0 → grants x = [].
Proof. intros Hi H0. pose proof (inv_count _ _ _ Hi). destruct (grants x); [done|simpl in *; lia]. Qed.

Lemma block_Ok cfg f cpu m s r m' s' :
  block cfg f cpu m s = Ok (r, m', s') → r = Blocked ∧ ∃ c, m' = set_wait (wait m ++ [c]) m.
Proof.
  unfold block, sched_wait_unlock. rewrite bind_Ok. intros ([q s2] & H & ?).
  apply bind_Ok in H as (c & _ & H). destruct (__sched_candidate _ _ _ _).
  simplify_eq. eauto.
Qed.

(** Blocking changes only the wait queue, and only on a held mutex. *)
Lemma blocked_inv t x c s' :
  mutex_inv w t x → count (mtx x) ≠ 0 →
  mutex_inv w t {| mtx := set_wait (wait (mtx x) ++ [c]) (mtx x); sch := s'; grants := grants x |}.
Proof.
  intros Hi Hc. pose proof (inv_count _ _ _ Hi). destruct Hi.
  constructor; simpl; try done. intros E. rewrite E in *. simpl in *. lia.
Qed.

(** A new grant, on a free mutex or to the owner of a recursive one. *)
Lemma grant_inv t x c o s' :
  mutex_inv w t x → count (mtx x) + 1 < 2 ^ w →
  grants x = [] ∨ (t = Recursive ∧ count (mtx x) ≠ 0 ∧ owner (mtx x) = Some c) →
  (t ≠ Normal → o = Some c) →
  mutex_inv w t
    {| mtx := set_count (wrapu w (count (mtx x) + 1)) (set_owner o (mtx x));
       sch := s'; grants := c :: grants x |}.
Proof.
  intros [Ha Hc Hf Hs Ho How Hwt] Hb Hg Hown.
  rewrite wrapu_small by lia.
  assert (∀ a, a ∈ grants x → a = c) as Hall.
  { intros a Hin. destruct Hg as [E|(-> & _ & E)]; [rewrite E in Hin; set_solver|].
    specialize (How a ltac:(done) Hin). congruence. }
  constructor; simpl; [done|lia|lia|..].
  - intros a b. rewrite !elem_of_cons. naive_solver.
  - intros Ht. destruct Hg as [->|(? & _)]; [done|congruence].
  - intros a Ht. rewrite elem_of_cons. intros [->|Hin%Hall]; subst; by apply Hown.
  - done.
Qed.

(** Handing the mutex to the first waiter, or freeing it. *)
Lemma handover_inv t x a c q s' o :
  mutex_inv w t x → grants x = [a] → wait (mtx x) = c :: q → (t ≠ Normal → o = Some c) →
  mutex_inv w t {| mtx := {| count := count (mtx x); attr := attr (mtx x); owner := o; wait := q |};
                   sch := s'; grants := [c] |}.
Proof.
  intros [Ha Hc Hf Hs Ho How Hwt] Hg Hq Hown. rewrite Hg in *. simpl in *.
  constructor; simpl; try done.
  - intros a' b'. rewrite !list_elem_of_singleton. congruence.
  - intros a' Ht. rewrite list_elem_of_singleton. intros ->. by apply Hown.
Qed.

Lemma release_inv t x a s' o :
  mutex_inv w t x → grants x = [a] → wait (mtx x) = [] →
  mutex_inv w t {| mtx := {| count := wrapu w (count (mtx x) - 1); attr := attr (mtx x);
                             owner := o; wait := [] |}; sch := s'; grants := [] |}.
Proof.
  intros [Ha Hc Hf Hs Ho How Hwt] Hg Hq. rewrite Hg in *. simpl in *.
  rewrite Hc, wrapu_small by lia.
  constructor; simpl; try done; try lia; intros; set_solver.
Qed.

Lemma lock_now_inv cfg f t x cpu c m' s' :
  mutex_inv w t x → runs (sch x) cpu c → count (mtx x) + 1 < 2 ^ w →
  pthread_mutex_lock cfg f w cpu (mtx x) (sch x) = Ok (Returned 0, m', s') →
  mutex_inv w t {| mtx := m'; sch := s'; grants := c :: grants x |}.
Proof.
  intros Hi [b Hc] Hb H. pose proof (inv_attr _ _ _ Hi) as Ht.
  unfold pthread_mutex_lock in H. rewrite Ht in H. destruct t.
  - unfold __pthread_mutex_normal_lock in H. destruct (Z.eqb_spec (count (mtx x)) 0) as [E|E].
    + simplify_eq/=. eapply (grant_inv Normal x c (owner (mtx x))); [done|done| |done].
      left. by eapply count_zero.
    + by apply block_Ok in H as [??].
  - unfold __pthread_mutex_errorcheck_lock in H. rewrite (get_cur_Ok _ _ _ _ Hc) in H. simpl in H.
    destruct (Z.eqb_spec (count (mtx x)) 0) as [E|E]; simpl in H.
    + simplify_eq/=. eapply grant_inv; [done|done| |done]. left. by eapply count_zero.
    + case_bool_decide; [done|]. by apply block_Ok in H as [??].
  - unfold __pthread_mutex_recursive_lock in H. rewrite (get_cur_Ok _ _ _ _ Hc) in H. simpl in H.
    destruct (Z.eqb_spec (count (mtx x)) 0) as [E|E]; simpl in H.
    + simplify_eq/=. eapply grant_inv; [done|done| |done]. left. by eapply count_zero.
    + case_bool_decide; simpl in H; [|by apply block_Ok in H as [??]].
      simplify_eq/=. eapply grant_inv; [done|done| |done]. by right.
Qed.

(** A lock call that does not return 0 leaves the holders alone. *)
Lemma lock_fail_inv cfg f t x cpu r m' s' :
  mutex_inv w t x → r ≠ Returned 0 →
  pthread_mutex_lock cfg f w cpu (mtx x) (sch x) = Ok (r, m', s') →
  mutex_inv w t {| mtx := m'; sch := s'; grants := grants x |}.
Proof.
  intros Hi Hr H. pose proof (inv_attr _ _ _ Hi) as Ht.
  assert (∀ r m' s', count (mtx x) ≠ 0 → block cfg f cpu (mtx x) (sch x) = Ok (r, m', s') →
    mutex_inv w t {| mtx := m'; sch := s'; grants := grants x |}) as Hblk.
  { intros ??? Hc [_ [c ->]]%block_Ok. by apply blocked_inv. }
  unfold pthread_mutex_lock in H. rewrite Ht in H.
  destruct t; unfold __pthread_mutex_normal_lock, __pthread_mutex_errorcheck_lock,
    __pthread_mutex_recursive_lock in H; [|apply bind_Ok in H as (cur & _ & H)..];
    destruct (Z.eqb_spec (count (mtx x)) 0); simpl in H; simplify_eq; eauto;
    case_bool_decide; simpl in H; simplify_eq; eauto; destruct Hi; by constructor.
Qed.

Lemma woken_head m q c m' : wait m = c :: q → wait m' = q → woken m m' = [c].
Proof.
  intros E E'. unfold woken. rewrite E, E'. simpl length.
  replace (S (length q) - length q)%nat with 1%nat by lia. done.
Qed.

Lemma woken_none m m' : wait m' = wait m → woken m m' = [].
Proof. intros E. unfold woken. by rewrite E, Nat.sub_diag. Qed.

(** Unlock of a mutex granted once, for every type. *)
Lemma unlock_single_inv cfg t x cpu c e m' s' :
  mutex_inv w t x → runs (sch x) cpu c → grants x = [c] →
  pthread_mutex_unlock cfg w cpu (mtx x) (sch x) = Ok (e, m', s') →
  mutex_inv w t {| mtx := m'; sch := s'; grants := woken (mtx x) m' |}.
Proof.
  intros Hi [b Hc] Hg H. pose proof (inv_attr _ _ _ Hi) as Ht.
  assert (count (mtx x) = 1) as Hcnt by (by rewrite (inv_count _ _ _ Hi), Hg).
  pose proof (inv_fits _ _ _ Hi) as Hf. rewrite Hg in Hf. simpl in Hf.
  assert (t ≠ Normal → owner (mtx x) = Some c) as Hown.
  { intros. apply (inv_owner _ _ _ Hi); [done|]. rewrite Hg. set_solver. }
  unfold pthread_mutex_unlock in H. rewrite Ht in H. destruct t.
  - unfold __pthread_mutex_normal_unlock in H.
    destruct (wait (mtx x)) as [|d q] eqn:Eq; simplify_eq/=.
    + rewrite woken_none by done. by apply release_inv with (a := c).
    + erewrite woken_head by done. by apply handover_inv with (a := c).
  - unfold __pthread_mutex_errorcheck_unlock in H. rewrite (get_cur_Ok _ _ _ _ Hc) in H.
    rewrite Hcnt, Hown in H by done. simpl in H. rewrite bool_decide_true in H by done.
    destruct (wait (mtx x)) as [|d q] eqn:Eq; simplify_eq/=.
    + rewrite woken_none by done.
      pose proof (release_inv ErrorCheck x c (sch x) None Hi Hg Eq) as P.
      rewrite Hcnt in P. exact P.
    + erewrite woken_head by done. by apply handover_inv with (a := c).
  - unfold __pthread_mutex_recursive_unlock in H. rewrite Hcnt, (wrapu_small w (1 - 1)) in H by lia.
    simpl in H. rewrite ?(wrapu_small w 1) in H by lia.
    destruct (wait (mtx x)) as [|d q] eqn:Eq; simplify_eq/=.
    + rewrite woken_none by done.
      pose proof (release_inv Recursive x c (sch x) None Hi Hg Eq) as P.
      rewrite Hcnt, (wrapu_small w (1 - 1)) in P by lia. exact P.
    + erewrite woken_head by done.
      pose proof (handover_inv Recursive x c d q (__sched_context_push cfg d (sch x)) (Some d) Hi Hg Eq ltac:(done)) as P.
      rewrite Hcnt in P. rewrite (wrapu_small w (1 - 1 + 1)) by lia. exact P.
Qed.

(** Unlock of a recursive mutex granted several times. *)
Lemma unlock_nested_inv cfg x cpu c i e m' s' :
  mutex_inv w Recursive x → grants x !! i = Some c → grants x ≠ [c] →
  pthread_mutex_unlock cfg w cpu (mtx x) (sch x) = Ok (e, m', s') →
  mutex_inv w Recursive {| mtx := m'; sch := s'; grants := woken (mtx x) m' ++ delete i (grants x) |}.
Proof.
  intros Hi Hin Hne H. pose proof Hi as [Ha Hc Hf Hs _ How Hwt].
  assert (2 ≤ length (grants x))%nat as Hl.
  { destruct (grants x) as [|a [|b l]]; [done| |simpl; lia].
    destruct i as [|[|]]; simplify_eq/=. }
  assert (length (delete i (grants x)) = length (grants x) - 1)%nat as El.
  { rewrite length_delete; [lia|done]. }
  assert (∀ a, a ∈ delete i (grants x) → a ∈ grants x) as Hsub.
  { intros a Hd. by eapply elem_of_submseteq, submseteq_delete. }
  unfold pthread_mutex_unlock in H. rewrite Ha in H.
  unfold __pthread_mutex_recursive_unlock in H.
  rewrite Hc, (wrapu_small w (_ - 1)) in H by lia. simpl in H.
  destruct (Z.eqb_spec (Z.of_nat (length (grants x)) - 1) 0); [lia|]. simplify_eq/=.
  rewrite woken_none by done. simpl.
  constructor; simpl; [done|lia|lia|by eauto|done|by eauto|].
  intros E. rewrite E in El. simpl in El. lia.
Qed.

Lemma unlock_foreign_inv cfg x cpu c e m' s' :
  mutex_inv w ErrorCheck x → runs (sch x) cpu c → c ∉ grants x →
  pthread_mutex_unlock cfg w cpu (mtx x) (sch x) = Ok (e, m', s') →
  m' = mtx x ∧ s' = sch x ∧ e = 0.
Proof.
  intros Hi [b Hc] Hni H. unfold pthread_mutex_unlock in H. rewrite (inv_attr _ _ _ Hi) in H.
  unfold __pthread_mutex_errorcheck_unlock in H. rewrite (get_cur_Ok _ _ _ _ Hc) in H. simpl in H.
  destruct (Z.eqb_spec (count (mtx x)) 0) as [E|E]; simpl in H; [by simplify_eq|].
  case_bool_decide as Ho; [|by simplify_eq].
  destruct (grants x) as [|a l] eqn:Eg.
  { pose proof (inv_count _ _ _ Hi) as Hcn. rewrite Eg in Hcn. simpl in Hcn. lia. }
  pose proof (inv_owner _ _ _ Hi a ltac:(done)) as Hoa. rewrite Eg in Hoa.
  rewrite Hoa in Ho by set_solver. set_solver.
Qed.

Lemma mutex_step_inv cfg f t x x' : mutex_inv w t x → mutex_step cfg f w x x' → mutex_inv w t x'.
Proof.
  intros Hi Hs.
  destruct Hs as [x cpu c m' s' Hc Hb H|x cpu m' s' H|x cpu e m' s' He H|x cpu c e m' Ha Hc H
    |x cpu c i e m' s' Hc Hin H|x cpu c e m' s' Ha Hc Hni H|x s'].
  - by eapply lock_now_inv.
  - eapply lock_fail_inv; [done| |done]. discriminate.
  - eapply lock_fail_inv; [done| |done]. congruence.
  - pose proof (inv_attr _ _ _ Hi) as Ht. unfold pthread_mutex_trylock in H.
    rewrite Ha in *. subst t. unfold __pthread_mutex_normal_trylock in H.
    destruct (Z.eqb_spec (count (mtx x)) 0) as [E|E]; simplify_eq/=.
    + assert (2 ^ 1 ≤ 2 ^ w) by (apply Z.pow_le_mono_r; lia).
      eapply (grant_inv Normal x c (owner (mtx x))); [done|lia| |done].
      left. by eapply count_zero.
    + destruct Hi; by constructor.
  - destruct (decide (grants x = [c])) as [E|E].
    + rewrite E in *. destruct i as [|i]; simplify_eq/=.
      rewrite app_nil_r. by eapply unlock_single_inv.
    + destruct (decide (t = Recursive)) as [->|Ht]; [by eapply unlock_nested_inv|].
      pose proof (inv_once _ _ _ Hi Ht) as Hl.
      destruct (grants x) as [|a [|]]; simpl in *; [done| |lia].
      destruct i as [|[|]]; simplify_eq/=.
  - pose proof (inv_attr _ _ _ Hi) as Ht. rewrite Ha in Ht. subst t.
    destruct (unlock_foreign_inv _ _ _ _ _ _ _ Hi Hc Hni H) as (-> & -> & _).
    rewrite woken_none by done. destruct Hi; by constructor.
  - destruct Hi; by constructor.
Qed.

Lemma mutex_reachable_inv cfg f t x : mutex_reachable cfg f w t x → mutex_inv w t x.
Proof.
  induction 1 as [s|x x' _ IH Hs]; [|by eapply mutex_step_inv].
  constructor; simpl; try done; try set_solver; try lia.
Qed.
End preservation.

(** ** Properties *)

(** C36.  Mutual exclusion for each mutex type under any interleaving of locks,
    unlocks (and try-locks of a normal mutex): all outstanding grants belong to
    one context, there is only one unless the mutex is recursive, the counter
    is their number, and contexts wait only on a held mutex. *)
Theorem mutex_exclusion cfg f w t x :
  1 ≤ w → mutex_reachable cfg f w t x →
  (∀ a b, a ∈ grants x → b ∈ grants x → a = b) ∧
  (t ≠ Recursive → (length (grants x) ≤ 1)%nat) ∧
  count (mtx x) = Z.of_nat (length (grants x)) ∧
  (wait (mtx x) ≠ [] → grants x ≠ []).
Proof.
  intros Hw Hr. pose proof (mutex_reachable_inv w Hw cfg f t x Hr) as [_ Hc _ Hs Ho _ Hwt].
  split_and!; [done|done|done|]. intros Hq Hg. auto.
Qed.

(**  An error checking mutex taken with try-lock can never be released:
    try-lock does not record the owner, so every later unlock, by any context,
    returns 0 and leaves the mutex locked. *)
Theorem errorcheck_trylock_never_released cfg w m s cpu c :
  1 ≤ w → attr m = ErrorCheck → count m = 0 → owner m = None → runs s cpu c →
  ∃ m', pthread_mutex_trylock w cpu m s = Ok (0, m') ∧ count m' = 1 ∧
    ∀ cpu' c' s', runs s' cpu' c' →
      pthread_mutex_unlock cfg w cpu' m' s' = Ok (0, m', s').
Proof.
  intros Hw Ha H0 Ho [b Hc]. assert (2 ^ 1 ≤ 2 ^ w) by (apply Z.pow_le_mono_r; lia).
  unfold pthread_mutex_trylock, __pthread_mutex_errorcheck_trylock.
  rewrite Ha, (get_cur_Ok _ _ _ _ Hc), H0. simpl. rewrite wrapu_small by lia.
  eexists. split_and!; [done|done|]. intros cpu' c' s' [b' Hc'].
  unfold pthread_mutex_unlock, __pthread_mutex_errorcheck_unlock; simpl.
  rewrite Ha, (get_cur_Ok _ _ _ _ Hc'). simpl. by rewrite Ho, bool_decide_false by done.
Qed.

(**  A recursive mutex taken with try-lock is not recursive: the same
    context blocks on itself when it locks the mutex again. *)
Theorem recursive_trylock_then_lock_blocks cfg f w m s cpu c :
  1 ≤ w → attr m = Recursive → count m = 0 → owner m = None → runs s cpu c →
  ∃ m', pthread_mutex_trylock w cpu m s = Ok (0, m') ∧
    ∃ m'' s'', pthread_mutex_lock cfg f w cpu m' s = Ok (Blocked, m'', s'') ∧
               wait m'' = wait m ++ [c].
Proof.
  intros Hw Ha H0 Ho [b Hc]. assert (2 ^ 1 ≤ 2 ^ w) by (apply Z.pow_le_mono_r; lia).
  unfold pthread_mutex_trylock, __pthread_mutex_recursive_trylock.
  rewrite Ha, (get_cur_Ok _ _ _ _ Hc), H0. simpl. rewrite wrapu_small by lia.
  eexists. split; [done|].
  unfold pthread_mutex_lock, __pthread_mutex_recursive_lock; simpl.
  rewrite Ha, (get_cur_Ok _ _ _ _ Hc). simpl. rewrite Ho, bool_decide_false by done. simpl.
  unfold block, sched_wait_unlock. simpl. rewrite (get_cur_Ok _ _ _ _ Hc). simpl.
  destruct (__sched_candidate _ _ _ _). simpl. eauto.
Qed.

(** ** Witnesses *)

Definition demo_free (t : mutex_type) : pthread_mutex_t :=
  (pthread_mutex_init (Some t) None 0).2.
Definition demo_start (t : mutex_type) : mutex_world :=
  {| mtx := demo_free t; sch := Semaphore.demo_sys; grants := [] |}.
Definition demo_held : mutex_world :=
  {| mtx := {| count := 1; attr := Recursive; owner := Some (Ctx 0); wait := [] |};
     sch := Semaphore.demo_sys; grants := [Ctx 0] |}.

Lemma mutex_exclusion_witness : count (mtx demo_held) = Z.of_nat (length (grants demo_held)).
Proof.
  refine (proj1 (proj2 (proj2 (mutex_exclusion demo_cfg (λ _, None) 8 Recursive demo_held _ _))));
    [lia|].
  apply (mutex_next _ _ _ _ (demo_start Recursive)); [apply mutex_start|].
  apply (mutex_lock_now _ _ _ (demo_start Recursive) 0 (Ctx 0));
    [by exists false|reflexivity|reflexivity].
Defined.

Lemma errorcheck_trylock_never_released_witness :
  ∃ m', pthread_mutex_trylock 8 0 (demo_free ErrorCheck) Semaphore.demo_sys = Ok (0, m') ∧
    count m' = 1 ∧
    ∀ cpu' c' s', runs s' cpu' c' →
      pthread_mutex_unlock demo_cfg 8 cpu' m' s' = Ok (0, m', s').
Proof.
  refine (errorcheck_trylock_never_released demo_cfg 8 (demo_free ErrorCheck)
    Semaphore.demo_sys 0 (Ctx 0) _ _ _ _ _); [lia|reflexivity..|by exists false].
Defined.

Lemma recursive_trylock_then_lock_blocks_witness :
  ∃ m', pthread_mutex_trylock 8 0 (demo_free Recursive) Semaphore.demo_sys = Ok (0, m') ∧
    ∃ m'' s'', pthread_mutex_lock demo_cfg (λ _, None) 8 0 m' Semaphore.demo_sys
               = Ok (Blocked, m'', s'') ∧ wait m'' = [Ctx 0].
Proof.
  refine (recursive_trylock_then_lock_blocks demo_cfg (λ _, None) 8 (demo_free Recursive)
    Semaphore.demo_sys 0 (Ctx 0) _ _ _ _ _); [lia|reflexivity..|by exists false].
Defined.

End Mutex.

(** ** Condition variables (cond.c) *)
Module Cond.
Import Mutex.

(** [struct pthread_cond_s] is its wait queue; [qlocked] is the state in which
    an operation leaves the lock of the queue. *)
Record pthread_cond_t := { cwait : list sched_context; qlocked : bool }.
Definition unlocked (q : list sched_context) : pthread_cond_t :=
  {| cwait := q; qlocked := false |}.

Section ops.
Context (cfg : sched_config) (is_candidate : sched_context → option bool) (w : Z).

Definition pthread_cond_init (queue_err : Z) : Z * pthread_cond_t := (queue_err, unlocked []).

Definition pthread_cond_signal (c : pthread_cond_t) (s : sched_sys)
    : Z * pthread_cond_t * sched_sys :=
  let '(_, q, s') := sched_wake cfg (cwait c) s in (0, unlocked q, s').

(** [while (sched_wake(&cond->wait));] *)
Fixpoint broadcast_loop (fuel : nat) (q : list sched_context) (s : sched_sys)
    : outcome (list sched_context * sched_sys) :=
  match fuel with
  | O => Err FFuel
  | S fuel =>
      match sched_wake cfg q s with
      | (Some _, q', s') => broadcast_loop fuel q' s'
      | (None, q', s') => Ok (q', s')
      end
  end.

Definition pthread_cond_broadcast (c : pthread_cond_t) (s : sched_sys)
    : outcome (Z * pthread_cond_t * sched_sys) :=
  '(q, s') ← broadcast_loop (S (length (cwait c))) (cwait c) s;
  Ok (0, unlocked q, s').

(** The first part of [pthread_cond_wait], up to the switch: the mutex is
    released and the caller queued inside one critical section of the
    condition's queue lock.  On resumption the caller runs
    [pthread_mutex_lock].  [check] is [CONFIG_PTHREAD_CHECK]; without it a
    failed unlock would return 0 with the queue still locked. *)
Definition pthread_cond_wait (check : bool) (cpu : nat) (c : pthread_cond_t)
    (m : pthread_mutex_t) (s : sched_sys)
    : outcome (progress * pthread_cond_t * pthread_mutex_t * sched_sys) :=
  '(e, m', s1) ← pthread_mutex_unlock cfg w cpu m s;
  if e =? 0 then
    '(q, s2) ← sched_wait_unlock cfg is_candidate cpu (cwait c) s1;
    Ok (Blocked, unlocked q, m', s2)
  else if check then Ok (Returned EINVAL, unlocked (cwait c), m', s1)
  else Ok (Returned 0, {| cwait := cwait c; qlocked := true |}, m', s1).
End ops.

Lemma broadcast_loop_spec cfg fuel q s :
  (length q < fuel)%nat → broadcast_loop cfg fuel q s = Ok ([], Semaphore.wake_all cfg q s).
Proof.
  revert q s; induction fuel as [|fuel IH]; intros q s Hl; [lia|].
  destruct q as [|c q]; simpl in *; [done|]. apply IH. lia.
Qed.

(**  [pthread_cond_broadcast] terminates and moves every waiting context,
    in order, to the running queue. *)
Theorem cond_broadcast_wakes_all cfg c s :
  ∃ s', pthread_cond_broadcast cfg c s = Ok (0, unlocked [], s') ∧
        root (sched s') = root (sched s) ++ cwait c.
Proof.
  unfold pthread_cond_broadcast. rewrite broadcast_loop_spec by lia.
  eexists. split; [done|]. apply Semaphore.wake_all_root.
Qed.

(** The mutex unlock never fails and keeps the caller on its processor. *)
Lemma mutex_unlock_total cfg w cpu m s c :
  runs s cpu c →
  ∃ m' s', pthread_mutex_unlock cfg w cpu m s = Ok (0, m', s') ∧ runs s' cpu c.
Proof.
  intros Hr. pose proof Hr as [b Hc].
  assert (∀ d, runs (__sched_context_push cfg d s) cpu c) as Hp.
  { intros d. exists b. unfold __sched_context_push.
    destruct (hexo_ipi cfg), (idle_cpu (sched s)); done. }
  unfold pthread_mutex_unlock, __pthread_mutex_normal_unlock,
    __pthread_mutex_errorcheck_unlock, __pthread_mutex_recursive_unlock.
  rewrite (get_cur_Ok _ _ _ _ Hc). cbn [mbind outcome_bind].
  repeat case_match; simplify_eq; do 2 eexists; (split; [reflexivity|]);
    unfold sched_wake in *; repeat case_match; simplify_eq; auto.
Qed.

(**  [pthread_cond_wait] never returns without waiting and loses no
    wake-up: the caller is at the tail of the condition queue, and the mutex
    released, in one step, so any later signal or broadcast finds it. *)
Theorem cond_wait_atomic cfg f w check cpu c cnd m s :
  runs s cpu c →
  ∃ m' s' s'', pthread_mutex_unlock cfg w cpu m s = Ok (0, m', s') ∧
    pthread_cond_wait cfg f w check cpu cnd m s = Ok (Blocked, unlocked (cwait cnd ++ [c]), m', s'').
Proof.
  intros Hr. destruct (mutex_unlock_total cfg w cpu m s c Hr) as (m' & s' & E & b & Hc).
  exists m', s'. unfold pthread_cond_wait. rewrite E. simpl.
  unfold sched_wait_unlock. rewrite (get_cur_Ok _ _ _ _ Hc). simpl.
  destruct (__sched_candidate _ _ _ _). simpl. eauto.
Qed.

Lemma cond_wait_atomic_witness :
  ∃ m' s' s'',
    pthread_mutex_unlock demo_cfg 8 0 (mtx demo_held) Semaphore.demo_sys = Ok (0, m', s') ∧
    pthread_cond_wait demo_cfg (λ _, None) 8 true 0 (unlocked []) (mtx demo_held) Semaphore.demo_sys
    = Ok (Blocked, unlocked [Ctx 0], m', s'').
Proof.
  refine (cond_wait_atomic demo_cfg (λ _, None) 8 true 0 (Ctx 0) (unlocked []) (mtx demo_held)
    Semaphore.demo_sys _). by exists false.
Defined.
End Cond.

(** ** Barriers (barrier.c) *)
Module Barrier.

(** [struct pthread_barrier_s] *)
Record pthread_barrier_t := { count : Z; wait : list sched_context }.

Definition PTHREAD_BARRIER_SERIAL_THREAD : Z := -1.

Section ops.
Context (cfg : sched_config) (is_candidate : sched_context → option bool) (w : Z).

Definition pthread_barrier_init (n : Z) (queue_err : Z) : Z * pthread_barrier_t :=
  (queue_err, {| count := wraps w n; wait := [] |}).

(** [while (sched_wake(&barrier->wait) != NULL) barrier->count++;] *)
Fixpoint release_loop (fuel : nat) (b : pthread_barrier_t) (s : sched_sys)
    : outcome (pthread_barrier_t * sched_sys) :=
  match fuel with
  | O => Err FFuel
  | S fuel =>
      match sched_wake cfg (wait b) s with
      | (Some _, q, s') => release_loop fuel {| count := wraps w (count b + 1); wait := q |} s'
      | (None, q, s') => Ok ({| count := count b; wait := q |}, s')
      end
  end.

Definition pthread_barrier_wait (cpu : nat) (b : pthread_barrier_t) (s : sched_sys)
    : outcome (progress * pthread_barrier_t * sched_sys) :=
  _ ← require (1 <=? count b) FAssert;
  if count b =? 1 then
    '(b', s') ← release_loop (S (length (wait b))) b s;
    Ok (Returned PTHREAD_BARRIER_SERIAL_THREAD, b', s')
  else
    '(q, s') ← sched_wait_unlock cfg is_candidate cpu (wait b) s;
    Ok (Blocked, {| count := wraps w (count b - 1); wait := q |}, s').
End ops.

(** A barrier for [n] threads: arrivals so far are in the queue. *)
Definition barrier_inv (n : Z) (b : pthread_barrier_t) : Prop :=
  1 ≤ count b ∧ count b + Z.of_nat (length (wait b)) = n.

Lemma release_loop_spec cfg w fuel b s :
  1 ≤ w → 1 ≤ count b → count b + Z.of_nat (length (wait b)) < 2 ^ (w - 1) →
  (length (wait b) < fuel)%nat →
  release_loop cfg w fuel b s =
    Ok ({| count := count b + Z.of_nat (length (wait b)); wait := [] |},
        Semaphore.wake_all cfg (wait b) s).
Proof.
  intros Hw. revert b s; induction fuel as [|fuel IH]; intros [c q] s H1 Hb Hl; simpl in *; [lia|].
  destruct q as [|d q]; simpl in *; [by rewrite Z.add_0_r|].
  rewrite wraps_small by lia. rewrite IH by (simpl; lia). simpl. do 3 f_equal. lia.
Qed.

(**  A barrier for [n] threads blocks the first [n-1] arrivals; the [n]th
    returns [PTHREAD_BARRIER_SERIAL_THREAD], releases all the others in arrival
    order and leaves the barrier ready for the next round of [n]. *)
Theorem barrier_round cfg f w n cpu c b s :
  1 ≤ w → n < 2 ^ (w - 1) → barrier_inv n b → runs s cpu c →
  ∃ b' s', barrier_inv n b' ∧
    if (Z.of_nat (length (wait b)) =? n - 1) then
      pthread_barrier_wait cfg f w cpu b s = Ok (Returned PTHREAD_BARRIER_SERIAL_THREAD, b', s') ∧
      wait b' = [] ∧ root (sched s') = root (sched s) ++ wait b
    else
      pthread_barrier_wait cfg f w cpu b s = Ok (Blocked, b', s') ∧ wait b' = wait b ++ [c].
Proof.
  intros Hw Hn [H1 Hc] [sl Hr]. unfold pthread_barrier_wait, require.
  rewrite (proj2 (Z.leb_le 1 (count b))) by done. cbn [mbind outcome_bind].
  destruct (Z.eqb_spec (Z.of_nat (length (wait b))) (n - 1)) as [E|E].
  - replace (count b =? 1) with true by lia.
    rewrite release_loop_spec by lia. cbn [mbind outcome_bind].
    do 2 eexists. split; [|split; [done|split; [done|apply Semaphore.wake_all_root]]].
    unfold barrier_inv; simpl; lia.
  - replace (count b =? 1) with false by lia.
    unfold sched_wait_unlock. rewrite (get_cur_Ok _ _ _ _ Hr). cbn [mbind outcome_bind].
    destruct (__sched_candidate _ _ _ _). cbn [mbind outcome_bind]. rewrite wraps_small by lia.
    do 2 eexists. split; [|done]. unfold barrier_inv; simpl. rewrite length_app; simpl; lia.
Qed.

Lemma barrier_round_witness :
  ∃ b' s', barrier_inv 2 b' ∧
    pthread_barrier_wait demo_cfg (λ _, None) 8 0 {| count := 1; wait := [Ctx 5] |} Semaphore.demo_sys
    = Ok (Returned (-1), b', s') ∧ wait b' = [] ∧ root (sched s') = [Ctx 5].
Proof.
  refine (barrier_round demo_cfg (λ _, None) 8 2 0 (Ctx 0) {| count := 1; wait := [Ctx 5] |}
    Semaphore.demo_sys _ _ _ _); [lia|lia|split; simpl; lia|by exists false].
Defined.
End Barrier.
