(* ===== verification/Timer.v ===== *)
(** * Kernel timers (mutek/timer.c)

    The sorted list of pending events, insertion, cancellation and the clock
    tick that runs the expired events.  Callbacks are client code, with a state of
    its own: they are an argument of the operations that run them, constrained by the
    interface [TimerCallback], which callbacks that leave the timer alone and
    callbacks that arm their event again implement. *)

From stdpp Require Import sorting.
From S2P Require Import Prelude.

Module Timer.

(** [struct timer_event_s]: the times; the callback and its private data are
    those of the event's identifier. *)
Record timer_event_s := { start : Z; delay : Z }.

(** [struct timer_s] with the events it may link.  An event is linked when it is
    in [root]; its list entry is an orphan otherwise. *)
Record timer_s := { root : list nat; ticks : Z; events : gmap nat timer_event_s }.

Section ops.
(** Width of [timer_delay_t]. *)
Context (w : Z).

Definition expire (ev : timer_event_s) : Z := wrapu w (start ev + delay ev).

(** The expiry time stored in a linked event. *)
Definition deadline (t : timer_s) (e : nat) : Z :=
  match events t !! e with Some ev => expire ev | None => 0 end.

(** The scan of [timer_add_event] and the insertion before the event it stops on,
    or at the end of the list. *)
Fixpoint insert_sorted (key : nat → Z) (t : Z) (event : nat) (l : list nat) : list nat :=
  match l with
  | [] => [event]
  | e :: l' => if key e <? t then e :: insert_sorted key t event l' else event :: l
  end.

(** Linking an event that is already linked breaks the list: [FCorrupt]. *)
Definition timer_add_event (event : nat) (t : timer_s) : outcome (Z * timer_s) :=
  ev ← of_option FBounds (events t !! event);
  let ev := {| start := ticks t; delay := delay ev |} in
  let t1 := {| root := root t; ticks := ticks t; events := <[event := ev]> (events t) |} in
  _ ← require (negb (bool_decide (event ∈ root t))) FCorrupt;
  Ok (0, {| root := insert_sorted (deadline t1) (wrapu w (ticks t + delay ev)) event (root t1);
            ticks := ticks t1; events := events t1 |}).

Definition unlink (event : nat) (t : timer_s) : timer_s :=
  {| root := filter (λ e, e ≠ event) (root t); ticks := ticks t; events := events t |}.

Section callbacks.
(** [St]: the state of the clients. *)
Context {St : Type} (callback : nat → St → timer_s → outcome (St * timer_s)).

Definition timer_cancel_event (event : nat) (call : bool) (st : St) (t : timer_s) : outcome (Z * St * timer_s) :=
  if bool_decide (event ∈ root t) then
    let t1 := unlink event t in
    if call then '(st', t2) ← callback event st t1; Ok (0, st', t2) else Ok (0, st, t1)
  else Ok (- ENOENT, st, t).

(** The loop of [timer_inc_ticks]. *)
Fixpoint fire_loop (fuel : nat) (st : St) (t : timer_s) : outcome (St * timer_s) :=
  match fuel with
  | O => Err FFuel
  | S fuel =>
      match root t with
      | e :: r =>
          if deadline t e <=? ticks t then
            '(st', t1) ← callback e st {| root := r; ticks := ticks t; events := events t |};
            fire_loop fuel st' t1
          else Ok (st, t)
      | [] => Ok (st, t)
      end
  end.

Definition timer_inc_ticks (n : Z) (st : St) (t : timer_s) : outcome (St * timer_s) :=
  let t1 := {| root := root t; ticks := wrapu w (ticks t + n); events := events t |} in
  fire_loop (S (length (root t1))) st t1.
End callbacks.

Definition timer_get_tick (t : timer_s) : Z := ticks t.
End ops.

(** ** Invariant *)

Definition by_deadline (w : Z) (t : timer_s) : relation nat :=
  λ a b, deadline w t a ≤ deadline w t b.

Record timer_inv (w : Z) (t : timer_s) : Prop := {
  ti_sorted : StronglySorted (by_deadline w t) (root t);
  ti_nodup : NoDup (root t);
  ti_known : ∀ e, e ∈ root t → is_Some (events t !! e);
}.

(** The pending events that have expired. *)
Definition due (w : Z) (t : timer_s) : list nat :=
  filter (λ e, deadline w t e ≤ ticks t) (root t).

(** What the clock relies on at the tick [now]: a callback leaves a well-formed
    timer, does not move the clock, and neither makes an event due nor withdraws one
    that is.  [P]: what the clients know of the events. *)
Class TimerCallback {St} (w now : Z) (P : gmap nat timer_event_s → Prop) (callback : nat → St → timer_s → outcome (St * timer_s)) : Prop := {
  callback_spec e st t :
    timer_inv w t → P (events t) → ticks t = now → is_Some (events t !! e) → e ∉ root t →
    ∃ st' t', callback e st t = Ok (st', t') ∧ timer_inv w t' ∧ P (events t') ∧ ticks t' = now ∧ due w t' = due w t;
}.

(** The events of a list are taken off the timer and their callbacks called, one
    after the other. *)
Inductive called {St} (callback : nat → St → timer_s → outcome (St * timer_s)) : list nat → St → timer_s → St → timer_s → Prop :=
| called_nil st t : called callback [] st t st t
| called_cons e es st t st1 t1 st2 t2 :
    callback e st (unlink e t) = Ok (st1, t1) → called callback es st1 t1 st2 t2 →
    called callback (e :: es) st t st2 t2.

(** ** Lemmas *)

Section insertion.
Context (key : nat → Z) (t : Z) (ev : nat).

Lemma insert_sorted_perm l : insert_sorted key t ev l ≡ₚ ev :: l.
Proof.
  induction l as [|e l IH]; simpl; [done|]. case_match; [|done].
  rewrite IH. apply Permutation_swap.
Qed.

Lemma insert_sorted_sorted l :
  key ev = t → StronglySorted (λ a b, key a ≤ key b) l →
  StronglySorted (λ a b, key a ≤ key b) (insert_sorted key t ev l).
Proof.
  intros Hk. induction 1 as [|e l Hs IH Hf]; simpl; [repeat constructor|].
  destruct (Z.ltb_spec (key e) t).
  - constructor; [done|]. rewrite insert_sorted_perm. constructor; [lia|done].
  - constructor; [by constructor|]. constructor; [lia|].
    eapply Forall_impl; [exact Hf|]. simpl; intros; lia.
Qed.

(** The new event goes before the pending events that expire at the same time. *)
Lemma insert_sorted_split l :
  StronglySorted (λ a b, key a ≤ key b) l →
  ∃ l1 l2, l = l1 ++ l2 ∧ insert_sorted key t ev l = l1 ++ ev :: l2 ∧
    Forall (λ e, key e < t) l1 ∧ Forall (λ e, t ≤ key e) l2.
Proof.
  induction 1 as [|e l Hs IH Hf]; simpl; [by exists [], []|].
  destruct (Z.ltb_spec (key e) t).
  - destruct IH as (l1 & l2 & -> & -> & ? & ?). exists (e :: l1), l2. by repeat constructor.
  - exists [], (e :: l). split_and!; [done|done|constructor|]. constructor; [done|].
    eapply Forall_impl; [exact Hf|]. simpl; intros; lia.
Qed.
End insertion.

Lemma sorted_same_key (k1 k2 : nat → Z) l :
  (∀ e, e ∈ l → k1 e = k2 e) →
  StronglySorted (λ a b, k1 a ≤ k1 b) l → StronglySorted (λ a b, k2 a ≤ k2 b) l.
Proof.
  intros Hk. induction 1 as [|e l Hs IH Hf]; constructor.
  - apply IH. set_solver.
  - rewrite Forall_forall in Hf |- *. intros x Hx.
    rewrite <-!Hk by set_solver. by apply Hf.
Qed.

Lemma sorted_filter (R : relation nat) P `{∀ x, Decision (P x)} l :
  StronglySorted R l → StronglySorted R (filter P l).
Proof.
  induction 1 as [|e l Hs IH Hf]; [constructor|]. rewrite filter_cons. case_decide; [|done].
  constructor; [done|]. rewrite Forall_forall in Hf |- *. intros x [_ Hx]%list_elem_of_filter.
  by apply Hf.
Qed.

Section timer.
Context (w : Z).

Lemma deadline_insert t e e' ev l n :
  deadline w {| root := l; ticks := n; events := <[e := ev]> (events t) |} e' =
  if decide (e = e') then expire w ev else deadline w t e'.
Proof.
  unfold deadline; simpl. rewrite lookup_insert. by case_decide.
Qed.

Lemma add_event_spec e t ev :
  timer_inv w t → e ∉ root t → events t !! e = Some ev →
  ∃ t' l1 l2, timer_add_event w e t = Ok (0, t') ∧ timer_inv w t' ∧ ticks t' = ticks t ∧
    events t' = <[e := {| start := ticks t; delay := delay ev |}]> (events t) ∧
    root t = l1 ++ l2 ∧ root t' = l1 ++ e :: l2 ∧
    deadline w t' e = wrapu w (ticks t + delay ev) ∧
    Forall (λ e', deadline w t e' < deadline w t' e) l1 ∧
    Forall (λ e', deadline w t' e ≤ deadline w t e') l2.
Proof.
  intros [Hs Hn Hk] He Hev. unfold timer_add_event. rewrite Hev. simpl.
  rewrite bool_decide_false by done. simpl.
  set (ev' := {| start := ticks t; delay := delay ev |}).
  set (t1 := {| root := root t; ticks := ticks t; events := <[e:=ev']> (events t) |}).
  set (x := wrapu w _).
  assert (deadline w t1 e = x) as Hx.
  { unfold t1. rewrite deadline_insert. by rewrite decide_True. }
  assert (∀ e', e' ∈ root t → deadline w t e' = deadline w t1 e') as Hsame.
  { intros e' He'. unfold t1. rewrite deadline_insert, decide_False; [done|]. by intros ->. }
  assert (StronglySorted (λ a b, deadline w t1 a ≤ deadline w t1 b) (root t)) as Hs1.
  { by apply (sorted_same_key (deadline w t)). }
  destruct (insert_sorted_split (deadline w t1) x e (root t) Hs1) as (l1 & l2 & E & Ei & F1 & F2).
  pose proof (insert_sorted_perm (deadline w t1) x e (root t)) as Hp.
  exists {| root := insert_sorted (deadline w t1) x e (root t); ticks := ticks t; events := events t1 |}, l1, l2.
  split_and!; [done| |done|done|done|done|done| |].
  - constructor; simpl.
    + by apply insert_sorted_sorted.
    + rewrite Hp. by constructor.
    + intros e'. rewrite Hp, elem_of_cons. intros [->|?]; rewrite lookup_insert; case_decide; eauto.
  - rewrite Forall_forall in F1 |- *. intros y Hy.
    change (deadline w t y < deadline w t1 e).
    rewrite Hx, Hsame by (rewrite E; set_solver). by apply F1.
  - rewrite Forall_forall in F2 |- *. intros y Hy.
    change (deadline w t1 e ≤ deadline w t y).
    rewrite Hx, Hsame by (rewrite E; set_solver). by apply F2.
Qed.

Lemma unlink_inv e t : timer_inv w t → timer_inv w (unlink e t).
Proof.
  intros [Hs Hn Hk]. constructor; simpl.
  - by apply sorted_filter.
  - by apply NoDup_filter.
  - intros e' [_ ?]%list_elem_of_filter. by apply Hk.
Qed.

Lemma tail_inv e r t :
  root t = e :: r → timer_inv w t →
  timer_inv w {| root := r; ticks := ticks t; events := events t |} ∧ (e ∉ r) ∧
  is_Some (events t !! e).
Proof.
  intros E [Hs Hn Hk]. rewrite E in *. apply StronglySorted_inv in Hs as [Hs _].
  apply NoDup_cons in Hn as [He Hn].
  split_and!; [constructor; simpl; [done..|]|done|apply Hk; set_solver].
  intros e' ?. apply Hk. set_solver.
Qed.

(** Sorted: nothing is due when the head is not. *)
Lemma due_nil t :
  timer_inv w t → (∀ e, head (root t) = Some e → ticks t < deadline w t e) → due w t = [].
Proof.
  intros [Hs _ _] Hh. apply elem_of_nil_inv. intros e [Hd He]%list_elem_of_filter. destruct (root t) as [|h r] eqn:E; [by apply elem_of_nil in He|].
  specialize (Hh h eq_refl). apply StronglySorted_inv in Hs as [_ Hf].
  apply elem_of_cons in He as [->|He]; [lia|].
  rewrite Forall_forall in Hf. specialize (Hf e He). unfold by_deadline in Hf. lia.
Qed.

Lemma due_pop e r t :
  root t = e :: r → deadline w t e ≤ ticks t →
  due w t = e :: due w {| root := r; ticks := ticks t; events := events t |}.
Proof. intros E Hd. unfold due at 1. by rewrite E, filter_cons, decide_True by done. Qed.

Lemma unlink_head e r t :
  root t = e :: r → timer_inv w t → unlink e t = {| root := r; ticks := ticks t; events := events t |}.
Proof.
  intros E [_ Hn _]. unfold unlink. rewrite E in *. apply NoDup_cons in Hn as [He _].
  rewrite filter_cons, decide_False by auto. f_equal. apply list_filter_all, Forall_forall. by intros x Hx ->.
Qed.

Lemma fire_loop_spec {St} now P cb `{!TimerCallback w now P cb} fuel (st : St) t :
  timer_inv w t → P (events t) → ticks t = now → (length (due w t) < fuel)%nat →
  ∃ st' t', fire_loop w cb fuel st t = Ok (st', t') ∧ called cb (due w t) st t st' t' ∧ timer_inv w t' ∧
    ticks t' = now ∧ due w t' = [].
Proof.
  revert st t; induction fuel as [|fuel IH]; intros st t Hi HP Hnow Hf; [lia|]. cbn [fire_loop].
  destruct (root t) as [|e r] eqn:E.
  { assert (due w t = []) as Hd by (apply due_nil; [done|by rewrite E]). exists st, t. rewrite Hd. by split_and!; [|constructor|..]. }
  destruct (Z.leb_spec (deadline w t e) (ticks t)) as [Hd|Hd].
  - pose proof (due_pop e r t E Hd) as Hl. rewrite Hl in Hf |- *. simpl in Hf.
    destruct (tail_inv e r t E Hi) as (Hi1 & He & Hk).
    destruct (callback_spec e st _ Hi1 HP Hnow Hk He) as (st1 & t1 & E1 & Hi2 & HP1 & Ht & Hd1). rewrite E1. simpl.
    destruct (IH st1 t1 Hi2 HP1 Ht) as (st2 & t2 & E2 & Hc & Hi3 & Ht2 & Hd2); [rewrite Hd1; lia|].
    exists st2, t2. split_and!; try done. econstructor; [|rewrite <-Hd1; exact Hc]. by rewrite (unlink_head e r).
  - assert (due w t = []) as Hn by (apply due_nil; [done|rewrite E; simpl; congruence]).
    exists st, t. rewrite Hn. by split_and!; [|constructor|..].
Qed.

Lemma set_ticks_inv t n :
  timer_inv w t → timer_inv w {| root := root t; ticks := n; events := events t |}.
Proof. by intros [Hs Hn Hk]. Qed.

Lemma due_length t : (length (due w t) ≤ length (root t))%nat.
Proof. apply length_filter. Qed.
End timer.

(** ** Callbacks *)

(** Clients that note which of their events were called. *)

(** A callback that leaves the timer alone. *)
Definition oneshot (e : nat) (st : list nat) (t : timer_s) : outcome (list nat * timer_s) := Ok (st ++ [e], t).

#[export] Instance oneshot_ok w now P : TimerCallback w now P oneshot.
Proof. constructor. intros e st t Hi HP Ht _ _. exists (st ++ [e]), t. by split_and!. Qed.

(** A callback that arms its event again, with the delay the event has. *)
Definition rearm (w : Z) (e : nat) (st : list nat) (t : timer_s) : outcome (list nat * timer_s) :=
  '(_, t') ← timer_add_event w e t; Ok (st ++ [e], t').

(** As long as the next expiry time does not pass the end of the clock. *)
Lemma add_event_due w e t ev :
  timer_inv w t → e ∉ root t → events t !! e = Some ev →
  0 ≤ ticks t < ticks t + delay ev → ticks t + delay ev < 2 ^ w →
  ∃ t', timer_add_event w e t = Ok (0, t') ∧ timer_inv w t' ∧ ticks t' = ticks t ∧ due w t' = due w t ∧
    root t' ≡ₚ e :: root t ∧ deadline w t' e = ticks t + delay ev.
Proof.
  intros Hi He Hev Hd Hb.
  destruct (add_event_spec w e t ev Hi He Hev) as (t2 & l1 & l2 & E & Hi2 & Ht & Hev2 & R1 & R2 & D & _ & _).
  rewrite wrapu_small in D by lia. exists t2. split_and!; try done.
  - assert (∀ e', e' ∈ root t → deadline w t2 e' = deadline w t e') as Hd2.
    { intros e' He'. unfold deadline. rewrite Hev2, lookup_insert_ne; [done|]. by intros ->. }
    unfold due. rewrite R2, R1, !filter_app, filter_cons, decide_False by (rewrite D, Ht; lia).
    rewrite Ht. f_equal; apply list_filter_ext_in; (intros x Hx; rewrite Hd2; [done|rewrite R1; set_solver]).
  - rewrite R1, R2. symmetry. apply Permutation_middle.
Qed.

Definition in_time (w now : Z) (evs : gmap nat timer_event_s) : Prop :=
  ∀ e ev, evs !! e = Some ev → 1 ≤ delay ev ∧ now + delay ev < 2 ^ w.
#[export] Instance rearm_ok w now : 0 ≤ now → TimerCallback w now (in_time w now) (rearm w).
Proof.
  intros H0. constructor. intros e st t Hi HP <- [ev Hev] He. destruct (HP e ev Hev) as [H1 H2].
  destruct (add_event_spec w e t ev Hi He Hev) as (t2 & l1 & l2 & E & _ & _ & Hevs & _).
  destruct (add_event_due w e t ev Hi He Hev) as (t' & E' & Hi' & Ht & Hd & _); [lia..|]. rewrite E in E'. injection E' as <-.
  exists (st ++ [e]), t2. unfold rearm. rewrite E. split_and!; try done. rewrite Hevs. intros e' ev'. rewrite lookup_insert.
  case_decide; [|apply HP]. by intros [= <-].
Qed.

(** ** Properties *)

(**  [timer_add_event] on an event that is not pending succeeds and keeps
    the list sorted by expiry time and free of duplicates; the event is placed
    after exactly the events that expire strictly earlier. *)
Theorem timer_add_sorted w e t ev :
  timer_inv w t → (e ∉ root t) → events t !! e = Some ev →
  ∃ t' l1 l2, timer_add_event w e t = Ok (0, t') ∧ timer_inv w t' ∧
    root t = l1 ++ l2 ∧ root t' = l1 ++ e :: l2 ∧
    deadline w t' e = wrapu w (ticks t + delay ev) ∧
    Forall (λ e', deadline w t e' < deadline w t' e) l1 ∧
    Forall (λ e', deadline w t' e ≤ deadline w t e') l2.
Proof.
  intros Hi He Hev.
  destruct (add_event_spec w e t ev Hi He Hev) as (t' & l1 & l2 & ? & ? & _ & _ & ?).
  exists t', l1, l2. tauto.
Qed.

(** C39.  A clock tick ends, and calls the callbacks of exactly the events that have
    expired, once each and in the order of expiry, each after its event was taken off
    the timer; nothing that has expired is left pending.  Expired means that the
    stored expiry time is at most the new time as a plain number.  The callbacks meet
    the interface: they may use the timer, for example arm their event again, but make
    no event due at once and withdraw none that is. *)
Theorem timer_tick_fires_due {St} w cb P n (st : St) t :
  let now := wrapu w (ticks t + n) in
  let t1 := {| root := root t; ticks := now; events := events t |} in
  TimerCallback w now P cb → timer_inv w t → P (events t) →
  ∃ st' t', timer_inc_ticks w cb n st t = Ok (st', t') ∧
    called cb (filter (λ e, deadline w t e ≤ now) (root t)) st t1 st' t' ∧ timer_inv w t' ∧
    ticks t' = now ∧ ∀ e, e ∈ root t' → now < deadline w t' e.
Proof.
  intros now t1 Hcb Hi HP. unfold timer_inc_ticks. cbv zeta. fold now. fold t1.
  destruct (fire_loop_spec w now P cb (S (length (root t1))) st t1) as (st' & t' & E & Hc & Hi' & Ht & Hd); [by apply set_ticks_inv|done|done|..].
  { pose proof (due_length w t1). lia. }
  exists st', t'. split_and!; try done. intros e He. apply Z.nle_gt. intros Hle.
  assert (e ∈ due w t') as Hx by (apply list_elem_of_filter; by rewrite Ht).
  rewrite Hd in Hx. by apply elem_of_nil in Hx.
Qed.

Lemma called_oneshot es st t st' t' :
  called oneshot es st t st' t' →
  st' = st ++ es ∧ t' = {| root := filter (λ e, e ∉ es) (root t); ticks := ticks t; events := events t |}.
Proof.
  induction 1 as [st t|e es st t st1 t1 st2 t2 H _ [-> ->]].
  - rewrite app_nil_r. split; [done|]. rewrite list_filter_all by (apply Forall_forall; intros ?? ?%elem_of_nil; done). by destruct t.
  - unfold oneshot in H. injection H as <- <-. simpl. rewrite <-app_assoc. split; [done|]. f_equal.
    rewrite list_filter_filter. apply list_filter_ext_in. intros x _. set_solver.
Qed.

(**  With callbacks that leave the timer alone a clock tick runs exactly the
    expired events, once each and in the order of expiry, and keeps all others. *)
Theorem timer_tick_exact w n st t :
  timer_inv w t →
  let now := wrapu w (ticks t + n) in
  timer_inc_ticks w oneshot n st t =
    Ok (st ++ filter (λ e, deadline w t e ≤ now) (root t),
        {| root := filter (λ e, now < deadline w t e) (root t); ticks := now; events := events t |}).
Proof.
  intros Hi now. unfold timer_inc_ticks. cbv zeta. fold now.
  set (t1 := {| root := root t; ticks := _; events := _ |}).
  destruct (fire_loop_spec w now (λ _, True) oneshot (S (length (root t1))) st t1) as (st' & t' & -> & Hc & _); [by apply set_ticks_inv|done|done|..].
  { pose proof (due_length w t1). lia. }
  apply called_oneshot in Hc as [-> ->]. simpl. do 3 f_equal. apply list_filter_ext_in. intros e He.
  unfold due. rewrite list_elem_of_filter. simpl. change (deadline w t1 e) with (deadline w t e). split; [intros Hx; apply Z.nle_gt; naive_solver|intros Hx [? _]; lia].
Qed.

(**  The clock comparison does not survive the wrap-around of the tick
    counter: an event whose delay crosses it is run by the next tick, long
    before the delay has elapsed. *)
Theorem timer_wrap_fires_early w e st t ev :
  0 ≤ w → timer_inv w t → root t = [] → events t !! e = Some ev →
  0 ≤ delay ev < 2 ^ w → 0 ≤ ticks t → ticks t + 1 < 2 ^ w ≤ ticks t + delay ev →
  ∃ t', timer_add_event w e t = Ok (0, t') ∧
    timer_inc_ticks w oneshot 1 st t' = Ok (st ++ [e], {| root := []; ticks := ticks t + 1; events := events t' |}).
Proof.
  intros Hw Hi Hr Hev Hd Ht Hx.
  destruct (add_event_spec w e t ev Hi) as (t' & l1 & l2 & E & Hi' & Ht' & _ & R1 & R2 & D & _ & _).
  { rewrite Hr. set_solver. } { done. }
  exists t'. split; [done|].
  rewrite Hr in R1. symmetry in R1. apply app_nil in R1 as [-> ->]. simpl in R2.
  assert (deadline w t' e ≤ ticks t + 1).
  { rewrite D. unfold wrapu. replace (ticks t + delay ev) with (ticks t + delay ev - 2 ^ w + 1 * 2 ^ w) by lia.
    rewrite Z.mod_add by lia. rewrite Z.mod_small by lia. lia. }
  unfold timer_inc_ticks. cbv zeta. rewrite R2, Ht', wrapu_small by lia. cbn [length fire_loop root ticks].
  rewrite (proj2 (Z.leb_le _ _)) by (unfold deadline in *; simpl in *; lia). done.
Qed.

(**  A callback that arms its event again, with a delay that crosses the
    wrap-around, is called again and again by one tick: the loop never ends. *)
Theorem timer_rearm_spins w e st t ev fuel :
  0 ≤ w → timer_inv w t → root t = [e] → events t !! e = Some ev →
  0 ≤ delay ev < 2 ^ w → 0 ≤ ticks t < 2 ^ w → 2 ^ w ≤ ticks t + delay ev → start ev = ticks t →
  fire_loop w (rearm w) fuel st t = Err FFuel.
Proof.
  intros Hw Hi Hr Hev Hd Ht Hx Hst. revert st. induction fuel as [|fuel IH]; intros st; [done|]. cbn [fire_loop].
  assert (ev = {| start := ticks t; delay := delay ev |}) as Hes by (destruct ev; simpl in *; by subst).
  rewrite Hr, (proj2 (Z.leb_le _ _)).
  - assert (rearm w e st {| root := []; ticks := ticks t; events := events t |} = Ok (st ++ [e], t)) as ->; [|apply IH].
    unfold rearm, timer_add_event. cbn [root ticks events]. rewrite Hev. cbn. rewrite <-Hes, (insert_id _ _ _ Hev), <-Hr. by destruct t.
  - unfold deadline. rewrite Hev. unfold expire. rewrite Hst. unfold wrapu.
    replace (ticks t + delay ev) with (ticks t + delay ev - 2 ^ w + 1 * 2 ^ w) by lia.
    rewrite Z.mod_add by lia. rewrite Z.mod_small by lia. lia.
Qed.

(** ** Witnesses *)

(** Ticks 10, an event due at 12 pending, event 7 not armed. *)
Definition demo : timer_s :=
  {| root := [3%nat]; ticks := 10;
     events := <[3%nat := {| start := 8; delay := 4 |}]> {[7%nat := {| start := 0; delay := 1 |}]} |}.

Lemma demo_inv : timer_inv 8 demo.
Proof.
  constructor; [repeat constructor|apply NoDup_singleton|].
  intros e ->%list_elem_of_singleton. by exists {| start := 8; delay := 4 |}.
Defined.

Lemma timer_add_sorted_witness :
  ∃ t' l1 l2, timer_add_event 8 7 demo = Ok (0, t') ∧ timer_inv 8 t' ∧
    [3%nat] = l1 ++ l2 ∧ root t' = l1 ++ 7%nat :: l2 ∧
    deadline 8 t' 7 = 11 ∧
    Forall (λ e', deadline 8 demo e' < deadline 8 t' 7) l1 ∧
    Forall (λ e', deadline 8 t' 7 ≤ deadline 8 demo e') l2.
Proof.
  refine (timer_add_sorted 8 7 demo {| start := 0; delay := 1 |} demo_inv _ _);
    [by vm_compute; intros ?%list_elem_of_singleton|reflexivity].
Defined.

(** Event 3 is called and pending again. *)
Lemma timer_tick_fires_due_witness :
  ∃ t', timer_inc_ticks 8 (rearm 8) 2 [] demo = Ok ([3%nat], t') ∧ root t' = [3%nat] ∧
    ticks t' = 12 ∧ ∀ e, e ∈ root t' → 12 < deadline 8 t' e.
Proof.
  destruct (timer_tick_fires_due 8 (rearm 8) (in_time 8 12) 2 [] demo) as (st' & t' & E & _ & _ & Ht & Hd).
  - apply rearm_ok. lia.
  - exact demo_inv.
  - intros e ev. cbn [events demo]. rewrite lookup_insert_Some, lookup_singleton_Some. intros [[_ <-]|(_ & _ & <-)]; simpl; lia.
  - vm_compute in E. injection E as <- <-. eexists. split; [vm_compute; reflexivity|]. split; [reflexivity|]. split; [reflexivity|]. exact Hd.
Defined.

Lemma timer_tick_exact_witness :
  timer_inc_ticks 8 oneshot 2 [] demo = Ok ([3%nat], {| root := []; ticks := 12; events := events demo |}).
Proof. exact (timer_tick_exact 8 2 [] demo demo_inv). Defined.

Definition demo_wrap : timer_s :=
  {| root := []; ticks := 250; events := {[7%nat := {| start := 0; delay := 100 |}]} |}.

Lemma demo_wrap_inv : timer_inv 8 demo_wrap.
Proof. constructor; [constructor|constructor|]. intros e ?%elem_of_nil. done. Defined.

Lemma timer_wrap_fires_early_witness :
  ∃ t', timer_add_event 8 7 demo_wrap = Ok (0, t') ∧
    timer_inc_ticks 8 oneshot 1 [] t' = Ok ([7%nat], {| root := []; ticks := 251; events := events t' |}).
Proof.
  refine (timer_wrap_fires_early 8 7 [] demo_wrap {| start := 0; delay := 100 |} _ demo_wrap_inv _ _ _ _ _);
    simpl; [lia|reflexivity|reflexivity|lia|lia|lia].
Defined.
End Timer.
