(* ===== verification/Endian.v ===== *)
(** * Byte order and alignment (hexo/include/hexo/endian.h)

    Byte swaps, non aligned loads and stores by bytes, and the alignment macros.
    The theorems relate them to the byte sequence of a word. *)

From S2P Require Import Prelude.

Module Endian.

(** ** Words swap functions *)

Definition __endian_swap16 (x : Z) : Z := wrapu 16 (Z.lor (Z.shiftr x 8) (Z.shiftl x 8)).

Definition __endian_swap32 (x : Z) : Z :=
  Z.lor (Z.lor (Z.land (Z.shiftr x 24) 0x000000ff)
               (Z.land (Z.shiftr x 8) 0x0000ff00))
        (Z.lor (Z.land (wrapu 32 (Z.shiftl x 8)) 0x00ff0000)
               (Z.land (wrapu 32 (Z.shiftl x 24)) 0xff000000)).

Definition __endian_swap64 (x : Z) : Z :=
  Z.lor (wrapu 64 (Z.shiftl (__endian_swap32 (wrapu 32 x)) 32))
        (__endian_swap32 (wrapu 32 (Z.shiftr x 32))).

(** ** Non aligned access functions *)

Section access.
(** Width of [int]: a byte is promoted to [int] before it is shifted. *)
Context (int_width : Z).

(** [((uint8_t*\)addr)[index] << shift] *)
Definition __ENDIAN_NAL_L (m : list Z) (addr index shift : Z) : outcome Z :=
  b ← aget m (addr + index);
  _ ← require (shift <? int_width) FUndef;
  Ok (wraps int_width (Z.shiftl b shift)).

(** [((uint8_t*\)addr)[index] = (uint8_t)(value >> shift)] *)
Definition __ENDIAN_NAS_R (m : list Z) (addr index value shift : Z) : outcome (list Z) :=
  aset m (addr + index) (wrapu 8 (Z.shiftr value shift)).

Definition endian_le16_na_load (m : list Z) (a : Z) : outcome Z :=
  b0 ← __ENDIAN_NAL_L m a 0 0; b1 ← __ENDIAN_NAL_L m a 1 8; Ok (Z.lor b0 b1).
Definition endian_be16_na_load (m : list Z) (a : Z) : outcome Z :=
  b0 ← __ENDIAN_NAL_L m a 0 8; b1 ← __ENDIAN_NAL_L m a 1 0; Ok (Z.lor b0 b1).

Definition endian_le32_na_load (m : list Z) (a : Z) : outcome Z :=
  b0 ← __ENDIAN_NAL_L m a 0 0; b1 ← __ENDIAN_NAL_L m a 1 8;
  b2 ← __ENDIAN_NAL_L m a 2 16; b3 ← __ENDIAN_NAL_L m a 3 24;
  Ok (Z.lor (Z.lor (Z.lor b0 b1) b2) b3).
Definition endian_be32_na_load (m : list Z) (a : Z) : outcome Z :=
  b0 ← __ENDIAN_NAL_L m a 0 24; b1 ← __ENDIAN_NAL_L m a 1 16;
  b2 ← __ENDIAN_NAL_L m a 2 8; b3 ← __ENDIAN_NAL_L m a 3 0;
  Ok (Z.lor (Z.lor (Z.lor b0 b1) b2) b3).

Definition endian_le64_na_load (m : list Z) (a : Z) : outcome Z :=
  b0 ← __ENDIAN_NAL_L m a 0 0; b1 ← __ENDIAN_NAL_L m a 1 8;
  b2 ← __ENDIAN_NAL_L m a 2 16; b3 ← __ENDIAN_NAL_L m a 3 24;
  b4 ← __ENDIAN_NAL_L m a 4 32; b5 ← __ENDIAN_NAL_L m a 5 40;
  b6 ← __ENDIAN_NAL_L m a 6 48; b7 ← __ENDIAN_NAL_L m a 7 56;
  Ok (Z.lor (Z.lor (Z.lor (Z.lor (Z.lor (Z.lor (Z.lor b0 b1) b2) b3) b4) b5) b6) b7).
Definition endian_be64_na_load (m : list Z) (a : Z) : outcome Z :=
  b0 ← __ENDIAN_NAL_L m a 0 56; b1 ← __ENDIAN_NAL_L m a 1 48;
  b2 ← __ENDIAN_NAL_L m a 2 40; b3 ← __ENDIAN_NAL_L m a 3 32;
  b4 ← __ENDIAN_NAL_L m a 4 24; b5 ← __ENDIAN_NAL_L m a 5 16;
  b6 ← __ENDIAN_NAL_L m a 6 8; b7 ← __ENDIAN_NAL_L m a 7 0;
  Ok (Z.lor (Z.lor (Z.lor (Z.lor (Z.lor (Z.lor (Z.lor b0 b1) b2) b3) b4) b5) b6) b7).
End access.

Definition endian_le16_na_store (m : list Z) (a x : Z) : outcome (list Z) :=
  let val := wrapu 16 x in
  m ← __ENDIAN_NAS_R m a 0 val 0; __ENDIAN_NAS_R m a 1 val 8.
Definition endian_be16_na_store (m : list Z) (a x : Z) : outcome (list Z) :=
  let val := wrapu 16 x in
  m ← __ENDIAN_NAS_R m a 0 val 8; __ENDIAN_NAS_R m a 1 val 0.

Definition endian_le32_na_store (m : list Z) (a x : Z) : outcome (list Z) :=
  let val := wrapu 32 x in
  m ← __ENDIAN_NAS_R m a 0 val 0; m ← __ENDIAN_NAS_R m a 1 val 8;
  m ← __ENDIAN_NAS_R m a 2 val 16; __ENDIAN_NAS_R m a 3 val 24.
Definition endian_be32_na_store (m : list Z) (a x : Z) : outcome (list Z) :=
  let val := wrapu 32 x in
  m ← __ENDIAN_NAS_R m a 0 val 24; m ← __ENDIAN_NAS_R m a 1 val 16;
  m ← __ENDIAN_NAS_R m a 2 val 8; __ENDIAN_NAS_R m a 3 val 0.

Definition endian_le64_na_store (m : list Z) (a x : Z) : outcome (list Z) :=
  let val := wrapu 64 x in
  m ← __ENDIAN_NAS_R m a 0 val 0; m ← __ENDIAN_NAS_R m a 1 val 8;
  m ← __ENDIAN_NAS_R m a 2 val 16; m ← __ENDIAN_NAS_R m a 3 val 24;
  m ← __ENDIAN_NAS_R m a 4 val 32; m ← __ENDIAN_NAS_R m a 5 val 40;
  m ← __ENDIAN_NAS_R m a 6 val 48; __ENDIAN_NAS_R m a 7 val 56.
Definition endian_be64_na_store (m : list Z) (a x : Z) : outcome (list Z) :=
  let val := wrapu 64 x in
  m ← __ENDIAN_NAS_R m a 0 val 56; m ← __ENDIAN_NAS_R m a 1 val 48;
  m ← __ENDIAN_NAS_R m a 2 val 40; m ← __ENDIAN_NAS_R m a 3 val 32;
  m ← __ENDIAN_NAS_R m a 4 val 24; m ← __ENDIAN_NAS_R m a 5 val 16;
  m ← __ENDIAN_NAS_R m a 6 val 8; __ENDIAN_NAS_R m a 7 val 0.

(** ** Address and values alignment *)

Definition ALIGN_ISPOWTWO (x : Z) : bool := Z.land x (x - 1) =? 0.
Definition IS_ALIGNED (x b : Z) : bool := Z.land x (b - 1) =? 0.

(** On [w]-bit unsigned values. *)
Definition ALIGN_VALUE_UP (w x b : Z) : Z := wrapu w (Z.lor (wrapu w (x - 1)) (b - 1) + 1).
Definition ALIGN_VALUE_LOW (x b : Z) : Z := Z.land x (Z.lnot (b - 1)).

(** ** Reference: the bytes of a word *)

Definition byte_at (x k : Z) : Z := wrapu 8 (Z.shiftr x (8 * k)).
Definition le_bytes (n x : Z) : list Z := byte_at x <$> seqZ 0 n.
Definition be_bytes (n x : Z) : list Z := reverse (le_bytes n x).

(** [write_at m a bs] replaces the bytes of [m] from [a] on. *)
Definition write_at (m : list Z) (a : nat) (bs : list Z) : list Z :=
  take a m ++ bs ++ drop (a + length bs) m.

(** ** Lemmas *)

Ltac masks :=
  change 0x000000ff with (Z.ones 8);
  change 0x0000ff00 with (Z.shiftl (Z.ones 8) 8);
  change 0x00ff0000 with (Z.shiftl (Z.ones 8) 16);
  change 0xff000000 with (Z.shiftl (Z.ones 8) 24).

Lemma swap16_byte x k : 0 ≤ k < 2 → 0 ≤ x < 2 ^ 16 → byte_at (__endian_swap16 x) k = byte_at x (1 - k).
Proof.
  intros Hk Hx. rewrite <-(wrapu_small 16 x) by done. unfold byte_at, __endian_swap16.
  assert (k = 0 ∨ k = 1) as [->| ->] by lia; zbits.
Qed.

Lemma swap32_byte x k : 0 ≤ k < 4 → byte_at (__endian_swap32 x) k = byte_at x (3 - k).
Proof.
  intros Hk. unfold byte_at, __endian_swap32. masks.
  assert (k = 0 ∨ k = 1 ∨ k = 2 ∨ k = 3) as [->|[->|[->| ->]]] by lia; zbits.
Qed.

Lemma byte_wrap x k : 0 ≤ k < 4 → byte_at (wrapu 32 x) k = byte_at x k.
Proof. intros Hk. unfold byte_at. zbits. Qed.

Lemma byte_shift x k : 0 ≤ k → byte_at (Z.shiftr x 32) k = byte_at x (k + 4).
Proof. intros Hk. unfold byte_at. zbits. Qed.

Lemma swap32_range x : 0 ≤ __endian_swap32 x < 2 ^ 32.
Proof.
  assert (__endian_swap32 x = wrapu 32 (__endian_swap32 x)) as ->; [|by apply wrapu_range].
  unfold __endian_swap32. masks. zbits.
Qed.

Lemma swap64_byte x k : 0 ≤ k < 8 → byte_at (__endian_swap64 x) k = byte_at x (7 - k).
Proof.
  intros Hk. unfold __endian_swap64.
  set (hi := __endian_swap32 (wrapu 32 x)). set (lo := __endian_swap32 _).
  assert (lo = wrapu 32 lo) as Hlo by (symmetry; apply wrapu_small, swap32_range).
  destruct (Z.lt_ge_cases k 4).
  - transitivity (byte_at lo k).
    + unfold byte_at. zbits.
    + unfold lo. rewrite swap32_byte, byte_wrap, byte_shift by lia. f_equal. lia.
  - transitivity (byte_at hi (k - 4)).
    + rewrite Hlo. unfold byte_at. zbits.
    + unfold hi. rewrite swap32_byte, byte_wrap by lia. f_equal. lia.
Qed.

Lemma le_bytes_reverse n x y :
  (∀ k, 0 ≤ k < n → byte_at y k = byte_at x (n - 1 - k)) → le_bytes n y = be_bytes n x.
Proof.
  intros H. unfold be_bytes, le_bytes. rewrite <-fmap_reverse.
  apply list_eq. intros i. rewrite !list_lookup_fmap.
  destruct (decide (i < Z.to_nat n)%nat).
  - rewrite reverse_lookup by (rewrite length_seqZ; lia). rewrite length_seqZ.
    rewrite !lookup_seqZ_lt by lia. simpl. f_equal. rewrite H by lia. f_equal. lia.
  - rewrite !lookup_ge_None_2; [done|rewrite length_reverse|]; rewrite length_seqZ; lia.
Qed.

(** *** Stores and loads of byte sequences *)

Lemma write_at_cons m a b bs :
  (a < length m)%nat → write_at m a (b :: bs) = write_at (<[a := b]> m) (S a) bs.
Proof.
  intros Ha. unfold write_at. rewrite (take_S_r _ a b) by (by rewrite list_lookup_insert_eq).
  rewrite take_insert_ge by lia. rewrite drop_insert_lt by lia.
  rewrite <-!app_assoc. simpl. by replace (a + S (length bs))%nat with (S (a + length bs)) by lia.
Qed.

Lemma write_at_nil m a : write_at m a [] = m.
Proof. unfold write_at. simpl. rewrite Nat.add_0_r. apply take_drop. Qed.

Lemma write_at_lookup m a bs j :
  (a + length bs ≤ length m)%nat → (j < length bs)%nat → write_at m a bs !! (a + j)%nat = bs !! j.
Proof.
  intros Ha Hj. unfold write_at. rewrite lookup_app_r by (rewrite length_take; lia).
  rewrite length_take, lookup_app_l by lia. f_equal. lia.
Qed.

Lemma nas_spec m (a : nat) k v sh :
  0 ≤ k → (a + Z.to_nat k < length m)%nat →
  __ENDIAN_NAS_R m (Z.of_nat a) k v sh = Ok (<[(a + Z.to_nat k)%nat := wrapu 8 (Z.shiftr v sh)]> m).
Proof.
  intros Hk Ha. unfold __ENDIAN_NAS_R.
  replace (Z.of_nat a + k) with (Z.of_nat (a + Z.to_nat k)) by lia. by apply aset_nat.
Qed.

Lemma nal_spec iw m bs (a : nat) k sh b :
  (a + length bs ≤ length m)%nat → 0 ≤ k → bs !! Z.to_nat k = Some b →
  __ENDIAN_NAL_L iw (write_at m a bs) (Z.of_nat a) k sh =
    (_ ← require (sh <? iw) FUndef; Ok (wraps iw (Z.shiftl b sh))).
Proof.
  intros Ha Hk Hb. unfold __ENDIAN_NAL_L.
  replace (Z.of_nat a + k) with (Z.of_nat (a + Z.to_nat k)) by lia.
  erewrite aget_nat; [done|]. rewrite write_at_lookup; [done|done|].
  by eapply lookup_lt_Some.
Qed.

(** Runs a sequence of byte stores. *)
Ltac run_stores :=
  repeat first
    [ rewrite nas_spec by (rewrite ?length_insert; lia); cbn [mbind outcome_bind] ];
  f_equal; rewrite !write_at_cons by (rewrite ?length_insert; lia); rewrite write_at_nil;
  repeat f_equal; lia.

Ltac byte_eq := unfold byte_at; zbits.

Lemma store16_spec m (a : nat) x :
  (a + 2 ≤ length m)%nat →
  endian_le16_na_store m (Z.of_nat a) x = Ok (write_at m a (le_bytes 2 x)) ∧
  endian_be16_na_store m (Z.of_nat a) x = Ok (write_at m a (be_bytes 2 x)).
Proof.
  intros Ha. unfold endian_le16_na_store, endian_be16_na_store.
  change (be_bytes 2 x) with [byte_at x 1; byte_at x 0].
  change (le_bytes 2 x) with [byte_at x 0; byte_at x 1].
  assert (∀ k, 0 ≤ k < 2 → wrapu 8 (Z.shiftr (wrapu 16 x) (8 * k)) = byte_at x k) as E
    by (intros; byte_eq).
  rewrite <-!E by lia. split; run_stores.
Qed.

Lemma store32_spec m (a : nat) x :
  (a + 4 ≤ length m)%nat →
  endian_le32_na_store m (Z.of_nat a) x = Ok (write_at m a (le_bytes 4 x)) ∧
  endian_be32_na_store m (Z.of_nat a) x = Ok (write_at m a (be_bytes 4 x)).
Proof.
  intros Ha. unfold endian_le32_na_store, endian_be32_na_store.
  change (be_bytes 4 x) with [byte_at x 3; byte_at x 2; byte_at x 1; byte_at x 0].
  change (le_bytes 4 x) with [byte_at x 0; byte_at x 1; byte_at x 2; byte_at x 3].
  assert (∀ k, 0 ≤ k < 4 → wrapu 8 (Z.shiftr (wrapu 32 x) (8 * k)) = byte_at x k) as E
    by (intros; byte_eq).
  rewrite <-!E by lia. split; run_stores.
Qed.

Lemma store64_spec m (a : nat) x :
  (a + 8 ≤ length m)%nat →
  endian_le64_na_store m (Z.of_nat a) x = Ok (write_at m a (le_bytes 8 x)) ∧
  endian_be64_na_store m (Z.of_nat a) x = Ok (write_at m a (be_bytes 8 x)).
Proof.
  intros Ha. unfold endian_le64_na_store, endian_be64_na_store.
  change (be_bytes 8 x) with [byte_at x 7; byte_at x 6; byte_at x 5; byte_at x 4;
                              byte_at x 3; byte_at x 2; byte_at x 1; byte_at x 0].
  change (le_bytes 8 x) with [byte_at x 0; byte_at x 1; byte_at x 2; byte_at x 3;
                              byte_at x 4; byte_at x 5; byte_at x 6; byte_at x 7].
  assert (∀ k, 0 ≤ k < 8 → wrapu 8 (Z.shiftr (wrapu 64 x) (8 * k)) = byte_at x k) as E
    by (intros; byte_eq).
  rewrite <-!E by lia. split; run_stores.
Qed.

(** Runs a sequence of byte loads; the loaded bytes are given by evaluation. *)
Ltac run_loads :=
  repeat (erewrite nal_spec by (done || lia); cbn [require mbind outcome_bind];
          try match goal with |- context [require ?c _] => change c with true end;
          cbn [require mbind outcome_bind]).

Lemma load16_spec m (a : nat) x :
  (a + 2 ≤ length m)%nat →
  (∃ v, endian_le16_na_load 32 (write_at m a (le_bytes 2 x)) (Z.of_nat a) = Ok v ∧
        wrapu 16 v = wrapu 16 x) ∧
  (∃ v, endian_be16_na_load 32 (write_at m a (be_bytes 2 x)) (Z.of_nat a) = Ok v ∧
        wrapu 16 v = wrapu 16 x).
Proof.
  intros Ha. unfold endian_le16_na_load, endian_be16_na_load.
  split; run_loads; eexists; (split; [reflexivity|]); unfold byte_at; zbits.
Qed.

Lemma load32_spec m (a : nat) x :
  (a + 4 ≤ length m)%nat →
  (∃ v, endian_le32_na_load 32 (write_at m a (le_bytes 4 x)) (Z.of_nat a) = Ok v ∧
        wrapu 32 v = wrapu 32 x) ∧
  (∃ v, endian_be32_na_load 32 (write_at m a (be_bytes 4 x)) (Z.of_nat a) = Ok v ∧
        wrapu 32 v = wrapu 32 x).
Proof.
  intros Ha. unfold endian_le32_na_load, endian_be32_na_load.
  split; run_loads; eexists; (split; [reflexivity|]); unfold byte_at; zbits.
Qed.

(** *** Alignment *)

Lemma lor_low k y : 0 ≤ k → Z.lor y (2 ^ k - 1) = y / 2 ^ k * 2 ^ k + (2 ^ k - 1).
Proof.
  intros Hk. replace (2 ^ k - 1) with (Z.ones k) by (rewrite Z.ones_equiv; lia).
  rewrite <-Z.shiftl_mul_pow2, <-Z.shiftr_div_pow2 by done.
  rewrite Z.add_nocarry_lxor; zbits.
Qed.

Lemma land_high k y : 0 ≤ k → Z.land y (Z.lnot (2 ^ k - 1)) = y / 2 ^ k * 2 ^ k.
Proof.
  intros Hk. replace (2 ^ k - 1) with (Z.ones k) by (rewrite Z.ones_equiv; lia).
  rewrite <-Z.shiftl_mul_pow2, <-Z.shiftr_div_pow2 by done. zbits.
Qed.

Lemma align_low_spec k x : 0 ≤ k → ALIGN_VALUE_LOW x (2 ^ k) = x / 2 ^ k * 2 ^ k.
Proof. apply land_high. Qed.

Lemma align_up_spec w k x :
  0 ≤ k ≤ w → 0 ≤ x ≤ 2 ^ w - 2 ^ k →
  ALIGN_VALUE_UP w x (2 ^ k) = (x + 2 ^ k - 1) / 2 ^ k * 2 ^ k.
Proof.
  intros Hk Hx. assert (0 < 2 ^ k) as Hp by (apply pow2_pos; lia). unfold ALIGN_VALUE_UP. rewrite lor_low by lia.
  assert (2 ^ w = 2 ^ (w - k) * 2 ^ k) as Ew by (rewrite <-Z.pow_add_r by lia; f_equal; lia).
  set (b := 2 ^ k) in *. destruct (decide (x = 0)) as [->|].
  - pose proof (pow2_pos w). assert (wrapu w (0 - 1) = 2 ^ w - 1) as ->.
    { unfold wrapu. replace (0 - 1) with (2 ^ w - 1 + (-1) * 2 ^ w) by lia.
      rewrite Z.mod_add, Z.mod_small by lia. done. }
    rewrite Ew.
    replace ((0 + b - 1) / b) with 0 by (symmetry; apply Z.div_small; lia).
    replace (2 ^ (w - k) * b - 1) with ((2 ^ (w - k) - 1) * b + (b - 1)) by lia.
    rewrite Z.div_add_l, (Z.div_small (b - 1)) by lia.
    replace ((2 ^ (w - k) - 1 + 0) * b + (b - 1) + 1) with (1 * (2 ^ (w - k) * b)) by lia.
    unfold wrapu. rewrite Ew. by rewrite Z_mod_mult.
  - rewrite (wrapu_small w (x - 1)) by lia.
    replace (x + b - 1) with ((x - 1) + 1 * b) by lia. rewrite Z.div_add by lia.
    pose proof (Z.mul_div_le (x - 1) b Hp).
    assert (0 ≤ (x - 1) / b) by (apply Z.div_pos; lia).
    set (q := (x - 1) / b) in *. assert (0 ≤ q * b) by nia.
    rewrite wrapu_small by lia. lia.
Qed.

Lemma align_value_bounds w k x :
  0 ≤ k ≤ w → 0 ≤ x ≤ 2 ^ w - 2 ^ k →
  x ≤ ALIGN_VALUE_UP w x (2 ^ k) < x + 2 ^ k.
Proof.
  intros Hk Hx. rewrite align_up_spec by lia. pose proof (pow2_pos k).
  pose proof (Z.mul_div_le (x + 2 ^ k - 1) (2 ^ k)).
  pose proof (Z.mul_succ_div_gt (x + 2 ^ k - 1) (2 ^ k)). nia.
Qed.

(** ** Properties *)

(**  The byte swap functions reverse the byte sequence of a 16, 32 or 64 bit
    word. *)
Theorem endian_swap_reverses x :
  (0 ≤ x < 2 ^ 16 → le_bytes 2 (__endian_swap16 x) = be_bytes 2 x) ∧
  le_bytes 4 (__endian_swap32 x) = be_bytes 4 x ∧
  le_bytes 8 (__endian_swap64 x) = be_bytes 8 x.
Proof.
  split_and!; intros; apply le_bytes_reverse; intros k Hk.
  - by apply swap16_byte.
  - by apply swap32_byte.
  - by apply swap64_byte.
Qed.

(**  Every non aligned store writes exactly the bytes of the word at the
    given address, in the order its name says. *)
Theorem endian_store_layout m (a : nat) x :
  (a + 8 ≤ length m)%nat →
  endian_le16_na_store m (Z.of_nat a) x = Ok (write_at m a (le_bytes 2 x)) ∧
  endian_be16_na_store m (Z.of_nat a) x = Ok (write_at m a (be_bytes 2 x)) ∧
  endian_le32_na_store m (Z.of_nat a) x = Ok (write_at m a (le_bytes 4 x)) ∧
  endian_be32_na_store m (Z.of_nat a) x = Ok (write_at m a (be_bytes 4 x)) ∧
  endian_le64_na_store m (Z.of_nat a) x = Ok (write_at m a (le_bytes 8 x)) ∧
  endian_be64_na_store m (Z.of_nat a) x = Ok (write_at m a (be_bytes 8 x)).
Proof.
  intros Ha. destruct (store16_spec m a x), (store32_spec m a x), (store64_spec m a x);
    [lia..|]. by split_and!.
Qed.

(**  With a 32 bit [int], 16 and 32 bit values stored at any address in
    either byte order are read back by the load of the same name. *)
Theorem endian_load_store_roundtrip m (a : nat) x :
  (a + 4 ≤ length m)%nat →
  (∃ m' v, endian_le16_na_store m (Z.of_nat a) x = Ok m' ∧
           endian_le16_na_load 32 m' (Z.of_nat a) = Ok v ∧ wrapu 16 v = wrapu 16 x) ∧
  (∃ m' v, endian_be16_na_store m (Z.of_nat a) x = Ok m' ∧
           endian_be16_na_load 32 m' (Z.of_nat a) = Ok v ∧ wrapu 16 v = wrapu 16 x) ∧
  (∃ m' v, endian_le32_na_store m (Z.of_nat a) x = Ok m' ∧
           endian_le32_na_load 32 m' (Z.of_nat a) = Ok v ∧ wrapu 32 v = wrapu 32 x) ∧
  (∃ m' v, endian_be32_na_store m (Z.of_nat a) x = Ok m' ∧
           endian_be32_na_load 32 m' (Z.of_nat a) = Ok v ∧ wrapu 32 v = wrapu 32 x).
Proof.
  intros Ha. destruct (store16_spec m a x), (store32_spec m a x); [lia..|].
  destruct (load16_spec m a x) as [(?&?&?) (?&?&?)], (load32_spec m a x) as [(?&?&?) (?&?&?)]; [lia..|].
  split_and!; eauto.
Qed.

(**  The 64 bit loads are undefined wherever [int] has at most 32 bits: they
    shift a byte promoted to [int] by 32 bits and more. *)
Theorem endian_64_na_load_undefined int_width m (a : nat) :
  int_width ≤ 32 → (a + 8 ≤ length m)%nat →
  endian_le64_na_load int_width m (Z.of_nat a) = Err FUndef ∧
  endian_be64_na_load int_width m (Z.of_nat a) = Err FUndef.
Proof.
  intros Hw Ha.
  assert (∀ k s, 0 ≤ k < 8 → ∃ b, __ENDIAN_NAL_L int_width m (Z.of_nat a) k s =
    if s <? int_width then Ok b else Err FUndef) as Hl.
  { intros k s Hk. unfold __ENDIAN_NAL_L.
    replace (Z.of_nat a + k) with (Z.of_nat (a + Z.to_nat k)) by lia.
    destruct (lookup_lt_is_Some_2 m (a + Z.to_nat k)) as [b Hb]; [lia|].
    rewrite (aget_nat _ _ _ Hb). simpl. unfold require. eexists. by case_match. }
  split; unfold endian_le64_na_load, endian_be64_na_load.
  - destruct (Hl 0 0) as [? ->]; [lia|]. destruct (Z.ltb_spec 0 int_width); [simpl|done].
    destruct (Hl 1 8) as [? ->]; [lia|]. destruct (Z.ltb_spec 8 int_width); [simpl|done].
    destruct (Hl 2 16) as [? ->]; [lia|]. destruct (Z.ltb_spec 16 int_width); [simpl|done].
    destruct (Hl 3 24) as [? ->]; [lia|]. destruct (Z.ltb_spec 24 int_width); [simpl|done].
    destruct (Hl 4 32) as [? ->]; [lia|]. destruct (Z.ltb_spec 32 int_width); [lia|done].
  - destruct (Hl 0 56) as [? ->]; [lia|]. destruct (Z.ltb_spec 56 int_width); [lia|done].
Qed.

(**  The alignment macros with a power of two: [ALIGN_VALUE_LOW] is the
    largest multiple not above the value and [ALIGN_VALUE_UP] the smallest not
    below it, as long as that multiple is representable. *)
Theorem align_value_spec w k x :
  0 ≤ k ≤ w → 0 ≤ x ≤ 2 ^ w - 2 ^ k →
  (2 ^ k | ALIGN_VALUE_LOW x (2 ^ k)) ∧ x - 2 ^ k < ALIGN_VALUE_LOW x (2 ^ k) ≤ x ∧
  (2 ^ k | ALIGN_VALUE_UP w x (2 ^ k)) ∧ x ≤ ALIGN_VALUE_UP w x (2 ^ k) < x + 2 ^ k.
Proof.
  intros Hk Hx. rewrite align_low_spec, align_up_spec by lia. pose proof (pow2_pos k).
  split_and!; try (apply Z.divide_factor_r);
    [pose proof (Z.mul_div_le x (2 ^ k))|pose proof (Z.mul_div_le x (2 ^ k))
    |pose proof (Z.mul_div_le (x + 2 ^ k - 1) (2 ^ k))|pose proof (Z.mul_div_le (x + 2 ^ k - 1) (2 ^ k))];
    pose proof (Z.mul_succ_div_gt x (2 ^ k)); pose proof (Z.mul_succ_div_gt (x + 2 ^ k - 1) (2 ^ k)); nia.
Qed.

(** ** Witnesses *)

Definition demo_mem : list Z := replicate 9 0.

Lemma endian_store_layout_witness :
  endian_le32_na_store demo_mem 1 0x12345678 = Ok [0; 0x78; 0x56; 0x34; 0x12; 0; 0; 0; 0] ∧
  endian_be32_na_store demo_mem 1 0x12345678 = Ok [0; 0x12; 0x34; 0x56; 0x78; 0; 0; 0; 0].
Proof.
  pose proof (endian_store_layout demo_mem 1 0x12345678) as H. simpl in H.
  destruct H as (_ & _ & H1 & H2 & _); [lia|]. split; [exact H1|exact H2].
Defined.

Lemma endian_load_store_roundtrip_witness :
  ∃ m' v, endian_be32_na_store demo_mem 1 0xf2345678 = Ok m' ∧
    endian_be32_na_load 32 m' 1 = Ok v ∧ wrapu 32 v = 0xf2345678.
Proof.
  refine (proj2 (proj2 (proj2 (endian_load_store_roundtrip demo_mem 1 0xf2345678 _)))).
  simpl. lia.
Defined.

Lemma endian_64_na_load_undefined_witness : endian_le64_na_load 32 demo_mem 0 = Err FUndef.
Proof. refine (proj1 (endian_64_na_load_undefined 32 demo_mem 0 _ _)); simpl; lia. Defined.

Lemma align_value_spec_witness : 5000 ≤ ALIGN_VALUE_UP 32 5000 4096 < 5000 + 4096.
Proof.
  refine (proj2 (proj2 (proj2 (align_value_spec 32 12 5000 _ _)))); lia.
Defined.
End Endian.
