(* ===== verification/PageAlloc.v ===== *)
(** * Physical page allocator (mutek/page_alloc.c)

    A region's table holds, for each page, either a reference count or a link of
    the list of free pages marked by bit 31.  The theorems show that under every
    sequence of operations no page is handed out twice and none is lost, and the
    defects of the contiguous allocation and of the reservation. *)

From S2P Require Import Prelude Endian.

Module PageAlloc.
Import Endian.

Definition VMEM_PPAGE_ISFREE (x : Z) : bool := negb (Z.land x 0x80000000 =? 0).
Definition VMEM_PPAGE_VALUE (x : Z) : Z := Z.land x 0x7fffffff.
Definition VMEM_PPAGE_SET (isfree value : Z) : Z := Z.lor (Z.shiftl isfree 31) value.

(** [struct vmem_page_region_s]; [locked] is the state of the lock between two
    operations. *)
Record vmem_page_region_s := {
  paddr : Z; size : Z; count : Z; free_count : Z; free_head : Z;
  table : list Z; locked : bool }.

Definition set_table (t : list Z) (r : vmem_page_region_s) : vmem_page_region_s :=
  {| paddr := paddr r; size := size r; count := count r; free_count := free_count r;
     free_head := free_head r; table := t; locked := locked r |}.
Definition set_head (h : Z) (r : vmem_page_region_s) : vmem_page_region_s :=
  {| paddr := paddr r; size := size r; count := count r; free_count := free_count r;
     free_head := h; table := table r; locked := locked r |}.
Definition set_free_count (n : Z) (r : vmem_page_region_s) : vmem_page_region_s :=
  {| paddr := paddr r; size := size r; count := count r; free_count := n;
     free_head := free_head r; table := table r; locked := locked r |}.
Definition set_locked (b : bool) (r : vmem_page_region_s) : vmem_page_region_s :=
  {| paddr := paddr r; size := size r; count := count r; free_count := free_count r;
     free_head := free_head r; table := table r; locked := b |}.

Section ops.
(** [MMU_PAGESIZE] and the width of [paddr_t]. *)
Context (MMU_PAGESIZE : Z) (w : Z).
Implicit Types (r : vmem_page_region_s).

(** [LOCK_SPIN_IRQ]: operations run one at a time, so a lock that is held when
    one starts is never released. *)
Definition lock_spin r : outcome unit := require (negb (locked r)) FSpin.

(** [lock_err] and [mem] are the results of [lock_init] and of [mem_alloc]. *)
Definition ppage_region_init (pa pa_end : Z) (lock_err : Z) (mem : bool)
    : outcome (Z * option vmem_page_region_s) :=
  let pa := ALIGN_VALUE_UP w pa MMU_PAGESIZE in
  let pa_end := ALIGN_VALUE_LOW pa_end MMU_PAGESIZE in
  _ ← require (pa <? pa_end) FAssert;
  if negb (lock_err =? 0) then Ok (- ENOMEM, None)
  else
    let size := pa_end - pa in
    let count := size / MMU_PAGESIZE in
    if mem then
      let t := (λ i, VMEM_PPAGE_SET 1 (i + 1)) <$> seqZ 0 count in
      t ← aset t (count - 1) (VMEM_PPAGE_SET 1 0);
      Ok (0, Some {| paddr := pa; size := size; count := count; free_count := count;
                     free_head := 0; table := t; locked := false |})
    else Ok (- ENOMEM, None).

Definition ppage_alloc r : outcome (Z * Z * vmem_page_region_s) :=
  _ ← lock_spin r;
  if 0 <? free_count r then
    let pa := paddr r + free_head r * MMU_PAGESIZE in
    x ← aget (table r) (free_head r);
    t ← aset (table r) (free_head r) (VMEM_PPAGE_SET 0 1);
    Ok (0, pa, set_free_count (free_count r - 1) (set_head (VMEM_PPAGE_VALUE x) (set_table t r)))
  else Ok (- ENOMEM, 0, r).

(** The test of [n] pages from [i] on: the first that is not free. *)
Fixpoint scan_free (t : list Z) (i : Z) (n : nat) : outcome (option Z) :=
  match n with
  | O => Ok None
  | S n => x ← aget t i; if VMEM_PPAGE_ISFREE x then scan_free t (i + 1) n else Ok (Some i)
  end.

(** The search of [ppage_contiguous_alloc] from label [beg]. *)
Fixpoint search (fuel : nat) r (sz first : Z) : outcome (option Z) :=
  match fuel with
  | O => Err FFuel
  | S fuel =>
      o ← scan_free (table r) first (Z.to_nat sz);
      match o with
      | None => Ok (Some first)
      | Some i => if count r <? i + sz then Ok None else search fuel r sz (i + 1)
      end
  end.

(** The pointer [n] of the unlinking loops: [&r->free_head] or [&r->table[i]]. *)
Inductive cell := AtHead | AtPage (i : Z).

Definition cell_get (n : cell) r : outcome Z :=
  match n with AtHead => Ok (free_head r) | AtPage i => aget (table r) i end.
Definition cell_set (n : cell) (x : Z) r : outcome vmem_page_region_s :=
  match n with
  | AtHead => Ok (set_head x r)
  | AtPage i => t ← aset (table r) i x; Ok (set_table t r)
  end.

(** The loop, common to [ppage_contiguous_alloc] and [ppage_reserve], that takes
    the pages of [first, first+sz) off the list. *)
Fixpoint unlink_loop (fuel : nat) (first sz : Z) (n : cell) (c : Z) r
    : outcome vmem_page_region_s :=
  match fuel with
  | O => Err FFuel
  | S fuel =>
      if c <? sz then
        x ← cell_get n r;
        let i := VMEM_PPAGE_VALUE x in
        if (first <=? i) && (i <? first + sz) then
          y ← aget (table r) i;
          r ← cell_set n (VMEM_PPAGE_VALUE y) r;
          t ← aset (table r) i (VMEM_PPAGE_SET 0 1);
          unlink_loop fuel first sz n (c + 1) (set_table t r)
        else unlink_loop fuel first sz (AtPage i) c r
      else Ok r
  end.

Definition unlink_range (first sz : Z) r : outcome vmem_page_region_s :=
  r ← unlink_loop (S (Z.to_nat (free_count r))) first sz AtHead 0 r;
  Ok (set_free_count (free_count r - sz) r).

(** When the search fails the function returns with the lock held. *)
Definition ppage_contiguous_alloc r (sz : Z) : outcome (Z * Z * vmem_page_region_s) :=
  if free_count r <? sz then Ok (- ENOMEM, 0, r)
  else
    _ ← lock_spin r;
    o ← search (S (S (length (table r)))) r sz 0;
    match o with
    | None => Ok (- ENOMEM, 0, set_locked true r)
    | Some first =>
        r ← unlink_range first sz r;
        Ok (0, paddr r + first * MMU_PAGESIZE, r)
    end.

Definition ppage_inrange r (pa : Z) : bool := (paddr r <=? pa) && (pa <? paddr r + size r).

Definition ppage_reserve (pa pa_end : Z) r : outcome (Z * vmem_page_region_s) :=
  let pa := ALIGN_VALUE_UP w pa MMU_PAGESIZE in
  let pa_end := ALIGN_VALUE_LOW pa_end MMU_PAGESIZE in
  _ ← require (pa <? pa_end) FAssert;
  let sz := (pa_end - pa) / MMU_PAGESIZE in
  _ ← lock_spin r;
  let p := (pa - paddr r) / MMU_PAGESIZE in
  o ← scan_free (table r) p (Z.to_nat sz);
  match o with
  | Some _ => Ok (- ENOMEM, r)
  | None => r ← unlink_range p sz r; Ok (0, r)
  end.

Definition ppage_refnew (pa : Z) r : outcome (Z * vmem_page_region_s) :=
  _ ← require (ppage_inrange r pa) FAssert;
  let p := (pa - paddr r) / MMU_PAGESIZE in
  _ ← lock_spin r;
  x ← aget (table r) p;
  _ ← require (negb (VMEM_PPAGE_ISFREE x)) FAssert;
  t ← aset (table r) p (wrapu 32 (x + 1));
  Ok (pa, set_table t r).

Definition ppage_refdrop (pa : Z) r : outcome vmem_page_region_s :=
  _ ← require (ppage_inrange r pa) FAssert;
  let p := (pa - paddr r) / MMU_PAGESIZE in
  _ ← lock_spin r;
  x ← aget (table r) p;
  _ ← require (negb (VMEM_PPAGE_ISFREE x)) FAssert;
  _ ← require (0 <? x) FAssert;
  if x - 1 =? 0 then
    t ← aset (table r) p (VMEM_PPAGE_SET 1 (free_head r));
    Ok (set_free_count (free_count r + 1) (set_head p (set_table t r)))
  else
    t ← aset (table r) p (x - 1);
    Ok (set_table t r).
End ops.

(** ** Table entries *)

Lemma value_small x : 0 ≤ x < 2 ^ 31 → VMEM_PPAGE_VALUE x = x.
Proof.
  intros Hx. unfold VMEM_PPAGE_VALUE. change 0x7fffffff with (Z.ones 31).
  rewrite Z.land_ones by lia. by apply Z.mod_small.
Qed.

Lemma value_range x : 0 ≤ VMEM_PPAGE_VALUE x < 2 ^ 31.
Proof.
  unfold VMEM_PPAGE_VALUE. change 0x7fffffff with (Z.ones 31).
  rewrite Z.land_ones by lia. apply Z.mod_pos_bound. lia.
Qed.

Lemma isfree_spec x : VMEM_PPAGE_ISFREE x = Z.testbit x 31.
Proof.
  unfold VMEM_PPAGE_ISFREE. change 0x80000000 with (2 ^ 31).
  assert (Z.land x (2 ^ 31) = if Z.testbit x 31 then 2 ^ 31 else 0) as ->; [|by destruct (Z.testbit x 31)].
  apply Z.bits_inj'. intros i Hi. rewrite Z.land_spec, Z.pow2_bits_eqb by lia.
  destruct (Z.eqb_spec 31 i) as [<-|]; destruct (Z.testbit x 31) eqn:E;
    rewrite ?Z.pow2_bits_eqb, ?Z.bits_0, ?E, ?andb_false_r, ?andb_true_r by lia; try done.
  symmetry. by apply Z.eqb_neq.
Qed.

Lemma isfree_small x : 0 ≤ x < 2 ^ 31 → VMEM_PPAGE_ISFREE x = false.
Proof.
  intros Hx. rewrite isfree_spec. rewrite <-(Z.mod_small x (2 ^ 31)) by done.
  by rewrite Z.testbit_mod_pow2.
Qed.

Lemma set_free x :
  0 ≤ x < 2 ^ 31 →
  VMEM_PPAGE_VALUE (VMEM_PPAGE_SET 1 x) = x ∧ VMEM_PPAGE_ISFREE (VMEM_PPAGE_SET 1 x) = true ∧
  0 ≤ VMEM_PPAGE_SET 1 x < 2 ^ 32.
Proof.
  intros Hx. rewrite isfree_spec. rewrite <-(wrapu_small 31 x) by done.
  split_and!.
  - unfold VMEM_PPAGE_VALUE, VMEM_PPAGE_SET. change 0x7fffffff with (Z.ones 31).
    change (Z.shiftl 1 31) with (Z.shiftl (Z.ones 1) 31). zbits.
  - unfold VMEM_PPAGE_SET. rewrite Z.lor_spec. done.
  - apply Z.lor_nonneg. split; [done|]. by apply wrapu_range.
  - assert (VMEM_PPAGE_SET 1 (wrapu 31 x) = wrapu 32 (VMEM_PPAGE_SET 1 (wrapu 31 x))) as ->;
      [|by apply wrapu_range].
    unfold VMEM_PPAGE_SET. change (Z.shiftl 1 31) with (Z.shiftl (Z.ones 1) 31). zbits.
Qed.

(** ** Invariant *)

(** [seg t h l h']: following the links from [h] visits the pages [l] and ends
    with the link [h']. *)
Fixpoint seg (t : list Z) (h : Z) (l : list nat) (h' : Z) : Prop :=
  match l with
  | [] => h = h'
  | i :: l => h = Z.of_nat i ∧ ∃ x, t !! i = Some x ∧ seg t (VMEM_PPAGE_VALUE x) l h'
  end.

(** The table [t] and head [h] hold the free pages [l]; [refs] gives the number
    of references to each page handed out.  Bit 31 marks only free pages, but a
    free page may have lost it. *)
Record page_core (t : list Z) (h : Z) (l : list nat) (refs : gmap nat Z) : Prop := {
  pc_nodup : NoDup l;
  pc_seg : ∃ h', seg t h l h';
  pc_head : 0 ≤ h < 2 ^ 31;
  pc_length : Z.of_nat (length t) ≤ 2 ^ 31;
  pc_range : ∀ i x, t !! i = Some x → 0 ≤ x < 2 ^ 32;
  pc_flag : ∀ i x, t !! i = Some x → VMEM_PPAGE_ISFREE x = true → i ∈ l;
  pc_refs : ∀ i, refs !! i = if decide (i ∈ l) then None else t !! i;
  pc_used : ∀ i c, refs !! i = Some c → 1 ≤ c < 2 ^ 31;
}.

(** A region with the list of its free pages. *)
Record page_inv (r : vmem_page_region_s) (l : list nat) (refs : gmap nat Z) : Prop := {
  pi_core : page_core (table r) (free_head r) l refs;
  pi_count : count r = Z.of_nat (length (table r));
  pi_free : free_count r = Z.of_nat (length l);
}.

(** *** Links *)

Lemma seg_app t h l1 l2 h' :
  seg t h (l1 ++ l2) h' ↔ ∃ m, seg t h l1 m ∧ seg t m l2 h'.
Proof.
  revert h; induction l1 as [|i l1 IH]; intros h; simpl; [naive_solver|].
  setoid_rewrite IH. naive_solver.
Qed.

Lemma seg_insert t h l h' i x : i ∉ l → seg (<[i := x]> t) h l h' ↔ seg t h l h'.
Proof.
  revert h; induction l as [|j l IH]; intros h Hi; simpl; [done|].
  apply not_elem_of_cons in Hi as [Hne Hi].
  rewrite list_lookup_insert_ne by done. by setoid_rewrite (IH _ Hi).
Qed.

Lemma seg_lookup t h l h' i : seg t h l h' → i ∈ l → is_Some (t !! i).
Proof.
  revert h; induction l as [|j l IH]; intros h; simpl; [intros _ ?%elem_of_nil; done|].
  intros [_ (x & Hx & Hs)] [->|Hi]%elem_of_cons; eauto.
Qed.

(** *** Operations on the list of free pages *)

Section core.
Context (t : list Z) (h : Z) (refs : gmap nat Z).

Lemma core_entry l i x : page_core t h l refs → t !! i = Some x → i ∉ l → refs !! i = Some x.
Proof. intros [] Hx Hi. rewrite pc_refs0. by rewrite decide_False. Qed.

Lemma core_unlink_head l i x :
  page_core t h (i :: l) refs → t !! i = Some x →
  page_core (<[i := 1]> t) (VMEM_PPAGE_VALUE x) l (<[i := 1]> refs).
Proof.
  intros [Hn [h' Hs] Hh Hl Hr Hf Hrefs Hu] Hx.
  apply NoDup_cons in Hn as [Hi Hn]. pose proof (lookup_lt_Some _ _ _ Hx) as Hlt.
  destruct Hs as [-> (x' & Hx' & Hs)]. simplify_eq.
  constructor; [done|exists h'; by apply seg_insert|apply value_range|by rewrite length_insert| | | |].
  - intros j y. rewrite list_lookup_insert_Some. intros [(<- & <- & _)|(_ & Hy)]; [lia|eauto].
  - intros j y. rewrite list_lookup_insert_Some.
    intros [(<- & <- & _)|(Hne & Hy)] Hb; [by rewrite isfree_small in Hb by lia|].
    specialize (Hf j y Hy Hb). apply elem_of_cons in Hf. naive_solver.
  - intros j. destruct (decide (i = j)) as [<-|Hne].
    + by rewrite lookup_insert_eq, decide_False, list_lookup_insert_eq.
    + rewrite lookup_insert_ne, list_lookup_insert_ne, Hrefs by done.
      apply decide_ext. rewrite elem_of_cons. naive_solver.
  - intros j c. rewrite lookup_insert_Some. intros [(<- & <-)|(_ & Hc)]; [lia|eauto].
Qed.

Lemma core_unlink_next l1 p i l2 x :
  page_core t h (l1 ++ p :: i :: l2) refs → t !! i = Some x →
  page_core (<[i := 1]> (<[p := VMEM_PPAGE_VALUE x]> t)) h (l1 ++ p :: l2) (<[i := 1]> refs).
Proof.
  intros [Hn [h' Hs] Hh Hl Hr Hf Hrefs Hu] Hx.
  apply seg_app in Hs as (m & Hs1 & -> & y & Hy & _ & x' & Hx' & Hs2). rewrite Hx in Hx'. injection Hx' as <-.
  pose proof (lookup_lt_Some _ _ _ Hx) as Hlt. pose proof (lookup_lt_Some _ _ _ Hy) as Hltp.
  pose proof (value_range x) as Hv.
  apply NoDup_app in Hn as (Hn1 & Hd & Hn2).
  apply NoDup_cons in Hn2 as [Hp Hn2]. apply NoDup_cons in Hn2 as [Hi Hn2].
  apply not_elem_of_cons in Hp as [Hpi Hp].
  assert (p ∉ l1) as Hp1 by (intros ?; apply (Hd p); set_solver).
  assert (i ∉ l1) as Hi1 by (intros ?; apply (Hd i); set_solver).
  constructor; [| |done|by rewrite !length_insert| | | |].
  - apply NoDup_app. split_and!; [done|set_solver|]. by apply NoDup_cons.
  - exists h'. apply seg_app. exists (Z.of_nat p). split; [by rewrite !seg_insert|]. simpl.
    split; [done|]. exists (VMEM_PPAGE_VALUE x).
    rewrite list_lookup_insert_ne, list_lookup_insert_eq by done.
    split; [done|]. rewrite (value_small (VMEM_PPAGE_VALUE x)) by done. by rewrite !seg_insert.
  - intros j z. rewrite !list_lookup_insert_Some.
    intros [(<- & <- & _)|(_ & [(<- & <- & _)|(_ & Hz)])]; [lia|lia|eauto].
  - intros j z. rewrite !list_lookup_insert_Some.
    intros [(<- & <- & _)|(Hne & [(<- & <- & _)|(_ & Hz)])] Hb;
      [by rewrite isfree_small in Hb by lia|by rewrite isfree_small in Hb by lia|].
    specialize (Hf j z Hz Hb). revert Hf. rewrite !elem_of_app, !elem_of_cons. naive_solver.
  - intros j. destruct (decide (i = j)) as [<-|Hne].
    + rewrite lookup_insert_eq, decide_False, list_lookup_insert_eq; [done|by rewrite length_insert|].
      rewrite elem_of_app, elem_of_cons. naive_solver.
    + rewrite lookup_insert_ne, list_lookup_insert_ne, Hrefs by done.
      destruct (decide (p = j)) as [<-|Hne']; [by rewrite !decide_True by set_solver|].
      rewrite list_lookup_insert_ne by done.
      apply decide_ext. rewrite !elem_of_app, !elem_of_cons. naive_solver.
  - intros j c. rewrite lookup_insert_Some. intros [(<- & <-)|(_ & Hc)]; [lia|eauto].
Qed.

Lemma core_link l i :
  page_core t h l refs → refs !! i = Some 1 →
  page_core (<[i := VMEM_PPAGE_SET 1 h]> t) (Z.of_nat i) (i :: l) (delete i refs).
Proof.
  intros [Hn [h' Hs] Hh Hl Hr Hf Hrefs Hu] Hi. pose proof Hi as Hi'. rewrite Hrefs in Hi'.
  destruct (decide (i ∈ l)) as [|Hil]; [done|]. pose proof (lookup_lt_Some _ _ _ Hi') as Hlt.
  destruct (set_free h Hh) as (Hv & Hb & Hsr).
  constructor; [by apply NoDup_cons| |lia|by rewrite length_insert| | | |].
  - exists h'. simpl. split; [done|]. exists (VMEM_PPAGE_SET 1 h).
    rewrite list_lookup_insert_eq by done. rewrite Hv. split; [done|]. by apply seg_insert.
  - intros j y. rewrite list_lookup_insert_Some. intros [(<- & <- & _)|(_ & Hy)]; [done|eauto].
  - intros j y. rewrite list_lookup_insert_Some, elem_of_cons.
    intros [(<- & <- & _)|(_ & Hy)] Hb'; [by left|right; eauto].
  - intros j. destruct (decide (i = j)) as [<-|Hne].
    + rewrite lookup_delete_eq, decide_True; [done|set_solver].
    + rewrite lookup_delete_ne, list_lookup_insert_ne, Hrefs by done.
      apply decide_ext. rewrite elem_of_cons. naive_solver.
  - intros j c. rewrite lookup_delete_Some. intros [_ Hc]. eauto.
Qed.

Lemma core_recount l i c c' :
  page_core t h l refs → refs !! i = Some c → 1 ≤ c' < 2 ^ 31 →
  page_core (<[i := c']> t) h l (<[i := c']> refs).
Proof.
  intros [Hn [h' Hs] Hh Hl Hr Hf Hrefs Hu] Hi Hc. pose proof Hi as Hi'. rewrite Hrefs in Hi'.
  destruct (decide (i ∈ l)) as [|Hil]; [done|]. pose proof (lookup_lt_Some _ _ _ Hi') as Hlt.
  constructor; [done|exists h'; by apply seg_insert|done|by rewrite length_insert| | | |].
  - intros j y. rewrite list_lookup_insert_Some. intros [(<- & <- & _)|(_ & Hy)]; [lia|eauto].
  - intros j y. rewrite list_lookup_insert_Some.
    intros [(<- & <- & _)|(_ & Hy)] Hb; [by rewrite isfree_small in Hb by lia|eauto].
  - intros j. destruct (decide (i = j)) as [<-|Hne].
    + by rewrite lookup_insert_eq, decide_False, list_lookup_insert_eq.
    + by rewrite lookup_insert_ne, list_lookup_insert_ne, Hrefs by done.
  - intros j d. rewrite lookup_insert_Some. intros [(<- & <-)|(_ & Hd)]; [lia|eauto].
Qed.
End core.

(** *** The unlinking loop *)

(** What the loops leave alone. *)
Definition same_region (r r' : vmem_page_region_s) : Prop :=
  paddr r' = paddr r ∧ size r' = size r ∧ count r' = count r ∧
  free_count r' = free_count r ∧ locked r' = locked r ∧ length (table r') = length (table r).

(** The references after the pages [ps] have been taken. *)
Definition take_pages (ps : list nat) (refs : gmap nat Z) : gmap nat Z :=
  foldl (λ m i, <[i := 1]> m) refs ps.

Definition cell_of (l1 : list nat) : cell :=
  match last l1 with Some p => AtPage (Z.of_nat p) | None => AtHead end.

Lemma cell_get_spec r l1 i l2 refs :
  page_core (table r) (free_head r) (l1 ++ i :: l2) refs →
  ∃ x, cell_get (cell_of l1) r = Ok x ∧ VMEM_PPAGE_VALUE x = Z.of_nat i.
Proof.
  intros [_ [h' Hs] Hh _ _ _ _ _].
  destruct l1 as [|p l1 _] using rev_ind.
  - destruct Hs as [Hs _]. exists (free_head r). split; [done|]. rewrite value_small by done. done.
  - unfold cell_of. rewrite last_snoc. rewrite <-app_assoc in Hs.
    apply seg_app in Hs as (m & _ & _ & y & Hy & Hv & _). exists y. split; [by apply aget_nat|done].
Qed.

(** Page [i] is one of [first, first+sz). *)
Definition in_span (first sz : Z) (i : nat) : Prop := first ≤ Z.of_nat i < first + sz.
#[export] Instance in_span_dec first sz i : Decision (in_span first sz i).
Proof. unfold in_span. apply _. Defined.

Section unlink.
Context (first sz : Z).
#[local] Abbreviation in_span := (in_span first sz).

Lemma unlink_step r l1 i l2 refs x :
  page_core (table r) (free_head r) (l1 ++ i :: l2) refs → table r !! i = Some x →
  ∃ r' t, cell_set (cell_of l1) (VMEM_PPAGE_VALUE x) r = Ok r' ∧
    aset (table r') (Z.of_nat i) (VMEM_PPAGE_SET 0 1) = Ok t ∧
    page_core t (free_head r') (l1 ++ l2) (<[i := 1]> refs) ∧ same_region r (set_table t r').
Proof.
  intros Hc Hx. pose proof (lookup_lt_Some _ _ _ Hx) as Hlt.
  destruct l1 as [|p l1 _] using rev_ind.
  - exists (set_head (VMEM_PPAGE_VALUE x) r), (<[i := 1]> (table r)). split; [done|].
    split; [by apply aset_nat|]. split; [by apply core_unlink_head with (h := free_head r)|].
    unfold same_region; simpl. by rewrite length_insert.
  - rewrite <-app_assoc in Hc. pose proof (core_unlink_next _ _ _ _ _ _ _ _ Hc Hx) as Hc'.
    destruct Hc as [_ [h' Hs] _ _ _ _ _ _].
    apply seg_app in Hs as (m & _ & _ & y & Hy & _). apply lookup_lt_Some in Hy.
    exists (set_table (<[p := VMEM_PPAGE_VALUE x]> (table r)) r). eexists.
    unfold cell_of. rewrite last_snoc. simpl. rewrite aset_nat by done. split; [done|].
    rewrite aset_nat by (by rewrite length_insert). split; [done|].
    rewrite <-app_assoc. split; [done|]. unfold same_region; simpl. by rewrite !length_insert.
Qed.

Lemma same_region_trans r1 r2 r3 : same_region r1 r2 → same_region r2 r3 → same_region r1 r3.
Proof. unfold same_region. intuition congruence. Qed.

Lemma unlink_loop_spec fuel l2 : ∀ l1 c r refs,
  page_core (table r) (free_head r) (l1 ++ l2) refs →
  Z.of_nat (length (filter in_span l2)) = sz - c → (length l2 < fuel)%nat →
  ∃ r', unlink_loop fuel first sz (cell_of l1) c r = Ok r' ∧ same_region r r' ∧
    page_core (table r') (free_head r') (l1 ++ filter (λ i, ¬ in_span i) l2)
      (take_pages (filter in_span l2) refs).
Proof.
  revert l2; induction fuel as [|fuel IH]; intros l2 l1 c r refs Hc Hl Hf; [lia|].
  cbn [unlink_loop]. destruct (Z.ltb_spec c sz) as [Hcs|Hcs].
  2: { assert (filter in_span l2 = []) as E by (apply length_zero_iff_nil; lia).
       exists r. split; [done|]. split; [by unfold same_region|]. rewrite E. simpl.
       rewrite list_filter_all; [done|]. rewrite Forall_forall. intros i Hi Hs.
       by apply (filter_nil_not_elem_of _ _ i E). }
  destruct l2 as [|i l2]; [simpl in *; lia|].
  destruct (cell_get_spec _ _ _ _ _ Hc) as (x & -> & Hv). cbn [mbind outcome_bind]. rewrite Hv.
  pose proof Hc as [_ [h' Hs] _ _ _ _ _ _].
  destruct (seg_lookup _ _ _ _ i Hs) as [y Hy]; [set_solver|].
  rewrite !filter_cons in *. simpl in Hf.
  destruct (decide (in_span i)) as [Hi|Hi].
  - replace ((first <=? Z.of_nat i) && (Z.of_nat i <? first + sz)) with true
      by (unfold in_span in Hi; lia).
    rewrite (aget_nat _ _ _ Hy). cbn [mbind outcome_bind].
    destruct (unlink_step _ _ _ _ _ _ Hc Hy) as (r' & t & -> & E2 & Hc' & Hsr).
    cbn [mbind outcome_bind]. rewrite E2. cbn [mbind outcome_bind].
    destruct (IH l2 l1 (c + 1) (set_table t r') _ Hc') as (r2 & E3 & Hsr2 & Hc2);
      [simpl in Hl; lia|lia|].
    exists r2. rewrite decide_False by tauto. split; [done|].
    split; [by eapply same_region_trans|done].
  - replace ((first <=? Z.of_nat i) && (Z.of_nat i <? first + sz)) with false
      by (unfold in_span in Hi; lia).
    replace (AtPage (Z.of_nat i)) with (cell_of (l1 ++ [i])) by (unfold cell_of; by rewrite last_snoc).
    destruct (IH l2 (l1 ++ [i]) c r refs) as (r2 & E3 & Hsr2 & Hc2);
      [by rewrite <-app_assoc|done|lia|].
    exists r2. rewrite decide_True by done. rewrite <-app_assoc in Hc2. done.
Qed.
End unlink.

(** *** Scans and searches *)

Definition free_at (t : list Z) (j : Z) : Prop :=
  0 ≤ j ∧ ∃ x, t !! Z.to_nat j = Some x ∧ VMEM_PPAGE_ISFREE x = true.

Lemma scan_free_spec t n : ∀ i, 0 ≤ i →
  match scan_free t i n with
  | Ok None => ∀ j, i ≤ j < i + Z.of_nat n → free_at t j
  | Ok (Some j) => i ≤ j < i + Z.of_nat n ∧ j < Z.of_nat (length t)
  | Err e => e = FBounds ∧ Z.of_nat (length t) < i + Z.of_nat n
  end.
Proof.
  induction n as [|n IH]; intros i Hi; cbn [scan_free]; [intros; lia|].
  destruct (aget t i) as [x|e] eqn:E; cbn [mbind outcome_bind].
  - apply aget_Ok in E as [_ E]. pose proof (lookup_lt_Some _ _ _ E).
    destruct (VMEM_PPAGE_ISFREE x) eqn:Hx; [|lia].
    specialize (IH (i + 1) ltac:(lia)).
    destruct (scan_free t (i + 1) n) as [[j|]|e]; [lia| |destruct IH; split; [done|lia]].
    intros j Hj. destruct (decide (j = i)) as [->|]; [split; eauto|apply IH; lia].
  - unfold aget in E. destruct (Z.ltb_spec i 0); [lia|].
    destruct (t !! Z.to_nat i) eqn:El; simplify_eq/=. apply lookup_ge_None in El. split; [done|lia].
Qed.

Lemma search_spec r sz fuel : ∀ first,
  0 ≤ sz → 0 ≤ first ≤ count r + 1 → count r = Z.of_nat (length (table r)) →
  count r + 1 - first < Z.of_nat fuel →
  match search fuel r sz first with
  | Ok (Some f) => 0 ≤ f ∧ ∀ j, f ≤ j < f + sz → free_at (table r) j
  | Ok None => True
  | Err e => e = FBounds
  end.
Proof.
  induction fuel as [|fuel IH]; intros first Hsz Hf Hc Hfuel.
  { lia. }
  cbn [search]. pose proof (scan_free_spec (table r) (Z.to_nat sz) first ltac:(lia)) as Hs.
  destruct (scan_free _ _ _) as [[i|]|e]; cbn [mbind outcome_bind].
  - destruct (Z.ltb_spec (count r) (i + sz)); [done|]. apply IH; lia.
  - split; [lia|]. intros j Hj. apply Hs. lia.
  - tauto.
Qed.

(** *** The effect of taking a range *)

Lemma take_pages_lookup ps refs i :
  take_pages ps refs !! i = if decide (i ∈ ps) then Some 1 else refs !! i.
Proof.
  unfold take_pages. revert refs; induction ps as [|p ps IH]; intros refs; cbn [foldl].
  { rewrite decide_False; [done|set_solver]. }
  rewrite IH. destruct (decide (i ∈ ps)); [by rewrite decide_True by set_solver|].
  destruct (decide (i = p)) as [->|].
  - by rewrite lookup_insert_eq, decide_True by set_solver.
  - by rewrite lookup_insert_ne, decide_False by set_solver.
Qed.

Lemma take_pages_perm ps qs refs :
  (∀ i, i ∈ ps ↔ i ∈ qs) → take_pages ps refs = take_pages qs refs.
Proof.
  intros H. apply map_eq. intros i. rewrite !take_pages_lookup. by apply decide_ext.
Qed.

Lemma span_filter t h l refs first sz :
  page_core t h l refs → 0 ≤ first → 0 ≤ sz →
  (∀ j, first ≤ j < first + sz → free_at t j) →
  filter (in_span first sz) l ≡ₚ seq (Z.to_nat first) (Z.to_nat sz).
Proof.
  intros [Hn _ _ _ _ Hf _ _] H0 Hsz Hfree.
  apply NoDup_Permutation; [by apply NoDup_filter|apply NoDup_seq|].
  intros i. rewrite list_elem_of_filter, elem_of_seq. unfold in_span. split; [lia|].
  intros Hi. split; [lia|]. destruct (Hfree (Z.of_nat i)) as (_ & x & Hx & Hb); [lia|].
  rewrite Nat2Z.id in Hx. eauto.
Qed.

Lemma unlink_range_spec r l refs first sz :
  page_inv r l refs → 0 ≤ first → 0 ≤ sz →
  (∀ j, first ≤ j < first + sz → free_at (table r) j) →
  ∃ r', unlink_range first sz r = Ok r' ∧ paddr r' = paddr r ∧ size r' = size r ∧
    count r' = count r ∧ locked r' = locked r ∧
    page_inv r' (filter (λ i, ¬ in_span first sz i) l)
      (take_pages (seq (Z.to_nat first) (Z.to_nat sz)) refs) ∧
    (∀ i, first ≤ Z.of_nat i < first + sz → i ∈ l).
Proof.
  intros [Hc Hn Hfc] H0 Hsz Hfree.
  pose proof (span_filter _ _ _ _ first sz Hc H0 Hsz Hfree) as Hp.
  assert (Z.of_nat (length (filter (in_span first sz) l)) = sz) as Hlen.
  { rewrite Hp, length_seq. lia. }
  destruct (unlink_loop_spec first sz (S (Z.to_nat (free_count r))) l [] 0 r refs Hc)
    as (r' & E & (Ha & Hs & Hct & Hf & Hl & Ht) & Hc'); [lia|lia|].
  unfold unlink_range. change (cell_of []) with AtHead in E. rewrite E. simpl.
  eexists. split; [done|]. simpl. split_and!; [done..| |].
  - constructor; simpl.
    + rewrite <-(take_pages_perm (filter (in_span first sz) l)); [done|]. intros i. by rewrite Hp.
    + congruence.
    + rewrite Hf, Hfc. pose proof (filter_app_complement (in_span first sz) l) as Hx.
      apply Permutation_length in Hx. rewrite length_app in Hx. lia.
  - intros i Hi. assert (i ∈ filter (in_span first sz) l) as Hx; [|by apply list_elem_of_filter in Hx as [_ Hx]].
    rewrite Hp. apply elem_of_seq. lia.
Qed.

(** *** Operations *)

Section ops_spec.
Context (ps w : Z).
Implicit Types (r : vmem_page_region_s).

(** The page of an address of the region. *)
Definition page_of r (pa : Z) : nat := Z.to_nat ((pa - paddr r) / ps).

Lemma page_of_index r (i : Z) : 0 < ps → 0 ≤ i → page_of r (paddr r + i * ps) = Z.to_nat i.
Proof.
  intros Hps Hi. unfold page_of. f_equal.
  replace (paddr r + i * ps - paddr r) with (i * ps) by lia. apply Z.div_mul. lia.
Qed.

Lemma alloc_spec r l refs :
  0 < ps → page_inv r l refs → locked r = false →
  match l with
  | [] => ppage_alloc ps r = Ok (- ENOMEM, 0, r)
  | i :: l' => ∃ r', ppage_alloc ps r = Ok (0, paddr r + Z.of_nat i * ps, r') ∧
                 paddr r' = paddr r ∧ locked r' = false ∧ page_inv r' l' (<[i := 1]> refs) ∧
                 refs !! i = None ∧ (i < length (table r))%nat
  end.
Proof.
  intros Hps [Hc Hn Hf] Hl. unfold ppage_alloc, lock_spin. rewrite Hl, Hf.
  cbn [require negb mbind outcome_bind]. destruct l as [|i l]; [done|].
  rewrite length_cons in *. rewrite (proj2 (Z.ltb_lt 0 (Z.of_nat (S (length l))))) by lia.
  pose proof Hc as [_ [h' Hs] _ _ _ _ Hrefs _]. destruct Hs as [Hh (x & Hx & _)].
  pose proof (lookup_lt_Some _ _ _ Hx) as Hlt. rewrite Hh.
  rewrite (aget_nat _ _ _ Hx), aset_nat by done. cbn [mbind outcome_bind].
  eexists. split; [done|]. simpl. split_and!; [done|done| | |done].
  - constructor; simpl; [eapply core_unlink_head; [exact Hc|done]| |].
    + by rewrite length_insert.
    + lia.
  - rewrite Hrefs, decide_True; [done|set_solver].
Qed.

Lemma contiguous_spec r l refs sz :
  0 < ps → 0 ≤ sz → page_inv r l refs → locked r = false →
  match ppage_contiguous_alloc ps r sz with
  | Ok (e, pa, r') =>
      (e = - ENOMEM ∧ (r' = r ∨ r' = set_locked true r)) ∨
      (∃ f, e = 0 ∧ 0 ≤ f ∧ pa = paddr r + f * ps ∧ paddr r' = paddr r ∧ locked r' = false ∧
         page_inv r' (filter (λ i, ¬ in_span f sz i) l)
           (take_pages (seq (Z.to_nat f) (Z.to_nat sz)) refs) ∧
         ∀ i, f ≤ Z.of_nat i < f + sz → i ∈ l)
  | Err e => e = FBounds
  end.
Proof.
  intros Hps Hsz Hi Hl. pose proof Hi as [Hc Hn Hf].
  unfold ppage_contiguous_alloc, lock_spin. rewrite Hl.
  destruct (Z.ltb_spec (free_count r) sz); [by left; auto|].
  cbn [require negb mbind outcome_bind].
  pose proof (search_spec r sz (S (S (length (table r)))) 0 Hsz) as Hs.
  destruct (search _ _ _ _) as [[f|]|e]; cbn [mbind outcome_bind].
  - destruct Hs as [H0 Hfree]; [lia|done|lia|].
    destruct (unlink_range_spec r l refs f sz Hi H0 Hsz Hfree) as (r' & -> & Ea & _ & _ & El & Hi' & Hin).
    cbn [mbind outcome_bind]. right. exists f. rewrite Ea, El. by split_and!.
  - left. auto.
  - apply Hs; [lia|done|lia].
Qed.

Lemma reserve_spec r l refs pa pa_end :
  0 < ps → page_inv r l refs → locked r = false →
  let pa' := ALIGN_VALUE_UP w pa ps in
  let sz := (ALIGN_VALUE_LOW pa_end ps - pa') / ps in
  match ppage_reserve ps w pa pa_end r with
  | Ok (e, r') =>
      (e = - ENOMEM ∧ r' = r) ∨
      (e = 0 ∧ paddr r' = paddr r ∧ locked r' = false ∧
       page_inv r' (filter (λ i, ¬ in_span ((pa' - paddr r) / ps) sz i) l)
         (take_pages (seq (page_of r pa') (Z.to_nat sz)) refs))
  | Err e => e = FBounds ∨ e = FAssert
  end.
Proof.
  intros Hps Hi Hl pa' sz. unfold ppage_reserve, lock_spin. fold pa'. fold sz.
  unfold require. rewrite Hl. destruct (Z.ltb_spec pa' (ALIGN_VALUE_LOW pa_end ps)); [|by right].
  cbn [negb mbind outcome_bind]. set (p := (pa' - paddr r) / ps).
  assert (0 ≤ sz) as Hsz by (apply Z.div_pos; lia).
  destruct (Z.lt_ge_cases p 0) as [Hp|Hp].
  { assert (1 ≤ sz ∨ sz = 0) as [H1| ->] by lia.
    - destruct (Z.to_nat sz) as [|n] eqn:En; [lia|]. cbn [scan_free]. unfold aget.
      replace (p <? 0) with true by lia. by left.
    - cbn [Z.to_nat scan_free mbind outcome_bind]. unfold unlink_range. cbn [unlink_loop].
      rewrite Z.ltb_irrefl. cbn [mbind outcome_bind]. right. split_and!; [done..|].
      pose proof Hi as [Hc Hn Hf]. constructor; simpl; [|done|].
      + rewrite list_filter_all; [done|]. rewrite Forall_forall. unfold in_span. intros; lia.
      + rewrite list_filter_all; [lia|]. rewrite Forall_forall. unfold in_span. intros; lia. }
  pose proof (scan_free_spec (table r) (Z.to_nat sz) p Hp) as Hs.
  destruct (scan_free _ _ _) as [[f|]|e]; cbn [mbind outcome_bind]; [by left| |tauto].
  destruct (unlink_range_spec r l refs p sz Hi Hp Hsz) as (r' & -> & Ea & _ & _ & El & Hi' & _).
  { intros j Hj. apply Hs. lia. }
  cbn [mbind outcome_bind]. right. split_and!; [done|done|congruence|done].
Qed.

Lemma used_entry r l refs i c :
  page_inv r l refs → refs !! i = Some c →
  table r !! i = Some c ∧ 1 ≤ c < 2 ^ 31 ∧ VMEM_PPAGE_ISFREE c = false.
Proof.
  intros [Hc _ _] Hi. pose proof (pc_used _ _ _ _ Hc _ _ Hi) as Hb.
  rewrite (pc_refs _ _ _ _ Hc) in Hi. case_decide; [done|].
  split_and!; [done|lia|lia|]. apply isfree_small. lia.
Qed.

Lemma page_index r pa :
  0 < ps → ppage_inrange r pa = true → (pa - paddr r) / ps = Z.of_nat (page_of r pa).
Proof.
  unfold ppage_inrange, page_of. intros Hps Hr.
  assert (0 ≤ (pa - paddr r) / ps) by (apply Z.div_pos; lia). lia.
Qed.

Lemma refnew_spec r l refs pa c :
  0 < ps → page_inv r l refs → locked r = false → ppage_inrange r pa = true →
  refs !! page_of r pa = Some c → c + 1 < 2 ^ 31 →
  ∃ r', ppage_refnew ps pa r = Ok (pa, r') ∧ paddr r' = paddr r ∧ locked r' = false ∧
    page_inv r' l (<[page_of r pa := c + 1]> refs).
Proof.
  intros Hps Hi Hl Hr Hc Hb. destruct (used_entry _ _ _ _ _ Hi Hc) as (Ht & Hc1 & Hnf).
  pose proof (lookup_lt_Some _ _ _ Ht) as Hlt.
  unfold ppage_refnew, lock_spin. rewrite Hr, Hl, page_index by done.
  cbn [require negb mbind outcome_bind]. rewrite (aget_nat _ _ _ Ht). cbn [mbind outcome_bind].
  rewrite Hnf. cbn [require negb mbind outcome_bind]. rewrite aset_nat, wrapu_small by lia.
  eexists. split; [done|]. split_and!; [done|done|]. destruct Hi as [Hcore Hn Hf].
  constructor; simpl; [|by rewrite length_insert|done]. eapply core_recount; [done..|lia].
Qed.

Lemma refdrop_spec r l refs pa c :
  0 < ps → page_inv r l refs → locked r = false → ppage_inrange r pa = true →
  refs !! page_of r pa = Some c →
  ∃ r' l', ppage_refdrop ps pa r = Ok r' ∧
    free_count r' = free_count r + (if c =? 1 then 1 else 0) ∧ locked r' = false ∧
    page_inv r' l' (if c =? 1 then delete (page_of r pa) refs
                    else <[page_of r pa := c - 1]> refs).
Proof.
  intros Hps Hi Hl Hr Hc. destruct (used_entry _ _ _ _ _ Hi Hc) as (Ht & Hc1 & Hnf).
  pose proof (lookup_lt_Some _ _ _ Ht) as Hlt.
  unfold ppage_refdrop, lock_spin. rewrite Hr, Hl, page_index by done.
  cbn [require negb mbind outcome_bind]. rewrite (aget_nat _ _ _ Ht). cbn [mbind outcome_bind].
  rewrite Hnf. cbn [require negb mbind outcome_bind].
  rewrite (proj2 (Z.ltb_lt 0 c)) by lia. cbn [require mbind outcome_bind].
  rewrite !aset_nat by done. cbn [mbind outcome_bind]. destruct Hi as [Hcore Hn Hf].
  destruct (Z.eqb_spec c 1) as [->|Hne].
  - exists (set_free_count (free_count r + 1) (set_head (Z.of_nat (page_of r pa))
       (set_table (<[page_of r pa := VMEM_PPAGE_SET 1 (free_head r)]> (table r)) r))),
       (page_of r pa :: l).
    split; [done|]. split_and!; [done|done|]. constructor; simpl; [by apply core_link| |lia].
    by rewrite length_insert.
  - replace (c - 1 =? 0) with false by lia. eexists _, l. split; [done|].
    split_and!; [simpl; lia|done|]. constructor; simpl; [|by rewrite length_insert|done].
    eapply core_recount; [done..|lia].
Qed.

(** *** Initialisation *)

Lemma seg_init (t : list Z) n : ∀ k : nat,
  (∀ i : nat, (k ≤ i < k + n)%nat → ∃ x, t !! i = Some x ∧
     (S i < k + n → VMEM_PPAGE_VALUE x = Z.of_nat (S i))%nat) →
  (1 ≤ n)%nat → ∃ h', seg t (Z.of_nat k) (seq k n) h'.
Proof.
  induction n as [|n IH]; intros k Ht Hn; [lia|]. simpl.
  destruct (Ht k) as (x & Hx & Hv); [lia|].
  destruct n as [|n].
  { exists (VMEM_PPAGE_VALUE x). split; [done|]. exists x. by split. }
  destruct (IH (S k)) as [h' Hs]; [|lia|].
  { intros i Hi. destruct (Ht i) as (y & Hy & Hvy); [lia|]. exists y. split; [done|].
    intros ?. apply Hvy. lia. }
  exists h'. split; [done|]. exists x. split; [done|]. rewrite Hv by lia. exact Hs.
Qed.

Lemma init_spec pa pa_end r :
  0 < ps → ppage_region_init ps w pa pa_end 0 true = Ok (0, Some r) → count r ≤ 2 ^ 31 →
  locked r = false ∧ page_inv r (seq 0 (length (table r))) ∅.
Proof.
  intros Hps. unfold ppage_region_init, require.
  destruct (Z.ltb_spec (ALIGN_VALUE_UP w pa ps) (ALIGN_VALUE_LOW pa_end ps)) as [Hlt|]; [|done].
  cbn [mbind outcome_bind negb Z.eqb]. set (n := (_ - _) / ps).
  destruct (aset _ _ _) as [t|] eqn:Et; [|done]. cbn [mbind outcome_bind].
  intros [= <-]; simpl. intros Hn.
  unfold aset in Et. rewrite length_fmap, length_seqZ in Et.
  destruct (_ && _) eqn:Eb; simplify_eq.
  assert (1 ≤ n) as Hn1 by lia. clear Eb.
  set (t0 := (λ i : Z, VMEM_PPAGE_SET 1 (i + 1)) <$> seqZ 0 n).
  assert (length t0 = Z.to_nat n) as Hl0 by (unfold t0; by rewrite length_fmap, length_seqZ).
  assert (∀ (i : nat) x, <[Z.to_nat (n - 1) := VMEM_PPAGE_SET 1 0]> t0 !! i = Some x →
    ∃ v, 0 ≤ v < 2 ^ 31 ∧ x = VMEM_PPAGE_SET 1 v ∧
         (S i < Z.to_nat n → v = Z.of_nat (S i))%nat) as Ht.
  { intros i x. rewrite list_lookup_insert_Some.
    intros [(<- & <- & Hi)|(Hi & Hx)]; [exists 0; split_and!; [lia|lia|done|lia]|].
    pose proof (lookup_lt_Some _ _ _ Hx). unfold t0 in Hx.
    rewrite list_lookup_fmap, lookup_seqZ_lt in Hx by lia. simplify_eq/=.
    exists (Z.of_nat (S i)). split_and!; [lia|lia|f_equal; lia|lia]. }
  split; [done|]. constructor; simpl; rewrite ?length_insert, ?length_seq; [|lia|lia].
  assert (∀ i : nat, (i < Z.to_nat n)%nat → is_Some (<[Z.to_nat (n - 1) := VMEM_PPAGE_SET 1 0]> t0 !! i)) as Hin.
  { intros i Hi. apply lookup_lt_is_Some. rewrite length_insert. lia. }
  constructor; rewrite ?length_insert; [apply NoDup_seq| |lia|lia| | | |done].
  - apply (seg_init _ _ 0); [|lia]. intros i Hi. destruct (Hin i) as [x Hx]; [lia|].
    exists x. split; [done|]. destruct (Ht i x Hx) as (v & Hv & -> & Hvi).
    rewrite (proj1 (set_free v Hv)). intros ?. apply Hvi. lia.
  - intros i x Hx. destruct (Ht i x Hx) as (v & Hv & -> & _). apply set_free, Hv.
  - intros i x Hx _. apply lookup_lt_Some in Hx. rewrite length_insert in Hx. apply elem_of_seq. lia.
  - intros i. rewrite lookup_empty. case_decide as Hi; [done|].
    rewrite elem_of_seq in Hi. symmetry. apply lookup_ge_None. rewrite length_insert. lia.
Qed.
End ops_spec.

(** ** Reachable states *)

(** A region with the references its clients hold. *)
Record page_world := { reg : vmem_page_region_s; refs : gmap nat Z }.

Section reach.
Context (ps w : Z).

(** Clients only take and drop references on pages they hold, and do not
    overflow the 31 bit count. *)
Inductive page_step : page_world → page_world → Prop :=
| page_alloc x pa r' :
    ppage_alloc ps (reg x) = Ok (0, pa, r') →
    page_step x {| reg := r'; refs := <[page_of ps (reg x) pa := 1]> (refs x) |}
| page_contiguous x sz pa r' :
    0 ≤ sz → ppage_contiguous_alloc ps (reg x) sz = Ok (0, pa, r') →
    page_step x {| reg := r'; refs := take_pages (seq (page_of ps (reg x) pa) (Z.to_nat sz)) (refs x) |}
| page_reserve x pa pa_end r' :
    ppage_reserve ps w pa pa_end (reg x) = Ok (0, r') →
    let pa' := ALIGN_VALUE_UP w pa ps in
    page_step x {| reg := r'; refs := take_pages
      (seq (page_of ps (reg x) pa') (Z.to_nat ((ALIGN_VALUE_LOW pa_end ps - pa') / ps))) (refs x) |}
| page_contiguous_fails x sz pa r' :
    0 ≤ sz → ppage_contiguous_alloc ps (reg x) sz = Ok (- ENOMEM, pa, r') →
    page_step x {| reg := r'; refs := refs x |}
| page_refnew x pa r' c :
    ppage_inrange (reg x) pa = true → refs x !! page_of ps (reg x) pa = Some c → c + 1 < 2 ^ 31 →
    ppage_refnew ps pa (reg x) = Ok (pa, r') →
    page_step x {| reg := r'; refs := <[page_of ps (reg x) pa := c + 1]> (refs x) |}
| page_refdrop x pa r' c :
    ppage_inrange (reg x) pa = true → refs x !! page_of ps (reg x) pa = Some c →
    ppage_refdrop ps pa (reg x) = Ok r' →
    page_step x {| reg := r'; refs := if c =? 1 then delete (page_of ps (reg x) pa) (refs x)
                                      else <[page_of ps (reg x) pa := c - 1]> (refs x) |}.

Inductive page_reachable : page_world → Prop :=
| page_init pa pa_end r :
    ppage_region_init ps w pa pa_end 0 true = Ok (0, Some r) → count r ≤ 2 ^ 31 →
    page_reachable {| reg := r; refs := ∅ |}
| page_next x x' : page_reachable x → page_step x x' → page_reachable x'.

(** Once a contiguous allocation has failed with the lock held, no operation
    completes any more. *)
Definition page_ok (x : page_world) : Prop :=
  ∃ l r0, page_inv r0 l (refs x) ∧ locked r0 = false ∧ (reg x = r0 ∨ reg x = set_locked true r0).

Lemma step_locked x x' r0 :
  reg x = set_locked true r0 → page_step x x' → x' = x.
Proof.
  intros E Hs. destruct Hs as [x pa r' H|x sz pa r' _ H|x pa pe r' H|x sz pa r' _ H|x pa r' c _ _ _ H|x pa r' c _ _ H];
    rewrite E in H.
  - done.
  - unfold ppage_contiguous_alloc in H. simpl in H. by case_match.
  - unfold ppage_reserve, require in H. by case_match.
  - unfold ppage_contiguous_alloc in H. simpl in H. case_match; [|done].
    simplify_eq. destruct x; simpl in *; by subst.
  - unfold ppage_refnew, require in H. by case_match.
  - unfold ppage_refdrop, require in H. by case_match.
Qed.

Lemma step_ok x x' : 0 < ps → page_ok x → page_step x x' → page_ok x'.
Proof.
  intros Hps (l & r0 & Hi & Hl & [E|E]) Hs; [|rewrite (step_locked _ _ _ E Hs); exists l, r0; auto].
  subst r0. destruct Hs as [x pa r' H|x sz pa r' Hsz H|x pa pe r' H|x sz pa r' Hsz H
                           |x pa r' c Hr Hc Hb H|x pa r' c Hr Hc H]; unfold page_ok; simpl.
  - pose proof (alloc_spec ps _ _ _ Hps Hi Hl) as Ha. destruct l as [|i l]; [by rewrite H in Ha|].
    destruct Ha as (r2 & E2 & _ & Hl2 & Hi2 & _). rewrite H in E2. simplify_eq.
    exists l, r2. rewrite page_of_index by lia. rewrite Nat2Z.id. auto.
  - pose proof (contiguous_spec ps _ _ _ sz Hps Hsz Hi Hl) as Ha. rewrite H in Ha.
    destruct Ha as [[? _]|(f & _ & Hf & -> & _ & Hl2 & Hi2 & _)]; [done|].
    rewrite page_of_index by done. eauto 10.
  - pose proof (reserve_spec ps w _ _ _ pa pe Hps Hi Hl) as Ha. cbv zeta in Ha. rewrite H in Ha.
    destruct Ha as [[? _]|(_ & _ & Hl2 & Hi2)]; [done|]. eauto 10.
  - pose proof (contiguous_spec ps _ _ _ sz Hps Hsz Hi Hl) as Ha. rewrite H in Ha.
    destruct Ha as [[_ [->| ->]]|(f & ? & _)]; [eauto 10|eauto 10|done].
  - destruct (refnew_spec ps _ _ _ pa c Hps Hi Hl Hr Hc Hb) as (r2 & E2 & _ & Hl2 & Hi2).
    rewrite H in E2. simplify_eq. eauto 10.
  - destruct (refdrop_spec ps _ _ _ pa c Hps Hi Hl Hr Hc) as (r2 & l2 & E2 & _ & Hl2 & Hi2).
    rewrite H in E2. simplify_eq. eauto 10.
Qed.

Lemma reachable_ok x : 0 < ps → page_reachable x → page_ok x.
Proof.
  intros Hps. induction 1 as [pa pe r H Hc|x x' _ IH Hs]; [|by eapply step_ok].
  destruct (init_spec ps w pa pe r Hps H Hc) as [Hl Hi]. eexists _, r. eauto.
Qed.
End reach.

Lemma core_size t h l refs :
  page_core t h l refs → (base.size refs + length l = length t)%nat.
Proof.
  intros [Hn [h' Hs] _ _ _ _ Hrefs _].
  assert (dom refs = list_to_set (seq 0 (length t)) ∖ (list_to_set l : gset nat)) as Hd.
  { apply set_eq. intros i. rewrite elem_of_dom, elem_of_difference, !elem_of_list_to_set, elem_of_seq, Hrefs.
    case_decide; [split; [by intros []|tauto]|]. rewrite lookup_lt_is_Some. split; [intros; split; [lia|done]|lia]. }
  rewrite <-size_dom, Hd, size_difference, !size_list_to_set, length_seq; [|done|apply NoDup_seq|].
  - assert (l ⊆+ seq 0 (length t)) as Hsub%submseteq_length; [|rewrite length_seq in Hsub; lia].
    apply NoDup_submseteq; [done|]. intros i Hi. apply elem_of_seq.
    destruct (seg_lookup _ _ _ _ i Hs Hi) as [x Hx%lookup_lt_Some]. lia.
  - intros i. rewrite !elem_of_list_to_set, elem_of_seq. intros Hi.
    destruct (seg_lookup _ _ _ _ i Hs Hi) as [x Hx%lookup_lt_Some]. lia.
Qed.

(** ** Properties *)

(** C37.  Whatever sequence of allocations, contiguous allocations, reservations
    and reference operations ran before, an allocation only hands out pages to
    which no reference is held, inside the region. *)
Theorem page_no_double_alloc ps w x sz e pa r' :
  0 < ps → page_reachable ps w x → 0 ≤ sz →
  (ppage_alloc ps (reg x) = Ok (0, pa, r') →
     refs x !! page_of ps (reg x) pa = None ∧
     (page_of ps (reg x) pa < length (table (reg x)))%nat) ∧
  (ppage_contiguous_alloc ps (reg x) sz = Ok (e, pa, r') → e = 0 →
     ∀ i, (page_of ps (reg x) pa ≤ i < page_of ps (reg x) pa + Z.to_nat sz)%nat →
       refs x !! i = None ∧ (i < length (table (reg x)))%nat).
Proof.
  intros Hps Hr Hsz. destruct (reachable_ok ps w x Hps Hr) as (l & r0 & Hi & Hl & [E|E]).
  2: { split; intros H; [by rewrite E in H|]. intros ->. exfalso. revert H. rewrite E.
       unfold ppage_contiguous_alloc. simpl. by case_match. }
  subst r0. split.
  - intros H. pose proof (alloc_spec ps _ _ _ Hps Hi Hl) as Ha.
    destruct l as [|i l]; [by rewrite H in Ha|]. destruct Ha as (r2 & E2 & _ & _ & _ & Hn & Hlt).
    rewrite H in E2. simplify_eq. rewrite page_of_index, Nat2Z.id by lia. done.
  - intros H ->. pose proof (contiguous_spec ps _ _ _ sz Hps Hsz Hi Hl) as Ha. rewrite H in Ha.
    destruct Ha as [[? _]|(f & _ & Hf & -> & _ & _ & _ & Hin)]; [done|].
    rewrite page_of_index by done. intros i Hs. destruct Hi as [[_ [h' Hsg] _ _ _ _ Hrefs _] _ _].
    assert (i ∈ l) as Hil by (apply Hin; lia). rewrite Hrefs, decide_True by done. split; [done|].
    destruct (seg_lookup _ _ _ _ i Hsg Hil) as [y Hy]. by eapply lookup_lt_Some.
Qed.

(**  No page is lost: at any time the pages of the region are the free
    pages, as counted by [free_count], and the pages clients hold. *)
Theorem page_conservation ps w x :
  0 < ps → page_reachable ps w x →
  Z.of_nat (base.size (refs x)) + free_count (reg x) = count (reg x).
Proof.
  intros Hps Hr. destruct (reachable_ok ps w x Hps Hr) as (l & r0 & [Hc Hn Hf] & _ & E).
  pose proof (core_size _ _ _ _ Hc) as Hs.
  assert (free_count (reg x) = free_count r0 ∧ count (reg x) = count r0) as [-> ->]
    by (destruct E as [->| ->]; done).
  lia.
Qed.

(**  While the region is not left locked, an allocation succeeds as long as
    a page is free, and taking or dropping a reference on a held page never
    trips an assertion; the last drop makes the page free again. *)
Theorem page_ops_succeed ps w x :
  0 < ps → page_reachable ps w x → locked (reg x) = false →
  (0 < free_count (reg x) → ∃ pa r', ppage_alloc ps (reg x) = Ok (0, pa, r')) ∧
  (∀ pa c, ppage_inrange (reg x) pa = true → refs x !! page_of ps (reg x) pa = Some c →
     (c + 1 < 2 ^ 31 → ∃ r', ppage_refnew ps pa (reg x) = Ok (pa, r')) ∧
     (∃ r', ppage_refdrop ps pa (reg x) = Ok r' ∧
            free_count r' = free_count (reg x) + (if c =? 1 then 1 else 0))).
Proof.
  intros Hps Hr Hlk. destruct (reachable_ok ps w x Hps Hr) as (l & r0 & Hi & Hl & [E|E]);
    [subst r0|by rewrite E in Hlk]. split.
  - intros Hf. pose proof (alloc_spec ps _ _ _ Hps Hi Hl) as Ha. pose proof (pi_free _ _ _ Hi).
    destruct l as [|i l]; [simpl in *; lia|]. destruct Ha as (r2 & E2 & _). eauto.
  - intros pa c Hin Hc. split.
    + intros Hb. destruct (refnew_spec ps _ _ _ pa c Hps Hi Hl Hin Hc Hb) as (r2 & E2 & _). eauto.
    + destruct (refdrop_spec ps _ _ _ pa c Hps Hi Hl Hin Hc) as (r2 & l2 & E2 & Hfc & _). eauto.
Qed.

(**  A contiguous allocation that fails after its search returns with the
    region locked: every later allocation spins forever. *)
Theorem contiguous_failure_keeps_lock ps r sz pa r' :
  sz ≤ free_count r → ppage_contiguous_alloc ps r sz = Ok (- ENOMEM, pa, r') →
  locked r' = true ∧ ppage_alloc ps r' = Err FSpin.
Proof.
  intros Hsz. unfold ppage_contiguous_alloc, lock_spin, require.
  destruct (Z.ltb_spec (free_count r) sz); [lia|]. destruct (locked r); [done|]. simpl.
  intros H0. apply bind_Ok in H0 as ([f|] & _ & H0).
  - apply bind_Ok in H0 as (r2 & _ & H0). simplify_eq.
  - simplify_eq. done.
Qed.

(** A region of [n] pages of 4096 bytes. *)
Definition demo_region (n : Z) : vmem_page_region_s :=
  match ppage_region_init 4096 32 0x10000 (0x10000 + n * 4096) 0 true with
  | Ok (_, Some r) => r
  | _ => {| paddr := 0; size := 0; count := 0; free_count := 0; free_head := 0;
            table := []; locked := false |}
  end.

(** Takes every page of a region of four and returns the first and the third. *)
Definition demo_fragmented : outcome vmem_page_region_s :=
  '(_, _, r) ← ppage_alloc 4096 (demo_region 4);
  '(_, _, r) ← ppage_alloc 4096 r; '(_, _, r) ← ppage_alloc 4096 r; '(_, _, r) ← ppage_alloc 4096 r;
  r ← ppage_refdrop 4096 0x10000 r;
  ppage_refdrop 4096 0x12000 r.

(**  The bound test of the contiguous search is off by one: with three pages
    of which only the middle one is in use, asking for two pages reads the table
    past its end. *)
Theorem contiguous_reads_past_table :
  ('(_, pa, r) ← ppage_alloc 4096 (demo_region 3);
   '(_, _, r) ← ppage_alloc 4096 r;
   r ← ppage_refdrop 4096 pa r;
   ppage_contiguous_alloc 4096 r 2) = Err FBounds.
Proof. vm_compute. reflexivity. Qed.

(**  Taking a page out of the middle of the free list clears the free mark of
    its predecessor: after page 1 is reserved, page 0 can no longer be reserved
    although it is free and the next allocation hands it out. *)
Theorem reserve_hides_free_page :
  ∃ r r', ppage_reserve 4096 32 0x11000 0x12000 (demo_region 4) = Ok (0, r) ∧
    ppage_reserve 4096 32 0x10000 0x11000 r = Ok (- ENOMEM, r) ∧
    ppage_alloc 4096 r = Ok (0, 0x10000, r').
Proof.
  eexists _, _. split; [vm_compute; reflexivity|].
  split; [vm_compute; reflexivity|vm_compute; reflexivity].
Qed.

(** ** Witnesses *)

Definition demo_held : page_world :=
  match ppage_alloc 4096 (demo_region 4) with
  | Ok (_, _, r) => {| reg := r; refs := {[0%nat := 1]} |}
  | Err _ => {| reg := demo_region 4; refs := ∅ |}
  end.

Lemma demo_held_reachable : page_reachable 4096 32 demo_held.
Proof.
  apply (page_next _ _ {| reg := demo_region 4; refs := ∅ |}).
  - eapply (page_init _ _ 0x10000 0x14000); [vm_compute; reflexivity|vm_compute; discriminate].
  - apply (page_alloc 4096 32 {| reg := demo_region 4; refs := ∅ |} 0x10000 (reg demo_held)).
    vm_compute. reflexivity.
Defined.

Lemma page_no_double_alloc_witness :
  refs demo_held !! page_of 4096 (reg demo_held) 0x11000 = None ∧
  (page_of 4096 (reg demo_held) 0x11000 < length (table (reg demo_held)))%nat.
Proof.
  refine (proj1 (page_no_double_alloc 4096 32 demo_held 0 0 0x11000 _ _ demo_held_reachable _) _);
    [lia|lia|vm_compute; reflexivity].
Defined.

Lemma page_conservation_witness :
  Z.of_nat (base.size (refs demo_held)) + free_count (reg demo_held) = count (reg demo_held).
Proof. apply (page_conservation 4096 32); [lia|exact demo_held_reachable]. Defined.

Lemma page_ops_succeed_witness : ∃ pa r', ppage_alloc 4096 (reg demo_held) = Ok (0, pa, r').
Proof.
  refine (proj1 (page_ops_succeed 4096 32 demo_held _ demo_held_reachable _) _);
    [lia|vm_compute; reflexivity|vm_compute; reflexivity].
Defined.

Definition demo_full : vmem_page_region_s :=
  match demo_fragmented with Ok r => r | Err _ => demo_region 4 end.

Lemma contiguous_failure_keeps_lock_witness :
  locked (set_locked true demo_full) = true ∧
  ppage_alloc 4096 (set_locked true demo_full) = Err FSpin.
Proof.
  refine (contiguous_failure_keeps_lock 4096 demo_full 2 0 (set_locked true demo_full) _ _);
    vm_compute; [discriminate|reflexivity].
Defined.
End PageAlloc.
