(* ===== verification/MemAlloc.v ===== *)
(** * Kernel memory allocator (mutek/memory_allocator_smart.c): the model

    A region is a list of contiguous blocks, each headed by a header, ended by an
    end block; the free blocks are also linked in a free list.  Headers and
    payload bytes are kept apart: [tags] holds what the two words of the union
    of a header encode, [bytes] the contents of the memory between headers.  A
    [memset] that leaves the block it starts in, and so would reach a header, is
    an error.  Build options are parameters; the CRC of headers
    ([CONFIG_MUTEK_MEMALLOC_CRC]), the growth of a region by pages
    ([CONFIG_HEXO_MMU]) and the simulator's memory checker are off. *)

From S2P Require Import Prelude Endian.

Module MemAlloc.
Import Endian.

(** The union of [struct memory_allocator_header_s]: links of the free list, an
    owner region with a null marker, or two null words. *)
Inductive hdr_tag := HLinks | HAlloc | HEnd.

#[export] Instance hdr_tag_eq_dec : EqDecision hdr_tag.
Proof. solve_decision. Defined.

(** [struct memory_allocator_region_s]; the lists hold header addresses. *)
Record memory_allocator_region_s := {
  free_root : list Z; block_root : list Z; rsize : Z;
  alloc_blocks : Z; free_size : Z; free_blocks : Z }.

(** The memory the region manages. *)
Record mem_state := { region : memory_allocator_region_s; tags : gmap Z hdr_tag; bytes : Z → Z }.

(** *** List containers (gpct/cont_clist.h) *)

(** [_next], [_prev]: [None] at the ends; a header that is not in the list is a
    corruption. *)
Fixpoint clist_next (l : list Z) (x : Z) : outcome (option Z) :=
  match l with
  | [] => Err FCorrupt
  | a :: l' => if a =? x then Ok (head l') else clist_next l' x
  end.

Fixpoint clist_prev (before : option Z) (l : list Z) (x : Z) : outcome (option Z) :=
  match l with
  | [] => Err FCorrupt
  | a :: l' => if a =? x then Ok before else clist_prev (Some a) l' x
  end.

(** [_insert_post(index, item)] *)
Fixpoint clist_insert_post (l : list Z) (index item : Z) : list Z :=
  match l with
  | [] => []
  | a :: l' => if a =? index then a :: item :: l' else a :: clist_insert_post l' index item
  end.

Definition clist_remove (l : list Z) (x : Z) : list Z := filter (λ a, a ≠ x) l.

Definition set_tag (hdr : Z) (t : hdr_tag) (st : mem_state) : mem_state :=
  {| region := region st; tags := <[hdr := t]> (tags st); bytes := bytes st |}.

Definition set_lists (fr br : list Z) (st : mem_state) : mem_state :=
  let r := region st in
  {| region := {| free_root := fr; block_root := br; rsize := rsize r;
                  alloc_blocks := alloc_blocks r; free_size := free_size r;
                  free_blocks := free_blocks r |};
     tags := tags st; bytes := bytes st |}.

Definition fl (st : mem_state) : list Z := free_root (region st).
Definition bl (st : mem_state) : list Z := block_root (region st).

(** [free_list_push] writes the links of the header. *)
Definition free_list_push (hdr : Z) (st : mem_state) : mem_state :=
  set_tag hdr HLinks (set_lists (hdr :: fl st) (bl st) st).
Definition free_list_remove (hdr : Z) (st : mem_state) : mem_state :=
  set_lists (clist_remove (fl st) hdr) (bl st) st.
Definition block_list_insert_post (index item : Z) (st : mem_state) : mem_state :=
  set_lists (fl st) (clist_insert_post (bl st) index item) st.
Definition block_list_remove (hdr : Z) (st : mem_state) : mem_state :=
  set_lists (fl st) (clist_remove (bl st) hdr) st.
Definition block_list_pushback (hdr : Z) (st : mem_state) : mem_state :=
  set_lists (fl st) (bl st ++ [hdr]) st.

(** Sizes and options of the build. *)
Record mem_config := {
  w : Z;                        (* bits of size_t *)
  mem_hdr_size : Z;             (* sizeof (struct memory_allocator_header_s) *)
  mem_hdr_size_align : Z;
  region_hdr_size : Z;
  ALIGN : Z;                    (* CONFIG_MUTEK_MEMALLOC_ALIGN *)
  guard : bool; GUARD_SIZE : Z; (* CONFIG_MUTEK_MEMALLOC_GUARD, _GUARD_SIZE *)
  scramble : bool;              (* CONFIG_MUTEK_MEMALLOC_SCRAMBLE *)
  stats : bool;                 (* CONFIG_MUTEK_MEMALLOC_STATS *)
  bestfit : bool;               (* CONFIG_MUTEK_MEMALLOC_ALGO_BESTFIT *)
}.

Section ops.
Context (cfg : mem_config).
#[local] Abbreviation W := (w cfg).
#[local] Abbreviation H := (mem_hdr_size_align cfg).
Implicit Types (st : mem_state) (hdr size : Z).

(** The guard size where the guards are compiled in. *)
Definition gsize : Z := if guard cfg then GUARD_SIZE cfg else 0.
#[local] Abbreviation G := gsize.

Definition MEMALLOC_SPLIT_SIZE : Z := H + 16 + GUARD_SIZE cfg * 2.

(** *** Size and address translators *)

Definition mem2hdr (mem : Z) : Z := mem - H - G.
Definition hdr2mem hdr : Z := hdr + H + G.
Definition size_alloc2real size : Z := wrapu W (H + G * 2 + ALIGN_VALUE_UP W size (ALIGN cfg)).
Definition size_real2alloc size : Z := wrapu W (size - G * 2 - H).

Definition header_tag st hdr : outcome hdr_tag := of_option FBounds (tags st !! hdr).
Definition header_is_alloc st hdr : outcome bool :=
  t ← header_tag st hdr; Ok (bool_decide (t ≠ HLinks)).
Definition header_is_endblock st hdr : outcome bool :=
  t ← header_tag st hdr; Ok (bool_decide (t = HEnd)).

Definition header_get_size st hdr : outcome Z :=
  e ← header_is_endblock st hdr;
  _ ← require (negb e) FAssert;
  next ← clist_next (bl st) hdr;
  Ok (wrapu W (default 0 next - hdr)).

(** *** Memory accesses *)

(** The [n] bytes from [a] lie between the header of a block and the next. *)
Fixpoint in_a_block (tg : gmap Z hdr_tag) (l : list Z) (a n : Z) : bool :=
  match l with
  | h :: (next :: _) as l' =>
      (bool_decide (tg !! h ≠ Some HEnd) && (h + H <=? a) && (a + n <=? next)) || in_a_block tg l' a n
  | _ => false
  end.

Definition memset (a v n : Z) st : outcome mem_state :=
  if n =? 0 then Ok st
  else
    _ ← require (in_a_block (tags st) (bl st) a n) FBounds;
    Ok {| region := region st; tags := tags st;
          bytes := λ x, if (a <=? x) && (x <? a + n) then v else bytes st x |}.

(** [memcstcmp]: 0 when the [n] bytes from [a] are all [v]. *)
Definition memcstcmp (a v n : Z) st : outcome Z :=
  if n =? 0 then Ok 0
  else
    _ ← require (in_a_block (tags st) (bl st) a n) FBounds;
    Ok (if forallb (λ x, bytes st x =? v) (seqZ a n) then 0 else 1).

Definition memory_allocator_guard_set size hdr st : outcome mem_state :=
  if guard cfg then
    st ← memset (hdr + H) 0x55 (GUARD_SIZE cfg) st;
    memset (hdr + size - GUARD_SIZE cfg) 0xaa (GUARD_SIZE cfg) st
  else Ok st.

Definition memory_allocator_guard_check size hdr st : outcome unit :=
  if guard cfg then
    r ← memcstcmp (hdr + H) 0x55 (GUARD_SIZE cfg) st;
    _ ← require (r =? 0) FCorrupt;
    r ← memcstcmp (hdr + size - GUARD_SIZE cfg) 0xaa (GUARD_SIZE cfg) st;
    require (r =? 0) FCorrupt
  else Ok tt.

Definition memory_allocator_scramble_set size hdr st : outcome mem_state :=
  if scramble cfg then
    a ← header_is_alloc st hdr;
    memset (hdr2mem hdr) (if negb a then 0xa5 else 0x5a) (size_real2alloc size) st
  else Ok st.

Definition memory_allocator_scramble_check size hdr st : outcome unit :=
  if scramble cfg then
    a ← header_is_alloc st hdr;
    if negb a then
      r ← memcstcmp (hdr2mem hdr) 0xa5 (size_real2alloc size) st;
      require (r =? 0) FCorrupt
    else Ok tt
  else Ok tt.

Definition header_set_alloc hdr st : mem_state := set_tag hdr HAlloc st.
Definition header_set_endblock hdr st : mem_state := set_tag hdr HEnd st.

(** The block counts are [uint32_t] parameters added to [size_t] fields. *)
Definition update_region_stats (size free_block alloc_block : Z) st : mem_state :=
  if stats cfg then
    let r := region st in
    {| region := {| free_root := free_root r; block_root := block_root r; rsize := rsize r;
                    alloc_blocks := wrapu W (alloc_blocks r + wrapu 32 alloc_block);
                    free_size := wrapu W (free_size r + size);
                    free_blocks := wrapu W (free_blocks r + wrapu 32 free_block) |};
       tags := tags st; bytes := bytes st |}
  else st.

Definition add_size (n : Z) st : mem_state :=
  let r := region st in
  {| region := {| free_root := free_root r; block_root := block_root r;
                  rsize := wrapu W (rsize r + n); alloc_blocks := alloc_blocks r;
                  free_size := free_size r; free_blocks := free_blocks r |};
     tags := tags st; bytes := bytes st |}.

(** [memory_allocator_extend] *)
Definition memory_allocator_nolock_extend (start size : Z) st : outcome (Z * mem_state) :=
  let hdr := start in
  let hdr_end := start + size - H in
  let hdr_size := wrapu W (hdr - hdr_end) in
  _ ← require (negb (hdr =? 0)) FAssert;
  let st := block_list_pushback hdr st in
  let st := free_list_push hdr st in
  let st := header_set_endblock hdr_end st in
  let st := block_list_pushback hdr_end st in
  st ← memory_allocator_scramble_set hdr_size hdr st;
  st ← memory_allocator_guard_set hdr_size hdr st;
  Ok (hdr, update_region_stats size 1 0 (add_size size st)).

(** First fit: the first free block that is large enough. *)
Fixpoint first_fit st size (items : list Z) : outcome (option Z) :=
  match items with
  | [] => Ok None
  | item :: items =>
      s ← header_get_size st item;
      if size <=? s then Ok (Some item) else first_fit st size items
  end.

(** Best fit: the smallest free block that is large enough. *)
Fixpoint best_fit st size (best : option (Z * Z)) (items : list Z) : outcome (option Z) :=
  match items with
  | [] => Ok (fst <$> best)
  | item :: items =>
      s ← header_get_size st item;
      if (size <=? s) && match best with None => true | Some (_, best_size) => s <? best_size end
      then best_fit st size (Some (item, s)) items
      else best_fit st size best items
  end.

Definition memory_allocator_candidate st size : outcome (option Z) :=
  if bestfit cfg then best_fit st size None (fl st) else first_fit st size (fl st).

Definition get_hdr_for_rsv st (start size : Z) : outcome (option Z) :=
  let fix find (items : list Z) : outcome (option Z) :=
    match items with
    | [] => Ok None
    | item :: items =>
        s ← header_get_size st item;
        if (item + mem_hdr_size cfg <=? start) && (start + size <=? item + s)
        then Ok (Some item) else find items
    end in
  find (fl st).

(** ** API functions; the address 0 is [NULL] *)

Definition memory_allocator_pop size st : outcome (Z * mem_state) :=
  let size := size_alloc2real size in
  c ← memory_allocator_candidate st size;
  match c with
  | None => Ok (0, st)
  | Some hdr =>
      a ← header_is_alloc st hdr;
      _ ← require (negb a) FAssert;
      hdr_size ← header_get_size st hdr;
      _ ← require (size <=? hdr_size) FAssert;
      _ ← memory_allocator_scramble_check hdr_size hdr st;
      _ ← memory_allocator_guard_check hdr_size hdr st;
      let st := header_set_alloc hdr (free_list_remove hdr st) in
      st ← (if wrapu W (size + MEMALLOC_SPLIT_SIZE) <=? hdr_size then
              let next := hdr + size in
              let st := free_list_push next (block_list_insert_post hdr next st) in
              next_size ← header_get_size st next;
              st ← memory_allocator_scramble_set next_size next st;
              st ← memory_allocator_guard_set next_size next st;
              st ← memory_allocator_guard_set size hdr st;
              Ok (update_region_stats 0 1 0 st)
            else Ok st);
      let st := update_region_stats 0 (-1) 1 st in
      st ← memory_allocator_scramble_set size hdr st;
      Ok (hdr2mem hdr, st)
  end.

Definition memory_allocator_push (address : Z) st : outcome mem_state :=
  let hdr := mem2hdr address in
  a ← header_is_alloc st hdr;
  e ← header_is_endblock st hdr;
  _ ← require (a && negb e) FAssert;
  size ← header_get_size st hdr;
  _ ← memory_allocator_guard_check size hdr st;
  next ← clist_next (bl st) hdr;
  prev ← clist_prev None (bl st) hdr;
  st ← (match next with
        | Some next =>
            a ← header_is_alloc st next;
            Ok (if negb a
                then update_region_stats 0 (-1) 0 (block_list_remove next (free_list_remove next st))
                else st)
        | None => Ok st
        end);
  prev_free ← (match prev with
               | Some prev => a ← header_is_alloc st prev; Ok (if negb a then Some prev else None)
               | None => Ok None
               end);
  let '(hdr, st) := match prev_free with
                    | Some prev => (prev, block_list_remove hdr st)
                    | None => (hdr, update_region_stats 0 1 0 (free_list_push hdr st))
                    end in
  size ← header_get_size st hdr;
  st ← memory_allocator_scramble_set size hdr st;
  Ok (update_region_stats 0 0 (-1) st).

(** The free block cut off behind a block of [size] bytes. *)
Definition cut_free hdr size next_size st : outcome mem_state :=
  st ← memory_allocator_guard_set size hdr st;
  let next := hdr + size in
  let st := free_list_push next (block_list_insert_post hdr next st) in
  st ← memory_allocator_guard_set next_size next st;
  memory_allocator_scramble_set next_size next st.

Definition memory_allocator_resize (address size : Z) st : outcome (Z * mem_state) :=
  let hdr := mem2hdr address in
  a ← header_is_alloc st hdr;
  e ← header_is_endblock st hdr;
  _ ← require (a && negb e) FAssert;
  let size := size_alloc2real size in
  hdr_size ← header_get_size st hdr;
  let diff := wraps W (size - hdr_size) in
  if diff =? 0 then Ok (address, st)
  else
    next ← clist_next (bl st) hdr;
    next_free ← (match next with
                 | Some next => a ← header_is_alloc st next; Ok (if negb a then Some next else None)
                 | None => Ok None
                 end);
    match next_free with
    | Some next =>
        next_size ← header_get_size st next;
        if next_size <? wrapu W diff then Ok (0, st)
        else
          let st := block_list_remove next (free_list_remove next st) in
          '(next_size, st) ← (if wrapu W (diff + MEMALLOC_SPLIT_SIZE) <=? next_size then
                                let next_size := wrapu W (next_size - diff) in
                                st ← cut_free hdr size next_size st;
                                Ok (next_size, update_region_stats (- diff) 1 0 st)
                              else Ok (next_size, st));
          Ok (address, update_region_stats (- next_size) (-1) 0 st)
    | None =>
        if hdr_size <=? size then Ok (0, st)
        else if wrapu W (size + MEMALLOC_SPLIT_SIZE) <=? hdr_size then
          st ← cut_free hdr size (wrapu W (- diff)) st;
          Ok (address, update_region_stats (- diff) 1 0 st)
        else Ok (address, st)
    end.

Definition memory_allocator_getsize (ptr : Z) st : outcome Z :=
  let hdr := mem2hdr ptr in
  a ← header_is_alloc st hdr;
  e ← header_is_endblock st hdr;
  _ ← require (a && negb e) FAssert;
  size ← header_get_size st hdr;
  _ ← memory_allocator_guard_check size hdr st;
  Ok (size_real2alloc size).

(** [prev_size] is a difference of header pointers, in units of the header. *)
Definition memory_allocator_reserve (start size : Z) st : outcome (Z * mem_state) :=
  let size := ALIGN_VALUE_UP W size (ALIGN cfg) in
  c ← get_hdr_for_rsv st start size;
  match c with
  | None => Ok (0, st)
  | Some hdr =>
      a ← header_is_alloc st hdr;
      _ ← require (negb a) FAssert;
      hdr_size ← header_get_size st hdr;
      _ ← require (size <=? hdr_size) FAssert;
      _ ← memory_allocator_scramble_check hdr_size hdr st;
      _ ← memory_allocator_guard_check hdr_size hdr st;
      '(hdr, st) ← (if MEMALLOC_SPLIT_SIZE <? wrapu W (start - hdr) then
          let prev := hdr in
          let hdr := mem2hdr start in
          let prev_size := wrapu W (Z.quot (hdr - prev) (mem_hdr_size cfg)) in
          let st := block_list_insert_post prev hdr (header_set_alloc hdr st) in
          let next_size := wrapu W (hdr_size - size - prev_size) in
          st ← (if MEMALLOC_SPLIT_SIZE <=? next_size then
                  let next := hdr + size in
                  let st := free_list_push next (block_list_insert_post hdr next st) in
                  st ← memory_allocator_guard_set next_size next st;
                  Ok (update_region_stats 0 1 0 st)
                else Ok st);
          st ← memory_allocator_guard_set prev_size prev st;
          st ← memory_allocator_scramble_set size hdr st;
          st ← memory_allocator_guard_set size hdr st;
          Ok (hdr, st)
        else
          let st := free_list_remove hdr st in
          st ← memory_allocator_scramble_set hdr_size hdr st;
          Ok (hdr, update_region_stats 0 (-1) 0 st));
      hdr_size ← header_get_size st hdr;
      Ok (hdr, update_region_stats hdr_size 0 1 st)
  end.

(** A new region; [container] tells whether its descriptor was allocated in
    another region.  The memory holds arbitrary [contents]. *)
Definition memory_allocator_init (container : bool) (start end_ : Z) (contents : Z → Z)
    : outcome mem_state :=
  let start := ALIGN_VALUE_UP W start (ALIGN cfg) in
  let end_ := ALIGN_VALUE_LOW end_ (ALIGN cfg) in
  let hdr := if container then start else start + region_hdr_size cfg in
  let hdr_end := end_ - H in
  let size := wrapu W (hdr_end - hdr) in
  _ ← require (H <? size) FAssert;
  let st := {| region := {| free_root := []; block_root := []; rsize := size;
                            alloc_blocks := 0; free_size := if stats cfg then size else 0;
                            free_blocks := if stats cfg then 1 else 0 |};
               tags := ∅; bytes := contents |} in
  let st := header_set_endblock hdr_end st in
  let st := set_lists (fl st) (hdr :: hdr_end :: bl st) st in
  let st := free_list_push hdr st in
  size ← header_get_size st hdr;
  st ← memory_allocator_scramble_set size hdr st;
  memory_allocator_guard_set size hdr st.

(** The scan of [memory_allocator_region_check]; returns what it prints. *)
Fixpoint check_blocks st (items : list Z) (header_count header_size : Z) : outcome (Z * Z) :=
  match items with
  | [] => Ok (header_count, header_size)
  | item :: items =>
      e ← header_is_endblock st item;
      if negb e then
        hdr_size ← header_get_size st item;
        _ ← memory_allocator_guard_check hdr_size item st;
        _ ← memory_allocator_scramble_check hdr_size item st;
        check_blocks st items (wrapu W (header_count + 1)) (wrapu W (header_size + hdr_size))
      else check_blocks st items header_count header_size
  end.

Definition memory_allocator_region_check st : outcome (Z * Z) := check_blocks st (bl st) 0 0.

Definition memory_allocator_stats st : Z * option (Z * Z * Z) :=
  if stats cfg then
    (0, Some (alloc_blocks (region st), free_size (region st), free_blocks (region st)))
  else (- ENOTSUP, None).
End ops.
End MemAlloc.
