(* ===== verification/MemAllocSafe.v ===== *)
(** * Kernel memory allocator: invariant and properties

    The invariant of a region of memory_allocator_smart.c: its blocks tile the
    memory without gap, two free blocks are never adjacent, the free list is the
    set of free blocks, guards and scrambled bytes are in place.  Allocation,
    release and resizing preserve it and return, for requests whose block size
    fits in a [size_t] and clients that only write inside the blocks they hold.
    Reservation and extension do not preserve it. *)

From S2P Require Import Prelude Endian MemAlloc.

Module MemAllocSafe.
Import Endian MemAlloc.

Section safe.
Context (cfg : mem_config).
#[local] Abbreviation W := (w cfg).
#[local] Abbreviation HS := (mem_hdr_size_align cfg).
#[local] Abbreviation G := (gsize cfg).

(** Assumptions on the build options. *)
Record cfg_ok : Prop := {
  co_w : 1 ≤ W;
  co_hdr : 0 < HS;
  co_guard : 0 ≤ GUARD_SIZE cfg;
  co_align : ∃ k, 0 ≤ k ≤ W ∧ ALIGN cfg = 2 ^ k;
}.

(** ** Invariant *)

Definition filled (st : mem_state) (lo hi v : Z) : Prop :=
  ∀ x, lo ≤ x < hi → bytes st x = v.

(** The block headed at [a] and ended by the header at [b]. *)
Record block_ok (st : mem_state) (a b : Z) : Prop := {
  bo_size : a + HS + G * 2 ≤ b;
  bo_tag : tags st !! a = Some HLinks ∨ tags st !! a = Some HAlloc;
  bo_head : filled st (a + HS) (a + HS + G) 0x55;
  bo_tail : filled st (b - G) b 0xaa;
  bo_free : tags st !! a = Some HLinks →
    tags st !! b ≠ Some HLinks ∧ (scramble cfg = true → filled st (a + HS + G) (b - G) 0xa5);
}.

(** The blocks headed at [l] tile the memory up to the header [e]. *)
Fixpoint tiled (st : mem_state) (l : list Z) (e : Z) : Prop :=
  match l with
  | [] => True
  | a :: l' => block_ok st a (hd e l') ∧ tiled st l' e
  end.

Record mem_inv (st : mem_state) (l : list Z) (e : Z) : Prop := {
  mi_blocks : bl st = l ++ [e];
  mi_end : tags st !! e = Some HEnd;
  mi_tiled : tiled st l e;
  mi_low : 0 < hd e l;
  mi_high : e + MEMALLOC_SPLIT_SIZE cfg ≤ 2 ^ W;
  mi_free_nodup : NoDup (fl st);
  mi_free : ∀ x, x ∈ fl st ↔ x ∈ l ∧ tags st !! x = Some HLinks;
}.

(** ** Tilings *)

Hypothesis Hcfg : cfg_ok.

Lemma gsize_bounds : 0 ≤ G ≤ GUARD_SIZE cfg.
Proof using Hcfg. destruct Hcfg. unfold gsize. destruct (guard cfg); lia. Qed.

Lemma split_bounds : HS + G * 2 < MEMALLOC_SPLIT_SIZE cfg.
Proof using Hcfg. pose proof gsize_bounds. unfold MEMALLOC_SPLIT_SIZE. lia. Qed.

Ltac cfg_bounds :=
  pose proof gsize_bounds; pose proof split_bounds; pose proof (co_hdr Hcfg); pose proof (co_w Hcfg).

Lemma tiled_app st l1 l2 e :
  tiled st (l1 ++ l2) e ↔ tiled st l1 (hd e l2) ∧ tiled st l2 e.
Proof.
  induction l1 as [|a l1 IH]; simpl; [tauto|].
  rewrite IH. destruct l1; simpl; tauto.
Qed.

Lemma tiled_le st l e : tiled st l e → hd e l ≤ e.
Proof using Hcfg.
  cfg_bounds. induction l as [|a l IH]; simpl; [lia|]. intros [Hb Ht].
  pose proof (bo_size _ _ _ Hb). specialize (IH Ht). lia.
Qed.

Lemma tiled_bounds st l e x : tiled st l e → x ∈ l → hd e l ≤ x ∧ x + HS + G * 2 ≤ e.
Proof using Hcfg.
  cfg_bounds. induction l as [|a l IH]; simpl; [by intros _ ?%elem_of_nil|].
  intros [Hb Ht] Hx. pose proof (bo_size _ _ _ Hb). pose proof (tiled_le _ _ _ Ht).
  apply elem_of_cons in Hx as [->|Hx]; [lia|]. specialize (IH Ht Hx). lia.
Qed.

Lemma tiled_NoDup st l e : tiled st l e → NoDup (l ++ [e]).
Proof using Hcfg.
  cfg_bounds. induction l as [|a l IH]; simpl; [intros _; apply NoDup_singleton|].
  intros [Hb Ht]. constructor; [|by apply IH]. pose proof (bo_size _ _ _ Hb).
  pose proof (tiled_le _ _ _ Ht). rewrite elem_of_app, list_elem_of_singleton.
  intros [Ha| ->]; [|lia]. pose proof (tiled_bounds _ _ _ _ Ht Ha). lia.
Qed.

Lemma tiled_tag st l e x :
  tiled st l e → x ∈ l → tags st !! x = Some HLinks ∨ tags st !! x = Some HAlloc.
Proof.
  induction l as [|a l IH]; simpl; [by intros _ ?%elem_of_nil|].
  intros [Hb Ht] [->|Hx]%elem_of_cons; [apply Hb|auto].
Qed.

(** A tiling only depends on the headers of its blocks, the bytes between its
    ends, and on the header at its end not becoming free after a free block. *)
Lemma tiled_frame st st' l e :
  tiled st l e →
  (∀ x, x ∈ l → tags st' !! x = tags st !! x) →
  (tags st' !! e = Some HLinks →
     tags st !! e = Some HLinks ∨ ∀ p, last l = Some p → tags st !! p ≠ Some HLinks) →
  (∀ x, hd e l ≤ x < e → bytes st' x = bytes st x) →
  tiled st' l e.
Proof using Hcfg.
  cfg_bounds. induction l as [|a l IH]; [done|]. cbn [tiled hd]. intros [Hb Ht] Htg He Hby.
  pose proof (bo_size _ _ _ Hb) as Hs. pose proof (tiled_le _ _ _ Ht) as Hle. split.
  - destruct Hb as [_ Htag Hh Htl Hf].
    constructor; [done|by rewrite Htg by set_solver| | |].
    + intros x Hx. rewrite Hby by lia. apply Hh; lia.
    + intros x Hx. rewrite Hby by lia. apply Htl; lia.
    + rewrite Htg by set_solver. intros Hfa. destruct (Hf Hfa) as [Hn Hsc]. split.
      * destruct l as [|b l]; simpl in *; [|rewrite Htg by set_solver; done].
        intros Hx. destruct (He Hx) as [?|Hl]; [done|]. by apply (Hl a).
      * intros Hc x Hx. rewrite Hby by lia. apply Hsc; [done|lia].
  - apply IH; [done|intros; apply Htg; set_solver| |intros; apply Hby; lia].
    intros Hx. destruct (He Hx) as [?|Hl]; [by left|right]. intros p Hp. apply Hl.
    rewrite last_cons. by rewrite Hp.
Qed.

(** *** Access to a block *)

(** The header [a] of a block in use or free, and the header [b] after it. *)
Record at_block (st : mem_state) (a b : Z) : Prop := {
  ab_list : ∃ l1 l2, bl st = l1 ++ a :: b :: l2 ∧ a ∉ l1;
  ab_tag : ∃ t, tags st !! a = Some t ∧ t ≠ HEnd;
  ab_size : a + HS + G * 2 ≤ b;
  ab_range : 0 < a ∧ b < 2 ^ W;
}.

Lemma clist_next_spec l1 a l2 : a ∉ l1 → clist_next (l1 ++ a :: l2) a = Ok (head l2).
Proof.
  induction l1 as [|x l1 IH]; simpl; intros Ha; [by rewrite Z.eqb_refl|].
  apply not_elem_of_cons in Ha as [Hx Ha].
  destruct (Z.eqb_spec x a); [congruence|]. by apply IH.
Qed.

Lemma clist_prev_spec o l1 a l2 :
  a ∉ l1 → clist_prev o (l1 ++ a :: l2) a = Ok (match last l1 with Some p => Some p | None => o end).
Proof.
  revert o; induction l1 as [|x l1 IH]; intros o Ha; cbn [clist_prev app]; [by rewrite Z.eqb_refl|].
  apply not_elem_of_cons in Ha as [Hx Ha].
  destruct (Z.eqb_spec x a); [congruence|]. rewrite IH, last_cons by done. by destruct (last l1).
Qed.

Lemma clist_insert_post_spec l1 a l2 x :
  a ∉ l1 → clist_insert_post (l1 ++ a :: l2) a x = l1 ++ a :: x :: l2.
Proof.
  induction l1 as [|y l1 IH]; simpl; intros Ha; [by rewrite Z.eqb_refl|].
  apply not_elem_of_cons in Ha as [Hx Ha].
  destruct (Z.eqb_spec y a); [congruence|]. by rewrite IH.
Qed.

Lemma clist_remove_spec l1 a l2 :
  a ∉ l1 → a ∉ l2 → clist_remove (l1 ++ a :: l2) a = l1 ++ l2.
Proof.
  intros H1 H2. unfold clist_remove. rewrite filter_app, filter_cons_False by naive_solver.
  rewrite !list_filter_all; [done|..]; rewrite Forall_forall; by intros ? ? ->.
Qed.

Lemma get_size_spec st a b : at_block st a b → header_get_size cfg st a = Ok (b - a).
Proof using Hcfg.
  cfg_bounds. intros [(l1 & l2 & E & Ha) (t & Ht & Hne) Hs Hr].
  unfold header_get_size, header_is_endblock, header_tag. rewrite Ht. simpl.
  rewrite bool_decide_false by done. simpl. rewrite E, clist_next_spec by done. simpl.
  rewrite wrapu_small by lia. done.
Qed.

Lemma in_a_block_spec st a b s n :
  at_block st a b → a + HS ≤ s → s + n ≤ b → in_a_block cfg (tags st) (bl st) s n = true.
Proof.
  intros [(l1 & l2 & E & Ha) (t & Ht & Hne) _ _] H1 H2. rewrite E. clear E Ha.
  induction l1 as [|x l1 IH].
  - simpl. rewrite Ht, bool_decide_true by naive_solver. simpl.
    replace (a + HS <=? s) with true by lia. by replace (s + n <=? b) with true by lia.
  - destruct l1 as [|y l1]; simpl in *; [|by rewrite IH, orb_true_r].
    rewrite IH. apply orb_true_r.
Qed.

(** ** Memory accesses *)

(** [st'] differs from [st] only by bytes in [lo, hi) and by statistics. *)
Record touches (st st' : mem_state) (lo hi : Z) : Prop := {
  to_blocks : bl st' = bl st;
  to_free : fl st' = fl st;
  to_tags : tags st' = tags st;
  to_bytes : ∀ x, ¬ (lo ≤ x < hi) → bytes st' x = bytes st x;
}.

Lemma touches_refl st lo hi : touches st st lo hi.
Proof. done. Qed.

Lemma touches_trans st1 st2 st3 lo hi :
  touches st1 st2 lo hi → touches st2 st3 lo hi → touches st1 st3 lo hi.
Proof.
  intros [] []. constructor; try congruence. intros x Hx. rewrite to_bytes1, to_bytes0; done.
Qed.

Lemma touches_weaken st st' lo hi lo' hi' :
  touches st st' lo hi → lo' ≤ lo → hi ≤ hi' → touches st st' lo' hi'.
Proof. intros [] ? ?. constructor; [done..|]. intros x Hx. apply to_bytes0. lia. Qed.

Lemma touches_stats st s f a lo hi : touches st (update_region_stats cfg s f a st) lo hi.
Proof. unfold update_region_stats. by destruct (stats cfg). Qed.

Lemma at_block_touches st st' lo hi a b : touches st st' lo hi → at_block st a b → at_block st' a b.
Proof. intros [Eb _ Et _] []. constructor; rewrite ?Eb, ?Et; done. Qed.

Lemma region_memset_spec st a b s n v :
  at_block st a b → a + HS ≤ s → s + n ≤ b → 0 ≤ n →
  ∃ st', memset cfg s v n st = Ok st' ∧ touches st st' s (s + n) ∧ filled st' s (s + n) v.
Proof.
  intros Hab H1 H2 Hn. unfold memset. destruct (Z.eqb_spec n 0) as [->|].
  - exists st. split; [done|]. split; [apply touches_refl|]. intros x Hx; lia.
  - rewrite (in_a_block_spec st a b) by done. simpl. eexists. split; [done|]. split.
    + constructor; [done..|]. simpl. intros x Hx.
      destruct (Z.leb_spec s x), (Z.ltb_spec x (s + n)); simpl; try done. lia.
    + intros x Hx. simpl. destruct (Z.leb_spec s x), (Z.ltb_spec x (s + n)); simpl; try done; lia.
Qed.

Lemma memcstcmp_spec st a b s n v :
  at_block st a b → a + HS ≤ s → s + n ≤ b → filled st s (s + n) v →
  memcstcmp cfg s v n st = Ok 0.
Proof.
  intros Hab H1 H2 Hf. unfold memcstcmp. destruct (Z.eqb_spec n 0); [done|].
  rewrite (in_a_block_spec st a b) by done. simpl.
  replace (forallb _ _) with true; [done|]. symmetry. apply forallb_forall.
  intros x Hx%list_elem_of_In%elem_of_seqZ. apply Z.eqb_eq. by apply Hf.
Qed.

Lemma guard_set_spec st a b n size :
  at_block st a b → a + size = n → a + HS + G * 2 ≤ n → n ≤ b →
  ∃ st', memory_allocator_guard_set cfg size a st = Ok st' ∧ touches st st' (a + HS) n ∧
    filled st' (a + HS) (a + HS + G) 0x55 ∧ filled st' (n - G) n 0xaa ∧
    ∀ x, a + HS + G ≤ x < n - G → bytes st' x = bytes st x.
Proof using Hcfg.
  cfg_bounds. intros Hab Hsz Hs Hnb.
  unfold memory_allocator_guard_set. destruct (guard cfg) eqn:Eg.
  2: { assert (G = 0) as E0 by (unfold gsize; by rewrite Eg). rewrite E0.
       exists st. split_and!; [done|apply touches_refl| | |done]; intros x Hx; lia. }
  assert (GUARD_SIZE cfg = G) as -> by (unfold gsize; by rewrite Eg).
  destruct (region_memset_spec st a b (a + HS) G 0x55) as (st1 & -> & T1 & F1); [done|lia..|].
  cbn [mbind outcome_bind].
  destruct (region_memset_spec st1 a b (a + size - G) G 0xaa) as (st2 & -> & T2 & F2);
    [by eapply at_block_touches|lia..|].
  exists st2. split; [done|]. split_and!.
  - eapply touches_trans; [eapply touches_weaken; [exact T1|lia..]|eapply touches_weaken; [exact T2|lia..]].
  - intros x Hx. rewrite (to_bytes _ _ _ _ T2) by lia. apply F1. lia.
  - intros x Hx. apply F2. lia.
  - intros x Hx. rewrite (to_bytes _ _ _ _ T2), (to_bytes _ _ _ _ T1) by lia. done.
Qed.

Lemma guard_check_spec st a b :
  at_block st a b → filled st (a + HS) (a + HS + G) 0x55 → filled st (b - G) b 0xaa →
  memory_allocator_guard_check cfg (b - a) a st = Ok tt.
Proof using Hcfg.
  cfg_bounds. intros Hab Hh Ht. pose proof (ab_size _ _ _ Hab) as Hs.
  unfold memory_allocator_guard_check. destruct (guard cfg) eqn:Eg; [|done].
  assert (GUARD_SIZE cfg = G) as -> by (unfold gsize; by rewrite Eg).
  rewrite (memcstcmp_spec st a b (a + HS) G 0x55) by (done || lia). simpl.
  rewrite (memcstcmp_spec st a b); [done|done|lia|lia|].
  intros x Hx. apply Ht. lia.
Qed.

Lemma real2alloc_small size : HS + G * 2 ≤ size < 2 ^ W → size_real2alloc cfg size = size - G * 2 - HS.
Proof using Hcfg. cfg_bounds. intros. unfold size_real2alloc. apply wrapu_small. lia. Qed.

Lemma scramble_set_spec st a b size :
  at_block st a b → HS + G * 2 ≤ size → a + size ≤ b →
  ∃ st', memory_allocator_scramble_set cfg size a st = Ok st' ∧
    touches st st' (a + HS + G) (a + size - G) ∧
    (scramble cfg = true → tags st !! a = Some HLinks →
     filled st' (a + HS + G) (a + size - G) 0xa5).
Proof using Hcfg.
  cfg_bounds. intros Hab Hsz Hb. unfold memory_allocator_scramble_set.
  destruct (scramble cfg); [|exists st; split_and!; done].
  unfold header_is_alloc, header_tag. pose proof (ab_tag _ _ _ Hab) as (t & Ht & _). rewrite Ht.
  simpl. pose proof (ab_range _ _ _ Hab). rewrite real2alloc_small by lia.
  destruct (region_memset_spec st a b (hdr2mem cfg a) (size - G * 2 - HS)
    (if negb (bool_decide (t ≠ HLinks)) then 0xa5 else 0x5a)) as (st1 & -> & T1 & F1);
    [done|unfold hdr2mem; lia..|].
  unfold hdr2mem in *. exists st1. split; [done|]. split; [eapply touches_weaken; [exact T1|lia..]|].
  intros _ [= ->] x Hx. rewrite F1 by lia. done.
Qed.

Lemma scramble_check_spec st a b :
  at_block st a b →
  (scramble cfg = true → tags st !! a = Some HLinks → filled st (a + HS + G) (b - G) 0xa5) →
  memory_allocator_scramble_check cfg (b - a) a st = Ok tt.
Proof using Hcfg.
  cfg_bounds. intros Hab Hf. unfold memory_allocator_scramble_check.
  destruct (scramble cfg); [|done].
  unfold header_is_alloc, header_tag. pose proof (ab_tag _ _ _ Hab) as (t & Ht & _). rewrite Ht. simpl.
  case_bool_decide as Hd; [done|]. simpl. pose proof (ab_size _ _ _ Hab). pose proof (ab_range _ _ _ Hab).
  rewrite real2alloc_small by lia. unfold hdr2mem.
  rewrite (memcstcmp_spec st a b); [done|done|lia|lia|].
  intros x Hx. apply Hf; [done| |lia]. rewrite Ht. f_equal. destruct (decide (t = HLinks)); tauto.
Qed.

(** ** Blocks of a region *)

Lemma inv_block st l1 a l2 e :
  mem_inv st (l1 ++ a :: l2) e →
  at_block st a (hd e l2) ∧ block_ok st a (hd e l2) ∧
  tiled st l1 a ∧ tiled st l2 e ∧ a ∉ l1 ++ l2 ++ [e].
Proof using Hcfg.
  cfg_bounds. intros [Eb He Ht Hlo Hhi _ _].
  pose proof (tiled_NoDup _ _ _ Ht) as Hn.
  pose proof (tiled_bounds _ _ _ a Ht ltac:(set_solver)) as Hab.
  apply tiled_app in Ht as [Ht1 [Hb Ht2]].
  pose proof (tiled_le _ _ _ Ht2) as Hle.
  assert (a ∉ l1 ++ l2 ++ [e]) as Hna.
  { rewrite <-app_assoc in Hn. simpl in Hn. apply NoDup_app in Hn as (_ & Hd & Hn).
    apply NoDup_cons in Hn as [Hn _]. rewrite elem_of_app. intros [Ha|Ha]; [|done].
    apply (Hd a Ha). set_solver. }
  split_and!; try done. constructor.
  - exists l1. rewrite Eb, <-app_assoc. simpl.
    destruct l2 as [|b l2]; simpl; eexists; (split; [done|]); set_solver.
  - destruct (bo_tag _ _ _ Hb) as [-> | ->]; by eexists.
  - apply Hb.
  - lia.
Qed.

(** *** Replacing the blocks between two headers *)

(** The header that follows the block [q]. *)
Fixpoint next_of (l : list Z) (e q : Z) : option Z :=
  match l with
  | [] => None
  | a :: l' => if decide (a = q) then Some (hd e l') else next_of l' e q
  end.

Lemma next_of_skip m l e q : q ∉ m → next_of (m ++ l) e q = next_of l e q.
Proof.
  induction m as [|a m IH]; intros Hq; [done|]. cbn [next_of app].
  rewrite decide_False, IH; [done|set_solver..].
Qed.

Lemma next_of_splice l1 c m m' l2 e q :
  q ∉ c :: m → q ∉ c :: m' →
  next_of (l1 ++ c :: m ++ l2) e q = next_of (l1 ++ c :: m' ++ l2) e q.
Proof.
  intros H1 H2. induction l1 as [|a l1 IH]; cbn [app next_of].
  - rewrite !decide_False by set_solver. rewrite !next_of_skip by set_solver. done.
  - case_decide; [|apply IH]. by destruct l1.
Qed.

Lemma next_of_split l e q b :
  next_of l e q = Some b → ∃ l1 l2, l = l1 ++ q :: l2 ∧ b = hd e l2.
Proof.
  induction l as [|a l IH]; cbn [next_of]; [done|]. case_decide as Ha.
  - intros [= <-]. subst. by exists [], l.
  - intros (l1 & l2 & -> & ->)%IH. by exists (a :: l1), l2.
Qed.

Lemma next_of_here l1 q l2 e : q ∉ l1 → next_of (l1 ++ q :: l2) e q = Some (hd e l2).
Proof. intros Hq. rewrite next_of_skip by done. cbn [next_of]. by rewrite decide_True. Qed.

Lemma inv_next st l e q b :
  mem_inv st l e → next_of l e q = Some b → at_block st q b ∧ block_ok st q b.
Proof using Hcfg.
  intros Hi (l1 & l2 & -> & ->)%next_of_split. destruct (inv_block _ _ _ _ _ Hi) as (? & ? & _). done.
Qed.

Lemma inv_next_elem st l e q : mem_inv st l e → q ∈ l → ∃ b, next_of l e q = Some b.
Proof using Hcfg.
  intros Hi (l1 & l2 & ->)%list_elem_of_split. destruct (inv_block _ _ _ _ _ Hi) as (_ & _ & _ & _ & Hn).
  eexists. apply next_of_here. set_solver.
Qed.

Lemma splice_inv st st' l1 c m m' l2 e :
  mem_inv st (l1 ++ c :: m ++ l2) e →
  bl st' = (l1 ++ c :: m' ++ l2) ++ [e] →
  (∀ x, x ∈ l1 ++ l2 ++ [e] → tags st' !! x = tags st !! x) →
  (∀ x, ¬ (c + HS ≤ x < hd e l2) → bytes st' x = bytes st x) →
  (tags st' !! c = Some HLinks →
     tags st !! c = Some HLinks ∨ ∀ p, last l1 = Some p → tags st !! p ≠ Some HLinks) →
  tiled st' (c :: m') (hd e l2) →
  NoDup (fl st') →
  (∀ x, x ∈ fl st' ↔ (x ∈ fl st ∧ x ∉ c :: m) ∨ (x ∈ c :: m' ∧ tags st' !! x = Some HLinks)) →
  mem_inv st' (l1 ++ c :: m' ++ l2) e.
Proof using Hcfg.
  cfg_bounds. intros [Eb He Ht Hlo Hhi _ Hfr] Eb' Htg Hby Hc Hmid Hnd Hfr'.
  pose proof (tiled_NoDup _ _ _ Ht) as Hn.
  apply tiled_app in Ht as [Ht1 Ht2]. cbn [hd] in Ht1.
  change (c :: m ++ l2) with ((c :: m) ++ l2) in Ht2, Hn, Hfr.
  apply tiled_app in Ht2 as [Htm Ht2].
  pose proof (tiled_le _ _ _ Htm) as Hcl. cbn [hd] in Hcl.
  pose proof (tiled_le _ _ _ Ht2) as Hle.
  assert (∀ x, x ∈ l1 → x < c) as Hl1.
  { intros x Hx. pose proof (tiled_bounds _ _ _ _ Ht1 Hx). lia. }
  assert (∀ x, x ∈ l2 → hd e l2 ≤ x) as Hl2.
  { intros x Hx. pose proof (tiled_bounds _ _ _ _ Ht2 Hx). lia. }
  assert (∀ x, x ∈ c :: m' → c ≤ x < hd e l2) as Hm'.
  { intros x Hx. pose proof (tiled_bounds _ _ _ _ Hmid Hx) as Hb. simpl in Hb. lia. }
  constructor.
  - done.
  - rewrite Htg by set_solver. done.
  - apply tiled_app. cbn [hd]. split.
    + apply (tiled_frame st); [done|intros; apply Htg; set_solver|done|].
      intros x Hx. apply Hby. lia.
    + change (c :: m' ++ l2) with ((c :: m') ++ l2). apply tiled_app. split; [done|].
      apply (tiled_frame st); [done|intros; apply Htg; set_solver| |].
      * intros Hx. left. rewrite <-Htg by set_solver. done.
      * intros x Hx. apply Hby. lia.
  - by destruct l1.
  - done.
  - done.
  - intros x. rewrite Hfr', Hfr, !elem_of_app.
    destruct (decide (x ∈ l1 ∨ x ∈ l2)) as [Hx|Hx].
    + rewrite Htg by set_solver. destruct Hx as [Hx|Hx].
      * pose proof (Hl1 x Hx).
        assert (x ∉ c :: m') by (intros ?%Hm'; lia).
        assert (x ∉ c :: m). { intros Hy. pose proof (tiled_bounds _ _ _ _ Htm Hy) as Hb. simpl in Hb. lia. }
        set_solver.
      * pose proof (Hl2 x Hx).
        assert (x ∉ c :: m') by (intros ?%Hm'; lia).
        assert (x ∉ c :: m). { intros Hy. pose proof (tiled_bounds _ _ _ _ Htm Hy) as Hb. simpl in Hb. lia. }
        set_solver.
    + set_solver.
Qed.

(** ** Search of a free block *)

(** A request that does not overflow the size computation. *)
Definition req_ok (n : Z) : Prop := 0 ≤ n ∧ HS + G * 2 + n + ALIGN cfg ≤ 2 ^ W.

Lemma alloc2real_spec n :
  req_ok n → HS + G * 2 + n ≤ size_alloc2real cfg n < 2 ^ W.
Proof using Hcfg.
  cfg_bounds. intros [Hn Hb]. destruct (co_align Hcfg) as (k & Hk & Ea).
  pose proof (pow2_pos k ltac:(lia)).
  unfold size_alloc2real. rewrite Ea in *.
  destruct (align_value_bounds W k n) as [Hlo Hhi]; [lia|lia|].
  rewrite wrapu_small by lia. lia.
Qed.

(** The result of a search among [items]. *)
Definition fit_spec (st : mem_state) (size : Z) (items : list Z) (o : option Z) : Prop :=
  match o with
  | Some a => a ∈ items ∧ ∃ b, at_block st a b ∧ size ≤ b - a
  | None => ∀ x b, x ∈ items → at_block st x b → b - x < size
  end.

Lemma first_fit_spec st size items :
  (∀ x, x ∈ items → ∃ b, at_block st x b) →
  ∃ o, first_fit cfg st size items = Ok o ∧ fit_spec st size items o.
Proof using Hcfg.
  induction items as [|x items IH]; intros Hs; cbn [first_fit].
  { exists None. split; [done|]. by intros ? ? ?%elem_of_nil. }
  destruct (Hs x) as [b Hb]; [set_solver|]. rewrite (get_size_spec _ _ _ Hb). cbn [mbind outcome_bind].
  destruct (Z.leb_spec size (b - x)).
  - exists (Some x). split; [done|]. split; [set_solver|eauto].
  - destruct IH as (o & -> & Ho); [set_solver|]. exists o. split; [done|].
    destruct o as [a|]; [destruct Ho as [? ?]; split; [set_solver|done]|].
    intros y b' [->|Hy]%elem_of_cons Hb'; [|by apply Ho].
    pose proof (get_size_spec _ _ _ Hb) as E1. rewrite (get_size_spec _ _ _ Hb') in E1. simplify_eq. lia.
Qed.

Lemma best_fit_spec st size items best :
  (∀ x, x ∈ items → ∃ b, at_block st x b) →
  (∀ a s, best = Some (a, s) → ∃ b, at_block st a b ∧ size ≤ b - a) →
  ∃ o, best_fit cfg st size best items = Ok o ∧
    match o with
    | Some a => (a ∈ items ∨ ∃ s, best = Some (a, s)) ∧ ∃ b, at_block st a b ∧ size ≤ b - a
    | None => best = None ∧ ∀ x b, x ∈ items → at_block st x b → b - x < size
    end.
Proof using Hcfg.
  revert best; induction items as [|x items IH]; intros best Hs Hbest; cbn [best_fit].
  { exists (fst <$> best). split; [done|]. destruct best as [[a s]|]; simpl.
    - split; [eauto|]. by eapply Hbest.
    - split; [done|]. by intros ? ? ?%elem_of_nil. }
  destruct (Hs x) as [b Hb]; [set_solver|]. rewrite (get_size_spec _ _ _ Hb). cbn [mbind outcome_bind].
  match goal with |- context [if ?c then _ else _] => destruct c eqn:Ec end.
  - apply andb_prop in Ec as [Ec _]. destruct (IH (Some (x, b - x))) as (o & -> & Ho).
    { set_solver. } { intros a s [= <- <-]. exists b. split; [done|]. lia. }
    exists o. split; [done|]. destruct o as [a|]; [|by destruct Ho].
    destruct Ho as [Ho Hsz]. split; [|done]. left. destruct Ho as [?|[s [= <- _]]]; set_solver.
  - destruct (IH best) as (o & -> & Ho); [set_solver|done|]. exists o. split; [done|].
    destruct o as [a|]; [destruct Ho as [[?|?] ?]; split; [left; set_solver|done|by right|done]|].
    destruct Ho as [-> Ho]. split; [done|]. intros y b' [->|Hy]%elem_of_cons Hb'; [|by eapply Ho].
    pose proof (get_size_spec _ _ _ Hb) as E1. rewrite (get_size_spec _ _ _ Hb') in E1. simplify_eq.
    rewrite andb_true_r in Ec. lia.
Qed.

Lemma candidate_spec st l e size :
  mem_inv st l e →
  ∃ o, memory_allocator_candidate cfg st size = Ok o ∧ fit_spec st size (fl st) o.
Proof using Hcfg.
  intros Hi. assert (∀ x, x ∈ fl st → ∃ b, at_block st x b) as Hs.
  { intros x Hx. apply (mi_free _ _ _ Hi) in Hx as [Hx _].
    destruct (inv_next_elem _ _ _ _ Hi Hx) as [b Hb]. exists b. by eapply inv_next. }
  unfold memory_allocator_candidate. destruct (bestfit cfg); [|by apply first_fit_spec].
  destruct (best_fit_spec st size (fl st) None Hs) as (o & E & Ho); [done|].
  exists o. split; [done|]. destruct o as [a|]; [|by destruct Ho].
  destruct Ho as [[?|[? ?]] ?]; [by split|done].
Qed.

(** ** Allocation *)

(** Between [st] and [st'], the blocks in use other than [a] keep their extent
    and contents, and no other block becomes used. *)
Record frame_allocs (st : mem_state) (l : list Z) (st' : mem_state) (l' : list Z) (e a : Z) : Prop := {
  fa_keep : ∀ q, q ≠ a → q ∈ l → tags st !! q = Some HAlloc →
    q ∈ l' ∧ tags st' !! q = Some HAlloc ∧ next_of l' e q = next_of l e q ∧
    ∀ b x, next_of l e q = Some b → q + HS ≤ x < b → bytes st' x = bytes st x;
  fa_new : ∀ q, q ≠ a → q ∈ l' → tags st' !! q = Some HAlloc → q ∈ l ∧ tags st !! q = Some HAlloc;
}.

Lemma splice_frame st st' l1 c m m' l2 e a :
  mem_inv st (l1 ++ c :: m ++ l2) e → mem_inv st' (l1 ++ c :: m' ++ l2) e →
  (∀ x, x ∈ l1 ++ l2 → tags st' !! x = tags st !! x) →
  (∀ x, ¬ (c + HS ≤ x < hd e l2) → bytes st' x = bytes st x) →
  (∀ q, q ∈ c :: m → tags st !! q = Some HAlloc → q = a) →
  (∀ q, q ∈ c :: m' → tags st' !! q = Some HAlloc → q = a) →
  frame_allocs st (l1 ++ c :: m ++ l2) st' (l1 ++ c :: m' ++ l2) e a.
Proof using Hcfg.
  cfg_bounds. intros Hi Hi' Htg Hby Hm Hm'.
  pose proof (tiled_NoDup _ _ _ (mi_tiled _ _ _ Hi)) as Hn.
  pose proof (tiled_NoDup _ _ _ (mi_tiled _ _ _ Hi')) as Hn'.
  assert (∀ q, q ∈ l1 ++ l2 → (q ∉ c :: m) ∧ q ∉ c :: m') as Hdis.
  { intros q. change (c :: m ++ l2) with ((c :: m) ++ l2) in Hn.
    change (c :: m' ++ l2) with ((c :: m') ++ l2) in Hn'.
    rewrite <-!app_assoc in Hn, Hn'. rewrite elem_of_app. rewrite !NoDup_app in Hn, Hn'.
    set_solver. }
  constructor.
  - intros q Hqa Hq Ha.
    assert (q ∈ l1 ++ l2) as Hq12 by (specialize (Hm q); set_solver).
    destruct (Hdis q Hq12). split_and!; [set_solver|by rewrite Htg| |].
    + symmetry. by apply next_of_splice.
    + intros b x Hb Hx. apply Hby.
      destruct (inv_next _ _ _ _ _ Hi Hb) as [_ Hbo]. pose proof (bo_size _ _ _ Hbo).
      apply elem_of_app in Hq12 as [Hq1|Hq2].
      * apply list_elem_of_split in Hq1 as (y1 & y2 & ->).
        pose proof (mi_tiled _ _ _ Hi) as Ht. rewrite <-app_assoc in Ht, Hb. simpl in Ht, Hb.
        assert (q ∉ y1) as Hqy.
        { rewrite <-!app_assoc in Hn. simpl in Hn. rewrite !NoDup_app in Hn. set_solver. }
        rewrite next_of_here in Hb by done. apply tiled_app in Ht as [_ [_ Ht]].
        apply tiled_app in Ht as [Ht _]. pose proof (tiled_le _ _ _ Ht) as Hle. cbn [hd] in Hle.
        destruct y2; simplify_eq/=; lia.
      * pose proof (mi_tiled _ _ _ Hi) as Ht. change (c :: m ++ l2) with ((c :: m) ++ l2) in Ht.
        rewrite !tiled_app in Ht. destruct Ht as [_ [_ Ht]].
        pose proof (tiled_bounds _ _ _ _ Ht Hq2). lia.
  - intros q Hqa Hq Ha. assert (q ∈ l1 ++ l2) as Hq12 by (specialize (Hm' q); set_solver).
    rewrite <-Htg by done. split; [set_solver|done].
Qed.

Lemma at_block_intro st x1 a b x2 t :
  bl st = x1 ++ a :: b :: x2 → a ∉ x1 → tags st !! a = Some t → t ≠ HEnd →
  a + HS + G * 2 ≤ b → 0 < a → b < 2 ^ W → at_block st a b.
Proof. intros. constructor; eauto. Qed.

Lemma block_list_tail (l2 : list Z) e : ∃ x2, l2 ++ [e] = hd e l2 :: x2.
Proof. destruct l2; simpl; eauto. Qed.

Lemma free_remove_elem st l e a x :
  mem_inv st l e → x ∈ clist_remove (fl st) a ↔ x ∈ fl st ∧ (x ∉ [a]).
Proof. intros _. unfold clist_remove. rewrite list_elem_of_filter. set_solver. Qed.

(** The block is handed out as it is. *)
Lemma alloc_whole st l1 a l2 e sz f n :
  mem_inv st (l1 ++ a :: l2) e → tags st !! a = Some HLinks →
  HS + G * 2 ≤ sz → a + sz ≤ hd e l2 →
  ∃ st', memory_allocator_scramble_set cfg sz a
           (update_region_stats cfg 0 f n (header_set_alloc a (free_list_remove a st))) = Ok st' ∧
    mem_inv st' (l1 ++ a :: l2) e ∧ tags st' !! a = Some HAlloc ∧
    frame_allocs st (l1 ++ a :: l2) st' (l1 ++ a :: l2) e a.
Proof using Hcfg.
  cfg_bounds. intros Hi Ha Hsz Hb. destruct (inv_block _ _ _ _ _ Hi) as (Hab & Hbo & Ht1 & Ht2 & Hna).
  set (st1 := header_set_alloc a (free_list_remove a st)).
  set (st2 := update_region_stats cfg 0 f n st1).
  assert (touches st1 st2 (a + HS) (hd e l2)) as T2 by apply touches_stats.
  assert (at_block st2 a (hd e l2)) as Hab2.
  { eapply at_block_touches; [exact T2|]. destruct Hab as [Hl _ ? ?].
    constructor; [done| |done|done]. exists HAlloc. split; [apply lookup_insert_eq|done]. }
  destruct (scramble_set_spec st2 a _ sz Hab2 Hsz Hb) as (st3 & E3 & T3 & _).
  assert (touches st1 st3 (a + HS + G) (a + sz - G)) as T.
  { eapply touches_trans; [eapply touches_stats|exact T3]. }
  exists st3. split; [done|]. clear T2 T3 E3 Hab2.
  assert (tags st3 !! a = Some HAlloc) as Ha3.
  { rewrite (to_tags _ _ _ _ T). apply lookup_insert_eq. }
  assert (∀ x, x ≠ a → tags st3 !! x = tags st !! x) as Htg.
  { intros x Hx. rewrite (to_tags _ _ _ _ T). by apply lookup_insert_ne. }
  assert (∀ x, ¬ (a + HS + G ≤ x < a + sz - G) → bytes st3 x = bytes st x) as Hby
    by exact (to_bytes _ _ _ _ T).
  assert (mem_inv st3 (l1 ++ a :: [] ++ l2) e) as Hi3.
  { apply (splice_inv st st3 l1 a [] [] l2 e).
    - done.
    - rewrite (to_blocks _ _ _ _ T). apply (mi_blocks _ _ _ Hi).
    - intros x Hx. apply Htg. set_solver.
    - intros x Hx. apply Hby. lia.
    - congruence.
    - cbn [tiled hd]. split; [|done]. destruct Hbo as [Hs Htag Hh Htl Hf].
      constructor; [done|by right| | |congruence].
      + intros x Hx. rewrite Hby by lia. apply Hh; lia.
      + intros x Hx. rewrite Hby by lia. apply Htl; lia.
    - rewrite (to_free _ _ _ _ T). apply NoDup_filter, Hi.
    - intros x. rewrite (to_free _ _ _ _ T). simpl.
      change (fl st1) with (clist_remove (fl st) a). rewrite (free_remove_elem _ _ _ _ _ Hi).
      set_solver. }
  split; [done|]. split; [done|].
  apply (splice_frame st st3 l1 a [] [] l2 e a); [done|done| | | |].
  - intros x Hx. apply Htg. set_solver.
  - intros x Hx. apply Hby. lia.
  - intros q ->%list_elem_of_singleton. done.
  - intros q ->%list_elem_of_singleton. done.
Qed.

(** What cutting a free block [n] off the end of the block [a] leaves: [m] are the
    blocks that were between [a] and [b]. *)
Record carved (st st' : mem_state) (l1 : list Z) (a n : Z) (l2 : list Z) (e : Z) (fr : list Z) : Prop := {
  ca_blocks : bl st' = (l1 ++ a :: [n] ++ l2) ++ [e];
  ca_free : fl st' = n :: fr;
  ca_alloc : tags st' !! a = Some HAlloc;
  ca_tag : tags st' !! n = Some HLinks;
  ca_tags : ∀ x, x ≠ a → x ≠ n → tags st' !! x = tags st !! x;
  ca_bytes : ∀ x, ¬ (a + HS ≤ x < hd e l2) → bytes st' x = bytes st x;
  ca_head : filled st' (a + HS) (a + HS + G) 0x55;
  ca_tail : filled st' (n - G) n 0xaa;
  ca_next_head : filled st' (n + HS) (n + HS + G) 0x55;
  ca_next_tail : filled st' (hd e l2 - G) (hd e l2) 0xaa;
  ca_scramble : scramble cfg = true → filled st' (n + HS + G) (hd e l2 - G) 0xa5;
}.

Lemma carved_inv st st' l1 a m l2 e n fr :
  mem_inv st (l1 ++ a :: m ++ l2) e → carved st st' l1 a n l2 e fr →
  (∀ x, x ∈ fr ↔ x ∈ fl st ∧ x ∉ a :: m) → NoDup fr →
  a + HS + G * 2 ≤ n → n + HS + G * 2 ≤ hd e l2 →
  tags st !! hd e l2 ≠ Some HLinks →
  (∀ q, q ∈ a :: m → tags st !! q = Some HAlloc → q = a) →
  mem_inv st' (l1 ++ a :: [n] ++ l2) e ∧
  frame_allocs st (l1 ++ a :: m ++ l2) st' (l1 ++ a :: [n] ++ l2) e a.
Proof using Hcfg.
  cfg_bounds. intros Hi [Eb Ef Ha Hn Htg Hby Hh Ht Hnh Hnt Hsc] Hfr Hnd Han Hnb Hb Hm.
  pose proof (mi_tiled _ _ _ Hi) as Htl. change (a :: m ++ l2) with ((a :: m) ++ l2) in Htl.
  rewrite !tiled_app in Htl. destruct Htl as (Ht1 & Htm & Ht2). cbn [hd app] in Ht1.
  assert (∀ x, x ∈ l1 ++ l2 ++ [e] → x ≠ a ∧ x ≠ n) as Hne.
  { intros x. rewrite !elem_of_app, list_elem_of_singleton. pose proof (tiled_le _ _ _ Ht2).
    intros [Hx|[Hx| ->]]; [pose proof (tiled_bounds _ _ _ _ Ht1 Hx)|
      pose proof (tiled_bounds _ _ _ _ Ht2 Hx)|]; lia. }
  assert (hd e l2 ∈ l1 ++ l2 ++ [e]) as Hbin by (destruct l2; set_solver).
  assert (mem_inv st' (l1 ++ a :: [n] ++ l2) e) as Hi'.
  { apply (splice_inv st st' l1 a m [n] l2 e); [done|done| |done|congruence| | |].
    - intros x Hx. destruct (Hne x Hx). by apply Htg.
    - cbn [tiled hd]. split_and!; [| |done].
      + constructor; [done|by right|done|done|congruence].
      + constructor; [done|by left|done|done|]. intros _. split; [|done].
        destruct (Hne _ Hbin). by rewrite Htg.
    - rewrite Ef. constructor; [|done]. rewrite Hfr, (mi_free _ _ _ Hi). intros [[Hx _] Hx'].
      destruct (Hne n); [set_solver|done].
    - intros x. rewrite Ef, !elem_of_cons, Hfr, !elem_of_cons. 
      split; [intros [->|?]; [right; auto|tauto]|].
      intros [?|[[->|[->|?%elem_of_nil]] Hx]]; [by right|congruence|by left|done]. }
  split; [done|].
  apply (splice_frame st st' l1 a m [n] l2 e a); [done|done| |done|done|].
  - intros x Hx. destruct (Hne x); [set_solver|]. by apply Htg.
  - intros q. rewrite !elem_of_cons. intros [->|[->|?%elem_of_nil]]; [done|congruence|done].
Qed.

(** The state after the new header is linked. *)
Lemma carve_lists st l1 a l2 e n :
  bl st = l1 ++ a :: l2 ++ [e] → a ∉ l1 → n ∉ l1 → n ≠ a →
  (∃ t, tags st !! a = Some t ∧ t ≠ HEnd) →
  a + HS + G * 2 ≤ n → n + HS + G * 2 ≤ hd e l2 → 0 < a → hd e l2 < 2 ^ W →
  let st' := free_list_push n (block_list_insert_post a n st) in
  bl st' = l1 ++ a :: n :: l2 ++ [e] ∧ at_block st' a n ∧ at_block st' n (hd e l2).
Proof using Hcfg.
  cfg_bounds. intros Eb Ha Hn Hne (t & Ht & Het) Han Hnb Hap Hbw st'.
  assert (bl st' = l1 ++ a :: n :: l2 ++ [e]) as Eb'.
  { unfold st', free_list_push, block_list_insert_post. simpl. rewrite Eb.
    by rewrite clist_insert_post_spec. }
  destruct (block_list_tail l2 e) as [x2 Ex].
  split_and!; [done| |].
  - eapply at_block_intro; [done|done| |exact Het|done|done|lia].
    unfold st', free_list_push. simpl. by rewrite lookup_insert_ne.
  - eapply (at_block_intro _ (l1 ++ [a])); [rewrite Eb', <-app_assoc; simpl; by rewrite Ex|set_solver| | |done|lia|done].
    + apply lookup_insert_eq.
    + done.
Qed.

Lemma alloc_split st l1 a l2 e sz :
  mem_inv st (l1 ++ a :: l2) e → tags st !! a = Some HLinks →
  HS + G * 2 ≤ sz → a + sz + MEMALLOC_SPLIT_SIZE cfg ≤ hd e l2 →
  let n := a + sz in
  let st2 := free_list_push n (block_list_insert_post a n (header_set_alloc a (free_list_remove a st))) in
  ∃ st3 st4 st5 st6,
    header_get_size cfg st2 n = Ok (hd e l2 - n) ∧
    memory_allocator_scramble_set cfg (hd e l2 - n) n st2 = Ok st3 ∧
    memory_allocator_guard_set cfg (hd e l2 - n) n st3 = Ok st4 ∧
    memory_allocator_guard_set cfg sz a st4 = Ok st5 ∧
    memory_allocator_scramble_set cfg sz a
      (update_region_stats cfg 0 (-1) 1 (update_region_stats cfg 0 1 0 st5)) = Ok st6 ∧
    mem_inv st6 (l1 ++ a :: [n] ++ l2) e ∧ tags st6 !! a = Some HAlloc ∧
    frame_allocs st (l1 ++ a :: l2) st6 (l1 ++ a :: [n] ++ l2) e a.
Proof using Hcfg.
  cfg_bounds. intros Hi Ha Hsz Hb n st2. assert (n = a + sz) as En by done. clearbody n.
  destruct (inv_block _ _ _ _ _ Hi) as (Hab & Hbo & Ht1 & Ht2 & Hna).
  pose proof (ab_range _ _ _ Hab) as [Ha0 Hbw].
  assert (n ∉ l1) as Hn1.
  { intros Hx. pose proof (tiled_bounds _ _ _ _ Ht1 Hx). lia. }
  destruct (carve_lists (header_set_alloc a (free_list_remove a st)) l1 a l2 e n)
    as (Eb2 & Habn & Hnb).
  { change (bl st = l1 ++ a :: l2 ++ [e]). rewrite (mi_blocks _ _ _ Hi). by rewrite <-app_assoc. }
  { set_solver. } { done. } { lia. }
  { exists HAlloc. split; [apply lookup_insert_eq|done]. } { lia. } { lia. } { lia. } { lia. }
  fold st2 in Eb2, Habn, Hnb.
  destruct (scramble_set_spec st2 n _ (hd e l2 - n) Hnb) as (st3 & E3 & T3 & F3); [lia..|].
  destruct (guard_set_spec st3 n (hd e l2) (hd e l2) (hd e l2 - n)) as (st4 & E4 & T4 & F4h & F4t & F4m);
    [by eapply at_block_touches|lia..|].
  destruct (guard_set_spec st4 a n n sz) as (st5 & E5 & T5 & F5h & F5t & F5m);
    [eapply at_block_touches; [exact T4|]; by eapply at_block_touches|lia..|].
  set (st5' := update_region_stats cfg 0 (-1) 1 (update_region_stats cfg 0 1 0 st5)).
  assert (touches st5 st5' (a + HS) n) as T5'.
  { eapply touches_trans; apply touches_stats. }
  destruct (scramble_set_spec st5' a n sz) as (st6 & E6 & T6 & _); [|lia|lia|].
  { eapply at_block_touches; [exact T5'|]. eapply at_block_touches; [exact T5|].
    eapply at_block_touches; [exact T4|]. by eapply at_block_touches. }
  exists st3, st4, st5, st6. split; [by apply get_size_spec|]. do 4 (split; [done|]).
  destruct T3 as [B3 R3 G3 Y3], T4 as [B4 R4 G4 Y4], T5 as [B5 R5 G5 Y5], T6 as [B6 R6 G6 Y6].
  assert (tags st6 = tags st2) as Etg by (destruct T5'; congruence).
  assert (bytes st5' = bytes st5) as Eby by (unfold st5', update_region_stats; by destruct (stats cfg)).
  rewrite Eby in Y6.
  assert (carved st st6 l1 a n l2 e (clist_remove (fl st) a)) as Hcv.
  { constructor.
    - destruct T5'. rewrite B6, to_blocks0, B5, B4, B3, Eb2. by rewrite <-app_assoc.
    - destruct T5'. rewrite R6, to_free0, R5, R4, R3. done.
    - rewrite Etg. unfold st2. simpl. rewrite lookup_insert_ne by lia. apply lookup_insert_eq.
    - rewrite Etg. apply lookup_insert_eq.
    - intros x Hxa Hxn. rewrite Etg. unfold st2. simpl. by rewrite !lookup_insert_ne.
    - intros x Hx. rewrite Y6, Y5, Y4, Y3 by lia. done.
    - intros x Hx. rewrite Y6 by lia. apply F5h. lia.
    - intros x Hx. rewrite Y6 by lia. apply F5t. lia.
    - intros x Hx. rewrite Y6, Y5 by lia. apply F4h. lia.
    - intros x Hx. rewrite Y6, Y5 by lia. apply F4t. lia.
    - intros Hsc x Hx. rewrite Y6, Y5, F4m by lia. apply F3; [done|apply lookup_insert_eq|lia]. }
  destruct (carved_inv st st6 l1 a [] l2 e n (clist_remove (fl st) a)) as [Hi6 Hf6];
    [done|done|intros x; by apply (free_remove_elem _ _ _ _ _ Hi)|apply NoDup_filter, Hi
    |lia|lia| | |].
  - by apply Hbo.
  - intros q ->%list_elem_of_singleton. done.
  - split; [done|]. split; [apply Hcv|done].
Qed.

(** [memory_allocator_pop] either finds no block that fits, or hands out a free
    block of sufficient size. *)
Lemma pop_spec st l e size :
  mem_inv st l e → req_ok size →
  (memory_allocator_pop cfg size st = Ok (0, st) ∧
   ∀ x b, x ∈ l → tags st !! x = Some HLinks → next_of l e x = Some b →
     b - x < size_alloc2real cfg size) ∨
  (∃ a b st' l', memory_allocator_pop cfg size st = Ok (hdr2mem cfg a, st') ∧
     a ∈ l ∧ tags st !! a = Some HLinks ∧ mem_inv st' l' e ∧ hd e l' = hd e l ∧
     a ∈ l' ∧ tags st' !! a = Some HAlloc ∧ next_of l' e a = Some b ∧
     a + size_alloc2real cfg size ≤ b ∧ frame_allocs st l st' l' e a).
Proof using Hcfg.
  cfg_bounds. intros Hi Hreq. pose proof (alloc2real_spec size Hreq) as Hsz.
  destruct Hreq as [Hs0 _]. unfold memory_allocator_pop. set (sz := size_alloc2real cfg size) in *.
  destruct (candidate_spec st l e sz Hi) as (o & -> & Ho). cbn [mbind outcome_bind].
  destruct o as [a|].
  2: { left. split; [done|]. intros x b Hx Hxt Hb. apply (Ho x b); [by apply (mi_free _ _ _ Hi)|].
       by eapply inv_next. }
  right. destruct Ho as [Hfa (b & Hab & Hfit)]. apply (mi_free _ _ _ Hi) in Hfa as [Hal Hat].
  apply list_elem_of_split in Hal as (l1 & l2 & ->).
  destruct (inv_block _ _ _ _ _ Hi) as (Hab' & Hbo & _ & Ht2 & Hna).
  assert (b = hd e l2) as ->.
  { pose proof (get_size_spec _ _ _ Hab) as E1. rewrite (get_size_spec _ _ _ Hab') in E1. simplify_eq. lia. }
  unfold header_is_alloc, header_tag. rewrite Hat. cbn [of_option mbind outcome_bind].
  rewrite bool_decide_false by tauto. cbn [require negb mbind outcome_bind].
  rewrite (get_size_spec _ _ _ Hab). cbn [mbind outcome_bind].
  rewrite (proj2 (Z.leb_le sz _)) by lia. cbn [require mbind outcome_bind].
  rewrite (scramble_check_spec _ _ _ Hab) by (intros Hs _; by apply (bo_free _ _ _ Hbo)).
  cbn [mbind outcome_bind].
  rewrite (guard_check_spec _ _ _ Hab (bo_head _ _ _ Hbo) (bo_tail _ _ _ Hbo)).
  cbn [mbind outcome_bind].
  pose proof (mi_high _ _ _ Hi) as Hhi. pose proof (ab_range _ _ _ Hab) as [Ha0 _].
  pose proof (tiled_le _ _ _ Ht2) as Hle.
  rewrite (wrapu_small W (sz + MEMALLOC_SPLIT_SIZE cfg)) by lia.
  destruct (Z.leb_spec (sz + MEMALLOC_SPLIT_SIZE cfg) (hd e l2 - a)).
  - destruct (alloc_split st l1 a l2 e sz Hi Hat) as (st3 & st4 & st5 & st6 & -> & E3 & E4 & E5 & E6 & Hi6 & Ht6 & Hf6);
      [lia|lia|].
    cbn [mbind outcome_bind]. rewrite E3. cbn [mbind outcome_bind]. rewrite E4. cbn [mbind outcome_bind].
    rewrite E5. cbn [mbind outcome_bind]. rewrite E6. cbn [mbind outcome_bind].
    exists a, (a + sz), st6, (l1 ++ a :: [a + sz] ++ l2). split; [done|].
    split_and!; [set_solver|done|done|by destruct l1|set_solver|done| |lia|done].
    apply next_of_here. set_solver.
  - destruct (alloc_whole st l1 a l2 e sz (-1) 1 Hi Hat) as (st' & E & Hi' & Ht' & Hf'); [lia|lia|].
    cbn [mbind outcome_bind]. rewrite E. cbn [mbind outcome_bind].
    exists a, (hd e l2), st', (l1 ++ a :: l2). split; [done|].
    split_and!; [set_solver|done|done|done|set_solver|done| |lia|done].
    apply next_of_here. set_solver.
Qed.

(** ** Release *)

Lemma tiled_tail st l e : l ≠ [] → tiled st l e → filled st (e - G) e 0xaa.
Proof.
  induction l as [|a l IH]; [done|]. intros _ [Hb Ht]. destruct l as [|b l]; [apply Hb|].
  by apply IH.
Qed.

Lemma mem_inv_end st l1 l2 e : mem_inv st (l1 ++ l2) e → hd e l2 < 2 ^ W.
Proof using Hcfg.
  cfg_bounds. intros Hi. pose proof (mi_high _ _ _ Hi).
  pose proof (mi_tiled _ _ _ Hi) as Ht. apply tiled_app in Ht as [_ Ht].
  pose proof (tiled_le _ _ _ Ht). lia.
Qed.

(** The blocks [c] and [m] have been joined into one free block. *)
Lemma release_block_inv st st2 l1 c m l2 e a :
  mem_inv st (l1 ++ c :: m ++ l2) e →
  bl st2 = (l1 ++ c :: l2) ++ [e] →
  tags st2 !! c = Some HLinks → (∀ x, x ≠ c → tags st2 !! x = tags st !! x) →
  bytes st2 = bytes st → NoDup (fl st2) →
  (∀ x, x ∈ fl st2 ↔ (x ∈ fl st ∧ x ∉ c :: m) ∨ x = c) →
  tags st !! hd e l2 ≠ Some HLinks →
  (tags st !! c = Some HLinks ∨ ∀ p, last l1 = Some p → tags st !! p ≠ Some HLinks) →
  (∀ q, q ∈ c :: m → tags st !! q = Some HAlloc → q = a) →
  header_get_size cfg st2 c = Ok (hd e l2 - c) ∧
  ∃ st3, memory_allocator_scramble_set cfg (hd e l2 - c) c st2 = Ok st3 ∧ tags st3 = tags st2 ∧
    mem_inv st3 (l1 ++ c :: l2) e ∧
    frame_allocs st (l1 ++ c :: m ++ l2) st3 (l1 ++ c :: l2) e a.
Proof using Hcfg.
  cfg_bounds. intros Hi Eb Hc Htg Hby Hnd Hfr Hne Hpr Hm.
  pose proof (mi_tiled _ _ _ Hi) as Htl. change (c :: m ++ l2) with ((c :: m) ++ l2) in Htl.
  rewrite !tiled_app in Htl. destruct Htl as (Ht1 & Htm & Ht2). cbn [hd app] in Ht1.
  pose proof (tiled_bounds _ _ _ c Htm ltac:(set_solver)) as [_ Hsz].
  pose proof (tiled_tail _ (c :: m) _ ltac:(done) Htm) as Htail.
  assert (filled st (c + HS) (c + HS + G) 0x55) as Hhead by (destruct Htm as [Hb _]; apply Hb).
  pose proof (tiled_le _ _ _ Ht2) as Hle.
  assert (∀ x, x ∈ l1 ++ l2 ++ [e] → x ≠ c) as Hxc.
  { intros x. rewrite !elem_of_app, list_elem_of_singleton.
    intros [Hx|[Hx| ->]]; [pose proof (tiled_bounds _ _ _ _ Ht1 Hx)|
      pose proof (tiled_bounds _ _ _ _ Ht2 Hx)|]; lia. }
  assert (0 < c) as Hc0.
  { pose proof (mi_low _ _ _ Hi) as Hlo. destruct l1 as [|x l1]; [done|].
    pose proof (tiled_le _ _ _ Ht1). simpl in *. lia. }
  assert (hd e l2 < 2 ^ W) as Hhw.
  { apply (mem_inv_end st (l1 ++ c :: m)). by rewrite <-app_assoc. }
  destruct (block_list_tail l2 e) as [x2 Ex].
  assert (at_block st2 c (hd e l2)) as Hab.
  { eapply (at_block_intro st2 l1); [rewrite Eb, <-app_assoc; simpl; by rewrite Ex| |exact Hc|done|lia|done|done].
    intros Hx. by apply (Hxc c); [set_solver|]. }
  split; [by apply get_size_spec|].
  destruct (scramble_set_spec st2 c _ (hd e l2 - c) Hab) as (st3 & E3 & [B3 R3 G3 Y3] & F3); [lia..|].
  replace (c + (hd e l2 - c) - G) with (hd e l2 - G) in * by lia.
  exists st3. split; [done|]. split; [done|]. rewrite Hby in Y3.
  assert (mem_inv st3 (l1 ++ c :: [] ++ l2) e) as Hi3.
  { apply (splice_inv st st3 l1 c m [] l2 e); [done| | | |done| |by rewrite R3|].
    - by rewrite B3.
    - intros x Hx. rewrite G3. apply Htg. by apply Hxc.
    - intros x Hx. apply Y3. lia.
    - cbn [tiled hd]. split; [|done]. constructor; [done|left; congruence| | |].
      + intros x Hx. rewrite Y3 by lia. apply Hhead. lia.
      + intros x Hx. rewrite Y3 by lia. apply Htail. lia.
      + intros _. split; [|intros Hs; by apply F3]. rewrite G3, Htg; [done|].
        apply Hxc. destruct l2; set_solver.
    - intros x. rewrite R3, Hfr, list_elem_of_singleton, G3. naive_solver. }
  split; [done|].
  apply (splice_frame st st3 l1 c m [] l2 e a); [done|done| | |done|].
  - intros x Hx. rewrite G3. apply Htg, Hxc. set_solver.
  - intros x Hx. apply Y3. lia.
  - intros q ->%list_elem_of_singleton. rewrite G3. congruence.
Qed.

Lemma is_alloc_used st a : tags st !! a = Some HAlloc → header_is_alloc st a = Ok true.
Proof. intros Ha. unfold header_is_alloc, header_tag. by rewrite Ha. Qed.
Lemma is_alloc_end st a : tags st !! a = Some HEnd → header_is_alloc st a = Ok true.
Proof. intros Ha. unfold header_is_alloc, header_tag. by rewrite Ha. Qed.
Lemma is_alloc_free st a : tags st !! a = Some HLinks → header_is_alloc st a = Ok false.
Proof. intros Ha. unfold header_is_alloc, header_tag. by rewrite Ha. Qed.
Lemma is_end_used st a : tags st !! a = Some HAlloc → header_is_endblock st a = Ok false.
Proof. intros Ha. unfold header_is_endblock, header_tag. by rewrite Ha. Qed.

(** The header after a block is free or not; a free one starts a block. *)
Lemma next_cases st l1 a l2 e :
  mem_inv st (l1 ++ a :: l2) e →
  (header_is_alloc st (hd e l2) = Ok true ∧ tags st !! hd e l2 ≠ Some HLinks) ∨
  (header_is_alloc st (hd e l2) = Ok false ∧ tags st !! hd e l2 = Some HLinks ∧
   ∃ b l2', l2 = b :: l2' ∧ tags st !! hd e l2' ≠ Some HLinks).
Proof using Hcfg.
  intros Hi. destruct l2 as [|b l2]; cbn [hd].
  - left. rewrite (mi_end _ _ _ Hi). split; [|done]. apply is_alloc_end, Hi.
  - pose proof (mi_tiled _ _ _ Hi) as Ht. apply tiled_app in Ht as [_ [_ [Hb _]]].
    destruct (bo_tag _ _ _ Hb) as [Hf|Hu].
    + right. split; [by apply is_alloc_free|]. split; [done|]. exists b, l2. split; [done|].
      by apply Hb.
    + left. split; [by apply is_alloc_used|]. by rewrite Hu.
Qed.

Lemma prev_cases st l1 a l2 e :
  mem_inv st (l1 ++ a :: l2) e →
  (l1 = [] ∨ ∃ l1' p, l1 = l1' ++ [p] ∧ header_is_alloc st p = Ok true ∧ tags st !! p ≠ Some HLinks) ∨
  (∃ l1' p, l1 = l1' ++ [p] ∧ header_is_alloc st p = Ok false ∧ tags st !! p = Some HLinks).
Proof using Hcfg.
  intros Hi. destruct l1 as [|p l1 _] using rev_ind; [by left; left|].
  pose proof (tiled_tag _ _ _ p (mi_tiled _ _ _ Hi) ltac:(set_solver)) as [Hf|Hu].
  - right. exists l1, p. split_and!; [done|by apply is_alloc_free|done].
  - left. right. exists l1, p. split_and!; [done|by apply is_alloc_used|by rewrite Hu].
Qed.

(** Changes of the statistics alone. *)
Lemma mem_inv_untouched st st' l e : touches st st' 0 0 → mem_inv st l e → mem_inv st' l e.
Proof using Hcfg.
  intros [Eb Ef Et Ey] []. constructor; rewrite ?Eb, ?Ef, ?Et; try done.
  apply (tiled_frame st); [done|by rewrite Et|rewrite Et; tauto|]. intros x _. apply Ey. lia.
Qed.

Lemma frame_untouched st l st' st'' l' e a :
  touches st' st'' 0 0 → frame_allocs st l st' l' e a → frame_allocs st l st'' l' e a.
Proof.
  intros [Eb Ef Et Ey] [Hk Hn]. constructor; rewrite Et; [|done].
  intros q Hqa Hq Ht. destruct (Hk q Hqa Hq Ht) as (? & ? & ? & Hb). split_and!; [done..|].
  intros b x Hx1 Hx2. rewrite Ey by lia. by eapply Hb.
Qed.

(** Merging with the previous block, or linking the block in the free list. *)
Lemma push_prev st st1 l1 a m l2 e f n :
  mem_inv st (l1 ++ a :: m ++ l2) e → tags st !! a = Some HAlloc →
  bl st1 = (l1 ++ a :: l2) ++ [e] → tags st1 = tags st → bytes st1 = bytes st →
  NoDup (fl st1) → (∀ x, x ∈ fl st1 ↔ x ∈ fl st ∧ x ∉ m) →
  tags st !! hd e l2 ≠ Some HLinks → (∀ q, q ∈ m → tags st !! q = Some HLinks) →
  ∃ l' st',
    (prev_free ← (match (match last l1 with Some p => Some p | None => None end) with
                  | Some prev => a ← header_is_alloc st1 prev; Ok (if negb a then Some prev else None)
                  | None => Ok None
                  end);
     let '(hdr, st) := match prev_free with
                       | Some prev => (prev, block_list_remove a st1)
                       | None => (a, update_region_stats cfg 0 1 0 (free_list_push a st1))
                       end in
     size ← header_get_size cfg st hdr;
     st ← memory_allocator_scramble_set cfg size hdr st;
     Ok (update_region_stats cfg 0 f n st)) = Ok st' ∧
    mem_inv st' l' e ∧ hd e l' = hd e (l1 ++ a :: m ++ l2) ∧
    (a ∈ l' → tags st' !! a ≠ Some HAlloc) ∧
    frame_allocs st (l1 ++ a :: m ++ l2) st' l' e a.
Proof using Hcfg.
  intros Hi Ha Eb Etg Eby Hnd Hfr Hne Hm.
  assert (∀ p, header_is_alloc st1 p = header_is_alloc st p) as Eal
    by (intros; unfold header_is_alloc, header_tag; by rewrite Etg).
  assert (a ∉ fl st) as Haf by (rewrite (mi_free _ _ _ Hi), Ha; naive_solver).
  assert (∀ q, q ∈ a :: m → tags st !! q = Some HAlloc → q = a) as Hma.
  { intros q [->|Hq]%elem_of_cons; [done|]. rewrite Hm by done. done. }
  destruct (prev_cases _ _ _ _ _ Hi) as [Hp|(l1' & p & -> & Ep & Hp)].
  - set (st2 := update_region_stats cfg 0 1 0 (free_list_push a st1)).
    destruct (touches_stats (free_list_push a st1) 0 1 0 0 0) as [B2 R2 G2 _]. fold st2 in B2, R2, G2.
    assert (bytes st2 = bytes st) as Y2
      by (rewrite <-Eby; unfold st2, update_region_stats; by destruct (stats cfg)).
    destruct (release_block_inv st st2 l1 a m l2 e a) as (Es & st3 & E3 & G3 & Hi3 & Hf3).
    { done. } { by rewrite B2. } { rewrite G2. apply lookup_insert_eq. }
    { intros x Hx. rewrite G2, <-Etg. by apply lookup_insert_ne. } { done. }
    { rewrite R2. constructor; [|done]. rewrite Hfr. tauto. }
    { intros x. rewrite R2. change (fl (free_list_push a st1)) with (a :: fl st1).
      rewrite elem_of_cons, Hfr, not_elem_of_cons.
      split; [intros [->|[? ?]]; [by right|left]|naive_solver]. split_and!; [done| |done]. by intros ->. }
    { done. }
    { right. intros p Hl. destruct Hp as [->|(l1' & p' & -> & _ & Hp)]; [done|].
      rewrite last_snoc in Hl. by simplify_eq. }
    { done. }
    exists (l1 ++ a :: l2), (update_region_stats cfg 0 f n st3).
    assert (∀ A B (k : option Z → outcome B) (x : A),
      (match (match last l1 with Some p => Some p | None => None end) with
       | Some prev => a ← header_is_alloc st1 prev; Ok (if negb a then Some prev else None)
       | None => Ok None end ≫= k) = k None) as Ek.
    { intros _ B k _. destruct Hp as [->|(l1' & p' & -> & Ep & _)]; [done|].
      by rewrite last_snoc, Eal, Ep. }
    rewrite (Ek unit _ _ tt). cbv beta iota zeta. fold st2. rewrite Es. cbn [mbind outcome_bind].
    rewrite E3. cbn [mbind outcome_bind]. split; [done|].
    pose proof (touches_stats st3 0 f n 0 0) as T.
    split; [by eapply mem_inv_untouched|]. split; [by destruct l1|].
    split; [rewrite (to_tags _ _ _ _ T), G3, G2; intros _; simpl; by rewrite lookup_insert_eq|].
    by eapply frame_untouched.
  - set (st2 := block_list_remove a st1).
    assert (bl st2 = (l1' ++ p :: l2) ++ [e]) as B2.
    { unfold st2, block_list_remove. change (clist_remove (bl st1) a = (l1' ++ p :: l2) ++ [e]).
      destruct (inv_block st (l1' ++ [p]) a (m ++ l2) e Hi) as (_ & _ & _ & _ & Hna).
      rewrite Eb, <-app_assoc. cbn [app]. rewrite clist_remove_spec by set_solver.
      by rewrite <-!app_assoc. }
    assert (p ∉ a :: m) as Hpa.
    { destruct (inv_block st l1' p (a :: m ++ l2) e) as (_ & _ & _ & _ & Hna); [by rewrite <-app_assoc in Hi|].
      set_solver. }
    rewrite <-app_assoc in Hi |- *. cbn [app] in Hi |- *.
    destruct (release_block_inv st st2 l1' p (a :: m) l2 e a) as (Es & st3 & E3 & G3 & Hi3 & Hf3).
    { done. } { done. } { unfold st2. simpl. by rewrite Etg. } { intros x Hx. unfold st2. simpl. by rewrite Etg. }
    { done. } { done. }
    { intros x. change (fl st2) with (fl st1). rewrite Hfr, !not_elem_of_cons.
      destruct (decide (x = p)) as [->|].
      - split; [by right|]. intros _. split; [|set_solver].
        apply (mi_free _ _ _ Hi). split; [set_solver|done].
      - split; [|naive_solver]. intros [? ?]. left. split_and!; [done|done| |done]. by intros ->. }
    { done. } { by left. } { intros q [->|Hq]%elem_of_cons; [congruence|by apply Hma]. }
    exists (l1' ++ p :: l2), (update_region_stats cfg 0 f n st3).
    rewrite last_snoc, Eal, Ep. cbn [mbind outcome_bind negb]. fold st2.
    rewrite Es. cbn [mbind outcome_bind]. rewrite E3. cbn [mbind outcome_bind]. split; [done|].
    pose proof (touches_stats st3 0 f n 0 0) as T.
    split; [by eapply mem_inv_untouched|]. split; [by destruct l1'|]. split.
    + intros Hin. exfalso.
      destruct (inv_block st (l1' ++ [p]) a (m ++ l2) e) as (_ & _ & _ & _ & Hna); [by rewrite <-app_assoc|].
      set_solver.
    + by eapply frame_untouched.
Qed.

(** The state in which the free block [b] after [a] has been unlinked. *)
Lemma unlink_next st st1 l1 a b l2 e :
  mem_inv st (l1 ++ a :: b :: l2) e →
  touches (block_list_remove b (free_list_remove b st)) st1 0 0 →
  bl st1 = (l1 ++ a :: l2) ++ [e] ∧ tags st1 = tags st ∧ NoDup (fl st1) ∧
  (∀ x, x ∈ fl st1 ↔ x ∈ fl st ∧ x ∉ [b]) ∧ ∀ x, bytes st1 x = bytes st x.
Proof using Hcfg.
  intros Hi [Eb Ef Et Ey].
  assert (mem_inv st ((l1 ++ [a]) ++ b :: l2) e) as Hi' by (by rewrite <-app_assoc).
  destruct (inv_block _ _ _ _ _ Hi') as (_ & _ & _ & _ & Hna).
  split_and!.
  - rewrite Eb. change (clist_remove (bl st) b = (l1 ++ a :: l2) ++ [e]).
    rewrite (mi_blocks _ _ _ Hi'), <-app_assoc. cbn [app].
    rewrite clist_remove_spec by set_solver. by rewrite <-!app_assoc.
  - done.
  - rewrite Ef. apply NoDup_filter, Hi.
  - intros x. rewrite Ef. by apply (free_remove_elem _ _ _ _ _ Hi).
  - intros x. apply Ey. lia.
Qed.

Lemma push_spec st l e a :
  mem_inv st l e → a ∈ l → tags st !! a = Some HAlloc →
  ∃ l' st', memory_allocator_push cfg (hdr2mem cfg a) st = Ok st' ∧ mem_inv st' l' e ∧
    hd e l' = hd e l ∧ (a ∈ l' → tags st' !! a ≠ Some HAlloc) ∧ frame_allocs st l st' l' e a.
Proof using Hcfg.
  cfg_bounds. intros Hi (l1 & l2 & ->)%list_elem_of_split Hat.
  destruct (inv_block _ _ _ _ _ Hi) as (Hab & Hbo & Ht1 & Ht2 & Hna).
  unfold memory_allocator_push. assert (mem2hdr cfg (hdr2mem cfg a) = a) as -> by (unfold mem2hdr, hdr2mem; lia).
  rewrite is_alloc_used, is_end_used by done. cbn [andb negb require mbind outcome_bind].
  rewrite (get_size_spec _ _ _ Hab). cbn [mbind outcome_bind].
  rewrite (guard_check_spec _ _ _ Hab (bo_head _ _ _ Hbo) (bo_tail _ _ _ Hbo)). cbn [mbind outcome_bind].
  assert (bl st = l1 ++ a :: (l2 ++ [e])) as Eb by (rewrite (mi_blocks _ _ _ Hi); by rewrite <-app_assoc).
  rewrite Eb, clist_next_spec by set_solver. cbn [mbind outcome_bind].
  rewrite clist_prev_spec by set_solver. cbn [mbind outcome_bind].
  assert (head (l2 ++ [e]) = Some (hd e l2)) as -> by (by destruct l2).
  destruct (next_cases _ _ _ _ _ Hi) as [[-> Hn]|(-> & Hn & b & l2' & -> & Hb)]; cbn [mbind outcome_bind negb].
  - apply (push_prev st st l1 a [] l2 e 0 (-1)); try done; try apply Hi.
    + set_solver.
    + by intros q ?%elem_of_nil.
  - cbn [hd] in Hn |- *.
    set (st1 := update_region_stats cfg 0 (-1) 0 (block_list_remove b (free_list_remove b st))).
    destruct (unlink_next st st1 l1 a b l2' e Hi) as (B1 & G1 & N1 & F1 & Y1); [apply touches_stats|].
    apply (push_prev st st1 l1 a [b] l2' e 0 (-1)); try done.
    + unfold st1, update_region_stats. by destruct (stats cfg).
    + by intros q ->%list_elem_of_singleton.
Qed.

(** ** Resizing *)

(** [cut_free] on a state [st1] that only differs from [st] by its lists. *)
Lemma cut_free_spec st st1 l1 a l2 e sz :
  bl st1 = l1 ++ a :: l2 ++ [e] → a ∉ l1 → a + sz ∉ l1 →
  tags st1 !! a = Some HAlloc → tags st1 = tags st → (∀ x, bytes st1 x = bytes st x) →
  HS + G * 2 ≤ sz → a + sz + MEMALLOC_SPLIT_SIZE cfg ≤ hd e l2 → 0 < a → hd e l2 < 2 ^ W →
  ∃ st', cut_free cfg a sz (hd e l2 - (a + sz)) st1 = Ok st' ∧
    carved st st' l1 a (a + sz) l2 e (fl st1) ∧
    ∀ x, a + HS + G ≤ x < a + sz - G → bytes st' x = bytes st x.
Proof using Hcfg.
  cfg_bounds. intros Eb Ha Hn Hat Etg Eby Hsz Hb Ha0 Hbw. unfold cut_free.
  destruct (block_list_tail l2 e) as [x2 Ex].
  assert (at_block st1 a (hd e l2)) as Hab.
  { eapply at_block_intro; [by rewrite Eb, Ex|done|done|done|lia|lia|lia]. }
  destruct (guard_set_spec st1 a (hd e l2) (a + sz) sz Hab) as (st2 & -> & [B2 R2 G2 Y2] & F2h & F2t & F2m);
    [lia..|]. cbn [mbind outcome_bind]. cbv zeta.
  destruct (carve_lists st2 l1 a l2 e (a + sz)) as (Eb3 & _ & Hnb);
    [by rewrite B2|done|done|lia|rewrite G2; eauto|lia..|].
  set (st3 := free_list_push (a + sz) (block_list_insert_post a (a + sz) st2)) in *.
  destruct (guard_set_spec st3 (a + sz) (hd e l2) (hd e l2) (hd e l2 - (a + sz)))
    as (st4 & -> & T4 & F4h & F4t & F4m); [done|lia..|]. cbn [mbind outcome_bind].
  destruct (scramble_set_spec st4 (a + sz) (hd e l2) (hd e l2 - (a + sz)))
    as (st5 & -> & [B5 R5 G5 Y5] & F5); [by eapply at_block_touches|lia..|].
  destruct T4 as [B4 R4 G4 Y4]. change (bytes st3) with (bytes st2) in *.
  exists st5. split; [done|].
  assert (tags st5 = <[a + sz := HLinks]> (tags st)) as Et.
  { rewrite G5, G4. unfold st3. simpl. by rewrite G2, Etg. }
  split; [constructor|].
  - rewrite B5, B4, Eb3. by rewrite <-app_assoc.
  - rewrite R5, R4. change (fl st3) with ((a + sz) :: fl st2). by rewrite R2.
  - rewrite Et, lookup_insert_ne by lia. by rewrite <-Etg.
  - rewrite Et. apply lookup_insert_eq.
  - intros x _ Hx. rewrite Et. by apply lookup_insert_ne.
  - intros x Hx. rewrite Y5, Y4, Y2, Eby by lia. done.
  - intros x Hx. rewrite Y5, Y4 by lia. apply F2h. lia.
  - intros x Hx. rewrite Y5, Y4 by lia. apply F2t. lia.
  - intros x Hx. rewrite Y5 by lia. apply F4h. lia.
  - intros x Hx. rewrite Y5 by lia. apply F4t. lia.
  - intros Hs x Hx. apply F5; [done| |lia]. rewrite G4. apply lookup_insert_eq.
  - intros x Hx. rewrite Y5, Y4, F2m, Eby by lia. done.
Qed.

(** The block [a] takes over the whole free block [b] that follows it. *)
Lemma join_next_inv st st1 l1 a b l2 e :
  mem_inv st (l1 ++ a :: [b] ++ l2) e → tags st !! a = Some HAlloc → tags st !! b = Some HLinks →
  bl st1 = (l1 ++ a :: l2) ++ [e] → tags st1 = tags st → NoDup (fl st1) →
  (∀ x, x ∈ fl st1 ↔ x ∈ fl st ∧ x ∉ [b]) → (∀ x, bytes st1 x = bytes st x) →
  mem_inv st1 (l1 ++ a :: [] ++ l2) e ∧
  frame_allocs st (l1 ++ a :: [b] ++ l2) st1 (l1 ++ a :: [] ++ l2) e a.
Proof using Hcfg.
  cfg_bounds. intros Hi Ha Hb Eb Et Hnd Hfr Hby.
  pose proof (mi_tiled _ _ _ Hi) as Htl. rewrite tiled_app in Htl. cbn [hd app tiled] in Htl.
  destruct Htl as (_ & Hba & Hbb & _). pose proof (bo_size _ _ _ Hba). pose proof (bo_size _ _ _ Hbb).
  assert (mem_inv st1 (l1 ++ a :: [] ++ l2) e) as Hi1.
  { apply (splice_inv st st1 l1 a [b] [] l2 e);
      [done|done|by rewrite Et|done|rewrite Et; by left| |done|].
    - cbn [tiled hd]. split; [|done]. constructor; [lia|rewrite Et; by right| | |rewrite Et; congruence].
      + intros x Hx. rewrite Hby. by apply Hba.
      + intros x Hx. rewrite Hby. by apply Hbb.
    - intros x. rewrite Hfr, Et, list_elem_of_singleton, (mi_free _ _ _ Hi). set_solver. }
  split; [done|].
  apply (splice_frame st st1 l1 a [b] [] l2 e a); [done|done|by rewrite Et|done| |].
  - intros q [->| ->%list_elem_of_singleton]%elem_of_cons; [done|congruence].
  - by intros q ->%list_elem_of_singleton.
Qed.

Lemma wrapu_diff x : 0 ≤ x < 2 ^ W → wrapu W (wraps W x) = x.
Proof using Hcfg.
  cfg_bounds. intros Hx. unfold wrapu. rewrite wraps_mod by done. by apply Z.mod_small.
Qed.

Lemma wrapu_diff_neg x : - 2 ^ W < x < 0 → wrapu W (wraps W x) = x + 2 ^ W.
Proof using Hcfg.
  cfg_bounds. intros Hx. unfold wrapu. rewrite wraps_mod by done.
  rewrite <-(Z.mod_add x 1 (2 ^ W)) by lia. rewrite Z.mod_small by lia. lia.
Qed.

Lemma wraps_add x y : wrapu W (wraps W x + y) = wrapu W (x + y).
Proof using Hcfg.
  cfg_bounds. unfold wrapu. rewrite <-(Zplus_mod_idemp_l (wraps W x)), <-(Zplus_mod_idemp_l x).
  by rewrite wraps_mod.
Qed.

Lemma wraps_sub x y : wrapu W (y - wraps W x) = wrapu W (y - x).
Proof using Hcfg.
  cfg_bounds. unfold wrapu. rewrite <-(Zminus_mod_idemp_r y (wraps W x)), <-(Zminus_mod_idemp_r y x).
  by rewrite wraps_mod.
Qed.

Lemma wraps_zero x : - 2 ^ W < x < 2 ^ W → (wraps W x =? 0) = (x =? 0).
Proof using Hcfg.
  cfg_bounds. intros Hx. destruct (Z.eqb_spec x 0) as [->|Hne].
  - rewrite wraps_small by (pose proof (pow2_pos (W - 1)); lia). done.
  - apply Z.eqb_neq. intros E. apply Hne.
    destruct (Z.lt_ge_cases x 0).
    + pose proof (wrapu_diff_neg x ltac:(lia)) as E'. rewrite E in E'.
      rewrite wrapu_small in E' by lia. lia.
    + pose proof (wrapu_diff x ltac:(lia)) as E'. rewrite E in E'.
      rewrite wrapu_small in E' by lia. lia.
Qed.

(** A successful resize of the block [a] that ended at [b]. *)
Definition resized (st : mem_state) (l : list Z) (st' : mem_state) (l' : list Z) (e a b sz : Z) : Prop :=
  mem_inv st' l' e ∧ hd e l' = hd e l ∧ a ∈ l' ∧ tags st' !! a = Some HAlloc ∧
  frame_allocs st l st' l' e a ∧
  ∃ b', next_of l' e a = Some b' ∧ a + sz ≤ b' ∧
    ∀ x, a + HS + G ≤ x < b - G → x < b' - G → bytes st' x = bytes st x.

Lemma resized_untouched st l st' st'' l' e a b sz :
  touches st' st'' 0 0 → resized st l st' l' e a b sz → resized st l st'' l' e a b sz.
Proof using Hcfg.
  intros T (Hi & Hh & Ha & Ht & Hf & b' & Hb & Hs & Hy).
  split_and!; [by eapply mem_inv_untouched|done|done|by rewrite (to_tags _ _ _ _ T)
    |by eapply frame_untouched|]. exists b'. split_and!; [done..|].
  intros x Hx Hx'. rewrite (to_bytes _ _ _ _ T) by lia. by apply Hy.
Qed.

Lemma resized_id st l1 a l2 e sz :
  mem_inv st (l1 ++ a :: l2) e → tags st !! a = Some HAlloc → a + sz ≤ hd e l2 →
  resized st (l1 ++ a :: l2) st (l1 ++ a :: l2) e a (hd e l2) sz.
Proof using Hcfg.
  intros Hi Ha Hsz. destruct (inv_block _ _ _ _ _ Hi) as (_ & _ & _ & _ & Hna).
  split_and!; [done|done|set_solver|done| |].
  - constructor; [|done]. intros q Hqa Hq Hqt. by split_and!.
  - exists (hd e l2). split_and!; [apply next_of_here; set_solver|done|done].
Qed.

Lemma carved_resized st st' l1 a m l2 e fr sz b :
  mem_inv st (l1 ++ a :: m ++ l2) e → carved st st' l1 a (a + sz) l2 e fr →
  (∀ x, x ∈ fr ↔ x ∈ fl st ∧ x ∉ a :: m) → NoDup fr →
  HS + G * 2 ≤ sz → a + sz + MEMALLOC_SPLIT_SIZE cfg ≤ hd e l2 →
  tags st !! hd e l2 ≠ Some HLinks →
  (∀ q, q ∈ a :: m → tags st !! q = Some HAlloc → q = a) →
  (∀ x, a + HS + G ≤ x < a + sz - G → bytes st' x = bytes st x) →
  resized st (l1 ++ a :: m ++ l2) st' (l1 ++ a :: [a + sz] ++ l2) e a b sz.
Proof using Hcfg.
  cfg_bounds. intros Hi Hcv Hfr Hnd Hsz Hb Hne Hm Hy.
  destruct (carved_inv _ _ _ _ _ _ _ _ _ Hi Hcv Hfr Hnd) as [Hi' Hf]; [lia|lia|done|done|].
  destruct (inv_block _ _ _ _ _ Hi') as (_ & _ & _ & _ & Hna).
  split_and!; [done|by destruct l1|set_solver|apply Hcv|done|].
  exists (a + sz). split_and!; [apply next_of_here; set_solver|lia|]. intros x Hx Hx'. apply Hy. lia.
Qed.

(** [memory_allocator_resize] with a free block behind the block. *)
Lemma resize_free_next st l1 a b l2 e sz :
  mem_inv st (l1 ++ a :: [b] ++ l2) e → tags st !! a = Some HAlloc → tags st !! b = Some HLinks →
  tags st !! hd e l2 ≠ Some HLinks → HS + G * 2 ≤ sz → a + sz ≤ hd e l2 → b < a + sz →
  let st1 := block_list_remove b (free_list_remove b st) in
  let d := wraps W (sz - (b - a)) in
  ∃ l' st',
    ('(next_size, st) ← (if wrapu W (d + MEMALLOC_SPLIT_SIZE cfg) <=? hd e l2 - b then
                          let next_size := wrapu W (hd e l2 - b - d) in
                          st ← cut_free cfg a sz next_size st1;
                          Ok (next_size, update_region_stats cfg (- d) 1 0 st)
                        else Ok (hd e l2 - b, st1));
     Ok (hdr2mem cfg a, update_region_stats cfg (- next_size) (-1) 0 st)) = Ok (hdr2mem cfg a, st') ∧
    resized st (l1 ++ a :: [b] ++ l2) st' l' e a b sz.
Proof using Hcfg.
  cfg_bounds. intros Hi Ha Hb Hne Hsz Hfit Hd st1 d.
  destruct (unlink_next st st1 l1 a b l2 e Hi (touches_refl _ _ _)) as (B1 & G1 & N1 & F1 & Y1).
  destruct (inv_block _ _ _ _ _ Hi) as (Hab & Hbo & Ht1 & Ht2 & Hna). cbn [hd app] in *.
  pose proof (ab_range _ _ _ Hab) as [Ha0 _]. pose proof (ab_size _ _ _ Hab) as Hs1.
  pose proof (mem_inv_end st (l1 ++ [a; b]) l2 e) as Hend. rewrite <-app_assoc in Hend. specialize (Hend Hi).
  assert (hd e l2 ≤ e) as Hle by (destruct Ht2 as [_ Ht2]; by eapply tiled_le).
  pose proof (mi_high _ _ _ Hi) as Hhi.
  assert (∀ q, q ∈ a :: [b] → tags st !! q = Some HAlloc → q = a) as Hm.
  { intros q [->| ->%list_elem_of_singleton]%elem_of_cons; [done|congruence]. }
  assert (∀ x, x ∈ fl st1 ↔ x ∈ fl st ∧ x ∉ a :: [b]) as F1'.
  { intros x. rewrite F1, (mi_free _ _ _ Hi), !not_elem_of_cons.
    split; [|tauto]. intros [[? Hx] Hxb]. split_and!; [done|done| |set_solver|set_solver]. by intros ->; congruence. }
  cbv zeta. unfold d. rewrite !wraps_add, !wraps_sub, (wrapu_small W (sz - (b - a) + _)) by lia.
  destruct (Z.leb_spec (sz - (b - a) + MEMALLOC_SPLIT_SIZE cfg) (hd e l2 - b)).
  - rewrite (wrapu_small W (hd e l2 - b - _)) by lia.
    replace (hd e l2 - b - (sz - (b - a))) with (hd e l2 - (a + sz)) by lia.
    destruct (cut_free_spec st st1 l1 a l2 e sz) as (st2 & E2 & Hcv & Hy);
      [by rewrite B1, <-app_assoc|set_solver| |by rewrite G1|done|done|lia..|].
    { intros Hx. pose proof (tiled_bounds _ _ _ _ Ht1 Hx). lia. }
    rewrite E2. cbn [mbind outcome_bind].
    eexists _, _. split; [reflexivity|].
    eapply resized_untouched; [apply touches_stats|]. eapply resized_untouched; [apply touches_stats|].
    eapply (carved_resized st st2 l1 a [b] l2 e (fl st1) sz); try done; lia.
  - cbn [mbind outcome_bind].
    eexists (l1 ++ a :: [] ++ l2), _. split; [reflexivity|].
    eapply resized_untouched; [apply touches_stats|].
    destruct (join_next_inv st st1 l1 a b l2 e) as [Hi1 Hf1]; try done.
    split_and!; [done|by destruct l1|set_solver|by rewrite G1|done|].
    exists (hd e l2). split_and!; [apply next_of_here; set_solver|lia|]. intros x _ _. apply Y1.
Qed.

Lemma resize_spec st l e a b n :
  mem_inv st l e → tags st !! a = Some HAlloc → next_of l e a = Some b → req_ok n →
  memory_allocator_resize cfg (hdr2mem cfg a) n st = Ok (0, st) ∨
  ∃ l' st', memory_allocator_resize cfg (hdr2mem cfg a) n st = Ok (hdr2mem cfg a, st') ∧
    resized st l st' l' e a b (size_alloc2real cfg n).
Proof using Hcfg.
  cfg_bounds. intros Hi Hat Hb Hreq. pose proof (alloc2real_spec n Hreq) as Hsz.
  destruct Hreq as [Hn0 _]. apply next_of_split in Hb as (l1 & l2 & -> & ->).
  destruct (inv_block _ _ _ _ _ Hi) as (Hab & Hbo & Ht1 & Ht2 & Hna).
  pose proof (ab_range _ _ _ Hab) as [Ha0 Hbw]. pose proof (ab_size _ _ _ Hab) as Hs1.
  pose proof (tiled_le _ _ _ Ht2) as Hle. pose proof (mi_high _ _ _ Hi) as Hhi.
  unfold memory_allocator_resize. set (sz := size_alloc2real cfg n) in *.
  assert (mem2hdr cfg (hdr2mem cfg a) = a) as -> by (unfold mem2hdr, hdr2mem; lia).
  rewrite is_alloc_used, is_end_used by done. cbn [andb negb require mbind outcome_bind].
  rewrite (get_size_spec _ _ _ Hab). cbn [mbind outcome_bind]. cbv zeta.
  rewrite wraps_zero by lia.
  destruct (Z.eqb_spec (sz - (hd e l2 - a)) 0) as [E|Hne].
  { right. eexists _, _. split; [reflexivity|]. apply resized_id; [done|done|lia]. }
  assert (bl st = l1 ++ a :: (l2 ++ [e])) as Eb by (rewrite (mi_blocks _ _ _ Hi); by rewrite <-app_assoc).
  rewrite Eb, clist_next_spec by set_solver. cbn [mbind outcome_bind].
  assert (head (l2 ++ [e]) = Some (hd e l2)) as -> by (by destruct l2).
  destruct (next_cases _ _ _ _ _ Hi) as [[-> Hn]|(-> & Hn & b & l2' & -> & Hb)];
    cbn [mbind outcome_bind negb hd] in *.
  - destruct (Z.leb_spec (hd e l2 - a) sz); [by left|]. right.
    rewrite (wrapu_small W (sz + _)) by lia.
    destruct (Z.leb_spec (sz + MEMALLOC_SPLIT_SIZE cfg) (hd e l2 - a)).
    + assert (wrapu W (- wraps W (sz - (hd e l2 - a))) = hd e l2 - (a + sz)) as ->.
      { rewrite <-Z.sub_0_l, wraps_sub, wrapu_small by lia. lia. }
      destruct (cut_free_spec st st l1 a l2 e sz) as (st2 & E2 & Hcv & Hy);
        [done|set_solver| |done|done|done|lia..|].
      { intros Hx. pose proof (tiled_bounds _ _ _ _ Ht1 Hx). lia. }
      rewrite E2. cbn [mbind outcome_bind]. eexists _, _. split; [reflexivity|].
      eapply resized_untouched; [apply touches_stats|].
      apply (carved_resized st st2 l1 a [] l2 e (fl st) sz); try done; try lia; [|apply Hi|].
      * intros x. rewrite (mi_free _ _ _ Hi), list_elem_of_singleton. naive_solver.
      * by intros q ->%list_elem_of_singleton.
    + eexists _, _. split; [reflexivity|]. apply resized_id; [done|done|lia].
  - assert (at_block st b (hd e l2')) as Hb2.
    { eapply (inv_block st (l1 ++ [a]) b l2' e). by rewrite <-app_assoc. }
    pose proof (ab_size _ _ _ Hb2) as Hsb. pose proof (ab_range _ _ _ Hb2) as [_ Hcw].
    rewrite (get_size_spec _ _ _ Hb2). cbn [mbind outcome_bind].
    destruct (Z.lt_ge_cases sz (b - a)) as [Hlt|Hge].
    + rewrite wrapu_diff_neg by lia. left.
      by rewrite (proj2 (Z.ltb_lt (hd e l2' - b) _)) by lia.
    + rewrite wrapu_diff by lia.
      destruct (Z.ltb_spec (hd e l2' - b) (sz - (b - a))); [by left|]. right.
      destruct (resize_free_next st l1 a b l2' e sz) as (l' & st' & E & Hr); try done; try lia.
      exists l', st'. split; [exact E|done].
Qed.

(** ** Regions and their clients *)

(** The first header and the end header of a new region. *)
Definition region_low (container : bool) (start : Z) : Z :=
  let start := ALIGN_VALUE_UP W start (ALIGN cfg) in
  if container then start else start + region_hdr_size cfg.
Definition region_end (end_ : Z) : Z := ALIGN_VALUE_LOW end_ (ALIGN cfg) - HS.

(** The memory of a region is away from the ends of the address space and holds
    at least one block. *)
Definition span_ok (lo e : Z) : Prop :=
  0 < lo ∧ HS < e - lo ∧ lo + HS + G * 2 ≤ e ∧ e + MEMALLOC_SPLIT_SIZE cfg ≤ 2 ^ W.

Lemma region_init_spec container start end_ contents :
  let lo := region_low container start in
  let e := region_end end_ in
  span_ok lo e →
  ∃ st, memory_allocator_init cfg container start end_ contents = Ok st ∧
    mem_inv st [lo] e ∧ tags st !! lo = Some HLinks.
Proof using Hcfg.
  cfg_bounds. intros lo e (Hlo & Hsz & Hs & Hhi).
  unfold memory_allocator_init. fold (region_low container start). fold lo.
  fold (region_end end_). fold e. cbv zeta. rewrite (wrapu_small W (e - lo)) by lia.
  rewrite (proj2 (Z.ltb_lt _ _)) by lia. cbn [require mbind outcome_bind].
  match goal with |- context [free_list_push lo ?s] => set (st1 := free_list_push lo s) end.
  assert (at_block st1 lo e) as Hab.
  { eapply (at_block_intro st1 [] lo e [] HLinks); [done|set_solver| |done|done|done|lia].
    apply lookup_insert_eq. }
  rewrite (get_size_spec _ _ _ Hab). cbn [mbind outcome_bind].
  destruct (scramble_set_spec st1 lo e (e - lo) Hab) as (st2 & -> & T2 & F2); [lia..|].
  cbn [mbind outcome_bind].
  destruct (guard_set_spec st2 lo e e (e - lo)) as (st3 & -> & T3 & F3h & F3t & F3m);
    [by eapply at_block_touches|lia..|].
  destruct T2 as [B2 R2 G2 Y2], T3 as [B3 R3 G3 Y3].
  exists st3. split; [done|].
  assert (tags st3 !! lo = Some HLinks) as Hlt by (rewrite G3, G2; apply lookup_insert_eq).
  split; [|done].
  assert (tags st3 !! e = Some HEnd) as Het.
  { rewrite G3, G2. unfold st1. simpl. rewrite lookup_insert_ne by lia. apply lookup_insert_eq. }
  constructor; [by rewrite B3, B2|done| |done|lia|rewrite R3, R2; apply NoDup_singleton|].
  - cbn [tiled hd]. split; [|done]. constructor; [done|by left|done|done|]. intros _.
    split; [by rewrite Het|]. intros Hsc x Hx. rewrite F3m by lia.
    apply F2; [done|apply lookup_insert_eq|lia].
  - intros x. rewrite R3, R2. change (fl st1) with [lo]. rewrite list_elem_of_singleton.
    split; [by intros ->|tauto].
Qed.

(** A region and the blocks its clients hold, with the sizes they asked for. *)
Record mem_world := { ms : mem_state; live : gmap Z Z }.

(** Clients ask for sizes that do not overflow, give back or resize blocks they
    hold, and write only inside them. *)
Inductive mem_step : mem_world → mem_world → Prop :=
| step_pop x n p st' :
    req_ok n → memory_allocator_pop cfg n (ms x) = Ok (p, st') → p ≠ 0 →
    mem_step x {| ms := st'; live := <[p := n]> (live x) |}
| step_push x p n st' :
    live x !! p = Some n → memory_allocator_push cfg p (ms x) = Ok st' →
    mem_step x {| ms := st'; live := delete p (live x) |}
| step_resize x p n m r st' :
    live x !! p = Some n → req_ok m → memory_allocator_resize cfg p m (ms x) = Ok (r, st') → r ≠ 0 →
    mem_step x {| ms := st'; live := <[p := m]> (live x) |}
| step_write x p n b' :
    live x !! p = Some n → (∀ a, ¬ (p ≤ a < p + n) → b' a = bytes (ms x) a) →
    mem_step x {| ms := {| region := region (ms x); tags := tags (ms x); bytes := b' |};
                  live := live x |}.

Inductive mem_reachable (lo e : Z) : mem_world → Prop :=
| mem_start container start end_ contents st :
    lo = region_low container start → e = region_end end_ →
    memory_allocator_init cfg container start end_ contents = Ok st →
    mem_reachable lo e {| ms := st; live := ∅ |}
| mem_next x x' : mem_reachable lo e x → mem_step x x' → mem_reachable lo e x'.

Record world_inv (lo e : Z) (l : list Z) (x : mem_world) : Prop := {
  wi_inv : mem_inv (ms x) l e;
  wi_low : hd e l = lo;
  wi_live : ∀ p n, live x !! p = Some n → 0 ≤ n ∧
    ∃ q b, p = hdr2mem cfg q ∧ q ∈ l ∧ tags (ms x) !! q = Some HAlloc ∧
           next_of l e q = Some b ∧ p + n ≤ b - G;
  wi_used : ∀ q, q ∈ l → tags (ms x) !! q = Some HAlloc → is_Some (live x !! hdr2mem cfg q);
}.

Lemma hdr2mem_inj q q' : hdr2mem cfg q = hdr2mem cfg q' → q = q'.
Proof. unfold hdr2mem. lia. Qed.

(** The frame of an operation on the block [a], seen by the clients. *)
Lemma world_frame lo e l x st' l' a lv' :
  world_inv lo e l x → mem_inv st' l' e → hd e l' = hd e l →
  frame_allocs (ms x) l st' l' e a →
  (∀ p, p ≠ hdr2mem cfg a → lv' !! p = live x !! p) →
  (∀ n, lv' !! hdr2mem cfg a = Some n → 0 ≤ n ∧ a ∈ l' ∧ tags st' !! a = Some HAlloc ∧
     ∃ b, next_of l' e a = Some b ∧ hdr2mem cfg a + n ≤ b - G) →
  (a ∈ l' → tags st' !! a = Some HAlloc → is_Some (lv' !! hdr2mem cfg a)) →
  world_inv lo e l' {| ms := st'; live := lv' |}.
Proof.
  intros [Hi Hlo Hlv Hus] Hi' Hhd [Hk Hn] Hold Ha Hau. constructor; simpl; [done|congruence| |].
  - intros p n Hp. destruct (decide (p = hdr2mem cfg a)) as [->|Hne].
    + destruct (Ha n Hp) as (? & ? & ? & b & ? & ?). split; [done|]. exists a, b. by split_and!.
    + rewrite Hold in Hp by done. destruct (Hlv p n Hp) as (? & q & b & -> & Hq & Ht & Hb & Hs).
      split; [done|]. assert (q ≠ a) as Hqa by congruence.
      destruct (Hk q Hqa Hq Ht) as (? & ? & Eq & _). exists q, b. rewrite Eq. by split_and!.
  - intros q Hq Ht. destruct (decide (q = a)) as [->|Hne]; [by apply Hau|].
    rewrite Hold by (by intros ?%hdr2mem_inj). destruct (Hn q Hne Hq Ht). by apply Hus.
Qed.

(** A client's write inside a block in use. *)
Lemma write_inv st l e q b lo hi b' :
  mem_inv st l e → next_of l e q = Some b → tags st !! q = Some HAlloc →
  q + HS + G ≤ lo → hi ≤ b - G → (∀ a, ¬ (lo ≤ a < hi) → b' a = bytes st a) →
  mem_inv {| region := region st; tags := tags st; bytes := b' |} l e.
Proof using Hcfg.
  cfg_bounds. intros Hi (l1 & l2 & -> & ->)%next_of_split Hq Hlo Hhi Hb'.
  destruct (inv_block _ _ _ _ _ Hi) as (_ & Hbo & _).
  set (st' := {| region := region st; tags := tags st; bytes := b' |}).
  apply (splice_inv st st' l1 q [] [] l2 e); try done.
  - apply Hi.
  - intros x Hx. apply Hb'. lia.
  - by left.
  - cbn [tiled hd]. split; [|done]. destruct Hbo as [Hs Htag Hh Ht Hf].
    constructor; [done|by right| | |simpl; congruence].
    + intros x Hx. simpl. rewrite Hb' by lia. by apply Hh.
    + intros x Hx. simpl. rewrite Hb' by lia. by apply Ht.
  - apply Hi.
  - intros x. change (fl st') with (fl st). rewrite (mi_free _ _ _ Hi). simpl.
    rewrite list_elem_of_singleton. naive_solver.
Qed.

Lemma step_inv lo e l x x' :
  world_inv lo e l x → mem_step x x' → ∃ l', world_inv lo e l' x'.
Proof using Hcfg.
  cfg_bounds. intros Hw Hs. pose proof Hw as [Hi Hlo Hlv Hus].
  destruct Hs as [x n p st' Hr E Hp|x p n st' Hp E|x p n m r st' Hp Hr E Hnz|x p n b' Hp Hb].
  - destruct (pop_spec _ _ _ n Hi Hr) as [[E' _]|(a & b & st2 & l' & E' & Ha & Hat & Hi' & Hhd & Ha' & Hat' & Hb & Hsz & Hf)];
      rewrite E in E'; simplify_eq.
    pose proof (alloc2real_spec n Hr) as Hreal. destruct Hr as [Hn0 _].
    exists l'. eapply world_frame; [done|done|done|done| | |].
    + intros p Hne. by rewrite lookup_insert_ne.
    + intros n'. rewrite lookup_insert_eq. intros [= <-]. split_and!; [done..|].
      exists b. split; [done|]. unfold hdr2mem. lia.
    + intros _ _. rewrite lookup_insert_eq. done.
  - destruct (Hlv p n Hp) as (Hn0 & q & b & -> & Hq & Ht & Hb & Hsz).
    destruct (push_spec _ _ _ _ Hi Hq Ht) as (l' & st2 & E' & Hi' & Hhd & Hnot & Hf).
    rewrite E in E'. simplify_eq. exists l'. eapply world_frame; [done|done|done|done| | |].
    + intros p Hne. by rewrite lookup_delete_ne.
    + intros n'. by rewrite lookup_delete_eq.
    + intros Hin Hal. by destruct (Hnot Hin).
  - destruct (Hlv p n Hp) as (Hn0 & q & b & -> & Hq & Ht & Hb & Hsz).
    destruct (resize_spec _ _ _ _ _ m Hi Ht Hb Hr) as [E'|(l' & st2 & E' & Hres)]; rewrite E in E'; simplify_eq.
    destruct Hres as (Hi' & Hhd & Hq' & Ht' & Hf & b2 & Hb2 & Hsz2 & _).
    pose proof (alloc2real_spec m Hr) as Hreal. destruct Hr as [Hm0 _].
    exists l'. eapply world_frame; [done|done|done|done| | |].
    + intros p Hne. by rewrite lookup_insert_ne.
    + intros n'. rewrite lookup_insert_eq. intros [= <-]. split_and!; [done..|].
      exists b2. split; [done|]. unfold hdr2mem. lia.
    + intros _ _. rewrite lookup_insert_eq. done.
  - destruct (Hlv p n Hp) as (Hn0 & q & b & -> & Hq & Ht & Hbq & Hsz).
    exists l. constructor; simpl; [|done|done|done].
    eapply (write_inv _ _ _ q b (hdr2mem cfg q) (hdr2mem cfg q + n)); done.
Qed.

Lemma reachable_inv lo e x : span_ok lo e → mem_reachable lo e x → ∃ l, world_inv lo e l x.
Proof using Hcfg.
  intros Hsp. induction 1 as [c s0 e0 cs st -> -> E|x x' _ [l IH] Hs]; [|by eapply step_inv].
  destruct (region_init_spec c s0 e0 cs Hsp) as (st' & E' & Hi & Ht). rewrite E in E'. simplify_eq.
  eexists. constructor; simpl; [done|done|done|].
  intros q ->%list_elem_of_singleton. congruence.
Qed.

Lemma check_blocks_spec st l e items c s :
  mem_inv st l e → (∃ l1, l ++ [e] = l1 ++ items) → ∃ r, check_blocks cfg st items c s = Ok r.
Proof using Hcfg.
  intros Hi. revert c s; induction items as [|a items IH]; intros c s [l1 El]; cbn [check_blocks]; [eauto|].
  assert (a ∈ l ++ [e]) as Ha by (rewrite El; set_solver).
  assert (∀ c s, ∃ r, check_blocks cfg st items c s = Ok r) as IH'.
  { intros c' s'. apply IH. exists (l1 ++ [a]). by rewrite <-app_assoc. }
  apply elem_of_app in Ha as [Ha|Ha].
  - destruct (inv_next_elem _ _ _ _ Hi Ha) as [b Hb]. destruct (inv_next _ _ _ _ _ Hi Hb) as [Hab Hbo].
    assert (header_is_endblock st a = Ok false) as ->.
    { unfold header_is_endblock, header_tag. by destruct (bo_tag _ _ _ Hbo) as [-> | ->]. }
    cbn [mbind outcome_bind negb]. rewrite (get_size_spec _ _ _ Hab). cbn [mbind outcome_bind].
    rewrite (guard_check_spec _ _ _ Hab (bo_head _ _ _ Hbo) (bo_tail _ _ _ Hbo)). cbn [mbind outcome_bind].
    rewrite (scramble_check_spec _ _ _ Hab) by (intros Hs Hl; by apply (bo_free _ _ _ Hbo)).
    cbn [mbind outcome_bind]. apply IH'.
  - apply list_elem_of_singleton in Ha as ->.
    unfold header_is_endblock, header_tag. rewrite (mi_end _ _ _ Hi). cbn. apply IH'.
Qed.

Lemma getsize_spec st l e q b :
  mem_inv st l e → tags st !! q = Some HAlloc → next_of l e q = Some b →
  memory_allocator_getsize cfg (hdr2mem cfg q) st = Ok (b - q - G * 2 - HS).
Proof using Hcfg.
  cfg_bounds. intros Hi Hq Hb. destruct (inv_next _ _ _ _ _ Hi Hb) as [Hab Hbo].
  unfold memory_allocator_getsize.
  assert (mem2hdr cfg (hdr2mem cfg q) = q) as -> by (unfold mem2hdr, hdr2mem; lia).
  rewrite is_alloc_used, is_end_used by done. cbn [andb negb require mbind outcome_bind].
  rewrite (get_size_spec _ _ _ Hab). cbn [mbind outcome_bind].
  rewrite (guard_check_spec _ _ _ Hab (bo_head _ _ _ Hbo) (bo_tail _ _ _ Hbo)). cbn [mbind outcome_bind].
  pose proof (ab_size _ _ _ Hab). pose proof (ab_range _ _ _ Hab). by rewrite real2alloc_small by lia.
Qed.

(** Blocks further on in the list lie behind. *)
Lemma next_le st l e q b q' :
  mem_inv st l e → next_of l e q = Some b → q' ∈ l → q < q' → b ≤ q'.
Proof using Hcfg.
  cfg_bounds. intros Hi (l1 & l2 & -> & ->)%next_of_split Hq' Hlt.
  destruct (inv_block _ _ _ _ _ Hi) as (_ & _ & Ht1 & Ht2 & _).
  apply elem_of_app in Hq' as [Hq'|[->|Hq']%elem_of_cons]; [|lia|].
  - pose proof (tiled_bounds _ _ _ _ Ht1 Hq'). lia.
  - pose proof (tiled_bounds _ _ _ _ Ht2 Hq'). lia.
Qed.

(** A block followed by a free block cannot be made smaller. *)
Lemma resize_shrink_null st l1 a b l2 e n :
  mem_inv st (l1 ++ a :: b :: l2) e → tags st !! a = Some HAlloc → tags st !! b = Some HLinks →
  req_ok n → size_alloc2real cfg n < b - a →
  memory_allocator_resize cfg (hdr2mem cfg a) n st = Ok (0, st).
Proof using Hcfg.
  cfg_bounds. intros Hi Hat Hbt Hreq Hlt. pose proof (alloc2real_spec n Hreq) as Hsz.
  destruct Hreq as [Hn0 _]. destruct (inv_block _ _ _ _ _ Hi) as (Hab & _ & _ & _ & Hna). cbn [hd] in Hab.
  destruct (inv_block st (l1 ++ [a]) b l2 e) as (Hb2 & _); [by rewrite <-app_assoc|].
  pose proof (ab_range _ _ _ Hab) as [Ha0 _]. pose proof (ab_range _ _ _ Hb2) as [_ Hbw].
  pose proof (ab_size _ _ _ Hab). pose proof (ab_size _ _ _ Hb2).
  unfold memory_allocator_resize.
  assert (mem2hdr cfg (hdr2mem cfg a) = a) as -> by (unfold mem2hdr, hdr2mem; lia).
  rewrite is_alloc_used, is_end_used by done. cbn [andb negb require mbind outcome_bind].
  rewrite (get_size_spec _ _ _ Hab). cbn [mbind outcome_bind]. cbv zeta.
  rewrite wraps_zero by lia. rewrite (proj2 (Z.eqb_neq _ 0)) by lia.
  rewrite (mi_blocks _ _ _ Hi), <-app_assoc. cbn [app]. rewrite clist_next_spec by set_solver.
  cbn [mbind outcome_bind head]. rewrite is_alloc_free by done. cbn [mbind outcome_bind negb].
  rewrite (get_size_spec _ _ _ Hb2). cbn [mbind outcome_bind].
  rewrite wrapu_diff_neg by lia. by rewrite (proj2 (Z.ltb_lt _ _)) by lia.
Qed.
End safe.

(** ** Properties *)

(** C1.  A region is used through allocation, release and resizing only, its
    clients ask for sizes whose block size fits in a [size_t] ([req_ok]), give
    back or resize blocks they hold, and write only inside them.  Then
    allocation, release, resizing, size query and the check of the whole region
    return: none fails an assertion, finds a damaged guard or scrambled byte,
    touches memory outside the block concerned or misses a header.  Reservations
    and extensions of the region are outside of the statement, and so are larger
    requests; [reserve_header_inside], [extend_overruns] and
    [pop_size_overflow] below show what they do. *)
Theorem allocator_never_faults cfg lo e x :
  cfg_ok cfg → span_ok cfg lo e → mem_reachable cfg lo e x →
  (∀ n, req_ok cfg n → ∃ r, memory_allocator_pop cfg n (ms x) = Ok r) ∧
  (∀ p n, live x !! p = Some n →
     (∃ st', memory_allocator_push cfg p (ms x) = Ok st') ∧
     (∀ m, req_ok cfg m → ∃ r, memory_allocator_resize cfg p m (ms x) = Ok r) ∧
     (∃ s, memory_allocator_getsize cfg p (ms x) = Ok s ∧ n ≤ s)) ∧
  ∃ r, memory_allocator_region_check cfg (ms x) = Ok r.
Proof.
  intros Hc Hsp Hr. destruct (reachable_inv cfg Hc lo e x Hsp Hr) as (l & [Hi _ Hlv _]).
  split_and!.
  - intros n Hn. destruct (pop_spec cfg Hc _ _ _ n Hi Hn) as [[-> _]|(a & b & st' & l' & -> & _)]; eauto.
  - intros p n Hp. destruct (Hlv p n Hp) as (_ & q & b & -> & Hq & Ht & Hb & Hsz). split_and!.
    + destruct (push_spec cfg Hc _ _ _ _ Hi Hq Ht) as (l' & st' & -> & _). eauto.
    + intros m Hm. destruct (resize_spec cfg Hc _ _ _ _ _ m Hi Ht Hb Hm) as [->|(l' & st' & -> & _)]; eauto.
    + eexists. split; [by eapply getsize_spec|]. unfold hdr2mem in Hsz. lia.
  - apply (check_blocks_spec cfg Hc _ l e); [done|]. exists []. by rewrite (mi_blocks _ _ _ _ Hi).
Qed.

(** C2.  In a region used as in [mem_step] (allocation, release and resizing, with
    sizes whose block size fits in a [size_t]; no reservation and no extension),
    the memory clients hold is inside the region and blocks held at the same
    time never overlap. *)
Theorem allocator_blocks_disjoint cfg lo e x p n q m :
  cfg_ok cfg → span_ok cfg lo e → mem_reachable cfg lo e x →
  live x !! p = Some n → live x !! q = Some m → p ≠ q →
  (lo < p ∧ p + n ≤ e) ∧ (p + n ≤ q ∨ q + m ≤ p).
Proof.
  intros Hc Hsp Hr Hp Hq Hne. pose proof (gsize_bounds cfg Hc). pose proof (co_hdr _ Hc).
  destruct (reachable_inv cfg Hc lo e x Hsp Hr) as (l & [Hi Hlo Hlv _]).
  destruct (Hlv p n Hp) as (_ & a & b & -> & Ha & _ & Hb & Hsz).
  destruct (Hlv q m Hq) as (_ & a' & b' & -> & Ha' & _ & Hb' & Hsz').
  pose proof (tiled_bounds cfg Hc _ _ _ _ (mi_tiled _ _ _ _ Hi) Ha) as [Hla _].
  destruct (next_of_split _ _ _ _ Hb) as (l1 & l2 & El & ->).
  assert (hd e l2 ≤ e).
  { pose proof (mi_tiled _ _ _ _ Hi) as Ht. rewrite El in Ht. apply tiled_app in Ht as [_ [_ Ht]].
    by eapply tiled_le. }
  unfold hdr2mem in *. split; [lia|].
  destruct (Z.lt_total a a') as [Hlt|[->|Hlt]]; [|lia|].
  - pose proof (next_le cfg Hc _ _ _ _ _ _ Hi Hb Ha' Hlt). lia.
  - pose proof (next_le cfg Hc _ _ _ _ _ _ Hi Hb' Ha Hlt). lia.
Qed.

(**  An allocation returns [NULL] only when every free block is too small
    for the request with its header and guards, with either search algorithm;
    otherwise the block returned was not held by anybody. *)
Theorem pop_fails_only_when_full cfg lo e x n p st' :
  cfg_ok cfg → span_ok cfg lo e → mem_reachable cfg lo e x → req_ok cfg n →
  memory_allocator_pop cfg n (ms x) = Ok (p, st') →
  (p = 0 → st' = ms x ∧ ∀ h s, h ∈ fl (ms x) → header_get_size cfg (ms x) h = Ok s →
     s < size_alloc2real cfg n) ∧
  (p ≠ 0 → live x !! p = None).
Proof.
  intros Hc Hsp Hr Hn E. pose proof (gsize_bounds cfg Hc). pose proof (co_hdr _ Hc).
  destruct (reachable_inv cfg Hc lo e x Hsp Hr) as (l & [Hi Hlo Hlv _]).
  destruct (pop_spec cfg Hc _ _ _ n Hi Hn) as [[E' Hfull]|(a & b & st2 & l' & E' & Ha & Hat & _)];
    rewrite E in E'; simplify_eq.
  - split; [|done]. intros _. split; [done|]. intros h s Hh Hs.
    apply (mi_free _ _ _ _ Hi) in Hh as [Hhl Hht].
    destruct (inv_next_elem cfg Hc _ _ _ _ Hi Hhl) as [b Hb].
    rewrite (get_size_spec cfg Hc _ _ _ (proj1 (inv_next cfg Hc _ _ _ _ _ Hi Hb))) in Hs.
    simplify_eq. by apply Hfull.
  - pose proof (tiled_bounds cfg Hc _ _ _ _ (mi_tiled _ _ _ _ Hi) Ha) as [Hla _].
    pose proof (mi_low _ _ _ _ Hi).
    split; [unfold hdr2mem; lia|]. intros _.
    destruct (live x !! hdr2mem cfg a) as [m|] eqn:Em; [|done].
    destruct (Hlv _ _ Em) as (_ & q & b' & Eq & _ & Hqt & _). apply hdr2mem_inj in Eq as <-. congruence.
Qed.

(** C19. Free blocks are always merged, in a region used as in [mem_step]
    (allocation, release and resizing): once every block has been given back the
    region is again one single free block. *)
Theorem allocator_coalesces cfg lo e x :
  cfg_ok cfg → span_ok cfg lo e → mem_reachable cfg lo e x → live x = ∅ →
  bl (ms x) = [lo; e] ∧ fl (ms x) = [lo].
Proof.
  intros Hc Hsp Hr Hl. destruct (reachable_inv cfg Hc lo e x Hsp Hr) as (l & [Hi Hlo _ Hus]).
  assert (∀ q, q ∈ l → tags (ms x) !! q = Some HLinks) as Hfree.
  { intros q Hq. destruct (tiled_tag _ _ _ _ q (mi_tiled _ _ _ _ Hi) Hq) as [?|Ha]; [done|].
    destruct (Hus q Hq Ha) as [n Hn]. by rewrite Hl, lookup_empty in Hn. }
  destruct Hsp as (_ & Hsz & _). pose proof (co_hdr _ Hc).
  assert (l = [lo]) as ->.
  { destruct l as [|a [|b l]]; simpl in Hlo; subst; [lia|done|].
    pose proof (mi_tiled _ _ _ _ Hi) as [Hb _].
    destruct (bo_free _ _ _ _ Hb) as [Hn _]; [apply Hfree; set_solver|].
    destruct Hn. apply Hfree. set_solver. }
  split; [apply (mi_blocks _ _ _ _ Hi)|].
  apply Permutation_singleton_r. apply NoDup_Permutation; [apply Hi|apply NoDup_singleton|].
  intros y. rewrite (mi_free _ _ _ _ Hi). set_solver.
Qed.

(** C20. In a region used as in [mem_step] the allocator never changes the
    contents of a block its client keeps: not when other blocks are allocated,
    released or resized, and a successful resize returns the same address and
    keeps the bytes common to both sizes. *)
Theorem allocator_keeps_contents cfg lo e x p n :
  cfg_ok cfg → span_ok cfg lo e → mem_reachable cfg lo e x → live x !! p = Some n →
  (∀ m q st', req_ok cfg m → memory_allocator_pop cfg m (ms x) = Ok (q, st') →
     ∀ a, p ≤ a < p + n → bytes st' a = bytes (ms x) a) ∧
  (∀ q k st', live x !! q = Some k → q ≠ p → memory_allocator_push cfg q (ms x) = Ok st' →
     ∀ a, p ≤ a < p + n → bytes st' a = bytes (ms x) a) ∧
  (∀ q k m r st', live x !! q = Some k → req_ok cfg m →
     memory_allocator_resize cfg q m (ms x) = Ok (r, st') → r ≠ 0 →
     r = q ∧ ∀ a, p ≤ a < p + n → (q = p → a < p + m) → bytes st' a = bytes (ms x) a).
Proof.
  intros Hc Hsp Hr Hp. pose proof (gsize_bounds cfg Hc). pose proof (co_hdr _ Hc).
  destruct (reachable_inv cfg Hc lo e x Hsp Hr) as (l & [Hi Hlo Hlv _]).
  destruct (Hlv p n Hp) as (_ & h & b & -> & Hh & Hht & Hhb & Hsz).
  assert (∀ st' l' a0, a0 ≠ h → frame_allocs cfg (ms x) l st' l' e a0 →
    ∀ a, hdr2mem cfg h ≤ a < hdr2mem cfg h + n → bytes st' a = bytes (ms x) a) as Hkeep.
  { intros st' l' a0 Hne [Hk _] a Ha. destruct (Hk h) as (_ & _ & _ & Hy); [done..|].
    apply (Hy b); [done|]. unfold hdr2mem in *. lia. }
  split_and!.
  - intros m q st' Hm E.
    destruct (pop_spec cfg Hc _ _ _ m Hi Hm) as [[E' _]|(a0 & b0 & st2 & l' & E' & Ha & Hat & _ & _ & _ & _ & _ & _ & Hf)];
      rewrite E in E'; simplify_eq; [done|]. eapply Hkeep; [|done]. by intros ->; congruence.
  - intros q k st' Hq Hne E. destruct (Hlv q k Hq) as (_ & h' & b' & -> & Hh' & Hht' & _).
    destruct (push_spec cfg Hc _ _ _ _ Hi Hh' Hht') as (l' & st2 & E' & _ & _ & _ & Hf).
    rewrite E in E'. simplify_eq. eapply Hkeep; [|done]. by intros ->.
  - intros q k m r st' Hq Hm E Hnz. destruct (Hlv q k Hq) as (_ & h' & b' & -> & Hh' & Hht' & Hb' & _).
    destruct (resize_spec cfg Hc _ _ _ _ _ m Hi Hht' Hb' Hm) as [E'|(l' & st2 & E' & Hres)];
      rewrite E in E'; simplify_eq. split; [done|].
    destruct Hres as (_ & _ & _ & _ & Hf & b2 & _ & Hsz2 & Hy). intros a Ha Hqa.
    destruct (decide (h' = h)) as [->|Hne]; [|by eapply Hkeep].
    rewrite Hb' in Hhb. simplify_eq. specialize (Hqa eq_refl).
    pose proof (alloc2real_spec cfg Hc m Hm). unfold hdr2mem in *. apply Hy; lia.
Qed.

(**  A block cannot be made smaller while the block behind it is free: the
    signed difference of sizes is compared as an unsigned number and the resize
    returns [NULL]. *)
Theorem resize_shrink_fails cfg lo e x p n m s next :
  cfg_ok cfg → span_ok cfg lo e → mem_reachable cfg lo e x → live x !! p = Some n →
  header_get_size cfg (ms x) (mem2hdr cfg p) = Ok s →
  clist_next (bl (ms x)) (mem2hdr cfg p) = Ok (Some next) → tags (ms x) !! next = Some HLinks →
  req_ok cfg m → size_alloc2real cfg m < s →
  memory_allocator_resize cfg p m (ms x) = Ok (0, ms x).
Proof.
  intros Hc Hsp Hr Hp Hs Hn Hnt Hm Hlt.
  destruct (reachable_inv cfg Hc lo e x Hsp Hr) as (l & [Hi Hlo Hlv _]).
  destruct (Hlv p n Hp) as (_ & h & b & -> & Hh & Hht & Hhb & _).
  assert (mem2hdr cfg (hdr2mem cfg h) = h) as E by (unfold mem2hdr, hdr2mem; lia). rewrite E in *.
  destruct (inv_next cfg Hc _ _ _ _ _ Hi Hhb) as [Hab _].
  rewrite (get_size_spec cfg Hc _ _ _ Hab) in Hs. simplify_eq.
  apply next_of_split in Hhb as (l1 & l2 & -> & ->).
  destruct (inv_block cfg Hc _ _ _ _ _ Hi) as (_ & _ & _ & _ & Hna).
  rewrite (mi_blocks _ _ _ _ Hi), <-app_assoc in Hn. cbn [app] in Hn.
  rewrite clist_next_spec in Hn by set_solver.
  destruct l2 as [|b l2]; simplify_eq/=.
  - by rewrite (mi_end _ _ _ _ Hi) in Hnt.
  - by apply (resize_shrink_null cfg Hc _ l1 h next l2 e).
Qed.

(** ** Concrete regions *)

(** 32 bit addresses, 32 byte headers, with guards, scrambling and statistics. *)
Definition demo_cfg : mem_config :=
  {| w := 32; mem_hdr_size := 16; mem_hdr_size_align := 32; region_hdr_size := 64; ALIGN := 32;
     guard := true; GUARD_SIZE := 8; scramble := true; stats := true; bestfit := false |}.

(** The same without debug options. *)
Definition plain_cfg : mem_config :=
  {| w := 32; mem_hdr_size := 16; mem_hdr_size_align := 32; region_hdr_size := 64; ALIGN := 32;
     guard := false; GUARD_SIZE := 0; scramble := false; stats := false; bestfit := false |}.

Definition no_state : mem_state :=
  {| region := {| free_root := []; block_root := []; rsize := 0; alloc_blocks := 0;
                  free_size := 0; free_blocks := 0 |}; tags := ∅; bytes := λ _, 0 |}.

(** A region of 1 KB. *)
Definition demo_init (cfg : mem_config) : outcome mem_state :=
  memory_allocator_init cfg false 0x1000 0x1400 (λ _, 0).

(**  A request close to the top of the size range overflows the computation
    of the block size: a 1 KB region grants almost 4 GB, and its block list then
    holds the same header twice. *)
Theorem pop_size_overflow :
  match (st ← demo_init plain_cfg; memory_allocator_pop plain_cfg (2 ^ 32 - 32) st) with
  | Ok (p, st') => p ≠ 0 ∧ bl st' = [0x1040; 0x1040; 0x13e0]
  | Err _ => False
  end.
Proof. vm_compute. split; [discriminate|reflexivity]. Qed.

(**  Extending a region corrupts memory when guards or scrambling are on: the
    size of the new block is computed as a negative difference. *)
Theorem extend_overruns :
  (st ← demo_init demo_cfg; memory_allocator_nolock_extend demo_cfg 0x2000 0x400 st) = Err FBounds ∧
  is_ok (st ← demo_init plain_cfg; memory_allocator_nolock_extend plain_cfg 0x2000 0x400 st) = true.
Proof. split; vm_compute; reflexivity. Qed.

(**  A reservation places the header of the free block behind it inside the
    reserved memory: reserving 256 bytes at 0x1200 leaves a header at 0x12e0. *)
Theorem reserve_header_inside :
  match (st ← demo_init plain_cfg; memory_allocator_reserve plain_cfg 0x1200 256 st) with
  | Ok (p, st') => p = 0x11e0 ∧ bl st' = [0x1040; 0x11e0; 0x12e0; 0x13e0]
  | Err _ => False
  end.
Proof. vm_compute. split; reflexivity. Qed.

(** ** Witnesses *)

Definition demo0 : mem_state := ok_or no_state (demo_init demo_cfg).
Definition demo1 : Z * mem_state := ok_or (0, no_state) (memory_allocator_pop demo_cfg 40 demo0).
Definition demo2 : Z * mem_state := ok_or (0, no_state) (memory_allocator_pop demo_cfg 100 demo1.2).
Definition demo3 : mem_state := ok_or no_state (memory_allocator_push demo_cfg demo1.1 demo2.2).
Definition demo4 : mem_state := ok_or no_state (memory_allocator_push demo_cfg demo2.1 demo3).

Definition demo_w1 : mem_world := {| ms := demo1.2; live := {[demo1.1 := 40]} |}.
Definition demo_w2 : mem_world := {| ms := demo2.2; live := <[demo2.1 := 100]> {[demo1.1 := 40]} |}.
Definition demo_w3 : mem_world := {| ms := demo3; live := delete demo1.1 (live demo_w2) |}.
Definition demo_w4 : mem_world := {| ms := demo4; live := delete demo2.1 (live demo_w3) |}.

Lemma demo_cfg_ok : cfg_ok demo_cfg.
Proof. constructor; simpl; [lia|lia|lia|]. exists 5. split; [lia|reflexivity]. Defined.

Lemma demo_span_ok : span_ok demo_cfg 0x1040 0x13e0.
Proof. unfold span_ok, gsize, MEMALLOC_SPLIT_SIZE; simpl. lia. Defined.

Lemma demo_req n : 0 ≤ n ≤ 1000 → req_ok demo_cfg n.
Proof. unfold req_ok, gsize; simpl. lia. Defined.

Lemma demo_w1_reachable : mem_reachable demo_cfg 0x1040 0x13e0 demo_w1.
Proof.
  apply (mem_next _ _ _ {| ms := demo0; live := ∅ |}).
  - apply (mem_start _ _ _ false 0x1000 0x1400 (λ _, 0)); [vm_compute; reflexivity..|].
    apply ok_or_spec. vm_compute. reflexivity.
  - apply (step_pop demo_cfg {| ms := demo0; live := ∅ |} 40 demo1.1 demo1.2);
      [apply demo_req; lia| |vm_compute; discriminate].
    rewrite <-(surjective_pairing demo1). apply ok_or_spec. vm_compute. reflexivity.
Defined.

Lemma demo_w2_reachable : mem_reachable demo_cfg 0x1040 0x13e0 demo_w2.
Proof.
  apply (mem_next _ _ _ demo_w1); [apply demo_w1_reachable|].
  apply (step_pop demo_cfg demo_w1 100 demo2.1 demo2.2);
    [apply demo_req; lia| |vm_compute; discriminate].
  rewrite <-(surjective_pairing demo2). apply ok_or_spec. vm_compute. reflexivity.
Defined.

Lemma demo_w4_reachable : mem_reachable demo_cfg 0x1040 0x13e0 demo_w4.
Proof.
  apply (mem_next _ _ _ demo_w3).
  - apply (mem_next _ _ _ demo_w2); [apply demo_w2_reachable|].
    apply (step_push demo_cfg demo_w2 demo1.1 40 demo3); [vm_compute; reflexivity|].
    apply ok_or_spec. vm_compute. reflexivity.
  - apply (step_push demo_cfg demo_w3 demo2.1 100 demo4);
      [vm_compute; reflexivity|]. apply ok_or_spec. vm_compute. reflexivity.
Defined.

Lemma allocator_never_faults_witness : ∃ r, memory_allocator_region_check demo_cfg (ms demo_w2) = Ok r.
Proof.
  exact (proj2 (proj2 (allocator_never_faults demo_cfg 0x1040 0x13e0 demo_w2
    demo_cfg_ok demo_span_ok demo_w2_reachable))).
Defined.

Lemma allocator_blocks_disjoint_witness :
  (0x1040 < demo1.1 ∧ demo1.1 + 40 ≤ 0x13e0) ∧ (demo1.1 + 40 ≤ demo2.1 ∨ demo2.1 + 100 ≤ demo1.1).
Proof.
  refine (allocator_blocks_disjoint demo_cfg 0x1040 0x13e0 demo_w2 demo1.1 40 demo2.1 100
    demo_cfg_ok demo_span_ok demo_w2_reachable _ _ _); vm_compute; [reflexivity|reflexivity|discriminate].
Defined.

Lemma pop_fails_only_when_full_witness : live demo_w1 !! demo2.1 = None.
Proof.
  refine (proj2 (pop_fails_only_when_full demo_cfg 0x1040 0x13e0 demo_w1 100 demo2.1 demo2.2
    demo_cfg_ok demo_span_ok demo_w1_reachable (demo_req 100 _) _) _); [lia| |vm_compute; discriminate].
  rewrite <-(surjective_pairing demo2). apply ok_or_spec. vm_compute. reflexivity.
Defined.

Lemma allocator_coalesces_witness : bl (ms demo_w4) = [0x1040; 0x13e0] ∧ fl (ms demo_w4) = [0x1040].
Proof.
  refine (allocator_coalesces demo_cfg 0x1040 0x13e0 demo_w4
    demo_cfg_ok demo_span_ok demo_w4_reachable _). vm_compute. reflexivity.
Defined.

Lemma allocator_keeps_contents_witness :
  bytes demo2.2 (demo1.1 + 3) = bytes demo1.2 (demo1.1 + 3).
Proof.
  refine (proj1 (allocator_keeps_contents demo_cfg 0x1040 0x13e0 demo_w1 demo1.1 40
    demo_cfg_ok demo_span_ok demo_w1_reachable _) 100 demo2.1 demo2.2 (demo_req 100 _) _ _ _);
    [vm_compute; reflexivity|lia| |lia].
  rewrite <-(surjective_pairing demo2). apply ok_or_spec. vm_compute. reflexivity.
Defined.

Lemma resize_shrink_fails_witness :
  memory_allocator_resize demo_cfg demo2.1 10 (ms demo_w2) = Ok (0, ms demo_w2).
Proof.
  refine (resize_shrink_fails demo_cfg 0x1040 0x13e0 demo_w2 demo2.1 100 10 176 (demo2.1 + 136)
    demo_cfg_ok demo_span_ok demo_w2_reachable _ _ _ _ (demo_req 10 _) _);
    try (vm_compute; reflexivity). lia.
Defined.
End MemAllocSafe.
