(* ===== verification/CString.v ===== *)
(** * Memory and string functions (libc/string.c)

    The functions work on a memory that is an array of bytes; an address is an
    index in it, reading or writing outside is [FBounds].  The theorems show
    that the word-wise copies and fills are the byte-wise ones, that [memmove]
    copies overlapping areas correctly, and what the string functions compute on
    well-formed strings. *)

From S2P Require Import Prelude Endian.

Module CString.
Import Endian.

Section ops.
(** [sizeof(reg_t)]; the widths of [int_fast8_t] and [uint_fast8_t]; the sign of
    [char]. *)
Context (reg_size : Z) (iw uw : Z) (char_signed : bool).
Implicit Types (m : list Z) (a n c : Z).

(** A byte read as a [char]. *)
Definition chr (b : Z) : Z := if char_signed then wraps 8 b else b.

(** A register sized access: the bytes are moved together. *)
Fixpoint load_bytes m a (k : nat) : outcome (list Z) :=
  match k with
  | O => Ok []
  | S k => b ← aget m a; bs ← load_bytes m (a + 1) k; Ok (b :: bs)
  end.
Fixpoint store_bytes m a (bs : list Z) : outcome (list Z) :=
  match bs with
  | [] => Ok m
  | b :: bs => m ← aset m a b; store_bytes m (a + 1) bs
  end.

(** ** memset *)

(** [while (((uintptr_t)a & reg_t_log2_m1) && count) count--, *a++ = s;] *)
Fixpoint memset_align m a (s : Z) (count : nat) : outcome (list Z * Z * nat) :=
  match count with
  | O => Ok (m, a, O)
  | S count' =>
      if negb (Z.land a (reg_size - 1) =? 0)
      then m ← aset m a s; memset_align m (a + 1) s count'
      else Ok (m, a, count)
  end.

(** [for (r = (reg_t*\)a; count; count -= sizeof(reg_t)) *r++ = v;] *)
Fixpoint memset_words (fuel : nat) m a (v count : Z) : outcome (list Z * Z) :=
  match fuel with
  | O => Err FFuel
  | S fuel =>
      if count =? 0 then Ok (m, a)
      else m ← store_bytes m a (le_bytes reg_size v);
           memset_words fuel m (a + reg_size) v (count - reg_size)
  end.

Fixpoint memset_bytes m a (s : Z) (count : nat) : outcome (list Z) :=
  match count with
  | O => Ok m
  | S count => m ← aset m a s; memset_bytes m (a + 1) s count
  end.

Definition memset m (dst s n : Z) : outcome (list Z) :=
  let s := wrapu 8 s in
  let v := wrapu (8 * reg_size) (s * wrapu (8 * reg_size) 0x0101010101010101) in
  '(m, a, count) ← memset_align m dst s (Z.to_nat n);
  let count := Z.of_nat count in
  let ucount := Z.land count (reg_size - 1) in
  let count := Z.land count (Z.lnot (reg_size - 1)) in
  '(m, a) ← memset_words (S (Z.to_nat count)) m a v count;
  memset_bytes m a s (Z.to_nat ucount).

(** ** memcpy, memmove *)

(** [while (size >= sizeof(reg_t)) { *dst++ = *src++; size -= sizeof(reg_t); }] *)
Fixpoint memcpy_words (fuel : nat) m (dst src size : Z) : outcome (list Z * Z * Z * Z) :=
  match fuel with
  | O => Err FFuel
  | S fuel =>
      if reg_size <=? size then
        r ← load_bytes m src (Z.to_nat reg_size);
        m ← store_bytes m dst r;
        memcpy_words fuel m (dst + reg_size) (src + reg_size) (size - reg_size)
      else Ok (m, dst, src, size)
  end.

Fixpoint memcpy_bytes m (dst src : Z) (size : nat) : outcome (list Z) :=
  match size with
  | O => Ok m
  | S size => b ← aget m src; m ← aset m dst b; memcpy_bytes m (dst + 1) (src + 1) size
  end.

Definition memcpy m (dst src size : Z) : outcome (list Z) :=
  '(m, dst, src, size) ←
    (if (Z.land dst (reg_size - 1) =? 0) && (Z.land src (reg_size - 1) =? 0)
     then memcpy_words (S (Z.to_nat size)) m dst src size
     else Ok (m, dst, src, size));
  memcpy_bytes m dst src (Z.to_nat size).

(** [dst_] and [src_] start at the end of the areas. *)
Fixpoint __memcpy_reverse m (dst src : Z) (size : nat) : outcome (list Z) :=
  match size with
  | O => Ok m
  | S size => b ← aget m (src + Z.of_nat size); m ← aset m (dst + Z.of_nat size) b;
              __memcpy_reverse m dst src size
  end.

Definition memmove m (dst src size : Z) : outcome (list Z) :=
  if src <? dst then __memcpy_reverse m dst src (Z.to_nat size) else memcpy m dst src size.

(** ** Comparison and search in memory *)

Fixpoint memcmp m (d s : Z) (count : nat) : outcome Z :=
  match count with
  | O => Ok 0
  | S count =>
      x ← aget m d; y ← aget m s;
      let r := wraps iw (x - y) in
      if negb (r =? 0) then Ok r else memcmp m (d + 1) (s + 1) count
  end.

(** The byte is compared as [unsigned char] with the signed argument. *)
Fixpoint memchr m (pc c : Z) (n : nat) : outcome (option Z) :=
  match n with
  | O => Ok None
  | S n => b ← aget m pc; if b =? wraps iw c then Ok (Some pc) else memchr m (pc + 1) c n
  end.

Fixpoint memccpy m (dst src c : Z) (count : nat) : outcome (option Z * list Z) :=
  match count with
  | O => Ok (None, m)
  | S count =>
      b ← aget m src; m ← aset m dst b;
      b ← aget m src;
      if b =? wrapu 8 c then Ok (Some (dst + 1), m) else memccpy m (dst + 1) (src + 1) c count
  end.

Fixpoint memcstcmp m (s1 v : Z) (n : nat) : outcome Z :=
  match n with
  | O => Ok 0
  | S n =>
      b ← aget m s1;
      if negb (wraps 8 b =? wraps 8 v) then Ok (wraps iw (wraps 8 b - wraps 8 v))
      else memcstcmp m (s1 + 1) v n
  end.

(** ** Strings

    Loops that end on a null byte are bounded by the size of the memory: they
    fall off its end before the bound is reached. *)

Fixpoint strlen_loop (fuel : nat) m (s : Z) : outcome Z :=
  match fuel with
  | O => Err FFuel
  | S fuel => b ← aget m s; if b =? 0 then Ok s else strlen_loop fuel m (s + 1)
  end.
Definition strlen m (s : Z) : outcome Z := e ← strlen_loop (S (length m)) m s; Ok (e - s).

(** [while (1) { if (!( *s = *t)) break; s++; t++; }], also the loop of [strcpy] *)
Fixpoint strcpy_loop (fuel : nat) m (s t : Z) : outcome (list Z) :=
  match fuel with
  | O => Err FFuel
  | S fuel =>
      b ← aget m t; m ← aset m s b;
      if b =? 0 then Ok m else strcpy_loop fuel m (s + 1) (t + 1)
  end.
Definition strcpy m (s1 s2 : Z) : outcome (list Z) := strcpy_loop (S (length m)) m s1 s2.
Definition strcat m (s t : Z) : outcome (list Z) :=
  l ← strlen m s; strcpy_loop (S (length m)) m (s + l) t.

(** The copying loop of [strncat]; returns the position it ends on. *)
Fixpoint strncat_loop m (d s : Z) (n : nat) : outcome (list Z * Z) :=
  match n with
  | O => Ok (m, d)
  | S n => b ← aget m s; m ← aset m d b; if b =? 0 then Ok (m, d) else strncat_loop m (d + 1) (s + 1) n
  end.
Definition strncat m (dst src : Z) (n : nat) : outcome (list Z) :=
  match n with
  | O => Ok m
  | _ => d ← strlen_loop (S (length m)) m dst;
         '(m, d) ← strncat_loop m d src n;
         aset m d 0
  end.

Fixpoint strchr_loop (fuel : nat) m (t c : Z) : outcome (option Z) :=
  match fuel with
  | O => Err FFuel
  | S fuel =>
      b ← aget m t;
      if b =? wrapu 8 c then Ok (Some t)
      else if b =? 0 then Ok None else strchr_loop fuel m (t + 1) c
  end.
Definition strchr m (t c : Z) : outcome (option Z) := strchr_loop (S (length m)) m t c.

Fixpoint strrchr_loop (fuel : nat) m (t c : Z) (last : option Z) : outcome (option Z) :=
  match fuel with
  | O => Err FFuel
  | S fuel =>
      b ← aget m t;
      let last := if b =? wrapu 8 c then Some t else last in
      if b =? 0 then Ok last else strrchr_loop fuel m (t + 1) c last
  end.
Definition strrchr m (t c : Z) : outcome (option Z) := strrchr_loop (S (length m)) m t c None.

Fixpoint strcmp_loop (fuel : nat) m (s1 s2 : Z) : outcome Z :=
  match fuel with
  | O => Err FFuel
  | S fuel =>
      x ← aget m s1;
      if x =? 0 then y ← aget m s2; Ok (wraps iw (chr x - chr y))
      else y ← aget m s2;
           if x =? y then strcmp_loop fuel m (s1 + 1) (s2 + 1)
           else Ok (wraps iw (chr x - chr y))
  end.
Definition strcmp m (s1 s2 : Z) : outcome Z := strcmp_loop (S (length m)) m s1 s2.

(** [tmp] is the result of [malloc], 0 for [NULL]. *)
Definition strdup m (s tmp : Z) : outcome (Z * list Z) :=
  len ← strlen m s;
  if tmp =? 0 then Ok (0, m)
  else m ← memcpy m tmp s len; m ← aset m (tmp + len) 0; Ok (tmp, m).

Fixpoint strstr_loop m (haystack needle : Z) (nl : nat) (i : nat) : outcome (option Z) :=
  match i with
  | O => Ok None
  | S i =>
      x ← aget m haystack; y ← aget m needle;
      r ← (if x =? y then memcmp m haystack needle nl else Ok 1);
      if (x =? y) && (r =? 0) then Ok (Some haystack)
      else strstr_loop m (haystack + 1) needle nl i
  end.
Definition strstr m (haystack needle : Z) : outcome (option Z) :=
  nl ← strlen m needle;
  hl ← strlen m haystack;
  if nl =? 0 then Ok (Some haystack)
  else if hl <? nl then Ok None
  else strstr_loop m haystack needle (Z.to_nat nl) (Z.to_nat (hl - nl + 1)).

(** A [char] folded to lower case and offset by 'A', as an [uint_fast8_t]. *)
Definition fold_case (b : Z) : Z :=
  let x := wrapu uw (chr b - 65) in if x <? 26 then x + 32 else x.

(** The end of the strings is tested against [(uint32_t)-'A']. *)
Fixpoint strcasecmp_loop (fuel : nat) m (s1 s2 : Z) : outcome Z :=
  match fuel with
  | O => Err FFuel
  | S fuel =>
      y ← aget m s2; let x2 := fold_case y in
      x ← aget m s1; let x1 := fold_case x in
      if negb (x2 =? x1) || (x1 =? 2 ^ 32 - 65) then Ok (wraps iw (x1 - x2))
      else strcasecmp_loop fuel m (s1 + 1) (s2 + 1)
  end.
Definition strcasecmp m (s1 s2 : Z) : outcome Z := strcasecmp_loop (S (length m)) m s1 s2.

Fixpoint strncasecmp m (s1 s2 : Z) (len : nat) : outcome Z :=
  match len with
  | O => Ok 0
  | S len =>
      y ← aget m s2; let x2 := fold_case y in
      x ← aget m s1; let x1 := fold_case x in
      if negb (x2 =? x1) || (x1 =? 2 ^ 32 - 65) then Ok (wraps iw (x1 - x2))
      else strncasecmp m (s1 + 1) (s2 + 1) len
  end.

Fixpoint strncpy m (dest src : Z) (n : nat) : outcome (list Z) :=
  match n with
  | O => Ok m
  | S n' =>
      b ← aget m src;
      if b =? 0 then memset_bytes m dest 0 n
      else m ← aset m dest b; strncpy m (dest + 1) (src + 1) n'
  end.

Fixpoint strncmp m (a b : Z) (n : nat) : outcome Z :=
  match n with
  | O => Ok 0
  | S n =>
      x ← aget m a; y ← aget m b;
      let res := wraps iw (x - y) in
      if negb (res =? 0) then Ok res
      else if x =? 0 then Ok 0 else strncmp m (a + 1) (b + 1) n
  end.

(** [for (i = 0; i < al; i++) if ( *s == set[i]) ...] *)
Fixpoint in_set m (b set : Z) (al : nat) : outcome bool :=
  match al with
  | O => Ok false
  | S al => x ← aget m set; if b =? x then Ok true else in_set m b (set + 1) al
  end.

Fixpoint span_loop (fuel : nat) m (s set : Z) (al : nat) (accept : bool) (l : Z) : outcome Z :=
  match fuel with
  | O => Err FFuel
  | S fuel =>
      b ← aget m s;
      if b =? 0 then Ok l
      else i ← in_set m b set al;
           if Bool.eqb i accept then span_loop fuel m (s + 1) set al accept (l + 1) else
           (* the loop tests [a] before reading the next byte *) Ok l
  end.
Definition strspn m (s accept : Z) : outcome Z :=
  al ← strlen m accept; span_loop (S (length m)) m s accept (Z.to_nat al) true 0.
Definition strcspn m (s reject : Z) : outcome Z :=
  al ← strlen m reject; span_loop (S (length m)) m s reject (Z.to_nat al) false 0.

(** Returns the token, the new position and the memory. *)
Definition strtok_r m (s delim : Z) (ptr : Z) : outcome (option Z * Z * list Z) :=
  let s := if s =? 0 then ptr else s in
  n ← strspn m s delim;
  let s := s + n in
  b ← aget m s;
  if negb (b =? 0) then
    k ← strcspn m s delim;
    let e := s + k in
    b ← aget m e;
    if negb (b =? 0) then m ← aset m e 0; Ok (Some s, e + 1, m) else Ok (Some s, e, m)
  else Ok (None, s, m).

(** The inner scan of [strpbrk], up to the null byte of [s2]. *)
Fixpoint scan_set (fuel : nat) m (c scanp : Z) : outcome bool :=
  match fuel with
  | O => Err FFuel
  | S fuel => sc ← aget m scanp;
              if sc =? 0 then Ok false else if sc =? c then Ok true else scan_set fuel m c (scanp + 1)
  end.
Fixpoint strpbrk_loop (fuel : nat) m (s1 s2 : Z) : outcome (option Z) :=
  match fuel with
  | O => Err FFuel
  | S fuel =>
      c ← aget m s1;
      if c =? 0 then Ok None
      else f ← scan_set (S (length m)) m c s2;
           if (f : bool) then Ok (Some s1) else strpbrk_loop fuel m (s1 + 1) s2
  end.
Definition strpbrk m (s1 s2 : Z) : outcome (option Z) := strpbrk_loop (S (length m)) m s1 s2.
End ops.

(** ** Areas of memory *)

(** The [n] bytes of [m] from [a] on. *)
Definition slice (m : list Z) (a n : nat) : list Z := take n (drop a m).

Lemma slice_length m a n : (a + n ≤ length m)%nat → length (slice m a n) = n.
Proof. intros. unfold slice. rewrite length_take, length_drop. lia. Qed.

Lemma slice_lookup m a n i : (i < n)%nat → slice m a n !! i = m !! (a + i)%nat.
Proof. intros. unfold slice. rewrite lookup_take_lt by done. apply lookup_drop. Qed.

Lemma slice_app m a n k : slice m a (n + k) = slice m a n ++ slice m (a + n) k.
Proof. unfold slice. rewrite <-drop_drop. symmetry. apply take_take_drop. Qed.

Lemma slice_cons m a n b : m !! a = Some b → slice m a (S n) = b :: slice m (S a) n.
Proof. intros Hb. unfold slice. by rewrite (drop_S _ b). Qed.

Lemma write_at_length m a bs : (a + length bs ≤ length m)%nat → length (write_at m a bs) = length m.
Proof. intros. unfold write_at. rewrite !length_app, length_take, length_drop. lia. Qed.

Lemma write_at_out m a bs i :
  (a + length bs ≤ length m)%nat → (i < a ∨ a + length bs ≤ i)%nat → write_at m a bs !! i = m !! i.
Proof.
  intros Hl Hi. unfold write_at. destruct (decide (i < a)%nat).
  - rewrite lookup_app_l by (rewrite length_take; lia). by apply lookup_take_lt.
  - rewrite lookup_app_r by (rewrite length_take; lia). rewrite length_take.
    rewrite lookup_app_r by lia. rewrite lookup_drop. f_equal. lia.
Qed.

Lemma write_at_app m a bs cs :
  (a + length bs + length cs ≤ length m)%nat →
  write_at (write_at m a bs) (a + length bs) cs = write_at m a (bs ++ cs).
Proof.
  revert m a; induction bs as [|b bs IH]; intros m a Hl; simpl in *.
  - by rewrite write_at_nil, Nat.add_0_r.
  - rewrite !write_at_cons by lia. rewrite <-IH by (rewrite length_insert; lia).
    by replace (a + S (length bs))%nat with (S a + length bs)%nat by lia.
Qed.

Lemma slice_write_disjoint m a bs b n :
  (a + length bs ≤ length m)%nat → (a + length bs ≤ b ∨ b + n ≤ a)%nat →
  slice (write_at m a bs) b n = slice m b n.
Proof.
  intros Hl Hd. apply list_eq. intros i. destruct (decide (i < n)%nat).
  - rewrite !slice_lookup by done. apply write_at_out; [done|lia].
  - unfold slice. rewrite !lookup_take_ge by lia. done.
Qed.

Lemma slice_write_same m a bs :
  (a + length bs ≤ length m)%nat → slice (write_at m a bs) a (length bs) = bs.
Proof.
  intros Hl. apply list_eq. intros i. destruct (decide (i < length bs)%nat).
  - rewrite slice_lookup by done. by apply write_at_lookup.
  - unfold slice. rewrite lookup_take_ge by lia. symmetry. apply lookup_ge_None. lia.
Qed.

Lemma aget_in (m : list Z) (a : nat) : (a < length m)%nat → ∃ b, m !! a = Some b ∧ aget m (Z.of_nat a) = Ok b.
Proof.
  intros Ha. destruct (lookup_lt_is_Some_2 _ _ Ha) as [b Hb]. exists b. split; [done|].
  by apply aget_nat.
Qed.

Lemma load_bytes_spec m (a k : nat) :
  (a + k ≤ length m)%nat → load_bytes m (Z.of_nat a) k = Ok (slice m a k).
Proof.
  revert a; induction k as [|k IH]; intros a Ha; cbn [load_bytes]; [done|].
  destruct (aget_in m a) as (b & Hb & ->); [lia|]. cbn [mbind outcome_bind].
  replace (Z.of_nat a + 1) with (Z.of_nat (S a)) by lia. rewrite IH by lia. cbn [mbind outcome_bind].
  by rewrite (slice_cons _ _ _ _ Hb).
Qed.

Lemma store_bytes_spec m (a : nat) bs :
  (a + length bs ≤ length m)%nat → store_bytes m (Z.of_nat a) bs = Ok (write_at m a bs).
Proof.
  revert m a; induction bs as [|b bs IH]; intros m a Ha; simpl in *; [by rewrite write_at_nil|].
  rewrite aset_nat by lia. cbn [mbind outcome_bind].
  replace (Z.of_nat a + 1) with (Z.of_nat (S a)) by lia.
  rewrite IH by (rewrite length_insert; lia). by rewrite write_at_cons by lia.
Qed.

(** ** memset *)

Lemma memset_bytes_spec m (a n : nat) s :
  (a + n ≤ length m)%nat → memset_bytes m (Z.of_nat a) s n = Ok (write_at m a (replicate n s)).
Proof.
  revert m a; induction n as [|n IH]; intros m a Ha; cbn [memset_bytes replicate]; [by rewrite write_at_nil|].
  rewrite aset_nat by lia. cbn [mbind outcome_bind].
  replace (Z.of_nat a + 1) with (Z.of_nat (S a)) by lia.
  rewrite IH by (rewrite length_insert; lia). by rewrite write_at_cons by lia.
Qed.

Lemma memset_align_spec rs m (a n : nat) s :
  (a + n ≤ length m)%nat →
  ∃ k, (k ≤ n)%nat ∧ memset_align rs m (Z.of_nat a) s n =
    Ok (write_at m a (replicate k s), Z.of_nat (a + k), (n - k)%nat).
Proof.
  revert m a; induction n as [|n IH]; intros m a Ha; cbn [memset_align].
  - exists O. split; [done|]. cbn [replicate]. by rewrite write_at_nil, Nat.add_0_r.
  - destruct (negb _).
    + rewrite aset_nat by lia. cbn [mbind outcome_bind].
      replace (Z.of_nat a + 1) with (Z.of_nat (S a)) by lia.
      destruct (IH (<[a := s]> m) (S a)) as (k & Hk & ->); [rewrite length_insert; lia|].
      exists (S k). split; [lia|]. cbn [replicate]. rewrite write_at_cons by lia.
      by replace (S a + k)%nat with (a + S k)%nat by lia.
    + exists O. split; [lia|]. cbn [replicate]. by rewrite write_at_nil, Nat.add_0_r.
Qed.

Lemma memset_words_spec (rs : nat) v s q : ∀ fuel m (a : nat),
  (0 < rs)%nat → le_bytes (Z.of_nat rs) v = replicate rs s →
  (q * rs < fuel)%nat → (a + q * rs ≤ length m)%nat →
  memset_words (Z.of_nat rs) fuel m (Z.of_nat a) v (Z.of_nat (q * rs)) =
    Ok (write_at m a (replicate (q * rs) s), Z.of_nat (a + q * rs)).
Proof.
  induction q as [|q IH]; intros fuel m a Hrs Hv Hf Ha; (destruct fuel as [|fuel]; [lia|]); cbn [memset_words].
  - simpl. by rewrite write_at_nil, Nat.add_0_r.
  - destruct (Z.eqb_spec (Z.of_nat (S q * rs)) 0); [lia|]. rewrite Hv.
    rewrite store_bytes_spec by (rewrite length_replicate; lia). cbn [mbind outcome_bind].
    replace (Z.of_nat a + Z.of_nat rs) with (Z.of_nat (a + rs)) by lia.
    replace (Z.of_nat (S q * rs) - Z.of_nat rs) with (Z.of_nat (q * rs)) by lia.
    rewrite IH; [|done|done|lia|rewrite write_at_length; rewrite ?length_replicate; lia].
    pose proof (write_at_app m a (replicate rs s) (replicate (q * rs) s)) as E.
    rewrite !length_replicate in E. rewrite E by lia. rewrite <-replicate_add.
    apply (f_equal2 (λ x y, Ok (x, y))); [done|lia].
Qed.

(** Every byte of the word that [memset] stores is the fill byte. *)
Lemma memset_word_bytes rs s :
  rs ∈ [1; 2; 4; 8] → 0 ≤ s < 256 →
  le_bytes rs (wrapu (8 * rs) (s * wrapu (8 * rs) 0x0101010101010101)) = replicate (Z.to_nat rs) s.
Proof.
  intros Hr Hs.
  assert (forallb (λ rs, forallb (λ s, bool_decide (le_bytes rs (wrapu (8 * rs)
    (s * wrapu (8 * rs) 0x0101010101010101)) = replicate (Z.to_nat rs) s)) (seqZ 0 256)) [1; 2; 4; 8] = true)
    as Hall by (vm_compute; reflexivity).
  rewrite forallb_forall in Hall. specialize (Hall rs (proj1 (list_elem_of_In _ _) Hr)).
  rewrite forallb_forall in Hall.
  assert (s ∈ seqZ 0 256) as Hin by (apply elem_of_seqZ; lia).
  specialize (Hall s (proj1 (list_elem_of_In _ _) Hin)).
  by apply bool_decide_eq_true in Hall.
Qed.

Lemma memset_spec rs m (a n : nat) s :
  rs ∈ [1; 2; 4; 8] → (a + n ≤ length m)%nat →
  memset rs m (Z.of_nat a) s (Z.of_nat n) = Ok (write_at m a (replicate n (wrapu 8 s))).
Proof.
  intros Hr Ha. unfold memset. cbv zeta. rewrite Nat2Z.id.
  assert (0 ≤ wrapu 8 s < 256) as Hs by (by apply (wrapu_range 8)).
  set (c := wrapu 8 s) in *. pose proof (memset_word_bytes rs c Hr Hs) as Hw.
  destruct (memset_align_spec rs m a n c Ha) as (k & Hk & ->). cbn [mbind outcome_bind].
  assert (∃ p : nat, rs = 2 ^ Z.of_nat p) as [p Ep].
  { rewrite !elem_of_cons, elem_of_nil in Hr.
    destruct Hr as [->|[->|[->|[->|[]]]]]; [by exists 0%nat|by exists 1%nat|by exists 2%nat|by exists 3%nat]. }
  assert (0 < rs) as Hr0 by (rewrite Ep; apply pow2_pos; lia).
  assert (∀ x, Z.land x (rs - 1) = x mod rs) as Hlow.
  { intros x. rewrite Ep. replace (2 ^ Z.of_nat p - 1) with (Z.ones (Z.of_nat p)) by (rewrite Z.ones_equiv; lia).
    apply Z.land_ones. lia. }
  assert (∀ x, Z.land x (Z.lnot (rs - 1)) = x / rs * rs) as Hhigh.
  { intros x. rewrite Ep. apply land_high. lia. }
  rewrite Hlow, Hhigh.
  set (r := (n - k)%nat). set (q := Z.to_nat (Z.of_nat r / rs)).
  assert (Z.of_nat r / rs * rs = Z.of_nat (q * Z.to_nat rs)) as Eq.
  { unfold q. rewrite Nat2Z.inj_mul, !Z2Nat.id by (try apply Z.div_pos; lia). done. }
  pose proof (Z.div_mod (Z.of_nat r) rs ltac:(lia)) as Hdm.
  pose proof (Z.mod_pos_bound (Z.of_nat r) rs Hr0) as Hmb.
  rewrite Eq. rewrite <-(Z2Nat.id rs) at 1 by lia.
  rewrite (memset_words_spec (Z.to_nat rs) _ c q);
    [|lia|by rewrite Z2Nat.id by lia|lia|rewrite write_at_length; rewrite ?length_replicate; lia].
  cbn [mbind outcome_bind].
  pose proof (write_at_app m a (replicate k c) (replicate (q * Z.to_nat rs) c)) as E1.
  rewrite !length_replicate in E1. rewrite E1 by lia. rewrite <-replicate_add.
  rewrite memset_bytes_spec by (rewrite write_at_length; rewrite ?length_replicate; lia).
  pose proof (write_at_app m a (replicate (k + q * Z.to_nat rs) c)
    (replicate (Z.to_nat (Z.of_nat r mod rs)) c)) as E2.
  rewrite !length_replicate, Nat.add_assoc in E2. rewrite E2 by lia. rewrite <-replicate_add.
  do 3 f_equal. lia.
Qed.

(** ** memcpy and memmove *)

Lemma slice_insert_out m a n i b : (i < a ∨ a + n ≤ i)%nat → slice (<[i := b]> m) a n = slice m a n.
Proof.
  intros Hi. apply list_eq. intros j. destruct (decide (j < n)%nat).
  - rewrite !slice_lookup by done. apply list_lookup_insert_ne. lia.
  - unfold slice. by rewrite !lookup_take_ge by lia.
Qed.

Lemma write_at_snoc m a bs b :
  (a + length bs < length m)%nat →
  write_at (<[(a + length bs)%nat := b]> m) a bs = write_at m a (bs ++ [b]).
Proof.
  revert m a; induction bs as [|c bs IH]; intros m a Ha; simpl in *.
  - rewrite write_at_nil, write_at_cons, write_at_nil by lia. by rewrite Nat.add_0_r.
  - rewrite !write_at_cons by (rewrite ?length_insert; lia).
    rewrite list_insert_insert_ne by lia.
    replace (a + S (length bs))%nat with (S a + length bs)%nat by lia.
    apply IH. rewrite length_insert. lia.
Qed.

Lemma memcpy_bytes_spec m (dst src n : nat) :
  (dst ≤ src ∨ src + n ≤ dst)%nat → (dst + n ≤ length m)%nat → (src + n ≤ length m)%nat →
  memcpy_bytes m (Z.of_nat dst) (Z.of_nat src) n = Ok (write_at m dst (slice m src n)).
Proof.
  revert m dst src; induction n as [|n IH]; intros m dst src Ho Hd Hs; cbn [memcpy_bytes].
  - by rewrite write_at_nil.
  - destruct (aget_in m src) as (b & Hb & ->); [lia|]. cbn [mbind outcome_bind].
    rewrite aset_nat by lia. cbn [mbind outcome_bind].
    replace (Z.of_nat dst + 1) with (Z.of_nat (S dst)) by lia.
    replace (Z.of_nat src + 1) with (Z.of_nat (S src)) by lia.
    rewrite IH by (rewrite ?length_insert; lia).
    rewrite slice_insert_out by lia. rewrite (slice_cons _ _ _ _ Hb), write_at_cons by lia. done.
Qed.

Lemma memcpy_words_spec (rs : nat) : (0 < rs)%nat → ∀ fuel m (dst src n : nat),
  (dst ≤ src ∨ src + n ≤ dst)%nat → (dst + n ≤ length m)%nat → (src + n ≤ length m)%nat →
  (n < fuel)%nat →
  ∃ k, (k ≤ n)%nat ∧ memcpy_words (Z.of_nat rs) fuel m (Z.of_nat dst) (Z.of_nat src) (Z.of_nat n) =
    Ok (write_at m dst (slice m src k), Z.of_nat (dst + k), Z.of_nat (src + k), Z.of_nat (n - k)).
Proof.
  intros Hrs. induction fuel as [|fuel IH]; intros m dst src n Ho Hd Hs Hf; [lia|]. cbn [memcpy_words].
  destruct (Z.leb_spec (Z.of_nat rs) (Z.of_nat n)).
  - rewrite Nat2Z.id, load_bytes_spec by lia. cbn [mbind outcome_bind].
    rewrite store_bytes_spec by (rewrite slice_length; lia). cbn [mbind outcome_bind].
    rewrite <-!Nat2Z.inj_add, <-Nat2Z.inj_sub by lia.
    assert (length (slice m src rs) = rs) as Hlen by (apply slice_length; lia).
    destruct (IH (write_at m dst (slice m src rs)) (dst + rs)%nat (src + rs)%nat (n - rs)%nat)
      as (k & Hk & ->); [lia|rewrite write_at_length; lia|rewrite write_at_length; lia|lia|].
    exists (rs + k)%nat. split; [lia|].
    rewrite slice_write_disjoint by lia.
    rewrite slice_app, <-write_at_app by (rewrite ?slice_length; lia). rewrite Hlen.
    by rewrite !Nat.add_assoc, Nat.sub_add_distr.
  - exists O. split; [lia|]. by rewrite write_at_nil, !Nat.add_0_r, Nat.sub_0_r.
Qed.

Lemma memcpy_spec rs m (dst src n : nat) :
  0 < rs → (dst ≤ src ∨ src + n ≤ dst)%nat →
  (dst + n ≤ length m)%nat → (src + n ≤ length m)%nat →
  memcpy rs m (Z.of_nat dst) (Z.of_nat src) (Z.of_nat n) = Ok (write_at m dst (slice m src n)).
Proof.
  intros Hrs Ho Hd Hs. unfold memcpy. destruct (_ && _); cbn [mbind outcome_bind].
  - rewrite Nat2Z.id, <-(Z2Nat.id rs) by lia.
    destruct (memcpy_words_spec (Z.to_nat rs) ltac:(lia) (S n) m dst src n) as (k & Hk & ->); try lia.
    cbn [mbind outcome_bind]. rewrite Nat2Z.id.
    assert (length (slice m src k) = k) as Hlen by (apply slice_length; lia).
    rewrite memcpy_bytes_spec by (rewrite ?write_at_length; lia).
    rewrite slice_write_disjoint by lia.
    replace n with (k + (n - k))%nat at 2 by lia.
    rewrite slice_app, <-write_at_app by (rewrite ?slice_length; lia). by rewrite Hlen.
  - rewrite Nat2Z.id. by apply memcpy_bytes_spec.
Qed.

Lemma memcpy_reverse_spec m (dst src n : nat) :
  (src ≤ dst)%nat → (dst + n ≤ length m)%nat →
  __memcpy_reverse m (Z.of_nat dst) (Z.of_nat src) n = Ok (write_at m dst (slice m src n)).
Proof.
  revert m; induction n as [|n IH]; intros m Ho Hd; cbn [__memcpy_reverse].
  - by rewrite write_at_nil.
  - rewrite <-!Nat2Z.inj_add.
    destruct (aget_in m (src + n)) as (b & Hb & ->); [lia|]. cbn [mbind outcome_bind].
    rewrite aset_nat by lia. cbn [mbind outcome_bind].
    rewrite IH by (rewrite ?length_insert; lia). rewrite slice_insert_out by lia.
    replace (S n) with (n + 1)%nat by lia. rewrite slice_app.
    rewrite (slice_cons _ _ _ _ Hb). simpl.
    assert (length (slice m src n) = n) as Hlen by (apply slice_length; lia).
    rewrite <-write_at_snoc by (rewrite Hlen; lia). by rewrite Hlen.
Qed.

(** [memmove] copies any two areas of the memory, whatever their overlap and
    alignment: afterwards the destination holds what the source held before the
    call, and every other byte is unchanged.  The forward copy goes register by
    register when both addresses are aligned. *)
Theorem memmove_correct rs m (dst src n : nat) :
  0 < rs → (dst + n ≤ length m)%nat → (src + n ≤ length m)%nat →
  ∃ m', memmove rs m (Z.of_nat dst) (Z.of_nat src) (Z.of_nat n) = Ok m' ∧
    slice m' dst n = slice m src n ∧
    ∀ i, (i < dst ∨ dst + n ≤ i)%nat → m' !! i = m !! i.
Proof.
  intros Hrs Hd Hs. exists (write_at m dst (slice m src n)).
  assert (length (slice m src n) = n) as Hlen by (apply slice_length; lia).
  split; [|split].
  - unfold memmove. destruct (Z.ltb_spec (Z.of_nat src) (Z.of_nat dst)).
    + rewrite Nat2Z.id. apply memcpy_reverse_spec; lia.
    + apply memcpy_spec; lia.
  - pose proof (slice_write_same m dst (slice m src n)) as E. rewrite Hlen in E. apply E. lia.
  - intros i Hi. apply write_at_out; lia.
Qed.

Lemma memmove_correct_witness :
  ∃ m', memmove 4 [1;2;3;4;5;6;7;8;9;10;11;12] 4 0 7 = Ok m' ∧
    slice m' 4 7 = [1;2;3;4;5;6;7] ∧ ∀ i, (i < 4 ∨ 4 + 7 ≤ i)%nat → m' !! i = [1;2;3;4;5;6;7;8;9;10;11;12] !! i.
Proof. apply (memmove_correct 4 [1;2;3;4;5;6;7;8;9;10;11;12] 4 0 7); simpl; lia. Defined.

(** [memset] stores the byte at every address of the area and nowhere else,
    for any alignment and any size of a register: the leading bytes, the words
    built from the replicated byte and the trailing bytes cover the area. *)
Theorem memset_correct rs m (a n : nat) s :
  rs ∈ [1; 2; 4; 8] → (a + n ≤ length m)%nat →
  ∃ m', memset rs m (Z.of_nat a) s (Z.of_nat n) = Ok m' ∧
    (∀ i, (a ≤ i < a + n)%nat → m' !! i = Some (wrapu 8 s)) ∧
    ∀ i, (i < a ∨ a + n ≤ i)%nat → m' !! i = m !! i.
Proof.
  intros Hr Ha. eexists. split; [by apply memset_spec|]. split.
  - intros i Hi. replace i with (a + (i - a))%nat by lia.
    rewrite write_at_lookup by (rewrite length_replicate; lia). apply lookup_replicate_2. lia.
  - intros i Hi. apply write_at_out; rewrite length_replicate; lia.
Qed.

Lemma memset_correct_witness :
  ∃ m', memset 4 (replicate 14 0) 3 (-2) 10 = Ok m' ∧
    (∀ i, (3 ≤ i < 3 + 10)%nat → m' !! i = Some (wrapu 8 (-2))) ∧
    ∀ i, (i < 3 ∨ 3 + 10 ≤ i)%nat → m' !! i = replicate 14 0 !! i.
Proof. apply (memset_correct 4 (replicate 14 0) 3 10 (-2)); [set_solver|simpl; lia]. Defined.

(** ** Comparison, copy and search of strings *)

(** The memory holds a string [cs], ended by its null byte, at [a]. *)
Definition cstring (m : list Z) (a : nat) (cs : list Z) : Prop :=
  slice m a (S (length cs)) = cs ++ [0] ∧ Forall (λ c, 0 < c < 256) cs.

Lemma cstring_nil m a : cstring m a [] → m !! a = Some 0.
Proof. intros [Hs _]. simpl in Hs. rewrite <-(Nat.add_0_r a), <-(slice_lookup m a 1) by lia. by rewrite Hs. Qed.

Lemma cstring_cons m a c cs :
  cstring m a (c :: cs) → m !! a = Some c ∧ 0 < c < 256 ∧ cstring m (S a) cs.
Proof.
  intros [Hs Hf]. apply Forall_cons in Hf as [Hc Hf]. simpl in Hs.
  assert (m !! a = Some c) as Hm.
  { rewrite <-(Nat.add_0_r a), <-(slice_lookup m a (S (S (length cs)))) by lia. by rewrite Hs. }
  split; [done|]. split; [done|]. split; [|done].
  rewrite (slice_cons _ _ _ _ Hm) in Hs. by injection Hs.
Qed.

Lemma cstring_bound m a cs : cstring m a cs → (a + length cs < length m)%nat.
Proof.
  revert a; induction cs as [|c cs IH]; intros a Hc.
  - apply cstring_nil, lookup_lt_Some in Hc. simpl. lia.
  - apply cstring_cons in Hc as (_ & _ & Hc). apply IH in Hc. simpl. lia.
Qed.

(** A byte in or after a string. *)
Lemma cstring_app m a cs ds : cstring m a (cs ++ ds) → cstring m (a + length cs) ds.
Proof.
  revert a; induction cs as [|c cs IH]; intros a Hc; simpl in *; [by rewrite Nat.add_0_r|].
  apply cstring_cons in Hc as (_ & _ & Hc). rewrite <-Nat.add_succ_comm. by apply IH.
Qed.

Lemma cstring_slice m a cs : cstring m a cs → slice m a (length cs) = cs.
Proof.
  intros [Hs _]. unfold slice in *. apply (f_equal (take (length cs))) in Hs.
  rewrite take_take, take_app_length in Hs. by rewrite Nat.min_l in Hs by lia.
Qed.

Lemma strlen_loop_spec cs : ∀ fuel m a,
  cstring m a cs → (length cs < fuel)%nat →
  strlen_loop fuel m (Z.of_nat a) = Ok (Z.of_nat (a + length cs)).
Proof.
  induction cs as [|c cs IH]; intros fuel m a Hc Hf; (destruct fuel as [|fuel]; [simpl in Hf; lia|]);
    cbn [strlen_loop].
  - apply cstring_nil in Hc. rewrite (aget_nat _ _ _ Hc). cbn [mbind outcome_bind].
    simpl. by rewrite Nat.add_0_r.
  - apply cstring_cons in Hc as (Hm & Hr & Hc). rewrite (aget_nat _ _ _ Hm). cbn [mbind outcome_bind].
    destruct (Z.eqb_spec c 0); [lia|]. replace (Z.of_nat a + 1) with (Z.of_nat (S a)) by lia.
    rewrite IH by (done || (simpl in Hf; lia)). f_equal. simpl. lia.
Qed.

Lemma strlen_spec m a cs : cstring m a cs → strlen m (Z.of_nat a) = Ok (Z.of_nat (length cs)).
Proof.
  intros Hc. unfold strlen. rewrite (strlen_loop_spec cs) by (done || (apply cstring_bound in Hc; lia)).
  cbn [mbind outcome_bind]. f_equal. lia.
Qed.

(** Bytes of which the difference is kept by an [int_fast8_t]. *)
Lemma byte_diff_zero iw x y :
  8 ≤ iw → 0 ≤ x < 256 → 0 ≤ y < 256 → (wraps iw (x - y) =? 0) = (x =? y).
Proof.
  intros Hw Hx Hy. assert (2 ^ 8 ≤ 2 ^ iw) by (apply Z.pow_le_mono_r; lia).
  assert (2 ^ iw = 2 * 2 ^ (iw - 1)) as E by (rewrite <-Z.pow_succ_r by lia; f_equal; lia).
  change (2 ^ 8) with 256 in *.
  pose proof (wraps_mod iw (x - y) ltac:(lia)) as Hm. pose proof (wraps_range iw (x - y) ltac:(lia)) as Hr.
  destruct (Z.eqb_spec x y) as [->|Hne].
  - rewrite Z.sub_diag, wraps_small by lia. done.
  - apply Z.eqb_neq. intros Hz. rewrite Hz, Z.mod_0_l in Hm by lia. symmetry in Hm.
    apply Z.mod_divide in Hm as [k Hk]; [|lia]. 
    destruct (Z.eq_dec k 0) as [->|]; [lia|]. assert (1 ≤ Z.abs k) by lia.
    assert (Z.abs (x - y) = Z.abs k * 2 ^ iw) by (rewrite Hk, Z.abs_mul; f_equal; lia). nia.
Qed.

Definition bytes (l : list Z) : Prop := Forall (λ b, 0 ≤ b < 256) l.

Lemma memcmp_zero iw m (d s n : nat) :
  8 ≤ iw → bytes m → (d + n ≤ length m)%nat → (s + n ≤ length m)%nat →
  ∃ r, memcmp iw m (Z.of_nat d) (Z.of_nat s) n = Ok r ∧ (r =? 0) = bool_decide (slice m d n = slice m s n).
Proof.
  intros Hw Hb. revert d s; induction n as [|n IH]; intros d s Hd Hs; cbn [memcmp].
  - by exists 0.
  - destruct (aget_in m d) as (x & Hx & ->); [lia|]. cbn [mbind outcome_bind].
    destruct (aget_in m s) as (y & Hy & ->); [lia|]. cbn [mbind outcome_bind]. cbv zeta.
    pose proof (proj1 (Forall_lookup _ _) Hb _ _ Hx) as Hx'. pose proof (proj1 (Forall_lookup _ _) Hb _ _ Hy) as Hy'.
    rewrite (slice_cons _ _ _ _ Hx), (slice_cons _ _ _ _ Hy). rewrite byte_diff_zero by done.
    destruct (Z.eqb_spec x y) as [->|Hne]; cbn [negb].
    + replace (Z.of_nat d + 1) with (Z.of_nat (S d)) by lia. replace (Z.of_nat s + 1) with (Z.of_nat (S s)) by lia.
      destruct (IH (S d) (S s)) as (r & -> & Hr); [lia..|]. exists r. split; [done|]. rewrite Hr.
      apply bool_decide_ext. split; [congruence|by intros [= ?]].
    + eexists. split; [done|]. rewrite byte_diff_zero by done. rewrite bool_decide_eq_false_2 by congruence.
      by apply Z.eqb_neq.
Qed.

(** [memcmp] returns zero exactly when the two areas hold the same bytes,
    whatever the width of its result type. *)
Theorem memcmp_equal_iff iw m (d s n : nat) :
  8 ≤ iw → bytes m → (d + n ≤ length m)%nat → (s + n ≤ length m)%nat →
  (memcmp iw m (Z.of_nat d) (Z.of_nat s) n = Ok 0 ↔ slice m d n = slice m s n) ∧
  is_ok (memcmp iw m (Z.of_nat d) (Z.of_nat s) n) = true.
Proof.
  intros Hw Hb Hd Hs. destruct (memcmp_zero iw m d s n Hw Hb Hd Hs) as (r & -> & Hr). split; [|done].
  split.
  - intros [= ->]. symmetry in Hr. by apply bool_decide_eq_true in Hr.
  - intros E. rewrite bool_decide_eq_true_2 in Hr by done. apply Z.eqb_eq in Hr. by subst.
Qed.

Lemma memcmp_equal_iff_witness :
  (memcmp 8 [255; 1; 0; 255; 1; 1] 0 3 2 = Ok 0 ↔ slice [255; 1; 0; 255; 1; 1] 0 2 = slice [255; 1; 0; 255; 1; 1] 3 2) ∧
  is_ok (memcmp 8 [255; 1; 0; 255; 1; 1] 0 3 2) = true.
Proof.
  apply (memcmp_equal_iff 8 [255; 1; 0; 255; 1; 1] 0 3 2); simpl; [lia| |lia|lia].
  unfold bytes. rewrite !Forall_cons, Forall_nil. lia.
Defined.

Lemma strcpy_loop_spec cs : ∀ fuel m (d s : nat),
  cstring m s cs → (length cs < fuel)%nat → (d + length cs < length m)%nat →
  (d ≤ s ∨ s + length cs < d)%nat →
  strcpy_loop fuel m (Z.of_nat d) (Z.of_nat s) = Ok (write_at m d (cs ++ [0])).
Proof.
  induction cs as [|c cs IH]; intros fuel m d s Hc Hf Hd Ho; (destruct fuel as [|fuel]; [simpl in Hf; lia|]);
    cbn [strcpy_loop]; simpl in Hd, Ho, Hf.
  - apply cstring_nil in Hc. rewrite (aget_nat _ _ _ Hc). cbn [mbind outcome_bind].
    rewrite aset_nat by lia. simpl. by rewrite write_at_cons, write_at_nil by lia.
  - apply cstring_cons in Hc as (Hm & Hr & Hc). rewrite (aget_nat _ _ _ Hm). cbn [mbind outcome_bind].
    rewrite aset_nat by lia. cbn [mbind outcome_bind].
    destruct (Z.eqb_spec c 0); [lia|]. replace (Z.of_nat d + 1) with (Z.of_nat (S d)) by lia.
    replace (Z.of_nat s + 1) with (Z.of_nat (S s)) by lia. rewrite IH; [|split|lia|rewrite length_insert; lia|lia].
    + cbn [app]. by rewrite write_at_cons by lia.
    + rewrite slice_insert_out by lia. apply Hc.
    + apply Hc.
Qed.

Lemma cstring_write m d cs :
  (d + length cs < length m)%nat → Forall (λ c, 0 < c < 256) cs → cstring (write_at m d (cs ++ [0])) d cs.
Proof.
  intros Hd Hf. split; [|done]. pose proof (slice_write_same m d (cs ++ [0])) as E.
  rewrite length_app, Nat.add_1_r in E. apply E. lia.
Qed.

(** [strcat] leaves the concatenation of the two strings at the destination
    and changes no byte outside of it, when the strings and the room for the
    result do not overlap. *)
Theorem strcat_concat m (d s : nat) cs ds :
  cstring m d cs → cstring m s ds → (d + length cs + length ds < length m)%nat →
  (d + length cs + length ds < s ∨ s + length ds < d)%nat →
  ∃ m', strcat m (Z.of_nat d) (Z.of_nat s) = Ok m' ∧ cstring m' d (cs ++ ds) ∧ cstring m' s ds ∧
    ∀ i, (i < d ∨ d + length cs + length ds < i)%nat → m' !! i = m !! i.
Proof.
  intros Hc Hs Hl Ho. exists (write_at m (d + length cs) (ds ++ [0])).
  assert (length (ds ++ [0]) = S (length ds)) as Hn by (rewrite length_app; simpl; lia).
  split; [|split; [|split]].
  - unfold strcat. rewrite (strlen_spec _ _ _ Hc). cbn [mbind outcome_bind]. rewrite <-Nat2Z.inj_add.
    apply (strcpy_loop_spec ds); [done|apply cstring_bound in Hs; lia|lia|lia].
  - split; [|apply Forall_app; split; [apply Hc|apply Hs]].
    rewrite length_app, plus_n_Sm, slice_app, slice_write_disjoint by lia.
    rewrite (cstring_slice _ _ _ Hc), <-(app_assoc cs). f_equal.
    pose proof (slice_write_same m (d + length cs) (ds ++ [0])) as E. rewrite Hn in E. apply E. lia.
  - split; [|apply Hs]. rewrite slice_write_disjoint by lia. apply Hs.
  - intros i Hi. apply write_at_out; lia.
Qed.

Lemma strcat_concat_witness :
  ∃ m', strcat [97; 98; 0; 7; 7; 7; 99; 100; 0] 0 6 = Ok m' ∧ cstring m' 0 [97; 98; 99; 100] ∧
    cstring m' 6 [99; 100] ∧ ∀ i, (i < 0 ∨ 0 + 2 + 2 < i)%nat → m' !! i = [97; 98; 0; 7; 7; 7; 99; 100; 0] !! i.
Proof.
  apply (strcat_concat [97; 98; 0; 7; 7; 7; 99; 100; 0] 0 6 [97; 98] [99; 100]); simpl; [..|lia|lia];
    (split; [done|rewrite !Forall_cons, Forall_nil; lia]).
Defined.

(** The needle occurs in the haystack at offset [j]. *)
Definition occurs_at (hs ns : list Z) (j : nat) : Prop := take (length ns) (drop j hs) = ns.
#[global] Instance occurs_at_dec hs ns j : Decision (occurs_at hs ns j).
Proof. unfold occurs_at. apply _. Defined.

Lemma cstring_slice_in m a cs j n :
  cstring m a cs → (j + n ≤ length cs)%nat → slice m (a + j) n = take n (drop j cs).
Proof.
  intros Hc Hj. rewrite <-(cstring_slice _ _ _ Hc). apply list_eq. intros i. destruct (decide (i < n)%nat).
  - rewrite slice_lookup by done. rewrite lookup_take_lt, lookup_drop by done.
    rewrite slice_lookup by lia. f_equal. lia.
  - unfold slice. by rewrite !lookup_take_ge by lia.
Qed.

Lemma strstr_loop_spec iw m (h nd : nat) hs ns :
  8 ≤ iw → bytes m → cstring m h hs → cstring m nd ns → (0 < length ns)%nat → ∀ i j,
  (i + j = length hs - length ns + 1)%nat → (length ns ≤ length hs)%nat →
  (∀ k, (k < j)%nat → ¬ occurs_at hs ns k) →
  match strstr_loop iw m (Z.of_nat (h + j)) (Z.of_nat nd) (length ns) i with
  | Ok (Some a) => ∃ k, a = Z.of_nat (h + k) ∧ (k + length ns ≤ length hs)%nat ∧ occurs_at hs ns k ∧
                        ∀ k', (k' < k)%nat → ¬ occurs_at hs ns k'
  | Ok None => ∀ k, (k + length ns ≤ length hs)%nat → ¬ occurs_at hs ns k
  | Err _ => False
  end.
Proof.
  intros Hw Hb Hh Hn Hpos. pose proof (cstring_bound _ _ _ Hh). pose proof (cstring_bound _ _ _ Hn).
  induction i as [|i IH]; intros j Hij Hle Hno; cbn [strstr_loop].
  { intros k Hk. apply Hno. lia. }
  destruct (aget_in m (h + j)) as (x & Hx & ->); [lia|]. cbn [mbind outcome_bind].
  destruct (aget_in m nd) as (y & Hy & ->); [lia|]. cbn [mbind outcome_bind].
  destruct (memcmp_zero iw m (h + j) nd (length ns) Hw Hb) as (r & Er & Hr); [lia..|].
  rewrite (cstring_slice_in _ _ _ _ _ Hh) in Hr by lia. rewrite (cstring_slice _ _ _ Hn) in Hr.
  change (take (length ns) (drop j hs) = ns) with (occurs_at hs ns j) in Hr.
  assert (occurs_at hs ns j → x = y) as Hxy.
  { intros Hoc. pose proof (cstring_slice_in _ _ _ j (length ns) Hh ltac:(lia)) as E1.
    rewrite Hoc in E1. pose proof (cstring_slice _ _ _ Hn) as E2.
    apply (f_equal (.!! O)) in E1. apply (f_equal (.!! O)) in E2.
    rewrite slice_lookup, Nat.add_0_r in E1, E2 by lia. congruence. }
  assert (∀ k, (k < S j)%nat → ¬ occurs_at hs ns j → ¬ occurs_at hs ns k) as Hno'.
  { intros k Hk Hnj. destruct (decide (k = j)) as [->|]; [done|]. apply Hno. lia. }
  replace (Z.of_nat (h + j) + 1) with (Z.of_nat (h + S j)) by lia.
  destruct (Z.eqb_spec x y) as [Exy|Nxy]; cbn [andb].
  - rewrite Er. cbn [mbind outcome_bind]. rewrite Hr. case_bool_decide as Hoc; simpl.
    + exists j. split; [done|]. split; [lia|]. done.
    + apply IH; [lia|done|]. intros k Hk. by apply Hno'.
  - cbn [mbind outcome_bind andb]. apply IH; [lia|done|]. intros k Hk. apply Hno'; [done|]. tauto.
Qed.

(** [strstr] finds the first occurrence: on any haystack and needle it
    returns, either the address of an occurrence of the needle before which there
    is none, or null when the needle occurs nowhere. *)
Theorem strstr_first_occurrence iw m (h nd : nat) hs ns :
  8 ≤ iw → bytes m → cstring m h hs → cstring m nd ns →
  match strstr iw m (Z.of_nat h) (Z.of_nat nd) with
  | Ok (Some a) => ∃ k, a = Z.of_nat (h + k) ∧ (k + length ns ≤ length hs)%nat ∧ occurs_at hs ns k ∧
                        ∀ k', (k' < k)%nat → ¬ occurs_at hs ns k'
  | Ok None => ∀ k, (k + length ns ≤ length hs)%nat → ¬ occurs_at hs ns k
  | Err _ => False
  end.
Proof.
  intros Hw Hb Hh Hn. unfold strstr.
  rewrite (strlen_spec _ _ _ Hn), (strlen_spec _ _ _ Hh). cbn [mbind outcome_bind].
  destruct (Z.eqb_spec (Z.of_nat (length ns)) 0) as [E|E].
  - exists O. rewrite Nat.add_0_r. split; [done|]. split; [lia|]. split; [|lia].
    destruct ns; [done|simpl in E; lia].
  - destruct (Z.ltb_spec (Z.of_nat (length hs)) (Z.of_nat (length ns))); [intros k; lia|].
    rewrite Nat2Z.id. replace (Z.of_nat h) with (Z.of_nat (h + 0)) by lia.
    apply strstr_loop_spec; try done; lia.
Qed.

Lemma strstr_first_occurrence_witness :
  match strstr 8 [97; 98; 97; 98; 99; 0; 97; 98; 99; 0] 0 6 with
  | Ok (Some a) => ∃ k, a = Z.of_nat (0 + k) ∧ (k + 3 ≤ 5)%nat ∧ occurs_at [97; 98; 97; 98; 99] [97; 98; 99] k ∧
                        ∀ k', (k' < k)%nat → ¬ occurs_at [97; 98; 97; 98; 99] [97; 98; 99] k'
  | Ok None => ∀ k, (k + 3 ≤ 5)%nat → ¬ occurs_at [97; 98; 97; 98; 99] [97; 98; 99] k
  | Err _ => False
  end.
Proof.
  apply (strstr_first_occurrence 8 [97; 98; 97; 98; 99; 0; 97; 98; 99; 0] 0 6 [97; 98; 97; 98; 99] [97; 98; 99]).
  - lia.
  - unfold bytes. rewrite !Forall_cons, Forall_nil. lia.
  - split; [done|rewrite !Forall_cons, Forall_nil; lia].
  - split; [done|rewrite !Forall_cons, Forall_nil; lia].
Defined.
End CString.
