(* ===== verification/Thread.v ===== *)
(** * Thread life cycle (libpthread/thread.c, libpthread/cancel.c, libpthread/keys.c)

    Creation, termination, join, detach and cancellation of threads over the
    scheduler of [Sched], and the thread specific data keys.  A thread is named
    by the number of its scheduler context; reading or writing a descriptor
    that has been freed is [FCorrupt]. *)

From stdpp Require Import gmap.
From S2P Require Import Prelude Sched.
Import Sched.

Module Thread.

(** [struct pthread_s]; the context embedded in the descriptor [n] is [Ctx n]. *)
Record pthread_s := { lock : bool; state : Z; joined : option nat; joined_retval : Z;
                      start_routine : Z; arg : Z }.

Definition _PTHREAD_STATE_DETACHED : Z := 0.
Definition _PTHREAD_STATE_JOINABLE : Z := 1.
Definition _PTHREAD_STATE_CANCELED : Z := 2.
Definition _PTHREAD_STATE_NOCANCEL : Z := 3.
Definition _PTHREAD_STATE_CANCELASYNC : Z := 4.

Definition _PTHREAD_ATTRFLAG_AFFINITY : Z := 1.
Definition _PTHREAD_ATTRFLAG_STACK : Z := 2.
Definition _PTHREAD_ATTRFLAG_DETACHED : Z := 4.

(** [struct pthread_attr_s]; a null buffer is 0. *)
Record pthread_attr_s := { flags : Z; cpucount : Z; cpulist : list Z; stack_buf : Z; stack_size : Z }.

Definition set_lock (b : bool) (t : pthread_s) : pthread_s :=
  {| lock := b; state := state t; joined := joined t; joined_retval := joined_retval t;
     start_routine := start_routine t; arg := arg t |}.
Definition set_state (z : Z) (t : pthread_s) : pthread_s :=
  {| lock := lock t; state := z; joined := joined t; joined_retval := joined_retval t;
     start_routine := start_routine t; arg := arg t |}.
Definition set_joined (j : nat) (t : pthread_s) : pthread_s :=
  {| lock := lock t; state := state t; joined := Some j; joined_retval := joined_retval t;
     start_routine := start_routine t; arg := arg t |}.
Definition set_retval (v : Z) (t : pthread_s) : pthread_s :=
  {| lock := lock t; state := state t; joined := joined t; joined_retval := v;
     start_routine := start_routine t; arg := arg t |}.

(** The live descriptors. *)
Abbreviation descriptors := (gmap nat pthread_s).

Definition get_thread (ts : descriptors) (t : nat) : outcome pthread_s := of_option FCorrupt (ts !! t).
Definition update (f : pthread_s → pthread_s) (t : nat) (ts : descriptors) : outcome descriptors :=
  th ← get_thread ts t; Ok (<[t := f th]> ts).

Definition lock_spin (t : nat) (ts : descriptors) : outcome descriptors :=
  th ← get_thread ts t;
  _ ← require (negb (lock th)) FSpin;
  update (set_lock true) t ts.
Definition lock_release (t : nat) (ts : descriptors) : outcome descriptors :=
  update (set_lock false) t ts.

(** [atomic_bit_set], [atomic_bit_test] on the state of a thread. *)
Definition atomic_bit_set (bit : Z) (t : nat) (ts : descriptors) : outcome descriptors :=
  update (λ th, set_state (Z.setbit (state th) bit) th) t ts.
Definition atomic_bit_clr (bit : Z) (t : nat) (ts : descriptors) : outcome descriptors :=
  update (λ th, set_state (Z.clearbit (state th) bit) th) t ts.
Definition atomic_bit_test (bit : Z) (t : nat) (ts : descriptors) : outcome bool :=
  th ← get_thread ts t; Ok (Z.testbit (state th) bit).

(** What a join returns: its result, and the value stored through [value_ptr]. *)
Inductive answer := Answer (res : Z) (value : option Z).

Section ops.
Context (cfg : sched_config) (is_candidate : sched_context → option bool).
(** [CONFIG_PTHREAD_CHECK], [CONFIG_PTHREAD_STACK_SIZE], [sizeof(reg_t)] *)
Context (check : bool) (default_stack_size reg_size : Z).
Implicit Types (ts : descriptors) (s : sched_sys) (cpu t : nat).

Definition pthread_self cpu s : outcome nat :=
  c ← get_cur cpu s; match c with Ctx n => Ok n | IdleCtx _ => Err FUndef end.

(** [__pthread_cleanup], on the temporary stack with the scheduler locked. *)
Definition __pthread_cleanup cpu ts s : outcome (descriptors * sched_sys) :=
  this ← pthread_self cpu s;
  _ ← get_thread ts this;
  s ← sched_context_exit cfg is_candidate cpu s;
  Ok (delete this ts, s).

(** [pthread_exit] up to the point where it sets up [__pthread_cleanup]: the
    flag tells whether the thread has been stopped there. *)
Definition pthread_exit cpu (retval : Z) ts s : outcome (bool * descriptors * sched_sys) :=
  this ← pthread_self cpu s;
  ts ← atomic_bit_set _PTHREAD_STATE_CANCELED this ts;
  ts ← lock_spin this ts;
  d ← atomic_bit_test _PTHREAD_STATE_DETACHED this ts;
  if (d : bool) then Ok (false, ts, s)
  else
    th ← get_thread ts this;
    match joined th with
    | None =>
        ts ← atomic_bit_set _PTHREAD_STATE_JOINABLE this ts;
        ts ← update (set_retval retval) this ts;
        '(l, s) ← sched_context_stop_unlock cfg is_candidate cpu true s;
        ts ← update (set_lock l) this ts;
        Ok (true, ts, s)
    | Some joined_thread =>
        ts ← update (set_retval retval) joined_thread ts;
        let s := sched_context_start cfg (Ctx joined_thread) s in
        ts ← lock_release this ts;
        Ok (false, ts, s)
    end.

(** The target has not terminated: register the caller into its descriptor and
    wait, unless a thread is already registered. *)
Definition join_running cpu t ts s : outcome (option answer * descriptors * sched_sys) :=
  th ← get_thread ts t;
  if joined th is Some _ then Ok (Some (Answer EINVAL None), ts, s)
  else
    self ← pthread_self cpu s;
    ts ← update (set_joined self) t ts;
    '(l, s) ← sched_context_stop_unlock cfg is_candidate cpu true s;
    ts ← update (set_lock l) t ts;
    Ok (None, ts, s).

(** The target has terminated: take its value and wake it up. *)
Definition join_terminated t ts s : outcome (option answer * descriptors * sched_sys) :=
  th ← get_thread ts t;
  let s := sched_context_start cfg (Ctx t) s in
  Ok (Some (Answer 0 (Some (joined_retval th))), ts, s).

(** [pthread_join] up to the release of the lock of the target; [None] when the
    caller has been stopped and the lock released. *)
Definition pthread_join_locked cpu t ts s : outcome (option answer * descriptors * sched_sys) :=
  ts ← lock_spin t ts;
  d ← atomic_bit_test _PTHREAD_STATE_DETACHED t ts;
  if check && d then Ok (Some (Answer EINVAL None), ts, s)
  else
    j ← atomic_bit_test _PTHREAD_STATE_JOINABLE t ts;
    if (j : bool) then join_terminated t ts s else join_running cpu t ts s.

Definition pthread_join cpu t ts s : outcome (option answer * descriptors * sched_sys) :=
  '(r, ts, s) ← pthread_join_locked cpu t ts s;
  match r with
  | Some _ => ts ← lock_release t ts; Ok (r, ts, s)
  | None => Ok (r, ts, s)
  end.

(** The end of a [pthread_join] that has been stopped. *)
Definition pthread_join_resume cpu ts s : outcome answer :=
  self ← pthread_self cpu s;
  th ← get_thread ts self;
  Ok (Answer 0 (Some (joined_retval th))).

Definition pthread_detach_locked t ts s : outcome (Z * descriptors * sched_sys) :=
  ts ← lock_spin t ts;
  d ← atomic_bit_test _PTHREAD_STATE_DETACHED t ts;
  ts ← atomic_bit_set _PTHREAD_STATE_DETACHED t ts;
  if negb d then
    j ← atomic_bit_test _PTHREAD_STATE_JOINABLE t ts;
    if (j : bool) then Ok (0, ts, sched_context_start cfg (Ctx t) s) else Ok (0, ts, s)
  else Ok (EINVAL, ts, s).

Definition pthread_detach t ts s : outcome (Z * descriptors * sched_sys) :=
  '(res, ts, s) ← pthread_detach_locked t ts s;
  ts ← lock_release t ts;
  Ok (res, ts, s).

Definition attr_detached (attr : option pthread_attr_s) : bool :=
  match attr with
  | Some at_ => negb (Z.land (flags at_) _PTHREAD_ATTRFLAG_DETACHED =? 0)
  | None => false
  end.

(** [pthread_create].  The results of the calls to other subsystems are
    arguments: the descriptor from [mem_alloc], the error of [lock_init], the
    buffers from [mem_alloc_cpu] and [arch_contextstack_alloc] (0 for [NULL]),
    the error of [context_init].  Returns the error, the new thread, and the
    stack that was freed on failure.  Processor affinity is not followed. *)
Definition pthread_create (attr : option pthread_attr_s) (thread : option nat)
    (lock_err cpu_stack arch_stack context_err : Z) (routine a : Z) ts s
    : outcome (Z * option nat * option Z * descriptors * sched_sys) :=
  match thread with
  | None => Ok (ENOMEM, None, None, ts, s)
  | Some t =>
      if negb (lock_err =? 0) then Ok (ENOMEM, None, None, ts, s)
      else
        let size :=
          match attr with
          | Some at_ => if negb (Z.land (flags at_) _PTHREAD_ATTRFLAG_STACK =? 0) then stack_size at_
                        else default_stack_size
          | None => default_stack_size
          end in
        let stack :=
          match attr with
          | Some at_ =>
              if negb (Z.land (flags at_) _PTHREAD_ATTRFLAG_STACK =? 0) then stack_buf at_
              else if negb (Z.land (flags at_) _PTHREAD_ATTRFLAG_AFFINITY =? 0) then cpu_stack
              else 0
          | None => 0
          end in
        let stack := if stack =? 0 then arch_stack else stack in
        if stack =? 0 then Ok (ENOMEM, None, None, ts, s)
        else
          _ ← require (size mod reg_size =? 0) FAssert;
          if negb (context_err =? 0) then Ok (context_err, None, Some stack, ts, s)
          else
          let th := {| lock := false;
                       state := if attr_detached attr then Z.setbit 0 _PTHREAD_STATE_DETACHED else 0;
                       joined := None; joined_retval := 0; start_routine := routine; arg := a |} in
          Ok (0, Some t, None, <[t := th]> ts, sched_context_start cfg (Ctx t) s)
  end.

(** ** Attributes *)

(** [CONFIG_CPU_MAXCOUNT], [CONFIG_MUTEK_SCHEDULER_MIGRATION] (else [_STATIC]). *)
Context (cpu_maxcount : Z) (migration : bool).

Definition pthread_attr_init (at_ : pthread_attr_s) : Z * pthread_attr_s :=
  (0, {| flags := 0; cpucount := cpucount at_; cpulist := cpulist at_; stack_buf := stack_buf at_;
         stack_size := stack_size at_ |}).

Definition pthread_attr_affinity (cpu : Z) (at_ : pthread_attr_s) : outcome (Z * pthread_attr_s) :=
  let at_ :=
    if Z.land (flags at_) _PTHREAD_ATTRFLAG_AFFINITY =? 0
    then {| flags := Z.lor (flags at_) _PTHREAD_ATTRFLAG_AFFINITY; cpucount := 0;
            cpulist := cpulist at_; stack_buf := stack_buf at_; stack_size := stack_size at_ |}
    else at_ in
  if cpu_maxcount <=? cpucount at_ then Ok (ENOMEM, at_)
  else if migration then
    l ← aset (cpulist at_) (cpucount at_) cpu;
    Ok (0, {| flags := flags at_; cpucount := cpucount at_ + 1; cpulist := l;
              stack_buf := stack_buf at_; stack_size := stack_size at_ |})
  else
    l ← aset (cpulist at_) 0 cpu;
    Ok (0, {| flags := flags at_; cpucount := cpucount at_; cpulist := l;
              stack_buf := stack_buf at_; stack_size := stack_size at_ |}).

Definition pthread_attr_setstack (buf size : Z) (at_ : pthread_attr_s) : Z * pthread_attr_s :=
  (0, {| flags := Z.lor (flags at_) _PTHREAD_ATTRFLAG_STACK; cpucount := cpucount at_;
         cpulist := cpulist at_; stack_buf := buf; stack_size := size |}).
Definition pthread_attr_setstacksize (size : Z) (at_ : pthread_attr_s) : Z * pthread_attr_s :=
  (0, {| flags := Z.lor (flags at_) _PTHREAD_ATTRFLAG_STACK; cpucount := cpucount at_;
         cpulist := cpulist at_; stack_buf := 0; stack_size := size |}).

Definition PTHREAD_CREATE_DETACHED : Z := 1.
Definition PTHREAD_CREATE_JOINABLE : Z := 0.
Definition pthread_attr_setdetachstate (st : Z) (at_ : pthread_attr_s) : Z * pthread_attr_s :=
  (0, {| flags := if st =? PTHREAD_CREATE_DETACHED then Z.lor (flags at_) _PTHREAD_ATTRFLAG_DETACHED
                  else Z.land (flags at_) (wrapu 8 (Z.lnot _PTHREAD_ATTRFLAG_DETACHED));
         cpucount := cpucount at_; cpulist := cpulist at_; stack_buf := stack_buf at_;
         stack_size := stack_size at_ |}).

(** ** Cancellation *)

Definition PTHREAD_CANCELED : Z := -1.
Definition PTHREAD_CANCEL_DISABLE : Z := 0.
Definition PTHREAD_CANCEL_ENABLE : Z := 1.
Definition PTHREAD_CANCEL_DEFERRED : Z := 0.
Definition PTHREAD_CANCEL_ASYNCHRONOUS : Z := 1.

(** Marks the thread; returns the previous mark. *)
Definition pthread_cancel t ts : outcome (bool * descriptors) :=
  o ← atomic_bit_test _PTHREAD_STATE_CANCELED t ts;
  ts ← atomic_bit_set _PTHREAD_STATE_CANCELED t ts;
  Ok (o, ts).

(** [__pthread_cancel_self]: runs the cleanup handlers [handlers], the list of
    the thread with the last pushed first, then exits.  [run] is the effect of
    a handler on the application's state [A].  [None]: the call returns, as
    cancellation is disabled. *)
Definition __pthread_cancel_self {A} (run : Z → A → A) (handlers : list Z) cpu ts s (a : A)
    : outcome (option (bool * descriptors * sched_sys) * A) :=
  self ← pthread_self cpu s;
  n ← atomic_bit_test _PTHREAD_STATE_NOCANCEL self ts;
  if (n : bool) then Ok (None, a)
  else let a := foldl (λ a h, run h a) a handlers in
       r ← pthread_exit cpu PTHREAD_CANCELED ts s;
       Ok (Some r, a).

Definition pthread_testcancel {A} (run : Z → A → A) (handlers : list Z) cpu ts s (a : A)
    : outcome (option (bool * descriptors * sched_sys) * A) :=
  self ← pthread_self cpu s;
  c ← atomic_bit_test _PTHREAD_STATE_CANCELED self ts;
  if (c : bool) then __pthread_cancel_self run handlers cpu ts s a else Ok (None, a).

(** The value stored in [oldstate] is the previous bit. *)
Definition pthread_setcancelstate cpu (st : Z) ts s : outcome (Z * Z * descriptors) :=
  self ← pthread_self cpu s;
  o ← atomic_bit_test _PTHREAD_STATE_NOCANCEL self ts;
  ts ← (if st =? PTHREAD_CANCEL_ENABLE then atomic_bit_clr _PTHREAD_STATE_NOCANCEL self ts
        else atomic_bit_set _PTHREAD_STATE_NOCANCEL self ts);
  Ok (0, Z.b2z o, ts).
Definition pthread_setcanceltype cpu (type : Z) ts s : outcome (Z * Z * descriptors) :=
  self ← pthread_self cpu s;
  o ← atomic_bit_test _PTHREAD_STATE_CANCELASYNC self ts;
  ts ← (if type =? PTHREAD_CANCEL_DEFERRED then atomic_bit_clr _PTHREAD_STATE_CANCELASYNC self ts
        else atomic_bit_set _PTHREAD_STATE_CANCELASYNC self ts);
  Ok (0, Z.b2z o, ts).
End ops.

(** ** The protocol of termination

    The system as a transition system: threads run on the processors of
    [Sched]; [pcs] is where each live thread is in the library, [handles] the
    threads that may still be joined or detached (each once, as POSIX asks),
    [exits] the values threads have ended with.  Descriptors are named by their
    creation: a freed name is not used again. *)
Inductive pc_t := PRun | PExit | PJoin (t : nat).

Record thread_world := { ths : descriptors; sch : sched_sys; pcs : gmap nat pc_t;
                         handles : gset nat; exits : gmap nat Z }.

(** What a step lets a thread observe: the answer of its join. *)
Inductive event := Silent | Joined (j t : nat) (a : answer).

Section world.
Context (cfg : sched_config) (is_candidate : sched_context → option bool).
Context (check : bool) (default_stack_size reg_size : Z).

(** Scheduling: a running thread yields, an idle processor takes an interrupt or
    polls the running queue. *)
Inductive sched_tick (s : sched_sys) : sched_sys → Prop :=
| tick_switch cpu n s' :
    runs s cpu (Ctx n) → sched_context_switch cfg is_candidate cpu s = Ok s' → sched_tick s s'
| tick_irq cpu :
    runs s cpu (IdleCtx cpu) →
    sched_tick s (set_cpu cpu {| sched_cur := IdleCtx cpu; asleep := false |} s)
| tick_idle cpu :
    cpus s !! cpu = Some {| sched_cur := IdleCtx cpu; asleep := false |} →
    sched_tick s (sched_context_idle cfg is_candidate cpu s).

(** The thread [n] runs application code on [cpu]. *)
Definition calls (w : thread_world) (cpu n : nat) (p : pc_t) : Prop :=
  runs (sch w) cpu (Ctx n) ∧ pcs w !! n = Some p.

(** Each call is one step: its critical section runs with interrupts masked, and on
    several processors under the lock of the thread it is about, up to the release
    of that lock. *)
Inductive thread_step (w : thread_world) : event → thread_world → Prop :=
| ts_tick s' :
    sched_tick (sch w) s' →
    thread_step w Silent {| ths := ths w; sch := s'; pcs := pcs w; handles := handles w; exits := exits w |}
| ts_block cpu n s' :
    (* the thread blocks in another primitive *)
    calls w cpu n PRun → sched_context_stop cfg is_candidate cpu (sch w) = Ok s' →
    thread_step w Silent {| ths := ths w; sch := s'; pcs := pcs w; handles := handles w; exits := exits w |}
| ts_unblock n :
    (* and is started again *)
    pcs w !! n = Some PRun → Ctx n ∉ threads (sch w) →
    thread_step w Silent {| ths := ths w; sch := sched_context_start cfg (Ctx n) (sch w); pcs := pcs w;
                            handles := handles w; exits := exits w |}
| ts_create cpu n k attr cs ar r a ts' s' :
    calls w cpu n PRun → ths w !! k = None → exits w !! k = None →
    pthread_create cfg default_stack_size reg_size attr (Some k) 0 cs ar 0 r a (ths w) (sch w)
      = Ok (0, Some k, None, ts', s') →
    thread_step w Silent {| ths := ts'; sch := s'; pcs := <[k := PRun]> (pcs w);
      handles := if attr_detached attr then handles w else {[k]} ∪ handles w; exits := exits w |}
| ts_exit cpu n v b ts' s' :
    calls w cpu n PRun → pthread_exit cfg is_candidate cpu v (ths w) (sch w) = Ok (b, ts', s') →
    thread_step w Silent {| ths := ts'; sch := s'; pcs := <[n := PExit]> (pcs w); handles := handles w;
                            exits := <[n := v]> (exits w) |}
| ts_cleanup cpu n ts' s' :
    calls w cpu n PExit → __pthread_cleanup cfg is_candidate cpu (ths w) (sch w) = Ok (ts', s') →
    thread_step w Silent {| ths := ts'; sch := s'; pcs := delete n (pcs w); handles := handles w;
                            exits := exits w |}
| ts_join cpu n t a ts' s' :
    calls w cpu n PRun → t ∈ handles w →
    pthread_join cfg is_candidate check cpu t (ths w) (sch w) = Ok (Some a, ts', s') →
    thread_step w (Joined n t a) {| ths := ts'; sch := s'; pcs := pcs w; handles := handles w ∖ {[t]};
                                    exits := exits w |}
| ts_join_wait cpu n t ts' s' :
    calls w cpu n PRun → t ∈ handles w →
    pthread_join cfg is_candidate check cpu t (ths w) (sch w) = Ok (None, ts', s') →
    thread_step w Silent {| ths := ts'; sch := s'; pcs := <[n := PJoin t]> (pcs w);
                            handles := handles w ∖ {[t]}; exits := exits w |}
| ts_join_resume cpu n t a :
    calls w cpu n (PJoin t) → pthread_join_resume cpu (ths w) (sch w) = Ok a →
    thread_step w (Joined n t a) {| ths := ths w; sch := sch w; pcs := <[n := PRun]> (pcs w);
                                    handles := handles w; exits := exits w |}
| ts_detach cpu n t r ts' s' :
    calls w cpu n PRun → t ∈ handles w → pthread_detach cfg t (ths w) (sch w) = Ok (r, ts', s') →
    thread_step w Silent {| ths := ts'; sch := s'; pcs := pcs w; handles := handles w ∖ {[t]};
                            exits := exits w |}
| ts_cancel cpu n t r ts' :
    calls w cpu n PRun → t ∈ handles w → pthread_cancel t (ths w) = Ok (r, ts') →
    thread_step w Silent {| ths := ts'; sch := sch w; pcs := pcs w; handles := handles w; exits := exits w |}.

(** The main thread, on the bootstrap processor. *)
Definition main_thread : pthread_s :=
  {| lock := false; state := 0; joined := None; joined_retval := 0; start_routine := 0; arg := 0 |}.
Definition thread_initial (ncpu : nat) : thread_world :=
  {| ths := {[0%nat := main_thread]}; sch := sys (initial ncpu 0); pcs := {[0%nat := PRun]};
     handles := {[0%nat]}; exits := ∅ |}.

Inductive thread_reachable (ncpu : nat) : thread_world → Prop :=
| tr_init : thread_reachable ncpu (thread_initial ncpu)
| tr_step w e w' : thread_reachable ncpu w → thread_step w e w' → thread_reachable ncpu w'.
End world.

(** ** The invariant *)

Definition detached (th : pthread_s) : bool := Z.testbit (state th) _PTHREAD_STATE_DETACHED.
Definition joinable (th : pthread_s) : bool := Z.testbit (state th) _PTHREAD_STATE_JOINABLE.

Definition ctx_num (c : sched_context) : option nat :=
  match c with Ctx n => Some n | IdleCtx _ => None end.
(** The threads that are running or queued to run. *)
Definition up (s : sched_sys) : gset nat := list_to_set (omap ctx_num (threads s)).

(** The state of the descriptor [th] of [t]. *)
Definition thread_ok (pcs : gmap nat pc_t) (hs : gset nat) (ex : gmap nat Z) (u : gset nat)
    (t : nat) (th : pthread_s) (p : pc_t) : Prop :=
  match p with
  | PExit =>
      ∃ v, ex !! t = Some v ∧
        ((t ∈ u ∧ (t ∉ hs)) ∨
         ((t ∉ u) ∧ t ∈ hs ∧ lock th = false ∧ joinable th = true ∧ detached th = false ∧
          joined_retval th = v))
  | _ =>
      lock th = false ∧ joinable th = false ∧ ex !! t = None ∧
      match joined th with
      | None => t ∈ hs ↔ detached th = false
      | Some j => (t ∉ hs) ∧ detached th = false ∧ pcs !! j = Some (PJoin t) ∧ (j ∉ u)
      end
  end.

(** The state of a thread [j] that waits for [t] or has been woken. *)
Definition joiner_ok (ts : descriptors) (pcs : gmap nat pc_t) (ex : gmap nat Z) (u : gset nat)
    (j t : nat) : Prop :=
  (j ∈ u ∧ ∃ jt, ts !! j = Some jt ∧ ex !! t = Some (joined_retval jt)) ∨
  ((j ∉ u) ∧ ∃ th p, ts !! t = Some th ∧ joined th = Some j ∧ pcs !! t = Some p ∧ p ≠ PExit).

Record proto_inv (ts : descriptors) (pcs : gmap nat pc_t) (hs : gset nat) (ex : gmap nat Z)
    (u : gset nat) : Prop := {
  pi_dom : ∀ n, is_Some (pcs !! n) ↔ is_Some (ts !! n);
  pi_up : ∀ n, n ∈ u → is_Some (ts !! n);
  pi_handle : ∀ n, n ∈ hs → is_Some (ts !! n);
  pi_thread : ∀ t th p, ts !! t = Some th → pcs !! t = Some p → thread_ok pcs hs ex u t th p;
  pi_joiner : ∀ j t, pcs !! j = Some (PJoin t) → joiner_ok ts pcs ex u j t }.

Record thread_inv (w : thread_world) : Prop := {
  ti_threads : Forall is_thread (threads (sch w));
  ti_nodup : NoDup (threads (sch w));
  ti_proto : proto_inv (ths w) (pcs w) (handles w) (exits w) (up (sch w)) }.

(** ** Threads that are up *)

Lemma elem_of_up s n : n ∈ up s ↔ Ctx n ∈ threads s.
Proof.
  unfold up. rewrite elem_of_list_to_set, list_elem_of_omap. split.
  - intros ([m|m] & Hin & Hm); simplify_eq/=. done.
  - intros Hin. by exists (Ctx n).
Qed.

Lemma up_perm s s' : threads s' ≡ₚ threads s → up s' = up s.
Proof. intros P. apply set_eq. intros n. rewrite !elem_of_up. by rewrite P. Qed.

Lemma up_cons s s' n : threads s' ≡ₚ Ctx n :: threads s → up s' = {[n]} ∪ up s.
Proof. intros P. apply set_eq. intros m. rewrite elem_of_union, !elem_of_up, P. set_solver. Qed.

Lemma up_uncons s s' n :
  NoDup (threads s) → Ctx n :: threads s' ≡ₚ threads s → up s' = up s ∖ {[n]}.
Proof.
  intros Hd P. rewrite <-P in Hd. apply NoDup_cons in Hd as [Hn _].
  apply set_eq. intros m. rewrite elem_of_difference, elem_of_singleton, !elem_of_up, <-P. set_solver.
Qed.

Lemma runs_up s cpu n : runs s cpu (Ctx n) → n ∈ up s.
Proof.
  intros [b Hc]. rewrite elem_of_up. unfold threads. apply elem_of_app. right.
  apply list_elem_of_omap. eexists. split; [by eapply list_elem_of_lookup_2|done].
Qed.

Section sched_facts.
Context (cfg : sched_config) (f : sched_context → option bool) (s : sched_sys).
Hypothesis Ht : Forall is_thread (threads s).
Hypothesis Hd : NoDup (threads s).

Lemma root_threads : Forall is_thread (root (sched s)).
Proof using Ht. unfold threads in Ht. apply Forall_app in Ht. tauto. Qed.

Lemma tick_facts s' : sched_tick cfg f s s' → Forall is_thread (threads s') ∧ NoDup (threads s') ∧ up s' = up s.
Proof using Ht Hd.
  intros Hk. assert (threads s' ≡ₚ threads s) as P.
  { pose proof root_threads as Hr. destruct Hk as [cpu n s' Hc E|cpu [b Hc]|cpu Hc].
    - by eapply switch_threads.
    - by eapply set_idle_threads.
    - by eapply idle_threads. }
  split; [by rewrite P|]. split; [by rewrite P|]. by apply up_perm.
Qed.

Lemma stop_facts cpu n s' :
  runs s cpu (Ctx n) → sched_context_stop cfg f cpu s = Ok s' →
  Forall is_thread (threads s') ∧ NoDup (threads s') ∧ up s' = up s ∖ {[n]}.
Proof using Ht Hd.
  intros Hc E. pose proof (stop_threads _ _ _ root_threads _ _ _ Hc E) as P.
  pose proof (up_uncons _ _ _ Hd P) as Hu. rewrite <-P in Ht, Hd.
  apply NoDup_cons in Hd as [_ Hd']. apply Forall_cons in Ht as [_ Ht']. done.
Qed.

Lemma start_facts n :
  (n ∉ up s) →
  Forall is_thread (threads (sched_context_start cfg (Ctx n) s)) ∧
  NoDup (threads (sched_context_start cfg (Ctx n) s)) ∧
  up (sched_context_start cfg (Ctx n) s) = {[n]} ∪ up s.
Proof using Ht Hd.
  intros Hn. unfold sched_context_start. pose proof (push_threads cfg (Ctx n) s) as P.
  split; [rewrite P; by constructor|]. split; [|by apply up_cons].
  rewrite P. constructor; [|done]. by rewrite <-elem_of_up.
Qed.

Lemma stop_total cpu n : runs s cpu (Ctx n) → ∃ s', sched_context_stop cfg f cpu s = Ok s'.
Proof.
  intros [b Hc]. unfold sched_context_stop. rewrite (get_cur_Ok _ _ _ _ Hc). cbn [mbind outcome_bind].
  destruct (__sched_candidate _ _ _ _). eauto.
Qed.
End sched_facts.

(** ** Preservation of the protocol *)

Ltac proto := repeat match goal with
  | H : proto_inv _ _ _ _ _ |- proto_inv _ _ _ _ _ =>
      let D := fresh "Hdom" in let U := fresh "Hup" in let N := fresh "Hhan" in
      let T := fresh "Hthr" in let J := fresh "Hjoi" in
      pose proof H as [D U N T J]; clear H; constructor
  end.

(** Case analysis on whether the thread looked at is the one that was changed. *)
Ltac cases_on t n := destruct (decide (t = n)) as [->|]; simplify_map_eq.

Lemma thread_ok_ext pc pc' hs hs' ex ex' u u' t th p :
  thread_ok pc hs ex u t th p →
  (t ∈ hs' ↔ t ∈ hs) → ex' !! t = ex !! t →
  (p = PExit → t ∈ u' ↔ t ∈ u) →
  (∀ j, pc !! j = Some (PJoin t) → (j ∉ u) → pc' !! j = Some (PJoin t) ∧ (j ∉ u')) →
  thread_ok pc' hs' ex' u' t th p.
Proof.
  intros Hok Hh He Hu Hj. destruct p; simpl in *; rewrite ?He; [| |].
  - destruct (joined th); naive_solver.
  - naive_solver.
  - destruct (joined th); naive_solver.
Qed.

Lemma joiner_ok_ext ts ts' pc pc' ex ex' u u' j t :
  joiner_ok ts pc ex u j t →
  (j ∈ u' ↔ j ∈ u) →
  (∀ jt, ts !! j = Some jt → ∃ jt', ts' !! j = Some jt' ∧ joined_retval jt' = joined_retval jt) →
  (∀ v, ex !! t = Some v → ex' !! t = Some v) →
  (∀ th p, ts !! t = Some th → joined th = Some j → pc !! t = Some p → p ≠ PExit →
     ∃ th' p', ts' !! t = Some th' ∧ joined th' = Some j ∧ pc' !! t = Some p' ∧ p' ≠ PExit) →
  joiner_ok ts' pc' ex' u' j t.
Proof.
  intros Hok Hu Hr He Hw. destruct Hok as [(Hin & jt & Hjt & Hv)|(Hin & th & p & Ht & Hj & Hp & Hne)].
  - left. split; [by apply Hu|]. destruct (Hr _ Hjt) as (jt' & ? & E). exists jt'. rewrite E. eauto.
  - right. split; [by rewrite Hu|]. eauto.
Qed.

Lemma proto_unblock ts pc hs ex u n :
  proto_inv ts pc hs ex u → pc !! n = Some PRun → proto_inv ts pc hs ex ({[n]} ∪ u).
Proof.
  intros Hi Hn. proto; [done|set_unfold; naive_solver|done| |].
  - intros t th p Ht Hp. eapply thread_ok_ext; [by eauto|done|done| |].
    + intros ->. destruct (decide (t = n)) as [->|]; [congruence|set_solver].
    + intros j Hj Hju. split; [done|]. destruct (decide (j = n)) as [->|]; [congruence|set_solver].
  - intros j t Hj. eapply joiner_ok_ext; [by eauto| |naive_solver..]. destruct (decide (j = n)) as [->|]; [congruence|set_solver].
Qed.

Lemma proto_block ts pc hs ex u n :
  proto_inv ts pc hs ex u → pc !! n = Some PRun → proto_inv ts pc hs ex (u ∖ {[n]}).
Proof.
  intros Hi Hn. proto; [done|set_unfold; naive_solver|done| |].
  - intros t th p Ht Hp. eapply thread_ok_ext; [by eauto|done|done| |].
    + intros ->. destruct (decide (t = n)) as [->|]; [congruence|set_solver].
    + intros j Hj Hju. split; [done|]. destruct (decide (j = n)) as [->|]; [congruence|set_solver].
  - intros j t Hj. eapply joiner_ok_ext; [by eauto| |naive_solver..]. destruct (decide (j = n)) as [->|]; [congruence|set_solver].
Qed.

Lemma proto_create ts pc hs ex u k th :
  proto_inv ts pc hs ex u → ts !! k = None → ex !! k = None →
  lock th = false → joinable th = false → joined th = None →
  proto_inv (<[k := th]> ts) (<[k := PRun]> pc)
    (if detached th then hs else {[k]} ∪ hs) ex ({[k]} ∪ u).
Proof.
  intros Hi Hk Hx Hl Hj Hn.
  assert (k ∉ hs) as Hkh by (intros [? ?]%(pi_handle _ _ _ _ _ Hi); congruence).
  assert (∀ j q, pc !! j = Some q → j ≠ k) as Hjk.
  { intros j q Hq ->. destruct (proj1 (pi_dom _ _ _ _ _ Hi k)); [eauto|congruence]. }
  assert (∀ m, m ≠ k → m ∈ (if detached th then hs else {[k]} ∪ hs) ↔ m ∈ hs) as Hh
    by (intros; destruct (detached th); set_solver).
  proto.
  - intros n. cases_on n k; [split; eauto|done].
  - intros n. cases_on n k; [eauto|]. set_unfold; naive_solver.
  - intros n. cases_on n k; [eauto|]. rewrite Hh by done. eauto.
  - intros t th' p Ht Hp. cases_on t k.
    + simpl. rewrite ?Hn. split_and!; [done..|]. destruct (detached th'); set_solver.
    + eapply thread_ok_ext; [eauto|by apply Hh|done|set_solver|].
      intros j Hpj Hju. pose proof (Hjk _ _ Hpj). rewrite lookup_insert_ne by done. set_solver.
  - intros j t Hp. cases_on j k. eapply joiner_ok_ext; [by eauto|set_solver| |done|].
    + intros jt Hjt. exists jt. by simplify_map_eq.
    + intros tm p Htm Hjm Hpm Hne. cases_on t k. by exists tm, p.
Qed.

(** The thread [n] ends; no other thread refers to it. *)
Lemma proto_exit_free ts pc hs ex u u' n th th' v :
  proto_inv ts pc hs ex u → pc !! n = Some PRun → ts !! n = Some th → joined th = None →
  (∀ m, m ≠ n → m ∈ u' ↔ m ∈ u) →
  thread_ok (<[n := PExit]> pc) hs (<[n := v]> ex) u' n th' PExit →
  proto_inv (<[n := th']> ts) (<[n := PExit]> pc) hs (<[n := v]> ex) u'.
Proof.
  intros Hi Hp Ht Hj Hu Hok. pose proof (pi_thread _ _ _ _ _ Hi _ _ _ Ht Hp) as (_ & _ & Hx & _). proto.
  - intros m. cases_on m n; [split; eauto|done].
  - intros m. cases_on m n; [eauto|]. intros Hm%Hu; [|done]. eauto.
  - intros m. cases_on m n; eauto.
  - intros m tm pm Hm Hpm. cases_on m n; [done|]. eapply thread_ok_ext; [by eauto|done|by simplify_map_eq|by intros _; apply Hu|].
    intros j Hpj Hju. assert (j ≠ n) by congruence. simplify_map_eq. by rewrite Hu.
  - intros j t Hpj. cases_on j n. eapply joiner_ok_ext; [by eauto|by apply Hu| | |].
    + intros jt Hjt. exists jt. by simplify_map_eq.
    + intros v' Hv'. cases_on t n; first [done|congruence].
    + intros tm p Htm Hjm Hpm Hne. cases_on t n; first [congruence|by exists tm, p].
Qed.

(** The thread [n] ends and hands its value to [j]. *)
Lemma proto_exit_joined ts pc hs ex u n th th' v j jt :
  proto_inv ts pc hs ex u → pc !! n = Some PRun → n ∈ u → ts !! n = Some th → joined th = Some j →
  ts !! j = Some jt →
  proto_inv (<[n := th']> (<[j := set_retval v jt]> ts)) (<[n := PExit]> pc) hs (<[n := v]> ex) ({[j]} ∪ u).
Proof.
  intros Hi Hp Hn Ht Hj Hjt. pose proof (pi_thread _ _ _ _ _ Hi _ _ _ Ht Hp) as Hok. simpl in Hok.
  rewrite Hj in Hok. destruct Hok as (_ & _ & Hx & Hnh & _ & Hpj & Hju).
  assert (j ≠ n) as Hjn by (intros ->; congruence). proto.
  - intros m. cases_on m n; [split; eauto|]. cases_on m j; [split; eauto|done].
  - intros m. cases_on m n; [eauto|]. cases_on m j; [eauto|]. set_unfold; naive_solver.
  - intros m. cases_on m n; [eauto|]. cases_on m j; [eauto|]. naive_solver.
  - intros m tm pm Hm Hpm. cases_on m n; [exists v; simplify_map_eq; set_solver|].
    assert (∃ tm', ts !! m = Some tm' ∧ (thread_ok pc hs ex u m tm' pm → thread_ok pc hs ex u m tm pm)) as (tm' & Htm' & Htr).
    { cases_on m j; [|by exists tm]. by exists jt. }
    eapply thread_ok_ext; [by apply Htr, Hthr|done|by simplify_map_eq| |].
    + intros ->. cases_on m j. set_solver.
    + intros i Hpi Hiu. assert (i ≠ n) by congruence. simplify_map_eq. split; [done|].
      assert (i ≠ j) by congruence. set_solver.
  - intros i t Hpi. cases_on i n. destruct (decide (i = j)) as [->|Hij].
    + simplify_eq. left. split; [set_solver|]. exists (set_retval v jt). by simplify_map_eq.
    + eapply joiner_ok_ext; [by eauto|set_solver| | |].
      * intros it Hit. exists it. by simplify_map_eq.
      * intros v' Hv'. cases_on t n; first [done|congruence].
      * intros tm p Htm Hjm Hpm Hne. destruct (decide (t = n)) as [->|]; [congruence|]. simplify_map_eq. cases_on t j; [by exists (set_retval v jt), (PJoin n)|by exists tm, p].
Qed.

Lemma proto_cleanup ts pc hs ex u n :
  proto_inv ts pc hs ex u → pc !! n = Some PExit → n ∈ u →
  proto_inv (delete n ts) (delete n pc) hs ex (u ∖ {[n]}).
Proof.
  intros Hi Hp Hn. destruct (proj1 (pi_dom _ _ _ _ _ Hi n)) as [th Ht]; [eauto|].
  destruct (pi_thread _ _ _ _ _ Hi _ _ _ Ht Hp) as (v & Hv & [[_ Hh]|[? _]]); [|done]. proto.
  - intros m. cases_on m n; done.
  - intros m Hm. rewrite lookup_delete_ne by set_solver. apply Hup. set_solver.
  - intros m Hm. rewrite lookup_delete_ne by set_solver. by apply Hhan.
  - intros m tm pm Hm Hpm. cases_on m n. eapply thread_ok_ext; [by eauto|done|done|set_solver|].
    intros j Hpj Hju. assert (j ≠ n) by congruence. simplify_map_eq. split; [done|set_solver].
  - intros j t Hpj. cases_on j n. eapply joiner_ok_ext; [by eauto|set_solver| |done|].
    + intros jt Hjt. exists jt. by simplify_map_eq.
    + intros tm p Htm Hjm Hpm Hne. destruct (decide (t = n)) as [->|]; [congruence|]. simplify_map_eq. by exists tm, p.
Qed.

(** The handle of a terminated thread is used: it is started again. *)
Lemma proto_release ts pc hs ex u t th th' :
  proto_inv ts pc hs ex u → t ∈ hs → ts !! t = Some th → joinable th = true →
  (t ∉ u) ∧ ex !! t = Some (joined_retval th) ∧
  proto_inv (<[t := th']> ts) pc (hs ∖ {[t]}) ex ({[t]} ∪ u).
Proof.
  intros Hi Hh Ht Hj. destruct (proj2 (pi_dom _ _ _ _ _ Hi t)) as [p Hp]; [eauto|].
  pose proof (pi_thread _ _ _ _ _ Hi _ _ _ Ht Hp) as Hok.
  destruct p as [| |q]; simpl in Hok; [destruct Hok as (_ & E & _); congruence| |destruct Hok as (_ & E & _); congruence].
  destruct Hok as (v & Hv & [[_ ?]|(Hu & _ & _ & _ & _ & Hr)]); [done|].
  split; [done|]. split; [congruence|]. proto.
  - intros m. cases_on m t; [split; eauto|done].
  - intros m. cases_on m t; [eauto|]. intros ?. apply Hup. set_solver.
  - intros m. cases_on m t; [eauto|]. intros ?. apply Hhan. set_solver.
  - intros m tm pm Hm Hpm. cases_on m t; [exists (joined_retval th); split; [done|set_solver]|].
    eapply thread_ok_ext; [by eauto|set_solver|done|set_solver|].
    intros j Hpj Hju. split; [done|]. assert (j ≠ t) by congruence. set_solver.
  - intros j q Hpj. assert (j ≠ t) by congruence. eapply joiner_ok_ext; [by eauto|set_solver| |done|].
    + intros jt Hjt. exists jt. by simplify_map_eq.
    + intros tm p Htm Hjm Hpm Hne. destruct (decide (q = t)) as [->|]; [congruence|]. simplify_map_eq. by exists tm, p.
Qed.

(** The entry of [t] is changed in place, its handle may be consumed. *)
Lemma proto_update ts pc hs hs' ex u t th th' :
  proto_inv ts pc hs ex u → ts !! t = Some th →
  (∀ m, m ≠ t → m ∈ hs' ↔ m ∈ hs) →
  joined th' = joined th → joined_retval th' = joined_retval th →
  (∀ p, pc !! t = Some p → thread_ok pc hs' ex u t th' p) →
  proto_inv (<[t := th']> ts) pc hs' ex u.
Proof.
  intros Hi Ht Hh Hj Hr Hok. proto.
  - intros m. cases_on m t; [|done]. rewrite Hdom, Ht. split; eauto.
  - intros m. cases_on m t; eauto.
  - intros m. cases_on m t; [eauto|]. rewrite Hh by done. eauto.
  - intros m tm pm Hm Hpm. cases_on m t; [by apply Hok|]. eapply thread_ok_ext; [by eauto|by apply Hh|done..|]. done.
  - intros j q Hpj. eapply joiner_ok_ext; [by eauto|done| |done|].
    + intros jt Hjt. cases_on j t; eauto.
    + intros tm p Htm Hjm Hpm Hne. cases_on q t; [exists th', p|exists tm, p]; rewrite ?Hj; done.
Qed.

(** The thread [n] waits for [t]. *)
Lemma proto_join_wait ts pc hs ex u n t th :
  proto_inv ts pc hs ex u → pc !! n = Some PRun → t ∈ hs → ts !! t = Some th → joinable th = false →
  proto_inv (<[t := set_joined n th]> ts) (<[n := PJoin t]> pc) (hs ∖ {[t]}) ex (u ∖ {[n]}).
Proof.
  intros Hi Hp Hh Ht Hj. destruct (proj2 (pi_dom _ _ _ _ _ Hi t)) as [p Hpt]; [eauto|].
  pose proof (pi_thread _ _ _ _ _ Hi _ _ _ Ht Hpt) as Hok.
  assert (p ≠ PExit ∧ lock th = false ∧ ex !! t = None ∧ joined th = None ∧ detached th = false)
    as (Hne & Hl & Hx & Hjn & Hd).
  { assert (p ≠ PExit) as Hne by (intros ->; destruct Hok as (v & _ & [[_ ?]|(_ & _ & _ & E & _)]); congruence).
    assert (lock th = false ∧ ex !! t = None ∧
      match joined th with None => detached th = false | Some _ => False end) as (Hl & Hx & Hm).
    { destruct p; [|done|]; destruct Hok as (Hl & _ & Hx & Hm); destruct (joined th); tauto. }
    destruct (joined th); [done|]. by split_and!. }
  proto.
  - assert (is_Some (ts !! n)) as Hn by (apply Hdom; eauto). assert (is_Some (ts !! t)) by eauto.
    intros m. rewrite !lookup_insert_is_Some', Hdom. naive_solver.
  - intros m Hm. cases_on m t; [eauto|]. apply Hup. set_solver.
  - intros m Hm. cases_on m t; [eauto|]. apply Hhan. set_solver.
  - intros m tm pm Hm Hpm. cases_on m t.
    + assert (pm ≠ PExit) by (destruct (decide (t = n)) as [->|]; simplify_map_eq; congruence).
      assert (thread_ok (<[n := PJoin t]> pc) (hs ∖ {[t]}) ex (u ∖ {[n]}) t (set_joined n th) PRun) as Hok'.
      { simpl. simplify_map_eq. split_and!; [done..|set_solver|done|done|set_solver]. }
      destruct pm; [exact Hok'|done|exact Hok'].
    + destruct (decide (m = n)) as [->|]; simplify_map_eq.
      * pose proof (Hthr _ _ _ Hm Hp) as Hm'.
        eapply (thread_ok_ext pc _ hs _ ex _ u _ _ _ (PJoin t)); [exact Hm'|set_solver|done|done|].
        intros j Hpj Hju. assert (j ≠ n) by congruence. simplify_map_eq. set_solver.
      * eapply thread_ok_ext; [by eauto|set_solver|done|set_solver|].
        intros j Hpj Hju. assert (j ≠ n) by congruence. simplify_map_eq. set_solver.
  - intros j q Hpj. destruct (decide (j = n)) as [->|]; simplify_map_eq.
    + right. split; [set_solver|]. destruct (decide (q = n)) as [->|].
      * exists (set_joined n th), (PJoin n). by simplify_map_eq.
      * exists (set_joined n th), p. by simplify_map_eq.
    + eapply joiner_ok_ext; [by eauto|set_solver| |done|].
      * intros jt Hjt. cases_on j t; [by exists (set_joined n th)|by exists jt].
      * intros tm p' Htm Hjm Hpm Hne'. destruct (decide (q = t)) as [->|]; [congruence|]. simplify_map_eq.
        destruct (decide (q = n)) as [->|]; simplify_map_eq; [by exists tm, (PJoin t)|by exists tm, p'].
Qed.

(** A woken thread returns from its join. *)
Lemma proto_resume ts pc hs ex u n t :
  proto_inv ts pc hs ex u → pc !! n = Some (PJoin t) → n ∈ u →
  (∃ jt, ts !! n = Some jt ∧ ex !! t = Some (joined_retval jt)) ∧
  proto_inv ts (<[n := PRun]> pc) hs ex u.
Proof.
  intros Hi Hp Hn. destruct (pi_joiner _ _ _ _ _ Hi _ _ Hp) as [[_ Hv]|[? _]]; [|done]. split; [done|]. proto.
  - intros m. cases_on m n; [|done]. rewrite <-Hdom, Hp. split; eauto.
  - done.
  - done.
  - intros m tm pm Hm Hpm. destruct (decide (m = n)) as [->|]; simplify_map_eq.
    + eapply (thread_ok_ext pc _ hs _ ex _ u _ _ _ PRun); [exact (Hthr _ _ _ Hm Hp)|done..|].
      intros j Hpj Hju. assert (j ≠ n) by congruence. by simplify_map_eq.
    + eapply thread_ok_ext; [by eauto|done..|].
      intros j Hpj Hju. assert (j ≠ n) by congruence. by simplify_map_eq.
  - intros j q Hpj. destruct (decide (j = n)) as [->|]; simplify_map_eq.
    eapply joiner_ok_ext; [by eauto|done|naive_solver|done|].
    intros tm p Htm Hjm Hpm Hne. destruct (decide (q = n)) as [->|]; [exists tm, PRun|exists tm, p]; by simplify_map_eq.
Qed.

(** ** Behaviour of the operations *)

Lemma update_spec f t ts th : ts !! t = Some th → update f t ts = Ok (<[t := f th]> ts).
Proof. intros Ht. unfold update, get_thread. by rewrite Ht. Qed.

Lemma lock_spin_spec t ts th :
  ts !! t = Some th → lock th = false → lock_spin t ts = Ok (<[t := set_lock true th]> ts).
Proof. intros Ht Hl. unfold lock_spin, get_thread. rewrite Ht. simpl. rewrite Hl. simpl. by apply update_spec. Qed.

Lemma bit_test_spec bit t ts th :
  ts !! t = Some th → atomic_bit_test bit t ts = Ok (Z.testbit (state th) bit).
Proof. intros Ht. unfold atomic_bit_test, get_thread. by rewrite Ht. Qed.

Lemma bit_set_spec bit t ts th :
  ts !! t = Some th →
  atomic_bit_set bit t ts = Ok (<[t := set_state (Z.setbit (state th) bit) th]> ts).
Proof. intros Ht. unfold atomic_bit_set. by rewrite (update_spec _ _ _ _ Ht). Qed.

Lemma self_spec s cpu n : runs s cpu (Ctx n) → pthread_self cpu s = Ok n.
Proof. intros [b Hc]. unfold pthread_self. by rewrite (get_cur_Ok _ _ _ _ Hc). Qed.

Lemma release_spec t ts th : ts !! t = Some th → lock_release t ts = Ok (<[t := set_lock false th]> ts).
Proof. apply update_spec. Qed.

Lemma get_spec t ts th : ts !! t = Some th → get_thread ts t = Ok th.
Proof. intros Ht. unfold get_thread. by rewrite Ht. Qed.

(** Run the accesses to the entry of [t], of which the last value is on top of
    the map. *)
Ltac access :=
  cbn [mbind outcome_bind];
  first [ rewrite (bit_test_spec _ _ _ _ (lookup_insert_eq _ _ _))
        | rewrite (bit_set_spec _ _ _ _ (lookup_insert_eq _ _ _)), insert_insert_eq
        | rewrite (update_spec _ _ _ _ (lookup_insert_eq _ _ _)), insert_insert_eq
        | rewrite (lock_spin_spec _ _ _ (lookup_insert_eq _ _ _)), insert_insert_eq by done
        | rewrite (release_spec _ _ _ (lookup_insert_eq _ _ _)), insert_insert_eq
        | rewrite (get_spec _ _ _ (lookup_insert_eq _ _ _)) ];
  cbn [mbind outcome_bind].

(** The descriptor of a thread that ends with [v] before being joined. *)
Definition ended (v : Z) (th : pthread_s) : pthread_s :=
  set_retval v (set_state (Z.setbit (Z.setbit (state th) _PTHREAD_STATE_CANCELED) _PTHREAD_STATE_JOINABLE) th).

Lemma set_lock_false th : lock th = false → set_lock false (set_lock true th) = th.
Proof. intros Hl. destruct th; simpl in *. by subst. Qed.

Lemma testbit_set b b' z : 0 ≤ b → 0 ≤ b' → Z.testbit (Z.setbit z b) b' = (b =? b') || Z.testbit z b'.
Proof. intros. by apply Z.setbit_eqb. Qed.

Lemma state_bits th :
  detached (set_state (Z.setbit (state th) _PTHREAD_STATE_CANCELED) th) = detached th ∧
  joinable (set_state (Z.setbit (state th) _PTHREAD_STATE_CANCELED) th) = joinable th ∧
  (∀ v, detached (ended v th) = detached th ∧ joinable (ended v th) = true) ∧
  joinable (set_state (Z.setbit (state th) _PTHREAD_STATE_DETACHED) th) = joinable th ∧
  detached (set_state (Z.setbit (state th) _PTHREAD_STATE_DETACHED) th) = true.
Proof.
  unfold detached, joinable, ended, _PTHREAD_STATE_DETACHED, _PTHREAD_STATE_JOINABLE, _PTHREAD_STATE_CANCELED.
  simpl state. by rewrite !testbit_set by lia.
Qed.

Section spec.
Context (cfg : sched_config) (f : sched_context → option bool) (check : bool).
Context (ts : descriptors) (s : sched_sys) (cpu n : nat) (th : pthread_s).
Hypothesis Hrun : runs s cpu (Ctx n).

Lemma exit_spec v :
  ts !! n = Some th → lock th = false →
  match detached th, joined th with
  | true, _ => ∃ th', pthread_exit cfg f cpu v ts s = Ok (false, <[n := th']> ts, s)
  | false, None => ∃ s', sched_context_stop cfg f cpu s = Ok s' ∧
      pthread_exit cfg f cpu v ts s = Ok (true, <[n := ended v th]> ts, s')
  | false, Some j => ∀ jt, j ≠ n → ts !! j = Some jt → ∃ th',
      pthread_exit cfg f cpu v ts s =
        Ok (false, <[n := th']> (<[j := set_retval v jt]> ts), sched_context_start cfg (Ctx j) s)
  end.
Proof using Hrun.
  intros Ht Hl. pose proof (state_bits th) as (Hd & _). unfold pthread_exit.
  rewrite (self_spec _ _ _ Hrun). cbn [mbind outcome_bind]. rewrite (bit_set_spec _ _ _ _ Ht). access. access.
  simpl state. change (Z.testbit (Z.setbit (state th) _PTHREAD_STATE_CANCELED) _PTHREAD_STATE_DETACHED)
    with (detached (set_state (Z.setbit (state th) _PTHREAD_STATE_CANCELED) th)). rewrite Hd.
  destruct (detached th); [by eauto|]. rewrite (get_spec _ _ _ (lookup_insert_eq _ _ _)). cbn [mbind outcome_bind]. simpl joined. destruct (joined th) as [j|].
  - intros jt Hj Hjt. rewrite (update_spec _ j _ jt); [|rewrite lookup_insert_ne; [exact Hjt|intros E; apply Hj; by rewrite E]].
    cbn [mbind outcome_bind]. rewrite insert_insert_ne by congruence. access. eauto.
  - destruct (stop_total cfg f s cpu n Hrun) as [s' E]. exists s'. split; [done|].
    access. access. unfold sched_context_stop_unlock. rewrite E. cbn [mbind outcome_bind]. access.
    unfold ended, set_retval, set_state, set_lock. simpl. by rewrite Hl.
Qed.

Lemma join_spec t :
  ts !! t = Some th → lock th = false → detached th = false →
  match joinable th, joined th with
  | true, _ => ∃ th', pthread_join cfg f check cpu t ts s =
      Ok (Some (Answer 0 (Some (joined_retval th))), <[t := th']> ts, sched_context_start cfg (Ctx t) s)
  | false, None => ∃ s', sched_context_stop cfg f cpu s = Ok s' ∧
      pthread_join cfg f check cpu t ts s = Ok (None, <[t := set_joined n th]> ts, s')
  | false, Some _ => pthread_join cfg f check cpu t ts s = Ok (Some (Answer EINVAL None), ts, s)
  end.
Proof using Hrun.
  intros Ht Hl Hd.
  assert (pthread_join_locked cfg f check cpu t ts s =
    if joinable th then join_terminated cfg t (<[t := set_lock true th]> ts) s
    else join_running cfg f cpu t (<[t := set_lock true th]> ts) s) as E.
  { unfold pthread_join_locked. rewrite (lock_spin_spec _ _ _ Ht Hl). cbn [mbind outcome_bind].
    rewrite (bit_test_spec _PTHREAD_STATE_DETACHED _ _ _ (lookup_insert_eq _ _ _)). cbn [mbind outcome_bind].
    simpl state. change (Z.testbit (state th) _PTHREAD_STATE_DETACHED) with (detached th).
    rewrite Hd, andb_false_r. by access. }
  unfold pthread_join. rewrite E. destruct (joinable th).
  - unfold join_terminated. access. access. eauto.
  - unfold join_running. rewrite (get_spec _ _ _ (lookup_insert_eq _ _ _)). cbn [mbind outcome_bind].
    simpl joined. destruct (joined th) as [j|].
    + access. by rewrite set_lock_false, insert_id.
    + rewrite (self_spec _ _ _ Hrun). access.
      destruct (stop_total cfg f s cpu n Hrun) as [s' Es]. exists s'. split; [done|].
      unfold sched_context_stop_unlock. rewrite Es. access.
      unfold set_joined, set_lock. simpl. by rewrite Hl.
Qed.

Lemma detach_spec t :
  ts !! t = Some th → lock th = false → detached th = false →
  pthread_detach cfg t ts s =
    Ok (0, <[t := set_state (Z.setbit (state th) _PTHREAD_STATE_DETACHED) th]> ts,
        if joinable th then sched_context_start cfg (Ctx t) s else s).
Proof.
  intros Ht Hl Hd. pose proof (state_bits th) as (_ & _ & _ & Hj & _).
  unfold pthread_detach, pthread_detach_locked. rewrite (lock_spin_spec _ _ _ Ht Hl). access. access.
  simpl state. change (Z.testbit (state th) _PTHREAD_STATE_DETACHED) with (detached th). rewrite Hd.
  cbn [negb]. access. simpl state.
  change (Z.testbit (Z.setbit (state th) _PTHREAD_STATE_DETACHED) _PTHREAD_STATE_JOINABLE)
    with (joinable (set_state (Z.setbit (state th) _PTHREAD_STATE_DETACHED) th)). rewrite Hj.
  assert (set_lock false (set_state (Z.setbit (state th) _PTHREAD_STATE_DETACHED) (set_lock true th))
    = set_state (Z.setbit (state th) _PTHREAD_STATE_DETACHED) th) as E
    by (unfold set_lock, set_state; simpl; by rewrite Hl).
  destruct (joinable th); access; by rewrite E.
Qed.
End spec.

(** ** Preservation by the steps *)

Section preservation.
Context (cfg : sched_config) (f : sched_context → option bool) (check : bool) (dss rs : Z).
Context (w : thread_world) (Hw : thread_inv w).

Lemma calls_entry cpu n p :
  calls w cpu n p → ∃ th, ths w !! n = Some th ∧ n ∈ up (sch w) ∧
    thread_ok (pcs w) (handles w) (exits w) (up (sch w)) n th p.
Proof using Hw.
  intros [Hr Hp]. destruct Hw as [_ _ Hi]. destruct (proj1 (pi_dom _ _ _ _ _ Hi n)) as [th Ht]; [eauto|].
  exists th. split; [done|]. split; [by eapply runs_up|]. by apply (pi_thread _ _ _ _ _ Hi).
Qed.

(** A thread of which the handle is held. *)
Lemma handle_entry t :
  t ∈ handles w → ∃ th, ths w !! t = Some th ∧ lock th = false ∧ detached th = false ∧
    (joinable th = false → joined th = None).
Proof using Hw.
  intros Hh. destruct Hw as [_ _ Hi]. destruct (pi_handle _ _ _ _ _ Hi _ Hh) as [th Ht].
  destruct (proj2 (pi_dom _ _ _ _ _ Hi t)) as [p Hp]; [eauto|].
  exists th. split; [done|]. pose proof (pi_thread _ _ _ _ _ Hi _ _ _ Ht Hp) as Hok.
  destruct p; simpl in Hok.
  - destruct Hok as (? & _ & _ & Hm). destruct (joined th); [naive_solver|]. split; [done|]. split; [by apply Hm|done].
  - destruct Hok as (v & _ & [[_ ?]|(_ & _ & ? & Hj & ? & _)]); [done|]. split; [done|]. split; [done|congruence].
  - destruct Hok as (? & _ & _ & Hm). destruct (joined th); [naive_solver|]. split; [done|]. split; [by apply Hm|done].
Qed.

Lemma exit_inv cpu n v b ts' s' :
  calls w cpu n PRun → pthread_exit cfg f cpu v (ths w) (sch w) = Ok (b, ts', s') →
  thread_inv {| ths := ts'; sch := s'; pcs := <[n := PExit]> (pcs w); handles := handles w;
                exits := <[n := v]> (exits w) |}.
Proof using Hw.
  intros Hc E. destruct (calls_entry _ _ _ Hc) as (th & Ht & Hu & Hl & Hj & Hx & Hm). destruct Hc as [Hr Hp].
  destruct Hw as [Hth Hnd Hi]. pose proof (exit_spec cfg f (ths w) (sch w) cpu n th Hr v Ht Hl) as Hs.
  destruct (detached th) eqn:Hd.
  - destruct Hs as [th' Es]. rewrite Es in E. simplify_eq. constructor; [done..|]. simpl.
    destruct (joined th) as [j|] eqn:Hjn; [naive_solver|].
    eapply proto_exit_free; [done..|]. exists v. simplify_map_eq. split; [done|]. left. split; [done|].
    intros Hh. by apply Hm in Hh.
  - destruct (joined th) as [j|] eqn:Hjn.
    + destruct Hm as (Hnh & _ & Hpj & Hju).
      destruct (proj1 (pi_dom _ _ _ _ _ Hi j)) as [jt Hjt]; [eauto|].
      destruct (Hs jt) as [th' Es]; [congruence|done|]. rewrite Es in E. simplify_eq.
      destruct (start_facts cfg _ Hth Hnd j Hju) as (? & ? & Hup). constructor; [done..|]. simpl. rewrite Hup.
      by eapply proto_exit_joined.
    + destruct Hs as (s1 & E1 & Es). rewrite Es in E. simplify_eq.
      destruct (stop_facts _ _ _ Hth Hnd _ _ _ Hr E1) as (? & ? & Hup). constructor; [done..|]. simpl. rewrite Hup.
      pose proof (state_bits th) as (_ & _ & Hb & _). destruct (Hb v) as [Hb1 Hb2].
      eapply proto_exit_free; [done..|set_solver|]. exists v. simplify_map_eq. split; [done|]. right.
      split_and!; [set_solver|by apply Hm|done|done|congruence|done].
Qed.

Lemma create_inv cpu n k attr cs ar r a ts' s' :
  calls w cpu n PRun → ths w !! k = None → exits w !! k = None →
  pthread_create cfg dss rs attr (Some k) 0 cs ar 0 r a (ths w) (sch w) = Ok (0, Some k, None, ts', s') →
  thread_inv {| ths := ts'; sch := s'; pcs := <[k := PRun]> (pcs w);
    handles := if attr_detached attr then handles w else {[k]} ∪ handles w; exits := exits w |}.
Proof using Hw.
  intros _ Hk Hx E. destruct Hw as [Hth Hnd Hi].
  assert (∃ th, ts' = <[k := th]> (ths w) ∧ s' = sched_context_start cfg (Ctx k) (sch w) ∧
    lock th = false ∧ joinable th = false ∧ joined th = None ∧ detached th = attr_detached attr)
    as (th & -> & -> & Hl & Hj & Hjn & Hd).
  { unfold pthread_create in E. cbn [negb Z.eqb] in E. cbv zeta in E.
    destruct (_ =? 0); [done|]. destruct (require _ _); [|done]. cbn [mbind outcome_bind] in E.
    injection E as <- <-. eexists. split; [done|]. split; [done|]. by destruct (attr_detached attr). }
  assert (k ∉ up (sch w)) as Hku by (intros [? ?]%(pi_up _ _ _ _ _ Hi); congruence).
  destruct (start_facts cfg _ Hth Hnd k Hku) as (? & ? & Hup). constructor; [done..|]. simpl. rewrite Hup, <-Hd.
  by apply proto_create.
Qed.

Lemma join_inv cpu n t r ts' s' :
  calls w cpu n PRun → t ∈ handles w →
  pthread_join cfg f check cpu t (ths w) (sch w) = Ok (r, ts', s') →
  (match r with
   | Some a => ∃ v, a = Answer 0 (Some v) ∧ exits w !! t = Some v
   | None => True
   end) ∧
  thread_inv {| ths := ts'; sch := s'; pcs := if r is None then <[n := PJoin t]> (pcs w) else pcs w;
                handles := handles w ∖ {[t]}; exits := exits w |}.
Proof using Hw.
  intros [Hr Hp] Hh E. destruct (handle_entry _ Hh) as (th & Ht & Hl & Hd & Hjn). destruct Hw as [Hth Hnd Hi].
  pose proof (join_spec cfg f check (ths w) (sch w) cpu n th Hr t Ht Hl Hd) as Hs.
  destruct (joinable th) eqn:Hj.
  - destruct Hs as [th' Es]. rewrite Es in E. simplify_eq.
    destruct (proto_release _ _ _ _ _ _ _ th' Hi Hh Ht Hj) as (Hu & Hx & Hi').
    split; [eauto|]. destruct (start_facts cfg _ Hth Hnd t Hu) as (? & ? & Hup). constructor; [done..|].
    simpl. by rewrite Hup.
  - rewrite Hjn in Hs by done. destruct Hs as (s1 & E1 & Es). rewrite Es in E. simplify_eq. split; [done|].
    destruct (stop_facts _ _ _ Hth Hnd _ _ _ Hr E1) as (? & ? & Hup). constructor; [done..|]. simpl. rewrite Hup.
    by apply proto_join_wait.
Qed.

Lemma detach_inv t r ts' s' :
  t ∈ handles w → pthread_detach cfg t (ths w) (sch w) = Ok (r, ts', s') →
  thread_inv {| ths := ts'; sch := s'; pcs := pcs w; handles := handles w ∖ {[t]}; exits := exits w |}.
Proof using Hw.
  intros Hh E. destruct (handle_entry _ Hh) as (th & Ht & Hl & Hd & Hjn). destruct Hw as [Hth Hnd Hi].
  rewrite (detach_spec cfg _ _ _ _ Ht Hl Hd) in E. injection E as <- <- <-.
  pose proof (state_bits th) as (_ & _ & _ & Hb1 & Hb2). destruct (joinable th) eqn:Hj.
  - destruct (proto_release _ _ _ _ _ _ _ (set_state (Z.setbit (state th) _PTHREAD_STATE_DETACHED) th) Hi Hh Ht Hj)
      as (Hu & Hx & Hi'). destruct (start_facts cfg _ Hth Hnd t Hu) as (? & ? & Hup).
    constructor; [done..|]. simpl. by rewrite Hup.
  - constructor; [done..|]. eapply proto_update; [done|done|set_solver|done|done|].
    intros p Hp. pose proof (pi_thread _ _ _ _ _ Hi _ _ _ Ht Hp) as Hok.
    assert (p = PExit → False) as Hne.
    { intros ->. destruct Hok as (v & _ & [[_ ?]|(_ & _ & _ & ? & _)]); congruence. }
    destruct p; [|by destruct Hne|]; simpl in *; rewrite Hb1, Hb2, Hjn in * by done; set_solver.
Qed.

Lemma cleanup_inv cpu n ts' s' :
  calls w cpu n PExit → __pthread_cleanup cfg f cpu (ths w) (sch w) = Ok (ts', s') →
  thread_inv {| ths := ts'; sch := s'; pcs := delete n (pcs w); handles := handles w; exits := exits w |}.
Proof using Hw.
  intros Hc E. destruct (calls_entry _ _ _ Hc) as (th & Ht & Hu & _). destruct Hc as [Hr Hp].
  destruct Hw as [Hth Hnd Hi]. unfold __pthread_cleanup in E.
  rewrite (self_spec _ _ _ Hr) in E. cbn [mbind outcome_bind] in E. rewrite (get_spec _ _ _ Ht) in E.
  cbn [mbind outcome_bind] in E. apply bind_Ok in E as (s1 & E1 & E). simplify_eq.
  destruct (stop_facts cfg f _ Hth Hnd cpu n s' Hr E1) as (? & ? & Hup). constructor; [done..|]. simpl. rewrite Hup.
  by apply proto_cleanup.
Qed.

Lemma cancel_inv t r ts' :
  t ∈ handles w → pthread_cancel t (ths w) = Ok (r, ts') →
  thread_inv {| ths := ts'; sch := sch w; pcs := pcs w; handles := handles w; exits := exits w |}.
Proof using Hw.
  intros Hh E. destruct (handle_entry _ Hh) as (th & Ht & _). destruct Hw as [Hth Hnd Hi].
  unfold pthread_cancel in E. rewrite (bit_test_spec _ _ _ _ Ht) in E. cbn [mbind outcome_bind] in E.
  rewrite (bit_set_spec _ _ _ _ Ht) in E. injection E as <- <-. constructor; [done..|].
  eapply proto_update; [done|done|done|done|done|]. intros p Hp.
  pose proof (pi_thread _ _ _ _ _ Hi _ _ _ Ht Hp) as Hok. pose proof (state_bits th) as (Hb1 & Hb2 & _).
  destruct p; simpl in *; by rewrite Hb1, Hb2.
Qed.

Lemma resume_inv cpu n t a :
  calls w cpu n (PJoin t) → pthread_join_resume cpu (ths w) (sch w) = Ok a →
  (∃ v, a = Answer 0 (Some v) ∧ exits w !! t = Some v) ∧
  thread_inv {| ths := ths w; sch := sch w; pcs := <[n := PRun]> (pcs w); handles := handles w; exits := exits w |}.
Proof using Hw.
  intros [Hr Hp] E. destruct Hw as [Hth Hnd Hi].
  destruct (proto_resume _ _ _ _ _ _ _ Hi Hp (runs_up _ _ _ Hr)) as [(jt & Hjt & Hv) Hi'].
  unfold pthread_join_resume in E. rewrite (self_spec _ _ _ Hr) in E. cbn [mbind outcome_bind] in E.
  rewrite (get_spec _ _ _ Hjt) in E. injection E as <-. split; [eauto|]. by constructor.
Qed.

Lemma thread_step_inv e w' :
  thread_step cfg f check dss rs w e w' →
  thread_inv w' ∧ match e with
                  | Joined _ t a => ∃ v, a = Answer 0 (Some v) ∧ exits w !! t = Some v
                  | Silent => True
                  end.
Proof using Hw.
  intros Hs. pose proof Hw as [Hth Hnd Hi]. destruct Hs as [s' Hk|cpu n s' [Hr Hp] E|n Hp Hn|cpu n k attr cs ar r a ts' s' Hc Hk Hx E
    |cpu n v b ts' s' Hc E|cpu n ts' s' Hc E|cpu n t a ts' s' Hc Hh E|cpu n t ts' s' Hc Hh E|cpu n t a Hc E
    |cpu n t r ts' s' Hc Hh E|cpu n t r ts' Hc Hh E].
  - destruct (tick_facts _ _ _ Hth Hnd _ Hk) as (? & ? & Hup). split; [|done]. constructor; [done..|]. simpl. by rewrite Hup.
  - destruct (stop_facts _ _ _ Hth Hnd _ _ _ Hr E) as (? & ? & Hup). split; [|done]. constructor; [done..|].
    simpl. rewrite Hup. by apply proto_block.
  - rewrite <-elem_of_up in Hn. destruct (start_facts cfg _ Hth Hnd _ Hn) as (? & ? & Hup). split; [|done].
    constructor; [done..|]. simpl. rewrite Hup. by apply proto_unblock.
  - split; [by eapply create_inv|done].
  - split; [by eapply exit_inv|done].
  - split; [by eapply cleanup_inv|done].
  - destruct (join_inv _ _ _ _ _ _ Hc Hh E). done.
  - destruct (join_inv _ _ _ _ _ _ Hc Hh E). done.
  - destruct (resume_inv _ _ _ _ Hc E). done.
  - split; [by eapply detach_inv|done].
  - split; [by eapply cancel_inv|done].
Qed.
End preservation.

Lemma thread_initial_inv ncpu : thread_inv (thread_initial ncpu).
Proof.
  assert (threads (sys (initial ncpu 0)) = [Ctx 0]) as E.
  { pose proof (initial_contexts ncpu 0) as E. unfold contexts in E. simpl in E. by rewrite app_nil_r in E. }
  assert (up (sys (initial ncpu 0)) = {[0%nat]}) as Eu.
  { apply set_eq. intros n. rewrite elem_of_up, E. set_solver. }
  constructor; cbn [thread_initial sch ths pcs handles exits]; rewrite ?E, ?Eu; [by repeat constructor|apply NoDup_singleton|].
  constructor.
  - intros n. rewrite !lookup_singleton. case_decide; [split; eauto|done].
  - intros n ->%elem_of_singleton. simplify_map_eq. eauto.
  - intros n ->%elem_of_singleton. simplify_map_eq. eauto.
  - intros t th p [<- <-]%lookup_singleton_Some Hp. simplify_map_eq. simpl. split_and!; [done..|].
    split; [done|]. set_solver.
  - intros j t [_ Hj]%lookup_singleton_Some. done.
Qed.

Lemma thread_reachable_inv cfg f check dss rs ncpu w :
  thread_reachable cfg f check dss rs ncpu w → thread_inv w.
Proof.
  induction 1 as [|w e w' _ IH Hs]; [apply thread_initial_inv|]. by eapply thread_step_inv.
Qed.

(** ** Properties *)

(** C24. [pthread_join] delivers the value: on one or several processors, whenever
    a join of a thread returns, at once or after having waited, it returns 0 and
    the value with which that thread ended.  Each thread is joined or detached at
    most once, as POSIX asks. *)
Theorem join_delivers_exit_value cfg f check dss rs ncpu w j t a w' :
  thread_reachable cfg f check dss rs ncpu w →
  thread_step cfg f check dss rs w (Joined j t a) w' →
  ∃ v, a = Answer 0 (Some v) ∧ exits w !! t = Some v.
Proof. intros Hr Hs. by apply (thread_step_inv _ _ _ _ _ _ (thread_reachable_inv _ _ _ _ _ _ _ Hr)) in Hs as [_ ?]. Qed.

(** The termination protocol neither leaks a thread nor loses a joiner: a
    thread that is stopped at its end can still be joined or detached, and a
    thread that is stopped in [pthread_join] waits for a live thread that has not
    ended and that has it registered. *)
Theorem join_no_lost_wakeup cfg f check dss rs ncpu w n :
  thread_reachable cfg f check dss rs ncpu w → Ctx n ∉ threads (sch w) →
  match pcs w !! n with
  | Some PExit => n ∈ handles w
  | Some (PJoin t) => ∃ th, ths w !! t = Some th ∧ joined th = Some n ∧ exits w !! t = None
  | _ => True
  end.
Proof.
  intros Hr Hn. apply thread_reachable_inv in Hr as [_ _ Hi]. rewrite <-elem_of_up in Hn.
  destruct (pcs w !! n) as [[| |t]|] eqn:Hp; [done| | |done].
  - destruct (proj1 (pi_dom _ _ _ _ _ Hi n)) as [th Ht]; [eauto|].
    destruct (pi_thread _ _ _ _ _ Hi _ _ _ Ht Hp) as (v & _ & [[? _]|(_ & ? & _)]); done.
  - destruct (pi_joiner _ _ _ _ _ Hi _ _ Hp) as [[? _]|(_ & th & p & Ht & Hj & Hpt & Hne)]; [done|].
    exists th. split; [done|]. split; [done|]. pose proof (pi_thread _ _ _ _ _ Hi _ _ _ Ht Hpt) as Hok.
    destruct p; [|done|]; by destruct Hok as (_ & _ & ? & _).
Qed.

(** C23. On one processor, where the critical sections of the protocol run with
    interrupts masked and so in one step, no operation of the protocol fails or
    touches a freed descriptor: in every reachable state a thread can end, join and
    detach the threads of which it holds the handle, return from the join it waited
    in, and be cleaned up.  With a second processor that is not so, see
    [join_releases_freed_lock]. *)
Theorem thread_ops_succeed cfg f check dss rs w cpu n p :
  thread_reachable cfg f check dss rs 0 w → calls w cpu n p →
  match p with
  | PRun => (∀ v, is_ok (pthread_exit cfg f cpu v (ths w) (sch w)) = true) ∧
      ∀ t, t ∈ handles w → is_ok (pthread_join cfg f check cpu t (ths w) (sch w)) = true ∧
        ∃ ts s, pthread_detach cfg t (ths w) (sch w) = Ok (0, ts, s)
  | PExit => is_ok (__pthread_cleanup cfg f cpu (ths w) (sch w)) = true
  | PJoin _ => is_ok (pthread_join_resume cpu (ths w) (sch w)) = true
  end.
Proof.
  intros Hr Hc. pose proof (thread_reachable_inv _ _ _ _ _ _ _ Hr) as Hw.
  destruct (calls_entry _ Hw _ _ _ Hc) as (th & Ht & Hu & Hok). destruct Hc as [Hrun Hp]. destruct p as [| |t].
  - destruct Hok as (Hl & _ & _ & Hm). split.
    + intros v. pose proof (exit_spec cfg f (ths w) (sch w) cpu n th Hrun v Ht Hl) as Hs.
      destruct (detached th) eqn:Hd; [by destruct Hs as [? ->]|].
      destruct (joined th) as [j|]; [|by destruct Hs as (? & _ & ->)].
      destruct Hm as (_ & _ & Hpj & _). destruct Hw as [_ _ Hi].
      destruct (proj1 (pi_dom _ _ _ _ _ Hi j)) as [jt Hjt]; [eauto|].
      destruct (Hs jt) as [? ->]; [congruence|done|done].
    + intros t Hh. destruct (handle_entry _ Hw _ Hh) as (tt & Htt & Htl & Htd & Htj). split.
      * pose proof (join_spec cfg f check (ths w) (sch w) cpu n tt Hrun t Htt Htl Htd) as Hs.
        destruct (joinable tt); [by destruct Hs as [? ->]|].
        rewrite Htj in Hs by done. by destruct Hs as (? & _ & ->).
      * rewrite (detach_spec cfg _ _ _ _ Htt Htl Htd). eauto.
  - unfold __pthread_cleanup. rewrite (self_spec _ _ _ Hrun). cbn [mbind outcome_bind].
    rewrite (get_spec _ _ _ Ht). cbn [mbind outcome_bind]. destruct (stop_total cfg f _ _ _ Hrun) as [s' E].
    change (sched_context_exit cfg f cpu (sch w)) with (sched_context_stop cfg f cpu (sch w)). by rewrite E.
  - unfold pthread_join_resume. rewrite (self_spec _ _ _ Hrun). cbn [mbind outcome_bind].
    by rewrite (get_spec _ _ _ Ht).
Qed.

(** ** Witnesses *)

(** One processor: the main thread creates a thread and joins it, the thread
    ends with 42. *)
Definition nocand (c : sched_context) : option bool := None.
Definition demo0 : thread_world := thread_initial 0.
Definition demo_create :=
  ok_or (0, None, None, ∅, sch demo0)
    (pthread_create demo_cfg 4096 4 None (Some 1%nat) 0 0 64 0 0 0 (ths demo0) (sch demo0)).
Definition demo1 : thread_world :=
  {| ths := demo_create.1.2; sch := demo_create.2; pcs := <[1%nat := PRun]> (pcs demo0);
     handles := {[1%nat]} ∪ handles demo0; exits := exits demo0 |}.
Definition demo_join :=
  ok_or (None, ∅, sch demo1) (pthread_join demo_cfg nocand true 0 1 (ths demo1) (sch demo1)).
Definition demo2 : thread_world :=
  {| ths := demo_join.1.2; sch := demo_join.2; pcs := <[0%nat := PJoin 1]> (pcs demo1);
     handles := handles demo1 ∖ {[1%nat]}; exits := exits demo1 |}.
Definition demo_exit := ok_or (true, ∅, sch demo2) (pthread_exit demo_cfg nocand 0 42 (ths demo2) (sch demo2)).
Definition demo3 : thread_world :=
  {| ths := demo_exit.1.2; sch := demo_exit.2; pcs := <[1%nat := PExit]> (pcs demo2);
     handles := handles demo2; exits := <[1%nat := 42]> (exits demo2) |}.
Definition demo_cleanup := ok_or (∅, sch demo3) (__pthread_cleanup demo_cfg nocand 0 (ths demo3) (sch demo3)).
Definition demo4 : thread_world :=
  {| ths := demo_cleanup.1; sch := demo_cleanup.2; pcs := delete 1%nat (pcs demo3);
     handles := handles demo3; exits := exits demo3 |}.
Definition demo5 : thread_world :=
  {| ths := ths demo4; sch := sch demo4; pcs := <[0%nat := PRun]> (pcs demo4);
     handles := handles demo4; exits := exits demo4 |}.

Abbreviation demo_reach := (thread_reachable demo_cfg nocand true 4096 4 0).
Lemma demo1_reach : demo_reach demo1.
Proof.
  eapply tr_step; [apply tr_init|].
  apply (ts_create _ _ _ _ _ demo0 0 0 1 None 0 64 0 0); [split; [by exists false|done]|done|done|].
  vm_compute. reflexivity.
Qed.

Lemma demo2_reach : demo_reach demo2.
Proof.
  eapply tr_step; [apply demo1_reach|]. apply (ts_join_wait _ _ _ _ _ demo1 0 0 1).
  - split; [by exists false|done].
  - by apply (bool_decide_unpack _).
  - vm_compute. reflexivity.
Qed.

Lemma demo3_reach : demo_reach demo3.
Proof.
  eapply tr_step; [apply demo2_reach|]. apply (ts_exit _ _ _ _ _ demo2 0 1 42 false).
  - split; [by exists false|done].
  - vm_compute. reflexivity.
Qed.

Lemma demo4_reach : demo_reach demo4.
Proof.
  eapply tr_step; [apply demo3_reach|]. apply (ts_cleanup _ _ _ _ _ demo3 0 1).
  - split; [by exists false|done].
  - vm_compute. reflexivity.
Qed.

Lemma join_delivers_exit_value_witness :
  ∃ v, Answer 0 (Some 42) = Answer 0 (Some v) ∧ exits demo4 !! 1%nat = Some v.
Proof.
  refine (join_delivers_exit_value demo_cfg nocand true 4096 4 0 demo4 0 1 _ demo5 demo4_reach _).
  apply (ts_join_resume _ _ _ _ _ demo4 0 0 1); [split; [by exists false|done]|]. vm_compute. reflexivity.
Defined.

Lemma join_no_lost_wakeup_witness :
  match pcs demo2 !! 0%nat with
  | Some PExit => 0%nat ∈ handles demo2
  | Some (PJoin t) => ∃ th, ths demo2 !! t = Some th ∧ joined th = Some 0%nat ∧ exits demo2 !! t = None
  | _ => True
  end.
Proof.
  apply (join_no_lost_wakeup demo_cfg nocand true 4096 4 0 demo2 0 demo2_reach).
  by apply (bool_decide_unpack _).
Defined.

Lemma thread_ops_succeed_witness : is_ok (__pthread_cleanup demo_cfg nocand 0 (ths demo3) (sch demo3)) = true.
Proof.
  apply (thread_ops_succeed demo_cfg nocand true 4096 4 demo3 0 1 PExit demo3_reach).
  split; [by exists false|done].
Defined.

(** ** What the code does not guarantee *)

(** Two processors; the thread 1 has ended with 42 and is stopped, the main
    thread runs on the processor 0, the processor 1 polls for work. *)
Definition race_ths : descriptors := {[0%nat := main_thread; 1%nat := ended 42 main_thread]}.
Definition race_sch : sched_sys := sys (initial 1 0).

(** [pthread_join] starts the ended thread before it releases the lock in its
    descriptor: when another processor runs the thread in between, the
    descriptor has been freed when the lock is released. *)
Theorem join_releases_freed_lock cfg : hexo_ipi cfg = false → candidate_fcn cfg = false →
  ∃ ts1 s1 s2 ts2 s3,
    pthread_join_locked cfg nocand true 0 1 race_ths race_sch = Ok (Some (Answer 0 (Some 42)), ts1, s1) ∧
    sched_tick cfg nocand s1 s2 ∧ runs s2 1 (Ctx 1) ∧
    __pthread_cleanup cfg nocand 1 ts1 s2 = Ok (ts2, s3) ∧
    lock_release 1 ts2 = Err FCorrupt.
Proof.
  destruct cfg as [cf ip]; simpl. intros -> ->. do 5 eexists.
  split; [vm_compute; reflexivity|]. split; [by eapply (tick_idle _ _ _ 1)|].
  split; [by exists false|]. split; vm_compute; reflexivity.
Qed.

(** [pthread_setcancelstate] reports the inverse of the old state: from a thread
    that can be cancelled, disabling then restoring the reported state leaves
    cancellation disabled. *)
Theorem setcancelstate_not_restored :
  ∃ old ts1 ts2 th,
    pthread_setcancelstate 0 PTHREAD_CANCEL_DISABLE {[0%nat := main_thread]} race_sch = Ok (0, old, ts1) ∧
    pthread_setcancelstate 0 old ts1 race_sch = Ok (0, 1, ts2) ∧
    ts2 !! 0%nat = Some th ∧ Z.testbit (state th) _PTHREAD_STATE_NOCANCEL = true.
Proof. do 4 eexists. split_and!; vm_compute; reflexivity. Qed.

Lemma restore_bit z b (c : bool) :
  0 ≤ b →
  (if Z.testbit z b then Z.setbit else Z.clearbit) ((if c then Z.clearbit else Z.setbit) z b) b = z.
Proof.
  intros Hb. apply Z.bits_inj'. intros i Hi.
  destruct (Z.testbit z b) eqn:E, c; rewrite ?Z.setbit_eqb, ?Z.clearbit_eqb by done;
    rewrite ?Z.setbit_eqb, ?Z.clearbit_eqb by done; destruct (Z.eqb_spec b i) as [<-|]; rewrite ?E; simpl;
    rewrite ?andb_true_r, ?andb_false_r; done.
Qed.

(** [pthread_setcanceltype] reports the old type: restoring it gives the thread
    its state back. *)
Theorem setcanceltype_restored cpu n s ts th type :
  runs s cpu (Ctx n) → ts !! n = Some th →
  ∃ old ts1 ts2 th' o, pthread_setcanceltype cpu type ts s = Ok (0, old, ts1) ∧
    pthread_setcanceltype cpu old ts1 s = Ok (0, o, ts2) ∧ ts2 !! n = Some th' ∧ state th' = state th.
Proof.
  intros Hr Ht.
  pose proof (restore_bit (state th) _PTHREAD_STATE_CANCELASYNC (type =? PTHREAD_CANCEL_DEFERRED) ltac:(done)) as E.
  unfold pthread_setcanceltype. rewrite (self_spec _ _ _ Hr). cbn [mbind outcome_bind].
  rewrite (bit_test_spec _ _ _ _ Ht). cbn [mbind outcome_bind]. unfold atomic_bit_set, atomic_bit_clr.
  destruct (type =? _), (Z.testbit (state th) _PTHREAD_STATE_CANCELASYNC);
    rewrite (update_spec _ _ _ _ Ht); cbn [mbind outcome_bind]; do 5 eexists; (split; [reflexivity|]);
    rewrite (bit_test_spec _ _ _ _ (lookup_insert_eq _ _ _)); cbn [mbind outcome_bind Z.b2z];
    cbn [Z.eqb PTHREAD_CANCEL_DEFERRED]; rewrite (update_spec _ _ _ _ (lookup_insert_eq _ _ _));
    cbn [mbind outcome_bind]; (split; [reflexivity|]); (split; [apply lookup_insert_eq|]); exact E.
Qed.
End Thread.
