(* ===== verification/Keys.v ===== *)
(** * Thread specific data keys (libpthread/keys.c)

    The table of keys and the value each context has for them.  A value is a
    word, 0 for [NULL]; a destructor is named by its address, 0 for [NULL], and
    runs application code. *)

From stdpp Require Import gmap.
From S2P Require Import Prelude.

Module Keys.

(** [struct pthread_key_s] *)
Record pthread_key_s := { allocated : bool; destructor : Z }.

(** [_keys], and [_key_values] of each context. *)
Record key_state := { _keys : list pthread_key_s; _key_values : gmap nat (list Z) }.

Definition EAGAIN : Z := 9.

Section ops.
(** [CONFIG_PTHREAD_KEYS_MAX], [CONFIG_PTHREAD_KEYS_DESTRUCTOR_ITERATIONS] *)
Context (keys_max iterations : nat).

(** The loop of [pthread_key_create] from index [i]: the first free entry. *)
Fixpoint key_search (fuel i : nat) (ks : list pthread_key_s) : outcome (option nat) :=
  match fuel with
  | O => Ok None
  | S fuel => k ← aget ks (Z.of_nat i);
              if allocated k then key_search fuel (S i) ks else Ok (Some i)
  end.

(** Returns the result of the function and the key stored through [key]. *)
Definition pthread_key_create (d : Z) (ks : list pthread_key_s)
    : outcome (Z * option nat * list pthread_key_s) :=
  r ← key_search keys_max 0 ks;
  match r with
  | Some i => ks ← aset ks (Z.of_nat i) {| allocated := true; destructor := d |};
              Ok (Z.of_nat i, Some i, ks)
  | None => Ok (- EAGAIN, None, ks)
  end.

Definition pthread_key_delete (key : nat) (ks : list pthread_key_s) : outcome (Z * list pthread_key_s) :=
  k ← aget ks (Z.of_nat key);
  if allocated k then ks ← aset ks (Z.of_nat key) {| allocated := false; destructor := 0 |}; Ok (0, ks)
  else Ok (- EINVAL, ks).

(** On the values of the current context. *)
Definition pthread_getspecific (key : nat) (vs : list Z) : outcome Z :=
  if (keys_max <=? key)%nat then Ok 0 else aget vs (Z.of_nat key).
Definition pthread_setspecific (key : nat) (value : Z) (vs : list Z) : outcome (Z * list Z) :=
  if (keys_max <=? key)%nat then Ok (- EINVAL, vs)
  else vs ← aset vs (Z.of_nat key) value; Ok (0, vs).

(** [_pthread_keys_init(thread)], executed by the context [cur]: the thread
    argument is not used. *)
Fixpoint init_loop (fuel i : nat) (vs : list Z) : outcome (list Z) :=
  match fuel with
  | O => Ok vs
  | S fuel => vs ← aset vs (Z.of_nat i) 0; init_loop fuel (S i) vs
  end.
Definition _pthread_keys_init (cur thread : nat) (st : key_state) : outcome key_state :=
  vs ← of_option FUndef (_key_values st !! cur);
  vs ← init_loop keys_max 0 vs;
  Ok {| _keys := _keys st; _key_values := <[cur := vs]> (_key_values st) |}.

(** [_pthread_keys_cleanup]: [run d x] is the call of the destructor [d] on the
    data [x], which changes the values of the context and the state [A] of the
    application.  The mutex is held throughout, so no key is created or deleted. *)
Context {A : Type} (run : Z → Z → list Z * A → list Z * A).

Fixpoint cleanup_pass (fuel i : nat) (ks : list pthread_key_s) (vs : list Z) (a : A) (done : bool)
    : outcome (list Z * A * bool) :=
  match fuel with
  | O => Ok (vs, a, done)
  | S fuel =>
      data ← aget vs (Z.of_nat i);
      k ← aget ks (Z.of_nat i);
      if negb (allocated k) || (destructor k =? 0) || (data =? 0)
      then cleanup_pass fuel (S i) ks vs a done
      else vs ← aset vs (Z.of_nat i) 0;
           let '(vs, a) := run (destructor k) data (vs, a) in
           cleanup_pass fuel (S i) ks vs a true
  end.

Fixpoint cleanup_loop (iter : nat) (ks : list pthread_key_s) (vs : list Z) (a : A) : outcome (list Z * A) :=
  match iter with
  | O => Ok (vs, a)
  | S iter =>
      '(vs, a, done) ← cleanup_pass keys_max 0 ks vs a false;
      if negb done then Ok (vs, a) else cleanup_loop iter ks vs a
  end.
Definition _pthread_keys_cleanup (ks : list pthread_key_s) (vs : list Z) (a : A) : outcome (list Z * A) :=
  cleanup_loop iterations ks vs a.
End ops.

(** ** Allocation of keys *)

Lemma key_search_spec n : ∀ ks1 ks2,
  length ks2 = n → Forall (λ k, allocated k = true) ks1 →
  match key_search n (length ks1) (ks1 ++ ks2) with
  | Ok (Some i) => (length ks1 ≤ i)%nat ∧ (∃ k, (ks1 ++ ks2) !! i = Some k ∧ allocated k = false) ∧
                   ∀ j k, (j < i)%nat → (ks1 ++ ks2) !! j = Some k → allocated k = true
  | Ok None => Forall (λ k, allocated k = true) (ks1 ++ ks2)
  | Err _ => False
  end.
Proof.
  induction n as [|n IH]; intros ks1 ks2 Hl Hf; cbn [key_search].
  - destruct ks2; [|done]. by rewrite app_nil_r.
  - destruct ks2 as [|k ks2]; [done|]. rewrite (aget_nat _ _ k) by (by apply list_lookup_middle).
    cbn [mbind outcome_bind]. destruct (allocated k) eqn:Hk.
    + assert (Forall (λ k, allocated k = true) (ks1 ++ [k])) as Hf' by (apply Forall_app; split; [done|by constructor]).
      specialize (IH (ks1 ++ [k]) ks2 ltac:(by injection Hl) Hf'). rewrite length_app, <-app_assoc in IH. simpl in IH.
      rewrite Nat.add_1_r in IH. destruct (key_search _ _ _) as [[i|]|]; [|done|done].
      destruct IH as (? & ? & ?). split; [lia|]. done.
    + split; [lia|]. split; [exists k; split; [by apply list_lookup_middle|done]|].
      intros j k' Hj Hk'. rewrite lookup_app_l in Hk' by done. exact (Forall_lookup_1 _ _ _ _ Hf Hk').
Qed.

(** [pthread_key_create] hands out the lowest key that is not in use and
    fails only when all are in use; no other key is changed.  The result of a
    successful call is the key itself, not 0. *)
Theorem key_create_lowest_free n d ks :
  length ks = n →
  match pthread_key_create n d ks with
  | Ok (r, Some i, ks') => r = Z.of_nat i ∧ ks' = <[i := {| allocated := true; destructor := d |}]> ks ∧
      (∃ k, ks !! i = Some k ∧ allocated k = false) ∧
      ∀ j k, (j < i)%nat → ks !! j = Some k → allocated k = true
  | Ok (r, None, ks') => r = - EAGAIN ∧ ks' = ks ∧ Forall (λ k, allocated k = true) ks
  | Err _ => False
  end.
Proof.
  intros Hl. unfold pthread_key_create. pose proof (key_search_spec n [] ks Hl ltac:(constructor)) as Hs.
  cbn [app length] in Hs. destruct (key_search n 0 ks) as [[i|]|]; [|done|done]. cbn [mbind outcome_bind].
  destruct Hs as (_ & (k & Hk & Ha) & Hb). rewrite aset_nat by (by eapply lookup_lt_Some). cbn [mbind outcome_bind].
  eauto 10.
Qed.

Lemma key_create_lowest_free_witness :
  match pthread_key_create 2 5 [{| allocated := true; destructor := 0 |}; {| allocated := false; destructor := 0 |}] with
  | Ok (r, Some i, ks') => r = Z.of_nat i ∧
      ks' = <[i := {| allocated := true; destructor := 5 |}]>
        [{| allocated := true; destructor := 0 |}; {| allocated := false; destructor := 0 |}] ∧
      (∃ k, [{| allocated := true; destructor := 0 |}; {| allocated := false; destructor := 0 |}] !! i = Some k ∧
            allocated k = false) ∧
      ∀ j k, (j < i)%nat →
        [{| allocated := true; destructor := 0 |}; {| allocated := false; destructor := 0 |}] !! j = Some k →
        allocated k = true
  | Ok (r, None, ks') => r = - EAGAIN ∧ ks' = [{| allocated := true; destructor := 0 |}; {| allocated := false; destructor := 0 |}] ∧
      Forall (λ k, allocated k = true) [{| allocated := true; destructor := 0 |}; {| allocated := false; destructor := 0 |}]
  | Err _ => False
  end.
Proof. by apply key_create_lowest_free. Defined.

(** ** Destruction of the values of a thread *)

(** The data of a key has to be destroyed. *)
Definition due (k : pthread_key_s) (v : Z) : bool :=
  allocated k && negb (destructor k =? 0) && negb (v =? 0).
Definition cleared (ks : list pthread_key_s) (vs : list Z) : list Z :=
  zip_with (λ k v, if due k v then 0 else v) ks vs.
Definition dtor_calls (ks : list pthread_key_s) (vs : list Z) : list (Z * Z) :=
  omap (λ '(k, v), if due k v then Some (destructor k, v) else None) (zip ks vs).

Section cleanup.
(** Destructors that do not set thread specific data. *)
Context {A : Type} (run : Z → Z → list Z * A → list Z * A) (f : A → Z * Z → A).
Hypothesis Hrun : ∀ d x vs a, run d x (vs, a) = (vs, f a (d, x)).

Lemma cleanup_pass_spec ks2 : ∀ ks1 vs1 vs2 a d,
  length ks1 = length vs1 → length ks2 = length vs2 →
  cleanup_pass run (length ks2) (length ks1) (ks1 ++ ks2) (vs1 ++ vs2) a d =
    Ok (vs1 ++ cleared ks2 vs2, foldl f a (dtor_calls ks2 vs2), d || negb (bool_decide (dtor_calls ks2 vs2 = []))).
Proof using Hrun.
  induction ks2 as [|k ks2 IH]; intros ks1 vs1 [|v vs2] a d Hl1 Hl2; try done; cbn [length cleanup_pass].
  { by rewrite orb_false_r. }
  rewrite (aget_nat (vs1 ++ v :: vs2) _ v) by (rewrite Hl1; by apply list_lookup_middle). cbn [mbind outcome_bind].
  rewrite (aget_nat (ks1 ++ k :: ks2) _ k) by (by apply list_lookup_middle). cbn [mbind outcome_bind].
  assert (negb (allocated k) || (destructor k =? 0) || (v =? 0) = negb (due k v)) as ->
    by (unfold due; by rewrite !negb_andb, !negb_involutive).
  unfold cleared, dtor_calls. cbn [zip_with zip omap list_omap]. destruct (due k v); cbn [negb].
  - rewrite aset_nat by (rewrite length_app; simpl; lia). cbn [mbind outcome_bind]. rewrite Hrun.
    rewrite Hl1, insert_app_r_alt by lia. rewrite Nat.sub_diag. cbn [list_insert insert].
    specialize (IH (ks1 ++ [k]) (vs1 ++ [0]) vs2 (f a (destructor k, v)) true).
    rewrite !length_app, <-!app_assoc in IH. simpl in IH. rewrite Nat.add_1_r, <-Hl1 in *.
    rewrite IH by (simpl in *; lia). simpl. by rewrite orb_true_r.
  - specialize (IH (ks1 ++ [k]) (vs1 ++ [v]) vs2 a d).
    rewrite !length_app, <-!app_assoc in IH. simpl in IH. rewrite Nat.add_1_r in IH. apply IH; simpl in *; lia.
Qed.

Lemma cleared_not_due ks : ∀ vs, dtor_calls ks (cleared ks vs) = [].
Proof.
  induction ks as [|k ks IH]; intros [|v vs]; try done. unfold dtor_calls, cleared. cbn [zip_with zip omap list_omap].
  destruct (due k v) eqn:E; [unfold due; rewrite andb_false_r|rewrite E]; apply IH.
Qed.

Lemma not_due_cleared ks : ∀ vs, length ks = length vs → dtor_calls ks vs = [] → cleared ks vs = vs.
Proof.
  induction ks as [|k ks IH]; intros [|v vs] Hl E; try done. unfold dtor_calls, cleared in *.
  cbn [zip_with zip omap list_omap] in *. destruct (due k v); [done|]. f_equal. apply IH; [by injection Hl|done].
Qed.

(** At the end of a thread each destructor runs once for each key in use
    with data, in the order of the keys, and the data of these keys is null
    afterwards, the other data unchanged, whatever the bound on the passes. *)
Theorem keys_cleanup_destroys n iterations ks vs a :
  (0 < iterations)%nat → length ks = n → length vs = n →
  _pthread_keys_cleanup n iterations run ks vs a = Ok (cleared ks vs, foldl f a (dtor_calls ks vs)).
Proof using Hrun.
  intros Hi Hk Hv. unfold _pthread_keys_cleanup. destruct iterations as [|it]; [lia|]. cbn [cleanup_loop].
  pose proof (cleanup_pass_spec ks [] [] vs a false) as E. cbn [app length] in E. rewrite <-Hk, E by (done || lia).
  cbn [mbind outcome_bind]. rewrite orb_false_l, negb_involutive. case_bool_decide; [done|].
  assert (length (cleared ks vs) = length ks) as Hlc by (unfold cleared; rewrite length_zip_with; lia).
  destruct it as [|it]; cbn [cleanup_loop]; [done|].
  pose proof (cleanup_pass_spec ks [] [] (cleared ks vs) (foldl f a (dtor_calls ks vs)) false) as E2.
  cbn [app length] in E2. rewrite E2 by (done || lia). cbn [mbind outcome_bind]. rewrite cleared_not_due. simpl.
  rewrite not_due_cleared; [done|lia|apply cleared_not_due].
Qed.
End cleanup.

Lemma keys_cleanup_destroys_witness :
  _pthread_keys_cleanup 2 1 (λ d x '(vs, a), (vs, a ++ [(d, x)]))
    [{| allocated := true; destructor := 7 |}; {| allocated := true; destructor := 0 |}] [5; 6] []
  = Ok ([0; 6], [(7, 5)]).
Proof.
  refine (keys_cleanup_destroys (λ d x '(vs, a), (vs, a ++ [(d, x)])) (λ a c, a ++ [c]) _ 2 1
    [{| allocated := true; destructor := 7 |}; {| allocated := true; destructor := 0 |}] [5; 6] [] _ _ _);
    [by intros ? ? ? ?|lia|done|done].
Defined.

(** ** Initialisation *)

Lemma init_loop_spec n : ∀ vs1 vs2,
  length vs2 = n → init_loop n (length vs1) (vs1 ++ vs2) = Ok (vs1 ++ replicate n 0).
Proof.
  induction n as [|n IH]; intros vs1 [|v vs2] Hl; try done; cbn [init_loop replicate].
  rewrite aset_nat by (rewrite length_app; simpl; lia). cbn [mbind outcome_bind].
  rewrite insert_app_r_alt, Nat.sub_diag by lia. cbn [list_insert insert].
  specialize (IH (vs1 ++ [0]) vs2). rewrite length_app, Nat.add_1_r, <-!app_assoc in IH.
  apply IH. by injection Hl.
Qed.

(** [_pthread_keys_init] is called by the creator of a thread and clears the
    values of the calling context: creating a thread erases the thread specific
    data of its creator, and leaves those of the new thread as they were. *)
Theorem keys_init_clears_creator n cur thread st vs :
  _key_values st !! cur = Some vs → length vs = n → thread ≠ cur →
  ∃ st', _pthread_keys_init n cur thread st = Ok st' ∧
    _key_values st' !! cur = Some (replicate n 0) ∧
    _key_values st' !! thread = _key_values st !! thread.
Proof.
  intros Hv Hl Hne. unfold _pthread_keys_init. rewrite Hv. cbn [of_option mbind outcome_bind].
  pose proof (init_loop_spec n [] vs Hl) as E. cbn [app length] in E. rewrite E. cbn [mbind outcome_bind].
  eexists. split; [done|]. simpl. by simplify_map_eq.
Qed.
End Keys.
