(* ===== verification/Crc32.v ===== *)
(** * CRC-32 (libcrypto/crc32.c)

    The bit by bit and the table driven update, and the proof that they compute
    the same function. *)

From S2P Require Import Prelude Endian.

Module Crc32.

Definition POLY : Z := 0x04c11db7.

(** ** CONFIG_LIBCRYPTO_CRC32_SMALL *)

(** One turn of the inner loop on [crc] and [w], both [uint32_t].  The mask is
    [~(((w ^ crc) >> 31) - 1)]. *)
Definition small_bit (crc w : Z) : Z * Z :=
  let mask := wrapu 32 (Z.lnot (wrapu 32 (Z.shiftr (Z.lxor w crc) 31 - 1))) in
  (Z.lxor (wrapu 32 (Z.shiftl crc 1)) (Z.land POLY mask), wrapu 32 (Z.shiftl w 1)).

Fixpoint small_bits (n : nat) (crc w : Z) : Z :=
  match n with
  | O => crc
  | S n => let '(crc, w) := small_bit crc w in small_bits n crc w
  end.

Definition small_byte (crc b : Z) : Z := small_bits 8 crc (wrapu 32 (Z.shiftl b 24)).
Definition crypto_crc32_update_small (crc : Z) (data : list Z) : Z := foldl small_byte crc data.

(** ** The table driven version *)

Definition crc_be_data : list Z :=
  [0x00000000; 0x04c11db7; 0x09823b6e; 0x0d4326d9; 0x130476dc; 0x17c56b6b; 0x1a864db2; 0x1e475005;
   0x2608edb8; 0x22c9f00f; 0x2f8ad6d6; 0x2b4bcb61; 0x350c9b64; 0x31cd86d3; 0x3c8ea00a; 0x384fbdbd;
   0x4c11db70; 0x48d0c6c7; 0x4593e01e; 0x4152fda9; 0x5f15adac; 0x5bd4b01b; 0x569796c2; 0x52568b75;
   0x6a1936c8; 0x6ed82b7f; 0x639b0da6; 0x675a1011; 0x791d4014; 0x7ddc5da3; 0x709f7b7a; 0x745e66cd;
   0x9823b6e0; 0x9ce2ab57; 0x91a18d8e; 0x95609039; 0x8b27c03c; 0x8fe6dd8b; 0x82a5fb52; 0x8664e6e5;
   0xbe2b5b58; 0xbaea46ef; 0xb7a96036; 0xb3687d81; 0xad2f2d84; 0xa9ee3033; 0xa4ad16ea; 0xa06c0b5d;
   0xd4326d90; 0xd0f37027; 0xddb056fe; 0xd9714b49; 0xc7361b4c; 0xc3f706fb; 0xceb42022; 0xca753d95;
   0xf23a8028; 0xf6fb9d9f; 0xfbb8bb46; 0xff79a6f1; 0xe13ef6f4; 0xe5ffeb43; 0xe8bccd9a; 0xec7dd02d;
   0x34867077; 0x30476dc0; 0x3d044b19; 0x39c556ae; 0x278206ab; 0x23431b1c; 0x2e003dc5; 0x2ac12072;
   0x128e9dcf; 0x164f8078; 0x1b0ca6a1; 0x1fcdbb16; 0x018aeb13; 0x054bf6a4; 0x0808d07d; 0x0cc9cdca;
   0x7897ab07; 0x7c56b6b0; 0x71159069; 0x75d48dde; 0x6b93dddb; 0x6f52c06c; 0x6211e6b5; 0x66d0fb02;
   0x5e9f46bf; 0x5a5e5b08; 0x571d7dd1; 0x53dc6066; 0x4d9b3063; 0x495a2dd4; 0x44190b0d; 0x40d816ba;
   0xaca5c697; 0xa864db20; 0xa527fdf9; 0xa1e6e04e; 0xbfa1b04b; 0xbb60adfc; 0xb6238b25; 0xb2e29692;
   0x8aad2b2f; 0x8e6c3698; 0x832f1041; 0x87ee0df6; 0x99a95df3; 0x9d684044; 0x902b669d; 0x94ea7b2a;
   0xe0b41de7; 0xe4750050; 0xe9362689; 0xedf73b3e; 0xf3b06b3b; 0xf771768c; 0xfa325055; 0xfef34de2;
   0xc6bcf05f; 0xc27dede8; 0xcf3ecb31; 0xcbffd686; 0xd5b88683; 0xd1799b34; 0xdc3abded; 0xd8fba05a;
   0x690ce0ee; 0x6dcdfd59; 0x608edb80; 0x644fc637; 0x7a089632; 0x7ec98b85; 0x738aad5c; 0x774bb0eb;
   0x4f040d56; 0x4bc510e1; 0x46863638; 0x42472b8f; 0x5c007b8a; 0x58c1663d; 0x558240e4; 0x51435d53;
   0x251d3b9e; 0x21dc2629; 0x2c9f00f0; 0x285e1d47; 0x36194d42; 0x32d850f5; 0x3f9b762c; 0x3b5a6b9b;
   0x0315d626; 0x07d4cb91; 0x0a97ed48; 0x0e56f0ff; 0x1011a0fa; 0x14d0bd4d; 0x19939b94; 0x1d528623;
   0xf12f560e; 0xf5ee4bb9; 0xf8ad6d60; 0xfc6c70d7; 0xe22b20d2; 0xe6ea3d65; 0xeba91bbc; 0xef68060b;
   0xd727bbb6; 0xd3e6a601; 0xdea580d8; 0xda649d6f; 0xc423cd6a; 0xc0e2d0dd; 0xcda1f604; 0xc960ebb3;
   0xbd3e8d7e; 0xb9ff90c9; 0xb4bcb610; 0xb07daba7; 0xae3afba2; 0xaafbe615; 0xa7b8c0cc; 0xa379dd7b;
   0x9b3660c6; 0x9ff77d71; 0x92b45ba8; 0x9675461f; 0x8832161a; 0x8cf30bad; 0x81b02d74; 0x857130c3;
   0x5d8a9099; 0x594b8d2e; 0x5408abf7; 0x50c9b640; 0x4e8ee645; 0x4a4ffbf2; 0x470cdd2b; 0x43cdc09c;
   0x7b827d21; 0x7f436096; 0x7200464f; 0x76c15bf8; 0x68860bfd; 0x6c47164a; 0x61043093; 0x65c52d24;
   0x119b4be9; 0x155a565e; 0x18197087; 0x1cd86d30; 0x029f3d35; 0x065e2082; 0x0b1d065b; 0x0fdc1bec;
   0x3793a651; 0x3352bbe6; 0x3e119d3f; 0x3ad08088; 0x2497d08d; 0x2056cd3a; 0x2d15ebe3; 0x29d4f654;
   0xc5a92679; 0xc1683bce; 0xcc2b1d17; 0xc8ea00a0; 0xd6ad50a5; 0xd26c4d12; 0xdf2f6bcb; 0xdbee767c;
   0xe3a1cbc1; 0xe760d676; 0xea23f0af; 0xeee2ed18; 0xf0a5bd1d; 0xf464a0aa; 0xf9278673; 0xfde69bc4;
   0x89b8fd09; 0x8d79e0be; 0x803ac667; 0x84fbdbd0; 0x9abc8bd5; 0x9e7d9662; 0x933eb0bb; 0x97ffad0c;
   0xafb010b1; 0xab710d06; 0xa6322bdf; 0xa2f33668; 0xbcb4666d; 0xb8757bda; 0xb5365d03; 0xb1f740b4].

Definition table_byte (crc b : Z) : outcome Z :=
  t ← aget crc_be_data (Z.lxor b (wrapu 8 (Z.shiftr crc 24)));
  Ok (Z.lxor (wrapu 32 (Z.shiftl crc 8)) t).

Fixpoint crypto_crc32_update (crc : Z) (data : list Z) : outcome Z :=
  match data with
  | [] => Ok crc
  | b :: data => crc ← table_byte crc b; crypto_crc32_update crc data
  end.

Definition crypto_crc32_init : Z := 0xffffffff.
(** Stores the complement, most significant byte first. *)
Definition crypto_crc32_get (crc : Z) (hash : list Z) : outcome (list Z) :=
  Endian.endian_be32_na_store hash 0 (wrapu 32 (Z.lnot crc)).

(** ** The linear feedback shift register *)

Definition word (x : Z) : Prop := 0 ≤ x < 2 ^ 32.
(** One step of the register on the word [x]. *)
Definition step1 (x : Z) : Z := Z.lxor (wrapu 32 (Z.shiftl x 1)) (if Z.testbit x 31 then POLY else 0).
Fixpoint steps (n : nat) (x : Z) : Z := match n with O => x | S n => steps n (step1 x) end.

Lemma word_testbit x i : word x → 32 ≤ i → Z.testbit x i = false.
Proof. intros Hx Hi. rewrite <-(wrapu_small 32 x) by done. rewrite testbit_wrapu by lia. by destruct (Z.ltb_spec i 32); [lia|]. Qed.

Lemma word_lxor x y : word x → word y → word (Z.lxor x y).
Proof.
  intros Hx Hy. assert (wrapu 32 (Z.lxor x y) = Z.lxor x y) as <-; [|by apply wrapu_range].
  apply Z.bits_inj'. intros i Hi. rewrite testbit_wrapu, Z.lxor_spec by lia.
  destruct (Z.ltb_spec i 32); [done|]. by rewrite !word_testbit.
Qed.

Lemma word_wrapu x : word (wrapu 32 x).
Proof. by apply wrapu_range. Qed.

Lemma word_step1 x : word (step1 x).
Proof. unfold step1. apply word_lxor; [apply word_wrapu|]. by destruct (Z.testbit x 31). Qed.

Lemma shiftl_lxor k x y : 0 ≤ k →
  wrapu 32 (Z.shiftl (Z.lxor x y) k) = Z.lxor (wrapu 32 (Z.shiftl x k)) (wrapu 32 (Z.shiftl y k)).
Proof.
  intros Hk. apply Z.bits_inj'. intros i Hi. rewrite Z.lxor_spec, !testbit_wrapu by lia.
  rewrite !Z.shiftl_spec, Z.lxor_spec by lia. by destruct (i <? 32).
Qed.

Lemma step1_lxor x y : step1 (Z.lxor x y) = Z.lxor (step1 x) (step1 y).
Proof.
  unfold step1. rewrite shiftl_lxor, Z.lxor_spec by lia.
  set (a := wrapu 32 (Z.shiftl x 1)). set (b := wrapu 32 (Z.shiftl y 1)).
  apply Z.bits_inj'. intros i Hi. rewrite !Z.lxor_spec.
  destruct (Z.testbit x 31), (Z.testbit y 31); cbn [xorb]; rewrite ?Z.bits_0;
    destruct (Z.testbit a i), (Z.testbit b i), (Z.testbit POLY i); done.
Qed.

Lemma steps_lxor n x y : steps n (Z.lxor x y) = Z.lxor (steps n x) (steps n y).
Proof. revert x y; induction n as [|n IH]; intros x y; simpl; [done|]. by rewrite step1_lxor, IH. Qed.

Lemma small_bit_step crc w :
  word crc → word w →
  small_bit crc w = (Z.lxor (step1 (Z.lxor crc w)) (wrapu 32 (Z.shiftl w 1)), wrapu 32 (Z.shiftl w 1)).
Proof.
  intros Hc Hw. unfold small_bit. f_equal. rewrite (Z.lxor_comm w crc).
  set (x := Z.lxor crc w). assert (word x) as Hx by (by apply word_lxor).
  assert (Z.shiftr x 31 = Z.b2z (Z.testbit x 31)) as ->.
  { apply Z.bits_inj'. intros i Hi. rewrite Z.shiftr_spec by done. destruct (decide (i = 0)) as [->|].
    - by rewrite Z.b2z_bit0.
    - rewrite word_testbit by (done || lia). by destruct (Z.testbit x 31); [rewrite Z.bits_above_log2 by (simpl; lia)|rewrite Z.bits_0]. }
  unfold step1. unfold x at 2. rewrite shiftl_lxor by lia.
  set (c := wrapu 32 (Z.shiftl crc 1)). set (v := wrapu 32 (Z.shiftl w 1)).
  transitivity (Z.lxor c (if Z.testbit x 31 then POLY else 0)); [by destruct (Z.testbit x 31)|].
  apply Z.bits_inj'. intros i Hi. rewrite !Z.lxor_spec.
  by destruct (Z.testbit c i), (Z.testbit v i), (Z.testbit (if Z.testbit x 31 then POLY else 0) i).
Qed.

Lemma small_bits_steps n : ∀ crc w,
  word crc → word w →
  small_bits n crc w = Z.lxor (steps n (Z.lxor crc w)) (wrapu 32 (Z.shiftl w (Z.of_nat n))).
Proof.
  induction n as [|n IH]; intros crc w Hc Hw; cbn [small_bits steps].
  - rewrite Z.shiftl_0_r, wrapu_small by done.
    by rewrite Z.lxor_assoc, Z.lxor_nilpotent, Z.lxor_0_r.
  - rewrite small_bit_step by done. rewrite IH by (try apply word_lxor; try apply word_step1; apply word_wrapu).
    rewrite Z.lxor_assoc, Z.lxor_nilpotent, Z.lxor_0_r. f_equal. unfold wrapu.
    rewrite !Z.shiftl_mul_pow2, Z.mul_mod_idemp_l by lia. f_equal.
    rewrite Nat2Z.inj_succ, Z.pow_succ_r by lia. lia.
Qed.

Definition is_byte (b : Z) : Prop := 0 ≤ b < 256.

Lemma byte_word b : is_byte b → word (Z.shiftl b 24).
Proof. intros Hb. rewrite Z.shiftl_mul_pow2 by lia. unfold word, is_byte in *. lia. Qed.

Lemma small_byte_steps crc b :
  word crc → is_byte b → small_byte crc b = steps 8 (Z.lxor crc (Z.shiftl b 24)).
Proof.
  intros Hc Hb. unfold small_byte. rewrite (wrapu_small 32 (Z.shiftl b 24)) by (by apply byte_word).
  rewrite small_bits_steps by (done || by apply byte_word).
  assert (wrapu 32 (Z.shiftl (Z.shiftl b 24) (Z.of_nat 8)) = 0) as ->; [|by rewrite Z.lxor_0_r].
  rewrite Z.shiftl_shiftl, Z.shiftl_mul_pow2 by lia. apply Z.mod_mul. lia.
Qed.

(** The register shifted while its top bits are clear. *)
Lemma steps_low n x : 0 ≤ x < 2 ^ (32 - Z.of_nat n) → (n ≤ 32)%nat → steps n x = x * 2 ^ Z.of_nat n.
Proof.
  revert x; induction n as [|n IH]; intros x Hx Hn; cbn [steps]; [lia|].
  assert (2 ^ (32 - Z.of_nat n) = 2 * 2 ^ (32 - Z.of_nat (S n))) as E
    by (rewrite <-Z.pow_succ_r by lia; f_equal; lia).
  assert (2 ^ (32 - Z.of_nat (S n)) ≤ 2 ^ 31) as Hle by (apply Z.pow_le_mono_r; lia).
  assert (step1 x = 2 * x) as ->.
  { unfold step1. rewrite <-(wrapu_small 31 x) at 2 by lia. rewrite testbit_wrapu by lia. cbn [Z.ltb Z.compare Pos.compare Pos.compare_cont andb].
    rewrite Z.lxor_0_r, Z.shiftl_mul_pow2, wrapu_small by lia. lia. }
  rewrite IH by lia. rewrite (Nat2Z.inj_succ n), Z.pow_succ_r by lia. lia.
Qed.

(** The table holds what eight steps make of its index. *)
Lemma table_entry h : is_byte h → crc_be_data !! Z.to_nat h = Some (steps 8 (Z.shiftl h 24)).
Proof.
  intros Hh.
  assert (forallb (λ h, bool_decide (crc_be_data !! Z.to_nat h = Some (steps 8 (Z.shiftl h 24)))) (seqZ 0 256) = true)
    as Hall by (vm_compute; reflexivity).
  rewrite forallb_forall in Hall. assert (h ∈ seqZ 0 256) as Hin by (apply elem_of_seqZ; unfold is_byte in Hh; lia).
  specialize (Hall h (proj1 (list_elem_of_In _ _) Hin)). by apply bool_decide_eq_true in Hall.
Qed.

Lemma table_byte_steps crc b :
  word crc → is_byte b → table_byte crc b = Ok (steps 8 (Z.lxor crc (Z.shiftl b 24))).
Proof.
  intros Hc Hb. unfold table_byte. set (h := Z.lxor b (wrapu 8 (Z.shiftr crc 24))).
  assert (is_byte h) as Hh.
  { assert (wrapu 8 h = h) as <-; [|by apply (wrapu_range 8)]. unfold h.
    rewrite <-(wrapu_small 8 b) by done. zbits. }
  rewrite <-(Z2Nat.id h) by apply Hh. rewrite (aget_nat _ _ _ (table_entry h Hh)). cbn [mbind outcome_bind]. f_equal.
  assert (Z.lxor crc (Z.shiftl b 24) = Z.lxor (wrapu 24 crc) (Z.shiftl h 24)) as ->.
  { unfold h. rewrite <-(wrapu_small 32 crc) at 1 by done. rewrite <-(wrapu_small 8 b) by done. zbits.
    rewrite Z.sub_add. apply xorb_comm. }
  rewrite steps_lxor. f_equal. pose proof (wrapu_range 24 crc ltac:(lia)) as Hr.
  rewrite steps_low by (simpl; lia). change (Z.of_nat 8) with 8.
  rewrite <-Z.shiftl_mul_pow2 by lia. zbits.
Qed.

(** ** Injectivity *)

(** The low bit of a step tells the bit that was shifted out. *)
Lemma step1_inj x y : word x → word y → step1 x = step1 y → x = y.
Proof.
  intros Hx Hy E.
  assert (∀ z, Z.testbit (step1 z) 0 = Z.testbit z 31) as H0.
  { intros z. unfold step1. rewrite Z.lxor_spec, testbit_wrapu, Z.shiftl_spec by lia. change (0 - 1) with (-1).
    rewrite Z.testbit_neg_r by lia. by destruct (Z.testbit z 31). }
  assert (Z.testbit x 31 = Z.testbit y 31) as H31 by (rewrite <-!H0; by rewrite E).
  apply Z.bits_inj'. intros i Hi. destruct (Z.ltb_spec i 31).
  - apply (f_equal (λ z, Z.testbit z (i + 1))) in E. unfold step1 in E. rewrite H31 in E.
    rewrite !Z.lxor_spec, !testbit_wrapu, !Z.shiftl_spec in E by lia.
    replace (i + 1 - 1) with i in E by lia. destruct (Z.ltb_spec (i + 1) 32); [|lia].
    cbn [andb] in E. revert E. generalize (Z.testbit (if Z.testbit y 31 then POLY else 0) (i + 1)).
    by intros []; destruct (Z.testbit x i), (Z.testbit y i).
  - destruct (decide (i = 31)) as [->|]; [done|]. by rewrite !word_testbit by (done || lia).
Qed.

Lemma steps_inj n x y : word x → word y → steps n x = steps n y → x = y.
Proof.
  revert x y; induction n as [|n IH]; intros x y Hx Hy E; simpl in E; [done|].
  apply step1_inj; [done..|]. apply IH; [apply word_step1..|done].
Qed.

Lemma word_small_byte crc b : word crc → is_byte b → word (small_byte crc b).
Proof.
  intros Hc Hb. rewrite small_byte_steps by done. cbn [steps]. apply word_step1.
Qed.

Lemma word_update data : ∀ crc, word crc → Forall is_byte data → word (crypto_crc32_update_small crc data).
Proof.
  induction data as [|b data IH]; intros crc Hc Hd; simpl; [done|]. inversion_clear Hd.
  apply IH; [by apply word_small_byte|done].
Qed.

Lemma lxor_inj_r a b c : Z.lxor a c = Z.lxor b c → a = b.
Proof.
  intros E. apply (f_equal (λ z, Z.lxor z c)) in E. by rewrite !Z.lxor_assoc, !Z.lxor_nilpotent, !Z.lxor_0_r in E.
Qed.

Lemma update_inj data : ∀ c1 c2, word c1 → word c2 → Forall is_byte data →
  crypto_crc32_update_small c1 data = crypto_crc32_update_small c2 data → c1 = c2.
Proof.
  induction data as [|b data IH]; intros c1 c2 H1 H2 Hd E; simpl in E; [done|]. inversion_clear Hd as [|?? Hb Hd'].
  apply IH in E; [|by apply word_small_byte..|done]. rewrite !small_byte_steps in E by done.
  pose proof (byte_word b Hb). apply steps_inj in E; [|by apply word_lxor..]. by apply lxor_inj_r in E.
Qed.

Lemma update_is_small data : ∀ crc,
  word crc → Forall is_byte data →
  crypto_crc32_update crc data = Ok (crypto_crc32_update_small crc data).
Proof.
  induction data as [|b data IH]; intros crc Hc Hd; [done|]. inversion_clear Hd.
  cbn [crypto_crc32_update]. rewrite table_byte_steps by done. cbn [mbind outcome_bind].
  rewrite <-small_byte_steps by done. apply IH; [by apply word_small_byte|done].
Qed.

(** ** Properties *)

(** The table driven update computes the same function as the bit by bit
    one, for any register and any data; in particular the table is right and is
    never read out of its bounds. *)
Theorem crc32_table_is_bitwise crc data :
  word crc → Forall is_byte data →
  crypto_crc32_update crc data = Ok (crypto_crc32_update_small crc data).
Proof. apply update_is_small. Qed.

(** The check value of this CRC on the digits 1 to 9 is 0xfc891918, the
    complement of the register. *)
Lemma crc32_table_is_bitwise_witness :
  crypto_crc32_update crypto_crc32_init [49; 50; 51; 52; 53; 54; 55; 56; 57] = Ok 0x0376e6e7.
Proof.
  refine (eq_trans (crc32_table_is_bitwise crypto_crc32_init [49; 50; 51; 52; 53; 54; 55; 56; 57] _ _) _).
  - split; [discriminate|reflexivity].
  - unfold is_byte. rewrite !Forall_cons, Forall_nil. lia.
  - vm_compute. reflexivity.
Defined.

(** The CRC detects every error confined to one byte: two messages of the
    same length that differ in exactly one byte have different checksums. *)
Theorem crc32_detects_byte_error crc pre b1 b2 post :
  word crc → Forall is_byte (pre ++ b1 :: post) → is_byte b2 → b1 ≠ b2 →
  crypto_crc32_update crc (pre ++ b1 :: post) ≠ crypto_crc32_update crc (pre ++ b2 :: post).
Proof.
  intros Hc Hd Hb2 Hne E. apply Hne. apply Forall_app in Hd as [Hp Hd]. inversion_clear Hd as [|?? Hb1 Hq].
  rewrite !update_is_small in E by (done || (apply Forall_app; split; [done|by constructor])).
  injection E as E. unfold crypto_crc32_update_small in E. rewrite !foldl_app in E. simpl in E.
  pose proof (word_update pre crc Hc Hp) as Hw. apply update_inj in E; [|by apply word_small_byte..|done].
  rewrite !small_byte_steps in E by done.
  apply steps_inj in E; [|apply word_lxor; [done|by apply byte_word]..].
  rewrite !(Z.lxor_comm (foldl small_byte crc pre)) in E. apply lxor_inj_r in E.
  rewrite !Z.shiftl_mul_pow2 in E by lia. lia.
Qed.

Lemma crc32_detects_byte_error_witness :
  crypto_crc32_update crypto_crc32_init [1; 2; 3] ≠ crypto_crc32_update crypto_crc32_init [1; 6; 3].
Proof.
  apply (crc32_detects_byte_error crypto_crc32_init [1] 2 6 [3]).
  - split; [discriminate|reflexivity].
  - unfold is_byte. simpl app. rewrite !Forall_cons, Forall_nil. lia.
  - unfold is_byte. lia.
  - discriminate.
Defined.
End Crc32.
