(* ===== verification/Md5.v ===== *)
(** * MD5 (libcrypto/md5.c)

    The compression function, the buffering of the input and the padding, on
    little and big endian processors, and the proof that they compute the digest
    of RFC 1321 of the whole message, however it is cut into updates. *)

From S2P Require Import Prelude Endian.

Module Md5.
Import Endian.

(** ** Words *)

(** [(uint32_t)((unsigned)b3 << 8 | b2) << 16 | ((unsigned)b1 << 8 | b0)] *)
Definition le_val (b0 b1 b2 b3 : Z) : Z :=
  Z.lor (wrapu 32 (Z.shiftl (Z.lor (Z.shiftl b3 8) b2) 16)) (Z.lor (Z.shiftl b1 8) b0).

(** The bytes of an [uint32_t] in memory; [big] is [CONFIG_CPU_ENDIAN_BIG]. *)
Definition host_bytes (big : bool) (x : Z) : list Z := if big then be_bytes 4 x else le_bytes 4 x.

(** An array of [n] [uint32_t] read from memory. *)
Fixpoint words (big : bool) (n : nat) (buf : list Z) : list Z :=
  match n, buf with
  | S n, b0 :: b1 :: b2 :: b3 :: buf =>
      (if big then le_val b3 b2 b1 b0 else le_val b0 b1 b2 b3) :: words big n buf
  | _, _ => []
  end.

(** Only on big endian processors. *)
Fixpoint md5_byte_reverse (longs : nat) (buf : list Z) : list Z :=
  match longs, buf with
  | S n, b0 :: b1 :: b2 :: b3 :: buf' =>
      host_bytes true (le_val b0 b1 b2 b3) ++ md5_byte_reverse n buf'
  | _, _ => buf
  end.
Definition byte_reverse (big : bool) (longs : nat) (buf : list Z) : list Z :=
  if big then md5_byte_reverse longs buf else buf.

(** ** The compression function *)

Definition F1 (x y z : Z) : Z := Z.lxor z (Z.land x (Z.lxor y z)).
Definition F2 (x y z : Z) : Z := F1 z x y.
Definition F3 (x y z : Z) : Z := Z.lxor (Z.lxor x y) z.
Definition F4 (x y z : Z) : Z := Z.lxor y (Z.lor x (wrapu 32 (Z.lnot z))).

Definition MD5STEP (f : Z → Z → Z → Z) (w x y z data s : Z) : Z :=
  let w := wrapu 32 (w + (f x y z + data)) in
  let w := Z.lor (wrapu 32 (Z.shiftl w s)) (Z.shiftr w (32 - s)) in
  wrapu 32 (w + x).

(** [buf[4]] *)
Record md5_buf := { buf0 : Z; buf1 : Z; buf2 : Z; buf3 : Z }.

(** The local variables [a], [b], [c], [d], and the lines of the function, each
    [MD5STEP(f, w, x, y, z, in[i] + k, s)]. *)
Inductive reg := A | B | C | D.
Inductive line := Line (f : Z → Z → Z → Z) (w x y z : reg) (i k s : Z).

Definition get (r : reg) (m : md5_buf) : Z :=
  match r with A => buf0 m | B => buf1 m | C => buf2 m | D => buf3 m end.
Definition set_reg (r : reg) (v : Z) (m : md5_buf) : md5_buf :=
  match r with
  | A => {| buf0 := v; buf1 := buf1 m; buf2 := buf2 m; buf3 := buf3 m |}
  | B => {| buf0 := buf0 m; buf1 := v; buf2 := buf2 m; buf3 := buf3 m |}
  | C => {| buf0 := buf0 m; buf1 := buf1 m; buf2 := v; buf3 := buf3 m |}
  | D => {| buf0 := buf0 m; buf1 := buf1 m; buf2 := buf2 m; buf3 := v |}
  end.
Definition run_line (ws : list Z) (m : md5_buf) (l : line) : md5_buf :=
  let '(Line f w x y z i k s) := l in
  set_reg w (MD5STEP f (get w m) (get x m) (get y m) (get z m) (nth (Z.to_nat i) ws 0 + k) s) m.

Definition md5_lines : list line :=
  [Line F1 A B C D 0 0xd76aa478 7;
   Line F1 D A B C 1 0xe8c7b756 12;
   Line F1 C D A B 2 0x242070db 17;
   Line F1 B C D A 3 0xc1bdceee 22;
   Line F1 A B C D 4 0xf57c0faf 7;
   Line F1 D A B C 5 0x4787c62a 12;
   Line F1 C D A B 6 0xa8304613 17;
   Line F1 B C D A 7 0xfd469501 22;
   Line F1 A B C D 8 0x698098d8 7;
   Line F1 D A B C 9 0x8b44f7af 12;
   Line F1 C D A B 10 0xffff5bb1 17;
   Line F1 B C D A 11 0x895cd7be 22;
   Line F1 A B C D 12 0x6b901122 7;
   Line F1 D A B C 13 0xfd987193 12;
   Line F1 C D A B 14 0xa679438e 17;
   Line F1 B C D A 15 0x49b40821 22;
   Line F2 A B C D 1 0xf61e2562 5;
   Line F2 D A B C 6 0xc040b340 9;
   Line F2 C D A B 11 0x265e5a51 14;
   Line F2 B C D A 0 0xe9b6c7aa 20;
   Line F2 A B C D 5 0xd62f105d 5;
   Line F2 D A B C 10 0x02441453 9;
   Line F2 C D A B 15 0xd8a1e681 14;
   Line F2 B C D A 4 0xe7d3fbc8 20;
   Line F2 A B C D 9 0x21e1cde6 5;
   Line F2 D A B C 14 0xc33707d6 9;
   Line F2 C D A B 3 0xf4d50d87 14;
   Line F2 B C D A 8 0x455a14ed 20;
   Line F2 A B C D 13 0xa9e3e905 5;
   Line F2 D A B C 2 0xfcefa3f8 9;
   Line F2 C D A B 7 0x676f02d9 14;
   Line F2 B C D A 12 0x8d2a4c8a 20;
   Line F3 A B C D 5 0xfffa3942 4;
   Line F3 D A B C 8 0x8771f681 11;
   Line F3 C D A B 11 0x6d9d6122 16;
   Line F3 B C D A 14 0xfde5380c 23;
   Line F3 A B C D 1 0xa4beea44 4;
   Line F3 D A B C 4 0x4bdecfa9 11;
   Line F3 C D A B 7 0xf6bb4b60 16;
   Line F3 B C D A 10 0xbebfbc70 23;
   Line F3 A B C D 13 0x289b7ec6 4;
   Line F3 D A B C 0 0xeaa127fa 11;
   Line F3 C D A B 3 0xd4ef3085 16;
   Line F3 B C D A 6 0x04881d05 23;
   Line F3 A B C D 9 0xd9d4d039 4;
   Line F3 D A B C 12 0xe6db99e5 11;
   Line F3 C D A B 15 0x1fa27cf8 16;
   Line F3 B C D A 2 0xc4ac5665 23;
   Line F4 A B C D 0 0xf4292244 6;
   Line F4 D A B C 7 0x432aff97 10;
   Line F4 C D A B 14 0xab9423a7 15;
   Line F4 B C D A 5 0xfc93a039 21;
   Line F4 A B C D 12 0x655b59c3 6;
   Line F4 D A B C 3 0x8f0ccc92 10;
   Line F4 C D A B 10 0xffeff47d 15;
   Line F4 B C D A 1 0x85845dd1 21;
   Line F4 A B C D 8 0x6fa87e4f 6;
   Line F4 D A B C 15 0xfe2ce6e0 10;
   Line F4 C D A B 6 0xa3014314 15;
   Line F4 B C D A 13 0x4e0811a1 21;
   Line F4 A B C D 4 0xf7537e82 6;
   Line F4 D A B C 11 0xbd3af235 10;
   Line F4 C D A B 2 0x2ad7d2bb 15;
   Line F4 B C D A 9 0xeb86d391 21].

Definition md5_transform (buf : md5_buf) (ws : list Z) : md5_buf :=
  let m := foldl (run_line ws) buf md5_lines in
  {| buf0 := wrapu 32 (buf0 buf + buf0 m); buf1 := wrapu 32 (buf1 buf + buf1 m);
     buf2 := wrapu 32 (buf2 buf + buf2 m); buf3 := wrapu 32 (buf3 buf + buf3 m) |}.

(** ** The hash functions *)

Record crypto_md5_ctx_s := { buf : md5_buf; bits0 : Z; bits1 : Z; in_ : list Z }.

Definition md5_start : md5_buf :=
  {| buf0 := 0x67452301; buf1 := 0xefcdab89; buf2 := 0x98badcfe; buf3 := 0x10325476 |}.
Definition crypto_md5_init (ctx : crypto_md5_ctx_s) : crypto_md5_ctx_s :=
  {| buf := md5_start; bits0 := 0; bits1 := 0; in_ := in_ ctx |}.

(** [memcpy] and [memset] into [ctx->in]. *)
Definition copy_in (inb : list Z) (off : Z) (bs : list Z) : outcome (list Z) :=
  _ ← require (off + Z.of_nat (length bs) <=? Z.of_nat (length inb)) FBounds;
  Ok (write_at inb (Z.to_nat off) bs).

Section ops.
Context (big : bool).

(** The processing of one full [ctx->in]. *)
Definition process (b : md5_buf) (inb : list Z) : md5_buf * list Z :=
  let inb := byte_reverse big 16 inb in (md5_transform b (words big 16 inb), inb).

(** [while (len >= 64)] and the copy of the rest *)
Fixpoint update_loop (fuel : nat) (b : md5_buf) (inb data : list Z) : outcome (md5_buf * list Z) :=
  match fuel with
  | O => Err FFuel
  | S fuel =>
      if (64 <=? Z.of_nat (length data)) then
        inb ← copy_in inb 0 (take 64 data);
        let '(b, inb) := process b inb in
        update_loop fuel b inb (drop 64 data)
      else inb ← copy_in inb 0 data; Ok (b, inb)
  end.

Definition crypto_md5_update (ctx : crypto_md5_ctx_s) (data : list Z) : outcome crypto_md5_ctx_s :=
  let len := Z.of_nat (length data) in
  let t := bits0 ctx in
  let lo := wrapu 32 (t + wrapu 32 (Z.shiftl (wrapu 32 len) 3)) in
  let hi := if lo <? t then wrapu 32 (bits1 ctx + 1) else bits1 ctx in
  let hi := wrapu 32 (hi + Z.shiftr len 29) in
  let t := Z.land (Z.shiftr t 3) 0x3f in
  if negb (t =? 0) then
    let r := 64 - t in
    if len <? r then
      inb ← copy_in (in_ ctx) t data;
      Ok {| buf := buf ctx; bits0 := lo; bits1 := hi; in_ := inb |}
    else
      inb ← copy_in (in_ ctx) t (take (Z.to_nat r) data);
      let '(b, inb) := process (buf ctx) inb in
      '(b, inb) ← update_loop (S (length data)) b inb (drop (Z.to_nat r) data);
      Ok {| buf := b; bits0 := lo; bits1 := hi; in_ := inb |}
  else
    '(b, inb) ← update_loop (S (length data)) (buf ctx) (in_ ctx) data;
    Ok {| buf := b; bits0 := lo; bits1 := hi; in_ := inb |}.

(** Returns the 16 bytes stored in [hash]; [ptr] is [sizeof(ctx)], the size of
    the pointer, which is the number of bytes cleared in the context. *)
Definition crypto_md5_get (ptr : Z) (ctx : crypto_md5_ctx_s) : outcome (list Z * crypto_md5_ctx_s) :=
  let count := Z.land (Z.shiftr (bits0 ctx) 3) 0x3f in
  inb ← copy_in (in_ ctx) count [0x80];
  let p := count + 1 in
  let count := 64 - 1 - count in
  '(b, inb) ←
    (if count <? 8 then
       inb ← copy_in inb p (replicate (Z.to_nat count) 0);
       let '(b, inb) := process (buf ctx) inb in
       inb ← copy_in inb 0 (replicate 56 0);
       Ok (b, inb)
     else
       inb ← copy_in inb p (replicate (Z.to_nat (count - 8)) 0);
       Ok (buf ctx, inb));
  let inb := byte_reverse big 14 inb in
  inb ← copy_in inb 56 (host_bytes big (bits0 ctx));
  inb ← copy_in inb 60 (host_bytes big (bits1 ctx));
  let b := md5_transform b (words big 16 inb) in
  let mem := byte_reverse big 4 (host_bytes big (buf0 b) ++ host_bytes big (buf1 b) ++
                                 host_bytes big (buf2 b) ++ host_bytes big (buf3 b)) in
  let w := words big 4 (write_at mem 0 (replicate (Z.to_nat ptr) 0)) in
  Ok (mem, {| buf := {| buf0 := nth 0 w 0; buf1 := nth 1 w 0; buf2 := nth 2 w 0; buf3 := nth 3 w 0 |};
              bits0 := bits0 ctx; bits1 := bits1 ctx; in_ := inb |}).
End ops.

(** ** RFC 1321

    The message is followed by a 1 bit, null bits up to 448 modulo 512, and its
    length in bits modulo 2^64, least significant byte first; the blocks of 64
    bytes are compressed in order. *)
Definition rfc_f (r : Z) (x y z : Z) : Z :=
  if r =? 0 then Z.lor (Z.land x y) (Z.land (wrapu 32 (Z.lnot x)) z)
  else if r =? 1 then Z.lor (Z.land x z) (Z.land y (wrapu 32 (Z.lnot z)))
  else if r =? 2 then Z.lxor (Z.lxor x y) z
  else Z.lxor y (Z.lor x (wrapu 32 (Z.lnot z))).

(** The integer part of 4294967296 times [abs(sin(i + 1))]. *)
Definition rfc_T : list Z :=
  [0xd76aa478; 0xe8c7b756; 0x242070db; 0xc1bdceee; 0xf57c0faf; 0x4787c62a; 0xa8304613; 0xfd469501;
   0x698098d8; 0x8b44f7af; 0xffff5bb1; 0x895cd7be; 0x6b901122; 0xfd987193; 0xa679438e; 0x49b40821;
   0xf61e2562; 0xc040b340; 0x265e5a51; 0xe9b6c7aa; 0xd62f105d; 0x02441453; 0xd8a1e681; 0xe7d3fbc8;
   0x21e1cde6; 0xc33707d6; 0xf4d50d87; 0x455a14ed; 0xa9e3e905; 0xfcefa3f8; 0x676f02d9; 0x8d2a4c8a;
   0xfffa3942; 0x8771f681; 0x6d9d6122; 0xfde5380c; 0xa4beea44; 0x4bdecfa9; 0xf6bb4b60; 0xbebfbc70;
   0x289b7ec6; 0xeaa127fa; 0xd4ef3085; 0x04881d05; 0xd9d4d039; 0xe6db99e5; 0x1fa27cf8; 0xc4ac5665;
   0xf4292244; 0x432aff97; 0xab9423a7; 0xfc93a039; 0x655b59c3; 0x8f0ccc92; 0xffeff47d; 0x85845dd1;
   0x6fa87e4f; 0xfe2ce6e0; 0xa3014314; 0x4e0811a1; 0xf7537e82; 0xbd3af235; 0x2ad7d2bb; 0xeb86d391].

(** The word of the block and the rotation used by the step [i]. *)
Definition rfc_k (i : Z) : Z :=
  nth (Z.to_nat (i / 16)) [i mod 16; (5 * i + 1) mod 16; (3 * i + 5) mod 16; (7 * i) mod 16] 0.
Definition rfc_s (i : Z) : Z :=
  nth (Z.to_nat (i mod 4)) (nth (Z.to_nat (i / 16)) [[7; 12; 17; 22]; [5; 9; 14; 20]; [4; 11; 16; 23]; [6; 10; 15; 21]] []) 0.

Definition rotl (x s : Z) : Z := Z.lor (wrapu 32 (Z.shiftl x s)) (Z.shiftr x (32 - s)).

(** [b + ((a + f(b, c, d) + X[k] + T[i]) <<< s)], and the registers turn. *)
Definition rfc_step (ws : list Z) (st : Z * Z * Z * Z) (i : Z) : Z * Z * Z * Z :=
  let '(a, b, c, d) := st in
  let x := wrapu 32 (a + rfc_f (i / 16) b c d + nth (Z.to_nat (rfc_k i)) ws 0 + nth (Z.to_nat i) rfc_T 0) in
  (d, wrapu 32 (b + rotl x (rfc_s i)), b, c).

Definition rfc_block (h : md5_buf) (ws : list Z) : md5_buf :=
  let '(a, b, c, d) := foldl (rfc_step ws) (buf0 h, buf1 h, buf2 h, buf3 h) (seqZ 0 64) in
  {| buf0 := wrapu 32 (buf0 h + a); buf1 := wrapu 32 (buf1 h + b);
     buf2 := wrapu 32 (buf2 h + c); buf3 := wrapu 32 (buf3 h + d) |}.

(** Compress the first [k] blocks of [p]. *)
Fixpoint rfc_blocks (k : nat) (h : md5_buf) (p : list Z) : md5_buf :=
  match k with
  | O => h
  | S k => rfc_blocks k (rfc_block h (words false 16 (take 64 p))) (drop 64 p)
  end.

Definition rfc_pad (m : list Z) : list Z :=
  let n := Z.of_nat (length m) in
  m ++ [0x80] ++ replicate (Z.to_nat ((55 - n) mod 64)) 0 ++ le_bytes 8 (8 * n).
Definition rfc_md5 (m : list Z) : list Z :=
  let p := rfc_pad m in
  let h := rfc_blocks (length p / 64) md5_start p in
  le_bytes 4 (buf0 h) ++ le_bytes 4 (buf1 h) ++ le_bytes 4 (buf2 h) ++ le_bytes 4 (buf3 h).

(** ** The compression function is the one of the RFC *)

Definition word (x : Z) : Prop := 0 ≤ x < 2 ^ 32.

Lemma word_step f w x y z data s : word (MD5STEP f w x y z data s).
Proof. unfold MD5STEP. by apply wrapu_range. Qed.

Lemma F1_rfc x y z : word z → F1 x y z = rfc_f 0 x y z.
Proof.
  intros Hz. unfold F1, rfc_f. simpl. rewrite <-(wrapu_small 32 z) by done. apply Z.bits_inj'. intros i Hi.
  rewrite Z.lor_spec, Z.lxor_spec, !Z.land_spec, Z.lxor_spec, !testbit_wrapu, Z.lnot_spec by lia.
  by destruct (i <? 32), (Z.testbit x i), (Z.testbit y i), (Z.testbit z i).
Qed.

Lemma F2_rfc x y z : word y → F2 x y z = rfc_f 1 x y z.
Proof.
  intros Hy. unfold F2. rewrite F1_rfc by done. unfold rfc_f. simpl.
  by rewrite (Z.land_comm z x), (Z.land_comm y).
Qed.

(** A step of the source is a step of the RFC. *)
Lemma MD5STEP_rfc f ws a b c d i k t s :
  f b c d = rfc_f (i / 16) b c d → rfc_k i = k → nth (Z.to_nat i) rfc_T 0 = t → rfc_s i = s →
  rfc_step ws (a, b, c, d) i = (d, MD5STEP f a b c d (nth (Z.to_nat k) ws 0 + t) s, b, c).
Proof.
  intros Hf <- <- <-. unfold rfc_step, MD5STEP, rotl. cbv zeta. rewrite <-Hf.
  rewrite (Z.add_comm b), !Z.add_assoc. done.
Qed.

(** Four lines of the source are four steps of the RFC, after which the registers
    are in place again. *)
Lemma four_lines ws f i a b c d k0 k1 k2 k3 t0 t1 t2 t3 s0 s1 s2 s3 ls js :
  (∀ j x y z, j ∈ [i; i + 1; i + 2; i + 3] → word x → word y → word z → f x y z = rfc_f (j / 16) x y z) →
  rfc_k <$> [i; i + 1; i + 2; i + 3] = [k0; k1; k2; k3] →
  (λ i, nth (Z.to_nat i) rfc_T 0) <$> [i; i + 1; i + 2; i + 3] = [t0; t1; t2; t3] →
  rfc_s <$> [i; i + 1; i + 2; i + 3] = [s0; s1; s2; s3] →
  word a → word b → word c → word d →
  ∃ a' b' c' d', word a' ∧ word b' ∧ word c' ∧ word d' ∧
    foldl (run_line ws) {| buf0 := a; buf1 := b; buf2 := c; buf3 := d |}
      (Line f A B C D k0 t0 s0 :: Line f D A B C k1 t1 s1 :: Line f C D A B k2 t2 s2 ::
       Line f B C D A k3 t3 s3 :: ls)
    = foldl (run_line ws) {| buf0 := a'; buf1 := b'; buf2 := c'; buf3 := d' |} ls ∧
    foldl (rfc_step ws) (a, b, c, d) (i :: i + 1 :: i + 2 :: i + 3 :: js) = foldl (rfc_step ws) (a', b', c', d') js.
Proof.
  intros Hf Hk Ht Hs Ha Hb Hc Hd. simpl in Hk, Ht, Hs. injection Hk as Hk0 Hk1 Hk2 Hk3.
  injection Ht as Ht0 Ht1 Ht2 Ht3. injection Hs as Hs0 Hs1 Hs2 Hs3.
  set (a' := MD5STEP f a b c d (nth (Z.to_nat k0) ws 0 + t0) s0).
  assert (word a') by apply word_step.
  set (d' := MD5STEP f d a' b c (nth (Z.to_nat k1) ws 0 + t1) s1). assert (word d') by apply word_step.
  set (c' := MD5STEP f c d' a' b (nth (Z.to_nat k2) ws 0 + t2) s2). assert (word c') by apply word_step.
  set (b' := MD5STEP f b c' d' a' (nth (Z.to_nat k3) ws 0 + t3) s3). assert (word b') by apply word_step.
  exists a', b', c', d'. do 4 (split; [done|]). split; [done|]. cbn [foldl].
  rewrite (MD5STEP_rfc f ws a b c d i k0 t0 s0) by (done || (apply Hf; [set_solver|done..])). fold a'.
  rewrite (MD5STEP_rfc f ws d a' b c (i + 1) k1 t1 s1) by (done || (apply Hf; [set_solver|done..])). fold d'.
  rewrite (MD5STEP_rfc f ws c d' a' b (i + 2) k2 t2 s2) by (done || (apply Hf; [set_solver|done..])). fold c'.
  rewrite (MD5STEP_rfc f ws b c' d' a' (i + 3) k3 t3 s3) by (done || (apply Hf; [set_solver|done..])). fold b'.
  done.
Qed.

Ltac four_lines_step :=
  lazymatch goal with
  | |- foldl (rfc_step ?ws) (?a, ?b, ?c, ?d) (?i :: _ :: _ :: _ :: ?js) =
       (buf0 (foldl _ _ (Line ?f A B C D ?k0 ?t0 ?s0 :: Line _ D A B C ?k1 ?t1 ?s1 ::
                         Line _ C D A B ?k2 ?t2 ?s2 :: Line _ B C D A ?k3 ?t3 ?s3 :: ?ls)), _, _, _) =>
      let E1 := fresh in let E2 := fresh in
      destruct (four_lines ws f i a b c d k0 k1 k2 k3 t0 t1 t2 t3 s0 s1 s2 s3 ls js)
        as (?a & ?b & ?c & ?d & ?Ha & ?Hb & ?Hc & ?Hd & E1 & E2);
      [ intros j x y z Hj Hx Hy Hz; rewrite !elem_of_cons, elem_of_nil in Hj;
        destruct Hj as [->|[->|[->|[->|[]]]]]; first [by apply F1_rfc|by apply F2_rfc|reflexivity]
      | reflexivity | reflexivity | reflexivity | assumption | assumption | assumption | assumption |];
      refine (eq_trans E2 _); rewrite E1; clear E1 E2; clear dependent a
  end.

Lemma md5_transform_rfc h ws :
  word (buf0 h) → word (buf1 h) → word (buf2 h) → word (buf3 h) →
  md5_transform h ws = rfc_block h ws.
Proof.
  destruct h as [a b c d]; cbn [buf0 buf1 buf2 buf3]. intros Ha Hb Hc Hd. unfold md5_transform, rfc_block.
  assert (let m := foldl (run_line ws) {| buf0 := a; buf1 := b; buf2 := c; buf3 := d |} md5_lines in
    foldl (rfc_step ws) (a, b, c, d) (seqZ 0 64) = (buf0 m, buf1 m, buf2 m, buf3 m)) as E; [|cbn [buf0 buf1 buf2 buf3]; by rewrite E].
  cbv zeta. unfold md5_lines.
  let l := eval vm_compute in (seqZ 0 64) in change (seqZ 0 64) with l.
  do 16 four_lines_step. reflexivity.
Qed.

(** ** Bytes and words *)

Definition is_byte (b : Z) : Prop := 0 ≤ b < 256.

Lemma le_val_bytes b0 b1 b2 b3 :
  is_byte b0 → is_byte b1 → is_byte b2 → is_byte b3 →
  be_bytes 4 (le_val b0 b1 b2 b3) = [b3; b2; b1; b0].
Proof.
  intros H0 H1 H2 H3.
  change (be_bytes 4 (le_val b0 b1 b2 b3)) with
    [byte_at (le_val b0 b1 b2 b3) 3; byte_at (le_val b0 b1 b2 b3) 2; byte_at (le_val b0 b1 b2 b3) 1;
     byte_at (le_val b0 b1 b2 b3) 0].
  rewrite <-(wrapu_small 8 b0), <-(wrapu_small 8 b1), <-(wrapu_small 8 b2), <-(wrapu_small 8 b3) by done.
  unfold le_val, byte_at. f_equal; [zbits|]. f_equal; [zbits|]. f_equal; [zbits|]. f_equal; zbits.
Qed.

Lemma lor_shift a b n : 0 ≤ n → 0 ≤ b < 2 ^ n → Z.lor (Z.shiftl a n) b = a * 2 ^ n + b.
Proof.
  intros Hn Hb. rewrite <-Z.shiftl_mul_pow2 by done. rewrite <-Z.add_nocarry_lor; [done|].
  apply Z.bits_inj'. intros i Hi. rewrite Z.land_spec, Z.shiftl_spec, Z.bits_0 by done.
  rewrite <-(wrapu_small n b), testbit_wrapu by done. destruct (Z.ltb_spec i n); [|by rewrite andb_false_r].
  by rewrite Z.testbit_neg_r by lia.
Qed.

Lemma le_val_sum b0 b1 b2 b3 :
  is_byte b0 → is_byte b1 → is_byte b2 → is_byte b3 →
  le_val b0 b1 b2 b3 = b0 + 256 * b1 + 65536 * b2 + 16777216 * b3.
Proof.
  unfold is_byte. intros H0 H1 H2 H3. unfold le_val.
  rewrite (lor_shift b3 b2 8), (lor_shift b1 b0 8) by lia.
  rewrite wrapu_small by (rewrite Z.shiftl_mul_pow2 by lia; lia). rewrite lor_shift by lia. lia.
Qed.

Lemma byte_at_byte x k : is_byte (byte_at x k).
Proof. unfold byte_at. by apply (wrapu_range 8). Qed.

Lemma le_val_word x : word x → le_val (byte_at x 0) (byte_at x 1) (byte_at x 2) (byte_at x 3) = x.
Proof.
  intros Hx. rewrite le_val_sum by apply byte_at_byte. unfold byte_at, wrapu, word in *.
  rewrite !Z.shiftr_div_pow2 by lia.
  change (2 ^ 8) with 256. change (2 ^ (8 * 0)) with 1. change (2 ^ (8 * 1)) with 256.
  change (2 ^ (8 * 2)) with 65536. change (2 ^ (8 * 3)) with 16777216. change (2 ^ 32) with 4294967296 in Hx.
  Z.to_euclidean_division_equations. lia.
Qed.

Lemma words_app big n1 n2 l1 l2 :
  length l1 = (4 * n1)%nat → words big (n1 + n2) (l1 ++ l2) = words big n1 l1 ++ words big n2 l2.
Proof.
  revert l1; induction n1 as [|n1 IH]; intros l1 Hl; [by destruct l1|].
  destruct l1 as [|b0 [|b1 [|b2 [|b3 l1]]]]; simpl in Hl; try lia. cbn [app words Nat.add]. f_equal.
  apply IH. lia.
Qed.

Lemma words_host big x : word x → words big 1 (host_bytes big x) = [x].
Proof.
  intros Hx. destruct big; simpl host_bytes.
  - change (be_bytes 4 x) with [byte_at x 3; byte_at x 2; byte_at x 1; byte_at x 0]. simpl. by rewrite le_val_word.
  - change (le_bytes 4 x) with [byte_at x 0; byte_at x 1; byte_at x 2; byte_at x 3]. simpl. by rewrite le_val_word.
Qed.

Lemma byte_reverse_spec big n : ∀ l,
  length l = (4 * n)%nat → Forall is_byte l →
  length (byte_reverse big n l) = length l ∧ Forall is_byte (byte_reverse big n l) ∧
  words big n (byte_reverse big n l) = words false n l.
Proof.
  destruct big; [|done]. unfold byte_reverse. induction n as [|n IH]; intros l Hl Hb; [by destruct l|].
  destruct l as [|b0 [|b1 [|b2 [|b3 l]]]]; simpl in Hl; try lia. rewrite !Forall_cons in Hb.
  destruct Hb as (H0 & H1 & H2 & H3 & Hb). destruct (IH l ltac:(lia) Hb) as (E1 & E2 & E3).
  cbn [md5_byte_reverse host_bytes]. rewrite le_val_bytes by done. cbn [app words].
  split; [simpl; by rewrite E1|]. split; [by rewrite !Forall_cons|]. by rewrite E3.
Qed.

Lemma hash_bytes big a b c d :
  byte_reverse big 4 (host_bytes big a ++ host_bytes big b ++ host_bytes big c ++ host_bytes big d) =
  le_bytes 4 a ++ le_bytes 4 b ++ le_bytes 4 c ++ le_bytes 4 d.
Proof.
  destruct big; [|done]. unfold byte_reverse, host_bytes.
  assert (∀ n x l, md5_byte_reverse (S n) (be_bytes 4 x ++ l) = le_bytes 4 x ++ md5_byte_reverse n l) as H.
  { intros n x l. change (be_bytes 4 x) with [byte_at x 3; byte_at x 2; byte_at x 1; byte_at x 0].
    cbn [app md5_byte_reverse]. f_equal. unfold host_bytes. rewrite le_val_bytes by apply byte_at_byte. done. }
  rewrite !H. f_equal. f_equal. f_equal. specialize (H O d []). rewrite !app_nil_r in H. apply H.
Qed.

Lemma le_bytes_8 y : le_bytes 8 y = le_bytes 4 (wrapu 32 y) ++ le_bytes 4 (wrapu 32 (y / 2 ^ 32)).
Proof.
  assert (∀ k, 0 ≤ k < 4 → byte_at (wrapu 32 y) k = byte_at y k) as H1 by (intros k Hk; unfold byte_at; zbits).
  assert (∀ k, 0 ≤ k < 4 → byte_at (wrapu 32 (y / 2 ^ 32)) k = byte_at y (k + 4)) as H2
    by (intros k Hk; unfold byte_at; rewrite <-Z.shiftr_div_pow2 by lia; zbits).
  unfold le_bytes. change (seqZ 0 8) with [0; 1; 2; 3; 4; 5; 6; 7]. change (seqZ 0 4) with [0; 1; 2; 3].
  simpl. by rewrite !H1, !H2 by lia.
Qed.

(** ** The compressed part of the message *)

Definition word_buf (h : md5_buf) : Prop :=
  word (buf0 h) ∧ word (buf1 h) ∧ word (buf2 h) ∧ word (buf3 h).

Lemma word_rfc_block h ws : word_buf (rfc_block h ws).
Proof.
  unfold rfc_block. destruct (foldl _ _ _) as [[[a b] c] d]. by split_and!; apply wrapu_range.
Qed.

Lemma word_rfc_blocks k : ∀ h p, word_buf h → word_buf (rfc_blocks k h p).
Proof. induction k as [|k IH]; intros h p Hh; [done|]. apply IH, word_rfc_block. Qed.

Lemma word_start : word_buf md5_start.
Proof. unfold word_buf, word. simpl. lia. Qed.

Lemma rfc_blocks_snoc k : ∀ h p blk,
  length p = (64 * k)%nat → length blk = 64%nat →
  rfc_blocks (S k) h (p ++ blk) = rfc_block (rfc_blocks k h p) (words false 16 blk).
Proof.
  induction k as [|k IH]; intros h p blk Hp Hb.
  - destruct p; [|done]. cbn [app rfc_blocks]. by rewrite take_ge by lia.
  - change (rfc_blocks (S (S k)) h (p ++ blk)) with
      (rfc_blocks (S k) (rfc_block h (words false 16 (take 64 (p ++ blk)))) (drop 64 (p ++ blk))).
    rewrite take_app_le, drop_app_le by lia. apply IH; [rewrite length_drop; lia|done].
Qed.

(** A message [m] of which the first [k] blocks are compressed in [b] and the
    rest is at the beginning of the buffer [inb]. *)
Definition absorbed (m : list Z) (b : md5_buf) (inb : list Z) : Prop :=
  ∃ k p q, m = p ++ q ∧ length p = (64 * k)%nat ∧ (length q < 64)%nat ∧
    b = rfc_blocks k md5_start p ∧ length inb = 64%nat ∧ Forall is_byte inb ∧ take (length q) inb = q.

Lemma copy_in_ok inb (off : nat) bs :
  (off + length bs ≤ length inb)%nat → copy_in inb (Z.of_nat off) bs = Ok (write_at inb off bs).
Proof.
  intros H. unfold copy_in. rewrite (proj2 (Z.leb_le _ _)) by lia. cbn [mbind outcome_bind require].
  by rewrite Nat2Z.id.
Qed.

Lemma write_at_bytes inb off bs : Forall is_byte inb → Forall is_byte bs → Forall is_byte (write_at inb off bs).
Proof. intros H1 H2. unfold write_at. rewrite !Forall_app. by split_and!; [apply Forall_take| |apply Forall_drop]. Qed.

Lemma write_at_len inb off bs : (off + length bs ≤ length inb)%nat → length (write_at inb off bs) = length inb.
Proof. intros H. unfold write_at. rewrite !length_app, length_take, length_drop. lia. Qed.

Lemma take_write_at inb off bs :
  (off + length bs ≤ length inb)%nat → take (off + length bs) (write_at inb off bs) = take off inb ++ bs.
Proof.
  intros H. unfold write_at. rewrite app_assoc. rewrite take_app_length'; [done|].
  rewrite length_app, length_take. lia.
Qed.

(** A full buffer is compressed. *)
Lemma md5_process_spec big k p inb :
  length p = (64 * k)%nat → length inb = 64%nat → Forall is_byte inb →
  ∃ inb', process big (rfc_blocks k md5_start p) inb = (rfc_blocks (S k) md5_start (p ++ inb), inb') ∧
    length inb' = 64%nat ∧ Forall is_byte inb'.
Proof.
  intros Hp Hl Hb. unfold process. destruct (byte_reverse_spec big 16 inb Hl Hb) as (E1 & E2 & E3).
  exists (byte_reverse big 16 inb). cbv zeta. rewrite E3.
  destruct (word_rfc_blocks k _ p word_start) as (H0 & H1 & H2 & H3).
  rewrite md5_transform_rfc by done. rewrite rfc_blocks_snoc by done. split; [done|]. split; [lia|done].
Qed.

Lemma md5_update_loop_spec big : ∀ fuel k p inb data,
  (length data < fuel)%nat → length p = (64 * k)%nat → length inb = 64%nat →
  Forall is_byte inb → Forall is_byte data →
  ∃ b' inb', update_loop big fuel (rfc_blocks k md5_start p) inb data = Ok (b', inb') ∧
    absorbed (p ++ data) b' inb'.
Proof.
  induction fuel as [|fuel IH]; intros k p inb data Hf Hp Hl Hb Hd; [lia|]. cbn [update_loop].
  destruct (Z.leb_spec 64 (Z.of_nat (length data))).
  - assert (length (take 64 data) = 64%nat) as Ht by (rewrite length_take; lia).
    change 0 with (Z.of_nat 0). rewrite copy_in_ok by lia. cbn [mbind outcome_bind].
    assert (write_at inb 0 (take 64 data) = take 64 data) as ->.
    { unfold write_at. rewrite Ht. rewrite (drop_ge inb) by lia. by rewrite take_0, app_nil_r. }
    destruct (md5_process_spec big k p (take 64 data) Hp Ht) as (inb' & -> & Hl' & Hb'); [by apply Forall_take|].
    destruct (IH (S k) (p ++ take 64 data) inb' (drop 64 data)) as (b2 & inb2 & -> & Ha);
      [rewrite length_drop; lia|rewrite length_app; lia|done|done|by apply Forall_drop|].
    exists b2, inb2. split; [done|]. by rewrite <-app_assoc, take_drop in Ha.
  - change 0 with (Z.of_nat 0). rewrite copy_in_ok by lia. cbn [mbind outcome_bind].
    eexists _, _. split; [done|]. exists k, p, data. rewrite write_at_len by lia.
    split_and!; [done|done|lia|done|done|by apply write_at_bytes|]. by apply (take_write_at inb 0 data); lia.
Qed.

Lemma count_spec n : 0 ≤ n → Z.land (Z.shiftr (wrapu 32 (8 * n)) 3) 0x3f = n mod 64.
Proof.
  intros Hn. change 0x3f with (Z.ones 6). rewrite Z.land_ones, Z.shiftr_div_pow2 by lia. unfold wrapu.
  change (2 ^ 32) with 4294967296. change (2 ^ 3) with 8. change (2 ^ 6) with 64.
  Z.to_euclidean_division_equations. lia.
Qed.

(** The two words of the length in bits. *)
Definition bits_inv (ctx : crypto_md5_ctx_s) (n : Z) : Prop :=
  bits0 ctx = wrapu 32 (8 * n) ∧ bits1 ctx = wrapu 32 (8 * n / 2 ^ 32).
Definition ctx_inv (ctx : crypto_md5_ctx_s) (m : list Z) : Prop :=
  absorbed m (buf ctx) (in_ ctx) ∧ bits_inv ctx (Z.of_nat (length m)).

Lemma bits_update n l :
  0 ≤ n → 0 ≤ l →
  let t := wrapu 32 (8 * n) in
  let lo := wrapu 32 (t + wrapu 32 (Z.shiftl (wrapu 32 l) 3)) in
  let hi := wrapu 32 (8 * n / 2 ^ 32) in
  let hi := if lo <? t then wrapu 32 (hi + 1) else hi in
  lo = wrapu 32 (8 * (n + l)) ∧ wrapu 32 (hi + Z.shiftr l 29) = wrapu 32 (8 * (n + l) / 2 ^ 32).
Proof.
  intros Hn Hl. cbv zeta. unfold wrapu. rewrite Z.shiftl_mul_pow2, Z.shiftr_div_pow2 by lia.
  assert ((l mod 2 ^ 32 * 2 ^ 3) mod 2 ^ 32 = (8 * l) mod 2 ^ 32) as ->
    by (rewrite Z.mul_mod_idemp_l by lia; f_equal; lia).
  assert (l / 2 ^ 29 = 8 * l / 2 ^ 32) as ->.
  { change (2 ^ 32) with (8 * 2 ^ 29). by rewrite Z.div_mul_cancel_l by lia. }
  rewrite <-Z.add_mod by lia. rewrite <-Z.mul_add_distr_l. split; [done|].
  rewrite Z.mul_add_distr_l. generalize (8 * n) (8 * l) (Z.le_refl 0). intros A B _.
  assert ((A + B) / 2 ^ 32 = A / 2 ^ 32 + B / 2 ^ 32 + (if (A + B) mod 2 ^ 32 <? A mod 2 ^ 32 then 1 else 0)) as ->.
  { change (2 ^ 32) with 4294967296. destruct (Z.ltb_spec ((A + B) mod 4294967296) (A mod 4294967296));
      Z.to_euclidean_division_equations; lia. }
  destruct (_ <? _); rewrite ?Z.add_mod_idemp_l by lia; [|f_equal; lia].
  rewrite <-Z.add_assoc, Z.add_mod_idemp_l by lia. f_equal. lia.
Qed.

Lemma md5_update_spec big ctx m data :
  ctx_inv ctx m → Forall is_byte data →
  ∃ ctx', crypto_md5_update big ctx data = Ok ctx' ∧ ctx_inv ctx' (m ++ data).
Proof.
  intros [Ha [Hb0 Hb1]] Hd. destruct Ha as (k & p & q & -> & Hp & Hq & Hb & Hl & Hby & Ht).
  destruct (bits_update (Z.of_nat (length (p ++ q))) (Z.of_nat (length data))) as [Hlo Hhi]; [lia..|].
  unfold crypto_md5_update. cbv zeta in *. rewrite <-Hb0 in Hhi, Hlo. rewrite <-Hb1 in Hhi. rewrite Hhi, Hlo.
  rewrite Hb0, count_spec by lia. rewrite <-Nat2Z.inj_add, <-length_app in *.
  assert (Z.of_nat (length (p ++ q)) mod 64 = Z.of_nat (length q)) as ->.
  { rewrite length_app, Hp. rewrite Nat2Z.inj_add, Nat2Z.inj_mul, Z.add_comm, Z.mul_comm, Z_mod_plus_full.
    apply Z.mod_small. lia. }
  assert (∀ b inb, absorbed ((p ++ q) ++ data) b inb → ctx_inv {| buf := b; bits0 := wrapu 32 (8 * Z.of_nat (length ((p ++ q) ++ data)));
    bits1 := wrapu 32 (8 * Z.of_nat (length ((p ++ q) ++ data)) / 2 ^ 32); in_ := inb |} ((p ++ q) ++ data)) as Hfin by done.
  rewrite <-app_assoc in *. destruct (Z.eqb_spec (Z.of_nat (length q)) 0) as [E|E]; cbn [negb].
  - destruct q; [|done]. rewrite Hb. destruct (md5_update_loop_spec big (S (length data)) k p (in_ ctx) data)
      as (b' & inb' & -> & Ha); [lia|done..|]. cbn [mbind outcome_bind]. eexists. split; [done|]. by apply Hfin.
  - destruct (Z.ltb_spec (Z.of_nat (length data)) (64 - Z.of_nat (length q))).
    + rewrite copy_in_ok by lia. cbn [mbind outcome_bind]. eexists. split; [done|]. apply Hfin.
      exists k, p, (q ++ data). rewrite length_app, write_at_len, take_write_at, Ht by lia.
      split_and!; [done|done|lia|done|done|by apply write_at_bytes|done].
    + set (r := Z.to_nat (64 - Z.of_nat (length q))).
      assert (length (take r data) = r) as Hr by (rewrite length_take; lia).
      rewrite copy_in_ok by lia. cbn [mbind outcome_bind].
      assert (write_at (in_ ctx) (length q) (take r data) = q ++ take r data) as ->.
      { unfold write_at. rewrite Ht, (drop_ge (in_ ctx)) by lia. by rewrite app_nil_r. }
      destruct (md5_process_spec big k p (q ++ take r data)) as (inb' & Ep & Hl' & Hby');
        [done|rewrite length_app; lia|apply Forall_app; split; [rewrite <-Ht; by apply Forall_take|by apply Forall_take]|].
      rewrite Hb, Ep. destruct (md5_update_loop_spec big (S (length data)) (S k) (p ++ q ++ take r data) inb' (drop r data))
        as (b' & inb2 & -> & Ha); [rewrite length_drop; lia|rewrite !length_app; lia|done|done|by apply Forall_drop|].
      cbn [mbind outcome_bind]. eexists. split; [done|]. apply Hfin.
      by rewrite <-!app_assoc, take_drop in Ha.
Qed.

(** ** The last block *)

Lemma byte_reverse_app big n : ∀ l1 l2,
  length l1 = (4 * n)%nat → byte_reverse big n (l1 ++ l2) = byte_reverse big n l1 ++ l2.
Proof.
  destruct big; [|done]. unfold byte_reverse. induction n as [|n IH]; intros l1 l2 Hl.
  - destruct l1; [|done]. by destruct l2.
  - destruct l1 as [|b0 [|b1 [|b2 [|b3 l1]]]]; simpl in Hl; try lia. cbn [app md5_byte_reverse].
    rewrite IH by lia. by rewrite app_assoc.
Qed.

Lemma host_bytes_length big x : length (host_bytes big x) = 4%nat.
Proof. destruct big; [unfold host_bytes, be_bytes; by rewrite length_reverse|done]. Qed.

(** The final block: the 56 bytes [z], then the length. *)
Lemma last_block_spec big inb lo hi :
  length inb = 64%nat → Forall is_byte inb → word lo → word hi →
  ∃ inb1 inb2, copy_in (byte_reverse big 14 inb) 56 (host_bytes big lo) = Ok inb1 ∧
    copy_in inb1 60 (host_bytes big hi) = Ok inb2 ∧
    words big 16 inb2 = words false 16 (take 56 inb ++ le_bytes 4 lo ++ le_bytes 4 hi).
Proof.
  intros Hl Hb Hlo Hhi. set (z := take 56 inb). set (t := drop 56 inb).
  assert (length z = 56%nat) as Hz by (unfold z; rewrite length_take; lia).
  assert (length t = 8%nat) as Ht by (unfold t; rewrite length_drop; lia).
  assert (byte_reverse big 14 inb = byte_reverse big 14 z ++ t) as ->
    by (rewrite <-byte_reverse_app by done; unfold z, t; by rewrite take_drop).
  destruct (byte_reverse_spec big 14 z Hz) as (E1 & _ & E3); [by apply Forall_take|].
  set (rz := byte_reverse big 14 z) in *. pose proof (host_bytes_length big lo) as L0.
  pose proof (host_bytes_length big hi) as L1.
  exists (rz ++ host_bytes big lo ++ drop 4 t), (rz ++ host_bytes big lo ++ host_bytes big hi). split; [|split].
  - change 56 with (Z.of_nat 56). rewrite copy_in_ok by (rewrite length_app; lia). f_equal. unfold write_at.
    rewrite (take_app_length' rz) by lia. rewrite L0, drop_app, (drop_ge rz) by lia. rewrite E1, Hz. done.
  - change 60 with (Z.of_nat 60). rewrite copy_in_ok by (rewrite !length_app, length_drop; lia). f_equal. unfold write_at.
    rewrite !app_assoc, (take_app_length' (rz ++ host_bytes big lo)) by (rewrite length_app; lia).
    rewrite L1, (drop_ge _ (60 + 4)) by (rewrite !length_app, length_drop; lia). by rewrite app_nil_r.
  - change 16%nat with (14 + (1 + 1))%nat. rewrite !words_app by lia. rewrite E3.
    change (le_bytes 4 lo) with (host_bytes false lo). change (le_bytes 4 hi) with (host_bytes false hi).
    rewrite (words_app false 1 1) by done. by rewrite !words_host.
Qed.

(** The two cases of the padding give the message padded as in the RFC. *)
Lemma pad_spec p q k :
  length p = (64 * k)%nat → (length q < 64)%nat →
  rfc_pad (p ++ q) = p ++ q ++ [0x80] ++ replicate (if (length q <=? 55)%nat then 55 - length q else 119 - length q)%nat 0
    ++ le_bytes 4 (wrapu 32 (8 * Z.of_nat (length (p ++ q)))) ++ le_bytes 4 (wrapu 32 (8 * Z.of_nat (length (p ++ q)) / 2 ^ 32)).
Proof.
  intros Hp Hq. unfold rfc_pad. rewrite le_bytes_8, <-!app_assoc. do 5 f_equal.
  rewrite length_app, Hp. destruct (Nat.leb_spec (length q) 55); Z.to_euclidean_division_equations; lia.
Qed.

(** The padding in the buffer: the compressed part and the first 56 bytes of the
    last block. *)
Lemma padding_spec big ctx k p q :
  length p = (64 * k)%nat → (length q < 64)%nat → buf ctx = rfc_blocks k md5_start p →
  length (in_ ctx) = 64%nat → Forall is_byte (in_ ctx) → take (length q) (in_ ctx) = q →
  let count := Z.of_nat (length q) in
  ∃ inb k' p' inb', copy_in (in_ ctx) count [0x80] = Ok inb ∧
    (if 64 - 1 - count <? 8 then
       inb ← copy_in inb (count + 1) (replicate (Z.to_nat (64 - 1 - count)) 0);
       let '(b, inb) := process big (buf ctx) inb in
       inb ← copy_in inb 0 (replicate 56 0);
       Ok (b, inb)
     else
       inb ← copy_in inb (count + 1) (replicate (Z.to_nat (64 - 1 - count - 8)) 0);
       Ok (buf ctx, inb)) = Ok (rfc_blocks k' md5_start p', inb') ∧
    length inb' = 64%nat ∧ Forall is_byte inb' ∧ length p' = (64 * k')%nat ∧
    p' ++ take 56 inb' = p ++ q ++ [0x80] ++
      replicate (if (length q <=? 55)%nat then 55 - length q else 119 - length q)%nat 0.
Proof.
  intros Hp Hq Hb Hl Hby Ht. cbv zeta. set (n := length q) in *.
  assert (is_byte 128 ∧ is_byte 0) as [H80 H0] by (unfold is_byte; lia).
  assert (∀ j, Forall is_byte (replicate j 0)) as Hz by (intros j; by apply Forall_replicate).
  rewrite copy_in_ok by (simpl; lia). set (i1 := write_at (in_ ctx) n [128]).
  assert (length i1 = 64%nat) as Hl1 by (unfold i1; rewrite write_at_len by (simpl; lia); done).
  assert (Forall is_byte i1) as Hb1 by (apply write_at_bytes; [done|by constructor]).
  assert (take (n + 1) i1 = q ++ [128]) as Ht1 by (unfold i1; rewrite <-Ht; apply (take_write_at (in_ ctx) n [128]); simpl; lia).
  replace (Z.of_nat n + 1) with (Z.of_nat (n + 1)) by lia.
  assert (∀ j, (n + 1 + j ≤ 64)%nat → copy_in i1 (Z.of_nat (n + 1)) (replicate j 0) = Ok (write_at i1 (n + 1) (replicate j 0)) ∧
    length (write_at i1 (n + 1) (replicate j 0)) = 64%nat ∧ Forall is_byte (write_at i1 (n + 1) (replicate j 0)) ∧
    take (n + 1 + j) (write_at i1 (n + 1) (replicate j 0)) = q ++ [128] ++ replicate j 0) as Hj.
  { intros j Hj. rewrite copy_in_ok, write_at_len by (rewrite length_replicate; lia).
    split_and!; [done|done|by apply write_at_bytes|].
    pose proof (take_write_at i1 (n + 1) (replicate j 0)) as E. rewrite length_replicate, Ht1 in E.
    rewrite E by lia. by rewrite <-app_assoc. }
  exists i1. destruct (Z.ltb_spec (64 - 1 - Z.of_nat n) 8).
  - destruct (Hj (Z.to_nat (64 - 1 - Z.of_nat n))) as (-> & Hl2 & Hb2 & Ht2); [lia|]. cbn [mbind outcome_bind].
    set (i2 := write_at i1 (n + 1) _) in *. rewrite take_ge in Ht2 by lia.
    rewrite Hb. destruct (md5_process_spec big k p i2 Hp Hl2 Hb2) as (i3 & -> & Hl3 & Hb3).
    assert (copy_in i3 0 (replicate 56 0) = Ok (write_at i3 0 (replicate 56 0))) as ->
      by (apply (copy_in_ok i3 0); rewrite length_replicate; lia). cbn [mbind outcome_bind].
    exists (S k), (p ++ i2), (write_at i3 0 (replicate 56 0)). rewrite write_at_len by (rewrite length_replicate; lia).
    split_and!; [done|done|done|by apply write_at_bytes|rewrite length_app; lia|].
    pose proof (take_write_at i3 0 (replicate 56 0)) as E. rewrite length_replicate in E.
    change (0 + 56)%nat with 56%nat in E. rewrite E by lia.
    rewrite Ht2, take_0. cbn [app]. rewrite <-!app_assoc. destruct (Nat.leb_spec n 55); [lia|].
    cbn [app]. do 3 f_equal. rewrite <-replicate_add. f_equal. lia.
  - destruct (Hj (Z.to_nat (64 - 1 - Z.of_nat n - 8))) as (-> & Hl2 & Hb2 & Ht2); [lia|]. cbn [mbind outcome_bind].
    exists k, p, (write_at i1 (n + 1) (replicate (Z.to_nat (64 - 1 - Z.of_nat n - 8)) 0)).
    rewrite Hb. split_and!; [done..|]. destruct (Nat.leb_spec n 55); [|lia].
    replace (Z.to_nat (64 - 1 - Z.of_nat n - 8)) with (55 - n)%nat in * by lia.
    f_equal. rewrite <-Ht2. f_equal. lia.
Qed.

Lemma md5_get_spec big ptr ctx m :
  ctx_inv ctx m → ∃ ctx', crypto_md5_get big ptr ctx = Ok (rfc_md5 m, ctx').
Proof.
  intros [Ha [Hb0 Hb1]]. destruct Ha as (k & p & q & -> & Hp & Hq & Hb & Hl & Hby & Ht).
  assert (Z.land (Z.shiftr (bits0 ctx) 3) 0x3f = Z.of_nat (length q)) as Hc.
  { rewrite Hb0, count_spec by lia. rewrite length_app, Hp. Z.to_euclidean_division_equations. lia. }
  unfold crypto_md5_get. cbv zeta. rewrite Hc.
  destruct (padding_spec big ctx k p q Hp Hq Hb Hl Hby Ht) as (inb & k' & p' & inb' & -> & E & Hl' & Hby' & Hp' & Hpad).
  cbn [mbind outcome_bind]. cbn [mbind outcome_bind] in E. rewrite E. cbn [mbind outcome_bind].
  destruct (last_block_spec big inb' (bits0 ctx) (bits1 ctx) Hl' Hby') as (i1 & i2 & -> & E2 & Ew);
    [rewrite Hb0; by apply wrapu_range|rewrite Hb1; by apply wrapu_range|].
  cbn [mbind outcome_bind]. rewrite E2. cbn [mbind outcome_bind]. rewrite Ew, hash_bytes.
  destruct (word_rfc_blocks k' _ p' word_start) as (H0 & H1 & H2 & H3).
  rewrite md5_transform_rfc by done. rewrite <-rfc_blocks_snoc;
    [|done|rewrite !length_app, length_take; unfold le_bytes; rewrite !length_fmap, !length_seqZ; lia].
  eexists. f_equal. f_equal. unfold rfc_md5. cbv zeta.
  assert (p' ++ take 56 inb' ++ le_bytes 4 (bits0 ctx) ++ le_bytes 4 (bits1 ctx) = rfc_pad (p ++ q)) as Epad.
  { rewrite (pad_spec _ _ _ Hp Hq), app_assoc, Hpad, Hb0, Hb1. by rewrite <-!app_assoc. }
  assert (length (rfc_pad (p ++ q)) / 64 = S k')%nat as ->.
  { rewrite <-Epad. rewrite !length_app, length_take. unfold le_bytes. rewrite !length_fmap, !length_seqZ.
    replace (length p' + _)%nat with (S k' * 64)%nat by lia. by apply Nat.div_mul. }
  by rewrite <-Epad.
Qed.

(** ** Properties *)

(** A whole computation: the message is given in pieces. *)
Fixpoint md5_updates (big : bool) (ctx : crypto_md5_ctx_s) (chunks : list (list Z)) : outcome crypto_md5_ctx_s :=
  match chunks with
  | [] => Ok ctx
  | c :: chunks => ctx ← crypto_md5_update big ctx c; md5_updates big ctx chunks
  end.
Definition md5_digest (big : bool) (ptr : Z) (ctx : crypto_md5_ctx_s) (chunks : list (list Z))
    : outcome (list Z) :=
  ctx ← md5_updates big (crypto_md5_init ctx) chunks;
  '(hash, _) ← crypto_md5_get big ptr ctx;
  Ok hash.

Lemma updates_spec big chunks : ∀ ctx m,
  ctx_inv ctx m → Forall (Forall is_byte) chunks →
  ∃ ctx', md5_updates big ctx chunks = Ok ctx' ∧ ctx_inv ctx' (m ++ concat chunks).
Proof.
  induction chunks as [|c chunks IH]; intros ctx m Hi Hc; cbn [md5_updates concat].
  - exists ctx. by rewrite app_nil_r.
  - apply Forall_cons in Hc as [Hc Hcs]. destruct (md5_update_spec big ctx m c Hi Hc) as (c1 & -> & Hi1).
    cbn [mbind outcome_bind]. rewrite app_assoc. by apply IH.
Qed.

(** C22. The MD5 functions compute the digest of RFC 1321: whatever the pieces in
    which a message is given, its length and the byte order of the processor, the
    result is the digest of their concatenation.  All accesses to the buffer of
    the context are in its bounds. *)
Theorem md5_computes_rfc1321 big ptr ctx chunks :
  length (in_ ctx) = 64%nat → Forall is_byte (in_ ctx) → Forall (Forall is_byte) chunks →
  md5_digest big ptr ctx chunks = Ok (rfc_md5 (concat chunks)).
Proof.
  intros Hl Hb Hc. unfold md5_digest.
  assert (ctx_inv (crypto_md5_init ctx) []) as Hi.
  { split; [|done]. exists O, [], []. simpl. split_and!; [done|done|lia|done..]. }
  destruct (updates_spec big chunks _ _ Hi Hc) as (c1 & -> & Hi1). cbn [mbind outcome_bind].
  destruct (md5_get_spec big ptr c1 _ Hi1) as (c2 & ->). done.
Qed.

Definition demo_ctx : crypto_md5_ctx_s :=
  {| buf := md5_start; bits0 := 5; bits1 := 7; in_ := replicate 64 170 |}.

(** The digest of "abc" of the RFC. *)
Lemma md5_computes_rfc1321_witness :
  md5_digest true 4 demo_ctx [[97]; [98; 99]] =
  Ok [0x90; 0x01; 0x50; 0x98; 0x3c; 0xd2; 0x4f; 0xb0; 0xd6; 0x96; 0x3f; 0x7d; 0x28; 0xe1; 0x7f; 0x72].
Proof.
  refine (eq_trans (md5_computes_rfc1321 true 4 demo_ctx [[97]; [98; 99]] _ _ _) _).
  - reflexivity.
  - apply Forall_replicate. unfold is_byte. lia.
  - unfold is_byte. rewrite !Forall_cons, !Forall_nil. lia.
  - vm_compute. reflexivity.
Defined.

(** [crypto_md5_get] means to erase the context but clears [sizeof(ctx)] bytes,
    the size of the pointer: three words of the digest stay in it. *)
Theorem md5_context_not_erased :
  ∃ ctx', (ctx ← crypto_md5_update false (crypto_md5_init demo_ctx) [97; 98; 99];
           '(_, ctx) ← crypto_md5_get false 4 ctx; Ok ctx) = Ok ctx' ∧
    le_bytes 4 (buf1 (buf ctx')) ++ le_bytes 4 (buf2 (buf ctx')) ++ le_bytes 4 (buf3 (buf ctx')) =
    drop 4 (rfc_md5 [97; 98; 99]).
Proof. eexists. split; vm_compute; reflexivity. Qed.
End Md5.
