(* ===== verification/Arc4.v ===== *)
(** * ARC4 stream cipher (libcrypto/arc4.c)

    The state stays a permutation of the bytes, no access is out of bounds and
    deciphering undoes ciphering. *)

From S2P Require Import Prelude.

Module Arc4.

Definition ARC4_S_SIZE : Z := 256.

Definition crypto_arc4_init : list Z := seqZ 0 ARC4_S_SIZE.

(** Both functions exchange two entries of the state. *)
Definition exchange (st : list Z) (a b : Z) : outcome (list Z) :=
  tmp ← aget st a;
  y ← aget st b;
  st ← aset st a y;
  aset st b tmp.

Section ops.
(** The width of [uint_fast8_t]. *)
Context (uw : Z).

(** [for (a = b = 0; a < ARC4_S_SIZE; a++)] *)
Fixpoint update_loop (fuel : nat) (a b : Z) (key st : list Z) : outcome (list Z) :=
  match fuel with
  | O => Err FFuel
  | S fuel =>
      if a <? ARC4_S_SIZE then
        tmp ← aget st a;
        k ← aget key (a mod Z.of_nat (length key));
        let b := wrapu 8 (b + tmp + k) in
        st ← exchange st a b;
        update_loop fuel (wrapu uw (a + 1)) b key st
      else Ok st
  end.
Definition crypto_arc4_update (fuel : nat) (key st : list Z) : outcome (list Z) :=
  update_loop fuel 0 0 key st.

(** [ARC4_PROCESS]: [op] combines a byte of the data with a byte of the stream. *)
Fixpoint process_loop (op : Z → Z → Z) (a b : Z) (st data : list Z) : outcome (list Z * list Z) :=
  match data with
  | [] => Ok (st, [])
  | x :: data =>
      let a := wrapu 8 (a + 1) in
      sa ← aget st a;
      let b := wrapu 8 (b + sa) in
      st ← exchange st b a;
      sa ← aget st a;
      sb ← aget st b;
      s ← aget st (wrapu 8 (sa + sb));
      '(st, out) ← process_loop op a b st data;
      Ok (st, op x s :: out)
  end.
Definition crypto_arc4_getstream (st data : list Z) : outcome (list Z * list Z) :=
  process_loop (λ _ s, s) 0 0 st data.
Definition crypto_arc4_xorstream (st data : list Z) : outcome (list Z * list Z) :=
  process_loop Z.lxor 0 0 st data.
End ops.

(** ** The state is a permutation of the bytes *)

Definition arc4_state (st : list Z) : Prop := st ≡ₚ seqZ 0 256.

Lemma state_length st : arc4_state st → length st = 256%nat.
Proof. intros H. rewrite (Permutation_length H). apply length_seqZ. Qed.

Lemma state_bytes st x : arc4_state st → x ∈ st → 0 ≤ x < 256.
Proof. unfold arc4_state. intros H Hx. rewrite H in Hx. apply elem_of_seqZ in Hx. lia. Qed.

Lemma state_get st a : arc4_state st → 0 ≤ a < 256 → ∃ x, aget st a = Ok x ∧ 0 ≤ x < 256.
Proof.
  intros Hs Ha. pose proof (state_length st Hs) as Hl.
  destruct (lookup_lt_is_Some_2 st (Z.to_nat a)) as [x Hx]; [lia|].
  exists x. rewrite <-(Z2Nat.id a) by lia. split; [by apply aget_nat|].
  eapply state_bytes; [done|]. by eapply list_elem_of_lookup_2.
Qed.

Lemma exchange_spec st a b :
  arc4_state st → 0 ≤ a < 256 → 0 ≤ b < 256 → ∃ st', exchange st a b = Ok st' ∧ arc4_state st'.
Proof.
  intros Hs Ha Hb. pose proof (state_length st Hs) as Hl. unfold exchange.
  destruct (lookup_lt_is_Some_2 st (Z.to_nat a)) as [x Hx]; [lia|].
  destruct (lookup_lt_is_Some_2 st (Z.to_nat b)) as [y Hy]; [lia|].
  rewrite <-(Z2Nat.id a), <-(Z2Nat.id b) by lia.
  rewrite (aget_nat _ _ _ Hx), (aget_nat _ _ _ Hy). cbn [mbind outcome_bind].
  rewrite aset_nat by lia. cbn [mbind outcome_bind]. rewrite aset_nat by (rewrite length_insert; lia).
  eexists. split; [done|]. unfold arc4_state. etrans; [by apply list_swap_perm|done].
Qed.

(** ** Key schedule *)

Lemma update_loop_spec uw key : 9 ≤ uw → (0 < length key)%nat → ∀ fuel a b st,
  arc4_state st → 0 ≤ a ≤ 256 → 256 - a < Z.of_nat fuel →
  ∃ st', update_loop uw fuel a b key st = Ok st' ∧ arc4_state st'.
Proof.
  intros Hw Hk. induction fuel as [|fuel IH]; intros a b st Hs Ha Hf; [lia|]. cbn [update_loop].
  unfold ARC4_S_SIZE. destruct (Z.ltb_spec a 256); [|by exists st].
  destruct (state_get st a Hs) as (x & -> & _); [lia|]. cbn [mbind outcome_bind].
  pose proof (Z.mod_pos_bound a (Z.of_nat (length key)) ltac:(lia)) as Hm.
  destruct (lookup_lt_is_Some_2 key (Z.to_nat (a mod Z.of_nat (length key)))) as [k Hkk]; [lia|].
  rewrite <-(Z2Nat.id (a mod Z.of_nat (length key))) by lia. rewrite (aget_nat _ _ _ Hkk). cbn [mbind outcome_bind].
  destruct (exchange_spec st a (wrapu 8 (b + x + k)) Hs) as (st1 & -> & Hs1);
    [lia|by apply (wrapu_range 8)|]. cbn [mbind outcome_bind].
  assert (2 ^ 9 ≤ 2 ^ uw) by (apply Z.pow_le_mono_r; lia).
  rewrite (wrapu_small uw) by lia. apply IH; [done|lia|lia].
Qed.

Lemma process_spec (data : list Z) : ∀ a b st,
  arc4_state st →
  ∃ st' ks, arc4_state st' ∧ length ks = length data ∧ Forall (λ k, 0 ≤ k < 256) ks ∧
    ∀ op (data' : list Z), length data' = length data → process_loop op a b st data' = Ok (st', zip_with op data' ks).
Proof.
  induction data as [|x data IH]; intros a b st Hs.
  - exists st, []. split_and!; [done|done|done|]. by intros ? [|].
  - set (a1 := wrapu 8 (a + 1)). assert (0 ≤ a1 < 256) as Ha by (by apply (wrapu_range 8)).
    destruct (state_get st a1 Hs Ha) as (sa & Ea & _).
    set (b1 := wrapu 8 (b + sa)). assert (0 ≤ b1 < 256) as Hb by (by apply (wrapu_range 8)).
    destruct (exchange_spec st b1 a1 Hs Hb Ha) as (st1 & Ex & Hs1).
    destruct (state_get st1 a1 Hs1 Ha) as (ya & Eya & _). destruct (state_get st1 b1 Hs1 Hb) as (yb & Eyb & _).
    destruct (state_get st1 (wrapu 8 (ya + yb)) Hs1) as (k & Ek & Hk); [by apply (wrapu_range 8)|].
    destruct (IH a1 b1 st1 Hs1) as (st' & ks & Hs' & Hl & Hf & Hp). exists st', (k :: ks).
    split_and!; [done|simpl; lia|by constructor|]. intros op [|x' data'] Hl'; [done|]. cbn [process_loop zip_with].
    fold a1. rewrite Ea. cbn [mbind outcome_bind]. fold b1. rewrite Ex. cbn [mbind outcome_bind].
    rewrite Eya. cbn [mbind outcome_bind]. rewrite Eyb. cbn [mbind outcome_bind]. rewrite Ek. cbn [mbind outcome_bind].
    rewrite Hp by (by injection Hl'). done.
Qed.

(** ** Properties *)

(** The key schedule and the generation of the stream keep the state a
    permutation of the bytes and never access it out of its bounds, for any key
    and any data; the schedule ends when [uint_fast8_t] has more than 8 bits. *)
Theorem arc4_state_kept uw key st data :
  9 ≤ uw → (0 < length key)%nat → arc4_state st →
  (∃ st', crypto_arc4_update uw 257 key st = Ok st' ∧ arc4_state st') ∧
  (∃ st' out, crypto_arc4_xorstream st data = Ok (st', out) ∧ arc4_state st' ∧ length out = length data).
Proof.
  intros Hw Hk Hs. split; [by apply update_loop_spec; [..|lia|]|].
  destruct (process_spec data 0 0 st Hs) as (st' & ks & Hs' & Hl & _ & Hp).
  exists st', (zip_with Z.lxor data ks). split; [by apply Hp|]. split; [done|]. rewrite length_zip_with. lia.
Qed.

Lemma arc4_state_kept_witness :
  (∃ st', crypto_arc4_update 32 257 [75; 101; 121] crypto_arc4_init = Ok st' ∧ arc4_state st') ∧
  (∃ st' out, crypto_arc4_xorstream crypto_arc4_init [1; 2] = Ok (st', out) ∧ arc4_state st' ∧
     length out = length [1; 2]).
Proof. apply (arc4_state_kept 32 [75; 101; 121] crypto_arc4_init [1; 2]); [lia|simpl; lia|unfold arc4_state; reflexivity]. Defined.

(** Ciphering then deciphering gives the data back: from one state,
    [xorstream] applied to its own output returns the original data and the same
    final state; and its output is the data combined with what [getstream]
    returns. *)
Theorem arc4_roundtrip st data st' out :
  arc4_state st → crypto_arc4_xorstream st data = Ok (st', out) →
  crypto_arc4_xorstream st out = Ok (st', data) ∧
  ∃ ks, crypto_arc4_getstream st data = Ok (st', ks) ∧ out = zip_with Z.lxor data ks.
Proof.
  intros Hs E. unfold crypto_arc4_xorstream, crypto_arc4_getstream in *.
  destruct (process_spec data 0 0 st Hs) as (st1 & ks & Hs1 & Hl & _ & Hp).
  rewrite Hp in E by done. injection E as <- <-. split.
  - rewrite Hp by (rewrite length_zip_with; lia). do 2 f_equal. clear -Hl. revert ks Hl.
    induction data as [|x data IH]; intros [|k ks] Hl; try done. simpl. f_equal; [|apply IH; by injection Hl].
    by rewrite Z.lxor_assoc, Z.lxor_nilpotent, Z.lxor_0_r.
  - exists ks. split; [|done]. rewrite Hp by done. do 2 f_equal. clear -Hl. revert ks Hl.
    induction data as [|x data IH]; intros [|k ks] Hl; try done. simpl. f_equal. apply IH. by injection Hl.
Qed.

(** "Plaintext" ciphered with the key "Key". *)
Definition demo_state : list Z := ok_or [] (crypto_arc4_update 32 257 [75; 101; 121] crypto_arc4_init).
Definition demo_cipher : list Z * list Z :=
  ok_or ([], []) (crypto_arc4_xorstream demo_state [80; 108; 97; 105; 110; 116; 101; 120; 116]).

Lemma demo_state_ok : arc4_state demo_state.
Proof.
  destruct (update_loop_spec 32 [75; 101; 121] ltac:(lia) ltac:(simpl; lia) 257 0 0 crypto_arc4_init)
    as (st & E & Hs); [unfold arc4_state; reflexivity|lia|lia|].
  unfold demo_state, crypto_arc4_update. by rewrite E.
Qed.

Lemma arc4_roundtrip_witness :
  demo_cipher.2 = [0xBB; 0xF3; 0x16; 0xE8; 0xD9; 0x40; 0xAF; 0x0A; 0xD3] ∧
  crypto_arc4_xorstream demo_state demo_cipher.2 = Ok (demo_cipher.1, [80; 108; 97; 105; 110; 116; 101; 120; 116]).
Proof.
  split; [vm_compute; reflexivity|].
  refine (proj1 (arc4_roundtrip demo_state [80; 108; 97; 105; 110; 116; 101; 120; 116] demo_cipher.1 demo_cipher.2 _ _)).
  - exact demo_state_ok.
  - vm_compute. reflexivity.
Defined.

(** With an [uint_fast8_t] of 8 bits the loop of the key schedule never ends. *)
Theorem arc4_update_diverges fuel key st :
  (0 < length key)%nat → arc4_state st → crypto_arc4_update 8 fuel key st = Err FFuel.
Proof.
  intros Hk Hs. unfold crypto_arc4_update.
  assert (∀ a b, 0 ≤ a < 256 → update_loop 8 fuel a b key st = Err FFuel) as H; [|by apply H; lia].
  revert st Hs. induction fuel as [|fuel IH]; intros st Hs a b Ha; [done|]. cbn [update_loop].
  unfold ARC4_S_SIZE. destruct (Z.ltb_spec a 256); [|lia].
  destruct (state_get st a Hs) as (x & -> & _); [lia|]. cbn [mbind outcome_bind].
  pose proof (Z.mod_pos_bound a (Z.of_nat (length key)) ltac:(lia)) as Hm.
  destruct (lookup_lt_is_Some_2 key (Z.to_nat (a mod Z.of_nat (length key)))) as [k Hkk]; [lia|].
  rewrite <-(Z2Nat.id (a mod Z.of_nat (length key))) by lia. rewrite (aget_nat _ _ _ Hkk). cbn [mbind outcome_bind].
  destruct (exchange_spec st a (wrapu 8 (b + x + k)) Hs) as (st1 & -> & Hs1);
    [lia|by apply (wrapu_range 8)|]. cbn [mbind outcome_bind].
  apply IH; [done|by apply (wrapu_range 8)].
Qed.

(** The indices of the generator are not kept in the context: the stream of two
    calls is not the stream of one call of the same length. *)
Theorem arc4_stream_restarts :
  ∃ st1 st2 st12 s1 s2 s12,
    crypto_arc4_getstream demo_state [0; 0] = Ok (st1, s1) ∧ crypto_arc4_getstream st1 [0; 0] = Ok (st2, s2) ∧
    crypto_arc4_getstream demo_state [0; 0; 0; 0] = Ok (st12, s12) ∧ s1 ++ s2 ≠ s12.
Proof. do 6 eexists. split_and!; [vm_compute; reflexivity..|]. discriminate. Qed.
End Arc4.
