(* ===== verification/Mwmr.v ===== *)
(** * Multi-writer multi-reader FIFO (libmwmr/mwmr_pthread.c)

    The circular buffer, the blocking and non-blocking accesses under the mutex
    and the two conditions.  The buffer is shown to implement a queue of items
    for any interleaving of readers and writers, and the conditions not to lose
    wake-ups. *)

From stdpp Require Import gmap.
From S2P Require Import Prelude Endian CString.

Module Mwmr.
Import Endian CString.

(** [struct mwmr_s], sizes in bytes. *)
Record mwmr_s := { width : Z; gdepth : Z }.

(** [struct mwmr_status_s] and the buffer; a condition is the queue of the threads
    that wait on it.  [rwoken] and [wwoken] are the readers and writers that have
    been signalled and have not taken the mutex again yet. *)
Record status := { rptr : Z; wptr : Z; usage : Z; buffer : list Z;
                   nempty : list nat; nfull : list nat; rwoken : list nat; wwoken : list nat }.

Definition set_conds (ne nf rw ww : list nat) (st : status) : status :=
  {| rptr := rptr st; wptr := wptr st; usage := usage st; buffer := buffer st;
     nempty := ne; nfull := nf; rwoken := rw; wwoken := ww |}.

(** [pthread_cond_signal] wakes the first waiter. *)
Definition signal_nempty (st : status) : status :=
  match nempty st with
  | [] => st
  | t :: ne => set_conds ne (nfull st) (t :: rwoken st) (wwoken st) st
  end.
Definition signal_nfull (st : status) : status :=
  match nfull st with
  | [] => st
  | t :: nf => set_conds (nempty st) nf (rwoken st) (t :: wwoken st) st
  end.
(** [pthread_cond_wait] queues the thread and releases the mutex. *)
Definition wait_nempty (t : nat) (st : status) : status :=
  set_conds (nempty st ++ [t]) (nfull st) (rwoken st) (wwoken st) st.
Definition wait_nfull (t : nat) (st : status) : status :=
  set_conds (nempty st) (nfull st ++ [t]) (rwoken st) (wwoken st) st.

Section ops.
Context (fifo : mwmr_s).

(** The item at [rptr] is copied out and the pointer moved. *)
Definition take_item (st : status) : outcome (list Z * status) :=
  _ ← require (rptr st + width fifo <=? Z.of_nat (length (buffer st))) FBounds;
  let x := slice (buffer st) (Z.to_nat (rptr st)) (Z.to_nat (width fifo)) in
  let r := rptr st + width fifo in
  let r := if r =? gdepth fifo then 0 else r in
  Ok (x, {| rptr := r; wptr := wptr st; usage := usage st - width fifo; buffer := buffer st;
            nempty := nempty st; nfull := nfull st; rwoken := rwoken st; wwoken := wwoken st |}).

Definition put_item (x : list Z) (st : status) : outcome status :=
  _ ← require (wptr st + width fifo <=? Z.of_nat (length (buffer st))) FBounds;
  let w := wptr st + width fifo in
  let w := if w =? gdepth fifo then 0 else w in
  Ok {| rptr := rptr st; wptr := w; usage := usage st + width fifo;
        buffer := write_at (buffer st) (Z.to_nat (wptr st)) x;
        nempty := nempty st; nfull := nfull st; rwoken := rwoken st; wwoken := wwoken st |}.

(** The loop of [mwmr_read] with the mutex held, up to the end of the transfer or
    to the wait: what has been read so far is [acc], [n] items are left. *)
Fixpoint read_loop (n : nat) (acc : list (list Z)) (st : status) : outcome (nat * list (list Z) * status) :=
  match n with
  | O => Ok (O, acc, st)
  | S n' =>
      if usage st =? 0 then Ok (n, acc, st)
      else
        '(x, st) ← take_item st;
        _ ← require (rptr st <? gdepth fifo) FAssert;
        _ ← require (usage st <=? gdepth fifo) FAssert;
        read_loop n' (acc ++ [x]) (signal_nfull st)
  end.

(** From taking the mutex to releasing it, at the end or in the wait. *)
Definition read_segment (t n : nat) (acc : list (list Z)) (st : status) : outcome (nat * list (list Z) * status) :=
  '(n, acc, st) ← read_loop n acc st;
  match n with
  | O => Ok (O, acc, st)
  | _ => Ok (n, acc, wait_nempty t st)
  end.
(** A read that ends signals once more after it has released the mutex. *)
Definition mwmr_read (t n : nat) (acc : list (list Z)) (st : status) : outcome (nat * list (list Z) * status) :=
  '(n, acc, st) ← read_segment t n acc st;
  match n with
  | O => Ok (O, acc, signal_nfull st)
  | _ => Ok (n, acc, st)
  end.

Fixpoint write_loop (xs : list (list Z)) (st : status) : outcome (list (list Z) * status) :=
  match xs with
  | [] => Ok ([], st)
  | x :: xs' =>
      if usage st =? gdepth fifo then Ok (xs, st)
      else
        st ← put_item x st;
        _ ← require (wptr st <? gdepth fifo) FAssert;
        _ ← require (usage st <=? gdepth fifo) FAssert;
        write_loop xs' (signal_nempty st)
  end.

(** Returns the items that are still to be written. *)
Definition write_segment (t : nat) (xs : list (list Z)) (st : status) : outcome (list (list Z) * status) :=
  '(xs, st) ← write_loop xs st;
  match xs with
  | [] => Ok ([], st)
  | _ => Ok (xs, wait_nfull t st)
  end.
Definition mwmr_write (t : nat) (xs : list (list Z)) (st : status) : outcome (list (list Z) * status) :=
  '(xs, st) ← write_segment t xs st;
  match xs with
  | [] => Ok ([], signal_nempty st)
  | _ => Ok (xs, st)
  end.

(** The loops of the non-blocking accesses, when the mutex could be taken. *)
Fixpoint try_read_loop (n : nat) (acc : list (list Z)) (st : status) : outcome (list (list Z) * status) :=
  match n with
  | O => Ok (acc, st)
  | S n =>
      if usage st =? 0 then Ok (acc, st)
      else '(x, st) ← take_item st; try_read_loop n (acc ++ [x]) st
  end.
Fixpoint try_write_loop (xs : list (list Z)) (st : status) : outcome (list (list Z) * status) :=
  match xs with
  | [] => Ok ([], st)
  | x :: xs' =>
      if usage st =? gdepth fifo then Ok (xs, st)
      else st ← put_item x st; try_write_loop xs' st
  end.

(** [busy] is the failure of [pthread_mutex_trylock]; the data read, or the
    items that were not written.  One signal is sent. *)
Definition mwmr_try_read (busy : bool) (n : nat) (st : status) : outcome (list (list Z) * status) :=
  if busy then Ok ([], st)
  else '(acc, st) ← try_read_loop n [] st; Ok (acc, signal_nfull st).
Definition mwmr_try_write (busy : bool) (xs : list (list Z)) (st : status) : outcome (list (list Z) * status) :=
  if busy then Ok (xs, st)
  else '(xs, st) ← try_write_loop xs st; Ok (xs, signal_nempty st).
End ops.

(** ** The abstract queue *)

Lemma mod_inj d a b : (0 < d)%nat → (a ≤ b)%nat → (b - a < d)%nat → (a mod d = b mod d)%nat → a = b.
Proof.
  intros Hd Hab Hlt E. pose proof (Nat.div_mod_eq a d) as Ea. pose proof (Nat.div_mod_eq b d) as Eb.
  rewrite E in Ea. assert (a / d ≤ b / d)%nat by (apply Nat.Div0.div_le_mono; lia).
  destruct (decide (a / d = b / d)%nat) as [Eq|Hne]; [rewrite Eq in Ea; congruence|].
  assert (d * S (a / d) ≤ d * (b / d))%nat by (apply Nat.mul_le_mono_l; lia). lia.
Qed.

Section rep.
(** [d] items of [k] bytes. *)
Context (k d : nat) (Hk : (0 < k)%nat) (Hd : (0 < d)%nat).
Definition fifo : mwmr_s := {| width := Z.of_nat k; gdepth := Z.of_nat (k * d) |}.

(** The state holds the queue [q] of items, from the slot [r] on. *)
Record rep (st : status) (q : list (list Z)) (r : nat) : Prop := {
  rep_r : (r < d)%nat;
  rep_len : (length q ≤ d)%nat;
  rep_rptr : rptr st = Z.of_nat (r * k);
  rep_wptr : wptr st = Z.of_nat ((r + length q) mod d * k);
  rep_usage : usage st = Z.of_nat (length q * k);
  rep_buf : length (buffer st) = (d * k)%nat;
  rep_item : ∀ i x, q !! i = Some x → slice (buffer st) ((r + i) mod d * k) k = x }.

Definition conds (st : status) := (nempty st, nfull st, rwoken st, wwoken st).

Lemma rep_conds st q r ne nf rw ww : rep st q r → rep (set_conds ne nf rw ww st) q r.
Proof. intros []. by constructor. Qed.

Lemma rep_signal_nempty st q r : rep st q r → rep (signal_nempty st) q r.
Proof. intros H. unfold signal_nempty. destruct (nempty st); [done|]. by apply rep_conds. Qed.
Lemma rep_signal_nfull st q r : rep st q r → rep (signal_nfull st) q r.
Proof. intros H. unfold signal_nfull. destruct (nfull st); [done|]. by apply rep_conds. Qed.

(** Moving a pointer by one slot. *)
Lemma next_slot (s : nat) :
  (s < d)%nat →
  (if Z.of_nat (s * k) + Z.of_nat k =? Z.of_nat (k * d) then 0 else Z.of_nat (s * k) + Z.of_nat k) =
  Z.of_nat (S s mod d * k).
Proof using Hk Hd.
  intros Hs. destruct (Z.eqb_spec (Z.of_nat (s * k) + Z.of_nat k) (Z.of_nat (k * d))) as [E|E].
  - assert (S s = d) as <- by nia. by rewrite Nat.Div0.mod_same.
  - assert (S s ≠ d) by (intros Es; apply E; rewrite <-Es; nia). rewrite Nat.mod_small by lia. nia.
Qed.

Lemma take_item_spec st x q r :
  rep st (x :: q) r →
  ∃ st', take_item fifo st = Ok (x, st') ∧ rep st' q (S r mod d) ∧
    conds st' = conds st.
Proof using Hk Hd.
  intros [H1 H2 H3 H4 H5 H6 H7]. unfold take_item. cbn [fifo width gdepth]. rewrite H3, H6.
  rewrite (proj2 (Z.leb_le _ _)) by nia. cbn [require mbind outcome_bind]. rewrite !Nat2Z.id, next_slot by done.
  pose proof (H7 O x eq_refl) as Hx. rewrite Nat.add_0_r, Nat.mod_small in Hx by done. rewrite Hx.
  eexists. split; [done|]. split; [|done]. simpl in H2, H5.
  assert ((S r + length q) mod d = (S r mod d + length q) mod d)%nat as Hm by (by rewrite Nat.Div0.add_mod_idemp_l).
  constructor; simpl; [by apply Nat.mod_upper_bound; lia|lia|done| |rewrite H5; lia|done|].
  - rewrite H4. simpl length. rewrite <-Hm. do 2 f_equal. f_equal. lia.
  - intros i y Hy. rewrite Nat.Div0.add_mod_idemp_l.
    replace (S r + i)%nat with (r + S i)%nat by lia. by apply H7.
Qed.

Lemma put_item_spec st x q r :
  rep st q r → (length q < d)%nat → length x = k →
  ∃ st', put_item fifo x st = Ok st' ∧ rep st' (q ++ [x]) r ∧
    conds st' = conds st.
Proof using Hk Hd.
  intros [H1 H2 H3 H4 H5 H6 H7] Hq Hx. unfold put_item. cbn [fifo width gdepth].
  set (w := ((r + length q) mod d)%nat) in *. assert (w < d)%nat as Hw by (apply Nat.mod_upper_bound; lia).
  rewrite H4, H6. rewrite (proj2 (Z.leb_le _ _)) by nia. cbn [require mbind outcome_bind].
  rewrite Nat2Z.id, next_slot by done. eexists. split; [done|]. split; [|done].
  assert (w * k + length x ≤ length (buffer st))%nat as Hb by nia.
  constructor; simpl; rewrite ?length_app; [done|simpl; lia|done| |rewrite H5; simpl; lia|by rewrite write_at_length|].
  - do 2 f_equal. unfold w. rewrite <-Nat.add_1_l, Nat.Div0.add_mod_idemp_r. f_equal. simpl. lia.
  - intros i y Hy. destruct (decide (i = length q)) as [->|Hi].
    + rewrite list_lookup_middle in Hy by done. injection Hy as <-. fold w.
      pose proof (slice_write_same (buffer st) (w * k) x Hb) as E. by rewrite Hx in E.
    + assert (i < length q)%nat as Hil by (apply lookup_lt_Some in Hy; rewrite length_app in Hy; simpl in Hy; lia).
      rewrite lookup_app_l in Hy by done. rewrite slice_write_disjoint; [by apply H7|done|].
      assert ((r + i) mod d ≠ w)%nat as Hne.
      { unfold w. intros E. apply mod_inj in E; lia. }
      rewrite Hx. nia.
Qed.

Lemma usage_empty st q r : rep st q r → (usage st =? 0) = bool_decide (q = []).
Proof using Hk Hd.
  intros H. rewrite (rep_usage _ _ _ H). destruct q; [done|]. rewrite bool_decide_eq_false_2 by done.
  apply Z.eqb_neq. simpl. lia.
Qed.

Lemma usage_full st q r : rep st q r → (usage st =? gdepth fifo) = bool_decide (length q = d).
Proof using Hk Hd.
  intros H. rewrite (rep_usage _ _ _ H). cbn [fifo gdepth]. case_bool_decide as E; [rewrite E; apply Z.eqb_eq; lia|].
  apply Z.eqb_neq. nia.
Qed.

(** What a loop that moved [j] items did to the conditions. *)
Definition read_conds (j : nat) (st st' : status) : Prop :=
  conds st' = (nempty st, drop j (nfull st), rwoken st, reverse (take j (nfull st)) ++ wwoken st).
Definition write_conds (j : nat) (st st' : status) : Prop :=
  conds st' = (drop j (nempty st), nfull st, reverse (take j (nempty st)) ++ rwoken st, wwoken st).

Lemma read_conds_S j st st1 st' :
  conds st1 = conds st → read_conds j (signal_nfull st1) st' → read_conds (S j) st st'.
Proof.
  unfold read_conds, conds, signal_nfull. intros E ->. injection E as E1 E2 E3 E4. rewrite E2.
  destruct (nfull st) as [|t nf]; simpl; rewrite ?E1, ?E2, ?E3, ?E4; [by rewrite drop_nil, take_nil|].
  by rewrite reverse_cons, <-app_assoc.
Qed.

Lemma write_conds_S j st st1 st' :
  conds st1 = conds st → write_conds j (signal_nempty st1) st' → write_conds (S j) st st'.
Proof.
  unfold write_conds, conds, signal_nempty. intros E ->. injection E as E1 E2 E3 E4. rewrite E1.
  destruct (nempty st) as [|t ne]; simpl; rewrite ?E1, ?E2, ?E3, ?E4; [by rewrite drop_nil, take_nil|].
  by rewrite reverse_cons, <-app_assoc.
Qed.

Lemma rep_bounds st q r :
  rep st q r → (rptr st <? gdepth fifo) = true ∧ (wptr st <? gdepth fifo) = true ∧ (usage st <=? gdepth fifo) = true.
Proof using Hk Hd.
  intros [H1 H2 H3 H4 H5 _ _]. rewrite H3, H4, H5. cbn [fifo gdepth].
  pose proof (Nat.mod_upper_bound (r + length q) d ltac:(lia)).
  split_and!; [apply Z.ltb_lt; nia..|apply Z.leb_le; nia].
Qed.

Lemma read_loop_spec n : ∀ acc st q r,
  rep st q r →
  let j := (n `min` length q)%nat in
  ∃ st' r', read_loop fifo n acc st = Ok ((n - j)%nat, acc ++ take j q, st') ∧
    rep st' (drop j q) r' ∧ read_conds j st st'.
Proof using Hk Hd.
  induction n as [|n IH]; intros acc st q r Hr; cbn [read_loop]; cbv zeta.
  { exists st, r. simpl. rewrite app_nil_r. done. }
  rewrite (usage_empty _ _ _ Hr). destruct q as [|x q]; [exists st, r; simpl; by rewrite app_nil_r|].
  rewrite bool_decide_eq_false_2 by done. destruct (take_item_spec _ _ _ _ Hr) as (st1 & -> & Hr1 & Hc).
  cbn [mbind outcome_bind]. destruct (rep_bounds _ _ _ Hr1) as (-> & _ & ->). cbn [require mbind outcome_bind].
  destruct (IH (acc ++ [x]) (signal_nfull st1) q _ (rep_signal_nfull _ _ _ Hr1)) as (st' & r' & -> & Hr' & Hc').
  exists st', r'. simpl. rewrite <-app_assoc. split; [done|]. split; [done|]. by eapply read_conds_S.
Qed.

Lemma write_loop_spec xs : ∀ st q r,
  rep st q r → Forall (λ x, length x = k) xs →
  let j := (length xs `min` (d - length q))%nat in
  ∃ st', write_loop fifo xs st = Ok (drop j xs, st') ∧ rep st' (q ++ take j xs) r ∧ write_conds j st st'.
Proof using Hk Hd.
  induction xs as [|x xs IH]; intros st q r Hr Hx; cbn [write_loop]; cbv zeta.
  { exists st. simpl. rewrite app_nil_r. done. }
  apply Forall_cons in Hx as [Hx Hxs]. pose proof (rep_len _ _ _ Hr) as Hl.
  rewrite (usage_full _ _ _ Hr). case_bool_decide as E.
  { rewrite E, Nat.sub_diag, Nat.min_0_r. exists st. simpl. by rewrite app_nil_r. }
  destruct (put_item_spec _ x _ _ Hr) as (st1 & -> & Hr1 & Hc); [lia|done|]. cbn [mbind outcome_bind].
  destruct (rep_bounds _ _ _ Hr1) as (_ & -> & ->). cbn [require mbind outcome_bind].
  destruct (IH (signal_nempty st1) _ _ (rep_signal_nempty _ _ _ Hr1) Hxs) as (st' & -> & Hr' & Hc').
  rewrite length_app in *. simpl length in *.
  replace (S (length xs) `min` (d - length q))%nat with (S (length xs `min` (d - (length q + 1)))) by lia.
  exists st'. simpl. rewrite <-app_assoc in Hr'. split; [done|]. split; [done|]. by eapply write_conds_S.
Qed.

Lemma try_read_loop_spec n : ∀ acc st q r,
  rep st q r →
  ∃ st' r', try_read_loop fifo n acc st = Ok (acc ++ take n q, st') ∧ rep st' (drop n q) r' ∧ conds st' = conds st.
Proof using Hk Hd.
  induction n as [|n IH]; intros acc st q r Hr; cbn [try_read_loop].
  { exists st, r. by rewrite take_0, drop_0, app_nil_r. }
  rewrite (usage_empty _ _ _ Hr). destruct q as [|x q]; [exists st, r; simpl; by rewrite app_nil_r|].
  rewrite bool_decide_eq_false_2 by done. destruct (take_item_spec _ _ _ _ Hr) as (st1 & -> & Hr1 & Hc).
  cbn [mbind outcome_bind]. destruct (IH (acc ++ [x]) st1 q _ Hr1) as (st' & r' & -> & Hr' & Hc').
  exists st', r'. simpl. rewrite <-app_assoc. split; [done|]. split; [done|]. congruence.
Qed.

Lemma try_write_loop_spec xs : ∀ st q r,
  rep st q r → Forall (λ x, length x = k) xs →
  let j := (length xs `min` (d - length q))%nat in
  ∃ st', try_write_loop fifo xs st = Ok (drop j xs, st') ∧ rep st' (q ++ take j xs) r ∧ conds st' = conds st.
Proof using Hk Hd.
  induction xs as [|x xs IH]; intros st q r Hr Hx; cbn [try_write_loop]; cbv zeta.
  { exists st. simpl. rewrite app_nil_r. done. }
  apply Forall_cons in Hx as [Hx Hxs]. pose proof (rep_len _ _ _ Hr) as Hl.
  rewrite (usage_full _ _ _ Hr). case_bool_decide as E.
  { rewrite E, Nat.sub_diag, Nat.min_0_r. exists st. simpl. by rewrite app_nil_r. }
  destruct (put_item_spec _ x _ _ Hr) as (st1 & -> & Hr1 & Hc); [lia|done|]. cbn [mbind outcome_bind].
  destruct (IH st1 _ _ Hr1 Hxs) as (st' & -> & Hr' & Hc').
  rewrite length_app in *. simpl length in *.
  replace (S (length xs) `min` (d - length q))%nat with (S (length xs `min` (d - (length q + 1)))) by lia.
  exists st'. simpl. rewrite <-app_assoc in Hr'. split; [done|]. split; [done|]. congruence.
Qed.

Lemma read_segment_spec t n acc st q r :
  rep st q r →
  let j := (n `min` length q)%nat in
  ∃ st' r', read_segment fifo t n acc st = Ok ((n - j)%nat, acc ++ take j q, st') ∧ rep st' (drop j q) r' ∧
    conds st' = (if (length q <? n)%nat then nempty st ++ [t] else nempty st, drop j (nfull st), rwoken st,
                 reverse (take j (nfull st)) ++ wwoken st).
Proof using Hk Hd.
  intros Hr. cbv zeta. destruct (read_loop_spec n acc st q r Hr) as (st' & r' & E & Hr' & Hc). cbv zeta in *.
  unfold read_segment. rewrite E. cbn [mbind outcome_bind]. unfold read_conds, conds in Hc. injection Hc as H1 H2 H3 H4.
  destruct (n - n `min` length q)%nat eqn:En.
  - exists st', r'. split; [done|]. split; [done|]. unfold conds. rewrite H1, H2, H3, H4.
    destruct (Nat.ltb_spec (length q) n); [lia|done].
  - exists (wait_nempty t st'), r'. split; [done|]. split; [by apply rep_conds|]. unfold conds, wait_nempty; simpl.
    rewrite H1, H2, H3, H4. destruct (Nat.ltb_spec (length q) n); [done|lia].
Qed.

Lemma write_segment_spec t xs st q r :
  rep st q r → Forall (λ x, length x = k) xs →
  let j := (length xs `min` (d - length q))%nat in
  ∃ st', write_segment fifo t xs st = Ok (drop j xs, st') ∧ rep st' (q ++ take j xs) r ∧
    conds st' = (drop j (nempty st), if (d - length q <? length xs)%nat then nfull st ++ [t] else nfull st,
                 reverse (take j (nempty st)) ++ rwoken st, wwoken st).
Proof using Hk Hd.
  intros Hr Hx. cbv zeta. destruct (write_loop_spec xs st q r Hr Hx) as (st' & E & Hr' & Hc). cbv zeta in *.
  unfold write_segment. rewrite E. cbn [mbind outcome_bind]. unfold write_conds, conds in Hc. injection Hc as H1 H2 H3 H4.
  set (j := (length xs `min` (d - length q))%nat) in *.
  assert (length (drop j xs) = length xs - j)%nat as Hld by apply length_drop.
  destruct (drop j xs) as [|y ys] eqn:Ed.
  - exists st'. split; [done|]. split; [done|]. unfold conds. rewrite H1, H2, H3, H4.
    destruct (Nat.ltb_spec (d - length q) (length xs)); [simpl in Hld; lia|done].
  - exists (wait_nfull t st'). split; [done|]. split; [by apply rep_conds|]. unfold conds, wait_nfull; simpl.
    rewrite H1, H2, H3, H4. destruct (Nat.ltb_spec (d - length q) (length xs)); [done|simpl in Hld; lia].
Qed.

(** ** Readers and writers

    A transfer in progress is a job: the items a reader still wants with those
    it has, or the items a writer still has to write.  [written] and [received]
    are the histories of the items that went in and out.  Signals may be sent at
    any time, as the functions send some after they have released the mutex;
    [try] allows the non-blocking accesses. *)
Inductive job := RJob (n : nat) (acc : list (list Z)) | WJob (xs : list (list Z)).
Record mworld := { stat : status; jobs : gmap nat job; written : list (list Z); received : list (list Z) }.

Definition set_job (t : nat) (j : job) (jobs : gmap nat job) : gmap nat job :=
  match j with
  | RJob O _ | WJob [] => delete t jobs
  | _ => <[t := j]> jobs
  end.

Inductive mstep (try : bool) (w : mworld) : mworld → Prop :=
| ms_read t n m acc st' :
    jobs w !! t = None → read_segment fifo t n [] (stat w) = Ok (m, acc, st') →
    mstep try w {| stat := st'; jobs := set_job t (RJob m acc) (jobs w);
                   written := written w; received := received w ++ acc |}
| ms_read_again t l1 l2 n acc m acc' st' :
    rwoken (stat w) = l1 ++ t :: l2 → jobs w !! t = Some (RJob n acc) →
    read_segment fifo t n [] (set_conds (nempty (stat w)) (nfull (stat w)) (l1 ++ l2) (wwoken (stat w)) (stat w))
      = Ok (m, acc', st') →
    mstep try w {| stat := st'; jobs := set_job t (RJob m (acc ++ acc')) (jobs w);
                   written := written w; received := received w ++ acc' |}
| ms_write t xs xs' st' :
    jobs w !! t = None → Forall (λ x, length x = k) xs →
    write_segment fifo t xs (stat w) = Ok (xs', st') →
    mstep try w {| stat := st'; jobs := set_job t (WJob xs') (jobs w);
                   written := written w ++ take (length xs - length xs') xs; received := received w |}
| ms_write_again t l1 l2 xs xs' st' :
    wwoken (stat w) = l1 ++ t :: l2 → jobs w !! t = Some (WJob xs) →
    write_segment fifo t xs (set_conds (nempty (stat w)) (nfull (stat w)) (rwoken (stat w)) (l1 ++ l2) (stat w))
      = Ok (xs', st') →
    mstep try w {| stat := st'; jobs := set_job t (WJob xs') (jobs w);
                   written := written w ++ take (length xs - length xs') xs; received := received w |}
| ms_signal_nempty :
    mstep try w {| stat := signal_nempty (stat w); jobs := jobs w; written := written w; received := received w |}
| ms_signal_nfull :
    mstep try w {| stat := signal_nfull (stat w); jobs := jobs w; written := written w; received := received w |}
| ms_try_read n acc st' :
    try = true → try_read_loop fifo n [] (stat w) = Ok (acc, st') →
    mstep try w {| stat := st'; jobs := jobs w; written := written w; received := received w ++ acc |}
| ms_try_write xs xs' st' :
    try = true → Forall (λ x, length x = k) xs → try_write_loop fifo xs (stat w) = Ok (xs', st') →
    mstep try w {| stat := st'; jobs := jobs w;
                   written := written w ++ take (length xs - length xs') xs; received := received w |}.

(** [MWMR_STATUS_INITIALIZER] with a buffer of the right size. *)
Definition minitial (b : list Z) : mworld :=
  {| stat := {| rptr := 0; wptr := 0; usage := 0; buffer := b; nempty := []; nfull := []; rwoken := []; wwoken := [] |};
     jobs := ∅; written := []; received := [] |}.
Inductive mreachable (try : bool) (b : list Z) : mworld → Prop :=
| mr_init : mreachable try b (minitial b)
| mr_step w w' : mreachable try b w → mstep try w w' → mreachable try b w'.

(** A waiting reader while there are items has signalled readers before it, one
    for each item; likewise for writers and free slots. *)
Definition wake_inv (st : status) (n : nat) : Prop :=
  (nempty st ≠ [] → (n ≤ length (rwoken st))%nat) ∧ (nfull st ≠ [] → (d - n ≤ length (wwoken st))%nat).
Definition job_ok (j : job) : Prop :=
  match j with
  | RJob n _ => (0 < n)%nat
  | WJob xs => xs ≠ [] ∧ Forall (λ x, length x = k) xs
  end.
Record minv (try : bool) (w : mworld) (q : list (list Z)) (r : nat) : Prop := {
  mi_rep : rep (stat w) q r;
  mi_hist : written w = received w ++ q;
  mi_jobs : ∀ t j, jobs w !! t = Some j → job_ok j;
  mi_wake : try = false → wake_inv (stat w) (length q) }.

Lemma wake_read (st st' : status) t n j ql :
  j = (n `min` ql)%nat →
  (nempty st ≠ [] → (ql - j ≤ length (rwoken st))%nat) → (nfull st ≠ [] → (d - ql ≤ length (wwoken st))%nat) →
  conds st' = (if (ql <? n)%nat then nempty st ++ [t] else nempty st, drop j (nfull st), rwoken st,
               reverse (take j (nfull st)) ++ wwoken st) →
  wake_inv st' (ql - j).
Proof.
  intros Hj He Hf Hc. unfold wake_inv, conds in *. injection Hc as -> Hf' -> Hw'. split.
  - destruct (Nat.ltb_spec ql n); [lia|done].
  - rewrite Hf', Hw', length_app, length_reverse, length_take. intros Hne.
    assert (j < length (nfull st))%nat by (destruct (decide (j < length (nfull st))%nat); [done|]; destruct Hne; apply drop_ge; lia).
    assert (nfull st ≠ []) as Hn by (intros E; rewrite E in *; simpl in *; lia). specialize (Hf Hn). lia.
Qed.

Lemma wake_write (st st' : status) t n j ql :
  j = (n `min` (d - ql))%nat → (ql ≤ d)%nat →
  (nempty st ≠ [] → (ql ≤ length (rwoken st))%nat) → (nfull st ≠ [] → (d - (ql + j) ≤ length (wwoken st))%nat) →
  conds st' = (drop j (nempty st), if (d - ql <? n)%nat then nfull st ++ [t] else nfull st,
               reverse (take j (nempty st)) ++ rwoken st, wwoken st) →
  wake_inv st' (ql + j).
Proof.
  intros Hj Hq He Hf Hc. unfold wake_inv, conds in *. injection Hc as He' Hf' Hr' ->. split.
  - rewrite He', Hr', length_app, length_reverse, length_take. intros Hne.
    assert (j < length (nempty st))%nat by (destruct (decide (j < length (nempty st))%nat); [done|]; destruct Hne; apply drop_ge; lia).
    assert (nempty st ≠ []) as Hn by (intros E; rewrite E in *; simpl in *; lia). specialize (He Hn). lia.
  - rewrite Hf'. destruct (Nat.ltb_spec (d - ql) n); [lia|done].
Qed.

Lemma set_job_ok t j (js : gmap nat job) :
  (∀ u x, js !! u = Some x → job_ok x) →
  match j with RJob _ _ => True | WJob xs => Forall (λ x, length x = k) xs end →
  ∀ u x, set_job t j js !! u = Some x → job_ok x.
Proof.
  intros Hjs Hj u x. unfold set_job. destruct j as [[|n] acc|[|y ys]]; [| | |]; intros Hu;
    destruct (decide (u = t)) as [->|]; simplify_map_eq; eauto; by split || (simpl; lia).
Qed.

Lemma read_step_inv try w q r t n acc acc0 m st' rw :
  minv try w q r →
  (nempty (stat w) ≠ [] → try = false → (length q - (n `min` length q) ≤ length rw)%nat) →
  read_segment fifo t n [] (set_conds (nempty (stat w)) (nfull (stat w)) rw (wwoken (stat w)) (stat w)) = Ok (m, acc, st') →
  ∃ q' r', minv try {| stat := st'; jobs := set_job t (RJob m acc0) (jobs w); written := written w; received := received w ++ acc |} q' r'.
Proof using Hk Hd.
  intros [Hr Hh Hj Hw] Hrw E.
  pose proof (read_segment_spec t n [] _ _ _ (rep_conds _ _ _ (nempty (stat w)) (nfull (stat w)) rw (wwoken (stat w)) Hr)) as Hs.
  cbv zeta in Hs. destruct Hs as (st1 & r1 & E1 & Hr1 & Hc). rewrite E1 in E. injection E as <- <- <-. cbn [app].
  exists (drop (n `min` length q) q), r1. constructor; cbn [stat jobs written received]; [done| | |].
  - by rewrite <-app_assoc, take_drop.
  - by apply set_job_ok.
  - intros Ht. rewrite length_drop. eapply wake_read; [done| | |exact Hc]; simpl.
    + auto.
    + by apply Hw.
Qed.

Lemma write_step_inv try w q r t xs xs' st' ww :
  minv try w q r → Forall (λ x, length x = k) xs →
  (nfull (stat w) ≠ [] → try = false → (d - (length q + (length xs `min` (d - length q))) ≤ length ww)%nat) →
  write_segment fifo t xs (set_conds (nempty (stat w)) (nfull (stat w)) (rwoken (stat w)) ww (stat w)) = Ok (xs', st') →
  ∃ q' r', minv try {| stat := st'; jobs := set_job t (WJob xs') (jobs w);
    written := written w ++ take (length xs - length xs') xs; received := received w |} q' r'.
Proof using Hk Hd.
  intros [Hr Hh Hj Hw] Hx Hww E.
  pose proof (write_segment_spec t xs _ _ _ (rep_conds _ _ _ (nempty (stat w)) (nfull (stat w)) (rwoken (stat w)) ww Hr) Hx) as Hs.
  cbv zeta in Hs. destruct Hs as (st1 & E1 & Hr1 & Hc). rewrite E1 in E. injection E as <- <-.
  set (j := (length xs `min` (d - length q))%nat) in *. exists (q ++ take j xs), r. constructor; cbn [stat jobs written received]; [done| | |].
  - rewrite length_drop. replace (length xs - (length xs - j))%nat with j by lia. by rewrite Hh, <-app_assoc.
  - apply set_job_ok; [done|by apply Forall_drop].
  - intros Ht. rewrite length_app, length_take. replace (j `min` length xs)%nat with j by lia.
    eapply wake_write; [done|apply (rep_len _ _ _ Hr)| | |exact Hc]; simpl.
    + by apply Hw.
    + auto.
Qed.

Lemma mstep_inv try w w' q r : minv try w q r → mstep try w w' → ∃ q' r', minv try w' q' r'.
Proof using Hk Hd.
  intros Hi Hs. pose proof Hi as [Hr Hh Hj Hw].
  destruct Hs as [t n m acc st' Hjt E|t l1 l2 n acc m acc' st' Hl Hjt E|t xs xs' st' Hjt Hx E|t l1 l2 xs xs' st' Hl Hjt E
    | | |n acc st' Ht E|xs xs' st' Ht Hx E].
  - eapply (read_step_inv _ _ _ _ t n acc _ m st' (rwoken (stat w))); [done| |by destruct (stat w)].
    intros Hne Ht. destruct (Hw Ht) as [H1 _]. specialize (H1 Hne). lia.
  - eapply (read_step_inv _ _ _ _ t n acc' _ m st' (l1 ++ l2)); [done| |done].
    intros Hne Ht. destruct (Hw Ht) as [H1 _]. specialize (H1 Hne). specialize (Hj _ _ Hjt). simpl in Hj.
    rewrite Hl, !length_app in *. simpl in H1. lia.
  - eapply (write_step_inv _ _ _ _ t xs xs' st' (wwoken (stat w))); [done|done| |by destruct (stat w)].
    intros Hne Ht. destruct (Hw Ht) as [_ H2]. specialize (H2 Hne). lia.
  - destruct (Hj _ _ Hjt) as [Hxs Hx]. eapply (write_step_inv _ _ _ _ t xs xs' st' (l1 ++ l2)); [done|done| |done].
    intros Hne Ht. destruct (Hw Ht) as [_ H2]. specialize (H2 Hne). rewrite Hl, !length_app in *. simpl in H2.
    assert (0 < length xs)%nat by (destruct xs; [done|simpl; lia]). pose proof (rep_len _ _ _ Hr). lia.
  - exists q, r. constructor; simpl; [by apply rep_signal_nempty|done|done|]. intros Ht. destruct (Hw Ht) as [H1 H2].
    unfold wake_inv, signal_nempty. destruct (nempty (stat w)) eqn:E; simpl; [rewrite E; by split|].
    split; [|done]. intros _. assert (length q ≤ length (rwoken (stat w)))%nat by (by apply H1). lia.
  - exists q, r. constructor; simpl; [by apply rep_signal_nfull|done|done|]. intros Ht. destruct (Hw Ht) as [H1 H2].
    unfold wake_inv, signal_nfull. destruct (nfull (stat w)) eqn:E; simpl; [rewrite E; by split|].
    split; [done|]. intros _. assert (d - length q ≤ length (wwoken (stat w)))%nat by (by apply H2). lia.
  - destruct (try_read_loop_spec n [] _ _ _ Hr) as (st1 & r1 & E1 & Hr1 & _). rewrite E1 in E. injection E as <- <-.
    exists (drop n q), r1. constructor; simpl; [done|by rewrite <-app_assoc, take_drop|done|congruence].
  - destruct (try_write_loop_spec xs _ _ _ Hr Hx) as (st1 & E1 & Hr1 & _). cbv zeta in *. rewrite E1 in E. injection E as <- <-.
    set (j := (length xs `min` (d - length q))%nat) in *. exists (q ++ take j xs), r.
    constructor; simpl; [done| |done|congruence]. rewrite length_drop.
    replace (length xs - (length xs - j))%nat with j by lia. by rewrite Hh, <-app_assoc.
Qed.

Lemma mreachable_inv try b w :
  length b = (d * k)%nat → mreachable try b w → ∃ q r, minv try w q r.
Proof using Hk Hd.
  intros Hb. induction 1 as [|w w' _ (q & r & IH) Hs]; [|by eapply mstep_inv].
  exists [], O. constructor; [|done|done|].
  - constructor; simpl; [lia|lia|done|by rewrite Nat.Div0.mod_0_l|done|done|by intros ? ? ?].
  - intros _. by split.
Qed.

(** C18. The FIFO is a queue for any number of readers and writers: in every
    reachable state, whatever the interleaving of the transfers, the items that
    went in are those that came out, in order, followed by the items it holds, at
    most its depth; a read takes the oldest items it holds and a write adds at the
    end as many as fit, without any access out of the buffer or failed assertion. *)
Theorem mwmr_is_a_queue try b w :
  length b = (d * k)%nat → mreachable try b w →
  ∃ q, written w = received w ++ q ∧ (length q ≤ d)%nat ∧
    (∀ t n acc, ∃ st', mwmr_read fifo t n acc (stat w) = Ok ((n - length q)%nat, acc ++ take n q, st')) ∧
    (∀ t xs, Forall (λ x, length x = k) xs →
       ∃ st', mwmr_write fifo t xs (stat w) = Ok (drop (d - length q) xs, st')).
Proof using Hk Hd.
  intros Hb Hr. destruct (mreachable_inv _ _ _ Hb Hr) as (q & r & [Hrep Hh Hj Hw]). exists q.
  split; [done|]. split; [apply (rep_len _ _ _ Hrep)|]. split.
  - intros t n acc. destruct (read_segment_spec t n acc _ _ _ Hrep) as (st' & r' & E & _). cbv zeta in E.
    unfold mwmr_read. rewrite E. cbn [mbind outcome_bind].
    replace (n - n `min` length q)%nat with (n - length q)%nat by lia.
    assert (take (n `min` length q) q = take n q) as ->.
    { destruct (decide (n ≤ length q)%nat); [by rewrite Nat.min_l by lia|].
      rewrite Nat.min_r, !take_ge by lia. done. }
    destruct (n - length q)%nat; eauto.
  - intros t xs Hx. destruct (write_segment_spec t xs _ _ _ Hrep Hx) as (st' & E & _). cbv zeta in E.
    unfold mwmr_write. rewrite E. cbn [mbind outcome_bind].
    assert (drop (length xs `min` (d - length q)) xs = drop (d - length q) xs) as ->.
    { destruct (decide (length xs ≤ d - length q)%nat); [|by rewrite Nat.min_r by lia].
      rewrite Nat.min_l, !drop_ge by lia. done. }
    destruct (drop (d - length q) xs); eauto.
Qed.

(** C38. On a channel that is only used by blocking transfers ([mwmr_read] and
    [mwmr_write]; [mreachable false] has no step for the try accesses), the
    conditions do not lose wake-ups: whenever a reader waits although the FIFO holds
    an item, a reader has been signalled and has not run yet, and likewise for
    writers when there is room.  With try accesses that is not so, see
    [try_read_leaves_writer]. *)
Theorem mwmr_no_lost_wakeup b w :
  length b = (d * k)%nat → mreachable false b w →
  (nempty (stat w) ≠ [] → usage (stat w) ≠ 0 → rwoken (stat w) ≠ []) ∧
  (nfull (stat w) ≠ [] → usage (stat w) ≠ gdepth fifo → wwoken (stat w) ≠ []).
Proof using Hk Hd.
  intros Hb Hr. destruct (mreachable_inv _ _ _ Hb Hr) as (q & r & [Hrep Hh Hj Hw]).
  destruct (Hw eq_refl) as [H1 H2]. pose proof (rep_usage _ _ _ Hrep) as Hu. pose proof (rep_len _ _ _ Hrep) as Hl.
  split; intros Hne Hus E; rewrite E in *; simpl in *.
  - specialize (H1 Hne). apply Hus. rewrite Hu. replace (length q) with O by lia. done.
  - specialize (H2 Hne). apply Hus. rewrite Hu. replace (length q) with d by lia. f_equal. lia.
Qed.
End rep.

(** ** Witnesses *)

(** A FIFO of two items of one byte: a reader waits, a writer writes three items
    and waits. *)
Definition demo0 : mworld := minitial [0; 0].
Definition demo_seg1 := ok_or (O, [], stat demo0) (read_segment (fifo 1 2) 7 1 [] (stat demo0)).
Definition demo1 : mworld :=
  {| stat := demo_seg1.2; jobs := set_job 7 (RJob demo_seg1.1.1 demo_seg1.1.2) (jobs demo0);
     written := []; received := [] ++ demo_seg1.1.2 |}.
Definition demo_seg2 := ok_or ([], stat demo1) (write_segment (fifo 1 2) 8 [[1]; [2]; [3]] (stat demo1)).
Definition demo2 : mworld :=
  {| stat := demo_seg2.2; jobs := set_job 8 (WJob demo_seg2.1) (jobs demo1);
     written := [] ++ take (3 - length demo_seg2.1) [[1]; [2]; [3]]; received := received demo1 |}.

Lemma demo2_reachable : mreachable 1 2 false [0; 0] demo2.
Proof.
  eapply mr_step; [eapply mr_step; [apply mr_init|]|].
  - apply (ms_read 1 2 false demo0 7 1 demo_seg1.1.1 demo_seg1.1.2); [done|]. vm_compute. reflexivity.
  - apply (ms_write 1 2 false demo1 8 [[1]; [2]; [3]] demo_seg2.1); [done|by repeat constructor|].
    vm_compute. reflexivity.
Qed.

Lemma mwmr_is_a_queue_witness :
  ∃ q, written demo2 = received demo2 ++ q ∧ (length q ≤ 2)%nat ∧
    (∀ t n acc, ∃ st', mwmr_read (fifo 1 2) t n acc (stat demo2) = Ok ((n - length q)%nat, acc ++ take n q, st')) ∧
    (∀ t xs, Forall (λ x, length x = 1%nat) xs →
       ∃ st', mwmr_write (fifo 1 2) t xs (stat demo2) = Ok (drop (2 - length q) xs, st')).
Proof. apply (mwmr_is_a_queue 1 2 ltac:(lia) ltac:(lia) false [0; 0] demo2); [done|apply demo2_reachable]. Defined.

Lemma mwmr_no_lost_wakeup_witness :
  (nempty (stat demo2) ≠ [] → usage (stat demo2) ≠ 0 → rwoken (stat demo2) ≠ []) ∧
  (nfull (stat demo2) ≠ [] → usage (stat demo2) ≠ gdepth (fifo 1 2) → wwoken (stat demo2) ≠ []).
Proof. apply (mwmr_no_lost_wakeup 1 2 ltac:(lia) ltac:(lia) [0; 0] demo2); [done|apply demo2_reachable]. Defined.

(** ** What the code does not guarantee *)

(** [mwmr_try_read] sends one signal however many items it takes: with two
    writers waiting on a full FIFO, it frees two slots and wakes one writer, and
    after that writer's item a writer waits although there is room and nobody has
    been signalled. *)
Theorem try_read_leaves_writer :
  ∃ xs1 st1 xs2 st2 out st3 st4,
    write_segment (fifo 1 2) 1 [[1]; [2]; [3]] (stat demo0) = Ok (xs1, st1) ∧
    write_segment (fifo 1 2) 2 [[4]] st1 = Ok (xs2, st2) ∧
    mwmr_try_read (fifo 1 2) false 2 st2 = Ok (out, st3) ∧ wwoken st3 = [1%nat] ∧
    mwmr_write (fifo 1 2) 1 xs1 (set_conds (nempty st3) (nfull st3) (rwoken st3) [] st3) = Ok ([], st4) ∧
    nfull st4 = [2%nat] ∧ usage st4 ≠ gdepth (fifo 1 2) ∧ wwoken st4 = [].
Proof. do 7 eexists. split_and!; [vm_compute; reflexivity..| |vm_compute; reflexivity]. vm_compute. discriminate. Qed.
End Mwmr.
