(* ===== verification/Qsort.v ===== *)
(** * Sorting and searching (libc/qsort.c, libc/stdlib.c)

    The quicksort of Bentley and McIlroy, with its insertion sort, its choice of
    the pivot and its three way partition, and the binary search.  Elements are
    moved as a whole; a pointer into the array is the index of an element. *)

From Stdlib Require Import Sorting.Sorted.
From S2P Require Import Prelude.

Module Qsort.

Section ops.
Context {A : Type} (cmp : A → A → Z).
Implicit Types (arr : list A) (a n i j : nat).

Definition get arr i : outcome A := of_option FBounds (arr !! i).
Definition swap i j arr : outcome (list A) :=
  x ← get arr i; y ← get arr j; Ok (<[j := x]> (<[i := y]> arr)).

(** [swapfunc] on [n] elements from [i] and from [j]. *)
Fixpoint swapfunc i j n arr : outcome (list A) :=
  match n with
  | O => Ok arr
  | S n => arr ← swap i j arr; swapfunc (S i) (S j) n arr
  end.
Definition vecswap i j n arr : outcome (list A) := if (0 <? n)%nat then swapfunc i j n arr else Ok arr.

Definition med3 arr i j k : outcome nat :=
  x ← get arr i; y ← get arr j; z ← get arr k;
  Ok (if cmp x y <? 0 then (if cmp y z <? 0 then j else if cmp x z <? 0 then k else i)
      else (if 0 <? cmp y z then j else if cmp x z <? 0 then i else k)).

(** [for (pl = pm; pl > a && cmp(pl - es, pl) > 0; pl -= es) swap(pl, pl - es);]
    with [pl = a + k]. *)
Fixpoint sift a k arr : outcome (list A) :=
  match k with
  | O => Ok arr
  | S k' =>
      x ← get arr (a + k'); y ← get arr (a + k);
      if 0 <? cmp x y then arr ← swap (a + k) (a + k') arr; sift a k' arr else Ok arr
  end.
(** The insertion sort from the element [k] on, [m] elements left. *)
Fixpoint insertion a k m arr : outcome (list A) :=
  match m with
  | O => Ok arr
  | S m => arr ← sift a k arr; insertion a (S k) m arr
  end.
Definition insertion_sort a n arr : outcome (list A) := insertion a 1 (n - 1) arr.

(** ** The partition *)

Record part := { parr : list A; pa : nat; pb : nat; pc : nat; pd : nat; swap_cnt : bool }.

(** [while (pb <= pc && (cmp_result = cmp(pb, a)) <= 0)] *)
Fixpoint up_loop (fuel a : nat) (p : part) : outcome part :=
  match fuel with
  | O => Err FFuel
  | S fuel =>
      if (pb p <=? pc p)%nat then
        x ← get (parr p) (pb p); v ← get (parr p) a;
        let r := cmp x v in
        if r <=? 0 then
          if r =? 0 then
            arr ← swap (pa p) (pb p) (parr p);
            up_loop fuel a {| parr := arr; pa := S (pa p); pb := S (pb p); pc := pc p; pd := pd p; swap_cnt := true |}
          else up_loop fuel a {| parr := parr p; pa := pa p; pb := S (pb p); pc := pc p; pd := pd p; swap_cnt := swap_cnt p |}
        else Ok p
      else Ok p
  end.

(** [while (pb <= pc && (cmp_result = cmp(pc, a)) >= 0)] *)
Fixpoint down_loop (fuel a : nat) (p : part) : outcome part :=
  match fuel with
  | O => Err FFuel
  | S fuel =>
      if (pb p <=? pc p)%nat then
        x ← get (parr p) (pc p); v ← get (parr p) a;
        let r := cmp x v in
        if 0 <=? r then
          if r =? 0 then
            arr ← swap (pc p) (pd p) (parr p);
            down_loop fuel a {| parr := arr; pa := pa p; pb := pb p; pc := pc p - 1; pd := pd p - 1; swap_cnt := true |}
          else down_loop fuel a {| parr := parr p; pa := pa p; pb := pb p; pc := pc p - 1; pd := pd p; swap_cnt := swap_cnt p |}
        else Ok p
      else Ok p
  end.

(** [for (;;)] *)
Fixpoint part_loop (fuel a n : nat) (p : part) : outcome part :=
  match fuel with
  | O => Err FFuel
  | S fuel =>
      p ← up_loop (S n) a p;
      p ← down_loop (S n) a p;
      if (pc p <? pb p)%nat then Ok p
      else
        arr ← swap (pb p) (pc p) (parr p);
        part_loop fuel a n {| parr := arr; pa := pa p; pb := S (pb p); pc := pc p - 1; pd := pd p; swap_cnt := true |}
  end.

(** The choice of the pivot. *)
Definition pivot a n arr : outcome nat :=
  let pm := (a + n / 2)%nat in
  if (7 <? n)%nat then
    let pl := a in
    let pn := (a + (n - 1))%nat in
    '(pl, pm, pn) ←
      (if (40 <? n)%nat then
         let d := (n / 8)%nat in
         pl ← med3 arr pl (pl + d) (pl + 2 * d);
         pm ← med3 arr (pm - d) pm (pm + d);
         pn ← med3 arr (pn - 2 * d) (pn - d) pn;
         Ok (pl, pm, pn)
       else Ok (pl, pm, pn));
    med3 arr pl pm pn
  else Ok pm.

Fixpoint qsort (fuel a n : nat) arr : outcome (list A) :=
  match fuel with
  | O => Err FFuel
  | S fuel =>
      if (n <? 7)%nat then insertion_sort a n arr
      else
        pm ← pivot a n arr;
        arr ← swap a pm arr;
        p ← part_loop (S n) a n
              {| parr := arr; pa := S a; pb := S a; pc := a + (n - 1); pd := a + (n - 1); swap_cnt := false |};
        if negb (swap_cnt p) then insertion_sort a n (parr p)
        else
          let pn := (a + n)%nat in
          let r := ((pa p - a) `min` (pb p - pa p))%nat in
          arr ← vecswap a (pb p - r) r (parr p);
          let r := ((pd p - pc p) `min` (pn - pd p - 1))%nat in
          arr ← vecswap (pb p) (pn - r) r arr;
          let r := (pb p - pa p)%nat in
          arr ← (if (1 <? r)%nat then qsort fuel a r arr else Ok arr);
          let r := (pd p - pc p)%nat in
          if (1 <? r)%nat then qsort fuel (pn - r) r arr else Ok arr
  end.
End ops.

(** ** Binary search *)

(** [while (cur < max)]; [arr] is the array, [compar] the comparison with the
    key. *)
Fixpoint bsearch_loop {A} (compar : A → Z) (fuel : nat) (arr : list A) (min cur max : nat) : outcome (option nat) :=
  match fuel with
  | O => Err FFuel
  | S fuel =>
      if (cur <? max)%nat then
        x ← get arr cur;
        let cmp := compar x in
        if cmp =? 0 then Ok (Some cur)
        else
          let '(min, max) := if cmp <=? 0 then (min, cur) else (S cur, max) in
          let tmp := ((max + min) / 2)%nat in
          if (cur =? tmp)%nat then Ok None else bsearch_loop compar fuel arr min tmp max
      else Ok None
  end.
Definition bsearch {A} (compar : A → Z) (arr : list A) : outcome (option nat) :=
  let max := length arr in
  bsearch_loop compar (S max) arr 0 ((max + 0) / 2) max.

(** ** Exchanges *)

Section perm.
Context {A : Type}.
Implicit Types (arr : list A) (lo hi i j k : nat).

(** [arr'] is [arr] with the elements from [lo] to [hi] moved around. *)
Definition local lo hi arr arr' : Prop :=
  arr ≡ₚ arr' ∧ ∀ i, (i < lo ∨ hi ≤ i)%nat → arr' !! i = arr !! i.

Lemma local_refl lo hi arr : local lo hi arr arr.
Proof. done. Qed.

Lemma local_trans lo hi arr1 arr2 arr3 : local lo hi arr1 arr2 → local lo hi arr2 arr3 → local lo hi arr1 arr3.
Proof. intros [P1 H1] [P2 H2]. split; [by etrans|]. intros i Hi. by rewrite H2, H1. Qed.

Lemma local_weaken lo hi lo' hi' arr arr' :
  (lo' ≤ lo)%nat → (hi ≤ hi')%nat → local lo hi arr arr' → local lo' hi' arr arr'.
Proof. intros Hlo Hhi [P H]. split; [done|]. intros i Hi. apply H. lia. Qed.

Lemma local_length lo hi arr arr' : local lo hi arr arr' → length arr' = length arr.
Proof. intros [P _]. by rewrite P. Qed.

(** All the elements from [lo] to [hi] satisfy [P]. *)
Definition within (P : A → Prop) lo hi arr : Prop := ∀ i x, (lo ≤ i < hi)%nat → arr !! i = Some x → P x.

(** What holds of all the elements of the range still does. *)
Lemma local_forall (P : A → Prop) lo hi arr arr' :
  local lo hi arr arr' → within P lo hi arr → within P lo hi arr'.
Proof.
  intros Hloc HP i x Hi Hx. pose proof (local_length _ _ _ _ Hloc) as Hlen. destruct Hloc as [Hp Ho].
  set (m := take (hi - lo) (drop lo arr)). set (m' := take (hi - lo) (drop lo arr')).
  assert (m ≡ₚ m') as Hm.
  { assert (take lo arr' = take lo arr) as Ht.
    { apply list_eq. intros j. destruct (decide (j < lo)%nat); [rewrite !lookup_take_lt by done; apply Ho; lia|].
      by rewrite !lookup_take_ge by lia. }
    assert (drop hi arr' = drop hi arr) as Hd by (apply list_eq; intros j; rewrite !lookup_drop; apply Ho; lia).
    assert (∀ l : list A, l = take lo l ++ take (hi - lo) (drop lo l) ++ drop hi l) as Hsplit.
    { intros l. rewrite <-(take_drop lo l) at 1. f_equal. rewrite <-(take_drop (hi - lo) (drop lo l)) at 1. f_equal.
      rewrite drop_drop. f_equal. lia. }
    rewrite (Hsplit arr), (Hsplit arr'), Ht, Hd in Hp. apply Permutation_app_inv_l, Permutation_app_inv_r in Hp. done. }
  assert (Forall P m) as Hf.
  { apply Forall_lookup. intros j y Hy. unfold m in Hy. apply lookup_take_Some in Hy as [Hy Hj].
    rewrite lookup_drop in Hy. apply (HP (lo + j)%nat); [lia|done]. }
  rewrite Hm in Hf. eapply Forall_lookup_1; [exact Hf|]. instantiate (1 := (i - lo)%nat). unfold m'.
  rewrite lookup_take_lt, lookup_drop by lia. rewrite <-Hx. f_equal. lia.
Qed.

Lemma get_Ok arr i x : arr !! i = Some x → get arr i = Ok x.
Proof. intros H. unfold get. by rewrite H. Qed.

Lemma swap_spec i j arr lo hi :
  (lo ≤ i < hi)%nat → (lo ≤ j < hi)%nat → (hi ≤ length arr)%nat →
  ∃ arr', swap i j arr = Ok arr' ∧ local lo hi arr arr' ∧
    arr' !! j = arr !! i ∧ arr' !! i = arr !! j ∧ ∀ k, k ≠ i → k ≠ j → arr' !! k = arr !! k.
Proof.
  intros Hi Hj Hl. destruct (lookup_lt_is_Some_2 arr i) as [x Hx]; [lia|].
  destruct (lookup_lt_is_Some_2 arr j) as [y Hy]; [lia|].
  exists (<[j := x]> (<[i := y]> arr)). unfold swap. rewrite (get_Ok _ _ _ Hx), (get_Ok _ _ _ Hy).
  split; [done|]. rewrite Hx, Hy. split_and!.
  - split; [symmetry; by apply list_swap_perm|]. intros k Hk. rewrite !list_lookup_insert_ne by lia. done.
  - apply list_lookup_insert_eq. rewrite length_insert. lia.
  - destruct (decide (i = j)) as [->|]; [rewrite list_lookup_insert_eq by (rewrite length_insert; lia); congruence|].
    rewrite list_lookup_insert_ne by done. apply list_lookup_insert_eq. lia.
  - intros k Hki Hkj. by rewrite !list_lookup_insert_ne.
Qed.

(** Exchange of two disjoint ranges. *)
Lemma swapfunc_spec n : ∀ i j arr lo hi,
  (lo ≤ i)%nat → (i + n ≤ j)%nat → (j + n ≤ hi)%nat → (hi ≤ length arr)%nat →
  ∃ arr', swapfunc i j n arr = Ok arr' ∧ local lo hi arr arr' ∧
    (∀ k, (k < n)%nat → arr' !! (i + k)%nat = arr !! (j + k)%nat ∧ arr' !! (j + k)%nat = arr !! (i + k)%nat) ∧
    (∀ k, (k < i ∨ i + n ≤ k < j ∨ j + n ≤ k)%nat → arr' !! k = arr !! k).
Proof.
  induction n as [|n IH]; intros i j arr lo hi Hi Hij Hj Hl; cbn [swapfunc].
  { exists arr. split_and!; [done|apply local_refl|lia|done]. }
  destruct (swap_spec i j arr lo hi) as (arr1 & -> & Hloc1 & Hj1 & Hi1 & Ho1); [lia..|]. cbn [mbind outcome_bind].
  pose proof (local_length _ _ _ _ Hloc1) as Hlen.
  destruct (IH (S i) (S j) arr1 lo hi) as (arr2 & -> & Hloc2 & Hs2 & Ho2); [lia..|].
  exists arr2. split; [done|]. split; [by eapply local_trans|]. split.
  - intros [|k] Hk.
    + rewrite !Nat.add_0_r. rewrite !Ho2 by lia. done.
    + destruct (Hs2 k) as [E1 E2]; [lia|]. rewrite <-!plus_n_Sm. rewrite !plus_Sn_m in E1, E2. rewrite E1, E2.
      split; apply Ho1; lia.
  - intros k Hk. rewrite Ho2 by lia. apply Ho1; lia.
Qed.

Lemma vecswap_spec n i j arr lo hi :
  (lo ≤ i)%nat → (i + n ≤ j)%nat → (j + n ≤ hi)%nat → (hi ≤ length arr)%nat →
  ∃ arr', vecswap i j n arr = Ok arr' ∧ local lo hi arr arr' ∧
    (∀ k, (k < n)%nat → arr' !! (i + k)%nat = arr !! (j + k)%nat ∧ arr' !! (j + k)%nat = arr !! (i + k)%nat) ∧
    (∀ k, (k < i ∨ i + n ≤ k < j ∨ j + n ≤ k)%nat → arr' !! k = arr !! k).
Proof.
  intros Hi Hij Hj Hl. unfold vecswap. destruct (Nat.ltb_spec 0 n); [by apply swapfunc_spec|].
  exists arr. split_and!; [done|apply local_refl|lia|done].
Qed.

(** Exchange of two adjacent ranges through their ends. *)
Lemma vecswap_regions (P Q : A → Prop) i m l arr lo hi :
  (lo ≤ i)%nat → (i + m + l ≤ hi)%nat → (hi ≤ length arr)%nat →
  within P i (i + m) arr → within Q (i + m) (i + m + l) arr →
  ∃ arr', vecswap i (i + m + l - m `min` l) (m `min` l) arr = Ok arr' ∧ local lo hi arr arr' ∧
    within Q i (i + l) arr' ∧ within P (i + l) (i + m + l) arr' ∧
    ∀ k, (k < i ∨ i + m + l ≤ k)%nat → arr' !! k = arr !! k.
Proof.
  intros Hi Hh Hl HP HQ. set (r := (m `min` l)%nat).
  destruct (vecswap_spec r i (i + m + l - r) arr lo hi) as (arr' & -> & Hloc & Hs & Ho); [lia..|].
  exists arr'. split; [done|]. split; [done|]. split_and!.
  - intros k x Hk Hx. destruct (decide (k < i + r)%nat).
    + destruct (Hs (k - i)%nat) as [E _]; [lia|]. replace (i + (k - i))%nat with k in E by lia.
      rewrite E in Hx. eapply HQ; [|exact Hx]. lia.
    + rewrite Ho in Hx by lia. eapply HQ; [|exact Hx]. lia.
  - intros k x Hk Hx. destruct (decide (i + m + l - r ≤ k)%nat).
    + destruct (Hs (k - (i + m + l - r))%nat) as [_ E]; [lia|].
      replace (i + m + l - r + (k - (i + m + l - r)))%nat with k in E by lia.
      rewrite E in Hx. eapply HP; [|exact Hx]. lia.
    + rewrite Ho in Hx by lia. eapply HP; [|exact Hx]. lia.
  - intros k Hk. apply Ho. lia.
Qed.

Lemma within_eq (P : A → Prop) lo hi arr arr' :
  (∀ i, (lo ≤ i < hi)%nat → arr' !! i = arr !! i) → within P lo hi arr → within P lo hi arr'.
Proof. intros E H i x Hi Hx. rewrite E in Hx by done. by eapply H. Qed.

Lemma within_snoc (P : A → Prop) lo hi arr x :
  within P lo hi arr → arr !! hi = Some x → P x → within P lo (S hi) arr.
Proof. intros H Hx HP i y Hi Hy. destruct (decide (i = hi)) as [->|]; [congruence|]. eapply H; [|done]. lia. Qed.

Lemma within_cons (P : A → Prop) lo hi arr x :
  within P (S lo) hi arr → arr !! lo = Some x → P x → within P lo hi arr.
Proof. intros H Hx HP i y Hi Hy. destruct (decide (i = lo)) as [->|]; [congruence|]. eapply H; [|done]. lia. Qed.
End perm.

(** ** Order *)

Section order.
Context {A : Type} (cmp : A → A → Z).
(** The comparison function is consistent. *)
Hypothesis cmp_anti : ∀ x y, 0 < cmp x y ↔ cmp y x < 0.
Hypothesis cmp_trans : ∀ x y z, cmp x y ≤ 0 → cmp y z ≤ 0 → cmp x z ≤ 0.
Implicit Types (arr : list A) (lo hi i j k : nat).

Definition sorted lo hi arr : Prop :=
  ∀ i j x y, (lo ≤ i)%nat → (i < j)%nat → (j < hi)%nat → arr !! i = Some x → arr !! j = Some y → cmp x y ≤ 0.

Lemma cmp_refl x : cmp x x = 0.
Proof using cmp_anti. pose proof (cmp_anti x x). lia. Qed.
Lemma cmp_sym0 x y : cmp x y = 0 → cmp y x = 0.
Proof using cmp_anti. pose proof (cmp_anti x y). pose proof (cmp_anti y x). lia. Qed.
Lemma cmp_ge x y : 0 ≤ cmp x y → cmp y x ≤ 0.
Proof using cmp_anti. pose proof (cmp_anti y x). lia. Qed.

(** The element [p] is being inserted in the sorted range up to [hi]. *)
Definition sifting lo p hi arr : Prop :=
  (∀ i j x y, (lo ≤ i)%nat → (i < j)%nat → (j < hi)%nat → i ≠ p → j ≠ p →
     arr !! i = Some x → arr !! j = Some y → cmp x y ≤ 0) ∧
  (∀ j x y, (p < j < hi)%nat → arr !! p = Some x → arr !! j = Some y → cmp x y ≤ 0).

Lemma sift_spec lo k : ∀ hi arr,
  (lo + k < hi)%nat → (hi ≤ length arr)%nat → sifting lo (lo + k) hi arr →
  ∃ arr', sift cmp lo k arr = Ok arr' ∧ local lo hi arr arr' ∧ sorted lo hi arr'.
Proof using cmp_anti cmp_trans.
  induction k as [|k IH]; intros hi arr Hk Hl [H1 H2]; cbn [sift].
  { exists arr. rewrite Nat.add_0_r in *. split; [done|]. split; [apply local_refl|].
    intros i j x y Hi Hij Hj Hx Hy. destruct (decide (i = lo)) as [->|]; [by eapply (H2 j)|].
    eapply (H1 i j); eauto; lia. }
  destruct (lookup_lt_is_Some_2 arr (lo + k)) as [x Hx]; [lia|].
  destruct (lookup_lt_is_Some_2 arr (lo + S k)) as [y Hy]; [lia|].
  rewrite (get_Ok _ _ _ Hx). cbn [mbind outcome_bind]. rewrite (get_Ok _ _ _ Hy). cbn [mbind outcome_bind].
  destruct (Z.ltb_spec 0 (cmp x y)) as [Hlt|Hge].
  - destruct (swap_spec (lo + S k) (lo + k) arr lo hi) as (arr1 & -> & Hloc & Ej & Ei & Eo); [lia..|].
    cbn [mbind outcome_bind]. pose proof (local_length _ _ _ _ Hloc).
    destruct (IH hi arr1) as (arr2 & -> & Hloc2 & Hs); [lia|lia| |by exists arr2; split_and!; [|by eapply local_trans|]].
    split.
    + intros i j u v Hi Hij Hj Hni Hnj Hu Hv.
      destruct (decide (i = lo + S k)%nat) as [->|Hi1]; [|rewrite Eo in Hu by done].
      * rewrite Ei in Hu. rewrite Eo in Hv by lia. eapply (H1 (lo + k)%nat j); eauto; lia.
      * destruct (decide (j = lo + S k)%nat) as [->|Hj1].
        -- rewrite Ei in Hv. eapply (H1 i (lo + k)%nat); eauto; lia.
        -- rewrite Eo in Hv by done. eapply (H1 i j); eauto; lia.
    + intros j u v Hj Hu Hv. rewrite Ej in Hu. destruct (decide (j = lo + S k)%nat) as [->|].
      * rewrite Ei in Hv. apply cmp_ge. simplify_eq. lia.
      * rewrite Eo in Hv by lia. eapply (H2 j); eauto; lia.
  - exists arr. split; [done|]. split; [apply local_refl|]. intros i j u v Hi Hij Hj Hu Hv.
    destruct (decide (i = lo + S k)%nat) as [->|Hi1]; [by eapply (H2 j)|].
    destruct (decide (j = lo + S k)%nat) as [->|Hj1]; [|eapply (H1 i j); eauto].
    assert (v = y) as -> by congruence. destruct (decide (i = lo + k)%nat) as [->|]; [by simplify_eq|].
    eapply cmp_trans; [|exact Hge]. eapply (H1 i (lo + k)%nat); eauto; lia.
Qed.

Lemma insertion_spec lo m : ∀ k arr,
  (lo + k + m ≤ length arr)%nat → sorted lo (lo + k) arr →
  ∃ arr', insertion cmp lo k m arr = Ok arr' ∧ local lo (lo + k + m) arr arr' ∧ sorted lo (lo + k + m) arr'.
Proof using cmp_anti cmp_trans.
  induction m as [|m IH]; intros k arr Hl Hs; cbn [insertion].
  { exists arr. rewrite Nat.add_0_r. split_and!; [done|apply local_refl|done]. }
  destruct (sift_spec lo k (lo + k + 1) arr) as (arr1 & -> & Hloc & Hs1); [lia|lia| |].
  { split; [|intros j; lia]. intros i j x y Hi Hij Hj Hni Hnj. apply Hs; lia. }
  cbn [mbind outcome_bind]. pose proof (local_length _ _ _ _ Hloc).
  destruct (IH (S k) arr1) as (arr2 & -> & Hloc2 & Hs2); [lia| |].
  { intros i j x y Hi Hij Hj. apply Hs1; lia. }
  replace (lo + k + S m)%nat with (lo + S k + m)%nat by lia. exists arr2. split; [done|]. split; [|done].
  eapply local_trans; [|done]. eapply local_weaken; [| |done]; lia.
Qed.

Lemma insertion_sort_spec lo n arr :
  (lo + n ≤ length arr)%nat →
  ∃ arr', insertion_sort cmp lo n arr = Ok arr' ∧ local lo (lo + n) arr arr' ∧ sorted lo (lo + n) arr'.
Proof using cmp_anti cmp_trans.
  intros Hl. unfold insertion_sort. destruct n as [|n].
  - exists arr. simpl. split; [done|]. split; [apply local_refl|]. intros i j x y; lia.
  - destruct (insertion_spec lo n 1 arr) as (arr' & E & Hloc & Hs); [lia|intros i j x y; lia|].
    replace (S n - 1)%nat with n by lia. replace (lo + S n)%nat with (lo + 1 + n)%nat by lia. eauto.
Qed.

(** *** The partition *)

Record pinv (a n : nat) (v : A) arr0 (p : part (A:=A)) : Prop := {
  pi_local : local a (a + n) arr0 (parr p);
  pi_v : parr p !! a = Some v;
  pi_ord : (a < pa p ∧ pa p ≤ pb p ∧ pb p ≤ S (pc p) ∧ pc p ≤ pd p ∧ pd p < a + n)%nat;
  pi_eq1 : within (λ x, cmp x v = 0) a (pa p) (parr p);
  pi_lt : within (λ x, cmp x v < 0) (pa p) (pb p) (parr p);
  pi_gt : within (λ x, 0 < cmp x v) (S (pc p)) (S (pd p)) (parr p);
  pi_eq2 : within (λ x, cmp x v = 0) (S (pd p)) (a + n) (parr p);
}.

Section partition.
Context (a n : nat) (v : A) (arr0 : list A).
Hypothesis Hlen : (a + n ≤ length arr0)%nat.
Local Abbreviation pinv := (pinv a n v arr0).

Lemma pinv_lookup p i : pinv p → (i < a + n)%nat → ∃ x, parr p !! i = Some x.
Proof using Hlen. intros [Hl _ _ _ _ _ _] Hi. apply local_length in Hl. apply lookup_lt_is_Some_2. lia. Qed.

Lemma pinv_eq_up p x :
  pinv p → (pb p ≤ pc p)%nat → parr p !! pb p = Some x → cmp x v = 0 →
  ∃ arr, swap (pa p) (pb p) (parr p) = Ok arr ∧
    pinv {| parr := arr; pa := S (pa p); pb := S (pb p); pc := pc p; pd := pd p; swap_cnt := true |}.
Proof using Hlen.
  intros [Hl Hv Ho H1 H2 H3 H4] Hle Hx Hc. pose proof (local_length _ _ _ _ Hl) as Hn.
  destruct (swap_spec (pa p) (pb p) (parr p) a (a + n)) as (arr & -> & Hloc & Ej & Ei & Eo); [lia..|].
  exists arr. split; [done|]. split; cbn [parr pa pb pc pd]; [by eapply local_trans|by rewrite Eo by lia|lia|..].
  - apply within_snoc with x; [|congruence|done]. eapply within_eq; [|done]. intros i Hi. apply Eo; lia.
  - intros i y Hi Hy. destruct (decide (i = pb p)) as [->|].
    + rewrite Ej in Hy. destruct (decide (pa p = pb p)); [lia|]. eapply H2; [|done]. lia.
    + rewrite Eo in Hy by lia. eapply H2; [|done]. lia.
  - eapply within_eq; [|done]. intros i Hi. apply Eo; lia.
  - eapply within_eq; [|done]. intros i Hi. apply Eo; lia.
Qed.

Lemma pinv_eq_down p x :
  pinv p → (pb p ≤ pc p)%nat → parr p !! pc p = Some x → cmp x v = 0 →
  ∃ arr, swap (pc p) (pd p) (parr p) = Ok arr ∧ (∀ i, (i < pc p)%nat → arr !! i = parr p !! i) ∧
    pinv {| parr := arr; pa := pa p; pb := pb p; pc := pc p - 1; pd := pd p - 1; swap_cnt := true |}.
Proof using Hlen.
  intros [Hl Hv Ho H1 H2 H3 H4] Hle Hx Hc. pose proof (local_length _ _ _ _ Hl) as Hn.
  destruct (swap_spec (pc p) (pd p) (parr p) a (a + n)) as (arr & -> & Hloc & Ej & Ei & Eo); [lia..|].
  exists arr. split; [done|]. split; [intros i Hi; apply Eo; lia|].
  split; cbn [parr pa pb pc pd]; [by eapply local_trans|by rewrite Eo by lia|lia|..].
  - eapply within_eq; [|done]. intros i Hi. apply Eo; lia.
  - eapply within_eq; [|done]. intros i Hi. apply Eo; lia.
  - intros i y Hi Hy. destruct (decide (i = pc p)) as [->|].
    + rewrite Ei in Hy. eapply H3; [|done]. lia.
    + rewrite Eo in Hy by lia. eapply H3; [|done]. lia.
  - replace (S (pd p - 1)) with (pd p) by lia. apply within_cons with x; [|congruence|done].
    eapply within_eq; [|done]. intros i Hi. apply Eo; lia.
Qed.

Lemma up_loop_spec fuel : ∀ p,
  pinv p → (pc p + 1 - pb p < fuel)%nat →
  ∃ p', up_loop cmp fuel a p = Ok p' ∧ pinv p' ∧ (pb p ≤ pb p')%nat ∧ pc p' = pc p ∧
    ((pb p' ≤ pc p')%nat → ∃ x, parr p' !! pb p' = Some x ∧ 0 < cmp x v).
Proof using Hlen.
  induction fuel as [|fuel IH]; intros p Hp Hf; [lia|]. cbn [up_loop].
  destruct (Nat.leb_spec (pb p) (pc p)) as [Hle|]; [|by exists p; split_and!; [| |lia| |lia]].
  pose proof (pi_ord _ _ _ _ _ Hp) as Ho.
  destruct (pinv_lookup p (pb p) Hp) as [x Hx]; [lia|]. rewrite (get_Ok _ _ _ Hx). cbn [mbind outcome_bind].
  rewrite (get_Ok _ _ _ (pi_v _ _ _ _ _ Hp)). cbn [mbind outcome_bind].
  destruct (Z.leb_spec (cmp x v) 0) as [Hc|Hc]; [|by exists p; split_and!; eauto].
  destruct (Z.eqb_spec (cmp x v) 0) as [He|Hne].
  - destruct (pinv_eq_up p x Hp Hle Hx He) as (arr & -> & Hp1). cbn [mbind outcome_bind].
    edestruct (IH _ Hp1) as (p' & -> & Hp' & Hb & Hcc & Hg); cbn [pb pc] in *; [lia|].
    exists p'. split_and!; [done|done|lia|done|done].
  - edestruct (IH {| parr := parr p; pa := pa p; pb := S (pb p); pc := pc p; pd := pd p; swap_cnt := swap_cnt p |})
      as (p' & -> & Hp' & Hb & Hcc & Hg); cbn [pb pc] in *; [|lia|exists p'; split_and!; [done|done|lia|done|done]].
    destruct Hp as [Hl Hv _ H1 H2 H3 H4]. split; cbn [parr pa pb pc pd]; [done|done|lia|done| |done|done].
    apply within_snoc with x; [done|done|lia].
Qed.

Lemma down_loop_spec fuel : ∀ p,
  pinv p → (pc p + 1 - pb p < fuel)%nat →
  ∃ p', down_loop cmp fuel a p = Ok p' ∧ pinv p' ∧ pb p' = pb p ∧ (pc p' ≤ pc p)%nat ∧
    (∀ i, (i ≤ pc p')%nat → parr p' !! i = parr p !! i) ∧
    ((pb p' ≤ pc p')%nat → ∃ x, parr p' !! pc p' = Some x ∧ cmp x v < 0).
Proof using Hlen.
  induction fuel as [|fuel IH]; intros p Hp Hf; [lia|]. cbn [down_loop].
  destruct (Nat.leb_spec (pb p) (pc p)) as [Hle|]; [|by exists p; split_and!; [| | |lia| |lia]].
  pose proof (pi_ord _ _ _ _ _ Hp) as Ho.
  destruct (pinv_lookup p (pc p) Hp) as [x Hx]; [lia|]. rewrite (get_Ok _ _ _ Hx). cbn [mbind outcome_bind].
  rewrite (get_Ok _ _ _ (pi_v _ _ _ _ _ Hp)). cbn [mbind outcome_bind].
  destruct (Z.leb_spec 0 (cmp x v)) as [Hc|Hc]; [|by exists p; split_and!; eauto].
  destruct (Z.eqb_spec (cmp x v) 0) as [He|Hne].
  - destruct (pinv_eq_down p x Hp Hle Hx He) as (arr & -> & Hlow & Hp1). cbn [mbind outcome_bind].
    edestruct (IH _ Hp1) as (p' & -> & Hp' & Hb & Hcc & Heq & Hg); cbn [parr pb pc] in *; [lia|].
    exists p'. split_and!; [done|done|done|lia| |done]. intros i Hi. rewrite Heq by lia. apply Hlow. lia.
  - edestruct (IH {| parr := parr p; pa := pa p; pb := pb p; pc := pc p - 1; pd := pd p; swap_cnt := swap_cnt p |})
      as (p' & -> & Hp' & Hb & Hcc & Heq & Hg); cbn [parr pb pc] in *;
      [|lia|exists p'; split_and!; [done|done|done|lia|intros i Hi; apply Heq; lia|done]].
    destruct Hp as [Hl Hv _ H1 H2 H3 H4]. split; cbn [parr pa pb pc pd]; [done|done|lia|done|done| |done].
    replace (S (pc p - 1)) with (pc p) by lia. apply within_cons with x; [done|done|lia].
Qed.

(** The exchange of an element greater than the pivot with a smaller one. *)
Lemma pinv_exchange p x y :
  pinv p → (pb p ≤ pc p)%nat → parr p !! pb p = Some x → 0 < cmp x v → parr p !! pc p = Some y → cmp y v < 0 →
  ∃ arr, swap (pb p) (pc p) (parr p) = Ok arr ∧
    pinv {| parr := arr; pa := pa p; pb := S (pb p); pc := pc p - 1; pd := pd p; swap_cnt := true |}.
Proof using Hlen.
  intros [Hl Hv Ho H1 H2 H3 H4] Hle Hx Hcx Hy Hcy. pose proof (local_length _ _ _ _ Hl) as Hn.
  assert (pb p ≠ pc p) as Hne by (intros E; rewrite E in Hx; simplify_eq; lia).
  destruct (swap_spec (pb p) (pc p) (parr p) a (a + n)) as (arr & -> & Hloc & Ej & Ei & Eo); [lia..|].
  exists arr. split; [done|]. split; cbn [parr pa pb pc pd]; [by eapply local_trans|by rewrite Eo by lia|lia|..].
  - eapply within_eq; [|done]. intros i Hi. apply Eo; lia.
  - apply within_snoc with y; [|congruence|done]. eapply within_eq; [|done]. intros i Hi. apply Eo; lia.
  - replace (S (pc p - 1)) with (pc p) by lia. apply within_cons with x; [|congruence|done].
    eapply within_eq; [|done]. intros i Hi. apply Eo; lia.
  - eapply within_eq; [|done]. intros i Hi. apply Eo; lia.
Qed.

Lemma part_loop_spec fuel : ∀ p,
  pinv p → (pc p + 1 - pb p < fuel)%nat →
  ∃ p', part_loop cmp fuel a n p = Ok p' ∧ pinv p' ∧ pb p' = S (pc p').
Proof using Hlen.
  induction fuel as [|fuel IH]; intros p Hp Hf; [lia|]. cbn [part_loop].
  pose proof (pi_ord _ _ _ _ _ Hp) as Ho.
  destruct (up_loop_spec (S n) p Hp) as (p1 & -> & Hp1 & Hb1 & Hc1 & Hg1); [lia|]. cbn [mbind outcome_bind].
  pose proof (pi_ord _ _ _ _ _ Hp1) as Ho1.
  destruct (down_loop_spec (S n) p1 Hp1) as (p2 & -> & Hp2 & Hb2 & Hc2 & Heq & Hg2); [lia|].
  cbn [mbind outcome_bind]. pose proof (pi_ord _ _ _ _ _ Hp2) as Ho2.
  destruct (Nat.ltb_spec (pc p2) (pb p2)) as [Hlt|Hge]; [exists p2; split_and!; [done|done|lia]|].
  destruct Hg1 as (x & Hx & Hcx); [lia|]. destruct Hg2 as (y & Hy & Hcy); [lia|].
  destruct (pinv_exchange p2 x y) as (arr & -> & Hp3); [done|done| |done..|].
  { rewrite Hb2. rewrite Heq by lia. done. }
  cbn [mbind outcome_bind]. apply (IH _ Hp3). cbn [pb pc]. lia.
Qed.
End partition.

(** *** The pivot *)

Lemma med3_spec arr i j k lo hi :
  (lo ≤ i < hi)%nat → (lo ≤ j < hi)%nat → (lo ≤ k < hi)%nat → (hi ≤ length arr)%nat →
  ∃ m, med3 cmp arr i j k = Ok m ∧ (lo ≤ m < hi)%nat.
Proof.
  intros Hi Hj Hk Hl. unfold med3.
  destruct (lookup_lt_is_Some_2 arr i) as [x Hx]; [lia|]. destruct (lookup_lt_is_Some_2 arr j) as [y Hy]; [lia|].
  destruct (lookup_lt_is_Some_2 arr k) as [z Hz]; [lia|].
  rewrite (get_Ok _ _ _ Hx), (get_Ok _ _ _ Hy), (get_Ok _ _ _ Hz). cbn [mbind outcome_bind].
  eexists. split; [done|]. repeat case_match; done.
Qed.

Lemma pivot_spec a n arr :
  (7 ≤ n)%nat → (a + n ≤ length arr)%nat → ∃ m, pivot cmp a n arr = Ok m ∧ (a ≤ m < a + n)%nat.
Proof.
  intros Hn Hl. unfold pivot. assert (n / 2 < n)%nat by (apply Nat.div_lt; lia).
  destruct (Nat.ltb_spec 7 n) as [H7|]; [|eexists; split; [done|lia]].
  destruct (Nat.ltb_spec 40 n) as [H40|]; cbn [mbind outcome_bind].
  2:{ apply med3_spec; lia. }
  assert (n / 8 * 8 ≤ n)%nat as H8 by (rewrite Nat.mul_comm; apply Nat.Div0.mul_div_le).
  assert (n / 8 ≤ n / 2)%nat as Hd by (apply Nat.div_le_compat_l; lia).
  assert (n / 2 * 2 ≤ n)%nat as H2 by (rewrite Nat.mul_comm; apply Nat.Div0.mul_div_le).
  destruct (med3_spec arr a (a + n / 8) (a + 2 * (n / 8)) a (a + n)) as (pl & -> & Hpl); [lia..|].
  cbn [mbind outcome_bind].
  destruct (med3_spec arr (a + n / 2 - n / 8) (a + n / 2) (a + n / 2 + n / 8) a (a + n)) as (pm & -> & Hpm); [lia..|].
  cbn [mbind outcome_bind].
  destruct (med3_spec arr (a + (n - 1) - 2 * (n / 8)) (a + (n - 1) - n / 8) (a + (n - 1)) a (a + n))
    as (pn & -> & Hpn); [lia..|].
  cbn [mbind outcome_bind]. apply med3_spec; lia.
Qed.

(** *** The sort *)

Lemma sorted_local lo hi lo' hi' arr arr' :
  local lo' hi' arr arr' → (hi ≤ lo' ∨ hi' ≤ lo)%nat → sorted lo hi arr → sorted lo hi arr'.
Proof. intros [_ E] Hd Hs i j x y Hi Hij Hj Hx Hy. rewrite E in Hx, Hy by lia. by eapply (Hs i j). Qed.

(** A smaller part, a part equal to [v] and a greater part, the outer ones
    sorted. *)
Lemma sorted_three lo m1 m2 hi v arr :
  sorted lo m1 arr → sorted m2 hi arr →
  within (λ x, cmp x v < 0) lo m1 arr → within (λ x, cmp x v = 0) m1 m2 arr → within (λ x, 0 < cmp x v) m2 hi arr →
  sorted lo hi arr.
Proof using cmp_anti cmp_trans.
  intros S1 S2 H1 H2 H3 i j x y Hi Hij Hj Hx Hy.
  destruct (decide (j < m1)%nat); [by eapply (S1 i j)|].
  destruct (decide (m2 ≤ i)%nat); [by eapply (S2 i j)|].
  apply cmp_trans with v.
  - destruct (decide (i < m1)%nat); [apply Z.lt_le_incl; eapply H1; [|exact Hx]; lia|].
    apply Z.eq_le_incl. eapply H2; [|exact Hx]. lia.
  - apply cmp_ge. destruct (decide (j < m2)%nat); [apply Z.eq_le_incl; symmetry; eapply H2; [|exact Hy]; lia|].
    apply Z.lt_le_incl. eapply H3; [|exact Hy]. lia.
Qed.

(** The two exchanges put the three parts in order. *)
Lemma regroup_spec a n v arr0 p :
  (a + n ≤ length arr0)%nat → pinv a n v arr0 p → pb p = S (pc p) →
  ∃ arr1 arr2, vecswap a (pb p - (pa p - a) `min` (pb p - pa p)) ((pa p - a) `min` (pb p - pa p)) (parr p) = Ok arr1 ∧
    vecswap (pb p) (a + n - (pd p - pc p) `min` (a + n - pd p - 1)) ((pd p - pc p) `min` (a + n - pd p - 1)) arr1 = Ok arr2 ∧
    local a (a + n) arr0 arr2 ∧
    within (λ x, cmp x v < 0) a (a + (pb p - pa p)) arr2 ∧
    within (λ x, cmp x v = 0) (a + (pb p - pa p)) (a + n - (pd p - pc p)) arr2 ∧
    within (λ x, 0 < cmp x v) (a + n - (pd p - pc p)) (a + n) arr2.
Proof.
  intros Hl [Hloc Hv Ho H1 H2 H3 H4] Hb. pose proof (local_length _ _ _ _ Hloc) as Hn.
  destruct (vecswap_regions (λ x, cmp x v = 0) (λ x, cmp x v < 0) a (pa p - a) (pb p - pa p) (parr p) a (a + n))
    as (arr1 & E1 & Hl1 & R1 & R2 & O1); [lia|lia|lia| | |].
  { replace (a + (pa p - a))%nat with (pa p) by lia. done. }
  { replace (a + (pa p - a) + (pb p - pa p))%nat with (pb p) by lia. replace (a + (pa p - a))%nat with (pa p) by lia. done. }
  replace (a + (pa p - a) + (pb p - pa p))%nat with (pb p) in * by lia.
  pose proof (local_length _ _ _ _ Hl1) as Hn1.
  destruct (vecswap_regions (λ x, 0 < cmp x v) (λ x, cmp x v = 0) (pb p) (pd p - pc p) (a + n - pd p - 1) arr1 a (a + n))
    as (arr2 & E2 & Hl2 & R3 & R4 & O2); [lia|lia|lia| | |].
  { eapply within_eq; [|replace (pb p + (pd p - pc p))%nat with (S (pd p)) by lia; rewrite Hb; exact H3]. intros i Hi. apply O1. lia. }
  { replace (pb p + (pd p - pc p))%nat with (S (pd p)) by lia.
    replace (S (pd p) + (a + n - pd p - 1))%nat with (a + n)%nat by lia.
    eapply within_eq; [|exact H4]. intros i Hi. apply O1. lia. }
  replace (pb p + (pd p - pc p) + (a + n - pd p - 1))%nat with (a + n)%nat in * by lia.
  exists arr1, arr2. split; [done|]. split; [done|]. split; [eapply local_trans; [done|by eapply local_trans]|].
  replace (a + n - (pd p - pc p))%nat with (pb p + (a + n - pd p - 1))%nat by lia. split_and!; [| |done].
  - eapply within_eq; [|exact R1]. intros i Hi. apply O2. lia.
  - intros i x Hi Hx. destruct (decide (i < pb p)%nat); [|eapply R3; [|done]; lia].
    rewrite O2 in Hx by lia. eapply R2; [|done]. lia.
Qed.

(** The body of the sort, once it is known on shorter ranges. *)
Section body.
Context (fuel : nat).
Hypothesis IH : ∀ a n arr, (n < fuel)%nat → (a + n ≤ length arr)%nat →
  ∃ arr', qsort cmp fuel a n arr = Ok arr' ∧ local a (a + n) arr arr' ∧ sorted a (a + n) arr'.

Lemma subsort_spec a r arr :
  (r < fuel)%nat → (a + r ≤ length arr)%nat →
  ∃ arr', (if (1 <? r)%nat then qsort cmp fuel a r arr else Ok arr) = Ok arr' ∧
    local a (a + r) arr arr' ∧ sorted a (a + r) arr'.
Proof using IH.
  intros Hr Hl. destruct (Nat.ltb_spec 1 r); [by apply IH|].
  exists arr. split; [done|]. split; [apply local_refl|]. intros i j x y; lia.
Qed.

Lemma subsorts_spec a n l g v arr :
  (l + g < n)%nat → (n ≤ fuel)%nat → (a + n ≤ length arr)%nat →
  within (λ x, cmp x v < 0) a (a + l) arr → within (λ x, cmp x v = 0) (a + l) (a + n - g) arr →
  within (λ x, 0 < cmp x v) (a + n - g) (a + n) arr →
  ∃ arr1 arr2, (if (1 <? l)%nat then qsort cmp fuel a l arr else Ok arr) = Ok arr1 ∧
    (if (1 <? g)%nat then qsort cmp fuel (a + n - g) g arr1 else Ok arr1) = Ok arr2 ∧
    local a (a + n) arr arr2 ∧ sorted a (a + n) arr2.
Proof using IH cmp_anti cmp_trans.
  intros Hlg Hf Hl H1 H2 H3.
  destruct (subsort_spec a l arr) as (arr1 & E1 & L1 & S1); [lia..|]. pose proof (local_length _ _ _ _ L1) as N1.
  destruct (subsort_spec (a + n - g) g arr1) as (arr2 & E2 & L2 & S2); [lia..|].
  replace (a + n - g + g)%nat with (a + n)%nat in * by lia.
  exists arr1, arr2. split; [done|]. split; [done|].
  split; [apply local_trans with arr1;
    [apply (local_weaken a (a + l)); [lia..|done]|apply (local_weaken (a + n - g) (a + n)); [lia..|done]]|].
  apply (sorted_three a (a + l) (a + n - g) (a + n) v).
  - eapply sorted_local; [exact L2|lia|done].
  - done.
  - eapply within_eq; [|eapply local_forall; [exact L1|exact H1]]. intros i Hi. apply L2. lia.
  - eapply within_eq; [|exact H2]. intros i Hi. destruct L1 as [_ O1], L2 as [_ O2]. rewrite O2, O1 by lia. done.
  - eapply local_forall; [exact L2|]. eapply within_eq; [|exact H3]. intros i Hi. apply L1. lia.
Qed.
End body.

Lemma qsort_spec fuel : ∀ a n arr,
  (n < fuel)%nat → (a + n ≤ length arr)%nat →
  ∃ arr', qsort cmp fuel a n arr = Ok arr' ∧ local a (a + n) arr arr' ∧ sorted a (a + n) arr'.
Proof using cmp_anti cmp_trans.
  induction fuel as [|fuel IH]; intros a n arr Hf Hl; [lia|]. cbn [qsort].
  destruct (Nat.ltb_spec n 7) as [|Hn]; [by apply insertion_sort_spec|].
  destruct (pivot_spec a n arr) as (pm & -> & Hpm); [done|done|]. cbn [mbind outcome_bind].
  destruct (swap_spec a pm arr a (a + n)) as (arr1 & -> & L1 & Epm & Ea & _); [lia..|]. cbn [mbind outcome_bind].
  pose proof (local_length _ _ _ _ L1) as N1. destruct (lookup_lt_is_Some_2 arr1 a) as [v Hv]; [lia|].
  destruct (part_loop_spec a n v arr1 ltac:(lia) (S n)
    {| parr := arr1; pa := S a; pb := S a; pc := a + (n - 1); pd := a + (n - 1); swap_cnt := false |})
    as (p & -> & Hp & Hb).
  { split; cbn [parr pa pb pc pd]; [apply local_refl|done|lia|..]; intros i x Hi Hx; try lia.
    assert (i = a) as -> by lia. simplify_eq. by apply cmp_refl. }
  { cbn [pb pc]. lia. }
  cbn [mbind outcome_bind]. pose proof (pi_local _ _ _ _ _ Hp) as Lp. pose proof (local_length _ _ _ _ Lp) as Np.
  destruct (negb (swap_cnt p)).
  { destruct (insertion_sort_spec a n (parr p)) as (arr' & -> & L & S); [lia|].
    exists arr'. split; [done|]. split; [|done]. by repeat (eapply local_trans; [eassumption|]); apply local_refl. }
  destruct (regroup_spec a n v arr1 p) as (arr2 & arr3 & -> & E3 & L3 & R1 & R2 & R3); [lia|done|done|].
  cbn [mbind outcome_bind]. rewrite E3. cbn [mbind outcome_bind].
  pose proof (local_length _ _ _ _ L3) as N3. pose proof (pi_ord _ _ _ _ _ Hp) as Ho.
  destruct (subsorts_spec fuel IH a n (pb p - pa p) (pd p - pc p) v arr3)
    as (arr4 & arr5 & -> & E5 & L5 & S5); [lia..|done|done|done|].
  cbn [mbind outcome_bind]. exists arr5. split; [done|]. split; [|done]. eapply local_trans; [done|by eapply local_trans].
Qed.

(** C21. [qsort] with a consistent comparison function terminates and sorts the
    whole array: the result is a permutation of the array in which no element
    compares greater than a later one; no access is out of the array.  A
    recursion depth of the number of elements is enough. *)
Theorem qsort_sorts arr :
  ∃ arr', qsort cmp (S (length arr)) 0 (length arr) arr = Ok arr' ∧ arr ≡ₚ arr' ∧ StronglySorted (λ x y, cmp x y ≤ 0) arr'.
Proof using cmp_anti cmp_trans.
  destruct (qsort_spec (S (length arr)) 0 (length arr) arr) as (arr' & E & L & S); [lia..|].
  exists arr'. pose proof (local_length _ _ _ _ L) as N. split; [done|]. split; [by destruct L|].
  clear E L. assert (∀ i j x y, (i < j)%nat → arr' !! i = Some x → arr' !! j = Some y → cmp x y ≤ 0) as HS.
  { intros i j x y Hij Hx Hy. apply (S i j); [lia|done| |done|done]. apply lookup_lt_Some in Hy. lia. }
  clear N S. induction arr' as [|x arr' IHl]; constructor.
  - apply IHl. intros i j u w Hij Hu Hw. apply (HS (Datatypes.S i) (Datatypes.S j)); [lia|done|done].
  - apply Forall_lookup. intros j y Hy. apply (HS 0%nat (Datatypes.S j)); [lia|done|done].
Qed.
End order.

(** ** Binary search *)

Section search.
Context {A : Type} (compar : A → Z) (arr : list A).
(** The elements that compare below the key come first, then the matches, then
    the ones above it. *)
Hypothesis before : ∀ i j x y, (i < j)%nat → arr !! i = Some x → arr !! j = Some y → 0 < compar y → 0 < compar x.
Hypothesis after : ∀ i j x y, (i < j)%nat → arr !! i = Some x → arr !! j = Some y → compar x < 0 → compar y < 0.

Lemma bsearch_loop_spec fuel : ∀ min max,
  (max - min < fuel)%nat → (min ≤ max ≤ length arr)%nat →
  (∀ i x, (i < min)%nat → arr !! i = Some x → 0 < compar x) →
  (∀ i x, (max ≤ i)%nat → arr !! i = Some x → compar x < 0) →
  ∃ r, bsearch_loop compar fuel arr min ((max + min) / 2) max = Ok r ∧
    match r with
    | Some i => ∃ x, arr !! i = Some x ∧ compar x = 0
    | None => ∀ i x, arr !! i = Some x → compar x ≠ 0
    end.
Proof using before after.
  induction fuel as [|fuel IH]; intros min max Hf Hm Hlo Hhi; [lia|]. cbn [bsearch_loop].
  set (cur := ((max + min) / 2)%nat).
  assert (2 * cur ≤ max + min < 2 * cur + 2)%nat as Hc by (pose proof (Nat.div_mod_eq (max + min) 2);
    pose proof (Nat.mod_upper_bound (max + min) 2); unfold cur; lia).
  assert (min = max → ∀ i x, arr !! i = Some x → compar x ≠ 0) as Hempty.
  { intros Hmm i x Hx. destruct (decide (i < min)%nat) as [Hi|Hi]; [pose proof (Hlo _ _ Hi Hx)|pose proof (Hhi i x ltac:(lia) Hx)]; lia. }
  destruct (Nat.ltb_spec cur max) as [Hlt|Hge]; [|exists None; split; [done|apply Hempty; lia]].
  destruct (lookup_lt_is_Some_2 arr cur) as [x Hx]; [lia|]. rewrite (get_Ok _ _ _ Hx). cbn [mbind outcome_bind].
  destruct (Z.eqb_spec (compar x) 0) as [He|Hne]; [by exists (Some cur); eauto|].
  destruct (Z.leb_spec (compar x) 0) as [Hle|Hgt].
  - assert (∀ i y, (cur ≤ i)%nat → arr !! i = Some y → compar y < 0) as Hhi'.
    { intros i y Hi Hy. destruct (decide (i = cur)) as [->|]; [simplify_eq; lia|]. apply (after cur i x y); [lia|done|done|lia]. }
    destruct (Nat.eqb_spec cur ((cur + min) / 2)) as [Hb|Hb]; [|apply IH; [lia|lia|done|done]].
    exists None. split; [done|]. intros i y Hy. pose proof (Nat.div_mod_eq (cur + min) 2).
    pose proof (Nat.mod_upper_bound (cur + min) 2). destruct (decide (i < min)%nat) as [Hi|]; [pose proof (Hlo _ _ Hi Hy); lia|].
    pose proof (Hhi' i y ltac:(lia) Hy). lia.
  - pose proof (Nat.div_mod_eq (max + S cur) 2). pose proof (Nat.mod_upper_bound (max + S cur) 2).
    destruct (Nat.eqb_spec cur ((max + S cur) / 2)) as [Hb|Hb]; [lia|]. apply IH; [lia|lia| |done].
    intros i y Hi Hy. destruct (decide (i = cur)) as [->|]; [simplify_eq; lia|]. apply (before i cur y x); [lia|done|done|lia].
Qed.

(** [bsearch] on an array ordered with respect to the key ends without an
    access out of the array, returns an element equal to the key when there is
    one, and NULL when there is none. *)
Theorem bsearch_finds :
  ∃ r, bsearch compar arr = Ok r ∧
    match r with
    | Some i => ∃ x, arr !! i = Some x ∧ compar x = 0
    | None => ∀ i x, arr !! i = Some x → compar x ≠ 0
    end.
Proof using before after.
  apply bsearch_loop_spec; [lia|lia|intros i x; lia|]. intros i x Hi Hx. apply lookup_lt_Some in Hx. lia.
Qed.
End search.

(** ** Witnesses *)

Definition demo_array : list Z := [5; 3; 9; 1; 7; 3; 8; 2; 6; 3; 0; 4].

Lemma qsort_sorts_witness :
  ∃ arr', qsort Z.sub (S (length demo_array)) 0 (length demo_array) demo_array = Ok arr' ∧ demo_array ≡ₚ arr' ∧
    StronglySorted (λ x y, x - y ≤ 0) arr'.
Proof. refine (qsort_sorts Z.sub _ _ demo_array); intros; lia. Defined.

Definition demo_sorted : list Z := [1; 3; 6; 6; 8].

Lemma demo_sorted_mono i j x y : (i < j)%nat → demo_sorted !! i = Some x → demo_sorted !! j = Some y → x ≤ y.
Proof.
  intros Hij Hx Hy. pose proof (lookup_lt_Some _ _ _ Hy) as Hj. simpl in Hj.
  do 5 (destruct i as [|i]; [do 5 (destruct j as [|j]; [injection Hx; injection Hy; lia|]); simpl in Hj; lia|]). simpl in Hj. lia.
Qed.

Lemma bsearch_finds_witness :
  ∃ r, bsearch (Z.sub 6) demo_sorted = Ok r ∧
    match r with
    | Some i => ∃ x, demo_sorted !! i = Some x ∧ 6 - x = 0
    | None => ∀ i x, demo_sorted !! i = Some x → 6 - x ≠ 0
    end.
Proof.
  refine (bsearch_finds (Z.sub 6) demo_sorted _ _); intros i j x y Hij Hx Hy;
    pose proof (demo_sorted_mono i j x y Hij Hx Hy); lia.
Defined.
End Qsort.
