(* ===== verification/GompIter.v ===== *)
(** * OpenMP loop scheduling (libgomp/iter.c, libgomp/loop.c)

    How the iterations of a parallel loop are shared between the threads of a
    team: the static schedules, and the dynamic and guided ones, under the lock
    of the work share or with the atomic operations of the processor.  The
    integers are kept at the width of a pointer; a signed overflow is undefined
    and reported as such. *)

From S2P Require Import Prelude.

Module GompIter.

Inductive gomp_schedule_type := GFS_RUNTIME | GFS_STATIC | GFS_DYNAMIC | GFS_GUIDED | GFS_AUTO.
#[export] Instance gomp_schedule_type_eq_dec : EqDecision gomp_schedule_type.
Proof. solve_decision. Defined.

Record gomp_work_share := {
  sched : gomp_schedule_type; mode : bool; chunk_size : Z; end_ : Z; incr : Z; next : Z }.

Definition set_next (x : Z) (ws : gomp_work_share) : gomp_work_share :=
  {| sched := sched ws; mode := mode ws; chunk_size := chunk_size ws; end_ := end_ ws; incr := incr ws; next := x |}.

Section ops.
(** The width of [omp_long_t] and of [long]. *)
Context (W : Z).
Implicit Types (ws : gomp_work_share).

Local Abbreviation schk := (Prelude.schk W).
Definition sdiv (a b : Z) : outcome Z := if b =? 0 then Err FUndef else schk (Z.quot a b).
Definition LONG_MAX : Z := 2 ^ (W - 1) - 1.

(** [gcc_sync] is the option CONFIG_OPENMP_GCC_SYNC. *)
Definition gomp_loop_init (gcc_sync : bool) (nthreads start end0 incr0 : Z) (sched0 : gomp_schedule_type) (chunk_size0 : Z)
    (mode0 : bool) : outcome gomp_work_share :=
  let end1 := if ((0 <? incr0) && (end0 <? start)) || ((incr0 <? 0) && (start <? end0)) then start else end0 in
  match sched0 with
  | GFS_DYNAMIC =>
      c ← schk (chunk_size0 * incr0);
      m ← (if gcc_sync then
             if 0 <? incr0 then
               if 2 ^ (W / 2 - 1) <=? wrapu W (Z.lor nthreads c) then Ok false
               else p ← schk ((nthreads + 1) * c); l ← schk (LONG_MAX - p); Ok (end1 <? l)
             else
               nc ← schk (- c);
               if 2 ^ (W / 2 - 1) <=? wrapu W (Z.lor nthreads nc) then Ok false
               else p ← schk ((nthreads + 1) * nc); l ← schk (p - LONG_MAX); Ok (l <? end1)
           else Ok mode0);
      Ok {| sched := sched0; mode := m; chunk_size := c; end_ := end1; incr := incr0; next := start |}
  | _ => Ok {| sched := sched0; mode := mode0; chunk_size := chunk_size0; end_ := end1; incr := incr0; next := start |}
  end.

(** ** Static schedules *)

(** [s = ws->incr + (ws->incr > 0 ? -1 : 1); n = (ws->end - ws->next + s) / ws->incr;] *)
Definition static_count ws : outcome Z :=
  s ← schk (incr ws + (if 0 <? incr ws then -1 else 1));
  d ← schk (end_ ws - next ws);
  d ← schk (d + s);
  n ← sdiv d (incr ws);
  Ok (wrapu W n).
(** [(omp_long_t)s0 * ws->incr + ws->next] *)
Definition static_bound ws (s0 : Z) : outcome Z := p ← schk (wraps W s0 * incr ws); schk (p + next ws).

(** The result, the block if one was stored, and the new [static_trip]. *)
Definition gomp_iter_static_next ws (nthreads team_id static_trip : Z) : outcome (Z * option (Z * Z) * Z) :=
  if static_trip =? wrapu W (-1) then Ok (-1, None, static_trip)
  else if nthreads =? 1 then
    Ok (if next ws =? end_ ws then 1 else 0, Some (next ws, end_ ws), wrapu W (-1))
  else if chunk_size ws =? 0 then
    if 0 <? static_trip then Ok (1, None, static_trip)
    else
      n ← static_count ws;
      let i := team_id in
      let q := n / nthreads in
      let q := wrapu W (q + (if wrapu W (q * nthreads) =? n then 0 else 1)) in
      let s0 := wrapu W (q * i) in
      let e0 := wrapu W (s0 + q) in
      let e0 := if n <? e0 then n else e0 in
      if e0 <=? s0 then Ok (1, None, 1)
      else
        s ← static_bound ws s0;
        e ← static_bound ws e0;
        Ok (0, Some (s, e), if e0 =? n then wrapu W (-1) else 1)
  else
    n ← static_count ws;
    let i := team_id in
    let c := wrapu W (chunk_size ws) in
    let s0 := wrapu W (wrapu W (wrapu W (static_trip * nthreads) + i) * c) in
    let e0 := wrapu W (s0 + c) in
    if n <=? s0 then Ok (1, None, static_trip)
    else
      let e0 := if n <? e0 then n else e0 in
      s ← static_bound ws s0;
      e ← static_bound ws e0;
      Ok (0, Some (s, e), if e0 =? n then wrapu W (-1) else wrapu W (static_trip + 1)).

(** ** Dynamic and guided schedules *)

(** The end of the chunk that starts at [start], for a chunk of [chunk]
    already scaled by the increment, and the chunk that is left. *)
Definition dynamic_chunk (e0 incr0 start chunk : Z) : outcome (Z * Z) :=
  left ← schk (e0 - start);
  let chunk := if incr0 <? 0 then (if chunk <? left then left else chunk)
               else (if left <? chunk then left else chunk) in
  nend ← schk (start + chunk);
  Ok (nend, chunk).

Definition gomp_iter_dynamic_next_locked ws : outcome (option (Z * Z) * gomp_work_share) :=
  let start := next ws in
  if start =? end_ ws then Ok (None, ws)
  else
    '(nend, _) ← dynamic_chunk (end_ ws) (incr ws) start (chunk_size ws);
    Ok (Some (start, nend), set_next nend ws).

(** The first branch of [gomp_iter_dynamic_next], on [__sync_fetch_and_add]. *)
Definition dynamic_next_add ws : outcome (option (Z * Z) * gomp_work_share) :=
  let tmp := next ws in
  let ws := set_next (wraps W (tmp + chunk_size ws)) ws in
  if 0 <? incr ws then
    if end_ ws <=? tmp then Ok (None, ws)
    else
      nend ← schk (tmp + chunk_size ws);
      Ok (Some (tmp, if end_ ws <? nend then end_ ws else nend), ws)
  else
    if tmp <=? end_ ws then Ok (None, ws)
    else
      nend ← schk (tmp + chunk_size ws);
      Ok (Some (tmp, if nend <? end_ ws then end_ ws else nend), ws).

(** What one turn of a compare and swap loop does. *)
Inductive turn (A : Type) := Return (r : option (Z * Z)) | Retry (a : A).
Arguments Return {A} _. Arguments Retry {A} _.

Definition compare_and_swap (ws : gomp_work_share) (old new : Z) : Z * gomp_work_share :=
  (next ws, if next ws =? old then set_next new ws else ws).

(** One turn of the loop of [gomp_iter_dynamic_next]: the local variables are
    [start] and [chunk]. *)
Definition dynamic_next_turn ws (start chunk : Z) : outcome (turn (Z * Z) * gomp_work_share) :=
  if start =? end_ ws then Ok (Return None, ws)
  else
    '(nend, chunk) ← dynamic_chunk (end_ ws) (incr ws) start chunk;
    let '(tmp, ws) := compare_and_swap ws start nend in
    Ok (if tmp =? start then Return (Some (start, nend)) else Retry (tmp, chunk), ws).

(** The end of the block that the guided schedule takes at [start]. *)
Definition guided_end (e0 incr0 csize nthreads start : Z) : outcome Z :=
  d ← schk (e0 - start);
  n ← sdiv d incr0;
  let n := wrapu W n in
  let q := wrapu W (n + nthreads - 1) / nthreads in
  let q := if q <? wrapu W csize then wrapu W csize else q in
  Ok (if q <=? n then wraps W (start + q * incr0) else e0).

Definition gomp_iter_guided_next_locked ws (nthreads : Z) : outcome (option (Z * Z) * gomp_work_share) :=
  if next ws =? end_ ws then Ok (None, ws)
  else
    let start := next ws in
    e ← guided_end (end_ ws) (incr ws) (chunk_size ws) nthreads start;
    Ok (Some (start, e), set_next e ws).

(** One turn of the loop of [gomp_iter_guided_next]. *)
Definition guided_next_turn ws (nthreads start : Z) : outcome (turn Z * gomp_work_share) :=
  if start =? end_ ws then Ok (Return None, ws)
  else
    nend ← guided_end (end_ ws) (incr ws) (chunk_size ws) nthreads start;
    let '(tmp, ws) := compare_and_swap ws start nend in
    Ok (if tmp =? start then Return (Some (start, nend)) else Retry tmp, ws).
End ops.
Arguments Return {A} _. Arguments Retry {A} _.

(** ** The iterations of a loop *)

(** The values of the control variable of [for (i = s; i < e; i += incr)], or
    with [>] for a negative increment. *)
Definition niters (d s e : Z) : Z := Z.max 0 (Z.quot (e - s + (d - Z.sgn d)) d).
Definition iters (d s e : Z) : list Z := (λ k, s + k * d) <$> seqZ 0 (niters d s e).

(** The value [k * d + r] lies between the [k]th and the next multiple of [d]. *)
Lemma quot_unique_sgn d k r : d ≠ 0 → 0 ≤ k → 0 ≤ r * Z.sgn d < Z.abs d → Z.quot (k * d + r) d = k.
Proof.
  intros Hd Hk Hr. destruct (Z.lt_ge_cases 0 d) as [Hp|Hn].
  - rewrite Z.quot_div_nonneg by nia. symmetry. apply Z.div_unique with r; [left|]; nia.
  - rewrite <-(Z.opp_involutive (k * d + r)), <-(Z.opp_involutive d), Z.quot_opp_opp by lia.
    rewrite Z.quot_div_nonneg by nia. symmetry. apply Z.div_unique with (- r); [left|]; nia.
Qed.

Lemma niters_aligned d s k : d ≠ 0 → 0 ≤ k → niters d s (s + k * d) = k.
Proof.
  intros Hd Hk. unfold niters. replace (s + k * d - s + (d - Z.sgn d)) with (k * d + (d - Z.sgn d)) by lia.
  rewrite quot_unique_sgn by nia. lia.
Qed.

Lemma niters_empty d s : d ≠ 0 → niters d s s = 0.
Proof. intros Hd. pose proof (niters_aligned d s 0 Hd ltac:(lia)) as H. by rewrite Z.mul_0_l, Z.add_0_r in H. Qed.

Lemma iters_aligned d s a b :
  d ≠ 0 → a ≤ b → iters d (s + a * d) (s + b * d) = (λ k, s + k * d) <$> seqZ a (b - a).
Proof.
  intros Hd Hab. unfold iters. replace (s + b * d) with (s + a * d + (b - a) * d) by lia.
  rewrite niters_aligned by lia. apply list_eq. intros i. rewrite !list_lookup_fmap.
  destruct (decide (Z.of_nat i < b - a)).
  - rewrite !lookup_seqZ_lt by lia. simpl. f_equal. lia.
  - by rewrite !lookup_seqZ_ge by lia.
Qed.

(** The number of iterations, when the loop goes in the direction of its
    increment. *)
Lemma niters_spec d s e :
  d ≠ 0 → 0 ≤ (e - s) * d → 0 ≤ niters d s e ∧ 0 ≤ (s + niters d s e * d - e) * Z.sgn d < Z.abs d.
Proof.
  intros Hd He. assert (∃ k r, 0 ≤ k ∧ e - s + (d - Z.sgn d) = k * d + r ∧ 0 ≤ r * Z.sgn d < Z.abs d) as (k & r & Hk & E & Hr).
  { exists (Z.quot (e - s + (d - Z.sgn d)) d), (Z.rem (e - s + (d - Z.sgn d)) d).
    pose proof (Z.quot_rem' (e - s + (d - Z.sgn d)) d).
    destruct (Z.lt_ge_cases 0 d).
    - pose proof (Z.rem_bound_pos (e - s + (d - Z.sgn d)) d ltac:(nia) ltac:(lia)).
      pose proof (Z.quot_pos (e - s + (d - Z.sgn d)) d ltac:(nia) ltac:(lia)). nia.
    - pose proof (Z.rem_bound_pos (- (e - s + (d - Z.sgn d))) (- d) ltac:(nia) ltac:(lia)) as B.
      rewrite Z.rem_opp_opp in B by lia.
      pose proof (Z.quot_pos (- (e - s + (d - Z.sgn d))) (- d) ltac:(nia) ltac:(lia)) as Q.
      rewrite Z.quot_opp_opp in Q by lia. nia. }
  unfold niters. rewrite E, quot_unique_sgn by done. rewrite Z.max_r by done. split; [done|]. nia.
Qed.

Lemma length_iters d s e : Z.of_nat (length (iters d s e)) = niters d s e.
Proof. unfold iters. rewrite length_fmap, length_seqZ. unfold niters. lia. Qed.

(** ** Splitting a range *)

Lemma filter_none {A} (P : A → Prop) `{∀ x, Decision (P x)} (l : list A) : Forall (λ x, ¬ P x) l → filter P l = [].
Proof. induction 1 as [|x l Hx Hl IH]; [done|]. by rewrite filter_cons, decide_False. Qed.

Lemma seqZ_split a b c : a ≤ b ≤ c → seqZ a (c - a) = seqZ a (b - a) ++ seqZ b (c - b).
Proof. intros H. replace (c - a) with ((b - a) + (c - b)) by lia. rewrite seqZ_app by lia. do 2 f_equal. lia. Qed.

(** The elements of a range that satisfy [P], when they are an interval. *)
Lemma filter_seqZ_interval (P : Z → Prop) `{∀ x, Decision (P x)} a b e f :
  a ≤ b ≤ e → e ≤ f → (∀ k, a ≤ k < f → P k ↔ b ≤ k < e) → filter P (seqZ a (f - a)) = seqZ b (e - b).
Proof.
  intros Hb He HP. rewrite (seqZ_split a b f), (seqZ_split b e f) by lia. rewrite !filter_app.
  rewrite (filter_none P (seqZ a _)), (list_filter_all P (seqZ b _)), (filter_none P (seqZ e _)); [by rewrite app_nil_r|..];
    apply Forall_forall; intros k Hk; apply elem_of_seqZ in Hk; rewrite HP by lia; lia.
Qed.

(** Distributing the elements of a list between [nt] lists. *)
Lemma distribute_one {A} (x : A) j a m :
  a ≤ j < a + m → concat ((λ i, if decide (j = i) then [x] else []) <$> seqZ a m) = [x].
Proof.
  intros Hj. replace m with ((a + m) - a) by lia. rewrite (seqZ_split a j), (seqZ_split j (j + 1) (a + m)) by lia.
  assert (∀ b c, ¬ (b ≤ j < b + c) → concat ((λ i, if decide (j = i) then [x] else []) <$> seqZ b c) = []) as Hnil.
  { intros b c Hn. apply concat_nil_Forall. apply Forall_fmap, Forall_forall. intros k Hk. apply elem_of_seqZ in Hk. simpl.
    by rewrite decide_False by lia. }
  rewrite !fmap_app, !concat_app, (Hnil a), (Hnil (j + 1)) by lia. replace (j + 1 - j) with 1 by lia. simpl.
  by rewrite decide_True by lia.
Qed.

Lemma concat_fmap_app {A B} (f g : A → list B) l :
  concat ((λ x, f x ++ g x) <$> l) ≡ₚ concat (f <$> l) ++ concat (g <$> l).
Proof.
  induction l as [|x l IH]; [done|]. rewrite !fmap_cons. cbn [concat]. rewrite IH, <-!app_assoc.
  apply Permutation_app_head. rewrite !app_assoc. apply Permutation_app_tail, Permutation_app_comm.
Qed.

Lemma distribute_perm {A} (f : A → Z) nt (l : list A) :
  Forall (λ x, 0 ≤ f x < nt) l → concat ((λ i, filter (λ x, f x = i) l) <$> seqZ 0 nt) ≡ₚ l.
Proof.
  induction 1 as [|x l Hx Hl IH].
  { assert (∀ m : list Z, concat ((λ i, filter (λ x : A, f x = i) []) <$> m) = []) as ->; [|done]. by induction m. }
  assert (((λ i, filter (λ x, f x = i) (x :: l)) <$> seqZ 0 nt) =
    ((λ i, (if decide (f x = i) then [x] else []) ++ filter (λ x, f x = i) l) <$> seqZ 0 nt)) as ->.
  { apply list_fmap_ext. intros _ i _. rewrite filter_cons. by case_decide. }
  rewrite concat_fmap_app, (distribute_one x (f x)) by lia. simpl. by rewrite IH.
Qed.

(** ** Static schedules: every iteration is run once *)

(** The calls a thread of the team makes: blocks are asked for until the result
    is not zero, and run. *)
Fixpoint static_run (W : Z) (ws : gomp_work_share) (nthreads team_id : Z) (fuel : nat) (static_trip : Z) : outcome (list Z) :=
  match fuel with
  | O => Err FFuel
  | S fuel =>
      '(r, block, static_trip) ← gomp_iter_static_next W ws nthreads team_id static_trip;
      if r =? 0 then
        '(s, e) ← of_option FUndef block;
        l ← static_run W ws nthreads team_id fuel static_trip;
        Ok (iters (incr ws) s e ++ l)
      else Ok []
  end.

(** Bounds of a loop that an OpenMP compiler generates: the increment and the
    bound advanced by one iteration are representable. *)
Definition rep (W x : Z) : Prop := Z.abs x < 2 ^ (W - 1).
Record loop_ok (W start e d : Z) : Prop := {
  lo_incr : d ≠ 0; lo_rep_incr : rep W d; lo_rep_start : rep W start; lo_rep_end : rep W e;
  lo_dir : 0 ≤ (e - start) * d;
  lo_rep_diff : rep W (e - start); lo_rep_size : rep W (e - start + (d - Z.sgn d)); lo_rep_last : rep W (e + (d - Z.sgn d)) }.

Lemma schk_rep W x : rep W x → schk W x = Ok x.
Proof. unfold rep. intros H. apply schk_Ok. lia. Qed.

Lemma schk_inv W x y : schk W x = Ok y → y = x.
Proof. unfold schk. destruct (_ && _); [|done]. by intros [= ->]. Qed.

Lemma sgn_step d : d ≠ 0 → (if 0 <? d then -1 else 1) = - Z.sgn d.
Proof. intros. destruct (Z.ltb_spec 0 d); lia. Qed.

(** The [k]th value of the control variable. *)
Definition nth_value (ws : gomp_work_share) (k : Z) : Z := next ws + k * incr ws.

Section static.
Context (W : Z) (ws : gomp_work_share).
Hypothesis HW : 2 ≤ W.
Hypothesis Hloop : loop_ok W (next ws) (end_ ws) (incr ws).
Local Abbreviation d := (incr ws).
Local Abbreviation n := (niters (incr ws) (next ws) (end_ ws)).
Local Abbreviation v := (nth_value ws).

Lemma static_n_bound : 0 ≤ n ∧ Z.abs (n * d) ≤ Z.abs (end_ ws - next ws + (d - Z.sgn d)) ∧
  (0 ≤ n * d ≤ end_ ws - next ws + (d - Z.sgn d) ∨ end_ ws - next ws + (d - Z.sgn d) ≤ n * d ≤ 0).
Proof using HW Hloop.
  destruct Hloop. destruct (niters_spec d (next ws) (end_ ws)) as [H0 H1]; [done|done|]. 
  split; [done|]. destruct (Z.lt_ge_cases 0 (incr ws)); nia.
Qed.

Lemma static_n_small : 0 ≤ n < 2 ^ (W - 1).
Proof using HW Hloop.
  destruct static_n_bound as (H0 & H1 & _). destruct Hloop. unfold rep in *. split; [done|].
  nia.
Qed.

Lemma static_count_spec : static_count W ws = Ok n.
Proof using HW Hloop.
  pose proof static_n_small as Hn. destruct Hloop. unfold static_count. rewrite sgn_step by done. 
  rewrite (schk_rep W (d + - Z.sgn d)) by (unfold rep in *; lia).
  rewrite (schk_rep W (end_ ws - next ws)) by done. cbn [mbind outcome_bind].
  replace (end_ ws - next ws + (d + - Z.sgn d)) with (end_ ws - next ws + (d - Z.sgn d)) by lia.
  rewrite schk_rep by done. cbn [mbind outcome_bind]. unfold sdiv. destruct (Z.eqb_spec d 0) as [|_]; [done|].
  assert (Z.quot (end_ ws - next ws + (d - Z.sgn d)) d = n) as ->.
  { unfold niters. rewrite Z.max_r; [done|]. destruct (Z.lt_ge_cases 0 d); [apply Z.quot_pos; nia|].
    rewrite <-Z.quot_opp_opp by lia. apply Z.quot_pos; nia. }
  rewrite schk_rep by (unfold rep; lia). cbn [mbind outcome_bind].
  rewrite wrapu_small; [done|]. rewrite (pow2_pred W) by lia. lia.
Qed.

Lemma static_bound_spec k : 0 ≤ k ≤ n → static_bound W ws k = Ok (v k).
Proof using HW Hloop.
  intros Hk. pose proof static_n_small as Hn. destruct static_n_bound as (H0 & H1 & H2). destruct Hloop.
  unfold static_bound. rewrite wraps_small by lia.  unfold rep in *.
  assert (Z.abs (k * d) ≤ Z.abs (n * d)) by nia. rewrite schk_rep by (unfold rep; lia). cbn [mbind outcome_bind].
  assert (0 ≤ k * d ≤ n * d ∨ n * d ≤ k * d ≤ 0) by nia.
  rewrite schk_rep by (unfold rep; lia). f_equal. unfold nth_value. lia.
Qed.

Lemma iters_block a b : a ≤ b → iters d (v a) (v b) = v <$> seqZ a (b - a).
Proof using Hloop. destruct Hloop. intros. by apply iters_aligned. Qed.

Context (nthreads : Z).
Hypothesis Hnt : 1 < nthreads.

(** *** One block per thread *)

Lemma static_next_single i :
  chunk_size ws = 0 → 0 ≤ i < nthreads → n + nthreads < 2 ^ W →
  let q := (n + nthreads - 1) / nthreads in
  gomp_iter_static_next W ws nthreads i 0 =
    Ok (if Z.min (q * i + q) n <=? q * i then (1, None, 1)
        else (0, Some (v (q * i), v (Z.min (q * i + q) n)), if Z.min (q * i + q) n =? n then wrapu W (-1) else 1)).
Proof using HW Hloop Hnt.
  intros Hc Hi Hb q. pose proof static_n_small as Hn. unfold gomp_iter_static_next.
  assert (0 < 2 ^ W) by (apply pow2_pos; lia).
  assert (wrapu W (-1) = 2 ^ W - 1) as E1 by (unfold wrapu; symmetry; apply Z.mod_unique with (-1); lia).
  destruct (Z.eqb_spec 0 (wrapu W (-1))) as [|_]; [lia|]. destruct (Z.eqb_spec nthreads 1) as [|_]; [lia|].
  rewrite Hc, Z.eqb_refl. cbn [Z.ltb Z.compare]. rewrite static_count_spec. cbn [mbind outcome_bind].
  assert (wrapu W (n / nthreads + (if wrapu W (n / nthreads * nthreads) =? n then 0 else 1)) = q) as ->.
  { pose proof (Z.div_mod n nthreads ltac:(lia)). pose proof (Z.mod_pos_bound n nthreads ltac:(lia)).
    assert (0 ≤ n / nthreads) by (apply Z.div_pos; lia).
    rewrite (wrapu_small W (n / nthreads * nthreads)) by nia.
    destruct (Z.eqb_spec (n / nthreads * nthreads) n) as [En|En].
    - rewrite wrapu_small by nia. unfold q. apply Z.div_unique with (nthreads - 1); [left|]; lia.
    - rewrite wrapu_small by nia. unfold q. apply Z.div_unique with (n mod nthreads - 1); [left|]; nia. }
  pose proof (Z.div_mod (n + nthreads - 1) nthreads ltac:(lia)) as Hq.
  pose proof (Z.mod_pos_bound (n + nthreads - 1) nthreads ltac:(lia)) as Hm. fold q in Hq.
  assert (0 ≤ q) by (apply Z.div_pos; lia). assert (q * i + q ≤ nthreads * q) by nia.
  rewrite (wrapu_small W (q * i)) by nia. rewrite (wrapu_small W (q * i + q)) by nia.
  replace (if n <? q * i + q then n else q * i + q) with (Z.min (q * i + q) n) by (destruct (Z.ltb_spec n (q * i + q)); lia).
  destruct (Z.leb_spec (Z.min (q * i + q) n) (q * i)); [done|].
  rewrite !static_bound_spec by nia. done.
Qed.

Lemma static_done i fuel t : t = wrapu W (-1) ∨ (chunk_size ws = 0 ∧ t = 1) → static_run W ws nthreads i (S fuel) t = Ok [].
Proof using HW Hnt.
  intros Ht. cbn [static_run]. unfold gomp_iter_static_next. destruct (Z.eqb_spec t (wrapu W (-1))) as [|Hne]; [done|].
  destruct Ht as [?|[Hc ->]]; [done|]. destruct (Z.eqb_spec nthreads 1) as [|_]; [lia|]. by rewrite Hc.
Qed.

Lemma static_run_single i fuel :
  chunk_size ws = 0 → 0 ≤ i < nthreads → n + nthreads < 2 ^ W →
  let q := (n + nthreads - 1) / nthreads in
  static_run W ws nthreads i (S (S fuel)) 0 = Ok (v <$> filter (λ k, k / q = i) (seqZ 0 n)).
Proof using HW Hloop Hnt.
  intros Hc Hi Hb q. remember (S fuel) as f eqn:Ef. cbn [static_run]. rewrite static_next_single by done. fold q. cbn [mbind outcome_bind].
  pose proof static_n_small as Hn. destruct (decide (n = 0)) as [E0|Hn0].
  { rewrite E0. destruct (Z.leb_spec (Z.min (q * i + q) 0) (q * i)) as [|Hlt]; [done|].
    assert (0 ≤ q * i); [|lia]. assert (q = 0) as ->; [|lia]. unfold q. rewrite E0. apply Z.div_small. lia. }
  assert (0 < q) as Hq by (apply Z.div_str_pos; lia).
  assert (∀ e, q * i ≤ e → e ≤ n → (e = n ∨ e = q * i + q) → e ≤ q * i + q →
    filter (λ k, k / q = i) (seqZ 0 n) = seqZ (q * i) (e - q * i)) as Hf.
  { intros e He1 He2 He3 He4. replace n with (n - 0) at 1 by lia. apply filter_seqZ_interval; [nia|lia|].
    intros k Hk. pose proof (Z.div_mod k q ltac:(lia)). pose proof (Z.mod_pos_bound k q ltac:(lia)). split; [nia|].
    intros Hk'. symmetry. apply Z.div_unique with (k - q * i); [left|]; lia. }
  destruct (Z.leb_spec (Z.min (q * i + q) n) (q * i)) as [Hle|Hlt]; cbn [mbind outcome_bind].
  - cbn [Z.eqb]. rewrite (filter_none (λ k, k / q = i)); [done|]. apply Forall_forall. intros k Hk E. apply elem_of_seqZ in Hk.
    pose proof (Z.div_mod k q ltac:(lia)). pose proof (Z.mod_pos_bound k q ltac:(lia)). nia.
  - cbn [Z.eqb of_option]. cbn [mbind outcome_bind]. rewrite Ef, static_done.
    2:{ destruct (Z.eqb_spec (Z.min (q * i + q) n) n); [by left|by right]. }
    cbn [mbind outcome_bind]. rewrite app_nil_r. rewrite iters_block by lia. rewrite (Hf (Z.min (q * i + q) n)) by lia. done.
Qed.

(** *** Chunks in turn *)

Lemma static_next_chunked i t :
  0 < chunk_size ws < 2 ^ (W - 1) → 0 ≤ i < nthreads → 0 ≤ t → n + nthreads * chunk_size ws < 2 ^ W →
  let s0 := (t * nthreads + i) * chunk_size ws in
  s0 < n + nthreads * chunk_size ws →
  gomp_iter_static_next W ws nthreads i t =
    Ok (if n <=? s0 then (1, None, t)
        else (0, Some (v s0, v (Z.min (s0 + chunk_size ws) n)), if n <=? s0 + chunk_size ws then wrapu W (-1) else t + 1)).
Proof using HW Hloop Hnt.
  intros Hc Hi Ht Hb s0 Hs0. pose proof static_n_small as Hn. pose proof (pow2_pred W ltac:(lia)) as E2.
  unfold gomp_iter_static_next.
  assert (wrapu W (-1) = 2 ^ W - 1) as E1 by (unfold wrapu; symmetry; apply Z.mod_unique with (-1); lia).
  set (c := chunk_size ws) in *. assert (0 ≤ t * nthreads + i ≤ s0) by (unfold s0; nia).
  assert (t + 1 < 2 ^ W - 1). { assert (2 * t < 2 ^ W) by nia. unfold s0 in *. nia. }
  destruct (Z.eqb_spec t (wrapu W (-1))) as [|_]; [lia|]. destruct (Z.eqb_spec nthreads 1) as [|_]; [lia|].
  destruct (Z.eqb_spec c 0) as [|_]; [lia|]. rewrite static_count_spec. cbn [mbind outcome_bind].
  rewrite (wrapu_small W c), (wrapu_small W (t * nthreads)), (wrapu_small W (t * nthreads + i)), (wrapu_small W (_ * c)) by nia.
  fold s0. destruct (Z.leb_spec n s0) as [|Hlt]; [done|].
  rewrite (wrapu_small W (s0 + c)), (wrapu_small W (t + 1)) by nia.
  replace (if n <? s0 + c then n else s0 + c) with (Z.min (s0 + c) n) by (destruct (Z.ltb_spec n (s0 + c)); lia).
  rewrite !static_bound_spec by lia. cbn [mbind outcome_bind]. do 2 f_equal.
  destruct (Z.eqb_spec (Z.min (s0 + c) n) n) as [En|En], (Z.leb_spec n (s0 + c)); try lia; done.
Qed.

Lemma static_run_chunked i fuel : ∀ t,
  0 < chunk_size ws < 2 ^ (W - 1) → 0 ≤ i < nthreads → 0 ≤ t → n + nthreads * chunk_size ws < 2 ^ W →
  let s0 := (t * nthreads + i) * chunk_size ws in
  s0 < n + nthreads * chunk_size ws → Z.max 0 (n - s0) < Z.of_nat fuel →
  static_run W ws nthreads i fuel t =
    Ok (v <$> filter (λ k, (k / chunk_size ws) mod nthreads = i) (seqZ s0 (n - s0))).
Proof using HW Hloop Hnt.
  induction fuel as [|fuel IH]; intros t Hc Hi Ht Hb s0 Hs0 Hf; [lia|]. cbn [static_run].
  rewrite static_next_chunked by done. fold s0. set (c := chunk_size ws) in *. cbn [mbind outcome_bind].
  destruct (Z.leb_spec n s0) as [Hle|Hlt]; cbn [mbind outcome_bind Z.eqb].
  { by rewrite seqZ_nil by lia. }
  cbn [of_option mbind outcome_bind].
  assert (∀ k, s0 ≤ k < s0 + c → k / c = t * nthreads + i) as Hdiv.
  { intros k Hk. symmetry. apply Z.div_unique with (k - s0); [left; lia|]. unfold s0. lia. }
  assert (filter (λ k, (k / c) mod nthreads = i) (seqZ s0 (n - s0)) =
    seqZ s0 (Z.min (s0 + c) n - s0) ++ filter (λ k, (k / c) mod nthreads = i) (seqZ (Z.min (s0 + c) n) (n - Z.min (s0 + c) n))) as ->.
  { rewrite (seqZ_split s0 (Z.min (s0 + c) n) n) by lia. rewrite filter_app. f_equal. apply list_filter_all, Forall_forall.
    intros k Hk. apply elem_of_seqZ in Hk. rewrite Hdiv by lia. rewrite Z.add_comm, Z.mod_add by lia. apply Z.mod_small. lia. }
  rewrite fmap_app, <-iters_block by lia.
  destruct (Z.leb_spec n (s0 + c)) as [Hlast|Hmore].
  - destruct fuel as [|fuel]; [lia|]. rewrite static_done by (by left). cbn [mbind outcome_bind].
    rewrite Z.min_r, Z.sub_diag by lia. done.
  - rewrite IH; [|done|done|lia|done|unfold s0 in *; nia|unfold s0 in *; nia].
    cbn [mbind outcome_bind]. do 3 f_equal. rewrite Z.min_l by lia.
    replace ((t + 1) * nthreads + i) with (t * nthreads + i + nthreads) by lia.
    set (s1 := (t * nthreads + i + nthreads) * c). assert (s1 = s0 + nthreads * c) as E1 by (unfold s1, s0; lia).
    assert (∀ k, s0 + c ≤ k < s1 → (k / c) mod nthreads ≠ i) as Hskip.
    { intros k Hk E. assert (t * nthreads + i + 1 ≤ k / c) by (apply Z.div_le_lower_bound; unfold s0 in *; nia).
      assert (k / c < t * nthreads + i + nthreads) by (apply Z.div_lt_upper_bound; unfold s1 in *; nia).
      pose proof (Z.div_mod (k / c) nthreads ltac:(lia)) as Hd. rewrite E in Hd. set (Q := k / c / nthreads) in *. destruct (Z.le_gt_cases Q t); nia. }
    assert (s0 + c ≤ s1) by nia. destruct (decide (s1 ≤ n)).
    + rewrite (seqZ_split (s0 + c) s1 n) by lia. rewrite filter_app, (filter_none _ (seqZ (s0 + c) _)); [done|].
      apply Forall_forall. intros k Hk. apply elem_of_seqZ in Hk. apply Hskip. lia.
    + rewrite (seqZ_nil s1) by lia. symmetry. apply filter_none, Forall_forall. intros k Hk. apply elem_of_seqZ in Hk. apply Hskip. lia.
Qed.
End static.

(** The blocks run by the threads of a team, thread by thread. *)
Definition static_team (W : Z) (ws : gomp_work_share) (nthreads : Z) (fuel : nat) : outcome (list (list Z)) :=
  mapM (λ i, static_run W ws nthreads i fuel 0) (seqZ 0 nthreads).

Lemma mapM_Ok {A B} (f : A → outcome B) g l : (∀ x, x ∈ l → f x = Ok (g x)) → mapM f l = Ok (g <$> l).
Proof.
  induction l as [|x l IH]; intros H; [done|]. cbn [mapM]. rewrite H by set_solver. cbn [mbind outcome_bind].
  rewrite IH by set_solver. done.
Qed.

Lemma concat_fmap_fmap {A B C} (g : B → C) (f : A → list B) l : concat ((λ x, g <$> f x) <$> l) = g <$> concat (f <$> l).
Proof. induction l as [|x l IH]; [done|]. cbn [concat fmap list_fmap]. rewrite fmap_app. by f_equal. Qed.

Lemma loop_init_static W sync nt start e d chunk m ws :
  gomp_loop_init W sync nt start e d GFS_STATIC chunk m = Ok ws →
  next ws = start ∧ incr ws = d ∧ chunk_size ws = chunk ∧ (d ≠ 0 → iters d start (end_ ws) = iters d start e).
Proof.
  intros H. unfold gomp_loop_init in H. injection H as <-. split_and!; [done..|]. cbn [end_]. intros Hd. unfold iters. do 2 f_equal.
  unfold niters. destruct (Z.ltb_spec 0 d), (Z.ltb_spec e start), (Z.ltb_spec d 0), (Z.ltb_spec start e); simpl; try done; try lia.
  - rewrite (Z.quot_small (start - start + _)) by lia. rewrite Z.max_l by lia. symmetry. apply Z.max_l.
    destruct (Z.lt_ge_cases (e - start + (d - Z.sgn d)) 0); [|rewrite Z.quot_small by lia; lia].
    pose proof (Z.quot_pos (- (e - start + (d - Z.sgn d))) d ltac:(lia) ltac:(lia)). rewrite Z.quot_opp_l in * by lia. lia.
  - rewrite <-(Z.quot_opp_opp (start - start + _)), Z.quot_small by lia. rewrite Z.max_l by lia. symmetry. apply Z.max_l.
    rewrite <-Z.quot_opp_opp by lia.
    destruct (Z.lt_ge_cases (- (e - start + (d - Z.sgn d))) 0); [|rewrite Z.quot_small by lia; lia].
    pose proof (Z.quot_pos (e - start + (d - Z.sgn d)) (- d) ltac:(lia) ltac:(lia)). rewrite Z.quot_opp_l by lia. lia.
Qed.

Lemma static_run_alone W ws fuel :
  loop_ok W (next ws) (end_ ws) (incr ws) → 0 < W →
  static_run W ws 1 0 (S (S fuel)) 0 = Ok (iters (incr ws) (next ws) (end_ ws)).
Proof.
  intros [] HW. remember (S fuel) as f eqn:Ef. cbn [static_run]. unfold gomp_iter_static_next at 1.
  assert (2 ^ 1 ≤ 2 ^ W) by (apply Z.pow_le_mono_r; lia).
  assert (wrapu W (-1) = 2 ^ W - 1) as E1 by (unfold wrapu; symmetry; apply Z.mod_unique with (-1); lia).
  destruct (Z.eqb_spec 0 (wrapu W (-1))) as [|_]; [lia|]. cbn [Z.eqb Pos.eqb mbind outcome_bind].
  destruct (Z.eqb_spec (next ws) (end_ ws)) as [<-|]; cbn [Z.eqb of_option mbind outcome_bind].
  { unfold iters. by rewrite niters_empty. }
  subst f. cbn [static_run]. unfold gomp_iter_static_next. rewrite Z.eqb_refl. cbn [mbind outcome_bind Z.eqb]. by rewrite app_nil_r.
Qed.

(** The thread [i] starts with the chunk [i]. *)
Lemma static_skip c nt i n :
  0 < c → 0 ≤ i < nt → 0 ≤ n →
  filter (λ k, (k / c) mod nt = i) (seqZ (i * c) (n - i * c)) = filter (λ k, (k / c) mod nt = i) (seqZ 0 n).
Proof.
  intros Hc Hi Hn. assert (∀ k, 0 ≤ k < i * c → (k / c) mod nt ≠ i) as H.
  { intros k Hk. assert (k / c < i) by (apply Z.div_lt_upper_bound; lia). pose proof (Z.div_pos k c ltac:(lia) ltac:(lia)).
    rewrite Z.mod_small by lia. lia. }
  destruct (decide (i * c ≤ n)).
  - replace n with (n - 0) at 2 by lia. rewrite (seqZ_split 0 (i * c) n) by nia. rewrite filter_app, (filter_none _ (seqZ 0 _)); [done|].
    apply Forall_forall. intros k Hk. apply elem_of_seqZ in Hk. apply H. lia.
  - rewrite seqZ_nil by lia. symmetry. apply filter_none, Forall_forall. intros k Hk. apply elem_of_seqZ in Hk. apply H. lia.
Qed.

(** The static schedules share the iterations of a loop: whatever the
    number of threads, the chunk size, the bounds and the sign of the increment,
    the blocks that the threads of the team are given are together the
    iterations of the loop, each one exactly once; no signed computation
    overflows and each thread stops asking after at most one call more than
    there are iterations.  The bounds are representable, and so is the end of
    the chunk behind the last one. *)
Theorem gomp_static_partition W sync nthreads start e d chunk m ws :
  2 ≤ W → gomp_loop_init W sync nthreads start e d GFS_STATIC chunk m = Ok ws → loop_ok W start (end_ ws) d →
  1 ≤ nthreads → 0 ≤ chunk < 2 ^ (W - 1) → niters d start e + nthreads * Z.max 1 chunk < 2 ^ W →
  ∃ blocks, static_team W ws nthreads (S (S (length (iters d start e)))) = Ok blocks ∧ concat blocks ≡ₚ iters d start e.
Proof.
  intros HW Hinit Hl Hnt Hc Hb. destruct (loop_init_static _ _ _ _ _ _ _ _ _ Hinit) as (E1 & E2 & E3 & E4).
  specialize (E4 ltac:(by destruct Hl)). subst start d chunk. rewrite <-E4 in *.
  set (n := niters (incr ws) (next ws) (end_ ws)) in *. assert (niters (incr ws) (next ws) e = n) as En.
  { pose proof (length_iters (incr ws) (next ws) e) as H1. rewrite <-E4, length_iters in H1. done. }
  rewrite En in Hb. pose proof (static_n_small W ws HW Hl) as Hn. fold n in Hn. unfold static_team.
  destruct (decide (nthreads = 1)) as [->|].
  { exists [iters (incr ws) (next ws) (end_ ws)]. split; [|cbn [concat]; by rewrite app_nil_r].
    change (seqZ 0 1) with [0]. rewrite (mapM_Ok _ (λ _, iters (incr ws) (next ws) (end_ ws))); [done|].
    intros i Hi. apply list_elem_of_singleton in Hi as ->. apply (static_run_alone W); [done|lia]. }
  destruct (decide (chunk_size ws = 0)) as [E0|Hne].
  - set (q := (n + nthreads - 1) / nthreads).
    exists ((λ i, nth_value ws <$> filter (λ k, k / q = i) (seqZ 0 n)) <$> seqZ 0 nthreads). split.
    { apply mapM_Ok. intros i Hi. apply elem_of_seqZ in Hi. apply (static_run_single W ws HW Hl); [lia|done|lia|fold n; lia]. }
    rewrite concat_fmap_fmap, distribute_perm; [done|]. apply Forall_forall. intros k Hk. apply elem_of_seqZ in Hk.
    assert (0 < q) by (apply Z.div_str_pos; lia). split; [apply Z.div_pos; lia|]. apply Z.div_lt_upper_bound; [lia|].
    pose proof (Z.div_mod (n + nthreads - 1) nthreads ltac:(lia)) as Hdm. fold q in Hdm.
    pose proof (Z.mod_pos_bound (n + nthreads - 1) nthreads ltac:(lia)). nia.
  - exists ((λ i, nth_value ws <$> filter (λ k, (k / chunk_size ws) mod nthreads = i) (seqZ 0 n)) <$> seqZ 0 nthreads). split.
    { rewrite Z.max_r in Hb by lia. apply mapM_Ok. intros i Hi. apply elem_of_seqZ in Hi.
      pose proof (static_run_chunked W ws HW Hl nthreads ltac:(lia) i (S (S (length (iters (incr ws) (next ws) (end_ ws))))) 0) as H.
      cbv zeta in H. fold n in H. rewrite H; [|lia|lia|lia|lia|nia|].
      2:{ pose proof (length_iters (incr ws) (next ws) (end_ ws)) as Hli. fold n in Hli. nia. }
      do 2 f_equal. rewrite Z.mul_0_l, Z.add_0_l. apply static_skip; lia. }
    rewrite concat_fmap_fmap, distribute_perm; [done|]. apply Forall_forall. intros k _. apply Z.mod_pos_bound. lia.
Qed.

(** ** Dynamic and guided schedules: any interleaving *)

(** Where a thread is between two of its atomic steps: asking for a block or
    running one, in the loop of [gomp_iter_dynamic_next] with its local
    variables, in that of [gomp_iter_guided_next], or finished. *)
Inductive tstate := Asking | InDynamic (start chunk : Z) | InGuided (start : Z) | Finished.

#[export] Instance tstate_eq_dec : EqDecision tstate.
Proof. solve_decision. Defined.

Definition after (r : option (Z * Z)) : tstate := match r with Some _ => Asking | None => Finished end.

(** One step of a thread in [gomp_loop_dynamic_next] or [gomp_loop_guided_next]:
    the new state, the block it was given, the work share. *)
Definition thread_call (W : Z) (gcc_sync : bool) (nthreads : Z) (ws : gomp_work_share) (t : tstate)
    : outcome (tstate * option (Z * Z) * gomp_work_share) :=
  match t with
  | Asking =>
      match sched ws, gcc_sync with
      | GFS_DYNAMIC, true =>
          if mode ws then '(r, ws) ← dynamic_next_add W ws; Ok (after r, r, ws)
          else Ok (InDynamic (next ws) (chunk_size ws), None, ws)
      | GFS_DYNAMIC, false => '(r, ws) ← gomp_iter_dynamic_next_locked W ws; Ok (after r, r, ws)
      | _, true => Ok (InGuided (next ws), None, ws)
      | _, false => '(r, ws) ← gomp_iter_guided_next_locked W ws nthreads; Ok (after r, r, ws)
      end
  | InDynamic start chunk =>
      '(t, ws) ← dynamic_next_turn W ws start chunk;
      Ok (match t with Return r => (after r, r) | Retry (s, c) => (InDynamic s c, None) end, ws)
  | InGuided start =>
      '(t, ws) ← guided_next_turn W ws nthreads start;
      Ok (match t with Return r => (after r, r) | Retry s => (InGuided s, None) end, ws)
  | Finished => Ok (Finished, None, ws)
  end.

Record world := { share : gomp_work_share; states : list tstate; blocks : list (Z * Z) }.

Inductive call_step (W : Z) (gcc_sync : bool) (nthreads : Z) : world → world → Prop :=
| CallStep w i t t' r ws' :
    states w !! i = Some t → t ≠ Finished → thread_call W gcc_sync nthreads (share w) t = Ok (t', r, ws') →
    call_step W gcc_sync nthreads w
      {| share := ws'; states := <[i := t']> (states w);
         blocks := blocks w ++ match r with Some b => [b] | None => [] end |}.

Inductive reachable (W : Z) (gcc_sync : bool) (nthreads : Z) (ws : gomp_work_share) : world → Prop :=
| ReachInit : reachable W gcc_sync nthreads ws
    {| share := ws; states := replicate (Z.to_nat nthreads) Asking; blocks := [] |}
| ReachStep w w' : reachable W gcc_sync nthreads ws w → call_step W gcc_sync nthreads w w' → reachable W gcc_sync nthreads ws w'.

(** The number of threads that are done with the loop. *)
Definition finished (ts : list tstate) : nat := length (filter (λ t, t = Finished) ts).

Lemma finished_insert ts i t t' :
  ts !! i = Some t → t ≠ Finished →
  finished (<[i := t']> ts) = (finished ts + if decide (t' = Finished) then 1 else 0)%nat ∧ (finished ts < length ts)%nat.
Proof.
  intros Hi Ht. apply list_elem_of_split_length in Hi as (t1 & t2 & -> & ->).
  rewrite insert_app_r_alt, Nat.sub_diag by lia. unfold finished. cbn [insert list_insert].
  rewrite !filter_app, !filter_cons, (decide_False (P := t = Finished)) by done. rewrite !length_app. cbn [length].
  pose proof (length_filter (λ t, t = Finished) t1). pose proof (length_filter (λ t, t = Finished) t2).
  case_decide; cbn [length]; lia.
Qed.

Section positions.
Context (start e d : Z).
Hypothesis Hd : d ≠ 0.
Hypothesis Hdir : 0 ≤ (e - start) * d.
Local Abbreviation n := (niters d start e).

(** The value of [next] once [k] iterations are handed out. *)
Definition pos (k : Z) : Z := if k <? n then start + k * d else e.

Lemma niters_from a : 0 ≤ a ≤ n → niters d (start + a * d) e = n - a.
Proof using Hd Hdir.
  intros Ha. destruct (niters_spec d start e Hd Hdir) as [H0 H1]. set (m := n) in *.
  unfold niters. replace (e - (start + a * d) + (d - Z.sgn d)) with
    ((m - a) * d + (e - (start + m * d) + (d - Z.sgn d))) by lia.
  rewrite quot_unique_sgn; [lia|done|lia|]. destruct (Z.lt_ge_cases 0 d); nia.
Qed.

Lemma pos_0 : pos 0 = start.
Proof using Hd Hdir.
  unfold pos. destruct (Z.ltb_spec 0 n) as [|Hn0]; [lia|]. destruct (niters_spec d start e Hd Hdir) as [G0 G1].
  assert (n = 0) as Hz by lia. rewrite Hz in G1. destruct (Z.lt_ge_cases 0 d); nia.
Qed.

Lemma iters_pos a b : 0 ≤ a ≤ b → b ≤ n → iters d (pos a) (pos b) = (λ k, start + k * d) <$> seqZ a (b - a).
Proof using Hd Hdir.
  intros Ha Hb. unfold pos. destruct (Z.ltb_spec a n) as [Han|Han].
  - destruct (Z.ltb_spec b n); [by rewrite iters_aligned by lia|]. assert (b = n) as -> by lia.
    unfold iters. rewrite niters_from by lia. apply list_eq. intros i. rewrite !list_lookup_fmap.
    destruct (decide (Z.of_nat i < n - a)); [rewrite !lookup_seqZ_lt by lia; simpl; f_equal; lia|].
    by rewrite !lookup_seqZ_ge by lia.
  - destruct (Z.ltb_spec b n); [lia|]. unfold iters. rewrite niters_empty by done. by rewrite (seqZ_nil a) by lia.
Qed.

(** A position is the end only when everything is handed out. *)
Lemma pos_end a : 0 ≤ a ≤ n → pos a = e ↔ a = n.
Proof using Hd Hdir.
  intros Ha. unfold pos. destruct (Z.ltb_spec a n) as [Han|Han]; [|split; lia].
  split; [|lia]. intros E. destruct (niters_spec d start e Hd Hdir) as [H0 H1].
  destruct (Z.lt_ge_cases 0 d); nia.
Qed.

Lemma pos_inj a b : 0 ≤ a ≤ n → 0 ≤ b ≤ n → pos a = pos b → a = b.
Proof using Hd Hdir.
  intros Ha Hb E. destruct (decide (a = n)) as [->|Hna].
  - symmetry in E. rewrite (proj2 (pos_end n ltac:(lia)) eq_refl) in E. symmetry. by apply pos_end.
  - destruct (decide (b = n)) as [->|Hnb].
    + rewrite (proj2 (pos_end n ltac:(lia)) eq_refl) in E. by apply pos_end.
    + unfold pos in E. destruct (Z.ltb_spec a n), (Z.ltb_spec b n); try lia. nia.
Qed.

(** Distance of a position to the end. *)
Lemma pos_left a : 0 ≤ a ≤ n → 0 ≤ (e - pos a) * Z.sgn d ≤ (e - start) * Z.sgn d.
Proof using Hd Hdir.
  intros Ha. unfold pos. destruct (niters_spec d start e Hd Hdir) as [H0 H1].
  destruct (Z.ltb_spec a n); destruct (Z.lt_ge_cases 0 d); nia.
Qed.

Lemma pos_left_mono a b : 0 ≤ a ≤ b → b ≤ n → (e - pos b) * Z.sgn d ≤ (e - pos a) * Z.sgn d.
Proof using Hd Hdir.
  intros Ha Hb. unfold pos. destruct (niters_spec d start e Hd Hdir) as [H0 H1].
  destruct (Z.ltb_spec a n), (Z.ltb_spec b n); destruct (Z.lt_ge_cases 0 d); nia.
Qed.

(** Advancing by [c] iterations stays short of the end when [c * d] does not
    exceed what is left. *)
Lemma pos_advance a c :
  0 ≤ a < n → 1 ≤ c → (c * d) * Z.sgn d ≤ (e - pos a) * Z.sgn d → a + c ≤ n ∧ pos a + c * d = pos (a + c).
Proof.
  intros Ha Hc Hle. unfold pos in *. destruct (niters_spec d start e Hd Hdir) as [H0 H1].
  destruct (Z.ltb_spec a n); [|lia].
  assert (a + c ≤ n) as Hn by (destruct (Z.lt_ge_cases 0 d); nia). split; [done|].
  destruct (Z.ltb_spec (a + c) n); [lia|]. assert (a + c = n) by lia. destruct (Z.lt_ge_cases 0 d); nia.
Qed.
End positions.

Section interleaving.
Context (W nt start e d : Z).
Hypothesis HW : 2 ≤ W.
Hypothesis Hloop : loop_ok W start e d.
Local Abbreviation n := (niters d start e).
Local Abbreviation P := (pos start e d).

Lemma pos_rep a : 0 ≤ a ≤ n → rep W (e - P a) ∧ rep W (P a).
Proof.
  intros Ha. destruct Hloop. pose proof (pos_left start e d ltac:(done) ltac:(done) a Ha). unfold rep in *.
  destruct (Z.lt_ge_cases 0 d); nia.
Qed.

(** What [chunk] may be while the position [a] is tried: the chunk of the work
    share, or at least what is left. *)
Definition chunk_ok (c a chunk : Z) : Prop := chunk = c * d ∨ (e - P a) * Z.sgn d ≤ chunk * Z.sgn d.

Lemma dynamic_chunk_spec c a chunk :
  1 ≤ c → 0 ≤ a < n → chunk_ok c a chunk →
  ∃ b chunk', dynamic_chunk W e d (P a) chunk = Ok (P b, chunk') ∧ a < b ≤ n ∧
    ∀ a', a ≤ a' ≤ n → chunk_ok c a' chunk'.
Proof.
  intros Hc Ha Hch. pose proof Hloop as [Hd _ _ _ Hdir _ _ _]. pose proof (pos_rep a ltac:(lia)) as [R1 R2].
  pose proof (pos_left start e d Hd Hdir a ltac:(lia)) as Hleft.
  unfold dynamic_chunk. rewrite schk_rep by done. cbn [mbind outcome_bind].
  set (chunk' := if d <? 0 then _ else _).
  assert (chunk' = chunk ∧ chunk * Z.sgn d ≤ (e - P a) * Z.sgn d ∨
          chunk' = e - P a ∧ (e - P a) * Z.sgn d < chunk * Z.sgn d) as Hc'.
  { unfold chunk'. destruct (Z.ltb_spec d 0); [destruct (Z.ltb_spec chunk (e - P a))|destruct (Z.ltb_spec (e - P a) chunk)]; nia. }
  assert (∃ b, P a + chunk' = P b ∧ a < b ≤ n ∧ ∀ a', a ≤ a' ≤ n → chunk_ok c a' chunk') as (b & -> & Hb & Hok).
  { assert (P n = e) as En by (apply pos_end; [done|done|lia|done]).
    assert (∀ a', a ≤ a' ≤ n → chunk_ok c a' (e - P a)) as Hrest.
    { intros a' Ha'. right. apply pos_left_mono; [done|done|lia|lia]. }
    destruct Hc' as [[-> Hle]|[-> Hlt]]; [destruct Hch as [->|Hbig]|].
    - destruct (pos_advance start e d Hd Hdir a c) as [H1 H2]; [lia|lia|done|]. exists (a + c). split_and!; [done|lia|lia|].
      intros a' _. by left.
    - assert (chunk = e - P a) as -> by (destruct (Z.lt_ge_cases 0 d); nia). exists n. rewrite En. split_and!; [lia|lia|lia|done].
    - exists n. rewrite En. split_and!; [lia|lia|lia|done]. }
  rewrite schk_rep by (apply pos_rep; lia). cbn [mbind outcome_bind]. eauto.
Qed.

Lemma guided_end_spec cs a :
  1 ≤ cs < 2 ^ (W - 1) → 1 ≤ nt → n + nt < 2 ^ W → 0 ≤ a < n →
  ∃ b, guided_end W e d cs nt (P a) = Ok (P b) ∧ a < b ≤ n.
Proof.
  intros Hcs Hnt Hb Ha. pose proof Hloop as [Hd _ _ _ Hdir _ _ _]. pose proof (pos_rep a ltac:(lia)) as [R1 R2].
  pose proof (pow2_pred W ltac:(lia)) as E2. pose proof (pos_left start e d Hd Hdir a ltac:(lia)) as Hleft.
  assert (P n = e) as En by (apply pos_end; [done|done|lia|done]).
  unfold guided_end. rewrite schk_rep by done. cbn [mbind outcome_bind]. unfold sdiv. destruct (Z.eqb_spec d 0) as [|_]; [done|].
  set (k := Z.quot (e - P a) d).
  assert (0 ≤ k ∧ (k * d) * Z.sgn d ≤ (e - P a) * Z.sgn d ∧ Z.abs k ≤ Z.abs (e - P a)) as (Hk0 & Hk & Hka).
  { destruct (Z.lt_ge_cases 0 d).
    - pose proof (Z.quot_pos (e - P a) d ltac:(nia) ltac:(lia)) as Q1.
      pose proof (Z.mul_quot_le (e - P a) d ltac:(nia) ltac:(lia)) as Q2. fold k in Q1, Q2. nia.
    - pose proof (Z.quot_pos (- (e - P a)) (- d) ltac:(nia) ltac:(lia)) as Q1.
      pose proof (Z.mul_quot_le (- (e - P a)) (- d) ltac:(nia) ltac:(lia)) as Q2.
      rewrite Z.quot_opp_opp in Q1, Q2 by lia. fold k in Q1, Q2. nia. }
  unfold rep in R1. rewrite schk_rep by (unfold rep; lia). cbn [mbind outcome_bind].
  rewrite (wrapu_small W k), (wrapu_small W cs) by lia.
  assert (k ≤ n) as Hkn.
  { destruct (decide (k = 0)); [lia|]. pose proof (pos_advance start e d Hd Hdir a k ltac:(lia) ltac:(lia) Hk). lia. }
  rewrite (wrapu_small W (k + nt - 1)) by lia.
  set (q := if _ <? cs then cs else _). assert (1 ≤ q) as Hq by (unfold q; destruct (Z.ltb_spec ((k + nt - 1) / nt) cs); lia).
  destruct (Z.leb_spec q k) as [Hqk|Hqk]; [|exists n; rewrite En; split; [done|lia]].
  destruct (pos_advance start e d Hd Hdir a q) as [H1 H2]; [lia|lia|destruct (Z.lt_ge_cases 0 d); nia|].
  exists (a + q). rewrite H2. rewrite wraps_small by (lia || (pose proof (pos_rep (a + q) ltac:(lia)) as [_ R]; unfold rep in R; lia)).
  split; [done|lia].
Qed.

Context (gcc_sync : bool) (ws0 : gomp_work_share) (c : Z).
Hypothesis Hnt : 1 ≤ nt ∧ n + nt < 2 ^ W.
Hypothesis Hws : next ws0 = start ∧ end_ ws0 = e ∧ incr ws0 = d.
Hypothesis Hc : 1 ≤ c.
Hypothesis Hchunk : chunk_size ws0 = match sched ws0 with GFS_DYNAMIC => c * d | _ => c end.
Hypothesis Hrep : rep W (chunk_size ws0).

(** The iterations of a list of blocks. *)
Definition run_blocks (bs : list (Z * Z)) : list Z := concat ((λ b, iters d b.1 b.2) <$> bs).

Lemma run_blocks_snoc bs k k' :
  run_blocks bs = (λ k, start + k * d) <$> seqZ 0 k → 0 ≤ k ≤ k' → k' ≤ n →
  run_blocks (bs ++ [(P k, P k')]) = (λ k, start + k * d) <$> seqZ 0 k'.
Proof.
  destruct Hloop. intros Hbs Hk Hk'. unfold run_blocks in *. rewrite fmap_app, concat_app, Hbs. cbn [concat fmap list_fmap fst snd].
  rewrite app_nil_r, iters_pos by (done || lia). rewrite <-fmap_app. f_equal.
  pose proof (seqZ_split 0 k k' ltac:(lia)) as E. rewrite !Z.sub_0_r in E. done.
Qed.

(** *** Under the lock, or by compare and swap *)

Definition state_ok (k : Z) (t : tstate) : Prop :=
  match t with
  | Asking => True
  | InDynamic s ch => sched ws0 = GFS_DYNAMIC ∧ ∃ a, 0 ≤ a ≤ k ∧ s = P a ∧ chunk_ok c a ch
  | InGuided s => sched ws0 ≠ GFS_DYNAMIC ∧ ∃ a, 0 ≤ a ≤ k ∧ s = P a
  | Finished => k = n
  end.

Lemma state_ok_mono k k' t : k ≤ k' ≤ n → state_ok k t → state_ok k' t.
Proof. intros Hk. destruct t as [|s ch|s|]; simpl; [done|naive_solver lia|naive_solver lia|lia]. Qed.

Definition given (k k' : Z) (r : option (Z * Z)) : Prop :=
  match r with Some b => b = (P k, P k') ∧ k < k' | None => k' = k end.

Lemma pos_eqb a b : 0 ≤ a ≤ n → 0 ≤ b ≤ n → (P a =? P b) = (a =? b).
Proof.
  intros Ha Hb. destruct Hloop. destruct (Z.eqb_spec a b) as [->|Hne]; [apply Z.eqb_refl|].
  apply Z.eqb_neq. intros E. apply Hne. eapply pos_inj; [| | | |exact E]; done.
Qed.

Lemma locked_call k :
  0 ≤ k ≤ n → gcc_sync = false →
  ∃ r k', thread_call W gcc_sync nt (set_next (P k) ws0) Asking = Ok (after r, r, set_next (P k') ws0) ∧
    k ≤ k' ≤ n ∧ given k k' r ∧ state_ok k' (after r).
Proof.
  intros Hk ->. pose proof Hloop as [Hd _ _ _ Hdir _ _ _]. destruct Hws as (E1 & E2 & E3).
  assert (P n = e) as En by (apply pos_end; [done|done|lia|done]).
  assert ((P k =? e) = (k =? n)) as Ek by (rewrite <-En at 2; apply pos_eqb; lia).
  assert (∀ b, set_next (P b) (set_next (P k) ws0) = set_next (P b) ws0) as Es by done.
  cbn [thread_call set_next sched]. destruct (decide (sched ws0 = GFS_DYNAMIC)) as [Esc|Hsc].
  - rewrite Esc in *. unfold gomp_iter_dynamic_next_locked. cbn [next set_next end_ incr chunk_size]. rewrite E2, E3, Ek.
    destruct (Z.eqb_spec k n) as [->|Hne]; cbn [mbind outcome_bind]; [exists None, n; split_and!; first [done|lia]|].
    destruct (dynamic_chunk_spec c k (chunk_size ws0)) as (b & ch & -> & Hb & _); [done|lia|left; by rewrite Hchunk|].
    cbn [mbind outcome_bind]. exists (Some (P k, P b)), b. split_and!; first [done|lia|split; [done|lia]].
  - assert (chunk_size ws0 = c) as Ecs by (rewrite Hchunk; by destruct (sched ws0)).
    assert (gomp_iter_guided_next_locked W (set_next (P k) ws0) nt = (if k =? n then Ok (None, set_next (P k) ws0) else
      x ← guided_end W e d c nt (P k); Ok (Some (P k, x), set_next x ws0))) as Eg.
    { unfold gomp_iter_guided_next_locked. cbn [next set_next end_ incr chunk_size]. by rewrite E2, E3, Ek, Ecs. }
    assert (∃ r k', gomp_iter_guided_next_locked W (set_next (P k) ws0) nt = Ok (r, set_next (P k') ws0) ∧
      k ≤ k' ≤ n ∧ given k k' r ∧ state_ok k' (after r)) as (r & k' & E & H).
    { rewrite Eg. destruct (Z.eqb_spec k n) as [->|Hne]; [exists None, n; split_and!; first [done|lia]|].
      destruct (guided_end_spec c k) as (b & -> & Hb); [unfold rep in Hrep; lia|lia|lia|lia|].
      cbn [mbind outcome_bind]. exists (Some (P k, P b)), b. split_and!; first [done|lia|split; [done|lia]]. }
    exists r, k'. split; [|done]. destruct (sched ws0); try done; by rewrite E.
Qed.

Lemma swap_call a k b :
  0 ≤ a ≤ k → k ≤ n → a < b ≤ n →
  compare_and_swap (set_next (P k) ws0) (P a) (P b) = (P k, set_next (P (if k =? a then b else k)) ws0) ∧
  (P k =? P a) = (k =? a).
Proof.
  intros Ha Hk Hb. unfold compare_and_swap. cbn [next set_next]. rewrite pos_eqb by lia. by destruct (Z.eqb_spec k a).
Qed.

Lemma cas_call k t :
  0 ≤ k ≤ n → gcc_sync = true → (sched ws0 = GFS_DYNAMIC → mode ws0 = false) → state_ok k t → t ≠ Finished →
  ∃ t' r k', thread_call W gcc_sync nt (set_next (P k) ws0) t = Ok (t', r, set_next (P k') ws0) ∧
    k ≤ k' ≤ n ∧ given k k' r ∧ state_ok k' t'.
Proof.
  intros Hk -> Hmode Hst Hfin. pose proof Hloop as [Hd _ _ _ Hdir _ _ _]. destruct Hws as (E1 & E2 & E3).
  assert (P n = e) as En by (apply pos_end; [done|done|lia|done]).
  assert (∀ a, 0 ≤ a ≤ k → (P a =? e) = (a =? n)) as Ek by (intros; rewrite <-En at 2; apply pos_eqb; lia).
  destruct t as [|s ch|s|]; [..|done]; cbn [thread_call set_next sched mode].
  - exists (if decide (sched ws0 = GFS_DYNAMIC) then InDynamic (P k) (chunk_size ws0) else InGuided (P k)), None, k.
    split; [|split; [lia|split; [done|]]].
    + destruct (sched ws0); try done. by rewrite Hmode.
    + case_decide as Hs; (split; [done|]); exists k; [|split; [lia|done]].
      split; [lia|]. split; [done|]. left. by rewrite Hchunk, Hs.
  - destruct Hst as (Hs & a & Ha & -> & Hch). unfold dynamic_next_turn. cbn [end_ incr set_next]. rewrite E2, E3, Ek by lia.
    destruct (Z.eqb_spec a n) as [->|Hne].
    { exists Finished, None, k. split_and!; first [done|lia|cbn; lia]. }
    destruct (dynamic_chunk_spec c a ch) as (b & ch' & -> & Hb & Hok); [done|lia|done|]. cbn [mbind outcome_bind].
    destruct (swap_call a k b) as [-> ->]; [lia..|]. destruct (Z.eqb_spec k a) as [->|Hka]; cbn [mbind outcome_bind].
    + exists Asking, (Some (P a, P b)), b. split_and!; first [done|lia|split; [done|lia]].
    + exists (InDynamic (P k) ch'), None, k. split_and!; [done|lia|lia|done|]. split; [done|]. exists k.
      split_and!; [lia|lia|done|apply Hok; lia].
  - destruct Hst as (Hs & a & Ha & ->). unfold guided_next_turn. cbn [end_ incr set_next chunk_size]. rewrite E2, E3, Ek by lia.
    destruct (Z.eqb_spec a n) as [->|Hne].
    { exists Finished, None, k. split_and!; first [done|lia|cbn; lia]. }
    assert (chunk_size ws0 = c) as -> by (rewrite Hchunk; by destruct (sched ws0)).
    assert (chunk_size ws0 = c) as Ecs by (rewrite Hchunk; by destruct (sched ws0)). unfold rep in Hrep. rewrite Ecs in Hrep.
    destruct (guided_end_spec c a) as (b & -> & Hb); [lia|lia|lia|lia|]. cbn [mbind outcome_bind].
    destruct (swap_call a k b) as [-> ->]; [lia..|]. destruct (Z.eqb_spec k a) as [->|Hka]; cbn [mbind outcome_bind].
    + exists Asking, (Some (P a, P b)), b. split_and!; first [done|lia|split; [done|lia]].
    + exists (InGuided (P k)), None, k. split_and!; [done|lia|lia|done|]. split; [done|]. exists k. split; [lia|done].
Qed.

(** What holds in every state: [k] iterations are handed out, in order. *)
Record winv (w : world) (k : Z) : Prop := {
  wi_k : 0 ≤ k ≤ n;
  wi_share : share w = set_next (P k) ws0;
  wi_blocks : run_blocks (blocks w) = (λ k, start + k * d) <$> seqZ 0 k;
  wi_count : Z.of_nat (length (blocks w)) ≤ k;
  wi_states : Forall (λ t, state_ok k t ∧ (gcc_sync = false → t = Asking ∨ t = Finished)) (states w) }.

Lemma winv_call w k t :
  (sched ws0 = GFS_DYNAMIC → gcc_sync = true → mode ws0 = false) →
  winv w k → t ∈ states w → t ≠ Finished →
  ∃ t' r k', thread_call W gcc_sync nt (share w) t = Ok (t', r, set_next (P k') ws0) ∧
    k ≤ k' ≤ n ∧ given k k' r ∧ state_ok k' t' ∧ (gcc_sync = false → t' = Asking ∨ t' = Finished).
Proof.
  intros Hmode [Hk Hsh _ _ Hst] Ht Hfin. rewrite Forall_forall in Hst. destruct (Hst t Ht) as [Hok Hl]. rewrite Hsh.
  destruct (decide (gcc_sync = true)) as [Es|Es].
  - destruct (cas_call k t Hk Es) as (t' & r & k' & H1 & H2 & H3 & H4); [by intros; apply Hmode|done|done|].
    exists t', r, k'. split_and!; try done; try lia. congruence.
  - apply not_true_is_false in Es. destruct (Hl Es) as [->| ->]; [|done].
    destruct (locked_call k Hk Es) as (r & k' & H1 & H2 & H3 & H4). exists (after r), r, k'.
    split_and!; try done; try lia. intros _. destruct r; simpl; auto.
Qed.

Lemma reachable_winv w :
  (sched ws0 = GFS_DYNAMIC → gcc_sync = true → mode ws0 = false) →
  reachable W gcc_sync nt ws0 w → ∃ k, winv w k.
Proof.
  intros Hmode. destruct Hloop as [Hd _ _ _ Hdir _ _ _]. destruct (niters_spec d start e Hd Hdir) as [H0 _]. destruct Hws as (E1 & E2 & E3).
  induction 1 as [|w w' _ [k Hinv] Hstep].
  { exists 0. split; [lia| |done|cbn; lia|].
    - cbn [share]. destruct ws0 as [sc mo cs en ic nx]; unfold set_next. simpl in *. subst. f_equal.
      by rewrite pos_0.
    - cbn [states]. apply Forall_replicate. split; [done|]. auto. }
  destruct Hstep as [w i t t' r ws' Hi Hfin Hcall].
  destruct (winv_call w k t Hmode Hinv) as (t1 & r1 & k1 & Hc1 & Hk1 & Hg & Hok & Hl); [by eapply list_elem_of_lookup_2|done|].
  rewrite Hcall in Hc1. simplify_eq. destruct Hinv as [Hk Hsh Hbs Hlen Hst]. exists k1. split; cbn [share states blocks]; [lia|done|..].
  - destruct r1 as [b|]; simpl in Hg; [destruct Hg as [-> Hlt]|subst k1; by rewrite app_nil_r].
    apply run_blocks_snoc; [done|lia|lia].
  - rewrite length_app. destruct r1 as [b|]; simpl in Hg |- *; [destruct Hg; lia|subst; lia].
  - apply Forall_insert; [|done]. eapply Forall_impl; [exact Hst|]. intros u [Hu1 Hu2]. split; [|done].
    eapply state_ok_mono; [|done]. lia.
Qed.

(** *** By fetch and add *)

Definition headroom : Prop := e * Z.sgn d + (nt + 1) * (c * Z.abs d) < 2 ^ (W - 1) - 1.

Record ainv (w : world) (j : Z) : Prop := {
  ai_j : 0 ≤ j;
  ai_share : share w = set_next (start + j * (c * d)) ws0;
  ai_blocks : run_blocks (blocks w) = (λ k, start + k * d) <$> seqZ 0 (Z.min (j * c) n);
  ai_count : Z.of_nat (length (blocks w)) ≤ Z.min (j * c) n;
  ai_states : Forall (λ t, t = Asking ∨ (t = Finished ∧ n ≤ j * c)) (states w);
  ai_length : Z.of_nat (length (states w)) = nt;
  ai_ahead : j * c < n + c + Z.of_nat (finished (states w)) * c }.

(** The counter never leaves the range of its type: it is at most one chunk
    per thread ahead of the end. *)
Lemma add_call j f :
  headroom → sched ws0 = GFS_DYNAMIC → 0 ≤ j → 0 ≤ f < nt → j * c < n + c + f * c →
  dynamic_next_add W (set_next (start + j * (c * d)) ws0) =
    Ok (if j * c <? n then Some (P (j * c), P (Z.min ((j + 1) * c) n)) else None, set_next (start + (j + 1) * (c * d)) ws0).
Proof.
  intros Hh Hs Hj Hf Ha. pose proof Hloop as [Hd _ Rs Re Hdir _ _ _]. destruct Hws as (E1 & E2 & E3).
  destruct (niters_spec d start e Hd Hdir) as [H0 H1].
  assert (rep W (start + j * (c * d) + c * d)) as Hr.
  { unfold rep, headroom in *. assert (j * c ≤ n - 1 + nt * c) by nia.
    assert (start * Z.sgn d + (j * c + c) * Z.abs d ≤ e * Z.sgn d + (nt + 1) * (c * Z.abs d)).
    { assert (start * Z.sgn d + (n - 1) * Z.abs d ≤ e * Z.sgn d) by (destruct (Z.lt_ge_cases 0 d); nia). nia. }
    assert (0 ≤ (j * c + c) * Z.abs d) by nia. destruct (Z.lt_ge_cases 0 d); nia. }
  unfold dynamic_next_add. cbn [next set_next incr end_ chunk_size]. rewrite E2, E3, Hchunk, Hs.
  assert (wraps W (start + j * (c * d) + c * d) = start + (j + 1) * (c * d)) as ->.
  { rewrite wraps_small by (unfold rep in Hr; lia). lia. }
  assert (∀ x, (if 0 <? d then e <=? x else x <=? e) = (0 <=? (x - e) * Z.sgn d)) as Htest.
  { intros x. destruct (Z.ltb_spec 0 d), (Z.leb_spec e x), (Z.leb_spec x e), (Z.leb_spec 0 ((x - e) * Z.sgn d)); try done; nia. }
  pose proof (Htest (start + j * (c * d))) as Ht. rewrite schk_rep by done. cbn [mbind outcome_bind].
  destruct (Z.ltb_spec (j * c) n) as [Hlt|Hge].
  - assert ((0 <=? (start + j * (c * d) - e) * Z.sgn d) = false) as E by (apply Z.leb_gt; destruct (Z.lt_ge_cases 0 d); nia).
    rewrite E in Ht. assert (P (j * c) = start + j * (c * d)) as -> by (unfold pos; destruct (Z.ltb_spec (j * c) n); lia).
    assert ((if 0 <? d then (if e <? start + j * (c * d) + c * d then e else start + j * (c * d) + c * d)
             else (if start + j * (c * d) + c * d <? e then e else start + j * (c * d) + c * d)) = P (Z.min ((j + 1) * c) n)) as Hn.
    { unfold pos. destruct (Z.ltb_spec (Z.min ((j + 1) * c) n) n), (Z.ltb_spec 0 d),
        (Z.ltb_spec e (start + j * (c * d) + c * d)), (Z.ltb_spec (start + j * (c * d) + c * d) e); nia. }
    destruct (0 <? d); rewrite Ht, Hn; done.
  - assert ((0 <=? (start + j * (c * d) - e) * Z.sgn d) = true) as E by (apply Z.leb_le; destruct (Z.lt_ge_cases 0 d); nia).
    rewrite E in Ht. destruct (0 <? d); rewrite Ht; done.
Qed.

Lemma ainv_call w j t :
  headroom → sched ws0 = GFS_DYNAMIC → gcc_sync = true → mode ws0 = true → ainv w j → t ∈ states w → t ≠ Finished →
  ∃ r, thread_call W gcc_sync nt (share w) t = Ok (after r, r, set_next (start + (j + 1) * (c * d)) ws0) ∧
    r = if j * c <? n then Some (P (j * c), P (Z.min ((j + 1) * c) n)) else None.
Proof.
  intros Hh Hs -> Hm [Hj Hsh _ _ Hst Hlen Hah] Ht Hfin. rewrite Forall_forall in Hst.
  destruct (Hst t Ht) as [->|[-> _]]; [|done]. rewrite Hsh. cbn [thread_call set_next sched mode]. rewrite Hs, Hm.
  apply list_elem_of_lookup_1 in Ht as [i Hi]. destruct (finished_insert (states w) i Asking Asking Hi) as [_ Hlt]; [done|].
  pose proof (add_call j (Z.of_nat (finished (states w))) Hh Hs Hj ltac:(lia) Hah) as E.
  change {| sched := sched ws0; mode := mode ws0; chunk_size := chunk_size ws0; end_ := end_ ws0; incr := incr ws0; next := start + j * (c * d) |}
    with (set_next (start + j * (c * d)) ws0). rewrite E. cbn [mbind outcome_bind]. eauto.
Qed.

Lemma reachable_ainv w :
  headroom → sched ws0 = GFS_DYNAMIC → gcc_sync = true → mode ws0 = true → reachable W gcc_sync nt ws0 w → ∃ j, ainv w j.
Proof.
  intros Hh Hs Hsy Hm. pose proof Hloop as [Hd _ _ _ Hdir _ _ _]. destruct (niters_spec d start e Hd Hdir) as [H0 _].
  destruct Hws as (E1 & E2 & E3). induction 1 as [|w w' _ [j Hinv] Hstep].
  { exists 0. split; cbn [share states blocks]; [lia| | | | | |].
    - destruct ws0; unfold set_next. simpl in *. subst. f_equal. lia.
    - by rewrite Z.min_l by lia.
    - cbn. lia.
    - apply Forall_replicate. by left.
    - rewrite length_replicate. lia.
    - lia. }
  destruct Hstep as [w i t t' r ws' Hi Hfin Hcall].
  destruct (ainv_call w j t Hh Hs Hsy Hm Hinv) as (r1 & Hc1 & Hr); [by eapply list_elem_of_lookup_2|done|].
  rewrite Hcall in Hc1. injection Hc1 as -> -> ->. destruct Hinv as [Hj Hsh Hbs Hlen Hst Hls Hah].
  destruct (finished_insert (states w) i t (after r1) Hi Hfin) as [Hf Hlt].
  exists (j + 1). destruct (Z.ltb_spec (j * c) n) as [Hlow|Hhigh]; subst r1; split; cbn [share states blocks after]; [lia|done|..].
  - apply run_blocks_snoc; [by rewrite Z.min_l in Hbs by lia|nia|lia].
  - rewrite length_app. cbn [length]. nia.
  - apply Forall_insert; [|by left]. eapply Forall_impl; [exact Hst|]. intros u [->|[-> Hu]]; [by left|lia].
  - by rewrite length_insert.
  - cbn [after] in Hf. rewrite Hf, decide_False by done. nia.
  - lia.
  - done.
  - rewrite app_nil_r. rewrite !Z.min_r in * by nia. done.
  - rewrite app_nil_r. rewrite !Z.min_r in * by nia. done.
  - apply Forall_insert; [|right; split; [done|nia]]. eapply Forall_impl; [exact Hst|].
    intros u [->|[-> Hu]]; [by left|right; split; [done|nia]].
  - by rewrite length_insert.
  - cbn [after] in Hf. rewrite Hf, decide_True by done. nia.
Qed.
End interleaving.

(** The fields after the initialisation, and what the test on overflow gives. *)
Lemma loop_init_dynamic W sync nt start e d sc chunk m ws :
  2 ≤ W → 1 ≤ nt → 1 ≤ chunk → d ≠ 0 → sc = GFS_DYNAMIC ∨ sc = GFS_GUIDED →
  gomp_loop_init W sync nt start e d sc chunk m = Ok ws →
  next ws = start ∧ incr ws = d ∧ sched ws = sc ∧ chunk_size ws = match sc with GFS_DYNAMIC => chunk * d | _ => chunk end ∧
  (sc = GFS_DYNAMIC → sync = true → mode ws = true → headroom W nt (end_ ws) d chunk).
Proof.
  intros HW Hnt Hch Hd [->| ->] H; unfold gomp_loop_init in H; [|injection H as <-; by split_and!].
  apply bind_Ok in H as (c & Hc & H). apply bind_Ok in H as (m' & Hm & H). injection H as <-. cbn [next incr sched chunk_size end_ mode].
  apply schk_inv in Hc as ->.
  split_and!; [done..|]. intros _ -> ->. unfold headroom, LONG_MAX in *.
  set (e' := if _ || _ then start else e) in *.
  destruct (Z.ltb_spec 0 d).
  - case_match; [done|]. apply bind_Ok in Hm as (p & Hp & Hm). apply bind_Ok in Hm as (l & Hl & Hm).
    injection Hm as Hm. apply Z.ltb_lt in Hm. apply schk_inv in Hl as ->, Hp as ->. rewrite Z.sgn_pos, Z.abs_eq by lia. lia.
  - apply bind_Ok in Hm as (nc & Hnc & Hm). case_match; [done|]. apply bind_Ok in Hm as (p & Hp & Hm).
    apply bind_Ok in Hm as (l & Hl & Hm). injection Hm as Hm. apply Z.ltb_lt in Hm.
    apply schk_inv in Hl as ->, Hp as ->, Hnc as ->. rewrite Z.sgn_neg, Z.abs_neq by lia. lia.
Qed.

(** C32. The dynamic and guided schedules share the iterations of a loop in
    every interleaving of the threads, with the lock, with compare and swap and
    with fetch and add: the blocks handed out so far are, in order, the first
    iterations of the loop, each once; no computation overflows, the shared
    counter included, which may run past the end once per thread; no more
    blocks are handed out than there are iterations; and as soon as a thread is
    told that there is no more work, all the iterations are handed out. *)
Theorem gomp_dynamic_each_once W sync nt start e d sc chunk m ws w :
  2 ≤ W → sc = GFS_DYNAMIC ∨ sc = GFS_GUIDED → gomp_loop_init W sync nt start e d sc chunk m = Ok ws →
  loop_ok W start (end_ ws) d → 1 ≤ chunk → rep W (chunk * d) → 1 ≤ nt → niters d start (end_ ws) + nt < 2 ^ W →
  reachable W sync nt ws w →
  (∀ t, t ∈ states w → is_ok (thread_call W sync nt (share w) t) = true) ∧
  (∃ rest, iters d start (end_ ws) = run_blocks d (blocks w) ++ rest) ∧
  (length (blocks w) ≤ length (iters d start (end_ ws)))%nat ∧
  (Finished ∈ states w → run_blocks d (blocks w) = iters d start (end_ ws)).
Proof.
  intros HW Hsc Hinit Hl Hch Hrep Hnt Hb Hreach. pose proof Hl as [Hd _ _ _ Hdir _ _ _].
  destruct (loop_init_dynamic _ _ _ _ _ _ _ _ _ _ HW Hnt Hch Hd Hsc Hinit) as (E1 & E2 & E3 & E4 & Hhead).
  rewrite <-E3 in E4. assert (rep W (chunk_size ws)) as Hrc by (unfold rep in *; rewrite E4; destruct (sched ws); nia).
  pose proof (length_iters d start (end_ ws)) as Hli. destruct (niters_spec d start (end_ ws) Hd Hdir) as [H0 _].
  assert (∀ k, 0 ≤ k ≤ niters d start (end_ ws) → run_blocks d (blocks w) = (λ k, start + k * d) <$> seqZ 0 k →
    (∃ rest, iters d start (end_ ws) = run_blocks d (blocks w) ++ rest) ∧
    (k = niters d start (end_ ws) → run_blocks d (blocks w) = iters d start (end_ ws))) as Hfin.
  { intros k Hk ->. split; [|by intros ->]. exists ((λ k, start + k * d) <$> seqZ k (niters d start (end_ ws) - k)).
    rewrite <-fmap_app. unfold iters. f_equal. pose proof (seqZ_split 0 k (niters d start (end_ ws)) ltac:(lia)) as E.
    by rewrite !Z.sub_0_r in E. }
  destruct (decide (sc = GFS_DYNAMIC ∧ sync = true ∧ mode ws = true)) as [(-> & -> & Hm)|Hn].
  - destruct (reachable_ainv W nt start (end_ ws) d HW Hl true ws chunk ltac:(done) ltac:(done) Hch E4 Hrc w) as [j Hinv];
      [by apply Hhead|done|done|done|done|].
    destruct (Hfin (Z.min (j * chunk) (niters d start (end_ ws)))) as [G1 G2]; [destruct Hinv; nia|by destruct Hinv|].
    split_and!; [|done|destruct Hinv; lia|].
    + intros t Ht. destruct (decide (t = Finished)) as [->|Hne]; [done|].
      destruct (ainv_call W nt start (end_ ws) d HW Hl true ws chunk ltac:(done) ltac:(done) Hch E4 Hrc w j t) as (r & -> & _);
        [by apply Hhead|done..].
    + intros Hf. apply G2. destruct Hinv as [_ _ _ _ Hst _ _]. rewrite Forall_forall in Hst. destruct (Hst _ Hf) as [?|[_ ?]]; [done|lia].
  - assert (sched ws = GFS_DYNAMIC → sync = true → mode ws = false) as Hmode.
    { intros Hs Hsy. apply not_true_is_false. intros Hm. apply Hn. by rewrite <-E3. }
    destruct (reachable_winv W nt start (end_ ws) d HW Hl sync ws chunk ltac:(done) ltac:(done) Hch E4 Hrc w Hmode Hreach) as [k Hinv].
    destruct (Hfin k) as [G1 G2]; [by destruct Hinv|by destruct Hinv|].
    split_and!; [|done|destruct Hinv; lia|].
    + intros t Ht. destruct (decide (t = Finished)) as [->|Hne]; [done|].
      destruct (winv_call W nt start (end_ ws) d HW Hl sync ws chunk ltac:(done) ltac:(done) Hch E4 Hrc w k t Hmode Hinv Ht Hne)
        as (? & ? & ? & -> & _). done.
    + intros Hf. apply G2. destruct Hinv as [_ _ _ _ Hst]. rewrite Forall_forall in Hst. by destruct (Hst _ Hf) as [? _].
Qed.

(** ** Overflow of the static schedule *)

(** The position of a chunk is computed modulo the width: with four threads and
    chunks of [2^30] iterations, the second chunk of the first thread is its
    first one again, and so are all the following ones, although it is
    compared with the number of iterations to detect an overflow. *)
Theorem static_chunk_wraps :
  ∃ ws, gomp_loop_init 32 false 4 0 (2 ^ 31 - 1) 1 GFS_STATIC (2 ^ 30) false = Ok ws ∧
    gomp_iter_static_next 32 ws 4 0 0 = Ok (0, Some (0, 2 ^ 30), 1) ∧
    gomp_iter_static_next 32 ws 4 0 1 = Ok (0, Some (0, 2 ^ 30), 2).
Proof.
  exists {| sched := GFS_STATIC; mode := false; chunk_size := 2 ^ 30; end_ := 2 ^ 31 - 1; incr := 1; next := 0 |}.
  split_and!; vm_compute; reflexivity.
Qed.

(** ** Witnesses *)

Definition demo_ws (sc : gomp_schedule_type) : gomp_work_share :=
  ok_or {| sched := sc; mode := false; chunk_size := 0; end_ := 0; incr := 0; next := 0 |}
    (gomp_loop_init 32 true 3 10 (-8) (-2) sc 2 false).

Lemma demo_loop_ok sc : loop_ok 32 10 (end_ (demo_ws sc)) (-2).
Proof. destruct sc; split; vm_compute; congruence. Qed.

Lemma gomp_static_partition_witness :
  ∃ blocks, static_team 32 (demo_ws GFS_STATIC) 3 (S (S (length (iters (-2) 10 (-8))))) = Ok blocks ∧
    concat blocks ≡ₚ iters (-2) 10 (-8).
Proof.
  refine (gomp_static_partition 32 true 3 10 (-8) (-2) 2 false (demo_ws GFS_STATIC) _ eq_refl (demo_loop_ok _) _ _ _);
    vm_compute; repeat split; congruence.
Defined.

Definition demo_world : world :=
  {| share := set_next 6 (demo_ws GFS_DYNAMIC); states := [Asking; Asking; Asking]; blocks := [(10, 6)] |}.

Lemma demo_world_reachable : reachable 32 true 3 (demo_ws GFS_DYNAMIC) demo_world.
Proof.
  eapply ReachStep; [apply ReachInit|].
  apply (CallStep 32 true 3 {| share := demo_ws GFS_DYNAMIC; states := [Asking; Asking; Asking]; blocks := [] |}
    1 Asking Asking (Some (10, 6)) (set_next 6 (demo_ws GFS_DYNAMIC))); done.
Qed.

Lemma gomp_dynamic_each_once_witness :
  (∀ t, t ∈ states demo_world → is_ok (thread_call 32 true 3 (share demo_world) t) = true) ∧
  (∃ rest, iters (-2) 10 (-8) = run_blocks (-2) (blocks demo_world) ++ rest) ∧
  (length (blocks demo_world) ≤ length (iters (-2) 10 (-8)))%nat ∧
  (Finished ∈ states demo_world → run_blocks (-2) (blocks demo_world) = iters (-2) 10 (-8)).
Proof.
  refine (gomp_dynamic_each_once 32 true 3 10 (-8) (-2) GFS_DYNAMIC 2 false (demo_ws GFS_DYNAMIC) demo_world
    _ (or_introl eq_refl) eq_refl (demo_loop_ok _) _ _ _ _ demo_world_reachable); vm_compute; congruence.
Defined.
End GompIter.
