(* ===== verification/GompOrdered.v ===== *)
(** * OpenMP ordered loops (libgomp/ordered.c, libgomp/loop.c)

    The ordered regions of a loop with a dynamic or guided schedule run in the
    order of the iterations: each thread that is given a block of iterations
    enters a circular queue, and the head of the queue owns the region, which it
    passes on through semaphores.  The theorems are proved against the interface
    [BlockSource] of a source of blocks, which the schedules of [GompIter]
    implement. *)

From S2P Require Import Prelude GompIter.

(** A source of blocks of iterations. *)
Class BlockSource (S : Type) := {
  take_block : S → outcome (option (Z * Z) * S);
  block_iters : Z * Z → list Z }.

(** It hands out a loop in order: [future] is what is left of it. *)
Class BlockSourceLaws (S : Type) `{!BlockSource S} := {
  future : S → list Z;
  source_ok : S → Prop;
  take_block_spec s : source_ok s →
    ∃ r s', take_block s = Ok (r, s') ∧ source_ok s' ∧
      future s = match r with Some b => block_iters b ++ future s' | None => [] end ∧ (r = None → s' = s) }.

Module GompOrdered.

(** The fields of [struct gomp_work_share] used by ordered loops, and the
    semaphores [ordered_release] of the team.  The owner [-1u] is [None]. *)
Record ordered := {
  ordered_team_ids : list nat; ordered_num_used : nat; ordered_owner : option nat; ordered_cur : nat;
  ordered_release : list nat }.

Section ops.
Context (nthreads : nat).
Implicit Types (o : ordered) (team_id : nat).

Definition gomp_sem_post (i : nat) o : outcome ordered :=
  v ← of_option FBounds (ordered_release o !! i);
  Ok {| ordered_team_ids := ordered_team_ids o; ordered_num_used := ordered_num_used o; ordered_owner := ordered_owner o;
        ordered_cur := ordered_cur o; ordered_release := <[i := S v]> (ordered_release o) |}.

Definition set_id (index id : nat) o : outcome ordered :=
  if (index <? length (ordered_team_ids o))%nat then
    Ok {| ordered_team_ids := <[index := id]> (ordered_team_ids o); ordered_num_used := ordered_num_used o;
          ordered_owner := ordered_owner o; ordered_cur := ordered_cur o; ordered_release := ordered_release o |}
  else Err FBounds.
Definition set_num (k : nat) o : ordered :=
  {| ordered_team_ids := ordered_team_ids o; ordered_num_used := k; ordered_owner := ordered_owner o;
     ordered_cur := ordered_cur o; ordered_release := ordered_release o |}.
Definition set_owner (w : option nat) o : ordered :=
  {| ordered_team_ids := ordered_team_ids o; ordered_num_used := ordered_num_used o; ordered_owner := w;
     ordered_cur := ordered_cur o; ordered_release := ordered_release o |}.
Definition set_cur (c : nat) o : ordered :=
  {| ordered_team_ids := ordered_team_ids o; ordered_num_used := ordered_num_used o; ordered_owner := ordered_owner o;
     ordered_cur := c; ordered_release := ordered_release o |}.

Definition gomp_ordered_first team_id o : outcome ordered :=
  if (nthreads =? 1)%nat then Ok o
  else
    let index := (ordered_cur o + ordered_num_used o)%nat in
    let index := if (nthreads <=? index)%nat then (index - nthreads)%nat else index in
    o ← set_id index team_id o;
    let used := ordered_num_used o in
    let o := set_num (S used) o in
    if (used =? 0)%nat then gomp_sem_post team_id o else Ok o.

(** Hand the region over to the next thread of the queue. *)
Definition advance o : outcome ordered :=
  let next := S (ordered_cur o) in
  let next := if (next =? nthreads)%nat then 0%nat else next in
  let o := set_cur next o in
  next_id ← of_option FBounds (ordered_team_ids o !! next);
  gomp_sem_post next_id o.

Definition gomp_ordered_last o : outcome ordered :=
  if (nthreads =? 1)%nat then Ok o
  else
    let o := set_owner None o in
    let o := set_num (ordered_num_used o - 1) o in
    if (0 <? ordered_num_used o)%nat then advance o else Ok o.

Definition gomp_ordered_next team_id o : outcome ordered :=
  if (nthreads =? 1)%nat then Ok o
  else
    let o := set_owner None o in
    if (ordered_num_used o =? 1)%nat then gomp_sem_post team_id o
    else
      o ← (if (ordered_num_used o <? nthreads)%nat then
             let index := (ordered_cur o + ordered_num_used o)%nat in
             let index := if (nthreads <=? index)%nat then (index - nthreads)%nat else index in
             set_id index team_id o
           else Ok o);
      advance o.

(** [gomp_ordered_sync] in three steps: the test of the owner, the wait on the
    semaphore, the acknowledgement. *)
Definition sync_test team_id o : bool := (nthreads =? 1)%nat || bool_decide (ordered_owner o = Some team_id).
Definition sync_wait team_id o : outcome (option ordered) :=
  v ← of_option FBounds (ordered_release o !! team_id);
  Ok (match v with
      | O => None
      | S v => Some {| ordered_team_ids := ordered_team_ids o; ordered_num_used := ordered_num_used o;
                       ordered_owner := ordered_owner o; ordered_cur := ordered_cur o;
                       ordered_release := <[team_id := v]> (ordered_release o) |}
      end).
Definition sync_acknowledge team_id o : ordered := set_owner (Some team_id) o.

(** The critical sections of [gomp_loop_ordered_dynamic_start] and
    [gomp_loop_ordered_guided_start], and of the [next] functions. *)
Context {Src : Type} `{!BlockSource Src}.

Definition gomp_loop_ordered_start team_id (ws : Src) o : outcome (option (Z * Z) * Src * ordered) :=
  '(ret, ws) ← take_block ws;
  o ← (match ret with Some _ => gomp_ordered_first team_id o | None => Ok o end);
  Ok (ret, ws, o).

Definition gomp_loop_ordered_next team_id (ws : Src) o : outcome (option (Z * Z) * Src * ordered) :=
  '(ret, ws) ← take_block ws;
  o ← (match ret with Some _ => gomp_ordered_next team_id o | None => gomp_ordered_last o end);
  Ok (ret, ws, o).
End ops.

(** ** The circular queue *)

Section queue.
Context (nt : nat).
Hypothesis Hnt : (2 ≤ nt)%nat.

Definition qrep (ids : list nat) (cur : nat) (q : list nat) : Prop :=
  length ids = nt ∧ (cur < nt)%nat ∧ ∀ k i, q !! k = Some i → ids !! ((cur + k) mod nt)%nat = Some i.

Lemma wrap_index a : (a < 2 * nt)%nat → (if (nt <=? a)%nat then (a - nt)%nat else a) = (a mod nt)%nat.
Proof.
  intros Ha. destruct (Nat.leb_spec nt a); [|by rewrite Nat.mod_small].
  apply Nat.mod_unique with 1%nat; lia.
Qed.

Lemma wrap_succ c : (c < nt)%nat → (if (S c =? nt)%nat then 0%nat else S c) = (S c mod nt)%nat.
Proof. intros Hc. destruct (Nat.eqb_spec (S c) nt) as [->|]; [by rewrite Nat.Div0.mod_same|by rewrite Nat.mod_small by lia]. Qed.

Lemma index_ne cur k l : (cur < nt)%nat → (k < l)%nat → (l < nt)%nat → ((cur + k) mod nt ≠ (cur + l) mod nt)%nat.
Proof.
  intros Hc Hk Hl. rewrite <-!wrap_index by lia.
  destruct (Nat.leb_spec nt (cur + k)), (Nat.leb_spec nt (cur + l)); lia.
Qed.

Lemma qrep_snoc ids cur q i :
  qrep ids cur q → (length q < nt)%nat → qrep (<[((cur + length q) mod nt)%nat := i]> ids) cur (q ++ [i]).
Proof.
  intros (Hlen & Hc & Hq) Hl. split; [by rewrite length_insert|]. split; [done|]. intros k j Hk.
  destruct (decide (k < length q)%nat) as [Hlt|Hge].
  - rewrite lookup_app_l in Hk by done. rewrite list_lookup_insert_ne by (apply not_eq_sym, index_ne; lia). by apply Hq.
  - rewrite lookup_app_r in Hk by lia. pose proof (lookup_lt_Some _ _ _ Hk) as Hk1. simpl in Hk1.
    assert (k = length q) as -> by lia. rewrite Nat.sub_diag in Hk. injection Hk as <-.
    apply list_lookup_insert_eq. rewrite Hlen. apply Nat.mod_upper_bound. lia.
Qed.

Lemma qrep_tail ids cur h t : qrep ids cur (h :: t) → qrep ids (S cur mod nt)%nat t.
Proof.
  intros (Hlen & Hc & Hq). split; [done|]. split; [apply Nat.mod_upper_bound; lia|]. intros k i Hk.
  rewrite Nat.Div0.add_mod_idemp_l. replace (S cur + k)%nat with (cur + S k)%nat by lia. by apply Hq.
Qed.

Lemma qrep_rotate ids cur h t :
  qrep ids cur (h :: t) → length (h :: t) = nt → qrep ids cur ((h :: t) ++ [h]).
Proof.
  intros (Hlen & Hc & Hq) Hfull. split; [done|]. split; [done|]. intros k i Hk.
  destruct (decide (k < length (h :: t))%nat) as [Hlt|Hge]; [rewrite lookup_app_l in Hk by done; by apply Hq|].
  rewrite lookup_app_r in Hk by lia. pose proof (lookup_lt_Some _ _ _ Hk) as Hk1. simpl in Hk1.
  assert (k = nt) as -> by (cbn [length] in *; lia). rewrite Hfull, Nat.sub_diag in Hk. injection Hk as <-.
  replace (cur + nt)%nat with (cur + 0 + 1 * nt)%nat by lia. rewrite Nat.Div0.mod_add. by apply Hq.
Qed.

(** [o] represents the queue [q], with the given owner and semaphores. *)
Definition orep (o : ordered) (q : list nat) (own : option nat) (rel : list nat) : Prop :=
  qrep (ordered_team_ids o) (ordered_cur o) q ∧ ordered_num_used o = length q ∧ (length q ≤ nt)%nat ∧
  Forall (λ i, (i < nt)%nat) q ∧ ordered_owner o = own ∧ ordered_release o = rel ∧ length rel = nt.

Definition post (i : nat) (rel : list nat) : list nat := alter S i rel.

Lemma sem_post_spec o q own rel i :
  orep o q own rel → (i < nt)%nat → ∃ o', gomp_sem_post i o = Ok o' ∧ orep o' q own (post i rel).
Proof.
  intros (Hq & Hn & Hl & Hf & Ho & Hr & Hlen) Hi. unfold gomp_sem_post. rewrite Hr.
  destruct (lookup_lt_is_Some_2 rel i) as [v Hv]; [lia|]. rewrite Hv. cbn [of_option mbind outcome_bind].
  eexists. split; [done|]. unfold orep, post. cbn. rewrite length_alter. split_and!; try done.
  apply list_eq. intros j. destruct (decide (i = j)) as [<-|Hne].
  - rewrite list_lookup_insert_eq by lia. rewrite list_lookup_alter_eq, Hv. done.
  - rewrite list_lookup_insert_ne by done. by rewrite list_lookup_alter_ne.
Qed.

Lemma set_id_spec o q own rel i :
  orep o q own rel → (length q < nt)%nat → (i < nt)%nat →
  ∃ o', set_id ((ordered_cur o + length q) mod nt) i o = Ok o' ∧ ordered_num_used o' = length q ∧
    orep (set_num (S (length q)) o') (q ++ [i]) own rel.
Proof.
  intros (Hq & Hn & Hl & Hf & Ho & Hr & Hlen) Hlt Hi. unfold set_id.
  destruct (Nat.ltb_spec ((ordered_cur o + length q) mod nt) (length (ordered_team_ids o))) as [_|Hge].
  2:{ destruct Hq as (E & _). pose proof (Nat.mod_upper_bound (ordered_cur o + length q) nt ltac:(lia)). lia. }
  eexists. split; [done|]. cbn [ordered_num_used]. split; [done|]. unfold orep. cbn. rewrite length_app. cbn [length].
  split_and!; [by apply qrep_snoc|lia|lia|by apply Forall_app_2; [|constructor]|done|done|done].
Qed.

Lemma advance_spec o h n t rel :
  qrep (ordered_team_ids o) (ordered_cur o) (h :: n :: t) → ordered_num_used o = length (n :: t) → (length (n :: t) ≤ nt)%nat →
  Forall (λ i, (i < nt)%nat) (n :: t) → ordered_release o = rel → length rel = nt →
  ∃ o', advance nt o = Ok o' ∧ orep o' (n :: t) (ordered_owner o) (post n rel).
Proof.
  intros Hq Hn Hl Hf Hr Hlen. unfold advance. pose proof (qrep_tail _ _ _ _ Hq) as Hq'.
  rewrite wrap_succ by (by destruct Hq as (_ & ? & _)). cbn [ordered_team_ids set_cur].
  assert (ordered_team_ids o !! (S (ordered_cur o) mod nt)%nat = Some n) as ->.
  { destruct Hq' as (_ & _ & H). specialize (H 0%nat n eq_refl). by rewrite Nat.add_0_r, Nat.Div0.mod_mod in H. }
  cbn [of_option mbind outcome_bind]. apply sem_post_spec; [by split_and!|by apply Forall_cons in Hf as [? _]].
Qed.

Lemma orep_num o q own rel : orep o q own rel → ordered_num_used o = length q ∧ (ordered_cur o < nt)%nat.
Proof. intros (H & ? & _). split; [done|]. apply H. Qed.

(** [gomp_ordered_first] enters at the end of the queue. *)
Lemma ordered_first_spec o q own rel i :
  orep o q own rel → (length q < nt)%nat → (i < nt)%nat →
  ∃ o', gomp_ordered_first nt i o = Ok o' ∧ orep o' (q ++ [i]) own (if q is [] then post i rel else rel).
Proof.
  intros Ho Hl Hi. unfold gomp_ordered_first. destruct (Nat.eqb_spec nt 1) as [|_]; [lia|].
  destruct (orep_num _ _ _ _ Ho) as [En Hc]. rewrite En, wrap_index by lia.
  destruct (set_id_spec o q own rel i Ho Hl Hi) as (o1 & -> & En1 & Ho1). cbn [mbind outcome_bind]. rewrite En1.
  destruct q as [|h t]; [|by eexists].
  destruct (sem_post_spec _ _ _ _ i Ho1 Hi) as (o2 & -> & Ho2). by eexists.
Qed.

(** [gomp_ordered_last] leaves the queue and posts to its new head. *)
Lemma ordered_last_spec o h t own rel :
  orep o (h :: t) own rel →
  ∃ o', gomp_ordered_last nt o = Ok o' ∧ orep o' t None (if t is n :: _ then post n rel else rel).
Proof.
  intros Ho. unfold gomp_ordered_last. destruct (Nat.eqb_spec nt 1) as [|_]; [lia|].
  destruct (orep_num _ _ _ _ Ho) as [En Hc]. cbn [ordered_num_used set_num set_owner]. rewrite En. cbn [length]. rewrite Nat.sub_succ, Nat.sub_0_r.
  destruct Ho as (Hq & Hn & Hl & Hf & Ho & Hr & Hlen). apply Forall_cons in Hf as [_ Hf]. cbn [length] in Hl.
  destruct t as [|n t].
  - eexists. split; [done|]. unfold orep. cbn. split_and!; try done; [|lia]. destruct Hq as (? & ? & _). by split_and!.
  - destruct (advance_spec (set_num (length (n :: t)) (set_owner None o)) h n t rel) as (o' & E & Ho');
      [done|done|cbn [length] in *; lia|done|done|done|].
    by exists o'.
Qed.

(** [gomp_ordered_next] moves the head to the end of the queue and posts to the
    new head. *)
Lemma ordered_next_spec o h t own rel :
  orep o (h :: t) own rel →
  ∃ o' n t', t ++ [h] = n :: t' ∧ gomp_ordered_next nt h o = Ok o' ∧ orep o' (n :: t') None (post n rel).
Proof.
  intros Ho. unfold gomp_ordered_next. destruct (Nat.eqb_spec nt 1) as [|_]; [lia|].
  destruct (orep_num _ _ _ _ Ho) as [En Hc]. cbn [ordered_num_used ordered_cur set_owner]. rewrite En.
  assert (orep (set_owner None o) (h :: t) None rel) as Ho1 by (unfold orep in *; cbn; naive_solver).
  assert (h < nt)%nat as Hh by (destruct Ho as (_ & _ & _ & Hf & _); by apply Forall_cons in Hf as [? _]).
  destruct t as [|n t].
  { cbn [length Nat.eqb]. destruct (sem_post_spec _ _ _ _ h Ho1 Hh) as (o' & -> & Ho'). by exists o', h, []. }
  destruct (Nat.eqb_spec (length (h :: n :: t)) 1) as [|_]; [done|].
  assert (∀ o2, qrep (ordered_team_ids o2) (ordered_cur o2) (h :: n :: t ++ [h]) → ordered_num_used o2 = length (h :: n :: t) →
    ordered_release o2 = rel → ordered_owner o2 = None →
    ∃ o', advance nt o2 = Ok o' ∧ orep o' (n :: t ++ [h]) None (post n rel)) as Hadv.
  { intros o2 Hq2 En2 Er2 <-. destruct Ho as (_ & _ & Hl & Hf & _ & _ & Hlen). apply Forall_cons in Hf as [_ Hf].
    apply (advance_spec o2 h); [done|..]; [cbn [length] in *; rewrite length_app; cbn [length]; lia..| |done|done].
    rewrite app_comm_cons. apply Forall_app_2; [done|by constructor]. }
  destruct (Nat.ltb_spec (length (h :: n :: t)) nt) as [Hlt|Hge].
  - rewrite wrap_index by lia.
    destruct (set_id_spec (set_owner None o) (h :: n :: t) None rel h Ho1 Hlt Hh) as (o2 & E2 & En2 & Hq2 & _ & _ & _ & Eo & Er & _).
    cbn [ordered_cur set_owner] in E2. rewrite E2. cbn [mbind outcome_bind].
    destruct (Hadv o2) as (o' & -> & Ho'); [done..|]. by exists o', n, (t ++ [h]).
  - destruct Ho1 as (Hq & _ & Hl & _ & Eo & Er & _). cbn [mbind outcome_bind].
    destruct (Hadv (set_owner None o)) as (o' & -> & Ho'); [|done..|by exists o', n, (t ++ [h])].
    apply (qrep_rotate _ _ h (n :: t)); [done|lia].
Qed.
End queue.

(** ** The team *)

Section team.
Context (nt : nat) {Src : Type} `{!BlockSource Src}.

(** A thread that has not asked for a block yet; one that runs a block of which
    [rest] is left; one that waits on its semaphore in [gomp_ordered_sync]; one
    that was released but has not written [ordered_owner] yet; one that is past
    [gomp_ordered_sync], in the ordered region of the first iteration of [rest]
    or about to ask for the next block; one that is done. *)
Inductive ostate := OStart | ORun (rest : list Z) | OWait (rest : list Z) | OWoken (rest : list Z) | OIn (rest : list Z) | ODone.

Record world := { src : Src; ord : ordered; ths : list ostate; trace : list Z }.

Definition got (r : option (Z * Z)) : ostate := match r with Some b => ORun (block_iters b) | None => ODone end.

Inductive ostep : world → world → Prop :=
| StepStart w i r s' o' :
    ths w !! i = Some OStart → gomp_loop_ordered_start nt i (src w) (ord w) = Ok (r, s', o') →
    ostep w {| src := s'; ord := o'; ths := <[i := got r]> (ths w); trace := trace w |}
| StepSkip w i x rest :
    ths w !! i = Some (ORun (x :: rest)) →
    ostep w {| src := src w; ord := ord w; ths := <[i := ORun rest]> (ths w); trace := trace w |}
| StepTest w i rest :
    ths w !! i = Some (ORun rest) →
    ostep w {| src := src w; ord := ord w; trace := trace w;
               ths := <[i := if sync_test nt i (ord w) then OIn rest else OWait rest]> (ths w) |}
| StepWait w i rest o' :
    ths w !! i = Some (OWait rest) → sync_wait i (ord w) = Ok (Some o') →
    ostep w {| src := src w; ord := o'; ths := <[i := OWoken rest]> (ths w); trace := trace w |}
| StepAcknowledge w i rest :
    ths w !! i = Some (OWoken rest) →
    ostep w {| src := src w; ord := sync_acknowledge i (ord w); ths := <[i := OIn rest]> (ths w); trace := trace w |}
| StepRegion w i x rest :
    ths w !! i = Some (OIn (x :: rest)) →
    ostep w {| src := src w; ord := ord w; ths := <[i := ORun rest]> (ths w); trace := trace w ++ [x] |}
| StepNext w i r s' o' :
    ths w !! i = Some (OIn []) → gomp_loop_ordered_next nt i (src w) (ord w) = Ok (r, s', o') →
    ostep w {| src := s'; ord := o'; ths := <[i := got r]> (ths w); trace := trace w |}.

(** The state after [gomp_init_work_share]. *)
Definition init (s : Src) : world :=
  {| src := s; trace := []; ths := replicate nt OStart;
     ord := {| ordered_team_ids := replicate nt 0%nat; ordered_num_used := 0; ordered_owner := None; ordered_cur := 0;
               ordered_release := replicate nt 0%nat |} |}.

Inductive oreachable (s : Src) : world → Prop :=
| OReachInit : oreachable s (init s)
| OReachStep w w' : oreachable s w → ostep w w' → oreachable s w'.

(** ** Invariant *)

Context `{!BlockSourceLaws Src}.

Definition busy (t : ostate) : option (list Z) :=
  match t with ORun r | OWait r | OWoken r | OIn r => Some r | _ => None end.
Definition rest_of (ts : list ostate) (i : nat) : list Z := default [] (ts !! i ≫= busy).

Local Abbreviation zeros := (replicate nt 0%nat).

(** The head of the queue has the token: posted to its semaphore, taken from
    it, or acknowledged. *)
Definition token (h : nat) (t : ostate) (own : option nat) (rel : list nat) : Prop :=
  match t with
  | ORun _ => own = Some h ∧ rel = zeros ∨ own = None ∧ rel = post h zeros
  | OWait _ => own = None ∧ rel = post h zeros
  | OWoken _ => own = None ∧ rel = zeros
  | OIn _ => own = Some h ∧ rel = zeros
  | _ => False
  end.
Definition waiting (t : ostate) : Prop := match t with ORun _ | OWait _ => True | _ => False end.

Record oinv (loop : list Z) (w : world) (q : list nat) : Prop := {
  oi_src : source_ok (src w);
  oi_len : length (ths w) = nt;
  oi_rep : ∃ own rel, orep nt (ord w) q own rel ∧
    match q with
    | [] => own = None ∧ rel = zeros
    | h :: _ => ∃ th, ths w !! h = Some th ∧ token h th own rel
    end;
  oi_nodup : NoDup q;
  oi_busy : ∀ i th, ths w !! i = Some th → is_Some (busy th) ↔ i ∈ q;
  oi_waiting : ∀ j th, j ∈ tail q → ths w !! j = Some th → waiting th;
  oi_order : trace w ++ concat (rest_of (ths w) <$> q) ++ future (src w) `sublist_of` loop }.

Hypothesis Hnt : (2 ≤ nt)%nat.
Context (loop : list Z).
Implicit Types (q : list nat) (ts : list ostate) (i j h : nat).

Lemma rest_of_insert ts i t : (i < length ts)%nat → rest_of (<[i := t]> ts) i = default [] (busy t).
Proof. intros Hi. unfold rest_of. by rewrite list_lookup_insert_eq. Qed.
Lemma rest_of_insert_ne ts i j t : i ≠ j → rest_of (<[i := t]> ts) j = rest_of ts j.
Proof. intros Hi. unfold rest_of. by rewrite list_lookup_insert_ne. Qed.
Lemma rest_of_notin ts i t q : i ∉ q → rest_of (<[i := t]> ts) <$> q = rest_of ts <$> q.
Proof.
  intros Hi. apply list_fmap_ext. intros k j Hj. apply rest_of_insert_ne. intros ->. apply Hi. by eapply list_elem_of_lookup_2.
Qed.

Lemma concat_sublist {A B} (f g : A → list B) (l : list A) :
  (∀ x, x ∈ l → f x `sublist_of` g x) → concat (f <$> l) `sublist_of` concat (g <$> l).
Proof.
  induction l as [|x l IH]; intros H; [done|]. cbn [concat fmap list_fmap]. apply sublist_app; [apply H; set_solver|].
  apply IH. set_solver.
Qed.

(** A step of the thread [i] that changes the queue from [q] to [q']. *)
Lemma oinv_move w q q' i th' s' o' tr' :
  oinv loop w q → (i < length (ths w))%nat → source_ok s' → NoDup q' →
  (∃ own rel, orep nt o' q' own rel ∧
    match q' with
    | [] => own = None ∧ rel = zeros
    | h :: _ => ∃ t, <[i := th']> (ths w) !! h = Some t ∧ token h t own rel
    end) →
  (is_Some (busy th') ↔ i ∈ q') → (∀ j, j ≠ i → j ∈ q' ↔ j ∈ q) → (∀ j, j ≠ i → j ∈ tail q' → j ∈ tail q) →
  (i ∈ tail q' → waiting th') →
  tr' ++ concat (rest_of (<[i := th']> (ths w)) <$> q') ++ future s' `sublist_of` loop →
  oinv loop {| src := s'; ord := o'; ths := <[i := th']> (ths w); trace := tr' |} q'.
Proof.
  intros [_ H2 _ _ H5 H6 _] Hi Hs Hd Hrep Hb Hq Htl Hw Htr. split; cbn [src ord ths trace]; try done.
  - by rewrite length_insert.
  - intros j t Hj. destruct (decide (i = j)) as [<-|Hne].
    + rewrite list_lookup_insert_eq in Hj by done. by injection Hj as <-.
    + rewrite list_lookup_insert_ne in Hj by done. rewrite Hq by done. by apply H5.
  - intros j t Hj Ht. destruct (decide (i = j)) as [<-|Hne].
    + rewrite list_lookup_insert_eq in Ht by done. injection Ht as <-. by apply Hw.
    + rewrite list_lookup_insert_ne in Ht by done. eapply H6; [|done]. by apply Htl.
Qed.

(** A step of a thread that keeps its place in the queue. *)
Lemma oinv_keep w q i th th' o' tr' :
  oinv loop w q → ths w !! i = Some th → is_Some (busy th) → is_Some (busy th') →
  (∃ own rel, orep nt o' q own rel ∧
    match q with [] => False | h :: _ => ∃ t, <[i := th']> (ths w) !! h = Some t ∧ token h t own rel end) →
  (i ∈ tail q → waiting th') →
  tr' ++ (concat (rest_of (<[i := th']> (ths w)) <$> q)) `sublist_of` trace w ++ concat (rest_of (ths w) <$> q) →
  oinv loop {| src := src w; ord := o'; ths := <[i := th']> (ths w); trace := tr' |} q.
Proof.
  intros Hinv Hi Hb Hb' (own & rel & Ho & Hh) Hw Htr. pose proof Hinv as [H1 _ _ H4 H5 _ H7].
  apply (oinv_move w q); try done; [by eapply lookup_lt_Some| | |].
  - exists own, rel. split; [done|]. by destruct q.
  - split; [|done]. intros _. by apply (H5 i th).
  - etrans; [|exact H7]. rewrite !app_assoc. by apply sublist_app.
Qed.

(** The concatenation when one thread goes from [r] to a part of it. *)
Lemma rest_shrink ts i th th' q r r' :
  ts !! i = Some th → busy th = Some r → busy th' = Some r' → r' `sublist_of` r →
  concat (rest_of (<[i := th']> ts) <$> q) `sublist_of` concat (rest_of ts <$> q).
Proof.
  intros Hi Hb Hb' Hs. apply concat_sublist. intros j _. destruct (decide (i = j)) as [<-|Hne].
  - rewrite rest_of_insert by (by eapply lookup_lt_Some). unfold rest_of. rewrite Hi, Hb'. simpl. by rewrite Hb.
  - by rewrite rest_of_insert_ne.
Qed.

(** A thread with a block is the head, or waits behind it. *)
Lemma oinv_cases w q i th :
  oinv loop w q → ths w !! i = Some th → is_Some (busy th) →
  ∃ h t own rel, q = h :: t ∧ orep nt (ord w) (h :: t) own rel ∧ (h ∉ t) ∧
    ((i = h ∧ token h th own rel) ∨
     (i ≠ h ∧ i ∈ t ∧ waiting th ∧ ∃ th0, ths w !! h = Some th0 ∧ token h th0 own rel)).
Proof.
  intros [H1 H2 (own & rel & Ho & Hh) H4 H5 H6 H7] Hi Hb. pose proof (proj1 (H5 i th Hi) Hb) as Hin.
  destruct q as [|h t]; [set_solver|]. apply NoDup_cons in H4 as [Hnot _]. destruct Hh as (th0 & Hh0 & Htok).
  exists h, t, own, rel. split_and!; [done|done|done|]. destruct (decide (i = h)) as [->|Hne].
  - left. split; [done|]. by simplify_eq.
  - right. apply elem_of_cons in Hin as [?|Hin]; [done|]. split_and!; [done|done|by eapply (H6 i)|eauto].
Qed.

Lemma zeros_lookup j : zeros !! j = Some 0%nat ∨ zeros !! j = None.
Proof. destruct (zeros !! j) as [v|] eqn:E; [|by right]. apply lookup_replicate in E as [-> _]. by left. Qed.

Lemma post_lookup h j v : post h zeros !! j = Some (S v) → j = h ∧ v = 0%nat.
Proof.
  unfold post. destruct (decide (h = j)) as [->|Hne].
  - rewrite list_lookup_alter_eq. destruct (zeros_lookup j) as [-> | ->]; simpl; [|done]. by intros [= <-].
  - rewrite list_lookup_alter_ne by done. destruct (zeros_lookup j) as [-> | ->]; done.
Qed.

Lemma unpost h : (h < nt)%nat → <[h := 0%nat]> (post h zeros) = zeros.
Proof.
  intros Hh. apply list_eq. intros j. destruct (decide (h = j)) as [<-|Hne].
  - rewrite list_lookup_insert_eq by (unfold post; by rewrite length_alter, length_replicate).
    symmetry. by apply lookup_replicate_2.
  - rewrite list_lookup_insert_ne by done. unfold post. by rewrite list_lookup_alter_ne.
Qed.

Lemma keep_skip w q i x rest :
  oinv loop w q → ths w !! i = Some (ORun (x :: rest)) →
  oinv loop {| src := src w; ord := ord w; ths := <[i := ORun rest]> (ths w); trace := trace w |} q.
Proof.
  intros Hinv Hi. pose proof (lookup_lt_Some _ _ _ Hi) as Hil.
  destruct (oinv_cases w q i _ Hinv Hi ltac:(by eexists)) as (h & t & own & rel & -> & Ho & Hnot & Hcase).
  apply (oinv_keep w _ i (ORun (x :: rest))); [done|done|by eexists|by eexists| |done|].
  - exists own, rel. split; [done|]. destruct Hcase as [[-> Htok]|(Hne & _ & _ & th0 & Hh & Htok)].
    + exists (ORun rest). by rewrite list_lookup_insert_eq.
    + exists th0. by rewrite list_lookup_insert_ne.
  - apply sublist_app; [done|]. eapply rest_shrink; [exact Hi|done|done|]. by apply sublist_cons.
Qed.

Lemma keep_test w q i rest :
  oinv loop w q → ths w !! i = Some (ORun rest) →
  oinv loop {| src := src w; ord := ord w; trace := trace w;
               ths := <[i := if sync_test nt i (ord w) then OIn rest else OWait rest]> (ths w) |} q.
Proof.
  intros Hinv Hi. pose proof (lookup_lt_Some _ _ _ Hi) as Hil.
  destruct (oinv_cases w q i _ Hinv Hi ltac:(by eexists)) as (h & t & own & rel & -> & Ho & Hnot & Hcase).
  assert (sync_test nt i (ord w) = bool_decide (own = Some i)) as Et.
  { unfold sync_test. destruct (Nat.eqb_spec nt 1); [lia|]. destruct Ho as (_ & _ & _ & _ & -> & _). done. }
  rewrite Et. apply (oinv_keep w _ i (ORun rest)); [done|done|by eexists|case_match; by eexists|..].
  - exists own, rel. split; [done|]. destruct Hcase as [[-> Htok]|(Hne & _ & _ & th0 & Hh & Htok)].
    + eexists. rewrite list_lookup_insert_eq by done. split; [done|].
      destruct Htok as [[-> ->]|[-> ->]]; [rewrite bool_decide_true by done|rewrite bool_decide_false by done]; done.
    + exists th0. by rewrite list_lookup_insert_ne.
  - simpl. intros Ht. rewrite bool_decide_false; [done|]. destruct Hcase as [[-> _]|(Hne & _ & _ & th0 & _ & Htok)]; [done|].
    destruct th0; simpl in Htok; naive_solver.
  - apply sublist_app; [done|]. eapply rest_shrink; [exact Hi|done| |done]. by case_match.
Qed.

Lemma keep_wait w q i rest o' :
  oinv loop w q → ths w !! i = Some (OWait rest) → sync_wait i (ord w) = Ok (Some o') →
  oinv loop {| src := src w; ord := o'; ths := <[i := OWoken rest]> (ths w); trace := trace w |} q.
Proof.
  intros Hinv Hi Hsw. pose proof (lookup_lt_Some _ _ _ Hi) as Hil. pose proof (oi_len _ _ _ Hinv) as Hlen.
  destruct (oinv_cases w q i _ Hinv Hi ltac:(by eexists)) as (h & t & own & rel & -> & Ho & Hnot & Hcase).
  unfold sync_wait in Hsw. apply bind_Ok in Hsw as (v & Hv & Hsw). apply of_option_Ok in Hv. destruct v as [|v]; [done|].
  injection Hsw as <-. destruct Ho as (Hq & Hn & Hl & Hf & Eo & Er & Hlr). rewrite Er in Hv.
  assert (i = h ∧ v = 0%nat ∧ own = None ∧ rel = post h zeros) as (-> & -> & -> & ->).
  { destruct Hcase as [[-> [-> ->]]|(Hne & _ & _ & th0 & _ & Htok)].
    - apply post_lookup in Hv as [_ ->]. done.
    - assert (rel = zeros ∨ rel = post h zeros) as [-> | ->] by (destruct th0; simpl in Htok; naive_solver).
      + by destruct (zeros_lookup i) as [E|E]; rewrite E in Hv.
      + by apply post_lookup in Hv as [-> _]. }
  apply (oinv_keep w _ h (OWait rest)); [done|done|by eexists|by eexists|..|done|].
  - exists None, zeros. split; [|exists (OWoken rest); by rewrite list_lookup_insert_eq].
    unfold orep. cbn. rewrite Er, unpost by lia. split_and!; try done. by rewrite length_replicate.
  - apply sublist_app; [done|]. by eapply rest_shrink.
Qed.

Lemma keep_acknowledge w q i rest :
  oinv loop w q → ths w !! i = Some (OWoken rest) →
  oinv loop {| src := src w; ord := sync_acknowledge i (ord w); ths := <[i := OIn rest]> (ths w); trace := trace w |} q.
Proof.
  intros Hinv Hi. pose proof (lookup_lt_Some _ _ _ Hi) as Hil.
  destruct (oinv_cases w q i _ Hinv Hi ltac:(by eexists)) as (h & t & own & rel & -> & Ho & Hnot & Hcase).
  destruct Hcase as [[-> [-> ->]]|(_ & _ & [] & _)].
  apply (oinv_keep w _ h (OWoken rest)); [done|done|by eexists|by eexists|..|done|].
  - exists (Some h), zeros. split; [unfold orep in *; cbn; naive_solver|]. exists (OIn rest). by rewrite list_lookup_insert_eq.
  - apply sublist_app; [done|]. by eapply rest_shrink.
Qed.

Lemma keep_region w q i x rest :
  oinv loop w q → ths w !! i = Some (OIn (x :: rest)) →
  oinv loop {| src := src w; ord := ord w; ths := <[i := ORun rest]> (ths w); trace := trace w ++ [x] |} q.
Proof.
  intros Hinv Hi. pose proof (lookup_lt_Some _ _ _ Hi) as Hil.
  destruct (oinv_cases w q i _ Hinv Hi ltac:(by eexists)) as (h & t & own & rel & -> & Ho & Hnot & Hcase).
  destruct Hcase as [[-> [-> ->]]|(_ & _ & [] & _)].
  apply (oinv_keep w _ h (OIn (x :: rest))); [done|done|by eexists|by eexists|..|done|].
  - exists (Some h), zeros. split; [done|]. exists (ORun rest). rewrite list_lookup_insert_eq by done. split; [done|by left].
  - cbn [concat fmap list_fmap]. rewrite rest_of_insert, rest_of_notin by done. unfold rest_of at 2. rewrite Hi. simpl.
    by rewrite <-app_assoc.
Qed.

Lemma queue_room q i : NoDup q → Forall (λ k, (k < nt)%nat) q → i ∉ q → (i < nt)%nat → (length q < nt)%nat.
Proof.
  intros Hd Hf Hi Hl. assert (i :: q ⊆+ seq 0 nt) as Hs.
  { apply NoDup_submseteq; [by apply NoDup_cons|]. intros j Hj. apply elem_of_seq. rewrite Forall_forall in Hf.
    apply elem_of_cons in Hj as [->|Hj]; [lia|]. specialize (Hf j Hj). lia. }
  apply submseteq_length in Hs. rewrite length_seq in Hs. simpl in Hs. lia.
Qed.

(** A thread enters the queue, or finds that all the work is taken. *)
Lemma start_step w q i :
  oinv loop w q → ths w !! i = Some OStart →
  ∃ r s' o' q', gomp_loop_ordered_start nt i (src w) (ord w) = Ok (r, s', o') ∧
    oinv loop {| src := s'; ord := o'; ths := <[i := got r]> (ths w); trace := trace w |} q'.
Proof.
  intros Hinv Hi. pose proof Hinv as [H1 H2 (own & rel & Ho & Hh) H4 H5 H6 H7]. pose proof (lookup_lt_Some _ _ _ Hi) as Hil.
  assert (i ∉ q) as Hnot. { intros Hin. apply (H5 i OStart Hi) in Hin as [? ?]. done. }
  assert (Forall (λ k, (k < nt)%nat) q) as Hf by (by destruct Ho as (_ & _ & _ & ? & _)).
  destruct (take_block_spec (src w) H1) as (r & s' & Et & Hok & Hfut & Hnone). unfold gomp_loop_ordered_start. rewrite Et.
  cbn [mbind outcome_bind]. destruct r as [b|].
  - destruct (ordered_first_spec nt Hnt (ord w) q own rel i Ho) as (o' & -> & Ho'); [apply (queue_room q i); [done|done|done|lia]|lia|].
    cbn [mbind outcome_bind]. exists (Some b), s', o', (q ++ [i]). split; [done|]. cbn [got].
    apply (oinv_move w q); [done|done|done|apply NoDup_app; split_and!; [done|set_solver|apply NoDup_singleton]| | |set_solver| |done|].
    + eexists own, _. split; [exact Ho'|]. destruct q as [|h t]; cbn [app].
      * destruct Hh as [-> ->]. exists (ORun (block_iters b)). rewrite list_lookup_insert_eq by done. split; [done|by right].
      * destruct Hh as (th & Hth & Htok). exists th. rewrite list_lookup_insert_ne by set_solver. done.
    + split; [set_solver|by eexists].
    + intros j Hj. destruct q; simpl; set_solver.
    + rewrite fmap_app, concat_app, rest_of_notin by done. cbn [fmap list_fmap concat]. rewrite rest_of_insert by done. simpl.
      rewrite app_nil_r. rewrite Hfut in H7. by rewrite <-app_assoc.
  - rewrite (Hnone eq_refl). cbn [mbind outcome_bind]. exists None, (src w), (ord w), q. split; [done|]. cbn [got].
    apply (oinv_move w q); [done|done|done|done| |split; [by intros [? ?]|done]|done|done| |by rewrite rest_of_notin].
    + exists own, rel. split; [done|]. destruct q as [|h t]; [done|]. destruct Hh as (th & Hth & Htok). exists th.
      rewrite list_lookup_insert_ne by set_solver. done.
    + intros Hin. destruct q; simpl in *; set_solver.
Qed.

(** The thread behind the owner is ready for the token. *)
Lemma successor w h n t own rel :
  oinv loop w (h :: t) → orep nt (ord w) (h :: t) own rel → n ∈ t →
  ∃ th, ths w !! n = Some th ∧ token n th None (post n zeros).
Proof.
  intros [_ H2 _ _ _ H6 _] (_ & _ & _ & Hf & _) Hn. rewrite Forall_forall in Hf.
  destruct (lookup_lt_is_Some_2 (ths w) n) as [th Hth]; [rewrite H2; apply Hf; set_solver|].
  exists th. split; [done|]. specialize (H6 n th Hn Hth). destruct th; simpl in *; naive_solver.
Qed.

(** The owner gives its place up, for the end of the queue or for good. *)
Lemma next_step w q i :
  oinv loop w q → ths w !! i = Some (OIn []) →
  ∃ r s' o' q', gomp_loop_ordered_next nt i (src w) (ord w) = Ok (r, s', o') ∧
    oinv loop {| src := s'; ord := o'; ths := <[i := got r]> (ths w); trace := trace w |} q'.
Proof.
  intros Hinv Hi. pose proof (lookup_lt_Some _ _ _ Hi) as Hil.
  destruct (oinv_cases w q i _ Hinv Hi ltac:(by eexists)) as (h & t & own & rel & -> & Ho & Hnot & Hcase).
  destruct Hcase as [[-> [-> ->]]|(_ & _ & [] & _)]. pose proof Hinv as [H1 H2 _ H4 _ _ H7]. apply NoDup_cons in H4 as [_ H4].
  assert (∀ th', rest_of (<[h := th']> (ths w)) <$> t = rest_of (ths w) <$> t) as Hrest by (intros; by apply rest_of_notin).
  assert (rest_of (ths w) h = []) as Hh0 by (unfold rest_of; by rewrite Hi). cbn [fmap list_fmap concat] in H7. rewrite Hh0 in H7.
  destruct (take_block_spec (src w) H1) as (r & s' & Et & Hok & Hfut & Hnone). unfold gomp_loop_ordered_next. rewrite Et.
  cbn [mbind outcome_bind]. destruct r as [b|].
  - destruct (ordered_next_spec nt Hnt (ord w) h t (Some h) zeros Ho) as (o' & n & t' & Eq & -> & Ho'). cbn [mbind outcome_bind].
    exists (Some b), s', o', (t ++ [h]). split; [done|]. rewrite <-Eq in Ho'. cbn [got].
    apply (oinv_move w (h :: t)); [done|done|done|apply NoDup_app; split_and!; [done|set_solver|apply NoDup_singleton]| | |set_solver| |done|].
    + eexists None, _. split; [exact Ho'|]. rewrite Eq. destruct t as [|n0 t0]; simpl in Eq; injection Eq as <- <-.
      * exists (ORun (block_iters b)). rewrite list_lookup_insert_eq by done. split; [done|by right].
      * destruct (successor w h n0 (n0 :: t0) (Some h) zeros Hinv Ho) as (th & Hth & Htok); [set_solver|].
        exists th. rewrite list_lookup_insert_ne by set_solver. done.
    + split; [set_solver|by eexists].
    + intros j Hj. destruct t; simpl; set_solver.
    + rewrite fmap_app, concat_app, Hrest. cbn [fmap list_fmap concat]. rewrite rest_of_insert by done. simpl.
      rewrite app_nil_r. rewrite Hfut in H7. by rewrite <-app_assoc.
  - rewrite (Hnone eq_refl). destruct (ordered_last_spec nt Hnt (ord w) h t (Some h) zeros Ho) as (o' & -> & Ho'). cbn [mbind outcome_bind].
    exists None, (src w), o', t. split; [done|]. cbn [got].
    apply (oinv_move w (h :: t)); [done|done|done|done| |split; [by intros [? ?]|done]|set_solver| | |by rewrite Hrest].
    + eexists None, _. split; [exact Ho'|]. destruct t as [|n0 t0]; [done|].
      destruct (successor w h n0 (n0 :: t0) (Some h) zeros Hinv Ho) as (th & Hth & Htok); [set_solver|].
      exists th. rewrite list_lookup_insert_ne by set_solver. done.
    + intros j Hj. destruct t; simpl; set_solver.
    + intros Hin. destruct t; simpl in *; set_solver.
Qed.

Lemma ostep_oinv w w' q : oinv loop w q → ostep w w' → ∃ q', oinv loop w' q'.
Proof.
  intros Hinv Hstep. destruct Hstep as [w i r s' o' Hi E|w i x rest Hi|w i rest Hi|w i rest o' Hi E|w i rest Hi|w i x rest Hi|w i r s' o' Hi E].
  - destruct (start_step w q i Hinv Hi) as (r1 & s1 & o1 & q' & E1 & H). rewrite E in E1. injection E1 as <- <- <-. eauto.
  - exists q. by eapply keep_skip.
  - exists q. by eapply keep_test.
  - exists q. by eapply keep_wait.
  - exists q. by eapply keep_acknowledge.
  - exists q. by eapply keep_region.
  - destruct (next_step w q i Hinv Hi) as (r1 & s1 & o1 & q' & E1 & H). rewrite E in E1. injection E1 as <- <- <-. eauto.
Qed.

Lemma oreachable_oinv s w : source_ok s → future s = loop → oreachable s w → ∃ q, oinv loop w q.
Proof.
  intros Hs Hf. induction 1 as [|w w' _ [q Hinv] Hstep]; [|by eapply ostep_oinv].
  exists []. split; cbn [src ord ths trace init]; [done|by rewrite length_replicate| |constructor| |set_solver|by rewrite Hf].
  - exists None, zeros. split; [|done]. unfold orep, qrep. cbn. rewrite !length_replicate. split_and!; try done; lia.
  - intros i th Hi. apply lookup_replicate in Hi as [-> _]. split; [by intros [? ?]|set_solver].
Qed.

(** Ordered regions run in the order of the loop: in every interleaving of
    the threads of the team, the iterations whose ordered region has been run
    appear in the order in which the loop enumerates them, each at most once; at
    most one thread is past [gomp_ordered_sync]; no operation of the queue is
    out of bounds; and the protocol cannot block: as long as a thread has work,
    some thread with work is not waiting, or is waiting on a semaphore that is
    posted.  The source of the blocks is any schedule that hands out the
    iterations of the loop in order. *)
Lemma ordered_regions_in_order s w :
  source_ok s → future s = loop → oreachable s w →
  trace w `sublist_of` loop ∧
  (∀ i j r r', ths w !! i = Some (OIn r) → ths w !! j = Some (OIn r') → i = j) ∧
  (∀ i, ths w !! i = Some OStart → is_ok (gomp_loop_ordered_start nt i (src w) (ord w)) = true) ∧
  (∀ i, ths w !! i = Some (OIn []) → is_ok (gomp_loop_ordered_next nt i (src w) (ord w)) = true) ∧
  (∀ i th, ths w !! i = Some th → is_Some (busy th) →
     ∃ h t, ths w !! h = Some t ∧ is_Some (busy t) ∧
       ∀ r, t = OWait r → ∃ o', sync_wait h (ord w) = Ok (Some o')).
Proof.
  intros Hs Hf Hr. destruct (oreachable_oinv s w Hs Hf Hr) as [q Hinv]. split_and!.
  - etrans; [|exact (oi_order _ _ _ Hinv)]. by apply sublist_inserts_r.
  - intros i j r r' Hi Hj.
    destruct (oinv_cases w q i _ Hinv Hi ltac:(by eexists)) as (h & t & own & rel & -> & _ & _ & [[-> _]|(_ & _ & [] & _)]).
    by destruct (oinv_cases w _ j _ Hinv Hj ltac:(by eexists)) as (h' & t' & own' & rel' & [= <- <-] & _ & _ & [[-> _]|(_ & _ & [] & _)]).
  - intros i Hi. by destruct (start_step w q i Hinv Hi) as (r1 & s1 & o1 & q' & -> & _).
  - intros i Hi. by destruct (next_step w q i Hinv Hi) as (r1 & s1 & o1 & q' & -> & _).
  - intros i th Hi Hb. destruct (oinv_cases w q i _ Hinv Hi Hb) as (h & t & own & rel & -> & Ho & _ & Hc).
    assert (∃ th0, ths w !! h = Some th0 ∧ token h th0 own rel) as (th0 & Hth0 & Htok)
      by (destruct Hc as [[-> ?]|(_ & _ & _ & ?)]; [eauto|done]).
    exists h, th0. split; [done|]. split; [destruct th0; simpl in Htok; [done|by eexists..|done]|].
    intros r ->. destruct Htok as [-> ->]. destruct Ho as (_ & _ & _ & Hfa & _ & Er & _). apply Forall_cons in Hfa as [Hh _].
    unfold sync_wait. rewrite Er. unfold post. rewrite list_lookup_alter_eq, lookup_replicate_2 by done. by eexists.
Qed.
End team.

(** ** The schedules are sources of blocks *)

(** The call under the lock in the functions for ordered loops. *)
Definition next_locked (W nt : Z) (ws : GompIter.gomp_work_share) : outcome (option (Z * Z) * GompIter.gomp_work_share) :=
  match GompIter.sched ws with
  | GompIter.GFS_DYNAMIC => GompIter.gomp_iter_dynamic_next_locked W ws
  | _ => GompIter.gomp_iter_guided_next_locked W ws nt
  end.

Definition schedule_source (W nt d : Z) : BlockSource GompIter.gomp_work_share :=
  {| take_block := next_locked W nt; block_iters b := GompIter.iters d b.1 b.2 |}.

Section source.
Import GompIter.
Context (W nt start e d : Z) (ws0 : gomp_work_share) (c : Z).
Hypothesis HW : 2 ≤ W.
Hypothesis Hloop : loop_ok W start e d.
Hypothesis Hnt : 1 ≤ nt ∧ niters d start e + nt < 2 ^ W.
Hypothesis Hws : next ws0 = start ∧ end_ ws0 = e ∧ incr ws0 = d.
Hypothesis Hc : 1 ≤ c.
Hypothesis Hchunk : chunk_size ws0 = match sched ws0 with GFS_DYNAMIC => c * d | _ => c end.
Hypothesis Hrep : rep W (chunk_size ws0).
Local Abbreviation n := (niters d start e).
Local Abbreviation P := (pos start e d).

Lemma next_locked_spec k :
  0 ≤ k ≤ n → ∃ r k', next_locked W nt (set_next (P k) ws0) = Ok (r, set_next (P k') ws0) ∧ k ≤ k' ≤ n ∧
    match r with Some b => b = (P k, P k') | None => k' = k ∧ k = n end.
Proof using HW Hloop Hnt Hws Hc Hchunk Hrep.
  intros Hk. destruct (locked_call W nt start e d HW Hloop false ws0 c Hnt Hws Hc Hchunk Hrep k Hk eq_refl)
    as (r & k' & E & Hk' & Hg & Hs).
  exists r, k'. split; [|split; [done|destruct r; simpl in *; naive_solver]]. unfold next_locked. cbn [thread_call sched set_next] in E |- *.
  destruct (sched ws0); apply bind_Ok in E as ((r1 & ws1) & -> & [= _ -> ->]); done.
Qed.

Lemma future_split k k' : 0 ≤ k ≤ k' → k' ≤ n → iters d (P k) e = iters d (P k) (P k') ++ iters d (P k') e.
Proof using HW Hloop.
  destruct Hloop as [Hd _ _ _ Hdir _ _ _]. intros Hk Hk'. assert (P n = e) as En by (apply pos_end; [done|done|lia|done]).
  pose proof (iters_pos start e d Hd Hdir k n ltac:(lia) ltac:(lia)) as E1.
  pose proof (iters_pos start e d Hd Hdir k' n ltac:(lia) ltac:(lia)) as E2. rewrite En in E1, E2.
  rewrite E1, E2, iters_pos by (done || lia). rewrite <-fmap_app. f_equal. apply seqZ_split. lia.
Qed.

Definition schedule_ok (ws : gomp_work_share) : Prop := ∃ k, 0 ≤ k ≤ n ∧ ws = set_next (P k) ws0.

Lemma schedule_spec ws :
  schedule_ok ws → ∃ r ws', next_locked W nt ws = Ok (r, ws') ∧ schedule_ok ws' ∧
    iters d (next ws) e = match r with Some b => iters d b.1 b.2 ++ iters d (next ws') e | None => [] end ∧ (r = None → ws' = ws).
Proof using HW Hloop Hnt Hws Hc Hchunk Hrep.
  intros (k & Hk & ->). destruct (next_locked_spec k Hk) as (r & k' & -> & Hk' & Hr). exists r, (set_next (P k') ws0).
  split; [done|]. split; [by exists k'; split; [lia|]|]. cbn [next set_next]. destruct r as [b|].
  - subst b. cbn [fst snd]. split; [|done]. apply future_split; lia.
  - destruct Hr as [-> Ek]. split; [|done]. destruct Hloop as [Hd _ _ _ Hdir _ _ _].
    assert (P k = e) as -> by (apply pos_end; [done|done|lia|done]). unfold iters. by rewrite niters_empty.
Qed.

Definition schedule_laws : @BlockSourceLaws _ (schedule_source W nt d) :=
  @Build_BlockSourceLaws _ (schedule_source W nt d) (λ ws, iters d (next ws) e) schedule_ok schedule_spec.
End source.

(** C31. An ordered loop with a dynamic or guided schedule runs its ordered regions
    in the order of the loop, for a team of at least two threads, chunks of at
    least one iteration, and bounds with which the schedules do not overflow
    ([GompIter.loop_ok], as many counter values left as there are threads).  In
    every interleaving of the threads the iterations whose region has been run
    appear in the order in which the loop enumerates them, each at most once; at
    most one thread is past [gomp_ordered_sync]; starting the loop and fetching
    the next block neither overflow nor leave the arrays; and the protocol cannot
    block, since some thread with work does not wait, or waits on a semaphore
    that is posted. *)
Theorem ordered_loop_in_order W gcc_sync (nt : nat) start e d sc chunk m ws w :
  let Src := schedule_source W (Z.of_nat nt) d in
  2 ≤ W → sc = GompIter.GFS_DYNAMIC ∨ sc = GompIter.GFS_GUIDED → (2 ≤ nt)%nat →
  GompIter.gomp_loop_init W gcc_sync (Z.of_nat nt) start e d sc chunk m = Ok ws →
  GompIter.loop_ok W start (GompIter.end_ ws) d → 1 ≤ chunk → GompIter.rep W (chunk * d) →
  GompIter.niters d start (GompIter.end_ ws) + Z.of_nat nt < 2 ^ W →
  oreachable nt ws w →
  trace w `sublist_of` GompIter.iters d start (GompIter.end_ ws) ∧
  (∀ i j r r', ths w !! i = Some (OIn r) → ths w !! j = Some (OIn r') → i = j) ∧
  (∀ i, ths w !! i = Some OStart → is_ok (gomp_loop_ordered_start nt i (src w) (ord w)) = true) ∧
  (∀ i, ths w !! i = Some (OIn []) → is_ok (gomp_loop_ordered_next nt i (src w) (ord w)) = true) ∧
  (∀ i th, ths w !! i = Some th → is_Some (busy th) →
     ∃ h t, ths w !! h = Some t ∧ is_Some (busy t) ∧
       ∀ r, t = OWait r → ∃ o', sync_wait h (ord w) = Ok (Some o')).
Proof.
  intros Src HW Hsc Hnt Hinit Hl Hch Hrep Hn Hr. pose proof Hl as [Hd _ _ _ Hdir _ _ _]. assert (1 ≤ Z.of_nat nt) as Hnt1 by lia.
  destruct (GompIter.loop_init_dynamic _ _ _ _ _ _ _ _ _ _ HW Hnt1 Hch Hd Hsc Hinit) as (E1 & E2 & E3 & E4 & _).
  rewrite <-E3 in E4.
  assert (GompIter.rep W (GompIter.chunk_size ws)) as Hrc by (unfold GompIter.rep in *; rewrite E4; destruct (GompIter.sched ws); nia).
  pose (L := schedule_laws W (Z.of_nat nt) start (GompIter.end_ ws) d ws chunk HW Hl (conj Hnt1 Hn) ltac:(done) Hch E4 Hrc).
  destruct (GompIter.niters_spec d start (GompIter.end_ ws) Hd Hdir) as [Hn0 _].
  apply (ordered_regions_in_order nt (BlockSourceLaws0 := L) Hnt _ ws w); [|by subst start|done].
  exists 0. split; [lia|]. rewrite GompIter.pos_0 by done. subst start. by destruct ws.
Qed.

(** ** Witness *)

Definition demo_ws : GompIter.gomp_work_share := GompIter.demo_ws GompIter.GFS_GUIDED.
#[local] Instance demo_source : BlockSource GompIter.gomp_work_share := schedule_source 32 3 (-2).
Definition demo_start (i : nat) (w : world) : world :=
  match gomp_loop_ordered_start 3 i (src w) (ord w) with
  | Ok (r, s', o') => {| src := s'; ord := o'; ths := <[i := got r]> (ths w); trace := trace w |}
  | Err _ => w
  end.
Definition demo_world : world := demo_start 2 (demo_start 1 (init 3 demo_ws)).

Lemma demo_world_oreachable : oreachable 3 demo_ws demo_world.
Proof.
  unfold demo_world. assert (∀ i w, oreachable 3 demo_ws w → ths w !! i = Some OStart → oreachable 3 demo_ws (demo_start i w)) as H.
  { intros i w Hw Hi. unfold demo_start. destruct (gomp_loop_ordered_start _ _ _ _) as [[[r s'] o']|] eqn:E; [|done].
    eapply OReachStep; [exact Hw|]. by apply StepStart. }
  apply H; [apply H; [apply OReachInit|done]|done].
Qed.

Lemma ordered_loop_in_order_witness :
  trace demo_world `sublist_of` GompIter.iters (-2) 10 (-8) ∧
  (∀ i j r r', ths demo_world !! i = Some (OIn r) → ths demo_world !! j = Some (OIn r') → i = j) ∧
  (∀ i, ths demo_world !! i = Some OStart → is_ok (gomp_loop_ordered_start 3 i (src demo_world) (ord demo_world)) = true) ∧
  (∀ i, ths demo_world !! i = Some (OIn []) → is_ok (gomp_loop_ordered_next 3 i (src demo_world) (ord demo_world)) = true) ∧
  (∀ i th, ths demo_world !! i = Some th → is_Some (busy th) →
     ∃ h t, ths demo_world !! h = Some t ∧ is_Some (busy t) ∧
       ∀ r, t = OWait r → ∃ o', sync_wait h (ord demo_world) = Ok (Some o')).
Proof.
  refine (ordered_loop_in_order 32 true 3 10 (-8) (-2) GompIter.GFS_GUIDED 2 false demo_ws demo_world
    _ (or_intror eq_refl) _ eq_refl (GompIter.demo_loop_ok _) _ _ _ demo_world_oreachable); try lia; vm_compute; congruence.
Defined.
End GompOrdered.
