(* ===== verification/Route.v ===== *)
(** * Routing table (libnetwork/route.c, address matching of libnetwork/protocols/ipv4.c)

    Routes are objects that clients create, add to the table and remove from it;
    the table lists the added ones by descending netmask, and [route_get] takes the
    first that matches.  The store of the route objects and the table are one
    state, so that the marks which [route_add] and [route_del] leave in an object
    are seen by the next call with it.  The only address family of the sources is
    IPv4, and an address is its 32 bit value. *)

From Stdlib Require Import Sorted.
From stdpp Require Import gmap.
From S2P Require Import Prelude.

Module Route.

(** ** Data *)

(** The instance of IP that is bound to an interface, by its address. *)
Record net_proto_s := { pv_addr : Z; pv_mask : Z }.

Record net_route_s := {
  interface : nat; addressing : option net_proto_s; target : Z; is_routed : bool; mask : Z; router : Z; invalidated : bool }.

Definition set_addressing (p : net_proto_s) (r : net_route_s) : net_route_s :=
  {| interface := interface r; addressing := Some p; target := target r; is_routed := is_routed r; mask := mask r;
     router := router r; invalidated := invalidated r |}.
Definition set_invalidated (r : net_route_s) : net_route_s :=
  {| interface := interface r; addressing := addressing r; target := target r; is_routed := is_routed r; mask := mask r;
     router := router r; invalidated := true |}.

(** The route objects by their address, and the addresses in the table. *)
Record state := { objs : gmap nat net_route_s; route_table : list nat }.

Definition obj (s : state) (i : nat) : outcome net_route_s := if objs s !! i is Some r then Ok r else Err FBounds.

(** ** Operations *)

(** [a], [b] or [mask] may be NULL. *)
Definition ip_matchaddr (pv : net_proto_s) (a b mask : option Z) : bool :=
  let A := default (pv_addr pv) a in
  let B := default (pv_addr pv) b in
  match mask with
  | Some M => Z.land A M =? Z.land B M
  | None => A =? B
  end.

(** The constructor of the object at [i]. *)
Definition route_obj_new (i : nat) (target mask : Z) (interface : nat) (s : state) : state :=
  {| objs := <[i := {| interface := interface; addressing := None; target := target; is_routed := false; mask := mask;
                       router := 0; invalidated := false |}]> (objs s);
     route_table := route_table s |}.

(** The client makes the route an indirect one. *)
Definition set_router (i : nat) (addr : Z) (s : state) : outcome state :=
  r ← obj s i;
  Ok {| objs := <[i := {| interface := interface r; addressing := addressing r; target := target r; is_routed := true;
                          mask := mask r; router := addr; invalidated := invalidated r |}]> (objs s);
        route_table := route_table s |}.

(** The search for the place of a route, and the insertion there. *)
Fixpoint table_insert (s : state) (i : nat) (m : Z) (table : list nat) : outcome (list nat) :=
  match table with
  | [] => Ok [i]
  | j :: table' =>
      rt ← obj s j;
      if mask rt <=? m then Ok (i :: table)
      else l ← table_insert s i m table'; Ok (j :: l)
  end.

(** The loop on the IP instances of the interface. *)
Fixpoint add_loop (i : nat) (route : net_route_s) (addr : Z) (protocols : list net_proto_s) (s : state) : outcome (Z * state) :=
  match protocols with
  | [] => Ok (-1, s)
  | item :: protocols =>
      if ip_matchaddr item None (Some addr) (Some (mask route)) then
        l ← table_insert s i (mask route) (route_table s);
        Ok (0, {| objs := <[i := set_addressing item route]> (objs s); route_table := l |})
      else add_loop i route addr protocols s
  end.

Section network.
(** The IP instances of each interface. *)
Context (protocols : nat → list net_proto_s).

Definition route_add (i : nat) (s : state) : outcome (Z * state) :=
  route ← obj s i;
  if invalidated route || (if addressing route is Some _ then true else false) then Ok (-1, s)
  else add_loop i route (if negb (is_routed route) then target route else router route) (protocols (interface route)) s.
End network.

(** The first entry that matches; an entry without addressing module would be
    a call through NULL. *)
Fixpoint get_loop (s : state) (addr : Z) (table : list nat) : outcome (option nat) :=
  match table with
  | [] => Ok None
  | i :: table =>
      item ← obj s i;
      match addressing item with
      | None => Err FUndef
      | Some a => if ip_matchaddr a (Some (target item)) (Some addr) (Some (mask item)) then Ok (Some i) else get_loop s addr table
      end
  end.
Definition route_get (addr : Z) (s : state) : outcome (option nat) := get_loop s addr (route_table s).

(** Removing what is not in the list corrupts it. *)
Fixpoint table_remove (i : nat) (table : list nat) : outcome (list nat) :=
  match table with
  | [] => Err FCorrupt
  | j :: table => if (i =? j)%nat then Ok table else l ← table_remove i table; Ok (j :: l)
  end.
Definition route_del (i : nat) (s : state) : outcome state :=
  route ← obj s i;
  l ← table_remove i (route_table s);
  Ok {| objs := <[i := set_invalidated route]> (objs s); route_table := l |}.

(** The entry to remove is removed when the loop has passed it.  The iteration
    holds the spin lock of the table, which [route_table_remove] takes again: it
    spins for ever where the spin locks are not empty ([smp], CONFIG_ARCH_SMP).
    The last entry is removed after the iteration. *)
Definition del_prev (prev : option nat) (s : state) : outcome state :=
  if prev is Some i then route_del i s else Ok s.
Fixpoint flush_loop (smp : bool) (ifc : nat) (items : list nat) (prev : option nat) (s : state) : outcome state :=
  match items with
  | [] => del_prev prev s
  | i :: items =>
      s ← (if smp && (if prev is Some _ then true else false) then Err FSpin else del_prev prev s);
      item ← obj s i;
      flush_loop smp ifc items (if (interface item =? ifc)%nat then Some i else None) s
  end.
Definition route_flush (smp : bool) (ifc : nat) (s : state) : outcome state := flush_loop smp ifc (route_table s) None s.

(** Where the route object says it leads. *)
Definition on_interface (s : state) (ifc i : nat) : bool := if objs s !! i is Some r then (interface r =? ifc)%nat else false.

(** ** Clients *)

(** What clients do: create a route, make it indirect before it is added, add any
    route they hold, even several times, remove one that is in the table, flush
    (on a multiprocessor, when no route of the interface is before the last one
    of the table). *)
Inductive op := ONew (i : nat) (target mask : Z) (interface : nat) | ORouter (i : nat) (addr : Z) | OAdd (i : nat) | ODel (i : nat) | OFlush (ifc : nat).

Section clients.
Context (smp : bool) (protocols : nat → list net_proto_s).

Definition run_op (o : op) (s : state) : outcome state :=
  match o with
  | ONew i t m ifc => Ok (route_obj_new i t m ifc s)
  | ORouter i a => set_router i a s
  | OAdd i => '(_, s) ← route_add protocols i s; Ok s
  | ODel i => route_del i s
  | OFlush ifc => route_flush smp ifc s
  end.

Definition allowed (o : op) (s : state) : Prop :=
  match o with
  | ONew i _ _ _ => objs s !! i = None
  | ORouter i _ => ∃ r, objs s !! i = Some r ∧ addressing r = None
  | OAdd i => is_Some (objs s !! i)
  | ODel i => i ∈ route_table s
  | OFlush ifc => smp = false ∨ Forall (λ i, on_interface s ifc i = false) (removelast (route_table s))
  end.

Inductive reachable : state → Prop :=
  | reach_init : reachable {| objs := ∅; route_table := [] |}
  | reach_step o s s' : reachable s → allowed o s → run_op o s = Ok s' → reachable s'.
End clients.

(** ** The invariant of the table *)

Definition mask_of (s : state) (i : nat) : Z := if objs s !! i is Some r then mask r else 0.

(** No route is twice in the table; the routes of the table are the added ones
    that are not removed; masks descend. *)
Record inv (s : state) : Prop := {
  inv_nodup : NoDup (route_table s);
  inv_in : ∀ i, i ∈ route_table s ↔ ∃ r, objs s !! i = Some r ∧ is_Some (addressing r) ∧ invalidated r = false;
  inv_fresh : ∀ i r, objs s !! i = Some r → invalidated r = true → is_Some (addressing r);
  inv_sorted : StronglySorted (λ i j, mask_of s j ≤ mask_of s i) (route_table s) }.

Lemma in_obj s i : inv s → i ∈ route_table s → ∃ r a, objs s !! i = Some r ∧ addressing r = Some a ∧ invalidated r = false.
Proof. intros [] Hi. apply inv_in0 in Hi as (r & ? & [a ?] & ?). eauto. Qed.

Lemma sorted_ext s s' l :
  (∀ i, i ∈ l → mask_of s' i = mask_of s i) →
  StronglySorted (λ i j, mask_of s j ≤ mask_of s i) l → StronglySorted (λ i j, mask_of s' j ≤ mask_of s' i) l.
Proof.
  intros Hm H. induction H as [|i l H IH Hf]; [constructor|]. constructor; [apply IH; set_solver|].
  rewrite Forall_forall in Hf |- *. intros j Hj. rewrite !Hm by set_solver. by apply Hf.
Qed.

Lemma table_insert_spec s i m l :
  (∀ j, j ∈ l → is_Some (objs s !! j)) → StronglySorted (λ a b, mask_of s b ≤ mask_of s a) l → mask_of s i = m →
  ∃ l1 l2, l = l1 ++ l2 ∧ table_insert s i m l = Ok (l1 ++ i :: l2) ∧ Forall (λ j, m < mask_of s j) l1 ∧ Forall (λ j, mask_of s j ≤ m) l2.
Proof.
  intros Hl Hs Hm. induction Hs as [|j l Hs IH Hf]; cbn [table_insert]; [by exists [], []|].
  destruct (Hl j ltac:(set_solver)) as [rt Hj]. unfold obj. rewrite Hj. cbn [mbind outcome_bind].
  assert (mask rt = mask_of s j) as -> by (unfold mask_of; by rewrite Hj).
  destruct (Z.leb_spec (mask_of s j) m).
  - exists [], (j :: l). split_and!; [done|done|constructor|]. constructor; [done|].
    eapply Forall_impl; [done|]. cbn. lia.
  - destruct IH as (l1 & l2 & -> & -> & H1 & H2); [intros; apply Hl; set_solver|]. cbn [mbind outcome_bind].
    exists (j :: l1), l2. split_and!; [done|done| |done]. by constructor.
Qed.

Lemma sorted_insert s i l1 l2 :
  StronglySorted (λ a b, mask_of s b ≤ mask_of s a) (l1 ++ l2) → Forall (λ j, mask_of s i < mask_of s j) l1 → Forall (λ j, mask_of s j ≤ mask_of s i) l2 →
  StronglySorted (λ a b, mask_of s b ≤ mask_of s a) (l1 ++ i :: l2).
Proof.
  induction l1 as [|j l1 IH]; cbn; intros H H1 H2; [by constructor|]. apply StronglySorted_inv in H as [H Hf].
  apply Forall_cons in H1 as [H1 H1']. constructor; [by apply IH|]. apply Forall_app in Hf as [Hf1 Hf2]. apply Forall_app_2; [done|].
  constructor; [lia|done].
Qed.

Lemma sorted_sublist s l1 l2 : sublist l1 l2 →
  StronglySorted (λ a b, mask_of s b ≤ mask_of s a) l2 → StronglySorted (λ a b, mask_of s b ≤ mask_of s a) l1.
Proof.
  induction 1 as [|x l1 l2 H IH|x l1 l2 H IH]; intros Hs; [done| |apply StronglySorted_inv in Hs as [? _]; auto].
  apply StronglySorted_inv in Hs as [Hs Hf]. constructor; [auto|]. rewrite Forall_forall in Hf |- *.
  intros y Hy. apply Hf. eapply elem_of_submseteq; [done|by apply sublist_submseteq].
Qed.

Lemma table_remove_spec i l1 l2 : i ∉ l1 → table_remove i (l1 ++ i :: l2) = Ok (l1 ++ l2).
Proof.
  induction l1 as [|j l IH]; intros H; cbn [app table_remove]; [by rewrite Nat.eqb_refl|].
  destruct (Nat.eqb_spec i j) as [->|Hne]; [set_solver|]. by rewrite IH by set_solver.
Qed.

Lemma insert_obj_mask s i r l j :
  mask r = mask_of s i → mask_of {| objs := <[i := r]> (objs s); route_table := l |} j = mask_of s j.
Proof.
  intros H. unfold mask_of at 1. cbn [objs]. destruct (decide (j = i)) as [->|Hne]; [by rewrite lookup_insert_eq|by rewrite lookup_insert_ne].
Qed.

(** ** The operations keep the invariant *)

Lemma new_inv i t m ifc s : inv s → objs s !! i = None → inv (route_obj_new i t m ifc s).
Proof.
  intros [H1 H2 H3 H4] Hi. assert (i ∉ route_table s) as Hni by (rewrite H2; intros (r & E & _); congruence).
  split; cbn [route_obj_new route_table objs]; [done| | |].
  - intros j. rewrite H2. destruct (decide (j = i)) as [->|Hne]; [|by rewrite lookup_insert_ne].
    rewrite lookup_insert_eq, Hi. split; [intros (? & ? & _); done|]. intros (r & [= <-] & [? ?] & _). done.
  - intros j r. destruct (decide (j = i)) as [->|Hne]; [|rewrite lookup_insert_ne by done; eauto].
    rewrite lookup_insert_eq. by intros [= <-].
  - eapply sorted_ext; [|done]. intros j Hj. unfold mask_of. cbn [route_obj_new objs]. rewrite lookup_insert_ne by congruence. done.
Qed.

(** Replacing an object by one with the same mask and marks. *)
Lemma replace_inv i r r' s :
  inv s → objs s !! i = Some r → mask r' = mask r → addressing r' = addressing r → invalidated r' = invalidated r →
  inv {| objs := <[i := r']> (objs s); route_table := route_table s |}.
Proof.
  intros [H1 H2 H3 H4] Hi Em Ea Ev. split; cbn [route_table objs]; [done| | |].
  - intros j. rewrite H2. destruct (decide (j = i)) as [->|Hne]; [|by rewrite lookup_insert_ne].
    rewrite lookup_insert_eq, Hi. split; intros (q & [= <-] & ? & ?); eexists; (split; [done|]); [by rewrite Ea, Ev|by rewrite <-Ea, <-Ev].
  - intros j q. destruct (decide (j = i)) as [->|Hne]; [|rewrite lookup_insert_ne by done; eauto].
    rewrite lookup_insert_eq. intros [= <-]. rewrite Ea, Ev. eauto.
  - eapply sorted_ext; [|done]. intros j _. apply insert_obj_mask. unfold mask_of. by rewrite Hi.
Qed.

Lemma add_loop_spec i route addr ps s :
  inv s → objs s !! i = Some route → addressing route = None → invalidated route = false →
  (add_loop i route addr ps s = Ok (-1, s) ∧ ∀ p, p ∈ ps → ip_matchaddr p None (Some addr) (Some (mask route)) = false) ∨
  ∃ p l1 l2, p ∈ ps ∧ ip_matchaddr p None (Some addr) (Some (mask route)) = true ∧ route_table s = l1 ++ l2 ∧
    let s' := {| objs := <[i := set_addressing p route]> (objs s); route_table := l1 ++ i :: l2 |} in
    add_loop i route addr ps s = Ok (0, s') ∧ inv s'.
Proof.
  intros Hinv Hi Ha Hv. pose proof Hinv as [H1 H2 H3 H4]. induction ps as [|p ps IH]; cbn [add_loop]; [left; set_solver|].
  destruct (ip_matchaddr p None (Some addr) (Some (mask route))) eqn:E.
  - right. destruct (table_insert_spec s i (mask route) (route_table s)) as (l1 & l2 & El & -> & F1 & F2); [|done|unfold mask_of; by rewrite Hi|].
    { intros j Hj. destruct (in_obj s j Hinv Hj) as (r & a & ? & _). eauto. }
    exists p, l1, l2. split; [set_solver|]. split; [done|]. split; [done|]. cbv zeta. cbn [mbind outcome_bind]. split; [done|].
    assert (i ∉ route_table s) as Hni by (rewrite H2; intros (r & ? & [? ?] & _); congruence). rewrite El in *.
    split; cbn [route_table objs].
    + apply NoDup_app in H1 as (N1 & N2 & N3). apply NoDup_app. split_and!; [done| |constructor; set_solver]. set_solver.
    + intros j. destruct (decide (j = i)) as [->|Hne].
      * rewrite lookup_insert_eq. split; [intros _; eexists; split; [done|]; cbn; eauto|set_solver].
      * rewrite lookup_insert_ne, <-H2 by done. set_solver.
    + intros j r. destruct (decide (j = i)) as [->|Hne]; [rewrite lookup_insert_eq|rewrite lookup_insert_ne by done; eauto].
      intros [= <-] _. cbn. eauto.
    + eapply (sorted_ext s); [intros j _; apply insert_obj_mask; unfold mask_of; by rewrite Hi|].
      assert (mask_of s i = mask route) as Em by (unfold mask_of; by rewrite Hi). apply sorted_insert; rewrite ?Em; done.
  - destruct IH as [[IHa IHb]|(q & l1 & l2 & Hq & IH)]; [left; set_solver|right]. exists q, l1, l2. split; [set_solver|done].
Qed.

Lemma del_spec i l1 l2 s :
  inv s → route_table s = l1 ++ i :: l2 →
  ∃ r, objs s !! i = Some r ∧
    let s' := {| objs := <[i := set_invalidated r]> (objs s); route_table := l1 ++ l2 |} in
    route_del i s = Ok s' ∧ inv s'.
Proof.
  intros Hinv El. destruct (in_obj s i Hinv ltac:(rewrite El; set_solver)) as (r & a & Er & Ea & Ev). pose proof Hinv as [H1 H2 H3 H4].
  assert (i ∉ l1) by (rewrite El in H1; apply NoDup_app in H1 as (_ & N2 & _); intros Hl; apply (N2 i Hl); set_solver).
  exists r. unfold route_del, obj. rewrite Er, El, table_remove_spec by done.
  split; [done|]. cbv zeta. cbn [mbind outcome_bind]. split; [done|].
  rewrite El in H1, H2, H4. apply NoDup_app in H1 as (N1 & N2 & N3). apply NoDup_cons in N3 as [N3 N4].
  split; cbn [route_table objs].
  - apply NoDup_app. set_solver.
  - intros j. destruct (decide (j = i)) as [->|Hne].
    + rewrite lookup_insert_eq. split; [set_solver|]. intros (q & [= <-] & _ & ?). done.
    + rewrite lookup_insert_ne, <-H2 by done. set_solver.
  - intros j q. destruct (decide (j = i)) as [->|Hne]; [rewrite lookup_insert_eq|rewrite lookup_insert_ne by done; eauto].
    intros [= <-] _. cbn. eauto.
  - eapply (sorted_ext s); [intros j _; apply insert_obj_mask; unfold mask_of; by rewrite Er|].
    eapply sorted_sublist; [|exact H4]. apply sublist_app; [done|]. by constructor.
Qed.

Lemma flush_loop_spec smp ifc items : ∀ prev kept s,
  (smp = false ∨ prev = None ∧ Forall (λ i, on_interface s ifc i = false) (removelast items) ∨ items = []) →
  inv s → route_table s = kept ++ option_list prev ++ items → (∀ i, prev = Some i → on_interface s ifc i = true) →
  ∃ s', flush_loop smp ifc items prev s = Ok s' ∧ inv s' ∧
    route_table s' = kept ++ filter (λ i, on_interface s ifc i = false) items ∧
    ∀ i, on_interface s' ifc i = on_interface s ifc i.
Proof.
  assert (∀ prev kept rest s, inv s → route_table s = kept ++ option_list prev ++ rest →
    ∃ s', del_prev prev s = Ok s' ∧ inv s' ∧ route_table s' = kept ++ rest ∧ ∀ i, on_interface s' ifc i = on_interface s ifc i) as Hprev.
  { intros [i|] kept rest s Hinv Ht; [|by exists s]. destruct (del_spec i kept rest s Hinv Ht) as (r & Er & Hd & Hinv').
    eexists. split; [done|]. split; [done|]. cbn [route_table objs]. split; [done|].
    intros j. unfold on_interface. cbn [objs]. destruct (decide (j = i)) as [->|Hne]; [by rewrite lookup_insert_eq, Er|by rewrite lookup_insert_ne]. }
  induction items as [|i items IH]; intros prev kept s Hs Hinv Ht Hp; cbn [flush_loop].
  - destruct (Hprev prev kept [] s Hinv Ht) as (s' & ? & ? & ? & ?). exists s'. split_and!; done.
  - destruct (Hprev prev kept (i :: items) s Hinv Ht) as (s1 & E1 & Hinv1 & Ht1 & Ho1).
    assert ((if smp && (if prev is Some _ then true else false) then Err FSpin else del_prev prev s) = Ok s1) as ->
      by (destruct Hs as [->|[[-> _]|[=]]]; rewrite ?andb_false_r; done). cbn [mbind outcome_bind].
    destruct (in_obj s1 i Hinv1 ltac:(rewrite Ht1; set_solver)) as (r & a & Er & _). unfold obj. rewrite Er. cbn [mbind outcome_bind].
    assert (on_interface s ifc i = (interface r =? ifc)%nat) as Ei by (rewrite <-Ho1; unfold on_interface; by rewrite Er).
    assert (∀ l, filter (λ i, on_interface s1 ifc i = false) l = filter (λ i, on_interface s ifc i = false) l) as Hf
      by (intros l; apply list_filter_iff; intros j; by rewrite Ho1).
    destruct (interface r =? ifc)%nat eqn:E.
    + destruct (IH (Some i) kept s1) as (s2 & -> & ? & Ht2 & Ho2); [|done|done|intros j [= <-]; by rewrite Ho1|].
      { destruct Hs as [->|[[_ Hs]|[=]]]; [by left|]. destruct items as [|k items]; [by right; right|]. apply Forall_cons in Hs as [Hs _]. congruence. }
      exists s2. rewrite filter_cons_False by congruence. rewrite <-Hf. split_and!; [done|done|done|]. intros j. by rewrite Ho2, Ho1.
    + destruct (IH None (kept ++ [i]) s1) as (s2 & -> & ? & Ht2 & Ho2); [|done|by rewrite <-app_assoc|done|].
      { destruct Hs as [->|[[_ Hs]|[=]]]; [by left|]. right. destruct items as [|k items]; [by right|left]. split; [done|].
        apply Forall_cons in Hs as [_ Hs]. eapply Forall_impl; [exact Hs|]. intros j ?. by rewrite Ho1. }
      exists s2. rewrite filter_cons_True by congruence. rewrite <-Hf. rewrite <-app_assoc in Ht2. split_and!; [done|done|done|]. intros j. by rewrite Ho2, Ho1.
Qed.

Lemma flush_spec smp ifc s : inv s → smp = false ∨ Forall (λ i, on_interface s ifc i = false) (removelast (route_table s)) →
  ∃ s', route_flush smp ifc s = Ok s' ∧ inv s' ∧ route_table s' = filter (λ i, on_interface s ifc i = false) (route_table s).
Proof.
  intros Hinv Hs. destruct (flush_loop_spec smp ifc (route_table s) None [] s) as (s' & ? & ? & ? & _); [naive_solver|done|done|done|]. by exists s'.
Qed.

Lemma route_step_ok smp protocols o s : inv s → allowed smp o s → ∃ s', run_op smp protocols o s = Ok s' ∧ inv s'.
Proof.
  intros Hinv. destruct o as [i t m ifc|i a|i|i|ifc]; cbn [allowed run_op].
  - intros Hi. eexists. split; [done|]. by apply new_inv.
  - intros (r & Hr & Ha). unfold set_router, obj. rewrite Hr. eexists. split; [done|]. by eapply replace_inv.
  - intros [r Hr]. unfold route_add, obj. rewrite Hr. cbn [mbind outcome_bind].
    destruct (invalidated r) eqn:Ev; [by exists s|]. destruct (addressing r) as [a|] eqn:Ea; [by exists s|]. cbn [orb].
    destruct (add_loop_spec i r (if negb (is_routed r) then target r else router r) (protocols (interface r)) s Hinv Hr Ea Ev)
      as [[-> _]|(p & l1 & l2 & _ & _ & _ & -> & Hinv')]; [by exists s|eexists; by split].
  - intros Hi. apply list_elem_of_split in Hi as (l1 & l2 & El). destruct (del_spec i l1 l2 s Hinv El) as (r & _ & Hd & Hinv'). eauto.
  - intros Hf. destruct (flush_spec smp ifc s Hinv Hf) as (s' & ? & ? & _). eauto.
Qed.

Lemma route_reachable_inv smp protocols s : reachable smp protocols s → inv s.
Proof.
  induction 1 as [|o s s' _ IH Ha Hr].
  - split; cbn; [constructor| |set_solver|constructor]. intros i. split; [set_solver|]. intros (r & ? & _). set_solver.
  - destruct (route_step_ok smp protocols o s IH Ha) as (s2 & E & ?). congruence.
Qed.

(** ** Theorems *)

(** A route matches an address when both are in its network. *)
Definition route_matches (s : state) (addr : Z) (i : nat) : Prop :=
  ∃ r, objs s !! i = Some r ∧ Z.land (target r) (mask r) = Z.land addr (mask r).
(** The netmask of a prefix of [n] bits. *)
Definition prefix_mask (n : Z) : Z := 2 ^ 32 - 2 ^ (32 - n).

Lemma get_loop_spec s addr l :
  (∀ i, i ∈ l → ∃ r a, objs s !! i = Some r ∧ addressing r = Some a) → StronglySorted (λ i j, mask_of s j ≤ mask_of s i) l →
  (get_loop s addr l = Ok None ∧ ∀ i, i ∈ l → ¬ route_matches s addr i) ∨
  ∃ i, get_loop s addr l = Ok (Some i) ∧ i ∈ l ∧ route_matches s addr i ∧ ∀ j, j ∈ l → route_matches s addr j → mask_of s j ≤ mask_of s i.
Proof.
  intros Hl Hs. induction Hs as [|i l Hs IH Hf]; cbn [get_loop]; [left; set_solver|].
  destruct (Hl i ltac:(set_solver)) as (r & a & Er & Ea). unfold obj. rewrite Er. cbn [mbind outcome_bind]. rewrite Ea.
  unfold ip_matchaddr. cbn [from_option id]. rewrite Forall_forall in Hf.
  destruct (Z.eqb_spec (Z.land (target r) (mask r)) (Z.land addr (mask r))) as [E|E].
  - right. exists i. split_and!; [done|set_solver|by exists r|]. intros j Hj _. apply elem_of_cons in Hj as [->|Hj]; [done|by apply Hf].
  - assert (¬ route_matches s addr i) as Hn by (intros (r' & Er' & E'); rewrite Er in Er'; congruence).
    destruct IH as [[-> Hno]|(j & -> & Hj & Hm & Hmax)]; [intros; apply Hl; set_solver| |].
    + left. split; [done|]. intros j Hj. apply elem_of_cons in Hj as [->|Hj]; [done|by apply Hno].
    + right. exists j. split_and!; [done|set_solver|done|]. intros k Hk Hkm. apply elem_of_cons in Hk as [->|Hk]; [done|by apply Hmax].
Qed.

(** C40. In every state that clients can reach by creating, adding, re-adding,
    removing and flushing routes, [route_get] returns without fault a route of the
    table that matches the address and whose netmask is the greatest, so that its
    prefix is the longest, among all the matching ones; it finds none only when
    none matches. *)
Theorem route_get_longest_prefix smp protocols s addr :
  reachable smp protocols s →
  ∃ res, route_get addr s = Ok res ∧
    match res with
    | None => ∀ i, i ∈ route_table s → ¬ route_matches s addr i
    | Some i => i ∈ route_table s ∧ route_matches s addr i ∧
        (∀ j, j ∈ route_table s → route_matches s addr j → mask_of s j ≤ mask_of s i) ∧
        ∀ j m n, j ∈ route_table s → route_matches s addr j → 0 ≤ m ≤ 32 → 0 ≤ n ≤ 32 →
          mask_of s j = prefix_mask m → mask_of s i = prefix_mask n → m ≤ n
    end.
Proof.
  intros Hinv%route_reachable_inv. unfold route_get.
  destruct (get_loop_spec s addr (route_table s)) as [[-> H]|(i & -> & Hi & Hm & Hmax)]; [|by apply inv_sorted| |].
  - intros i Hi. destruct (in_obj s i Hinv Hi) as (r & a & ? & ? & _). eauto.
  - by exists None.
  - exists (Some i). split_and!; try done. intros j m n Hj Hjm Hm0 Hn0 Em En. specialize (Hmax j Hj Hjm). rewrite Em, En in Hmax.
    unfold prefix_mask in Hmax. destruct (Z.le_gt_cases m n); [done|]. assert (2 ^ (32 - m) < 2 ^ (32 - n)) by (apply Z.pow_lt_mono_r; lia). lia.
Qed.

(** The operations of clients never fault or corrupt the table; a route is
    added only once, with the first addressing module of its interface that
    matches, a removed route is never added again, and the flush of an interface
    removes the routes of this interface, no others, and keeps their order. *)
Theorem route_ops_exact smp protocols s o :
  reachable smp protocols s → allowed smp o s →
  ∃ s', run_op smp protocols o s = Ok s' ∧ NoDup (route_table s') ∧
    match o with
    | ONew _ _ _ _ | ORouter _ _ => route_table s' = route_table s
    | OAdd i => ∀ r, objs s !! i = Some r →
        let addr := if is_routed r then router r else target r in
        if invalidated r || bool_decide (is_Some (addressing r)) ||
           forallb (λ p, negb (ip_matchaddr p None (Some addr) (Some (mask r)))) (protocols (interface r))
        then s' = s else route_table s' ≡ₚ i :: route_table s
    | ODel i => ∃ l1 l2, route_table s = l1 ++ i :: l2 ∧ route_table s' = l1 ++ l2
    | OFlush ifc => route_table s' = filter (λ i, on_interface s ifc i = false) (route_table s)
    end.
Proof.
  intros Hinv%route_reachable_inv Ha. destruct (route_step_ok smp protocols o s Hinv Ha) as (s' & Hr & Hinv'). exists s'.
  split; [done|]. split; [by apply inv_nodup|]. destruct o as [i t m ifc|i a|i|i|ifc]; cbn [run_op allowed] in *.
  - by injection Hr as <-.
  - destruct Ha as (r & Ho & _). unfold set_router, obj in Hr. rewrite Ho in Hr. by injection Hr as <-.
  - intros r Ho. set (addr := if is_routed r then router r else target r). unfold route_add, obj in Hr. rewrite Ho in Hr. cbn [mbind outcome_bind] in Hr.
    destruct (invalidated r) eqn:Ev; [by injection Hr as <-|]. destruct (addressing r) as [a|] eqn:Ea; [by injection Hr as <-|]. cbn [orb] in *.
    assert ((if negb (is_routed r) then target r else router r) = addr) as E by (unfold addr; by destruct (is_routed r)). rewrite E in Hr.
    destruct (add_loop_spec i r addr (protocols (interface r)) s Hinv Ho Ea Ev) as [[E1 Hno]|(p & l1 & l2 & Hp & Hm & Et & E1 & _)];
      rewrite E1 in Hr; injection Hr as <-.
    + destruct (forallb _ _) eqn:Ef; [by rewrite orb_true_r|]. exfalso. eapply eq_true_false_abs; [|exact Ef].
      apply forallb_forall. intros p Hp%list_elem_of_In. by rewrite Hno.
    + destruct (forallb _ _) eqn:Ef; [|rewrite bool_decide_eq_false_2 by (by intros [? ?]); cbn [orb route_table]; rewrite Et; by rewrite <-Permutation_middle].
      rewrite forallb_forall in Ef. specialize (Ef p). rewrite Hm in Ef. discriminate Ef. by apply list_elem_of_In.
  - apply list_elem_of_split in Ha as (l1 & l2 & El). exists l1, l2. split; [done|].
    destruct (del_spec i l1 l2 s Hinv El) as (r & _ & Hd & _). rewrite Hr in Hd. by injection Hd as ->.
  - destruct (flush_spec smp ifc s Hinv Ha) as (s2 & E2 & _ & Ht). congruence.
Qed.

(** ** A network: a default route through a router and the local network. *)

Definition demo_protocols (ifc : nat) : list net_proto_s := if ifc is O then [{| pv_addr := 0x0a000001; pv_mask := 0xffffff00 |}] else [].
Definition demo_new : state := route_obj_new 1 0x0a000000 0xffffff00 0 (route_obj_new 0 0 0 0 {| objs := ∅; route_table := [] |}).
Definition demo_routed : state := {|
  objs := <[0%nat := {| interface := 0; addressing := None; target := 0; is_routed := true; mask := 0; router := 0x0a0000fe; invalidated := false |}]> (objs demo_new);
  route_table := [] |}.
Definition added (s : outcome (Z * state)) : state := if s is Ok (_, s) then s else {| objs := ∅; route_table := [] |}.
Definition demo_state : state := added (route_add demo_protocols 1 (added (route_add demo_protocols 0 demo_routed))).

Lemma route_demo_reachable : reachable false demo_protocols demo_state.
Proof.
  apply (reach_step _ _ (OAdd 1) (added (route_add demo_protocols 0 demo_routed))); [|by eexists|reflexivity].
  apply (reach_step _ _ (OAdd 0) demo_routed); [|by eexists|reflexivity].
  apply (reach_step _ _ (ORouter 0 0x0a0000fe) demo_new); [|by eexists|reflexivity].
  apply (reach_step _ _ (ONew 1 0x0a000000 0xffffff00 0) (route_obj_new 0 0 0 0 {| objs := ∅; route_table := [] |})); [|done|done].
  apply (reach_step _ _ (ONew 0 0 0 0) {| objs := ∅; route_table := [] |}); [constructor|done|done].
Qed.

Lemma route_get_longest_prefix_witness :
  route_table demo_state = [1%nat; 0%nat] ∧ route_get 0x0a000007 demo_state = Ok (Some 1%nat) ∧ route_get 0x08080808 demo_state = Ok (Some 0%nat) ∧
  ∃ res, route_get 0x0a000007 demo_state = Ok res ∧
    match res with
    | None => ∀ i, i ∈ route_table demo_state → ¬ route_matches demo_state 0x0a000007 i
    | Some i => i ∈ route_table demo_state ∧ route_matches demo_state 0x0a000007 i ∧
        (∀ j, j ∈ route_table demo_state → route_matches demo_state 0x0a000007 j → mask_of demo_state j ≤ mask_of demo_state i) ∧
        ∀ j m n, j ∈ route_table demo_state → route_matches demo_state 0x0a000007 j → 0 ≤ m ≤ 32 → 0 ≤ n ≤ 32 →
          mask_of demo_state j = prefix_mask m → mask_of demo_state i = prefix_mask n → m ≤ n
    end.
Proof.
  split; [reflexivity|]. split; [reflexivity|]. split; [reflexivity|].
  exact (route_get_longest_prefix false demo_protocols demo_state 0x0a000007 route_demo_reachable).
Defined.

Lemma route_ops_exact_witness :
  ∃ s', run_op false demo_protocols (OFlush 0) demo_state = Ok s' ∧ NoDup (route_table s') ∧
    route_table s' = filter (λ i, on_interface demo_state 0 i = false) (route_table demo_state).
Proof. exact (route_ops_exact false demo_protocols demo_state (OFlush 0) route_demo_reachable (or_introl eq_refl)). Defined.

(** A route that is removed twice, or removed after the flush of its interface,
    corrupts the table: the mark of the object is not tested. *)
Theorem route_del_twice_corrupts : (s ← route_flush false 0 demo_state; route_del 1 s) = Err FCorrupt.
Proof. reflexivity. Qed.

(** On a multiprocessor the flush of an interface spins on the lock that it holds
    itself, unless the routes of the interface are only the last one of the table. *)
Theorem route_flush_deadlocks protocols s ifc i l1 j l2 :
  reachable true protocols s → route_table s = l1 ++ i :: j :: l2 → on_interface s ifc i = true →
  route_flush true ifc s = Err FSpin.
Proof.
  intros Hinv%route_reachable_inv Ht Hi. unfold route_flush. rewrite Ht.
  assert (∀ k, k ∈ l1 ++ i :: j :: l2 → ∃ r, objs s !! k = Some r) as Ho.
  { intros k Hk. rewrite <-Ht in Hk. destruct (in_obj s k Hinv Hk) as (r & _ & ? & _). eauto. }
  clear Hinv Ht. induction l1 as [|k l1 IH]; cbn [app flush_loop andb del_prev mbind outcome_bind].
  - destruct (Ho i ltac:(set_solver)) as [r Er]. unfold on_interface in Hi. rewrite Er in Hi. unfold obj. rewrite Er. cbn [mbind outcome_bind].
    by rewrite Hi.
  - destruct (Ho k ltac:(set_solver)) as [r Er]. unfold obj at 1. rewrite Er. cbn [mbind outcome_bind].
    destruct (interface r =? ifc)%nat; [by destruct l1|]. apply IH. set_solver.
Qed.
End Route.
