(* ===== verification/Ipv4.v ===== *)
(** * Internet protocol (libnetwork/packet.c, libnetwork/protocols/ipv4.c)

    The checksum of packets, and IP as it sends, forwards, fragments, reassembles
    and receives packets, over the routing table of [Route].  A header is a record
    of its fields in host order, [check] excepted, which is stored in the order of
    the processor; [hdr_bytes] is its memory.  What the protocol hands to other
    layers is a list of [output]s.  The widths of [uint_fast16_t] and
    [uint_fast32_t] are arguments, and so is the byte order of the processor. *)

From stdpp Require Import gmap.
From S2P Require Import Prelude Route.

Module Ipv4.

(** ** Checksum *)

(** Sum of the 16 bit words; [sum_words] is the loop of [packet_checksum], with
    the words loaded in the byte order of the processor, at the width [w] of
    [uint_fast32_t]. *)
Section checksum.
Context (w : Z) (big : bool).

Definition load16 (b0 b1 : Z) : Z := if big then b0 * 256 + b1 else b0 + 256 * b1.

Fixpoint sum_words (data : list Z) (checksum : Z) : Z :=
  match data with
  | b0 :: b1 :: data => sum_words data (wrapu w (checksum + load16 b0 b1))
  | [b] => wrapu w (checksum + b)
  | [] => checksum
  end.

(** [while (checksum >> 16) checksum = (checksum & 0xffff) + (checksum >> 16);] *)
Fixpoint fold_carries (fuel : nat) (checksum : Z) : outcome Z :=
  match fuel with
  | O => Err FFuel
  | S fuel =>
      if Z.shiftr checksum 16 =? 0 then Ok checksum
      else fold_carries fuel (wrapu w (Z.land checksum 0xffff + Z.shiftr checksum 16))
  end.

Definition packet_checksum (data : list Z) : outcome Z :=
  c ← fold_carries 4 (sum_words data 0); Ok (wrapu 16 c).

(** The copy: the destination pointer is not advanced in the loop. *)
Fixpoint packet_memcpy_loop (src dst : list Z) (checksum : Z) : outcome (list Z * Z) :=
  match src, dst with
  | b0 :: b1 :: src, _ :: _ :: dst' => packet_memcpy_loop src (b0 :: b1 :: dst') (wrapu w (checksum + load16 b0 b1))
  | [b], _ :: dst' => Ok (b :: dst', wrapu w (checksum + b))
  | [], _ => Ok (dst, checksum)
  | _, _ => Err FBounds
  end.
Definition packet_memcpy (src dst : list Z) : outcome (list Z * Z) :=
  '(dst, c) ← packet_memcpy_loop src dst 0; c ← fold_carries 4 c; Ok (dst, wrapu 16 c).
End checksum.

(** ** The header *)

(** [options] are the bytes between the fixed header and the payload. *)
Record iphdr := {
  version : Z; ihl : Z; tos : Z; tot_len : Z; id : Z; fragment : Z; ttl : Z; protocol : Z; check : Z; saddr : Z; daddr : Z;
  options : list Z }.

Definition set_check (c : Z) (h : iphdr) : iphdr :=
  {| version := version h; ihl := ihl h; tos := tos h; tot_len := tot_len h; id := id h; fragment := fragment h;
     ttl := ttl h; protocol := protocol h; check := c; saddr := saddr h; daddr := daddr h; options := options h |}.
Definition set_ttl (t : Z) (h : iphdr) : iphdr :=
  {| version := version h; ihl := ihl h; tos := tos h; tot_len := tot_len h; id := id h; fragment := fragment h;
     ttl := t; protocol := protocol h; check := check h; saddr := saddr h; daddr := daddr h; options := options h |}.

Definition IP_FLAG_MF : Z := 0x2000.
Definition IP_FLAG_DF : Z := 0x4000.
Definition IP_FRAG_MASK : Z := 0x1fff.
Definition IPDEFTTL : Z := 64.

(** A packet at the IP stage: its header and what follows it. *)
Record packet := { hdr : iphdr; data : list Z }.

(** The reassembly structure, and the private data of the protocol. *)
Record ip_packet_s := { psize : Z; received : Z; packets : list packet }.
Record net_pv_ip_s := { pv_if : nat; addr : Z; netmask : Z; fragments : gmap (Z * Z) ip_packet_s; id_seq : Z }.

Definition set_fragments (m : gmap (Z * Z) ip_packet_s) (pv : net_pv_ip_s) : net_pv_ip_s :=
  {| pv_if := pv_if pv; addr := addr pv; netmask := netmask pv; fragments := m; id_seq := id_seq pv |}.

(** What IP hands over: a packet to an interface, for the next hop whose hardware
    address [arp_get_mac] looks up; an error report of ICMP about a packet; a
    payload to the protocol of the upper layer. *)
Inductive error := ERROR_NET_UNREACHABLE | ERROR_PROTO_UNREACHABLE | ERROR_CANNOT_FRAGMENT | ERROR_TIMEOUT | ERROR_FRAGMENT_TIMEOUT | ERROR_BAD_HEADER.
Inductive output :=
  | Transmit (ifc : nat) (hop : Z) (p : packet)
  | errormsg (p : packet) (e : error)
  | Deliver (proto : Z) (payload : list Z).

(** The width of [uint_fast16_t], of [uint_fast32_t] and the byte order. *)
Section ip.
Context (fw w : Z) (big : bool).

(** The type of arithmetic on [uint_fast16_t] after the integer promotions. *)
Definition promote (x : Z) : Z := if fw <? 32 then x else wrapu fw x.

(** The bytes of the fixed header. *)
Definition be16 (x : Z) : list Z := [x / 256 mod 256; x mod 256].
Definition native16 (x : Z) : list Z := if big then be16 x else [x mod 256; x / 256 mod 256].
Definition hdr_bytes (h : iphdr) : list Z :=
  [version h * 16 + ihl h; tos h] ++ be16 (tot_len h) ++ be16 (id h) ++ be16 (fragment h) ++ [ttl h; protocol h] ++
  native16 (check h) ++ be16 (saddr h / 65536) ++ be16 (saddr h mod 65536) ++ be16 (daddr h / 65536) ++ be16 (daddr h mod 65536).

(** The big endian field [x] as the processor loads it, and the field that holds
    [x] in the order of the processor. *)
Definition native_be (x : Z) : Z := load16 big (x / 256 mod 256) (x mod 256).

(** ** Sending *)

(** The header of a packet of [size] bytes that is not fragmented; the identifier
    is stored in the order of the processor. *)
Definition send_header (addr target proto size id_seq : Z) : outcome iphdr :=
  let h := {| version := 4; ihl := 5; tos := 0; tot_len := wrapu 16 size; id := native_be (wrapu 16 id_seq); fragment := 0; ttl := IPDEFTTL;
              protocol := proto; check := 0; saddr := addr; daddr := target; options := [] |} in
  c ← packet_checksum w big (hdr_bytes h);
  Ok (set_check (wrapu 16 (Z.lnot c)) h).

(** The header for [ip_send_fragment], with the sum of the header without the
    fields [tot_len] and [fragment]. *)
Definition partial_header (addr target proto id_seq : Z) : outcome iphdr :=
  let h := {| version := 4; ihl := 5; tos := 0; tot_len := 0; id := wrapu 16 id_seq; fragment := 0; ttl := IPDEFTTL;
              protocol := proto; check := 0; saddr := addr; daddr := target; options := [] |} in
  c ← packet_checksum w big (hdr_bytes h);
  Ok (set_check c h).

(** The header of a fragment, and the fragment. *)
Definition fragment_header (hdr : iphdr) (shift offs size : Z) (last : bool) : iphdr :=
  let f := wrapu 16 (Z.lor (if last then 0 else IP_FLAG_MF) (promote (shift + offs) / 8)) in
  let t := wrapu 16 size in
  let c := wrapu w (check hdr + native_be f + native_be t) in
  let c := wrapu w (c + Z.shiftr c 16) in
  {| version := version hdr; ihl := ihl hdr; tos := tos hdr; tot_len := t; id := id hdr; fragment := f; ttl := ttl hdr;
     protocol := protocol hdr; check := wrapu 16 (Z.lnot c); saddr := saddr hdr; daddr := daddr hdr; options := [] |}.
Definition fragment_packet (hdr : iphdr) (payload : list Z) (shift offs size : Z) (last : bool) : packet :=
  {| hdr := fragment_header hdr shift offs (20 + size) last; data := take (Z.to_nat size) (drop (Z.to_nat offs) payload) |}.

(** The child packet is allocated, or not, by [packet_obj_new], here for the
    offset of the fragment; its header has room for 20 bytes.  [deliver] routes
    the fragment or transmits it. *)
Context (packet_obj_new : Z → bool).

Definition ip_send_fragment (deliver : packet → outcome (list output)) (hdr : iphdr) (payload : list Z) (shift offs size : Z) (last : bool)
    : outcome (option (list output)) :=
  if negb (packet_obj_new (shift + offs)) then Ok None
  else
    _ ← require (ihl hdr * 4 <=? 20) FBounds;
    _ ← require (20 <=? ihl hdr * 4) FUndef;
    o ← deliver (fragment_packet hdr payload shift offs size last);
    Ok (Some o).

(** [while (!error && offs + fragsz < total) ...], then the last fragment. *)
Fixpoint fragment_loop (send : Z → Z → bool → outcome (option (list output))) (last : bool) (fuel : nat) (total fragsz offs : Z)
    : outcome (list output) :=
  match fuel with
  | O => Err FFuel
  | S fuel =>
      if promote (offs + fragsz) <? total then
        r ← send offs fragsz false;
        match r with
        | None => Ok []
        | Some o => o' ← fragment_loop send last fuel total fragsz (wrapu fw (offs + fragsz)); Ok (o ++ o')
        end
      else r ← send offs (promote (total - offs)) last; Ok (default [] r)
  end.

(** The transfer unit of the interfaces. *)
Context (mtu : nat → Z).

(** The fuel bounds the recursion through [ip_send_fragment]. *)
Fixpoint ip_route (fuel : nat) (route : Route.net_route_s) (p : packet) : outcome (list output) :=
  match fuel with
  | O => Err FFuel
  | S fuel =>
      let h := hdr p in
      let ifc := Route.interface route in
      if ttl h =? 1 then Ok [errormsg p ERROR_TIMEOUT]
      else
        let total := wrapu fw (Z.of_nat (length (data p))) in
        if promote (mtu ifc - ihl h * 4) <? total then
          if negb (Z.land (fragment h) IP_FLAG_DF =? 0) then Ok [errormsg p ERROR_CANNOT_FRAGMENT]
          else
            let shift := wrapu fw (Z.land (fragment h) IP_FRAG_MASK * 8) in
            let fragsz := wrapu fw (Z.land (promote (mtu ifc - 20)) (Z.lnot 7)) in
            let c := wrapu fw (Z.lnot (check h) - native_be (tot_len h) - native_be (fragment h) + 1) in
            let h' := set_check (wrapu 16 (c + Z.shiftr c 16)) h in
            fragment_loop (ip_send_fragment (ip_route fuel route) h' (data p) shift)
              (Z.land (fragment h) IP_FLAG_MF =? 0) (S (length (data p))) total fragsz 0
        else
          let c := wrapu fw (check h + 1) in
          let h' := set_check (wrapu 16 (c + Z.shiftr c 16)) (set_ttl (wrapu 8 (ttl h - 1)) h) in
          let hop := if Route.is_routed route then daddr h else Route.router route in
          Ok [Transmit ifc hop {| hdr := h'; data := data p |}]
  end.

(** Whether an address is on the network of the interface. *)
Definition ip_delivery_direct (pv : net_pv_ip_s) (target : Z) : bool :=
  (Z.land target (netmask pv) =? Z.land (addr pv) (netmask pv)) || (target =? 0xffffffff).

(** The route to an address, [None] for the local network, or the error. *)
Inductive delivery := Direct | Indirect (r : Route.net_route_s) | Unreachable.
Definition find_route (table : Route.state) (target : Z) : outcome delivery :=
  r ← Route.route_get target table;
  match r with
  | None => Ok Unreachable
  | Some i => route ← Route.obj table i; Ok (Indirect route)
  end.

Definition ip_send (fuel : nat) (table : Route.state) (pv : net_pv_ip_s) (target proto : Z) (payload : list Z) : outcome (list output * net_pv_ip_s) :=
  let total := wrapu fw (Z.of_nat (length payload)) in
  let pv' := {| pv_if := pv_if pv; addr := addr pv; netmask := netmask pv; fragments := fragments pv; id_seq := wrapu w (id_seq pv + 1) |} in
  let transmit p := [Transmit (pv_if pv) target p] in
  if promote (mtu (pv_if pv) - 20) <? total then
    let fragsz := wrapu fw (Z.land (promote (mtu (pv_if pv) - 20)) (Z.lnot 7)) in
    h ← partial_header (addr pv) target proto (id_seq pv);
    d ← (if ip_delivery_direct pv target then Ok Direct else find_route table target);
    match d with
    | Unreachable => Ok ([errormsg {| hdr := h; data := payload |} ERROR_NET_UNREACHABLE], pv')
    | _ =>
        let deliver p := if d is Indirect r then ip_route fuel r p else Ok (transmit p) in
        o ← fragment_loop (ip_send_fragment deliver h payload 0) true (S (length payload)) total fragsz 0;
        Ok (o, pv')
    end
  else
    h ← send_header (addr pv) target proto (20 + Z.of_nat (length payload)) (id_seq pv);
    let p := {| hdr := h; data := payload |} in
    d ← (if ip_delivery_direct pv target then Ok Direct else find_route table target);
    match d with
    | Direct => Ok (transmit p, pv')
    | Indirect r => o ← ip_route fuel r p; Ok (o, pv')
    | Unreachable => Ok ([errormsg p ERROR_NET_UNREACHABLE], pv')
    end.

(** ** Reassembly *)

(** [memcpy(data + offs, bytes, ...)] into a buffer. *)
Definition copy_at (buf : list Z) (offs : Z) (bytes : list Z) : outcome (list Z) :=
  if (0 <=? offs) && (offs + Z.of_nat (length bytes) <=? Z.of_nat (length buf)) then
    Ok (take (Z.to_nat offs) buf ++ bytes ++ drop (Z.to_nat offs + length bytes) buf)
  else Err FBounds.

Definition frag_offset (f : packet) : Z := wrapu fw (Z.land (fragment (hdr f)) IP_FRAG_MASK * 8).

(** The loop on the fragments received before, the last one first; an error when
    one starts behind the end. *)
Fixpoint reassemble (total : Z) (fs : list packet) (buf : list Z) : outcome (list output * option (list Z)) :=
  match fs with
  | [] => Ok ([], Some buf)
  | f :: fs =>
      let offs := frag_offset f in
      if total <=? offs then Ok ([errormsg f ERROR_BAD_HEADER], None)
      else buf ← copy_at buf offs (data f); reassemble total fs buf
  end.

(** The allocation of the buffer, of which the payload starts [pad] bytes before
    the end of the padding by alignment; the creation of a reassembly structure
    may fail. *)
Context (mem_alloc : Z → option (list Z)) (pad : Z) (fragment_obj_new : bool).

(** The result is the payload of the complete datagram, or [None] for 0. *)
Definition frag_key (f : packet) : Z * Z := (saddr (hdr f), id (hdr f)).
Definition ip_fragment_pushpkt (f : packet) (fragments : gmap (Z * Z) ip_packet_s)
    : outcome (list output * option (list Z) * gmap (Z * Z) ip_packet_s) :=
  let key := frag_key f in
  let offs := frag_offset f in
  let datasz := wrapu fw (tot_len (hdr f) - ihl (hdr f) * 4) in
  if (if fragments !! key is None then negb fragment_obj_new else false) then Ok ([], None, fragments)
  else
    let p := default {| psize := 0; received := 0; packets := [] |} (fragments !! key) in
    let received' := wrapu fw (received p + datasz) in
    let size' := if Z.land (fragment (hdr f)) IP_FLAG_MF =? 0 then wrapu fw (offs + datasz) else psize p in
    if negb (size' =? 0) && (size' =? received') then
      let fragments' := delete key fragments in
      match mem_alloc (size' + 3 - pad) with
      | None => Ok ([], None, fragments')
      | Some buf =>
          _ ← require (datasz <=? Z.of_nat (length (data f))) FBounds;
          buf ← copy_at buf offs (take (Z.to_nat datasz) (data f));
          '(o, r) ← reassemble size' (packets p) buf;
          Ok (o, option_map (take (Z.to_nat size')) r, fragments')
      end
    else Ok ([], None, <[key := {| psize := size'; received := received'; packets := f :: packets p |}]> fragments).

(** The timer of a reassembly structure. *)
Definition ip_fragment_timeout (key : Z * Z) (fragments : gmap (Z * Z) ip_packet_s) : list output * gmap (Z * Z) ip_packet_s :=
  match fragments !! key with
  | Some p => (if packets p is f :: _ then [errormsg f ERROR_FRAGMENT_TIMEOUT] else [], delete key fragments)
  | None => ([], fragments)
  end.

(** ** Receiving *)

(** The checksum of a received header with its options. *)
Definition checksum_accepted (h : iphdr) : outcome bool :=
  let bytes := hdr_bytes h ++ options h in
  _ ← require (ihl h * 4 <=? Z.of_nat (length bytes)) FBounds;
  c ← packet_checksum w big (take (Z.to_nat (ihl h * 4)) bytes); Ok (c =? 0xffff).

(** The payload according to [tot_len]: it is not compared with what was
    received, and a size that is too large reaches behind the packet. *)
Definition payload_of (p : packet) : outcome (list Z) :=
  let size := tot_len (hdr p) - ihl (hdr p) * 4 in
  _ ← require ((0 <=? size) && (size <=? Z.of_nat (length (data p)))) FBounds;
  Ok (take (Z.to_nat size) (data p)).

(** The protocols of the upper layer. *)
Context (net_protos_lookup : Z → bool).

Definition dispatch (p : packet) (payload : list Z) : list output :=
  if net_protos_lookup (protocol (hdr p)) then [Deliver (protocol (hdr p)) payload]
  else [errormsg {| hdr := hdr p; data := payload |} ERROR_PROTO_UNREACHABLE].

Definition ip_pushpkt (fuel : nat) (table : Route.state) (pv : net_pv_ip_s) (p : packet) : outcome (list output * net_pv_ip_s) :=
  let h := hdr p in
  let target := daddr h in
  let host := wrapu w (Z.lnot (netmask pv)) in
  let on_subnet := Z.land target (netmask pv) =? Z.land (addr pv) (netmask pv) in
  let is_broadcast := Z.land target host =? host in
  if negb (version h =? 4) then Ok ([], pv)
  else if negb (target =? addr pv) && (negb on_subnet && negb (target =? 0xffffffff)) then
    if is_broadcast then Ok ([], pv)
    else
      d ← find_route table target;
      match d with
      | Indirect route =>
          payload ← payload_of p;
          o ← ip_route fuel route {| hdr := h; data := payload |}; Ok (o, pv)
      | _ => Ok ([errormsg p ERROR_NET_UNREACHABLE], pv)
      end
  else if negb (target =? addr pv) && negb is_broadcast then Ok ([], pv)
  else
    ok ← checksum_accepted h;
    if negb ok then Ok ([], pv)
    else
      payload ← payload_of p;
      let p' := {| hdr := h; data := payload |} in
      if negb (Z.land (fragment h) IP_FLAG_MF =? 0) || negb (Z.land (fragment h) IP_FRAG_MASK =? 0) then
        '(o, r, m) ← ip_fragment_pushpkt p' (fragments pv);
        Ok (o ++ match r with Some whole => dispatch p' whole | None => [] end, set_fragments m pv)
      else Ok (dispatch p' payload, pv).
End ip.

(** The checksum of the pseudo header of the upper layers. *)
Definition ip_pseudoheader_checksum (w : Z) (big : bool) (source dest proto size : Z) : outcome Z :=
  packet_checksum w big
    (be16 (source / 65536) ++ be16 (source mod 65536) ++ be16 (dest / 65536) ++ be16 (dest mod 65536) ++ [0; proto] ++ be16 (wrapu 16 size)).

(** ** The checksum *)

(** The sum of the words, without the width of the accumulator. *)
Fixpoint wsum (big : bool) (data : list Z) : Z :=
  match data with
  | b0 :: b1 :: data => load16 big b0 b1 + wsum big data
  | [b] => b
  | [] => 0
  end.

Definition byte (b : Z) : Prop := 0 ≤ b < 256.

Lemma load16_range big b0 b1 : byte b0 → byte b1 → 0 ≤ load16 big b0 b1 < 65536.
Proof. unfold byte, load16. destruct big; lia. Qed.

(** Induction by pairs of bytes. *)
Lemma pairs_ind (P : list Z → Prop) : P [] → (∀ b, P [b]) → (∀ b0 b1 l, P l → P (b0 :: b1 :: l)) → ∀ l, P l.
Proof.
  intros H0 H1 H2 l. assert (P l ∧ ∀ b, P (b :: l)) as [? _]; [|done].
  induction l as [|x l [IH1 IH2]]; [by split|]. split; [apply IH2|]. intros b. by apply H2.
Qed.

Lemma wsum_range big l : Forall byte l → 0 ≤ wsum big l ≤ 65535 * ((Z.of_nat (length l) + 1) / 2).
Proof.
  induction l as [|b|b0 b1 l IH] using pairs_ind; intros H.
  - done.
  - apply Forall_cons in H as [Hb _]. unfold byte in Hb. change ((Z.of_nat (length [b]) + 1) / 2) with 1. cbn [wsum]. lia.
  - apply Forall_cons in H as [H0 H]. apply Forall_cons in H as [H1 H]. specialize (IH H).
    pose proof (load16_range big b0 b1 H0 H1). cbn [wsum length]. rewrite !Nat2Z.inj_succ.
    replace (Z.succ (Z.succ (Z.of_nat (length l))) + 1) with (Z.of_nat (length l) + 1 + 1 * 2) by lia.
    rewrite Z.div_add by lia. lia.
Qed.

Lemma sum_words_spec w big l : ∀ acc,
  0 ≤ w → Forall byte l → 0 ≤ acc → acc + wsum big l < 2 ^ w → sum_words w big l acc = acc + wsum big l.
Proof.
  induction l as [|b|b0 b1 l IH] using pairs_ind; intros acc Hw H Ha Hs.
  - cbn. lia.
  - apply Forall_cons in H as [Hb _]. unfold byte in Hb. cbn in *. rewrite wrapu_small by lia. done.
  - apply Forall_cons in H as [H0 H]. apply Forall_cons in H as [H1 H]. pose proof (load16_range big b0 b1 H0 H1).
    pose proof (wsum_range big l H). cbn [sum_words wsum] in *. rewrite wrapu_small by lia. rewrite IH by (done || lia). lia.
Qed.

(** One turn of the loop on the carries keeps the value modulo [2^16 - 1]. *)
Lemma fold_step x : 0 ≤ x →
  let y := Z.land x 0xffff + Z.shiftr x 16 in
  0 ≤ y ∧ (65536 ≤ x → y < x) ∧ y mod 65535 = x mod 65535 ∧ (0 < x → 0 < y) ∧ y ≤ 65535 + x / 65536.
Proof.
  intros Hx y. assert (y = x mod 65536 + x / 65536) as Ey.
  { unfold y. change 0xffff with (Z.ones 16). rewrite Z.land_ones, Z.shiftr_div_pow2 by lia. done. }
  pose proof (Z.div_mod x 65536 ltac:(lia)) as Hd. pose proof (Z.mod_pos_bound x 65536 ltac:(lia)) as Hm.
  set (q := x / 65536) in *. set (r := x mod 65536) in *. split_and!; try lia.
  rewrite Ey, Hd. replace (65536 * q + r) with (r + q + q * 65535) by lia. by rewrite Z.mod_add by lia.
Qed.

Lemma fold_carries_spec w x : 32 ≤ w → 0 ≤ x < 2 ^ 32 →
  ∃ c, fold_carries w 4 x = Ok c ∧ 0 ≤ c ≤ 65535 ∧ c mod 65535 = x mod 65535 ∧ (0 < x → 0 < c).
Proof.
  intros Hw Hx. assert (2 ^ 32 ≤ 2 ^ w) as Hp by (apply Z.pow_le_mono_r; lia).
  assert (∀ n z, 0 ≤ z < 2 ^ 32 → fold_carries w (S n) z = if z <? 65536 then Ok z else
    fold_carries w n (Z.land z 0xffff + Z.shiftr z 16)) as Hs.
  { intros n z Hz. cbn [fold_carries]. rewrite !Z.shiftr_div_pow2 by lia. change (2 ^ 16) with 65536.
    pose proof (Z.div_mod z 65536 ltac:(lia)). pose proof (Z.mod_pos_bound z 65536 ltac:(lia)).
    destruct (fold_step z ltac:(lia)) as (F1 & F2 & _). rewrite Z.shiftr_div_pow2 in F1, F2 by lia. change (2 ^ 16) with 65536 in F1, F2.
    destruct (Z.eqb_spec (z / 65536) 0), (Z.ltb_spec z 65536); try lia; [done|]. rewrite wrapu_small by lia. done. }
  assert (∀ n z, 0 ≤ z ≤ 65535 → fold_carries w (S n) z = Ok z) as H0 by (intros n z Hz; rewrite Hs by lia; by destruct (Z.ltb_spec z 65536); [|lia]).
  destruct (fold_step x ltac:(lia)) as (A1 & A2 & A3 & A4 & A5). set (y := Z.land x 0xffff + Z.shiftr x 16) in *.
  rewrite Hs by lia. fold y. destruct (Z.ltb_spec x 65536) as [|Hbig]; [exists x; split_and!; (done || lia)|].
  assert (y ≤ 65535 + 65535) as Hy by (assert (x / 65536 < 65536) by (apply Z.div_lt_upper_bound; lia); lia).
  rewrite Hs by lia. fold y. destruct (Z.ltb_spec y 65536) as [|Hybig]; [exists y; split_and!; (done || lia)|].
  destruct (fold_step y ltac:(lia)) as (B1 & B2 & B3 & B4 & B5). set (z := Z.land y 0xffff + Z.shiftr y 16) in *.
  assert (y / 65536 = 1) as Ey1 by (symmetry; apply Z.div_unique with (y - 65536); [left|]; lia).
  assert (z ≤ 65535) as Hz.
  { assert (z = y mod 65536 + y / 65536) as -> by (unfold z; change 0xffff with (Z.ones 16); by rewrite Z.land_ones, Z.shiftr_div_pow2 by lia).
    pose proof (Z.div_mod y 65536 ltac:(lia)). lia. }
  fold z. rewrite H0 by lia. exists z. split_and!; [done|lia|lia|congruence|lia].
Qed.

(** [packet_checksum] is the one's complement sum of RFC 1071. *)
Lemma packet_checksum_spec w big l : 32 ≤ w → Forall byte l → Z.of_nat (length l) ≤ 131069 →
  ∃ c, packet_checksum w big l = Ok c ∧ 0 ≤ c ≤ 65535 ∧ c mod 65535 = wsum big l mod 65535 ∧ (0 < wsum big l → 0 < c).
Proof.
  intros Hw Hl Hn. pose proof (wsum_range big l Hl) as Hr.
  assert ((Z.of_nat (length l) + 1) / 2 ≤ 65535) by (apply Z.div_le_upper_bound; lia).
  assert (2 ^ 32 ≤ 2 ^ w) by (apply Z.pow_le_mono_r; lia). unfold packet_checksum.
  rewrite sum_words_spec by (done || lia). rewrite Z.add_0_l.
  destruct (fold_carries_spec w (wsum big l)) as (c & -> & Hc & Hm & Hp); [done|lia|]. cbn [mbind outcome_bind].
  rewrite wrapu_small by lia. eauto.
Qed.

(** The byte order of the processor only swaps the bytes of the sum. *)
Lemma wsum_swap big l : Nat.Even (length l) → wsum (negb big) l mod 65535 = (256 * wsum big l) mod 65535.
Proof.
  induction l as [|b|b0 b1 l IH] using pairs_ind; intros H; [done|by destruct H; cbn in *; lia|].
  assert (Nat.Even (length l)) as He by (destruct H as [k Hk]; exists (k - 1)%nat; cbn in Hk; lia).
  specialize (IH He). cbn [wsum]. unfold load16. rewrite Z.mul_add_distr_l.
  rewrite Z.add_mod, IH, <-Z.add_mod by lia.
  destruct big; cbn [negb].
  - replace (256 * (b0 * 256 + b1) + 256 * wsum true l) with ((b0 + 256 * b1) + 256 * wsum true l + b0 * 65535) by lia.
    by rewrite Z.mod_add by lia.
  - replace (256 * (b0 + 256 * b1) + 256 * wsum false l) with ((b0 * 256 + b1) + 256 * wsum false l + b1 * 65535) by lia.
    by rewrite Z.mod_add by lia.
Qed.

Lemma wsum_app big l1 l2 : Nat.Even (length l1) → wsum big (l1 ++ l2) = wsum big l1 + wsum big l2.
Proof.
  induction l1 as [|b|b0 b1 l IH] using pairs_ind; intros H; [done|by destruct H; cbn in *; lia|].
  assert (Nat.Even (length l)) as He by (destruct H as [k Hk]; exists (k - 1)%nat; cbn in Hk; lia).
  cbn [app wsum]. rewrite IH by done. lia.
Qed.

Lemma wsum_pos big l x : Forall byte l → x ∈ l → 0 < x → 0 < wsum big l.
Proof.
  induction l as [|b|b0 b1 l IH] using pairs_ind; intros H Hx Hp; [set_solver|apply list_elem_of_singleton in Hx as ->; done|].
  apply Forall_cons in H as [H0 H]. apply Forall_cons in H as [H1 H]. pose proof (wsum_range big l H) as Hr.
  pose proof (load16_range big b0 b1 H0 H1) as Hl. cbn [wsum]. unfold load16, byte in *.
  apply elem_of_cons in Hx as [->|Hx]; [destruct big; lia|]. apply elem_of_cons in Hx as [->|Hx]; [destruct big; lia|].
  specialize (IH H Hx Hp). lia.
Qed.

(** A sum is accepted when it is a multiple of [2^16 - 1] and not zero. *)
Lemma checksum_accepts w big l :
  32 ≤ w → Forall byte l → Z.of_nat (length l) ≤ 131069 →
  (packet_checksum w big l = Ok 0xffff → wsum big l mod 65535 = 0) ∧
  (0 < wsum big l → wsum big l mod 65535 = 0 → packet_checksum w big l = Ok 0xffff).
Proof.
  intros Hw Hl Hn. destruct (packet_checksum_spec w big l Hw Hl Hn) as (c & -> & Hc & Hm & Hpos). split.
  - intros [= ->]. by rewrite <-Hm.
  - intros Hp E. rewrite E in Hm. f_equal. apply Z.mod_divide in Hm as [k ->]; [|lia]. specialize (Hpos Hp). nia.
Qed.

Definition header_ok (h : iphdr) : Prop :=
  0 ≤ version h < 16 ∧ 0 ≤ ihl h < 16 ∧ byte (tos h) ∧ byte (ttl h) ∧ byte (protocol h).

Lemma byte_pair a b : byte a → byte b → Forall byte [a; b].
Proof. intros Ha Hb. apply Forall_cons_2; [done|]. apply Forall_cons_2; [done|apply Forall_nil_2]. Qed.
Lemma byte_mod x : byte (x mod 256).
Proof. apply Z.mod_pos_bound. lia. Qed.

Lemma be16_bytes x : Forall byte (be16 x).
Proof. apply byte_pair; apply byte_mod. Qed.

Lemma hdr_bytes_bytes big h : header_ok h → Forall byte (hdr_bytes big h).
Proof.
  intros (Hv & Hi & Ht & Hl & Hp). unfold hdr_bytes. repeat apply Forall_app_2; try apply be16_bytes; [|by apply byte_pair|].
  - apply byte_pair; [unfold byte; lia|done].
  - unfold native16. destruct big; [apply be16_bytes|]. apply byte_pair; apply byte_mod.
Qed.

Lemma hdr_bytes_length big h : length (hdr_bytes big h) = 20%nat.
Proof. unfold hdr_bytes, native16. by destruct big. Qed.

(** Filling the checksum field adds it to the sum. *)
Lemma wsum_set_check big h c :
  0 ≤ c < 65536 → wsum big (hdr_bytes big (set_check c h)) = wsum big (hdr_bytes big (set_check 0 h)) + c.
Proof.
  intros Hc. unfold hdr_bytes, be16, native16. cbn [set_check version ihl tos tot_len id fragment ttl protocol check saddr daddr].
  assert (c / 256 mod 256 = c / 256) as E by (apply Z.mod_small; split; [apply Z.div_pos; lia|apply Z.div_lt_upper_bound; lia]).
  pose proof (Z.div_mod c 256 ltac:(lia)). unfold be16. destruct big; cbn [app wsum]; unfold load16; rewrite E; change (0 / 256 mod 256) with 0;
    change (0 mod 256) with 0; lia.
Qed.

(** A header whose words sum up to a multiple of [2^16 - 1] is accepted. *)
Lemma header_accepted w big big' h :
  32 ≤ w → header_ok h → 0 < version h → wsum big' (hdr_bytes big h) mod 65535 = 0 → packet_checksum w big' (hdr_bytes big h) = Ok 0xffff.
Proof.
  intros Hw Hok Hv E. apply checksum_accepts; [done|by apply hdr_bytes_bytes|by rewrite hdr_bytes_length| |done].
  apply (wsum_pos _ _ (version h * 16 + ihl h)); [by apply hdr_bytes_bytes|unfold hdr_bytes; set_solver|]. destruct Hok. lia.
Qed.

Lemma send_header_spec w big a t proto size seq :
  32 ≤ w → byte proto →
  ∃ h, send_header w big a t proto size seq = Ok h ∧ version h = 4 ∧ ihl h = 5 ∧ tot_len h = wrapu 16 size ∧ fragment h = 0 ∧
    protocol h = proto ∧ saddr h = a ∧ daddr h = t ∧ options h = [] ∧ ttl h = IPDEFTTL ∧ 0 ≤ check h < 65536 ∧ header_ok h ∧
    ∀ big', wsum big' (hdr_bytes big h) mod 65535 = 0.
Proof.
  intros Hw Hpr. unfold send_header. set (h0 := {| version := 4 |}).
  assert (header_ok h0) as Hok by (unfold header_ok, byte, h0, IPDEFTTL in *; cbn; lia).
  destruct (packet_checksum_spec w big (hdr_bytes big h0)) as (s0 & -> & Hs & Hm & Hpos);
    [done|by apply hdr_bytes_bytes|by rewrite hdr_bytes_length|].
  cbn [mbind outcome_bind]. eexists. split; [done|]. set (c := wrapu 16 (Z.lnot s0)).
  assert (c = 65535 - s0) as Ec.
  { unfold c, wrapu, Z.lnot. symmetry. apply Z.mod_unique with (-1); lia. }
  assert (wsum big (hdr_bytes big (set_check c h0)) mod 65535 = 0) as E0.
  { rewrite wsum_set_check by lia. change (set_check 0 h0) with h0.
    rewrite Z.add_mod, <-Hm, <-Z.add_mod by lia. replace (s0 + c) with 65535 by lia. done. }
  pose proof (hdr_bytes_length big (set_check c h0)) as Hlen.
  split_and!; try done; [cbn [check set_check]; lia|cbn [check set_check]; lia|].
  intros big'. destruct (decide (big' = big)) as [->|Hne]; [done|]. assert (big' = negb big) as -> by (by destruct big, big').
  rewrite wsum_swap by (rewrite Hlen; by exists 10%nat). by rewrite Z.mul_mod, E0 by lia.
Qed.

(** The header that [ip_send] builds is accepted by the checksum test of
    [ip_pushpkt], on a host of the same or of the other byte order, and a header
    in which one 16 bit word has changed is rejected, unless the change is
    between 0x0000 and 0xffff. *)
Theorem ip_header_checksum w w' big big' addr target proto size id_seq :
  32 ≤ w → 32 ≤ w' → byte proto →
  ∃ h, send_header w big addr target proto size id_seq = Ok h ∧
    packet_checksum w' big' (hdr_bytes big h) = Ok 0xffff ∧
    ∀ pre post b0 b1 c0 c1, hdr_bytes big h = pre ++ [b0; b1] ++ post → Nat.Even (length pre) → byte c0 → byte c1 →
      packet_checksum w' big' (pre ++ [c0; c1] ++ post) = Ok 0xffff →
      load16 big' c0 c1 = load16 big' b0 b1 ∨
      load16 big' c0 c1 = 0 ∧ load16 big' b0 b1 = 65535 ∨ load16 big' c0 c1 = 65535 ∧ load16 big' b0 b1 = 0.
Proof.
  intros Hw Hw' Hpr. destruct (send_header_spec w big addr target proto size id_seq Hw Hpr)
    as (h & -> & Hv & _ & _ & _ & _ & _ & _ & _ & _ & _ & Hok & E).
  exists h. split; [done|]. split; [apply header_accepted; [done|done|lia|done]|].
  intros pre post b0 b1 c0 c1 Eh Hev Hc0 Hc1 Hacc. specialize (E big').
  pose proof (hdr_bytes_bytes big h Hok) as Hb. pose proof (hdr_bytes_length big h) as Hlen. rewrite Eh in E, Hb, Hlen.
  apply Forall_app in Hb as [Hb1 Hb2]. apply Forall_app in Hb2 as [Hb2 Hb3]. apply Forall_cons in Hb2 as [Hb0 Hb2].
  apply Forall_cons in Hb2 as [Hb2 _].
  apply (checksum_accepts w' big') in Hacc; [|done|by apply Forall_app_2; [|apply Forall_app_2; [apply byte_pair|]]|].
  2:{ rewrite !length_app in *. cbn [length] in *. lia. }
  rewrite wsum_app in E, Hacc by done. cbn [app wsum] in E, Hacc.
  pose proof (load16_range big' b0 b1 Hb0 Hb2). pose proof (load16_range big' c0 c1 Hc0 Hc1).
  apply Z.mod_divide in E as [k1 E1]; [|lia]. apply Z.mod_divide in Hacc as [k2 E2]; [|lia].
  set (x := load16 big' b0 b1) in *. set (y := load16 big' c0 c1) in *.
  assert (y - x = (k2 - k1) * 65535) as Ed by lia. assert (-1 ≤ k2 - k1 ≤ 1) by nia. nia.
Qed.

Lemma ip_header_checksum_witness :
  ∃ h, send_header 32 false 0x0a000001 0x0a000002 17 48 7 = Ok h ∧
    packet_checksum 64 true (hdr_bytes false h) = Ok 0xffff ∧
    ∀ pre post b0 b1 c0 c1, hdr_bytes false h = pre ++ [b0; b1] ++ post → Nat.Even (length pre) → byte c0 → byte c1 →
      packet_checksum 64 true (pre ++ [c0; c1] ++ post) = Ok 0xffff →
      load16 true c0 c1 = load16 true b0 b1 ∨
      load16 true c0 c1 = 0 ∧ load16 true b0 b1 = 65535 ∨ load16 true c0 c1 = 65535 ∧ load16 true b0 b1 = 0.
Proof. refine (ip_header_checksum 32 64 false true 0x0a000001 0x0a000002 17 48 7 _ _ _); [lia|lia|unfold byte; lia]. Defined.

(** ** Small values and widths *)

Lemma promote_small fw x : 16 ≤ fw → 0 ≤ x < 2 ^ 32 → promote fw x = x.
Proof.
  intros Hf Hx. unfold promote. destruct (Z.ltb_spec fw 32); [done|]. apply wrapu_small.
  assert (2 ^ 32 ≤ 2 ^ fw) by (apply Z.pow_le_mono_r; lia). lia.
Qed.

Lemma wrap_small16 fw x : 16 ≤ fw → 0 ≤ x < 65536 → wrapu fw x = x.
Proof. intros Hw Hx. apply wrapu_small. assert (2 ^ 16 ≤ 2 ^ fw) by (apply Z.pow_le_mono_r; lia). lia. Qed.

(** ** From a host to another *)

(** The header as a host of the other byte order finds it: the bytes of the field
    [check] are the same. *)
Definition transfer (big big' : bool) (h : iphdr) : iphdr :=
  set_check (if eqb big big' then check h else native_be false (check h)) h.

Lemma transfer_bytes big big' h : 0 ≤ check h < 65536 → hdr_bytes big' (transfer big big' h) = hdr_bytes big h.
Proof.
  intros Hc. unfold transfer. destruct (eqb big big') eqn:E; [apply eqb_prop in E as <-; by destruct h|].
  assert (big' = negb big) as -> by (by destruct big, big'). unfold hdr_bytes.
  cbn [set_check version ihl tos tot_len id fragment ttl protocol check saddr daddr]. do 5 f_equal.
  unfold native16, native_be, load16, be16. pose proof (Z.div_mod (check h) 256 ltac:(lia)) as E1.
  pose proof (Z.mod_pos_bound (check h) 256 ltac:(lia)) as B1.
  assert (0 ≤ check h / 256 < 256) as B2 by lia. rewrite (Z.mod_small (check h / 256)) by done.
  set (q := check h / 256) in *. set (r := check h mod 256) in *.
  assert ((q + 256 * r) mod 256 = q) as -> by (rewrite Z.add_comm, Z.mul_comm, Z.add_comm, Z.mod_add by lia; by apply Z.mod_small).
  assert ((q + 256 * r) / 256 = r) as -> by (rewrite Z.mul_comm, Z.div_add by lia; rewrite Z.div_small by lia; lia).
  rewrite (Z.mod_small r) by done. by destruct big.
Qed.

(** The checksum of a header without options, on the receiver. *)
Lemma accepted_spec w big h : ihl h = 5 → options h = [] → checksum_accepted w big h = (c ← packet_checksum w big (hdr_bytes big h); Ok (c =? 0xffff)).
Proof.
  intros Hi Ho. unfold checksum_accepted. rewrite Hi, Ho, app_nil_r, hdr_bytes_length. cbn [require mbind outcome_bind Z.leb Z.mul].
  by rewrite take_ge by (rewrite hdr_bytes_length; lia).
Qed.

(** A payload that fits the interface and is sent to a host of the same network
    reaches the protocol it was sent for: [ip_send] transmits one packet to the
    target, and [ip_pushpkt] of the target, a host of any byte order whose frames
    may be padded, delivers exactly the payload and leaves its state unchanged. *)
Theorem send_then_receive fw w big alloc mtu fuel table pv target proto payload fw' w' big' alloc' mtu' mem_alloc pad new protos fuel' table' pv' padding :
  16 ≤ fw → 32 ≤ w → 32 ≤ w' → byte proto → 20 + Z.of_nat (length payload) ≤ mtu (pv_if pv) ≤ 65535 →
  ip_delivery_direct pv target = true → addr pv' = target → protos proto = true →
  ∃ p, ip_send fw w big alloc mtu fuel table pv target proto payload =
      Ok ([Transmit (pv_if pv) target p],
          {| pv_if := pv_if pv; addr := addr pv; netmask := netmask pv; fragments := fragments pv; id_seq := wrapu w (id_seq pv + 1) |}) ∧
    ip_pushpkt fw' w' big' alloc' mtu' mem_alloc pad new protos fuel' table' pv'
      {| hdr := transfer big big' (hdr p); data := data p ++ padding |} = Ok ([Deliver proto payload], pv').
Proof.
  intros Hfw Hw Hw' Hpr Hm Hd Ha Hp. unfold ip_send. rewrite (wrap_small16 fw) by lia. rewrite promote_small by lia.
  destruct (Z.ltb_spec (mtu (pv_if pv) - 20) (Z.of_nat (length payload))); [lia|].
  destruct (send_header_spec w big (addr pv) target proto (20 + Z.of_nat (length payload)) (id_seq pv) Hw Hpr)
    as (h & -> & Hv & Hi & Ht & Hf & Hpro & _ & Hda & Ho & _ & Hc & Hok & E).
  cbn [mbind outcome_bind]. rewrite Hd. cbn [mbind outcome_bind]. eexists. split; [done|]. cbn [hdr data].
  unfold ip_pushpkt. cbn [hdr]. set (h' := transfer big big' h).
  assert (version h' = 4 ∧ daddr h' = target ∧ ihl h' = 5 ∧ options h' = [] ∧ fragment h' = 0 ∧ tot_len h' = 20 + Z.of_nat (length payload) ∧ protocol h' = proto)
    as (-> & -> & Hi' & Ho' & Hf' & Ht' & Hp').
  { unfold h', transfer. cbn [set_check version daddr ihl options fragment tot_len protocol]. rewrite Ht, (wrapu_small 16) by lia. done. }
  rewrite Ha, !Z.eqb_refl. cbn [negb andb]. rewrite accepted_spec by done.
  assert (hdr_bytes big' h' = hdr_bytes big h) as -> by (by apply transfer_bytes).
  rewrite header_accepted by (done || lia). cbn [mbind outcome_bind negb Z.eqb Pos.eqb].
  unfold payload_of. cbn [hdr data]. rewrite Ht', Hi'. replace (20 + Z.of_nat (length payload) - 5 * 4) with (Z.of_nat (length payload)) by lia.
  rewrite length_app, Nat2Z.inj_add, Nat2Z.id. destruct (Z.leb_spec 0 (Z.of_nat (length payload))), (Z.leb_spec (Z.of_nat (length payload)) (Z.of_nat (length payload) + Z.of_nat (length padding))); try lia.
  cbn [andb require mbind outcome_bind]. rewrite Hf'. cbn [Z.land Z.eqb negb orb]. unfold dispatch. cbn [hdr]. rewrite Hp', Hp.
  by rewrite take_app_length.
Qed.

(** ** Forwarding *)

Lemma wsum_set_ttl big h t :
  wsum big (hdr_bytes big (set_ttl t h)) = wsum big (hdr_bytes big h) + (if big then 256 else 1) * (t - ttl h).
Proof.
  unfold hdr_bytes, be16, native16. cbn [set_ttl version ihl tos tot_len id fragment ttl protocol check saddr daddr].
  unfold be16. destruct big; cbn [app wsum]; unfold load16; lia.
Qed.

Lemma wsum_new_check big h c :
  0 ≤ c < 65536 → 0 ≤ check h < 65536 → wsum big (hdr_bytes big (set_check c h)) = wsum big (hdr_bytes big h) + c - check h.
Proof.
  intros Hc Hh. rewrite wsum_set_check by done. pose proof (wsum_set_check big h (check h) Hh) as E.
  assert (set_check (check h) h = h) as Eh by (by destruct h). rewrite Eh in E. lia.
Qed.

(** A header with its options. *)
Definition full_header_ok (h : iphdr) : Prop :=
  header_ok h ∧ 0 < version h ∧ 5 ≤ ihl h ∧ Forall byte (options h) ∧ Z.of_nat (length (options h)) = ihl h * 4 - 20 ∧ 0 ≤ check h < 65536.

Lemma full_accepted w big h : 32 ≤ w → full_header_ok h →
  checksum_accepted w big h = Ok (wsum big (hdr_bytes big h ++ options h) mod 65535 =? 0).
Proof.
  intros Hw (Hok & Hv & Hi & Ho & Hlen & Hc). unfold checksum_accepted. set (l := hdr_bytes big h ++ options h).
  assert (Z.of_nat (length l) = ihl h * 4) as El by (unfold l; rewrite length_app, hdr_bytes_length; lia).
  rewrite El, Z.leb_refl. cbn [require mbind outcome_bind]. rewrite take_ge by lia.
  assert (Forall byte l) as Hb by (apply Forall_app_2; [by apply hdr_bytes_bytes|done]).
  assert (ihl h < 16) by (destruct Hok; lia).
  destruct (checksum_accepts w big l) as [A1 A2]; [done|done|lia|].
  assert (0 < wsum big l) as Hpos.
  { apply (wsum_pos _ _ (version h * 16 + ihl h)); [done|unfold l, hdr_bytes; set_solver|lia]. }
  destruct (packet_checksum_spec w big l) as (c & E & _); [done|done|lia|]. rewrite E. cbn [mbind outcome_bind].
  f_equal. destruct (Z.eqb_spec (wsum big l mod 65535) 0) as [Ez|Ez].
  - specialize (A2 Hpos Ez). rewrite E in A2. injection A2 as ->. done.
  - destruct (Z.eqb_spec c 0xffff) as [->|]; [by destruct Ez; apply A1|done].
Qed.

Lemma even_header big h : Nat.Even (length (hdr_bytes big h)).
Proof. rewrite hdr_bytes_length. by exists 10%nat. Qed.

(** A packet that fits the next interface is forwarded as one packet with the
    same payload, whose header differs by the time to live, one less, and the
    checksum: on a little endian processor the incremental update keeps a correct
    checksum correct, and on a big endian processor the forwarded packet is one
    that every host rejects. *)
Theorem forward_checksum fw w big alloc mtu fuel route p :
  32 ≤ fw → 32 ≤ w → full_header_ok (hdr p) → 2 ≤ ttl (hdr p) →
  Z.of_nat (length (data p)) ≤ mtu (Route.interface route) - ihl (hdr p) * 4 → mtu (Route.interface route) ≤ 65535 →
  checksum_accepted w big (hdr p) = Ok true →
  ∃ c, 0 ≤ c < 65536 ∧
    let h' := set_check c (set_ttl (ttl (hdr p) - 1) (hdr p)) in
    ip_route fw w big alloc mtu (S fuel) route p =
      Ok [Transmit (Route.interface route) (if Route.is_routed route then daddr (hdr p) else Route.router route) {| hdr := h'; data := data p |}] ∧
    checksum_accepted w big h' = Ok (negb big).
Proof.
  intros Hfw Hw Hfull Ht Hl Hm Hacc. pose proof Hfull as (Hok & Hv & Hi & Ho & Hlen & Hc). set (h := hdr p) in *.
  assert (ttl h < 256) as Ht' by (destruct Hok as (_ & _ & _ & [_ ?] & _); lia).
  cbn [ip_route]. fold h. destruct (Z.eqb_spec (ttl h) 1); [lia|]. rewrite (wrap_small16 fw) by lia. rewrite promote_small by lia.
  destruct (Z.ltb_spec (mtu (Route.interface route) - ihl h * 4) (Z.of_nat (length (data p)))); [lia|].
  rewrite (wrapu_small 8) by lia. assert (2 ^ 32 ≤ 2 ^ fw) by (apply Z.pow_le_mono_r; lia). rewrite (wrapu_small fw) by lia.
  set (c := wrapu 16 _).
  assert (0 ≤ c < 65536 ∧ (c = check h + 1 ∨ check h = 65535 ∧ c = 1)) as [Hc0 Hc1].
  { split; [by apply (wrapu_range 16)|]. unfold c. rewrite Z.shiftr_div_pow2 by lia. change (2 ^ 16) with 65536.
    destruct (decide (check h = 65535)) as [E|E].
    - right. rewrite E. done.
    - left. rewrite (Z.div_small (check h + 1)) by lia. rewrite wrapu_small by lia. lia. }
  exists c. split; [done|]. cbv zeta. split; [done|]. rewrite full_accepted in Hacc by done.
  assert ((wsum big (hdr_bytes big h ++ options h) mod 65535 =? 0) = true) as Hacc' by congruence. clear Hacc. apply Z.eqb_eq in Hacc' as Hacc.
  rewrite full_accepted; [|done|].
  2:{ destruct Hok as (? & ? & ? & ? & ?). unfold full_header_ok, header_ok, byte in *.
      cbn [version ihl tos ttl protocol options check set_check set_ttl]. split_and!; first [done|lia]. }
  f_equal.
  cbn [options set_check set_ttl]. rewrite wsum_app in Hacc |- * by apply even_header. rewrite wsum_new_check by done. rewrite wsum_set_ttl. cbn [ttl check set_ttl].
  set (x := wsum big (hdr_bytes big h)) in *. set (y := wsum big (options h)) in *.
  apply Z.mod_divide in Hacc as [k Hk]; [|lia].
  destruct big; cbn [negb].
  - apply Z.eqb_neq. intros E. apply Z.mod_divide in E as [j Hj]; [|lia]. destruct Hc1 as [?|[? ?]]; lia.
  - apply Z.eqb_eq. apply Z.mod_divide; [lia|]. destruct Hc1 as [?|[? ?]]; [exists k|exists (k - 1)]; lia.
Qed.

(** ** Two hosts and a router *)

Definition demo_mtu (ifc : nat) : Z := if ifc is O then 1500 else 60.
Definition demo_pv (a : Z) : net_pv_ip_s := {| pv_if := 0; addr := a; netmask := 0xffffff00; fragments := ∅; id_seq := 1 |}.
Definition demo_alloc (n : Z) : option (list Z) := Some (replicate (Z.to_nat n) 0).
Definition demo_route (ifc : nat) (routed : bool) : Route.net_route_s :=
  {| Route.interface := ifc; Route.addressing := None; Route.target := 0; Route.is_routed := routed; Route.mask := 0;
     Route.router := 0x0a0000fe; Route.invalidated := false |}.
Definition no_routes : Route.state := {| Route.objs := ∅; Route.route_table := [] |}.

Lemma send_then_receive_witness :
  ∃ p, ip_send 16 32 false (λ _, true) demo_mtu 2 no_routes (demo_pv 0x0a000001) 0x0a000002 17 [1; 2; 3] =
      Ok ([Transmit 0 0x0a000002 p],
          {| pv_if := 0; addr := 0x0a000001; netmask := 0xffffff00; fragments := ∅; id_seq := 2 |}) ∧
    ip_pushpkt 32 64 true (λ _, true) demo_mtu demo_alloc 0 true (λ p, p =? 17) 2 no_routes (demo_pv 0x0a000002)
      {| hdr := transfer false true (hdr p); data := data p ++ [0; 0; 0; 0] |} = Ok ([Deliver 17 [1; 2; 3]], demo_pv 0x0a000002).
Proof.
  refine (send_then_receive 16 32 false (λ _, true) demo_mtu 2 no_routes (demo_pv 0x0a000001) 0x0a000002 17 [1; 2; 3]
    32 64 true (λ _, true) demo_mtu demo_alloc 0 true (λ p, p =? 17) 2 no_routes (demo_pv 0x0a000002) [0; 0; 0; 0] _ _ _ _ _ _ _ _);
    [lia|lia|lia|unfold byte; lia|cbn; lia|reflexivity|reflexivity|reflexivity].
Defined.

(** The header of a received packet, with a correct checksum. *)
Definition demo_header (t c : Z) (frag size : Z) : iphdr :=
  {| version := 4; ihl := 5; tos := 0; tot_len := 20 + size; id := 7; fragment := frag; ttl := t; protocol := 17; check := c;
     saddr := 0x0a000001; daddr := 0x0a000002; options := [] |}.
Definition demo_packet : packet := {| hdr := demo_header 64 0xcd66 0 3; data := [1; 2; 3] |}.

Lemma forward_checksum_witness :
  checksum_accepted 32 false (hdr demo_packet) = Ok true ∧
  ∃ c, 0 ≤ c < 65536 ∧
    let h' := set_check c (set_ttl 63 (hdr demo_packet)) in
    ip_route 32 32 false (λ _, true) demo_mtu 1 (demo_route 0 true) demo_packet = Ok [Transmit 0 0x0a000002 {| hdr := h'; data := [1; 2; 3] |}] ∧
    checksum_accepted 32 false h' = Ok true.
Proof.
  split; [vm_compute; reflexivity|].
  refine (forward_checksum 32 32 false (λ _, true) demo_mtu 0 (demo_route 0 true) demo_packet _ _ _ _ _ _ _);
    [lia|lia| |cbn; lia|cbn; lia|cbn; lia|vm_compute; reflexivity].
  unfold full_header_ok, header_ok, byte. cbn. split_and!; first [lia|constructor].
Defined.

(** ** Behaviour to know *)

(** The hop of a route with a router is the final target, and the hop of a direct
    route is its unset router: the test of [is_routed] is inverted. *)
Theorem route_hop_inverted :
  match ip_route 32 32 false (λ _, true) demo_mtu 1 (demo_route 0 true) demo_packet,
        ip_route 32 32 false (λ _, true) demo_mtu 1 (demo_route 0 false) demo_packet with
  | Ok [Transmit _ hop _], Ok [Transmit _ hop' _] => hop = 0x0a000002 ∧ hop' = 0x0a0000fe
  | _, _ => False
  end.
Proof. vm_compute. done. Qed.

(** A packet whose time to live is 0 is forwarded with 255. *)
Theorem ttl_zero_forwarded :
  match ip_route 32 32 false (λ _, true) demo_mtu 1 (demo_route 0 true) {| hdr := demo_header 0 0 0 3; data := [1; 2; 3] |} with
  | Ok [Transmit _ _ p] => ttl (hdr p) = 255
  | _ => False
  end.
Proof. vm_compute. done. Qed.

(** Fragmenting a packet with options copies its header over the end of the one
    of the fragment. *)
Theorem fragment_options_overflow :
  ip_route 32 32 false (λ _, true) demo_mtu 2 (demo_route 1 true)
    {| hdr := {| version := 4; ihl := 6; tos := 0; tot_len := 124; id := 7; fragment := 0; ttl := 64; protocol := 17; check := 0;
                 saddr := 0x0a000001; daddr := 0x08080808; options := [1; 1; 1; 1] |}; data := replicate 100 0 |} = Err FBounds.
Proof. vm_compute. reflexivity. Qed.

(** With 64 bit [uint_fast32_t] the broadcast address of the network is not
    recognised: the packet is dropped, which a 32 bit processor delivers. *)
Definition demo_broadcast (w : Z) : outcome (list output * net_pv_ip_s) :=
  p ← send_header w false 0x0a000001 0x0a0000ff 17 23 1;
  ip_pushpkt 32 w false (λ _, true) demo_mtu demo_alloc 0 true (λ p, p =? 17) 2 no_routes (demo_pv 0x0a000002) {| hdr := p; data := [1; 2; 3] |}.
Theorem broadcast_dropped_64 :
  (r ← demo_broadcast 32; Ok (fst r)) = Ok [Deliver 17 [1; 2; 3]] ∧ (r ← demo_broadcast 64; Ok (fst r)) = Ok [].
Proof. vm_compute. done. Qed.

(** The size of the header is trusted: a packet that claims more than was received
    reaches behind it. *)
Theorem tot_len_trusted :
  (h ← send_header 32 false 0x0a000001 0x0a000002 17 1000 1;
   ip_pushpkt 32 32 false (λ _, true) demo_mtu demo_alloc 0 true (λ p, p =? 17) 2 no_routes (demo_pv 0x0a000002) {| hdr := h; data := [1; 2; 3] |}) = Err FBounds.
Proof. vm_compute. reflexivity. Qed.

(** The copying loop of [packet_memcpy] writes every word to the first one. *)
Theorem packet_memcpy_overwrites : packet_memcpy 32 false [1; 2; 3; 4; 5; 6] [0; 0; 0; 0; 0; 0] = Ok ([5; 6; 0; 0; 0; 0], 3081).
Proof. vm_compute. reflexivity. Qed.
End Ipv4.
