(* ===== verification/Ipv4Frag.v ===== *)
(** * Fragmentation, forwarding and reassembly compose (libnetwork/protocols/ipv4.c)

    A payload that is sent over any number of routers, each of which may fragment
    the packets further, and whose fragments arrive in any order, is delivered as
    it was sent.  The proof follows the pieces of the payload that the packets
    carry: sending and forwarding cut pieces, reassembly puts them back. *)

From stdpp Require Import gmap.
From S2P Require Import Prelude Route Ipv4.
Import Ipv4.

Module Ipv4Frag.

(** ** The path of a datagram *)

Section path.
Context (fw w : Z) (big : bool) (alloc : Z → bool).

(** The packets that are transmitted; error reports are not. *)
Definition transmitted (o : list output) : list packet := omap (λ x, if x is Transmit _ _ p then Some p else None) o.

Context (mem_alloc : Z → option (list Z)) (pad : Z) (protos : Z → bool).

(** A router: its interfaces, its own addresses and routes, and the order in which
    the packets reach it. *)
Record hop := { h_mtu : nat → Z; h_pv : net_pv_ip_s; h_table : Route.state; h_order : list packet → list packet }.

Fixpoint forward_all (r : hop) (pv : net_pv_ip_s) (ps : list packet) : outcome (list packet) :=
  match ps with
  | [] => Ok []
  | p :: ps =>
      '(o, pv) ← ip_pushpkt fw w big alloc (h_mtu r) mem_alloc pad true protos 2 (h_table r) pv p;
      l ← forward_all r pv ps;
      Ok (transmitted o ++ l)
  end.
Fixpoint journey (hops : list hop) (ps : list packet) : outcome (list packet) :=
  match hops with
  | [] => Ok ps
  | r :: hops => ps ← forward_all r (h_pv r) (h_order r ps); journey hops ps
  end.

Context (mtu : nat → Z).

(** Packets in the order they arrive at the target. *)
Fixpoint receive_all (table : Route.state) (ps : list packet) (pv : net_pv_ip_s) : outcome (list (list output) * net_pv_ip_s) :=
  match ps with
  | [] => Ok ([], pv)
  | p :: ps =>
      '(o, pv) ← ip_pushpkt fw w big alloc mtu mem_alloc pad true protos 2 table pv p;
      '(os, pv) ← receive_all table ps pv;
      Ok (o :: os, pv)
  end.

(** *** Sums that are folded once *)

(** The fragments of [body] for parts of [F] bytes. *)
Definition parts (h : iphdr) (body : list Z) (shift F : Z) (last : bool) : list packet :=
  let n := Z.of_nat (length body) in
  (λ i, let offs := Z.of_nat i * F in
        let size := Z.min F (n - offs) in
        fragment_packet fw w big h body shift offs size ((offs + size =? n) && last)) <$> seq 0 (Z.to_nat ((n + F - 1) / F)).
(** The carry of the fold is lost when the sum of the header is [0x1ffff], that is when
    the checksum of the fragment becomes [0xffff]. *)
Definition carry_kept (f : packet) : bool := negb (check (hdr f) =? 0xffff).
(** Forwarding over an interface of [m] bytes: the sum that is taken out of the checksum
    before a packet is cut keeps its borrow, and the fragments keep their carries. *)
Definition sums_kept (m : Z) (p : packet) : bool :=
  if Z.of_nat (length (data p)) <=? m - 20 then true
  else
    let h := hdr p in
    let k := check h + native_be big (tot_len h) + native_be big (fragment h) in
    ((k + 65535) / 65536 <=? (- k) mod 65536) &&
    forallb carry_kept (parts (set_check (wrapu 16 ((- k) mod 65536 - (k + 65535) / 65536)) h) (data p)
      (Z.land (fragment h) IP_FRAG_MASK * 8) (Z.land (m - 20) (Z.lnot 7)) (Z.land (fragment h) IP_FLAG_MF =? 0)).
(** The transfer unit of the interface that a router takes. *)
Definition h_unit (dst : Z) (r : hop) : Z := if find_route (h_table r) dst is Ok (Indirect x) then h_mtu r (Route.interface x) else 0.
Fixpoint journey_kept (dst : Z) (hops : list hop) (ps : list packet) : bool :=
  match hops with
  | [] => true
  | r :: hops => forallb (sums_kept (h_unit dst r)) ps && (if forward_all r (h_pv r) (h_order r ps) is Ok ps then journey_kept dst hops ps else true)
  end.
(** The same for the sender: it cuts for its own interface, and forwards what it cut when
    it takes a route. *)
Definition send_kept (table : Route.state) (pv : net_pv_ip_s) (target proto : Z) (pl : list Z) : bool :=
  let m := mtu (pv_if pv) in
  let cut := m - 20 <? Z.of_nat (length pl) in
  match (if cut then partial_header w big (addr pv) target proto (id_seq pv) else send_header w big (addr pv) target proto (20 + Z.of_nat (length pl)) (id_seq pv)) with
  | Ok h =>
      let ps := if cut then parts h pl 0 (Z.land (m - 20) (Z.lnot 7)) true else [{| hdr := h; data := pl |}] in
      (negb cut || forallb carry_kept ps) &&
      (ip_delivery_direct pv target || forallb (sums_kept (if find_route table target is Ok (Indirect x) then mtu (Route.interface x) else 0)) ps)
  | Err _ => true
  end.
End path.

(** ** Fields *)

(** The fields of a fragment. *)
Lemma fragment_field (b : bool) o :
  0 ≤ o < 65536 → (8 | o) →
  let f := wrapu 16 (Z.lor (if b then 0 else IP_FLAG_MF) (o / 8)) in
  Z.land f IP_FRAG_MASK * 8 = o ∧ (Z.land f IP_FLAG_MF =? 0) = b ∧ Z.land f IP_FLAG_DF = 0.
Proof.
  intros Ho [k ->] f. assert (k * 8 / 8 = k) as Ek by (apply Z.div_mul; lia).
  assert (Z.land k IP_FRAG_MASK = k) as E1.
  { change IP_FRAG_MASK with (Z.ones 13). rewrite Z.land_ones by lia. apply Z.mod_small. lia. }
  assert (∀ i, 13 ≤ i → Z.land k (2 ^ i) = 0) as E2.
  { intros i Hi. apply Z.bits_inj'. intros j Hj. rewrite Z.land_spec, Z.bits_0, Z.pow2_bits_eqb by lia.
    destruct (Z.eqb_spec i j) as [<-|]; [|by rewrite andb_false_r]. rewrite andb_true_r.
    destruct (decide (k = 0)) as [->|]; [apply Z.bits_0|]. apply Z.bits_above_log2; [lia|].
    assert (Z.log2 k < 13) by (apply Z.log2_lt_pow2; lia). lia. }
  assert (f = Z.lor (if b then 0 else IP_FLAG_MF) k) as ->.
  { unfold f. rewrite Ek. apply wrapu_small. split; [apply Z.lor_nonneg; split; [by destruct b|lia]|].
    destruct b; [rewrite Z.lor_0_l; lia|]. apply Z.log2_lt_cancel. rewrite Z.log2_lor by (done || lia).
    change (Z.log2 IP_FLAG_MF) with 13. change (Z.log2 (2 ^ 16)) with 16.
    destruct (decide (k = 0)) as [->|]; [cbn; lia|]. assert (Z.log2 k < 13) by (apply Z.log2_lt_pow2; lia). lia. }
  rewrite !Z.land_lor_distr_l, E1. pose proof (E2 13 ltac:(lia)) as E3. pose proof (E2 14 ltac:(lia)) as E4.
  change (2 ^ 13) with IP_FLAG_MF in E3. change (2 ^ 14) with IP_FLAG_DF in E4. rewrite E3, E4.
  destruct b; [by rewrite !Z.land_0_l, !Z.lor_0_l|].
  change (Z.land IP_FLAG_MF IP_FRAG_MASK) with 0. change (Z.land IP_FLAG_MF IP_FLAG_MF) with IP_FLAG_MF.
  change (Z.land IP_FLAG_MF IP_FLAG_DF) with 0. by rewrite !Z.lor_0_l, Z.lor_0_r.
Qed.

Lemma fragment_size m : 28 ≤ m ≤ 65535 → let F := Z.land (m - 20) (Z.lnot 7) in 0 < F ≤ m - 20 ∧ (8 | F).
Proof.
  intros Hm F. assert (F = (m - 20) / 8 * 8) as ->.
  { unfold F. rewrite <-Z.ldiff_land. change 7 with (Z.ones 3). rewrite Z.ldiff_ones_r by lia.
    by rewrite Z.shiftl_mul_pow2, Z.shiftr_div_pow2 by lia. }
  pose proof (Z.div_mod (m - 20) 8 ltac:(lia)). pose proof (Z.mod_pos_bound (m - 20) 8 ltac:(lia)).
  split; [lia|]. apply Z.divide_factor_r.
Qed.

(** ** Checksums *)

(** The header without the fields that fragmentation changes. *)
Definition blank (h : iphdr) : iphdr :=
  {| version := version h; ihl := ihl h; tos := tos h; tot_len := 0; id := id h; fragment := 0; ttl := ttl h;
     protocol := protocol h; check := 0; saddr := saddr h; daddr := daddr h; options := options h |}.

Lemma native_be_range big x : 0 ≤ native_be big x < 65536.
Proof. apply load16_range; apply byte_mod. Qed.

Lemma wsum_fields big h : 0 ≤ check h < 65536 →
  wsum big (hdr_bytes big h) = wsum big (hdr_bytes big (blank h)) + native_be big (tot_len h) + native_be big (fragment h) + check h.
Proof.
  intros Hc. assert (set_check (check h) h = h) as Eh by (by destruct h). rewrite <-Eh at 1. rewrite wsum_set_check by done.
  unfold hdr_bytes, be16, native16, native_be, blank. cbn [set_check version ihl tos tot_len id fragment ttl protocol check saddr daddr]. unfold be16.
  change (0 / 256 mod 256) with 0. change (0 mod 256) with 0. destruct big; cbn [app wsum]; unfold load16; lia.
Qed.

(** The sum of a whole header, and of a header whose checksum field holds the sum of the
    rest. *)
Definition sound (big : bool) (h : iphdr) : Prop := header_ok h ∧ 0 ≤ check h < 65536 ∧ (65535 | wsum big (hdr_bytes big h)).
Definition partial (big : bool) (h : iphdr) : Prop := header_ok h ∧ 0 ≤ check h < 65536 ∧ (65535 | wsum big (hdr_bytes big (blank h)) - check h).

Lemma sound_accepted w big h : 32 ≤ w → version h = 4 → ihl h = 5 → options h = [] → sound big h → checksum_accepted w big h = Ok true.
Proof.
  intros Hw Hv Hi Ho (Hok & Hc & Hd). rewrite full_accepted; [|done|unfold full_header_ok; rewrite Hv, Hi, Ho; split; [done|]; split_and!; [lia|lia|apply Forall_nil_2|done|lia..]].
  rewrite Ho, app_nil_r. f_equal. apply Z.eqb_eq. by apply Z.mod_divide.
Qed.

(** One fold of a sum of three words. *)
Lemma fold_once w c : 32 ≤ w → 0 ≤ c ≤ 196605 → c ≠ 0x1ffff →
  let d := wrapu 16 (Z.lnot (wrapu w (c + Z.shiftr c 16))) in 0 ≤ d < 65536 ∧ (65535 | c + d).
Proof.
  intros Hw Hc Hne d. split; [by apply (wrapu_range 16)|]. unfold d. rewrite Z.shiftr_div_pow2 by lia. change (2 ^ 16) with 65536.
  pose proof (Z.div_mod c 65536 ltac:(lia)) as E. pose proof (Z.mod_pos_bound c 65536 ltac:(lia)) as Hr. set (q := c / 65536) in *. set (r := c mod 65536) in *.
  assert (2 ^ 32 ≤ 2 ^ w) by (apply Z.pow_le_mono_r; lia). rewrite (wrapu_small w) by lia.
  assert (wrapu 16 (Z.lnot (c + q)) = 65535 - (r + q)) as ->; [|exists (q + 1); lia]. unfold wrapu, Z.lnot. symmetry. apply (Z.mod_unique _ _ (- q - 1)); lia.
Qed.

Lemma fragment_sound fw w big h shift offs size last : 32 ≤ w → partial big h →
  let h' := fragment_header fw w big h shift offs size last in check h' ≠ 0xffff → sound big h'.
Proof.
  intros Hw (Hok & Hc & Hp) h' Hk. pose proof (native_be_range big (fragment h')) as Hf. pose proof (native_be_range big (tot_len h')) as Ht.
  assert (2 ^ 32 ≤ 2 ^ w) by (apply Z.pow_le_mono_r; lia). set (c := check h + native_be big (fragment h') + native_be big (tot_len h')).
  assert (check h' = wrapu 16 (Z.lnot (wrapu w (c + Z.shiftr c 16)))) as Ec.
  { unfold c, h', fragment_header. cbn [check fragment tot_len]. by rewrite (wrapu_small w (check h + _ + _)) by (cbn in *; lia). }
  destruct (fold_once w c Hw ltac:(lia)) as [Hr Hd]. { intros E. apply Hk. rewrite Ec, E. change (0x1ffff + Z.shiftr 0x1ffff 16) with 0x20000. by rewrite (wrapu_small w) by lia. }
  split; [done|]. split; [by rewrite Ec|]. rewrite wsum_fields by (by rewrite Ec). rewrite Ec.
  destruct Hd as [x Hx], Hp as [y Hy]. exists (x + y). change (wsum big (hdr_bytes big (blank h'))) with (wsum big (hdr_bytes big (blank h))). lia.
Qed.

(** The fields are taken out of the sum of a header that is cut. *)
Lemma partial_sound fw big h : 32 ≤ fw → sound big h →
  let k := check h + native_be big (tot_len h) + native_be big (fragment h) in
  let c := wrapu fw (Z.lnot (check h) - native_be big (tot_len h) - native_be big (fragment h) + 1) in
  let c' := wrapu 16 (c + Z.shiftr c 16) in
  c' = wrapu 16 ((- k) mod 65536 - (k + 65535) / 65536) ∧ ((k + 65535) / 65536 ≤ (- k) mod 65536 → partial big (set_check c' h)).
Proof.
  intros Hfw (Hok & Hc & Hd) k c c'. pose proof (native_be_range big (fragment h)) as Hf. pose proof (native_be_range big (tot_len h)) as Ht.
  assert (2 ^ fw = 65536 * 2 ^ (fw - 16)) as Epow by (rewrite <-(Z.pow_add_r 2 16) by lia; f_equal; lia).
  assert (2 ^ (fw - 16) = 65536 * 2 ^ (fw - 32)) as Epow' by (rewrite <-(Z.pow_add_r 2 16) by lia; f_equal; lia).
  assert (0 < 2 ^ (fw - 32)) by (apply Z.pow_pos_nonneg; lia).
  assert (c = (- k) mod 2 ^ fw) as Ec by (unfold c, k, wrapu, Z.lnot; f_equal; lia).
  set (q := (k + 65535) / 65536). set (r := (- k) mod 65536). pose proof (Z.div_mod (k + 65535) 65536 ltac:(lia)) as Eq. pose proof (Z.mod_pos_bound (k + 65535) 65536 ltac:(lia)) as Hq. fold q in Eq.
  assert (r = 65536 * q - k) as Er by (unfold r; symmetry; apply (Z.mod_unique _ _ (- q)); lia).
  assert (c' = wrapu 16 (r - q)) as Ec'.
  { unfold c'. rewrite Z.shiftr_div_pow2 by lia. change (2 ^ 16) with 65536. destruct (decide (k = 0)) as [Hk|Hk].
    - assert (q = 0) by (unfold q; rewrite Hk; done). rewrite Ec, Hk, Z.mod_0_l by lia. f_equal. rewrite Z.div_0_l; lia.
    - assert (c = 2 ^ fw - k) as Ec2 by (rewrite Ec; symmetry; apply (Z.mod_unique _ _ (-1)); lia).
      assert (c / 65536 = 2 ^ (fw - 16) - q) as -> by (symmetry; apply (Z.div_unique _ _ _ r); lia).
      unfold wrapu. change (2 ^ 16) with 65536. rewrite Ec2, Epow, Epow'. replace (_ - k + _) with (r - q + (65536 * 2 ^ (fw - 32) + 2 ^ (fw - 32) - q) * 65536) by lia. by rewrite Z.mod_add by lia. }
  split; [done|]. intros Hle. rewrite Ec', wrapu_small by lia. split; [done|]. cbn [check set_check]. split; [lia|].
  change (blank (set_check (r - q) h)) with (blank h). rewrite wsum_fields in Hd by done. destruct Hd as [x Hx]. exists (x - q). unfold k in *. lia.
Qed.
(** The time to live goes down, on a little endian processor. *)
Lemma hop_sound fw h : 32 ≤ fw → sound false h → 2 ≤ ttl h →
  let c := wrapu fw (check h + 1) in sound false (set_check (wrapu 16 (c + Z.shiftr c 16)) (set_ttl (wrapu 8 (ttl h - 1)) h)).
Proof.
  intros Hfw ((Hv & Hi & Ht & Hl & Hp) & Hc & Hd) H2 c. unfold byte in Hl. assert (2 ^ 32 ≤ 2 ^ fw) by (apply Z.pow_le_mono_r; lia). unfold c. rewrite (wrapu_small fw), (wrapu_small 8) by lia. set (c' := wrapu 16 _).
  assert (0 ≤ c' < 65536) as Hr by (by apply (wrapu_range 16)).
  assert (c' = check h + 1 ∨ check h = 65535 ∧ c' = 1) as Hc'.
  { unfold c'. rewrite Z.shiftr_div_pow2 by lia. change (2 ^ 16) with 65536. destruct (decide (check h = 65535)) as [->|]; [by right|left]. rewrite (Z.div_small (check h + 1)), wrapu_small by lia. lia. }
  split; [by split_and!; try done; unfold byte; cbn; lia|]. split; [done|]. rewrite wsum_new_check by done. rewrite wsum_set_ttl. cbn [ttl check set_ttl]. destruct Hd as [x Hx], Hc' as [?|[? ?]]; [exists x|exists (x - 1)]; lia.
Qed.

(** ** Pieces of a payload *)

Section pieces.
Context (fw w : Z) (big : bool) (pl : list Z) (key : Z * Z) (dst proto : Z).
Hypothesis Hfw : 32 ≤ fw.
Hypothesis Hw : 32 ≤ w.
Local Abbreviation total := (length pl).
Hypothesis Htotal : (0 < total)%nat ∧ Z.of_nat total ≤ 65515.

(** The header of a packet of the datagram. *)
Definition datagram (h : iphdr) : Prop :=
  version h = 4 ∧ ihl h = 5 ∧ (saddr h, id h) = key ∧ daddr h = dst ∧ protocol h = proto ∧ options h = [].

(** The packet [f] carries [n] bytes of the payload from offset [o]. *)
Record piece (f : packet) (o n : nat) : Prop := {
  pc_hdr : datagram (hdr f);
  pc_offset : Z.land (fragment (hdr f)) IP_FRAG_MASK * 8 = Z.of_nat o;
  pc_data : data f = take n (drop o pl);
  pc_size : tot_len (hdr f) = 20 + Z.of_nat n;
  pc_pos : (0 < n)%nat;
  pc_bound : (o + n ≤ total)%nat;
  pc_sum : sound big (hdr f);
  pc_df : Z.land (fragment (hdr f)) IP_FLAG_DF = 0;
  pc_last : (Z.land (fragment (hdr f)) IP_FLAG_MF =? 0) = (o + n =? total)%nat }.

Lemma piece_key f o n : piece f o n → frag_key f = key.
Proof. intros [(_ & _ & ? & _)]. done. Qed.

Lemma piece_offset f o n : piece f o n → frag_offset fw f = Z.of_nat o.
Proof. intros []. unfold frag_offset. rewrite pc_offset0. apply wrap_small16; lia. Qed.

Lemma piece_size f o n : piece f o n → length (data f) = n.
Proof. intros []. rewrite pc_data0, length_take, length_drop. lia. Qed.

Lemma piece_unique f o n o' n' : piece f o n → piece f o' n' → o' = o ∧ n' = n.
Proof. intros [] []. lia. Qed.

(** The bytes a list of packets carries. *)
Definition pieces (fs : list packet) : Prop := ∀ f, f ∈ fs → ∃ o n, piece f o n.
Definition covered (fs : list packet) (p : nat) : Prop := ∃ f o n, f ∈ fs ∧ piece f o n ∧ (o ≤ p < o + n)%nat.
Definition payload_size (fs : list packet) : nat := sum_list ((λ f, length (data f)) <$> fs).
Definition has_last (fs : list packet) : bool := existsb (λ f, Z.land (fragment (hdr f)) IP_FLAG_MF =? 0) fs.

Lemma payload_size_cons f fs : payload_size (f :: fs) = (length (data f) + payload_size fs)%nat.
Proof. done. Qed.

Lemma payload_size_app fs gs : payload_size (fs ++ gs) = (payload_size fs + payload_size gs)%nat.
Proof. induction fs as [|f fs IH]; [done|]. unfold payload_size in *. cbn in *. lia. Qed.

Lemma payload_size_perm fs fs' : fs' ≡ₚ fs → payload_size fs' = payload_size fs.
Proof. unfold payload_size. induction 1; cbn in *; lia. Qed.

Lemma pieces_app fs gs : pieces (fs ++ gs) ↔ pieces fs ∧ pieces gs.
Proof. unfold pieces. set_solver. Qed.

Lemma payload_size_zero fs : pieces fs → payload_size fs = 0%nat → fs = [].
Proof.
  destruct fs as [|f fs]; [done|]. intros H. destruct (H f ltac:(set_solver)) as (o & n & Hp).
  rewrite payload_size_cons, (piece_size f o n Hp). destruct Hp. lia.
Qed.

Lemma covered_mono fs gs p : fs ⊆ gs → covered fs p → covered gs p.
Proof. intros Hs (f & o & n & Hf & ?). exists f, o, n. split; [by apply Hs|done]. Qed.

(** All the bytes are there only if the last fragment is. *)
Lemma covered_has_last fs : covered fs (total - 1) → has_last fs = true.
Proof.
  intros (f & o & n & Hf & Hp & Hr). apply existsb_exists. exists f. split; [by apply list_elem_of_In|].
  rewrite (pc_last _ _ _ Hp). apply Nat.eqb_eq. destruct Hp. lia.
Qed.

(** ** Reassembly *)

Lemma copy_at_spec (buf : list Z) (o : nat) bytes :
  (o + length bytes ≤ length buf)%nat →
  ∃ buf', copy_at buf (Z.of_nat o) bytes = Ok buf' ∧ length buf' = length buf ∧
    (∀ p, (o ≤ p < o + length bytes)%nat → buf' !! p = bytes !! (p - o)%nat) ∧
    ∀ p, (p < o ∨ o + length bytes ≤ p)%nat → buf' !! p = buf !! p.
Proof.
  intros Hb. unfold copy_at. destruct (Z.leb_spec 0 (Z.of_nat o)), (Z.leb_spec (Z.of_nat o + Z.of_nat (length bytes)) (Z.of_nat (length buf)));
    try lia. cbn [andb]. rewrite Nat2Z.id. eexists. split; [done|]. split_and!.
  - rewrite !length_app, length_take, length_drop. lia.
  - intros p Hp. rewrite lookup_app_r by (rewrite length_take; lia). rewrite length_take, Nat.min_l by lia. by rewrite lookup_app_l by lia.
  - intros p [Hp|Hp].
    + rewrite lookup_app_l by (rewrite length_take; lia). by rewrite lookup_take_lt by lia.
    + rewrite lookup_app_r, lookup_app_r by (rewrite length_take; lia). rewrite length_take, Nat.min_l, lookup_drop by lia. f_equal. lia.
Qed.

(** Copying a piece puts its bytes in place and keeps what is in place. *)
Definition in_place (buf : list Z) (p : nat) : Prop := buf !! p = pl !! p.

Lemma copy_piece buf f o n :
  piece f o n → (total ≤ length buf)%nat →
  ∃ buf', copy_at buf (Z.of_nat o) (data f) = Ok buf' ∧ length buf' = length buf ∧
    (∀ p, (o ≤ p < o + n)%nat → in_place buf' p) ∧ ∀ p, in_place buf p → in_place buf' p.
Proof.
  intros Hp Hb. pose proof (piece_size f o n Hp) as Hl. destruct Hp.
  destruct (copy_at_spec buf o (data f)) as (buf' & -> & Hlen & Hin & Hout); [lia|]. rewrite Hl in *.
  assert (∀ p, (o ≤ p < o + n)%nat → in_place buf' p) as H1.
  { intros p Hp. unfold in_place. rewrite Hin, pc_data0, lookup_take_lt, lookup_drop by lia. f_equal. lia. }
  exists buf'. split_and!; try done. intros p Hp. destruct (decide (o ≤ p < o + n)%nat); [by apply H1|].
  unfold in_place. rewrite Hout by lia. done.
Qed.

Lemma reassemble_spec fs : ∀ buf,
  pieces fs → (total ≤ length buf)%nat →
  ∃ buf', reassemble fw (Z.of_nat total) fs buf = Ok ([], Some buf') ∧ length buf' = length buf ∧
    (∀ p, covered fs p → in_place buf' p) ∧ ∀ p, in_place buf p → in_place buf' p.
Proof.
  induction fs as [|f fs IH]; intros buf Hfs Hb; cbn [reassemble].
  { exists buf. split_and!; try done. intros p (f & o & n & Hf & _). set_solver. }
  destruct (Hfs f ltac:(set_solver)) as (o & n & Hp). rewrite (piece_offset f o n Hp). pose proof Hp as [].
  destruct (Z.leb_spec (Z.of_nat total) (Z.of_nat o)); [lia|].
  destruct (copy_piece buf f o n Hp Hb) as (b1 & -> & Hl1 & Hin1 & Hk1). cbn [mbind outcome_bind].
  destruct (IH b1) as (b2 & -> & Hl2 & Hin2 & Hk2); [intros g Hg; apply Hfs; set_solver|lia|].
  exists b2. split_and!; [done|lia| |auto]. intros p (g & o' & n' & Hg & Hpg & Hr). apply elem_of_cons in Hg as [->|Hg].
  - apply Hk2, Hin1. destruct (piece_unique f o n o' n' Hp Hpg) as [-> ->]. lia.
  - apply Hin2. by exists g, o', n'.
Qed.

Lemma complete_payload (buf : list Z) : (∀ p, (p < total)%nat → in_place buf p) → take total buf = pl.
Proof.
  intros H. apply list_eq. intros p. destruct (decide (p < total)%nat).
  - rewrite lookup_take_lt by done. by apply H.
  - rewrite lookup_take_ge by lia. symmetry. apply lookup_ge_None. lia.
Qed.

(** ** Cutting *)

(** A part of a piece is a piece. *)
Lemma fragment_piece h body o n offs size b :
  datagram h → partial big h → body = take n (drop o pl) → (o + n ≤ total)%nat → (8 | Z.of_nat o) → 0 ≤ offs → (8 | offs) → 0 < size → offs + size ≤ Z.of_nat n →
  b = (Z.of_nat o + offs + size =? Z.of_nat total) →
  let f := fragment_packet fw w big h body (Z.of_nat o) offs size b in carry_kept f = true → piece f (o + Z.to_nat offs) (Z.to_nat size).
Proof.
  intros (Hv & Hi & Hk & Hd & Hp & Hop) Hpa -> Hb H8 Ho H8' Hs Hle ->.
  set (b := Z.of_nat o + offs + size =? Z.of_nat total). intros f Hck.
  destruct (fragment_field b (Z.of_nat o + offs)) as (E1 & E2 & E3); [lia|by apply Z.divide_add_r|].
  assert (promote fw (Z.of_nat o + offs) = Z.of_nat o + offs) as Ep by (apply promote_small; lia).
  split; unfold f, fragment_packet; cbn [hdr data fragment_header fragment tot_len]; rewrite ?Ep; try done; try lia.
  - rewrite (take_drop_commute (take n _)), take_take, Nat.min_l by lia. by rewrite <-take_drop_commute, drop_drop.
  - rewrite wrapu_small by lia. lia.
  - apply fragment_sound; [done|done|]. by apply Z.eqb_neq, negb_true_iff.
  - rewrite E2. unfold b. destruct (Z.eqb_spec (Z.of_nat o + offs + size) (Z.of_nat total)), (Nat.eqb_spec (o + Z.to_nat offs + Z.to_nat size) total); done || lia.
Qed.

(** The packets [fs] carry the [n] bytes from offset [o], and may still be
    forwarded [t] times. *)
Definition carries (t : Z) (fs : list packet) (o n : Z) : Prop :=
  pieces fs ∧ (∀ f, f ∈ fs → ttl (hdr f) = t) ∧ Z.of_nat (payload_size fs) = n ∧ ∀ p, o ≤ Z.of_nat p < o + n → covered fs p.

Lemma carries_piece t f o n : piece f o n → ttl (hdr f) = t → carries t [f] (Z.of_nat o) (Z.of_nat n).
Proof.
  intros Hp Ht. split_and!.
  - intros g ->%list_elem_of_singleton. eauto.
  - by intros g ->%list_elem_of_singleton.
  - rewrite payload_size_cons, (piece_size f o n Hp). cbn. lia.
  - intros p Hr. exists f, o, n. split_and!; [set_solver|done|lia|lia].
Qed.

Lemma carries_app t fs gs o n m : carries t fs o n → carries t gs (o + n) m → carries t (fs ++ gs) o (n + m).
Proof.
  intros (A1 & A2 & A3 & A4) (B1 & B2 & B3 & B4). split_and!.
  - by apply pieces_app.
  - intros f [Hf|Hf]%elem_of_app; auto.
  - rewrite payload_size_app. lia.
  - intros p Hp. destruct (Z.lt_ge_cases (Z.of_nat p) (o + n)).
    + eapply covered_mono; [|apply A4; lia]. intros g. rewrite elem_of_app. tauto.
    + eapply covered_mono; [|apply B4; lia]. intros g. rewrite elem_of_app. tauto.
Qed.

(** The loop sends parts that make up the whole, when each part is sent. *)
Lemma fragment_loop_spec t mk send last shift tot F : 0 < F ≤ 65515 → tot ≤ 65515 →
  (∀ o, (F | o) → 0 ≤ o < tot → let n := Z.min F (tot - o) in
    ∃ fs : list packet, send o n ((o + n =? tot) && last) = Ok (Some (mk <$> fs)) ∧ carries t fs (shift + o) n) →
  ∀ fuel offs, (F | offs) → 0 ≤ offs < tot → tot - offs < Z.of_nat fuel →
  ∃ fs, fragment_loop fw send last fuel tot F offs = Ok (mk <$> fs) ∧ carries t fs (shift + offs) (tot - offs).
Proof.
  intros HF Ht Hsend. induction fuel as [|fuel IH]; intros offs Ho Hr Hf; [lia|]. cbn [fragment_loop].
  rewrite promote_small by lia. destruct (Hsend offs Ho Hr) as (fs & Es & C1). destruct (Z.ltb_spec (offs + F) tot) as [Hlt|Hge].
  - rewrite Z.min_l in Es, C1 by lia. destruct (Z.eqb_spec (offs + F) tot); [lia|]. cbn [andb] in Es. rewrite Es.
    cbn [mbind outcome_bind]. rewrite wrap_small16 by lia.
    destruct (IH (offs + F)) as (gs & -> & C2); [by apply Z.divide_add_r|lia|lia|]. cbn [mbind outcome_bind].
    exists (fs ++ gs). rewrite fmap_app. split; [done|]. replace (tot - offs) with (F + (tot - (offs + F))) by lia.
    apply carries_app; [done|]. by rewrite <-Z.add_assoc.
  - rewrite promote_small by lia. rewrite Z.min_r in Es, C1 by lia. destruct (Z.eqb_spec (offs + (tot - offs)) tot); [|lia]. cbn [andb] in Es. rewrite Es. by exists fs.
Qed.
Lemma parts_elem h body shift F last offs : 0 < F → (F | offs) → 0 ≤ offs < Z.of_nat (length body) →
  let size := Z.min F (Z.of_nat (length body) - offs) in
  fragment_packet fw w big h body shift offs size ((offs + size =? Z.of_nat (length body)) && last) ∈ parts fw w big h body shift F last.
Proof.
  intros HF [i ->] Ho. apply list_elem_of_fmap. exists (Z.to_nat i). assert (0 ≤ i) by nia. rewrite Z2Nat.id by done. split; [done|]. apply elem_of_seq. split; [lia|].
  apply Z2Nat.inj_lt; [done|apply Z.div_pos; lia|]. apply Z.lt_le_trans with (i + 1); [lia|]. apply Z.div_le_lower_bound; nia.
Qed.

(** ** Forwarding *)

Context (alloc : Z → bool).
Hypothesis Hnew : ∀ x, alloc x = true.

(** The part of a piece is handed to [deliver]. *)
Lemma send_fragment_spec t mk deliver h body o n offs size b :
  datagram h → partial big h → body = take n (drop o pl) → (o + n ≤ total)%nat → (8 | Z.of_nat o) → 0 ≤ offs → (8 | offs) → 0 < size → offs + size ≤ Z.of_nat n →
  b = (Z.of_nat o + offs + size =? Z.of_nat total) →
  let f := fragment_packet fw w big h body (Z.of_nat o) offs size b in carry_kept f = true →
  (∀ o' n', piece f o' n' → Z.of_nat n' = size → ttl (hdr f) = ttl h →
    ∃ fs : list packet, deliver f = Ok (mk <$> fs) ∧ carries t fs (Z.of_nat o') size) →
  ∃ fs : list packet, ip_send_fragment fw w big alloc deliver h body (Z.of_nat o) offs size b = Ok (Some (mk <$> fs)) ∧
    carries t fs (Z.of_nat o + offs) size.
Proof.
  intros Hd Hpa Hb Hle H8 Ho H8' Hs Hle' Eb f Hck Hdel. pose proof (fragment_piece h body o n offs size b Hd Hpa Hb Hle H8 Ho H8' Hs Hle' Eb Hck) as Hp.
  unfold ip_send_fragment. rewrite Hnew. cbn [negb]. destruct Hd as (_ & Hi & _). rewrite Hi. cbn [Z.mul Pos.mul Z.leb Z.compare Pos.compare Pos.compare_cont require mbind outcome_bind].
  destruct (Hdel _ _ Hp) as (fs & Ef & C); [lia|done|]. fold f. rewrite Ef. cbn [mbind outcome_bind]. exists fs. split; [done|].
  by replace (Z.of_nat o + offs) with (Z.of_nat (o + Z.to_nat offs)) by lia.
Qed.

(** Cutting a piece for a transfer unit of [m] bytes. *)
Lemma cut_piece t mk deliver h body o n m :
  datagram h → partial big h → body = take n (drop o pl) → (0 < n)%nat → (o + n ≤ total)%nat → (8 | Z.of_nat o) → 28 ≤ m ≤ 65535 →
  let F := Z.land (m - 20) (Z.lnot 7) in
  let ps := parts fw w big h body (Z.of_nat o) F (o + n =? total)%nat in
  forallb carry_kept ps = true →
  (∀ g o' n', g ∈ ps → piece g o' n' → Z.of_nat n' ≤ m - 20 → ttl (hdr g) = ttl h →
    ∃ fs : list packet, deliver g = Ok (mk <$> fs) ∧ carries t fs (Z.of_nat o') (Z.of_nat n')) →
  ∃ fs, fragment_loop fw (ip_send_fragment fw w big alloc deliver h body (Z.of_nat o)) (o + n =? total)%nat (S n) (Z.of_nat n) F 0 = Ok (mk <$> fs) ∧
    carries t fs (Z.of_nat o) (Z.of_nat n).
Proof.
  intros Hd Hpa Hb Hn Hle H8 Hm F ps Hck Hdel. destruct (fragment_size m Hm) as [HF HF8]. fold F in HF, HF8. rewrite forallb_forall in Hck.
  assert (length body = n) as Hlb by (rewrite Hb, length_take, length_drop; lia).
  destruct (fragment_loop_spec t mk (ip_send_fragment fw w big alloc deliver h body (Z.of_nat o)) (o + n =? total)%nat
    (Z.of_nat o) (Z.of_nat n) F) with (fuel := S n) (offs := 0)
    as (fs & -> & C); [lia|lia| |by exists 0|lia|lia|exists fs; split; [done|]; by rewrite Z.add_0_r, Z.sub_0_r in C].
  intros o' Ho' Hr' n'. pose proof (parts_elem h body (Z.of_nat o) F (o + n =? total)%nat o' ltac:(lia) Ho' ltac:(lia)) as Hel. rewrite Hlb in Hel. fold n' ps in Hel. assert (0 < n' ≤ F ∧ o' + n' ≤ Z.of_nat n) as [Hn' Hle'] by (unfold n'; lia). clearbody n'.
  eapply (send_fragment_spec _ _ _ h body o n); try done; [lia|by etrans|lia| |by apply Hck, list_elem_of_In|].
  - destruct (Z.eqb_spec (o' + n') (Z.of_nat n)), (Nat.eqb_spec (o + n) total), (Z.eqb_spec (Z.of_nat o + o' + n') (Z.of_nat total)); done || lia.
  - intros og ng Hg <- Htg. apply Hdel; [done|done|lia|done].
Qed.

Section router.
Context (mtu : nat → Z) (r : Route.net_route_s).
Local Abbreviation ifc := (Route.interface r).
Hypothesis Hmtu : 28 ≤ mtu ifc ≤ 65535.
Hypothesis Hbig : big = false.
Local Abbreviation mk := (Transmit ifc (if Route.is_routed r then dst else Route.router r)).

Lemma route_small fuel f o n :
  piece f o n → 2 ≤ ttl (hdr f) ≤ 255 → Z.of_nat n ≤ mtu ifc - 20 →
  ∃ f', ip_route fw w big alloc mtu (S fuel) r f = Ok [mk f'] ∧ piece f' o n ∧ ttl (hdr f') = ttl (hdr f) - 1.
Proof.
  intros Hp Ht Hn. pose proof (piece_size f o n Hp) as Hl. pose proof Hp as [(Hv & Hi & Hk & Hd & Hpr & Hop) Ho Hdata Hz Hpos Hb Hsum Hdf Hla].
  cbn [ip_route]. rewrite Hl, Hi, Hd. destruct (Z.eqb_spec (ttl (hdr f)) 1); [lia|]. rewrite (wrap_small16 fw (Z.of_nat n)) by lia.
  rewrite promote_small by lia. destruct (Z.ltb_spec (mtu ifc - 5 * 4) (Z.of_nat n)); [lia|].
  eexists. split; [done|]. split; [|cbn; by rewrite (wrapu_small 8) by lia]. split; try done. cbn [hdr]. rewrite Hbig in Hsum |- *. apply hop_sound; [done|done|lia].
Qed.

Lemma route_piece f o n :
  piece f o n → 2 ≤ ttl (hdr f) ≤ 255 → sums_kept fw w big (mtu ifc) f = true →
  ∃ fs, ip_route fw w big alloc mtu 2 r f = Ok (mk <$> fs) ∧ carries (ttl (hdr f) - 1) fs (Z.of_nat o) (Z.of_nat n).
Proof.
  intros Hp Ht Hsk. destruct (Z.le_gt_cases (Z.of_nat n) (mtu ifc - 20)) as [Hle|Hgt].
  { destruct (route_small 1 f o n Hp Ht Hle) as (f' & -> & Hp' & Ht'). exists [f']. split; [done|]. by apply carries_piece. }
  pose proof (piece_size f o n Hp) as Hl. pose proof Hp as [(Hv & Hi & Hk & Hd & Hpr & Hop) Ho Hdata Hz Hpos Hb Hsum Hdf Hla].
  destruct (partial_sound fw big (hdr f) Hfw Hsum) as [Ec Hpart]. unfold sums_kept in Hsk. rewrite Hl in Hsk. destruct (Z.leb_spec (Z.of_nat n) (mtu ifc - 20)); [lia|]. cbv zeta in Hsk, Ec, Hpart. apply andb_true_iff in Hsk as [Hbo%Z.leb_le Hck]. specialize (Hpart Hbo).
  remember 1%nat as one. cbn [ip_route]. rewrite Hl, Hi. destruct (Z.eqb_spec (ttl (hdr f)) 1); [lia|]. rewrite (wrap_small16 fw (Z.of_nat n)) by lia.
  rewrite !promote_small by lia. destruct (Z.ltb_spec (mtu ifc - 5 * 4) (Z.of_nat n)); [|lia]. rewrite Hdf. cbn [Z.eqb negb].
  destruct (fragment_size (mtu ifc) Hmtu) as [HF _]. rewrite (wrap_small16 fw (Z.land (mtu ifc - 20) _)) by lia.
  rewrite Ho, (wrap_small16 fw (Z.of_nat o)), Hla by lia. rewrite <-Ec, Ho, Hla in Hck. apply cut_piece; try done; [rewrite <-Ho; apply Z.divide_factor_r|].
  intros g og ng _ Hg Hle Htg. subst one. destruct (route_small 0 g og ng Hg) as (g' & -> & Hg' & Ht'); [by rewrite Htg|lia|].
  exists [g']. split; [done|]. apply carries_piece; [done|]. by rewrite Ht', Htg.
Qed.
End router.

(** The target is elsewhere for the router, and it has a route to it. *)
Definition hop_ok (r : hop) : Prop :=
  let pv := h_pv r in
  Z.land dst (netmask pv) ≠ Z.land (addr pv) (netmask pv) ∧ dst ≠ addr pv ∧ dst ≠ 0xffffffff ∧
  Z.land dst (wrapu w (Z.lnot (netmask pv))) ≠ wrapu w (Z.lnot (netmask pv)) ∧
  (∃ x, find_route (h_table r) dst = Ok (Indirect x)) ∧ 28 ≤ h_unit dst r ≤ 65535 ∧ ∀ l, h_order r l ≡ₚ l.

Context (mem_alloc : Z → option (list Z)) (pad : Z) (protos : Z → bool).

(** A packet that is not for the router is forwarded. *)
Lemma pushpkt_forward r f o n x : hop_ok r → piece f o n → find_route (h_table r) dst = Ok (Indirect x) →
  ip_pushpkt fw w big alloc (h_mtu r) mem_alloc pad true protos 2 (h_table r) (h_pv r) f = (out ← ip_route fw w big alloc (h_mtu r) 2 x f; Ok (out, h_pv r)).
Proof.
  intros (H1 & H2 & H3 & H4 & _) Hp Hx. pose proof (piece_size f o n Hp) as Hn. pose proof Hp as [(Hv & Hi & _ & Hd & _) _ _ Hz _ _ _ _ _].
  unfold ip_pushpkt. rewrite Hv, Hd. destruct (Z.eqb_spec dst (addr (h_pv r))); [done|]. destruct (Z.eqb_spec (Z.land dst (netmask (h_pv r))) (Z.land (addr (h_pv r)) (netmask (h_pv r)))); [done|]. destruct (Z.eqb_spec dst 0xffffffff); [done|].
  destruct (Z.eqb_spec (Z.land dst (wrapu w (Z.lnot (netmask (h_pv r))))) (wrapu w (Z.lnot (netmask (h_pv r))))); [done|]. cbn [negb andb Z.eqb Pos.eqb]. rewrite Hx. cbn [mbind outcome_bind].
  unfold payload_of. rewrite Hz, Hi, Hn. replace (20 + Z.of_nat n - 5 * 4) with (Z.of_nat n) by lia. rewrite Z.leb_refl. destruct (Z.leb_spec 0 (Z.of_nat n)); [|lia]. cbn [andb require mbind outcome_bind]. rewrite Nat2Z.id, take_ge by lia. by destruct f.
Qed.

Lemma transmitted_fmap ifc a fs : transmitted (Transmit ifc a <$> fs) = fs.
Proof. unfold transmitted. induction fs as [|f fs IH]; [done|]. cbn. by f_equal. Qed.

(** A router hands on what it got. *)
Lemma forward_all_spec r t fs : big = false →
  hop_ok r → 2 ≤ t ≤ 255 → pieces fs → (∀ f, f ∈ fs → ttl (hdr f) = t) → (∀ f, f ∈ fs → sums_kept fw w big (h_unit dst r) f = true) →
  ∃ fs', forward_all fw w big alloc mem_alloc pad protos r (h_pv r) fs = Ok fs' ∧ pieces fs' ∧ (∀ f, f ∈ fs' → ttl (hdr f) = t - 1) ∧
    payload_size fs' = payload_size fs ∧ ∀ p, covered fs p → covered fs' p.
Proof.
  intros Hbig Hr Ht. pose proof Hr as (_ & _ & _ & _ & [x Hx] & Hm & _). unfold h_unit in Hm. rewrite Hx in Hm. unfold h_unit. rewrite Hx.
  induction fs as [|f fs IH]; intros Hp Hf Hk; cbn [forward_all]. { exists []. split_and!; [done|done|set_solver|done|done]. }
  destruct (Hp f ltac:(set_solver)) as (o & n & Hpf). pose proof (Hf f ltac:(set_solver)) as Htf. rewrite (pushpkt_forward r f o n x Hr Hpf Hx).
  destruct (route_piece (h_mtu r) x Hm Hbig f o n Hpf) as (gs & -> & G1 & G2 & G3 & G4); [by rewrite Htf|apply Hk; set_solver|]. cbn [mbind outcome_bind].
  destruct IH as (fs' & -> & F1 & F2 & F3 & F4); [intros g Hg; apply Hp; set_solver|intros g Hg; apply Hf; set_solver|intros g Hg; apply Hk; set_solver|].
  cbn [mbind outcome_bind]. rewrite transmitted_fmap. exists (gs ++ fs'). split_and!; [done|by apply pieces_app| | |].
  - rewrite Htf in G2. intros g [Hg|Hg]%elem_of_app; auto.
  - rewrite payload_size_app, payload_size_cons, F3, (piece_size f o n Hpf). lia.
  - intros p (g & og & ng & [->|Hg]%elem_of_cons & Hpg & Hrg).
    + destruct (piece_unique f o n og ng Hpf Hpg) as [-> ->]. eapply covered_mono; [|apply G4; lia]. intros g. rewrite elem_of_app. tauto.
    + eapply covered_mono; [|apply F4; by exists g, og, ng]. intros h. rewrite elem_of_app. tauto.
Qed.

(** Packets that carry the whole payload. *)
Lemma carries_perm t fs fs' o n : fs' ≡ₚ fs → carries t fs o n → carries t fs' o n.
Proof.
  intros H (A1 & A2 & A3 & A4). split_and!.
  - intros f Hf. apply A1. by rewrite <-H.
  - intros f Hf. apply A2. by rewrite <-H.
  - by rewrite (payload_size_perm _ _ H).
  - intros p Hp. eapply covered_mono; [|by apply A4]. intros f. by rewrite H.
Qed.

Lemma journey_spec hops : big = false → ∀ t fs,
  Forall hop_ok hops → Z.of_nat (length hops) + 1 ≤ t ≤ 255 → carries t fs 0 (Z.of_nat total) → journey_kept fw w big alloc mem_alloc pad protos dst hops fs = true →
  ∃ fs', journey fw w big alloc mem_alloc pad protos hops fs = Ok fs' ∧ carries (t - Z.of_nat (length hops)) fs' 0 (Z.of_nat total).
Proof.
  intros Hbig. induction hops as [|r hops IH]; intros t fs Hok Ht C; cbn [journey journey_kept length].
  { intros _. exists fs. by rewrite Z.sub_0_r. }
  intros [Hk Hks]%andb_true_iff. rewrite forallb_forall in Hk. apply Forall_cons in Hok as [Hr Hok]. assert (h_order r fs ≡ₚ fs) as Hperm by apply Hr. apply (carries_perm _ _ (h_order r fs)) in C as (A1 & A2 & A3 & A4); [|done].
  destruct (forward_all_spec r t (h_order r fs) Hbig Hr) as (fs' & Ef & F1 & F2 & F3 & F4); [cbn in Ht; lia|done|done|intros f Hf; apply Hk, list_elem_of_In; by rewrite <-Hperm|]. rewrite Ef in Hks |- *. cbn [mbind outcome_bind].
  destruct (IH (t - 1) fs' Hok) as (gs & -> & C); [cbn in Ht; lia|split_and!; [done|done|by rewrite F3|by intros p Hp; apply F4, A4]|done|].
  exists gs. split; [done|]. by replace (t - Z.of_nat (S (length hops))) with (t - 1 - Z.of_nat (length hops)) by lia.
Qed.

(** ** The target *)

Hypothesis Halloc : ∀ n, 0 ≤ n → ∃ buf, mem_alloc n = Some buf ∧ Z.of_nat (length buf) = n.
Hypothesis Hpad : 0 ≤ pad ≤ 3.
Implicit Types (m : gmap (Z * Z) ip_packet_s).

(** The reassembly structure after the packets [fs], the last one first. *)
Definition pending (fs : list packet) : option ip_packet_s :=
  match fs with
  | [] => None
  | _ => Some {| psize := if has_last fs then Z.of_nat total else 0; received := Z.of_nat (payload_size fs); packets := fs |}
  end.

(** What the fragment [f] finds and computes. *)
Lemma fragment_step f o n before m :
  piece f o n → m !! key = pending before → (payload_size before + n ≤ total)%nat →
  ip_fragment_pushpkt fw mem_alloc pad true f m =
    let all := f :: before in
    if has_last all && (payload_size all =? total)%nat then
      match mem_alloc (Z.of_nat total + 3 - pad) with
      | None => Ok ([], None, delete key m)
      | Some buf =>
          buf ← copy_at buf (Z.of_nat o) (data f);
          '(out, r) ← reassemble fw (Z.of_nat total) before buf;
          Ok (out, option_map (take total) r, delete key m)
      end
    else Ok ([], None, <[key := {| psize := if has_last all then Z.of_nat total else 0; received := Z.of_nat (payload_size all);
                                   packets := all |}]> m).
Proof.
  intros Hp Hm Hs. pose proof (piece_size f o n Hp) as Hn. pose proof Hp as [(_ & Hi & _) _ _ Hz Hpos Hb _ _ Hl].
  unfold ip_fragment_pushpkt. rewrite (piece_key f o n Hp), (piece_offset f o n Hp), Hm, Hz, Hi.
  replace (20 + Z.of_nat n - 5 * 4) with (Z.of_nat n) by lia.
  assert ((if pending before is None then negb true else false) = false) as -> by (by destruct before).
  assert (default {| psize := 0; received := 0; packets := [] |} (pending before) =
    {| psize := if has_last before then Z.of_nat total else 0; received := Z.of_nat (payload_size before); packets := before |}) as ->
    by (by destruct before).
  cbn [received psize packets]. rewrite Hl. rewrite (wrap_small16 fw (Z.of_nat n)) by lia. rewrite !wrap_small16 by lia. cbv zeta.
  assert (has_last (f :: before) = (o + n =? total)%nat || has_last before) as -> by (unfold has_last; cbn [existsb]; by rewrite Hl).
  assert (payload_size (f :: before) = payload_size before + n)%nat as -> by (rewrite payload_size_cons; lia). rewrite <-!Nat2Z.inj_add.
  set (size' := if (o + n =? total)%nat then Z.of_nat (o + n) else if has_last before then Z.of_nat total else 0).
  assert (size' = if (o + n =? total)%nat || has_last before then Z.of_nat total else 0) as Es.
  { unfold size'. destruct (Nat.eqb_spec (o + n) total) as [->|]; done. }
  rewrite Es. clear size' Es. destruct ((o + n =? total)%nat || has_last before); [|done].
  destruct (Z.eqb_spec (Z.of_nat total) 0); [lia|]. cbn [negb andb].
  destruct (Nat.eqb_spec (payload_size before + n) total) as [->|Hne].
  - rewrite Z.eqb_refl. rewrite Nat2Z.id. case_match; [|done].
    assert ((Z.of_nat n <=? Z.of_nat (length (data f))) = true) as -> by (apply Z.leb_le; lia). cbn [require mbind outcome_bind].
    by rewrite take_ge by lia.
  - destruct (Z.eqb_spec (Z.of_nat total) (Z.of_nat (payload_size before + n))); [lia|done].
Qed.

Context (mtu : nat → Z) (table : Route.state).
Hypothesis Hproto : protos proto = true.

(** The target looks at the header of a piece and passes it on. *)
Lemma pushpkt_piece f o n pv :
  piece f o n → addr pv = dst →
  ip_pushpkt fw w big alloc mtu mem_alloc pad true protos 2 table pv f =
    if (n =? total)%nat then Ok ([Deliver proto pl], pv)
    else '(out, r, m) ← ip_fragment_pushpkt fw mem_alloc pad true f (fragments pv);
         Ok (out ++ match r with Some whole => [Deliver proto whole] | None => [] end, set_fragments m pv).
Proof.
  intros Hp Ha. pose proof (piece_size f o n Hp) as Hn. pose proof Hp as [(Hv & Hi & _ & Hd & Hpr & Hop) Ho Hdata Hz Hpos Hb Hsum _ Hl].
  unfold ip_pushpkt. rewrite Hv, Hd, Ha, !Z.eqb_refl. cbn [negb andb]. rewrite (sound_accepted w big (hdr f)) by done. cbn [mbind outcome_bind negb].
  unfold payload_of. rewrite Hz, Hi, Hn. replace (20 + Z.of_nat n - 5 * 4) with (Z.of_nat n) by lia. rewrite Z.leb_refl.
  destruct (Z.leb_spec 0 (Z.of_nat n)); [|lia]. cbn [andb require mbind outcome_bind]. rewrite Nat2Z.id, take_ge by lia.
  assert ({| hdr := hdr f; data := data f |} = f) as -> by (by destruct f). unfold dispatch. rewrite Hl, Hpr, Hproto.
  destruct (Nat.eqb_spec n total) as [E|E].
  - assert (o = 0)%nat as -> by lia. assert (Z.land (fragment (hdr f)) IP_FRAG_MASK = 0) as -> by lia.
    destruct (Nat.eqb_spec (0 + n) total); [|lia]. cbn [negb orb Z.eqb]. rewrite Hdata, drop_0, take_ge by lia. done.
  - assert (negb (o + n =? total)%nat || negb (Z.land (fragment (hdr f)) IP_FRAG_MASK =? 0) = true) as ->; [|done].
    destruct (Nat.eqb_spec (o + n) total); [|done]. destruct (Z.eqb_spec (Z.land (fragment (hdr f)) IP_FRAG_MASK) 0); [lia|done].
Qed.

Lemma set_fragments_id pv : set_fragments (fragments pv) pv = pv.
Proof. by destruct pv. Qed.

Lemma receive_all_spec todo : ∀ before pv,
  todo ≠ [] → addr pv = dst → fragments pv !! key = pending before → pieces (todo ++ before) → payload_size (todo ++ before) = total →
  (∀ p, (p < total)%nat → covered (todo ++ before) p) →
  receive_all fw w big alloc mem_alloc pad protos mtu table todo pv =
    Ok (replicate (length todo - 1) [] ++ [[Deliver proto pl]], set_fragments (delete key (fragments pv)) pv).
Proof.
  induction todo as [|f todo IH]; intros before pv Hne Ha Hm Hp Hs Hc; [done|]. cbn [receive_all].
  destruct (Hp f ltac:(set_solver)) as (o & n & Hf). pose proof (piece_size f o n Hf) as Hn. pose proof Hf as [_ _ _ _ Hpos Hb _ _ _].
  rewrite (pushpkt_piece f o n pv Hf Ha).
  assert (payload_size (f :: todo ++ before) = n + payload_size todo + payload_size before)%nat as Es
    by (rewrite payload_size_cons, payload_size_app; lia).
  change (payload_size (f :: todo ++ before) = total) in Hs. rewrite Es in Hs.
  pose proof Hp as Hpa. change (f :: todo) with ([f] ++ todo) in Hpa. rewrite <-app_assoc in Hpa.
  apply pieces_app in Hpa as [_ Hpa]. apply pieces_app in Hpa as [Hptodo Hpbefore].
  destruct (Nat.eqb_spec n total) as [Ew|Ew].
  - assert (todo = []) as -> by (apply payload_size_zero; [done|lia]). assert (before = []) as -> by (apply payload_size_zero; [done|lia]).
    cbn [mbind outcome_bind receive_all]. rewrite delete_id by done. by rewrite set_fragments_id.
  - rewrite (fragment_step f o n before (fragments pv) Hf Hm) by lia. cbv zeta.
    assert (payload_size (f :: before) = n + payload_size before)%nat as E1 by (rewrite payload_size_cons; lia).
    destruct todo as [|g todo].
    + rewrite covered_has_last by (apply Hc; lia). assert (payload_size [] = 0)%nat by done.
      destruct (Nat.eqb_spec (payload_size (f :: before)) total); [|lia]. cbn [andb].
      destruct (Halloc (Z.of_nat total + 3 - pad)) as (buf & -> & Hlb); [lia|].
      destruct (copy_piece buf f o n Hf) as (b1 & -> & Hl1 & Hin1 & Hk1); [lia|]. cbn [mbind outcome_bind].
      destruct (reassemble_spec before b1) as (b2 & -> & Hl2 & Hin2 & Hk2); [done|lia|].
      cbn [mbind outcome_bind option_map receive_all]. rewrite (complete_payload b2); [done|].
      intros p Hlt. destruct (Hc p Hlt) as (h & o' & n' & Hh & Hph & Hr). apply elem_of_cons in Hh as [->|Hh].
      * apply Hk2, Hin1. destruct (piece_unique f o n o' n' Hf Hph) as [-> ->]. lia.
      * apply Hin2. by exists h, o', n'.
    + assert (payload_size (g :: todo) ≠ 0)%nat by (by intros ?%payload_size_zero).
      destruct (Nat.eqb_spec (payload_size (f :: before)) total); [lia|]. rewrite andb_false_r. cbn [mbind outcome_bind].
      rewrite (IH (f :: before)); [..|done|done| | | |].
      * cbn [mbind outcome_bind set_fragments fragments]. rewrite delete_insert_eq. cbn [length Nat.sub replicate app]. by rewrite Nat.sub_0_r.
      * cbn [set_fragments fragments]. by rewrite lookup_insert_eq.
      * change ([f] ++ before) with (f :: before). apply pieces_app. split; [done|]. apply (pieces_app [f]). split; [|done].
        intros h ->%list_elem_of_singleton. eauto.
      * rewrite !payload_size_app, E1. lia.
      * intros p Hlt. eapply covered_mono; [|by apply Hc]. intros h. rewrite !elem_of_app, !elem_of_cons. tauto.
Qed.
End pieces.

(** ** The sender *)

Lemma partial_header_Ok w big a target proto seq :
  32 ≤ w → byte proto →
  ∃ h, partial_header w big a target proto seq = Ok h ∧ datagram (a, id h) target proto h ∧ partial big h ∧ ttl h = IPDEFTTL.
Proof.
  intros Hw Hp. unfold partial_header. set (h0 := {| version := 4 |}).
  assert (header_ok h0) as Hok by (unfold header_ok, byte, h0, IPDEFTTL in *; cbn; lia).
  destruct (packet_checksum_spec w big (hdr_bytes big h0)) as (s0 & -> & Hs & Hm & _); [done|by apply hdr_bytes_bytes|by rewrite hdr_bytes_length|].
  cbn [mbind outcome_bind]. eexists. split; [done|]. split; [done|]. split; [|done]. split; [done|]. cbn [check set_check]. split; [lia|].
  change (blank (set_check s0 h0)) with h0. apply Z.mod_divide; [lia|]. by rewrite Zminus_mod, Hm, Z.sub_diag.
Qed.

(** The target is on the network of the interface, or there is a route to it. *)
Definition reaches (mtu : nat → Z) (table : Route.state) (pv : net_pv_ip_s) (target : Z) : Prop :=
  ip_delivery_direct pv target = true ∨
  ip_delivery_direct pv target = false ∧ ∃ r, find_route table target = Ok (Indirect r) ∧ 28 ≤ mtu (Route.interface r) ≤ 65535.

Section sender.
Context (fw w : Z) (alloc : Z → bool) (mtu : nat → Z) (table : Route.state) (pv : net_pv_ip_s) (target proto : Z) (pl : list Z).
Hypothesis Hfw : 32 ≤ fw.
Hypothesis Hw : 32 ≤ w.
Hypothesis Hp : byte proto.
Hypothesis Hl : (0 < length pl)%nat ∧ Z.of_nat (length pl) ≤ 65515.
Hypothesis Hm : 28 ≤ mtu (pv_if pv) ≤ 65535.
Hypothesis Hnew : ∀ x, alloc x = true.
Hypothesis Hr : reaches mtu table pv target.
Local Abbreviation sends := (∃ i t ifc a fs pv', ip_send fw w false alloc mtu 2 table pv target proto pl = Ok (Transmit ifc a <$> fs, pv') ∧ 63 ≤ t ≤ 64 ∧
    carries false pl (addr pv, i) target proto t fs 0 (Z.of_nat (length pl))).

(** The payload is cut. *)
Lemma send_cut : mtu (pv_if pv) - 20 < Z.of_nat (length pl) → send_kept fw w false mtu table pv target proto pl = true → sends.
Proof.
  intros Hlt. unfold send_kept, ip_send. rewrite (wrap_small16 fw (Z.of_nat (length pl))) by lia. rewrite !promote_small by lia. apply Z.ltb_lt in Hlt. rewrite Hlt.
  destruct (partial_header_Ok w false (addr pv) target proto (id_seq pv) Hw Hp) as (h & -> & Hd & Hpa & Ht). cbn [mbind outcome_bind negb orb]. intros [Hck Hsk]%andb_true_iff.
  destruct (fragment_size (mtu (pv_if pv)) Hm) as [HF _]. rewrite (wrap_small16 fw (Z.land (mtu (pv_if pv) - 20) _)) by lia.
  pose proof (λ t mk deliver, cut_piece fw w false pl (addr pv, id h) target proto Hfw Hw Hl alloc Hnew t mk deliver h pl 0 (length pl) (mtu (pv_if pv)) Hd Hpa) as Hcut.
  cbn [Nat.add] in Hcut. rewrite Nat.eqb_refl in Hcut. change (Z.of_nat 0) with 0 in Hcut. assert (pl = take (length pl) (drop 0 pl)) as Epl by (by rewrite drop_0, take_ge). assert (8 | 0) as H80 by (by exists 0).
  destruct Hr as [->|(Edir & r & Er & Hmr)]; [|rewrite Edir in Hsk |- *; rewrite Er in Hsk |- *]; cbn [mbind outcome_bind orb] in *; exists (id h).
  - destruct (Hcut 64 (Transmit (pv_if pv) target) (λ p, Ok [Transmit (pv_if pv) target p])) as (fs & -> & C); try done; try lia.
    + intros g o n _ Hg _ Hgt. exists [g]. split; [done|]. apply (carries_piece fw w); try done. by rewrite Hgt, Ht.
    + cbn [mbind outcome_bind]. eexists 64, _, _, fs, _. split; [done|]. split; [lia|done].
  - rewrite forallb_forall in Hsk. destruct (Hcut 63 (Transmit (Route.interface r) (if Route.is_routed r then target else Route.router r)) (λ p, ip_route fw w false alloc mtu 2 r p)) as (fs & -> & C); try done; try lia.
    + intros g o n Hin Hg _ Hgt. destruct (route_piece fw w false pl (addr pv, id h) target proto Hfw Hw Hl alloc Hnew mtu r Hmr eq_refl g o n Hg) as (fs & -> & C); [rewrite Hgt, Ht; done|by apply Hsk, list_elem_of_In|]. exists fs. split; [done|]. by rewrite Hgt, Ht in C.
    + cbn [mbind outcome_bind]. eexists 63, _, _, fs, _. split; [done|]. split; [lia|done].
Qed.
(** The payload fits. *)
Lemma send_whole : Z.of_nat (length pl) ≤ mtu (pv_if pv) - 20 → send_kept fw w false mtu table pv target proto pl = true → sends.
Proof.
  intros Hle. unfold send_kept, ip_send. rewrite (wrap_small16 fw (Z.of_nat (length pl))) by lia. rewrite !promote_small by lia. apply Z.ltb_ge in Hle. rewrite Hle.
  destruct (send_header_spec w false (addr pv) target proto (20 + Z.of_nat (length pl)) (id_seq pv) Hw Hp)
    as (h & -> & Hv & Hi & Htl & Hf & Hpro & Hsa & Hda & Ho & Ht & Hc & Hok & Hsum). cbn [mbind outcome_bind negb orb andb forallb].
  assert (piece false pl (addr pv, id h) target proto {| hdr := h; data := pl |} 0 (length pl)) as Hpc.
  { rewrite wrapu_small in Htl by lia. split; cbn [hdr data]; rewrite ?Hf; try done; try lia.
    - unfold datagram. rewrite Hsa. done.
    - by rewrite drop_0, take_ge.
    - split; [done|]. split; [lia|]. apply Z.mod_divide; [lia|]. apply Hsum.
    - by rewrite Nat.eqb_refl. }
  destruct Hr as [->|(Edir & r & Er & Hmr)]; [|rewrite Edir, Er]; cbn [mbind outcome_bind orb]; intros Hsk; exists (id h).
  - eexists 64, _, _, [{| hdr := h; data := pl |}], _. split; [done|]. split; [lia|]. by apply (carries_piece fw w false pl (addr pv, id h) target proto Hfw Hw Hl 64 _ 0 (length pl)).
  - apply andb_true_iff in Hsk as [Hsk _]. destruct (route_piece fw w false pl (addr pv, id h) target proto Hfw Hw Hl alloc Hnew mtu r Hmr eq_refl _ _ _ Hpc) as (fs & -> & C); [cbn [hdr]; rewrite Ht; done|done|].
    cbn [mbind outcome_bind]. eexists 63, _, _, fs, _. split; [done|]. split; [lia|]. cbn [hdr] in C. by rewrite Ht in C.
Qed.
Lemma send_carries : send_kept fw w false mtu table pv target proto pl = true → sends.
Proof. destruct (Z.lt_ge_cases (mtu (pv_if pv) - 20) (Z.of_nat (length pl))); [by apply send_cut|by apply send_whole]. Qed.
End sender.

(** C4. On little endian hosts and routers whose [uint_fast16_t] has at least 32 bits, a
    payload that is sent reaches the protocol of its target exactly once and
    unchanged, whatever its size up to the largest datagram: [ip_send] fragments it
    for the interface, [ip_pushpkt] of every router on the way forwards the packets
    and may fragment them further, the order of the packets changes on every link,
    and [ip_pushpkt] of the target accepts the checksums, keeps the fragments until
    the last one arrives and delivers the payload then; its reassembly table is as
    before, and no operation faults or copies outside its buffer.  Memory is
    available, transfer units have room for 8 bytes, the path is shorter than the
    time to live, every router has a route to the target, no packet is lost, and no
    fragmentation meets one of the sums whose carry or borrow the code loses
    ([send_kept], [journey_kept]; see [fragment_carry_lost]). *)
Theorem fragments_reassemble (fw w : Z) (alloc : Z → bool) (mtu : nat → Z) (table : Route.state) (pv : net_pv_ip_s) (target proto : Z)
    (pl : list Z) (hops : list hop) (order : list packet → list packet) (rmtu : nat → Z) (mem_alloc : Z → option (list Z)) (pad : Z)
    (protos : Z → bool) (rtable : Route.state) (rpv : net_pv_ip_s) :
  32 ≤ fw → 32 ≤ w → byte proto → (0 < length pl)%nat ∧ Z.of_nat (length pl) ≤ 65515 → 28 ≤ mtu (pv_if pv) ≤ 65535 →
  reaches mtu table pv target → (∀ x, alloc x = true) → Forall (hop_ok w target) hops → Z.of_nat (length hops) ≤ 61 → (∀ l, order l ≡ₚ l) →
  (∀ n, 0 ≤ n → ∃ buf, mem_alloc n = Some buf ∧ Z.of_nat (length buf) = n) → 0 ≤ pad ≤ 3 → protos proto = true →
  addr rpv = target → (∀ i, fragments rpv !! (addr pv, i) = None) →
  send_kept fw w false mtu table pv target proto pl = true →
  ∃ o pv', ip_send fw w false alloc mtu 2 table pv target proto pl = Ok (o, pv') ∧
    (journey_kept fw w false alloc mem_alloc pad protos target hops (transmitted o) = true →
     ∃ fs, journey fw w false alloc mem_alloc pad protos hops (transmitted o) = Ok fs ∧
       receive_all fw w false alloc mem_alloc pad protos rmtu rtable (order fs) rpv = Ok (replicate (length fs - 1) [] ++ [[Deliver proto pl]], rpv)).
Proof.
  intros Hfw Hw Hp Hl Hm Hr Hnew Hok Hlen Hord Ha Hpad Hpr Hadr Hfr Hsk.
  destruct (send_carries fw w alloc mtu table pv target proto pl Hfw Hw Hp Hl Hm Hnew Hr Hsk) as (i & t & ifc & a & fs0 & pv' & -> & Ht & C0).
  exists (Transmit ifc a <$> fs0), pv'. split; [done|]. rewrite transmitted_fmap. intros Hjk.
  destruct (journey_spec fw w false pl (addr pv, i) target proto Hfw Hw Hl alloc Hnew mem_alloc pad protos hops eq_refl t fs0 Hok ltac:(lia) C0 Hjk) as (fs & Hj & C). exists fs. split; [done|].
  apply (carries_perm _ _ _ _ _ Hl _ _ (order fs)) in C as (C1 & _ & C3 & C4); [|by apply Hord].
  rewrite <-(Permutation_length (Hord fs)).
  rewrite (receive_all_spec fw w false pl (addr pv, i) target proto Hfw Hw Hl alloc Hnew mem_alloc pad protos Ha Hpad rmtu rtable Hpr (order fs) [] rpv); try done.
  - by rewrite delete_id, set_fragments_id.
  - intros E. rewrite E in C3. cbn in C3. lia.
  - by rewrite app_nil_r.
  - rewrite app_nil_r. lia.
  - intros p Hp'. rewrite app_nil_r. apply C4. lia.
Qed.

(** A hundred bytes over an interface of 76 and two routers, the second of which
    has an interface of 44; every link reverses the order. *)
Definition demo_payload : list Z := Z.of_nat <$> seq 1 100.
Definition demo_unit (n : Z) (ifc : nat) : Z := n.
Definition demo_hop (a unit : Z) : hop :=
  {| h_mtu := demo_unit unit; h_pv := demo_pv a; h_table := {| Route.objs := {[0%nat := Route.set_addressing {| Route.pv_addr := a; Route.pv_mask := 0xffffff00 |} (demo_route 0 true)]}; Route.route_table := [0%nat] |}; h_order := reverse |}.
Definition demo_hops : list hop := [demo_hop 0x0a000101 1500; demo_hop 0x0a000201 44].

Lemma demo_hop_ok a unit : Z.land a 0xffffff00 ≠ 0x0a000000 → 28 ≤ unit ≤ 65535 → hop_ok 32 0x0a000002 (demo_hop a unit).
Proof.
  intros Ha Hu. split_and!; try done.
  - cbn. by intros <-.
  - by eexists.
  - by destruct Hu.
  - by destruct Hu.
  - intros l. apply reverse_Permutation.
Defined.

Lemma fragments_reassemble_witness :
  (r ← ip_send 32 32 false (λ _, true) (demo_unit 76) 2 no_routes (demo_pv 0x0a000001) 0x0a000002 17 demo_payload;
   fs ← journey 32 32 false (λ _, true) demo_alloc 1 (λ p, p =? 17) demo_hops (transmitted r.1);
   Ok (length (transmitted r.1), length fs)) = Ok (2%nat, 5%nat) ∧
  ∃ o pv' fs, ip_send 32 32 false (λ _, true) (demo_unit 76) 2 no_routes (demo_pv 0x0a000001) 0x0a000002 17 demo_payload = Ok (o, pv') ∧
    journey 32 32 false (λ _, true) demo_alloc 1 (λ p, p =? 17) demo_hops (transmitted o) = Ok fs ∧
    receive_all 32 32 false (λ _, true) demo_alloc 1 (λ p, p =? 17) demo_mtu no_routes (reverse fs) (demo_pv 0x0a000002) =
       Ok (replicate (length fs - 1) [] ++ [[Deliver 17 demo_payload]], demo_pv 0x0a000002).
Proof.
  split; [vm_compute; reflexivity|].
  destruct (fragments_reassemble 32 32 (λ _, true) (demo_unit 76) no_routes (demo_pv 0x0a000001) 0x0a000002 17 demo_payload demo_hops reverse
    demo_mtu demo_alloc 1 (λ p, p =? 17) no_routes (demo_pv 0x0a000002)) as (o & pv' & E & Hrec);
    [lia|lia|unfold byte; lia|cbn; lia|unfold demo_unit; lia|by left|done| |cbn; lia| | |lia|reflexivity|reflexivity|done|vm_compute; reflexivity|].
  - repeat apply Forall_cons_2; [..|apply Forall_nil_2]; apply demo_hop_ok; (lia || by vm_compute).
  - intros l. apply reverse_Permutation.
  - intros n Hn. exists (replicate (Z.to_nat n) 0). split; [done|]. rewrite length_replicate. lia.
  - destruct Hrec as (fs & Hj & Hrec); [pose proof E as E'; vm_compute in E'; injection E' as <- _; vm_compute; reflexivity|]. exists o, pv', fs. split; [exact E|]. split; [exact Hj|exact Hrec].
Defined.

(** ** Behaviour to know *)

(** Two fragments of 8 bytes, the last one at offset 8 and another at offset 800:
    as many bytes as the datagram has are received, and the second one is copied
    behind the end of the buffer of 16 bytes. *)
Definition demo_fragment (frag : Z) : packet := {| hdr := demo_header 64 0 frag 8; data := replicate 8 0xaa |}.
Theorem reassembly_overflows :
  ('(_, _, m) ← ip_fragment_pushpkt 32 demo_alloc 0 true (demo_fragment 1) ∅;
   ip_fragment_pushpkt 32 demo_alloc 0 true (demo_fragment (IP_FLAG_MF + 100)) m) = Err FBounds.
Proof. vm_compute. reflexivity. Qed.

(** The sum of the header of a fragment is folded once, so that the carry of the
    fold is lost: the second fragment of this datagram has the sum [0x1ffff], and
    the receiver rejects it. *)
Theorem fragment_carry_lost :
  ('(o, _) ← ip_send 32 32 false (λ _, true) (demo_unit 252) 2 no_routes
       {| pv_if := 0; addr := 0x0a000001; netmask := 0xffffff00; fragments := ∅; id_seq := 0x46d2 |} 0x0a000002 17 (replicate 500 0);
   default (Err FBounds) ((λ f, checksum_accepted 32 false (hdr f)) <$> transmitted o !! 1%nat)) = Ok false.
Proof. vm_compute. reflexivity. Qed.
End Ipv4Frag.
