(* ===== verification/Arp.v ===== *)
(** * Address resolution (libnetwork/protocols/arp.c)

    The table of hardware addresses, the packets that wait for an answer, and the
    timers that repeat a request or give it up.  The resolution structures are
    objects of a store, because the table, the timers and the queue of an entry
    share them. *)

From stdpp Require Import gmap.
From S2P Require Import Prelude.

Module Arp.

Definition ARP_ENTRY_TIMEOUT : Z := 120000.
Definition ARP_MAX_RETRIES : Z := 3.
Definition BROADCAST : Z := 0xffffffffffff.

(** ** Data *)

Section arp.
(** The packets. *)
Context {P : Type}.

(** The timer event of a resolution points to its entry, of the given address and
    identity. *)
Record arp_resolution_s := { wait : list P; retry : Z; res_if : nat; res_ip : Z; res_entry : nat }.
Record arp_entry_s := { eid : nat; mac : Z; valid : bool; timestamp : Z; resolution : option nat }.

(** [timers] are the resolutions whose timeout is linked in the timer; [fresh] is
    the identity of the next allocation. *)
Record net_pv_arp_s := { table : gmap Z arp_entry_s; resolutions : gmap nat arp_resolution_s; timers : gset nat; fresh : nat }.

(** What is handed to the interface or reported: a packet with the hardware
    address of its target, a request or a reply, an unreachable host. *)
Inductive output := if_sendpkt (ifc : nat) (ip mac : Z) (p : P) | arp_request (ifc : nat) (ip : Z) | arp_reply (ip mac : Z) | errormsg (ip : Z) (p : P).

Definition set_table (t : gmap Z arp_entry_s) (s : net_pv_arp_s) : net_pv_arp_s :=
  {| table := t; resolutions := resolutions s; timers := timers s; fresh := fresh s |}.

(** ** Operations *)

(** The width of [timer_delay_t]; whether the allocations succeed. *)
Context (w : Z) (arp_entry_obj_new mem_alloc packet_obj_new : bool).

(** The entry with the given resolution is freed with what waits for it. *)
Definition arp_entry_obj_delete (ip : Z) (e : arp_entry_s) (s : net_pv_arp_s) : net_pv_arp_s :=
  match resolution e with
  | Some r => {| table := delete ip (table s); resolutions := delete r (resolutions s); timers := timers s ∖ {[r]}; fresh := fresh s |}
  | None => set_table (delete ip (table s)) s
  end.

(** The entry of [ip]: the one in the table, or a new one. *)
Definition table_entry (ip : Z) (no_update : bool) (s : net_pv_arp_s) : outcome (option (arp_entry_s * net_pv_arp_s)) :=
  _ ← require (negb (ip =? 0)) FAssert;
  match table s !! ip with
  | Some e => Ok (if no_update then None else Some (e, s))
  | None =>
      _ ← require (negb (ip =? 0xffffffff) && negb (ip =? 0x7f000001)) FAssert;
      if negb arp_entry_obj_new then Ok None
      else
        let e := {| eid := fresh s; mac := 0; valid := false; timestamp := 0; resolution := None |} in
        Ok (Some (e, {| table := <[ip := e]> (table s); resolutions := resolutions s; timers := timers s; fresh := S (fresh s) |}))
  end.

(** [arp_update_table] with [ARP_TABLE_IN_PROGRESS]: the entry is not valid. *)
Definition arp_update_progress (now ip : Z) (s : net_pv_arp_s) : outcome (option (arp_entry_s * net_pv_arp_s)) :=
  r ← table_entry ip false s;
  match r with
  | None => Ok None
  | Some (e, s) =>
      let e := {| eid := eid e; mac := mac e; valid := false; timestamp := now; resolution := resolution e |} in
      Ok (Some (e, set_table (<[ip := e]> (table s)) s))
  end.

(** [arp_update_table] with a hardware address: the packets that wait are sent in
    the order of the queue. *)
Definition arp_update_table (now ip m : Z) (no_update : bool) (s : net_pv_arp_s) : outcome (list output * net_pv_arp_s) :=
  r ← table_entry ip no_update s;
  match r with
  | None => Ok ([], s)
  | Some (e, s) =>
      let e' := {| eid := eid e; mac := m; valid := true; timestamp := now; resolution := None |} in
      match resolution e with
      | None => Ok ([], set_table (<[ip := e']> (table s)) s)
      | Some r =>
          res ← of_option FBounds (resolutions s !! r);
          Ok (if_sendpkt (res_if res) ip m <$> wait res,
              {| table := <[ip := e']> (table s); resolutions := delete r (resolutions s); timers := timers s ∖ {[r]}; fresh := fresh s |})
      end
  end.

Definition request (ifc : nat) (ip : Z) : list output := if packet_obj_new then [arp_request ifc ip] else [].

(** The second half of [arp_get_mac]: a resolution for the entry, which is
    created or refreshed, and the first request. *)
Definition resolve (ifc : nat) (packet : P) (ip : Z) (e : arp_entry_s) (s : net_pv_arp_s) : list output * net_pv_arp_s :=
  let set r := <[ip := {| eid := eid e; mac := mac e; valid := valid e; timestamp := timestamp e; resolution := r |}]> (table s) in
  if negb mem_alloc then ([], set_table (set None) s)
  else
    let r := fresh s in
    let res := {| wait := [packet]; retry := 0; res_if := ifc; res_ip := ip; res_entry := eid e |} in
    (request ifc ip,
     {| table := set (Some r); resolutions := <[r := res]> (resolutions s); timers := timers s ∪ {[r]}; fresh := S r |}).

(** The hardware address for [ip], or [None] when the packet waits for it.  [addr],
    [ifc] and [ifmac] are the address of the IP instance, its interface and the
    hardware address of that. *)
Definition arp_get_mac (addr : Z) (ifc : nat) (ifmac now : Z) (packet : P) (ip : Z) (s : net_pv_arp_s)
    : outcome (option Z * list output * net_pv_arp_s) :=
  if ip =? addr then Ok (Some ifmac, [], s)
  else if ip =? 0xffffffff then Ok (Some BROADCAST, [], s)
  else
    match table s !! ip with
    | Some e =>
        if wrapu w (now - timestamp e) <? ARP_ENTRY_TIMEOUT then
          if valid e then Ok (Some (mac e), [], s)
          else
            r ← of_option FBounds (resolution e);
            res ← of_option FBounds (resolutions s !! r);
            let res := {| wait := wait res ++ [packet]; retry := retry res; res_if := res_if res; res_ip := res_ip res; res_entry := res_entry res |} in
            Ok (None, [], {| table := table s; resolutions := <[r := res]> (resolutions s); timers := timers s; fresh := fresh s |})
        else
          let e := {| eid := eid e; mac := mac e; valid := false; timestamp := timestamp e; resolution := resolution e |} in
          let '(o, s) := resolve ifc packet ip e s in Ok (None, o, s)
    | None =>
        r ← arp_update_progress now ip s;
        match r with
        | None => Ok (None, [], s)
        | Some (e, s) => let '(o, s) := resolve ifc packet ip e s in Ok (None, o, s)
        end
    end.

(** The timeout of the resolution [r], whose event the timer has unlinked: the
    callback finds the entry through the event and the resolution through the
    entry. *)
Definition arp_timeout (r : nat) (s : net_pv_arp_s) : outcome (list output * net_pv_arp_s) :=
  ev ← of_option FBounds (resolutions s !! r);
  let s := {| table := table s; resolutions := resolutions s; timers := timers s ∖ {[r]}; fresh := fresh s |} in
  let ip := res_ip ev in
  entry ← of_option FBounds (table s !! ip);
  _ ← require (eid entry =? res_entry ev)%nat FBounds;
  r' ← of_option FBounds (resolution entry);
  res ← of_option FBounds (resolutions s !! r');
  let res := {| wait := wait res; retry := retry res + 1; res_if := res_if res; res_ip := res_ip res; res_entry := res_entry res |} in
  let s := {| table := table s; resolutions := <[r' := res]> (resolutions s); timers := timers s; fresh := fresh s |} in
  if retry res <? ARP_MAX_RETRIES then
    Ok (request (res_if res) ip, {| table := table s; resolutions := resolutions s; timers := timers s ∪ {[r]}; fresh := fresh s |})
  else Ok (errormsg ip <$> wait res, arp_entry_obj_delete ip entry s).

(** The entries that are valid and too old are deleted. *)
Definition stale (now : Z) (e : arp_entry_s) : bool := valid e && (ARP_ENTRY_TIMEOUT <? wrapu w (now - timestamp e)).
Definition arp_stale_timeout (now : Z) (s : net_pv_arp_s) : net_pv_arp_s :=
  foldr (λ '(ip, e) s, if stale now e then arp_entry_obj_delete ip e s else s) s (map_to_list (table s)).

(** A received message: the operation, the sender and the address that is asked
    for; [addrs] are the addresses of the IP instances of the interface. *)
Inductive arp_op := ARPOP_REQUEST | ARPOP_REPLY | ARPOP_OTHER.
Definition arp_pushpkt (addrs : list Z) (now : Z) (op : arp_op) (spa sha tpa : Z) (s : net_pv_arp_s) : outcome (list output * net_pv_arp_s) :=
  match op with
  | ARPOP_REQUEST =>
      if bool_decide (tpa ∈ addrs) then
        '(o, s) ← arp_update_table now spa sha false s; Ok (o ++ [arp_reply spa sha], s)
      else if negb (tpa =? 0) then arp_update_table now spa sha true s
      else Ok ([], s)
  | ARPOP_REPLY => arp_update_table now spa sha false s
  | ARPOP_OTHER => Ok ([], s)
  end.
End arp.

Arguments net_pv_arp_s : clear implicits.
Arguments arp_resolution_s : clear implicits.
Arguments output : clear implicits.

(** ** Traffic *)

Section traffic.
Context {P : Type} (w : Z) (addr : Z) (ifc : nat) (ifmac : Z) (addrs : list Z).

(** The protocol with its history: the packets that were made to wait, with their
    targets; those that were sent, with the hardware address, or given up; and the
    hardware addresses that were announced by messages. *)
Record world := { arp : net_pv_arp_s P; held : list (Z * P); gone : list (Z * option Z * P); announced : list (Z * Z) }.

Definition winit : world := {| arp := {| table := ∅; resolutions := ∅; timers := ∅; fresh := 0 |}; held := []; gone := []; announced := [] |}.

Definition disposed (o : list (output P)) : list (Z * option Z * P) :=
  omap (λ x, match x with if_sendpkt _ ip m p => Some (ip, Some m, p) | errormsg ip p => Some (ip, None, p) | _ => None end) o.

Inductive op :=
  | OGet (now : Z) (packet : P) (ip : Z)
  | OPush (now : Z) (kind : arp_op) (spa sha tpa : Z)
  | OTimeout (r : nat)
  | OStale (now : Z).

(** The result of a request for an address is [answer]. *)
Definition run_op (o : op) (s : world) : outcome (option Z * world) :=
  match o with
  | OGet now packet ip =>
      '(m, out, a) ← arp_get_mac w true true true addr ifc ifmac now packet ip (arp s);
      Ok (m, {| arp := a; held := held s ++ (if m is None then [(ip, packet)] else []); gone := gone s ++ disposed out; announced := announced s |})
  | OPush now kind spa sha tpa =>
      '(out, a) ← arp_pushpkt true addrs now kind spa sha tpa (arp s);
      Ok (None, {| arp := a; held := held s; gone := gone s ++ disposed out; announced := announced s ++ [(spa, sha)] |})
  | OTimeout r =>
      '(out, a) ← arp_timeout true r (arp s);
      Ok (None, {| arp := a; held := held s; gone := gone s ++ disposed out; announced := announced s |})
  | OStale now => Ok (None, {| arp := arp_stale_timeout w now (arp s); held := held s; gone := gone s; announced := announced s |})
  end.

Definition host_address (ip : Z) : Prop := ip ≠ 0 ∧ ip ≠ 0xffffffff ∧ ip ≠ 0x7f000001.

(** The traffic the theorems are about: packets for hosts, messages whose sender has a
    host address, timers that are set; and no packet for a host whose address is being
    asked for with an expired time stamp, that is no second packet for a host while its
    expired entry is refreshed ([refresh_loses_packet] shows what that does). *)
Definition allowed (o : op) (s : world) : Prop :=
  match o with
  | OGet now _ ip => ip ≠ 0 ∧ ip ≠ 0x7f000001 ∧
      ∀ e, table (arp s) !! ip = Some e → valid e = false → wrapu w (now - timestamp e) < ARP_ENTRY_TIMEOUT
  | OPush _ _ spa _ _ => host_address spa
  | OTimeout r => r ∈ timers (arp s)
  | OStale _ => True
  end.

Inductive reachable : world → Prop :=
  | reach_init : reachable winit
  | reach_step o s m s' : reachable s → allowed o s → run_op o s = Ok (m, s') → reachable s'.

(** ** The invariant *)

(** The packets that wait for the address of [ip]. *)
Definition waiting (a : net_pv_arp_s P) (ip : Z) : list P :=
  match table a !! ip with
  | Some e => match resolution e with Some r => match resolutions a !! r with Some res => wait res | None => [] end | None => [] end
  | None => []
  end.

(** An entry is valid, or it is being asked for, with its timer set. *)
Definition entry_ok (a : net_pv_arp_s P) (ip : Z) (e : arp_entry_s) : Prop :=
  match resolution e with
  | None => valid e = true
  | Some r => valid e = false ∧ r ∈ timers a ∧ ∃ res, resolutions a !! r = Some res ∧ res_ip res = ip ∧ res_entry res = eid e ∧ 0 ≤ retry res < ARP_MAX_RETRIES
  end.

Record arp_inv (a : net_pv_arp_s P) : Prop := {
  ai_entry : ∀ ip e, table a !! ip = Some e → entry_ok a ip e;
  ai_back : ∀ r res, resolutions a !! r = Some res → ∃ e, table a !! res_ip res = Some e ∧ resolution e = Some r;
  ai_timers : ∀ r, r ∈ timers a → is_Some (resolutions a !! r);
  ai_fresh : ∀ r res, resolutions a !! r = Some res → (r < fresh a)%nat }.

(** The history of [ip]. *)
Definition held_for (ip : Z) (l : list (Z * P)) : list P := omap (λ x, if x.1 =? ip then Some x.2 else None) l.
Definition gone_for (ip : Z) (l : list (Z * option Z * P)) : list P := omap (λ x, if x.1.1 =? ip then Some x.2 else None) l.

Record inv (s : world) : Prop := {
  wi_arp : arp_inv (arp s);
  wi_order : ∀ ip, held_for ip (held s) = gone_for ip (gone s) ++ waiting (arp s) ip;
  wi_mac : ∀ ip e, table (arp s) !! ip = Some e → valid e = true → (ip, mac e) ∈ announced s;
  wi_sent : ∀ ip m p, (ip, Some m, p) ∈ gone s → (ip, m) ∈ announced s }.

Lemma held_for_app ip l l' : held_for ip (l ++ l') = held_for ip l ++ held_for ip l'.
Proof. apply omap_app. Qed.
Lemma gone_for_app ip l l' : gone_for ip (l ++ l') = gone_for ip l ++ gone_for ip l'.
Proof. apply omap_app. Qed.

(** ** The operations keep the invariant *)

Lemma entry_res a ip e r : arp_inv a → table a !! ip = Some e → resolution e = Some r →
  valid e = false ∧ r ∈ timers a ∧ ∃ res, resolutions a !! r = Some res ∧ res_ip res = ip ∧ res_entry res = eid e ∧ 0 ≤ retry res < ARP_MAX_RETRIES.
Proof. intros Ha He Er. pose proof (ai_entry a Ha ip e He) as H. unfold entry_ok in H. by rewrite Er in H. Qed.

Lemma res_unique a ip ip' e e' r :
  arp_inv a → table a !! ip = Some e → table a !! ip' = Some e' → resolution e = Some r → resolution e' = Some r → ip' = ip.
Proof.
  intros Ha He He' Er Er'. destruct (entry_res a ip e r Ha He Er) as (_ & _ & res & R & <- & _).
  destruct (entry_res a ip' e' r Ha He' Er') as (_ & _ & res' & R' & <- & _). congruence.
Qed.

(** What waits for an address depends on its entry and on the resolution of that. *)
Lemma waiting_frame a a' ip :
  table a' !! ip = table a !! ip → (∀ e r, table a !! ip = Some e → resolution e = Some r → resolutions a' !! r = resolutions a !! r) →
  waiting a' ip = waiting a ip.
Proof.
  intros Ht Hr. unfold waiting. rewrite Ht. destruct (table a !! ip) as [e|] eqn:E; [|done].
  destruct (resolution e) as [r|] eqn:Er; [|done]. by rewrite (Hr e r).
Qed.

Lemma entry_ok_frame a a' ip e :
  entry_ok a ip e → (∀ r, resolution e = Some r → resolutions a' !! r = resolutions a !! r ∧ (r ∈ timers a → r ∈ timers a')) → entry_ok a' ip e.
Proof.
  intros H Hr. unfold entry_ok in *. destruct (resolution e) as [r|]; [|done]. destruct (Hr r eq_refl) as [-> Ht]. destruct H as (? & ? & ?). auto.
Qed.

(** The entry of [ip] becomes valid and what waits for it is disposed of, or the
    entry is removed with what waits for it. *)
Definition close_entry (ip : Z) (new : option arp_entry_s) (a : net_pv_arp_s P) : net_pv_arp_s P :=
  let t := match new with Some e => <[ip := e]> (table a) | None => delete ip (table a) end in
  match table a !! ip with
  | Some e =>
      match resolution e with
      | Some r => {| table := t; resolutions := delete r (resolutions a); timers := timers a ∖ {[r]}; fresh := fresh a |}
      | None => set_table t a
      end
  | None => set_table t a
  end.

Lemma close_table ip new a ip' : table (close_entry ip new a) !! ip' = if decide (ip' = ip) then new else table a !! ip'.
Proof.
  assert (table (close_entry ip new a) = match new with Some e => <[ip := e]> (table a) | None => delete ip (table a) end) as ->
    by (unfold close_entry; by repeat case_match).
  destruct (decide (ip' = ip)) as [->|Hne], new; by rewrite ?lookup_insert_eq, ?lookup_delete_eq, ?lookup_insert_ne, ?lookup_delete_ne.
Qed.

Lemma close_res ip new a r :
  arp_inv a → (∀ ip' e, ip' ≠ ip → table a !! ip' = Some e → resolution e = Some r →
    resolutions (close_entry ip new a) !! r = resolutions a !! r ∧ (r ∈ timers a → r ∈ timers (close_entry ip new a))).
Proof.
  intros Ha ip' e Hne He Er. unfold close_entry. destruct (table a !! ip) as [e0|] eqn:E0; [|done].
  destruct (resolution e0) as [r0|] eqn:Er0; [|done]. cbn [resolutions timers].
  assert (r0 ≠ r) by (intros ->; apply Hne; by apply (res_unique a ip ip' e0 e r)). rewrite lookup_delete_ne by done. set_solver.
Qed.

Lemma close_inv ip new a :
  arp_inv a → (∀ e, new = Some e → valid e = true ∧ resolution e = None) → arp_inv (close_entry ip new a).
Proof.
  intros Ha Hnew. split.
  - intros ip' e. rewrite close_table. destruct (decide (ip' = ip)) as [->|Hne].
    + intros ->. destruct (Hnew e eq_refl) as [Hv Hr]. unfold entry_ok. by rewrite Hr.
    + intros He. apply (entry_ok_frame a); [by apply (ai_entry a Ha)|]. intros r Er. by apply (close_res ip new a r Ha ip' e).
  - intros r res Hr. assert (resolutions a !! r = Some res ∧ ∀ e, table a !! ip = Some e → resolution e ≠ Some r) as [Hr' Hno].
    { unfold close_entry in Hr. destruct (table a !! ip) as [e0|] eqn:E0; [|done].
      destruct (resolution e0) as [r0|] eqn:Er0; cbn [resolutions set_table] in Hr; [|split; [done|]; intros e [= <-]; congruence].
      apply lookup_delete_Some in Hr as [Hne Hr]. split; [done|]. intros e [= <-]. congruence. }
    destruct (ai_back a Ha r res Hr') as (e & He & Er). exists e. rewrite close_table. destruct (decide (res_ip res = ip)) as [E|]; [|done].
    rewrite E in He. by destruct (Hno e He).
  - intros r Hr. assert (r ∈ timers a ∧ ∀ e, table a !! ip = Some e → resolution e ≠ Some r) as [Hr' Hno].
    { unfold close_entry in Hr. destruct (table a !! ip) as [e0|] eqn:E0; [|done].
      destruct (resolution e0) as [r0|] eqn:Er0; cbn [timers set_table] in Hr; [|split; [done|]; intros e [= <-]; congruence].
      apply elem_of_difference in Hr as [Hr Hne]. split; [done|]. intros e [= <-] ?. assert (r0 = r) by congruence. set_solver. }
    destruct (ai_timers a Ha r Hr') as [res Hres]. destruct (ai_back a Ha r res Hres) as (e & He & Er).
    assert (res_ip res ≠ ip) as Hne by (intros E; rewrite E in He; by apply (Hno e)).
    destruct (close_res ip new a r Ha (res_ip res) e Hne He Er) as [-> _]. by exists res.
  - intros r res Hr. assert (resolutions a !! r = Some res) as Hr'.
    { unfold close_entry in Hr. destruct (table a !! ip) as [e0|]; [destruct (resolution e0)|]; cbn [resolutions set_table] in Hr; [|done|done].
      by apply lookup_delete_Some in Hr as [_ ?]. }
    assert (fresh (close_entry ip new a) = fresh a) as -> by (unfold close_entry; by repeat case_match). by apply (ai_fresh a Ha r res).
Qed.

Lemma close_waiting ip new a ip' :
  arp_inv a → (∀ e, new = Some e → resolution e = None) →
  waiting (close_entry ip new a) ip' = if decide (ip' = ip) then [] else waiting a ip'.
Proof.
  intros Ha Hnew. destruct (decide (ip' = ip)) as [->|Hne].
  - unfold waiting. rewrite close_table, decide_True by done. destruct new as [e|]; [by rewrite (Hnew e eq_refl)|done].
  - apply waiting_frame; [by rewrite close_table, decide_False|]. intros e r He Er. by apply (close_res ip new a r Ha ip' e Hne He Er).
Qed.

Lemma fresh_inv a n : arp_inv a → (fresh a ≤ n)%nat →
  arp_inv {| table := table a; resolutions := resolutions a; timers := timers a; fresh := n |}.
Proof.
  intros [] Hn. split; cbn [table resolutions timers fresh]; try done. intros r res Hr. specialize (ai_fresh0 r res Hr). lia.
Qed.

Lemma disposed_send i ip m (l : list P) : disposed (if_sendpkt i ip m <$> l) = (λ p, (ip, Some m, p)) <$> l.
Proof. unfold disposed. induction l as [|p l IH]; [done|]. cbn. by f_equal. Qed.
Lemma disposed_error ip (l : list P) : disposed (errormsg ip <$> l) = (λ p, (ip, None, p)) <$> l.
Proof. unfold disposed. induction l as [|p l IH]; [done|]. cbn. by f_equal. Qed.
Lemma gone_for_batch ip ip' m (l : list P) : gone_for ip' ((λ p, (ip, m, p)) <$> l) = if decide (ip' = ip) then l else [].
Proof.
  unfold gone_for. induction l as [|p l IH]; cbn; [by destruct (decide _)|]. rewrite IH.
  destruct (Z.eqb_spec ip ip') as [->|]; destruct (decide _); done || congruence.
Qed.

(** A message of [ip]: the entry is valid with the hardware address, the packets
    that waited are sent in their order. *)
Lemma arp_update_spec now ip m no_update a :
  arp_inv a → host_address ip →
  ∃ o a', arp_update_table true now ip m no_update a = Ok (o, a') ∧ arp_inv a' ∧
    ((o = [] ∧ a' = a) ∨
     disposed o = (λ p, (ip, Some m, p)) <$> waiting a ip ∧
     (∀ ip', waiting a' ip' = if decide (ip' = ip) then [] else waiting a ip') ∧
     ∃ e', mac e' = m ∧ valid e' = true ∧ ∀ ip', table a' !! ip' = if decide (ip' = ip) then Some e' else table a !! ip').
Proof.
  intros Ha (H0 & H1 & H2). unfold arp_update_table, table_entry. destruct (Z.eqb_spec ip 0); [done|]. cbn [negb require mbind outcome_bind].
  destruct (table a !! ip) as [e|] eqn:He.
  - cbn [mbind outcome_bind]. destruct no_update; [exists [], a; auto|].
    set (e' := {| eid := eid e; mac := m; valid := true; timestamp := now; resolution := None |}).
    assert (∀ o, disposed o = (λ p, (ip, Some m, p)) <$> waiting a ip →
      ∃ o0 a', Ok (o, close_entry ip (Some e') a) = Ok (o0, a') ∧ arp_inv a' ∧ ((o0 = [] ∧ a' = a) ∨
       disposed o0 = (λ p, (ip, Some m, p)) <$> waiting a ip ∧ (∀ ip', waiting a' ip' = if decide (ip' = ip) then [] else waiting a ip') ∧
       ∃ e', mac e' = m ∧ valid e' = true ∧ ∀ ip', table a' !! ip' = if decide (ip' = ip) then Some e' else table a !! ip')) as Hclose.
    { intros o Ho. eexists _, _. split; [done|]. split; [apply close_inv; [done|by intros ? [= <-]]|]. right. split; [done|].
      split; [intros ip'; apply close_waiting; [done|by intros ? [= <-]]|]. exists e'. split_and!; [done|done|]. intros ip'. apply close_table. }
    unfold close_entry in Hclose. rewrite He in Hclose. destruct (resolution e) as [r|] eqn:Er.
    + destruct (entry_res a ip e r Ha He Er) as (_ & _ & res & R & _). rewrite R. cbn [of_option mbind outcome_bind].
      apply Hclose. rewrite disposed_send. unfold waiting. by rewrite He, Er, R.
    + apply Hclose. unfold waiting. by rewrite He, Er.
  - destruct (Z.eqb_spec ip 0xffffffff), (Z.eqb_spec ip 0x7f000001); try done. cbn [negb andb require mbind outcome_bind resolution eid].
    eexists _, _. split; [done|]. set (e' := {| eid := _; mac := m |}).
    assert (arp_inv {| table := table (close_entry ip (Some e') a); resolutions := resolutions (close_entry ip (Some e') a);
      timers := timers (close_entry ip (Some e') a); fresh := S (fresh a) |}) as Hinv.
    { apply fresh_inv; [apply close_inv; [done|by intros ? [= <-]]|]. unfold close_entry. rewrite He. cbn. lia. }
    unfold close_entry in Hinv. rewrite He in Hinv. unfold set_table in *. cbn [table resolutions timers fresh] in Hinv |- *.
    rewrite insert_insert_eq. split; [done|]. right. split; [unfold waiting; by rewrite He|].
    assert (∀ ip', <[ip := e']> (table a) !! ip' = if decide (ip' = ip) then Some e' else table a !! ip') as Ht.
    { intros ip'. destruct (decide (ip' = ip)) as [->|]; [by rewrite lookup_insert_eq|by rewrite lookup_insert_ne]. }
    split; [|by exists e']. intros ip'. destruct (decide (ip' = ip)) as [->|Hne].
    + unfold waiting. cbn [table]. by rewrite lookup_insert_eq.
    + apply waiting_frame; cbn [table resolutions]; [by rewrite lookup_insert_ne|done].
Qed.

(** A resolution begins for an entry that has none. *)
Lemma resolve_spec packet ip e a :
  arp_inv a → valid e = false → (∀ e0, table a !! ip = Some e0 → resolution e0 = None) →
  let a' := (resolve true true ifc packet ip e a).2 in
  arp_inv a' ∧ (∀ ip', waiting a' ip' = if decide (ip' = ip) then [packet] else waiting a ip') ∧
  ∀ ip' e', table a' !! ip' = Some e' → valid e' = true → ip' ≠ ip ∧ table a !! ip' = Some e'.
Proof.
  intros Ha Hv Hno a'. unfold a', resolve. cbn [negb snd]. clear a'. remember (fresh a) as r eqn:Hfr in *.
  assert (resolutions a !! r = None) as Hr by (destruct (resolutions a !! r) as [res|] eqn:E; [pose proof (ai_fresh a Ha r res E); lia|done]).
  assert (∀ ip' e', table a !! ip' = Some e' → resolution e' ≠ Some r) as Hfree.
  { intros ip' e' He' Er. destruct (entry_res a ip' e' r Ha He' Er) as (_ & _ & res & R & _). congruence. }
  set (e1 := {| eid := eid e |}). split_and!.
  - split; cbn [table resolutions timers fresh].
    + intros ip' e'. destruct (decide (ip' = ip)) as [->|Hne].
      * rewrite lookup_insert_eq. intros [= <-]. unfold entry_ok, e1. cbn [resolution valid timers resolutions].
        split; [done|]. split; [set_solver|]. rewrite lookup_insert_eq. eexists. split; [done|]. cbn. unfold ARP_MAX_RETRIES. lia.
      * rewrite lookup_insert_ne by done. intros He'. apply (entry_ok_frame a); [by apply (ai_entry a Ha)|].
        intros r' Er'. cbn [resolutions timers]. rewrite lookup_insert_ne by (intros ->; by apply (Hfree ip' e')). set_solver.
    + intros r' res'. destruct (decide (r' = r)) as [->|Hne].
      * rewrite lookup_insert_eq. intros [= <-]. cbn [res_ip]. exists e1. by rewrite lookup_insert_eq.
      * rewrite lookup_insert_ne by done. intros R'. destruct (ai_back a Ha r' res' R') as (e' & He' & Er'). exists e'.
        rewrite lookup_insert_ne; [done|]. intros E. rewrite <-E in He'. by rewrite (Hno e' He') in Er'.
    + intros r' Hr'. destruct (decide (r' = r)) as [->|Hne]; [rewrite lookup_insert_eq; eauto|]. rewrite lookup_insert_ne by done.
      apply (ai_timers a Ha). set_solver.
    + intros r' res'. destruct (decide (r' = r)) as [->|Hne]; [lia|]. rewrite lookup_insert_ne by done. intros R'.
      pose proof (ai_fresh a Ha r' res' R'). lia.
  - intros ip'. destruct (decide (ip' = ip)) as [->|Hne].
    + unfold waiting. cbn [table resolutions]. rewrite lookup_insert_eq. unfold e1. cbn [resolution]. by rewrite lookup_insert_eq.
    + apply waiting_frame; cbn [table resolutions]; [by rewrite lookup_insert_ne|]. intros e' r' He' Er'.
      rewrite lookup_insert_ne; [done|]. intros ->. by apply (Hfree ip' e').
  - cbn [table]. intros ip' e'. destruct (decide (ip' = ip)) as [->|Hne]; [rewrite lookup_insert_eq; intros [= <-] Hv'; unfold e1 in Hv'; cbn in Hv'; congruence|].
    rewrite lookup_insert_ne by done. done.
Qed.

(** The resolution of an entry changes: its queue or its count of requests. *)
Definition touch (r : nat) (res : arp_resolution_s P) (a : net_pv_arp_s P) : net_pv_arp_s P :=
  {| table := table a; resolutions := <[r := res]> (resolutions a); timers := timers a; fresh := fresh a |}.

Lemma touch_spec r res res' ip e a :
  arp_inv a → table a !! ip = Some e → resolution e = Some r → resolutions a !! r = Some res →
  res_ip res' = res_ip res → res_entry res' = res_entry res → 0 ≤ retry res' < ARP_MAX_RETRIES →
  arp_inv (touch r res' a) ∧ ∀ ip', waiting (touch r res' a) ip' = if decide (ip' = ip) then wait res' else waiting a ip'.
Proof.
  intros Ha He Er R Eip Eid Hretry. split; [split|]; unfold touch; cbn [table resolutions timers fresh].
  - intros ip' e' He'. pose proof (ai_entry a Ha ip' e' He') as Hok. unfold entry_ok in *. cbn [timers resolutions]. destruct (resolution e') as [r'|]; [|done].
    destruct Hok as (? & ? & res0 & R0 & ? & ? & ?). split_and!; [done|done|]. destruct (decide (r' = r)) as [->|].
    + rewrite lookup_insert_eq. exists res'. rewrite R in R0. injection R0 as <-. rewrite Eip, Eid. done.
    + rewrite lookup_insert_ne by done. by exists res0.
  - intros r' res0. destruct (decide (r' = r)) as [->|]; [rewrite lookup_insert_eq; intros [= <-]; rewrite Eip; by apply (ai_back a Ha)|].
    rewrite lookup_insert_ne by done. apply (ai_back a Ha).
  - intros r' Hr'. destruct (decide (r' = r)) as [->|]; [rewrite lookup_insert_eq; eauto|]. rewrite lookup_insert_ne by done. by apply (ai_timers a Ha).
  - intros r' res0. destruct (decide (r' = r)) as [->|]; [intros _; by apply (ai_fresh a Ha r res)|]. rewrite lookup_insert_ne by done. apply (ai_fresh a Ha).
  - intros ip'. destruct (decide (ip' = ip)) as [->|Hne].
    + unfold waiting. cbn [table resolutions]. by rewrite He, Er, lookup_insert_eq.
    + apply waiting_frame; cbn [table resolutions]; [done|]. intros e' r' He' Er'.
      rewrite lookup_insert_ne; [done|]. intros ->. apply Hne. by apply (res_unique a ip ip' e e' r').
Qed.

(** A packet for [ip]. *)
Lemma arp_get_spec now packet ip a :
  arp_inv a → ip ≠ 0 → ip ≠ 0x7f000001 →
  (∀ e, table a !! ip = Some e → valid e = false → wrapu w (now - timestamp e) < ARP_ENTRY_TIMEOUT) →
  ∃ m o a', arp_get_mac w true true true addr ifc ifmac now packet ip a = Ok (m, o, a') ∧ arp_inv a' ∧ disposed o = [] ∧
    (∀ ip', waiting a' ip' = waiting a ip' ++ if m is None then if decide (ip' = ip) then [packet] else [] else []) ∧
    (∀ ip' e, table a' !! ip' = Some e → valid e = true → table a !! ip' = Some e) ∧
    ∀ m', m = Some m' → ip = addr ∧ m' = ifmac ∨ ip = 0xffffffff ∧ m' = BROADCAST ∨
      ∃ e, table a !! ip = Some e ∧ valid e = true ∧ mac e = m' ∧ wrapu w (now - timestamp e) < ARP_ENTRY_TIMEOUT.
Proof.
  intros Ha H0 H1 Hexp. unfold arp_get_mac.
  assert (∀ ip', waiting a ip' = waiting a ip' ++ []) as Hsame by (intros; by rewrite app_nil_r).
  destruct (Z.eqb_spec ip addr) as [->|]; [eexists _, _, _; split_and!; [done|done|done|exact Hsame|done|]; intros m' [= <-]; auto|].
  destruct (Z.eqb_spec ip 0xffffffff) as [->|]; [eexists _, _, _; split_and!; [done|done|done|exact Hsame|done|]; intros m' [= <-]; auto|].
  assert (∀ e, valid e = false → (∀ e0, table a !! ip = Some e0 → resolution e0 = None) → waiting a ip = []) as Hw.
  { intros e _ Hno. unfold waiting. destruct (table a !! ip) as [e0|] eqn:E; [by rewrite (Hno e0)|done]. }
  destruct (table a !! ip) as [e|] eqn:He.
  - destruct (Z.ltb_spec (wrapu w (now - timestamp e)) ARP_ENTRY_TIMEOUT) as [Hlt|Hge].
    + destruct (valid e) eqn:Hv; [eexists _, _, _; split_and!; [done|done|done|exact Hsame|done|]; intros m' [= <-]; right; right; by exists e|].
      pose proof (ai_entry a Ha ip e He) as Hok. unfold entry_ok in Hok. destruct (resolution e) as [r|] eqn:Er; [|congruence].
      destruct Hok as (_ & Hr & res & R & Eip & Eid & Hretry). cbn [of_option mbind outcome_bind]. rewrite R. cbn [of_option mbind outcome_bind].
      set (res' := {| wait := wait res ++ [packet] |}).
      destruct (touch_spec r res res' ip e a Ha He Er R eq_refl eq_refl Hretry) as [T1 T2].
      eexists _, _, _. split; [done|]. split_and!; [done|done| |done|done]. intros ip'. fold (touch r res' a). rewrite T2.
      destruct (decide (ip' = ip)) as [->|Hne]; [|by rewrite app_nil_r]. unfold waiting. by rewrite He, Er, R.
    + assert (valid e = true) as Hv by (destruct (valid e) eqn:Hv; [done|]; specialize (Hexp e eq_refl Hv); lia).
      assert (resolution e = None) as Er.
      { pose proof (ai_entry a Ha ip e He) as Hok. unfold entry_ok in Hok. destruct (resolution e); [|done]. destruct Hok as [? _]. congruence. }
      set (e1 := {| eid := eid e |}). destruct (resolve_spec packet ip e1 a Ha eq_refl) as (R1 & R2 & R3); [intros e0; rewrite He; by intros [= <-]|].
      destruct (resolve true true ifc packet ip e1 a) as [o a'] eqn:E. cbn [snd] in *. eexists _, _, _. split; [done|].
      split_and!; [done|by injection E as <- _| | |done].
      * intros ip'. rewrite R2. destruct (decide (ip' = ip)) as [->|]; [|by rewrite app_nil_r]. by rewrite (Hw e1) by (done || by intros e0 [= <-]).
      * intros ip' e' He' Hv'. by apply R3.
  - unfold arp_update_progress, table_entry. destruct (Z.eqb_spec ip 0); [done|]. cbn [negb require mbind outcome_bind]. rewrite He.
    destruct (Z.eqb_spec ip 0xffffffff), (Z.eqb_spec ip 0x7f000001); try done. cbn [negb andb require mbind outcome_bind].
    set (e1 := {| eid := fresh a; mac := 0; valid := false; timestamp := now; resolution := None |}).
    set (a2 := {| table := table a; resolutions := resolutions a; timers := timers a; fresh := S (fresh a) |}).
    match goal with |- context [resolve true true ifc packet ip ?e ?x] =>
      assert (resolve true true ifc packet ip e x = resolve true true ifc packet ip e1 a2) as -> end.
    { unfold resolve, set_table, a2. cbn [negb table resolutions timers fresh]. by rewrite !insert_insert_eq. }
    destruct (resolve_spec packet ip e1 a2) as (R1 & R2 & R3); [apply fresh_inv; [done|lia]|done|intros e0; cbn [a2 table]; by rewrite He|].
    destruct (resolve true true ifc packet ip e1 a2) as [o a'] eqn:E. cbn [snd] in *. eexists _, _, _. split; [done|].
    split_and!; [done|by injection E as <- _| | |done].
    + intros ip'. rewrite R2. change (waiting a2 ip') with (waiting a ip').
      destruct (decide (ip' = ip)) as [->|]; [|by rewrite app_nil_r]. by rewrite (Hw e1) by done.
    + intros ip' e' He' Hv'. by apply R3.
Qed.

(** The timeout of a resolution: the request is repeated, or given up for all the
    packets that wait. *)
Definition retried (res : arp_resolution_s P) : arp_resolution_s P :=
  {| wait := wait res; retry := retry res + 1; res_if := res_if res; res_ip := res_ip res; res_entry := res_entry res |}.

Lemma timeout_spec r a :
  arp_inv a → r ∈ timers a →
  ∃ e res, let ip := res_ip res in resolutions a !! r = Some res ∧ table a !! ip = Some e ∧ resolution e = Some r ∧ waiting a ip = wait res ∧
    0 ≤ retry res < ARP_MAX_RETRIES ∧
    arp_timeout true r a =
      if retry res + 1 <? ARP_MAX_RETRIES then Ok ([arp_request (res_if res) ip], touch r (retried res) a)
      else Ok (errormsg ip <$> wait res, close_entry ip None a).
Proof.
  intros Ha Hr. destruct (ai_timers a Ha r Hr) as [res R]. destruct (ai_back a Ha r res R) as (e & He & Er).
  destruct (entry_res a (res_ip res) e r Ha He Er) as (_ & _ & res0 & R0 & _ & Eid & Hretry). rewrite R in R0. injection R0 as <-.
  exists e, res. cbv zeta. split_and!; try done; [unfold waiting; by rewrite He, Er, R|lia|lia|].
  unfold arp_timeout. rewrite R. cbn [of_option mbind outcome_bind table resolutions timers fresh]. rewrite He. cbn [of_option mbind outcome_bind].
  rewrite Eid, Nat.eqb_refl. cbn [require mbind outcome_bind]. rewrite Er. cbn [of_option mbind outcome_bind]. rewrite R.
  cbn [of_option mbind outcome_bind retry wait res_if]. destruct (Z.ltb_spec (retry res + 1) ARP_MAX_RETRIES).
  - unfold touch, request. do 3 f_equal. apply set_eq. intros x. destruct (decide (x = r)) as [->|]; set_solver.
  - unfold arp_entry_obj_delete, close_entry. rewrite Er, He, Er. cbn [table resolutions timers fresh]. rewrite delete_insert_eq. do 3 f_equal. set_solver.
Qed.

(** The cleaning of the table removes the stale entries, which nobody waits for. *)
Lemma stale_fold now l : ∀ a : net_pv_arp_s P,
  (∀ ip e, (ip, e) ∈ l → stale w now e = true → resolution e = None) → NoDup l.*1 →
  foldr (λ '(ip, e) s, if stale w now e then arp_entry_obj_delete ip e s else s) a l =
    set_table (foldr (λ '(ip, e) t, if stale w now e then delete ip t else t) (table a) l) a.
Proof.
  induction l as [|[ip e] l IH]; intros a Hl Hnd; cbn [foldr]; [by destruct a|]. apply NoDup_cons in Hnd as [_ Hnd].
  rewrite IH; [|intros ip' e' H' H''; eapply Hl; [by apply list_elem_of_further|done]|done].
  destruct (stale w now e) eqn:E; [|done]. unfold arp_entry_obj_delete. rewrite (Hl ip e); [done|set_solver|done].
Qed.

Lemma stale_table now l (t : gmap Z arp_entry_s) ip :
  let t' := foldr (λ '(ip, e) t, if stale w now e then delete ip t else t) t l in
  (∀ e, (ip, e) ∈ l → stale w now e = true → t' !! ip = None) ∧ ((∀ e, (ip, e) ∈ l → stale w now e = false) → t' !! ip = t !! ip).
Proof.
  induction l as [|[ip' e'] l [IH1 IH2]]; cbn [foldr]; [split; [set_solver|done]|]. split.
  - intros e Hin Hst. destruct (decide (ip' = ip)) as [->|Hne].
    + destruct (stale w now e') eqn:E; [apply lookup_delete_eq|]. apply elem_of_cons in Hin as [[= ->]|Hin]; [congruence|by apply (IH1 e)].
    + apply elem_of_cons in Hin as [[= -> ->]|Hin]; [done|]. destruct (stale w now e'); [rewrite lookup_delete_ne by done|]; by apply (IH1 e).
  - intros Hno. assert (∀ e, (ip, e) ∈ l → stale w now e = false) as Hno' by (intros e ?; apply Hno; set_solver). specialize (IH2 Hno').
    destruct (stale w now e') eqn:E; [|done]. destruct (decide (ip' = ip)) as [->|Hne]; [by rewrite (Hno e') in E by set_solver|].
    by rewrite lookup_delete_ne.
Qed.

Lemma stale_spec now a : arp_inv a →
  let a' := arp_stale_timeout w now a in
  arp_inv a' ∧ (∀ ip, waiting a' ip = waiting a ip) ∧
  ∀ ip, table a' !! ip = (e ← table a !! ip; if stale w now e then None else Some e).
Proof.
  intros Ha a'. assert (∀ ip e, table a !! ip = Some e → stale w now e = true → resolution e = None) as Hst.
  { intros ip e He Hs. pose proof (ai_entry a Ha ip e He) as Hok. unfold entry_ok, stale in *. destruct (resolution e); [|done].
    destruct Hok as [Hv _]. by rewrite Hv in Hs. }
  set (t' := foldr (λ '(ip, e) t, if stale w now e then delete ip t else t) (table a) (map_to_list (table a))).
  assert (a' = set_table t' a) as ->.
  { apply stale_fold; [|apply NoDup_fst_map_to_list]. intros ip e Hin. apply Hst with ip. by apply elem_of_map_to_list. }
  assert (∀ ip, t' !! ip = (e ← table a !! ip; if stale w now e then None else Some e)) as Ht.
  { intros ip. destruct (stale_table now (map_to_list (table a)) (table a) ip) as [S1 S2]. fold t' in S1, S2.
    destruct (table a !! ip) as [e|] eqn:E; cbn [mbind option_bind].
    - destruct (stale w now e) eqn:Es; [apply (S1 e); [by apply elem_of_map_to_list|done]|].
      rewrite S2; [done|]. intros e0 He0. apply elem_of_map_to_list in He0. congruence.
    - rewrite S2; [done|]. intros e0 He0. apply elem_of_map_to_list in He0. congruence. }
  assert (∀ ip e r, table a !! ip = Some e → resolution e = Some r → t' !! ip = Some e) as Hkeep.
  { intros ip e r He Er. rewrite Ht, He. cbn [mbind option_bind]. destruct (stale w now e) eqn:Es; [|done]. rewrite (Hst ip e He Es) in Er. done. }
  split_and!; [|intros ip|done].
  - unfold set_table. split; cbn [table resolutions timers fresh]; [|intros r res R|apply (ai_timers a Ha)|apply (ai_fresh a Ha)].
    + intros ip e He. rewrite Ht in He. destruct (table a !! ip) as [e0|] eqn:E0; cbn [mbind option_bind] in He; [|done].
      destruct (stale w now e0); [done|]. injection He as ->. by apply (ai_entry a Ha).
    + destruct (ai_back a Ha r res R) as (e & He & Er). exists e. split; [by eapply Hkeep|done].
  - unfold waiting, set_table. cbn [table resolutions]. destruct (table a !! ip) as [e|] eqn:E.
    + destruct (resolution e) as [r|] eqn:Er; [by rewrite (Hkeep ip e r), Er by done|]. rewrite Ht, E. cbn [mbind option_bind].
      destruct (stale w now e); [done|]. by rewrite Er.
    + by rewrite Ht, E.
Qed.

(** ** Theorems *)

Lemma disposed_app (o o' : list (output P)) : disposed (o ++ o') = disposed o ++ disposed o'.
Proof. apply omap_app. Qed.

(** A message, whatever its kind. *)
Lemma arp_push_spec now kind spa sha tpa a :
  arp_inv a → host_address spa →
  ∃ o a', arp_pushpkt true addrs now kind spa sha tpa a = Ok (o, a') ∧ arp_inv a' ∧
    ((disposed o = [] ∧ a' = a) ∨
     disposed o = (λ p, (spa, Some sha, p)) <$> waiting a spa ∧
     (∀ ip', waiting a' ip' = if decide (ip' = spa) then [] else waiting a ip') ∧
     ∃ e', mac e' = sha ∧ valid e' = true ∧ ∀ ip', table a' !! ip' = if decide (ip' = spa) then Some e' else table a !! ip').
Proof.
  intros Ha Hspa. unfold arp_pushpkt.
  assert (∀ nu, ∃ o a', arp_update_table true now spa sha nu a = Ok (o, a') ∧ arp_inv a' ∧ ((disposed o = [] ∧ a' = a) ∨
     disposed o = (λ p, (spa, Some sha, p)) <$> waiting a spa ∧ (∀ ip', waiting a' ip' = if decide (ip' = spa) then [] else waiting a ip') ∧
     ∃ e', mac e' = sha ∧ valid e' = true ∧ ∀ ip', table a' !! ip' = if decide (ip' = spa) then Some e' else table a !! ip')) as Hu.
  { intros nu. destruct (arp_update_spec now spa sha nu a Ha Hspa) as (o & a' & E & Ha' & H). exists o, a'. split_and!; [done|done|].
    destruct H as [[-> ->]|H]; [by left|by right]. }
  destruct kind; [|apply Hu|by exists [], a; auto]. case_bool_decide.
  - destruct (Hu false) as (o & a' & -> & Ha' & H'). cbn [mbind outcome_bind]. exists (o ++ [arp_reply spa sha]), a'.
    rewrite disposed_app. cbn [disposed omap]. rewrite app_nil_r. auto.
  - destruct (tpa =? 0); cbn [negb]; [by exists [], a; auto|apply Hu].
Qed.

Lemma gone_mac ip m (l : list (Z * option Z * P)) (ws : list P) (an : list (Z * Z)) ip0 m0 :
  (∀ ip m p, (ip, Some m, p) ∈ l → (ip, m) ∈ an) → (m0 : option Z) = None ∨ (∃ x, m0 = Some x ∧ (ip0, x) ∈ an) →
  ∀ p, (ip, Some m, p) ∈ l ++ ((λ p, (ip0, m0, p)) <$> ws) → (ip, m) ∈ an.
Proof.
  intros Hl Hm p [Hin|Hin]%elem_of_app; [by eapply Hl|]. apply list_elem_of_fmap in Hin as (q & [= -> <- ->] & _).
  destruct Hm as [?|(x & [= ->] & ?)]; done.
Qed.

Lemma arp_step_ok o s : inv s → allowed o s → ∃ m s', run_op o s = Ok (m, s') ∧ inv s'.
Proof.
  intros [Ha Ho Hm Hs]. destruct o as [now packet ip|now kind spa sha tpa|r|now]; cbn [allowed run_op].
  - intros (H0 & H1 & Hexp). destruct (arp_get_spec now packet ip (arp s) Ha H0 H1 Hexp) as (m & o & a' & -> & Ha' & Ed & Hw & Hv & _).
    cbn [mbind outcome_bind]. eexists _, _. split; [done|]. split; cbn [arp held gone announced]; [done| |eauto|].
    + intros ip'. rewrite Ed, app_nil_r, Hw, held_for_app, Ho, app_assoc. f_equal. destruct m; [done|]. cbn.
      destruct (Z.eqb_spec ip ip') as [->|]; destruct (decide _); done || congruence.
    + rewrite Ed, app_nil_r. done.
  - intros Hspa. destruct (arp_push_spec now kind spa sha tpa (arp s) Ha Hspa) as (o & a' & -> & Ha' & H). cbn [mbind outcome_bind].
    eexists _, _. split; [done|]. destruct H as [[Ed ->]|(Ed & Hw & e' & Em & Ev & Ht)].
    + split; cbn [arp held gone announced]; rewrite ?Ed, ?app_nil_r; [done|done|set_solver|set_solver].
    + split; cbn [arp held gone announced]; rewrite ?Ed; [done| | |].
      * intros ip'. rewrite gone_for_app, gone_for_batch, Hw, Ho. destruct (decide (ip' = spa)) as [->|]; by rewrite ?app_nil_r.
      * intros ip e. rewrite Ht. destruct (decide (ip = spa)) as [->|]; [intros [= <-] _; rewrite Em; set_solver|]. intros He Hve. specialize (Hm ip e He Hve). set_solver.
      * intros ip m p. apply gone_mac; [intros ip1 m1 p1 Hin; specialize (Hs ip1 m1 p1 Hin); set_solver|right; exists sha; set_solver].
  - intros Hr. destruct (timeout_spec r (arp s) Ha Hr) as (e & res & R & He & Er & Hwt & Hretry & ->).
    destruct (Z.ltb_spec (retry res + 1) ARP_MAX_RETRIES); cbn [mbind outcome_bind]; eexists _, _; (split; [done|]).
    + destruct (touch_spec r res (retried res) (res_ip res) e (arp s) Ha He Er R) as [T1 T2]; [done|done|cbn; lia|].
      split; cbn [arp held gone announced disposed omap]; rewrite ?app_nil_r; [done| |done|done].
      intros ip'. rewrite T2, Ho. destruct (decide (ip' = res_ip res)) as [->|]; [by rewrite Hwt|done].
    + split; cbn [arp held gone announced]; rewrite ?disposed_error; [by apply close_inv| | |].
      * intros ip'. rewrite gone_for_app, gone_for_batch, close_waiting, Ho by done. destruct (decide (ip' = res_ip res)) as [->|]; by rewrite ?app_nil_r, ?Hwt.
      * intros ip e0. rewrite close_table. destruct (decide _); [done|]. apply Hm.
      * intros ip m p. apply gone_mac; [done|by left].
  - intros _. destruct (stale_spec now (arp s) Ha) as (Ha' & Hw & Ht). eexists _, _. split; [done|].
    split; cbn [arp held gone announced]; [done|intros ip; by rewrite Hw| |done].
    intros ip e. rewrite Ht. destruct (table (arp s) !! ip) as [e0|] eqn:E; cbn [mbind option_bind]; [|done].
    destruct (stale w now e0); [done|]. intros [= ->]. by apply Hm.
Qed.

Lemma arp_reachable_inv s : reachable s → inv s.
Proof.
  induction 1 as [|o s m s' _ IH Hal Hr].
  - split; [split|..]; cbn; set_solver.
  - destruct (arp_step_ok o s IH Hal) as (m2 & s2 & E & ?). congruence.
Qed.

(** C25. As long as memory is available and the traffic is [allowed] (packets for hosts,
    messages whose sender has a host address, and no second packet for a host while its
    expired entry is being refreshed), no operation faults, and every packet that was
    made to wait is waiting, was sent once, or was reported once as undeliverable, in
    the order in which the packets for its target came; it was sent to a hardware
    address that its target announced, and an address that is returned at once is one
    that was announced, or the own or the broadcast address; while packets wait, the
    timer of the request is set.  The code does not ensure these limits:
    [refresh_loses_packet], [arp_probe_asserts] and [resolution_alloc_crash] below. *)
Theorem arp_packets_once s :
  reachable s →
  (∀ o, allowed o s → ∃ m s', run_op o s = Ok (m, s')) ∧
  (∀ ip, held_for ip (held s) = gone_for ip (gone s) ++ waiting (arp s) ip) ∧
  (∀ ip m p, (ip, Some m, p) ∈ gone s → (ip, m) ∈ announced s) ∧
  (∀ now p ip m s', allowed (OGet now p ip) s → run_op (OGet now p ip) s = Ok (Some m, s') →
     ip = addr ∧ m = ifmac ∨ ip = 0xffffffff ∧ m = BROADCAST ∨ (ip, m) ∈ announced s) ∧
  (∀ ip, waiting (arp s) ip ≠ [] → ∃ r res, r ∈ timers (arp s) ∧ resolutions (arp s) !! r = Some res ∧ res_ip res = ip ∧ wait res = waiting (arp s) ip).
Proof.
  intros Hr%arp_reachable_inv. pose proof Hr as [Ha Ho Hm Hs]. split_and!; [|done|done| |].
  - intros o Hal. destruct (arp_step_ok o s Hr Hal) as (m & s' & ? & _). eauto.
  - intros now p ip m s' (H0 & H1 & Hexp) E. destruct (arp_get_spec now p ip (arp s) Ha H0 H1 Hexp) as (m' & o & a' & E' & _ & _ & _ & _ & Hmac).
    cbn [run_op] in E. rewrite E' in E. cbn [mbind outcome_bind] in E. injection E as -> _.
    destruct (Hmac m eq_refl) as [?|[?|(e & He & Hv & <- & _)]]; [auto|auto|]. right. right. by apply Hm.
  - intros ip Hw. unfold waiting in Hw. destruct (table (arp s) !! ip) as [e|] eqn:He; [|done].
    destruct (resolution e) as [r|] eqn:Er; [|done]. destruct (entry_res (arp s) ip e r Ha He Er) as (_ & Hrt & res & R & Eip & _).
    exists r, res. split_and!; try done. unfold waiting. by rewrite He, Er, R.
Qed.

(** Repeated timeouts of a resolution. *)
Fixpoint timeouts (n : nat) (r : nat) (s : world) : outcome world :=
  match n with
  | O => Ok s
  | S n => '(_, s) ← run_op (OTimeout r) s; timeouts n r s
  end.

(** C26. Nothing waits for ever in a state that [allowed] traffic leads to (memory is
    available, and no second packet came for a host while its expired entry was being
    refreshed): when no answer comes, the third timeout of a request at the latest
    reports all the packets that wait as undeliverable, in their order, and removes the
    entry. *)
Theorem arp_wait_ends s ip :
  reachable s → waiting (arp s) ip ≠ [] →
  ∃ r n s', r ∈ timers (arp s) ∧ (1 ≤ n ≤ 3)%nat ∧ timeouts n r s = Ok s' ∧ table (arp s') !! ip = None ∧ waiting (arp s') ip = [] ∧
    gone s' = gone s ++ ((λ p, (ip, None, p)) <$> waiting (arp s) ip).
Proof.
  intros Hinv%arp_reachable_inv Hw.
  assert (∀ k s r res, inv s → r ∈ timers (arp s) → resolutions (arp s) !! r = Some res → ARP_MAX_RETRIES - retry res = Z.of_nat k →
    ∃ s', timeouts k r s = Ok s' ∧ table (arp s') !! res_ip res = None ∧ waiting (arp s') (res_ip res) = [] ∧
      gone s' = gone s ++ ((λ p, (res_ip res, None, p)) <$> wait res)) as Hk.
  { induction k as [|k IH]; intros s0 r res Hi Hr R Ek; destruct (timeout_spec r (arp s0) (wi_arp s0 Hi) Hr) as (e & res0 & R0 & He & Er & Hwt & Hret & Et);
      rewrite R in R0; injection R0 as <-; [lia|]. cbn [timeouts].
    destruct (arp_step_ok (OTimeout r) s0 Hi Hr) as (m & s1 & E1 & Hi1). rewrite E1. cbn [mbind outcome_bind].
    cbn [run_op] in E1. rewrite Et in E1. destruct (Z.ltb_spec (retry res + 1) ARP_MAX_RETRIES); cbn [mbind outcome_bind] in E1; injection E1 as <- <-.
    - destruct (IH _ r (retried res) Hi1) as (s' & -> & H1 & H2 & H3); cbn [arp touch timers resolutions gone] in *;
        [done|by rewrite lookup_insert_eq|cbn; lia|]. exists s'. split_and!; [done|done|done|]. rewrite H3. cbn [disposed omap]. by rewrite app_nil_r.
    - assert (k = 0%nat) as -> by lia. eexists. split; [done|]. cbn [arp gone]. rewrite close_table, decide_True by done. split; [done|].
      rewrite close_waiting, decide_True by (done || apply Hi). split; [done|]. by rewrite disposed_error. }
  unfold waiting in Hw |- *. destruct (table (arp s) !! ip) as [e|] eqn:He; [|done]. destruct (resolution e) as [r|] eqn:Er; [|done].
  destruct (entry_res (arp s) ip e r (wi_arp s Hinv) He Er) as (_ & Hr & res & R & <- & _ & Hret). rewrite R in *.
  unfold ARP_MAX_RETRIES in *. destruct (Hk (Z.to_nat (3 - retry res)) s r res Hinv Hr R ltac:(lia)) as (s' & ? & ? & ? & ?).
  exists r, (Z.to_nat (3 - retry res)), s'. split_and!; try done; lia.
Qed.
End traffic.

(** ** Two packets for a host *)

Local Abbreviation run := (run_op (P := nat) 32 0x0a000001 0 0x111111111111 [0x0a000001]).
Definition ran (r : outcome (option Z * world (P := nat))) : world := if r is Ok (_, s) then s else winit.
Definition demo1 : world := ran (run (OGet 1000 1%nat 0x0a000002) winit).
Definition demo2 : world := ran (run (OGet 1001 2%nat 0x0a000002) demo1).

Lemma arp_demo_reachable : reachable 32 0x0a000001 0 0x111111111111 [0x0a000001] demo2.
Proof.
  apply (reach_step _ _ _ _ _ (OGet 1001 2%nat 0x0a000002) demo1 None); [| |vm_compute; reflexivity].
  - apply (reach_step _ _ _ _ _ (OGet 1000 1%nat 0x0a000002) winit None); [constructor| |vm_compute; reflexivity].
    split; [done|split; [done|]]. intros e He. vm_compute in He. discriminate.
  - split; [done|split; [done|]]. intros e He _. vm_compute in He. injection He as <-. vm_compute. reflexivity.
Qed.

Lemma arp_packets_once_witness :
  waiting (arp demo2) 0x0a000002 = [1%nat; 2%nat] ∧
  (∀ o, allowed 32 o demo2 → ∃ m s', run o demo2 = Ok (m, s')) ∧
  (∀ ip, held_for ip (held demo2) = gone_for ip (gone demo2) ++ waiting (arp demo2) ip) ∧
  (∀ ip m p, (ip, Some m, p) ∈ gone demo2 → (ip, m) ∈ announced demo2) ∧
  (∀ now p ip m s', allowed 32 (OGet now p ip) demo2 → run (OGet now p ip) demo2 = Ok (Some m, s') →
     ip = 0x0a000001 ∧ m = 0x111111111111 ∨ ip = 0xffffffff ∧ m = BROADCAST ∨ (ip, m) ∈ announced demo2) ∧
  (∀ ip, waiting (arp demo2) ip ≠ [] → ∃ r res, r ∈ timers (arp demo2) ∧ resolutions (arp demo2) !! r = Some res ∧ res_ip res = ip ∧ wait res = waiting (arp demo2) ip).
Proof. split; [vm_compute; reflexivity|]. exact (arp_packets_once 32 0x0a000001 0 0x111111111111 [0x0a000001] demo2 arp_demo_reachable). Defined.

Lemma arp_wait_ends_witness :
  ∃ r n s', r ∈ timers (arp demo2) ∧ (1 ≤ n ≤ 3)%nat ∧ timeouts 32 0x0a000001 0 0x111111111111 [0x0a000001] n r demo2 = Ok s' ∧
    table (arp s') !! 0x0a000002 = None ∧ waiting (arp s') 0x0a000002 = [] ∧
    gone s' = gone demo2 ++ ((λ p, (0x0a000002, None, p)) <$> waiting (arp demo2) 0x0a000002).
Proof.
  refine (arp_wait_ends 32 0x0a000001 0 0x111111111111 [0x0a000001] demo2 0x0a000002 arp_demo_reachable _). vm_compute. discriminate.
Defined.

(** ** Behaviour to know *)

(** An entry is refreshed without its time stamp: a second packet for the same
    host starts another resolution, and the first packet, which the lost one
    holds, is never sent nor reported; when the answer comes, the timer of the lost
    resolution is still set, and its timeout dereferences the NULL resolution of
    the entry. *)
Definition demo_learned : world := ran (run (OPush 0 ARPOP_REPLY 0x0a000002 0x222222222222 0x0a000001) winit).
Definition demo_refresh : world := ran (run (OGet 200001 2%nat 0x0a000002) (ran (run (OGet 200000 1%nat 0x0a000002) demo_learned))).
Theorem refresh_loses_packet :
  waiting (arp demo_refresh) 0x0a000002 = [2%nat] ∧
  (let answered := ran (run (OPush 200002 ARPOP_REPLY 0x0a000002 0x222222222222 0x0a000001) demo_refresh) in
   gone answered = [(0x0a000002, Some 0x222222222222, 2%nat)] ∧ elements (timers (arp answered)) = [1%nat] ∧ run (OTimeout 1) answered = Err FBounds).
Proof. vm_compute. done. Qed.

(** When the resolution structure cannot be allocated, the next packet for the
    same host dereferences it. *)
Theorem resolution_alloc_crash :
  ('(_, _, a) ← arp_get_mac (P := nat) 32 true false true 0x0a000001 0 0x111111111111 1000 1%nat 0x0a000002 (arp winit);
   arp_get_mac 32 true true true 0x0a000001 0 0x111111111111 1001 2%nat 0x0a000002 a) = Err FBounds.
Proof. vm_compute. reflexivity. Qed.

(** A request whose sender has no address yet, as a host sends it to probe for a
    conflict, stops the system by an assertion. *)
Theorem arp_probe_asserts : arp_pushpkt (P := nat) true [0x0a000001] 1000 ARPOP_REQUEST 0 0x222222222222 0x0a000001 (arp winit) = Err FAssert.
Proof. vm_compute. reflexivity. Qed.

(** A request for another host does not update the entry of its sender, but
    creates one when there is none. *)
Theorem overheard_request_creates :
  (let s := ran (run (OPush 1000 ARPOP_REQUEST 0x0a000002 0x222222222222 0x0a000003) winit) in
   let s' := ran (run (OPush 1001 ARPOP_REQUEST 0x0a000002 0x333333333333 0x0a000003) s) in
   (mac <$> table (arp s) !! 0x0a000002, mac <$> table (arp s') !! 0x0a000002)) = (Some 0x222222222222, Some 0x222222222222).
Proof. vm_compute. reflexivity. Qed.
End Arp.
