(* ===== verification/IntConv.v ===== *)
(** * Integers as text (libc/intconv.c, [__printf_putint] of libc/formatter.c)

    The conversions from text to integers and from integers to digits, and that
    they are inverse.  A string is the list of its characters before the NUL. *)

From S2P Require Import Prelude.

Module IntConv.

(** ** From text *)

Definition isspace (ch : Z) : bool := (wrapu 8 (ch - 9) <? 5) || (ch =? 32).

Fixpoint skip_spaces (s : list Z) : list Z :=
  match s with
  | c :: s' => if isspace c then skip_spaces s' else s
  | [] => []
  end.

(** The value of a character in the given base: [n] is stored in 8 bits. *)
Definition digit_value (base c : Z) : option Z :=
  let n := wrapu 8 (c - 48) in
  if n <=? 9 then Some n
  else
    let n := wrapu 8 (Z.lor c 0x20 - 97 + 10) in
    if base <=? n then None else Some n.

Section conv.
(** The width of the unsigned result type. *)
Context (w : Z).

(** The loop on the digits: the result and what remains behind the last digit. *)
Fixpoint digits_loop (base res : Z) (s : list Z) : Z * list Z :=
  match s with
  | c :: s' =>
      match digit_value base c with
      | Some n => digits_loop base (wrapu w (res * base + n)) s'
      | None => (res, s)
      end
  | [] => (res, [])
  end.

(** [strto_uintl##_post]: the second result is what remains at [*endptr], which
    is not set when there is no digit. *)
Definition strto_post (s : list Z) (base : Z) (endptr : list Z) : Z * list Z :=
  let '(s, base, endptr) :=
    match s with
    | c :: s' =>
        if c =? 48 then
          match s' with
          | x :: s'' => if ((base =? 0) || (base =? 16)) && (x =? 120) then (s'', 16, s') else (s', if base =? 0 then 8 else base, s')
          | [] => (s', if base =? 0 then 8 else base, s')
          end
        else (s, base, endptr)
    | [] => (s, base, endptr)
    end in
  let base := if base =? 0 then 10 else base in
  let '(res, rest) := digits_loop base 0 s in
  (res, if (length rest <? length s)%nat then rest else endptr).

Definition strto_unsigned (nptr : list Z) (base : Z) : Z * list Z := strto_post (skip_spaces nptr) base nptr.

(** The sign of the signed conversions; the width of the result is [w] as well. *)
Definition strto_signed (nptr : list Z) (base : Z) : Z * list Z :=
  let negate '(res, rest) := (wraps w (- res), rest) in
  let keep '(res, rest) := (wraps w res, rest) in
  match skip_spaces nptr with
  | c :: s =>
      if c =? 45 then negate (strto_post s base nptr)
      else if c =? 43 then keep (strto_post s base nptr)
      else keep (strto_post (c :: s) base nptr)
  | [] => keep (strto_post [] base nptr)
  end.

Definition ato (nptr : list Z) : Z := fst (strto_signed nptr 10).
End conv.

(** ** To digits *)

Definition hex_lower_base (d : Z) : Z := if d <? 10 then 48 + d else 87 + d.
Definition hex_upper_base (d : Z) : Z := if d <? 10 then 48 + d else 55 + d.
Definition PRINTF_INT_BUFFER_LEN : nat := 20.

Section putint.
(** The width of [__printf_int_t] and of [uint_fast8_t], the type of the base: the
    arithmetic is unsigned when this is not the narrower one. *)
Context (W FW : Z).

Definition is_unsigned : bool := (W <=? FW) && (32 <=? FW).
Definition rem_base (val base : Z) : Z := if is_unsigned then wrapu W val mod base else Z.rem val base.
Definition quot_base (val base : Z) : Z := if is_unsigned then wraps W (wrapu W val / base) else Z.quot val base.

(** The buffer is filled from its end; the result is the part that is filled.  A
    negative remainder indexes before the table of digits. *)
Fixpoint putint_loop (i : nat) (digits : Z → Z) (val basesize : Z) (acc : list Z) : outcome (list Z) :=
  match i with
  | O => Ok acc
  | S i =>
      let d := rem_base val basesize in
      _ ← require ((0 <=? d) && (d <? 16)) FBounds;
      let val := quot_base val basesize in
      if val =? 0 then Ok (digits d :: acc) else putint_loop i digits val basesize (digits d :: acc)
  end.
Definition __printf_putint (val : Z) (digits : Z → Z) (basesize : Z) : outcome (list Z) :=
  putint_loop PRINTF_INT_BUFFER_LEN digits val basesize [].
End putint.

(** ** Digits of a number *)

(** The number that digits denote. *)
Definition value (base : Z) (ds : list Z) : Z := fold_left (λ acc d, acc * base + d) ds 0.
(** The digits of a number, without leading zero. *)
Definition representation (base : Z) (ds : list Z) (v : Z) : Prop :=
  Forall (λ d, 0 ≤ d < base) ds ∧ value base ds = v ∧ ds ≠ [] ∧ (head ds = Some 0 → ds = [0]).

Lemma value_snoc base ds d : value base (ds ++ [d]) = value base ds * base + d.
Proof. unfold value. by rewrite fold_left_app. Qed.

(** The loop on a value that is not negative. *)
Lemma putint_loop_spec W FW digits base : 2 ≤ base ≤ 16 → 1 ≤ W → ∀ i val acc,
  0 ≤ val → (is_unsigned W FW = true → val < 2 ^ W) → val < base ^ Z.of_nat i → (0 < i)%nat →
  ∃ ds, putint_loop W FW i digits val base acc = Ok ((digits <$> ds) ++ acc) ∧ representation base ds val.
Proof.
  intros Hb HW i. induction i as [|i IH]; intros val acc H0 Hu Hlt Hi; [lia|]. cbn [putint_loop].
  assert (rem_base W FW val base = val mod base ∧ quot_base W FW val base = val / base) as [-> ->].
  { unfold rem_base, quot_base. destruct (is_unsigned W FW); [|split; [apply Z.rem_mod_nonneg|apply Z.quot_div_nonneg]; lia].
    specialize (Hu eq_refl). rewrite (wrapu_small W val) by lia. split; [done|]. apply wraps_small; [done|].
    pose proof (pow2_pred W HW). assert (val / base ≤ val / 2) by (apply Z.div_le_compat_l; lia).
    assert (val / 2 < 2 ^ (W - 1)) by (apply Z.div_lt_upper_bound; lia). pose proof (Z.div_pos val base H0 ltac:(lia)). lia. }
  pose proof (Z.mod_pos_bound val base ltac:(lia)) as Hm. pose proof (Z.div_mod val base ltac:(lia)) as Hd.
  destruct (Z.leb_spec 0 (val mod base)), (Z.ltb_spec (val mod base) 16); try lia. cbn [andb require mbind outcome_bind].
  destruct (Z.eqb_spec (val / base) 0) as [E|E].
  - exists [val mod base]. split; [done|]. split_and!; [by constructor|cbn; lia|done|]. intros [= ->]. done.
  - assert (0 ≤ val / base < base ^ Z.of_nat i) as Hq.
    { split; [apply Z.div_pos; lia|]. apply Z.div_lt_upper_bound; [lia|]. rewrite Nat2Z.inj_succ, Z.pow_succ_r in Hlt by lia. lia. }
    assert (0 < i)%nat by (destruct i; [cbn in Hq; lia|lia]).
    assert (val / base ≤ val) by (apply Z.div_le_upper_bound; nia).
    destruct (IH (val / base) (digits (val mod base) :: acc)) as (ds & -> & Hf & Hv & Hne & Hh); [lia|intros; specialize (Hu ltac:(done)); lia|lia|done|].
    exists (ds ++ [val mod base]). split; [by rewrite fmap_app, <-app_assoc|]. split_and!.
    + apply Forall_app_2; [done|]. by constructor.
    + rewrite value_snoc, Hv. lia.
    + by destruct ds.
    + destruct ds as [|d ds]; [done|]. cbn. intros [= ->]. specialize (Hh eq_refl). injection Hh as ->. cbn in Hv. lia.
Qed.

(** ** Printing *)

Lemma rem_wrap W FW val base : is_unsigned W FW = true → 0 ≤ W → rem_base W FW (wrapu W val) base = rem_base W FW val base.
Proof. intros E HW. unfold rem_base. rewrite E. unfold wrapu. by rewrite Z.mod_mod by (pose proof (pow2_pos W HW); lia). Qed.
Lemma quot_wrap W FW val base : is_unsigned W FW = true → 0 ≤ W → quot_base W FW (wrapu W val) base = quot_base W FW val base.
Proof. intros E HW. unfold quot_base. rewrite E. unfold wrapu. by rewrite Z.mod_mod by (pose proof (pow2_pos W HW); lia). Qed.

(** With unsigned arithmetic every value is printed as the unsigned number with the
    same bits, when the buffer is large enough. *)
Lemma putint_unsigned W FW digits base val :
  2 ≤ base ≤ 16 → 1 ≤ W → is_unsigned W FW = true → 2 ^ W ≤ base ^ 20 →
  ∃ ds, __printf_putint W FW val digits base = Ok (digits <$> ds) ∧ representation base ds (wrapu W val).
Proof.
  intros Hb HW Hu Hbuf. unfold __printf_putint. pose proof (wrapu_range W val ltac:(lia)) as Hr.
  destruct (putint_loop_spec W FW digits base Hb HW PRINTF_INT_BUFFER_LEN (wrapu W val) []) as (ds & E & H);
    [lia|lia|change (Z.of_nat PRINTF_INT_BUFFER_LEN) with 20; lia|unfold PRINTF_INT_BUFFER_LEN; lia|].
  exists ds. split; [|done]. rewrite app_nil_r in E. rewrite <-E. unfold PRINTF_INT_BUFFER_LEN. cbn [putint_loop]. by rewrite rem_wrap, quot_wrap by (done || lia).
Qed.

(** A value that is not negative is printed in any arithmetic. *)
Lemma putint_nonneg W FW digits base val :
  2 ≤ base ≤ 16 → 1 ≤ W → 0 ≤ val < 2 ^ (W - 1) → 2 ^ (W - 1) ≤ base ^ 20 →
  ∃ ds, __printf_putint W FW val digits base = Ok (digits <$> ds) ∧ representation base ds val.
Proof.
  intros Hb HW Hv Hbuf. unfold __printf_putint. pose proof (pow2_pred W HW) as Hp.
  destruct (putint_loop_spec W FW digits base Hb HW PRINTF_INT_BUFFER_LEN val []) as (ds & E & H);
    [lia|lia|change (Z.of_nat PRINTF_INT_BUFFER_LEN) with 20; lia|unfold PRINTF_INT_BUFFER_LEN; lia|].
  exists ds. rewrite app_nil_r in E. done.
Qed.

(** ** Parsing *)

Definition digit_chars (digits : Z → Z) : Prop := digits = hex_lower_base ∨ digits = hex_upper_base.

Lemma digit_value_char digits base d : digit_chars digits → 2 ≤ base ≤ 16 → 0 ≤ d < base → digit_value base (digits d) = Some d.
Proof.
  intros Hd Hb Hr. assert (∀ b, In b [2;3;4;5;6;7;8;9;10;11;12;13;14;15;16] → forallb (λ d, (b <=? d) || bool_decide (digit_value b (digits d) = Some d))
    [0;1;2;3;4;5;6;7;8;9;10;11;12;13;14;15] = true) as H.
  { intros b Hin. destruct Hd as [-> | ->]; cbn [In] in Hin; repeat (destruct Hin as [<-|Hin]; [vm_compute; reflexivity|]); done. }
  specialize (H base). rewrite forallb_forall in H. assert (In base [2;3;4;5;6;7;8;9;10;11;12;13;14;15;16]) as Hbin by (cbn; lia).
  specialize (H Hbin d ltac:(cbn; lia)). apply orb_true_iff in H as [H|H]; [lia|]. by apply bool_decide_eq_true in H.
Qed.

(** The text behind a number: no digit, and no [x]. *)
Definition stops (base : Z) (rest : list Z) : Prop := match rest with [] => True | c :: _ => digit_value base c = None ∧ c ≠ 120 end.

Lemma digits_loop_spec w digits base ds rest : digit_chars digits → 2 ≤ base ≤ 16 → stops base rest → Forall (λ d, 0 ≤ d < base) ds → ∀ res,
  0 ≤ res → fold_left (λ acc d, acc * base + d) ds res < 2 ^ w →
  digits_loop w base res ((digits <$> ds) ++ rest) = (fold_left (λ acc d, acc * base + d) ds res, rest).
Proof.
  intros Hc Hb Hs Hf. induction Hf as [|d ds Hd Hf IH]; intros res H0 Hlt.
  - cbn. destruct rest as [|c rest]; [done|]. cbn. destruct Hs as [-> _]. done.
  - cbn [fmap list_fmap app digits_loop fold_left] in *. rewrite (digit_value_char digits base d Hc Hb Hd).
    assert (∀ l x, Forall (λ d, 0 ≤ d < base) l → 0 ≤ x → x ≤ fold_left (λ acc d, acc * base + d) l x) as Hmono.
    { clear -Hb. induction l as [|y l IH]; intros x Hl Hx; [done|]. apply Forall_cons in Hl as [Hy Hl]. cbn [fold_left].
      specialize (IH (x * base + y) Hl ltac:(nia)). nia. }
    pose proof (Hmono ds (res * base + d) Hf ltac:(nia)). rewrite wrapu_small by nia. apply IH; [nia|done].
Qed.

Lemma strto_post_spec w digits base ds v rest endptr :
  digit_chars digits → 2 ≤ base ≤ 16 → stops base rest → representation base ds v → 0 ≤ v < 2 ^ w →
  strto_post w ((digits <$> ds) ++ rest) base endptr = (v, rest).
Proof.
  intros Hc Hb Hs (Hf & Hv & Hne & Hh) Hr. pose proof (digits_loop_spec w digits base ds rest Hc Hb Hs Hf 0) as HL.
  unfold value in Hv. rewrite Hv in HL. specialize (HL ltac:(lia) ltac:(lia)).
  destruct ds as [|d ds]; [done|]. apply Forall_cons in Hf as [Hd Hf].
  assert ((base =? 0) = false) as Eb by (apply Z.eqb_neq; lia).
  assert (digits 0 = 48 ∧ (d ≠ 0 → digits d ≠ 48)) as [D0 Dn].
  { destruct Hc as [-> | ->]; (split; [done|]); unfold hex_lower_base, hex_upper_base; intros ?; destruct (Z.ltb_spec d 10); lia. }
  destruct (decide (d = 0)) as [->|Hd0].
  - specialize (Hh eq_refl). injection Hh as ->. cbn [fmap list_fmap app]. rewrite D0. cbn in Hv. subst v.
    unfold strto_post. rewrite Z.eqb_refl, Eb. destruct rest as [|c rest]; [by rewrite Eb|]. destruct Hs as [Hc1 Hc2].
    destruct (Z.eqb_spec c 120); [done|]. rewrite andb_false_r, Eb. cbn [digits_loop]. rewrite Hc1, Nat.ltb_irrefl. done.
  - specialize (Dn Hd0). cbn [fmap list_fmap app] in *. unfold strto_post. destruct (Z.eqb_spec (digits d) 48); [done|].
    rewrite Eb, HL. cbn [length]. rewrite length_app. by destruct (Nat.ltb_spec (length rest) (S (length (digits <$> ds) + length rest))); [|lia].
Qed.

Lemma not_space digits d : digit_chars digits → 0 ≤ d < 16 → isspace (digits d) = false ∧ digits d ≠ 45 ∧ digits d ≠ 43.
Proof.
  intros Hc Hd. assert (∀ d, In d [0;1;2;3;4;5;6;7;8;9;10;11;12;13;14;15] → isspace (digits d) = false ∧ digits d ≠ 45 ∧ digits d ≠ 43) as H.
  { intros x Hin. destruct Hc as [-> | ->]; cbn [In] in Hin; repeat (destruct Hin as [<-|Hin]; [vm_compute; done|]); done. }
  apply H. cbn. lia.
Qed.

Lemma representation_head base ds v digits rest :
  digit_chars digits → 2 ≤ base ≤ 16 → representation base ds v →
  ∃ c s, (digits <$> ds) ++ rest = c :: s ∧ isspace c = false ∧ c ≠ 45 ∧ c ≠ 43.
Proof.
  intros Hc Hb (Hf & _ & Hne & _). destruct ds as [|d ds]; [done|]. apply Forall_cons in Hf as [Hd _].
  eexists _, _. split; [done|]. apply not_space; [done|lia].
Qed.

(** Text and integers: what [__printf_putint] writes for a value, in any base
    from 2 to 16 and with digits of either case, is read back by the unsigned
    conversion as the same number, and stops at the character behind it; with a
    minus sign before the digits the signed conversion reads the negative number.
    The arithmetic is unsigned or the value is not negative, and the buffer of 20
    characters holds the digits. *)
Theorem print_parse_roundtrip W FW w digits base val rest :
  digit_chars digits → 2 ≤ base ≤ 16 → 1 ≤ W ≤ w → 2 ^ W ≤ base ^ 20 → stops base rest →
  (is_unsigned W FW = true →
    ∃ s, __printf_putint W FW val digits base = Ok s ∧ strto_unsigned w (s ++ rest) base = (wrapu W val, rest)) ∧
  (0 ≤ val < 2 ^ (W - 1) →
    ∃ s, __printf_putint W FW val digits base = Ok s ∧ strto_signed w (s ++ rest) base = (val, rest) ∧
      strto_signed w (45 :: s ++ rest) base = (- val, rest)).
Proof.
  intros Hc Hb HW Hbuf Hs. pose proof (pow2_pred W ltac:(lia)) as Hp. assert (2 ^ W ≤ 2 ^ w) as Hww by (apply Z.pow_le_mono_r; lia).
  assert (2 ^ (W - 1) ≤ 2 ^ (w - 1)) as Hww' by (apply Z.pow_le_mono_r; lia). split.
  - intros Hu. destruct (putint_unsigned W FW digits base val Hb ltac:(lia) Hu Hbuf) as (ds & -> & Hr). eexists. split; [done|].
    pose proof (wrapu_range W val ltac:(lia)). unfold strto_unsigned.
    destruct (representation_head base ds _ digits rest Hc Hb Hr) as (c & s & E & Hsp & _). rewrite E. cbn [skip_spaces]. rewrite Hsp, <-E.
    apply strto_post_spec; (done || lia).
  - intros Hv. pose proof (pow2_pos (W - 1) ltac:(lia)).
    destruct (putint_nonneg W FW digits base val Hb ltac:(lia) Hv ltac:(lia)) as (ds & -> & Hr). eexists. split; [done|].
    pose proof (λ endptr, strto_post_spec w digits base ds val rest endptr Hc Hb Hs Hr ltac:(lia)) as Hpost. unfold strto_signed.
    destruct (representation_head base ds _ digits rest Hc Hb Hr) as (c & s & E & Hsp & H45 & H43). split.
    + rewrite E. cbn [skip_spaces]. rewrite Hsp. destruct (Z.eqb_spec c 45), (Z.eqb_spec c 43); try done. rewrite <-E, Hpost.
      by rewrite wraps_small by lia.
    + cbn [skip_spaces]. change (isspace 45) with false. cbn [Z.eqb Pos.eqb]. rewrite Hpost. by rewrite wraps_small by lia.
Qed.

Lemma print_parse_roundtrip_witness :
  (is_unsigned 32 32 = true →
    ∃ s, __printf_putint 32 32 1234 hex_lower_base 10 = Ok s ∧ strto_unsigned 32 (s ++ [32]) 10 = (wrapu 32 1234, [32])) ∧
  (0 ≤ 1234 < 2 ^ (32 - 1) →
    ∃ s, __printf_putint 32 32 1234 hex_lower_base 10 = Ok s ∧ strto_signed 32 (s ++ [32]) 10 = (1234, [32]) ∧
      strto_signed 32 (45 :: s ++ [32]) 10 = (- (1234), [32])).
Proof. refine (print_parse_roundtrip 32 32 32 hex_lower_base 10 1234 [32] _ _ _ _ _); [by left|lia|lia|lia|by vm_compute]. Defined.

(** ** Behaviour to know *)

(** On a 64 bit processor [uint_fast8_t] has 32 bits: the remainder of a value with
    the top bit set is negative, and indexes before the digits. *)
Theorem putint_64_out_of_bounds : __printf_putint 64 32 (wraps 64 0xffffffffffffffff) hex_lower_base 16 = Err FBounds.
Proof. vm_compute. reflexivity. Qed.

(** The buffer of 20 characters is too small for 22 octal digits: the first two
    are lost. *)
Theorem putint_64_octal_truncated : __printf_putint 64 64 (wraps 64 0xffffffffffffffff) hex_lower_base 8 = Ok (replicate 20 55).
Proof. vm_compute. reflexivity. Qed.

(** Octal text may contain the digits 8 and 9. *)
Theorem octal_accepts_nine : strto_unsigned 32 [49; 57] 8 = (17, []).
Proof. vm_compute. reflexivity. Qed.
End IntConv.
