(* ===== verification/Formatter.v ===== *)
(** * Formatted output (libc/formatter.c, libc/printf.c)

    The state machine of [formatter_printf], the calls it makes to its output
    function, and [vsnprintf] on top of it.  Characters are bytes; a string is the
    list of its characters before the NUL. *)

From S2P Require Import Prelude IntConv.
Import IntConv.

Module Formatter.

(** ** Data *)

(** The arguments: a register, or the address of memory with its contents. *)
Inductive arg := VInt (v : Z) | VPtr (addr : Z) (mem : list Z).

(** A call of the output function: the offset and the characters. *)
Definition call : Type := Z * list Z.

(** What [%-08.3] sets. *)
Record modifiers := { padindex : bool; zeropad : bool; rightpad : bool; padding0 : Z; padding1 : Z }.
Definition no_modifiers : modifiers := {| padindex := false; zeropad := false; rightpad := false; padding0 := 0; padding1 := 0 |}.

(** The labels: [printf_state_main] with the literal characters since the last
    call, and [printf_state_modifier]. *)
Inductive mode := Main (lit : list Z) | Modifier (m : modifiers).

Section printf.
(** The widths of registers, pointers, [long] and [size_t], and of
    [uint_fast8_t]. *)
Context (W FW : Z).

(** ** Conversions *)

(** [va_arg] of a register. *)
Definition va_int (ap : list arg) : outcome (Z * option (list Z) * list arg) :=
  match ap with
  | VInt v :: ap => Ok (wraps W v, None, ap)
  | VPtr a mem :: ap => Ok (wraps W a, Some mem, ap)
  | [] => Err FUndef
  end.

Fixpoint until_nul (mem : list Z) : outcome (list Z) :=
  match mem with
  | [] => Err FBounds
  | c :: mem => if c =? 0 then Ok [] else s ← until_nul mem; Ok (c :: s)
  end.
(** At most [maxlen] characters are read. *)
Fixpoint at_most (maxlen : nat) (mem : list Z) : outcome (list Z) :=
  match maxlen with
  | O => Ok []
  | S n =>
      match mem with
      | [] => Err FBounds
      | c :: mem => if c =? 0 then Ok [] else s ← at_most n mem; Ok (c :: s)
      end
  end.

(** Two digits and a space for each byte; the last space is not counted. *)
Definition printf_hexdump (val : list Z) : list Z :=
  let all := mjoin ((λ b, [hex_lower_base (Z.shiftr b 4); hex_lower_base (Z.land b 15); 32]) <$> val) in
  take (length all - 1) all.

(** [len] bytes of the memory. *)
Definition bytes_of (mem : option (list Z)) (len : Z) : outcome (list Z) :=
  let len := wrapu W len in
  match mem with
  | Some mem => _ ← require (len <=? Z.of_nat (length mem)) FBounds; Ok (take (Z.to_nat len) mem)
  | None => Err FBounds
  end.

Definition set_padding (zero : bool) (pad : Z) (right : bool) (m : modifiers) : modifiers :=
  {| padindex := padindex m; zeropad := zero; rightpad := right; padding0 := pad; padding1 := padding1 m |}.
(** The precision of [%d] and [%u] is a padding with zeros. *)
Definition precision (m : modifiers) : modifiers := if padding1 m =? 0 then m else set_padding true (padding1 m) (rightpad m) m.

(** The conversion [c]: what is output first, the text, the padding; [None] for an
    unknown one, which takes its argument all the same. *)
Definition convert (c : Z) (m : modifiers) (ap : list arg) : outcome (option (list Z * list Z * modifiers) * list arg) :=
  '(val, mem, ap) ← va_int ap;
  let number digits base prefix m := s ← __printf_putint W FW val digits base; Ok (Some (prefix, s, m), ap) in
  if c =? 99 (* c *) then Ok (Some ([], [wrapu 8 val], m), ap)
  else if (c =? 100) || (c =? 105) (* d i *) then
    if val <? 0 then
      neg ← schk W (- val);
      s ← __printf_putint W FW neg hex_lower_base 10; Ok (Some ([45], s, precision m), ap)
    else number hex_lower_base 10 [] (precision m)
  else if c =? 117 (* u *) then number hex_lower_base 10 [] (precision m)
  else if c =? 88 (* X *) then number hex_upper_base 16 [] m
  else if c =? 112 (* p *) then number hex_lower_base 16 [48; 120] (set_padding true (W / 8 * 2) false m)
  else if c =? 120 (* x *) then number hex_lower_base 16 [] m
  else if c =? 111 (* o *) then number hex_lower_base 8 [] m
  else if c =? 115 (* s *) then
    mem ← of_option FBounds mem;
    s ← (if padding1 m =? 0 then until_nul mem else at_most (Z.to_nat (padding1 m)) mem);
    Ok (Some ([], s, set_padding false (padding0 m) (rightpad m) m), ap)
  else if c =? 80 (* P *) then
    '(len, _, ap) ← va_int ap;
    s ← bytes_of mem len; Ok (Some ([], printf_hexdump s, m), ap)
  else if c =? 83 (* S *) then
    '(len, _, ap) ← va_int ap;
    s ← bytes_of mem len; Ok (Some ([], s, set_padding false (padding0 m) (rightpad m) m), ap)
  else Ok (None, ap).

(** ** The state machine *)

(** Calls in sequence, each at the offset behind the one before; empty literals
    are not output. *)
Definition pad_calls (offset : Z) (c : Z) (n : nat) : list call := imap (λ i c, (offset + Z.of_nat i, [c])) (replicate n c).

(** The end of [printf_state_conv]: padding and text. *)
Definition output_text (offset : Z) (text : list Z) (m : modifiers) : list call * Z :=
  let len := Z.of_nat (length text) in
  let padlen := Z.to_nat (Z.max (wraps W (padding0 m - len)) 0) in
  if rightpad m then
    ((offset, text) :: pad_calls (offset + len) 32 padlen, offset + len + Z.of_nat padlen)
  else
    (pad_calls offset (if zeropad m then 48 else 32) padlen ++ [(offset + Z.of_nat padlen, text)], offset + Z.of_nat padlen + len).

(** [fcn(ctx, "-", offset++, 1)] or the prefix of a pointer. *)
Definition output_prefix (offset : Z) (prefix : list Z) : list call * Z :=
  (if prefix is [] then [] else [(offset, prefix)], offset + Z.of_nat (length prefix)).

(** A literal run. *)
Definition flush (offset : Z) (lit : list Z) : list call * Z := output_prefix offset lit.

(** A modifier character, [None] for the others. *)
Definition modify (c : Z) (m : modifiers) : option (outcome modifiers) :=
  if c =? 45 then Some (Ok {| padindex := padindex m; zeropad := zeropad m; rightpad := true; padding0 := padding0 m; padding1 := padding1 m |})
  else if (48 <=? c) && (c <=? 57) then
    let zero := if (c =? 48) && negb (padindex m) && (padding0 m =? 0) then true else zeropad m in
    Some (p ← schk W ((if padindex m then padding1 m else padding0 m) * 10); q ← schk W (p + c); p ← schk W (q - 48);
      Ok {| padindex := padindex m; zeropad := zero; rightpad := rightpad m;
            padding0 := if padindex m then padding0 m else p; padding1 := if padindex m then p else padding1 m |})
  else if c =? 46 then Some (Ok {| padindex := negb (padindex m); zeropad := zeropad m; rightpad := rightpad m; padding0 := padding0 m; padding1 := padding1 m |})
  else if c =? 108 then Some (Ok m)
  else None.

Fixpoint run (format : list Z) (st : mode) (ap : list arg) (offset : Z) : outcome (list call * Z) :=
  match format, st with
  | [], Main lit => Ok (flush offset lit)
  | [], Modifier _ => Ok ([], offset)
  | c :: format, Main lit =>
      if c =? 37 then
        let '(o, offset) := flush offset lit in
        '(o', res) ← run format (Modifier no_modifiers) ap offset; Ok (o ++ o', res)
      else run format (Main (lit ++ [c])) ap offset
  | c :: format, Modifier m =>
      if c =? 37 then '(o, res) ← run format (Main []) ap (offset + 1); Ok ((offset, [37]) :: o, res)
      else
        match modify c m with
        | Some m => m ← m; run format (Modifier m) ap offset
        | None =>
            '(r, ap) ← convert c m ap;
            match r with
            | None => run format (Main []) ap offset
            | Some (prefix, text, m) =>
                let '(o1, offset) := output_prefix offset prefix in
                let '(o2, offset) := output_text offset text m in
                '(o, res) ← run format (Main []) ap offset; Ok (o1 ++ o2 ++ o, res)
            end
        end
  end.

(** The calls of the output function, and the result. *)
Definition formatter_printf (format : list Z) (ap : list arg) : outcome (list call * Z) := run format (Main []) ap 0.

(** ** Output to memory *)

(** [memcpy(out + offset, s, ...)], the buffer being the list. *)
Definition store (out : list Z) (offset : Z) (s : list Z) : outcome (list Z) :=
  _ ← require ((0 <=? offset) && (offset + Z.of_nat (length s) <=? Z.of_nat (length out))) FBounds;
  Ok (take (Z.to_nat offset) out ++ s ++ drop (Z.to_nat offset + length s) out).

Definition __printf_out_str (size : Z) (out : list Z) (c : call) : outcome (list Z) :=
  let '(offset, str) := c in
  if offset <? size then store out offset (take (Z.to_nat (Z.min (size - offset) (Z.of_nat (length str)))) str) else Ok out.

Fixpoint out_calls (size : Z) (out : list Z) (calls : list call) : outcome (list Z) :=
  match calls with
  | [] => Ok out
  | c :: calls => out ← __printf_out_str size out c; out_calls size out calls
  end.

Definition vsnprintf (str : list Z) (size : Z) (format : list Z) (ap : list arg) : outcome (list Z * Z) :=
  '(calls, res) ← formatter_printf format ap;
  out ← out_calls size str calls;
  if wrapu W res <? size then out ← store out res [0]; Ok (out, res) else Ok (out, res).
End printf.

(** ** The calls are contiguous *)

(** The calls lay out text from an offset up to an end, without gap or overlap. *)
Fixpoint laid_out (offset : Z) (calls : list call) (end0 : Z) : Prop :=
  match calls with
  | [] => end0 = offset
  | (o, s) :: calls => o = offset ∧ laid_out (offset + Z.of_nat (length s)) calls end0
  end.
Definition text_of (calls : list call) : list Z := mjoin (snd <$> calls).

Lemma laid_out_app a b c cs ds : laid_out a cs b → laid_out b ds c → laid_out a (cs ++ ds) c.
Proof. revert a. induction cs as [|[o s] cs IH]; intros a; cbn; [by intros ->|]. intros [-> H] H'. eauto. Qed.

Lemma text_of_app cs ds : text_of (cs ++ ds) = text_of cs ++ text_of ds.
Proof. unfold text_of. by rewrite fmap_app, join_app. Qed.

Lemma text_of_cons o s cs : text_of ((o, s) :: cs) = s ++ text_of cs.
Proof. done. Qed.

Lemma laid_out_length a b cs : laid_out a cs b → b = a + Z.of_nat (length (text_of cs)).
Proof.
  revert a. induction cs as [|[o s] cs IH]; intros a; cbn [laid_out]; [intros ->; cbn; lia|]. intros [-> H].
  apply IH in H. rewrite text_of_cons, length_app. lia.
Qed.

Lemma prefix_laid_out a s : laid_out a (output_prefix a s).1 (output_prefix a s).2.
Proof. unfold output_prefix. cbn [fst snd]. destruct s; cbn; [lia|done]. Qed.
Lemma prefix_text a s : text_of (output_prefix a s).1 = s.
Proof. unfold output_prefix, text_of. destruct s; cbn; by rewrite ?app_nil_r. Qed.

Lemma pad_calls_S a c n : pad_calls a c (S n) = (a, [c]) :: pad_calls (a + 1) c n.
Proof.
  unfold pad_calls. cbn [replicate]. rewrite imap_cons. f_equal; [f_equal; lia|]. apply imap_ext. intros i x _. cbn. f_equal. lia.
Qed.

Lemma pad_laid_out c n : ∀ a, laid_out a (pad_calls a c n) (a + Z.of_nat n).
Proof.
  induction n as [|n IH]; intros a; [cbn; lia|]. rewrite pad_calls_S. split; [done|]. cbn [length].
  replace (a + Z.of_nat (S n)) with (a + 1 + Z.of_nat n) by lia. apply IH.
Qed.
Lemma pad_text c n : ∀ a, text_of (pad_calls a c n) = replicate n c.
Proof. induction n as [|n IH]; intros a; [done|]. rewrite pad_calls_S. cbn. f_equal. apply IH. Qed.

(** The text of a conversion with its padding. *)
Definition padded (W : Z) (text : list Z) (m : modifiers) : list Z :=
  let padlen := Z.to_nat (Z.max (wraps W (padding0 m - Z.of_nat (length text))) 0) in
  if rightpad m then text ++ replicate padlen 32 else replicate padlen (if zeropad m then 48 else 32) ++ text.

Lemma text_laid_out W a s m : laid_out a (output_text W a s m).1 (output_text W a s m).2.
Proof.
  unfold output_text. destruct (rightpad m); cbn [fst snd].
  - split; [done|]. apply pad_laid_out.
  - eapply laid_out_app; [apply pad_laid_out|]. by split.
Qed.
Lemma text_padded W a s m : text_of (output_text W a s m).1 = padded W s m.
Proof.
  unfold output_text, padded. destruct (rightpad m); cbn [fst snd].
  - change ((a, s) :: ?l) with ([(a, s)] ++ l). rewrite text_of_app, pad_text. unfold text_of. cbn. by rewrite app_nil_r.
  - rewrite text_of_app, pad_text. unfold text_of. cbn. by rewrite app_nil_r.
Qed.

Lemma run_laid_out W FW format : ∀ st ap offset calls res,
  run W FW format st ap offset = Ok (calls, res) → laid_out offset calls res.
Proof.
  induction format as [|c format IH]; intros [lit|m] ap offset calls res; cbn [run].
  - intros [= <- <-]. apply prefix_laid_out.
  - intros [= <- <-]. done.
  - destruct (c =? 37); [|apply IH]. destruct (flush offset lit) as [o off] eqn:E. intros H.
    apply bind_Ok in H as ([o' r] & H & [= <- <-]). eapply laid_out_app; [|by eapply IH].
    pose proof (prefix_laid_out offset lit) as Hp. unfold flush in E. by rewrite E in Hp.
  - destruct (c =? 37); [intros H; apply bind_Ok in H as ([o r] & H & [= <- <-]); split; [done|by eapply IH]|].
    destruct (modify W c m) as [m'|]; [intros H; apply bind_Ok in H as (m2 & _ & H); by eapply IH|].
    intros H. apply bind_Ok in H as ([r ap'] & _ & H). destruct r as [[[prefix text] m']|]; [|by eapply IH].
    destruct (output_prefix offset prefix) as [o1 off1] eqn:E1. destruct (output_text W off1 text m') as [o2 off2] eqn:E2.
    apply bind_Ok in H as ([o r] & H & [= <- <-]).
    pose proof (prefix_laid_out offset prefix) as P1. rewrite E1 in P1. pose proof (text_laid_out W off1 text m') as P2. rewrite E2 in P2.
    eapply laid_out_app; [done|]. eapply laid_out_app; [done|]. by eapply IH.
Qed.

(** ** Output to memory *)

Lemma store_spec (out : list Z) (offset : nat) s :
  (offset + length s ≤ length out)%nat → store out (Z.of_nat offset) s = Ok (take offset out ++ s ++ drop (offset + length s) out).
Proof.
  intros H. unfold store. destruct (Z.leb_spec 0 (Z.of_nat offset)), (Z.leb_spec (Z.of_nat offset + Z.of_nat (length s)) (Z.of_nat (length out))); try lia.
  cbn [andb require mbind outcome_bind]. by rewrite Nat2Z.id.
Qed.

(** The first [size] characters of [text] over the buffer. *)
Definition overlay (size : nat) (text out : list Z) : list Z := take size text ++ drop (min size (length text)) out.

Lemma overlay_length size text out : (size ≤ length out)%nat → length (overlay size text out) = length out.
Proof. intros H. unfold overlay. rewrite length_app, length_take, length_drop. lia. Qed.

Lemma overlay_store (size : nat) text s (out : list Z) :
  (size ≤ length out)%nat →
  __printf_out_str (Z.of_nat size) (overlay size text out) (Z.of_nat (length text), s) = Ok (overlay size (text ++ s) out).
Proof.
  intros H. unfold __printf_out_str. destruct (Z.ltb_spec (Z.of_nat (length text)) (Z.of_nat size)).
  - replace (Z.to_nat (Z.min (Z.of_nat size - Z.of_nat (length text)) (Z.of_nat (length s)))) with (min (size - length text) (length s)) by lia.
    set (k := min (size - length text) (length s)).
    rewrite store_spec by (rewrite overlay_length, length_take by done; lia). f_equal. unfold overlay.
    rewrite (take_ge text), Nat.min_r by lia. rewrite take_app_length. rewrite length_take, drop_app_ge by lia.
    rewrite drop_drop, take_app, (take_ge text) by lia. rewrite length_app, <-app_assoc. f_equal. f_equal; [|f_equal; lia].
    unfold k. by rewrite take_min || (destruct (decide (size - length text ≤ length s)%nat); [by rewrite Nat.min_l by lia|rewrite Nat.min_r, !take_ge by lia; done]).
  - unfold overlay. rewrite length_app, !Nat.min_l, take_app_le by lia. done.
Qed.

Lemma out_calls_spec (size : nat) (out : list Z) calls : (size ≤ length out)%nat → ∀ text end0,
  laid_out (Z.of_nat (length text)) calls end0 → out_calls (Z.of_nat size) (overlay size text out) calls = Ok (overlay size (text ++ text_of calls) out).
Proof.
  intros H. induction calls as [|[o s] calls IH]; intros text end0; cbn [laid_out out_calls].
  - intros _. unfold text_of. cbn. by rewrite app_nil_r.
  - intros [-> Hl]. rewrite overlay_store by done. cbn [mbind outcome_bind]. rewrite (IH (text ++ s) end0) by (rewrite length_app, Nat2Z.inj_add; done).
    unfold text_of. cbn. by rewrite <-app_assoc.
Qed.

(** [vsnprintf] with any format and arguments writes the beginning of the text
    and its NUL to the buffer, as far as [size] allows, and nothing else of the
    memory; no store leaves the buffer; it returns the length of the whole text. *)
Theorem vsnprintf_exact W FW (str : list Z) (size : nat) format ap calls res :
  formatter_printf W FW format ap = Ok (calls, res) → (size ≤ length str)%nat → Z.of_nat (length (text_of calls)) < 2 ^ W →
  vsnprintf W FW str (Z.of_nat size) format ap =
    Ok (take size (text_of calls ++ [0]) ++ drop (min size (length (text_of calls) + 1)) str, Z.of_nat (length (text_of calls))).
Proof.
  intros H Hs Hw. unfold vsnprintf. rewrite H. cbn [mbind outcome_bind]. apply run_laid_out in H.
  pose proof (laid_out_length _ _ _ H) as Hlen. rewrite Z.add_0_l in Hlen. subst res.
  assert (overlay size [] str = str) as E0 by (unfold overlay; by rewrite take_nil, Nat.min_0_r, drop_0).
  pose proof (out_calls_spec size str calls Hs [] _ H) as Ho. rewrite E0 in Ho. cbn [app] in Ho. rewrite Ho. cbn [mbind outcome_bind].
  rewrite wrapu_small by lia. set (text := text_of calls) in *.
  assert (overlay size (text ++ [0]) str = take size (text ++ [0]) ++ drop (min size (length text + 1)) str) as <-
    by (unfold overlay; by rewrite length_app).
  destruct (Z.ltb_spec (Z.of_nat (length text)) (Z.of_nat size)).
  - pose proof (overlay_store size text [0] str Hs) as Hst. unfold __printf_out_str in Hst.
    destruct (Z.ltb_spec (Z.of_nat (length text)) (Z.of_nat size)); [|lia].
    rewrite take_ge in Hst by (cbn; lia). rewrite Hst. done.
  - unfold overlay. rewrite length_app, !Nat.min_l, take_app_le by (cbn; lia). done.
Qed.

(** ** Format strings *)

(** A format is a sequence of literal text, percent signs and conversions with their
    modifiers. *)
Record directive := { d_left : bool; d_zero : bool; d_width : list Z; d_precision : option (list Z); d_conv : Z }.
Inductive item := Literal (s : list Z) | Percent | Directive (d : directive).

Definition show_item (i : item) : list Z :=
  match i with
  | Literal s => s
  | Percent => [37; 37]
  | Directive d =>
      [37] ++ (if d_left d then [45] else []) ++ (if d_zero d then [48] else []) ++ (hex_lower_base <$> d_width d) ++
      match d_precision d with Some p => [46] ++ (hex_lower_base <$> p) | None => [] end ++ [d_conv d]
  end.
Definition show (items : list item) : list Z := mjoin (show_item <$> items).

Definition modifiers_of (d : directive) : modifiers :=
  {| padindex := if d_precision d is Some _ then true else false; zeropad := d_zero d; rightpad := d_left d;
     padding0 := value 10 (d_width d); padding1 := if d_precision d is Some p then value 10 p else 0 |}.

(** The text that the conversions of the code give for the items. *)
Section reference.
Context (W FW : Z).
Fixpoint converted (items : list item) (ap : list arg) : outcome (list Z) :=
  match items with
  | [] => Ok []
  | Literal s :: items => t ← converted items ap; Ok (s ++ t)
  | Percent :: items => t ← converted items ap; Ok (37 :: t)
  | Directive d :: items =>
      '(r, ap) ← convert W FW (d_conv d) (modifiers_of d) ap;
      t ← converted items ap;
      Ok (match r with Some (prefix, text, m) => prefix ++ padded W text m | None => [] end ++ t)
  end.
End reference.

(** Digits of numbers that fit; a width does not begin with the flag [0]. *)
Definition number (ds : list Z) : Prop := Forall (λ d, 0 ≤ d < 10) ds ∧ (length ds ≤ 8)%nat.
Definition item_ok (W : Z) (i : item) : Prop :=
  match i with
  | Literal s => 37 ∉ s
  | Percent => True
  | Directive d => number (d_width d) ∧ head (d_width d) ≠ Some 0 ∧ (if d_precision d is Some p then number p else True) ∧
      d_conv d ≠ 37 ∧ modify W (d_conv d) no_modifiers = None
  end.

(** Literal text is collected. *)
Lemma run_literal W FW s format lit ap offset :
  37 ∉ s → run W FW (s ++ format) (Main lit) ap offset = run W FW format (Main (lit ++ s)) ap offset.
Proof.
  revert lit. induction s as [|c s IH]; intros lit H; [by rewrite app_nil_r|]. cbn [app run].
  destruct (Z.eqb_spec c 37) as [->|]; [set_solver|]. rewrite IH by set_solver. by rewrite <-app_assoc.
Qed.

(** Whether a character is a modifier does not depend on the state. *)
Lemma modify_None W c m m' : modify W c m = None → modify W c m' = None.
Proof. unfold modify. by repeat (case_match; [done|]). Qed.

(** A number sets the padding, the width or the precision. *)
Lemma modify_digit W d m :
  32 ≤ W → 0 ≤ d < 10 → 0 ≤ (if padindex m then padding1 m else padding0 m) < 10 ^ 8 →
  let p := (if padindex m then padding1 m else padding0 m) * 10 + d in
  modify W (hex_lower_base d) m = Some (Ok
    {| padindex := padindex m; zeropad := if (d =? 0) && negb (padindex m) && (padding0 m =? 0) then true else zeropad m; rightpad := rightpad m;
       padding0 := if padindex m then padding0 m else p; padding1 := if padindex m then p else padding1 m |}).
Proof.
  intros HW Hd Hp p. assert (2 ^ 31 ≤ 2 ^ (W - 1)) as Hw by (apply Z.pow_le_mono_r; lia). change (2 ^ 31) with 2147483648 in Hw.
  change (10 ^ 8) with 100000000 in Hp. unfold modify, hex_lower_base. destruct (Z.ltb_spec d 10); [|lia].
  destruct (Z.eqb_spec (48 + d) 45), (Z.leb_spec 48 (48 + d)), (Z.leb_spec (48 + d) 57); try lia. cbn [andb].
  rewrite !schk_Ok by lia. cbn [mbind outcome_bind].
  rewrite (schk_Ok W (_ + (48 + d))) by lia. cbn [mbind outcome_bind]. rewrite schk_Ok by lia. cbn [mbind outcome_bind].
  do 2 f_equal. f_equal; [|by destruct (padindex m); unfold p; lia..]. by replace (48 + d =? 48) with (d =? 0) by (destruct (Z.eqb_spec d 0), (Z.eqb_spec (48 + d) 48); done || lia).
Qed.

Definition current (m : modifiers) : Z := if padindex m then padding1 m else padding0 m.
Definition set_current (p : Z) (m : modifiers) : modifiers :=
  {| padindex := padindex m; zeropad := zeropad m; rightpad := rightpad m;
     padding0 := if padindex m then padding0 m else p; padding1 := if padindex m then p else padding1 m |}.

Lemma current_set p m : current (set_current p m) = p.
Proof. unfold current, set_current. cbn [padindex padding0 padding1]. by destruct (padindex m). Qed.

Lemma hex_digit_neq d : 0 ≤ d < 10 → hex_lower_base d ≠ 37.
Proof. unfold hex_lower_base. intros H. destruct (Z.ltb_spec d 10); lia. Qed.

Lemma run_number W FW ds format ap offset : 32 ≤ W → ∀ m,
  Forall (λ d, 0 ≤ d < 10) ds → (length ds ≤ 8)%nat → 0 ≤ current m < 10 ^ (8 - Z.of_nat (length ds)) →
  (padindex m = true ∨ padding0 m ≠ 0 ∨ head ds ≠ Some 0) →
  run W FW ((hex_lower_base <$> ds) ++ format) (Modifier m) ap offset =
    run W FW format (Modifier (set_current (fold_left (λ acc d, acc * 10 + d) ds (current m)) m)) ap offset.
Proof.
  intros HW. induction ds as [|d ds IH]; intros m Hf Hl Hc Hz; cbn [fmap list_fmap app fold_left run].
  { f_equal. f_equal. unfold set_current, current. destruct m as [[] ? ? ? ?]; done. }
  apply Forall_cons in Hf as [Hd Hf]. destruct (Z.eqb_spec (hex_lower_base d) 37) as [E|_]; [by destruct (hex_digit_neq d)|].
  cbn [length] in *. assert (10 ^ (8 - Z.of_nat (S (length ds))) ≤ 10 ^ 8) by (apply Z.pow_le_mono_r; lia).
  rewrite (modify_digit W d m HW Hd) by (unfold current in Hc; lia). cbn [mbind outcome_bind]. fold (current m).
  assert ((d =? 0) && negb (padindex m) && (padding0 m =? 0) = false) as ->.
  { destruct Hz as [-> |[Hz|Hz]]; [by rewrite andb_false_r|by apply Z.eqb_neq in Hz as ->; rewrite andb_false_r|].
    destruct (Z.eqb_spec d 0) as [-> |]; [by destruct Hz|done]. }
  match goal with |- run _ _ _ (Modifier ?x) _ _ = _ => change x with (set_current (current m * 10 + d) m) end.
  set (p := current m * 10 + d). change (list_fmap Z Z hex_lower_base ds) with (hex_lower_base <$> ds).
  rewrite IH; [|done|lia| |]; rewrite ?current_set.
  - f_equal. f_equal. unfold set_current. cbn [padindex padding0 padding1 zeropad rightpad]. by destruct (padindex m).
  - unfold p. replace (8 - Z.of_nat (length ds)) with (Z.succ (8 - Z.of_nat (S (length ds)))) by lia. rewrite Z.pow_succ_r by lia. lia.
  - cbn [set_current padindex padding0]. destruct (padindex m) eqn:E; [by left|]. right. left. unfold p.
    destruct Hz as [?|[Hz|Hz]]; [done| |].
    + unfold current in *. rewrite E in *. lia.
    + assert (d ≠ 0) by (intros ->; by destruct Hz). lia.
Qed.

Lemma run_directive W FW d format lit ap offset : 32 ≤ W → item_ok W (Directive d) →
  run W FW (show_item (Directive d) ++ format) (Main lit) ap offset =
    (let '(o, offset) := flush offset lit in
     '(r, ap) ← convert W FW (d_conv d) (modifiers_of d) ap;
     match r with
     | None => '(o', res) ← run W FW format (Main []) ap offset; Ok (o ++ o', res)
     | Some (prefix, text, m) =>
         let '(o1, offset) := output_prefix offset prefix in
         let '(o2, offset) := output_text W offset text m in
         '(o', res) ← run W FW format (Main []) ap offset; Ok (o ++ o1 ++ o2 ++ o', res)
     end).
Proof.
  intros HW ([Hw1 Hw2] & Hw3 & Hp & Hc & Hm). unfold show_item. rewrite <-!app_assoc. cbn [app run]. change (37 =? 37) with true.
  destruct (flush offset lit) as [o off]. set (m0 := no_modifiers).
  set (m1 := {| padindex := false; zeropad := false; rightpad := d_left d; padding0 := 0; padding1 := 0 |}).
  set (m2 := {| padindex := false; zeropad := d_zero d; rightpad := d_left d; padding0 := 0; padding1 := 0 |}).
  assert (∀ f, run W FW ((if d_left d then [45] else []) ++ f) (Modifier m0) ap off = run W FW f (Modifier m1) ap off) as -> by (intros f; unfold m1; by destruct (d_left d)).
  assert (∀ f, run W FW ((if d_zero d then [48] else []) ++ f) (Modifier m1) ap off = run W FW f (Modifier m2) ap off) as ->.
  { intros f. unfold m2. destruct (d_zero d); [|done]. cbn [app run]. pose proof (modify_digit W 0 m1 HW) as H0. cbn [m1 padindex padding0 padding1 negb andb] in H0.
    change (48 =? 37) with false. cbv iota. change (hex_lower_base 0) with 48 in H0. rewrite H0 by lia. done. }
  assert (10 ^ 0 ≤ 10 ^ (8 - Z.of_nat (length (d_width d)))) by (apply Z.pow_le_mono_r; lia).
  rewrite run_number; [|done|done|done|cbn; lia|by right; right].
  set (m3 := set_current _ m2).
  assert (∀ f, run W FW (match d_precision d with Some p => [46] ++ (hex_lower_base <$> p) | None => [] end ++ f) (Modifier m3) ap off =
    run W FW f (Modifier (modifiers_of d)) ap off) as ->.
  { intros f. unfold modifiers_of. destruct (d_precision d) as [p|] eqn:Ep; [|done]. destruct Hp as [Hp1 Hp2].
    cbn [app run]. change (46 =? 37) with false. cbv iota. unfold modify. cbn [Z.eqb Pos.eqb Z.leb Z.compare Pos.compare Pos.compare_cont andb mbind outcome_bind].
    assert (10 ^ 0 ≤ 10 ^ (8 - Z.of_nat (length p))) by (apply Z.pow_le_mono_r; lia).
    rewrite run_number; [done|done|done|done|cbn; lia|by left]. }
  cbn [app run]. destruct (Z.eqb_spec (d_conv d) 37); [done|]. rewrite (modify_None W _ no_modifiers) by done.
  destruct (convert W FW (d_conv d) (modifiers_of d) ap) as [[r ap']|]; [|done]. cbn [mbind outcome_bind].
  destruct r as [[[prefix text] m]|]; [|done]. destruct (output_prefix off prefix) as [o1 off1]. destruct (output_text W off1 text m) as [o2 off2].
  destruct (run W FW format (Main []) ap' off2) as [[o' res]|]; done.
Qed.

(** The state machine outputs item by item what the conversions give. *)
Lemma run_converted W FW items ap :
  32 ≤ W → Forall (item_ok W) items →
  (r ← formatter_printf W FW (show items) ap; Ok (text_of r.1)) = converted W FW items ap.
Proof.
  intros HW Hok. assert (∀ lit offset, (r ← run W FW (show items) (Main lit) ap offset; Ok (text_of r.1)) = (t ← converted W FW items ap; Ok (lit ++ t))) as H.
  - revert ap. induction Hok as [|i items Hi Hok IH]; intros ap lit offset.
    + cbn. f_equal. rewrite app_nil_r. apply prefix_text.
    + change (show (i :: items)) with (show_item i ++ show items). destruct i as [s| |d]; cbn [converted].
      * cbn [show_item]. rewrite run_literal by done. rewrite IH. destruct (converted W FW items ap); cbn; [by rewrite <-app_assoc|done].
      * cbn [show_item app run]. change (37 =? 37) with true. cbv iota. pose proof (prefix_text offset lit) as Hpt.
        destruct (output_prefix offset lit) as [o off] eqn:E. unfold flush. rewrite E. specialize (IH ap [] (off + 1)).
        destruct (run W FW (show items) (Main []) ap (off + 1)) as [[o' res]|]; cbn [mbind outcome_bind fst] in *.
        -- destruct (converted W FW items ap); cbn in IH |- *; [|done]. injection IH as <-. f_equal. rewrite text_of_app, text_of_cons. by rewrite <-Hpt.
        -- destruct (converted W FW items ap); cbn in IH |- *; [done|]. done.
      * rewrite run_directive by done. pose proof (prefix_text offset lit) as Hpt. unfold flush. destruct (output_prefix offset lit) as [o off] eqn:E.
        destruct (convert W FW (d_conv d) (modifiers_of d) ap) as [[r ap']|]; cbn [mbind outcome_bind]; [|done].
        destruct r as [[[prefix text] m]|].
        -- pose proof (prefix_text off prefix) as P1. destruct (output_prefix off prefix) as [o1 off1]. pose proof (text_padded W off1 text m) as P2.
           destruct (output_text W off1 text m) as [o2 off2]. specialize (IH ap' [] off2). cbn [fst] in *.
           destruct (run W FW (show items) (Main []) ap' off2) as [[o' res]|]; cbn [mbind outcome_bind fst] in *;
             destruct (converted W FW items ap'); cbn in IH |- *; simplify_eq; [|done]. f_equal. rewrite !text_of_app, P2, !app_assoc. done.
        -- specialize (IH ap' [] off). destruct (run W FW (show items) (Main []) ap' off) as [[o' res]|]; cbn [mbind outcome_bind fst] in *;
             destruct (converted W FW items ap'); cbn in IH |- *; simplify_eq; [|done]. f_equal. by rewrite text_of_app.
  - unfold formatter_printf. rewrite H. destruct (converted W FW items ap); done.
Qed.

(** ** The C standard *)

(** The digits of a number in a base, the most significant one first. *)
Fixpoint numeral_loop (fuel : nat) (base n : Z) : list Z :=
  match fuel with
  | O => [n]
  | S fuel => if n <? base then [n] else numeral_loop fuel base (n / base) ++ [n mod base]
  end.
Definition numeral (base n : Z) : list Z := numeral_loop (Z.to_nat (Z.log2 n)) base n.

(** It is the numeral of the number: digits below the base, of that value, without
    leading zero; and there is only one. *)
Lemma numeral_representation base n : 2 ≤ base → 0 ≤ n → representation base (numeral base n) n.
Proof.
  intros Hb. unfold numeral. assert (∀ fuel n, 0 ≤ n < 2 * 2 ^ Z.of_nat fuel → representation base (numeral_loop fuel base n) n) as H.
  2: { intros H0. apply H. rewrite Z2Nat.id by apply Z.log2_nonneg. destruct (decide (n = 0)) as [->|]; [done|]. pose proof (Z.log2_spec n ltac:(lia)). rewrite <-Z.pow_succ_r by apply Z.log2_nonneg. lia. }
  clear n. induction fuel as [|fuel IH]; intros n H0; cbn [numeral_loop].
  - cbn in H0. split_and!; [repeat constructor; lia|cbn; lia|done|]. by intros [= ->].
  - destruct (Z.ltb_spec n base).
    + split_and!; [repeat constructor; lia|cbn; lia|done|]. by intros [= ->].
    + assert (1 ≤ n / base) by (apply Z.div_le_lower_bound; lia). assert (n / base < n) by (apply Z.div_lt; lia).
      assert (n / base < 2 * 2 ^ Z.of_nat fuel) by (rewrite Nat2Z.inj_succ, Z.pow_succ_r in H0 by lia; apply Z.div_lt_upper_bound; nia).
      destruct (IH (n / base)) as (Hd & Hv & Hne & Hh); [lia..|]. pose proof (Z.mod_pos_bound n base ltac:(lia)).
      split_and!.
      * apply Forall_app_2; [done|]. by constructor.
      * rewrite value_snoc, Hv. pose proof (Z.div_mod n base ltac:(lia)). lia.
      * by destruct (numeral_loop fuel base (n / base)).
      * destruct (numeral_loop fuel base (n / base)) as [|d ds]; [done|]. cbn. intros [= ->]. specialize (Hh eq_refl). injection Hh as ->. cbn in Hv. lia.
Qed.

Lemma digits_value_range base ds : 2 ≤ base → Forall (λ d, 0 ≤ d < base) ds → 0 ≤ value base ds.
Proof.
  intros Hb. induction ds as [|d ds IH] using rev_ind; [done|]. rewrite Forall_app, Forall_singleton, value_snoc. intros [H1 H2]. specialize (IH H1). nia.
Qed.
Lemma representation_unique base ds ds' n : 2 ≤ base → representation base ds n → representation base ds' n → ds = ds'.
Proof.
  intros Hb. revert ds' n. induction ds as [|d ds IH] using rev_ind; intros ds' n (H1 & H2 & H3 & H4) (H1' & H2' & H3' & H4'); [done|].
  destruct ds' as [|d' ds' _] using rev_ind; [done|].
  apply Forall_app in H1 as [F1 G1]. apply Forall_app in H1' as [F2 G2].
  rewrite value_snoc in H2, H2'. apply Forall_inv in G1, G2. destruct (Z.div_mod_unique base (value base ds) (value base ds') d d') as [Ev ->]; [by left|by left|rewrite !(Z.mul_comm base); congruence|].
  assert (∀ l : list Z, Forall (λ d, 0 ≤ d < base) l → (head (l ++ [d']) = Some 0 → l ++ [d'] = [0]) → l = [] ∧ value base l = 0 ∨ l ≠ [] ∧ value base l ≠ 0 ∧ (head l = Some 0 → l = [0])) as Hcase.
  { intros l Hl Hhd. destruct l as [|x l]; [by left|right]. split; [done|]. cbn in Hhd.
    assert (x ≠ 0) by (intros ->; by destruct l; specialize (Hhd eq_refl)). split; [|by intros [= ->]].
    apply Forall_cons in Hl as [Hx Hl]. clear -Hx Hl H Hb. revert Hl. induction l as [|y l IH] using rev_ind; [cbn; lia|].
    rewrite Forall_app, Forall_singleton. intros [H1 H2]. change (x :: l ++ [y]) with ((x :: l) ++ [y]). rewrite value_snoc.
    specialize (IH H1). pose proof (digits_value_range base (x :: l) Hb ltac:(by constructor)). nia. }
  destruct (Hcase ds F1 H4) as [[-> E1]|(N1 & V1 & P1)], (Hcase ds' F2 H4') as [[-> E2]|(N2 & V2 & P2)]; try done; try congruence.
  f_equal. apply (IH ds' (value base ds)); done.
Qed.

(** Conversions of the standard: the text of one argument.  [W]: the width of
    integers and pointers. *)
Section standard.
Context (W : Z).

Definition pad (c : Z) (width len : Z) : list Z := replicate (Z.to_nat (width - len)) c.
(** The field width: spaces on the left, or on the right with the flag [-]. *)
Definition field (d : directive) (s : list Z) : list Z :=
  let spaces := pad 32 (value 10 (d_width d)) (Z.of_nat (length s)) in
  if d_left d then s ++ spaces else spaces ++ s.
(** A number: the precision is the minimal number of digits; without it the flag [0]
    fills the field with zeros behind the sign. *)
Definition number_text (d : directive) (sign digits : list Z) (zero : bool) : list Z :=
  match d_precision d with
  | Some p =>
      let digits := if (value 10 p =? 0) && zero then [] else digits in
      field d (sign ++ pad 48 (value 10 p) (Z.of_nat (length digits)) ++ digits)
  | None =>
      if d_zero d && negb (d_left d) then sign ++ pad 48 (value 10 (d_width d)) (Z.of_nat (length (sign ++ digits))) ++ digits
      else field d (sign ++ digits)
  end.
(** The characters of a string up to its NUL, at most as many as the precision. *)
Definition string_text (precision : option (list Z)) (mem : list Z) : option (list Z) :=
  let shown := match precision with Some p => take (Z.to_nat (value 10 p)) mem | None => mem end in
  match list_find (λ c, c = 0) shown, precision with
  | Some (i, _), _ => Some (take i shown)
  | None, Some p => if value 10 p <=? Z.of_nat (length mem) then Some shown else None
  | None, None => None
  end.

Definition lower (d : Z) : Z := if d <? 10 then 48 + d else 97 + (d - 10).
Definition upper (d : Z) : Z := if d <? 10 then 48 + d else 65 + (d - 10).

Definition standard_conv (d : directive) (a : arg) : option (list Z) :=
  let unsigned digits base v := number_text d [] (digits <$> numeral base (wrapu W v)) (wrapu W v =? 0) in
  match a with
  | VInt v =>
      let sv := wraps W v in
      if (d_conv d =? 100) || (d_conv d =? 105) (* d i *) then
        Some (number_text d (if sv <? 0 then [45] else []) (lower <$> numeral 10 (Z.abs sv)) (sv =? 0))
      else if d_conv d =? 117 (* u *) then Some (unsigned lower 10 v)
      else if d_conv d =? 111 (* o *) then Some (unsigned lower 8 v)
      else if d_conv d =? 120 (* x *) then Some (unsigned lower 16 v)
      else if d_conv d =? 88 (* X *) then Some (unsigned upper 16 v)
      else if d_conv d =? 99 (* c *) then Some (field d [wrapu 8 v])
      else None
  | VPtr addr mem =>
      if d_conv d =? 115 (* s *) then field d <$> string_text (d_precision d) mem
      else if d_conv d =? 112 (* p: 0x and all the digits of the address *) then
        let ds := lower <$> numeral 16 (wrapu W addr) in Some ([48; 120] ++ pad 48 (W / 8 * 2) (Z.of_nat (length ds)) ++ ds)
      else None
  end.

Fixpoint standard (items : list item) (ap : list arg) : option (list Z) :=
  match items with
  | [] => Some []
  | Literal s :: items => t ← standard items ap; Some (s ++ t)
  | Percent :: items => t ← standard items ap; Some (37 :: t)
  | Directive d :: items =>
      match ap with
      | a :: ap => s ← standard_conv d a; t ← standard items ap; Some (s ++ t)
      | [] => None
      end
  end.
End standard.

(** ** Where the code follows it *)

Section conforming.
Context (W FW : Z).

(** A value that [__printf_putint] prints: its buffer has 20 digits, and unless the
    arithmetic is unsigned the highest bit makes it negative. *)
Definition printable (base v : Z) : Prop := wrapu W v < base ^ 20 ∧ (is_unsigned W FW = true ∨ wrapu W v < 2 ^ (W - 1)).
(** The precision of an integer replaces its field width; it is read only for [%d],
    [%i] and [%u], and has no effect on the left. *)
Definition plain (d : directive) : Prop :=
  match d_precision d with
  | None => True
  | Some p => 0 < value 10 p ∧ d_left d = false ∧ value 10 (d_width d) ≤ value 10 p ∧ (d_conv d = 100 ∨ d_conv d = 105 ∨ d_conv d = 117)
  end.

(** - a negative number is not the smallest one, and its field width does not exceed
      its digits, since the sign is output before the padding and not counted;
    - the precision of a string is not 0, which means none here;
    - characters and strings do not have the flag [0], nor characters a precision;
    - pointers have no flags, width or precision. *)
Definition conforming (d : directive) (a : arg) : Prop :=
  match a with
  | VInt v =>
      if (d_conv d =? 100) || (d_conv d =? 105) then
        plain d ∧ wraps W v ≠ - 2 ^ (W - 1) ∧
        (wraps W v < 0 → d_precision d = None → value 10 (d_width d) ≤ Z.of_nat (length (numeral 10 (- wraps W v))))
      else if d_conv d =? 99 then d_zero d = false ∧ d_precision d = None
      else plain d ∧ printable (if d_conv d =? 111 then 8 else if d_conv d =? 117 then 10 else 16) v
  | VPtr addr mem =>
      Z.of_nat (length mem) < 2 ^ 31 ∧
      if d_conv d =? 115 then d_zero d = false ∧ (∀ p, d_precision d = Some p → 0 < value 10 p)
      else d_left d = false ∧ d_zero d = false ∧ d_width d = [] ∧ d_precision d = None ∧ printable 16 addr
  end.
Fixpoint conforms (items : list item) (ap : list arg) : Prop :=
  match items with
  | [] => True
  | Literal _ :: items | Percent :: items => conforms items ap
  | Directive d :: items => match ap with a :: ap => conforming d a ∧ conforms items ap | [] => False end
  end.
End conforming.

Section proof.
Context (W FW : Z) (HW : 32 ≤ W ≤ 64).

Lemma putint_numeral digits base v : 2 ≤ base ≤ 16 → printable W FW base v →
  __printf_putint W FW (wraps W v) digits base = Ok (digits <$> numeral base (wrapu W v)).
Proof using HW.
  intros Hb [Hl Hu]. pose proof (wrapu_range W v ltac:(lia)) as Hr. unfold __printf_putint.
  destruct (putint_loop_spec W FW digits base Hb ltac:(lia) PRINTF_INT_BUFFER_LEN (wrapu W v) []) as (ds & E & H);
    [lia|lia|exact Hl|unfold PRINTF_INT_BUFFER_LEN; lia|].
  rewrite (representation_unique base (numeral base (wrapu W v)) ds (wrapu W v)) by (done || lia || by apply numeral_representation; lia).
  rewrite app_nil_r in E. rewrite <-E. destruct Hu as [Hu|Hu].
  - unfold PRINTF_INT_BUFFER_LEN. cbn [putint_loop].
    rewrite <-(rem_wrap W FW (wraps W v)), <-(quot_wrap W FW (wraps W v)) by (done || lia). unfold wrapu. by rewrite wraps_mod by lia.
  - assert (wraps W v = wrapu W v) as ->; [|done]. rewrite <-(wraps_small W (wrapu W v)) by lia.
    unfold wraps, wrapu. by rewrite Z.add_mod_idemp_l by (pose proof (pow2_pos W); lia).
Qed.
Lemma putint_natural digits n : 0 ≤ n < 2 ^ (W - 1) → __printf_putint W FW n digits 10 = Ok (digits <$> numeral 10 n).
Proof using HW.
  intros Hn. pose proof (pow2_pred W ltac:(lia)). assert (2 ^ (W - 1) ≤ 2 ^ 63) by (apply Z.pow_le_mono_r; lia).
  pose proof (putint_numeral digits 10 n ltac:(lia)) as Hp. rewrite wrapu_small, wraps_small in Hp by lia. apply Hp.
  split; [|right]; rewrite wrapu_small by lia; [|lia]. change (2 ^ 63) with 9223372036854775808 in *. change (10 ^ 20) with 100000000000000000000. lia.
Qed.

(** *** Texts *)

Lemma numeral_length base n : 0 ≤ n < 2 ^ 64 → (0 < length (numeral base n) ≤ 64)%nat.
Proof.
  intros Hn. assert (∀ fuel n, (0 < length (numeral_loop fuel base n) ≤ S fuel)%nat) as H.
  { clear. induction fuel as [|fuel IH]; intros n; cbn [numeral_loop]; [cbn; lia|]. destruct (n <? base); [cbn; lia|].
    rewrite length_app. cbn [length]. specialize (IH (n / base)). lia. }
  specialize (H (Z.to_nat (Z.log2 n)) n). fold (numeral base n) in H. split; [lia|].
  assert (Z.log2 n < 64); [|pose proof (Z.log2_nonneg n); lia].
  destruct (decide (n = 0)) as [->|]; [done|]. apply Z.log2_lt_pow2; lia.
Qed.

Lemma value_bound ds : Forall (λ d, 0 ≤ d < 10) ds → 0 ≤ value 10 ds < 10 ^ Z.of_nat (length ds).
Proof.
  induction ds as [|d ds IH] using rev_ind; [done|]. rewrite Forall_app, value_snoc, length_app. intros [H1 H2%Forall_inv]. specialize (IH H1).
  cbn [length]. rewrite Nat2Z.inj_add, Z.pow_add_r by lia. change (10 ^ Z.of_nat 1) with 10. lia.
Qed.
Lemma number_bound ds : number ds → 0 ≤ value 10 ds < 100000000.
Proof.
  intros [H1 H2]. pose proof (value_bound ds H1). assert (10 ^ Z.of_nat (length ds) ≤ 10 ^ 8) by (apply Z.pow_le_mono_r; lia).
  change (10 ^ 8) with 100000000 in *. lia.
Qed.

Lemma padded_pad text m : 0 ≤ padding0 m < 100000000 → Z.of_nat (length text) < 2 ^ 31 →
  padded W text m = if rightpad m then text ++ pad 32 (padding0 m) (Z.of_nat (length text))
                    else pad (if zeropad m then 48 else 32) (padding0 m) (Z.of_nat (length text)) ++ text.
Proof using HW.
  intros Hp Hl. assert (2 ^ 31 ≤ 2 ^ (W - 1)) by (apply Z.pow_le_mono_r; lia). change (2 ^ 31) with 2147483648 in *.
  unfold padded, pad. rewrite wraps_small by lia.
  by replace (Z.to_nat (Z.max (padding0 m - Z.of_nat (length text)) 0)) with (Z.to_nat (padding0 m - Z.of_nat (length text))) by lia.
Qed.

Lemma pad_none c width len : width ≤ len → pad c width len = [].
Proof. intros H. unfold pad. by replace (Z.to_nat (width - len)) with 0%nat by lia. Qed.
Lemma field_none d s : value 10 (d_width d) ≤ Z.of_nat (length s) → field d s = s.
Proof. intros H. unfold field. rewrite pad_none by done. rewrite app_nil_r. by destruct (d_left d). Qed.

Lemma padding_length c width len : Z.of_nat (length (pad c width len)) = Z.max 0 (width - len).
Proof. unfold pad. rewrite length_replicate. lia. Qed.

(** A number, with the sign the code outputs first. *)
Lemma number_conv d sign digits zero :
  item_ok W (Directive d) → plain d → Z.of_nat (length digits) < 2 ^ 31 →
  sign = [] ∨ (d_precision d = None → value 10 (d_width d) ≤ Z.of_nat (length digits)) →
  sign ++ padded W digits (precision (modifiers_of d)) = number_text d sign digits zero.
Proof using HW.
  intros (Hw & _ & Hp & _) Hpl Hl Hs. apply number_bound in Hw. unfold plain, number_text, precision, modifiers_of in *.
  destruct (d_precision d) as [p|]; cbn [padding1].
  - destruct Hpl as (Hp0 & Hle & Hwp & _). apply number_bound in Hp.
    destruct (Z.eqb_spec (value 10 p) 0); [lia|]. cbn [andb].
    rewrite padded_pad by (cbn; done). cbn [padding0 rightpad zeropad set_padding]. rewrite Hle.
    rewrite field_none; [done|]. rewrite !length_app, !Nat2Z.inj_add, padding_length. lia.
  - cbn [Z.eqb]. rewrite padded_pad by (cbn; done). cbn [padding0 rightpad zeropad]. unfold field.
    destruct (d_left d); [rewrite andb_false_r|rewrite andb_true_r].
    + destruct Hs as [->|Hs]; [done|]. specialize (Hs eq_refl). rewrite !pad_none by (rewrite ?length_app; lia). by rewrite !app_nil_r.
    + destruct Hs as [->|Hs]; [by destruct (d_zero d)|]. specialize (Hs eq_refl). rewrite !pad_none by (rewrite ?length_app; lia). by destruct (d_zero d).
Qed.

(** Strings. *)
Lemma until_nul_text mem t : string_text None mem = Some t → until_nul mem = Ok t.
Proof.
  unfold string_text. revert t. induction mem as [|c mem IH]; intros t; cbn [list_find until_nul]; [done|].
  destruct (Z.eqb_spec c 0) as [->|Hc]; [by intros [= <-]|]. rewrite decide_False by done.
  destruct (list_find (λ c, c = 0) mem) as [[i x]|]; cbn; [|done]. intros [= <-]. by rewrite (IH (take i mem)).
Qed.
Lemma at_most_text p mem t : string_text (Some p) mem = Some t → at_most (Z.to_nat (value 10 p)) mem = Ok t.
Proof.
  unfold string_text. assert ((value 10 p <=? Z.of_nat (length mem)) = (Z.to_nat (value 10 p) <=? length mem)%nat) as ->.
  { destruct (Z.leb_spec (value 10 p) (Z.of_nat (length mem))), (Nat.leb_spec (Z.to_nat (value 10 p)) (length mem)); lia. }
  generalize (Z.to_nat (value 10 p)) as n. intros n. revert mem t. induction n as [|n IH]; intros mem t; cbn [take at_most]; [by intros [= <-]|].
  destruct mem as [|c mem]; [done|]. cbn [take list_find]. destruct (Z.eqb_spec c 0) as [->|Hc]; [by intros [= <-]|]. rewrite decide_False by done.
  specialize (IH mem). cbn [length Nat.leb]. destruct (list_find (λ c, c = 0) (take n mem)) as [[i x]|]; cbn.
  - intros [= <-]. by rewrite (IH _ eq_refl).
  - destruct (n <=? length mem)%nat; [|done]. intros [= <-]. by rewrite (IH _ eq_refl).
Qed.
Lemma string_length precision mem t : string_text precision mem = Some t → (length t ≤ length mem)%nat.
Proof.
  unfold string_text. set (shown := match precision with Some _ => _ | None => _ end).
  assert (length shown ≤ length mem)%nat as Hs by (unfold shown; destruct precision; rewrite ?length_take; lia).
  destruct (list_find _ shown) as [[i x]|]; [intros [= <-]; rewrite length_take; lia|].
  destruct precision; [|done]. destruct (_ <=? _); [|done]. by intros [= <-].
Qed.

Lemma lower_digits (l : list Z) : lower <$> l = hex_lower_base <$> l.
Proof. apply list_fmap_ext. intros _ d _. unfold lower, hex_lower_base. destruct (d <? 10); lia. Qed.
Lemma upper_digits (l : list Z) : upper <$> l = hex_upper_base <$> l.
Proof. apply list_fmap_ext. intros _ d _. unfold upper, hex_upper_base. destruct (d <? 10); lia. Qed.
Lemma digits_short (digits : Z → Z) base v : Z.of_nat (length (digits <$> numeral base (wrapu W v))) < 2 ^ 31.
Proof using HW.
  pose proof (wrapu_range W v ltac:(lia)). assert (2 ^ W ≤ 2 ^ 64) by (apply Z.pow_le_mono_r; lia).
  pose proof (numeral_length base (wrapu W v) ltac:(lia)). rewrite length_fmap. change (2 ^ 31) with 2147483648. lia.
Qed.

(** What one conversion outputs. *)
Definition outputs (d : directive) (a : arg) (t : list Z) : Prop :=
  ∀ ap, ∃ prefix text m, convert W FW (d_conv d) (modifiers_of d) (a :: ap) = Ok (Some (prefix, text, m), ap) ∧ prefix ++ padded W text m = t.

Lemma signed_conforms d v zero : d_conv d = 100 ∨ d_conv d = 105 → item_ok W (Directive d) → conforming W FW d (VInt v) →
  outputs d (VInt v) (number_text d (if wraps W v <? 0 then [45] else []) (hex_lower_base <$> numeral 10 (Z.abs (wraps W v))) zero).
Proof using HW.
  intros Hd Hok Hc ap. unfold conforming in Hc. rewrite (proj2 (orb_true_iff (d_conv d =? 100) (d_conv d =? 105))) in Hc by (destruct Hd as [-> | ->]; auto).
  destruct Hc as (Hpl & Hmin & Hneg). pose proof (wraps_range W v ltac:(lia)) as Hr. set (sv := wraps W v) in *.
  assert (2 ^ (W - 1) ≤ 2 ^ 63) by (apply Z.pow_le_mono_r; lia). change (2 ^ 63) with 9223372036854775808 in *.
  pose proof (numeral_length 10 (Z.abs sv) ltac:(change (2 ^ 64) with 18446744073709551616; lia)) as Hlen.
  assert (Z.of_nat (length (hex_lower_base <$> numeral 10 (Z.abs sv))) < 2 ^ 31) by (rewrite length_fmap; change (2 ^ 31) with 2147483648; lia).
  unfold convert. cbn [va_int mbind outcome_bind]. fold sv.
  replace (d_conv d =? 99) with false by (destruct Hd as [-> | ->]; done). rewrite (proj2 (orb_true_iff _ _)) by (destruct Hd as [-> | ->]; auto).
  destruct (Z.ltb_spec sv 0).
  - rewrite schk_Ok by lia. cbn [mbind outcome_bind]. rewrite putint_natural by lia. cbn [mbind outcome_bind]. rewrite Z.abs_neq in * by lia.
    eexists _, _, _. split; [reflexivity|]. apply number_conv; try done. right. intros Hn. rewrite length_fmap. auto.
  - rewrite Z.abs_eq in * by lia. rewrite putint_natural by lia. cbn [mbind outcome_bind].
    eexists _, _, _. split; [reflexivity|]. apply number_conv; try done. by left.
Qed.

Lemma unsigned_text d v digits base zero : item_ok W (Directive d) → plain d → printable W FW base v → 2 ≤ base ≤ 16 →
  let ds := digits <$> numeral base (wrapu W v) in
  __printf_putint W FW (wraps W v) digits base = Ok ds ∧ padded W ds (precision (modifiers_of d)) = number_text d [] ds zero.
Proof using HW.
  intros Hok Hpl Hpr Hb ds. split; [by apply putint_numeral|]. rewrite <-(number_conv d [] ds zero Hok Hpl); [done|apply digits_short|by left].
Qed.
Lemma no_precision d : d_precision d = None → precision (modifiers_of d) = modifiers_of d.
Proof. unfold precision, modifiers_of. by intros ->. Qed.
Lemma plain_none d : plain d → d_conv d ≠ 100 → d_conv d ≠ 105 → d_conv d ≠ 117 → d_precision d = None.
Proof. unfold plain. destruct (d_precision d); [|done]. intuition. Qed.

Lemma int_conforms d v t : item_ok W (Directive d) → conforming W FW d (VInt v) → standard_conv W d (VInt v) = Some t → outputs d (VInt v) t.
Proof using HW.
  intros Hok Hc. unfold standard_conv. destruct ((d_conv d =? 100) || (d_conv d =? 105)) eqn:Hd.
  { rewrite lower_digits. intros [= <-]. apply signed_conforms; [|done|done]. apply orb_true_iff in Hd as [Hd|Hd]; apply Z.eqb_eq in Hd; auto. }
  pose proof Hd as [H100 H105]%orb_false_iff. apply Z.eqb_neq in H100, H105. unfold conforming in Hc. rewrite Hd in Hc.
  assert (∀ digits base zero, 2 ≤ base ≤ 16 → plain d → printable W FW base v →
    (∀ ap, ∃ m, convert W FW (d_conv d) (modifiers_of d) (VInt v :: ap) = (s ← __printf_putint W FW (wraps W v) digits base; Ok (Some ([], s, m), ap)) ∧ m = precision (modifiers_of d)) →
    outputs d (VInt v) (number_text d [] (digits <$> numeral base (wrapu W v)) zero)) as Hun.
  { intros digits base zero Hb Hpl Hpr Hconv ap. destruct (Hconv ap) as (m & -> & ->). destruct (unsigned_text d v digits base zero Hok Hpl Hpr Hb) as [-> Ht].
    eexists [], _, _. split; [reflexivity|exact Ht]. }
  destruct (Z.eqb_spec (d_conv d) 117) as [E|N117].
  { intros [= <-]. rewrite E in Hc. cbn in Hc. destruct Hc as [Hpl Hpr]. rewrite lower_digits. apply Hun; [lia|done|done|]. intros ap. eexists. split; [|reflexivity]. unfold convert. rewrite E. reflexivity. }
  destruct (Z.eqb_spec (d_conv d) 111) as [E|N111].
  { intros [= <-]. rewrite E in Hc. cbn in Hc. destruct Hc as [Hpl Hpr]. rewrite lower_digits. apply Hun; [lia|done|done|]. intros ap. eexists. split; [|reflexivity].
    rewrite no_precision by by apply plain_none. unfold convert. rewrite E. reflexivity. }
  destruct (Z.eqb_spec (d_conv d) 120) as [E|N120].
  { intros [= <-]. rewrite E in Hc. cbn in Hc. destruct Hc as [Hpl Hpr]. rewrite lower_digits. apply Hun; [lia|done|done|]. intros ap. eexists. split; [|reflexivity].
    rewrite no_precision by by apply plain_none. unfold convert. rewrite E. reflexivity. }
  destruct (Z.eqb_spec (d_conv d) 88) as [E|N88].
  { intros [= <-]. rewrite E in Hc. cbn in Hc. destruct Hc as [Hpl Hpr]. rewrite upper_digits. apply Hun; [lia|done|done|]. intros ap. eexists. split; [|reflexivity].
    rewrite no_precision by by apply plain_none. unfold convert. rewrite E. reflexivity. }
  destruct (Z.eqb_spec (d_conv d) 99) as [E|]; [|done]. destruct Hc as [Hz Hp]. intros [= <-] ap. eexists [], [wrapu 8 (wraps W v)], _. split; [unfold convert; rewrite E; reflexivity|].
  destruct Hok as (Hw & _). apply number_bound in Hw. rewrite padded_pad by (cbn; done). unfold modifiers_of, field. cbn [padding0 rightpad zeropad length app]. rewrite Hz.
  assert (wrapu 8 (wraps W v) = wrapu 8 v) as ->; [|done]. apply Z.bits_inj'. intros i Hi. rewrite !testbit_wrapu by lia. destruct (Z.ltb_spec i 8); [|done]. by rewrite testbit_wraps by lia.
Qed.

Lemma ptr_conforms d addr mem t : item_ok W (Directive d) → conforming W FW d (VPtr addr mem) → standard_conv W d (VPtr addr mem) = Some t → outputs d (VPtr addr mem) t.
Proof using HW.
  intros Hok [Hm Hc]. unfold standard_conv. destruct Hok as (Hw & _ & _). apply number_bound in Hw.
  destruct (Z.eqb_spec (d_conv d) 115) as [E|].
  - destruct Hc as [Hz Hp]. destruct (string_text (d_precision d) mem) as [s|] eqn:Es; [|done]. intros [= <-] ap.
    pose proof (string_length _ _ _ Es). exists [], s, (set_padding false (padding0 (modifiers_of d)) (rightpad (modifiers_of d)) (modifiers_of d)).
    split.
    + unfold convert. rewrite E. cbn [va_int mbind outcome_bind Z.eqb Pos.eqb orb of_option].
      unfold modifiers_of in *. cbn [padding1]. destruct (d_precision d) as [p|].
      * specialize (Hp p eq_refl). destruct (Z.eqb_spec (value 10 p) 0); [lia|]. by rewrite (at_most_text _ _ _ Es).
      * cbn [Z.eqb]. by rewrite (until_nul_text _ _ Es).
    + rewrite padded_pad by (cbn; lia). unfold modifiers_of, field. cbn. by destruct (d_left d).
  - destruct (Z.eqb_spec (d_conv d) 112) as [E|]; [|done]. destruct Hc as (Hl & Hz & Hwd & Hp & Hpr). intros [= <-] ap. rewrite lower_digits.
    pose proof (putint_numeral hex_lower_base 16 addr ltac:(lia) Hpr) as Hput.
    eexists [48; 120], _, _. split; [unfold convert; rewrite E; cbn [va_int mbind outcome_bind Z.eqb Pos.eqb orb]; rewrite Hput; reflexivity|].
    rewrite padded_pad; [done| |apply digits_short]. cbn. assert (0 ≤ W / 8 ≤ 8) by (split; [apply Z.div_pos; lia|apply Z.div_le_upper_bound; lia]). lia.
Qed.

Lemma converted_conforms items : ∀ ap text, Forall (item_ok W) items → conforms W FW items ap → standard W items ap = Some text → converted W FW items ap = Ok text.
Proof using HW.
  induction items as [|i items IH]; intros ap text Hok Hc; cbn [standard converted]; [by intros [= ->]|].
  apply Forall_cons in Hok as [Hi Hok]. destruct i as [s| |d]; cbn [conforms] in Hc.
  - destruct (standard W items ap) as [t|] eqn:E; cbn [mbind option_bind]; [|done]. intros [= <-]. by rewrite (IH _ _ Hok Hc E).
  - destruct (standard W items ap) as [t|] eqn:E; cbn [mbind option_bind]; [|done]. intros [= <-]. by rewrite (IH _ _ Hok Hc E).
  - destruct ap as [|a ap]; [done|]. destruct Hc as [Ha Hc]. destruct (standard_conv W d a) as [s|] eqn:Es; cbn [mbind option_bind]; [|done].
    destruct (standard W items ap) as [t|] eqn:E; cbn [mbind option_bind]; [|done]. intros [= <-].
    assert (outputs d a s) as Ho by (destruct a; [by apply int_conforms|by apply ptr_conforms]).
    destruct (Ho ap) as (prefix & tx & m & -> & <-). cbn [mbind outcome_bind]. by rewrite (IH _ _ Hok Hc E).
Qed.
End proof.

(** C33. For a format of literal text, percent signs and the conversions d, i, u, o,
    x, X, c, s and p with the flags [-] and [0], width and precision,
    [formatter_printf] outputs the text that the C standard gives, piece behind piece
    from offset 0, and returns its length.  [conforming] lists, argument by argument,
    where the code departs from the standard: negative numbers wider than their
    digits and the smallest one, precisions of integers next to a width or a flag or
    in other bases than 10, precision 0, and values that the buffer or the signed
    arithmetic of [__printf_putint] does not take. *)
Theorem formatter_prints_standard W FW items ap text :
  32 ≤ W ≤ 64 → Forall (item_ok W) items → conforms W FW items ap → standard W items ap = Some text →
  ∃ calls, formatter_printf W FW (show items) ap = Ok (calls, Z.of_nat (length text)) ∧
    laid_out 0 calls (Z.of_nat (length text)) ∧ text_of calls = text.
Proof.
  intros HW Hok Hc Hs. pose proof (converted_conforms W FW HW items ap text Hok Hc Hs) as Ht.
  pose proof (run_converted W FW items ap ltac:(lia) Hok) as Hr. rewrite Ht in Hr.
  apply bind_Ok in Hr as ([calls res] & E & [= <-]). pose proof (run_laid_out _ _ _ _ _ _ _ _ E) as Hl.
  pose proof (laid_out_length _ _ _ Hl) as ->. exists calls. split_and!; [exact E|exact Hl|done].
Qed.

(** ** Examples *)

(** ["n=%-6d|%04x|%.3d%s%%"] with 42, 255, -7 and ["ok"]. *)
Definition demo_items : list item :=
  [Literal [110; 61]; Directive {| d_left := true; d_zero := false; d_width := [6]; d_precision := None; d_conv := 100 |}; Literal [124];
   Directive {| d_left := false; d_zero := true; d_width := [4]; d_precision := None; d_conv := 120 |}; Literal [124];
   Directive {| d_left := false; d_zero := false; d_width := []; d_precision := Some [3]; d_conv := 100 |};
   Directive {| d_left := false; d_zero := false; d_width := []; d_precision := None; d_conv := 115 |}; Percent].
Definition demo_args : list arg := [VInt 42; VInt 255; VInt (-7); VPtr 0x1000 [111; 107; 0]].
Definition demo_text : list Z := [110; 61; 52; 50; 32; 32; 32; 32; 124; 48; 48; 102; 102; 124; 45; 48; 48; 55; 111; 107; 37].

Lemma demo_ok : Forall (item_ok 32) demo_items.
Proof.
  unfold demo_items. repeat apply Forall_cons_2; [..|apply Forall_nil_2]; cbn [item_ok d_width d_precision d_conv number]; try done;
    try (intros H; cbn in H; set_solver by lia); (split; [split; [repeat apply Forall_cons_2; try apply Forall_nil_2; lia|cbn; lia]|split; [done|]]); try done.
  split; [|done]. split; [repeat apply Forall_cons_2; try apply Forall_nil_2; lia|cbn; lia].
Qed.
Lemma formatter_prints_standard_witness :
  ∃ calls, formatter_printf 32 32 (show demo_items) demo_args = Ok (calls, 21) ∧ text_of calls = demo_text.
Proof.
  destruct (formatter_prints_standard 32 32 demo_items demo_args demo_text) as (calls & E & _ & Ht).
  - lia.
  - exact demo_ok.
  - cbn [conforms demo_items demo_args]. split_and!; try done.
    + by split; [|split; [|left]].
    + split; [|done]. split_and!; try done. by left.
  - vm_compute. reflexivity.
  - exists calls. split; [exact E|exact Ht].
Defined.

Lemma vsnprintf_exact_witness :
  vsnprintf 32 32 [9; 9; 9; 9; 9] 4 [97; 37; 100; 98; 99] [VInt 7] =
    Ok (take 4 (text_of [(0, [97]); (1, [55]); (2, [98; 99])] ++ [0]) ++ drop (min 4 (length (text_of [(0, [97]); (1, [55]); (2, [98; 99])]) + 1)) [9; 9; 9; 9; 9],
        Z.of_nat (length (text_of [(0, [97]); (1, [55]); (2, [98; 99])]))).
Proof.
  refine (vsnprintf_exact 32 32 [9; 9; 9; 9; 9] 4 [97; 37; 100; 98; 99] [VInt 7] [(0, [97]); (1, [55]); (2, [98; 99])] 4 _ _ _);
    [vm_compute; reflexivity|cbn; lia|vm_compute; reflexivity].
Defined.

(** ** Behaviour to know *)

(** The sign of a negative number is output before the padding with spaces, and is
    not counted in the width: ["%5d"] of -3 has six characters. *)
Theorem sign_before_padding :
  (r ← formatter_printf 32 32 [37; 53; 100] [VInt (-3)]; Ok (text_of r.1)) = Ok [45; 32; 32; 32; 32; 51].
Proof. vm_compute. reflexivity. Qed.

(** The smallest integer is negated. *)
Theorem int_min_overflows : formatter_printf 32 32 [37; 100] [VInt (-2147483648)] = Err FUndef.
Proof. vm_compute. reflexivity. Qed.

(** Text that does not fit is not terminated. *)
Theorem truncated_not_terminated : vsnprintf 32 32 [9; 9; 9] 2 [97; 98; 99] [] = Ok ([97; 98; 9], 3).
Proof. vm_compute. reflexivity. Qed.
End Formatter.
