(* ===== verification/Ring.v ===== *)
(** * Ring buffers of the container library (gpct cont_ring.t, _cont_ring.t)

    The RING container keeps its items in an array whose size is a power of two.
    [first] is a free running index of the machine's width that is never reduced:
    it wraps, and each access masks it.  The file models the access functions and
    proves that a ring is a bounded double ended queue, for every sequence of
    operations and whatever the value of [first]. *)

From S2P Require Import Prelude.

Module Ring.

(** ** Data and operations *)

Record root (A : Type) := { first : Z; count : Z; data : list A }.
Arguments first {A} _.
Arguments count {A} _.
Arguments data {A} _.

Section ring.
(** The items, the width of [gpct_index_t] (size_t) and the logarithm of the
    number of cells. *)
Context {A : Type} (null : A) (W n : Z).

Definition ringsize : Z := 2 ^ n.
Definition SIZE_MOD (x : Z) : Z := Z.land (wrapu W x) (ringsize - 1).

Definition cell_get (d : list A) (i : Z) : outcome A := of_option FBounds (d !! Z.to_nat i).
Definition cell_set (d : list A) (i : Z) (x : A) : outcome (list A) :=
  if (Z.to_nat i <? length d)%nat then Ok (<[Z.to_nat i := x]> d) else Err FBounds.

Definition extend (r : root A) (s : Z) : Z :=
  let max := wrapu W (ringsize - count r) in
  if max >? s then s else max.

Definition init (d : list A) : root A := {| first := 0; count := 0; data := d |}.
Definition isempty (r : root A) : bool := count r =? 0.
Definition isfull (r : root A) : bool := count r =? ringsize.

Definition assert_index (r : root A) (index : Z) : outcome unit := require ((index >=? 0) && (index <? count r)) FAssert.

Definition get (r : root A) (index : Z) : outcome A :=
  assert_index r index;;
  cell_get (data r) (SIZE_MOD (first r + index)).

Definition set (r : root A) (index : Z) (item : A) : outcome (root A) :=
  assert_index r index;;
  d ← cell_set (data r) (SIZE_MOD (first r + index)) item;
  Ok {| first := first r; count := count r; data := d |}.

Definition push (r : root A) (item : A) : outcome (Z * root A) :=
  if negb (extend r 1 =? 0) then
    let first := wrapu W (first r - 1) in
    d ← cell_set (data r) (SIZE_MOD first) item;
    Ok (1, {| first := first; count := wrapu W (count r + 1); data := d |})
  else Ok (0, r).

Definition pushback (r : root A) (item : A) : outcome (Z * root A) :=
  if negb (extend r 1 =? 0) then
    d ← cell_set (data r) (SIZE_MOD (first r + count r)) item;
    Ok (1, {| first := first r; count := wrapu W (count r + 1); data := d |})
  else Ok (0, r).

Definition pop (r : root A) : outcome (A * root A) :=
  if count r >? 0 then
    res ← cell_get (data r) (SIZE_MOD (first r));
    Ok (res, {| first := wrapu W (first r + 1); count := count r - 1; data := data r |})
  else Ok (null, r).

Definition popback (r : root A) : outcome (A * root A) :=
  if count r >? 0 then
    res ← cell_get (data r) (SIZE_MOD (first r + (count r - 1)));
    Ok (res, {| first := first r; count := count r - 1; data := data r |})
  else Ok (null, r).

(** The loops on the array of the caller, [for (j = ...; j != stop; )]. *)
Fixpoint push_array_loop (fuel : nat) (j stop : Z) (item : list A) (d : list A) : outcome (list A) :=
  if j =? stop then Ok d else
  match fuel, item with
  | O, _ => Err FFuel
  | _, [] => Err FBounds
  | S fuel, x :: item =>
      let j := wrapu W (j - 1) in
      d ← cell_set d (SIZE_MOD j) x;
      push_array_loop fuel j stop item d
  end.
Fixpoint pushback_array_loop (fuel : nat) (j stop : Z) (item : list A) (d : list A) : outcome (list A) :=
  if j =? stop then Ok d else
  match fuel, item with
  | O, _ => Err FFuel
  | _, [] => Err FBounds
  | S fuel, x :: item =>
      d ← cell_set d (SIZE_MOD j) x;
      pushback_array_loop fuel (wrapu W (j + 1)) stop item d
  end.
Fixpoint pop_array_loop (fuel : nat) (j stop : Z) (d : list A) : outcome (list A) :=
  if j =? stop then Ok [] else
  match fuel with
  | O => Err FFuel
  | S fuel =>
      x ← cell_get d (SIZE_MOD j);
      item ← pop_array_loop fuel (wrapu W (j + 1)) stop d;
      Ok (x :: item)
  end.
Fixpoint popback_array_loop (fuel : nat) (j stop : Z) (d : list A) : outcome (list A) :=
  if j =? stop then Ok [] else
  match fuel with
  | O => Err FFuel
  | S fuel =>
      let j := wrapu W (j - 1) in
      x ← cell_get d (SIZE_MOD j);
      item ← popback_array_loop fuel j stop d;
      Ok (x :: item)
  end.

(** Every loop runs at most once per cell. *)
Definition loop_fuel : nat := Z.to_nat ringsize.

Definition push_array (r : root A) (item : list A) : outcome (Z * root A) :=
  let i := extend r (Z.of_nat (length item)) in
  d ← push_array_loop loop_fuel (first r) (wrapu W (first r - i)) item (data r);
  Ok (i, {| first := wrapu W (first r - i); count := wrapu W (count r + i); data := d |}).

Definition pushback_array (r : root A) (item : list A) : outcome (Z * root A) :=
  let i := extend r (Z.of_nat (length item)) in
  d ← pushback_array_loop loop_fuel (wrapu W (first r + count r)) (wrapu W (first r + count r + i)) item (data r);
  Ok (i, {| first := first r; count := wrapu W (count r + i); data := d |}).

Definition pop_array (r : root A) (size : Z) : outcome (list A * root A) :=
  let i := if size >? count r then count r else size in
  item ← pop_array_loop loop_fuel (first r) (wrapu W (first r + i)) (data r);
  Ok (item, {| first := wrapu W (first r + i); count := count r - i; data := data r |}).

Definition popback_array (r : root A) (size : Z) : outcome (list A * root A) :=
  let i := if size >? count r then count r else size in
  item ← popback_array_loop loop_fuel (wrapu W (first r + count r)) (wrapu W (first r + count r - i)) (data r);
  Ok (item, {| first := first r; count := count r - i; data := data r |}).

(** The shift of the items from index [i] on, the new one carried in [item]. *)
Fixpoint insert_loop (fuel : nat) (r : root A) (i : Z) (item : A) (d : list A) : outcome (list A) :=
  if i <? count r then
    match fuel with
    | O => Err FFuel
    | S fuel =>
        x ← cell_get d (SIZE_MOD (first r + i));
        d ← cell_set d (SIZE_MOD (first r + i)) item;
        insert_loop fuel r (wrapu W (i + 1)) x d
    end
  else cell_set d (SIZE_MOD (first r + i)) item.

Definition insert_at (r : root A) (i : Z) (item : A) : outcome (Z * root A) :=
  if negb (extend r 1 =? 0) then
    d ← insert_loop loop_fuel r i item (data r);
    Ok (1, {| first := first r; count := wrapu W (count r + 1); data := d |})
  else Ok (0, r).
Definition insert_pre (r : root A) (index : Z) (item : A) : outcome (Z * root A) :=
  assert_index r index;; insert_at r index item.
Definition insert_post (r : root A) (index : Z) (item : A) : outcome (Z * root A) :=
  assert_index r index;; insert_at r (index + 1) item.

Fixpoint remove_loop (fuel : nat) (j stop : Z) (d : list A) : outcome (list A) :=
  if j =? stop then Ok d else
  match fuel with
  | O => Err FFuel
  | S fuel =>
      x ← cell_get d (SIZE_MOD (j + 1));
      d ← cell_set d (SIZE_MOD j) x;
      remove_loop fuel (wrapu W (j + 1)) stop d
  end.
Definition remove (r : root A) (index : Z) : outcome (root A) :=
  assert_index r index;;
  d ← remove_loop loop_fuel (wrapu W (first r + index)) (wrapu W (first r + count r - 1)) (data r);
  Ok {| first := first r; count := count r - 1; data := d |}.

Definition clear (r : root A) : root A := {| first := 0; count := 0; data := data r |}.

(** ** Clients and the reference queue *)

Inductive op :=
  | OPush (x : A) | OPushback (x : A) | OPop | OPopback
  | OPushArray (l : list A) | OPushbackArray (l : list A) | OPopArray (size : nat) | OPopbackArray (size : nat)
  | OInsertPre (i : nat) (x : A) | OInsertPost (i : nat) (x : A) | ORemove (i : nat) | OSet (i : nat) (x : A) | OGet (i : nat) | OClear.

(** What a call gives back to its caller. *)
Inductive res := RNone | RCount (c : Z) | RItem (x : A) | RItems (l : list A).

Definition count_res (o : outcome (Z * root A)) : outcome (res * root A) := '(c, r) ← o; Ok (RCount c, r).
Definition item_res (o : outcome (A * root A)) : outcome (res * root A) := '(x, r) ← o; Ok (RItem x, r).
Definition items_res (o : outcome (list A * root A)) : outcome (res * root A) := '(l, r) ← o; Ok (RItems l, r).

Definition run_op (o : op) (r : root A) : outcome (res * root A) :=
  match o with
  | OPush x => count_res (push r x)
  | OPushback x => count_res (pushback r x)
  | OPop => item_res (pop r)
  | OPopback => item_res (popback r)
  | OPushArray l => count_res (push_array r l)
  | OPushbackArray l => count_res (pushback_array r l)
  | OPopArray s => items_res (pop_array r (Z.of_nat s))
  | OPopbackArray s => items_res (popback_array r (Z.of_nat s))
  | OInsertPre i x => count_res (insert_pre r (Z.of_nat i) x)
  | OInsertPost i x => count_res (insert_post r (Z.of_nat i) x)
  | ORemove i => r ← remove r (Z.of_nat i); Ok (RNone, r)
  | OSet i x => r ← set r (Z.of_nat i) x; Ok (RNone, r)
  | OGet i => x ← get r (Z.of_nat i); Ok (RItem x, r)
  | OClear => Ok (RNone, clear r)
  end.

(** The same calls on a list that holds at most [cap] items. *)
Definition ref_insert (cap : nat) (at_ i : nat) (x : A) (l : list A) : outcome (res * list A) :=
  if (i <? length l)%nat then
    if (length l <? cap)%nat then Ok (RCount 1, take at_ l ++ x :: drop at_ l) else Ok (RCount 0, l)
  else Err FAssert.
Definition ref_op (cap : nat) (o : op) (l : list A) : outcome (res * list A) :=
  match o with
  | OPush x => if (length l <? cap)%nat then Ok (RCount 1, x :: l) else Ok (RCount 0, l)
  | OPushback x => if (length l <? cap)%nat then Ok (RCount 1, l ++ [x]) else Ok (RCount 0, l)
  | OPop => match l with [] => Ok (RItem null, []) | x :: l => Ok (RItem x, l) end
  | OPopback => match last l with None => Ok (RItem null, []) | Some x => Ok (RItem x, take (length l - 1) l) end
  | OPushArray xs => let ys := take (cap - length l) xs in Ok (RCount (Z.of_nat (length ys)), reverse ys ++ l)
  | OPushbackArray xs => let ys := take (cap - length l) xs in Ok (RCount (Z.of_nat (length ys)), l ++ ys)
  | OPopArray s => Ok (RItems (take s l), drop s l)
  | OPopbackArray s => Ok (RItems (reverse (drop (length l - s) l)), take (length l - s) l)
  | OInsertPre i x => ref_insert cap i i x l
  | OInsertPost i x => ref_insert cap (S i) i x l
  | ORemove i => if (i <? length l)%nat then Ok (RNone, take i l ++ drop (S i) l) else Err FAssert
  | OSet i x => if (i <? length l)%nat then Ok (RNone, <[i := x]> l) else Err FAssert
  | OGet i => match l !! i with Some x => Ok (RItem x, l) | None => Err FAssert end
  | OClear => Ok (RNone, [])
  end.

Fixpoint run {S} (step : op → S → outcome (res * S)) (ops : list op) (s : S) : outcome (list res * S) :=
  match ops with
  | [] => Ok ([], s)
  | o :: ops => '(v, s) ← step o s; '(vs, s) ← run step ops s; Ok (v :: vs, s)
  end.

(** ** Cells and windows *)

Context (Hn : 0 ≤ n) (HW : n < W).

Definition cell (d : list A) (p : Z) : option A := d !! Z.to_nat (p mod 2 ^ n).
Definition put (d : list A) (p : Z) (x : A) : list A := <[Z.to_nat (p mod 2 ^ n) := x]> d.
(** [l] is stored from position [p] on. *)
Definition window (d : list A) (p : Z) (l : list A) : Prop := ∀ k x, l !! k = Some x → cell d (p + Z.of_nat k) = Some x.

Lemma size_pos : 0 < 2 ^ n.
Proof. by apply pow2_pos. Qed.
Lemma size_lt : 2 ^ n < 2 ^ W.
Proof. apply Z.pow_lt_mono_r; lia. Qed.
Lemma size_divide : (2 ^ n | 2 ^ W).
Proof. exists (2 ^ (W - n)). rewrite <-Z.pow_add_r by lia. f_equal. lia. Qed.

Lemma mod_wrapu p : wrapu W p mod 2 ^ n = p mod 2 ^ n.
Proof.
  unfold wrapu. destruct size_divide as [q Eq]. pose proof size_pos. rewrite (Z.mod_eq p (2 ^ W)) by lia.
  rewrite Eq. replace (p - q * 2 ^ n * (p / (q * 2 ^ n))) with (p + (- (q * (p / (q * 2 ^ n)))) * 2 ^ n) by lia.
  apply Z_mod_plus_full.
Qed.
Lemma SIZE_MOD_mod p : SIZE_MOD p = p mod 2 ^ n.
Proof.
  unfold SIZE_MOD, ringsize. replace (2 ^ n - 1) with (Z.ones n) by (rewrite Z.ones_equiv; lia).
  rewrite Z.land_ones by done. apply mod_wrapu.
Qed.
Lemma cell_wrapu d p : cell d (wrapu W p) = cell d p.
Proof. unfold cell. by rewrite mod_wrapu. Qed.
Lemma put_wrapu d p x : put d (wrapu W p) x = put d p x.
Proof. unfold put. by rewrite mod_wrapu. Qed.

Lemma ring_get_spec d p x : cell d p = Some x → cell_get d (SIZE_MOD p) = Ok x.
Proof. intros H. unfold cell_get. rewrite SIZE_MOD_mod. unfold cell in H. by rewrite H. Qed.
Lemma mod_index (d : list A) p : length d = Z.to_nat (2 ^ n) → (Z.to_nat (p mod 2 ^ n) < length d)%nat.
Proof. intros ->. pose proof size_pos. pose proof (Z.mod_pos_bound p (2 ^ n)). lia. Qed.
Lemma cell_set_spec d p x : length d = Z.to_nat (2 ^ n) → cell_set d (SIZE_MOD p) x = Ok (put d p x).
Proof.
  intros Hd. unfold cell_set. rewrite SIZE_MOD_mod. pose proof (mod_index d p Hd).
  destruct (Nat.ltb_spec (Z.to_nat (p mod 2 ^ n)) (length d)); [done|lia].
Qed.
Lemma put_length d p x : length (put d p x) = length d.
Proof. apply length_insert. Qed.
Lemma cell_put_eq d p x : length d = Z.to_nat (2 ^ n) → cell (put d p x) p = Some x.
Proof. intros Hd. unfold cell, put. apply list_lookup_insert_eq. by apply mod_index. Qed.
Lemma cell_put_ne d p q x : p ≠ q → - 2 ^ n < p - q < 2 ^ n → cell (put d p x) q = cell d q.
Proof.
  intros Hne Hd. unfold cell, put. apply list_lookup_insert_ne. intros E. apply Hne. pose proof size_pos.
  pose proof (Z.mod_pos_bound p (2 ^ n) size_pos). pose proof (Z.mod_pos_bound q (2 ^ n) size_pos). apply Z2Nat.inj in E; [|lia..].
  by eapply mod_near.
Qed.

Lemma window_nil d p : window d p [].
Proof. by intros k x. Qed.
Lemma window_app d p l1 l2 : window d p (l1 ++ l2) ↔ window d p l1 ∧ window d (p + Z.of_nat (length l1)) l2.
Proof.
  split.
  - intros H. split; intros k x Hk.
    + apply H. by apply lookup_app_l_Some.
    + rewrite <-Z.add_assoc, <-Nat2Z.inj_add. apply H. rewrite lookup_app_r by lia. by replace (length l1 + k - length l1)%nat with k by lia.
  - intros [H1 H2] k x [Hk|[Hl Hk]]%lookup_app_Some; [by apply H1|].
    specialize (H2 _ _ Hk). by replace (p + Z.of_nat (length l1) + Z.of_nat (k - length l1)) with (p + Z.of_nat k) in H2 by lia.
Qed.
Lemma window_cons d p y l : window d p (y :: l) ↔ cell d p = Some y ∧ window d (p + 1) l.
Proof.
  rewrite (window_app d p [y] l). cbn [length]. change (Z.of_nat 1) with 1. split; intros [H1 H2]; (split; [|done]).
  - specialize (H1 0%nat y eq_refl). by rewrite Z.add_0_r in H1.
  - intros [|k] x Hk; [|done]. injection Hk as <-. by rewrite Z.add_0_r.
Qed.
Lemma window_ext d d' p l :
  (∀ k, (k < length l)%nat → cell d' (p + Z.of_nat k) = cell d (p + Z.of_nat k)) → window d p l → window d' p l.
Proof. intros H Hw k x Hk. rewrite H by (by eapply lookup_lt_Some). by apply Hw. Qed.
Lemma window_wrapu d p l : window d (wrapu W p) l ↔ window d p l.
Proof.
  unfold window. assert (∀ k, cell d (wrapu W p + k) = cell d (p + k)) as E.
  { intros k. unfold cell. rewrite <-(Zplus_mod_idemp_l (wrapu W p)), mod_wrapu. by rewrite Zplus_mod_idemp_l. }
  split; intros H k x Hk; specialize (H k x Hk); [by rewrite E in H|by rewrite E].
Qed.
Lemma window_put d p q x l :
  window d p l → q < p ∨ p + Z.of_nat (length l) ≤ q → p + Z.of_nat (length l) - 2 ^ n ≤ q < p + 2 ^ n → window (put d q x) p l.
Proof. intros Hw Ho Hr. eapply window_ext; [|done]. intros k Hk. apply cell_put_ne; lia. Qed.

Lemma cell_wrapu_add d p k : cell d (wrapu W p + k) = cell d (p + k).
Proof. unfold cell. rewrite <-(Zplus_mod_idemp_l (wrapu W p)), mod_wrapu. by rewrite Zplus_mod_idemp_l. Qed.
Lemma wrapu_add p q : wrapu W (wrapu W p + q) = wrapu W (p + q).
Proof. apply Zplus_mod_idemp_l. Qed.
Lemma wrapu_sub p q : wrapu W (wrapu W p - q) = wrapu W (p - q).
Proof. apply Zminus_mod_idemp_l. Qed.
Lemma wrapu_index p : 0 ≤ wrapu W p < 2 ^ W.
Proof. apply wrapu_range. lia. Qed.
Lemma wrapu_ne j k : 0 ≤ j < 2 ^ W → k ≠ 0 → - 2 ^ W < k < 2 ^ W → j ≠ wrapu W (j + k).
Proof.
  intros Hj Hk Hr E. apply Hk. assert (j + k = j); [|lia]. apply (mod_near (2 ^ W)); [|lia].
  rewrite (Z.mod_small j) by done. symmetry. exact E.
Qed.

(** The loops write or read exactly the window, and leave the other cells. *)
Definition kept_below (d d' : list A) (p m : Z) : Prop := ∀ k, 0 < k ≤ m → cell d' (p - k) = cell d (p - k).

Lemma window_kept d d' p m l :
  window d p l → kept_below d d' (p + Z.of_nat (length l)) m → Z.of_nat (length l) ≤ m → window d' p l.
Proof.
  intros Hw Hk Hm. eapply window_ext; [|done]. intros k Hl.
  specialize (Hk (Z.of_nat (length l) - Z.of_nat k)). replace (p + Z.of_nat (length l) - (Z.of_nat (length l) - Z.of_nat k)) with (p + Z.of_nat k) in Hk by lia.
  apply Hk. lia.
Qed.

Lemma pushback_loop_spec ys : ∀ fuel j rest d,
  length d = Z.to_nat (2 ^ n) → 0 ≤ j < 2 ^ W → Z.of_nat (length ys) ≤ 2 ^ n → (length ys ≤ fuel)%nat →
  ∃ d', pushback_array_loop fuel j (wrapu W (j + Z.of_nat (length ys))) (ys ++ rest) d = Ok d' ∧ length d' = length d ∧
    window d' j ys ∧ kept_below d d' j (2 ^ n - Z.of_nat (length ys)).
Proof.
  pose proof size_lt as Hlt. induction ys as [|y ys IH]; intros fuel j rest d Hd Hj Hy Hf.
  - exists d. cbn [length app]. change (Z.of_nat 0) with 0. rewrite Z.add_0_r, wrapu_small by done.
    unfold kept_below. destruct fuel; cbn [pushback_array_loop]; rewrite Z.eqb_refl; split_and!; (done || apply window_nil).
  - cbn [length app] in *. destruct fuel as [|fuel]; [lia|]. cbn [pushback_array_loop].
    destruct (Z.eqb_spec j (wrapu W (j + Z.of_nat (S (length ys))))) as [E|_]; [by apply wrapu_ne in E; [|lia..]|].
    rewrite cell_set_spec by done. cbn [mbind outcome_bind].
    destruct (IH fuel (wrapu W (j + 1)) rest (put d j y)) as (d' & E & Hl & Hw & Hk); [by rewrite put_length|apply wrapu_index|lia|lia|].
    rewrite wrapu_add in E. replace (j + 1 + Z.of_nat (length ys)) with (j + Z.of_nat (S (length ys))) in E by lia.
    exists d'. split; [done|]. split; [by rewrite Hl, put_length|].
    assert (∀ k, 0 ≤ k < 2 ^ n - Z.of_nat (length ys) → cell d' (j - k) = cell (put d j y) (j - k)) as Hk'.
    { intros k Hkr. specialize (Hk (k + 1) ltac:(lia)). replace (wrapu W (j + 1) - (k + 1)) with (wrapu W (j + 1) + - (k + 1)) in Hk by lia.
      rewrite !cell_wrapu_add in Hk. by replace (j + 1 + - (k + 1)) with (j - k) in Hk by lia. }
    split.
    + rewrite window_wrapu in Hw. apply window_cons. split; [|done]. specialize (Hk' 0 ltac:(lia)). rewrite Z.sub_0_r in Hk'. by rewrite Hk', cell_put_eq.
    + intros k Hkr. rewrite Hk' by lia. apply cell_put_ne; lia.
Qed.

Lemma push_loop_spec ys : ∀ fuel j rest d,
  length d = Z.to_nat (2 ^ n) → 0 ≤ j < 2 ^ W → Z.of_nat (length ys) ≤ 2 ^ n → (length ys ≤ fuel)%nat →
  ∃ d', push_array_loop fuel j (wrapu W (j - Z.of_nat (length ys))) (ys ++ rest) d = Ok d' ∧ length d' = length d ∧
    window d' (j - Z.of_nat (length ys)) (reverse ys) ∧
    ∀ k, 0 ≤ k < 2 ^ n - Z.of_nat (length ys) → cell d' (j + k) = cell d (j + k).
Proof.
  pose proof size_lt as Hlt. induction ys as [|y ys IH]; intros fuel j rest d Hd Hj Hy Hf.
  - exists d. cbn [length app]. change (Z.of_nat 0) with 0. rewrite Z.sub_0_r, wrapu_small by done.
    destruct fuel; cbn [push_array_loop]; rewrite Z.eqb_refl; split_and!; (done || apply window_nil).
  - cbn [length app] in *. destruct fuel as [|fuel]; [lia|]. cbn [push_array_loop].
    destruct (Z.eqb_spec j (wrapu W (j - Z.of_nat (S (length ys))))) as [E|_].
    { apply (wrapu_ne j (- Z.of_nat (S (length ys)))) in E; [done|lia..]. }
    rewrite cell_set_spec by done. cbn [mbind outcome_bind]. rewrite put_wrapu.
    destruct (IH fuel (wrapu W (j - 1)) rest (put d (j - 1) y)) as (d' & E & Hl & Hw & Hk); [by rewrite put_length|apply wrapu_index|lia|lia|].
    rewrite wrapu_sub in E. replace (j - 1 - Z.of_nat (length ys)) with (j - Z.of_nat (S (length ys))) in E by lia.
    exists d'. split; [done|]. split; [by rewrite Hl, put_length|].
    assert (∀ k, 0 ≤ k < 2 ^ n - Z.of_nat (length ys) → cell d' (j - 1 + k) = cell (put d (j - 1) y) (j - 1 + k)) as Hk'
      by (intros k Hkr; specialize (Hk k Hkr); by rewrite !cell_wrapu_add in Hk).
    split.
    + rewrite reverse_cons. apply window_app. rewrite length_reverse. split.
      * apply window_wrapu. apply window_wrapu in Hw. rewrite wrapu_sub in Hw. by replace (j - Z.of_nat (S (length ys))) with (j - 1 - Z.of_nat (length ys)) by lia.
      * apply window_cons. split; [|apply window_nil]. replace (j - Z.of_nat (S (length ys)) + Z.of_nat (length ys)) with (j - 1 + 0) by lia.
        rewrite Hk' by lia. rewrite Z.add_0_r. by apply cell_put_eq.
    + intros k Hkr. replace (j + k) with (j - 1 + (k + 1)) by lia. rewrite Hk' by lia. apply cell_put_ne; lia.
Qed.

Lemma pop_loop_spec ys : ∀ fuel j d,
  0 ≤ j < 2 ^ W → Z.of_nat (length ys) ≤ 2 ^ n → (length ys ≤ fuel)%nat → window d j ys →
  pop_array_loop fuel j (wrapu W (j + Z.of_nat (length ys))) d = Ok ys.
Proof.
  pose proof size_lt as Hlt. induction ys as [|y ys IH]; intros fuel j d Hj Hy Hf Hw; cbn [length] in *.
  - change (Z.of_nat 0) with 0. rewrite Z.add_0_r, wrapu_small by done. by destruct fuel; cbn [pop_array_loop]; rewrite Z.eqb_refl.
  - destruct fuel as [|fuel]; [lia|]. cbn [pop_array_loop]. apply window_cons in Hw as [Hc Hw].
    destruct (Z.eqb_spec j (wrapu W (j + Z.of_nat (S (length ys))))) as [E|_]; [by apply wrapu_ne in E; [|lia..]|].
    rewrite (ring_get_spec _ _ y) by done. cbn [mbind outcome_bind].
    specialize (IH fuel (wrapu W (j + 1)) d). rewrite wrapu_add in IH. replace (j + Z.of_nat (S (length ys))) with (j + 1 + Z.of_nat (length ys)) by lia.
    by rewrite IH; [|apply wrapu_index|lia|lia|apply window_wrapu].
Qed.

Lemma popback_loop_spec ys : ∀ fuel j d,
  0 ≤ j < 2 ^ W → Z.of_nat (length ys) ≤ 2 ^ n → (length ys ≤ fuel)%nat → window d (j - Z.of_nat (length ys)) (reverse ys) →
  popback_array_loop fuel j (wrapu W (j - Z.of_nat (length ys))) d = Ok ys.
Proof.
  pose proof size_lt as Hlt. induction ys as [|y ys IH]; intros fuel j d Hj Hy Hf Hw; cbn [length] in *.
  - change (Z.of_nat 0) with 0. rewrite Z.sub_0_r, wrapu_small by done. by destruct fuel; cbn [popback_array_loop]; rewrite Z.eqb_refl.
  - destruct fuel as [|fuel]; [lia|]. cbn [popback_array_loop]. rewrite reverse_cons in Hw. apply window_app in Hw as [Hw Hc].
    rewrite length_reverse in Hc. apply window_cons in Hc as [Hc _].
    destruct (Z.eqb_spec j (wrapu W (j - Z.of_nat (S (length ys))))) as [E|_].
    { apply (wrapu_ne j (- Z.of_nat (S (length ys)))) in E; [done|lia..]. }
    rewrite (ring_get_spec _ _ y) by (rewrite cell_wrapu, <-Hc; f_equal; lia). cbn [mbind outcome_bind].
    specialize (IH fuel (wrapu W (j - 1)) d). rewrite wrapu_sub in IH. replace (j - Z.of_nat (S (length ys))) with (j - 1 - Z.of_nat (length ys)) by lia.
    rewrite IH; [done|apply wrapu_index|lia|lia|]. apply window_wrapu. rewrite wrapu_sub. apply window_wrapu.
    by replace (j - 1 - Z.of_nat (length ys)) with (j - Z.of_nat (S (length ys))) by lia.
Qed.

Lemma insert_loop_spec rest : ∀ fuel r i item d,
  length d = Z.to_nat (2 ^ n) → 0 ≤ i → i + Z.of_nat (length rest) = count r → count r < 2 ^ n → (length rest ≤ fuel)%nat →
  window d (first r + i) rest →
  ∃ d', insert_loop fuel r i item d = Ok d' ∧ length d' = length d ∧ window d' (first r + i) (item :: rest) ∧
    kept_below d d' (first r + i) (2 ^ n - Z.of_nat (length rest) - 1).
Proof.
  pose proof size_lt as Hlt. induction rest as [|x rest IH]; intros fuel r i item d Hd Hi Hc Hcap Hf Hw; cbn [length] in *.
  - exists (put d (first r + i) item). assert (insert_loop fuel r i item d = Ok (put d (first r + i) item)) as ->.
    { destruct fuel; cbn [insert_loop]; (destruct (Z.ltb_spec i (count r)); [lia|by apply cell_set_spec]). }
    rewrite put_length. split; [done|]. split; [done|]. split; [apply window_cons; split; [by apply cell_put_eq|apply window_nil]|].
    intros k Hk. apply cell_put_ne; lia.
  - destruct fuel as [|fuel]; [lia|]. cbn [insert_loop]. destruct (Z.ltb_spec i (count r)); [|lia]. apply window_cons in Hw as [Hx Hw].
    rewrite (ring_get_spec _ _ x) by done. cbn [mbind outcome_bind]. rewrite cell_set_spec by done. cbn [mbind outcome_bind].
    rewrite wrapu_small by lia.
    destruct (IH fuel r (i + 1) x (put d (first r + i) item)) as (d' & E & Hl & Hw' & Hk); [by rewrite put_length|lia|lia|lia|lia| |].
    { apply window_put; [by rewrite Z.add_assoc|lia|lia]. }
    exists d'. split; [done|]. split; [by rewrite Hl, put_length|]. rewrite Z.add_assoc in Hw'. split.
    + apply window_cons. split; [|done]. specialize (Hk 1 ltac:(lia)). replace (first r + (i + 1) - 1) with (first r + i) in Hk by lia.
      by rewrite Hk, cell_put_eq.
    + intros k Hkr. specialize (Hk (k + 1) ltac:(lia)). replace (first r + (i + 1) - (k + 1)) with (first r + i - k) in Hk by lia.
      rewrite Hk. apply cell_put_ne; lia.
Qed.

Lemma remove_loop_spec rest : ∀ fuel j x d,
  length d = Z.to_nat (2 ^ n) → 0 ≤ j < 2 ^ W → Z.of_nat (length rest) < 2 ^ n → (length rest ≤ fuel)%nat → window d j (x :: rest) →
  ∃ d', remove_loop fuel j (wrapu W (j + Z.of_nat (length rest))) d = Ok d' ∧ length d' = length d ∧ window d' j rest ∧
    kept_below d d' j (2 ^ n - Z.of_nat (length rest) - 1).
Proof.
  pose proof size_lt as Hlt. induction rest as [|y rest IH]; intros fuel j x d Hd Hj Hr Hf Hw; cbn [length] in *.
  - exists d. change (Z.of_nat 0) with 0. rewrite Z.add_0_r, wrapu_small by done.
    destruct fuel; cbn [remove_loop]; rewrite Z.eqb_refl; split_and!; (done || apply window_nil).
  - destruct fuel as [|fuel]; [lia|]. cbn [remove_loop]. apply window_cons in Hw as [Hx Hw]. pose proof Hw as [Hy _]%window_cons.
    destruct (Z.eqb_spec j (wrapu W (j + Z.of_nat (S (length rest))))) as [E|_]; [by apply wrapu_ne in E; [|lia..]|].
    rewrite (ring_get_spec _ _ y) by done. cbn [mbind outcome_bind]. rewrite cell_set_spec by done. cbn [mbind outcome_bind].
    destruct (IH fuel (wrapu W (j + 1)) y (put d j y)) as (d' & E & Hl & Hw' & Hk); [by rewrite put_length|apply wrapu_index|lia|lia| |].
    { apply window_wrapu. apply window_put; [done|lia|cbn [length]; lia]. }
    rewrite wrapu_add in E. replace (j + 1 + Z.of_nat (length rest)) with (j + Z.of_nat (S (length rest))) in E by lia.
    exists d'. split; [done|]. split; [by rewrite Hl, put_length|]. rewrite window_wrapu in Hw'.
    assert (∀ k, 0 ≤ k < 2 ^ n - Z.of_nat (length rest) - 1 → cell d' (j - k) = cell (put d j y) (j - k)) as Hk'.
    { intros k Hkr. specialize (Hk (k + 1) ltac:(lia)). replace (wrapu W (j + 1) - (k + 1)) with (wrapu W (j + 1) + - (k + 1)) in Hk by lia.
      rewrite !cell_wrapu_add in Hk. by replace (j + 1 + - (k + 1)) with (j - k) in Hk by lia. }
    split.
    + apply window_cons. split; [|done]. specialize (Hk' 0 ltac:(lia)). rewrite Z.sub_0_r in Hk'. by rewrite Hk', cell_put_eq.
    + intros k Hkr. rewrite Hk' by lia. apply cell_put_ne; lia.
Qed.

(** ** A ring holds a list *)

Record rep (r : root A) (l : list A) : Prop := {
  rep_data : length (data r) = Z.to_nat (2 ^ n);
  rep_count : count r = Z.of_nat (length l);
  rep_cap : Z.of_nat (length l) ≤ 2 ^ n;
  rep_first : 0 ≤ first r < 2 ^ W;
  rep_window : window (data r) (first r) l }.

Definition cap : nat := Z.to_nat (2 ^ n).

Lemma cap_size : Z.of_nat cap = 2 ^ n.
Proof. unfold cap. pose proof size_pos. lia. Qed.
Lemma extend_spec r l s : rep r l → 0 ≤ s → extend r s = Z.min s (2 ^ n - Z.of_nat (length l)).
Proof.
  intros [_ Hc Hcap _ _] Hs. unfold extend, ringsize. pose proof size_lt. rewrite Hc, wrapu_small by lia.
  destruct (Z.gtb_spec (2 ^ n - Z.of_nat (length l)) s); lia.
Qed.
Lemma extend_1 r l : rep r l → negb (extend r 1 =? 0) = (length l <? cap)%nat.
Proof.
  intros H. rewrite (extend_spec r l) by (done || lia). pose proof cap_size. destruct H as [_ _ Hcap _ _].
  destruct (Z.eqb_spec (Z.min 1 (2 ^ n - Z.of_nat (length l))) 0), (Nat.ltb_spec (length l) cap); cbn [negb]; (done || lia).
Qed.
Lemma count_wrapu r l m : rep r l → 0 ≤ m ≤ 2 ^ n - Z.of_nat (length l) → wrapu W (count r + m) = Z.of_nat (length l) + m.
Proof. intros [_ Hc _ _ _] Hm. pose proof size_lt. rewrite Hc. apply wrapu_small. lia. Qed.
Lemma index_spec r l i : rep r l → assert_index r (Z.of_nat i) = if (i <? length l)%nat then Ok tt else Err FAssert.
Proof.
  intros [_ Hc _ _ _]. unfold assert_index, require. rewrite Hc.
  destruct (Z.geb_spec (Z.of_nat i) 0), (Z.ltb_spec (Z.of_nat i) (Z.of_nat (length l))), (Nat.ltb_spec i (length l)); cbn [andb]; (done || lia).
Qed.

Lemma init_rep d : length d = cap → rep (init d) [].
Proof. intros Hd. pose proof size_lt. pose proof size_pos. split; cbn [init data count first length]; [done|done|lia|lia|apply window_nil]. Qed.
Lemma clear_rep r l : rep r l → rep (clear r) [].
Proof. intros [Hd _ _ _ _]. by apply init_rep. Qed.

Lemma pushback_array_spec r l xs : rep r l → let ys := take (cap - length l) xs in
  ∃ r', pushback_array r xs = Ok (Z.of_nat (length ys), r') ∧ rep r' (l ++ ys).
Proof.
  intros Hr ys. pose proof Hr as [Hd Hc Hcap Hf Hw]. pose proof cap_size as Hs. pose proof size_lt as Hlt.
  assert (length ys = Nat.min (cap - length l) (length xs)) as Hy by apply length_take.
  unfold pushback_array. rewrite (extend_spec r l) by (done || lia).
  replace (Z.min (Z.of_nat (length xs)) (2 ^ n - Z.of_nat (length l))) with (Z.of_nat (length ys)) by lia.
  destruct (pushback_loop_spec ys loop_fuel (wrapu W (first r + count r)) (drop (cap - length l) xs) (data r)) as (d' & E & Hl & Hw' & Hk);
    [done|apply wrapu_index|lia|unfold loop_fuel, ringsize; lia|].
  rewrite wrapu_add in E. unfold ys in E at 2. rewrite take_drop in E. rewrite E. cbn [mbind outcome_bind]. eexists. split; [done|].
  rewrite (count_wrapu r l) by (done || lia). rewrite window_wrapu in Hw'. split; cbn [first count data]; [lia|rewrite length_app; lia|rewrite length_app; lia|done|].
  apply window_app. rewrite Hc in Hw', Hk. split; [|done]. eapply window_kept; [done| |reflexivity].
  intros k Hkr. specialize (Hk k ltac:(lia)). replace (wrapu W (first r + Z.of_nat (length l)) - k) with (wrapu W (first r + Z.of_nat (length l)) + - k) in Hk by lia.
  by rewrite !cell_wrapu_add in Hk.
Qed.

Lemma push_array_spec r l xs : rep r l → let ys := take (cap - length l) xs in
  ∃ r', push_array r xs = Ok (Z.of_nat (length ys), r') ∧ rep r' (reverse ys ++ l).
Proof.
  intros Hr ys. pose proof Hr as [Hd Hc Hcap Hf Hw]. pose proof cap_size as Hs. pose proof size_lt as Hlt.
  assert (length ys = Nat.min (cap - length l) (length xs)) as Hy by apply length_take.
  unfold push_array. rewrite (extend_spec r l) by (done || lia).
  replace (Z.min (Z.of_nat (length xs)) (2 ^ n - Z.of_nat (length l))) with (Z.of_nat (length ys)) by lia.
  destruct (push_loop_spec ys loop_fuel (first r) (drop (cap - length l) xs) (data r)) as (d' & E & Hl & Hw' & Hk);
    [done|done|lia|unfold loop_fuel, ringsize; lia|].
  unfold ys in E at 2. rewrite take_drop in E. rewrite E. cbn [mbind outcome_bind]. eexists. split; [done|].
  rewrite (count_wrapu r l) by (done || lia).
  split; cbn [first count data]; [lia|rewrite length_app, length_reverse; lia|rewrite length_app, length_reverse; lia|apply wrapu_index|].
  apply window_wrapu, window_app. rewrite length_reverse. split; [done|]. replace (first r - Z.of_nat (length ys) + Z.of_nat (length ys)) with (first r) by lia.
  eapply window_ext; [|done]. intros k Hkl. apply Hk. lia.
Qed.

Lemma pop_array_spec r l s : rep r l → ∃ r', pop_array r (Z.of_nat s) = Ok (take s l, r') ∧ rep r' (drop s l).
Proof.
  intros [Hd Hc Hcap Hf Hw]. unfold pop_array. rewrite Hc.
  assert ((if Z.of_nat s >? Z.of_nat (length l) then Z.of_nat (length l) else Z.of_nat s) = Z.of_nat (length (take s l))) as ->
    by (rewrite length_take; destruct (Z.gtb_spec (Z.of_nat s) (Z.of_nat (length l))); lia).
  rewrite <-(take_drop s l) in Hw. apply window_app in Hw as [Hw1 Hw2]. pose proof (length_take l s). pose proof (length_drop l s). pose proof cap_size.
  rewrite pop_loop_spec; [|done|lia|unfold loop_fuel, ringsize; lia|done]. cbn [mbind outcome_bind]. eexists. split; [done|].
  split; cbn [first count data]; [done|lia|lia|apply wrapu_index|by apply window_wrapu].
Qed.

Lemma popback_array_spec r l s : rep r l →
  ∃ r', popback_array r (Z.of_nat s) = Ok (reverse (drop (length l - s) l), r') ∧ rep r' (take (length l - s) l).
Proof.
  intros [Hd Hc Hcap Hf Hw]. unfold popback_array. rewrite Hc. set (ys := reverse (drop (length l - s) l)).
  assert (length ys = Nat.min s (length l)) as Hy by (unfold ys; rewrite length_reverse, length_drop; lia).
  assert ((if Z.of_nat s >? Z.of_nat (length l) then Z.of_nat (length l) else Z.of_nat s) = Z.of_nat (length ys)) as ->
    by (destruct (Z.gtb_spec (Z.of_nat s) (Z.of_nat (length l))); lia).
  rewrite <-(take_drop (length l - s) l) in Hw. apply window_app in Hw as [Hw1 Hw2]. pose proof (length_take l (length l - s)) as Ht. pose proof cap_size.
  rewrite <-(wrapu_sub (first r + Z.of_nat (length l))). rewrite popback_loop_spec; [|apply wrapu_index|lia|unfold loop_fuel, ringsize; lia|].
  - cbn [mbind outcome_bind]. eexists. split; [done|]. split; cbn [first count data]; [done|lia|lia|done|done].
  - unfold ys at 2. rewrite reverse_involutive. apply window_wrapu. rewrite wrapu_sub. apply window_wrapu.
    by replace (first r + Z.of_nat (length l) - Z.of_nat (length ys)) with (first r + Z.of_nat (length (take (length l - s) l))) by lia.
Qed.

Lemma push_spec_ring r l x : rep r l →
  ∃ r', push r x = Ok (if (length l <? cap)%nat then 1 else 0, r') ∧ rep r' (if (length l <? cap)%nat then x :: l else l).
Proof.
  intros Hr. unfold push. rewrite (extend_1 r l) by done. destruct (Nat.ltb_spec (length l) cap); [|by exists r].
  pose proof Hr as [Hd Hc Hcap Hf Hw]. pose proof cap_size. rewrite cell_set_spec by done. cbn [mbind outcome_bind]. eexists. split; [done|].
  rewrite (count_wrapu r l) by (done || lia). split; cbn [first count data length]; [by rewrite put_length|lia|lia|apply wrapu_index|].
  apply window_wrapu. rewrite put_wrapu. apply window_cons. split; [by apply cell_put_eq|].
  replace (first r - 1 + 1) with (first r) by lia. apply window_put; [done|lia|lia].
Qed.

Lemma pushback_spec_ring r l x : rep r l →
  ∃ r', pushback r x = Ok (if (length l <? cap)%nat then 1 else 0, r') ∧ rep r' (if (length l <? cap)%nat then l ++ [x] else l).
Proof.
  intros Hr. unfold pushback. rewrite (extend_1 r l) by done. destruct (Nat.ltb_spec (length l) cap); [|by exists r].
  pose proof Hr as [Hd Hc Hcap Hf Hw]. pose proof cap_size. rewrite cell_set_spec by done. cbn [mbind outcome_bind]. eexists. split; [done|].
  rewrite (count_wrapu r l) by (done || lia). rewrite Hc.
  split; cbn [first count data]; [by rewrite put_length|rewrite length_app; cbn; lia|rewrite length_app; cbn; lia|done|].
  apply window_app. split; [apply window_put; [done|lia|lia]|]. apply window_cons. split; [by apply cell_put_eq|apply window_nil].
Qed.

Lemma insert_spec_ring r l a x : rep r l → (a ≤ length l)%nat →
  ∃ r', insert_at r (Z.of_nat a) x = Ok (if (length l <? cap)%nat then 1 else 0, r') ∧
    rep r' (if (length l <? cap)%nat then take a l ++ x :: drop a l else l).
Proof.
  intros Hr Ha. unfold insert_at. rewrite (extend_1 r l) by done. destruct (Nat.ltb_spec (length l) cap); [|by exists r].
  pose proof Hr as [Hd Hc Hcap Hf Hw]. pose proof cap_size. rewrite <-(take_drop a l) in Hw. apply window_app in Hw as [Hw1 Hw2].
  pose proof (length_take l a). pose proof (length_drop l a). replace (Z.of_nat (length (take a l))) with (Z.of_nat a) in Hw2 by lia.
  destruct (insert_loop_spec (drop a l) loop_fuel r (Z.of_nat a) x (data r)) as (d' & -> & Hl & Hw' & Hk);
    [done|lia|lia|lia|unfold loop_fuel, ringsize; lia|done|].
  cbn [mbind outcome_bind]. eexists. split; [done|]. rewrite (count_wrapu r l) by (done || lia).
  split; cbn [first count data]; [lia|rewrite length_app; cbn; lia|rewrite length_app; cbn; lia|done|].
  apply window_app. replace (Z.of_nat (length (take a l))) with (Z.of_nat a) by lia. split; [|done].
  eapply window_kept; [done| |]; [replace (Z.of_nat (length (take a l))) with (Z.of_nat a) by lia; exact Hk|lia].
Qed.

Lemma remove_spec_ring r l i : rep r l → (i < length l)%nat → ∃ r', remove r (Z.of_nat i) = Ok r' ∧ rep r' (take i l ++ drop (S i) l).
Proof.
  intros Hr Hi. pose proof Hr as [Hd Hc Hcap Hf Hw]. pose proof cap_size. unfold remove. rewrite (index_spec r l) by done.
  destruct (Nat.ltb_spec i (length l)); [|lia]. cbn [mbind outcome_bind].
  destruct (lookup_lt_is_Some_2 l i Hi) as [x Hx]. rewrite <-(take_drop_middle l i x Hx) in Hw. apply window_app in Hw as [Hw1 Hw2].
  pose proof (length_take l i). pose proof (length_drop l (S i)). replace (Z.of_nat (length (take i l))) with (Z.of_nat i) in Hw2 by lia.
  destruct (remove_loop_spec (drop (S i) l) loop_fuel (wrapu W (first r + Z.of_nat i)) x (data r)) as (d' & E & Hl & Hw' & Hk);
    [done|apply wrapu_index|lia|unfold loop_fuel, ringsize; lia|by apply window_wrapu|].
  rewrite wrapu_add in E. replace (first r + Z.of_nat i + Z.of_nat (length (drop (S i) l))) with (first r + count r - 1) in E by lia.
  rewrite E. cbn [mbind outcome_bind]. eexists. split; [done|]. rewrite window_wrapu in Hw'.
  split; cbn [first count data]; [lia|rewrite length_app; lia|rewrite length_app; lia|done|].
  apply window_app. replace (Z.of_nat (length (take i l))) with (Z.of_nat i) by lia. split; [|done].
  eapply window_kept; [done| |reflexivity]. replace (Z.of_nat (length (take i l))) with (Z.of_nat i) by lia.
  intros k Hkr. specialize (Hk k ltac:(lia)). replace (wrapu W (first r + Z.of_nat i) - k) with (wrapu W (first r + Z.of_nat i) + - k) in Hk by lia.
  by rewrite !cell_wrapu_add in Hk.
Qed.

(** [o] does on the ring what it does on the list. *)
Definition matches (o : outcome (res * root A)) (m : outcome (res * list A)) : Prop :=
  match m with
  | Ok (v, l) => ∃ r, o = Ok (v, r) ∧ rep r l
  | Err e => o = Err e
  end.

Lemma step_insert r l i a x : rep r l → (a = i ∨ a = S i) →
  matches (count_res (assert_index r (Z.of_nat i);; insert_at r (Z.of_nat a) x)) (ref_insert cap a i x l).
Proof.
  intros Hr Ha. rewrite (index_spec r l) by done. unfold ref_insert. destruct (Nat.ltb_spec i (length l)); [|done].
  cbn [mbind outcome_bind]. destruct (insert_spec_ring r l a x Hr ltac:(lia)) as (r' & -> & Hr'). destruct (length l <? cap)%nat; by exists r'.
Qed.

Lemma ring_step o r l : rep r l → matches (run_op o r) (ref_op cap o l).
Proof.
  intros Hr. pose proof Hr as [Hd Hc Hcap Hf Hw]. destruct o as [x|x| | |xs|xs|s|s|i x|i x|i|i x|i|]; cbn [run_op ref_op].
  - destruct (push_spec_ring r l x Hr) as (r' & -> & Hr'). destruct (length l <? cap)%nat; by exists r'.
  - destruct (pushback_spec_ring r l x Hr) as (r' & -> & Hr'). destruct (length l <? cap)%nat; by exists r'.
  - unfold pop. rewrite Hc. destruct l as [|x l]; [by exists r|]. apply window_cons in Hw as [Hx Hw].
    cbn [length] in *. destruct (Z.gtb_spec (Z.of_nat (S (length l))) 0); [|lia]. rewrite (ring_get_spec _ _ x) by done.
    eexists. split; [done|]. split; cbn [first count data]; [done|lia|lia|apply wrapu_index|by apply window_wrapu].
  - unfold popback. rewrite Hc. destruct l as [|x l _] using rev_ind; [by exists r|]. rewrite last_snoc. apply window_app in Hw as [Hw [Hx _]%window_cons].
    rewrite length_app, Nat.add_sub, take_app_length in *. cbn [length] in *. destruct (Z.gtb_spec (Z.of_nat (length l + 1)) 0); [|lia].
    rewrite (ring_get_spec _ _ x) by (by replace (Z.of_nat (length l + 1) - 1) with (Z.of_nat (length l)) by lia).
    eexists. split; [done|]. split; cbn [first count data]; [done|lia|lia|done|done].
  - destruct (push_array_spec r l xs Hr) as (r' & -> & Hr'). by exists r'.
  - destruct (pushback_array_spec r l xs Hr) as (r' & -> & Hr'). by exists r'.
  - destruct (pop_array_spec r l s Hr) as (r' & -> & Hr'). by exists r'.
  - destruct (popback_array_spec r l s Hr) as (r' & -> & Hr'). by exists r'.
  - apply step_insert; auto.
  - unfold insert_post. replace (Z.of_nat i + 1) with (Z.of_nat (S i)) by lia. apply step_insert; auto.
  - destruct (Nat.ltb_spec i (length l)).
    + destruct (remove_spec_ring r l i Hr) as (r' & -> & Hr'); [done|]. by exists r'.
    + unfold remove. rewrite (index_spec r l) by done. by destruct (Nat.ltb_spec i (length l)); [lia|].
  - unfold set. rewrite (index_spec r l) by done. destruct (Nat.ltb_spec i (length l)); [|done]. cbn [mbind outcome_bind].
    rewrite cell_set_spec by done. cbn [mbind outcome_bind]. eexists. split; [done|].
    split; cbn [first count data]; [by rewrite put_length|by rewrite length_insert|by rewrite length_insert|done|].
    intros k y Hk. destruct (decide (k = i)) as [->|Hne].
    + rewrite list_lookup_insert_eq in Hk by done. injection Hk as ->. by apply cell_put_eq.
    + rewrite list_lookup_insert_ne in Hk by done. rewrite <-(Hw k y Hk). apply lookup_lt_Some in Hk. apply cell_put_ne; lia.
  - unfold get. rewrite (index_spec r l) by done. destruct (l !! i) as [x|] eqn:Hx.
    + destruct (Nat.ltb_spec i (length l)); [|apply lookup_lt_Some in Hx; lia]. cbn [mbind outcome_bind].
      rewrite (ring_get_spec _ _ x) by (by apply Hw). by exists r.
    + apply lookup_ge_None in Hx. by destruct (Nat.ltb_spec i (length l)); [lia|].
  - eexists. split; [done|]. by eapply clear_rep.
Qed.

Lemma ring_run ops : ∀ r l, rep r l →
  match run (ref_op cap) ops l with
  | Ok (vs, l') => ∃ r', run run_op ops r = Ok (vs, r') ∧ rep r' l'
  | Err e => run run_op ops r = Err e
  end.
Proof.
  induction ops as [|o ops IH]; intros r l Hr; cbn [run]; [by exists r|]. pose proof (ring_step o r l Hr) as H. unfold matches in H.
  destruct (ref_op cap o l) as [[v l']|e]; [|by rewrite H]. destruct H as (r' & -> & Hr'). cbn [mbind outcome_bind]. specialize (IH r' l' Hr').
  destruct (run (ref_op cap) ops l') as [[vs l2]|e]; cbn [mbind outcome_bind]; [|by rewrite IH]. destruct IH as (r2 & -> & Hr2). by exists r2.
Qed.
End ring.

Arguments op : clear implicits.
Arguments res : clear implicits.

(** ** Theorem *)

(** C17. A ring of [2^n] cells is a double ended queue of [2^n] items: whatever the
    sequence of calls on an initialised ring, single and array pushes and pops at
    both ends, insertions, removals and accesses by index, each call returns what
    it returns on a list, an array push takes what fits, the order is kept, an
    index out of range is an assertion failure and nothing else goes wrong, although
    the index [first] of [W] bits wraps. *)
Theorem ring_is_a_deque (A : Type) (null : A) (W n : Z) (d : list A) (ops : list (op A)) :
  0 ≤ n < W → length d = Z.to_nat (2 ^ n) →
  match run (ref_op null (Z.to_nat (2 ^ n))) ops [] with
  | Ok (vs, l) => ∃ r, run (run_op null W n) ops (init d) = Ok (vs, r) ∧ count r = Z.of_nat (length l) ∧
      ∀ i x, l !! i = Some x → get W n r (Z.of_nat i) = Ok x
  | Err e => run (run_op null W n) ops (init d) = Err e
  end.
Proof.
  intros [Hn HW] Hd. pose proof (ring_run null W n Hn HW ops (init d) [] (init_rep W n Hn HW d Hd)) as H. unfold cap in H.
  destruct (run (ref_op null (Z.to_nat (2 ^ n))) ops []) as [[vs l]|e]; [|done]. destruct H as (r & E & Hr). exists r. split; [done|].
  split; [by apply (rep_count W n)|]. intros i x Hx. pose proof (ring_step null W n Hn HW (OGet i) r l Hr) as H. cbn [run_op ref_op] in H.
  rewrite Hx in H. destruct H as (r' & H & _). destruct (get W n r (Z.of_nat i)); cbn in H; congruence.
Qed.

Definition demo_ops : list (op Z) := [OPush 1; OPushbackArray [2; 3; 4; 5]; OPop; OPushArray [7; 8]; OPopback; ORemove 1; OInsertPost 0 9; OPopArray 5; OPop].

Lemma ring_is_a_deque_witness :
  run (run_op 0 8 2) demo_ops (init [0; 0; 0; 0]) =
    Ok ([RCount 1; RCount 3; RItem 1; RCount 1; RItem 4; RNone; RCount 1; RItems [7; 9; 3]; RItem 0], {| first := 2; count := 0; data := [9; 3; 4; 7] |}) ∧
  match run (ref_op 0 (Z.to_nat (2 ^ 2))) demo_ops [] with
  | Ok (vs, l) => ∃ r, run (run_op 0 8 2) demo_ops (init [0; 0; 0; 0]) = Ok (vs, r) ∧ count r = Z.of_nat (length l) ∧
      ∀ i x, l !! i = Some x → get 8 2 r (Z.of_nat i) = Ok x
  | Err e => run (run_op 0 8 2) demo_ops (init [0; 0; 0; 0]) = Err e
  end.
Proof. split; [vm_compute; reflexivity|]. apply (ring_is_a_deque Z 0 8 2 [0; 0; 0; 0] demo_ops); [lia|reflexivity]. Defined.

End Ring.
