(* ===== verification/CList.v ===== *)
(** * Linked lists of the container library (gpct cont_clist.t, _cont_lists.t)

    The CLIST container is a circular doubly linked list through an entry that is
    part of the items, with the root as sentinel.  The scheduler queues, the timers
    and most lists of the kernel are such lists; the other files take them as lists
    of items.  This file models the pointer manipulations on a memory of entries
    and proves that they implement operations on lists, that the lists that share
    the memory do not disturb each other, and what the orphan marks guarantee. *)

From stdpp Require Import gmap.
From S2P Require Import Prelude.

Module CList.

(** ** Data *)

(** Entries are known by their address, NULL is 0. *)
Definition NULL : nat := 0.

(** The memory, one map for each field of the entries. *)
Record heap := { nexts : gmap nat nat; prevs : gmap nat nat }.

Definition get_next (h : heap) (e : nat) : outcome nat := of_option FUndef (nexts h !! e).
Definition get_prev (h : heap) (e : nat) : outcome nat := of_option FUndef (prevs h !! e).
Definition set_next (e v : nat) (h : heap) : outcome heap :=
  if nexts h !! e is Some _ then Ok {| nexts := <[e := v]> (nexts h); prevs := prevs h |} else Err FUndef.
Definition set_prev (e v : nat) (h : heap) : outcome heap :=
  if prevs h !! e is Some _ then Ok {| nexts := nexts h; prevs := <[e := v]> (prevs h) |} else Err FUndef.

(** ** Operations *)

Section clist.
(** Whether the type of list has orphan marks (CONTAINER_ORPHAN_CHK_name). *)
Context (oc : bool).

Definition ORPHAN_SET (e : nat) (h : heap) : outcome heap := if oc then set_next e NULL h else Ok h.
Definition ORPHAN_CHK (e : nat) (h : heap) : outcome bool := if oc then n ← get_next h e; Ok (negb (n =? NULL)%nat) else Ok true.

Definition EMPTY (root : nat) (h : heap) : outcome heap := h ← set_prev root root h; set_next root root h.
Definition isempty (root : nat) (h : heap) : outcome bool := n ← get_next h root; Ok (n =? root)%nat.

Definition item_or_null (root e : nat) : nat := if (e =? root)%nat then NULL else e.
Definition head (root : nat) (h : heap) : outcome nat := n ← get_next h root; Ok (item_or_null root n).
Definition tail (root : nat) (h : heap) : outcome nat := n ← get_prev h root; Ok (item_or_null root n).
Definition next (root index : nat) (h : heap) : outcome nat := n ← get_next h index; Ok (item_or_null root n).
Definition prev (root index : nat) (h : heap) : outcome nat := n ← get_prev h index; Ok (item_or_null root n).

Definition push (root item : nat) (h : heap) : outcome (Z * heap) :=
  h ← set_prev item root h;
  n ← get_next h root; h ← set_prev n item h;
  n ← get_next h root; h ← set_next item n h;
  h ← set_next root item h;
  Ok (1, h).
Definition pushback (root item : nat) (h : heap) : outcome (Z * heap) :=
  h ← set_next item root h;
  p ← get_prev h root; h ← set_next p item h;
  p ← get_prev h root; h ← set_prev item p h;
  h ← set_prev root item h;
  Ok (1, h).

(** The links of [insert_pre], shared by the ordered insertion. *)
Definition link_pre (index item : nat) (h : heap) : outcome heap :=
  h ← set_next item index h;
  p ← get_prev h index; h ← set_prev item p h;
  p ← get_prev h index; h ← set_next p item h;
  set_prev index item h.
Definition insert_pre (index item : nat) (h : heap) : outcome (Z * heap) :=
  in_list ← ORPHAN_CHK index h;
  if in_list : bool then h ← link_pre index item h; Ok (1, h) else Ok (0, h).
Definition insert_post (index item : nat) (h : heap) : outcome (Z * heap) :=
  in_list ← ORPHAN_CHK index h;
  if in_list : bool then
    h ← set_prev item index h;
    n ← get_next h index; h ← set_next item n h;
    n ← get_next h index; h ← set_prev n item h;
    h ← set_next index item h;
    Ok (1, h)
  else Ok (0, h).

(** Replaces [index] by [item]. *)
Definition set (index item : nat) (h : heap) : outcome (Z * heap) :=
  in_list ← ORPHAN_CHK index h;
  if in_list : bool then
    p ← get_prev h index; h ← set_prev item p h; h ← set_next p item h;
    n ← get_next h index; h ← set_next item n h; h ← set_prev n item h;
    h ← ORPHAN_SET index h;
    Ok (0, h)
  else Ok (-1, h).

Definition remove_ (entry : nat) (h : heap) : outcome heap :=
  p ← get_prev h entry; n ← get_next h entry; h ← set_next p n h;
  n ← get_next h entry; p ← get_prev h entry; h ← set_prev n p h;
  ORPHAN_SET entry h.
Definition remove (index : nat) (h : heap) : outcome (Z * heap) :=
  in_list ← ORPHAN_CHK index h;
  if in_list : bool then h ← remove_ index h; Ok (0, h) else Ok (-1, h).

Definition pop (root : nat) (h : heap) : outcome (nat * heap) :=
  head ← get_next h root;
  if negb (head =? root)%nat then h ← remove_ head h; Ok (head, h) else Ok (NULL, h).
Definition popback (root : nat) (h : heap) : outcome (nat * heap) :=
  head ← get_next h root;
  if negb (head =? root)%nat then tail ← get_prev h root; h ← remove_ tail h; Ok (tail, h) else Ok (NULL, h).

(** The loops along the list visit each entry at most once. *)
Definition walk_fuel (h : heap) : nat := S (size (nexts h)).

Fixpoint count_loop (fuel : nat) (root entry : nat) (h : heap) : outcome Z :=
  if (entry =? root)%nat then Ok 0 else
  match fuel with
  | O => Err FFuel
  | S fuel => n ← get_next h entry; i ← count_loop fuel root n h; Ok (i + 1)
  end.
Definition count (root : nat) (h : heap) : outcome Z := n ← get_next h root; count_loop (walk_fuel h) root n h.

Fixpoint clear_loop (fuel : nat) (root entry : nat) (h : heap) : outcome heap :=
  if (entry =? root)%nat then Ok h else
  match fuel with
  | O => Err FFuel
  | S fuel => n ← get_next h entry; h ← ORPHAN_SET entry h; clear_loop fuel root n h
  end.
Definition clear (root : nat) (h : heap) : outcome heap :=
  n ← get_next h root;
  h' ← clear_loop (walk_fuel h) root n h;
  EMPTY root h'.

(** The ordered insertion stops at the first entry that [cmp] puts after the item. *)
Fixpoint ordered_loop (cmp : nat → nat → bool) (fuel : nat) (root item index : nat) (h : heap) : outcome nat :=
  if (index =? root)%nat then Ok index else
  if cmp item index then Ok index else
  match fuel with
  | O => Err FFuel
  | S fuel => n ← get_next h index; ordered_loop cmp fuel root item n h
  end.
Definition ordered_insert (cmp : nat → nat → bool) (root item : nat) (h : heap) : outcome heap :=
  n ← get_next h root;
  index ← ordered_loop cmp (walk_fuel h) root item n h;
  link_pre index item h.

(** [foreach] visits the items in order: the list of what the callback sees. *)
Fixpoint foreach_loop (fuel : nat) (root entry : nat) (h : heap) : outcome (list nat) :=
  if (entry =? root)%nat then Ok [] else
  match fuel with
  | O => Err FFuel
  | S fuel => n ← get_next h entry; l ← foreach_loop fuel root n h; Ok (entry :: l)
  end.
Definition foreach (root : nat) (h : heap) : outcome (list nat) := n ← get_next h root; foreach_loop (walk_fuel h) root n h.
End clist.

(** ** The shape of a list in memory *)

(** Consecutive entries point to each other. *)
Fixpoint adj (h : heap) (c : list nat) : Prop :=
  match c with
  | a :: c => match c with b :: _ => nexts h !! a = Some b ∧ prevs h !! b = Some a ∧ adj h c | [] => True end
  | [] => True
  end.

(** [l] is the list of root [root]. *)
Record clist (h : heap) (root : nat) (l : list nat) : Prop := {
  clist_adj : adj h (root :: l ++ [root]);
  clist_nodup : NoDup (root :: l);
  clist_nonnull : NULL ∉ root :: l }.

Lemma adj_app h c1 p q c2 :
  adj h (c1 ++ p :: q :: c2) ↔ adj h (c1 ++ [p]) ∧ (nexts h !! p = Some q ∧ prevs h !! q = Some p) ∧ adj h (q :: c2).
Proof.
  induction c1 as [|a c1 IH]; [cbn; tauto|]. destruct c1 as [|b c1]; [cbn in *; tauto|].
  change (adj h ((a :: b :: c1) ++ p :: q :: c2)) with (nexts h !! a = Some b ∧ prevs h !! b = Some a ∧ adj h ((b :: c1) ++ p :: q :: c2)).
  change (adj h ((a :: b :: c1) ++ [p])) with (nexts h !! a = Some b ∧ prevs h !! b = Some a ∧ adj h ((b :: c1) ++ [p])).
  rewrite IH. tauto.
Qed.

Lemma adj_frame h h' c :
  (∀ a, a ∈ removelast c → nexts h' !! a = nexts h !! a) → (∀ a, a ∈ tl c → prevs h' !! a = prevs h !! a) → adj h c → adj h' c.
Proof.
  induction c as [|a c IH]; intros Hn Hp Ha; [done|]. destruct c as [|b c]; [done|]. destruct Ha as (H1 & H2 & Ha). cbn [adj].
  split; [rewrite Hn; [done|cbn; set_solver]|]. split; [rewrite Hp; [done|cbn; set_solver]|]. apply IH; [|intros; apply Hp; cbn in *; set_solver|done].
  intros x Hx. apply Hn. change (removelast (a :: b :: c)) with (a :: removelast (b :: c)). set_solver.
Qed.

Lemma removelast_snoc {A} (l : list A) x : removelast (l ++ [x]) = l.
Proof. apply removelast_last. Qed.

(** What an operation may change: the entries [t]; no entry appears or goes. *)
Record touches (t : list nat) (h h' : heap) : Prop := {
  touch_next : ∀ a, a ∉ t → nexts h' !! a = nexts h !! a;
  touch_prev : ∀ a, a ∉ t → prevs h' !! a = prevs h !! a;
  touch_nexts : ∀ a, is_Some (nexts h' !! a) ↔ is_Some (nexts h !! a);
  touch_prevs : ∀ a, is_Some (prevs h' !! a) ↔ is_Some (prevs h !! a) }.

Lemma clist_frame t h h' root l : touches t h h' → (∀ a, a ∈ root :: l → a ∉ t) → clist h root l → clist h' root l.
Proof.
  intros [Tn Tp _ _] Hd [Ha Hn Hnn]. split; [|done|done]. eapply adj_frame; [| |done]; intros a Hin.
  - change (root :: l ++ [root]) with ((root :: l) ++ [root]) in Hin. rewrite removelast_snoc in Hin. by apply Tn, Hd.
  - cbn [tl] in Hin. apply Tp, Hd. set_solver.
Qed.

(** Entry [x] comes between [p] and [q], or leaves. *)
Definition linked_in (p x q : nat) (h h' : heap) : Prop :=
  (∀ a, nexts h' !! a = if decide (p = a) then Some x else if decide (x = a) then Some q else nexts h !! a) ∧
  (∀ a, prevs h' !! a = if decide (q = a) then Some x else if decide (x = a) then Some p else prevs h !! a).
Definition linked_out (m : option nat) (p x q : nat) (h h' : heap) : Prop :=
  (∀ a, nexts h' !! a = if decide (x = a) then m else if decide (p = a) then Some q else nexts h !! a) ∧
  (∀ a, prevs h' !! a = if decide (q = a) then Some p else prevs h !! a).

(** The cycle of a list, cut between two neighbours. *)
Lemma cycle_cut (root : nat) l1 l2 : ∃ c1 p q c2, root :: l1 = c1 ++ [p] ∧ l2 ++ [root] = q :: c2 ∧ (q :: c2 = [root] ∨ q ∈ l2).
Proof.
  destruct l1 as [|p l1 _] using rev_ind.
  - destruct l2 as [|q l2]; [by exists [], root, root, []; auto|]. exists [], root, q, (l2 ++ [root]). split_and!; [done|done|right; set_solver].
  - destruct l2 as [|q l2]; [exists (root :: l1), p, root, []; auto|]. exists (root :: l1), p, q, (l2 ++ [root]). split_and!; [done|done|right; set_solver].
Qed.

Lemma cut_facts (root : nat) l1 l2 c1 p q c2 :
  root :: l1 = c1 ++ [p] → l2 ++ [root] = q :: c2 → NoDup (root :: l1 ++ l2) →
  p ∈ root :: l1 ∧ q ∈ root :: l2 ∧ p ∉ c1 ∧ q ∉ l1 ∧ p ∉ l2 ∧ q ∉ c2 ∧ removelast (q :: c2) = l2 ∧ (∀ a, a ∈ c2 → a ∈ root :: l2).
Proof.
  intros E1 E2 Hn. assert (p ∈ root :: l1) as Hp by (rewrite E1; set_solver).
  assert (q ∈ root :: l2) as Hq by (assert (q ∈ l2 ++ [root]) by (rewrite E2; set_solver); set_solver).
  apply NoDup_cons in Hn as [Hr Hn]. apply NoDup_app in Hn as (N1 & N12 & N2).
  assert (NoDup (c1 ++ [p])) as Nc by (rewrite <-E1; constructor; [set_solver|done]).
  assert (NoDup (q :: c2)) as Nq by (rewrite <-E2; apply NoDup_app; split_and!; [done|set_solver|constructor; [set_solver|constructor]]).
  apply NoDup_app in Nc as (_ & Nc & _). apply NoDup_cons in Nq as [Nq _].
  split_and!; [done|done|set_solver|set_solver|set_solver|done|by rewrite <-E2, removelast_snoc|].
  intros a Ha. assert (a ∈ l2 ++ [root]) by (rewrite E2; set_solver). set_solver.
Qed.

Lemma link_in_spec h h' root l1 l2 c1 p q c2 x :
  root :: l1 = c1 ++ [p] → l2 ++ [root] = q :: c2 → clist h root (l1 ++ l2) → x ∉ root :: l1 ++ l2 → x ≠ NULL → linked_in p x q h h' →
  clist h' root (l1 ++ x :: l2).
Proof.
  intros E1 E2 [Ha Hn Hnn] Hx Hx0 [Fn Fp]. destruct (cut_facts _ _ _ _ _ _ _ E1 E2 Hn) as (Hp & Hq & P1 & P2 & P3 & P4 & P5 & P6).
  assert (root :: (l1 ++ l2) ++ [root] = c1 ++ p :: q :: c2) as Ec
    by (rewrite <-app_assoc, E2; change (root :: l1 ++ q :: c2) with ((root :: l1) ++ q :: c2); rewrite E1, <-app_assoc; done).
  rewrite Ec in Ha. apply adj_app in Ha as (A1 & _ & A2). split.
  - assert (root :: (l1 ++ x :: l2) ++ [root] = c1 ++ p :: x :: q :: c2) as ->
      by (rewrite <-app_assoc, <-app_comm_cons, E2; change (root :: l1 ++ x :: q :: c2) with ((root :: l1) ++ x :: q :: c2); rewrite E1, <-app_assoc; done).
    apply adj_app. split_and!; [|rewrite Fn, decide_True by done; done|rewrite Fp|].
    + eapply adj_frame; [| |exact A1]; intros a Hin.
      * rewrite removelast_snoc in Hin. rewrite Fn, !decide_False; [done|intros <-; apply Hx; assert (x ∈ root :: l1) by (rewrite E1; set_solver); set_solver|by intros <-].
      * rewrite <-E1 in Hin. cbn [tl] in Hin. rewrite Fp, !decide_False; [done|set_solver|by intros <-].
    + rewrite decide_False by (intros ->; set_solver). by rewrite decide_True.
    + change (x :: q :: c2) with ([] ++ x :: q :: c2). apply adj_app. split_and!; [done| | |].
      * rewrite Fn, decide_False by (intros ->; set_solver). by rewrite decide_True.
      * by rewrite Fp, decide_True.
      * eapply adj_frame; [| |exact A2]; intros a Hin.
        -- rewrite P5 in Hin. rewrite Fn, !decide_False; [done|set_solver|by intros <-].
        -- cbn [tl] in Hin. rewrite Fp, !decide_False; [done|intros <-; apply Hx; specialize (P6 _ Hin); set_solver|by intros <-].
  - apply NoDup_cons in Hn as [Hr Hn]. constructor; [set_solver|]. apply NoDup_app in Hn as (N1 & N12 & N2). apply NoDup_app.
    split_and!; [done|set_solver|constructor; [set_solver|done]].
  - set_solver.
Qed.

Lemma link_out_spec h h' m root l1 l2 c1 p q c2 x :
  root :: l1 = c1 ++ [p] → l2 ++ [root] = q :: c2 → clist h root (l1 ++ x :: l2) → linked_out m p x q h h' → clist h' root (l1 ++ l2).
Proof.
  intros E1 E2 [Ha Hn Hnn] [Fn Fp].
  assert (x ∉ root :: l1 ++ l2 ∧ NoDup (root :: l1 ++ l2)) as [Hx Hn'].
  { assert (Permutation (root :: l1 ++ x :: l2) (x :: root :: l1 ++ l2)) as Ep by (rewrite <-Permutation_middle; constructor).
    rewrite Ep in Hn. by apply NoDup_cons in Hn. }
  destruct (cut_facts _ _ _ _ _ _ _ E1 E2 Hn') as (Hp & Hq & P1 & P2 & P3 & P4 & P5 & P6).
  assert (root :: (l1 ++ x :: l2) ++ [root] = c1 ++ p :: x :: q :: c2) as Ec
    by (rewrite <-app_assoc, <-app_comm_cons, E2; change (root :: l1 ++ x :: q :: c2) with ((root :: l1) ++ x :: q :: c2); rewrite E1, <-app_assoc; done).
  rewrite Ec in Ha. apply adj_app in Ha as (A1 & _ & A2). change (x :: q :: c2) with ([] ++ x :: q :: c2) in A2. apply adj_app in A2 as (_ & _ & A2).
  split; [|done|set_solver].
  assert (root :: (l1 ++ l2) ++ [root] = c1 ++ p :: q :: c2) as ->
    by (rewrite <-app_assoc, E2; change (root :: l1 ++ q :: c2) with ((root :: l1) ++ q :: c2); rewrite E1, <-app_assoc; done).
  apply adj_app. split_and!.
  - eapply adj_frame; [| |exact A1]; intros a Hin.
    + rewrite removelast_snoc in Hin. rewrite Fn, !decide_False; [done|by intros <-|intros <-; apply Hx; assert (x ∈ root :: l1) by (rewrite E1; set_solver); set_solver].
    + rewrite <-E1 in Hin. cbn [tl] in Hin. rewrite Fp, decide_False; [done|by intros <-].
  - rewrite Fn, decide_False by (intros ->; set_solver). by rewrite decide_True.
  - by rewrite Fp, decide_True.
  - eapply adj_frame; [| |exact A2]; intros a Hin.
    + rewrite P5 in Hin. rewrite Fn, !decide_False; [done|by intros <-|set_solver].
    + cbn [tl] in Hin. rewrite Fp, decide_False; [done|by intros <-].
Qed.

(** ** The operations on one list *)

Definition link_in (p x q : nat) (h : heap) : heap :=
  {| nexts := <[p := x]> (<[x := q]> (nexts h)); prevs := <[q := x]> (<[x := p]> (prevs h)) |}.
Definition link_out (oc : bool) (p x q : nat) (h : heap) : heap :=
  {| nexts := if oc then <[x := NULL]> (<[p := q]> (nexts h)) else <[p := q]> (nexts h); prevs := <[q := p]> (prevs h) |}.

Lemma link_in_linked p x q h : linked_in p x q h (link_in p x q h).
Proof. split; intros a; cbn [link_in nexts prevs]; by rewrite !lookup_insert. Qed.
Lemma link_out_linked (oc : bool) p x q h : p ≠ x →
  linked_out (if oc then Some NULL else nexts h !! x) p x q h (link_out oc p x q h).
Proof.
  intros Hne. split; intros a; cbn [link_out nexts prevs]; [|by rewrite lookup_insert].
  destruct oc; rewrite !lookup_insert; [done|]. destruct (decide (x = a)) as [<-|]; [by rewrite decide_False|done].
Qed.

(** Evaluates loads and stores whose entry is known to exist. *)
Ltac mem :=
  unfold get_next, get_prev, set_next, set_prev;
  repeat first
    [ progress cbn [mbind outcome_bind of_option nexts prevs]
    | rewrite lookup_insert_eq | rewrite lookup_insert_ne by congruence
    | match goal with H : ?m !! ?a = Some _ |- context [?m !! ?a] => rewrite H end ].

Section links.
Context (h : heap) (p x q : nat) (nx px : nat).
Context (Hpq : nexts h !! p = Some q) (Hqp : prevs h !! q = Some p) (Hnx : nexts h !! x = Some nx) (Hpx : prevs h !! x = Some px).

Lemma push_links : p ≠ x → q ≠ x → push p x h = Ok (1, link_in p x q h).
Proof. intros Hp Hq. unfold push. by mem. Qed.
Lemma pushback_links : p ≠ x → q ≠ x → pushback q x h = Ok (1, link_in p x q h).
Proof. intros Hp Hq. unfold pushback. by mem. Qed.
Lemma link_pre_links : p ≠ x → q ≠ x → link_pre q x h = Ok (link_in p x q h).
Proof. intros Hp Hq. unfold link_pre. by mem. Qed.
Lemma insert_post_links oc : p ≠ x → q ≠ x → (oc = true → q ≠ NULL) → insert_post oc p x h = Ok (1, link_in p x q h).
Proof.
  intros Hp Hq Hn. unfold insert_post. assert (ORPHAN_CHK oc p h = Ok true) as ->.
  { unfold ORPHAN_CHK. destruct oc; [|done]. mem. destruct (Nat.eqb_spec q NULL); [by destruct Hn|done]. }
  by mem.
Qed.
End links.

Lemma chk_in oc h x q : nexts h !! x = Some q → q ≠ NULL → ORPHAN_CHK oc x h = Ok true.
Proof. intros Hx Hq. unfold ORPHAN_CHK. destruct oc; [|done]. mem. by destruct (Nat.eqb_spec q NULL). Qed.
Lemma chk_orphan h x : nexts h !! x = Some NULL → ORPHAN_CHK true x h = Ok false.
Proof. intros Hx. unfold ORPHAN_CHK. by mem. Qed.

Lemma remove_links oc h p x q :
  nexts h !! p = Some x → prevs h !! x = Some p → nexts h !! x = Some q → prevs h !! q = Some x → p ≠ x → q ≠ x →
  remove_ oc x h = Ok (link_out oc p x q h).
Proof. intros H1 H2 H3 H4 Hp Hq. unfold remove_, ORPHAN_SET, link_out. destruct oc; by mem. Qed.

Lemma set_links oc h p x q y ny py :
  nexts h !! p = Some x → prevs h !! x = Some p → nexts h !! x = Some q → prevs h !! q = Some x →
  nexts h !! y = Some ny → prevs h !! y = Some py → p ≠ x → q ≠ x → y ≠ p → y ≠ x → y ≠ q → x ≠ NULL → q ≠ NULL →
  ∃ h', set oc x y h = Ok (0, h') ∧ linked_in p y q (link_out oc p x q h) h'.
Proof.
  intros H1 H2 H3 H4 H5 H6 Hp Hq Hy Hyx Hyq Hx0 Hq0. unfold set. rewrite (chk_in oc h x q) by done. unfold ORPHAN_SET.
  destruct oc; mem; (eexists; split; [reflexivity|]); split; intros a; cbn [link_out nexts prevs]; rewrite !lookup_insert;
    repeat case_decide; subst; congruence.
Qed.

(** *** Facts about the entries of a list *)

Lemma adj_entry h c a : adj h c → a ∈ removelast c → is_Some (nexts h !! a).
Proof.
  induction c as [|b c IH]; [set_solver|]. destruct c as [|d c]; [set_solver|]. intros (H1 & H2 & H3).
  change (removelast (b :: d :: c)) with (b :: removelast (d :: c)). intros [->|Ha]%elem_of_cons; eauto.
Qed.
Lemma adj_entry_prev h c a : adj h c → a ∈ tl c → is_Some (prevs h !! a).
Proof.
  induction c as [|b c IH]; [set_solver|]. destruct c as [|d c]; [set_solver|]. intros (H1 & H2 & H3). cbn [tl] in *.
  intros [->|Ha]%elem_of_cons; eauto.
Qed.
Lemma clist_entry h root l a : clist h root l → a ∈ root :: l → is_Some (nexts h !! a) ∧ is_Some (prevs h !! a).
Proof.
  intros [Ha _ _] Hin. split.
  - eapply adj_entry; [done|]. change (root :: l ++ [root]) with ((root :: l) ++ [root]). by rewrite removelast_snoc.
  - eapply adj_entry_prev; [done|]. cbn [tl]. set_solver.
Qed.
(** The neighbours at a cut point to each other. *)
Lemma cut_links h root l1 l2 c1 p q c2 :
  root :: l1 = c1 ++ [p] → l2 ++ [root] = q :: c2 → clist h root (l1 ++ l2) → nexts h !! p = Some q ∧ prevs h !! q = Some p.
Proof.
  intros E1 E2 [Ha _ _]. rewrite <-app_assoc, E2 in Ha. change (root :: l1 ++ q :: c2) with ((root :: l1) ++ q :: c2) in Ha.
  rewrite E1, <-app_assoc in Ha. cbn [app] in Ha. by apply adj_app in Ha as (_ & H & _).
Qed.
Lemma clist_next h root l1 a l2 : clist h root (l1 ++ a :: l2) → ∃ q, nexts h !! a = Some q ∧ q ≠ NULL ∧ q ∈ root :: l2.
Proof.
  intros Hc. destruct (cycle_cut root (l1 ++ [a]) l2) as (c1 & p & q & c2 & E1 & E2 & Hq).
  rewrite app_comm_cons in E1. apply app_inj_tail in E1 as [_ <-].
  assert (clist h root ((l1 ++ [a]) ++ l2)) as Hc' by (by rewrite <-app_assoc).
  destruct (cut_links h root (l1 ++ [a]) l2 (root :: l1) a q c2 ltac:(done) E2 Hc') as [Hn _].
  exists q. assert (q ∈ root :: l2) by (assert (q ∈ l2 ++ [root]) by (rewrite E2; set_solver); set_solver).
  split_and!; [done| |done]. intros ->. destruct Hc as [_ _ Hnn]. set_solver.
Qed.

Lemma clist_touches_refl t h : touches t h h.
Proof. by split. Qed.
Lemma touches_link_in t p x q h :
  p ∈ t → x ∈ t → q ∈ t → is_Some (nexts h !! p) → is_Some (nexts h !! x) → is_Some (prevs h !! q) → is_Some (prevs h !! x) →
  touches t h (link_in p x q h).
Proof.
  intros Hp Hx Hq [? ?] [? ?] [? ?] [? ?].
  split; intros a; cbn [link_in nexts prevs]; rewrite !lookup_insert; repeat case_decide; subst; naive_solver.
Qed.
Lemma touches_link_out oc t p x q h :
  p ∈ t → x ∈ t → q ∈ t → is_Some (nexts h !! p) → is_Some (nexts h !! x) → is_Some (prevs h !! q) → touches t h (link_out oc p x q h).
Proof.
  intros Hp Hx Hq [? ?] [? ?] [? ?].
  split; intros a; cbn [link_out nexts prevs]; destruct oc; rewrite !lookup_insert; repeat case_decide; subst; naive_solver.
Qed.
Lemma touches_linked_in t p x q h h' :
  linked_in p x q h h' → p ∈ t → x ∈ t → q ∈ t → is_Some (nexts h !! p) → is_Some (nexts h !! x) → is_Some (prevs h !! q) → is_Some (prevs h !! x) →
  touches t h h'.
Proof.
  intros [Fn Fp] Hp Hx Hq [? ?] [? ?] [? ?] [? ?].
  split; intros a; rewrite ?Fn, ?Fp; repeat case_decide; subst; naive_solver.
Qed.
Lemma touches_mono t t' h h' : touches t h h' → (∀ a, a ∈ t → a ∈ t') → touches t' h h'.
Proof. intros [B1 B2 B3 B4] Hs. split; [intros a Ha; apply B1; intros Hin; by apply Ha, Hs|intros a Ha; apply B2; intros Hin; by apply Ha, Hs|done|done]. Qed.
Lemma clist_touches_trans t h1 h2 h3 : touches t h1 h2 → touches t h2 h3 → touches t h1 h3.
Proof. intros [A1 A2 A3 A4] [B1 B2 B3 B4]. split; intros a; [intros; by rewrite B1, A1|intros; by rewrite B2, A2|by rewrite B3, A3|by rewrite B4, A4]. Qed.

(** An item that is in memory and not in the list. *)
Definition outside (h : heap) (root : nat) (l : list nat) (x : nat) : Prop :=
  x ∉ root :: l ∧ x ≠ NULL ∧ is_Some (nexts h !! x) ∧ is_Some (prevs h !! x).

(** The insertion of an item at a cut of the list. *)
Lemma insert_cut h root l1 l2 c1 p q c2 x :
  clist h root (l1 ++ l2) → outside h root (l1 ++ l2) x → root :: l1 = c1 ++ [p] → l2 ++ [root] = q :: c2 →
  p ≠ x ∧ q ≠ x ∧ q ≠ NULL ∧ (∃ nx px, nexts h !! x = Some nx ∧ prevs h !! x = Some px) ∧ nexts h !! p = Some q ∧ prevs h !! q = Some p ∧
  clist (link_in p x q h) root (l1 ++ x :: l2) ∧ touches (root :: x :: l1 ++ l2) h (link_in p x q h).
Proof.
  intros Hc (Hx & Hx0 & [nx Hnx] & [px Hpx]) E1 E2. pose proof Hc as [_ Hn Hnn].
  destruct (cut_facts _ _ _ _ _ _ _ E1 E2 Hn) as (Hp & Hq & _).
  destruct (cut_links h root l1 l2 c1 p q c2 E1 E2 Hc) as [Hpq Hqp].
  split_and!; [set_solver|set_solver|set_solver|eauto|done|done| |].
  - eapply link_in_spec; [done|done|done|done|done|apply link_in_linked].
  - apply touches_link_in; [set_solver|set_solver|set_solver|by rewrite Hpq|by rewrite Hnx|by rewrite Hqp|by rewrite Hpx].
Qed.

Lemma push_clist h root l x : clist h root l → outside h root l x →
  ∃ h', push root x h = Ok (1, h') ∧ clist h' root (x :: l) ∧ touches (root :: x :: l) h h'.
Proof.
  intros Hc Hx. destruct (cycle_cut root [] l) as (c1 & p & q & c2 & E1 & E2 & _).
  destruct (insert_cut h root [] l c1 p q c2 x Hc Hx E1 E2) as (? & ? & _ & (nx & px & Hnx & Hpx) & Hpq & Hqp & Hc' & Ht).
  assert (p = root) as -> by (destruct c1 as [|? [|? c1]]; cbn in E1; congruence).
  eexists. split; [by eapply push_links|]. done.
Qed.
Lemma pushback_clist h root l x : clist h root l → outside h root l x →
  ∃ h', pushback root x h = Ok (1, h') ∧ clist h' root (l ++ [x]) ∧ touches (root :: x :: l) h h'.
Proof.
  intros Hc Hx. rewrite <-(app_nil_r l) in Hc, Hx. destruct (cycle_cut root l []) as (c1 & p & q & c2 & E1 & E2 & _).
  destruct (insert_cut h root l [] c1 p q c2 x Hc Hx E1 E2) as (? & ? & _ & (nx & px & Hnx & Hpx) & Hpq & Hqp & Hc' & Ht).
  injection E2 as <- <-. rewrite app_nil_r in Ht. eexists. split; [by eapply pushback_links|]. done.
Qed.
Lemma link_pre_clist h root l1 l2 q c2 x : clist h root (l1 ++ l2) → outside h root (l1 ++ l2) x → l2 ++ [root] = q :: c2 →
  ∃ h', link_pre q x h = Ok h' ∧ clist h' root (l1 ++ x :: l2) ∧ touches (root :: x :: l1 ++ l2) h h'.
Proof.
  intros Hc Hx E2. destruct (cycle_cut root l1 l2) as (c1 & p & q' & c2' & E1 & E2' & _). rewrite E2 in E2'. injection E2' as <- <-.
  destruct (insert_cut h root l1 l2 c1 p q c2 x Hc Hx E1 E2) as (? & ? & _ & (nx & px & Hnx & Hpx) & Hpq & Hqp & Hc' & Ht).
  eexists. split; [by eapply link_pre_links|]. done.
Qed.
Lemma insert_pre_clist oc h root l1 i l2 x : clist h root (l1 ++ i :: l2) → outside h root (l1 ++ i :: l2) x →
  ∃ h', insert_pre oc i x h = Ok (1, h') ∧ clist h' root (l1 ++ x :: i :: l2) ∧ touches (root :: x :: l1 ++ i :: l2) h h'.
Proof.
  intros Hc Hx. destruct (clist_next h root l1 i l2 Hc) as (n & Hn & Hn0 & _). unfold insert_pre. rewrite (chk_in oc h i n) by done. cbn [mbind outcome_bind].
  destruct (link_pre_clist h root l1 (i :: l2) i (l2 ++ [root]) x Hc Hx eq_refl) as (h' & -> & ? & ?). by exists h'.
Qed.
Lemma insert_post_clist oc h root l1 i l2 x : clist h root (l1 ++ i :: l2) → outside h root (l1 ++ i :: l2) x →
  ∃ h', insert_post oc i x h = Ok (1, h') ∧ clist h' root (l1 ++ i :: x :: l2) ∧ touches (root :: x :: l1 ++ i :: l2) h h'.
Proof.
  intros Hc Hx. replace (l1 ++ i :: l2) with ((l1 ++ [i]) ++ l2) in * by (by rewrite <-app_assoc).
  replace (l1 ++ i :: x :: l2) with ((l1 ++ [i]) ++ x :: l2) by (by rewrite <-app_assoc).
  destruct (cycle_cut root (l1 ++ [i]) l2) as (c1 & p & q & c2 & E1 & E2 & _).
  destruct (insert_cut h root (l1 ++ [i]) l2 c1 p q c2 x Hc Hx E1 E2) as (? & ? & ? & (nx & px & Hnx & Hpx) & Hpq & Hqp & Hc' & Ht).
  rewrite app_comm_cons in E1. apply app_inj_tail in E1 as [_ <-].
  eexists. split; [by eapply insert_post_links|]. done.
Qed.

(** The neighbours of an item of the list. *)
Lemma around h root l1 x l2 : clist h root (l1 ++ x :: l2) →
  ∃ c1 p q c2, root :: l1 = c1 ++ [p] ∧ l2 ++ [root] = q :: c2 ∧ nexts h !! p = Some x ∧ prevs h !! x = Some p ∧ nexts h !! x = Some q ∧
    prevs h !! q = Some x ∧ p ∈ root :: l1 ∧ q ∈ root :: l2 ∧ p ≠ x ∧ q ≠ x ∧ x ≠ NULL ∧ q ≠ NULL.
Proof.
  intros Hc. destruct (cycle_cut root l1 l2) as (c1 & p & q & c2 & E1 & E2 & _). exists c1, p, q, c2.
  destruct (cut_links h root l1 (x :: l2) c1 p x (l2 ++ [root]) E1 eq_refl Hc) as [H1 H2].
  assert (clist h root ((l1 ++ [x]) ++ l2)) as Hc' by (by rewrite <-app_assoc).
  destruct (cut_links h root (l1 ++ [x]) l2 (root :: l1) x q c2 eq_refl E2 Hc') as [H3 H4].
  assert (p ∈ root :: l1) by (rewrite E1; set_solver).
  assert (q ∈ root :: l2) by (assert (q ∈ l2 ++ [root]) by (rewrite E2; set_solver); set_solver).
  destruct Hc as [_ Hn Hnn]. assert (Permutation (root :: l1 ++ x :: l2) (x :: root :: l1 ++ l2)) as Ep by (rewrite <-Permutation_middle; constructor).
  rewrite Ep in Hn. apply NoDup_cons in Hn as [Hx _]. split_and!; try done; set_solver.
Qed.

Lemma remove_clist oc h root l1 x l2 : clist h root (l1 ++ x :: l2) →
  ∃ h', remove_ oc x h = Ok h' ∧ clist h' root (l1 ++ l2) ∧ touches (root :: l1 ++ x :: l2) h h' ∧ (oc = true → nexts h' !! x = Some NULL).
Proof.
  intros Hc. destruct (around h root l1 x l2 Hc) as (c1 & p & q & c2 & E1 & E2 & H1 & H2 & H3 & H4 & Hp & Hq & Hpx & Hqx & _).
  eexists. split; [by eapply remove_links|]. split_and!.
  - eapply link_out_spec; [done|done|done|by apply link_out_linked].
  - apply touches_link_out; [set_solver|set_solver|set_solver|by rewrite H1|by rewrite H3|by rewrite H4].
  - intros ->. cbn [link_out nexts]. by rewrite lookup_insert_eq.
Qed.
Lemma set_clist oc h root l1 x l2 y : clist h root (l1 ++ x :: l2) → outside h root (l1 ++ x :: l2) y →
  ∃ h', set oc x y h = Ok (0, h') ∧ clist h' root (l1 ++ y :: l2) ∧ touches (root :: y :: l1 ++ x :: l2) h h' ∧ (oc = true → nexts h' !! x = Some NULL).
Proof.
  intros Hc (Hy & Hy0 & [ny Hny] & [py Hpy]).
  destruct (around h root l1 x l2 Hc) as (c1 & p & q & c2 & E1 & E2 & H1 & H2 & H3 & H4 & Hp & Hq & Hpx & Hqx & Hx0 & Hq0).
  destruct (set_links oc h p x q y ny py H1 H2 H3 H4 Hny Hpy) as (h' & E & Hin); [set_solver..|done|done|].
  exists h'. split; [done|]. set (h1 := link_out oc p x q h) in *.
  assert (touches (root :: y :: l1 ++ x :: l2) h h1) as T1 by (apply touches_link_out; [set_solver|set_solver|set_solver|by rewrite H1|by rewrite H3|by rewrite H4]).
  assert (clist h1 root (l1 ++ l2)) as Hc1 by (eapply link_out_spec; [done|done|done|by apply link_out_linked]).
  split_and!.
  - eapply link_in_spec; [done|done|done|set_solver|done|done].
  - eapply clist_touches_trans; [done|]. pose proof T1 as [_ _ Tn Tp].
    eapply touches_linked_in; [done|set_solver|set_solver|set_solver|apply Tn; by rewrite H1|apply Tn; by rewrite Hny|apply Tp; by rewrite H4|apply Tp; by rewrite Hpy].
  - intros ->. destruct Hin as [Fn _]. rewrite Fn, !decide_False by set_solver. unfold h1. cbn [link_out nexts]. by rewrite lookup_insert_eq.
Qed.

Lemma pop_clist oc h root l : clist h root l →
  match l with
  | [] => pop oc root h = Ok (NULL, h)
  | x :: l' => ∃ h', pop oc root h = Ok (x, h') ∧ clist h' root l' ∧ touches (root :: l) h h' ∧ (oc = true → nexts h' !! x = Some NULL)
  end.
Proof.
  intros Hc. unfold pop, get_next. pose proof Hc as [Ha Hn _]. destruct l as [|x l]; cbn in Ha; destruct Ha as [-> _]; cbn [of_option mbind outcome_bind].
  - by rewrite Nat.eqb_refl.
  - destruct (Nat.eqb_spec x root); [apply NoDup_cons in Hn; set_solver|]. cbn [negb].
    destruct (remove_clist oc h root [] x l Hc) as (h' & -> & ? & ? & ?). by exists h'.
Qed.
Lemma popback_clist oc h root l : clist h root l →
  match last l with
  | None => popback oc root h = Ok (NULL, h)
  | Some x => ∃ h', popback oc root h = Ok (x, h') ∧ clist h' root (take (length l - 1) l) ∧ touches (root :: l) h h' ∧ (oc = true → nexts h' !! x = Some NULL)
  end.
Proof.
  intros Hc. unfold popback, get_next. destruct l as [|x l _] using rev_ind.
  - destruct Hc as [[Ha _] _ _]. rewrite Ha. cbn. by rewrite Nat.eqb_refl.
  - rewrite last_snoc. rewrite length_app, Nat.add_sub, take_app_length. destruct (around h root l x [] Hc) as (c1 & p & q & c2 & E1 & E2 & _ & _ & _ & H4 & _).
    injection E2 as <- <-. unfold get_prev. rewrite H4. cbn [of_option mbind outcome_bind].
    assert (∃ n, nexts h !! root = Some n ∧ n ≠ root) as (n & -> & Hne).
    { destruct Hc as [Ha Hn _]. apply NoDup_cons in Hn as [Hn _]. destruct l as [|y l]; cbn in Ha, Hn; destruct Ha as [-> _]; eexists; (split; [done|]); set_solver. }
    cbn [of_option mbind outcome_bind]. destruct (Nat.eqb_spec n root); [done|]. cbn [negb].
    destruct (remove_clist oc h root l x [] Hc) as (h' & -> & ? & ? & ?). rewrite app_nil_r in *. by exists h'.
Qed.

(** *** Walks *)

(** From entry [e] the next links lead through [l] to the root. *)
Fixpoint chain (h : heap) (root e : nat) (l : list nat) : Prop :=
  match l with
  | [] => e = root
  | x :: l => e = x ∧ ∃ n, nexts h !! x = Some n ∧ chain h root n l
  end.

Lemma chain_frame h h' root l : ∀ e, (∀ a, a ∈ l → nexts h' !! a = nexts h !! a) → chain h root e l → chain h' root e l.
Proof.
  induction l as [|x l IH]; intros e Hf; [done|]. intros (-> & n & Hn & Hc). split; [done|]. exists n. rewrite Hf by set_solver.
  split; [done|]. apply IH; [set_solver|done].
Qed.
Lemma adj_chain h root l : ∀ x, adj h (x :: l ++ [root]) → ∃ n, nexts h !! x = Some n ∧ chain h root n l.
Proof.
  induction l as [|y l IH]; intros x Ha; cbn [app adj] in Ha; destruct Ha as (H1 & _ & H3); [by exists root|].
  exists y. split; [done|]. split; [done|]. by apply IH.
Qed.
Lemma clist_chain h root l : clist h root l → ∃ n, nexts h !! root = Some n ∧ chain h root n l.
Proof. intros [Ha _ _]. by apply adj_chain. Qed.
Lemma clist_size h root l : clist h root l → (length l < walk_fuel h)%nat.
Proof.
  intros Hc. pose proof Hc as [_ Hn _]. unfold walk_fuel. apply NoDup_cons in Hn as [_ Hn].
  assert (list_to_set l ⊆@{gset nat} dom (nexts h)) as Hs.
  { intros a Ha%elem_of_list_to_set. apply elem_of_dom. apply (clist_entry h root l a Hc). set_solver. }
  apply subseteq_size in Hs. rewrite size_list_to_set, size_dom in Hs by done. lia.
Qed.

Section walks.
Context (root : nat).

Lemma foreach_spec l : ∀ fuel e h, root ∉ l → (length l ≤ fuel)%nat → chain h root e l → foreach_loop fuel root e h = Ok l.
Proof.
  induction l as [|x l IH]; intros fuel e h Hr Hf; [intros ->; destruct fuel; cbn; by rewrite Nat.eqb_refl|].
  intros (-> & n & Hn & Hc). cbn [length] in Hf. destruct fuel as [|fuel]; [lia|]. cbn [foreach_loop].
  destruct (Nat.eqb_spec x root); [set_solver|]. unfold get_next. rewrite Hn. cbn [of_option mbind outcome_bind].
  by rewrite IH; [|set_solver|lia|].
Qed.
Lemma clist_count_spec l : ∀ fuel e h, root ∉ l → (length l ≤ fuel)%nat → chain h root e l → count_loop fuel root e h = Ok (Z.of_nat (length l)).
Proof.
  induction l as [|x l IH]; intros fuel e h Hr Hf; [intros ->; destruct fuel; cbn; by rewrite Nat.eqb_refl|].
  intros (-> & n & Hn & Hc). cbn [length] in Hf. destruct fuel as [|fuel]; [lia|]. cbn [count_loop].
  destruct (Nat.eqb_spec x root); [set_solver|]. unfold get_next. rewrite Hn. cbn [of_option mbind outcome_bind].
  rewrite IH; [|set_solver|lia|done]. cbn [mbind outcome_bind length]. f_equal. lia.
Qed.
Lemma clear_spec oc l : ∀ fuel e h, root ∉ l → NoDup l → (length l ≤ fuel)%nat → chain h root e l →
  ∃ h', clear_loop oc fuel root e h = Ok h' ∧ prevs h' = prevs h ∧ (oc = true → ∀ a, a ∈ l → nexts h' !! a = Some NULL) ∧ touches l h h'.
Proof.
  induction l as [|x l IH]; intros fuel e h Hr Hn Hf.
  - intros ->. exists h. destruct fuel; cbn; rewrite Nat.eqb_refl; (split_and!; [done|done|set_solver|apply clist_touches_refl]).
  - intros (-> & n & Hx & Hc). cbn [length] in Hf. apply NoDup_cons in Hn as [Hxl Hn]. destruct fuel as [|fuel]; [lia|]. cbn [clear_loop].
    destruct (Nat.eqb_spec x root); [set_solver|]. unfold get_next. rewrite Hx. cbn [of_option mbind outcome_bind]. unfold ORPHAN_SET, set_next.
    assert (∀ h1, h1 = (if oc then {| nexts := <[x := NULL]> (nexts h); prevs := prevs h |} else h) →
      touches (x :: l) h h1 ∧ (∀ a, a ∈ l → nexts h1 !! a = nexts h !! a) ∧ prevs h1 = prevs h ∧ (oc = true → nexts h1 !! x = Some NULL)) as H1.
    { intros h1 ->. destruct oc; [|split_and!; [apply clist_touches_refl|done|done|done]]. split_and!; cbn [nexts prevs]; [| |done|by rewrite lookup_insert_eq].
      - split; intros a; cbn [nexts prevs]; rewrite ?lookup_insert; [|done| |done]; case_decide; subst; [set_solver|done|by rewrite Hx|done].
      - intros a Ha. rewrite lookup_insert_ne; set_solver. }
    destruct (H1 _ eq_refl) as (T1 & F1 & P1 & O1). set (h1 := if oc then _ else h) in *.
    assert ((if oc then if nexts h !! x is Some _ then Ok {| nexts := <[x := NULL]> (nexts h); prevs := prevs h |} else Err FUndef else Ok h) = Ok h1) as ->
      by (unfold h1; rewrite Hx; by destruct oc). cbn [mbind outcome_bind].
    destruct (IH fuel n h1) as (h' & -> & Hp & Ho & Ht); [set_solver|done|lia|by eapply chain_frame|].
    exists h'. split; [done|]. split; [congruence|]. split.
    + intros E a [->|Ha]%elem_of_cons; [|by apply Ho]. rewrite (touch_next _ _ _ Ht) by done. by apply O1.
    + eapply clist_touches_trans; [exact T1|]. eapply touches_mono; [exact Ht|]. intros a Ha. by right.
Qed.
Lemma ordered_spec cmp x l : ∀ fuel e h, root ∉ l → (length l ≤ fuel)%nat → chain h root e l →
  ∃ l1 l2 q c2, l = l1 ++ l2 ∧ l2 ++ [root] = q :: c2 ∧ ordered_loop cmp fuel root x e h = Ok q ∧ Forall (λ y, cmp x y = false) l1 ∧
    match l2 with [] => True | y :: _ => cmp x y = true end.
Proof.
  induction l as [|y l IH]; intros fuel e h Hr Hf.
  - intros ->. exists [], [], root, []. destruct fuel; cbn; rewrite Nat.eqb_refl; done.
  - intros (-> & n & Hn & Hc). cbn [length] in Hf. destruct fuel as [|fuel]; [lia|]. cbn [ordered_loop].
    destruct (Nat.eqb_spec y root); [set_solver|]. destruct (cmp x y) eqn:Ec; [by exists [], (y :: l), y, (l ++ [root])|].
    unfold get_next. rewrite Hn. cbn [of_option mbind outcome_bind].
    destruct (IH fuel n h) as (l1 & l2 & q & c2 & -> & E & Eq & Hf1 & Hm); [set_solver|lia|done|].
    exists (y :: l1), l2, q, c2. split_and!; [done|done|done|by constructor|done].
Qed.
End walks.

(** ** Several lists in one memory *)

Inductive op :=
  | OInit (r : nat) | OPush (r x : nat) | OPushback (r x : nat) | OPop (r : nat) | OPopback (r : nat)
  | OInsertPre (r i x : nat) | OInsertPost (r i x : nat) | OSet (r i x : nat) | ORemove (r i : nat) | OClear (r : nat)
  | OOrdered (cmp : nat → nat → bool) (r x : nat).

Definition void (o : outcome heap) : outcome (Z * heap) := h ← o; Ok (0, h).
Definition item_res (o : outcome (nat * heap)) : outcome (Z * heap) := '(x, h) ← o; Ok (Z.of_nat x, h).
Definition run_op (oc : bool) (o : op) (h : heap) : outcome (Z * heap) :=
  match o with
  | OInit r => void (EMPTY r h)
  | OPush r x => push r x h
  | OPushback r x => pushback r x h
  | OPop r => item_res (pop oc r h)
  | OPopback r => item_res (popback oc r h)
  | OInsertPre r i x => insert_pre oc i x h
  | OInsertPost r i x => insert_post oc i x h
  | OSet r i x => set oc i x h
  | ORemove r i => remove oc i h
  | OClear r => void (clear oc r h)
  | OOrdered cmp r x => void (ordered_insert cmp r x h)
  end.

(** The same on lists, by root. *)
Fixpoint insert_before (i x : nat) (l : list nat) : list nat :=
  match l with [] => [] | y :: l' => if decide (y = i) then x :: l else y :: insert_before i x l' end.
Fixpoint insert_after (i x : nat) (l : list nat) : list nat :=
  match l with [] => [] | y :: l' => if decide (y = i) then y :: x :: l' else y :: insert_after i x l' end.
Fixpoint insert_ordered (cmp : nat → nat → bool) (x : nat) (l : list nat) : list nat :=
  match l with [] => [x] | y :: l' => if cmp x y then x :: l else y :: insert_ordered cmp x l' end.

Definition items (ls : gmap nat (list nat)) (r : nat) : list nat := default [] (ls !! r).
Definition ref_op (o : op) (ls : gmap nat (list nat)) : Z * gmap nat (list nat) :=
  match o with
  | OInit r => (0, <[r := []]> ls)
  | OPush r x => (1, <[r := x :: items ls r]> ls)
  | OPushback r x => (1, <[r := items ls r ++ [x]]> ls)
  | OPop r => match items ls r with [] => (Z.of_nat NULL, ls) | x :: l => (Z.of_nat x, <[r := l]> ls) end
  | OPopback r => match last (items ls r) with None => (Z.of_nat NULL, ls) | Some x => (Z.of_nat x, <[r := take (length (items ls r) - 1) (items ls r)]> ls) end
  | OInsertPre r i x => if decide (i ∈ items ls r) then (1, <[r := insert_before i x (items ls r)]> ls) else (0, ls)
  | OInsertPost r i x => if decide (i ∈ items ls r) then (1, <[r := insert_after i x (items ls r)]> ls) else (0, ls)
  | OSet r i x => if decide (i ∈ items ls r) then (0, <[r := map (λ y, if decide (y = i) then x else y) (items ls r)]> ls) else (-1, ls)
  | ORemove r i => if decide (i ∈ items ls r) then (0, <[r := filter (λ y, y ≠ i) (items ls r)]> ls) else (-1, ls)
  | OClear r => (0, <[r := []]> ls)
  | OOrdered cmp r x => (0, <[r := insert_ordered cmp x (items ls r)]> ls)
  end.

(** What callers must respect: a root is initialised once, an item that is
    inserted is in no list, and an index is in the list, or, where there are orphan
    marks, in no list. *)
Definition free (mem : gset nat) (ls : gmap nat (list nat)) (x : nat) : Prop :=
  x ∈ mem ∧ ls !! x = None ∧ ∀ r l, ls !! r = Some l → x ∉ l.
Definition index_ok (oc : bool) (mem : gset nat) (ls : gmap nat (list nat)) (r i : nat) : Prop :=
  i ∈ items ls r ∨ oc = true ∧ free mem ls i.
Definition allowed (oc : bool) (mem : gset nat) (o : op) (ls : gmap nat (list nat)) : Prop :=
  match o with
  | OInit r => free mem ls r
  | OPush r x | OPushback r x | OOrdered _ r x => is_Some (ls !! r) ∧ free mem ls x
  | OPop r | OPopback r | OClear r => is_Some (ls !! r)
  | OInsertPre r i x | OInsertPost r i x | OSet r i x => is_Some (ls !! r) ∧ index_ok oc mem ls r i ∧ free mem ls x
  | ORemove r i => is_Some (ls !! r) ∧ index_ok oc mem ls r i
  end.

Fixpoint allowed_all (oc : bool) (mem : gset nat) (ops : list op) (ls : gmap nat (list nat)) : Prop :=
  match ops with
  | [] => True
  | o :: ops => allowed oc mem o ls ∧ allowed_all oc mem ops (ref_op o ls).2
  end.
Fixpoint run (oc : bool) (ops : list op) (h : heap) : outcome (list Z * heap) :=
  match ops with
  | [] => Ok ([], h)
  | o :: ops => '(v, h) ← run_op oc o h; '(vs, h) ← run oc ops h; Ok (v :: vs, h)
  end.
Fixpoint ref_run (ops : list op) (ls : gmap nat (list nat)) : list Z * gmap nat (list nat) :=
  match ops with
  | [] => ([], ls)
  | o :: ops => let r := ref_op o ls in let rs := ref_run ops r.2 in (r.1 :: rs.1, rs.2)
  end.

(** The entries of the memory, marked as orphans. *)
Definition orphans (mem : gset nat) : heap := {| nexts := gset_to_gmap NULL mem; prevs := gset_to_gmap NULL mem |}.

Record winv (oc : bool) (mem : gset nat) (h : heap) (ls : gmap nat (list nat)) : Prop := {
  w_lists : ∀ r l, ls !! r = Some l → clist h r l;
  w_disj : ∀ r1 r2 l1 l2 a, ls !! r1 = Some l1 → ls !! r2 = Some l2 → a ∈ r1 :: l1 → a ∈ r2 :: l2 → r1 = r2;
  w_next : ∀ a, is_Some (nexts h !! a) ↔ a ∈ mem;
  w_prev : ∀ a, is_Some (prevs h !! a) ↔ a ∈ mem;
  w_null : NULL ∉ mem;
  w_orphan : oc = true → ∀ a, free mem ls a → nexts h !! a = Some NULL }.

Lemma free_outside oc mem h ls r l x : winv oc mem h ls → ls !! r = Some l → free mem ls x → outside h r l x.
Proof.
  intros [_ _ Wn Wp W0 _] Hr (Hx & Hx1 & Hx2). split_and!; [|by intros ->|by apply Wn|by apply Wp].
  intros [->|Hin]%elem_of_cons; [congruence|by apply (Hx2 r l Hr)].
Qed.

(** A step that changes one list, within the list and free items. *)
Lemma winv_update oc mem h h' ls r l l' t :
  winv oc mem h ls → ls !! r = Some l → clist h' r l' → touches (r :: t ++ l) h h' → (∀ x, x ∈ t → free mem ls x) →
  (∀ a, a ∈ l' → a ∈ t ++ l) → (oc = true → ∀ a, a ∈ t ++ l → a ∉ l' → nexts h' !! a = Some NULL) →
  winv oc mem h' (<[r := l']> ls).
Proof.
  intros W Hr Hc Ht Hfree Hsub Horph. pose proof W as [Wl Wd Wn Wp W0 Wo].
  assert (∀ r2 l2 a, r2 ≠ r → ls !! r2 = Some l2 → a ∈ r2 :: l2 → a ∉ r :: t ++ l) as Hd.
  { intros r2 l2 a Hne Hr2 Ha [->|[Hat|Hal]%elem_of_app]%elem_of_cons.
    - apply Hne. eapply (Wd r2 r l2 l r); [done|done|done|set_solver].
    - destruct (Hfree a Hat) as (_ & Hf1 & Hf2). apply elem_of_cons in Ha as [->|Ha]; [congruence|by apply (Hf2 r2 l2)].
    - apply Hne. eapply (Wd r2 r l2 l a); [done|done|done|set_solver]. }
  assert (∀ r2 l2 a, r2 ≠ r → ls !! r2 = Some l2 → a ∈ r2 :: l2 → a ∉ r :: l') as Hd' by (intros r2 l2 a ? ? Ha Hin; eapply (Hd r2 l2 a); [done|done|done|set_solver]).
  split.
  - intros r2 l2. destruct (decide (r2 = r)) as [->|Hne]; [rewrite lookup_insert_eq; by intros [= <-]|]. rewrite lookup_insert_ne by done.
    intros Hr2. eapply clist_frame; [exact Ht| |by apply Wl]. intros a Ha. by eapply Hd.
  - intros r1 r2 l1 l2 a. destruct (decide (r1 = r)) as [->|H1], (decide (r2 = r)) as [->|H2]; [done| | |];
      rewrite ?lookup_insert_eq, ?lookup_insert_ne by done.
    + intros [= <-] H Ha1 Ha2. exfalso. by eapply Hd'.
    + intros H [= <-] Ha1 Ha2. exfalso. by eapply Hd'.
    + apply Wd.
  - intros a. by rewrite (touch_nexts _ _ _ Ht).
  - intros a. by rewrite (touch_prevs _ _ _ Ht).
  - done.
  - intros E a (Ham & Ha1 & Ha2). assert (a ≠ r) as Har by (intros ->; by rewrite lookup_insert_eq in Ha1).
    rewrite lookup_insert_ne in Ha1 by done. pose proof (Ha2 r l' ltac:(by rewrite lookup_insert_eq)) as Hal'.
    destruct (decide (a ∈ t ++ l)) as [Hin|Hnin]; [by apply Horph|]. rewrite (touch_next _ _ _ Ht) by set_solver. apply Wo; [done|].
    split_and!; [done|done|]. intros r2 l2 Hr2. destruct (decide (r2 = r)) as [->|Hne]; [set_solver|]. apply (Ha2 r2). by rewrite lookup_insert_ne.
Qed.

Lemma insert_before_app i x l1 l2 : i ∉ l1 → insert_before i x (l1 ++ i :: l2) = l1 ++ x :: i :: l2.
Proof. induction l1 as [|y l1 IH]; intros Hi; cbn [app insert_before]; [by rewrite decide_True|]. rewrite decide_False by set_solver. by rewrite IH by set_solver. Qed.
Lemma insert_after_app i x l1 l2 : i ∉ l1 → insert_after i x (l1 ++ i :: l2) = l1 ++ i :: x :: l2.
Proof. induction l1 as [|y l1 IH]; intros Hi; cbn [app insert_after]; [by rewrite decide_True|]. rewrite decide_False by set_solver. by rewrite IH by set_solver. Qed.
Lemma replace_app (i x : nat) l1 l2 : i ∉ l1 → i ∉ l2 → map (λ y, if decide (y = i) then x else y) (l1 ++ i :: l2) = l1 ++ x :: l2.
Proof.
  assert (∀ l, i ∉ l → map (λ y, if decide (y = i) then x else y) l = l) as H.
  { induction l as [|y l IH]; intros Hi; [done|]. cbn [map]. rewrite decide_False by set_solver. by rewrite IH by set_solver. }
  intros H1 H2. rewrite map_app. cbn [map]. rewrite decide_True, !H by done. done.
Qed.
Lemma remove_app (i : nat) l1 l2 : i ∉ l1 → i ∉ l2 → filter (λ y, y ≠ i) (l1 ++ i :: l2) = l1 ++ l2.
Proof.
  intros H1 H2. rewrite filter_app, filter_cons_False by auto.
  rewrite !list_filter_all; [done|apply Forall_forall; set_solver..].
Qed.
Lemma insert_ordered_app cmp x l1 l2 : Forall (λ y, cmp x y = false) l1 → match l2 with [] => True | y :: _ => cmp x y = true end →
  insert_ordered cmp x (l1 ++ l2) = l1 ++ x :: l2.
Proof. intros H Hm. induction H as [|y l1 Hy H IH]; cbn [app insert_ordered]; [destruct l2 as [|y l2]; cbn [insert_ordered]; [done|by rewrite Hm]|]. by rewrite Hy, IH. Qed.

(** An index is in the list, where it splits it, or carries the orphan mark. *)
Lemma index_cases oc mem h ls r i : winv oc mem h ls → is_Some (ls !! r) → index_ok oc mem ls r i →
  (∃ l1 l2, items ls r = l1 ++ i :: l2 ∧ ls !! r = Some (l1 ++ i :: l2) ∧ i ∉ l1 ∧ i ∉ l2 ∧ clist h r (l1 ++ i :: l2)) ∨
  i ∉ items ls r ∧ ORPHAN_CHK oc i h = Ok false.
Proof.
  intros W [l Hr] Hi. unfold index_ok, items in *. rewrite Hr in *. cbn [from_option id] in *. pose proof W as [Wl _ _ _ _ Wo].
  destruct (decide (i ∈ l)) as [Hin|Hnin].
  - left. apply list_elem_of_split in Hin as (l1 & l2 & ->). exists l1, l2. pose proof (Wl r _ Hr) as Hc. pose proof Hc as [_ Hn _].
    apply NoDup_cons in Hn as [_ Hn]. apply NoDup_app in Hn as (_ & N1 & N2). apply NoDup_cons in N2 as [N2 _]. split_and!; [done|done|set_solver|done|done].
  - right. split; [done|]. destruct Hi as [?|[-> Hf]]; [done|]. apply chk_orphan. by apply Wo.
Qed.

Lemma init_step oc mem h ls r : winv oc mem h ls → free mem ls r → ∃ h', EMPTY r h = Ok h' ∧ winv oc mem h' (<[r := []]> ls).
Proof.
  intros [Wl Wd Wn Wp W0 Wo] (Hr & Hr1 & Hr2). unfold EMPTY, set_prev, set_next.
  pose proof (proj2 (Wn r) Hr) as [n Hn]. pose proof (proj2 (Wp r) Hr) as [q Hq]. rewrite Hq. cbn [mbind outcome_bind nexts prevs]. rewrite Hn.
  eexists. split; [done|]. set (h' := {| nexts := _; prevs := _ |}).
  assert (touches [r] h h') as Ht.
  { unfold h'. split; intros a; cbn [nexts prevs]; rewrite ?lookup_insert; [case_decide; [set_solver|done]..| |]; case_decide; subst; rewrite ?Hn, ?Hq; done. }
  assert (clist h' r []) as Hc by (unfold h'; split; cbn; [by rewrite !lookup_insert_eq|apply NoDup_singleton|intros Hin; apply W0; set_solver]).
  split.
  - intros r2 l2. destruct (decide (r2 = r)) as [->|Hne]; [rewrite lookup_insert_eq; by intros [= <-]|]. rewrite lookup_insert_ne by done. intros H2.
    eapply clist_frame; [exact Ht| |by apply Wl]. intros a Ha ->%list_elem_of_singleton. apply elem_of_cons in Ha as [->|Ha]; [done|by apply (Hr2 r2 l2)].
  - intros r1 r2 l1 l2 a. destruct (decide (r1 = r)) as [->|H1], (decide (r2 = r)) as [->|H2]; [done| | |]; rewrite ?lookup_insert_eq, ?lookup_insert_ne by done.
    + intros [= <-] H ->%list_elem_of_singleton [->|Ha]%elem_of_cons; [done|by destruct (Hr2 r2 l2 H)].
    + intros H [= <-] [->|Ha]%elem_of_cons ->%list_elem_of_singleton; [done|by destruct (Hr2 r1 l1 H)].
    + apply Wd.
  - intros a. by rewrite (touch_nexts _ _ _ Ht).
  - intros a. by rewrite (touch_prevs _ _ _ Ht).
  - done.
  - intros E a (Ha & Ha1 & Ha2). assert (a ≠ r) by (intros ->; by rewrite lookup_insert_eq in Ha1). rewrite lookup_insert_ne in Ha1 by done.
    rewrite (touch_next _ _ _ Ht) by set_solver. apply Wo; [done|]. split_and!; [done|done|]. intros r2 l2 H2.
    destruct (decide (r2 = r)) as [->|Hne]; [congruence|]. apply (Ha2 r2). by rewrite lookup_insert_ne.
Qed.

Lemma clear_step oc mem h ls r : winv oc mem h ls → is_Some (ls !! r) → ∃ h', clear oc r h = Ok h' ∧ winv oc mem h' (<[r := []]> ls).
Proof.
  intros W [l Hr]. pose proof (w_lists _ _ _ _ W r l Hr) as Hc. destruct (clist_chain h r l Hc) as (n & Hn & Hch). pose proof Hc as [_ Hnd Hnn].
  apply NoDup_cons in Hnd as [Hrl Hnd]. destruct (clist_entry h r l r Hc ltac:(set_solver)) as [_ [q Hq]].
  unfold clear, get_next. rewrite Hn. cbn [of_option mbind outcome_bind].
  destruct (clear_spec r oc l (walk_fuel h) n h) as (h1 & -> & Hp1 & Ho1 & Ht1); [done|done|pose proof (clist_size h r l Hc); lia|done|].
  cbn [mbind outcome_bind]. unfold EMPTY, set_prev, set_next. rewrite Hp1, Hq. cbn [mbind outcome_bind nexts prevs].
  rewrite (touch_next _ _ _ Ht1), Hn by done. eexists. split; [done|]. set (h' := {| nexts := _; prevs := _ |}).
  eapply (winv_update oc mem h h' ls r l [] []); [done|done| | |set_solver|set_solver|].
  - unfold h'. split; cbn; [by rewrite !lookup_insert_eq|apply NoDup_singleton|set_solver].
  - destruct Ht1 as [T1 T2 T3 T4]. unfold h'. split; intros a; cbn [nexts prevs app]; rewrite ?lookup_insert, ?Hp1.
    + intros Ha. case_decide; [set_solver|]. apply T1. set_solver.
    + intros Ha. case_decide; [set_solver|done].
    + case_decide; [subst; rewrite Hn; done|apply T3].
    + case_decide; [subst; rewrite Hq; done|done].
  - intros E a Ha _. unfold h'. cbn [nexts app] in *. rewrite lookup_insert_ne by set_solver. by apply Ho1.
Qed.

Lemma clist_step oc mem o h ls : winv oc mem h ls → allowed oc mem o ls →
  ∃ h', run_op oc o h = Ok ((ref_op o ls).1, h') ∧ winv oc mem h' (ref_op o ls).2.
Proof.
  intros W. pose proof W as [Wl _ _ _ _ _].
  destruct o as [r|r x|r x|r|r|r i x|r i x|r i x|r i|r|cmp r x]; cbn [allowed run_op ref_op].
  - intros Hf. destruct (init_step oc mem h ls r W Hf) as (h' & -> & ?). by exists h'.
  - intros [[l Hr] Hx]. unfold items. rewrite Hr. cbn [from_option id fst snd].
    destruct (push_clist h r l x (Wl r l Hr) (free_outside _ _ _ _ _ _ _ W Hr Hx)) as (h' & -> & Hc & Ht). exists h'. split; [done|].
    eapply (winv_update oc mem h h' ls r l _ [x]); [done|done|done|done|set_solver|set_solver|set_solver].
  - intros [[l Hr] Hx]. unfold items. rewrite Hr. cbn [from_option id fst snd].
    destruct (pushback_clist h r l x (Wl r l Hr) (free_outside _ _ _ _ _ _ _ W Hr Hx)) as (h' & -> & Hc & Ht). exists h'. split; [done|].
    eapply (winv_update oc mem h h' ls r l _ [x]); [done|done|done|done|set_solver|set_solver|set_solver].
  - intros [l Hr]. unfold items. rewrite Hr. cbn [from_option id]. pose proof (pop_clist oc h r l (Wl r l Hr)) as Hp.
    destruct l as [|x l]; [rewrite Hp; by exists h|]. destruct Hp as (h' & -> & Hc & Ht & Ho). exists h'. split; [done|].
    eapply (winv_update oc mem h h' ls r (x :: l) l []); [done|done|done|done|set_solver|set_solver|]. intros E a Ha Hna. apply Ho in E. set_solver.
  - intros [l Hr]. unfold items. rewrite Hr. cbn [from_option id]. pose proof (popback_clist oc h r l (Wl r l Hr)) as Hp.
    destruct l as [|x l _] using rev_ind; [cbn in *; rewrite Hp; by exists h|]. rewrite last_snoc in *. destruct Hp as (h' & -> & Hc & Ht & Ho). exists h'. split; [done|].
    cbn [fst snd]. rewrite length_app, Nat.add_sub, take_app_length in *.
    eapply (winv_update oc mem h h' ls r (l ++ [x]) l []); [done|done|done|done|set_solver|set_solver|]. intros E a Ha Hna. apply Ho in E. set_solver.
  - intros (Hr & Hi & Hx). destruct (index_cases oc mem h ls r i W Hr Hi) as [(l1 & l2 & -> & Hr' & N1 & N2 & Hc)|[Hn Ho]].
    + rewrite decide_True by set_solver. rewrite insert_before_app by done.
      destruct (insert_pre_clist oc h r l1 i l2 x Hc (free_outside _ _ _ _ _ _ _ W Hr' Hx)) as (h' & -> & Hc' & Ht). exists h'. split; [done|].
      eapply (winv_update oc mem h h' ls r _ _ [x]); [done|done|done|done|set_solver|set_solver|set_solver].
    + rewrite decide_False by done. unfold insert_pre. rewrite Ho. by exists h.
  - intros (Hr & Hi & Hx). destruct (index_cases oc mem h ls r i W Hr Hi) as [(l1 & l2 & -> & Hr' & N1 & N2 & Hc)|[Hn Ho]].
    + rewrite decide_True by set_solver. rewrite insert_after_app by done.
      destruct (insert_post_clist oc h r l1 i l2 x Hc (free_outside _ _ _ _ _ _ _ W Hr' Hx)) as (h' & -> & Hc' & Ht). exists h'. split; [done|].
      eapply (winv_update oc mem h h' ls r _ _ [x]); [done|done|done|done|set_solver|set_solver|set_solver].
    + rewrite decide_False by done. unfold insert_post. rewrite Ho. by exists h.
  - intros (Hr & Hi & Hx). destruct (index_cases oc mem h ls r i W Hr Hi) as [(l1 & l2 & -> & Hr' & N1 & N2 & Hc)|[Hn Ho]].
    + rewrite decide_True by set_solver. rewrite replace_app by done.
      destruct (set_clist oc h r l1 i l2 x Hc (free_outside _ _ _ _ _ _ _ W Hr' Hx)) as (h' & -> & Hc' & Ht & Ho). exists h'. split; [done|].
      eapply (winv_update oc mem h h' ls r _ _ [x]); [done|done|done|done|set_solver|set_solver|]. intros E a Ha Hna. apply Ho in E. set_solver.
    + rewrite decide_False by done. unfold set. rewrite Ho. by exists h.
  - intros (Hr & Hi). destruct (index_cases oc mem h ls r i W Hr Hi) as [(l1 & l2 & -> & Hr' & N1 & N2 & Hc)|[Hn Ho]].
    + rewrite decide_True by set_solver. rewrite remove_app by done. unfold remove. destruct (clist_next h r l1 i l2 Hc) as (n & Hn & Hn0 & _).
      rewrite (chk_in oc h i n) by done. cbn [mbind outcome_bind]. destruct (remove_clist oc h r l1 i l2 Hc) as (h' & -> & Hc' & Ht & Ho). exists h'. split; [done|].
      eapply (winv_update oc mem h h' ls r _ _ []); [done|done|done|done|set_solver|set_solver|]. intros E a Ha Hna. apply Ho in E. set_solver.
    + rewrite decide_False by done. unfold remove. rewrite Ho. by exists h.
  - intros Hr. destruct (clear_step oc mem h ls r W Hr) as (h' & -> & ?). by exists h'.
  - intros [[l Hr] Hx]. unfold items. rewrite Hr. cbn [from_option id fst snd]. pose proof (Wl r l Hr) as Hc. destruct (clist_chain h r l Hc) as (n & Hn & Hch).
    unfold ordered_insert, get_next. rewrite Hn. cbn [of_option mbind outcome_bind]. pose proof Hc as [_ Hnd _]. apply NoDup_cons in Hnd as [Hrl _].
    destruct (ordered_spec r cmp x l (walk_fuel h) n h) as (l1 & l2 & q & c2 & -> & E2 & -> & H1 & H2); [done|pose proof (clist_size h r l Hc); lia|done|].
    cbn [mbind outcome_bind]. destruct (link_pre_clist h r l1 l2 q c2 x Hc (free_outside _ _ _ _ _ _ _ W Hr Hx) E2) as (h' & -> & Hc' & Ht). exists h'. split; [done|].
    rewrite insert_ordered_app by done. eapply (winv_update oc mem h h' ls r _ _ [x]); [done|done|done|done|set_solver|set_solver|set_solver].
Qed.

Lemma orphans_winv oc mem : NULL ∉ mem → winv oc mem (orphans mem) ∅.
Proof.
  intros H0. split; cbn [orphans nexts prevs]; [set_solver|set_solver| | |done|].
  - intros a. by rewrite <-elem_of_dom, dom_gset_to_gmap.
  - intros a. by rewrite <-elem_of_dom, dom_gset_to_gmap.
  - intros _ a (Ha & _). by rewrite lookup_gset_to_gmap_Some.
Qed.

Lemma run_winv oc mem ops : ∀ h ls, winv oc mem h ls → allowed_all oc mem ops ls →
  ∃ h', run oc ops h = Ok ((ref_run ops ls).1, h') ∧ winv oc mem h' (ref_run ops ls).2.
Proof.
  induction ops as [|o ops IH]; intros h ls W Ha; cbn [run ref_run]; [by exists h|]. destruct Ha as [Ha1 Ha2].
  destruct (clist_step oc mem o h ls W Ha1) as (h1 & -> & W1). cbn [mbind outcome_bind].
  destruct (IH h1 _ W1 Ha2) as (h2 & -> & W2). by exists h2.
Qed.

(** ** Theorem *)

(** C15. Circular linked lists are lists: whatever the sequence of operations on any
    number of lists that share a memory of entries, from initialised roots and
    items in no list, every operation ends without an invalid access, returns what
    it returns on lists (the item of a pop or NULL, failure for an index that carries
    the orphan mark) and changes its own list only; an iteration then gives the
    items in order and the count is their number. *)
Theorem clist_is_a_list (oc : bool) (mem : gset nat) (ops : list op) :
  NULL ∉ mem → allowed_all oc mem ops ∅ →
  ∃ h, run oc ops (orphans mem) = Ok ((ref_run ops ∅).1, h) ∧
    ∀ r l, (ref_run ops ∅).2 !! r = Some l →
      foreach r h = Ok l ∧ count r h = Ok (Z.of_nat (length l)) ∧
      head r h = Ok (default NULL (hd_error l)) ∧ tail r h = Ok (default NULL (last l)).
Proof.
  intros H0 Ha. destruct (run_winv oc mem ops _ _ (orphans_winv oc mem H0) Ha) as (h & E & W). exists h. split; [done|]. intros r l Hr.
  pose proof (w_lists _ _ _ _ W r l Hr) as Hc. destruct (clist_chain h r l Hc) as (n & Hn & Hch). pose proof Hc as [Hadj Hnd Hnn].
  pose proof (clist_size h r l Hc). pose proof Hnd as [Hrl _]%NoDup_cons. unfold foreach, count, head, tail, get_next, get_prev. rewrite Hn. cbn [of_option mbind outcome_bind].
  rewrite (foreach_spec r l), (clist_count_spec r l) by (done || lia). split_and!; [done|done| |].
  - unfold item_or_null. destruct l as [|x l]; cbn in Hch |- *; [subst; by rewrite Nat.eqb_refl|]. destruct Hch as [-> _].
    destruct (Nat.eqb_spec x r); [set_solver|done].
  - unfold item_or_null. destruct l as [|x l _] using rev_ind.
    + destruct Hadj as (_ & Hp & _). rewrite Hp. cbn. by rewrite Nat.eqb_refl.
    + destruct (around h r l x [] Hc) as (c1 & p & q & c2 & E1 & E2 & _ & _ & _ & H4 & _). injection E2 as <- <-. rewrite H4, last_snoc. cbn [of_option mbind outcome_bind].
      destruct (Nat.eqb_spec x r); [set_solver|done].
Qed.

Definition demo_mem : gset nat := list_to_set [10; 20; 1; 2; 3]%nat.
Definition demo_ops : list op :=
  [OInit 10; OInit 20; OPush 10 1; OPushback 10 2; OInsertPre 10 2 3; ORemove 10 1; ORemove 10 1; OOrdered Nat.leb 20 1; OPop 10].

Lemma clist_is_a_list_witness :
  (ref_run demo_ops ∅).1 = [0; 0; 1; 1; 1; 0; -1; 0; 3] ∧
  ∃ h, run true demo_ops (orphans demo_mem) = Ok ((ref_run demo_ops ∅).1, h) ∧
    ∀ r l, (ref_run demo_ops ∅).2 !! r = Some l →
      foreach r h = Ok l ∧ count r h = Ok (Z.of_nat (length l)) ∧
      head r h = Ok (default NULL (hd_error l)) ∧ tail r h = Ok (default NULL (last l)).
Proof.
  split; [vm_compute; reflexivity|]. apply (clist_is_a_list true demo_mem demo_ops); [by vm_compute|].
  assert (∀ (x : nat) (ls : gmap nat (list nat)), bool_decide (x ∈ demo_mem) && bool_decide (ls !! x = None) && bool_decide (map_Forall (λ _ l, x ∉ l) ls) = true → free demo_mem ls x) as Hfree.
  { intros x ls [[H1%bool_decide_eq_true H2%bool_decide_eq_true]%andb_true_iff H3%bool_decide_eq_true]%andb_true_iff. split_and!; [done|done|]. intros r l Hl. by apply (H3 r l). }
  unfold demo_ops. cbn [allowed_all].
  split; [apply Hfree; vm_compute; reflexivity|]. split; [apply Hfree; vm_compute; reflexivity|].
  split; [split; [eexists; vm_compute; reflexivity|apply Hfree; vm_compute; reflexivity]|]. split; [split; [eexists; vm_compute; reflexivity|apply Hfree; vm_compute; reflexivity]|].
  split; [split; [eexists; vm_compute; reflexivity|split; [left; apply (bool_decide_eq_true_1 _); vm_compute; reflexivity|apply Hfree; vm_compute; reflexivity]]|].
  split; [split; [eexists; vm_compute; reflexivity|left; apply (bool_decide_eq_true_1 _); vm_compute; reflexivity]|].
  split; [split; [eexists; vm_compute; reflexivity|right; split; [done|apply Hfree; vm_compute; reflexivity]]|].
  split; [split; [eexists; vm_compute; reflexivity|apply Hfree; vm_compute; reflexivity]|]. split; [eexists; vm_compute; reflexivity|done].
Defined.
End CList.
