(* ===== verification/CListSort.v ===== *)
(** * Merge and sort of linked lists (gpct _cont_lists.t, cont_clist.t)

    The lists are sorted in place by a bottom up merge sort with a stack of 32
    sorted runs whose depth follows the bits of a counter.  The file models the
    merge, the sort and the code that restores the circular list around them, on
    the memory of entries of [CList], and proves that the result is the stable
    sort of the list and that the stack cannot overflow. *)

From stdpp Require Import sorting gmap.
From S2P Require Import Prelude CList.
Import CList.

Module CListSort.

(** ** Operations *)

(** ** Bits of the counter *)

Fixpoint popc (p : positive) : nat := match p with xH => 1 | xO p => popc p | xI p => S (popc p) end.
Definition popcN (n : N) : nat := match n with N0 => 0 | Npos p => popc p end.
Fixpoint tz (p : positive) : nat := match p with xO p => S (tz p) | _ => 0 end.

Lemma pred_double_spec q : (Npos (xO q) - 1)%N = N.succ_double (Npos q - 1).
Proof. by destruct q. Qed.
Lemma land_double a b : N.land (N.double a) (N.succ_double b) = N.double (N.land a b).
Proof. by destruct a, b. Qed.
Lemma lxor_double a b : N.lxor (N.double a) (N.succ_double b) = N.succ_double (N.lxor a b).
Proof. destruct a as [|a], b as [|b]; try done; cbn; by destruct (Pos.lxor a b). Qed.
Lemma popc_double n : popcN (N.double n) = popcN n.
Proof. by destruct n. Qed.
Lemma popc_succ_double n : popcN (N.succ_double n) = S (popcN n).
Proof. by destruct n. Qed.
Lemma popc_pos p : (1 ≤ popc p)%nat.
Proof. induction p; cbn; lia. Qed.

(** Clearing the lowest bit. *)
Lemma popc_clear p : popcN (N.land (Npos p) (Npos p - 1)) = (popc p - 1)%nat.
Proof.
  induction p as [q IH|q IH|]; [|rewrite pred_double_spec; change (Npos (xO q)) with (N.double (Npos q)); rewrite land_double, popc_double, IH; done|done].
  change (popcN (N.land (Npos q~1) (Npos q~0)) = (S (popc q) - 1)%nat).
  replace (N.land (Npos q~1) (Npos q~0)) with (N.double (N.land (Npos q) (Npos q))) by done. rewrite N.land_diag, popc_double. cbn. lia.
Qed.
Lemma popc_xor p : popcN (N.lxor (Npos p) (Npos p - 1)) = S (tz p).
Proof.
  induction p as [q IH|q IH|]; [|rewrite pred_double_spec; change (Npos (xO q)) with (N.double (Npos q)); rewrite lxor_double, popc_succ_double, IH; done|done].
  change (popcN (N.lxor (Npos q~1) (Npos q~0)) = 1%nat).
  replace (N.lxor (Npos q~1) (Npos q~0)) with (N.succ_double (N.lxor (Npos q) (Npos q))) by (cbn; by destruct (Pos.lxor q q)). by rewrite N.lxor_nilpotent.
Qed.
Lemma popc_pred p : (popcN (Npos p - 1) + 1 = popc p + tz p)%nat.
Proof. induction p as [q IH|q IH|]; [change (Npos q~1 - 1)%N with (Npos q~0)%N; cbn [popcN popc tz]; lia|rewrite pred_double_spec, popc_succ_double; cbn [popc tz]; lia|done]. Qed.
Lemma popc_bound p : ∀ k, (Npos p < 2 ^ N.of_nat k)%N → (popc p ≤ k)%nat.
Proof.
  assert (∀ q k, (2 * Npos q < 2 ^ N.of_nat (S k))%N → (Npos q < 2 ^ N.of_nat k)%N) as H by (intros q k; rewrite Nat2N.inj_succ, N.pow_succ_r'; lia).
  induction p as [q IH|q IH|]; intros [|k] Hp; cbn [popc]; try (cbn in Hp; lia).
  - apply le_n_S, IH, H. lia.
  - apply Nat.le_le_succ_r, IH, H. lia.
Qed.

Section sort.
(** The order on entries and the width of size_t. *)
Context (cmp : nat → nat → bool) (W : N).

(** [last] is the last entry of the merged part. *)
Fixpoint merge_loop (fuel : nat) (last a b : nat) (h : heap) : outcome heap :=
  if negb (a =? NULL)%nat && negb (b =? NULL)%nat then
    match fuel with
    | O => Err FFuel
    | S fuel =>
        if cmp a b then h ← set_next last a h; n ← get_next h a; merge_loop fuel a n b h
        else h ← set_next last b h; n ← get_next h b; merge_loop fuel b a n h
    end
  else set_next last (if negb (a =? NULL)%nat then a else b) h.
Definition merge (a b : nat) (h : heap) : outcome (nat * heap) :=
  if cmp a b then n ← get_next h a; h' ← merge_loop (walk_fuel h) a n b h; Ok (a, h')
  else n ← get_next h b; h' ← merge_loop (walk_fuel h) b a n h; Ok (b, h').

(** The stack of runs, the last one first. *)
Definition stack_size : nat := 32.
Definition push_run (e : nat) (s : list nat) : outcome (list nat) := if (length s <? stack_size)%nat then Ok (e :: s) else Err FBounds.
Definition merge_top (s : list nat) (h : heap) : outcome (list nat * heap) :=
  match s with
  | s1 :: s2 :: s => '(e, h) ← merge s2 s1 h; Ok (e :: s, h)
  | _ => Err FBounds
  end.

(** [for (idx = n ^ tmp; idx &= idx - 1; s--)] merges at most all the runs. *)
Fixpoint runs_loop (fuel : nat) (idx : N) (s : list nat) (h : heap) : outcome (list nat * heap) :=
  let idx := N.land idx (idx - 1) in
  if (idx =? 0)%N then Ok (s, h) else
  match fuel with
  | O => Err FFuel
  | S fuel => '(s, h) ← merge_top s h; runs_loop fuel idx s h
  end.

Fixpoint pairs_loop (fuel : nat) (n : N) (tail : nat) (s : list nat) (h : heap) : outcome (list nat * heap) :=
  if (tail =? NULL)%nat then Ok (s, h) else
  match fuel with
  | O => Err FFuel
  | S fuel =>
      let a := tail in
      b ← get_next h a;
      if (b =? NULL)%nat then s ← push_run a s; Ok (s, h) else
      tail ← get_next h b;
      '(s, h) ← (if cmp a b then s ← push_run a s; h ← set_next a b h; h ← set_next b NULL h; Ok (s, h)
                 else s ← push_run b s; h ← set_next b a h; h ← set_next a NULL h; Ok (s, h));
      let n' := ((n + 1) mod 2 ^ W)%N in
      '(s, h) ← runs_loop (length s) (N.lxor n' n) s h;
      pairs_loop fuel n' tail s h
  end.

Fixpoint final_loop (fuel : nat) (s : list nat) (h : heap) : outcome (nat * heap) :=
  match s with
  | [] => Err FUndef
  | [e] => Ok (e, h)
  | _ => match fuel with O => Err FFuel | S fuel => '(s, h) ← merge_top s h; final_loop fuel s h end
  end.

Definition sort (tail : nat) (h : heap) : outcome (nat * heap) :=
  '(s, h) ← pairs_loop (S (walk_fuel h)) 0 tail [] h;
  final_loop stack_size s h.

(** The previous links and the links with the root. *)
Fixpoint rebuild_loop (fuel : nat) (prev entry : nat) (h : heap) : outcome (nat * heap) :=
  if (entry =? NULL)%nat then Ok (prev, h) else
  match fuel with
  | O => Err FFuel
  | S fuel => h ← set_prev entry prev h; n ← get_next h entry; rebuild_loop fuel entry n h
  end.
Definition rebuild (root entry : nat) (h : heap) : outcome heap :=
  h ← set_next root entry h;
  '(prev, h) ← rebuild_loop (walk_fuel h) root entry h;
  h ← set_next prev root h;
  set_prev root prev h.

Definition list_sort (root : nat) (h : heap) : outcome heap :=
  n ← get_next h root; p ← get_prev h root;
  if negb (n =? p)%nat then
    h ← set_next p NULL h;
    n ← get_next h root;
    '(tmp, h) ← sort n h;
    h ← set_next root tmp h;
    rebuild root tmp h
  else Ok h.

Definition list_merge_roots (dest src : nat) (h : heap) : outcome heap :=
  sn ← get_next h src;
  if negb (sn =? src)%nat then
    dn ← get_next h dest;
    h ← (if (dn =? dest)%nat then
           sp ← get_prev h src;
           h ← set_next dest sn h; h ← set_prev dest sp h;
           n ← get_next h dest; h ← set_prev n dest h;
           p ← get_prev h dest; set_next p dest h
         else
           sp ← get_prev h src; h ← set_next sp NULL h;
           dp ← get_prev h dest; h ← set_next dp NULL h;
           a ← get_next h dest; b ← get_next h src;
           '(tmp, h) ← merge a b h;
           rebuild dest tmp h);
    EMPTY src h
  else Ok h.

(** ** Merging *)

Context (Htrans : ∀ a b c, cmp a b = true → cmp b c = true → cmp a c = true) (Htotal : ∀ a b, cmp a b = true ∨ cmp b a = true).

Definition R (a b : nat) : Prop := cmp a b = true.
#[local] Instance R_dec a b : Decision (R a b).
Proof. unfold R. apply _. Defined.
Definition lmerge : list nat → list nat → list nat := list_merge R.

Lemma lmerge_nil_l l : lmerge [] l = l.
Proof. by destruct l. Qed.
Lemma lmerge_nil_r l : lmerge l [] = l.
Proof. by destruct l. Qed.
Lemma lmerge_cons a la b lb : lmerge (a :: la) (b :: lb) = if cmp a b then a :: lmerge la (b :: lb) else b :: lmerge (a :: la) lb.
Proof.
  unfold lmerge. rewrite list_merge_cons. destruct (decide (R a b)) as [E|E]; unfold R in E; [by rewrite E|by destruct (cmp a b)].
Qed.
Lemma lmerge_perm la lb : lmerge la lb ≡ₚ la ++ lb.
Proof. apply merge_Permutation. Qed.
Lemma lmerge_in a la lb : a ∈ lmerge la lb ↔ a ∈ la ++ lb.
Proof. by rewrite lmerge_perm. Qed.

Lemma chain_null h e l : chain h NULL e l → e = NULL → NULL ∉ l → l = [].
Proof. destruct l as [|x l]; [done|]. intros (-> & _) -> Hn. set_solver. Qed.
Lemma chain_head h e x l : chain h NULL e (x :: l) → e = x ∧ ∃ n, nexts h !! x = Some n ∧ chain h NULL n l.
Proof. done. Qed.

Lemma set_next_spec e v h : is_Some (nexts h !! e) → ∃ h', set_next e v h = Ok h' ∧ nexts h' = <[e := v]> (nexts h) ∧ prevs h' = prevs h ∧ ∀ t, e ∈ t → touches t h h'.
Proof.
  intros [n Hn]. unfold set_next. rewrite Hn. eexists. split; [done|]. split; [done|]. split; [done|]. intros t Ht.
  split; intros a; cbn [nexts prevs]; rewrite ?lookup_insert; [case_decide; [set_solver|done]|done|case_decide; [subst; by rewrite Hn|done]|done].
Qed.

Lemma set_prev_spec e v h : is_Some (prevs h !! e) → ∃ h', set_prev e v h = Ok h' ∧ prevs h' = <[e := v]> (prevs h) ∧ nexts h' = nexts h ∧ ∀ t, e ∈ t → touches t h h'.
Proof.
  intros [n Hn]. unfold set_prev. rewrite Hn. eexists. split; [done|]. split; [done|]. split; [done|]. intros t Ht.
  split; intros a; cbn [nexts prevs]; rewrite ?lookup_insert; [done|case_decide; [set_solver|done]|done|case_decide; [subst; by rewrite Hn|done]].
Qed.

Lemma merge_loop_spec fuel : ∀ la lb last a b h,
  chain h NULL a la → chain h NULL b lb → NoDup (last :: la ++ lb) → NULL ∉ la ++ lb → is_Some (nexts h !! last) → (length la + length lb ≤ fuel)%nat →
  ∃ h' m, merge_loop fuel last a b h = Ok h' ∧ nexts h' !! last = Some m ∧ chain h' NULL m (lmerge la lb) ∧
    touches (last :: la ++ lb) h h' ∧ prevs h' = prevs h.
Proof.
  assert (∀ fuel la lb last a b h, la = [] ∨ lb = [] → chain h NULL a la → chain h NULL b lb → NoDup (last :: la ++ lb) → NULL ∉ la ++ lb → is_Some (nexts h !! last) →
    ∃ h' m, merge_loop fuel last a b h = Ok h' ∧ nexts h' !! last = Some m ∧ chain h' NULL m (lmerge la lb) ∧ touches (last :: la ++ lb) h h' ∧ prevs h' = prevs h) as Hbase.
  { clear fuel. intros fuel la lb last a b h Hnil Ha Hb Hn H0 Hl. set (m := if negb (a =? NULL)%nat then a else b).
    destruct (set_next_spec last m h Hl) as (h' & E & Hnx & Hp & Ht). exists h', m.
    assert (merge_loop fuel last a b h = Ok h') as ->.
    { destruct fuel; cbn [merge_loop]; (replace (negb (a =? NULL)%nat && negb (b =? NULL)%nat) with false; [exact E|]).
      all: destruct Hnil as [->| ->]; cbn in Ha, Hb; subst; rewrite Nat.eqb_refl; cbn; by rewrite ?andb_false_r. }
    split; [done|]. split; [by rewrite Hnx, lookup_insert_eq|]. split; [|split; [apply Ht; set_solver|done]].
    apply NoDup_cons in Hn as [Hn _]. apply (chain_frame h).
    - intros x Hx%lmerge_in. rewrite Hnx, lookup_insert_ne; [done|intros ->; done].
    - destruct Hnil as [->| ->]; cbn in Ha, Hb; unfold m.
      + subst a. cbn. by rewrite lmerge_nil_l.
      + subst b. rewrite lmerge_nil_r. destruct (Nat.eqb_spec a NULL); cbn [negb]; congruence. }
  induction fuel as [|fuel IH]; intros la lb last a b h Ha Hb Hn H0 Hl Hf.
  { apply Hbase; try done. destruct la; [by left|]. destruct lb; [by right|]. cbn in Hf. lia. }
  destruct la as [|x la]; [apply Hbase; auto|]. destruct lb as [|y lb]; [apply Hbase; auto|].
  destruct Ha as (-> & na & Hna & Ha). destruct Hb as (-> & nb & Hnb & Hb). cbn [merge_loop].
  assert (x ≠ NULL ∧ y ≠ NULL) as [Hx Hy] by set_solver.
  destruct (Nat.eqb_spec x NULL); [done|]. destruct (Nat.eqb_spec y NULL); [done|]. cbn [negb andb]. rewrite lmerge_cons.
  pose proof Hn as [Hlast Hn']%NoDup_cons. pose proof Hn' as (N1 & N12 & N2)%NoDup_app. apply NoDup_cons in N1 as [Nx N1]. apply NoDup_cons in N2 as [Ny N2].
  destruct (cmp x y).
  - destruct (set_next_spec last x h Hl) as (h1 & -> & Hn1 & Hp1 & Ht1). cbn [mbind outcome_bind]. unfold get_next.
    rewrite Hn1, lookup_insert_ne, Hna by set_solver. cbn [of_option mbind outcome_bind].
    assert (∀ e l, last ∉ l → chain h NULL e l → chain h1 NULL e l) as Hfr by (intros e l Hel; apply chain_frame; intros z Hz; rewrite Hn1, lookup_insert_ne; [done|intros ->; done]).
    destruct (IH la (y :: lb) x na y h1) as (h' & m & -> & Hm & Hc & Ht & Hp); [apply Hfr; [set_solver|done]|apply Hfr; [set_solver|by split; eauto]|done|set_solver| |cbn in *; lia|].
    { rewrite Hn1, lookup_insert_ne, Hna by set_solver. done. }
    exists h', x. split; [done|]. split; [rewrite (touch_next _ _ _ Ht) by set_solver; by rewrite Hn1, lookup_insert_eq|]. split; [split; eauto|].
    split; [|congruence]. eapply clist_touches_trans; [apply Ht1; set_solver|]. eapply touches_mono; [exact Ht|]. set_solver.
  - destruct (set_next_spec last y h Hl) as (h1 & -> & Hn1 & Hp1 & Ht1). cbn [mbind outcome_bind]. unfold get_next.
    rewrite Hn1, lookup_insert_ne, Hnb by set_solver. cbn [of_option mbind outcome_bind].
    assert (∀ e l, last ∉ l → chain h NULL e l → chain h1 NULL e l) as Hfr by (intros e l Hel; apply chain_frame; intros z Hz; rewrite Hn1, lookup_insert_ne; [done|intros ->; done]).
    destruct (IH (x :: la) lb y x nb h1) as (h' & m & -> & Hm & Hc & Ht & Hp); [apply Hfr; [set_solver|by split; eauto]|apply Hfr; [set_solver|done]| |set_solver| |cbn in *; lia|].
    { constructor; [set_solver|]. apply NoDup_app. split_and!; [by constructor|set_solver|done]. }
    { rewrite Hn1, lookup_insert_ne, Hnb by set_solver. done. }
    exists h', y. split; [done|]. split; [rewrite (touch_next _ _ _ Ht) by set_solver; by rewrite Hn1, lookup_insert_eq|]. split; [split; eauto|].
    split; [|congruence]. eapply clist_touches_trans; [apply Ht1; set_solver|]. eapply touches_mono; [exact Ht|]. set_solver.
Qed.

Lemma merge_spec la lb a b h :
  chain h NULL a la → chain h NULL b lb → la ≠ [] → lb ≠ [] → NoDup (la ++ lb) → NULL ∉ la ++ lb → (length la + length lb ≤ walk_fuel h)%nat →
  ∃ e h', merge a b h = Ok (e, h') ∧ chain h' NULL e (lmerge la lb) ∧ touches (la ++ lb) h h' ∧ prevs h' = prevs h.
Proof.
  intros Ha Hb Hla Hlb Hn H0 Hf. destruct la as [|x la]; [done|]. destruct lb as [|y lb]; [done|].
  destruct Ha as (-> & na & Hna & Ha). destruct Hb as (-> & nb & Hnb & Hb). unfold merge, get_next. rewrite lmerge_cons. cbn [length] in Hf.
  pose proof Hn as (N1 & N12 & N2)%NoDup_app. apply NoDup_cons in N1 as [Nx N1]. apply NoDup_cons in N2 as [Ny N2]. destruct (cmp x y).
  - rewrite Hna. cbn [of_option mbind outcome_bind].
    destruct (merge_loop_spec (walk_fuel h) la (y :: lb) x na y h) as (h' & m & -> & Hm & Hc & Ht & Hp); [done|by split; eauto|done|set_solver|by rewrite Hna|cbn; lia|].
    exists x, h'. split; [done|]. split; [by split; eauto|]. done.
  - rewrite Hnb. cbn [of_option mbind outcome_bind].
    destruct (merge_loop_spec (walk_fuel h) (x :: la) lb y x nb h) as (h' & m & -> & Hm & Hc & Ht & Hp); [by split; eauto|done| |set_solver|by rewrite Hnb|cbn; lia|].
    { constructor; [set_solver|]. apply NoDup_app. split_and!; [by constructor|set_solver|done]. }
    exists y, h'. split; [done|]. split; [by split; eauto|]. split; [|done]. eapply touches_mono; [exact Ht|]. set_solver.
Qed.

(** ** Stability *)

Definition eqv (z x : nat) : Prop := cmp z x = true ∧ cmp x z = true.
#[local] Instance eqv_dec z x : Decision (eqv z x).
Proof. unfold eqv. apply _. Defined.

(** The same items, equivalent ones in the same order. *)
Definition stable (l l' : list nat) : Prop := l ≡ₚ l' ∧ ∀ z, filter (eqv z) l = filter (eqv z) l'.

Lemma stable_refl l : stable l l.
Proof. done. Qed.
Lemma stable_trans l1 l2 l3 : stable l1 l2 → stable l2 l3 → stable l1 l3.
Proof. intros [P1 S1] [P2 S2]. split; [by rewrite P1|]. intros z. by rewrite S1. Qed.
Lemma stable_app l1 l1' l2 l2' : stable l1 l1' → stable l2 l2' → stable (l1 ++ l2) (l1' ++ l2').
Proof. intros [P1 S1] [P2 S2]. split; [by rewrite P1, P2|]. intros z. by rewrite !filter_app, S1, S2. Qed.

Lemma lmerge_stable la : ∀ lb, StronglySorted R la → stable (lmerge la lb) (la ++ lb).
Proof.
  intros lb Hs. split; [apply lmerge_perm|]. intros z. revert lb.
  induction Hs as [|a la Hs IHa Ha]; intros lb; [by rewrite lmerge_nil_l|].
  induction lb as [|b lb IHb]; [by rewrite lmerge_nil_r, app_nil_r|]. rewrite lmerge_cons. destruct (cmp a b) eqn:E.
  - cbn [app]. rewrite !filter_cons, IHa. done.
  - rewrite filter_cons. rewrite filter_app, (filter_cons _ b lb). rewrite IHb, filter_app. destruct (decide (eqv z b)) as [Hz|Hz]; [|done].
    assert (filter (eqv z) (a :: la) = []) as ->; [|done]. apply list_filter_none, Forall_forall. intros x Hx [Hzx Hxz]. destruct Hz as [Hzb Hbz].
    assert (cmp a x = true) as Hax by (apply elem_of_cons in Hx as [->|Hx]; [by destruct (Htotal a a)|rewrite Forall_forall in Ha; by apply Ha]).
    assert (cmp a b = true); [|congruence]. by eapply Htrans; [|exact Hzb]; eapply Htrans.
Qed.
Lemma lmerge_sorted la lb : StronglySorted R la → StronglySorted R lb → StronglySorted R (lmerge la lb).
Proof.
  intros Ha Hb. apply Sorted_StronglySorted; [intros x y z; apply Htrans|]. apply Sorted_list_merge; [intros x y; apply Htotal|..]; by apply StronglySorted_Sorted.
Qed.

(** ** The stack of runs *)

Definition run (h : heap) (e : nat) (r : list nat) : Prop := chain h NULL e r ∧ r ≠ [] ∧ StronglySorted R r.

(** [P] is the part of the list [l] that is on the stack, [rest] the part to come. *)
Record inv (h0 h : heap) (l P rest : list nat) (tail : nat) (s : list nat) (ls : list (list nat)) : Prop := {
  i_runs : Forall2 (run h) s ls;
  i_rest : chain h NULL tail rest;
  i_split : l = P ++ rest;
  i_stable : stable (concat (reverse ls)) P;
  i_touch : touches l h0 h;
  i_prevs : prevs h = prevs h0 }.

Lemma touches_size t h h' : touches t h h' → walk_fuel h' = walk_fuel h.
Proof.
  intros [_ _ T _]. unfold walk_fuel. f_equal. rewrite <-!(size_dom (D := gset nat)). f_equal. apply set_eq. intros a. by rewrite !elem_of_dom, T.
Qed.
Lemma runs_frame t h h' s ls : touches t h h' → (∀ a, a ∈ concat ls → a ∉ t) → Forall2 (run h) s ls → Forall2 (run h') s ls.
Proof.
  intros T Hd Hf. induction Hf as [|e r s ls (Hc & Hr & Hs) Hf IH]; [constructor|]. cbn [concat] in Hd. constructor; [|apply IH; set_solver].
  split; [|done]. eapply chain_frame; [|done]. intros a Ha. apply (touch_next _ _ _ T). apply Hd. set_solver.
Qed.
Lemma concat_reverse (ls : list (list nat)) : concat (reverse ls) ≡ₚ concat ls.
Proof.
  induction ls as [|r ls IH]; [done|]. rewrite reverse_cons, concat_app. cbn [concat]. rewrite app_nil_r, IH. apply Permutation_app_comm.
Qed.

Section list.
Context (h0 : heap) (l : list nat) (Hn : NoDup l) (H0 : NULL ∉ l) (Hl : (length l ≤ walk_fuel h0)%nat).

Lemma inv_perm h P rest tail s ls : inv h0 h l P rest tail s ls → concat ls ++ rest ≡ₚ l.
Proof. intros [_ _ Hs [Hp _] _ _]. by rewrite <-concat_reverse, Hp, Hs. Qed.
Lemma inv_nodup_parts h P rest tail s ls : inv h0 h l P rest tail s ls → NoDup (concat ls ++ rest) ∧ NULL ∉ concat ls ++ rest ∧ ∀ a, a ∈ concat ls ++ rest → a ∈ l.
Proof. intros Hi. pose proof (inv_perm _ _ _ _ _ _ Hi) as Hp. split_and!; [by rewrite Hp|by rewrite Hp|intros a; by rewrite Hp]. Qed.

Lemma merge_top_spec h P rest tail s l1 l2 ls : inv h0 h l P rest tail s (l1 :: l2 :: ls) →
  ∃ s' h', merge_top s h = Ok (s', h') ∧ inv h0 h' l P rest tail s' (lmerge l2 l1 :: ls).
Proof.
  intros Hi. pose proof (inv_perm _ _ _ _ _ _ Hi) as Hp. destruct (inv_nodup_parts _ _ _ _ _ _ Hi) as (Nd & Nn & Nin). destruct Hi as [Hr Hc Hs Hst Ht Hpv].
  destruct s as [|e1 [|e2 s]]; [by inversion Hr|by inversion Hr as [|??????Hr']; inversion Hr'|].
  apply Forall2_cons in Hr as [(C1 & E1 & S1) Hr]. apply Forall2_cons in Hr as [(C2 & E2 & S2) Hr]. cbn [concat merge_top] in *.
  assert (Permutation ((l1 ++ l2 ++ concat ls) ++ rest) ((l2 ++ l1) ++ concat ls ++ rest)) as Ep by solve_Permutation.
  rewrite Ep in Nd, Nn. apply NoDup_app in Nd as (N1 & N2 & N3). apply not_elem_of_app in Nn as [Nn _].
  assert (length l2 + length l1 ≤ walk_fuel h)%nat as Hlen.
  { rewrite (touches_size _ _ _ Ht). apply Permutation_length in Hp. rewrite !length_app in Hp. lia. }
  destruct (merge_spec l2 l1 e2 e1 h C2 C1 E2 E1 N1 Nn Hlen) as (e & h' & -> & Hc' & Ht' & Hp'). cbn [mbind outcome_bind].
  exists (e :: s), h'. split; [done|]. split.
  - constructor; [split; [done|]; split; [|by apply lmerge_sorted]|].
    + intros Hnil. destruct l2 as [|z l2]; [done|]. assert (z ∈ lmerge (z :: l2) l1) as Hz by (apply lmerge_in, elem_of_app; left; by left). rewrite Hnil in Hz. by apply elem_of_nil in Hz.
    + eapply runs_frame; [exact Ht'| |done]. intros a Ha Hin. apply (N2 a Hin). apply elem_of_app. by left.
  - eapply chain_frame; [|done]. intros a Ha. apply (touch_next _ _ _ Ht'). intros Hin. apply (N2 a Hin). apply elem_of_app. by right.
  - done.
  - eapply stable_trans; [|exact Hst]. rewrite !reverse_cons, <-app_assoc, !concat_app. cbn [concat app]. rewrite !app_nil_r.
    apply stable_app; [apply stable_refl|]. by apply lmerge_stable.
  - eapply clist_touches_trans; [exact Ht|]. eapply touches_mono; [exact Ht'|]. intros a Ha. apply Nin. rewrite Ep. apply elem_of_app. by left.
  - congruence.
Qed.

Lemma runs_loop_spec m : ∀ fuel idx h P rest tail s ls,
  popcN idx = S m → (m < length ls)%nat → (m ≤ fuel)%nat → inv h0 h l P rest tail s ls →
  ∃ s' ls' h', runs_loop fuel idx s h = Ok (s', h') ∧ inv h0 h' l P rest tail s' ls' ∧ (length ls' + m = length ls)%nat.
Proof.
  induction m as [|m IH]; intros fuel idx h P rest tail s ls Hidx Hls Hf Hi; destruct idx as [|q]; try done;
    pose proof (popc_clear q) as Hc; cbn [popcN] in Hidx; rewrite Hidx in Hc; cbn [Nat.sub] in Hc.
  - exists s, ls, h. assert (N.land (Npos q) (Npos q - 1) = 0%N) as E by (destruct (N.land _ _) as [|q']; [done|]; cbn in Hc; pose proof (popc_pos q'); lia).
    assert (runs_loop fuel (Npos q) s h = Ok (s, h)) as -> by (destruct fuel; unfold runs_loop; fold runs_loop; cbv zeta; rewrite E; done). split_and!; [done|done|lia].
  - destruct fuel as [|fuel]; [lia|]. cbn [runs_loop]. destruct (N.eqb_spec (N.land (Npos q) (Npos q - 1)) 0) as [E|E]; [rewrite E in Hc; cbn in Hc; lia|].
    destruct ls as [|l1 [|l2 ls]]; cbn [length] in Hls; [lia|lia|].
    destruct (merge_top_spec h P rest tail s l1 l2 ls Hi) as (s1 & h1 & -> & Hi1). cbn [mbind outcome_bind].
    destruct (IH fuel (N.land (Npos q) (Npos q - 1)) h1 P rest tail s1 (lmerge l2 l1 :: ls)) as (s' & ls' & h' & -> & Hi' & Hlen); [lia|cbn; lia|lia|done|].
    exists s', ls', h'. split_and!; [done|done|cbn [length] in *; lia].
Qed.

Lemma final_loop_spec fuel : ∀ h P s ls, inv h0 h l P [] NULL s ls → (1 ≤ length ls ≤ S fuel)%nat →
  ∃ e h' l', final_loop fuel s h = Ok (e, h') ∧ chain h' NULL e l' ∧ StronglySorted R l' ∧ stable l' l ∧ touches l h0 h' ∧ prevs h' = prevs h0.
Proof.
  induction fuel as [|fuel IH]; intros h P s ls Hi Hlen; destruct ls as [|l1 [|l2 ls]]; cbn [length] in Hlen; try lia;
    (pose proof Hi as [Hr Hc Hs Hst Ht Hpv]; rewrite app_nil_r in Hs; subst P).
  1, 2: destruct s as [|e1 [|e2 s]]; [by inversion Hr| |by inversion Hr as [|??????Hr']; inversion Hr'];
    apply Forall2_cons in Hr as [(C1 & E1 & S1) _]; exists e1, h, l1; cbn [final_loop]; cbn in Hst; rewrite app_nil_r in Hst; split_and!; done.
  destruct (merge_top_spec h l [] NULL s l1 l2 ls Hi) as (s1 & h1 & E & Hi1).
  destruct s as [|e1 [|e2 s]]; [by inversion Hr|by inversion Hr as [|??????Hr']; inversion Hr'|]. cbn [final_loop]. rewrite E. cbn [mbind outcome_bind].
  apply (IH h1 l s1 (lmerge l2 l1 :: ls)); [done|cbn; lia].
Qed.

Lemma push_run_spec e (s : list nat) : (length s < 32)%nat → push_run e s = Ok (e :: s).
Proof. intros H. unfold push_run, stack_size. by destruct (Nat.ltb_spec (length s) 32); [|lia]. Qed.
Lemma runs_length h P rest tail s ls : inv h0 h l P rest tail s ls → length s = length ls.
Proof. intros [H _ _ _ _ _]. by eapply Forall2_length. Qed.

Lemma push_pair h P a b rest tail tail' s ls x y :
  inv h0 h l P (a :: b :: rest) tail s ls → nexts h !! b = Some tail' → (x = a ∧ y = b ∨ x = b ∧ y = a) → cmp x y = true → stable [x; y] [a; b] →
  ∃ h2, (h1 ← set_next x y h; set_next y NULL h1) = Ok h2 ∧ inv h0 h2 l (P ++ [a; b]) rest tail' (x :: s) ([x; y] :: ls).
Proof.
  intros Hi Hb Hxy Hcmp Hstab. destruct (inv_nodup_parts _ _ _ _ _ _ Hi) as (Nd & Nn & Nin). destruct Hi as [Hr (-> & nb & Ha & (-> & n2 & Hb' & Hrest)) Hs Hst Ht Hpv].
  rewrite Hb in Hb'. injection Hb' as <-. apply NoDup_app in Nd as (N1 & N2 & N3). apply NoDup_cons in N3 as [Na N3]. apply NoDup_cons in N3 as [Nb N3].
  assert (∀ c, c ∈ [a; b] → c ∈ a :: b :: rest) as Hab by (intros c Hc; change (a :: b :: rest) with ([a; b] ++ rest); apply elem_of_app; by left).
  assert (x ≠ y ∧ x ∈ [a; b] ∧ y ∈ [a; b]) as (Hne & Hxin & Hyin).
  { assert (a ≠ b) by (intros ->; apply Na; by left). destruct Hxy as [[-> ->]|[-> ->]]; (split; [done|split; by repeat constructor]). }
  assert (is_Some (nexts h !! x) ∧ is_Some (nexts h !! y)) as [Hx Hy] by (destruct Hxy as [[-> ->]|[-> ->]]; rewrite Ha, Hb; eauto).
  destruct (set_next_spec x y h Hx) as (h1 & -> & E1 & P1 & T1). cbn [mbind outcome_bind].
  assert (is_Some (nexts h1 !! y)) as Hy1 by (by rewrite E1, lookup_insert_ne).
  destruct (set_next_spec y NULL h1 Hy1) as (h2 & -> & E2 & P2 & T2). exists h2. split; [done|].
  assert (touches [a; b] h h2) as T by (eapply clist_touches_trans; [by apply T1|by apply T2]).
  split.
  - constructor; [|eapply runs_frame; [exact T| |done]].
    + split; [split; [done|]; exists y; split; [by rewrite E2, lookup_insert_ne, E1, lookup_insert_eq by congruence|]; split; [done|]; exists NULL; by rewrite E2, lookup_insert_eq|].
      split; [done|]. repeat constructor. done.
    + intros c Hc Hin. apply (N2 c Hc). by apply Hab.
  - eapply chain_frame; [|done]. intros c Hc. apply (touch_next _ _ _ T). intros [->|[->|[]%elem_of_nil]%elem_of_cons]%elem_of_cons; [by apply Na; right|done].
  - rewrite <-app_assoc. done.
  - rewrite reverse_cons, concat_app. cbn [concat]. rewrite app_nil_r. by apply stable_app.
  - eapply clist_touches_trans; [exact Ht|]. eapply touches_mono; [exact T|]. intros c Hc. apply Nin, elem_of_app. right. by apply Hab.
  - congruence.
Qed.

Lemma stable_swap a b : cmp a b = false → stable [b; a] [a; b].
Proof.
  intros E. split; [apply perm_swap|]. intros z. rewrite !filter_cons, filter_nil.
  destruct (decide (eqv z a)) as [[Ha1 Ha2]|], (decide (eqv z b)) as [[Hb1 Hb2]|]; try done.
  assert (cmp a b = true) by (by eapply Htrans). congruence.
Qed.

Context (HW : (32 ≤ W)%N) (Hlen : Z.of_nat (length l) < 2 ^ 32).

Lemma counter_bound n : (2 * N.to_nat n < length l)%nat → (popcN n ≤ 31)%nat ∧ ((n + 1) mod 2 ^ W = n + 1)%N.
Proof.
  intros H. assert (n < 2 ^ 31)%N as Hb by lia. split; [destruct n as [|q]; [cbn; lia|by apply (popc_bound q 31)]|].
  apply N.mod_small. apply N.lt_le_trans with (2 ^ 32)%N; [lia|]. by apply N.pow_le_mono_r.
Qed.

Lemma pair_step n h P a b rest s ls :
  inv h0 h l P (a :: b :: rest) a s ls → length ls = popcN n → (length P = 2 * N.to_nat n)%nat →
  ∃ tail s' ls' h', (∀ fuel, pairs_loop (S fuel) n a s h = pairs_loop fuel (n + 1) tail s' h') ∧
    inv h0 h' l (P ++ [a; b]) rest tail s' ls' ∧ length ls' = popcN (n + 1).
Proof.
  intros Hi Hls HP. pose proof (runs_length _ _ _ _ _ _ Hi) as Hsl. destruct (inv_nodup_parts _ _ _ _ _ _ Hi) as (Nd & Nn & _). pose proof Hi as [_ Hc Hs _ _ _].
  destruct Hc as (_ & na & Ha & Hc). pose proof Hc as (-> & nb & Hb & Hc').
  assert (length l = length P + S (S (length rest)))%nat as Hll by (rewrite Hs, length_app; done).
  destruct (counter_bound n ltac:(lia)) as [Hb31 Hn1]. set (x := if cmp a b then a else b). set (y := if cmp a b then b else a).
  destruct (push_pair h P a b rest a nb s ls x y Hi Hb) as (h2 & E & Hi2).
  { unfold x, y. destruct (cmp a b); auto. }
  { unfold x, y. destruct (cmp a b) eqn:E; [done|]. destruct (Htotal a b); congruence. }
  { unfold x, y. destruct (cmp a b) eqn:E; [apply stable_refl|by apply stable_swap]. }
  assert (∃ q, (n + 1)%N = Npos q ∧ n = (Npos q - 1)%N) as (q & Eq & En) by (exists (N.succ_pos n); rewrite N.succ_pos_spec; lia).
  pose proof (popc_xor q) as Hx. pose proof (popc_pred q) as Hp. pose proof (popc_pos q). rewrite <-En in Hx, Hp.
  destruct (runs_loop_spec (tz q) (length (x :: s)) (N.lxor (Npos q) n) h2 (P ++ [a; b]) rest nb (x :: s) ([x; y] :: ls)) as (s' & ls' & h' & Er & Hi' & Hlen');
    [done|cbn [length]; lia|cbn [length]; lia|done|].
  exists nb, s', ls', h'. split; [|split; [done|rewrite Eq; cbn [length popcN] in *; lia]]. intros fuel. cbn [pairs_loop].
  destruct (Nat.eqb_spec a NULL) as [->|_]; [destruct Nn; apply elem_of_app; right; by repeat constructor|].
  assert (get_next h a = Ok b) as -> by (unfold get_next; by rewrite Ha). cbn [mbind outcome_bind].
  destruct (Nat.eqb_spec b NULL) as [->|_]; [destruct Nn; apply elem_of_app; right; by repeat constructor|].
  assert (get_next h b = Ok nb) as -> by (unfold get_next; by rewrite Hb). cbn [mbind outcome_bind]. rewrite Hn1, Eq.
  assert ((if cmp a b then s1 ← push_run a s; h1 ← set_next a b h; h3 ← set_next b NULL h1; Ok (s1, h3)
           else s1 ← push_run b s; h1 ← set_next b a h; h3 ← set_next a NULL h1; Ok (s1, h3)) = Ok (x :: s, h2)) as ->.
  { unfold x, y in *. destruct (cmp a b); rewrite push_run_spec by lia; cbn [mbind outcome_bind]; destruct (set_next _ _ h) as [h1|]; cbn [mbind outcome_bind] in *; [|done| |done]; by rewrite E. }
  cbn [mbind outcome_bind]. by rewrite Er.
Qed.

Lemma pairs_loop_spec fuel : ∀ rest n h P tail s ls,
  inv h0 h l P rest tail s ls → length ls = popcN n → (length P = 2 * N.to_nat n)%nat → (length rest < fuel)%nat → l ≠ [] →
  ∃ s' ls' h', pairs_loop fuel n tail s h = Ok (s', h') ∧ inv h0 h' l l [] NULL s' ls' ∧ (1 ≤ length ls' ≤ 33)%nat.
Proof.
  induction fuel as [|fuel IH]; intros rest n h P tail s ls Hi Hls HP Hf Hnil; [lia|].
  pose proof (runs_length _ _ _ _ _ _ Hi) as Hsl. pose proof Hi as [Hr Hc Hs Hst Ht Hpv]. destruct rest as [|a [|b rest]].
  - cbn in Hc. subst tail. exists s, ls, h. rewrite app_nil_r in Hs. subst P. split; [done|]. split; [done|].
    assert (length l ≠ 0)%nat by (by destruct l). destruct n as [|q]; [cbn in HP; lia|]. cbn [popcN] in Hls. pose proof (popc_pos q).
    assert (popc q ≤ 32)%nat by (apply (popc_bound q 32); lia). lia.
  - destruct (inv_nodup_parts _ _ _ _ _ _ Hi) as (_ & Nn & _). destruct Hc as (-> & na & Ha & Hc). cbn in Hc. subst na. cbn [pairs_loop].
    destruct (Nat.eqb_spec a NULL) as [->|_]; [destruct Nn; apply elem_of_app; right; by repeat constructor|]. unfold get_next. rewrite Ha. cbn [of_option mbind outcome_bind].
    rewrite Nat.eqb_refl. assert (length l = length P + 1)%nat as Hll by (rewrite Hs, length_app; done).
    destruct (counter_bound n ltac:(lia)) as [Hb _]. rewrite push_run_spec by lia. cbn [mbind outcome_bind].
    exists (a :: s), ([a] :: ls), h. split; [done|]. split; [|cbn [length]; lia]. split; [|done|by rewrite app_nil_r| |done|done].
    + constructor; [|done]. split; [split; [done|]; by exists NULL|]. split; [done|repeat constructor].
    + rewrite reverse_cons, concat_app. cbn [concat]. rewrite Hs, app_nil_r. apply stable_app; [done|apply stable_refl].
  - destruct Hc as (-> & _). destruct (pair_step n h P a b rest s ls Hi Hls HP) as (tail & s1 & ls1 & h1 & -> & Hi1 & Hl1).
    apply (IH rest (n + 1)%N h1 (P ++ [a; b]) tail s1 ls1); [done|done|rewrite length_app; cbn [length]; lia|cbn [length] in Hf; lia|done].
Qed.

Lemma sort_spec e : chain h0 NULL e l → l ≠ [] →
  ∃ e' h' l', sort e h0 = Ok (e', h') ∧ chain h' NULL e' l' ∧ StronglySorted R l' ∧ stable l' l ∧ touches l h0 h' ∧ prevs h' = prevs h0.
Proof.
  intros Hc Hnil. unfold sort.
  destruct (pairs_loop_spec (S (walk_fuel h0)) l 0 h0 [] e [] []) as (s & ls & h & E & Hi & Hr); [|done|done|lia|done|].
  { split; [constructor|done|done|apply stable_refl|apply clist_touches_refl|done]. }
  rewrite E. cbn [mbind outcome_bind]. by apply (final_loop_spec stack_size h l s ls).
Qed.
End list.

(** ** Back to circular lists *)

(** The previous links of [l] lead back to [p]. *)
Fixpoint back (h : heap) (p : nat) (l : list nat) : Prop :=
  match l with [] => True | x :: l => prevs h !! x = Some p ∧ back h x l end.
Definition last_of (p : nat) (l : list nat) : nat := default p (last l).

Lemma last_of_cons p x l : last_of p (x :: l) = last_of x l.
Proof. unfold last_of. rewrite last_cons. by destruct (last l). Qed.
Lemma last_of_in p l : last_of p l ∈ p :: l.
Proof. revert p. induction l as [|x l IH]; intros p; [by left|]. rewrite last_of_cons. right. apply IH. Qed.
Lemma last_of_snoc p l z : last_of p (l ++ [z]) = z.
Proof. unfold last_of. by rewrite last_snoc. Qed.

Lemma back_frame h h' p l : (∀ a, a ∈ l → prevs h' !! a = prevs h !! a) → back h p l → back h' p l.
Proof.
  revert p. induction l as [|x l IH]; intros p Hf; [done|]. intros [Hx Hb]. split; [rewrite Hf by (by left); done|].
  apply IH; [|done]. intros a Ha. apply Hf. by right.
Qed.
Lemma adj_intro h root l : ∀ p n, nexts h !! p = Some n → chain h root n l → back h p l → prevs h !! root = Some (last_of p l) → adj h (p :: l ++ [root]).
Proof.
  induction l as [|x l IH]; intros p n Hn Hc Hb Hr; cbn [app adj]; [cbn in Hc; subst; done|]. destruct Hc as (-> & m & Hm & Hc). destruct Hb as [Hp Hb].
  split; [done|]. split; [done|]. apply (IH x m); [done|done|done|]. by rewrite last_of_cons in Hr.
Qed.
Lemma chain_retarget h h' r r' z l : ∀ e, z ∉ l → nexts h' = <[z := r']> (nexts h) → chain h r e (l ++ [z]) → chain h' r' e (l ++ [z]).
Proof.
  induction l as [|x l IH]; intros e Hz E Hc; cbn [app chain] in *.
  - destruct Hc as (-> & _). split; [done|]. exists r'. by rewrite E, lookup_insert_eq.
  - destruct Hc as (-> & n & Hn & Hc). split; [done|]. exists n. rewrite E, lookup_insert_ne by (intros ->; apply Hz; by left). split; [done|].
    apply IH; [intros ?; apply Hz; by right|done|done].
Qed.

Lemma rebuild_loop_spec l : ∀ fuel p e h, chain h NULL e l → NULL ∉ l → NoDup l → (∀ a, a ∈ l → is_Some (prevs h !! a)) → (length l ≤ fuel)%nat →
  ∃ h', rebuild_loop fuel p e h = Ok (last_of p l, h') ∧ nexts h' = nexts h ∧ back h' p l ∧ touches l h h'.
Proof.
  induction l as [|x l IH]; intros fuel p e h Hc H0 Hn Hs Hf.
  - cbn in Hc. subst e. exists h. destruct fuel; cbn; (split_and!; [done|done|done|apply clist_touches_refl]).
  - destruct Hc as (-> & n & Hx & Hc). cbn [length] in Hf. destruct fuel as [|fuel]; [lia|]. apply NoDup_cons in Hn as [Hxl Hn]. cbn [rebuild_loop].
    destruct (Nat.eqb_spec x NULL) as [->|_]; [destruct H0; by left|]. destruct (set_prev_spec x p h) as (h1 & -> & P1 & N1 & T1); [apply Hs; by left|]. cbn [mbind outcome_bind].
    unfold get_next. rewrite N1, Hx. cbn [of_option mbind outcome_bind]. specialize (T1 (x :: l) ltac:(by left)).
    destruct (IH fuel x n h1) as (h' & -> & E & Hb & T); [eapply chain_frame; [|done]; intros; by rewrite N1|intros ?; apply H0; by right|done| |lia|].
    { intros a Ha. apply (touch_prevs _ _ _ T1). apply Hs. by right. }
    exists h'. rewrite last_of_cons. split; [done|]. split; [congruence|]. split.
    + split; [|done]. rewrite (touch_prev _ _ _ T) by done. by rewrite P1, lookup_insert_eq.
    + eapply clist_touches_trans; [exact T1|]. eapply touches_mono; [exact T|]. intros a Ha. by right.
Qed.

Lemma rebuild_spec root e l h :
  chain h NULL e l → l ≠ [] → NoDup (root :: l) → NULL ∉ root :: l → (∀ a, a ∈ root :: l → is_Some (nexts h !! a) ∧ is_Some (prevs h !! a)) → (length l ≤ walk_fuel h)%nat →
  ∃ h', rebuild root e h = Ok h' ∧ clist h' root l ∧ touches (root :: l) h h'.
Proof.
  intros Hc Hl Hn H0 Hs Hf. pose proof Hn as [Hrl Hn']%NoDup_cons. unfold rebuild.
  destruct (set_next_spec root e h) as (h1 & -> & E1 & P1 & T1); [apply Hs; by left|]. cbn [mbind outcome_bind].
  destruct (rebuild_loop_spec l (walk_fuel h1) root e h1) as (h2 & -> & E2 & B2 & T2).
  { eapply chain_frame; [|done]. intros a Ha. rewrite E1, lookup_insert_ne; [done|intros ->; done]. }
  { intros ?; apply H0; by right. } { done. }
  { intros a Ha. rewrite P1. apply Hs. by right. }
  { rewrite (touches_size [root] h h1); [lia|apply T1; by left]. }
  cbn [mbind outcome_bind]. destruct (exists_last Hl) as (l1 & z & ->). rewrite last_of_snoc in *.
  assert (z ∉ l1 ∧ z ≠ root) as [Hz Hzr].
  { apply NoDup_app in Hn' as (_ & N & _). split; [intros Hin; apply (N z Hin); by left|]. intros ->. apply Hrl. apply elem_of_app. right. by left. }
  assert (touches (root :: l1 ++ [z]) h h2) as T12 by (eapply clist_touches_trans; [apply T1; by left|]; eapply touches_mono; [exact T2|]; intros a Ha; by right).
  assert (root ∈ root :: l1 ++ [z] ∧ z ∈ root :: l1 ++ [z]) as [Hrin Hzin] by (split; [by left|right; apply elem_of_app; right; by left]).
  destruct (set_next_spec z root h2) as (h3 & -> & E3 & P3 & T3); [apply (touch_nexts _ _ _ T12), Hs, Hzin|]. cbn [mbind outcome_bind].
  destruct (set_prev_spec root z h3) as (h4 & -> & P4 & N4 & T4); [rewrite P3; apply (touch_prevs _ _ _ T12), Hs, Hrin|]. exists h4. split; [done|].
  split.
  - split; [|done|done]. eapply (adj_intro h4 root (l1 ++ [z]) root e).
    + rewrite N4, E3, lookup_insert_ne, E2, E1, lookup_insert_eq by done. done.
    + eapply (chain_retarget h1 _ NULL root); [done|rewrite N4, E3, E2; reflexivity|].
      eapply chain_frame; [|done]. intros a Ha. rewrite E1, lookup_insert_ne; [done|intros ->; done].
    + eapply back_frame; [|exact B2]. intros a Ha. rewrite P4, P3, lookup_insert_ne; [done|intros ->; done].
    + by rewrite P4, lookup_insert_eq, last_of_snoc.
  - eapply clist_touches_trans; [exact T12|]. eapply clist_touches_trans; [by apply T3|by apply T4].
Qed.

Lemma clist_last h root l z : clist h root (l ++ [z]) → prevs h !! root = Some z.
Proof. intros Hc. destruct (around h root l z [] Hc) as (c1 & p & q & c2 & _ & E2 & _ & _ & _ & H4 & _). by injection E2 as <- <-. Qed.

(** The list as a chain that ends with NULL. *)
Lemma unlink_last h root l z : clist h root (l ++ [z]) →
  ∃ n h', nexts h !! root = Some n ∧ set_next z NULL h = Ok h' ∧ chain h' NULL n (l ++ [z]) ∧ nexts h' !! root = Some n ∧ prevs h' = prevs h ∧ touches (root :: l ++ [z]) h h'.
Proof.
  intros Hc. destruct (clist_chain h root _ Hc) as (n & Hn & Hch). pose proof Hc as [_ Hnd _]. pose proof Hnd as [Hrl Hnd']%NoDup_cons.
  apply NoDup_app in Hnd' as (_ & N & _). assert (z ∈ root :: l ++ [z]) as Hz by (right; apply elem_of_app; right; by left).
  destruct (set_next_spec z NULL h) as (h' & E & E1 & P1 & T1); [apply (clist_entry h root _ z Hc Hz)|].
  exists n, h'. split_and!; [done|done| |rewrite E1, lookup_insert_ne; [done|intros ->; apply Hrl; apply elem_of_app; right; by left]|done|by apply T1].
  eapply chain_retarget; [|exact E1|exact Hch]. intros Hin. apply (N z Hin). by left.
Qed.

Lemma list_sort_spec h root l : (32 ≤ W)%N → clist h root l → Z.of_nat (length l) < 2 ^ 32 →
  ∃ h' l', list_sort root h = Ok h' ∧ clist h' root l' ∧ StronglySorted R l' ∧ stable l' l ∧ touches (root :: l) h h'.
Proof.
  intros HW Hc Hlen. pose proof Hc as [Hadj Hnd Hnn]. pose proof Hnd as [Hrl Hnd']%NoDup_cons. unfold list_sort. destruct l as [|z l _] using rev_ind.
  - destruct Hadj as (Hn & Hp & _). unfold get_next, get_prev. rewrite Hn, Hp. cbn. rewrite Nat.eqb_refl. exists h, [].
    split_and!; [done|done|constructor|apply stable_refl|apply clist_touches_refl].
  - pose proof (clist_last h root l z Hc) as Hp. destruct (unlink_last h root l z Hc) as (n & h1 & Hn & E1 & Hch & Hn1 & Hp1 & T1).
    assert (get_next h root = Ok n) as -> by (unfold get_next; by rewrite Hn). assert (get_prev h root = Ok z) as -> by (unfold get_prev; by rewrite Hp).
    cbn [mbind outcome_bind]. destruct (Nat.eqb_spec n z) as [->|Hne]; cbn [negb].
    + exists h, (l ++ [z]). destruct l as [|x l]; [|destruct Hch as (-> & _); exfalso; apply NoDup_cons in Hnd' as [Hx _]; apply Hx, elem_of_app; right; by left].
      split_and!; [done|done|repeat constructor|apply stable_refl|apply clist_touches_refl].
    + rewrite E1. cbn [mbind outcome_bind]. assert (get_next h1 root = Ok n) as -> by (unfold get_next; by rewrite Hn1). cbn [mbind outcome_bind].
      assert (NULL ∉ l ++ [z]) as Hnn' by (intros ?; apply Hnn; by right). pose proof (clist_size h root _ Hc) as Hsz. pose proof (touches_size _ _ _ T1) as Hsz1.
      destruct (sort_spec h1 (l ++ [z]) Hnd' Hnn' ltac:(lia) HW Hlen n Hch ltac:(by destruct l)) as (e & h2 & l' & -> & Hc2 & Hs2 & Hst & T2 & P2).
      cbn [mbind outcome_bind]. assert (∀ a, a ∈ root :: l ++ [z] → is_Some (nexts h2 !! a) ∧ is_Some (prevs h2 !! a)) as Hsome.
      { intros a Ha. rewrite (touch_nexts _ _ _ T2), (touch_prevs _ _ _ T2), (touch_nexts _ _ _ T1), (touch_prevs _ _ _ T1). by apply (clist_entry h root (l ++ [z])). }
      destruct (set_next_spec root e h2) as (h3 & -> & E3 & P3 & T3); [apply Hsome; by left|]. cbn [mbind outcome_bind].
      pose proof (T3 [root] ltac:(by left)) as T3'. pose proof Hst as [Hperm _].
      destruct (rebuild_spec root e l' h3) as (h' & -> & Hc' & T4).
      * eapply chain_frame; [|exact Hc2]. intros a Ha. rewrite E3, lookup_insert_ne; [done|]. intros ->. apply Hrl. by rewrite <-Hperm.
      * intros ->. apply Permutation_nil_l in Hperm. by destruct l.
      * constructor; [by rewrite Hperm|by rewrite Hperm].
      * intros [E|Hin]%elem_of_cons; [apply Hnn; rewrite E; by left|]. apply Hnn'. by rewrite <-Hperm.
      * intros a Ha. rewrite (touch_nexts _ _ _ T3'), (touch_prevs _ _ _ T3'). apply Hsome. apply elem_of_cons in Ha as [->|Ha]; [by left|right; by rewrite <-Hperm].
      * apply Permutation_length in Hperm. rewrite (touches_size _ _ _ T3'), (touches_size _ _ _ T2). lia.
      * exists h', l'. split_and!; [done|done|done|done|]. eapply clist_touches_trans; [exact T1|]. eapply clist_touches_trans; [eapply touches_mono; [exact T2|]; intros a Ha; by right|].
        eapply clist_touches_trans; [apply T3; by left|]. eapply touches_mono; [exact T4|]. intros a [->|Ha]%elem_of_cons; [by left|right; by rewrite <-Hperm].
Qed.

Lemma adj_back h root l : ∀ p, adj h (p :: l ++ [root]) → back h p l.
Proof. induction l as [|x l IH]; intros p Ha; [done|]. cbn [app adj] in Ha. destruct Ha as (_ & H2 & H3). split; [done|by apply IH]. Qed.
Lemma EMPTY_spec root h : is_Some (nexts h !! root) → is_Some (prevs h !! root) → root ≠ NULL →
  ∃ h', EMPTY root h = Ok h' ∧ clist h' root [] ∧ touches [root] h h'.
Proof.
  intros Hn Hp H0. unfold EMPTY. destruct (set_prev_spec root root h Hp) as (h1 & -> & P1 & N1 & T1). cbn [mbind outcome_bind].
  destruct (set_next_spec root root h1) as (h2 & -> & N2 & P2 & T2); [by rewrite N1|]. exists h2. split; [done|]. split.
  - split; cbn; [by rewrite N2, P2, P1, !lookup_insert_eq|apply NoDup_singleton|]. by intros ?%list_elem_of_singleton.
  - eapply clist_touches_trans; [apply T1; by left|apply T2; by left].
Qed.

(** The list of [src] moves to the empty list of [dest]. *)
Lemma move_spec h dest src l z n : clist h src (l ++ [z]) → nexts h !! src = Some n → dest ∉ src :: l ++ [z] → dest ≠ NULL → is_Some (nexts h !! dest) → is_Some (prevs h !! dest) →
  ∃ h', (h ← set_next dest n h; h ← set_prev dest z h; m ← get_next h dest; h ← set_prev m dest h; p ← get_prev h dest; set_next p dest h) = Ok h' ∧
    clist h' dest (l ++ [z]) ∧ touches (dest :: l ++ [z]) h h'.
Proof.
  intros Hc Hsn Hd Hd0 Hdn Hdp. pose proof Hc as [Hadj Hnd Hnn]. pose proof Hnd as [Hsl Hnd']%NoDup_cons. destruct (clist_chain h src _ Hc) as (n' & Hn' & Hch).
  rewrite Hsn in Hn'. injection Hn' as <-.
  assert (n ∈ l ++ [z]) as Hnin by (destruct l as [|x l]; destruct Hch as (-> & _); by left). assert (z ∈ l ++ [z]) as Hzin by (apply elem_of_app; right; by left).
  assert (∀ a, a ∈ l ++ [z] → a ≠ dest) as Hne by (intros a Ha ->; apply Hd; by right).
  destruct (set_next_spec dest n h Hdn) as (h1 & -> & E1 & P1 & T1). cbn [mbind outcome_bind].
  destruct (set_prev_spec dest z h1) as (h2 & -> & P2 & E2 & T2); [by rewrite P1|]. cbn [mbind outcome_bind].
  assert (get_next h2 dest = Ok n) as -> by (unfold get_next; by rewrite E2, E1, lookup_insert_eq). cbn [mbind outcome_bind].
  destruct (clist_entry h src _ n Hc ltac:(by right)) as [_ Hnp]. destruct (clist_entry h src _ z Hc ltac:(by right)) as [Hzn _].
  destruct (set_prev_spec n dest h2) as (h3 & -> & P3 & E3 & T3); [rewrite P2, lookup_insert_ne, P1; [done|by apply not_eq_sym, Hne]|]. cbn [mbind outcome_bind].
  assert (get_prev h3 dest = Ok z) as -> by (unfold get_prev; rewrite P3, lookup_insert_ne by (by apply Hne); by rewrite P2, lookup_insert_eq). cbn [mbind outcome_bind].
  destruct (set_next_spec z dest h3) as (h4 & -> & E4 & P4 & T4); [rewrite E3, E2, E1, lookup_insert_ne; [done|by apply not_eq_sym, Hne]|]. exists h4. split; [done|]. split.
  - split; [|constructor; [intros ?; apply Hd; by right|done]|intros [E|Hin]%elem_of_cons; [by apply Hd0|apply Hnn; by right]].
    eapply (adj_intro h4 dest (l ++ [z]) dest n).
    + rewrite E4, lookup_insert_ne by (by apply Hne). by rewrite E3, E2, E1, lookup_insert_eq.
    + eapply (chain_retarget h3 h4 src dest); [apply NoDup_app in Hnd' as (_ & N & _); intros Hin; apply (N z Hin); by left|done|].
      eapply chain_frame; [|exact Hch]. intros a Ha. rewrite E3, E2, E1, lookup_insert_ne; [done|by apply not_eq_sym, Hne].
    + apply adj_back in Hadj. clear Hzn Hzin. destruct (l ++ [z]) as [|x l']; [by apply elem_of_nil in Hnin|]. destruct Hch as (-> & _). destruct Hadj as [_ Hb].
      apply NoDup_cons in Hnd' as [Hx _]. split; [by rewrite P4, P3, lookup_insert_eq|]. eapply back_frame; [|exact Hb]. intros a Ha.
      rewrite P4, P3, lookup_insert_ne by (intros ->; done). rewrite P2, lookup_insert_ne by (apply not_eq_sym, Hne; by right). by rewrite P1.
    + rewrite P4, P3, lookup_insert_ne by (by apply Hne). by rewrite P2, lookup_insert_eq, last_of_snoc.
  - eapply clist_touches_trans; [apply T1; by left|]. eapply clist_touches_trans; [apply T2; by left|]. eapply clist_touches_trans; [apply T3; by right|]. apply T4. by right.
Qed.

Lemma list_merge_spec h dest src ld ls : clist h dest ld → clist h src ls → (∀ a, a ∈ dest :: ld → a ∉ src :: ls) →
  ∃ h', list_merge_roots dest src h = Ok h' ∧ clist h' dest (lmerge ld ls) ∧ clist h' src [] ∧ touches (dest :: src :: ld ++ ls) h h'.
Proof.
  intros Hcd Hcs Hdis. pose proof Hcs as [Hsadj Hsnd Hsnn]. pose proof Hcd as [Hdadj Hdnd Hdnn]. unfold list_merge_roots.
  destruct (clist_entry h src ls src Hcs ltac:(by left)) as [Hsn Hsp]. destruct (clist_entry h dest ld dest Hcd ltac:(by left)) as [Hdn Hdp].
  assert (src ≠ NULL ∧ dest ≠ NULL) as [Hs0 Hd0] by (split; intros E; [apply Hsnn; rewrite <-E; by left|apply Hdnn; rewrite <-E; by left]).
  assert (dest ≠ src) as Hds by (intros ->; apply (Hdis src); by left).
  destruct ls as [|z ls _] using rev_ind.
  { destruct Hsadj as (Hn & _). unfold get_next. rewrite Hn. cbn. rewrite Nat.eqb_refl. exists h. rewrite lmerge_nil_r. split_and!; [done|done|done|apply clist_touches_refl]. }
  destruct (unlink_last h src ls z Hcs) as (n & h1 & Hn & E1 & Hch & Hn1 & Hp1 & T1). pose proof (clist_last h src ls z Hcs) as Hsz.
  assert (get_next h src = Ok n) as -> by (unfold get_next; by rewrite Hn). cbn [mbind outcome_bind].
  assert (n ∈ ls ++ [z]) as Hnin by (destruct ls as [|x ls']; destruct Hch as (-> & _); by left).
  destruct (Nat.eqb_spec n src) as [->|_]; [apply NoDup_cons in Hsnd as [Hx _]; done|]. cbn [negb].
  assert (∀ h2, clist h2 dest (lmerge ld (ls ++ [z])) → touches (dest :: src :: ld ++ ls ++ [z]) h h2 →
    ∃ h', EMPTY src h2 = Ok h' ∧ clist h' dest (lmerge ld (ls ++ [z])) ∧ clist h' src [] ∧ touches (dest :: src :: ld ++ ls ++ [z]) h h') as Hend.
  { intros h2 Hc2 T2. destruct (EMPTY_spec src h2) as (h' & -> & Hc' & T'); [by apply (touch_nexts _ _ _ T2)|by apply (touch_prevs _ _ _ T2)|done|].
    exists h'. split; [done|]. split; [|split; [done|]].
    - eapply clist_frame; [exact T'| |exact Hc2]. intros a Ha ->%list_elem_of_singleton. apply elem_of_cons in Ha as [->|Ha]; [done|].
      apply lmerge_in, elem_of_app in Ha as [Ha|Ha]; [apply (Hdis src); [by right|by left]|apply NoDup_cons in Hsnd as [Hx _]; done].
    - eapply clist_touches_trans; [exact T2|]. eapply touches_mono; [exact T'|]. intros a ->%list_elem_of_singleton. right. by left. }
  destruct ld as [|y ld _] using rev_ind.
  - destruct Hdadj as (Hdn' & _). assert (get_next h dest = Ok dest) as -> by (unfold get_next; by rewrite Hdn'). cbn [mbind outcome_bind]. rewrite Nat.eqb_refl.
    assert (get_prev h src = Ok z) as -> by (unfold get_prev; by rewrite Hsz). cbn [mbind outcome_bind].
    destruct (move_spec h dest src ls z n Hcs Hn ltac:(apply Hdis; by left) Hd0 Hdn Hdp) as (h2 & -> & Hc2 & T2). cbn [mbind outcome_bind].
    apply Hend; [by rewrite lmerge_nil_l|]. eapply touches_mono; [exact T2|]. intros a [->|Ha]%elem_of_cons; [by left|right; by right].
  - destruct (unlink_last h dest ld y Hcd) as (m & h0 & Hm & _ & Hchm & _). pose proof (clist_last h dest ld y Hcd) as Hdy.
    assert (m ∈ ld ++ [y]) as Hmin by (destruct ld as [|x ld']; destruct Hchm as (-> & _); by left). pose proof Hdnd as [Hdl Hdnd']%NoDup_cons. pose proof Hsnd as [Hsl Hsnd']%NoDup_cons.
    assert (get_next h dest = Ok m) as -> by (unfold get_next; by rewrite Hm). cbn [mbind outcome_bind]. destruct (Nat.eqb_spec m dest) as [->|_]; [done|].
    assert (get_prev h src = Ok z) as -> by (unfold get_prev; by rewrite Hsz). cbn [mbind outcome_bind]. rewrite E1. cbn [mbind outcome_bind].
    assert (clist h1 dest (ld ++ [y])) as Hcd1 by (eapply clist_frame; [exact T1|exact Hdis|done]).
    destruct (unlink_last h1 dest ld y Hcd1) as (m' & h2 & Hm' & E2 & Hch2 & Hm2 & Hp2 & T2). pose proof (clist_last h1 dest ld y Hcd1) as Hdy1.
    assert (get_prev h1 dest = Ok y) as -> by (unfold get_prev; by rewrite Hdy1). cbn [mbind outcome_bind]. rewrite E2. cbn [mbind outcome_bind].
    assert (get_next h2 dest = Ok m') as -> by (unfold get_next; by rewrite Hm2). cbn [mbind outcome_bind].
    assert (∀ a, a ∈ src :: ls ++ [z] → a ∉ dest :: ld ++ [y]) as Hdis' by (intros a Ha Hin; by apply (Hdis a)).
    assert (get_next h2 src = Ok n) as -> by (unfold get_next; rewrite (touch_next _ _ _ T2) by (apply Hdis'; by left); by rewrite Hn1). cbn [mbind outcome_bind].
    assert (touches (dest :: src :: (ld ++ [y]) ++ ls ++ [z]) h h2) as T12.
    { eapply clist_touches_trans; (eapply touches_mono; [eassumption|]); intros a [->|Ha]%elem_of_cons; [right; by left|right; right; apply elem_of_app; by right|by left|right; right; apply elem_of_app; by left]. }
    pose proof (touches_size _ _ _ T12) as Hsz2.
    assert (NoDup ((ld ++ [y]) ++ ls ++ [z])) as Hnd2 by (apply NoDup_app; split_and!; [done|intros a Ha Hin; apply (Hdis a); by right|done]).
    assert (NULL ∉ (ld ++ [y]) ++ ls ++ [z]) as Hnn2 by (intros [Hin|Hin]%elem_of_app; [apply Hdnn; by right|apply Hsnn; by right]).
    assert (∀ a, a ∈ dest :: (ld ++ [y]) ++ ls ++ [z] → is_Some (nexts h !! a) ∧ is_Some (prevs h !! a)) as Hsome.
    { intros a [->|[Ha|Ha]%elem_of_app]%elem_of_cons; [done|apply (clist_entry h dest _ a Hcd); by right|apply (clist_entry h src _ a Hcs); by right]. }
    assert (length (ld ++ [y]) + length (ls ++ [z]) ≤ walk_fuel h2)%nat as Hfuel.
    { rewrite Hsz2, <-length_app. unfold walk_fuel. assert (list_to_set ((ld ++ [y]) ++ ls ++ [z]) ⊆@{gset nat} dom (nexts h)) as Hsub.
      { intros a Ha%elem_of_list_to_set. apply elem_of_dom. apply Hsome. by right. }
      apply subseteq_size in Hsub. rewrite size_list_to_set, size_dom in Hsub by done. lia. }
    destruct (merge_spec (ld ++ [y]) (ls ++ [z]) m' n h2) as (e & h3 & -> & Hc3 & T3 & P3); [done| |by destruct ld|by destruct ls|done|done|done|].
    { eapply chain_frame; [|exact Hch]. intros a Ha. apply (touch_next _ _ _ T2). apply Hdis'. by right. }
    cbn [mbind outcome_bind]. pose proof (lmerge_perm (ld ++ [y]) (ls ++ [z])) as Hperm.
    assert (dest ∉ (ld ++ [y]) ++ ls ++ [z]) as Hdnot by (intros [Hin|Hin]%elem_of_app; [done|apply (Hdis dest); [by left|by right]]).
    destruct (rebuild_spec dest e (lmerge (ld ++ [y]) (ls ++ [z])) h3) as (h4 & -> & Hc4 & T4); [done| | | | | |].
    + intros Hnil. rewrite Hnil in Hperm. apply Permutation_nil_l in Hperm. by destruct ld.
    + constructor; by rewrite Hperm.
    + intros [E|Hin]%elem_of_cons; [by apply Hd0|]. apply Hnn2. by rewrite <-Hperm.
    + intros a Ha. rewrite (touch_nexts _ _ _ T3), (touch_prevs _ _ _ T3), (touch_nexts _ _ _ T12), (touch_prevs _ _ _ T12). apply Hsome.
      apply elem_of_cons in Ha as [->|Ha]; [by left|right; by rewrite <-Hperm].
    + apply Permutation_length in Hperm. rewrite length_app in Hperm. rewrite (touches_size _ _ _ T3). lia.
    + cbn [mbind outcome_bind]. apply Hend; [done|]. eapply clist_touches_trans; [exact T12|].
      eapply clist_touches_trans; [eapply touches_mono; [exact T3|]; intros a Ha; right; by right|].
      eapply touches_mono; [exact T4|]. intros a [->|Ha]%elem_of_cons; [by left|]. right. right. by rewrite <-Hperm.
Qed.
End sort.

(** ** Theorems *)

(** C16. Sorting a list of fewer than 2^32 entries by a total order ends, never
    overflows the stack of 32 runs nor touches an invalid entry, and leaves a well
    formed circular list of the same items in order, items that compare equal in
    their former order; the other lists in memory are as before. *)
Theorem list_sort_stable (cmp : nat → nat → bool) (W : N) (h : heap) (root : nat) (l : list nat) :
  (∀ a b c, cmp a b = true → cmp b c = true → cmp a c = true) → (∀ a b, cmp a b = true ∨ cmp b a = true) →
  (32 ≤ W)%N → clist h root l → Z.of_nat (length l) < 2 ^ 32 →
  ∃ h' l', list_sort cmp W root h = Ok h' ∧ clist h' root l' ∧ foreach root h' = Ok l' ∧
    StronglySorted (λ a b, cmp a b = true) l' ∧ l' ≡ₚ l ∧ (∀ z, filter (eqv cmp z) l' = filter (eqv cmp z) l) ∧
    ∀ r2 l2, clist h r2 l2 → (∀ a, a ∈ r2 :: l2 → a ∉ root :: l) → clist h' r2 l2.
Proof.
  intros Htr Hto HW Hc Hl. destruct (list_sort_spec cmp W Htr Hto h root l HW Hc Hl) as (h' & l' & E & Hc' & Hs & [Hp Hst] & T). exists h', l'.
  split_and!; [done|done| |done|done|done|].
  - unfold foreach, get_next. destruct (clist_chain h' root l' Hc') as (n & -> & Hch). cbn [of_option mbind outcome_bind].
    pose proof (clist_size h' root l' Hc'). pose proof Hc' as [_ [Hr _]%NoDup_cons _]. apply foreach_spec; [done|lia|done].
  - intros r2 l2 Hc2 Hd. by eapply clist_frame.
Qed.

(** Merging moves the items of one sorted list into another: the result is sorted,
    of two equal items the one of the destination comes first, and the source is
    empty. *)
Theorem list_merge_stable (cmp : nat → nat → bool) (h : heap) (dest src : nat) (ld ls : list nat) :
  (∀ a b c, cmp a b = true → cmp b c = true → cmp a c = true) → (∀ a b, cmp a b = true ∨ cmp b a = true) →
  clist h dest ld → clist h src ls → (∀ a, a ∈ dest :: ld → a ∉ src :: ls) →
  StronglySorted (λ a b, cmp a b = true) ld → StronglySorted (λ a b, cmp a b = true) ls →
  ∃ h' l', list_merge_roots cmp dest src h = Ok h' ∧ clist h' dest l' ∧ clist h' src [] ∧
    StronglySorted (λ a b, cmp a b = true) l' ∧ l' ≡ₚ ld ++ ls ∧ ∀ z, filter (eqv cmp z) l' = filter (eqv cmp z) (ld ++ ls).
Proof.
  intros Htr Hto Hcd Hcs Hdis Hsd Hss. destruct (list_merge_spec cmp Htr Hto h dest src ld ls Hcd Hcs Hdis) as (h' & E & H1 & H2 & _).
  destruct (lmerge_stable cmp Htr Hto ld ls Hsd) as [Hp Hst]. exists h', (lmerge cmp ld ls). split_and!; [done|done|done| |done|done].
  by apply (lmerge_sorted cmp Htr Hto).
Qed.

(** Five items, sorted by their parity. *)
Definition demo_heap : heap := {|
  nexts := list_to_map [(9, 5); (5, 4); (4, 3); (3, 2); (2, 1); (1, 9)]%nat; prevs := list_to_map [(5, 9); (4, 5); (3, 4); (2, 3); (1, 2); (9, 1)]%nat |}.
Definition demo_cmp (a b : nat) : bool := (a mod 2 <=? b mod 2)%nat.

Lemma list_sort_stable_witness :
  (h ← list_sort demo_cmp 32 9 demo_heap; foreach 9 h) = Ok [4; 2; 5; 3; 1]%nat ∧
  ∃ h' l', list_sort demo_cmp 32 9 demo_heap = Ok h' ∧ clist h' 9 l' ∧ foreach 9 h' = Ok l' ∧
    StronglySorted (λ a b, demo_cmp a b = true) l' ∧ l' ≡ₚ [5; 4; 3; 2; 1]%nat ∧ (∀ z, filter (eqv demo_cmp z) l' = filter (eqv demo_cmp z) [5; 4; 3; 2; 1]%nat) ∧
    ∀ r2 l2, clist demo_heap r2 l2 → (∀ a, a ∈ r2 :: l2 → a ∉ [9; 5; 4; 3; 2; 1]%nat) → clist h' r2 l2.
Proof.
  split; [vm_compute; reflexivity|]. apply (list_sort_stable demo_cmp 32 demo_heap 9 [5; 4; 3; 2; 1]%nat).
  - intros a b c. unfold demo_cmp. rewrite !Nat.leb_le. lia.
  - intros a b. unfold demo_cmp. rewrite !Nat.leb_le. lia.
  - done.
  - split; [cbn; split_and!; reflexivity|apply (bool_decide_eq_true_1 _); vm_compute; reflexivity|apply (bool_decide_eq_true_1 _); vm_compute; reflexivity].
  - cbn. lia.
Defined.
End CListSort.
