(* ===== verification/FileOps.v ===== *)
(** * What a file promises to its users (mutek/include/mutek/fileops.h, vfs/file.h)

    The streams of the C library drive a file through a table of functions: read,
    write and seek may transfer less than asked for.  The class states what the
    streams rely on; the memory file system gives an instance. *)

From S2P Require Import Prelude.

Module FileOps.

(** Bytes written over a list at a position. *)
Definition splice (o : nat) (bs c : list Z) : list Z := take o c ++ bs ++ drop (o + length bs) c.

Lemma splice_length o bs c : (o ≤ length c)%nat → length (splice o bs c) = Nat.max (length c) (o + length bs).
Proof. intros H. unfold splice. rewrite !length_app, length_take, length_drop. lia. Qed.
Lemma splice_nil o c : splice o [] c = c.
Proof. unfold splice. cbn. rewrite Nat.add_0_r. apply take_drop. Qed.
Lemma splice_app o b1 b2 c : (o ≤ length c)%nat → splice (o + length b1) b2 (splice o b1 c) = splice o (b1 ++ b2) c.
Proof.
  intros H. unfold splice. rewrite length_app. set (c1 := take o c). assert (length c1 = o) as Hc1 by (unfold c1; rewrite length_take; lia).
  rewrite <-Hc1 at 1. rewrite take_app_add, <-Hc1, drop_app_ge by lia. replace (length c1 + length b1 + length b2 - length c1)%nat with (length b1 + length b2)%nat by lia.
  rewrite drop_app_ge, drop_drop by lia. rewrite take_app_length, <-!app_assoc. do 4 f_equal. lia.
Qed.

Lemma take_take_length {A} k (l : list A) : take k l = take (length (take k l)) l.
Proof. rewrite length_take. destruct (Nat.le_ge_cases k (length l)); [by rewrite Nat.min_l|by rewrite Nat.min_r, !take_ge by lia]. Qed.

(** The enumeration of the table and the one of the file system agree. *)
Inductive whence := SEEK_SET | SEEK_END | SEEK_CUR.

(** The flags a file is opened with. *)
Definition VFS_OPEN_READ : Z := 1.
Definition VFS_OPEN_WRITE : Z := 2.
Definition VFS_OPEN_CREATE : Z := 4.
Definition VFS_OPEN_APPEND : Z := 8.
Definition VFS_OPEN_TRUNCATE : Z := 16.

(** The table; a function may be missing.  [read] gives the number of bytes, or an
    error, and the bytes that were stored. *)
Class FileOps (F : Type) := {
  f_read : option (F → Z → outcome (Z * list Z * F));
  f_write : option (F → list Z → outcome (Z * F));
  f_lseek : option (F → Z → whence → outcome (Z * F));
  f_close : option (F → outcome (Z * F)) }.

Definition seek_base (w : whence) (len cur : nat) : Z := match w with SEEK_SET => 0 | SEEK_END => Z.of_nat len | SEEK_CUR => Z.of_nat cur end.

(** A file is a list of bytes with an offset: transfers make progress, may be
    short, and move the offset; a seek inside the file moves the offset. *)
Class FileLaws (F : Type) `{FileOps F} := {
  f_ok : F → Prop;
  f_contents : F → list Z;
  f_offset : F → nat;
  f_limit : Z;
  f_ok_offset f : f_ok f → (f_offset f ≤ length (f_contents f))%nat ∧ Z.of_nat (length (f_contents f)) ≤ f_limit;
  f_read_law : ∃ rd, f_read = Some rd ∧ ∀ f n, f_ok f → 0 ≤ n ≤ f_limit → ∃ bs f', rd f n = Ok (Z.of_nat (length bs), bs, f') ∧ f_ok f' ∧
    f_contents f' = f_contents f ∧ f_offset f' = (f_offset f + length bs)%nat ∧
    bs = take (length bs) (drop (f_offset f) (f_contents f)) ∧ Z.of_nat (length bs) ≤ n ∧
    (0 < n → (f_offset f < length (f_contents f))%nat → bs ≠ []);
  f_write_law : ∃ wr, f_write = Some wr ∧ ∀ f bs, f_ok f → Z.of_nat (f_offset f + length bs) ≤ f_limit → ∃ k f', wr f bs = Ok (Z.of_nat k, f') ∧ f_ok f' ∧
    (k ≤ length bs)%nat ∧ (bs ≠ [] → (0 < k)%nat) ∧
    f_contents f' = splice (f_offset f) (take k bs) (f_contents f) ∧ f_offset f' = (f_offset f + k)%nat;
  f_lseek_law : ∃ sk, f_lseek = Some sk ∧ ∀ f o w, f_ok f →
    0 ≤ seek_base w (length (f_contents f)) (f_offset f) + o ≤ Z.of_nat (length (f_contents f)) →
    ∃ f', sk f o w = Ok (seek_base w (length (f_contents f)) (f_offset f) + o, f') ∧ f_ok f' ∧ f_contents f' = f_contents f ∧
      f_offset f' = Z.to_nat (seek_base w (length (f_contents f)) (f_offset f) + o);
  f_close_law : ∃ cl, f_close = Some cl ∧ ∀ f, f_ok f → ∃ f', cl f = Ok (0, f') ∧ f_contents f' = f_contents f }.
End FileOps.
