(* ===== verification/RamfsFile.v ===== *)
(** * Files of the memory file system (libvfs/fs/ramfs: ramfs_file.c, ramfs_data.c; libc/alloc.c)

    The contents of a file are one heap block that grows by [realloc]; the open
    files of a node share it and each has its own offset.  The answers of the
    kernel allocator are arguments of the operations.  The interface [FileOps] with
    its laws is what the buffered streams rely on; the file gives an instance. *)

From stdpp Require Import gmap.
From S2P Require Import Prelude FileOps.
Import FileOps.

Module RamfsFile.

(** ** Operations *)

(** What [mem_resize] and [malloc] answer: a block, at least as long as asked for. *)
Record answer := { mem_resize : option (list Z); malloc : option (list Z) }.

(** The copy of the former contents is commented out. *)
Definition realloc (ans : answer) (ptr : option (list Z)) (size : Z) : option (list Z) :=
  match ptr with
  | None => malloc ans
  | Some b =>
      if size =? 0 then None else
      if Z.of_nat (length b) =? size then Some b else
      match mem_resize ans with
      | Some p => Some p
      | None => malloc ans
      end
  end.

Record ramfs_data_s := { data : option (list Z); allocated_size : Z; actual_size : Z }.
Definition ramfs_data_new : ramfs_data_s := {| data := None; allocated_size := 0; actual_size := 0 |}.

Section width.
(** The width of size_t, ssize_t and off_t. *)
Context (W : Z).

Definition ramfs_data_realloc (ans : answer) (db : ramfs_data_s) (new_size : Z) : Z * ramfs_data_s :=
  match realloc ans (data db) new_size with
  | None => (ENOMEM, db)
  | Some d => (0, {| data := Some d; allocated_size := new_size; actual_size := actual_size db |})
  end.

(** Loads and stores of the block. *)
Definition copy_out (d : option (list Z)) (o n : Z) : outcome (list Z) :=
  if n =? 0 then Ok [] else
  b ← of_option FBounds d;
  if (0 <=? o) && (o + n <=? Z.of_nat (length b)) then Ok (take (Z.to_nat n) (drop (Z.to_nat o) b)) else Err FBounds.
Definition copy_in (d : option (list Z)) (o : Z) (bs : list Z) : outcome (option (list Z)) :=
  if Z.of_nat (length bs) =? 0 then Ok d else
  b ← of_option FBounds d;
  if (0 <=? o) && (o + Z.of_nat (length bs) <=? Z.of_nat (length b))
  then Ok (Some (take (Z.to_nat o) b ++ bs ++ drop (Z.to_nat o + length bs) b)) else Err FBounds.

(** [left] is signed, but compared with [size] as an unsigned number. *)
Definition ramfs_file_read (d : ramfs_data_s) (offset size : Z) : outcome (Z * list Z * Z) :=
  let left := wraps W (actual_size d - offset) in
  let left := if size <? wrapu W left then wraps W size else left in
  if left <? 0 then Ok (- EINVAL, [], offset) else
  buffer ← copy_out (data d) offset left;
  Ok (left, buffer, offset + left).

Definition ramfs_file_write (ans : answer) (d : ramfs_data_s) (offset : Z) (buffer : list Z) : outcome (Z * ramfs_data_s * Z) :=
  let size := Z.of_nat (length buffer) in
  let offset_after := wraps W (offset + size) in
  let '(err, d) := if offset_after >? allocated_size d then ramfs_data_realloc ans d (Z.lor offset_after 0xfff + 1) else (0, d) in
  if negb (err =? 0) then Ok (err, d, offset) else
  b ← copy_in (data d) offset buffer;
  let offset := offset + size in
  Ok (size, {| data := b; allocated_size := allocated_size d; actual_size := if offset >? actual_size d then offset else actual_size d |}, offset).

Definition ramfs_file_truncate (ans : answer) (d : ramfs_data_s) (new_size : Z) : outcome (Z * ramfs_data_s) :=
  if new_size >? allocated_size d then
    let new_size := Z.lor new_size 0xfff + 1 in
    let '(err, d) := ramfs_data_realloc ans d new_size in
    if negb (err =? 0) then Ok (err, d) else
    b ← copy_in (data d) (actual_size d) (replicate (Z.to_nat (new_size - actual_size d)) 0);
    Ok (0, {| data := b; allocated_size := allocated_size d; actual_size := new_size |})
  else Ok (0, {| data := data d; allocated_size := allocated_size d; actual_size := new_size |}).

Definition ramfs_file_append (ans : answer) (d : ramfs_data_s) (offset : Z) (buffer : list Z) : outcome (Z * ramfs_data_s * Z) :=
  ramfs_file_write ans d (actual_size d) buffer.

Definition ramfs_file_seek (d : ramfs_data_s) (cur offset : Z) (w : whence) : outcome (Z * Z) :=
  offset ← match w with
           | SEEK_SET => Ok offset
           | SEEK_CUR => schk W (offset + cur)
           | SEEK_END => schk W (offset + actual_size d)
           end;
  let offset := if offset >? actual_size d then actual_size d else offset in
  let offset := if offset <? 0 then 0 else offset in
  Ok (offset, offset).

(** The open file: its functions and its offset. *)
Record vfs_file_s := { can_read : bool; can_write : bool; append : bool; offset : Z }.
Definition flag (flags f : Z) : bool := negb (Z.land flags f =? 0).

(** [alloc]: the file object could be allocated.  The truncation goes through [priv]
    before it is set. *)
Definition ramfs_node_open (alloc : bool) (flags : Z) (d : ramfs_data_s) : outcome (Z * option vfs_file_s * ramfs_data_s) :=
  if negb alloc then Ok (- ENOMEM, None, d) else
  require (negb (flag flags VFS_OPEN_TRUNCATE)) FUndef;;
  Ok (0, Some {| can_read := flag flags VFS_OPEN_READ; can_write := flag flags VFS_OPEN_WRITE || flag flags VFS_OPEN_APPEND;
                 append := flag flags VFS_OPEN_APPEND; offset := 0 |}, d).

(** One open file with the data it shares and the references to the data. *)
Record rfile := { rf_data : ramfs_data_s; rf_offset : Z; rf_refs : Z }.

(** The last reference frees the block. *)
Definition ramfs_data_refdrop (d : ramfs_data_s) (refs : Z) : outcome (ramfs_data_s * Z) :=
  require (refs >? 0) FAssert;;
  Ok (if negb (refs - 1 =? 0) then d else {| data := None; allocated_size := allocated_size d; actual_size := actual_size d |}, refs - 1).
Definition ramfs_file_close (f : rfile) : outcome (Z * rfile) :=
  '(d, refs) ← ramfs_data_refdrop (rf_data f) (rf_refs f);
  Ok (0, {| rf_data := d; rf_offset := rf_offset f; rf_refs := refs |}).

(** The table of a file that is open for reading and writing. *)
Definition ramfs_ops (ans : ramfs_data_s → list Z → answer) : FileOps rfile := {|
  f_read := Some (λ f n, '(k, l, off) ← ramfs_file_read (rf_data f) (rf_offset f) n; Ok (k, l, {| rf_data := rf_data f; rf_offset := off; rf_refs := rf_refs f |}));
  f_write := Some (λ f bs, '(k, d, off) ← ramfs_file_write (ans (rf_data f) bs) (rf_data f) (rf_offset f) bs; Ok (k, {| rf_data := d; rf_offset := off; rf_refs := rf_refs f |}));
  f_lseek := Some (λ f o w, '(v, off) ← ramfs_file_seek (rf_data f) (rf_offset f) o w; Ok (v, {| rf_data := rf_data f; rf_offset := off; rf_refs := rf_refs f |}));
  f_close := Some ramfs_file_close |}.

(** ** The block and the contents *)

Record data_ok (d : ramfs_data_s) : Prop := {
  ok_sizes : 0 ≤ actual_size d ≤ allocated_size d;
  ok_limit : allocated_size d < 2 ^ (W - 1);
  ok_block : allocated_size d ≤ Z.of_nat (length (default [] (data d))) }.
Definition contents (d : ramfs_data_s) : list Z := take (Z.to_nat (actual_size d)) (default [] (data d)).

(** The allocator returns a block of the size that is asked for, and a resized
    block begins with the former bytes. *)
Record answer_ok (ans : answer) (ptr : option (list Z)) (size : Z) : Prop := {
  ans_resize : ∀ p, mem_resize ans = Some p → size ≤ Z.of_nat (length p) ∧
    ∃ b, ptr = Some b ∧ take (Nat.min (length b) (Z.to_nat size)) p = take (Nat.min (length b) (Z.to_nat size)) b;
  ans_malloc : ∀ p, malloc ans = Some p → size ≤ Z.of_nat (length p) }.

Lemma contents_length d : data_ok d → length (contents d) = Z.to_nat (actual_size d).
Proof. intros [H1 H2 H3]. unfold contents. rewrite length_take. lia. Qed.

Lemma round_up x : 0 ≤ x → x < Z.lor x 0xfff + 1 ≤ x + 4096.
Proof.
  intros Hx. pose proof (Z.add_lor_land x 0xfff) as E. change 0xfff with (Z.ones 12) in *. rewrite Z.land_ones in E by lia.
  pose proof (Z.mod_pos_bound x (2 ^ 12)). change (Z.ones 12) with 4095 in *. change (2 ^ 12) with 4096 in *. lia.
Qed.

Context (HW : 16 ≤ W).

Lemma half : 2 ^ W = 2 * 2 ^ (W - 1) ∧ 8192 < 2 ^ (W - 1).
Proof. split; [apply pow2_pred; lia|]. apply Z.lt_le_trans with (2 ^ 15); [done|]. apply Z.pow_le_mono_r; lia. Qed.

Lemma read_spec d offset size : data_ok d → 0 ≤ offset ≤ actual_size d → 0 ≤ size < 2 ^ (W - 1) →
  ramfs_file_read d offset size =
    let bs := take (Z.to_nat size) (drop (Z.to_nat offset) (contents d)) in Ok (Z.of_nat (length bs), bs, offset + Z.of_nat (length bs)).
Proof.
  intros Hd Ho Hs. pose proof Hd as [H1 H2 H3]. pose proof half as [Hh _]. cbv zeta. set (bs := take _ _).
  assert (Z.of_nat (length bs) = Z.min size (actual_size d - offset)) as Hl.
  { unfold bs. rewrite length_take, length_drop, contents_length by done. lia. }
  unfold ramfs_file_read. rewrite wraps_small by lia. rewrite wrapu_small by lia. rewrite wraps_small by lia.
  assert ((if size <? actual_size d - offset then size else actual_size d - offset) = Z.of_nat (length bs)) as -> by (destruct (Z.ltb_spec size (actual_size d - offset)); lia).
  destruct (Z.ltb_spec (Z.of_nat (length bs)) 0); [lia|]. assert (copy_out (data d) offset (Z.of_nat (length bs)) = Ok bs) as ->; [|done].
  unfold copy_out. destruct (Z.eqb_spec (Z.of_nat (length bs)) 0) as [E|E]; [by destruct bs|].
  destruct (data d) as [b|] eqn:Eb; cbn [from_option id length] in H3; [|lia]. cbn [of_option mbind outcome_bind].
  destruct (Z.leb_spec 0 offset); [|lia]. destruct (Z.leb_spec (offset + Z.of_nat (length bs)) (Z.of_nat (length b))); [|lia]. cbn [andb]. f_equal.
  unfold bs at 2, contents. rewrite Eb. cbn [from_option id]. rewrite skipn_firstn_comm, take_take. rewrite Nat2Z.id. f_equal. lia.
Qed.

Lemma copy_in_spec b o bs : 0 ≤ o → o + Z.of_nat (length bs) ≤ Z.of_nat (length b) → copy_in (Some b) o bs = Ok (Some (splice (Z.to_nat o) bs b)).
Proof.
  intros Ho Hl. unfold copy_in. destruct (Z.eqb_spec (Z.of_nat (length bs)) 0) as [E|E]; [destruct bs; [|done]; by rewrite splice_nil|].
  cbn [of_option mbind outcome_bind]. destruct (Z.leb_spec 0 o); [|lia]. destruct (Z.leb_spec (o + Z.of_nat (length bs)) (Z.of_nat (length b))); [done|lia].
Qed.

(** The growth of the block keeps the contents when the block is not moved. *)
Lemma realloc_spec ans d size : data_ok d → answer_ok ans (data d) size → allocated_size d < size < 2 ^ (W - 1) →
  (is_Some (data d) → mem_resize ans = None → malloc ans = None) →
  (realloc ans (data d) size = None ∧ ramfs_data_realloc ans d size = (ENOMEM, d)) ∨
  ∃ d', ramfs_data_realloc ans d size = (0, d') ∧ data_ok d' ∧ contents d' = contents d ∧ actual_size d' = actual_size d ∧ allocated_size d' = size.
Proof.
  intros Hd Ha Hs Hk. pose proof Hd as [H1 H2 H3]. unfold ramfs_data_realloc. destruct (realloc ans (data d) size) as [p|] eqn:E; [right|by left].
  eexists. split; [done|]. unfold realloc in E. destruct (data d) as [b|] eqn:Eb; cbn [from_option id length] in H3.
  - destruct (Z.eqb_spec size 0); [lia|]. destruct (Z.eqb_spec (Z.of_nat (length b)) size) as [El|El].
    + injection E as <-. split_and!; [split; cbn; lia| |done|done]. unfold contents. cbn. by rewrite Eb.
    + destruct (mem_resize ans) as [q|] eqn:Er; [|rewrite Hk in E by eauto; done]. injection E as <-.
      destruct (ans_resize _ _ _ Ha q Er) as (Hl & b' & [= <-] & Ht). split_and!; [split; cbn; lia| |done|done]. unfold contents. cbn. rewrite Eb. cbn.
      replace (Z.to_nat (actual_size d)) with (Nat.min (Z.to_nat (actual_size d)) (Nat.min (length b) (Z.to_nat size))) by lia.
      rewrite <-(take_take q _ (Nat.min (length b) (Z.to_nat size))), Ht, take_take. done.
  - pose proof (ans_malloc _ _ _ Ha p E). split_and!; [split; cbn; lia| |done|done]. unfold contents. cbn. rewrite Eb. cbn.
    assert (actual_size d = 0) as -> by lia. done.
Qed.

Lemma write_spec ans d offset bs :
  data_ok d → 0 ≤ offset ≤ actual_size d → offset + Z.of_nat (length bs) + 4096 < 2 ^ (W - 1) →
  answer_ok ans (data d) (Z.lor (offset + Z.of_nat (length bs)) 0xfff + 1) → (is_Some (data d) → mem_resize ans = None → malloc ans = None) →
  (ramfs_file_write ans d offset bs = Ok (ENOMEM, d, offset) ∧ realloc ans (data d) (Z.lor (offset + Z.of_nat (length bs)) 0xfff + 1) = None) ∨
  ∃ d', ramfs_file_write ans d offset bs = Ok (Z.of_nat (length bs), d', offset + Z.of_nat (length bs)) ∧ data_ok d' ∧
    contents d' = splice (Z.to_nat offset) bs (contents d).
Proof.
  intros Hd Ho Hl Ha Hk. pose proof Hd as [H1 H2 H3]. pose proof half as [Hh _]. set (after := offset + Z.of_nat (length bs)) in *.
  pose proof (round_up after ltac:(lia)) as Hr. unfold ramfs_file_write. fold after. rewrite wraps_small by lia.
  assert (∀ d1, data_ok d1 → contents d1 = contents d → actual_size d1 = actual_size d → after ≤ allocated_size d1 →
    ∃ d', (b ← copy_in (data d1) offset bs;
           Ok (Z.of_nat (length bs), {| data := b; allocated_size := allocated_size d1; actual_size := if after >? actual_size d1 then after else actual_size d1 |}, after)) =
        Ok (Z.of_nat (length bs), d', after) ∧ data_ok d' ∧ contents d' = splice (Z.to_nat offset) bs (contents d)) as Hw.
  { intros d1 Hd1 Hc1 Ha1 Haf. pose proof Hd1 as [G1 G2 G3].
    assert (copy_in (data d1) offset bs = Ok (if data d1 is Some b then Some (splice (Z.to_nat offset) bs b) else None) ∧ (data d1 = None → bs = [])) as [-> Hnone].
    { destruct (data d1) as [b|]; cbn [from_option id length] in G3; [split; [apply copy_in_spec; lia|done]|].
      assert (length bs = 0%nat) as E by lia. destruct bs; [done|done]. }
    cbn [mbind outcome_bind]. eexists. split; [done|]. split.
    - split; cbn [actual_size allocated_size data]; [destruct (Z.gtb_spec after (actual_size d1)); lia|lia|].
      destruct (data d1) as [b|]; cbn [from_option id length] in *; [|lia]. rewrite splice_length by lia. lia.
    - rewrite <-Hc1. unfold contents. cbn [actual_size data]. destruct (data d1) as [b|]; cbn [from_option id length] in *.
      + unfold splice. rewrite !take_app, !take_take, length_take, skipn_firstn_comm.
        assert (Z.to_nat (if after >? actual_size d1 then after else actual_size d1) = Nat.max (Z.to_nat (actual_size d1)) (Z.to_nat offset + length bs)) as ->
          by (destruct (Z.gtb_spec after (actual_size d1)); lia).
        f_equal; [f_equal; lia|]. f_equal; [apply take_ge; lia|]. f_equal. lia.
      + rewrite (Hnone eq_refl). rewrite splice_nil, !take_nil. done. }
  destruct (Z.gtb_spec after (allocated_size d)).
  - destruct (realloc_spec ans d (Z.lor after 0xfff + 1) Hd Ha ltac:(lia) Hk) as [[Hno ->]|(d1 & -> & Hd1 & Hc1 & Ha1 & Hall)]; [left; done|right].
    cbn [Z.eqb negb]. apply Hw; [done|done|done|lia].
  - right. cbn [Z.eqb negb]. apply Hw; [done|done|done|lia].
Qed.

Lemma seek_spec d cur o w : data_ok d → 0 ≤ cur ≤ actual_size d → let t := seek_base w (Z.to_nat (actual_size d)) (Z.to_nat cur) + o in
  - 2 ^ (W - 1) ≤ t < 2 ^ (W - 1) → ramfs_file_seek d cur o w = let p := Z.max 0 (Z.min t (actual_size d)) in Ok (p, p).
Proof.
  intros [H1 H2 H3] Hc t Ht. unfold ramfs_file_seek.
  assert (match w with SEEK_SET => Ok o | SEEK_CUR => schk W (o + cur) | SEEK_END => schk W (o + actual_size d) end = Ok t) as ->.
  { unfold t in *. destruct w; cbn [seek_base] in *; [by rewrite Z.add_0_l|rewrite schk_Ok by lia; f_equal; lia|rewrite schk_Ok by lia; f_equal; lia]. }
  cbn [mbind outcome_bind]. cbv zeta. destruct (Z.gtb_spec t (actual_size d)).
  - destruct (Z.ltb_spec (actual_size d) 0); [lia|]. do 2 f_equal; lia.
  - destruct (Z.ltb_spec t 0); do 2 f_equal; lia.
Qed.

(** *** Any answer of the allocator *)

Lemma realloc_ok ans d size : data_ok d → answer_ok ans (data d) size → allocated_size d < size < 2 ^ (W - 1) →
  ramfs_data_realloc ans d size = (ENOMEM, d) ∨ ∃ d', ramfs_data_realloc ans d size = (0, d') ∧ data_ok d' ∧ allocated_size d' = size ∧ actual_size d' = actual_size d.
Proof.
  intros [H1 H2 H3] [Hr Hm] Hs. unfold ramfs_data_realloc. destruct (realloc ans (data d) size) as [p|] eqn:E; [right|by left]. eexists. split; [done|].
  split_and!; [|done|done]. split; cbn; [lia|lia|]. unfold realloc in E. destruct (data d) as [b|]; [|by apply Hm]. destruct (size =? 0); [done|].
  destruct (Z.eqb_spec (Z.of_nat (length b)) size); [injection E as <-; lia|]. destruct (mem_resize ans) as [q|] eqn:Eq; [injection E as <-; by apply (Hr q)|by apply Hm].
Qed.

Lemma ramfs_copy_in_ok d o bs : data_ok d → 0 ≤ o → o + Z.of_nat (length bs) ≤ allocated_size d → ∃ b, copy_in (data d) o bs = Ok b ∧ length (default [] b) = length (default [] (data d)).
Proof.
  intros [H1 H2 H3] Ho Hl. destruct (data d) as [b|]; cbn [from_option id length] in *.
  - exists (Some (splice (Z.to_nat o) bs b)). split; [apply copy_in_spec; lia|]. cbn [from_option id]. rewrite splice_length by lia. lia.
  - exists None. assert (length bs = 0%nat) as E by lia. unfold copy_in. by rewrite E.
Qed.

Lemma write_ok ans d offset bs : data_ok d → 0 ≤ offset → offset + Z.of_nat (length bs) + 4096 < 2 ^ (W - 1) →
  answer_ok ans (data d) (Z.lor (offset + Z.of_nat (length bs)) 0xfff + 1) → ∃ v d' off', ramfs_file_write ans d offset bs = Ok (v, d', off') ∧ data_ok d' ∧ 0 ≤ off'.
Proof.
  intros Hd Ho Hl Ha. pose proof half. pose proof (round_up (offset + Z.of_nat (length bs)) ltac:(lia)) as Hr. unfold ramfs_file_write. rewrite wraps_small by lia.
  assert (∀ d1, data_ok d1 → offset + Z.of_nat (length bs) ≤ allocated_size d1 →
    ∃ v d' off', (b ← copy_in (data d1) offset bs; Ok (Z.of_nat (length bs), {| data := b; allocated_size := allocated_size d1;
      actual_size := if offset + Z.of_nat (length bs) >? actual_size d1 then offset + Z.of_nat (length bs) else actual_size d1 |}, offset + Z.of_nat (length bs))) = Ok (v, d', off') ∧ data_ok d' ∧ 0 ≤ off') as Hw.
  { intros d1 Hd1 Hal. destruct (ramfs_copy_in_ok d1 offset bs Hd1 Ho Hal) as (b & -> & Hb). cbn [mbind outcome_bind]. do 3 eexists. split; [done|]. split; [|lia]. destruct Hd1 as [G1 G2 G3].
    split; cbn [actual_size allocated_size data]; [destruct (Z.gtb_spec (offset + Z.of_nat (length bs)) (actual_size d1)); lia|lia|lia]. }
  destruct (Z.gtb_spec (offset + Z.of_nat (length bs)) (allocated_size d)); [|by apply Hw; [|lia]].
  destruct (realloc_ok ans d _ Hd Ha ltac:(lia)) as [->|(d1 & -> & Hd1 & Hal & _)]; [cbn; by do 3 eexists|]. cbn [Z.eqb negb]. apply Hw; [done|lia].
Qed.

Lemma truncate_ok ans d size : data_ok d → 0 ≤ size → size + 4096 < 2 ^ (W - 1) → answer_ok ans (data d) (Z.lor size 0xfff + 1) →
  ∃ v d', ramfs_file_truncate ans d size = Ok (v, d') ∧ data_ok d'.
Proof.
  intros Hd Ho Hl Ha. pose proof (round_up size Ho) as Hr. unfold ramfs_file_truncate. destruct (Z.gtb_spec size (allocated_size d)).
  - destruct (realloc_ok ans d _ Hd Ha ltac:(lia)) as [->|(d1 & -> & Hd1 & Hal & Hac)]; [cbn; by do 2 eexists|]. cbn [Z.eqb negb]. pose proof Hd1 as [G1 G2 G3].
    destruct (ramfs_copy_in_ok d1 (actual_size d1) (replicate (Z.to_nat (Z.lor size 4095 + 1 - actual_size d1)) 0) Hd1) as (b & -> & Hb); [lia|rewrite length_replicate; lia|].
    cbn [mbind outcome_bind]. do 2 eexists. split; [done|]. split; cbn; [lia|lia|lia].
  - do 2 eexists. split; [done|]. destruct Hd as [H1 H2 H3]. split; cbn; [lia|lia|lia].
Qed.

(** ** Files that share their contents *)

(** The open files by their descriptor. *)
Record world := { w_data : ramfs_data_s; w_offsets : gmap nat Z }.
Inductive op := OOpen (fd : nat) | ORead (fd : nat) (size : Z) | OWrite (fd : nat) (bs : list Z) (ans : answer) | OAppend (fd : nat) (bs : list Z) (ans : answer)
  | OSeek (fd : nat) (o : Z) (w : whence).
Inductive res := RNone | RBytes (n : Z) (l : list Z) | RValue (v : Z).

Definition run_op (o : op) (w : world) : outcome (res * world) :=
  match o with
  | OOpen fd =>
      '(_, f, d) ← ramfs_node_open true (VFS_OPEN_READ + VFS_OPEN_WRITE) (w_data w);
      f ← of_option FUndef f;
      Ok (RNone, {| w_data := d; w_offsets := <[fd := offset f]> (w_offsets w) |})
  | ORead fd size =>
      off ← of_option FBounds (w_offsets w !! fd);
      '(n, l, off) ← ramfs_file_read (w_data w) off size;
      Ok (RBytes n l, {| w_data := w_data w; w_offsets := <[fd := off]> (w_offsets w) |})
  | OWrite fd bs ans =>
      off ← of_option FBounds (w_offsets w !! fd);
      '(n, d, off) ← ramfs_file_write ans (w_data w) off bs;
      Ok (RValue n, {| w_data := d; w_offsets := <[fd := off]> (w_offsets w) |})
  | OAppend fd bs ans =>
      off ← of_option FBounds (w_offsets w !! fd);
      '(n, d, off) ← ramfs_file_append ans (w_data w) off bs;
      Ok (RValue n, {| w_data := d; w_offsets := <[fd := off]> (w_offsets w) |})
  | OSeek fd o wh =>
      off ← of_option FBounds (w_offsets w !! fd);
      '(v, off) ← ramfs_file_seek (w_data w) off o wh;
      Ok (RValue v, {| w_data := w_data w; w_offsets := <[fd := off]> (w_offsets w) |})
  end.

(** The same on a list of bytes. *)
Definition ref_op (o : op) (c : list Z) (offs : gmap nat Z) : res * list Z * gmap nat Z :=
  match o with
  | OOpen fd => (RNone, c, <[fd := 0]> offs)
  | ORead fd size =>
      let off := default 0 (offs !! fd) in
      let l := take (Z.to_nat size) (drop (Z.to_nat off) c) in (RBytes (Z.of_nat (length l)) l, c, <[fd := off + Z.of_nat (length l)]> offs)
  | OWrite fd bs _ =>
      let off := default 0 (offs !! fd) in
      (RValue (Z.of_nat (length bs)), splice (Z.to_nat off) bs c, <[fd := off + Z.of_nat (length bs)]> offs)
  | OAppend fd bs _ => (RValue (Z.of_nat (length bs)), c ++ bs, <[fd := Z.of_nat (length c + length bs)]> offs)
  | OSeek fd o w =>
      let t := Z.max 0 (Z.min (seek_base w (length c) (Z.to_nat (default 0 (offs !! fd))) + o) (Z.of_nat (length c))) in (RValue t, c, <[fd := t]> offs)
  end.

(** Where the block has to grow, the memory suffices and it grows in place; positions
    stay in range.  Truncation is not one of the operations. *)
Definition grows (ans : answer) (d : option (list Z)) (size : Z) : Prop :=
  answer_ok ans d size ∧ (is_Some d → is_Some (mem_resize ans)) ∧ (d = None → is_Some (malloc ans)).
Definition allowed (o : op) (w : world) : Prop :=
  match o with
  | OOpen fd => True
  | ORead fd size => is_Some (w_offsets w !! fd) ∧ 0 ≤ size < 2 ^ (W - 1)
  | OWrite fd bs ans => ∃ off, w_offsets w !! fd = Some off ∧ off + Z.of_nat (length bs) + 4096 < 2 ^ (W - 1) ∧
      (allocated_size (w_data w) < off + Z.of_nat (length bs) → grows ans (data (w_data w)) (Z.lor (off + Z.of_nat (length bs)) 0xfff + 1))
  | OAppend fd bs ans => is_Some (w_offsets w !! fd) ∧ actual_size (w_data w) + Z.of_nat (length bs) + 4096 < 2 ^ (W - 1) ∧
      (allocated_size (w_data w) < actual_size (w_data w) + Z.of_nat (length bs) → grows ans (data (w_data w)) (Z.lor (actual_size (w_data w) + Z.of_nat (length bs)) 0xfff + 1))
  | OSeek fd o wh => ∃ off, w_offsets w !! fd = Some off ∧
      - 2 ^ (W - 1) ≤ seek_base wh (Z.to_nat (actual_size (w_data w))) (Z.to_nat off) + o < 2 ^ (W - 1)
  end.
Inductive reachable : world → Prop :=
  | reach_new : reachable {| w_data := ramfs_data_new; w_offsets := ∅ |}
  | reach_step o w v w' : reachable w → allowed o w → run_op o w = Ok (v, w') → reachable w'.

Definition winv (w : world) : Prop :=
  data_ok (w_data w) ∧ ∀ fd off, w_offsets w !! fd = Some off → 0 ≤ off ≤ actual_size (w_data w).

(** An allocator with enough memory. *)
Definition roomy (d : ramfs_data_s) (bs : list Z) : answer :=
  {| mem_resize := match data d with Some b => Some (b ++ replicate (length bs + 4096) 0) | None => None end;
     malloc := match data d with Some _ => None | None => Some (replicate (length bs + 4096) 0) end |}.
Lemma roomy_grows d off bs : data_ok d → 0 ≤ off ≤ actual_size d → grows (roomy d bs) (data d) (Z.lor (off + Z.of_nat (length bs)) 0xfff + 1).
Proof.
  intros [H1 _ H3] Ho. pose proof (round_up (off + Z.of_nat (length bs)) ltac:(lia)) as Hr. unfold roomy. destruct (data d) as [b|]; cbn [from_option id length] in H3.
  - split; [|split; [eauto|done]]. split; [|done]. cbn [mem_resize]. intros p E. apply Some_inj in E. rewrite <-E, length_app, length_replicate. split; [lia|].
    exists b. split; [done|]. apply take_app_le. lia.
  - split; [|split; [by intros [? ?]|eauto]]. split; [done|]. cbn [malloc]. intros p E. apply Some_inj in E. rewrite <-E, length_replicate. lia.
Qed.

(** The allocator is not asked when the block is large enough. *)
Lemma write_in_place ans ans' d off bs : 0 ≤ off → off + Z.of_nat (length bs) ≤ allocated_size d → off + Z.of_nat (length bs) < 2 ^ (W - 1) →
  ramfs_file_write ans d off bs = ramfs_file_write ans' d off bs.
Proof.
  intros Ho Hal Hl. pose proof half. unfold ramfs_file_write. rewrite wraps_small by lia. by destruct (Z.gtb_spec (off + Z.of_nat (length bs)) (allocated_size d)); [lia|].
Qed.
Lemma grows_write ans d off bs : data_ok d → 0 ≤ off ≤ actual_size d → off + Z.of_nat (length bs) + 4096 < 2 ^ (W - 1) →
  (allocated_size d < off + Z.of_nat (length bs) → grows ans (data d) (Z.lor (off + Z.of_nat (length bs)) 0xfff + 1)) →
  ∃ d', ramfs_file_write ans d off bs = Ok (Z.of_nat (length bs), d', off + Z.of_nat (length bs)) ∧ data_ok d' ∧ contents d' = splice (Z.to_nat off) bs (contents d) ∧
    actual_size d' = Z.max (actual_size d) (off + Z.of_nat (length bs)).
Proof.
  intros Hd Ho Hl Hg. assert (∃ ans', ramfs_file_write ans d off bs = ramfs_file_write ans' d off bs ∧ grows ans' (data d) (Z.lor (off + Z.of_nat (length bs)) 0xfff + 1)) as (ans' & -> & Ha & Hr & Hm).
  { destruct (Z.lt_ge_cases (allocated_size d) (off + Z.of_nat (length bs))); [exists ans; auto|]. exists (roomy d bs). split; [apply write_in_place; lia|by apply roomy_grows]. }
  clear ans Hg. rename ans' into ans. destruct (write_spec ans d off bs Hd Ho Hl Ha) as [[_ Hn]|(d' & E & Hd' & Hc)].
  - intros Hs Hn. destruct (Hr Hs) as [? ?]. congruence.
  - exfalso. unfold realloc in Hn. destruct (data d) as [b|].
    + pose proof (round_up (off + Z.of_nat (length bs)) ltac:(lia)). destruct (Z.eqb_spec (Z.lor (off + Z.of_nat (length bs)) 0xfff + 1) 0); [lia|].
      destruct (_ =? _); [done|]. destruct (Hr ltac:(eauto)) as [p Hp]. by rewrite Hp in Hn.
    + destruct (Hm eq_refl) as [? ?]. congruence.
  - exists d'. split_and!; [done|done|done|]. apply (f_equal length) in Hc. rewrite splice_length in Hc by (rewrite contents_length by done; lia).
    rewrite !contents_length in Hc by done. destruct Hd' as [? _ _]. lia.
Qed.

Lemma ramfs_step_spec o w : winv w → allowed o w → let r := ref_op o (contents (w_data w)) (w_offsets w) in
  ∃ w', run_op o w = Ok (r.1.1, w') ∧ winv w' ∧ contents (w_data w') = r.1.2 ∧ w_offsets w' = r.2.
Proof.
  intros [Hd Hoff] Ha r. unfold r. pose proof (contents_length _ Hd) as Hcl. destruct o as [fd|fd size|fd bs ans|fd bs ans|fd o wh]; cbn [run_op ref_op allowed fst snd] in *.
  - eexists. split; [done|]. split; [|done]. split; [done|]. intros fd' off. cbn [w_offsets w_data]. destruct (decide (fd' = fd)) as [->|Hne];
      [rewrite lookup_insert_eq; intros [= <-]; cbn; destruct Hd; lia|rewrite lookup_insert_ne by done; apply Hoff].
  - destruct Ha as [[off Hfd] Hs]. rewrite Hfd. cbn [of_option mbind outcome_bind from_option id]. rewrite read_spec by (done || by eapply Hoff). cbn [mbind outcome_bind].
    eexists. split; [done|]. split; [|done]. split; [done|]. intros fd' o'. cbn [w_offsets w_data]. destruct (decide (fd' = fd)) as [->|Hne];
      [rewrite lookup_insert_eq; intros [= <-]; specialize (Hoff fd off Hfd); rewrite length_take, length_drop, Hcl; lia|rewrite lookup_insert_ne by done; apply Hoff].
  - destruct Ha as (off & Hfd & Hl & Hg). rewrite Hfd. cbn [of_option mbind outcome_bind from_option id].
    destruct (grows_write ans _ off bs Hd (Hoff fd off Hfd) Hl Hg) as (d' & -> & Hd' & Hc & Hac). cbn [mbind outcome_bind].
    eexists. split; [done|]. split; [|done]. split; [done|]. intros fd' o'. cbn [w_offsets w_data]. rewrite Hac. destruct (decide (fd' = fd)) as [->|Hne].
    + rewrite lookup_insert_eq. intros [= <-]. specialize (Hoff fd off Hfd). lia.
    + rewrite lookup_insert_ne by done. intros H. specialize (Hoff fd' o' H). lia.
  - destruct Ha as ([off Hfd] & Hl & Hg). rewrite Hfd. cbn [of_option mbind outcome_bind]. unfold ramfs_file_append.
    assert (0 ≤ actual_size (w_data w) ≤ actual_size (w_data w)) as Hac0 by (destruct Hd; lia).
    destruct (grows_write ans _ _ bs Hd Hac0 Hl Hg) as (d' & -> & Hd' & Hc & Hac). cbn [mbind outcome_bind].
    eexists. split; [done|]. split; [|split].
    + split; [done|]. intros fd' o'. cbn [w_offsets w_data]. rewrite Hac. destruct (decide (fd' = fd)) as [->|Hne].
      * rewrite lookup_insert_eq. intros [= <-]. lia.
      * rewrite lookup_insert_ne by done. intros H. specialize (Hoff fd' o' H). lia.
    + cbn [w_data]. rewrite Hc. unfold splice. rewrite take_ge, drop_ge, app_nil_r by lia. done.
    + cbn [w_offsets]. f_equal. lia.
  - destruct Ha as (off & Hfd & Ht). rewrite Hfd. cbn [of_option mbind outcome_bind from_option id]. rewrite seek_spec; [|done|by eapply Hoff|done]. cbv zeta. cbn [mbind outcome_bind].
    rewrite Hcl, Z2Nat.id by (destruct Hd; lia).
    eexists. split; [done|]. split; [|done]. split; [done|]. intros fd' o'. cbn [w_offsets w_data]. destruct (decide (fd' = fd)) as [->|Hne];
      [rewrite lookup_insert_eq; intros [= <-]; destruct Hd; lia|rewrite lookup_insert_ne by done; apply Hoff].
Qed.

Lemma ramfs_reachable_inv w : reachable w → winv w.
Proof.
  induction 1 as [|o w v w' _ IH Ha Hr].
  - pose proof half. split; [|cbn; set_solver]. split; cbn; lia.
  - destruct (ramfs_step_spec o w IH Ha) as (w2 & E & Hi & _). congruence.
Qed.

(** ** The laws of files *)

(** The size the files stay below. *)
Context (file_limit : Z) (Hlimit : file_limit ≤ 2 ^ (W - 1) - 4097).
Definition file_ok (f : rfile) : Prop := data_ok (rf_data f) ∧ 0 ≤ rf_offset f ≤ actual_size (rf_data f) ∧ actual_size (rf_data f) ≤ file_limit ∧ 1 < rf_refs f.

(** The node keeps its reference, and the allocator always finds memory. *)
Definition ramfs_laws (ans : ramfs_data_s → list Z → answer)
  (Hans : ∀ d off bs, data_ok d → 0 ≤ off ≤ actual_size d → off + Z.of_nat (length bs) ≤ file_limit → grows (ans d bs) (data d) (Z.lor (off + Z.of_nat (length bs)) 0xfff + 1)) :
  @FileLaws rfile (ramfs_ops ans).
Proof.
  pose proof (proj2 half) as Hhalf.
  unshelve econstructor; [exact file_ok|exact (λ f, contents (rf_data f))|exact (λ f, Z.to_nat (rf_offset f))|exact file_limit|..].
  - intros f (Hd & Ho & Hl & _). rewrite contents_length by done. lia.
  - eexists. split; [reflexivity|]. intros f n (Hd & Ho & Hl & Hr) Hn. cbv beta. rewrite read_spec by (done || lia). cbv zeta. cbn [mbind outcome_bind].
    set (bs := take _ _). assert (length bs = Nat.min (Z.to_nat n) (Z.to_nat (actual_size (rf_data f)) - Z.to_nat (rf_offset f))) as Hbs
      by (unfold bs; rewrite length_take, length_drop, contents_length by done; done).
    do 2 eexists. split; [reflexivity|]. cbn [rf_data rf_offset]. split_and!; [unfold file_ok; cbn; split_and!; (done || lia)|done|lia| |lia|].
    + apply take_take_length.
    + intros Hn0 Hlt ->. rewrite contents_length in Hlt by done. cbn in Hbs. lia.
  - eexists. split; [reflexivity|]. intros f bs (Hd & Ho & Hl & Hr) Hn. cbv beta.
    destruct (grows_write (ans (rf_data f) bs) (rf_data f) (rf_offset f) bs Hd Ho) as (d' & -> & Hd' & Hc & Ha); [lia|intros _; apply Hans; [done|done|lia]|].
    cbn [mbind outcome_bind]. do 2 eexists. split; [reflexivity|]. cbn [rf_data rf_offset]. rewrite firstn_all.
    split_and!; [unfold file_ok; cbn; split_and!; (done || lia)|lia|by destruct bs; [|cbn; lia]|done|lia].
  - eexists. split; [reflexivity|]. intros f o w (Hd & Ho & Hl & Hr) Ht. cbv beta. rewrite contents_length in * by done.
    rewrite Z2Nat.id in Ht by lia. rewrite seek_spec by (done || lia). cbv zeta. cbn [mbind outcome_bind].
    rewrite Z.min_l, Z.max_r by lia. eexists. split; [reflexivity|]. cbn [rf_data rf_offset]. split_and!; [unfold file_ok; cbn; split_and!; (done || lia)|done|done].
  - eexists. split; [reflexivity|]. intros f (_ & _ & _ & Hr). unfold ramfs_file_close, ramfs_data_refdrop. destruct (Z.gtb_spec (rf_refs f) 0); [|lia]. cbn [require mbind outcome_bind].
    destruct (Z.eqb_spec (rf_refs f - 1) 0); [lia|]. eexists. by split.
Defined.
End width.

(** ** Theorem *)

(** C27. Open files of one node share a sequence of bytes: in every state that opens,
    reads, writes, appends and seeks can reach, where the allocator extends the block
    in place whenever it has to grow, each of these operations ends without an access
    outside the block, returns what it returns on a list of bytes, and leaves the bytes
    and the offsets that it leaves there; what one descriptor wrote is what the others
    read.  Truncation, a block that the allocator moves and a lack of memory are outside
    of the statement; [realloc_loses_contents], [ramfs_truncate_rounds_up],
    [ramfs_read_past_end] and [ramfs_write_reports_enomem] below show what the code
    does there. *)
Theorem ramfs_files_share_bytes (W : Z) (w : world) (o : op) :
  16 ≤ W → reachable W w → allowed W o w →
  ∃ v w', run_op W o w = Ok (v, w') ∧ (v, contents (w_data w'), w_offsets w') = ref_op o (contents (w_data w)) (w_offsets w).
Proof.
  intros HW Hr%ramfs_reachable_inv Ha; [|done]. destruct (ramfs_step_spec W HW o w Hr Ha) as (w' & E & _ & Hc & Ho). do 2 eexists. split; [exact E|].
  rewrite Hc, Ho. by destruct (ref_op _ _ _) as [[? ?] ?].
Qed.

(** The block always covers the file: writes at any offset, appends and
    truncations, whatever the allocator answers (also when it fails, or moves the
    block), stay inside the block and leave a file whose size is at most the size
    of its block. *)
Theorem ramfs_block_covers_file (W : Z) (a1 a2 a3 : answer) (d : ramfs_data_s) (offset size : Z) (bs : list Z) :
  16 ≤ W → data_ok W d → 0 ≤ offset → offset + Z.of_nat (length bs) + 4096 < 2 ^ (W - 1) → actual_size d + Z.of_nat (length bs) + 4096 < 2 ^ (W - 1) → 0 ≤ size → size + 4096 < 2 ^ (W - 1) →
  answer_ok a1 (data d) (Z.lor (offset + Z.of_nat (length bs)) 0xfff + 1) → answer_ok a2 (data d) (Z.lor (actual_size d + Z.of_nat (length bs)) 0xfff + 1) →
  answer_ok a3 (data d) (Z.lor size 0xfff + 1) →
  (∃ v d' off', ramfs_file_write W a1 d offset bs = Ok (v, d', off') ∧ data_ok W d') ∧
  (∃ v d' off', ramfs_file_append W a2 d offset bs = Ok (v, d', off') ∧ data_ok W d') ∧
  (∃ v d', ramfs_file_truncate a3 d size = Ok (v, d') ∧ data_ok W d').
Proof.
  intros HW Hd Ho Hl1 Hl2 Hs Hl3 Ha1 Ha2 Ha3. split_and!; [|unfold ramfs_file_append|by apply truncate_ok].
  - destruct (write_ok W HW a1 d offset bs Hd Ho Hl1 Ha1) as (v & d' & off' & ? & ? & _). by exists v, d', off'.
  - destruct (write_ok W HW a2 d (actual_size d) bs Hd) as (v & d' & off' & ? & ? & _); [by destruct Hd; lia|done|done|by exists v, d', off'].
Qed.

(** An allocator that has one page. *)
Definition demo_ans : answer := {| mem_resize := None; malloc := Some (replicate 4096 0) |}.
Lemma demo_answer size : size ≤ 4096 → answer_ok demo_ans None size.
Proof. intros H. split; [done|]. intros p. cbn [malloc demo_ans]. intros E. apply Some_inj in E. rewrite <-E, length_replicate. lia. Qed.

Lemma ramfs_block_covers_file_witness :
  (∃ v d' off', ramfs_file_write 32 demo_ans ramfs_data_new 9 [1; 2] = Ok (v, d', off') ∧ data_ok 32 d') ∧
  (∃ v d' off', ramfs_file_append 32 {| mem_resize := None; malloc := None |} ramfs_data_new 9 [1; 2] = Ok (v, d', off') ∧ data_ok 32 d') ∧
  (∃ v d', ramfs_file_truncate demo_ans ramfs_data_new 100 = Ok (v, d') ∧ data_ok 32 d').
Proof. apply ramfs_block_covers_file; [lia|split; cbn; lia|lia|cbn; lia|cbn; lia|lia|lia|apply demo_answer; vm_compute; discriminate|by split|apply demo_answer; vm_compute; discriminate]. Defined.

(** Two descriptors: one writes a line, the other reads it. *)
Definition demo_next (o : op) (w : world) : world := (ok_or (RNone, w) (run_op 32 o w)).2.
Definition demo_world : world := demo_next (OWrite 0 [104; 105; 10] demo_ans) (demo_next (OOpen 1) (demo_next (OOpen 0) {| w_data := ramfs_data_new; w_offsets := ∅ |})).

Lemma demo_reachable_next o w : is_ok (run_op 32 o w) = true → reachable 32 w → allowed 32 o w → reachable 32 (demo_next o w).
Proof.
  intros E Hr Ha. apply (reach_step 32 o w (ok_or (RNone, w) (run_op 32 o w)).1); [done|done|]. unfold demo_next.
  rewrite (ok_or_spec (RNone, w) (run_op 32 o w) E) at 1. by destruct (ok_or _ _).
Qed.
Lemma ramfs_demo_grows size : size ≤ 4096 → grows demo_ans None size.
Proof. intros H. split; [by apply demo_answer|split; [by intros [? ?]|by exists (replicate 4096 0)]]. Qed.
Lemma ramfs_demo_reachable : reachable 32 demo_world.
Proof.
  apply demo_reachable_next; [vm_compute; reflexivity| |].
  - do 2 (apply demo_reachable_next; [vm_compute; reflexivity| |exact I]). constructor.
  - exists 0. split; [vm_compute; reflexivity|]. split; [vm_compute; reflexivity|]. intros _. apply ramfs_demo_grows. vm_compute. discriminate.
Qed.

Lemma ramfs_files_share_bytes_witness :
  ∃ v w', run_op 32 (ORead 1 100) demo_world = Ok (v, w') ∧
    (v, contents (w_data w'), w_offsets w') = ref_op (ORead 1 100) (contents (w_data demo_world)) (w_offsets demo_world).
Proof.
  apply ramfs_files_share_bytes; [lia|apply ramfs_demo_reachable|]. split; [eexists; vm_compute; reflexivity|split; [lia|vm_compute; reflexivity]].
Defined.

(** ** Defects *)

(** A read behind the end, which another descriptor moved by a truncation, returns
    the bytes of the block: the number of bytes that are left is negative, but it is
    compared as an unsigned number. *)
Theorem ramfs_read_past_end (W : Z) (b : list Z) (d : ramfs_data_s) (offset size : Z) :
  2 ≤ W → data d = Some b → 0 ≤ actual_size d < offset → 0 ≤ size → offset + size ≤ Z.of_nat (length b) → Z.of_nat (length b) < 2 ^ (W - 1) →
  ramfs_file_read W d offset size = Ok (size, take (Z.to_nat size) (drop (Z.to_nat offset) b), offset + size).
Proof.
  intros HW Hd Ha Hs Hl Hb. pose proof (pow2_pred W ltac:(lia)) as Hp. unfold ramfs_file_read. rewrite (wraps_small W (actual_size d - offset)) by lia.
  assert (wrapu W (actual_size d - offset) = actual_size d - offset + 2 ^ W) as ->.
  { unfold wrapu. symmetry. apply Z.mod_unique with (-1); lia. }
  destruct (Z.ltb_spec size (actual_size d - offset + 2 ^ W)); [|lia]. rewrite wraps_small by lia. destruct (Z.ltb_spec size 0); [lia|].
  unfold copy_out. rewrite Hd. destruct (Z.eqb_spec size 0) as [->|Hne]; [done|]. cbn [of_option mbind outcome_bind].
  destruct (Z.leb_spec 0 offset); [|lia]. destruct (Z.leb_spec (offset + size) (Z.of_nat (length b))); [done|lia].
Qed.

(** When the block cannot grow the write returns the positive error code, which a
    caller takes for the number of bytes that were written; nothing was. *)
Theorem ramfs_write_reports_enomem (W : Z) (d : ramfs_data_s) (offset : Z) (buffer : list Z) :
  2 ≤ W → 0 ≤ offset → allocated_size d < offset + Z.of_nat (length buffer) < 2 ^ (W - 1) →
  ramfs_file_write W {| mem_resize := None; malloc := None |} d offset buffer = Ok (ENOMEM, d, offset) ∨
  ∃ b, data d = Some b ∧ Z.of_nat (length b) = Z.lor (offset + Z.of_nat (length buffer)) 0xfff + 1.
Proof.
  intros HW Ho Hl. unfold ramfs_file_write. rewrite wraps_small by (pose proof (pow2_pos (W - 1) ltac:(lia)); lia).
  destruct (Z.gtb_spec (offset + Z.of_nat (length buffer)) (allocated_size d)); [|lia]. unfold ramfs_data_realloc, realloc. cbn [mem_resize malloc].
  destruct (data d) as [b|]; [|by left]. pose proof (round_up (offset + Z.of_nat (length buffer)) ltac:(lia)). destruct (Z.eqb_spec (Z.lor (offset + Z.of_nat (length buffer)) 0xfff + 1) 0); [lia|].
  destruct (Z.eqb_spec (Z.of_nat (length b)) (Z.lor (offset + Z.of_nat (length buffer)) 0xfff + 1)); [right; by exists b|by left].
Qed.

(** A file that is extended beyond its block gets the size of the block. *)
Theorem ramfs_truncate_rounds_up : ∃ d, ramfs_file_truncate demo_ans ramfs_data_new 10 = Ok (0, d) ∧ actual_size d = 4096.
Proof. eexists. split; [vm_compute; reflexivity|reflexivity]. Qed.

(** A file that is shortened and extended again shows its former bytes. *)
Theorem ramfs_truncate_keeps_old_bytes (ans : answer) (b : list Z) (actual k : Z) :
  ('(_, d) ← ramfs_file_truncate ans {| data := Some b; allocated_size := Z.of_nat (length b); actual_size := actual |} 0;
   '(_, d) ← ramfs_file_truncate ans d k; Ok (contents d)) = Ok (take (Z.to_nat k) b) ∨ k > Z.of_nat (length b).
Proof.
  unfold ramfs_file_truncate. cbn [allocated_size data]. destruct (Z.gtb_spec 0 (Z.of_nat (length b))); [lia|]. cbn [mbind outcome_bind allocated_size data].
  destruct (Z.gtb_spec k (Z.of_nat (length b))); [right; lia|by left].
Qed.

(** When a block has to move, its contents are not copied. *)
Theorem realloc_loses_contents (b p : list Z) (size : Z) :
  size ≠ 0 → Z.of_nat (length b) ≠ size → realloc {| mem_resize := None; malloc := Some p |} (Some b) size = Some p.
Proof. intros H1 H2. unfold realloc. destruct (Z.eqb_spec size 0); [done|]. by destruct (Z.eqb_spec (Z.of_nat (length b)) size). Qed.
End RamfsFile.
