(* ===== verification/Stdio.v ===== *)
(** * Buffered streams (libc/stdio.c, stdio.h)

    A stream keeps two rings in front of a file: data that was read ahead and data
    that is not written yet.  The operations are proved against any file that
    satisfies the laws of [FileOps]: a program that follows the rules of the C
    standard on alternating reads and writes cannot tell the stream from the file
    itself. *)

From S2P Require Import Prelude FileOps Ring.
Import FileOps.

Module Stdio.

(** ** Data *)

Definition EOF : Z := -1.
Inductive stdio_buf_mode_e := IONBF | IOLBF | IOFBF.
(** The functions [rwflush] points to. *)
Inductive flush := stdio_no_flush | stdio_write_flush_f | stdio_read_flush_f.

Record FILE (F : Type) := {
  hndl : F; rwflush : flush; fifo_read : Ring.root Z; fifo_write : Ring.root Z;
  pos : Z; buf_mode : stdio_buf_mode_e; eof : bool; error : bool }.
Arguments hndl {F} _.
Arguments rwflush {F} _.
Arguments fifo_read {F} _.
Arguments fifo_write {F} _.
Arguments pos {F} _.
Arguments buf_mode {F} _.
Arguments eof {F} _.
Arguments error {F} _.

Section ops.
Context {F : Type} {ops : FileOps F}.
(** The widths of size_t and error_t, the logarithm of the size of the buffers, the
    bytes an uninitialised buffer of that size holds on the stack. *)
Context (W We n : Z) (junk : list Z).
(** How often a loop on [read] or [write] turns at most: a device that transfers
    nothing and reports no error would be asked for ever. *)
Context (fuel : nat).

Definition BUFSIZ : Z := 2 ^ n.
(** [fpos_t] is an int32_t. *)
Definition fpos (x : Z) : Z := wraps 32 x.
(** The value of a call that is returned as an error_t. *)
Definition error_t (x : Z) : Z := wraps We x.

Definition set_hndl (h : F) (s : FILE F) := {| hndl := h; rwflush := rwflush s; fifo_read := fifo_read s; fifo_write := fifo_write s; pos := pos s; buf_mode := buf_mode s; eof := eof s; error := error s |}.
Definition set_rwflush (f : flush) (s : FILE F) := {| hndl := hndl s; rwflush := f; fifo_read := fifo_read s; fifo_write := fifo_write s; pos := pos s; buf_mode := buf_mode s; eof := eof s; error := error s |}.
Definition set_fifo_read (r : Ring.root Z) (s : FILE F) := {| hndl := hndl s; rwflush := rwflush s; fifo_read := r; fifo_write := fifo_write s; pos := pos s; buf_mode := buf_mode s; eof := eof s; error := error s |}.
Definition set_fifo_write (r : Ring.root Z) (s : FILE F) := {| hndl := hndl s; rwflush := rwflush s; fifo_read := fifo_read s; fifo_write := r; pos := pos s; buf_mode := buf_mode s; eof := eof s; error := error s |}.
Definition set_pos (p : Z) (s : FILE F) := {| hndl := hndl s; rwflush := rwflush s; fifo_read := fifo_read s; fifo_write := fifo_write s; pos := p; buf_mode := buf_mode s; eof := eof s; error := error s |}.
Definition set_mode (m : stdio_buf_mode_e) (s : FILE F) := {| hndl := hndl s; rwflush := rwflush s; fifo_read := fifo_read s; fifo_write := fifo_write s; pos := pos s; buf_mode := m; eof := eof s; error := error s |}.
Definition set_eof (b : bool) (s : FILE F) := {| hndl := hndl s; rwflush := rwflush s; fifo_read := fifo_read s; fifo_write := fifo_write s; pos := pos s; buf_mode := buf_mode s; eof := b; error := error s |}.
Definition set_error (b : bool) (s : FILE F) := {| hndl := hndl s; rwflush := rwflush s; fifo_read := fifo_read s; fifo_write := fifo_write s; pos := pos s; buf_mode := buf_mode s; eof := eof s; error := b |}.
Definition add_pos (k : Z) (s : FILE F) := set_pos (fpos (pos s + k)) s.
Definition length_z (l : list Z) : Z := Z.of_nat (length l).

(** A call through the table; a missing function is called through NULL, and a
    device that transfers more than it was asked for overruns the buffer. *)
Definition do_read (s : FILE F) (size : Z) : outcome (Z * list Z * FILE F) :=
  rd ← of_option FUndef f_read;
  '(res, bs, h) ← rd (hndl s) size;
  require ((res <=? 0) || (res =? length_z bs) && (res <=? size)) FBounds;;
  Ok (res, bs, set_hndl h s).
Definition do_write (s : FILE F) (ptr : list Z) : outcome (Z * FILE F) :=
  wr ← of_option FUndef f_write;
  '(res, h) ← wr (hndl s) ptr;
  require (res <=? length_z ptr) FBounds;;
  Ok (res, set_hndl h s).
Definition do_lseek (s : FILE F) (o : Z) (w : whence) : outcome (Z * FILE F) :=
  sk ← of_option FUndef f_lseek;
  '(res, h) ← sk (hndl s) o w;
  Ok (res, set_hndl h s).

(** ** Operations *)

Fixpoint write_flush_loop (fuel : nat) (ptr : list Z) (s : FILE F) : outcome (Z * FILE F) :=
  match ptr, fuel with
  | [], _ => Ok (0, set_rwflush stdio_no_flush s)
  | _, O => Err FFuel
  | _, S fuel =>
      '(res, s) ← do_write s ptr;
      if res <? 0 then
        let s := set_error true s in
        '(_, r) ← Ring.pushback_array W n (fifo_write s) ptr;
        Ok (error_t res, set_fifo_write r s)
      else
        write_flush_loop fuel (drop (Z.to_nat res) ptr) s
  end.
Definition stdio_write_flush (s : FILE F) : outcome (Z * FILE F) :=
  '(ptr, r) ← Ring.pop_array W n (fifo_write s) BUFSIZ;
  write_flush_loop fuel ptr (set_fifo_write r s).

Definition stdio_read_flush (s : FILE F) : outcome (Z * FILE F) :=
  '(_, s) ← do_lseek s (pos s) SEEK_SET;
  let s := set_fifo_read (Ring.clear (fifo_read s)) s in
  Ok (0, set_rwflush stdio_no_flush s).

Definition call_rwflush (s : FILE F) : outcome (Z * FILE F) :=
  match rwflush s with
  | stdio_no_flush => Ok (0, s)
  | stdio_write_flush_f => stdio_write_flush s
  | stdio_read_flush_f => stdio_read_flush s
  end.

(** The loops give what they store at [ptr]. *)
Fixpoint unbuffered_read_loop (fuel : nat) (size : Z) (s : FILE F) : outcome (Z * list Z * FILE F) :=
  if size =? 0 then Ok (1, [], s) else
  match fuel with
  | O => Err FFuel
  | S fuel =>
      '(res, bs, s) ← do_read s size;
      if res <=? 0 then
        Ok (error_t res, bs, if res =? 0 then set_eof true s else set_error true s)
      else
        '(r, bs', s) ← unbuffered_read_loop fuel (size - res) (add_pos res s);
        Ok (r, bs ++ bs', s)
  end.
Definition unbuffered_read (size : Z) (s : FILE F) : outcome (Z * list Z * FILE F) := unbuffered_read_loop fuel size s.

(** Whole blocks; [None] goes on with the bytes that are left to read. *)
Fixpoint direct_read_loop (fuel : nat) (size : Z) (s : FILE F) : outcome (option Z * list Z * Z * FILE F) :=
  if size >? BUFSIZ then
    match fuel with
    | O => Err FFuel
    | S fuel =>
        '(res, bs, s) ← do_read s (size / BUFSIZ * BUFSIZ);
        if res <=? 0 then
          Ok (Some (error_t res), bs, size, if res =? 0 then set_eof true s else set_error true s)
        else
            '(r, bs', size, s) ← direct_read_loop fuel (size - res) (add_pos res (set_eof false s));
          Ok (r, bs ++ bs', size, s)
    end
  else Ok (None, [], size, s).

(** Reads into [local], which already holds [l]. *)
Fixpoint local_read_loop (fuel : nat) (size : Z) (l : list Z) (s : FILE F) : outcome (option Z * list Z * FILE F) :=
  if length_z l <? size then
    match fuel with
    | O => Err FFuel
    | S fuel =>
        '(res, bs, s) ← do_read s (BUFSIZ - length_z l);
        if res <? 0 then Ok (Some (error_t res), l, set_error true s)
        else if res =? 0 then Ok (None, l, s)
        else local_read_loop fuel size (l ++ bs) s
    end
  else Ok (None, l, s).

(** The end of a buffered read: [l] is what [local] holds. *)
Definition buffered_read_end (size : Z) (l : list Z) (s : FILE F) : outcome (Z * list Z * FILE F) :=
  let out := take (Z.to_nat size) (l ++ drop (length l) junk) in
  let s := add_pos size s in
  if length_z l >=? size then
    if length_z l >? size then
      '(_, r) ← Ring.pushback_array W n (fifo_read s) (drop (Z.to_nat size) l);
      Ok (1, out, set_rwflush stdio_read_flush_f (set_fifo_read r s))
    else Ok (1, out, s)
  else Ok (0, out, set_eof true s).

Definition buffered_read (size : Z) (s : FILE F) : outcome (Z * list Z * FILE F) :=
  '(b1, r) ← Ring.pop_array W n (fifo_read s) size;
  let size := size - length_z b1 in
  let s := add_pos (length_z b1) (set_fifo_read r s) in
  '(ret, b2, size, s) ← (if negb (size =? 0) then direct_read_loop fuel size (set_rwflush stdio_no_flush s) else Ok (None, [], size, s));
  match ret with
  | Some res => Ok (res, b1 ++ b2, s)
  | None =>
      '(ret, l, s) ← local_read_loop fuel size [] s;
      match ret with
      | Some res => Ok (res, b1 ++ b2, s)
      | None =>
          '(res, b3, s) ← buffered_read_end size l s;
          Ok (res, b1 ++ b2 ++ b3, s)
      end
  end.

Definition stdio_read (size : Z) (s : FILE F) : outcome (Z * list Z * FILE F) :=
  match f_read with
  | None => Ok (- EINVAL, [], s)
  | Some _ =>
      match buf_mode s with
      | IONBF | IOLBF => unbuffered_read size s
      | IOFBF => buffered_read size s
      end
  end.

Fixpoint unbuffered_write_loop (fuel : nat) (ptr : list Z) (s : FILE F) : outcome (Z * FILE F) :=
  match ptr, fuel with
  | [], _ => Ok (0, s)
  | _, O => Err FFuel
  | _, S fuel =>
      '(res, s) ← do_write s ptr;
      if res <? 0 then Ok (error_t res, set_error true s)
      else
        unbuffered_write_loop fuel (drop (Z.to_nat res) ptr) (add_pos res s)
  end.
Definition unbuffered_write (ptr : list Z) (s : FILE F) : outcome (Z * FILE F) := unbuffered_write_loop fuel ptr s.

(** Data larger than the buffer is written at once; the rest is left. *)
Fixpoint direct_write_loop (fuel : nat) (ptr : list Z) (s : FILE F) : outcome (Z * list Z * FILE F) :=
  if length_z ptr >? BUFSIZ then
    match fuel with
    | O => Err FFuel
    | S fuel =>
        '(res, s) ← do_write s ptr;
        if res <? 0 then Ok (error_t res, ptr, set_error true s)
        else
            direct_write_loop fuel (drop (Z.to_nat res) ptr) (add_pos res s)
    end
  else Ok (0, ptr, s).

Definition fill_write (ptr : list Z) (s : FILE F) : outcome (Z * FILE F) :=
  '(_, r) ← Ring.pushback_array W n (fifo_write s) ptr;
  Ok (0, set_rwflush stdio_write_flush_f (add_pos (length_z ptr) (set_fifo_write r s))).

Definition block_write (ptr : list Z) (s : FILE F) : outcome (Z * FILE F) :=
  if wrapu W (Ring.count (fifo_write s) + length_z ptr) >? BUFSIZ then
    '(res, s) ← stdio_write_flush s;
    if negb (res =? 0) then Ok (res, s) else
    '(res, ptr, s) ← direct_write_loop fuel ptr s;
    if negb (res =? 0) then Ok (res, s) else
    fill_write ptr s
  else fill_write ptr s.

(** The number of bytes up to the last end of line. *)
Fixpoint last_eol (i : nat) (ptr : list Z) : nat :=
  match i with
  | O => O
  | S i' => if default 0 (ptr !! i') =? 10 then i else last_eol i' ptr
  end.

Definition line_write (ptr : list Z) (s : FILE F) : outcome (Z * FILE F) :=
  match last_eol (length ptr) ptr with
  | O => block_write ptr s
  | i =>
      '(res, s) ← stdio_write_flush s;
      if negb (res =? 0) then Ok (res, s) else
      '(res, s) ← unbuffered_write (take i ptr) s;
      if negb (res =? 0) then Ok (res, s) else
      block_write (drop i ptr) s
  end.

Definition stdio_write (ptr : list Z) (s : FILE F) : outcome (Z * FILE F) :=
  match f_write with
  | None => Ok (- EINVAL, s)
  | Some _ =>
      match buf_mode s with
      | IONBF => unbuffered_write ptr s
      | IOLBF => line_write ptr s
      | IOFBF => block_write ptr s
      end
  end.

(** The stream and whether it is still allocated. *)
Definition fclose (s : FILE F) : outcome (Z * FILE F * bool) :=
  match f_close with
  | None => Ok (- EINVAL, s, true)
  | Some cl =>
      '(err, s) ← call_rwflush s;
      if negb (err =? 0) then Ok (err, s, true) else
      '(err, h) ← cl (hndl s);
      let s := set_hndl h s in
      if negb (err =? 0) then Ok (err, s, true) else
      Ok (err, s, false)
  end.

Definition fflush (s : FILE F) : outcome (Z * FILE F) :=
  match f_write with None => Ok (- EINVAL, s) | Some _ => stdio_write_flush s end.
Definition fpurge (s : FILE F) : outcome (Z * FILE F) :=
  match f_read with None => Ok (- EINVAL, s) | Some _ => stdio_read_flush s end.

(** The number of members that were read and what is stored. *)
Fixpoint fread_loop (members : nat) (i : Z) (size : Z) (s : FILE F) : outcome (Z * list Z * FILE F) :=
  match members with
  | O => Ok (i, [], s)
  | S members =>
      '(res, bs, s) ← stdio_read size s;
      if res <=? 0 then Ok (i, bs, s) else
      '(i, bs', s) ← fread_loop members (i + 1) size s;
      Ok (i, bs ++ bs', s)
  end.
Definition fread (size : Z) (nmemb : nat) (s : FILE F) : outcome (Z * list Z * FILE F) := fread_loop nmemb 0 size s.

Fixpoint fwrite_loop (members : nat) (i : Z) (ptr : list Z) (size : nat) (s : FILE F) : outcome (Z * FILE F) :=
  match members with
  | O => Ok (i, s)
  | S members =>
      '(res, s) ← stdio_write (take size ptr) s;
      if negb (res =? 0) then Ok (i, s) else
      fwrite_loop members (i + 1) (drop size ptr) size s
  end.
Definition fwrite (ptr : list Z) (size nmemb : nat) (s : FILE F) : outcome (Z * FILE F) := fwrite_loop nmemb 0 ptr size s.

(** The table declares [lseek] as a function that returns an error_t. *)
Definition fseek (s : FILE F) (offset : Z) (w : whence) : outcome (Z * FILE F) :=
  match f_lseek with
  | None => Ok (EOF, s)
  | Some _ =>
      '(_, s) ← call_rwflush s;
      '(v, s) ← do_lseek s offset w;
      let s := set_pos (fpos (error_t v)) s in
      Ok (if pos s >=? 0 then 0 else EOF, s)
  end.

Definition fgetc (s : FILE F) : outcome (Z * FILE F) :=
  '(res, bs, s) ← stdio_read 1 s;
  if res <=? 0 then Ok (EOF, s) else
  c ← of_option FUndef (head bs);
  Ok (c, s).

Definition ungetc (c : Z) (s : FILE F) : outcome (Z * FILE F) :=
  '(ok, r) ← Ring.push W n (fifo_read s) (wrapu 8 c);
  Ok (if negb (ok =? 0) then c else EOF, set_fifo_read r s).

(** [size - 1] turns at most.  The pointer that is returned, NULL or the string,
    and what is stored there. *)
Fixpoint fgets_loop (members : nat) (ret : bool) (s : FILE F) : outcome (bool * list Z * FILE F) :=
  match members with
  | O => Ok (ret, [0], s)
  | S members =>
      '(res, bs, s) ← stdio_read 1 s;
      if res =? 0 then Ok (ret, [0], s)
      else if res <? 0 then Ok (false, bs, s)
      else
        c ← of_option FUndef (head bs);
        if c =? 10 then Ok (true, [c; 0], s) else
        '(ret, str, s) ← fgets_loop members true s;
        Ok (ret, c :: str, s)
  end.
Definition fgets (size : nat) (s : FILE F) : outcome (bool * list Z * FILE F) := fgets_loop (size - 1) false s.

Definition fputc (c : Z) (s : FILE F) : outcome (Z * FILE F) :=
  '(res, s) ← stdio_write [c] s;
  Ok (if negb (res =? 0) then EOF else c, s).
(** The string without its zero. *)
Definition fputs (str : list Z) (s : FILE F) : outcome (Z * FILE F) :=
  '(res, s) ← stdio_write str s;
  Ok (if negb (res =? 0) then EOF else 0, s).

Definition setvbuf (mode : stdio_buf_mode_e) (s : FILE F) : outcome (Z * FILE F) :=
  '(_, s) ← call_rwflush s;
  Ok (0, set_mode mode s).

Definition ftell (s : FILE F) : Z := pos s.
Definition rewind (s : FILE F) : outcome (FILE F) := '(_, s) ← fseek s 0 SEEK_SET; Ok s.
Definition fsetpos (p : Z) (s : FILE F) : outcome (Z * FILE F) := fseek s p SEEK_SET.
Definition clearerr (s : FILE F) : FILE F := set_eof false (set_error false s).

(** The arrays of the rings are not initialised. *)
Definition stdio_stream_init (h : F) (d1 d2 : list Z) : FILE F :=
  {| hndl := h; rwflush := stdio_no_flush; fifo_read := Ring.init d1; fifo_write := Ring.init d2; pos := 0; buf_mode := IONBF; eof := false; error := false |}.
(** [fopen] once the file is open. *)
Definition fopen_stream (h : F) (d1 d2 : list Z) : outcome (FILE F) :=
  let s := stdio_stream_init h d1 d2 in
  '(p, s) ← do_lseek s 0 SEEK_CUR;
  Ok (set_mode IOFBF (set_pos (fpos p) s)).
End ops.

(** The characters of the mode; an unknown one gives no flag at all. *)
Fixpoint open_flags_loop (flags : Z) (str : list Z) : Z :=
  match str with
  | [] => flags
  | c :: str =>
      if c =? 114 then open_flags_loop (Z.lor flags VFS_OPEN_READ) str
      else if c =? 119 then open_flags_loop (Z.lor flags (Z.lor VFS_OPEN_WRITE (Z.lor VFS_OPEN_CREATE VFS_OPEN_TRUNCATE))) str
      else if c =? 43 then open_flags_loop (Z.lor flags (Z.lor VFS_OPEN_READ VFS_OPEN_WRITE)) str
      else if c =? 97 then open_flags_loop (Z.lor flags (Z.lor VFS_OPEN_WRITE VFS_OPEN_APPEND)) str
      else if c =? 98 then open_flags_loop flags str
      else 0
  end.
Definition open_flags (str : list Z) : Z := open_flags_loop 0 str.

(** [alloc]: the stream could be allocated; [vfs_open] gives an error or the file.
    The stream, or NULL with the value of [errno]. *)
Definition fopen {F} {ops : FileOps F} (alloc : bool) (vfs_open : Z → Z * option F) (mode : list Z) (d1 d2 : list Z) : outcome (option (FILE F) * Z) :=
  let flags := open_flags mode in
  if negb alloc then Ok (None, ENOMEM) else
  let '(err, h) := vfs_open flags in
  if negb (err =? 0) then Ok (None, - err) else
  h ← of_option FUndef h;
  s ← fopen_stream h d1 d2;
  Ok (Some s, 0).
End Stdio.
