(* ===== verification/StdioSpec.v ===== *)
(** * Buffered streams behave as the file (libc/stdio.c)

    The reference is a list of bytes with a position.  The file defines it with the
    rules a program has to follow, which are narrower than those of the C standard
    where the code departs from it, proves that a stream simulates it on every file
    that satisfies the laws of [FileOps], that a failing flush keeps what is not
    written, and composes the streams with the files of the memory file system. *)

From stdpp Require Import gmap.
From S2P Require Import Prelude FileOps Ring RamfsFile Stdio.
Import FileOps Stdio.

Module StdioSpec.

(** ** The reference *)

(** What was done last: an update stream needs a flush or a seek between a read
    and a write, unless the read met the end of the file. *)
Inductive dir := Free | Reading | Writing.
Definition is_reading (d : dir) : bool := match d with Reading => true | _ => false end.
Definition is_writing (d : dir) : bool := match d with Writing => true | _ => false end.
(** [rknown]: [ftell] is meaningful; it is not after a read that met the end. *)
Record ref := { rc : list Z; rp : nat; rknown : bool; rdir : dir }.

Inductive op := OFread (size nmemb : nat) | OFwrite (ptr : list Z) (size nmemb : nat) | OFgetc | OFgets (size : nat) | OFputc (c : Z) | OFputs (str : list Z)
  | OFseek (o : Z) (w : whence) | OFflush | OFpurge | OSetvbuf (m : stdio_buf_mode_e) | OFtell.
Inductive res := RVal (v : Z) | RBuf (i : Z) (bs : list Z) | RStr (ret : bool) (str : list Z).

(** The rest of the line, at most [k] bytes. *)
Fixpoint line (k : nat) (l : list Z) : list Z :=
  match k, l with
  | S k, c :: l => if c =? 10 then [c] else c :: line k l
  | _, _ => []
  end.
(** Whether a line of at most [k] bytes is read without meeting the end. *)
Fixpoint line_ends (k : nat) (l : list Z) : bool :=
  match k, l with
  | O, _ => true
  | S k, c :: l => (c =? 10) || line_ends k l
  | S _, [] => false
  end.

Definition after_read (k : nat) (complete : bool) (g : ref) : ref :=
  if complete then {| rc := rc g; rp := rp g + k; rknown := rknown g; rdir := Reading |}
  else {| rc := rc g; rp := length (rc g); rknown := false; rdir := Free |}.
Definition after_write (bs : list Z) (g : ref) : ref :=
  {| rc := splice (rp g) bs (rc g); rp := rp g + length bs; rknown := rknown g; rdir := Writing |}.
Definition at_pos (p : nat) (g : ref) : ref := {| rc := rc g; rp := p; rknown := true; rdir := Free |}.
Definition freed (g : ref) : ref := {| rc := rc g; rp := rp g; rknown := rknown g; rdir := Free |}.

(** The result on the list of bytes; [None] where the operation is not covered: a write
    right after a read or the reverse, a transfer above the limit, a seek that leaves
    the file, a question for the position after a read that met the end. *)
Definition ref_op (limit : Z) (o : op) (g : ref) : option (res * ref) :=
  let rest := drop (rp g) (rc g) in
  let reads (v : res) (g' : ref) := if is_writing (rdir g) then None else Some (v, g') in
  let writes (v : res) (bs : list Z) := if is_reading (rdir g) || (limit <? Z.of_nat (rp g + length bs)) then None else Some (v, after_write bs g) in
  match o with
  | OFread size nmemb =>
      if limit <? Z.of_nat size then None else
      if (size * nmemb <=? length rest)%nat then reads (RBuf (Z.of_nat nmemb) (take (size * nmemb) rest)) (after_read (size * nmemb) true g)
      else reads (RBuf (Z.of_nat (length rest / size)) rest) (after_read 0 false g)
  | OFwrite ptr size nmemb => if (length ptr =? size * nmemb)%nat then writes (RVal (Z.of_nat nmemb)) ptr else None
  | OFgetc => match rest with c :: _ => reads (RVal c) (after_read 1 true g) | [] => reads (RVal EOF) (after_read 0 false g) end
  | OFgets size => let l := line (size - 1) rest in reads (RStr (match l with [] => false | _ => true end) (l ++ [0])) (after_read (length l) (line_ends (size - 1) rest) g)
  | OFputc c => writes (RVal c) [c]
  | OFputs str => writes (RVal 0) str
  | OFseek o w =>
      let t := seek_base w (length (rc g)) (rp g) + o in
      if (0 <=? t) && (t <=? Z.of_nat (length (rc g))) then Some (RVal 0, at_pos (Z.to_nat t) g) else None
  | OFflush => if is_reading (rdir g) then None else Some (RVal 0, freed g)
  | OFpurge => if is_writing (rdir g) || negb (rknown g) then None else Some (RVal 0, freed g)
  | OSetvbuf _ => Some (RVal 0, freed g)
  | OFtell => if rknown g then Some (RVal (Z.of_nat (rp g)), g) else None
  end.

Fixpoint ref_run (limit : Z) (l : list op) (g : ref) : option (list res * ref) :=
  match l with
  | [] => Some ([], g)
  | o :: l =>
      match ref_op limit o g with
      | None => None
      | Some (v, g) => match ref_run limit l g with None => None | Some (vs, g) => Some (v :: vs, g) end
      end
  end.

Section run.
Context {F : Type} {ops : FileOps F} (W We n : Z) (junk : list Z) (fuel : nat).

Definition run_op (o : op) (s : FILE F) : outcome (res * FILE F) :=
  match o with
  | OFread size nmemb => '(i, bs, s) ← fread W We n junk fuel (Z.of_nat size) nmemb s; Ok (RBuf i bs, s)
  | OFwrite ptr size nmemb => '(v, s) ← fwrite W We n fuel ptr size nmemb s; Ok (RVal v, s)
  | OFgetc => '(v, s) ← fgetc W We n junk fuel s; Ok (RVal v, s)
  | OFgets size => '(b, str, s) ← fgets W We n junk fuel size s; Ok (RStr b str, s)
  | OFputc c => '(v, s) ← fputc W We n fuel c s; Ok (RVal v, s)
  | OFputs str => '(v, s) ← fputs W We n fuel str s; Ok (RVal v, s)
  | OFseek o w => '(v, s) ← fseek W We n fuel s o w; Ok (RVal v, s)
  | OFflush => '(v, s) ← fflush W We n fuel s; Ok (RVal v, s)
  | OFpurge => '(v, s) ← fpurge s; Ok (RVal v, s)
  | OSetvbuf m => '(v, s) ← setvbuf W We n fuel m s; Ok (RVal v, s)
  | OFtell => Ok (RVal (ftell s), s)
  end.
Fixpoint run (l : list op) (s : FILE F) : outcome (list res * FILE F) :=
  match l with
  | [] => Ok ([], s)
  | o :: l => '(v, s) ← run_op o s; '(vs, s) ← run l s; Ok (v :: vs, s)
  end.
End run.

(** The results agree; behind the bytes that were read a buffer may hold anything. *)
Definition res_match (impl spec : res) : Prop :=
  match impl, spec with
  | RBuf i bs, RBuf i' bs' => i = i' ∧ bs' = take (length bs') bs
  | a, b => a = b
  end.

(** ** The simulation *)

(** The sizes a configuration has to respect. *)
Record config (limit W We n : Z) (junk : list Z) (fuel : nat) : Prop := {
  cfg_n : 0 ≤ n < W;
  cfg_junk : length junk = Z.to_nat (2 ^ n);
  cfg_buf : 2 ^ n ≤ limit;
  cfg_pos : limit < 2 ^ 31;
  cfg_error : 1 ≤ We ∧ limit < 2 ^ (We - 1);
  cfg_size : limit + 2 ^ n < 2 ^ W;
  cfg_fuel : limit ≤ Z.of_nat fuel }.
Arguments cfg_n {_ _ _ _ _ _} _.
Arguments cfg_buf {_ _ _ _ _ _} _.
Arguments cfg_pos {_ _ _ _ _ _} _.
Arguments cfg_error {_ _ _ _ _ _} _.
Arguments cfg_size {_ _ _ _ _ _} _.
Arguments cfg_fuel {_ _ _ _ _ _} _.

Section sim.
Context {F : Type} {ops : FileOps F} {laws : FileLaws F} (W We n : Z) (junk : list Z) (fuel : nat).
Context (cfg : config f_limit W We n junk fuel).

(** The file at offset [o] of the contents [c], and what the rings hold. *)
Record base (s : FILE F) (c : list Z) (o : nat) (lr lw : list Z) : Prop := {
  b_ok : f_ok (hndl s);
  b_contents : f_contents (hndl s) = c;
  b_offset : f_offset (hndl s) = o;
  b_read : Ring.rep W n (fifo_read s) lr;
  b_write : Ring.rep W n (fifo_write s) lw }.
Definition same (s s' : FILE F) : Prop := rwflush s' = rwflush s ∧ buf_mode s' = buf_mode s.
Definition tracks (s : FILE F) (p : nat) (s' : FILE F) (p' : nat) : Prop := pos s = Z.of_nat p → pos s' = Z.of_nat p'.

Lemma base_len s c o lr lw : base s c o lr lw → (o ≤ length c)%nat ∧ Z.of_nat (length c) ≤ f_limit.
Proof. intros [H <- <- _ _]. by apply f_ok_offset. Qed.
Lemma base_w s c o lr lw : base s c o lr lw → Z.of_nat (length lw) ≤ 2 ^ n.
Proof. intros [_ _ _ _ H]. apply H. Qed.
Lemma add_pos_tracks k s p m : Z.of_nat (p + k) ≤ f_limit → m = Z.of_nat k → tracks s p (add_pos m s) (p + k).
Proof.
  intros Hk -> H. unfold add_pos. cbn [pos set_pos]. unfold fpos. rewrite H. pose proof (cfg_pos cfg). rewrite wraps_small; [lia|lia|].
  change (2 ^ (32 - 1)) with (2 ^ 31). lia.
Qed.

(** Updates of the other fields. *)
Lemma base_set s s' c o lr lw : base s c o lr lw → hndl s' = hndl s → fifo_read s' = fifo_read s → fifo_write s' = fifo_write s → base s' c o lr lw.
Proof. intros [? ? ? ? ?] Hh Hr Hw. split; by rewrite ?Hh, ?Hr, ?Hw. Qed.

Lemma do_read_spec s c o lr lw size : base s c o lr lw → 0 ≤ size ≤ f_limit → ∃ bs h, do_read s size = Ok (Z.of_nat (length bs), bs, set_hndl h s) ∧
  base (set_hndl h s) c (o + length bs) lr lw ∧ bs = take (length bs) (drop o c) ∧ Z.of_nat (length bs) ≤ size ∧ (0 < size → (o < length c)%nat → bs ≠ []).
Proof.
  intros [Hok Hc Ho Hr Hw] Hs. destruct f_read_law as (rd & Hrd & Hl). destruct (Hl _ size Hok Hs) as (bs & h & E & Hok' & Hc' & Ho' & Hbs & Hle & Hp).
  exists bs, h. unfold do_read. rewrite Hrd. cbn [of_option mbind outcome_bind]. rewrite E. cbn [mbind outcome_bind].
  unfold length_z. rewrite Z.eqb_refl. destruct (Z.leb_spec (Z.of_nat (length bs)) size); [|lia]. rewrite orb_true_r. cbn [require mbind outcome_bind].
  rewrite Hc in *. rewrite Ho in *. split_and!; [done|by split|done|done|done].
Qed.

Lemma do_write_spec s c o lr lw bs : base s c o lr lw → Z.of_nat (o + length bs) ≤ f_limit → ∃ k h, do_write s bs = Ok (Z.of_nat k, set_hndl h s) ∧
  base (set_hndl h s) (splice o (take k bs) c) (o + k) lr lw ∧ (k ≤ length bs)%nat ∧ (bs ≠ [] → (0 < k)%nat).
Proof.
  intros [Hok Hc Ho Hr Hw] Hs. destruct f_write_law as (wr & Hwr & Hl). rewrite <-Ho in Hs. destruct (Hl _ bs Hok Hs) as (k & h & E & Hok' & Hk & Hp & Hc' & Ho').
  exists k, h. unfold do_write. rewrite Hwr. cbn [of_option mbind outcome_bind]. rewrite E. cbn [mbind outcome_bind].
  unfold length_z. destruct (Z.leb_spec (Z.of_nat k) (Z.of_nat (length bs))); [|lia]. cbn [require mbind outcome_bind].
  rewrite Hc in *. rewrite Ho in *. split_and!; [done|by split|done|done].
Qed.

Lemma do_lseek_spec s c o lr lw x w : base s c o lr lw → let t := seek_base w (length c) o + x in 0 ≤ t ≤ Z.of_nat (length c) →
  ∃ h, do_lseek s x w = Ok (t, set_hndl h s) ∧ base (set_hndl h s) c (Z.to_nat t) lr lw.
Proof.
  intros [Hok Hc Ho Hr Hw] t Ht. destruct f_lseek_law as (sk & Hsk & Hl). unfold t in *. rewrite <-Hc, <-Ho in *. destruct (Hl _ x w Hok Ht) as (h & E & Hok' & Hc' & Ho').
  exists h. unfold do_lseek. rewrite Hsk. cbn [of_option mbind outcome_bind]. rewrite E. cbn [mbind outcome_bind]. split; [done|]. by split.
Qed.

(** *** Writes *)

Lemma splice_take_drop o k bs c : (o ≤ length c)%nat → (k ≤ length bs)%nat → splice (o + k) (drop k bs) (splice o (take k bs) c) = splice o bs c.
Proof. intros Ho Hk. rewrite <-(length_take_le bs k) at 1 by done. by rewrite splice_app, take_drop by done. Qed.

Lemma write_flush_loop_spec fl : ∀ ptr s c o lr, base s c o lr [] → Z.of_nat (o + length ptr) ≤ f_limit → (length ptr ≤ fl)%nat →
  ∃ s', write_flush_loop W We n fl ptr s = Ok (0, s') ∧ base s' (splice o ptr c) (o + length ptr) lr [] ∧ rwflush s' = stdio_no_flush ∧ buf_mode s' = buf_mode s ∧ pos s' = pos s.
Proof.
  induction fl as [|fl IH]; intros ptr s c o lr Hb Hl Hf; destruct ptr as [|x ptr]; cbn [write_flush_loop length] in *; [|lia| |];
    try (exists (set_rwflush stdio_no_flush s); rewrite splice_nil, Nat.add_0_r; split_and!; [done|by eapply (base_set s)|done|done|done]).
  destruct (do_write_spec s c o lr [] (x :: ptr) Hb Hl) as (k & h & -> & Hb' & Hk & Hp). cbn [mbind outcome_bind]. pose proof (base_len _ _ _ _ _ Hb) as [Ho _].
  specialize (Hp ltac:(done)). destruct (Z.ltb_spec (Z.of_nat k) 0); [lia|]. rewrite Nat2Z.id. cbn [length] in *.
  destruct (IH (drop k (x :: ptr)) _ _ _ _ Hb') as (s' & -> & Hb'' & H1 & H2 & H3); [rewrite length_drop; cbn [length]; lia|rewrite length_drop; cbn [length]; lia|].
  exists s'. rewrite splice_take_drop in Hb'' by (done || cbn; lia). rewrite length_drop in Hb''. cbn [length] in Hb''.
  replace (o + k + (S (length ptr) - k))%nat with (o + S (length ptr))%nat in Hb'' by lia. done.
Qed.

Lemma write_flush_spec s c o lr lw : base s c o lr lw → Z.of_nat (o + length lw) ≤ f_limit →
  ∃ s', stdio_write_flush W We n fuel s = Ok (0, s') ∧ base s' (splice o lw c) (o + length lw) lr [] ∧ rwflush s' = stdio_no_flush ∧ buf_mode s' = buf_mode s ∧ pos s' = pos s.
Proof.
  intros Hb Hl. pose proof (cfg_n cfg). pose proof (base_w _ _ _ _ _ Hb) as Hlw. unfold stdio_write_flush. pose proof (Ring.cap_size n ltac:(lia)) as Hc.
  unfold BUFSIZ. rewrite <-Hc. destruct (Ring.pop_array_spec W n ltac:(lia) ltac:(lia) _ _ (Ring.cap n) (b_write _ _ _ _ _ Hb)) as (r & -> & Hr).
  cbn [mbind outcome_bind]. rewrite take_ge by lia. rewrite drop_ge in Hr by lia. pose proof (cfg_fuel cfg).
  destruct (write_flush_loop_spec fuel lw (set_fifo_write r s) c o lr) as (s' & -> & Hb' & H1); [destruct Hb; by split|done|lia|]. by exists s'.
Qed.

Lemma unbuffered_write_spec fl : ∀ ptr s c o lr, base s c o lr [] → Z.of_nat (o + length ptr) ≤ f_limit → (length ptr ≤ fl)%nat →
  ∃ s', unbuffered_write_loop We fl ptr s = Ok (0, s') ∧ base s' (splice o ptr c) (o + length ptr) lr [] ∧ same s s' ∧ tracks s o s' (o + length ptr).
Proof.
  induction fl as [|fl IH]; intros ptr s c o lr Hb Hl Hf; destruct ptr as [|x ptr]; cbn [unbuffered_write_loop length] in *; [|lia| |];
    try (exists s; rewrite splice_nil, Nat.add_0_r; split_and!; [done|done|done|unfold tracks; lia]).
  destruct (do_write_spec s c o lr [] (x :: ptr) Hb Hl) as (k & h & -> & Hb' & Hk & Hp). cbn [mbind outcome_bind]. pose proof (base_len _ _ _ _ _ Hb) as [Ho _].
  specialize (Hp ltac:(done)). destruct (Z.ltb_spec (Z.of_nat k) 0); [lia|]. rewrite Nat2Z.id. cbn [length] in *.
  destruct (IH (drop k (x :: ptr)) (add_pos (Z.of_nat k) (set_hndl h s)) _ _ _ ltac:(by eapply (base_set (set_hndl h s)))) as (s' & -> & Hb'' & H1 & H2); [rewrite length_drop; cbn [length]; lia|rewrite length_drop; cbn [length]; lia|].
  exists s'. rewrite splice_take_drop in Hb'' by (done || cbn; lia). rewrite length_drop in Hb'', H2. cbn [length] in Hb'', H2.
  replace (o + k + (S (length ptr) - k))%nat with (o + S (length ptr))%nat in Hb'', H2 by lia. split_and!; [done|done|done|].
  intros Hp0. apply H2, (add_pos_tracks k (set_hndl h s) o); [lia|done|done].
Qed.

Lemma direct_write_spec fl : ∀ ptr s c o lr, base s c o lr [] → Z.of_nat (o + length ptr) ≤ f_limit → (length ptr ≤ fl)%nat →
  ∃ k s', direct_write_loop We n fl ptr s = Ok (0, drop k ptr, s') ∧ (k ≤ length ptr)%nat ∧ Z.of_nat (length ptr - k) ≤ 2 ^ n ∧
    base s' (splice o (take k ptr) c) (o + k) lr [] ∧ same s s' ∧ tracks s o s' (o + k).
Proof.
  induction fl as [|fl IH]; intros ptr s c o lr Hb Hl Hf; cbn [direct_write_loop]; unfold length_z, BUFSIZ; pose proof (Ring.size_pos n ltac:(apply (cfg_n cfg)));
    destruct (Z.gtb_spec (Z.of_nat (length ptr)) (2 ^ n));
    try (exists 0%nat, s; rewrite splice_nil, Nat.add_0_r; split_and!; [done|lia|lia|done|done|unfold tracks; lia]); [lia|].
  destruct (do_write_spec s c o lr [] ptr Hb Hl) as (k & h & -> & Hb' & Hk & Hp). cbn [mbind outcome_bind]. pose proof (base_len _ _ _ _ _ Hb) as [Ho _].
  specialize (Hp ltac:(intros ->; cbn in *; lia)). destruct (Z.ltb_spec (Z.of_nat k) 0); [lia|]. rewrite Nat2Z.id.
  destruct (IH (drop k ptr) (add_pos (Z.of_nat k) (set_hndl h s)) _ _ _ ltac:(by eapply (base_set (set_hndl h s)))) as (k2 & s' & -> & Hk2 & Hn & Hb'' & Hs & Ht); [rewrite length_drop; lia|rewrite length_drop; lia|].
  rewrite length_drop in *. exists (k + k2)%nat, s'. rewrite drop_drop. split_and!; [done|lia|lia| |done|].
  - replace (splice o (take (k + k2) ptr) c) with (splice (o + k) (take k2 (drop k ptr)) (splice o (take k ptr) c)); [by rewrite Nat.add_assoc|].
    rewrite <-(length_take_le ptr k) at 1 by done. rewrite splice_app by done. f_equal. apply take_take_drop.
  - intros Hp0. rewrite Nat.add_assoc. apply Ht, (add_pos_tracks k (set_hndl h s) o); [lia|done|done].
Qed.

(** What a buffered write leaves: the file and the write buffer together. *)
Definition pending (s : FILE F) (c : list Z) (p : nat) : Prop := ∃ c0 o lw, base s c0 o [] lw ∧ splice o lw c0 = c ∧ (o + length lw = p)%nat.

Lemma fill_write_spec s c p ptr : pending s c p → Z.of_nat (p + length ptr) ≤ f_limit → Ring.count (fifo_write s) + Z.of_nat (length ptr) ≤ 2 ^ n →
  ∃ s', fill_write W n ptr s = Ok (0, s') ∧ pending s' (splice p ptr c) (p + length ptr) ∧ rwflush s' = stdio_write_flush_f ∧ buf_mode s' = buf_mode s ∧ tracks s p s' (p + length ptr).
Proof.
  intros (c0 & o & lw & Hb & <- & <-) Hl Hfit. pose proof (cfg_n cfg). pose proof (b_write _ _ _ _ _ Hb) as Hw. rewrite (Ring.rep_count _ _ _ _ Hw) in Hfit.
  unfold fill_write. destruct (Ring.pushback_array_spec W n ltac:(lia) ltac:(lia) _ _ ptr Hw) as (r & -> & Hr). cbn [mbind outcome_bind].
  pose proof (Ring.cap_size n ltac:(lia)). rewrite take_ge in Hr by lia. pose proof (base_len _ _ _ _ _ Hb) as [Ho _].
  eexists. split; [done|]. split_and!; [|done|done|].
  - exists c0, o, (lw ++ ptr). split_and!; [destruct Hb; by split|by rewrite splice_app|rewrite length_app; lia].
  - intros Hp. by apply (add_pos_tracks (length ptr) (set_fifo_write r s) (o + length lw)).
Qed.

Lemma base_pending s c o : base s c o [] [] → pending s c o.
Proof. intros Hb. exists c, o, []. rewrite splice_nil. split_and!; [done|done|cbn; lia]. Qed.

Lemma block_write_spec s c p ptr : pending s c p → Z.of_nat (p + length ptr) ≤ f_limit →
  ∃ s', block_write W We n fuel ptr s = Ok (0, s') ∧ pending s' (splice p ptr c) (p + length ptr) ∧ rwflush s' = stdio_write_flush_f ∧ buf_mode s' = buf_mode s ∧ tracks s p s' (p + length ptr).
Proof.
  intros Hp Hl. pose proof Hp as (c0 & o & lw & Hb & Hc & Hpo). pose proof (base_w _ _ _ _ _ Hb). pose proof (Ring.rep_count _ _ _ _ (b_write _ _ _ _ _ Hb)) as Hcnt.
  pose proof (cfg_size cfg). unfold block_write, BUFSIZ, length_z. rewrite Hcnt, wrapu_small by lia.
  destruct (Z.gtb_spec (Z.of_nat (length lw) + Z.of_nat (length ptr)) (2 ^ n)); [|apply fill_write_spec; [done|done|lia]].
  destruct (write_flush_spec s c0 o [] lw Hb ltac:(lia)) as (s1 & -> & Hb1 & Hf1 & Hm1 & Hp1). cbn [mbind outcome_bind Z.eqb negb]. rewrite Hc, Hpo in Hb1.
  pose proof (cfg_fuel cfg). destruct (direct_write_spec fuel ptr s1 c p [] Hb1 Hl ltac:(lia)) as (k & s2 & -> & Hk & Hrest & Hb2 & [Hs2 Hm2] & Ht2). cbn [mbind outcome_bind Z.eqb negb].
  pose proof (Ring.rep_count _ _ _ _ (b_write _ _ _ _ _ Hb2)) as Hc2. pose proof (base_len _ _ _ _ _ Hb1) as [Hpl _].
  destruct (fill_write_spec s2 _ _ (drop k ptr) (base_pending _ _ _ Hb2)) as (s3 & -> & Hp3 & Hf3 & Hm3 & Ht3); [rewrite length_drop; lia|rewrite Hc2, length_drop; cbn [length]; lia|].
  exists s3. rewrite splice_take_drop in Hp3 by done. rewrite length_drop in Hp3, Ht3. replace (p + k + (length ptr - k))%nat with (p + length ptr)%nat in Hp3, Ht3 by lia.
  split_and!; [done|done|done|congruence|]. intros Hs. apply Ht3, Ht2. congruence.
Qed.

Lemma last_eol_le ptr i : (last_eol i ptr ≤ i)%nat.
Proof. induction i as [|i IH]; cbn; [lia|]. destruct (_ =? _); lia. Qed.

Lemma line_write_spec s c p ptr : pending s c p → Z.of_nat (p + length ptr) ≤ f_limit →
  ∃ s', line_write W We n fuel ptr s = Ok (0, s') ∧ pending s' (splice p ptr c) (p + length ptr) ∧ rwflush s' = stdio_write_flush_f ∧ buf_mode s' = buf_mode s ∧ tracks s p s' (p + length ptr).
Proof.
  intros Hp Hl. unfold line_write. pose proof (last_eol_le ptr (length ptr)) as Hi. destruct (last_eol (length ptr) ptr) as [|i0]; [by apply block_write_spec|].
  set (i := S i0) in *. clearbody i. destruct Hp as (c0 & o & lw & Hb & Hc & Hpo).
  destruct (write_flush_spec s c0 o [] lw Hb ltac:(lia)) as (s1 & -> & Hb1 & Hf1 & Hm1 & Hp1). cbn [mbind outcome_bind Z.eqb negb]. rewrite Hc, Hpo in Hb1.
  pose proof (cfg_fuel cfg). unfold unbuffered_write.
  destruct (unbuffered_write_spec fuel (take i ptr) s1 c p [] Hb1) as (s2 & -> & Hb2 & [Hs2 Hm2] & Ht2); [rewrite length_take; lia|rewrite length_take; lia|].
  cbn [mbind outcome_bind Z.eqb negb]. pose proof (base_len _ _ _ _ _ Hb1) as [Hpl _]. rewrite length_take_le in Hb2, Ht2 by done.
  destruct (block_write_spec s2 _ _ (drop i ptr) (base_pending _ _ _ Hb2)) as (s3 & -> & Hp3 & Hf3 & Hm3 & Ht3); [rewrite length_drop; lia|].
  exists s3. rewrite splice_take_drop in Hp3 by done. rewrite length_drop in Hp3, Ht3. replace (p + i + (length ptr - i))%nat with (p + length ptr)%nat in Hp3, Ht3 by lia.
  split_and!; [done|done|done|congruence|]. intros Hs. apply Ht3, Ht2. congruence.
Qed.

(** *** Reads *)

Lemma bytes_slice_app o (c b1 b2 : list Z) : b1 = take (length b1) (drop o c) → b2 = take (length b2) (drop (o + length b1) c) →
  b1 ++ b2 = take (length (b1 ++ b2)) (drop o c).
Proof. intros H1 H2. rewrite length_app, <-take_take_drop, drop_drop, <-H1. congruence. Qed.
Lemma slice_len o (c b : list Z) : b = take (length b) (drop o c) → (o ≤ length c → o + length b ≤ length c)%nat.
Proof. intros H Ho. apply (f_equal length) in H. rewrite length_take, length_drop in H. lia. Qed.
Lemma slice_all o (c b : list Z) : b = take (length b) (drop o c) → (length c ≤ o + length b)%nat → b = drop o c.
Proof. intros H Hl. rewrite H. apply take_ge. rewrite length_drop. lia. Qed.

(** A read of no byte is at the end. *)
Lemma read_end (o : nat) (c bs : list Z) : (0 < 1 → (o < length c)%nat → bs ≠ []) → (o ≤ length c)%nat → length bs = 0%nat → o = length c.
Proof. intros H Ho Hl. destruct (decide (o = length c)); [done|]. destruct bs; [|done]. by destruct (H ltac:(lia) ltac:(lia)). Qed.

Lemma unbuffered_read_spec fl : ∀ size s c o lr lw, base s c o lr lw → (size ≤ fl)%nat → Z.of_nat size ≤ f_limit →
  let bs := take size (drop o c) in let k := length bs in
  ∃ s', unbuffered_read_loop We fl (Z.of_nat size) s = Ok (if (size <=? length (drop o c))%nat then 1 else 0, bs, s') ∧ base s' c (o + k) lr lw ∧ same s s' ∧ tracks s o s' (o + k).
Proof.
  induction fl as [|fl IH]; intros size s c o lr lw Hb Hf Hl bs k; cbn [unbuffered_read_loop]; destruct (Z.eqb_spec (Z.of_nat size) 0) as [E|E].
  1,3: unfold bs, k, bs; assert (size = 0%nat) as -> by lia; exists s; cbn [take length]; rewrite Nat.add_0_r; split_and!; [done|done|done|unfold tracks; lia].
  - lia.
  - destruct (do_read_spec s c o lr lw (Z.of_nat size) Hb ltac:(lia)) as (b & h & -> & Hb' & Hsl & Hle & Hpr). cbn [mbind outcome_bind].
    pose proof (base_len _ _ _ _ _ Hb) as [Ho Hlim]. pose proof (slice_len _ _ _ Hsl Ho) as Hb2.
    destruct (Z.leb_spec (Z.of_nat (length b)) 0) as [Hz|Hz].
    + assert (o = length c) as -> by (eapply (read_end o c b); [intros _; apply Hpr; lia|done|lia]). assert (b = []) as -> by (by destruct b).
      exists (set_eof true (set_hndl h s)). unfold bs, k, bs. rewrite drop_ge, take_nil by lia. cbn [length]. rewrite Nat.add_0_r in *. destruct (Nat.leb_spec size 0); [lia|].
      split_and!; [|by eapply (base_set (set_hndl h s))|by split|exact (λ H, H)]. unfold error_t. rewrite wraps_small; [done|apply (cfg_error cfg)|]. pose proof (cfg_error cfg). cbn. lia.
    + replace (Z.of_nat size - Z.of_nat (length b)) with (Z.of_nat (size - length b)) by lia.
      destruct (IH (size - length b)%nat (add_pos (Z.of_nat (length b)) (set_hndl h s)) c (o + length b)%nat lr lw) as (s' & -> & Hb3 & Hs3 & Ht3);
        [by eapply (base_set (set_hndl h s))|lia|lia|]. cbn [mbind outcome_bind]. exists s'.
      assert (bs = b ++ take (size - length b) (drop (o + length b) c)) as Ebs.
      { unfold bs. replace size with (length b + (size - length b))%nat at 1 by lia. rewrite <-take_take_drop, drop_drop. by rewrite <-Hsl. }
      assert (o + k = o + length b + length (take (size - length b) (drop (o + length b) c)))%nat as Ek by (unfold k; rewrite Ebs, length_app; lia).
      rewrite Ek, Ebs. split_and!; [|done|done|].
      * rewrite !length_drop. destruct (Nat.leb_spec (size - length b) (length c - (o + length b))), (Nat.leb_spec size (length c - o)); (done || lia).
      * intros Hp0. apply Ht3, (add_pos_tracks (length b) (set_hndl h s) o); [lia|done|done].
Qed.

Lemma direct_size size : 2 ^ n < size → 0 < size / BUFSIZ n * BUFSIZ n ≤ size.
Proof.
  intros H. unfold BUFSIZ. pose proof (Ring.size_pos n ltac:(apply (cfg_n cfg))). pose proof (Z.div_mod size (2 ^ n) ltac:(lia)). pose proof (Z.mod_pos_bound size (2 ^ n) ltac:(lia)).
  pose proof (Z.div_le_mono (2 ^ n) size (2 ^ n) ltac:(lia) ltac:(lia)) as Hd. rewrite Z.div_same in Hd by lia. nia.
Qed.
Lemma error_t_0 : error_t We 0 = 0.
Proof. unfold error_t. pose proof (cfg_error cfg). apply wraps_small; [lia|]. split; [|apply pow2_pos; lia]. pose proof (pow2_pos (We - 1) ltac:(lia)). lia. Qed.

Lemma direct_read_spec fl : ∀ size s c o lr lw, base s c o lr lw → (size ≤ fl)%nat → Z.of_nat size ≤ f_limit →
  ∃ r bs k s', direct_read_loop We n fl (Z.of_nat size) s = Ok (r, bs, Z.of_nat k, s') ∧ base s' c (o + length bs) lr lw ∧ bs = take (length bs) (drop o c) ∧
    (length bs + k = size)%nat ∧ same s s' ∧ tracks s o s' (o + length bs) ∧ (r = None ∧ Z.of_nat k ≤ 2 ^ n ∨ r = Some 0 ∧ (o + length bs = length c)%nat ∧ (0 < k)%nat).
Proof.
  induction fl as [|fl IH]; intros size s c o lr lw Hb Hf Hl; cbn [direct_read_loop]; unfold BUFSIZ at 1; pose proof (Ring.size_pos n ltac:(apply (cfg_n cfg)));
    destruct (Z.gtb_spec (Z.of_nat size) (2 ^ n));
    try (exists None, [], size, s; cbn [length]; rewrite Nat.add_0_r; split_and!; [done|done|done|lia|done|exact (λ H, H)|by left]); [lia|].
  pose proof (direct_size (Z.of_nat size) ltac:(lia)) as Hds.
  destruct (do_read_spec s c o lr lw _ Hb ltac:(split; [apply Z.lt_le_incl, Hds|etransitivity; [apply Hds|done]])) as (b & h & -> & Hb' & Hsl & Hle & Hpr). cbn [mbind outcome_bind].
  pose proof (base_len _ _ _ _ _ Hb) as [Ho Hlim]. pose proof (slice_len _ _ _ Hsl Ho) as Hb2. destruct (Z.leb_spec (Z.of_nat (length b)) 0) as [Hz|Hz].
  - assert (o = length c) as -> by (eapply (read_end o c b); [intros _; apply Hpr, Hds|done|lia]). assert (b = []) as -> by (by destruct b).
    exists (Some 0), [], size, (set_eof true (set_hndl h s)). cbn [length Z.of_nat Z.eqb] in *. change (Z.of_nat 0) with 0 in *. rewrite error_t_0. rewrite Nat.add_0_r in *.
    split_and!; [done|by eapply (base_set (set_hndl h s))|done|lia|by split|exact (λ H, H)|right; split_and!; [done|lia|lia]].
  - replace (Z.of_nat size - Z.of_nat (length b)) with (Z.of_nat (size - length b)) by lia.
    destruct (IH (size - length b)%nat (add_pos (Z.of_nat (length b)) (set_eof false (set_hndl h s))) c (o + length b)%nat lr lw) as (r & b3 & k & s' & -> & Hb3 & Hsl3 & Hk & Hs3 & Ht3 & Hr);
      [by eapply (base_set (set_hndl h s))|lia|lia|]. cbn [mbind outcome_bind]. exists r, (b ++ b3), k, s'. rewrite <-Nat.add_assoc, <-length_app in Hb3, Ht3, Hr.
    split_and!; [done|done|by apply bytes_slice_app|rewrite length_app; lia|by destruct Hs3| |done].
    intros Hp0. apply Ht3, (add_pos_tracks (length b) (set_eof false (set_hndl h s)) o); [lia|done|done].
Qed.

Lemma local_read_spec fl size : ∀ l s c o lr lw, base s c (o + length l) lr lw → l = take (length l) (drop o c) → (size ≤ length l + fl)%nat →
  Z.of_nat (length l) ≤ 2 ^ n → Z.of_nat size ≤ 2 ^ n →
  ∃ l' s', local_read_loop We n fl (Z.of_nat size) l s = Ok (None, l', s') ∧ base s' c (o + length l') lr lw ∧ l' = take (length l') (drop o c) ∧ Z.of_nat (length l') ≤ 2 ^ n ∧
    ((size ≤ length l')%nat ∨ (o + length l' = length c)%nat) ∧ same s s' ∧ pos s' = pos s ∧ (size = 0%nat → l' = l).
Proof.
  induction fl as [|fl IH]; intros l s c o lr lw Hb Hsl Hf Hn Hs; cbn [local_read_loop]; unfold length_z at 1;
    destruct (Z.ltb_spec (Z.of_nat (length l)) (Z.of_nat size)); try (exists l, s; split_and!; [done|done|done|done|left; lia|done|done|done]); [lia|].
  pose proof (cfg_buf cfg). unfold BUFSIZ, length_z.
  destruct (do_read_spec s c _ lr lw (2 ^ n - Z.of_nat (length l)) Hb ltac:(lia)) as (b & h & -> & Hb' & Hsl' & Hle & Hpr). cbn [mbind outcome_bind].
  pose proof (base_len _ _ _ _ _ Hb) as [Ho Hlim]. destruct (Z.ltb_spec (Z.of_nat (length b)) 0); [lia|]. destruct (Z.eqb_spec (Z.of_nat (length b)) 0) as [Hz|Hz].
  - assert (o + length l = length c)%nat as He by (eapply (read_end _ c b); [intros _; apply Hpr; lia|done|lia]). assert (b = []) as -> by (by destruct b).
    exists l, (set_hndl h s). cbn [length] in Hb'. rewrite Nat.add_0_r in Hb'. split_and!; [done|done|done|done|by right|by split|done|done].
  - destruct (IH (l ++ b) (set_hndl h s) c o lr lw) as (l' & s' & -> & Hb3 & Hsl3 & Hn3 & He & [Hs3 Hm3] & Hp3 & _);
      [by rewrite length_app, Nat.add_assoc|by apply bytes_slice_app|rewrite length_app; lia|rewrite length_app; lia|done|].
    exists l', s'. split_and!; [done|done|done|done|done|by split|done|lia].
Qed.

(** The stream between two calls: nothing buffered, read ahead, or written behind. *)
Definition idle (s : FILE F) (c : list Z) (p : nat) : Prop := base s c p [] [] ∧ rwflush s = stdio_no_flush.
Definition ahead (s : FILE F) (c : list Z) (p : nat) : Prop :=
  rwflush s = stdio_read_flush_f ∧ buf_mode s = IOFBF ∧ pos s = Z.of_nat p ∧ ∃ lr, base s c (p + length lr) lr [] ∧ lr = take (length lr) (drop p c).
Definition behind (s : FILE F) (c : list Z) (p : nat) : Prop := rwflush s = stdio_write_flush_f ∧ buf_mode s ≠ IONBF ∧ pending s c p.
Definition readable (s : FILE F) (c : list Z) (p : nat) : Prop := idle s c p ∨ ahead s c p.

(** What one read of [size] bytes has to do. *)
Definition read_ok (size : nat) (s : FILE F) (c : list Z) (p : nat) (o : outcome (Z * list Z * FILE F)) : Prop :=
  ∃ bs s', buf_mode s' = buf_mode s ∧
    if (size <=? length (drop p c))%nat then o = Ok (1, take size (drop p c), s') ∧ readable s' c (p + size) ∧ tracks s p s' (p + size)
    else o = Ok (0, bs, s') ∧ drop p c = take (length (drop p c)) bs ∧ idle s' c (length c).

Lemma slice_drop o k (c l : list Z) : l = take (length l) (drop o c) → (k ≤ length l)%nat → drop k l = take (length (drop k l)) (drop (o + k) c).
Proof. intros H Hk. rewrite H at 1. rewrite skipn_firstn_comm, drop_drop, length_drop. done. Qed.
Lemma slice_take o k (c l : list Z) : l = take (length l) (drop o c) → (k ≤ length l)%nat → take k l = take k (drop o c).
Proof. intros H Hk. rewrite H, take_take. f_equal. lia. Qed.

Lemma buffered_tail_spec k s c p : buf_mode s = IOFBF → idle s c p → ((p < length c)%nat → pos s = Z.of_nat p) → Z.of_nat k ≤ 2 ^ n →
  ∃ l s1, local_read_loop We n fuel (Z.of_nat k) [] s = Ok (None, l, s1) ∧ read_ok k s c p (buffered_read_end W n junk (Z.of_nat k) l s1).
Proof.
  intros Hmode [Hb Hf] Htr Hk. pose proof (cfg_fuel cfg). pose proof (cfg_buf cfg). pose proof (cfg_n cfg). pose proof (base_len _ _ _ _ _ Hb) as [Hp Hlim].
  destruct (local_read_spec fuel k [] s c p [] []) as (l & s1 & -> & Hb1 & Hsl & Hn & He & [Hs1 Hm1] & Hp1 & _); [by rewrite Nat.add_0_r|done|cbn; lia|cbn; lia|done|].
  exists l, s1. split; [done|]. pose proof (slice_len _ _ _ Hsl Hp) as Hll. unfold read_ok, buffered_read_end, length_z. rewrite Nat2Z.id, length_drop.
  destruct (Z.geb_spec (Z.of_nat (length l)) (Z.of_nat k)) as [Hge|Hlt].
  - exists [], (if Z.of_nat (length l) >? Z.of_nat k then set_rwflush stdio_read_flush_f (set_fifo_read (ok_or (0, fifo_read s) (Ring.pushback_array W n (fifo_read s1) (drop k l))).2 (add_pos (Z.of_nat k) s1)) else add_pos (Z.of_nat k) s1).
    destruct (Nat.leb_spec k (length c - p)); [|lia]. rewrite take_app_le by lia. rewrite (slice_take p k c l) by (done || lia).
    assert (tracks s p (add_pos (Z.of_nat k) s1) (p + k)) as Ht by (intros Hs; apply add_pos_tracks; [lia|done|congruence]).
    destruct (Z.gtb_spec (Z.of_nat (length l)) (Z.of_nat k)).
    + destruct (Ring.pushback_array_spec W n ltac:(lia) ltac:(lia) (fifo_read s1) [] (drop k l) (b_read _ _ _ _ _ Hb1)) as (r & E & Hr). pose proof (Ring.cap_size n ltac:(lia)).
      cbn [fifo_read add_pos set_pos]. rewrite E. cbn [mbind outcome_bind ok_or snd]. cbn [app] in Hr. rewrite take_ge in Hr by (rewrite length_drop; cbn [length]; lia).
      split_and!; [done|done| |done]. right. split_and!; [done|by rewrite <-Hmode, <-Hm1|by apply Ht, Htr; lia|]. exists (drop k l). split; [|by apply slice_drop; [|lia]].
      rewrite length_drop. replace (p + k + (length l - k))%nat with (p + length l)%nat by lia. destruct Hb1. by split.
    + split_and!; [done|done| |done]. left. split; [|by rewrite <-Hf]. replace (p + k)%nat with (p + length l)%nat by lia. by eapply (base_set s1).
  - destruct He as [He|He]; [lia|]. exists (take k (l ++ drop (length l) junk)), (set_eof true (add_pos (Z.of_nat k) s1)).
    destruct (Nat.leb_spec k (length c - p)); [lia|]. split_and!; [done|done| |].
    + rewrite take_take, Nat.min_l, take_app_le by lia. replace (length c - p)%nat with (length l) by lia. rewrite firstn_all. symmetry. apply slice_all; [done|lia].
    + split; [|by rewrite <-Hf]. rewrite <-He. by eapply (base_set s1).
Qed.

Lemma local_read_0 (s : FILE F) : local_read_loop We n fuel 0 [] s = Ok (None, [], s).
Proof. by destruct fuel. Qed.

Lemma buffered_end_0 (s : FILE F) : buffered_read_end W n junk 0 [] s = Ok (1, [], add_pos 0 s).
Proof. done. Qed.

(** The bytes are there. *)
Lemma buffered_ahead_spec size s c p lr : buf_mode s = IOFBF →
  base s c (p + length lr) lr [] → lr = take (length lr) (drop p c) → (rwflush s = stdio_no_flush ∧ lr = [] ∨ rwflush s = stdio_read_flush_f ∧ pos s = Z.of_nat p) →
  (size ≤ length lr)%nat → read_ok size s c p (buffered_read W We n junk fuel (Z.of_nat size) s).
Proof.
  intros Hmode Hb Hsl Hfl Hle. pose proof (cfg_n cfg). pose proof (base_len _ _ _ _ _ Hb) as [Ho Hlim]. unfold buffered_read.
  destruct (Ring.pop_array_spec W n ltac:(lia) ltac:(lia) _ _ size (b_read _ _ _ _ _ Hb)) as (r & -> & Hr). cbn [mbind outcome_bind]. unfold length_z. rewrite length_take.
  rewrite Nat.min_l, Z.sub_diag by lia. cbn [Z.eqb negb mbind outcome_bind]. rewrite local_read_0. cbn [mbind outcome_bind]. rewrite buffered_end_0. cbn [mbind outcome_bind].
  unfold read_ok. exists [], (add_pos 0 (add_pos (Z.of_nat size) (set_fifo_read r s))). split; [done|]. rewrite length_drop. destruct (Nat.leb_spec size (length c - p)); [|lia].
  rewrite !app_nil_r, (slice_take p size c lr) by done.
  assert (tracks s p (add_pos 0 (add_pos (Z.of_nat size) (set_fifo_read r s))) (p + size)) as Ht.
  { intros Hs. rewrite <-(Nat.add_0_r (p + size)). apply (add_pos_tracks 0 _ (p + size)); [lia|done|]. by apply (add_pos_tracks size (set_fifo_read r s) p); [lia|done|]. }
  split_and!; [done| |done]. destruct Hfl as [[Hf ->]|[Hf Hp]].
  - left. cbn [length] in Hle. assert (size = 0%nat) as -> by lia. split; [|done]. cbn [length] in Hb. rewrite drop_nil in Hr. destruct Hb. by split.
  - right. split_and!; [done|done|by apply Ht|]. exists (drop size lr). split; [|by apply slice_drop]. rewrite length_drop.
    replace (p + size + (length lr - size))%nat with (p + length lr)%nat by lia. destruct Hb. by split.
Qed.

(** Bytes [b] that were read before extend what is read from there on. *)
Lemma read_ok_app k s0 s c p b o : tracks s0 p s (p + length b) → buf_mode s = buf_mode s0 → b = take (length b) (drop p c) → (p + length b ≤ length c)%nat →
  read_ok k s c (p + length b) o → read_ok (length b + k) s0 c p ('(res, b3, s) ← o; Ok (res, b ++ b3, s)).
Proof.
  intros Ht Hm Hsl Hl (bs & s' & Hm' & Hend). exists (b ++ bs), s'. split; [congruence|]. revert Hend. rewrite !length_drop.
  assert (drop p c = b ++ drop (p + length b) c) as Hd by (rewrite Hsl at 1; rewrite <-drop_drop, take_drop; done).
  destruct (Nat.leb_spec k (length c - (p + length b))), (Nat.leb_spec (length b + k) (length c - p)); try lia.
  - intros (-> & Hr & Ht'). cbn [mbind outcome_bind]. rewrite Nat.add_assoc. split_and!; [|done|by intros Hs; apply Ht', Ht]. rewrite Hd, take_app_add. done.
  - intros (-> & Hbs & Hi). cbn [mbind outcome_bind]. split_and!; [done| |done]. rewrite Hd at 1. replace (length c - p)%nat with (length b + (length c - (p + length b)))%nat by lia.
    by rewrite take_app_add, <-Hbs.
Qed.

(** More bytes are needed. *)
Lemma buffered_more_spec size s c p lr : buf_mode s = IOFBF →
  base s c (p + length lr) lr [] → lr = take (length lr) (drop p c) → ((p < length c)%nat → pos s = Z.of_nat p) → Z.of_nat size ≤ f_limit → 
  (length lr < size)%nat → read_ok size s c p (buffered_read W We n junk fuel (Z.of_nat size) s).
Proof.
  intros Hmode Hb Hsl Htr Hsz Hgt. pose proof (cfg_n cfg). pose proof (cfg_fuel cfg). pose proof (base_len _ _ _ _ _ Hb) as [Ho Hlim]. unfold buffered_read.
  destruct (Ring.pop_array_spec W n ltac:(lia) ltac:(lia) _ _ size (b_read _ _ _ _ _ Hb)) as (r & -> & Hr). cbn [mbind outcome_bind]. unfold length_z. rewrite length_take.
  rewrite Nat.min_r, take_ge by lia. rewrite drop_ge in Hr by lia. destruct (Z.eqb_spec (Z.of_nat size - Z.of_nat (length lr)) 0); [lia|]. cbn [negb].
  set (s1 := set_rwflush stdio_no_flush (add_pos (Z.of_nat (length lr)) (set_fifo_read r s))).
  assert (base s1 c (p + length lr) [] []) as Hb1 by (destruct Hb; by split).
  assert (tracks s p s1 (p + length lr)) as Ht1 by (intros Hs; by apply (add_pos_tracks (length lr) (set_fifo_read r s) p); [lia|done|]).
  replace (Z.of_nat size - Z.of_nat (length lr)) with (Z.of_nat (size - length lr)) by lia.
  destruct (direct_read_spec fuel (size - length lr) s1 c _ [] [] Hb1) as (ret & b2 & k & s2 & -> & Hb2 & Hsl2 & Hk & [Hf2 Hm2] & Ht2 & Hret); [lia|lia|]. cbn [mbind outcome_bind].
  pose proof (slice_len _ _ _ Hsl2 Ho) as Hl2. pose proof (bytes_slice_app _ _ _ _ Hsl Hsl2) as Hsl12. rewrite <-Nat.add_assoc, <-length_app in Hb2, Ht2, Hl2, Hret.
  assert (tracks s p s2 (p + length (lr ++ b2))) as Ht by (intros Hs; by apply Ht2, Ht1). assert (size = length (lr ++ b2) + k)%nat as Ek by (rewrite length_app; lia).
  destruct Hret as [[-> Hkn]|(-> & He & Hk0)].
  - destruct (buffered_tail_spec k s2 c (p + length (lr ++ b2))) as (l & s3 & -> & Hend); [by rewrite <-Hmode, Hm2|by split|intros Hlt; apply Ht, Htr; lia|done|]. cbn [mbind outcome_bind].
    pose proof (read_ok_app k s s2 c p (lr ++ b2) _ Ht Hm2 Hsl12 Hl2 Hend) as Hok. rewrite <-Ek in Hok. destruct (buffered_read_end _ _ _ _ _ _) as [[[? ?] ?]|]; [|done].
    cbn [mbind outcome_bind] in *. by rewrite <-app_assoc in Hok.
  - exists (lr ++ b2), s2. split; [done|]. rewrite length_drop. destruct (Nat.leb_spec size (length c - p)); [lia|].
    assert (lr ++ b2 = drop p c) as Hall by (apply slice_all; [done|lia]). split_and!; [done|rewrite Hall; symmetry; apply take_ge; rewrite length_drop; lia|]. rewrite <-He. by split.
Qed.

Lemma unbuffered_ok size s c p : idle s c p → Z.of_nat size ≤ f_limit → read_ok size s c p (unbuffered_read We fuel (Z.of_nat size) s).
Proof.
  intros [Hb Hf] Hs. pose proof (cfg_fuel cfg). pose proof (base_len _ _ _ _ _ Hb) as [Ho _].
  destruct (unbuffered_read_spec fuel size s c p [] [] Hb ltac:(lia) Hs) as (s' & E & Hb' & [Hs' Hm'] & Ht). exists (drop p c), s'. split; [done|].
  unfold unbuffered_read. rewrite E. rewrite length_take, length_drop in *. destruct (Nat.leb_spec size (length c - p)).
  - rewrite Nat.min_l in Hb', Ht by lia. split_and!; [done| |done]. left. split; [done|congruence].
  - rewrite Nat.min_r in Hb' by lia. replace (p + (length c - p))%nat with (length c) in Hb' by lia. rewrite !take_ge by (rewrite length_drop; lia). split_and!; [done|done|]. split; [done|congruence].
Qed.

Lemma stdio_read_spec size s c p : readable s c p → ((p < length c)%nat → pos s = Z.of_nat p) → Z.of_nat size ≤ f_limit →
  read_ok size s c p (stdio_read W We n junk fuel (Z.of_nat size) s).
Proof.
  intros Hrd Htr Hsz. unfold stdio_read. destruct f_read_law as (rd & -> & _).
  destruct Hrd as [Hi|(Hf & Hm & Hp & lr & Hb & Hsl)].
  - destruct (buf_mode s) eqn:Hm; [by apply unbuffered_ok|by apply unbuffered_ok|]. destruct Hi as [Hb Hf]. 
    destruct (decide (size = 0%nat)) as [->|Hne]; [eapply (buffered_ahead_spec 0 _ _ _ [])|eapply (buffered_more_spec _ _ _ _ [])]; cbn [length]; rewrite ?Nat.add_0_r; (done || lia || auto).
  - rewrite Hm. destruct (Nat.le_gt_cases size (length lr)); [eapply buffered_ahead_spec|eapply buffered_more_spec]; eauto.
Qed.

(** *** Flushes *)

Definition writable (s : FILE F) (c : list Z) (p : nat) : Prop := idle s c p ∨ behind s c p.

Lemma stdio_write_spec ptr s c p : writable s c p → Z.of_nat (p + length ptr) ≤ f_limit →
  ∃ s', stdio_write W We n fuel ptr s = Ok (0, s') ∧ writable s' (splice p ptr c) (p + length ptr) ∧ tracks s p s' (p + length ptr).
Proof.
  intros Hw Hl. unfold stdio_write. destruct f_write_law as (wr & -> & _). pose proof (cfg_fuel cfg).
  assert (pending s c p) as Hp by (destruct Hw as [[Hb _]|(_ & _ & Hp)]; [by apply base_pending|done]).
  assert (∀ s', rwflush s' = stdio_write_flush_f → buf_mode s' = buf_mode s → buf_mode s ≠ IONBF → pending s' (splice p ptr c) (p + length ptr) → writable s' (splice p ptr c) (p + length ptr)) as Hbeh.
  { intros s' Hf Hm Hne Hp'. right. split_and!; [done|congruence|done]. }
  destruct (buf_mode s) eqn:Hm.
  - destruct Hw as [[Hb Hf]|(_ & Hne & _)]; [|done].
    destruct (unbuffered_write_spec fuel ptr s c p [] Hb Hl ltac:(lia)) as (s' & E & Hb' & [Hs' Hm'] & Ht). exists s'. split_and!; [done| |done]. left. split; [done|congruence].
  - destruct (line_write_spec s c p ptr Hp Hl) as (s' & E & Hp' & Hf' & Hm' & Ht). exists s'. split_and!; [done|apply Hbeh; [done|congruence|done|done]|done].
  - destruct (block_write_spec s c p ptr Hp Hl) as (s' & E & Hp' & Hf' & Hm' & Ht). exists s'. split_and!; [done|apply Hbeh; [done|congruence|done|done]|done].
Qed.

Lemma read_flush_spec s c p lr : base s c (p + length lr) lr [] → pos s = Z.of_nat p →
  ∃ s', stdio_read_flush s = Ok (0, s') ∧ idle s' c p ∧ pos s' = pos s ∧ buf_mode s' = buf_mode s.
Proof.
  intros Hb Hp. pose proof (base_len _ _ _ _ _ Hb) as [Ho _]. pose proof (cfg_n cfg). unfold stdio_read_flush.
  destruct (do_lseek_spec s c _ lr [] (pos s) SEEK_SET Hb) as (h & -> & Hb'); [cbn; lia|]. cbn [mbind outcome_bind seek_base] in *. eexists. split; [done|]. split; [|done]. split; [|done].
  rewrite Hp, Z.add_0_l, Nat2Z.id in Hb'. destruct Hb' as [? ? ? Hr ?]. split; cbn; try done. eapply Ring.clear_rep; [lia|lia|exact Hr].
Qed.

Lemma behind_flush_spec s c p : writable s c p → Z.of_nat p ≤ f_limit →
  ∃ s', stdio_write_flush W We n fuel s = Ok (0, s') ∧ idle s' c p ∧ pos s' = pos s ∧ buf_mode s' = buf_mode s.
Proof.
  intros Hw Hl. assert (pending s c p) as (c0 & o & lw & Hb & <- & <-) by (destruct Hw as [[Hb _]|(_ & _ & Hp)]; [by apply base_pending|done]).
  destruct (write_flush_spec s c0 o [] lw Hb Hl) as (s' & -> & Hb' & Hf' & Hm' & Hp'). exists s'. split_and!; [done|by split|done|done].
Qed.

(** *** The relation *)

Record sim (s : FILE F) (g : ref) : Prop := {
  sim_p : (rp g ≤ length (rc g))%nat;
  sim_lim : Z.of_nat (length (rc g)) ≤ f_limit;
  sim_pos : if rknown g then pos s = Z.of_nat (rp g) else rp g = length (rc g);
  sim_state : idle s (rc g) (rp g) ∨ rdir g = Reading ∧ ahead s (rc g) (rp g) ∨ rdir g = Writing ∧ behind s (rc g) (rp g) }.

Lemma sim_readable s g : sim s g → is_writing (rdir g) = false → readable s (rc g) (rp g).
Proof. intros [_ _ _ [H|[[_ H]|[E _]]]] Hd; [by left|by right|by rewrite E in Hd]. Qed.
Lemma sim_writable s g : sim s g → is_reading (rdir g) = false → writable s (rc g) (rp g).
Proof. intros [_ _ _ [H|[[E _]|[_ H]]]] Hd; [by left|by rewrite E in Hd|by right]. Qed.

Lemma call_rwflush_spec s g : sim s g → ∃ s', call_rwflush W We n fuel s = Ok (0, s') ∧ idle s' (rc g) (rp g) ∧ pos s' = pos s ∧ buf_mode s' = buf_mode s.
Proof.
  intros [Hp Hl _ [[Hb Hf]|[[_ (Hf & _ & Hpos & lr & Hb & _)]|[_ Hbe]]]]; unfold call_rwflush.
  - rewrite Hf. by exists s.
  - rewrite Hf. by eapply read_flush_spec.
  - pose proof Hbe as (Hf & _). rewrite Hf. apply behind_flush_spec; [by right|lia].
Qed.

Lemma sim_freed s s' g : sim s g → idle s' (rc g) (rp g) → pos s' = pos s → sim s' (freed g).
Proof. intros [Hp Hl Hpos _] Hi He. split; [done|done| |by left]. cbn. rewrite He. done. Qed.

Lemma sim_read size s g : sim s g → is_writing (rdir g) = false → Z.of_nat size ≤ f_limit →
  let rest := drop (rp g) (rc g) in
  ∃ bs s', if (size <=? length rest)%nat then stdio_read W We n junk fuel (Z.of_nat size) s = Ok (1, take size rest, s') ∧ sim s' (after_read size true g)
    else stdio_read W We n junk fuel (Z.of_nat size) s = Ok (0, bs, s') ∧ rest = take (length rest) bs ∧ sim s' (after_read 0 false g).
Proof.
  intros Hs Hd Hl rest. pose proof (sim_readable _ _ Hs Hd) as Hr. destruct Hs as [Hp Hlim Hpos _].
  destruct (stdio_read_spec size s _ _ Hr) as (bs & s' & Hm & H); [destruct (rknown g); [done|lia]|done|].
  exists bs, s'. fold rest in H. pose proof (length_drop (rc g) (rp g)) as Hrest. fold rest in Hrest. destruct (Nat.leb_spec size (length rest)).
  - destruct H as (-> & Hr' & Ht). split; [done|]. split; cbn; [lia|done|destruct (rknown g); [by apply Ht|lia]|]. destruct Hr'; [by left|by right; left].
  - destruct H as (-> & Hb & Hi). split_and!; [done|done|]. split; cbn; [done|done|done|by left].
Qed.

Lemma sim_write ptr s g : sim s g → is_reading (rdir g) = false → Z.of_nat (rp g + length ptr) ≤ f_limit →
  ∃ s', stdio_write W We n fuel ptr s = Ok (0, s') ∧ sim s' (after_write ptr g).
Proof.
  intros Hs Hd Hl. pose proof (sim_writable _ _ Hs Hd) as Hw. destruct Hs as [Hp Hlim Hpos _].
  destruct (stdio_write_spec ptr s _ _ Hw Hl) as (s' & -> & Hw' & Ht). exists s'. split; [done|]. pose proof (splice_length (rp g) ptr (rc g) Hp) as Hsl.
  split; cbn; [lia|lia|destruct (rknown g); [by apply Ht|lia]|]. destruct Hw'; [by left|by right; right].
Qed.

(** *** The operations *)

Lemma after_read_rest k g : drop (rp (after_read k true g)) (rc (after_read k true g)) = drop k (drop (rp g) (rc g)).
Proof. cbn. by rewrite drop_drop. Qed.
Lemma after_read_end k g : after_read 0 false (after_read k true g) = after_read 0 false g.
Proof. done. Qed.
Lemma after_read_add j k g : after_read k true (after_read j true g) = after_read (j + k) true g.
Proof. unfold after_read. cbn. f_equal. lia. Qed.
Lemma after_write_app b1 b2 g : (rp g ≤ length (rc g))%nat → after_write b2 (after_write b1 g) = after_write (b1 ++ b2) g.
Proof. intros H. unfold after_write. cbn [rc rp rknown rdir]. rewrite splice_app, length_app by done. f_equal. lia. Qed.

(** Transfers of nothing. *)
Lemma sim_read_0 s g : sim s g → is_writing (rdir g) = false → sim s (after_read 0 true g).
Proof.
  intros Hs Hd. pose proof (sim_readable _ _ Hs Hd) as Hr. destruct Hs as [Hp Hl Hpos _]. split; cbn; rewrite ?Nat.add_0_r; [done|done|done|].
  destruct Hr; [by left|by right; left].
Qed.
Lemma sim_write_0 s g : sim s g → is_reading (rdir g) = false → sim s (after_write [] g).
Proof.
  intros Hs Hd. pose proof (sim_writable _ _ Hs Hd) as Hr. destruct Hs as [Hp Hl Hpos _]. unfold after_write; split; cbn [rc rp rknown rdir length]; rewrite ?splice_nil, ?Nat.add_0_r; [done|done|done|].
  destruct Hr; [by left|by right; right].
Qed.

Lemma fread_spec size m : ∀ i s g, sim s g → is_writing (rdir g) = false → Z.of_nat size ≤ f_limit →
  let rest := drop (rp g) (rc g) in
  ∃ bs s', if (size * m <=? length rest)%nat
    then fread_loop W We n junk fuel m i (Z.of_nat size) s = Ok (i + Z.of_nat m, take (size * m) rest, s') ∧ sim s' (after_read (size * m) true g)
    else fread_loop W We n junk fuel m i (Z.of_nat size) s = Ok (i + Z.of_nat (length rest / size), bs, s') ∧ rest = take (length rest) bs ∧ sim s' (after_read 0 false g).
Proof.
  induction m as [|m IH]; intros i s g Hs Hd Hl rest; cbn [fread_loop].
  - exists [], s. rewrite Nat.mul_0_r. cbn [Nat.leb take]. rewrite Z.add_0_r. split; [done|by apply sim_read_0].
  - destruct (sim_read size s g Hs Hd Hl) as (bs & s1 & H). fold rest in H. destruct (Nat.leb_spec size (length rest)) as [Hsz|Hsz].
    + destruct H as [-> Hs1]. cbn [mbind outcome_bind]. change (1 <=? 0) with false. cbv iota.
      destruct (IH (i + 1) s1 _ Hs1 eq_refl Hl) as (bs2 & s2 & H). rewrite after_read_rest in H. fold rest in H. exists (take size rest ++ bs2), s2. rewrite length_drop in H.
      destruct (Nat.leb_spec (size * m) (length rest - size)), (Nat.leb_spec (size * S m) (length rest)); try nia.
      * destruct H as [-> Hs2]. cbn [mbind outcome_bind]. rewrite take_take_drop. replace (size + size * m)%nat with (size * S m)%nat by lia. split; [do 3 f_equal; lia|].
        rewrite after_read_add in Hs2. by replace (size + size * m)%nat with (size * S m)%nat in Hs2 by lia.
      * destruct H as (-> & Hb & Hs2). cbn [mbind outcome_bind]. rewrite after_read_end in Hs2. split_and!; [|rewrite <-(take_drop size rest) at 1|done].
        -- do 3 f_equal. assert (size ≠ 0)%nat by (intros ->; lia). replace (length rest) with (length rest - size + 1 * size)%nat at 2 by lia. rewrite Nat.div_add by done. lia.
        -- replace (length rest) with (length (take size rest) + (length rest - size))%nat by (rewrite length_take; lia). by rewrite take_app_add, <-Hb.
    + destruct H as (-> & Hb & Hs1). cbn [mbind outcome_bind Z.leb Z.compare]. exists bs, s1. destruct (Nat.leb_spec (size * S m) (length rest)); [lia|].
      rewrite Nat.div_small, Z.add_0_r by done. done.
Qed.

Lemma fwrite_spec size m : ∀ i ptr s g, sim s g → is_reading (rdir g) = false → length ptr = (size * m)%nat → Z.of_nat (rp g + length ptr) ≤ f_limit →
  ∃ s', fwrite_loop W We n fuel m i ptr size s = Ok (i + Z.of_nat m, s') ∧ sim s' (after_write ptr g).
Proof.
  induction m as [|m IH]; intros i ptr s g Hs Hd Hp Hl; cbn [fwrite_loop].
  - exists s. rewrite Z.add_0_r. destruct ptr; [|cbn in Hp; lia]. split; [done|by apply sim_write_0].
  - destruct (sim_write (take size ptr) s g Hs Hd) as (s1 & -> & Hs1); [rewrite length_take; lia|]. cbn [mbind outcome_bind Z.eqb negb].
    destruct (IH (i + 1) (drop size ptr) s1 _ Hs1 eq_refl) as (s2 & -> & Hs2); [rewrite length_drop; lia|cbn; rewrite length_take, length_drop; lia|].
    rewrite after_write_app, take_drop in Hs2 by apply (sim_p _ _ Hs). exists s2. split; [do 2 f_equal; lia|done].
Qed.

Lemma fgets_spec k : ∀ ret s g, sim s g → is_writing (rdir g) = false →
  let l := line k (drop (rp g) (rc g)) in
  ∃ s', fgets_loop W We n junk fuel k ret s = Ok (ret || match l with [] => false | _ => true end, l ++ [0], s') ∧ sim s' (after_read (length l) (line_ends k (drop (rp g) (rc g))) g).
Proof.
  pose proof (cfg_buf cfg). pose proof (Ring.size_pos n ltac:(apply (cfg_n cfg))).
  induction k as [|k IH]; intros ret s g Hs Hd l; cbn [fgets_loop].
  - exists s. cbn. rewrite orb_false_r. split; [done|by apply sim_read_0].
  - destruct (sim_read 1 s g Hs Hd ltac:(lia)) as (bs & s1 & Hrd). change (Z.of_nat 1) with 1 in Hrd. unfold l. pose proof (after_read_rest 1 g) as Hnext.
    destruct (drop (rp g) (rc g)) as [|c rest]; cbn [line line_ends length Nat.leb take] in *.
    + destruct Hrd as (-> & _ & Hs1). cbn [mbind outcome_bind Z.eqb]. exists s1. rewrite orb_false_r. done.
    + destruct Hrd as [-> Hs1]. cbn [mbind outcome_bind Z.eqb Pos.eqb Z.ltb Z.compare of_option head]. change (1 <? 0) with false. cbn [mbind outcome_bind].
      destruct (Z.eqb_spec c 10) as [->|Hc].
      * exists s1. rewrite orb_true_r. done.
      * destruct (IH true s1 _ Hs1 eq_refl) as (s2 & -> & Hs2). rewrite Hnext in Hs2 |- *. change (drop 1 (c :: rest)) with rest in *. cbn [mbind outcome_bind orb]. exists s2. rewrite orb_true_r. split; [done|].
        destruct (line_ends k rest); [by rewrite after_read_add in Hs2|done].
Qed.

Lemma fseek_spec o w s g : sim s g → let t := seek_base w (length (rc g)) (rp g) + o in 0 ≤ t ≤ Z.of_nat (length (rc g)) →
  ∃ s', fseek W We n fuel s o w = Ok (0, s') ∧ sim s' (at_pos (Z.to_nat t) g).
Proof.
  intros Hs t Ht. destruct (call_rwflush_spec s g Hs) as (s1 & E & [Hb Hf] & Hp & Hm). destruct Hs as [Hpl Hl _ _]. unfold fseek. destruct f_lseek_law as (sk & -> & _). rewrite E. cbn [mbind outcome_bind].
  destruct (do_lseek_spec s1 _ _ _ _ o w Hb Ht) as (h & -> & Hb'). fold t in Hb' |- *. cbn [mbind outcome_bind pos set_pos]. pose proof (cfg_pos cfg). pose proof (cfg_error cfg).
  assert (fpos (error_t We t) = t) as ->.
  { unfold fpos, error_t. rewrite (wraps_small We) by lia. apply wraps_small; [lia|]. change (2 ^ (32 - 1)) with (2 ^ 31). lia. }
  destruct (Z.geb_spec t 0); [|lia]. eexists. split; [done|]. split; cbn; [lia|done|lia|]. left. split; [by eapply (base_set (set_hndl h s1))|done].
Qed.

Lemma stream_step_spec o s g v g' : sim s g → ref_op f_limit o g = Some (v, g') → ∃ v' s', run_op W We n junk fuel o s = Ok (v', s') ∧ res_match v' v ∧ sim s' g'.
Proof.
  intros Hs Ho. destruct o as [size m|ptr size m| |size|c|str|x w| | |mode|]; cbn [ref_op run_op] in *.
  - destruct (Z.ltb_spec f_limit (Z.of_nat size)); [done|]. unfold fread. destruct (is_writing (rdir g)) eqn:Hd; [by destruct (_ <=? _)%nat|].
    destruct (fread_spec size m 0 s g Hs Hd ltac:(lia)) as (bs & s' & H1). destruct (_ <=? _)%nat; injection Ho as <- <-.
    + destruct H1 as [-> H1]. cbn [mbind outcome_bind]. do 2 eexists. split; [done|]. split; [|done]. split; [done|]. by rewrite firstn_all.
    + destruct H1 as (-> & H1 & H2). cbn [mbind outcome_bind]. by do 2 eexists.
  - destruct (Nat.eqb_spec (length ptr) (size * m)); [|done]. destruct (is_reading (rdir g)) eqn:Hd; [done|]. destruct (Z.ltb_spec f_limit (Z.of_nat (rp g + length ptr))); [done|]. injection Ho as <- <-.
    destruct (fwrite_spec size m 0 ptr s g Hs Hd ltac:(done) ltac:(lia)) as (s' & E & Hs'). unfold fwrite. rewrite E. by do 2 eexists.
  - pose proof (cfg_buf cfg). pose proof (Ring.size_pos n ltac:(apply (cfg_n cfg))). destruct (is_writing (rdir g)) eqn:Hd; [by destruct (drop _ _)|].
    destruct (sim_read 1 s g Hs Hd ltac:(lia)) as (bs & s' & H1). change (Z.of_nat 1) with 1 in H1. unfold fgetc.
    destruct (drop (rp g) (rc g)) as [|c rest]; cbn [length Nat.leb take] in H1; injection Ho as <- <-.
    + destruct H1 as (-> & _ & H1). by do 2 eexists.
    + destruct H1 as [-> H1]. by do 2 eexists.
  - destruct (is_writing (rdir g)) eqn:Hd; [done|]. injection Ho as <- <-. destruct (fgets_spec (size - 1) false s g Hs Hd) as (s' & E & Hs'). unfold fgets. rewrite E. by do 2 eexists.
  - destruct (is_reading (rdir g)) eqn:Hd; [done|]. destruct (Z.ltb_spec f_limit (Z.of_nat (rp g + length [c]))); [done|]. injection Ho as <- <-.
    destruct (sim_write [c] s g Hs Hd ltac:(lia)) as (s' & E & Hs'). unfold fputc. rewrite E. by do 2 eexists.
  - destruct (is_reading (rdir g)) eqn:Hd; [done|]. destruct (Z.ltb_spec f_limit (Z.of_nat (rp g + length str))); [done|]. injection Ho as <- <-.
    destruct (sim_write str s g Hs Hd ltac:(lia)) as (s' & E & Hs'). unfold fputs. rewrite E. by do 2 eexists.
  - destruct (Z.leb_spec 0 (seek_base w (length (rc g)) (rp g) + x)); [|done]. destruct (Z.leb_spec (seek_base w (length (rc g)) (rp g) + x) (Z.of_nat (length (rc g)))); [|done].
    injection Ho as <- <-. destruct (fseek_spec x w s g Hs ltac:(done)) as (s' & -> & Hs'). by do 2 eexists.
  - destruct (is_reading (rdir g)) eqn:Hd; [done|]. injection Ho as <- <-. unfold fflush. destruct f_write_law as (wr & -> & _).
    destruct (behind_flush_spec s _ _ (sim_writable _ _ Hs Hd)) as (s' & -> & Hi & Hp & _); [destruct Hs; lia|]. do 2 eexists. split; [done|]. split; [done|]. by eapply sim_freed.
  - destruct (is_writing (rdir g)) eqn:Hd; [done|]. destruct (rknown g) eqn:Hk; [|done]. injection Ho as <- <-. unfold fpurge. destruct f_read_law as (rd & -> & _).
    assert (pos s = Z.of_nat (rp g)) as Hpos by (pose proof (sim_pos _ _ Hs) as H1; by rewrite Hk in H1).
    assert (∃ lr, base s (rc g) (rp g + length lr) lr []) as [lr Hb] by (destruct (sim_readable _ _ Hs Hd) as [[Hb _]|(_ & _ & _ & lr & Hb & _)]; [exists []; cbn; by rewrite Nat.add_0_r|by exists lr]).
    destruct (read_flush_spec s _ _ lr Hb Hpos) as (s' & -> & Hi & Hp & _). do 2 eexists. split; [done|]. split; [done|]. by eapply sim_freed.
  - injection Ho as <- <-. unfold setvbuf. destruct (call_rwflush_spec s g Hs) as (s1 & -> & [Hb Hf] & Hp & _). cbn [mbind outcome_bind]. do 2 eexists. split; [done|]. split; [done|].
    apply (sim_freed s); [done| |done]. split; [by eapply (base_set s1)|done].
  - destruct (rknown g) eqn:Hk; [|done]. injection Ho as <- <-. do 2 eexists. split; [done|]. split; [|done]. cbn. unfold ftell. f_equal. pose proof (sim_pos _ _ Hs) as H1. by rewrite Hk in H1.
Qed.

Lemma run_spec l : ∀ s g vs g', sim s g → ref_run f_limit l g = Some (vs, g') → ∃ vs' s', run W We n junk fuel l s = Ok (vs', s') ∧ Forall2 res_match vs' vs ∧ sim s' g'.
Proof.
  induction l as [|o l IH]; intros s g vs g' Hs Hr; cbn [ref_run run] in *; [injection Hr as <- <-; by exists [], s|].
  destruct (ref_op f_limit o g) as [[v g1]|] eqn:Ho; [|done]. destruct (ref_run f_limit l g1) as [[vs1 g2]|] eqn:Hr1; [|done]. injection Hr as <- <-.
  destruct (stream_step_spec o s g v g1 Hs Ho) as (v' & s1 & -> & Hv & Hs1). cbn [mbind outcome_bind]. destruct (IH s1 g1 vs1 g2 Hs1 Hr1) as (vs' & s2 & -> & Hvs & Hs2).
  cbn [mbind outcome_bind]. do 2 eexists. split; [done|]. split; [by constructor|done].
Qed.

Lemma fopen_spec h d1 d2 : f_ok h → length d1 = Ring.cap n → length d2 = Ring.cap n →
  ∃ s, fopen_stream h d1 d2 = Ok s ∧ sim s {| rc := f_contents h; rp := f_offset h; rknown := true; rdir := Free |}.
Proof.
  intros Hok H1 H2. pose proof (cfg_n cfg). pose proof (f_ok_offset _ Hok) as [Ho Hl]. assert (base (stdio_stream_init h d1 d2) (f_contents h) (f_offset h) [] []) as Hb.
  { split; [done|done|done|apply Ring.init_rep; [lia|lia|done]|apply Ring.init_rep; [lia|lia|done]]. }
  unfold fopen_stream. destruct (do_lseek_spec _ _ _ _ _ 0 SEEK_CUR Hb) as (h' & -> & Hb'); [cbn; lia|]. cbn [mbind outcome_bind seek_base] in *. rewrite Z.add_0_r in *. rewrite Nat2Z.id in Hb'.
  eexists. split; [done|]. split; cbn; [done|done| |left; split; [by eapply (base_set _ _ _ _ _ _ Hb')|done]].
  unfold fpos. pose proof (cfg_pos cfg). rewrite wraps_small; [done|lia|]. change (2 ^ (32 - 1)) with (2 ^ 31). lia.
Qed.

Lemma fclose_spec s g : sim s g → ∃ s', fclose W We n fuel s = Ok (0, s', false) ∧ f_contents (hndl s') = rc g.
Proof.
  intros Hs. destruct (call_rwflush_spec s g Hs) as (s1 & E & [Hb _] & _). unfold fclose. destruct f_close_law as (cl & -> & Hcl). rewrite E. cbn [mbind outcome_bind Z.eqb negb].
  destruct Hb as [Hok Hc _ _ _]. destruct (Hcl _ Hok) as (h & -> & Hh). cbn [mbind outcome_bind Z.eqb negb]. eexists. split; [done|]. cbn. congruence.
Qed.
End sim.

(** *** Devices that fail *)

Section failure.
Context {F : Type} {ops : FileOps F} (W We n : Z) (Hn : 0 ≤ n < W) (fuel : nat) (wr : F → list Z → outcome (Z * F)) (out : F → list Z).
(** The device fails and takes nothing, or takes some of the bytes. *)
Definition may_fail : Prop := f_write = Some wr ∧ ∀ h bs, bs ≠ [] →
  ∃ res h', wr h bs = Ok (res, h') ∧ (res < 0 ∧ out h' = out h ∨ ∃ k, res = Z.of_nat k ∧ (0 < k ≤ length bs)%nat ∧ out h' = out h ++ take k bs).
Context (Hdev : may_fail).

Lemma flush_loop_keeps fl : ∀ ptr s, Ring.rep W n (fifo_write s) [] → Z.of_nat (length ptr) ≤ 2 ^ n → (length ptr ≤ fl)%nat →
  ∃ res s' lw, write_flush_loop W We n fl ptr s = Ok (res, s') ∧ Ring.rep W n (fifo_write s') lw ∧ out (hndl s') ++ lw = out (hndl s) ++ ptr ∧
    (lw = [] ∧ res = 0 ∧ rwflush s' = stdio_no_flush ∧ error s' = error s ∨ lw ≠ [] ∧ (∃ e, e < 0 ∧ res = error_t We e) ∧ rwflush s' = rwflush s ∧ error s' = true) ∧
    fifo_read s' = fifo_read s ∧ pos s' = pos s.
Proof.
  destruct Hdev as [Hw Hwr]. induction fl as [|fl IH]; intros ptr s Hr Hl Hf; destruct ptr as [|x ptr]; cbn [write_flush_loop length] in *; [|lia| |];
    try (exists 0, (set_rwflush stdio_no_flush s), []; split_and!; [done|done|done|by left|done|done]).
  set (l := x :: ptr) in *. destruct (Hwr (hndl s) l) as (res & h & E & Hres); [done|]. unfold do_write. rewrite Hw. cbn [of_option mbind outcome_bind]. rewrite E. cbn [mbind outcome_bind].
  change (S (length ptr)) with (length l) in *. unfold length_z. destruct Hres as [[Hneg Hout]|(k & -> & Hk & Hout)].
  - destruct (Z.leb_spec res (Z.of_nat (length l))); [|lia]. cbn [require mbind outcome_bind]. destruct (Z.ltb_spec res 0); [|lia].
    destruct (Ring.pushback_array_spec W n ltac:(lia) ltac:(lia) _ _ l Hr) as (r & Er & Hr'). cbn [fifo_write set_error set_hndl]. rewrite Er. cbn [mbind outcome_bind].
    pose proof (Ring.cap_size n ltac:(lia)). rewrite take_ge in Hr' by (cbn [length] in *; lia).
    exists (error_t We res), (set_fifo_write r (set_error true (set_hndl h s))), l. cbn [hndl set_fifo_write set_error set_hndl fifo_write app] in *.
    split_and!; [done|done|by rewrite Hout| |done|done]. right. split_and!; [done|by exists res|done|done].
  - destruct (Z.leb_spec (Z.of_nat k) (Z.of_nat (length l))); [|lia]. cbn [require mbind outcome_bind]. destruct (Z.ltb_spec (Z.of_nat k) 0); [lia|]. rewrite Nat2Z.id.
    destruct (IH (drop k l) (set_hndl h s)) as (res & s' & lw & -> & Hr' & Ho & Hc & H1 & H2); [done|rewrite length_drop; lia|rewrite length_drop; lia|].
    exists res, s', lw. cbn [hndl set_hndl] in Ho. rewrite Hout, <-app_assoc, take_drop in Ho. split_and!; [done|done|done|exact Hc|done|done].
Qed.
End failure.

(** ** Theorems *)

(** C6. A stream is the file: for every file that satisfies the laws (which may
    transfer less than asked for), every size of the buffers and every sequence of
    [fread], [fwrite], [fgetc], [fgets], [fputc], [fputs], [fseek], [fflush],
    [fpurge], [setvbuf] and [ftell] that [ref_op] admits, each call returns what it
    returns on a plain list of bytes with a position, and after [fclose] the file
    holds that list.  [ref_op] admits the calls that separate reads from writes by a
    flush, a seek or the end of the file, seek inside the file, keep it below the
    limit of the position, and do not ask for the position ([ftell], [fpurge]) between
    a read that met the end and the next seek.  Seeks behind the end, [ungetc] and the
    indicators [feof] and [ferror] are outside of the statement: the theorems
    [short_read_shifts_position], [ungetc_shifts_position] and [fseek_keeps_eof]
    below show that the code does not follow the standard there. *)
Theorem stream_is_the_file {F : Type} {ops : FileOps F} {laws : FileLaws F} (W We n : Z) (junk : list Z) (fuel : nat) (h : F) (d1 d2 : list Z) (l : list op) (rs : list res) (g : ref) :
  config f_limit W We n junk fuel → f_ok h → length d1 = Z.to_nat (2 ^ n) → length d2 = Z.to_nat (2 ^ n) →
  ref_run f_limit l {| rc := f_contents h; rp := f_offset h; rknown := true; rdir := Free |} = Some (rs, g) →
  ∃ s rs' s' s'', fopen_stream h d1 d2 = Ok s ∧ run W We n junk fuel l s = Ok (rs', s') ∧ Forall2 res_match rs' rs ∧
    fclose W We n fuel s' = Ok (0, s'', false) ∧ f_contents (hndl s'') = rc g.
Proof.
  intros cfg Hok H1 H2 Hrun. destruct (fopen_spec W We n junk fuel cfg h d1 d2 Hok H1 H2) as (s & Es & Hs).
  destruct (run_spec W We n junk fuel cfg l s _ rs g Hs Hrun) as (rs' & s' & Er & Hrs & Hs'). destruct (fclose_spec W We n junk fuel cfg s' g Hs') as (s'' & Ec & Hc).
  by exists s, rs', s', s''.
Qed.

(** C30. A flush that fails loses nothing: what the device took, followed by what the
    buffer still holds, is what it was before, in order; an error is reported
    exactly when bytes are left, so that the flush can be repeated. *)
Theorem failed_flush_keeps_bytes {F : Type} {ops : FileOps F} (W We n : Z) (fuel : nat) (wr : F → list Z → outcome (Z * F)) (out : F → list Z) (s : FILE F) (lw : list Z) :
  0 ≤ n < W → 2 ^ n ≤ Z.of_nat fuel → may_fail wr out → Ring.rep W n (fifo_write s) lw →
  ∃ res s' lw', stdio_write_flush W We n fuel s = Ok (res, s') ∧ Ring.rep W n (fifo_write s') lw' ∧ out (hndl s') ++ lw' = out (hndl s) ++ lw ∧
    (lw' = [] ∧ res = 0 ∧ rwflush s' = stdio_no_flush ∧ error s' = error s ∨ lw' ≠ [] ∧ (∃ e, e < 0 ∧ res = error_t We e) ∧ rwflush s' = rwflush s ∧ error s' = true).
Proof.
  intros Hn Hf Hdev Hr. unfold stdio_write_flush, BUFSIZ. pose proof (Ring.cap_size n ltac:(lia)) as Hc. rewrite <-Hc in *. pose proof (Ring.rep_cap _ _ _ _ Hr) as Hcap.
  destruct (Ring.pop_array_spec W n ltac:(lia) ltac:(lia) _ _ (Ring.cap n) Hr) as (r & -> & Hr'). cbn [mbind outcome_bind]. rewrite take_ge by lia. rewrite drop_ge in Hr' by lia.
  destruct (flush_loop_keeps W We n Hn wr out Hdev fuel lw (set_fifo_write r s)) as (res & s' & lw' & E & Hr2 & Ho & Hcase & _); [done|lia|lia|].
  exists res, s', lw'. by split_and!.
Qed.

(** Streams on the memory file system: the same for every file of the memory file
    system that stays below the limit of [fpos_t], where the allocator finds memory
    and makes the block of a file larger in place. *)
Theorem ramfs_stream_is_the_file (W We L n : Z) (junk : list Z) (fuel : nat) (ans : RamfsFile.ramfs_data_s → list Z → RamfsFile.answer) (f : RamfsFile.rfile) (d1 d2 : list Z) (l : list op) (rs : list res) (g : ref) :
  16 ≤ W → L ≤ 2 ^ (W - 1) - 4097 → config L W We n junk fuel →
  (∀ d off bs, RamfsFile.data_ok W d → 0 ≤ off ≤ RamfsFile.actual_size d → off + Z.of_nat (length bs) ≤ L → RamfsFile.grows (ans d bs) (RamfsFile.data d) (Z.lor (off + Z.of_nat (length bs)) 0xfff + 1)) →
  RamfsFile.file_ok W L f → length d1 = Z.to_nat (2 ^ n) → length d2 = Z.to_nat (2 ^ n) →
  ref_run L l {| rc := RamfsFile.contents (RamfsFile.rf_data f); rp := Z.to_nat (RamfsFile.rf_offset f); rknown := true; rdir := Free |} = Some (rs, g) →
  ∃ s rs' s' s'', @fopen_stream _ (RamfsFile.ramfs_ops W ans) f d1 d2 = Ok s ∧ @run _ (RamfsFile.ramfs_ops W ans) W We n junk fuel l s = Ok (rs', s') ∧ Forall2 res_match rs' rs ∧
    @fclose _ (RamfsFile.ramfs_ops W ans) W We n fuel s' = Ok (0, s'', false) ∧ RamfsFile.contents (RamfsFile.rf_data (hndl s'')) = rc g.
Proof.
  intros HW HL cfg Hans Hok H1 H2 Hrun. set (laws := RamfsFile.ramfs_laws W HW L HL ans Hans). assert (config (@f_limit _ _ laws) W We n junk fuel) as cfg' by exact cfg.
  destruct (@fopen_spec _ _ laws W We n junk fuel cfg' f d1 d2 Hok H1 H2) as (s & Es & Hs).
  destruct (@run_spec _ _ laws W We n junk fuel cfg' l s _ rs g Hs Hrun) as (rs' & s' & Er & Hrs & Hs'). destruct (@fclose_spec _ _ laws W We n junk fuel cfg' s' g Hs') as (s'' & Ec & Hc).
  by exists s, rs', s', s''.
Qed.

(** ** Examples *)

Definition demo_file : RamfsFile.rfile := {| RamfsFile.rf_data := RamfsFile.ramfs_data_new; RamfsFile.rf_offset := 0; RamfsFile.rf_refs := 2 |}.
Definition demo_junk : list Z := [170; 170; 170; 170].
Lemma demo_config : config 200 32 32 2 demo_junk 200.
Proof. split; cbn; lia. Qed.
Lemma stream_demo_grows d off bs : RamfsFile.data_ok 32 d → 0 ≤ off ≤ RamfsFile.actual_size d → off + Z.of_nat (length bs) ≤ 200 → RamfsFile.grows (RamfsFile.roomy d bs) (RamfsFile.data d) (Z.lor (off + Z.of_nat (length bs)) 0xfff + 1).
Proof. intros Hd Ho _. by eapply RamfsFile.roomy_grows. Qed.
Definition demo_laws : @FileLaws RamfsFile.rfile (RamfsFile.ramfs_ops 32 RamfsFile.roomy) := RamfsFile.ramfs_laws 32 ltac:(lia) 200 ltac:(lia) RamfsFile.roomy stream_demo_grows.
Lemma demo_file_ok : RamfsFile.file_ok 32 200 demo_file.
Proof. split; [split; cbn; lia|cbn; lia]. Qed.

(** Two lines are written, the stream is rewound and read line by line, a byte is
    replaced in the middle, and the end is met. *)
Definition demo_ops : list op := [OFputs [104; 101; 108; 108; 111; 10]; OFwrite [119; 111; 114; 108] 2 2; OFputc 100; OFtell; OFseek 0 SEEK_SET; OFgets 10; OFgetc; OFseek (-1) SEEK_CUR; OFputc 87; OFflush;
  OSetvbuf IOLBF; OFseek 3 SEEK_SET; OFputs [76; 10; 79]; OFseek 0 SEEK_SET; OSetvbuf IOFBF; OFread 4 5].
Definition demo_ref : ref := {| rc := []; rp := 0; rknown := true; rdir := Free |}.
Definition demo_end : list res * ref := default ([], demo_ref) (ref_run 200 demo_ops demo_ref).

Lemma stream_is_the_file_witness :
  ∃ s rs' s' s'', @fopen_stream _ (RamfsFile.ramfs_ops 32 RamfsFile.roomy) demo_file demo_junk demo_junk = Ok s ∧
    @run _ (RamfsFile.ramfs_ops 32 RamfsFile.roomy) 32 32 2 demo_junk 200 demo_ops s = Ok (rs', s') ∧ Forall2 res_match rs' demo_end.1 ∧
    @fclose _ (RamfsFile.ramfs_ops 32 RamfsFile.roomy) 32 32 2 200 s' = Ok (0, s'', false) ∧ @f_contents _ _ demo_laws (hndl s'') = rc demo_end.2.
Proof.
  apply (@stream_is_the_file _ _ demo_laws 32 32 2 demo_junk 200 demo_file demo_junk demo_junk demo_ops demo_end.1 demo_end.2);
    [apply demo_config|apply demo_file_ok|reflexivity|reflexivity|vm_compute; reflexivity].
Defined.

Lemma ramfs_stream_is_the_file_witness :
  ∃ s rs' s' s'', @fopen_stream _ (RamfsFile.ramfs_ops 32 RamfsFile.roomy) demo_file demo_junk demo_junk = Ok s ∧
    @run _ (RamfsFile.ramfs_ops 32 RamfsFile.roomy) 32 32 2 demo_junk 200 demo_ops s = Ok (rs', s') ∧ Forall2 res_match rs' demo_end.1 ∧
    @fclose _ (RamfsFile.ramfs_ops 32 RamfsFile.roomy) 32 32 2 200 s' = Ok (0, s'', false) ∧ RamfsFile.contents (RamfsFile.rf_data (hndl s'')) = rc demo_end.2.
Proof.
  apply (ramfs_stream_is_the_file 32 32 200 2 demo_junk 200 RamfsFile.roomy demo_file demo_junk demo_junk demo_ops demo_end.1 demo_end.2);
    [lia|lia|apply demo_config|apply stream_demo_grows|apply demo_file_ok|reflexivity|reflexivity|vm_compute; reflexivity].
Defined.

(** A device that takes one byte at a time and fails after two. *)
Definition slow_write (h : list Z * nat) (bs : list Z) : outcome (Z * (list Z * nat)) :=
  match h with
  | (o, S k) => Ok (1, (o ++ take 1 bs, k))
  | (o, O) => Ok (-11, (o, 2%nat))
  end.
Definition slow_ops : FileOps (list Z * nat) := {| f_read := None; f_write := Some slow_write; f_lseek := None; f_close := None |}.
Definition slow_stream : FILE (list Z * nat) :=
  {| hndl := ([], 2%nat); rwflush := stdio_write_flush_f; fifo_read := Ring.init demo_junk; fifo_write := {| Ring.first := 2; Ring.count := 3; Ring.data := [67; 170; 65; 66] |};
     pos := 3; buf_mode := IOFBF; eof := false; error := false |}.
Lemma slow_may_fail : @may_fail _ slow_ops slow_write fst.
Proof.
  split; [done|]. intros [o [|k]] bs Hbs; do 2 eexists; (split; [reflexivity|]); [left; done|]. right. exists 1%nat. split_and!; [done|lia|destruct bs; [done|cbn; lia]|done].
Qed.
Lemma slow_rep : Ring.rep 32 2 (fifo_write slow_stream) [65; 66; 67].
Proof. split; cbn; try lia. intros [|[|[|k]]] x H; cbn in H; try discriminate; injection H as <-; reflexivity. Qed.

Lemma failed_flush_keeps_bytes_witness :
  ∃ res s' lw', @stdio_write_flush _ slow_ops 32 32 2 4 slow_stream = Ok (res, s') ∧ Ring.rep 32 2 (fifo_write s') lw' ∧ fst (hndl s') ++ lw' = [65; 66; 67] ∧
    (lw' = [] ∧ res = 0 ∧ rwflush s' = stdio_no_flush ∧ error s' = error slow_stream ∨ lw' ≠ [] ∧ (∃ e, e < 0 ∧ res = error_t 32 e) ∧ rwflush s' = rwflush slow_stream ∧ error s' = true).
Proof. apply (@failed_flush_keeps_bytes _ slow_ops 32 32 2 4 slow_write fst slow_stream [65; 66; 67]); [lia|vm_compute; discriminate|apply slow_may_fail|apply slow_rep]. Defined.

(** ** Defects *)

Definition ramfs32 : FileOps RamfsFile.rfile := RamfsFile.ramfs_ops 32 RamfsFile.roomy.
(** A stream on a file that holds [bs], at its start. *)
Definition stream_of (bs : list Z) : outcome (FILE RamfsFile.rfile) :=
  @fopen_stream _ ramfs32 {| RamfsFile.rf_data := {| RamfsFile.data := Some bs; RamfsFile.allocated_size := Z.of_nat (length bs); RamfsFile.actual_size := Z.of_nat (length bs) |};
                             RamfsFile.rf_offset := 0; RamfsFile.rf_refs := 2 |} demo_junk demo_junk.

(** A byte that is pushed back and read again counts twice in the position. *)
Theorem ungetc_shifts_position :
  (s ← stream_of [104; 105; 10]; '(c, s) ← @fgetc _ ramfs32 32 32 2 demo_junk 4 s; '(_, s) ← ungetc 32 2 c s; '(d, s) ← @fgetc _ ramfs32 32 32 2 demo_junk 4 s; Ok (c, d, ftell s)) = Ok (104, 104, 2).
Proof. vm_compute. reflexivity. Qed.

(** A buffered read that meets the end moves the position behind it, and stores
    bytes of the uninitialised local buffer. *)
Theorem short_read_shifts_position :
  (s ← stream_of [104; 105]; '(i, bs, s) ← @fread _ ramfs32 32 32 2 demo_junk 4 4 1 s; Ok (i, bs, ftell s)) = Ok (0, [104; 105; 170; 170], 4).
Proof. vm_compute. reflexivity. Qed.

(** A seek does not clear the end of file indicator. *)
Theorem fseek_keeps_eof :
  (s ← stream_of [104]; '(_, s) ← @fread _ ramfs32 32 32 2 demo_junk 4 4 1 s; '(v, s) ← @fseek _ ramfs32 32 32 2 4 s 0 SEEK_SET; Ok (v, eof s)) = Ok (0, true).
Proof. vm_compute. reflexivity. Qed.

(** The table of the file returns the position as an error code: where that has 8
    bits a seek to a byte behind the first 128 fails. *)
Theorem fseek_small_error_t :
  (s ← stream_of (replicate 200 0); '(v, s) ← @fseek _ ramfs32 32 8 2 4 s 150 SEEK_SET; Ok (v, ftell s)) = Ok (EOF, -106).
Proof. vm_compute. reflexivity. Qed.

(** The mode w asks for a truncation, which the memory file system starts before
    the open file has its data. *)
Theorem fopen_w_undefined (d : RamfsFile.ramfs_data_s) : RamfsFile.ramfs_node_open true (open_flags [119]) d = Err FUndef.
Proof. vm_compute. reflexivity. Qed.

(** The mode a does not create the file. *)
Theorem fopen_a_does_not_create : Z.land (open_flags [97]) VFS_OPEN_CREATE = 0.
Proof. reflexivity. Qed.
End StdioSpec.
