(* ===== verification/Fdt.v ===== *)
(** * Flattened device trees (libfdt: fdt_writer.c, fdt_reader.c)

    The writer builds a blob in a buffer: header, reservation map, structure from
    the start, strings from the end; the reader walks a blob and calls the
    functions of a client.  A blob is a list of bytes and a pointer an offset. *)

From S2P Require Import Prelude Endian.
Import Endian.

Module Fdt.

Definition FDT_MAGIC : Z := 0xd00dfeed.
Definition FDT_NODE_START : Z := 1.
Definition FDT_NODE_END : Z := 2.
Definition FDT_PROP : Z := 3.
Definition FDT_NOP : Z := 4.
Definition FDT_END : Z := 9.
(** sizeof(struct fdt_header_s), sizeof(struct fdt_mem_reserve_map_s). *)
Definition header_size : Z := 40.
Definition rsvmap_size : Z := 16.

Section fdt.
(** The byte order of the processor. *)
Context (big : bool).

(** ** Memory *)

Definition endian_be32 (x : Z) : Z := if big then x else __endian_swap32 x.
Definition endian_be64 (x : Z) : Z := if big then x else __endian_swap64 x.
Definition word_bytes (n x : Z) : list Z := if big then be_bytes n x else le_bytes n x.
Fixpoint le_value (l : list Z) : Z := match l with [] => 0 | b :: l => b + 256 * le_value l end.
Definition word_value (l : list Z) : Z := if big then le_value (reverse l) else le_value l.

Definition store (a : Z) (bs : list Z) (m : list Z) : outcome (list Z) :=
  if (0 <=? a) && (a + Z.of_nat (length bs) <=? Z.of_nat (length m)) then Ok (write_at m (Z.to_nat a) bs) else Err FBounds.
Definition load (a n : Z) (m : list Z) : outcome (list Z) :=
  if (0 <=? a) && (a + n <=? Z.of_nat (length m)) then Ok (take (Z.to_nat n) (drop (Z.to_nat a) m)) else Err FBounds.
Definition store32 (a x : Z) (m : list Z) : outcome (list Z) := store a (word_bytes 4 x) m.
Definition store64 (a x : Z) (m : list Z) : outcome (list Z) := store a (word_bytes 8 x) m.
Definition load32 (a : Z) (m : list Z) : outcome Z := l ← load a 4 m; Ok (word_value l).
Definition load64 (a : Z) (m : list Z) : outcome Z := l ← load a 8 m; Ok (word_value l).

(** The string at an address, without its zero. *)
Fixpoint until_zero (l : list Z) : outcome (list Z) :=
  match l with
  | [] => Err FBounds
  | b :: l => if b =? 0 then Ok [] else s ← until_zero l; Ok (b :: s)
  end.
Definition cstr (a : Z) (m : list Z) : outcome (list Z) := require (0 <=? a) FBounds;; until_zero (drop (Z.to_nat a) m).
Definition strlen (s : list Z) : Z := Z.of_nat (length s).

(** ** Writer *)

Record fdt_writer_s := { mem_reserve_ptr : Z; struct_begin : Z; struct_ptr : Z; rst : Z; end_ : Z; err : Z }.

Definition set_struct_ptr (p : Z) (w : fdt_writer_s) := {| mem_reserve_ptr := mem_reserve_ptr w; struct_begin := struct_begin w; struct_ptr := p; rst := rst w; end_ := end_ w; err := err w |}.
Definition set_rst (p : Z) (w : fdt_writer_s) := {| mem_reserve_ptr := mem_reserve_ptr w; struct_begin := struct_begin w; struct_ptr := struct_ptr w; rst := p; end_ := end_ w; err := err w |}.
Definition set_err (e : Z) (w : fdt_writer_s) := {| mem_reserve_ptr := mem_reserve_ptr w; struct_begin := struct_begin w; struct_ptr := struct_ptr w; rst := rst w; end_ := end_ w; err := e |}.

Definition fdt_writer_init (available_size : Z) (m : list Z) : outcome (fdt_writer_s * list Z) :=
  let mem_reserve := header_size in
  let begin := mem_reserve + rsvmap_size in
  let e := available_size - 1 in
  m ← store e [0] m;
  Ok ({| mem_reserve_ptr := mem_reserve; struct_begin := begin; struct_ptr := begin; rst := e; end_ := e; err := 0 |}, m).

Definition fdt_writer_add_rsvmap (addr size : Z) (w : fdt_writer_s) (m : list Z) : outcome (fdt_writer_s * list Z) :=
  m ← store64 (mem_reserve_ptr w) (endian_be64 addr) m;
  m ← store64 (mem_reserve_ptr w + 8) (endian_be64 size) m;
  let p := mem_reserve_ptr w + rsvmap_size in
  Ok ({| mem_reserve_ptr := p; struct_begin := p + rsvmap_size; struct_ptr := p + rsvmap_size; rst := rst w; end_ := end_ w; err := err w |}, m).

(** A word at the end of the structure. *)
Definition push_word (x : Z) (w : fdt_writer_s) (m : list Z) : outcome (fdt_writer_s * list Z) :=
  m ← store32 (struct_ptr w) (endian_be32 x) m;
  Ok (set_struct_ptr (struct_ptr w + 4) w, m).

Definition fdt_writer_node_entry (name : list Z) (w : fdt_writer_s) (m : list Z) : outcome (Z * fdt_writer_s * list Z) :=
  if negb (err w =? 0) || (struct_ptr w >? rst w) then Ok (0, set_err (- ENOMEM) w, m) else
  let len := strlen name in
  let offset := 4 * ((struct_ptr w - struct_begin w) / 4) in
  '(w, m) ← push_word FDT_NODE_START w m;
  m ← store (struct_ptr w) name m;
  Ok (offset, set_struct_ptr (struct_ptr w + 4 * Z.shiftr (len + 4) 2) w, m).

(** [fuel]: the bytes of the strings. *)
Fixpoint lookup_loop (fuel : nat) (lookup : Z) (str : list Z) (w : fdt_writer_s) (m : list Z) : outcome (option Z) :=
  if lookup <? end_ w then
    match fuel with
    | O => Err FFuel
    | S fuel =>
        s ← cstr lookup m;
        if decide (s = str) then Ok (Some (end_ w - lookup - strlen str - 1))
        else lookup_loop fuel (lookup + strlen s + 1) str w m
    end
  else Ok None.
Definition fdt_writer_push_string (str : list Z) (w : fdt_writer_s) (m : list Z) : outcome (Z * fdt_writer_s * list Z) :=
  let len := strlen str in
  r ← lookup_loop (length m) (rst w) str w m;
  match r with
  | Some strid => Ok (strid, w, m)
  | None =>
      let p := rst w - (len + 1) in
      m ← store p (str ++ [0]) m;
      Ok (end_ w - p - len - 1, set_rst p w, m)
  end.

Definition fdt_writer_node_prop (name data : list Z) (w : fdt_writer_s) (m : list Z) : outcome (fdt_writer_s * list Z) :=
  let len := Z.of_nat (length data) in
  if negb (err w =? 0) || (struct_ptr w + 8 + len >? rst w) then Ok (set_err (- ENOMEM) w, m) else
  '(w, m) ← push_word FDT_PROP w m;
  '(w, m) ← push_word len w m;
  '(strid, w, m) ← fdt_writer_push_string name w m;
  '(w, m) ← push_word strid w m;
  m ← store (struct_ptr w) data m;
  Ok (set_struct_ptr (struct_ptr w + 4 * Z.shiftr (len + 3) 2) w, m).

Definition fdt_writer_node_leave (w : fdt_writer_s) (m : list Z) : outcome (fdt_writer_s * list Z) :=
  if negb (err w =? 0) || (struct_ptr w >? rst w) then Ok (set_err (- ENOMEM) w, m) else
  push_word FDT_NODE_END w m.

Fixpoint strings_loop (fuel : nat) (string_table string_orig : Z) (w : fdt_writer_s) (m : list Z) : outcome (list Z) :=
  if string_orig <? end_ w then
    match fuel with
    | O => Err FFuel
    | S fuel =>
        s ← cstr string_orig m;
        let offset := end_ w - string_orig - strlen s - 1 in
        m ← store (string_table + offset) (s ++ [0]) m;
        strings_loop fuel string_table (string_orig + (strlen s + 1)) w m
    end
  else Ok m.

(** The fields of the header, in the order of the structure. *)
Fixpoint store_fields (a : Z) (l : list Z) (m : list Z) : outcome (list Z) :=
  match l with
  | [] => Ok m
  | x :: l => m ← store32 a (endian_be32 x) m; store_fields (a + 4) l m
  end.

Definition fdt_writer_finalize (w : fdt_writer_s) (m : list Z) : outcome (Z * Z * fdt_writer_s * list Z) :=
  if negb (err w =? 0) then Ok (err w, 0, w, m) else
  '(w, m) ← push_word FDT_END w m;
  let string_table := struct_ptr w in
  m ← strings_loop (length m) string_table (rst w) w m;
  let real_size := string_table + (end_ w - rst w) in
  m ← store_fields 0 [FDT_MAGIC; real_size; struct_begin w; string_table; header_size; 17; 16; 0; end_ w - rst w; 4 * ((struct_ptr w - struct_begin w) / 4)] m;
  m ← store (struct_begin w - 8) (replicate 8 0) m;
  Ok (0, real_size, w, m).

(** ** Reader *)

(** Words without a zero byte go on; [fuel]: the bytes of the blob. *)
Fixpoint skip_loop (fuel : nat) (p : Z) (m : list Z) : outcome Z :=
  match fuel with
  | O => Err FFuel
  | S fuel =>
      data ← load32 p m;
      let p := p + 4 in
      if Z.land (wrapu 32 (data - 0x01010101)) 0x80808080 =? 0 then skip_loop fuel p m else Ok p
  end.
Definition fdt_skip_str (p : Z) (m : list Z) : outcome Z := skip_loop (length m) p m.

(** The functions of the client, on its own data.  The state of the walker is
    passed as the offset [fdt_reader_get_struct_offset] gives for it. *)
Record fdt_walker_s (P : Type) := {
  on_node_entry : P → Z → list Z → bool * P;
  on_node_leave : P → P;
  on_node_prop : P → Z → list Z → list Z → P;
  on_mem_reserve : P → Z → Z → P }.
Arguments on_node_entry {P} _.
Arguments on_node_leave {P} _.
Arguments on_node_prop {P} _.
Arguments on_mem_reserve {P} _.

(** [char full_path[32]]. *)
Definition strncat (dst src : list Z) (n : nat) : outcome (list Z) :=
  let r := dst ++ take n src in if (length r <? 32)%nat then Ok r else Err FBounds.
(** What is before the last slash. *)
Fixpoint before_slash (l : list Z) : option (list Z) :=
  match l with
  | [] => None
  | c :: l => match before_slash l with Some r => Some (c :: r) | None => if c =? 47 then Some [] else None end
  end.

Section walk.
Context {P : Type} (walker : fdt_walker_s P) (blob : list Z) (string_table struct_base : Z).

Definition fdt_reader_get_struct_offset (p : Z) : Z := p - struct_base - 4.

Record walk_state := { ptr : Z; level : Z; max_level : Z; full_path : list Z; priv : P }.

(** One token: [inl] is the value that is returned. *)
Definition walk_token (s : walk_state) : outcome ((Z * P) + walk_state) :=
  x ← load32 (ptr s) blob;
  let token := endian_be32 x in
  let p := ptr s + 4 in
  if token =? FDT_NODE_START then
    let level := level s + 1 in
    name ← cstr p blob;
    full_path ← strncat (full_path s) [47] 32;
    full_path ← strncat full_path name 32;
    let '(max_level, priv) :=
      if level <? max_level s then
        let '(wanted, priv) := on_node_entry walker (priv s) (fdt_reader_get_struct_offset p) (drop 1 full_path) in
        (if negb wanted then level else max_level s, priv)
      else (max_level s, priv s) in
    p ← fdt_skip_str p blob;
    Ok (inr {| ptr := p; level := level; max_level := max_level; full_path := full_path; priv := priv |})
  else if token =? FDT_PROP then
    x ← load32 p blob;
    let size := endian_be32 x in
    y ← load32 (p + 4) blob;
    let strid := endian_be32 y in
    priv ← (if level s <? max_level s then
              name ← cstr (string_table + strid) blob;
              data ← load (p + 8) size blob;
              Ok (on_node_prop walker (priv s) (fdt_reader_get_struct_offset p) name data)
            else Ok (priv s));
    Ok (inr {| ptr := p + 4 * (wrapu 32 (8 + size + 3) / 4); level := level s; max_level := max_level s; full_path := full_path s; priv := priv |})
  else if token =? FDT_NODE_END then
    let priv := if level s <? max_level s - 1 then on_node_leave walker (priv s) else priv s in
    full_path ← of_option FAssert (before_slash (full_path s));
    let max_level := if max_level s =? level s then 512 else max_level s in
    let level := level s - 1 in
    if level =? 0 then Ok (inl (0, priv)) else
    Ok (inr {| ptr := p; level := level; max_level := max_level; full_path := full_path; priv := priv |})
  else if token =? FDT_NOP then
    Ok (inr {| ptr := p; level := level s; max_level := max_level s; full_path := full_path s; priv := priv s |})
  else if token =? FDT_END then Ok (inl (0, priv s))
  else Ok (inl (- EINVAL, priv s)).

Fixpoint walk_loop (fuel : nat) (s : walk_state) : outcome (Z * P) :=
  match fuel with
  | O => Err FFuel
  | S fuel =>
      r ← walk_token s;
      match r with
      | inl v => Ok v
      | inr s => walk_loop fuel s
      end
  end.
(** Every token takes at least a word. *)
Definition fdt_walk_node (p : Z) (priv : P) : outcome (Z * P) :=
  walk_loop (length blob) {| ptr := p; level := 0; max_level := 512; full_path := []; priv := priv |}.
End walk.

(** [addr]: the address of the blob. *)
Definition fdt_check_header (addr : Z) (blob : list Z) : outcome Z :=
  if addr =? 0 then Ok (- EINVAL) else
  if negb (Z.land addr 3 =? 0) then Ok (- EINVAL) else
  x ← load32 0 blob;
  Ok (if negb (endian_be32 x =? FDT_MAGIC) then - EINVAL else 0).

Definition header_field (i : Z) (blob : list Z) : outcome Z := x ← load32 (4 * i) blob; Ok (endian_be32 x).

Fixpoint reserve_loop {P} (walker : fdt_walker_s P) (fuel : nat) (reserve_map : Z) (blob : list Z) (priv : P) : outcome P :=
  match fuel with
  | O => Err FFuel
  | S fuel =>
      addr ← load64 reserve_map blob;
      size ← load64 (reserve_map + 8) blob;
      if negb (addr =? 0) || negb (size =? 0) then
        reserve_loop walker fuel (reserve_map + rsvmap_size) blob (on_mem_reserve walker priv (endian_be64 addr) (endian_be64 size))
      else Ok priv
  end.

Definition fdt_walk_blob {P} (walker : fdt_walker_s P) (addr : Z) (blob : list Z) (priv : P) : outcome (Z * P) :=
  e ← fdt_check_header addr blob;
  if negb (e =? 0) then Ok (e, priv) else
  string_table ← header_field 3 blob;
  struct_base ← header_field 2 blob;
  reserve_map ← header_field 4 blob;
  priv ← reserve_loop walker (length blob) reserve_map blob priv;
  x ← load32 struct_base blob;
  if negb (endian_be32 x =? FDT_NODE_START) then Ok (- EINVAL, priv) else
  fdt_walk_node walker blob string_table struct_base struct_base priv.

Definition fdt_walk_blob_from {P} (walker : fdt_walker_s P) (addr : Z) (blob : list Z) (offset : Z) (priv : P) : outcome (Z * P) :=
  e ← fdt_check_header addr blob;
  if negb (e =? 0) then Ok (e, priv) else
  string_table ← header_field 3 blob;
  struct_base ← header_field 2 blob;
  let p := struct_base + 4 * (offset / 4) in
  x ← load32 p blob;
  if negb (endian_be32 x =? FDT_NODE_START) then Ok (- EINVAL, priv) else
  fdt_walk_node walker blob string_table struct_base p priv.

(** The search for a property, from the first token behind the name of the node:
    the offset and the size of its value. *)
Fixpoint prop_loop (fuel : nat) (string_table p : Z) (propname : list Z) (blob : list Z) : outcome (option (Z * Z)) :=
  match fuel with
  | O => Err FFuel
  | S fuel =>
      x ← load32 p blob;
      let token := endian_be32 x in
      let p := p + 4 in
      if token =? FDT_PROP then
        size ← load32 p blob;
        strid ← load32 (p + 4) blob;
        pname ← cstr (string_table + endian_be32 strid) blob;
        if decide (propname = pname) then Ok (Some (p + 8, endian_be32 size))
        else prop_loop fuel string_table (p + 4 * (wrapu 32 (8 + endian_be32 size + 3) / 4)) propname blob
      else if (token =? FDT_END) || (token =? FDT_NODE_END) || (token =? FDT_NODE_START) then Ok None
      else prop_loop fuel string_table p propname blob
  end.

Definition fdt_reader_has_prop (blob : list Z) (string_table p : Z) (propname : list Z) : outcome (option (Z * Z)) :=
  p ← fdt_skip_str p blob;
  prop_loop (length blob) string_table p propname blob.

Definition fdt_get_prop_at (blob : list Z) (offset : Z) (propname : list Z) : outcome (option (Z * Z)) :=
  struct_base ← header_field 2 blob;
  string_table ← header_field 3 blob;
  p ← fdt_skip_str (offset + struct_base) blob;
  prop_loop (length blob) string_table p propname blob.

Definition fdt_get_rsvmap (blob : list Z) (resno : Z) : outcome (Z * Z) :=
  reserve_map ← header_field 4 blob;
  let r := reserve_map + 16 * resno in
  a ← load32 r blob;
  b ← load32 (r + 4) blob;
  c ← load32 (r + 8) blob;
  d ← load32 (r + 12) blob;
  Ok (Z.lor (Z.shiftl (endian_be32 a) 32) (endian_be32 b), Z.lor (Z.shiftl (endian_be32 c) 32) (endian_be32 d)).

Definition fdt_get_size (addr : Z) (blob : list Z) : outcome Z :=
  e ← fdt_check_header addr blob;
  if negb (e =? 0) then Ok 0 else header_field 1 blob.
End fdt.
Arguments on_node_entry {P} _.
Arguments on_node_leave {P} _.
Arguments on_node_prop {P} _.
Arguments on_mem_reserve {P} _.
Arguments ptr {P} _.
Arguments level {P} _.
Arguments max_level {P} _.
Arguments full_path {P} _.
Arguments priv {P} _.
End Fdt.
