(* ===== verification/FdtSpec.v ===== *)
(** * Device trees: what is written is what is read (libfdt)

    The file proves that a blob the writer builds makes the reader call the
    functions of its client with what the writer was given, for both byte orders,
    and shows where the writer and the reader go wrong. *)

From S2P Require Import Prelude Endian Fdt.
Import Endian Fdt.

Module FdtSpec.

(** ** Words and bytes *)

Definition is_byte (b : Z) : Prop := 0 ≤ b < 256.

Lemma le_bytes_S n x : 0 ≤ n → le_bytes (n + 1) x = byte_at x 0 :: le_bytes n (x / 256).
Proof.
  intros Hn. unfold le_bytes. rewrite seqZ_cons by lia. cbn [fmap list_fmap]. f_equal. replace (Z.pred (n + 1)) with n by lia.
  apply list_eq. intros i. rewrite !list_lookup_fmap. destruct (decide (Z.of_nat i < n)).
  - rewrite !lookup_seqZ_lt by lia. cbn. f_equal. unfold byte_at. f_equal. change 256 with (2 ^ 8). rewrite <-Z.shiftr_div_pow2, Z.shiftr_shiftr by lia. f_equal. lia.
  - rewrite !lookup_seqZ_ge by lia. done.
Qed.

Lemma byte_at_0 x : byte_at x 0 = x mod 256.
Proof. unfold byte_at. by rewrite Z.shiftr_0_r. Qed.

Lemma le_value_le_bytes (n : nat) : ∀ x, 0 ≤ x < 2 ^ (8 * Z.of_nat n) → le_value (le_bytes (Z.of_nat n) x) = x.
Proof.
  induction n as [|n IH]; intros x Hx; [change (2 ^ (8 * Z.of_nat 0)) with 1 in Hx; by assert (x = 0) as -> by lia|]. replace (Z.of_nat (S n)) with (Z.of_nat n + 1) in * by lia. rewrite le_bytes_S by lia. cbn [le_value].
  replace (8 * (Z.of_nat n + 1)) with (8 * Z.of_nat n + 8) in Hx by lia. rewrite Z.pow_add_r in Hx by lia. change (2 ^ 8) with 256 in Hx.
  rewrite IH, byte_at_0 by (split; [apply Z.div_pos; lia|apply Z.div_lt_upper_bound; lia]). pose proof (Z.div_mod x 256). lia.
Qed.

Lemma le_value_range (l : list Z) : Forall is_byte l → 0 ≤ le_value l < 2 ^ (8 * Z.of_nat (length l)).
Proof.
  induction 1 as [|b l Hb _ IH]; [cbn; lia|]. cbn [le_value length]. replace (8 * Z.of_nat (S (length l))) with (8 * Z.of_nat (length l) + 8) by lia.
  rewrite Z.pow_add_r by lia. change (2 ^ 8) with 256. unfold is_byte in Hb. lia.
Qed.

Lemma le_bytes_le_value (l : list Z) : Forall is_byte l → le_bytes (Z.of_nat (length l)) (le_value l) = l.
Proof.
  induction 1 as [|b l Hb Hl IH]; [done|]. cbn [le_value length]. replace (Z.of_nat (S (length l))) with (Z.of_nat (length l) + 1) by lia. rewrite le_bytes_S by lia.
  unfold is_byte in Hb. rewrite byte_at_0. f_equal.
  - symmetry. apply Z.mod_unique with (le_value l); lia.
  - replace ((b + 256 * le_value l) / 256) with (le_value l); [done|]. apply Z.div_unique with b; lia.
Qed.

Lemma le_bytes_length n x : 0 ≤ n → length (le_bytes n x) = Z.to_nat n.
Proof. intros. unfold le_bytes. by rewrite length_fmap, length_seqZ. Qed.
Lemma be_bytes_length n x : 0 ≤ n → length (be_bytes n x) = Z.to_nat n.
Proof. intros. unfold be_bytes. by rewrite length_reverse, le_bytes_length. Qed.
Lemma le_bytes_byte n x : Forall is_byte (le_bytes n x).
Proof. unfold le_bytes. apply Forall_fmap, Forall_forall. intros k _. cbn. unfold byte_at, is_byte. pose proof (wrapu_range 8 (Z.shiftr x (8 * k))). lia. Qed.
Lemma be_bytes_byte n x : Forall is_byte (be_bytes n x).
Proof. apply Forall_reverse, le_bytes_byte. Qed.

(** A swap of [n] bytes, read back from memory. *)
Lemma swap_value (n : nat) (sw : Z → Z) v : (∀ x k, 0 ≤ k < Z.of_nat n → byte_at (sw x) k = byte_at x (Z.of_nat n - 1 - k)) → (∀ x, 0 ≤ sw x < 2 ^ (8 * Z.of_nat n)) →
  0 ≤ v < 2 ^ (8 * Z.of_nat n) → sw (le_value (be_bytes (Z.of_nat n) v)) = v.
Proof.
  intros Hsw Hr Hv. set (y := le_value (be_bytes (Z.of_nat n) v)). assert (le_bytes (Z.of_nat n) y = be_bytes (Z.of_nat n) v) as Hy.
  { pose proof (le_bytes_le_value _ (be_bytes_byte (Z.of_nat n) v)) as H. rewrite be_bytes_length, Nat2Z.id in H by lia. done. }
  rewrite <-(le_value_le_bytes n (sw y)), <-(le_value_le_bytes n v) by auto. f_equal. rewrite (le_bytes_reverse _ y (sw y)) by auto.
  unfold be_bytes at 1. rewrite Hy. unfold be_bytes. apply reverse_involutive.
Qed.

Section bytes.
Context (big : bool).

Lemma word_bytes_be32 v : word_bytes big 4 (endian_be32 big v) = be_bytes 4 v.
Proof. unfold word_bytes, endian_be32. destruct big; [done|]. apply le_bytes_reverse. intros k Hk. rewrite swap32_byte by done. f_equal. Qed.
Lemma word_bytes_be64 v : word_bytes big 8 (endian_be64 big v) = be_bytes 8 v.
Proof. unfold word_bytes, endian_be64. destruct big; [done|]. apply le_bytes_reverse. intros k Hk. rewrite swap64_byte by done. f_equal. Qed.

Lemma be32_value v : 0 ≤ v < 2 ^ 32 → endian_be32 big (word_value big (be_bytes 4 v)) = v.
Proof.
  intros Hv. unfold word_value, endian_be32. destruct big.
  - unfold be_bytes. rewrite reverse_involutive. by apply (le_value_le_bytes 4).
  - apply (swap_value 4 __endian_swap32); [|apply swap32_range|done]. intros x k Hk. rewrite swap32_byte by done. f_equal.
Qed.

Lemma swap64_range x : 0 ≤ __endian_swap64 x < 2 ^ 64.
Proof.
  assert (__endian_swap64 x = wrapu 64 (__endian_swap64 x)) as ->; [|by apply wrapu_range]. unfold __endian_swap64.
  set (lo := __endian_swap32 (wrapu 32 (Z.shiftr x 32))). set (hi := __endian_swap32 _). assert (lo = wrapu 32 lo) as -> by (symmetry; apply wrapu_small, swap32_range). zbits.
Qed.
Lemma be64_value v : 0 ≤ v < 2 ^ 64 → endian_be64 big (word_value big (be_bytes 8 v)) = v.
Proof.
  intros Hv. unfold word_value, endian_be64. destruct big.
  - unfold be_bytes. rewrite reverse_involutive. by apply (le_value_le_bytes 8).
  - apply (swap_value 8 __endian_swap64); [|apply swap64_range|done]. intros x k Hk. rewrite swap64_byte by done. f_equal.
Qed.
Lemma be64_zero v : 0 ≤ v < 2 ^ 64 → (word_value big (be_bytes 8 v) =? 0) = (v =? 0).
Proof.
  intros Hv. pose proof (be64_value v Hv) as H. destruct (Z.eqb_spec v 0) as [->|Hne]; [apply Z.eqb_eq; by destruct big|].
  apply Z.eqb_neq. intros E. rewrite E in H. apply Hne. rewrite <-H. by destruct big.
Qed.

(** *** The search for a zero byte in a word *)

Definition flagged (x : Z) : bool := negb (Z.land (wrapu 32 (x - 0x01010101)) 0x80808080 =? 0).

Lemma mask_zero y : Z.land y 0x80808080 = 0 ↔ Z.testbit y 7 = false ∧ Z.testbit y 15 = false ∧ Z.testbit y 23 = false ∧ Z.testbit y 31 = false.
Proof.
  split.
  - intros H. assert (∀ i, Z.testbit 0x80808080 i = true → Z.testbit y i = false) as Hb; [|split_and!; by apply Hb].
    intros i Hi. pose proof (f_equal (λ z, Z.testbit z i) H) as E. cbn beta in E. rewrite Z.land_spec, Hi, andb_true_r, Z.bits_0 in E. done.
  - intros (H1 & H2 & H3 & H4). change 0x80808080 with (Z.lor (Z.lor (2 ^ 7) (2 ^ 15)) (Z.lor (2 ^ 23) (2 ^ 31))).
    apply Z.bits_inj'. intros i Hi. rewrite Z.bits_0, Z.land_spec, !Z.lor_spec, !Z.pow2_bits_eqb by lia.
    destruct (Z.eqb_spec 7 i), (Z.eqb_spec 15 i), (Z.eqb_spec 23 i), (Z.eqb_spec 31 i); subst; try lia; cbn [orb]; rewrite ?H1, ?H2, ?H3, ?H4, ?andb_false_r; done.
Qed.

Lemma testbit_div y i : 0 ≤ i → Z.testbit y i = (y / 2 ^ i mod 2 =? 1).
Proof. intros Hi. destruct (Z.eqb_spec (y / 2 ^ i mod 2) 1) as [E|E]; [by apply Z.testbit_true|]. apply Z.testbit_false; [done|]. pose proof (Z.mod_pos_bound (y / 2 ^ i) 2). lia. Qed.

Lemma low_bit m r k : 0 < m → 0 ≤ r < m → (r + 2 * m * k) / m mod 2 = 0.
Proof. intros Hm Hr. replace ((r + 2 * m * k) / m) with (2 * k) by (apply Z.div_unique with r; lia). rewrite Z.mul_comm. apply Z.mod_mul. lia. Qed.

Lemma flagged_le a b c d : 0 ≤ a < 128 → 0 ≤ b < 128 → 0 ≤ c < 128 → 0 ≤ d < 128 →
  flagged (le_value [a; b; c; d]) = (a =? 0) || (b =? 0) || (c =? 0) || (d =? 0).
Proof.
  intros Ha Hb Hc Hd. unfold flagged. set (y := wrapu 32 _). assert (∀ i, 0 ≤ i → Z.testbit y i = (y / 2 ^ i mod 2 =? 1)) as Ht by (intros; by apply testbit_div).
  pose proof (mask_zero y) as Hm. rewrite !Ht in Hm by lia. change (2 ^ 7) with 128 in Hm. change (2 ^ 15) with 32768 in Hm. change (2 ^ 23) with 8388608 in Hm. change (2 ^ 31) with 2147483648 in Hm. clear Ht.
  assert (y = (a + 256 * b + 65536 * c + 16777216 * d - 16843009) mod 4294967296) as Hy by (unfold y, wrapu; cbn [le_value]; f_equal; lia). clearbody y.
  destruct (Z.eqb_spec (Z.land y 2155905152) 0) as [E|E]; cbn [negb].
  - apply Hm in E as (E1 & E2 & E3 & E4). apply Z.eqb_neq in E1, E2, E3, E4.
    destruct (Z.eqb_spec a 0), (Z.eqb_spec b 0), (Z.eqb_spec c 0), (Z.eqb_spec d 0); try done; exfalso; subst y; Z.div_mod_to_equations; lia.
  - destruct (Z.eqb_spec a 0), (Z.eqb_spec b 0), (Z.eqb_spec c 0), (Z.eqb_spec d 0); try done. exfalso. apply E, Hm.
    rewrite Z.mod_small in Hy by lia. assert (∀ q, q = 0 → (q =? 1) = false) as H0 by (by intros q ->).
    split_and!; apply H0; [replace y with (a - 1 + 2 * 128 * (b - 1 + 256 * (c - 1) + 65536 * (d - 1))) by lia|replace y with (a - 1 + 256 * (b - 1) + 2 * 32768 * (c - 1 + 256 * (d - 1))) by lia|
      replace y with (a - 1 + 256 * (b - 1) + 65536 * (c - 1) + 2 * 8388608 * (d - 1)) by lia|replace y with (y + 2 * 2147483648 * 0) by lia]; apply low_bit; lia.
Qed.

Definition is_char (c : Z) : Prop := 0 < c < 128.

(** A word of a name. *)
Lemma flagged_word (l : list Z) : length l = 4%nat → Forall (λ c, 0 ≤ c < 128) l → flagged (word_value big l) = existsb (λ c, c =? 0) l.
Proof.
  intros Hl Hc. destruct l as [|a [|b [|c [|d [|]]]]]; try discriminate Hl. rewrite !Forall_cons in Hc. destruct Hc as (Ha & Hb & Hc & Hd & _).
  unfold word_value. destruct big; [change (reverse [a; b; c; d]) with [d; c; b; a]|]; rewrite flagged_le by done; cbn; destruct (a =? 0), (b =? 0), (c =? 0), (d =? 0); done.
Qed.

(** *** Memory *)

Lemma store_at (A old bs C : list Z) a : a = Z.of_nat (length A) → length old = length bs → store a bs (A ++ old ++ C) = Ok (A ++ bs ++ C).
Proof.
  intros -> Hl. unfold store. rewrite !length_app. destruct (Z.leb_spec 0 (Z.of_nat (length A))); [|lia].
  destruct (Z.leb_spec (Z.of_nat (length A) + Z.of_nat (length bs)) (Z.of_nat (length A + (length old + length C)))); [|lia]. cbn [andb]. f_equal. unfold write_at.
  rewrite Nat2Z.id, take_app_length, <-Hl, <-drop_drop, drop_app_length, drop_app_length. done.
Qed.
Lemma load_at (A B C : list Z) a n : a = Z.of_nat (length A) → n = Z.of_nat (length B) → load a n (A ++ B ++ C) = Ok B.
Proof.
  intros -> ->. unfold load. rewrite !length_app. destruct (Z.leb_spec 0 (Z.of_nat (length A))); [|lia].
  destruct (Z.leb_spec (Z.of_nat (length A) + Z.of_nat (length B)) (Z.of_nat (length A + (length B + length C)))); [|lia]. cbn [andb]. f_equal.
  by rewrite !Nat2Z.id, drop_app_length, take_app_length.
Qed.
Lemma load32_at (A C : list Z) a v : a = Z.of_nat (length A) → 0 ≤ v < 2 ^ 32 → ∃ x, load32 big a (A ++ be_bytes 4 v ++ C) = Ok x ∧ endian_be32 big x = v.
Proof. intros Ha Hv. unfold load32. rewrite (load_at A (be_bytes 4 v) C) by (done || by rewrite be_bytes_length). cbn [mbind outcome_bind]. eexists. split; [done|]. by apply be32_value. Qed.
Lemma load32_m (m A : list Z) v (C : list Z) a : m = A ++ be_bytes 4 v ++ C → a = Z.of_nat (length A) → 0 ≤ v < 2 ^ 32 → ∃ x, load32 big a m = Ok x ∧ endian_be32 big x = v.
Proof. intros -> -> Hv. by apply load32_at. Qed.
Lemma store32_at (A old C : list Z) a v : a = Z.of_nat (length A) → length old = 4%nat → store32 big a (endian_be32 big v) (A ++ old ++ C) = Ok (A ++ be_bytes 4 v ++ C).
Proof. intros Ha Hl. unfold store32. rewrite word_bytes_be32. apply store_at; [done|]. by rewrite be_bytes_length. Qed.

Definition nonzero (s : list Z) : Prop := Forall (λ c, c ≠ 0) s.
Lemma until_zero_spec s C : nonzero s → until_zero (s ++ 0 :: C) = Ok s.
Proof. induction 1 as [|c s Hc _ IH]; [done|]. cbn [app until_zero]. destruct (Z.eqb_spec c 0); [done|]. by rewrite IH. Qed.
Lemma cstr_at (A s C : list Z) a : a = Z.of_nat (length A) → nonzero s → cstr a (A ++ s ++ 0 :: C) = Ok s.
Proof.
  intros -> Hs. unfold cstr. destruct (Z.leb_spec 0 (Z.of_nat (length A))); [|lia]. cbn [require mbind outcome_bind]. rewrite Nat2Z.id, drop_app_length. by apply until_zero_spec.
Qed.

(** *** Names *)

Lemma char_nonzero s : Forall is_char s → nonzero s.
Proof. intros H. eapply Forall_impl; [exact H|]. unfold is_char. lia. Qed.

(** A name with its zeros, up to a word. *)
Definition pad (k : Z) (s : list Z) : list Z := s ++ replicate (Z.to_nat (4 * ((Z.of_nat (length s) + k) / 4)) - length s) 0.
Lemma pad_length k s : 3 ≤ k → Z.of_nat (length (pad k s)) = 4 * ((Z.of_nat (length s) + k) / 4).
Proof. intros Hk. unfold pad. rewrite length_app, length_replicate. Z.div_mod_to_equations. lia. Qed.

Lemma pad_4_app w s : length w = 4%nat → pad 4 (w ++ s) = w ++ pad 4 s.
Proof.
  intros Hw. unfold pad. rewrite length_app, Hw, <-app_assoc. do 2 f_equal. f_equal. replace (Z.of_nat (4 + length s) + 4) with (Z.of_nat (length s) + 4 + 1 * 4) by lia.
  rewrite Z.div_add by lia. pose proof (Z.div_pos (Z.of_nat (length s) + 4) 4). lia.
Qed.
Lemma pad_4_short s : (length s < 4)%nat → pad 4 s = s ++ replicate (4 - length s) 0.
Proof. intros Hs. unfold pad. replace ((Z.of_nat (length s) + 4) / 4) with 1; [done|]. apply Z.div_unique with (Z.of_nat (length s)); lia. Qed.

Lemma existsb_none (s : list Z) : nonzero s → existsb (λ c, c =? 0) s = false.
Proof. induction 1 as [|c s Hc _ IH]; [done|]. cbn. destruct (Z.eqb_spec c 0); done. Qed.

Lemma skip_word fuel A w R a : length w = 4%nat → Forall (λ c, 0 ≤ c < 128) w → a = Z.of_nat (length A) →
  skip_loop big (S fuel) a (A ++ w ++ R) = if existsb (λ c, c =? 0) w then Ok (a + 4) else skip_loop big fuel (a + 4) (A ++ w ++ R).
Proof.
  intros Hw Hwc Ha. cbn [skip_loop]. unfold load32. rewrite (load_at A w R) by (done || by rewrite Hw). cbn [mbind outcome_bind].
  rewrite <-(flagged_word w Hw Hwc). unfold flagged. by destruct (_ =? 0).
Qed.

Lemma skip_spec fuel : ∀ (A s C : list Z) a, Forall is_char s → a = Z.of_nat (length A) → (length s < 4 * fuel)%nat →
  skip_loop big fuel a (A ++ pad 4 s ++ C) = Ok (a + Z.of_nat (length (pad 4 s))).
Proof.
  induction fuel as [|fuel IH]; intros A s C a Hs Ha Hf; [lia|]. assert (∀ l, Forall is_char l → Forall (λ c, 0 ≤ c < 128) l) as Hch.
  { intros l Hl. eapply Forall_impl; [exact Hl|]. unfold is_char. lia. }
  destruct (Nat.le_gt_cases 4 (length s)) as [Hl|Hl].
  - rewrite <-(take_drop 4 s) in Hs |- *. apply Forall_app in Hs as [Hs1 Hs2]. assert (length (take 4 s) = 4%nat) as Hw by (rewrite length_take; lia).
    rewrite pad_4_app, <-app_assoc, skip_word by (done || by apply Hch). rewrite existsb_none by (by apply char_nonzero).
    rewrite app_assoc, IH; [|done|rewrite length_app; lia|rewrite length_drop; lia]. f_equal. rewrite length_app, Hw. lia.
  - rewrite pad_4_short by done. rewrite skip_word; [|rewrite length_app, length_replicate; lia| |done].
    + assert (existsb (λ c, c =? 0) (s ++ replicate (4 - length s) 0) = true) as ->; [|rewrite length_app, length_replicate; f_equal; lia].
      rewrite existsb_app. destruct (4 - length s)%nat eqn:E; [lia|]. cbn. apply orb_true_r.
    + apply Forall_app. split; [by apply Hch|]. apply Forall_replicate. lia.
Qed.
End bytes.

(** ** What is written *)

(** The calls of the client between the reservations and the end. *)
Inductive op := Entry (name : list Z) | Prop_ (name data : list Z) | Leave.

Section client.
Context (big : bool).

Fixpoint add_rsvmaps (rsv : list (Z * Z)) (w : fdt_writer_s) (m : list Z) : outcome (fdt_writer_s * list Z) :=
  match rsv with
  | [] => Ok (w, m)
  | (addr, size) :: rsv => '(w, m) ← fdt_writer_add_rsvmap big addr size w m; add_rsvmaps rsv w m
  end.

(** The offsets of the nodes, as they are returned. *)
Fixpoint run_ops (ops : list op) (w : fdt_writer_s) (m : list Z) : outcome (list Z * fdt_writer_s * list Z) :=
  match ops with
  | [] => Ok ([], w, m)
  | Entry name :: ops => '(o, w, m) ← fdt_writer_node_entry big name w m; '(offs, w, m) ← run_ops ops w m; Ok (o :: offs, w, m)
  | Prop_ name data :: ops => '(w, m) ← fdt_writer_node_prop big name data w m; run_ops ops w m
  | Leave :: ops => '(w, m) ← fdt_writer_node_leave big w m; run_ops ops w m
  end.

(** A blob in a cleared buffer: the offsets of the nodes, the error, the bytes. *)
Definition write_blob (available_size : Z) (rsv : list (Z * Z)) (ops : list op) : outcome (list Z * Z * list Z) :=
  '(w, m) ← fdt_writer_init available_size (replicate (Z.to_nat available_size) 0);
  '(w, m) ← add_rsvmaps rsv w m;
  '(offs, w, m) ← run_ops ops w m;
  '(e, size, w, m) ← fdt_writer_finalize big w m;
  Ok (offs, e, take (Z.to_nat size) m).
End client.

(** *** The layout of the buffer *)

Definition flat (T : list (list Z)) : list Z := mjoin ((λ s, s ++ [0]) <$> T).
Definition rsv_bytes (rsv : list (Z * Z)) : list Z := mjoin ((λ '(a, s), be_bytes 8 a ++ be_bytes 8 s) <$> rsv).
Definition zeros (n : nat) : list Z := replicate n 0.
Definition front (rsv : list (Z * Z)) (sb : list Z) : list Z := zeros 40 ++ rsv_bytes rsv ++ zeros 16 ++ sb.
Definition base (rsv : list (Z * Z)) : Z := 56 + 16 * Z.of_nat (length rsv).

(** The structure holds [sb], the strings are [T], in the order they were added. *)
Record layout (w : fdt_writer_s) (m : list Z) (rsv : list (Z * Z)) (sb : list Z) (T : list (list Z)) (gap : nat) : Prop := {
  l_mem : m = front rsv sb ++ zeros gap ++ flat (reverse T) ++ [0];
  l_rsv : mem_reserve_ptr w = base rsv - 16;
  l_begin : struct_begin w = base rsv;
  l_ptr : struct_ptr w = base rsv + Z.of_nat (length sb);
  l_rst : rst w = struct_ptr w + Z.of_nat gap;
  l_end : end_ w = rst w + Z.of_nat (length (flat T));
  l_err : err w = 0;
  l_strings : Forall nonzero T }.

Lemma flat_app T1 T2 : flat (T1 ++ T2) = flat T1 ++ flat T2.
Proof. unfold flat. by rewrite fmap_app, join_app. Qed.
Lemma flat_cons s T : flat (s :: T) = s ++ [0] ++ flat T.
Proof. unfold flat. cbn. by rewrite <-app_assoc. Qed.
Lemma flat_length_cons s T : length (flat (s :: T)) = (length s + 1 + length (flat T))%nat.
Proof. rewrite flat_cons, !length_app. cbn [length]. lia. Qed.
Lemma flat_reverse_length T : length (flat (reverse T)) = length (flat T).
Proof. induction T as [|s T IH]; [done|]. rewrite reverse_cons, flat_app, length_app, IH, !flat_length_cons. change (length (flat [])) with 0%nat. lia. Qed.
Lemma rsv_cons a s rsv : rsv_bytes ((a, s) :: rsv) = be_bytes 8 a ++ be_bytes 8 s ++ rsv_bytes rsv.
Proof. unfold rsv_bytes. rewrite fmap_cons. cbn [mjoin list_join]. by rewrite <-app_assoc. Qed.
Lemma rsv_app r1 r2 : rsv_bytes (r1 ++ r2) = rsv_bytes r1 ++ rsv_bytes r2.
Proof. unfold rsv_bytes. by rewrite fmap_app, join_app. Qed.
Lemma rsv_length rsv : Z.of_nat (length (rsv_bytes rsv)) = 16 * Z.of_nat (length rsv).
Proof. induction rsv as [|[a s] rsv IH]; [done|]. rewrite rsv_cons, !length_app, !be_bytes_length by lia. cbn [length]. lia. Qed.
Lemma front_length rsv sb : Z.of_nat (length (front rsv sb)) = base rsv + Z.of_nat (length sb).
Proof. unfold front, zeros, base. rewrite !length_app, !length_replicate. pose proof (rsv_length rsv). lia. Qed.
Lemma front_app rsv sb bs : front rsv sb ++ bs = front rsv (sb ++ bs).
Proof. unfold front. by rewrite <-!app_assoc. Qed.

Lemma gap_store X k Y a bs : a = Z.of_nat (length X) → (length bs ≤ k)%nat → store a bs (X ++ zeros k ++ Y) = Ok (X ++ bs ++ zeros (k - length bs) ++ Y).
Proof.
  intros Ha Hk. unfold zeros. replace k with (length bs + (k - length bs))%nat at 1 by lia. rewrite replicate_add, <-app_assoc. apply store_at; [done|]. by rewrite length_replicate.
Qed.
Lemma gap_store_end X k Y a bs : a = Z.of_nat (length X) + Z.of_nat k - Z.of_nat (length bs) → (length bs ≤ k)%nat →
  store a bs (X ++ zeros k ++ Y) = Ok (X ++ zeros (k - length bs) ++ bs ++ Y).
Proof.
  intros Ha Hk. unfold zeros. replace k with ((k - length bs) + length bs)%nat at 1 by lia. rewrite replicate_add, <-!app_assoc. rewrite !(app_assoc X).
  apply store_at; [|by rewrite length_replicate]. rewrite length_app, length_replicate. lia.
Qed.

Section writer.
Context (big : bool).

(** Bytes at the end of the structure, and some of the zeros behind them. *)
Lemma push_bytes_spec w m rsv sb T gap bs k : layout w m rsv sb T gap → (length bs ≤ k ≤ gap)%nat →
  ∃ m', store (struct_ptr w) bs m = Ok m' ∧ layout (set_struct_ptr (struct_ptr w + Z.of_nat k) w) m' rsv (sb ++ bs ++ zeros (k - length bs)) T (gap - k).
Proof.
  intros [Hm Hr Hb Hp Hrst He Herr Hs] Hk. rewrite Hm. eexists. split; [apply gap_store; [rewrite Hp; symmetry; apply front_length|lia]|].
  split; cbn [struct_ptr mem_reserve_ptr struct_begin rst end_ err set_struct_ptr]; [|done|done|rewrite !length_app; unfold zeros; rewrite length_replicate; lia|lia|done|done|done].
  rewrite <-front_app, <-!app_assoc. do 2 f_equal. unfold zeros. replace (gap - length bs)%nat with ((k - length bs) + (gap - k))%nat by lia. by rewrite replicate_add, <-app_assoc.
Qed.

Lemma push_word_spec w m rsv sb T gap x : layout w m rsv sb T gap → (4 ≤ gap)%nat →
  ∃ w' m', push_word big x w m = Ok (w', m') ∧ layout w' m' rsv (sb ++ be_bytes 4 x) T (gap - 4).
Proof.
  intros Hl Hg. pose proof (be_bytes_length 4 x ltac:(lia)) as Hb. destruct (push_bytes_spec w m rsv sb T gap (be_bytes 4 x) 4 Hl) as (m' & E & Hl'); [rewrite Hb; cbn; lia|].
  unfold push_word, store32. rewrite word_bytes_be32, E. cbn [mbind outcome_bind]. do 2 eexists. split; [done|]. rewrite Hb in Hl'. change (4 - Z.to_nat 4)%nat with 0%nat in Hl'.
  unfold zeros in Hl' at 1. cbn [replicate] in Hl'. by rewrite app_nil_r in Hl'.
Qed.

Lemma shift_2 x : 4 * Z.shiftr x 2 = 4 * (x / 4).
Proof. rewrite Z.shiftr_div_pow2 by lia. done. Qed.

(** [strid] is the place of [s] in the table of strings. *)
Definition at_tbl (T : list (list Z)) (strid : Z) (s : list Z) : Prop := ∃ pre post, T = pre ++ s :: post ∧ strid = Z.of_nat (length (flat pre)).
Lemma at_tbl_app T T' strid s : at_tbl T strid s → at_tbl (T ++ T') strid s.
Proof. intros (pre & post & -> & ->). exists pre, (post ++ T'). by rewrite <-app_assoc. Qed.
Lemma at_tbl_bound T strid s : at_tbl T strid s → 0 ≤ strid ∧ strid + Z.of_nat (length s) < Z.of_nat (length (flat T)).
Proof. intros (pre & post & -> & ->). rewrite flat_app, length_app, flat_length_cons. lia. Qed.

Lemma lookup_spec str w L : ∀ fuel X, Forall nonzero L → end_ w = Z.of_nat (length X + length (flat L)) → (length L ≤ fuel)%nat →
  ∃ r, lookup_loop fuel (Z.of_nat (length X)) str w (X ++ flat L ++ [0]) = Ok r ∧
    match r with Some i => ∃ l1 l2, L = l1 ++ str :: l2 ∧ i = Z.of_nat (length (flat l2)) | None => True end.
Proof.
  induction L as [|s L IH]; intros fuel X HL He Hf.
  - exists None. split; [|done]. change (length (flat [])) with 0%nat in He. destruct fuel; cbn [lookup_loop]; rewrite He; by rewrite (proj2 (Z.ltb_ge _ _)) by lia.
  - apply Forall_cons in HL as [Hs HL]. rewrite flat_length_cons in He. destruct fuel as [|fuel]; [cbn in Hf; lia|]. cbn [lookup_loop]. rewrite He. destruct (Z.ltb_spec (Z.of_nat (length X)) (Z.of_nat (length X + (length s + 1 + length (flat L))))); [|lia].
    rewrite flat_cons, <-!app_assoc. cbn [app]. rewrite cstr_at by done. cbn [mbind outcome_bind]. destruct (decide (s = str)) as [->|Hne].
    + eexists. split; [reflexivity|]. exists [], L. split; [done|]. unfold strlen. lia.
    + destruct (IH fuel (X ++ s ++ [0]) HL) as (r & Hr & Hm); [rewrite !length_app; cbn [length]; lia|cbn in Hf; lia|].
      exists r. split.
      * rewrite <-Hr. unfold strlen. rewrite !length_app. cbn [length]. rewrite <-!app_assoc. cbn [app]. f_equal. lia.
      * destruct r as [i|]; [|done]. destruct Hm as (l1 & l2 & -> & ->). by exists (s :: l1), l2.
Qed.

Lemma push_string_spec w m rsv sb T gap str : layout w m rsv sb T gap → nonzero str → (length str + 1 ≤ gap)%nat →
  ∃ strid w' m' T' gap', fdt_writer_push_string str w m = Ok (strid, w', m') ∧ layout w' m' rsv sb (T ++ T') gap' ∧ struct_ptr w' = struct_ptr w ∧ at_tbl (T ++ T') strid str ∧
    (gap' + length (flat (T ++ T')) = gap + length (flat T))%nat ∧ (length (flat (T ++ T')) ≤ length (flat T) + (length str + 1))%nat.
Proof.
  intros Hl Hs Hg. pose proof Hl as [Hm Hr Hb Hp Hrst He Herr HT]. unfold fdt_writer_push_string.
  assert (rst w = Z.of_nat (length (front rsv sb ++ zeros gap))) as Hrst' by (rewrite length_app; unfold zeros; rewrite length_replicate; pose proof (front_length rsv sb); lia).
  destruct (lookup_spec str w (reverse T) (length m) (front rsv sb ++ zeros gap)) as (r & E & Hm'); [by apply Forall_reverse|rewrite flat_reverse_length; lia| |].
  { assert (length (reverse T) ≤ length (flat (reverse T)))%nat; [|rewrite Hm, !length_app; lia]. generalize (reverse T). intros L. induction L as [|s L IH]; [done|]. rewrite flat_length_cons. cbn. lia. }
  rewrite <-app_assoc, <-Hm, <-Hrst' in E. rewrite E. cbn [mbind outcome_bind]. destruct r as [i|].
  - exists i, w, m, [], gap. rewrite !app_nil_r. split_and!; [done|done|done| |done|lia]. destruct Hm' as (l1 & l2 & HL & ->). exists (reverse l2), (reverse l1).
    rewrite flat_reverse_length. split; [|done]. rewrite <-(reverse_involutive T), HL, reverse_app, reverse_cons, <-app_assoc. done.
  - rewrite Hm. rewrite gap_store_end; [|rewrite length_app; cbn [length]; pose proof (front_length rsv sb); unfold strlen; lia|rewrite length_app; cbn [length]; lia].
    cbn [mbind outcome_bind]. do 3 eexists. exists [str], (gap - (length str + 1))%nat. split; [reflexivity|]. split_and!; [|done| | |].
    + split; cbn [mem_reserve_ptr struct_begin struct_ptr rst end_ err set_rst]; [|done|done|done|unfold strlen; lia| |done|by apply Forall_app; split; [|constructor]].
      * rewrite reverse_app, flat_app. cbn [reverse rev_append]. change (reverse [str]) with [str]. rewrite flat_cons. change (flat []) with (@nil Z). rewrite length_app, <-!app_assoc. cbn [length app]. done.
      * rewrite flat_app, length_app, flat_length_cons. change (length (flat [])) with 0%nat. unfold strlen. lia.
    + exists T, []. split; [done|]. unfold strlen. lia.
    + rewrite flat_app, length_app, flat_length_cons. change (length (flat [])) with 0%nat. lia.
    + rewrite flat_app, length_app, flat_length_cons. change (length (flat [])) with 0%nat. lia.
Qed.

(** *** The structure *)

Definition op_bytes (T : list (list Z)) (o : op) (bs : list Z) : Prop :=
  match o with
  | Entry n => bs = be_bytes 4 FDT_NODE_START ++ pad 4 n
  | Prop_ n d => ∃ strid, at_tbl T strid n ∧ bs = be_bytes 4 FDT_PROP ++ be_bytes 4 (Z.of_nat (length d)) ++ be_bytes 4 strid ++ pad 3 d
  | Leave => bs = be_bytes 4 FDT_NODE_END
  end.
Definition op_size (o : op) : Z :=
  match o with
  | Entry n => 4 + 4 * ((Z.of_nat (length n) + 4) / 4)
  | Prop_ n d => 12 + 4 * ((Z.of_nat (length d) + 3) / 4)
  | Leave => 4
  end.
Definition op_string (o : op) : Z := match o with Prop_ n _ => Z.of_nat (length n) + 1 | _ => 0 end.
Definition op_nonzero (o : op) : Prop := match o with Prop_ n _ => nonzero n | _ => True end.

Lemma op_bytes_length T o bs : op_bytes T o bs → Z.of_nat (length bs) = op_size o.
Proof.
  destruct o as [n|n d|]; cbn [op_bytes op_size].
  - intros ->. rewrite length_app, be_bytes_length, Nat2Z.inj_add, pad_length by lia. lia.
  - intros (strid & _ & ->). rewrite !length_app, !be_bytes_length, !Nat2Z.inj_add, pad_length by lia. lia.
  - intros ->. by rewrite be_bytes_length.
Qed.
Lemma op_bytes_app T T' o bs : op_bytes T o bs → op_bytes (T ++ T') o bs.
Proof. destruct o; cbn [op_bytes]; [done| |done]. intros (strid & H & ->). exists strid. split; [by apply at_tbl_app|done]. Qed.
Lemma op_size_pos o : 0 < op_size o ∧ op_size o mod 4 = 0.
Proof. destruct o as [n|n d|]; cbn [op_size]; Z.div_mod_to_equations; lia. Qed.

(** What one call does to the buffer. *)
Definition written (o : op) (rsv : list (Z * Z)) (sb : list Z) (T : list (list Z)) (gap : nat) (w' : fdt_writer_s) (m' : list Z) : Prop :=
  ∃ T' gap' bs, layout w' m' rsv (sb ++ bs) (T ++ T') gap' ∧ op_bytes (T ++ T') o bs ∧
    Z.of_nat gap' + Z.of_nat (length (flat (T ++ T'))) + op_size o = Z.of_nat gap + Z.of_nat (length (flat T)) ∧
    Z.of_nat (length (flat (T ++ T'))) ≤ Z.of_nat (length (flat T)) + op_string o.

Lemma entry_spec w m rsv sb T gap n : layout w m rsv sb T gap → op_size (Entry n) ≤ Z.of_nat gap → Z.of_nat (length sb) mod 4 = 0 →
  ∃ w' m', fdt_writer_node_entry big n w m = Ok (Z.of_nat (length sb), w', m') ∧ written (Entry n) rsv sb T gap w' m'.
Proof.
  intros Hl Hg Hmod. pose proof Hl as [_ _ Hb Hp Hrst _ Herr _]. cbn [op_size] in Hg. pose proof (pad_length 4 n ltac:(lia)) as Hpad. unfold fdt_writer_node_entry.
  rewrite Herr. destruct (Z.gtb_spec (struct_ptr w) (rst w)); [lia|]. cbn [Z.eqb negb orb].
  destruct (push_word_spec w m rsv sb T gap FDT_NODE_START Hl ltac:(lia)) as (w1 & m1 & -> & Hl1). cbn [mbind outcome_bind].
  assert (length n ≤ length (pad 4 n))%nat by (unfold pad; rewrite length_app; lia).
  destruct (push_bytes_spec w1 m1 rsv _ T (gap - 4) n (length (pad 4 n)) Hl1) as (m2 & E & Hl2); [lia|]. rewrite E. cbn [mbind outcome_bind]. unfold strlen. rewrite shift_2, <-Hpad.
  do 2 eexists. split; [do 3 f_equal; rewrite Hp, Hb; replace (base rsv + Z.of_nat (length sb) - base rsv) with (Z.of_nat (length sb)) by lia; Z.div_mod_to_equations; lia|].
  exists [], (gap - 4 - length (pad 4 n))%nat, (be_bytes 4 FDT_NODE_START ++ pad 4 n). rewrite !app_nil_r. split_and!; [|done|cbn [op_size]; lia|cbn; lia].
  rewrite <-app_assoc in Hl2. replace (pad 4 n) with (n ++ zeros (length (pad 4 n) - length n)) at 2; [done|]. unfold pad at 2. f_equal. unfold zeros. f_equal. lia.
Qed.

Lemma leave_spec w m rsv sb T gap : layout w m rsv sb T gap → op_size Leave ≤ Z.of_nat gap → ∃ w' m', fdt_writer_node_leave big w m = Ok (w', m') ∧ written Leave rsv sb T gap w' m'.
Proof.
  intros Hl Hg. pose proof Hl as [_ _ Hb Hp Hrst _ Herr _]. cbn [op_size] in Hg. unfold fdt_writer_node_leave. rewrite Herr. destruct (Z.gtb_spec (struct_ptr w) (rst w)); [lia|]. cbn [Z.eqb negb orb].
  destruct (push_word_spec w m rsv sb T gap FDT_NODE_END Hl ltac:(lia)) as (w1 & m1 & -> & Hl1). do 2 eexists. split; [done|].
  exists [], (gap - 4)%nat, (be_bytes 4 FDT_NODE_END). rewrite !app_nil_r. split_and!; [done|done|cbn; lia|cbn; lia].
Qed.

Lemma prop_spec w m rsv sb T gap n d : layout w m rsv sb T gap → nonzero n → op_size (Prop_ n d) + op_string (Prop_ n d) ≤ Z.of_nat gap →
  ∃ w' m', fdt_writer_node_prop big n d w m = Ok (w', m') ∧ written (Prop_ n d) rsv sb T gap w' m'.
Proof.
  intros Hl Hn Hg. pose proof Hl as [_ _ Hb Hp Hrst _ Herr _]. cbn [op_size op_string] in Hg. pose proof (pad_length 3 d ltac:(lia)) as Hpad. unfold fdt_writer_node_prop.
  assert (length d ≤ length (pad 3 d))%nat by (unfold pad; rewrite length_app; lia).
  rewrite Herr. destruct (Z.gtb_spec (struct_ptr w + 8 + Z.of_nat (length d)) (rst w)); [lia|]. cbn [Z.eqb negb orb].
  destruct (push_word_spec w m rsv sb T gap FDT_PROP Hl ltac:(lia)) as (w1 & m1 & -> & Hl1). cbn [mbind outcome_bind].
  destruct (push_word_spec w1 m1 rsv _ T _ (Z.of_nat (length d)) Hl1 ltac:(lia)) as (w2 & m2 & -> & Hl2). cbn [mbind outcome_bind].
  destruct (push_string_spec w2 m2 rsv _ T _ n Hl2 Hn ltac:(lia)) as (strid & w3 & m3 & T' & gap3 & -> & Hl3 & _ & Hat & Hsum & Hle). cbn [mbind outcome_bind].
  destruct (push_word_spec w3 m3 rsv _ _ gap3 strid Hl3 ltac:(lia)) as (w4 & m4 & -> & Hl4). cbn [mbind outcome_bind].
  destruct (push_bytes_spec w4 m4 rsv _ _ _ d (length (pad 3 d)) Hl4) as (m5 & E & Hl5); [lia|]. rewrite E. cbn [mbind outcome_bind]. rewrite shift_2, <-Hpad.
  do 2 eexists. split; [done|]. exists T', (gap3 - 4 - length (pad 3 d))%nat, (be_bytes 4 FDT_PROP ++ be_bytes 4 (Z.of_nat (length d)) ++ be_bytes 4 strid ++ pad 3 d).
  split_and!; [|by exists strid|cbn [op_size]; lia|cbn [op_string]; lia]. rewrite <-!app_assoc in Hl5.
  replace (pad 3 d) with (d ++ zeros (length (pad 3 d) - length d)) at 2; [done|]. unfold pad at 2. f_equal. unfold zeros. f_equal. lia.
Qed.

(** *** Sequences of calls *)

Definition total (f : op → Z) (ops : list op) : Z := foldr (λ o n, f o + n) 0 ops.
Fixpoint entry_offsets (pos : Z) (ops : list op) : list Z :=
  match ops with
  | [] => []
  | o :: ops => let rest := entry_offsets (pos + op_size o) ops in match o with Entry _ => pos :: rest | _ => rest end
  end.
Definition struct_bytes (T : list (list Z)) (ops : list op) (sb : list Z) : Prop := ∃ bss, Forall2 (op_bytes T) ops bss ∧ sb = mjoin bss.

Lemma run_ops_spec ops : ∀ w m rsv sb T gap, layout w m rsv sb T gap → Forall op_nonzero ops → Z.of_nat (length sb) mod 4 = 0 →
  total op_size ops + total op_string ops ≤ Z.of_nat gap →
  ∃ w' m' T' gap' sb', run_ops big ops w m = Ok (entry_offsets (Z.of_nat (length sb)) ops, w', m') ∧ layout w' m' rsv (sb ++ sb') (T ++ T') gap' ∧ struct_bytes (T ++ T') ops sb' ∧
    Z.of_nat gap' + Z.of_nat (length (flat (T ++ T'))) + total op_size ops = Z.of_nat gap + Z.of_nat (length (flat T)) ∧
    Z.of_nat (length (flat (T ++ T'))) ≤ Z.of_nat (length (flat T)) + total op_string ops.
Proof.
  induction ops as [|o ops IH]; intros w m rsv sb T gap Hl Hnz Hmod Hg.
  - exists w, m, [], gap, []. rewrite !app_nil_r. cbn [total foldr]. split_and!; [done|done|by exists []|lia|lia].
  - apply Forall_cons in Hnz as [Ho Hnz]. change (total op_size (o :: ops)) with (op_size o + total op_size ops) in *. change (total op_string (o :: ops)) with (op_string o + total op_string ops) in *.
    assert (∀ l, 0 ≤ total op_size l ∧ 0 ≤ total op_string l) as Hpos.
    { intros l. induction l as [|x l [H1 H2]]; [cbn; lia|]. cbn [total foldr]. fold (total op_size l). fold (total op_string l). pose proof (op_size_pos x). assert (0 ≤ op_string x) by (destruct x; cbn; lia). lia. }
    pose proof (Hpos ops). pose proof (op_size_pos o) as [Hsz Hszm]. assert (0 ≤ op_string o) by (destruct o; cbn; lia).
    assert (∃ w1 m1, written o rsv sb T gap w1 m1 ∧ ∀ r, run_ops big ops w1 m1 = Ok r →
      run_ops big (o :: ops) w m = Ok (match o with Entry _ => (Z.of_nat (length sb) :: r.1.1, r.1.2, r.2) | _ => r end)) as (w1 & m1 & (T1 & gap1 & bs & Hl1 & Hbs & Hsum & Hle) & Hrun).
    { destruct o as [n|n d|]; cbn [run_ops].
      - destruct (entry_spec w m rsv sb T gap n Hl ltac:(lia) Hmod) as (w1 & m1 & -> & Hw). exists w1, m1. split; [done|]. intros [[? ?] ?] E. cbn [mbind outcome_bind]. by rewrite E.
      - destruct (prop_spec w m rsv sb T gap n d Hl Ho ltac:(lia)) as (w1 & m1 & -> & Hw). exists w1, m1. split; [done|]. intros r E. cbn [mbind outcome_bind]. by rewrite E.
      - destruct (leave_spec w m rsv sb T gap Hl ltac:(lia)) as (w1 & m1 & -> & Hw). exists w1, m1. split; [done|]. intros r E. cbn [mbind outcome_bind]. by rewrite E. }
    pose proof (op_bytes_length _ _ _ Hbs) as Hlen.
    destruct (IH w1 m1 rsv (sb ++ bs) (T ++ T1) gap1 Hl1 Hnz) as (w2 & m2 & T2 & gap2 & sb2 & Hr & Hl2 & Hb2 & Hsum2 & Hle2); [rewrite length_app, Nat2Z.inj_add, Hlen, Z.add_mod, Hmod, Hszm by lia; done|lia|].
    rewrite length_app, Nat2Z.inj_add, Hlen in Hr. rewrite <-!app_assoc in *. exists w2, m2, (T1 ++ T2), gap2, (bs ++ sb2). split_and!; [|done| |lia|lia].
    + rewrite (Hrun _ Hr). by destruct o.
    + destruct Hb2 as (bss & Hall & ->). exists (bs :: bss). split; [constructor; [|done]|done]. rewrite app_assoc. by apply op_bytes_app.
Qed.

(** *** Begin and end *)

Lemma zeros_add a b : zeros (a + b) = zeros a ++ zeros b.
Proof. apply replicate_add. Qed.
Lemma zeros_length n : length (zeros n) = n.
Proof. apply length_replicate. Qed.

Lemma fdt_init_spec avail : 57 ≤ avail → ∃ w m, fdt_writer_init avail (zeros (Z.to_nat avail)) = Ok (w, m) ∧ layout w m [] [] [] (Z.to_nat avail - 57).
Proof.
  intros Ha. unfold fdt_writer_init. assert (zeros (Z.to_nat avail) = zeros (Z.to_nat avail - 1) ++ [0] ++ []) as E.
  { replace (Z.to_nat avail) with ((Z.to_nat avail - 1) + 1)%nat at 1 by lia. by rewrite zeros_add. }
  rewrite E, store_at by (rewrite ?zeros_length; cbn; lia). cbn [mbind outcome_bind]. do 2 eexists. split; [done|].
  split; cbn [mem_reserve_ptr struct_begin struct_ptr rst end_ err length]; [|done|done|done|unfold header_size, rsvmap_size; lia| |done|constructor].
  - unfold front. rewrite !app_nil_r. change (rsv_bytes []) with (@nil Z). change (flat (reverse [])) with (@nil Z). cbn [app].
    replace (Z.to_nat avail - 1)%nat with (40 + (16 + (Z.to_nat avail - 57)))%nat by lia. rewrite !zeros_add, <-!app_assoc. done.
  - change (length (flat [])) with 0%nat. lia.
Qed.

Lemma rsvmap_spec w m rsv gap a s : layout w m rsv [] [] gap → (16 ≤ gap)%nat → ∃ w' m', fdt_writer_add_rsvmap big a s w m = Ok (w', m') ∧ layout w' m' (rsv ++ [(a, s)]) [] [] (gap - 16).
Proof.
  intros [Hm Hr Hb Hp Hrst He Herr _] Hg. pose proof (rsv_length rsv) as Hrl. unfold base in *. unfold fdt_writer_add_rsvmap, store64. rewrite !word_bytes_be64.
  assert (m = (zeros 40 ++ rsv_bytes rsv) ++ zeros (16 + gap) ++ [0]) as ->.
  { rewrite Hm. unfold front. rewrite zeros_add, app_nil_r, <-!app_assoc. change (flat (reverse [])) with (@nil Z). done. }
  rewrite gap_store by (rewrite ?length_app, ?be_bytes_length, ?zeros_length by lia; lia). cbn [mbind outcome_bind]. rewrite (app_assoc _ (be_bytes 8 a)).
  rewrite gap_store by (rewrite ?length_app, ?be_bytes_length, ?zeros_length by lia; lia). cbn [mbind outcome_bind]. rewrite !be_bytes_length by lia.
  do 2 eexists. split; [done|]. unfold rsvmap_size. split; cbn [mem_reserve_ptr struct_begin struct_ptr rst end_ err length]; unfold base; rewrite ?length_app; cbn [length]; [|lia|lia|lia|cbn [length] in Hp; lia|done|done|constructor].
  unfold front. rewrite rsv_app, rsv_cons. change (rsv_bytes []) with (@nil Z). change (flat (reverse [])) with (@nil Z). rewrite !app_nil_r, <-!app_assoc. cbn [app].
  replace (16 + gap - Z.to_nat 8 - Z.to_nat 8)%nat with (16 + (gap - 16))%nat by lia. by rewrite zeros_add, <-!app_assoc.
Qed.

Lemma rsvmaps_spec l : ∀ w m rsv gap, layout w m rsv [] [] gap → (16 * length l ≤ gap)%nat →
  ∃ w' m', add_rsvmaps big l w m = Ok (w', m') ∧ layout w' m' (rsv ++ l) [] [] (gap - 16 * length l).
Proof.
  induction l as [|[a s] l IH]; intros w m rsv gap Hl Hg; cbn [add_rsvmaps length] in *; [exists w, m; rewrite app_nil_r; split; [done|by rewrite Nat.sub_0_r]|].
  destruct (rsvmap_spec w m rsv gap a s Hl ltac:(lia)) as (w1 & m1 & -> & Hl1). cbn [mbind outcome_bind]. destruct (IH w1 m1 _ _ Hl1 ltac:(lia)) as (w2 & m2 & -> & Hl2).
  exists w2, m2. split; [done|]. rewrite <-app_assoc in Hl2. by replace (gap - 16 * S (length l))%nat with (gap - 16 - 16 * length l)%nat by lia.
Qed.

Lemma strings_spec w todo : ∀ fuel F done g, Forall nonzero todo → (length todo ≤ fuel)%nat →
  end_ w = Z.of_nat (length F + length (flat todo) + length (flat (reverse done)) + g + length (flat done) + length (flat todo)) →
  strings_loop fuel (Z.of_nat (length F)) (Z.of_nat (length F + length (flat todo) + length (flat (reverse done)) + g + length (flat done))) w
    (F ++ zeros (length (flat todo)) ++ flat (reverse done) ++ zeros g ++ flat done ++ flat todo ++ [0]) =
  Ok (F ++ flat (reverse todo) ++ flat (reverse done) ++ zeros g ++ flat done ++ flat todo ++ [0]).
Proof.
  induction todo as [|s todo IH]; intros fuel F done g Hnz Hf He.
  - change (flat []) with (@nil Z) in *. cbn [length app] in *. change (zeros 0) with (@nil Z). change (flat (reverse [])) with (@nil Z). destruct fuel; cbn [strings_loop]; rewrite He; by rewrite (proj2 (Z.ltb_ge _ _)) by lia.
  - apply Forall_cons in Hnz as [Hs Hnz]. destruct fuel as [|fuel]; [cbn in Hf; lia|]. cbn [strings_loop]. rewrite He at 1. rewrite !flat_length_cons in *.
    destruct (Z.ltb_spec (Z.of_nat (length F + (length s + 1 + length (flat todo)) + length (flat (reverse done)) + g + length (flat done)))
      (Z.of_nat (length F + (length s + 1 + length (flat todo)) + length (flat (reverse done)) + g + length (flat done) + (length s + 1 + length (flat todo))))); [|lia].
    assert (cstr (Z.of_nat (length F + (length s + 1 + length (flat todo)) + length (flat (reverse done)) + g + length (flat done)))
      (F ++ zeros (length s + 1 + length (flat todo)) ++ flat (reverse done) ++ zeros g ++ flat done ++ flat (s :: todo) ++ [0]) = Ok s) as ->.
    { rewrite flat_cons, <-!app_assoc. cbn [app]. rewrite <-(cstr_at (F ++ zeros (length s + 1 + length (flat todo)) ++ flat (reverse done) ++ zeros g ++ flat done) s (flat todo ++ [0])
        (Z.of_nat (length F + (length s + 1 + length (flat todo)) + length (flat (reverse done)) + g + length (flat done)))); [by rewrite <-!app_assoc|rewrite !length_app, !zeros_length; lia|done]. }
    cbn [mbind outcome_bind]. unfold strlen. rewrite gap_store_end; [|rewrite length_app; cbn [length]; lia|rewrite length_app; cbn [length]; lia]. cbn [mbind outcome_bind]. rewrite length_app. cbn [length].
    replace (length s + 1 + length (flat todo) - (length s + 1))%nat with (length (flat todo)) by lia.
    specialize (IH fuel F (done ++ [s]) g Hnz ltac:(cbn in Hf; lia)). rewrite reverse_app, !flat_app, !length_app, flat_reverse_length in IH.
    change (reverse [s]) with [s] in IH. rewrite !flat_length_cons, !flat_cons in IH. change (flat []) with (@nil Z) in IH. rewrite !app_nil_r in IH. cbn [length] in IH.
    rewrite reverse_cons, flat_app, !flat_cons. change (flat []) with (@nil Z). rewrite !app_nil_r, <-!app_assoc in *. rewrite <-IH.
    + f_equal. rewrite flat_reverse_length. lia.
    + rewrite He, flat_reverse_length. lia.
Qed.

Lemma fields_spec l : ∀ A R, store_fields big (Z.of_nat (length A)) l (A ++ zeros (4 * length l) ++ R) = Ok (A ++ mjoin (be_bytes 4 <$> l) ++ R).
Proof.
  induction l as [|x l IH]; intros A R; [done|]. cbn [store_fields length]. replace (4 * S (length l))%nat with (4 + 4 * length l)%nat by lia. rewrite zeros_add, <-app_assoc.
  rewrite store32_at by done. cbn [mbind outcome_bind]. rewrite fmap_cons. cbn [mjoin list_join]. rewrite <-app_assoc, (app_assoc A).
  replace (Z.of_nat (length A) + 4) with (Z.of_nat (length (A ++ be_bytes 4 x))) by (rewrite length_app, be_bytes_length by lia; lia). by rewrite IH, <-app_assoc.
Qed.

(** The blob. *)
Definition table_at (rsv : list (Z * Z)) (sb : list Z) : Z := base rsv + Z.of_nat (length sb) + 4.
Definition blob_size (rsv : list (Z * Z)) (sb : list Z) (T : list (list Z)) : Z := table_at rsv sb + Z.of_nat (length (flat T)).
Definition header (rsv : list (Z * Z)) (sb : list Z) (T : list (list Z)) : list Z :=
  [FDT_MAGIC; blob_size rsv sb T; base rsv; table_at rsv sb; header_size; 17; 16; 0; Z.of_nat (length (flat T)); Z.of_nat (length sb) + 4].
Definition blob (rsv : list (Z * Z)) (sb : list Z) (T : list (list Z)) : list Z :=
  mjoin (be_bytes 4 <$> header rsv sb T) ++ rsv_bytes rsv ++ zeros 16 ++ sb ++ be_bytes 4 FDT_END ++ flat T.

Lemma header_length rsv sb T : length (mjoin (be_bytes 4 <$> header rsv sb T)) = 40%nat.
Proof. done. Qed.
Lemma blob_length rsv sb T : Z.of_nat (length (blob rsv sb T)) = blob_size rsv sb T.
Proof. unfold blob, blob_size, table_at, base. rewrite !length_app, header_length, zeros_length, be_bytes_length by lia. pose proof (rsv_length rsv). lia. Qed.

Lemma finalize_spec w m rsv sb T gap : layout w m rsv sb T gap → (4 + length (flat T) ≤ gap)%nat → Z.of_nat (length sb) mod 4 = 0 →
  ∃ w' m', fdt_writer_finalize big w m = Ok (0, blob_size rsv sb T, w', m') ∧ take (Z.to_nat (blob_size rsv sb T)) m' = blob rsv sb T.
Proof.
  intros Hl Hg Hmod. pose proof (l_err _ _ _ _ _ _ Hl) as Herr. unfold fdt_writer_finalize. rewrite Herr. cbn [Z.eqb negb].
  destruct (push_word_spec w m rsv sb T gap FDT_END Hl ltac:(lia)) as (w1 & m1 & -> & Hl1). cbn [mbind outcome_bind]. destruct Hl1 as [Hm Hr Hb Hp Hrst He _ HT].
  pose proof (front_length rsv (sb ++ be_bytes 4 FDT_END)) as HF. rewrite length_app, be_bytes_length in Hp, HF by lia. set (F := front rsv (sb ++ be_bytes 4 FDT_END)) in *. set (L := length (flat T)) in *.
  assert (struct_ptr w1 = Z.of_nat (length F)) as HpF by lia.
  pose proof (strings_spec w1 (reverse T) (length m1) F [] (gap - 4 - L)) as Hs. rewrite flat_reverse_length, reverse_involutive in Hs. change (flat (reverse [])) with (@nil Z) in Hs. change (flat []) with (@nil Z) in Hs. cbn [length app] in Hs.
  fold L in Hs. assert (m1 = F ++ zeros L ++ zeros (gap - 4 - L) ++ flat (reverse T) ++ [0]) as Em.
  { rewrite Hm. f_equal. replace (gap - 4)%nat with (L + (gap - 4 - L))%nat at 1 by lia. by rewrite zeros_add, <-app_assoc. }
  assert (length T ≤ L)%nat as HLT. { unfold L. clear. induction T as [|s T IH]; [done|]. rewrite flat_length_cons. cbn. lia. }
  rewrite <-Em in Hs. replace (Z.of_nat (length F + L + 0 + (gap - 4 - L) + 0)) with (rst w1) in Hs by lia. rewrite HpF. rewrite Hs; [|by apply Forall_reverse|rewrite length_reverse, Em, !length_app, zeros_length; lia|lia].
  cbn [mbind outcome_bind]. rewrite Hb. replace (end_ w1 - rst w1) with (Z.of_nat L) by lia.
  replace (4 * ((Z.of_nat (length F) - base rsv) / 4)) with (Z.of_nat (length sb) + 4) by (rewrite HF; Z.div_mod_to_equations; lia).
  replace (Z.of_nat (length F)) with (table_at rsv sb) by (unfold table_at; lia). change (table_at rsv sb + Z.of_nat L) with (blob_size rsv sb T). fold (header rsv sb T).
  unfold F, front. rewrite <-!app_assoc. change 0 with (Z.of_nat (length (@nil Z))) at 1. pose proof (fields_spec (header rsv sb T) []) as Hf. cbn [length app] in Hf. change (4 * 10)%nat with 40%nat in Hf.
  change (header_size) with 40 in *. rewrite Hf. cbn [mbind outcome_bind]. change (zeros 16) with (zeros 8 ++ zeros 8). rewrite <-!app_assoc.
  rewrite (app_assoc (mjoin _)), (app_assoc _ (zeros 8)). rewrite store_at; [|rewrite !length_app, header_length, zeros_length; unfold base; pose proof (rsv_length rsv); lia|done].
  cbn [mbind outcome_bind]. do 2 eexists. split; [done|]. rewrite <-blob_length, Nat2Z.id. unfold blob. change (replicate 8 0) with (zeros 8). change (zeros 16) with (zeros 8 ++ zeros 8). 
  set (B := mjoin (be_bytes 4 <$> header rsv sb T) ++ rsv_bytes rsv ++ (zeros 8 ++ zeros 8) ++ sb ++ be_bytes 4 FDT_END ++ flat T).
  transitivity (take (length B) (B ++ zeros (gap - 4 - L) ++ flat (reverse T) ++ [0])); [|apply take_app_length]. f_equal. unfold B. by rewrite <-!app_assoc.
Qed.

Definition needed (rsv : list (Z * Z)) (ops : list op) : Z := 61 + 16 * Z.of_nat (length rsv) + total op_size ops + 2 * total op_string ops.

Lemma total_pos ops : 0 ≤ total op_size ops ∧ 0 ≤ total op_string ops.
Proof.
  induction ops as [|o ops [H1 H2]]; [done|]. change (total op_size (o :: ops)) with (op_size o + total op_size ops). change (total op_string (o :: ops)) with (op_string o + total op_string ops).
  pose proof (op_size_pos o). assert (0 ≤ op_string o) by (destruct o; cbn; lia). lia.
Qed.

Lemma struct_length T ops bss : Forall2 (op_bytes T) ops bss → Z.of_nat (length (mjoin bss)) = total op_size ops.
Proof.
  induction 1 as [|o bs ops bss Ho _ IH]; [done|]. change (mjoin (bs :: bss)) with (bs ++ mjoin bss). rewrite length_app, Nat2Z.inj_add, (op_bytes_length _ _ _ Ho), IH. done.
Qed.

Lemma total_length ops : Z.of_nat (length ops) ≤ total op_size ops.
Proof. induction ops as [|o ops IH]; [done|]. change (total op_size (o :: ops)) with (op_size o + total op_size ops). pose proof (op_size_pos o). cbn [length]. lia. Qed.

Lemma write_blob_spec avail rsv ops : needed rsv ops ≤ avail → Forall op_nonzero ops →
  ∃ sb T, write_blob big avail rsv ops = Ok (entry_offsets 0 ops, 0, blob rsv sb T) ∧ struct_bytes T ops sb ∧ Forall nonzero T ∧ blob_size rsv sb T ≤ avail.
Proof.
  unfold needed. intros Hav Hnz. pose proof (total_pos ops) as [Hp1 Hp2]. unfold write_blob. destruct (fdt_init_spec avail ltac:(lia)) as (w0 & m0 & E0 & Hl0). unfold zeros in E0. rewrite E0. cbn [mbind outcome_bind].
  destruct (rsvmaps_spec rsv w0 m0 [] _ Hl0 ltac:(lia)) as (w1 & m1 & -> & Hl1). cbn [mbind outcome_bind app] in *.
  destruct (run_ops_spec ops w1 m1 rsv [] [] _ Hl1 Hnz eq_refl ltac:(lia)) as (w2 & m2 & T & gap & sb & -> & Hl2 & Hsb & Hsum & Hle). cbn [mbind outcome_bind app length] in *. change (Z.of_nat 0) with 0.
  change (length (flat [])) with 0%nat in *. assert (Z.of_nat (length sb) = total op_size ops) as Hlen.
  { destruct Hsb as (bss & Hall & ->). by eapply struct_length. }
  assert (Z.of_nat (length sb) mod 4 = 0) as Hmod.
  { rewrite Hlen. clear. induction ops as [|o ops IH]; [done|]. change (total op_size (o :: ops)) with (op_size o + total op_size ops). rewrite Z.add_mod, IH, (proj2 (op_size_pos o)) by lia. done. }
  destruct (finalize_spec w2 m2 rsv sb T gap Hl2 ltac:(lia) Hmod) as (w3 & m3 & -> & Hblob). cbn [mbind outcome_bind]. rewrite Hblob. exists sb, T.
  split_and!; [done|done|apply (l_strings _ _ _ _ _ _ Hl2)|]. unfold blob_size, table_at, base. lia.
Qed.
End writer.

(** ** What is read *)

Definition path (stack : list (list Z)) : list Z := mjoin ((λ n, 47 :: n) <$> reverse stack).

(** The calls of the functions of the client for the calls of the writer; [hidden]
    counts the open nodes from the one on that the client did not want. *)
Fixpoint ref_walk {P} (w : fdt_walker_s P) (ops : list op) (pos : Z) (stack : list (list Z)) (hidden : nat) (p : P) : P :=
  match ops with
  | [] => p
  | o :: ops =>
      let next := pos + op_size o in
      match o, hidden with
      | Entry n, O => let '(wanted, p) := on_node_entry w p pos (drop 1 (path (n :: stack))) in ref_walk w ops next (n :: stack) (if wanted then 0 else 1)%nat p
      | Entry n, S _ => ref_walk w ops next (n :: stack) (S hidden) p
      | Prop_ n d, O => ref_walk w ops next stack 0 (on_node_prop w p pos n d)
      | Prop_ n d, S _ => ref_walk w ops next stack hidden p
      | Leave, O => ref_walk w ops next (tail stack) 0 (on_node_leave w p)
      | Leave, S h => ref_walk w ops next (tail stack) h p
      end
  end.

(** Calls that make one tree, with names the reader can cope with: ASCII without a slash,
    paths of less than 32 characters, less than 511 nodes deep.  Neither the writer nor
    the reader tests these limits. *)
Fixpoint valid (ops : list op) (stack : list (list Z)) : bool :=
  match ops with
  | [] => false
  | Entry n :: ops => forallb (λ c, (0 <? c) && (c <? 128) && negb (c =? 47)) n && (length (path (n :: stack)) <? 32)%nat && (length stack <? 510)%nat && valid ops (n :: stack)
  | Prop_ n d :: ops => match stack with [] => false | _ => forallb (λ c, negb (c =? 0)) n && valid ops stack end
  | Leave :: ops => match stack, ops with [], _ => false | [_], [] => true | [_], _ => false | _ :: stack, ops => valid ops stack end
  end.

Lemma path_cons n stack : path (n :: stack) = path stack ++ 47 :: n.
Proof. unfold path. rewrite reverse_cons, fmap_app, join_app. cbn. by rewrite app_nil_r. Qed.

Lemma before_slash_none n : Forall (λ c, c ≠ 47) n → before_slash n = None.
Proof. induction 1 as [|c n Hc _ IH]; [done|]. cbn. rewrite IH. by destruct (Z.eqb_spec c 47). Qed.
Lemma before_slash_app l n : Forall (λ c, c ≠ 47) n → before_slash (l ++ 47 :: n) = Some l.
Proof. intros Hn. induction l as [|c l IH]; cbn [app before_slash]; [by rewrite before_slash_none|by rewrite IH]. Qed.

Lemma strncat_ok dst src : (length dst + length src < 32)%nat → strncat dst src 32 = Ok (dst ++ src).
Proof. intros H. unfold strncat. rewrite take_ge by lia. cbv zeta. rewrite length_app. by rewrite (proj2 (Nat.ltb_lt _ _)). Qed.

Section reader.
Context (big : bool) {P : Type} (walker : fdt_walker_s P) (m : list Z) (tbl sbase : Z) (T : list (list Z)).
Context (Htbl : ∀ strid s, at_tbl T strid s → cstr (tbl + strid) m = Ok s).
Context (Hsize : Z.of_nat (length m) < 2 ^ 32) (Hflat : Z.of_nat (length (flat T)) < 2 ^ 32).

Definition max_of (stack : list (list Z)) (hidden : nat) : Z := match hidden with O => 512 | _ => Z.of_nat (length stack) - Z.of_nat hidden + 1 end.
(** The state of the reader before a token at offset [pos]. *)
Definition at_token (pos : Z) (stack : list (list Z)) (hidden : nat) (p : P) : walk_state :=
  {| ptr := sbase + pos; level := Z.of_nat (length stack); max_level := max_of stack hidden; full_path := path stack; priv := p |}.

Definition no_slash (n : list Z) : Prop := Forall (λ c, c ≠ 47) n.

Lemma token_entry A C n pos stack hidden p : m = A ++ (be_bytes 4 FDT_NODE_START ++ pad 4 n) ++ C → sbase + pos = Z.of_nat (length A) → Forall is_char n →
  (length (path (n :: stack)) < 32)%nat → (length stack < 510)%nat → (hidden ≤ length stack)%nat →
  walk_token big walker m tbl sbase (at_token pos stack hidden p) =
  Ok (inr (match hidden with
           | O => let '(wanted, p) := on_node_entry walker p pos (drop 1 (path (n :: stack))) in at_token (pos + op_size (Entry n)) (n :: stack) (if wanted then 0 else 1)%nat p
           | S _ => at_token (pos + op_size (Entry n)) (n :: stack) (S hidden) p
           end)).
Proof.
  intros Hm Ha Hn Hp Hd Hh. unfold walk_token. cbn [ptr at_token level max_level full_path priv]. rewrite Ha.
  destruct (load32_at big A (pad 4 n ++ C) (Z.of_nat (length A)) FDT_NODE_START eq_refl ltac:(unfold FDT_NODE_START; lia)) as (x & Hx & Hx').
  rewrite Hm at 1. rewrite <-app_assoc, Hx. cbn [mbind outcome_bind]. rewrite Hx'. cbn [Z.eqb Pos.eqb FDT_NODE_START].
  assert (Z.of_nat (length A) + 4 = Z.of_nat (length (A ++ be_bytes 4 FDT_NODE_START))) as Ha4 by (rewrite length_app, be_bytes_length by lia; lia). rewrite Ha4.
  assert (m = (A ++ be_bytes 4 FDT_NODE_START) ++ pad 4 n ++ C) as Hm2 by (by rewrite Hm, <-!app_assoc).
  assert (cstr (Z.of_nat (length (A ++ be_bytes 4 FDT_NODE_START))) m = Ok n) as ->.
  { rewrite Hm2. unfold pad. pose proof (pad_length 4 n ltac:(lia)) as Hpl. unfold pad in Hpl. rewrite length_app, length_replicate in Hpl.
    destruct (Z.to_nat (4 * ((Z.of_nat (length n) + 4) / 4)) - length n)%nat as [|k] eqn:Ek; [Z.div_mod_to_equations; lia|]. cbn [replicate]. rewrite <-(app_assoc n). cbn [app]. apply cstr_at; [done|by apply char_nonzero]. }
  cbn [mbind outcome_bind]. rewrite path_cons, length_app in Hp. cbn [length] in Hp. rewrite strncat_ok by (cbn [length]; lia). cbn [mbind outcome_bind]. rewrite strncat_ok by (rewrite length_app; cbn [length]; lia). cbn [mbind outcome_bind]. rewrite <-app_assoc. cbn [app]. rewrite <-path_cons.
  assert (fdt_skip_str big (Z.of_nat (length (A ++ be_bytes 4 FDT_NODE_START))) m = Ok (sbase + (pos + op_size (Entry n)))) as Hskip.
  { unfold fdt_skip_str. rewrite Hm2 at 2. rewrite skip_spec; [|done|done|rewrite Hm2, !length_app, be_bytes_length by lia; unfold pad; rewrite length_app; lia]. f_equal.
    rewrite pad_length by lia. cbn [op_size]. rewrite <-Ha4. lia. }
  replace (fdt_reader_get_struct_offset sbase (Z.of_nat (length (A ++ be_bytes 4 FDT_NODE_START)))) with pos by (unfold fdt_reader_get_struct_offset; lia).
  replace (Z.of_nat (length stack) + 1) with (Z.of_nat (length (n :: stack))) by (cbn [length]; lia).
  destruct hidden as [|h]; cbn [max_of].
  - destruct (Z.ltb_spec (Z.of_nat (length (n :: stack))) 512); [|cbn in *; lia]. destruct (on_node_entry walker p pos (drop 1 (path (n :: stack)))) as [[|] p']; cbn [negb]; rewrite Hskip; cbn [mbind outcome_bind]; [done|].
    unfold at_token. do 3 f_equal. cbn [max_of]. lia.
  - destruct (Z.ltb_spec (Z.of_nat (length (n :: stack))) (Z.of_nat (length stack) - Z.of_nat (S h) + 1)); [cbn in *; lia|]. rewrite Hskip. cbn [mbind outcome_bind]. unfold at_token. do 3 f_equal. cbn [max_of length]. lia.
Qed.

Lemma token_prop A C n d bs pos stack hidden p : op_bytes T (Prop_ n d) bs → m = A ++ bs ++ C → sbase + pos = Z.of_nat (length A) → (hidden ≤ length stack)%nat → (length stack ≤ 510)%nat →
  walk_token big walker m tbl sbase (at_token pos stack hidden p) =
  Ok (inr (at_token (pos + op_size (Prop_ n d)) stack hidden (match hidden with O => on_node_prop walker p pos n d | _ => p end))).
Proof.
  intros (strid & Hat & ->) Hm Ha Hh Hd. pose proof (at_tbl_bound _ _ _ Hat) as Hb. assert (Z.of_nat (length d) + 11 < 2 ^ 32) as Hdl.
  { rewrite Hm, !length_app, !be_bytes_length in Hsize by lia. unfold pad in Hsize. rewrite length_app in Hsize. lia. }
  rewrite <-!app_assoc in Hm. unfold walk_token. cbn [ptr at_token level max_level full_path priv]. rewrite Ha.
  destruct (load32_m big m A FDT_PROP _ (Z.of_nat (length A)) Hm eq_refl ltac:(unfold FDT_PROP; lia)) as (x & -> & Hx). cbn [mbind outcome_bind]. rewrite Hx. cbn [Z.eqb Pos.eqb FDT_PROP FDT_NODE_START].
  rewrite app_assoc in Hm. destruct (load32_m big m _ (Z.of_nat (length d)) _ (Z.of_nat (length A) + 4) Hm) as (y & -> & Hy); [rewrite length_app, be_bytes_length by lia; lia|lia|]. cbn [mbind outcome_bind]. rewrite Hy.
  rewrite app_assoc in Hm. destruct (load32_m big m _ strid _ (Z.of_nat (length A) + 4 + 4) Hm) as (z & -> & Hz); [rewrite !length_app, !be_bytes_length by lia; lia|lia|]. cbn [mbind outcome_bind]. rewrite Hz.
  assert (fdt_reader_get_struct_offset sbase (Z.of_nat (length A) + 4) = pos) as -> by (unfold fdt_reader_get_struct_offset; lia).
  rewrite app_assoc in Hm. unfold pad in Hm. rewrite <-(app_assoc d) in Hm.
  assert (load (Z.of_nat (length A) + 4 + 8) (Z.of_nat (length d)) m = Ok d) as Hload. { rewrite Hm. apply load_at; [rewrite !length_app, !be_bytes_length by lia; lia|done]. }
  rewrite wrapu_small by lia. assert (Z.of_nat (length A) + 4 + 4 * ((8 + Z.of_nat (length d) + 3) / 4) = sbase + (pos + op_size (Prop_ n d))) as Hnext by (cbn [op_size]; Z.div_mod_to_equations; lia).
  destruct hidden as [|h]; cbn [max_of].
  - destruct (Z.ltb_spec (Z.of_nat (length stack)) 512); [|lia]. rewrite (Htbl _ _ Hat). cbn [mbind outcome_bind]. rewrite Hload. cbn [mbind outcome_bind]. unfold at_token. cbn [max_of]. by rewrite Hnext.
  - destruct (Z.ltb_spec (Z.of_nat (length stack)) (Z.of_nat (length stack) - Z.of_nat (S h) + 1)); [lia|]. cbn [mbind outcome_bind]. unfold at_token. cbn [max_of]. by rewrite Hnext.
Qed.

Lemma token_leave A C n pos stack hidden p : m = A ++ be_bytes 4 FDT_NODE_END ++ C → sbase + pos = Z.of_nat (length A) → no_slash n → (length stack < 510)%nat → (hidden ≤ S (length stack))%nat →
  walk_token big walker m tbl sbase (at_token pos (n :: stack) hidden p) =
  let p := match hidden with O => on_node_leave walker p | _ => p end in
  Ok (match stack with [] => inl (0, p) | _ => inr (at_token (pos + op_size Leave) stack (pred hidden) p) end).
Proof.
  intros Hm Ha Hn Hd Hh. unfold walk_token. cbn [ptr at_token level max_level full_path priv]. rewrite Ha.
  destruct (load32_m big m A FDT_NODE_END _ (Z.of_nat (length A)) Hm eq_refl ltac:(unfold FDT_NODE_END; lia)) as (x & -> & Hx). cbn [mbind outcome_bind]. rewrite Hx. cbn [Z.eqb Pos.eqb FDT_PROP FDT_NODE_START FDT_NODE_END].
  rewrite path_cons, before_slash_app by done. cbn [of_option mbind outcome_bind]. cbv zeta.
  assert ((if Z.of_nat (length (n :: stack)) <? max_of (n :: stack) hidden - 1 then on_node_leave walker p else p) = match hidden with O => on_node_leave walker p | _ => p end) as ->.
  { destruct hidden as [|h]; cbn [max_of length]; [destruct (Z.ltb_spec (Z.of_nat (S (length stack))) (512 - 1)); (done || lia)|]. destruct (Z.ltb_spec (Z.of_nat (S (length stack))) (Z.of_nat (S (length stack)) - Z.of_nat (S h) + 1 - 1)); (done || lia). }
  destruct (Z.eqb_spec (Z.of_nat (length (n :: stack)) - 1) 0) as [E|E]; [destruct stack; [done|cbn in E; lia]|]. destruct stack as [|n' stack]; [done|]. do 2 f_equal. unfold at_token. f_equal; [cbn [op_size]; lia|cbn [length]; lia|].
  destruct hidden as [|[|h]]; cbn [max_of length pred]; [by destruct (_ =? _)|rewrite (proj2 (Z.eqb_eq _ _)) by lia; done|]. rewrite (proj2 (Z.eqb_neq _ _)) by lia. lia.
Qed.

Lemma walk_spec ops bss : Forall2 (op_bytes T) ops bss → ∀ fuel A C pos stack hidden p, m = A ++ mjoin bss ++ C → sbase + pos = Z.of_nat (length A) → valid ops stack = true →
  Forall no_slash stack → (hidden ≤ length stack ≤ 510)%nat → (length ops ≤ fuel)%nat →
  walk_loop big walker m tbl sbase fuel (at_token pos stack hidden p) = Ok (0, ref_walk walker ops pos stack hidden p).
Proof.
  induction 1 as [|o bs ops bss Ho Hall IH]; intros fuel A C pos stack hidden p Hm Ha Hv Hst Hh Hf; [done|]. destruct fuel as [|fuel]; [cbn in Hf; lia|]. cbn [walk_loop length] in *.
  change (mjoin (bs :: bss)) with (bs ++ mjoin bss) in Hm. rewrite <-app_assoc in Hm. pose proof (op_bytes_length _ _ _ Ho) as Hlen.
  assert (m = (A ++ bs) ++ mjoin bss ++ C) as Hm' by (by rewrite <-app_assoc). assert (sbase + (pos + op_size o) = Z.of_nat (length (A ++ bs))) as Ha' by (rewrite length_app; lia).
  destruct o as [n|n d|]; cbn [valid] in Hv.
  - rewrite !andb_true_iff, forallb_forall, !Nat.ltb_lt in Hv. destruct Hv as [[[Hc Hp] Hd] Hv].
    assert (Forall is_char n ∧ no_slash n) as [Hch Hns].
    { split; apply Forall_forall; intros c Hin; specialize (Hc c); rewrite <-list_elem_of_In in Hc; specialize (Hc Hin); rewrite !andb_true_iff, !Z.ltb_lt, negb_true_iff, Z.eqb_neq in Hc; unfold is_char; lia. }
    rewrite (token_entry A (mjoin bss ++ C) n) by (done || lia || (cbn [op_bytes] in Ho; by rewrite <-Ho)). cbn [mbind outcome_bind ref_walk].
    destruct hidden as [|h]; [destruct (on_node_entry walker p pos (drop 1 (path (n :: stack)))) as [wanted p']|]; apply (IH fuel (A ++ bs) C); try done; try (by constructor); cbn [length]; try lia; destruct wanted; lia.
  - destruct stack as [|n' stack]; [done|]. apply andb_true_iff in Hv as [_ Hv]. rewrite (token_prop A (mjoin bss ++ C) n d bs) by (done || lia). cbn [mbind outcome_bind ref_walk].
    destruct hidden as [|h]; apply (IH fuel (A ++ bs) C); (done || lia).
  - destruct stack as [|n stack]; [done|]. apply Forall_cons in Hst as [Hns Hst]. cbn [op_bytes] in Ho. rewrite Ho in Hm. rewrite (token_leave A (mjoin bss ++ C) n) by (done || cbn in Hh; lia). cbv zeta. cbn [mbind outcome_bind ref_walk tail].
    destruct stack as [|n' stack].
    + destruct ops; [|done]. by destruct hidden.
    + destruct hidden as [|h]; cbn [pred]; apply (IH fuel (A ++ bs) C); (done || cbn [length] in *; lia).
Qed.
End reader.

(** *** The whole blob *)

Definition rsv_valid (rsv : list (Z * Z)) : bool :=
  forallb (λ '(a, s), (0 <=? a) && (a <? 2 ^ 64) && (0 <=? s) && (s <? 2 ^ 64) && negb ((a =? 0) && (s =? 0))) rsv.

Section whole.
Context (big : bool).

Lemma field_spec rsv sb T (z : Z) v : header rsv sb T !! Z.to_nat z = Some v → 0 ≤ z → 0 ≤ v < 2 ^ 32 → header_field big z (blob rsv sb T) = Ok v.
Proof.
  intros Hi Hz Hv. rewrite <-(Z2Nat.id z Hz). set (i := Z.to_nat z) in *. pose proof (lookup_lt_Some _ _ _ Hi) as Hlt. unfold header_field, blob. rewrite <-(take_drop_middle _ _ _ Hi), fmap_app, join_app, fmap_cons.
  change (mjoin (be_bytes 4 v :: (be_bytes 4 <$> drop (S i) (header rsv sb T)))) with (be_bytes 4 v ++ mjoin (be_bytes 4 <$> drop (S i) (header rsv sb T))). rewrite <-!app_assoc.
  destruct (load32_at big (mjoin (be_bytes 4 <$> take i (header rsv sb T))) (mjoin (be_bytes 4 <$> drop (S i) (header rsv sb T)) ++ rsv_bytes rsv ++ zeros 16 ++ sb ++ be_bytes 4 FDT_END ++ flat T) (4 * Z.of_nat i) v) as (x & -> & Hx); [|done|].
  - assert (∀ l, length (mjoin (be_bytes 4 <$> l)) = (4 * length l)%nat) as Hl.
    { clear. intros l. induction l as [|y l IH]; [done|]. rewrite fmap_cons. change (mjoin (be_bytes 4 y :: (be_bytes 4 <$> l))) with (be_bytes 4 y ++ mjoin (be_bytes 4 <$> l)). rewrite length_app, be_bytes_length, IH by lia. cbn [length]. lia. }
    rewrite Hl, length_take. lia.
  - cbn [mbind outcome_bind]. by rewrite Hx.
Qed.

Lemma fdt_reserve_spec {P} (w : fdt_walker_s P) rsv : ∀ fuel A C a p, rsv_valid rsv = true → a = Z.of_nat (length A) → (length rsv < fuel)%nat →
  reserve_loop big w fuel a (A ++ rsv_bytes rsv ++ zeros 16 ++ C) p = Ok (foldl (λ p '(a, s), on_mem_reserve w p a s) p rsv).
Proof.
  induction rsv as [|[x y] rsv IH]; intros fuel A C a p Hv Ha Hf; (destruct fuel as [|fuel]; [cbn in Hf; lia|]); cbn [reserve_loop]; unfold load64.
  - change (rsv_bytes [] ++ zeros 16 ++ C) with (be_bytes 8 0 ++ be_bytes 8 0 ++ C). rewrite (load_at A (be_bytes 8 0) _ a 8) by (exact Ha || reflexivity). cbn [mbind outcome_bind].
    rewrite app_assoc, (load_at _ (be_bytes 8 0)) by (rewrite ?length_app, ?be_bytes_length by lia; lia). cbn [mbind outcome_bind]. by rewrite be64_zero.
  - cbn [rsv_valid forallb] in Hv. rewrite !andb_true_iff, !Z.leb_le, !Z.ltb_lt, negb_true_iff in Hv. destruct Hv as [[[[[Hx1 Hx2] Hy1] Hy2] Hnz] Hv].
    rewrite rsv_cons, <-!app_assoc. rewrite (load_at A (be_bytes 8 x) _ a 8) by (rewrite ?be_bytes_length by lia; lia). cbn [mbind outcome_bind].
    rewrite (app_assoc A), (load_at _ (be_bytes 8 y)) by (rewrite ?length_app, ?be_bytes_length by lia; lia). cbn [mbind outcome_bind]. rewrite !be64_zero, !be64_value by lia.
    rewrite <-negb_andb, Hnz. cbn [negb]. rewrite app_assoc. rewrite IH; [done|done|rewrite !length_app, !be_bytes_length by lia; unfold rsvmap_size; lia|cbn in Hf; lia].
Qed.

Lemma valid_nonzero ops : ∀ stack, valid ops stack = true → Forall op_nonzero ops.
Proof.
  induction ops as [|o ops IH]; intros stack Hv; [constructor|]. destruct o as [n|n d|]; cbn [valid] in Hv.
  - rewrite !andb_true_iff in Hv. constructor; [exact I|]. by eapply IH, Hv.
  - destruct stack as [|x stack]; [done|]. rewrite andb_true_iff, forallb_forall in Hv. destruct Hv as [Hn Hv]. constructor; [|by eapply IH].
    apply Forall_forall. intros c Hc. specialize (Hn c). rewrite <-list_elem_of_In in Hn. specialize (Hn Hc). by rewrite negb_true_iff, Z.eqb_neq in Hn.
  - constructor; [exact I|]. destruct stack as [|x [|y stack]]; [done|destruct ops; [constructor|done]|by eapply IH].
Qed.
Lemma valid_starts ops : valid ops [] = true → ∃ n ops', ops = Entry n :: ops'.
Proof. destruct ops as [|[n|n d|] ops]; intros H; try discriminate H. eauto. Qed.

Lemma table_spec rsv sb T strid s : Forall nonzero T → at_tbl T strid s → cstr (table_at rsv sb + strid) (blob rsv sb T) = Ok s.
Proof.
  intros Hnz (pre & post & -> & ->). apply Forall_app in Hnz as [_ Hnz]. apply Forall_cons in Hnz as [Hs _].
  set (X := mjoin (be_bytes 4 <$> header rsv sb (pre ++ s :: post)) ++ rsv_bytes rsv ++ zeros 16 ++ sb ++ be_bytes 4 FDT_END ++ flat pre).
  assert (blob rsv sb (pre ++ s :: post) = X ++ s ++ 0 :: flat post) as -> by (unfold blob, X; rewrite flat_app, flat_cons, <-!app_assoc; done).
  apply cstr_at; [|done]. unfold X. rewrite !length_app, zeros_length, be_bytes_length, header_length by lia. unfold table_at, base. pose proof (rsv_length rsv). lia.
Qed.

Lemma blob_struct rsv sb T : blob rsv sb T = (mjoin (be_bytes 4 <$> header rsv sb T) ++ rsv_bytes rsv ++ zeros 16) ++ sb ++ be_bytes 4 FDT_END ++ flat T.
Proof. unfold blob. by rewrite <-!app_assoc. Qed.
Lemma before_struct_length rsv sb T : Z.of_nat (length (mjoin (be_bytes 4 <$> header rsv sb T) ++ rsv_bytes rsv ++ zeros 16)) = base rsv.
Proof. rewrite !length_app, header_length, zeros_length. unfold base. pose proof (rsv_length rsv). lia. Qed.

Lemma check_spec addr rsv sb T : addr ≠ 0 → Z.land addr 3 = 0 → fdt_check_header big addr (blob rsv sb T) = Ok 0.
Proof.
  intros Ha Hal. unfold fdt_check_header. rewrite (proj2 (Z.eqb_neq _ _) Ha), Hal. cbn [Z.eqb negb]. pose proof (field_spec rsv sb T 0 FDT_MAGIC eq_refl ltac:(lia) ltac:(unfold FDT_MAGIC; lia)) as H.
  unfold header_field in H. change (4 * 0) with 0 in H. destruct (load32 big 0 (blob rsv sb T)) as [x|]; [|done]. cbn [mbind outcome_bind] in *. injection H as ->. by rewrite Z.eqb_refl.
Qed.

Lemma walk_blob_spec {P} (w : fdt_walker_s P) addr rsv sb T ops p : addr ≠ 0 → Z.land addr 3 = 0 → rsv_valid rsv = true → valid ops [] = true → struct_bytes T ops sb → Forall nonzero T →
  blob_size rsv sb T < 2 ^ 32 →
  fdt_walk_blob big w addr (blob rsv sb T) p = Ok (0, ref_walk w ops 0 [] 0 (foldl (λ p '(a, s), on_mem_reserve w p a s) p rsv)).
Proof.
  intros Ha Hal Hr Hv (bss & Hall & ->) HT Hsize. set (sb := mjoin bss) in *. assert (0 ≤ base rsv) by (unfold base; lia). unfold blob_size in Hsize.
  assert (0 ≤ table_at rsv sb) by (unfold table_at; lia). unfold fdt_walk_blob. rewrite check_spec by done. cbn [mbind outcome_bind Z.eqb negb].
  rewrite (field_spec rsv sb T 3 (table_at rsv sb) eq_refl ltac:(lia)), (field_spec rsv sb T 2 (base rsv) eq_refl ltac:(lia)), (field_spec rsv sb T 4 40 eq_refl ltac:(lia)) by (unfold table_at in *; lia). cbn [mbind outcome_bind].
  assert (length rsv < length (blob rsv sb T))%nat by (pose proof (blob_length rsv sb T); unfold blob_size, table_at, base in *; lia).
  assert (reserve_loop big w (length (blob rsv sb T)) 40 (blob rsv sb T) p = Ok (foldl (λ p '(a, s), on_mem_reserve w p a s) p rsv)) as ->.
  { unfold blob at 2. by apply fdt_reserve_spec. }
  cbn [mbind outcome_bind]. destruct (valid_starts ops Hv) as (n & ops' & ->). pose proof (blob_struct rsv sb T) as Hb. pose proof (before_struct_length rsv sb T) as Hbl. set (A := mjoin (be_bytes 4 <$> header rsv sb T) ++ rsv_bytes rsv ++ zeros 16) in Hb, Hbl.
  assert (∃ x, load32 big (base rsv) (blob rsv sb T) = Ok x ∧ endian_be32 big x = FDT_NODE_START) as (x & -> & Hx).
  { rewrite Hb. unfold sb. destruct (Forall2_cons_inv_l _ _ _ _ Hall) as (bs & bss' & Ho & _ & E). rewrite E. cbn [op_bytes] in Ho. change (mjoin (bs :: bss')) with (bs ++ mjoin bss'). rewrite Ho, <-!app_assoc.
    apply load32_at; [done|unfold FDT_NODE_START; lia]. }
  cbn [mbind outcome_bind]. rewrite Hx. cbn [Z.eqb Pos.eqb negb FDT_NODE_START]. unfold fdt_walk_node.
  pose proof (walk_spec big w (blob rsv sb T) (table_at rsv sb) (base rsv) T (λ i s, table_spec rsv sb T i s HT)) as Hwalk. pose proof (blob_length rsv sb T) as Hlen. unfold blob_size, table_at in *.
  specialize (Hwalk ltac:(lia) ltac:(lia) _ bss Hall (length (blob rsv sb T)) A (be_bytes 4 FDT_END ++ flat T) 0 [] 0%nat). unfold at_token in Hwalk. cbn [length max_of] in Hwalk. rewrite Z.add_0_r in Hwalk.
  change (path []) with (@nil Z) in Hwalk. apply Hwalk; [done|done|done|constructor|lia|]. apply Forall2_length in Hall as Hlb. pose proof (struct_length _ _ _ Hall) as Hsl. fold sb in Hsl.
  pose proof (total_length (Entry n :: ops')). cbn [length] in *. lia.
Qed.
End whole.

(** *** The search for properties *)

Fixpoint find_prop (name : list Z) (props : list (list Z * list Z)) : option (list Z) :=
  match props with
  | [] => None
  | (n, d) :: props => if decide (name = n) then Some d else find_prop name props
  end.
Definition prop_op (nd : list Z * list Z) : op := Prop_ nd.1 nd.2.
Definition is_prop (o : op) : bool := match o with Prop_ _ _ => true | _ => false end.

(** A value in the blob. *)
Definition points_to (m : list Z) (r : option (Z * Z)) (v : option (list Z)) : Prop :=
  match v with
  | Some d => ∃ a, r = Some (a, Z.of_nat (length d)) ∧ load a (Z.of_nat (length d)) m = Ok d
  | None => r = None
  end.

Section search.
Context (big : bool) (m : list Z) (tbl : Z) (T : list (list Z)).
Context (Htbl : ∀ strid s, at_tbl T strid s → cstr (tbl + strid) m = Ok s).
Context (Hsize : Z.of_nat (length m) < 2 ^ 32) (Hflat : Z.of_nat (length (flat T)) < 2 ^ 32).

(** The token that ends the properties. *)
Lemma prop_end o bs fuel A C a name : op_bytes T o bs → is_prop o = false → m = A ++ bs ++ C → a = Z.of_nat (length A) → prop_loop big (S fuel) tbl a name m = Ok None.
Proof.
  intros Ho Hp Hm Ha. destruct o as [n|n d|]; [|done|]; cbn [op_bytes] in Ho; rewrite Ho in Hm; cbn [prop_loop].
  - rewrite <-app_assoc in Hm. destruct (load32_m big m A FDT_NODE_START _ a Hm Ha ltac:(unfold FDT_NODE_START; lia)) as (x & -> & Hx). cbn [mbind outcome_bind]. by rewrite Hx.
  - destruct (load32_m big m A FDT_NODE_END _ a Hm Ha ltac:(unfold FDT_NODE_END; lia)) as (x & -> & Hx). cbn [mbind outcome_bind]. by rewrite Hx.
Qed.

Lemma prop_loop_spec props bss : Forall2 (op_bytes T) (prop_op <$> props) bss → ∀ o bs fuel A C a name, op_bytes T o bs → is_prop o = false →
  m = A ++ mjoin bss ++ bs ++ C → a = Z.of_nat (length A) → (length props < fuel)%nat → ∃ r, prop_loop big fuel tbl a name m = Ok r ∧ points_to m r (find_prop name props).
Proof.
  revert bss. induction props as [|[n d] props IH]; intros bss Hall o bs fuel A C a name Ho Hp Hm Ha Hf; (destruct fuel as [|fuel]; [cbn in Hf; lia|]).
  - apply Forall2_nil_inv_l in Hall as ->. exists None. split; [|done]. apply (prop_end o bs fuel A C); [done|done|exact Hm|done].
  - rewrite fmap_cons in Hall. destruct (Forall2_cons_inv_l _ _ _ _ Hall) as (b & bss' & (strid & Hat & Hb) & Hall' & ->). cbn [fst snd prop_op] in *. change (mjoin (b :: bss')) with (b ++ mjoin bss') in Hm. rewrite <-!app_assoc in Hm.
    pose proof (at_tbl_bound _ _ _ Hat). assert (Z.of_nat (length d) + 11 < 2 ^ 32) as Hdl. { rewrite Hm, Hb, !length_app, !be_bytes_length in Hsize by lia. unfold pad in Hsize. rewrite length_app in Hsize. lia. }
    assert (Z.of_nat (length b) = op_size (Prop_ n d)) as Hbl by (apply (op_bytes_length T); by exists strid). pose proof Hm as Hm'. rewrite Hb, <-!app_assoc in Hm.
    cbn [prop_loop]. destruct (load32_m big m A FDT_PROP _ a Hm Ha ltac:(unfold FDT_PROP; lia)) as (x & -> & Hx). cbn [mbind outcome_bind]. rewrite Hx. cbn [Z.eqb Pos.eqb FDT_PROP].
    rewrite app_assoc in Hm. destruct (load32_m big m _ (Z.of_nat (length d)) _ (a + 4) Hm) as (y & -> & Hy); [rewrite length_app, be_bytes_length by lia; lia|lia|]. cbn [mbind outcome_bind]. rewrite Hy.
    rewrite app_assoc in Hm. destruct (load32_m big m _ strid _ (a + 4 + 4) Hm) as (z & -> & Hz); [rewrite !length_app, !be_bytes_length by lia; lia|lia|]. cbn [mbind outcome_bind]. rewrite Hz, (Htbl _ _ Hat). cbn [mbind outcome_bind find_prop].
    destruct (decide (name = n)) as [->|Hne].
    + eexists. split; [reflexivity|]. eexists. split; [reflexivity|]. rewrite app_assoc in Hm. unfold pad in Hm. rewrite <-(app_assoc d) in Hm. rewrite Hm. apply load_at; [rewrite !length_app, !be_bytes_length by lia; lia|done].
    + rewrite wrapu_small by lia. rewrite app_assoc in Hm'. apply (IH bss' Hall' o bs fuel (A ++ b) C); [done|done|done| |cbn in Hf; lia]. rewrite length_app. cbn [op_size] in Hbl. Z.div_mod_to_equations. lia.
Qed.

(** The words of a name are no tokens. *)
Lemma name_token (l : list Z) : length l = 4%nat → Forall (λ c, 0 ≤ c < 128) l → head l ≠ Some 0 ∨ l = zeros 4 →
  let token := endian_be32 big (word_value big l) in token ≠ FDT_PROP ∧ token ≠ FDT_END ∧ token ≠ FDT_NODE_END ∧ token ≠ FDT_NODE_START.
Proof.
  intros Hl Hc Hh token. assert (token = le_value (reverse l)) as E.
  { assert (Forall is_byte (reverse l)) as Hrb by (apply Forall_reverse; eapply Forall_impl; [exact Hc|unfold is_byte; cbn; lia]). assert (be_bytes 4 (le_value (reverse l)) = l) as Hbe.
    { unfold be_bytes. pose proof (le_bytes_le_value (reverse l) Hrb) as H. rewrite length_reverse, Hl in H. change (Z.of_nat 4) with 4 in H. rewrite H. apply reverse_involutive. }
    unfold token. rewrite <-Hbe at 1. apply be32_value. pose proof (le_value_range (reverse l) Hrb) as Hr. rewrite length_reverse, Hl in Hr. done. }
  rewrite E. destruct l as [|a [|b [|c [|d [|]]]]]; try discriminate Hl. change (reverse [a; b; c; d]) with [d; c; b; a]. cbn [le_value]. rewrite !Forall_cons in Hc. unfold FDT_PROP, FDT_END, FDT_NODE_END, FDT_NODE_START.
  destruct Hh as [Hh|[= -> -> -> ->]]; [|lia]. cbn in Hh. assert (a ≠ 0) by congruence. lia.
Qed.

Lemma name_words_spec fuel : ∀ A s C a name, Forall is_char s → m = A ++ pad 4 s ++ C → a = Z.of_nat (length A) → (length s < 4 * fuel)%nat →
  ∃ k, (k ≤ fuel)%nat ∧ (4 * k = length (pad 4 s))%nat ∧ ∀ f, prop_loop big (k + f) tbl a name m = prop_loop big f tbl (a + Z.of_nat (length (pad 4 s))) name m.
Proof.
  induction fuel as [|fuel IH]; intros A s C a name Hs Hm Ha Hf; [lia|].
  assert (∀ l R f, length l = 4%nat → Forall (λ c, 0 ≤ c < 128) l → head l ≠ Some 0 ∨ l = zeros 4 → m = A ++ l ++ R → prop_loop big (S f) tbl a name m = prop_loop big f tbl (a + 4) name m) as Hstep.
  { intros l R f Hl Hlc Hh E. cbn [prop_loop]. unfold load32. rewrite E at 1. rewrite (load_at A l R) by (done || by rewrite Hl). cbn [mbind outcome_bind]. destruct (name_token l Hl Hlc Hh) as (H1 & H2 & H3 & H4).
    by rewrite !(proj2 (Z.eqb_neq _ _)). }
  assert (∀ l, Forall is_char l → Forall (λ c, 0 ≤ c < 128) l) as Hch by (intros l Hl; eapply Forall_impl; [exact Hl|unfold is_char; cbn; lia]).
  assert (∀ l R, Forall is_char l → l ≠ [] → head (l ++ R) ≠ Some 0) as Hhd by (intros [|c l] R Hl Hne; [done|]; apply Forall_cons in Hl as [Hc _]; unfold is_char in Hc; cbn; intros [=]; lia).
  destruct (Nat.le_gt_cases 4 (length s)) as [Hl|Hl].
  - rewrite <-(take_drop 4 s) in Hs, Hm |- *. apply Forall_app in Hs as [Hs1 Hs2]. assert (length (take 4 s) = 4%nat) as Hw by (rewrite length_take; lia). rewrite pad_4_app in * by done. rewrite <-app_assoc in Hm.
    destruct (IH (A ++ take 4 s) (drop 4 s) C (a + 4) name Hs2) as (k & Hk & Hk4 & Hrec); [by rewrite <-app_assoc|rewrite length_app; lia|rewrite length_drop; lia|].
    exists (S k). rewrite length_app, Hw. split_and!; [lia|lia|]. intros f. cbn [Nat.add]. rewrite (Hstep (take 4 s) (pad 4 (drop 4 s) ++ C)); [|done|by apply Hch| |done].
    + rewrite Hrec. f_equal. lia.
    + left. rewrite <-(app_nil_r (take 4 s)). apply Hhd; [done|]. intros E. by rewrite E in Hw.
  - rewrite pad_4_short in * by done. exists 1%nat. rewrite length_app, length_replicate. split_and!; [lia|lia|]. intros f. cbn [Nat.add]. rewrite (Hstep (s ++ replicate (4 - length s) 0) C); [f_equal; lia|rewrite length_app, length_replicate; lia| | |done].
    + apply Forall_app. split; [by apply Hch|]. apply Forall_replicate. lia.
    + destruct s as [|c s]; [by right|left]. by apply Hhd.
Qed.

Lemma node_search X C n props bss o bo name : Forall is_char n → Forall2 (op_bytes T) (prop_op <$> props) bss → op_bytes T o bo → is_prop o = false →
  m = X ++ pad 4 n ++ mjoin bss ++ bo ++ C → (length (pad 4 n) + length props < length m)%nat →
  (∃ r, fdt_reader_has_prop big m tbl (Z.of_nat (length X)) name = Ok r ∧ points_to m r (find_prop name props)) ∧
  (∃ r, prop_loop big (length m) tbl (Z.of_nat (length X)) name m = Ok r ∧ points_to m r (find_prop name props)).
Proof.
  intros Hn Hall Ho Hp Hm Hf. assert (length n < length (pad 4 n))%nat as Hpad by (pose proof (pad_length 4 n ltac:(lia)); Z.div_mod_to_equations; lia).
  assert (∀ f, (length props < f)%nat → ∃ r, prop_loop big f tbl (Z.of_nat (length X) + Z.of_nat (length (pad 4 n))) name m = Ok r ∧ points_to m r (find_prop name props)) as Hprops.
  { intros f Hlt. apply (prop_loop_spec props bss Hall o bo f (X ++ pad 4 n) C); [done|done|by rewrite <-!app_assoc|rewrite length_app; lia|done]. }
  split.
  - unfold fdt_reader_has_prop, fdt_skip_str. assert (skip_loop big (length m) (Z.of_nat (length X)) m = Ok (Z.of_nat (length X) + Z.of_nat (length (pad 4 n)))) as ->; [|apply Hprops; lia].
    generalize (length m) Hf. rewrite Hm. intros f Hf'. apply skip_spec; [done|done|lia].
  - destruct (name_words_spec (S (length n)) X n (mjoin bss ++ bo ++ C) (Z.of_nat (length X)) name Hn Hm eq_refl ltac:(lia)) as (k & Hk & Hk4 & Hrec).
    replace (length m) with (k + (length m - k))%nat by lia. rewrite Hrec. apply Hprops. lia.
Qed.
End search.

(** ** Theorem *)

(** C7. What is written is what is read, within the limits that [valid] and [needed]
    state: a client makes calls which describe one tree whose node names are ASCII
    without a slash, whose paths are shorter than 32 characters and which is less than
    511 nodes deep, in a buffer that was cleared and has room for the strings of the
    properties twice.  It gets a blob; walking it calls the functions of any reader with
    the reserved areas, the nodes with their paths and the offsets the writer returned,
    the properties with their names and values and the ends of the nodes, in order,
    leaves out what the reader does not want, and returns 0; for processors of both byte
    orders.  The code tests none of the limits; [fdt_path_overrun],
    [fdt_name_high_byte], [fdt_needs_cleared_buffer] and [fdt_finalize_overlaps] below
    show what happens outside of them. *)
Theorem fdt_written_is_read (big : bool) (addr avail : Z) (rsv : list (Z * Z)) (ops : list op) :
  addr ≠ 0 → Z.land addr 3 = 0 → rsv_valid rsv = true → valid ops [] = true → needed rsv ops ≤ avail < 2 ^ 32 →
  ∃ m, write_blob big avail rsv ops = Ok (entry_offsets 0 ops, 0, m) ∧ fdt_get_size big addr m = Ok (Z.of_nat (length m)) ∧
    ∀ (P : Type) (w : fdt_walker_s P) (p : P), fdt_walk_blob big w addr m p = Ok (0, ref_walk w ops 0 [] 0 (foldl (λ p '(a, s), on_mem_reserve w p a s) p rsv)).
Proof.
  intros Ha Hal Hr Hv Hav. destruct (write_blob_spec big avail rsv ops ltac:(lia) (valid_nonzero _ _ Hv)) as (sb & T & E & Hsb & HT & Hsz). exists (blob rsv sb T).
  split_and!; [done| |intros; apply walk_blob_spec; try done; lia]. unfold fdt_get_size. rewrite check_spec by done. cbn [mbind outcome_bind Z.eqb negb]. rewrite blob_length.
  apply (field_spec big rsv sb T 1 (blob_size rsv sb T) eq_refl); [lia|]. unfold blob_size, table_at, base in *. lia.
Qed.

Lemma valid_chars ops : ∀ stack n, valid ops stack = true → Entry n ∈ ops → Forall is_char n.
Proof.
  induction ops as [|o ops IH]; intros stack n Hv Hin; [by apply not_elem_of_nil in Hin|]. apply elem_of_cons in Hin as [<-|Hin]; cbn [valid] in Hv.
  - rewrite !andb_true_iff, forallb_forall in Hv. destruct Hv as [[[Hc _] _] _]. apply Forall_forall. intros c Hc'. specialize (Hc c). rewrite <-list_elem_of_In in Hc. specialize (Hc Hc').
    rewrite !andb_true_iff, !Z.ltb_lt in Hc. unfold is_char. lia.
  - destruct o as [n'|n' d|]; [rewrite !andb_true_iff in Hv; eapply IH; [apply Hv|done]|destruct stack; [done|]; rewrite andb_true_iff in Hv; eapply IH; [apply Hv|done]|].
    destruct stack as [|x [|y stack]]; [done|destruct ops; [by apply not_elem_of_nil in Hin|done]|by eapply IH].
Qed.
Lemma entry_offsets_app ops1 : ∀ pos n ops2, pos + total op_size ops1 ∈ entry_offsets pos (ops1 ++ Entry n :: ops2).
Proof.
  induction ops1 as [|o ops1 IH]; intros pos n ops2; cbn [app entry_offsets].
  - rewrite Z.add_0_r. by left.
  - change (total op_size (o :: ops1)) with (op_size o + total op_size ops1). rewrite Z.add_assoc. destruct o; [right|..]; apply IH.
Qed.

(** The properties of a node are found: with the offset that the writer returned
    for a node the reader finds the first property of a given name that directly
    follows the beginning of the node, its size and its value, and finds none when
    there is none; also from a callback that is entering the node. *)
Theorem fdt_props_found (big : bool) (avail : Z) (rsv : list (Z * Z)) (ops1 ops2 : list op) (n : list Z) (props : list (list Z * list Z)) (o : op) (name : list Z) :
  let ops := ops1 ++ Entry n :: (prop_op <$> props) ++ o :: ops2 in
  let offset := total op_size ops1 in
  valid ops [] = true → is_prop o = false → needed rsv ops ≤ avail < 2 ^ 32 →
  ∃ m offs, write_blob big avail rsv ops = Ok (offs, 0, m) ∧ offset ∈ offs ∧
    (∃ r, fdt_get_prop_at big m offset name = Ok r ∧ points_to m r (find_prop name props)) ∧
    (∀ string_table struct_base, header_field big 3 m = Ok string_table → header_field big 2 m = Ok struct_base →
      ∃ r, fdt_reader_has_prop big m string_table (struct_base + offset + 4) name = Ok r ∧ points_to m r (find_prop name props)).
Proof.
  intros ops offset Hv Hp Hav. destruct (write_blob_spec big avail rsv ops ltac:(lia) (valid_nonzero _ _ Hv)) as (sb & T & E & (bss & Hall & Hsb) & HT & Hsz). exists (blob rsv sb T), (entry_offsets 0 ops).
  split; [done|]. split; [exact (entry_offsets_app ops1 0 n _)|]. pose proof (valid_chars ops [] n Hv) as Hch. unfold ops in Hall.
  apply Forall2_app_inv_l in Hall as (bss1 & bss2 & H1 & Hall & ->). apply Forall2_cons_inv_l in Hall as (b & bss3 & Hb & Hall & ->). apply Forall2_app_inv_l in Hall as (bss4 & bss5 & H4 & Hall & ->). apply Forall2_cons_inv_l in Hall as (bo & bss6 & Ho & _ & ->).
  rewrite join_app in Hsb. change (mjoin (b :: bss4 ++ bo :: bss6)) with (b ++ mjoin (bss4 ++ bo :: bss6)) in Hsb. rewrite join_app in Hsb. change (mjoin (bo :: bss6)) with (bo ++ mjoin bss6) in Hsb. cbn [op_bytes] in Hb.
  set (A := (mjoin (be_bytes 4 <$> header rsv sb T) ++ rsv_bytes rsv ++ zeros 16) ++ mjoin bss1). set (C := mjoin bss6 ++ be_bytes 4 FDT_END ++ flat T).
  assert (Z.of_nat (length A) = base rsv + offset) as HA by (unfold A; rewrite length_app, Nat2Z.inj_add, before_struct_length, (struct_length _ _ _ H1); done).
  assert (blob rsv sb T = (A ++ be_bytes 4 FDT_NODE_START) ++ pad 4 n ++ mjoin bss4 ++ bo ++ C) as Hm.
  { assert (sb ++ be_bytes 4 FDT_END ++ flat T = mjoin bss1 ++ be_bytes 4 FDT_NODE_START ++ pad 4 n ++ mjoin bss4 ++ bo ++ C) as Es by (rewrite Hsb, Hb; unfold C; by rewrite <-!app_assoc).
    rewrite blob_struct, Es. unfold A. by rewrite <-!app_assoc. }
  assert (Forall is_char n) as Hn by (apply Hch; unfold ops; apply elem_of_app; right; by left).
  pose proof (blob_length rsv sb T) as Hlen. assert (0 ≤ base rsv) by (unfold base; lia). unfold blob_size in *. assert (0 ≤ table_at rsv sb) by (unfold table_at; lia).
  assert (length (pad 4 n) + length props < length (blob rsv sb T))%nat as Hf.
  { pose proof (struct_length _ _ _ H4) as Hl4. pose proof (total_length (prop_op <$> props)) as Hcnt. rewrite length_fmap in Hcnt. rewrite Hm. unfold C. rewrite !length_app, !be_bytes_length by lia. lia. }
  assert (Z.of_nat (length (A ++ be_bytes 4 FDT_NODE_START)) = base rsv + offset + 4) as HX by (rewrite length_app, be_bytes_length by lia; lia).
  destruct (node_search big _ (table_at rsv sb) T (λ i s, table_spec rsv sb T i s HT) ltac:(lia) ltac:(lia) _ C n props bss4 o bo name Hn H4 Ho Hp Hm Hf) as [Hhas Hloop]. rewrite HX in *.
  rewrite !(field_spec big rsv sb T 2 (base rsv) eq_refl ltac:(lia)), !(field_spec big rsv sb T 3 (table_at rsv sb) eq_refl ltac:(lia)) by (unfold table_at in *; lia).
  split; [|by intros ? ? [= <-] [= <-]]. unfold fdt_get_prop_at. rewrite (field_spec big rsv sb T 2 (base rsv) eq_refl ltac:(lia)), (field_spec big rsv sb T 3 (table_at rsv sb) eq_refl ltac:(lia)) by (unfold table_at in *; lia). cbn [mbind outcome_bind].
  assert (fdt_skip_str big (offset + base rsv) (blob rsv sb T) = Ok (base rsv + offset + 4)) as ->; [|done]. unfold fdt_skip_str. destruct (length (blob rsv sb T)) as [|f] eqn:Ef; [lia|].
  rewrite Hm, <-app_assoc. change (be_bytes 4 FDT_NODE_START) with [0; 0; 0; 1]. rewrite skip_word; [cbn [existsb Z.eqb orb]; f_equal; lia|done|rewrite !Forall_cons, Forall_nil; lia|lia].
Qed.

(** A tree with two nodes, the properties share a name. *)
Definition demo_ops : list op := [Entry []; Prop_ [97; 98] [1; 2; 3]; Entry [99; 112; 117]; Prop_ [97; 98] []; Prop_ [114] [255; 0; 0; 0; 7]; Leave; Leave].
Lemma fdt_written_is_read_witness :
  ∃ m, write_blob false 300 [(4096, 8192)] demo_ops = Ok (entry_offsets 0 demo_ops, 0, m) ∧ fdt_get_size false 4096 m = Ok (Z.of_nat (length m)) ∧
    ∀ (P : Type) (w : fdt_walker_s P) (p : P), fdt_walk_blob false w 4096 m p = Ok (0, ref_walk w demo_ops 0 [] 0 (foldl (λ p '(a, s), on_mem_reserve w p a s) p [(4096, 8192)])).
Proof. apply fdt_written_is_read; [lia|done|reflexivity|reflexivity|split; [vm_compute; discriminate|lia]]. Defined.

Lemma fdt_props_found_witness :
  ∃ m offs, write_blob true 300 [] demo_ops = Ok (offs, 0, m) ∧ 24 ∈ offs ∧
    (∃ r, fdt_get_prop_at true m 24 [114] = Ok r ∧ points_to m r (find_prop [114] [([97; 98], []); ([114], [255; 0; 0; 0; 7])])) ∧
    (∀ string_table struct_base, header_field true 3 m = Ok string_table → header_field true 2 m = Ok struct_base →
      ∃ r, fdt_reader_has_prop true m string_table (struct_base + 24 + 4) [114] = Ok r ∧ points_to m r (find_prop [114] [([97; 98], []); ([114], [255; 0; 0; 0; 7])])).
Proof.
  apply (fdt_props_found true 300 [] [Entry []; Prop_ [97; 98] [1; 2; 3]] [Leave] [99; 112; 117] [([97; 98], []); ([114], [255; 0; 0; 0; 7])] Leave [114]); [reflexivity|reflexivity|split; [vm_compute; discriminate|lia]].
Defined.

(** ** Defects *)

(** A reader that records what it is called with. *)
Definition tracer : fdt_walker_s (list (Z * list Z)) :=
  {| on_node_entry := λ p _ n, (true, p ++ [(1, n)]); on_node_leave := λ p, p ++ [(2, [])]; on_node_prop := λ p _ n d, p ++ [(3, n); (4, d)]; on_mem_reserve := λ p _ _, p |}.
Definition write_and_walk (avail : Z) (ops : list op) : outcome (Z * list (Z * list Z)) :=
  '(_, e, m) ← write_blob false avail [] ops;
  require (e =? 0) FAssert;;
  fdt_walk_blob false tracer 4096 m [].

(** The strings are copied over strings that are still to be copied when the gap
    is smaller than the table, and no error is reported: the second property loses
    its name. *)
Theorem fdt_finalize_overlaps :
  write_and_walk 142 [Entry []; Prop_ [97; 97; 97; 97; 97] [1]; Prop_ [98; 98; 98; 98] [2]; Prop_ [99; 99] [3]; Leave] =
  Ok (0, [(1, []); (3, [97; 97; 97; 97; 97]); (4, [1]); (3, []); (4, [2]); (3, [99; 99]); (4, [3]); (2, [])]).
Proof. vm_compute. reflexivity. Qed.

(** The test for the end of a name takes a byte above 128 for the end. *)
Theorem fdt_name_high_byte : write_and_walk 200 [Entry []; Entry [201; 97; 97; 97; 97]; Leave; Leave] = Ok (- EINVAL, [(1, []); (1, [47; 201; 97; 97; 97; 97])]).
Proof. vm_compute. reflexivity. Qed.

(** Paths of 32 characters overrun the buffer of the reader. *)
Theorem fdt_path_overrun : write_and_walk 300 [Entry []; Entry (replicate 16 97); Entry (replicate 16 97); Leave; Leave; Leave] = Err FBounds.
Proof. vm_compute. reflexivity. Qed.

(** The writer does not write the zeros behind a name: in a buffer that is not
    cleared the blob cannot be read. *)
Theorem fdt_needs_cleared_buffer :
  ('(w, m) ← fdt_writer_init 200 (replicate 200 255); '(_, w, m) ← run_ops false [Entry []; Entry [97]; Leave; Leave] w m; '(e, size, w, m) ← fdt_writer_finalize false w m;
   require (e =? 0) FAssert;; fdt_walk_blob false tracer 4096 (take (Z.to_nat size) m) []) = Err FBounds.
Proof. vm_compute. reflexivity. Qed.
End FdtSpec.
