(* ===== verification/Ramfs.v ===== *)
(** * Directories of the memory file system (libvfs/fs/ramfs/ramfs.c, ramfs-private.h)

    Nodes are reference counted objects; a directory holds its children in a hash
    list of the container library and owns one reference to each of them.  This file
    models the heap of nodes and of file data, with the counters, the locks of the
    directories, and the operations the virtual file system calls. *)

From stdpp Require Import gmap.
From S2P Require Import Prelude FileOps RamfsFile.
Import FileOps.

Module Ramfs.

(** The length of names (CONFIG_VFS_NAMELEN), the width of uintptr_t, the byte order,
    and whether the spin locks exist (several processors). *)
Record config := { NAMELEN : nat; W : Z; big : bool; smp : bool }.

Definition EEXISTS : Z := 17.
Definition EISDIR : Z := 21.

(** ** Hash lists (gpct cont_hashlist.t, _cont_hash_cmp.t) *)

(** The value of the bytes of a word in memory. *)
Definition word (b : bool) (bs : list Z) : Z :=
  foldr (λ x v, x + 256 * v) 0 (if b then reverse bs else bs).

(** The loop shared by the hash functions on bytes, half words and words. *)
Fixpoint rawdata_hash_loop (cfg : config) (k n : nat) (val : Z) (blob : list Z) : Z :=
  match n with
  | O => val
  | S n => rawdata_hash_loop cfg k n (wrapu (W cfg) (Z.lxor (word (big cfg) (take k blob)) (Z.shiftl val 1))) (drop k blob)
  end.
Definition gpct_rawdata_hash (cfg : config) (blob : list Z) : Z :=
  let size := Z.of_nat (length blob) in
  let k := if Z.land size 3 =? 0 then 4%nat else if Z.land size 1 =? 0 then 2%nat else 1%nat in
  rawdata_hash_loop cfg k (length blob / k) 0 blob.

(** The heads of a hash list, each with the items that hang from it. *)
Definition hashsize : nat := 5.
Definition hash_index (cfg : config) (name : list Z) : nat := Z.to_nat (gpct_rawdata_hash cfg name mod Z.of_nat hashsize).
Definition hash_init : list (list nat) := replicate hashsize [].
Definition hash_push (cfg : config) (name : list Z) (item : nat) (b : list (list nat)) : list (list nat) := alter (cons item) (hash_index cfg name) b.
(** Unlinking an item that is not linked follows stale links. *)
Definition hash_remove (item : nat) (b : list (list nat)) : outcome (list (list nat)) :=
  require (bool_decide (item ∈ concat b)) FCorrupt;;
  Ok (filter (λ x, x ≠ item) <$> b).
Definition hash_count (b : list (list nat)) : Z := Z.of_nat (length (concat b)).

(** ** Objects *)

Inductive vfs_node_type_e := VFS_NODE_DIR | VFS_NODE_FILE.
#[export] Instance type_eq_dec : EqDecision vfs_node_type_e.
Proof. solve_decision. Defined.

(** The union of a node: the data of a file, or the children of a directory and
    their lock. *)
Inductive fs_node_u := Data (d : nat) | Children (b : list (list nat)) (locked : bool).

(** The name is not set by the constructor. *)
Record fs_node_s := { refcnt : Z; name : list Z; type : vfs_node_type_e; parent : option nat; body : fs_node_u }.
Record data_obj := { data_refcnt : Z; data_val : RamfsFile.ramfs_data_s }.

(** The live objects, by their addresses. *)
Record ramfs := { nodes : gmap nat fs_node_s; datas : gmap nat data_obj }.

(** An access to an object that is freed is caught as a corruption. *)
Definition get (n : nat) (s : ramfs) : outcome fs_node_s := of_option FCorrupt (nodes s !! n).
Definition put (n : nat) (x : fs_node_s) (s : ramfs) : ramfs := {| nodes := <[n := x]> (nodes s); datas := datas s |}.
Definition set_refcnt (r : Z) (x : fs_node_s) : fs_node_s := {| refcnt := r; name := name x; type := type x; parent := parent x; body := body x |}.
Definition set_name (nm : list Z) (x : fs_node_s) : fs_node_s := {| refcnt := refcnt x; name := nm; type := type x; parent := parent x; body := body x |}.
Definition set_parent (p : option nat) (x : fs_node_s) : fs_node_s := {| refcnt := refcnt x; name := name x; type := type x; parent := p; body := body x |}.
Definition set_body (u : fs_node_u) (x : fs_node_s) : fs_node_s := {| refcnt := refcnt x; name := name x; type := type x; parent := parent x; body := u |}.
Definition modify (n : nat) (f : fs_node_s → fs_node_s) (s : ramfs) : outcome ramfs := x ← get n s; Ok (put n (f x) s).

(** The children of a node; on a file, the union holds something else. *)
Definition get_children (n : nat) (s : ramfs) : outcome (list (list nat) * bool) :=
  x ← get n s; match body x with Children b l => Ok (b, l) | Data _ => Err FUndef end.
Definition get_data (n : nat) (s : ramfs) : outcome nat :=
  x ← get n s; match body x with Data d => Ok d | Children _ _ => Err FUndef end.

(** ** File data *)

Definition ramfs_data_refnew (d : nat) (s : ramfs) : outcome ramfs :=
  x ← of_option FCorrupt (datas s !! d);
  require (data_refcnt x >=? 0) FAssert;;
  Ok {| nodes := nodes s; datas := <[d := {| data_refcnt := data_refcnt x + 1; data_val := data_val x |}]> (datas s) |}.
Definition ramfs_data_refdrop (d : nat) (s : ramfs) : outcome ramfs :=
  x ← of_option FCorrupt (datas s !! d);
  require (data_refcnt x >? 0) FAssert;;
  let r := data_refcnt x - 1 in
  if negb (r =? 0) then Ok {| nodes := nodes s; datas := <[d := {| data_refcnt := r; data_val := data_val x |}]> (datas s) |}
  else Ok {| nodes := nodes s; datas := delete d (datas s) |}.
(** [alloc]: the answer of the allocator. *)
Definition ramfs_data_new (alloc : option nat) (s : ramfs) : option nat * ramfs :=
  match alloc with
  | None => (None, s)
  | Some d => (Some d, {| nodes := nodes s; datas := <[d := {| data_refcnt := 1; data_val := RamfsFile.ramfs_data_new |}]> (datas s) |})
  end.

(** ** Nodes *)

Definition ramfs_node_refnew (n : nat) (s : ramfs) : outcome ramfs :=
  x ← get n s;
  require (refcnt x >=? 0) FAssert;;
  Ok (put n (set_refcnt (refcnt x + 1) x) s).

(** The constructor; [dalloc] answers for the data of a file that is given none. *)
Definition ramfs_node_constructor (obj : nat) (ty : vfs_node_type_e) (data : option nat) (dalloc : option nat) (s : ramfs) : outcome (Z * ramfs) :=
  let fresh u := {| refcnt := 1; name := []; type := ty; parent := None; body := u |} in
  match ty with
  | VFS_NODE_FILE =>
      match data with
      | None =>
          match ramfs_data_new dalloc s with
          | (None, s) => Ok (- ENOMEM, s)
          | (Some d, s) => Ok (0, put obj (fresh (Data d)) s)
          end
      | Some d => s ← ramfs_data_refnew d s; Ok (0, put obj (fresh (Data d)) s)
      end
  | VFS_NODE_DIR => Ok (0, put obj (fresh (Children hash_init false)) s)
  end.
(** The storage is released again when the constructor fails. *)
Definition ramfs_node_new (alloc dalloc : option nat) (ty : vfs_node_type_e) (data : option nat) (s : ramfs) : outcome (option nat * ramfs) :=
  match alloc with
  | None => Ok (None, s)
  | Some obj =>
      '(err, s) ← ramfs_node_constructor obj ty data dalloc s;
      if negb (err =? 0) then Ok (None, s) else Ok (Some obj, s)
  end.

(** ** Directories *)

Definition ramfs_dir_wrlock (cfg : config) (n : nat) (s : ramfs) : outcome ramfs :=
  '(b, l) ← get_children n s;
  if smp cfg then require (negb l) FSpin;; modify n (set_body (Children b true)) s else Ok s.
Definition ramfs_dir_unlock (cfg : config) (n : nat) (s : ramfs) : outcome ramfs :=
  '(b, _) ← get_children n s;
  if smp cfg then modify n (set_body (Children b false)) s else Ok s.
Definition set_children (n : nat) (b : list (list nat)) (s : ramfs) : outcome ramfs :=
  '(_, l) ← get_children n s; modify n (set_body (Children b l)) s.

(** Two directories are locked in the order of their addresses. *)
Definition ramfs_2dir_wrlock (cfg : config) (d1 d2 : nat) (s : ramfs) : outcome ramfs :=
  if (d1 <? d2)%nat then s ← ramfs_dir_wrlock cfg d1 s; ramfs_dir_wrlock cfg d2 s
  else s ← ramfs_dir_wrlock cfg d2 s; ramfs_dir_wrlock cfg d1 s.
Definition ramfs_2dir_unlock (cfg : config) (d1 d2 : nat) (s : ramfs) : outcome ramfs :=
  if (d1 <? d2)%nat then s ← ramfs_dir_unlock cfg d2 s; ramfs_dir_unlock cfg d1 s
  else s ← ramfs_dir_unlock cfg d1 s; ramfs_dir_unlock cfg d2 s.

(** The first item of a chain with the name. *)
Fixpoint find_name (nm : list Z) (l : list nat) (s : ramfs) : outcome (option nat) :=
  match l with
  | [] => Ok None
  | c :: l => x ← get c s; if bool_decide (name x = nm) then Ok (Some c) else find_name nm l s
  end.
(** The caller gets a reference to the item that is found. *)
Definition ramfs_dir_nolock_lookup (cfg : config) (n : nat) (nm : list Z) (s : ramfs) : outcome (option nat * ramfs) :=
  '(b, _) ← get_children n s;
  l ← of_option FBounds (b !! hash_index cfg nm);
  r ← find_name nm l s;
  match r with
  | None => Ok (None, s)
  | Some c => s ← ramfs_node_refnew c s; Ok (Some c, s)
  end.
Definition ramfs_dir_lookup (cfg : config) (n : nat) (nm : list Z) (s : ramfs) : outcome (option nat * ramfs) :=
  s ← ramfs_dir_wrlock cfg n s;
  '(r, s) ← ramfs_dir_nolock_lookup cfg n nm s;
  s ← ramfs_dir_unlock cfg n s;
  Ok (r, s).

(** The list takes a reference to the item. *)
Definition ramfs_dir_nolock_push (cfg : config) (n item : nat) (s : ramfs) : outcome ramfs :=
  s ← ramfs_node_refnew item s;
  x ← get item s;
  '(b, _) ← get_children n s;
  set_children n (hash_push cfg (name x) item b) s.
Definition ramfs_dir_nolock_count (n : nat) (s : ramfs) : outcome Z := '(b, _) ← get_children n s; Ok (hash_count b).
Definition ramfs_dir_count (cfg : config) (n : nat) (s : ramfs) : outcome (Z * ramfs) :=
  s ← ramfs_dir_wrlock cfg n s; c ← ramfs_dir_nolock_count n s; s ← ramfs_dir_unlock cfg n s; Ok (c, s).

(** The reference to each child is dropped. *)
Definition ramfs_dir_clear (cfg : config) (refdrop : nat → ramfs → outcome ramfs) (n : nat) (s : ramfs) : outcome ramfs :=
  s ← ramfs_dir_wrlock cfg n s;
  '(b, _) ← get_children n s;
  s ← foldl (λ o c, s ← o; refdrop c s) (Ok s) (concat b);
  s ← set_children n hash_init s;
  ramfs_dir_unlock cfg n s.
(** The last reference to a node destroys it, which drops its children. *)
Fixpoint refdrop_loop (cfg : config) (fuel : nat) (n : nat) (s : ramfs) : outcome ramfs :=
  match fuel with
  | O => Err FFuel
  | S fuel =>
      x ← get n s;
      require (refcnt x >? 0) FAssert;;
      let r := refcnt x - 1 in
      let s := put n (set_refcnt r x) s in
      if negb (r =? 0) then Ok s else
      s ← (if bool_decide (type x = VFS_NODE_DIR) then ramfs_dir_clear cfg (refdrop_loop cfg fuel) n s
           else d ← get_data n s; ramfs_data_refdrop d s);
      x ← get n s;
      if refcnt x >? 0 then Ok s else Ok {| nodes := delete n (nodes s); datas := datas s |}
  end.
(** The destructors nest at most as deep as there are nodes. *)
Definition ramfs_node_refdrop (cfg : config) (n : nat) (s : ramfs) : outcome ramfs := refdrop_loop cfg (S (size (nodes s))) n s.

(** The list gives its reference up. *)
Definition ramfs_dir_nolock_remove (cfg : config) (n item : nat) (s : ramfs) : outcome ramfs :=
  '(b, _) ← get_children n s;
  b ← hash_remove item b;
  s ← set_children n b s;
  ramfs_node_refdrop cfg item s.

(** ** Operations of the file system *)

(** Names are given with their length; longer ones are cut. *)
Definition vfs_name_mangle (cfg : config) (fullname : list Z) : list Z :=
  let l := take (NAMELEN cfg) fullname in l ++ replicate (NAMELEN cfg - length l) 0.

Definition ramfs_lookup (cfg : config) (ref : nat) (nm : list Z) (s : ramfs) : outcome (Z * option (nat * list Z) * ramfs) :=
  x ← get ref s;
  if negb (bool_decide (type x = VFS_NODE_DIR)) then Ok (- EINVAL, None, s) else
  let mangled_name := vfs_name_mangle cfg nm in
  '(child, s) ← ramfs_dir_lookup cfg ref mangled_name s;
  match child with
  | Some c => Ok (0, Some (c, mangled_name), s)
  | None => Ok (- ENOENT, None, s)
  end.

Definition ramfs_create (alloc dalloc : option nat) (ty : vfs_node_type_e) (s : ramfs) : outcome (Z * option nat * ramfs) :=
  '(r, s) ← ramfs_node_new alloc dalloc ty None s;
  match r with
  | None => Ok (- ENOMEM, None, s)
  | Some n => Ok (0, Some n, s)
  end.

(** Takes the child of that name, if any, out of the directory; the reference of the
    lookup stays with the caller. *)
Definition detach_old (cfg : config) (dir : nat) (nm : list Z) (s : ramfs) : outcome (option nat * ramfs) :=
  '(old_file, s) ← ramfs_dir_nolock_lookup cfg dir nm s;
  match old_file with
  | None => Ok (None, s)
  | Some o => s ← modify o (set_parent None) s; s ← ramfs_dir_nolock_remove cfg dir o s; Ok (Some o, s)
  end.
Definition drop_old (cfg : config) (old_file : option nat) (s : ramfs) : outcome ramfs :=
  match old_file with None => Ok s | Some o => ramfs_node_refdrop cfg o s end.

Definition ramfs_link (cfg : config) (alloc : option nat) (node dir : nat) (nm : list Z) (s : ramfs) : outcome (Z * option (nat * list Z) * ramfs) :=
  if (NAMELEN cfg <=? length nm)%nat then Ok (- EINVAL, None, s) else
  d ← get dir s;
  if negb (bool_decide (type d = VFS_NODE_DIR)) then Ok (- EINVAL, None, s) else
  if bool_decide (parent d = None) then Ok (- ENOTSUP, None, s) else
  x ← get node s;
  if negb (bool_decide (parent x = None)) && bool_decide (type x = VFS_NODE_DIR) then Ok (- EISDIR, None, s) else
  '(ret_node, s) ← (if negb (bool_decide (parent x = None)) then d ← get_data node s; ramfs_node_new alloc None VFS_NODE_FILE (Some d) s
                    else s ← ramfs_node_refnew node s; Ok (Some node, s));
  match ret_node with
  | None => Ok (- ENOMEM, None, s)
  | Some ret_node =>
      let mangled_name := vfs_name_mangle cfg nm in
      s ← modify ret_node (set_name mangled_name) s;
      s ← ramfs_dir_wrlock cfg dir s;
      '(old_file, s) ← detach_old cfg dir mangled_name s;
      s ← modify ret_node (set_parent (Some dir)) s;
      s ← ramfs_dir_nolock_push cfg dir ret_node s;
      s ← ramfs_dir_unlock cfg dir s;
      s ← drop_old cfg old_file s;
      Ok (0, Some (ret_node, mangled_name), s)
  end.

Definition ramfs_move (cfg : config) (node dir : nat) (nm : list Z) (s : ramfs) : outcome (Z * ramfs) :=
  if (NAMELEN cfg <=? length nm)%nat then Ok (- EINVAL, s) else
  d ← get dir s;
  if negb (bool_decide (type d = VFS_NODE_DIR)) then Ok (- EINVAL, s) else
  x ← get node s;
  match parent x with
  | None => Ok (- EINVAL, s)
  | Some parent_src =>
      if (parent_src =? node)%nat then Ok (- EINVAL, s) else
      if bool_decide (parent d = None) then Ok (- ENOTSUP, s) else
      s ← ramfs_2dir_wrlock cfg parent_src dir s;
      s ← ramfs_dir_nolock_remove cfg parent_src node s;
      let nm := nm ++ replicate (NAMELEN cfg - length nm) 0 in
      s ← modify node (set_name nm) s;
      '(old_file, s) ← detach_old cfg dir nm s;
      s ← modify node (set_parent (Some dir)) s;
      s ← ramfs_dir_nolock_push cfg dir node s;
      s ← ramfs_2dir_unlock cfg dir parent_src s;
      s ← drop_old cfg old_file s;
      Ok (0, s)
  end.

(** The name is copied to a buffer of the fixed length. *)
Definition ramfs_unlink (cfg : config) (dir : nat) (nm : list Z) (s : ramfs) : outcome (Z * ramfs) :=
  require (length nm <=? NAMELEN cfg)%nat FBounds;;
  let tmpname := nm ++ replicate (NAMELEN cfg - length nm) 0 in
  s ← ramfs_dir_wrlock cfg dir s;
  '(node, s) ← ramfs_dir_nolock_lookup cfg dir tmpname s;
  match node with
  | None => s ← ramfs_dir_unlock cfg dir s; Ok (- ENOENT, s)
  | Some node =>
      x ← get node s;
      busy ← (if bool_decide (type x = VFS_NODE_DIR) then c ← ramfs_dir_nolock_count node s; Ok (negb (c =? 0)) else Ok false);
      if busy : bool then s ← ramfs_node_refdrop cfg node s; s ← ramfs_dir_unlock cfg dir s; Ok (- EBUSY, s)
      else
        s ← modify node (set_parent None) s;
        s ← ramfs_dir_nolock_remove cfg dir node s;
        s ← ramfs_dir_unlock cfg dir s;
        s ← ramfs_node_refdrop cfg node s;
        Ok (0, s)
  end.

(** Type, size and number of links. *)
Definition ramfs_stat (cfg : config) (node : nat) (s : ramfs) : outcome (Z * (vfs_node_type_e * Z * Z) * ramfs) :=
  x ← get node s;
  match type x with
  | VFS_NODE_DIR => '(c, s) ← ramfs_dir_count cfg node s; Ok (0, (VFS_NODE_DIR, c, 1), s)
  | VFS_NODE_FILE =>
      d ← get_data node s; o ← of_option FCorrupt (datas s !! d);
      Ok (0, (VFS_NODE_FILE, RamfsFile.actual_size (data_val o), data_refcnt o), s)
  end.

(** The root of a new volume; [mnt]: the volume itself could be allocated. *)
Definition ramfs_open (mnt : bool) (alloc : option nat) (s : ramfs) : outcome (Z * option nat * ramfs) :=
  if negb mnt then Ok (- ENOMEM, None, s) else
  '(root, s) ← ramfs_node_new alloc None VFS_NODE_DIR None s;
  match root with
  | None => Ok (- ENOMEM, None, s)
  | Some root => s ← modify root (set_parent (Some root)) s; Ok (0, Some root, s)
  end.

(** *** Reading directories *)

Definition refnew_opt (o : option nat) (s : ramfs) : outcome (option nat * ramfs) :=
  match o with None => Ok (None, s) | Some c => s ← ramfs_node_refnew c s; Ok (Some c, s) end.
Definition ramfs_dir_nolock_head (n : nat) (s : ramfs) : outcome (option nat * ramfs) :=
  '(b, _) ← get_children n s; refnew_opt (head (concat b)) s.
(** The item that follows in a chain. *)
Fixpoint chain_next (c : nat) (l : list nat) : option nat :=
  match l with [] => None | x :: l => if (x =? c)%nat then head l else chain_next c l end.
(** The next item of the chain, or the head of the next chain that is not empty. *)
Definition ramfs_dir_nolock_next (cfg : config) (n index : nat) (s : ramfs) : outcome (option nat * ramfs) :=
  '(b, _) ← get_children n s;
  x ← get index s;
  let entry := match chain_next index (default [] (find (λ l, bool_decide (index ∈ l)) b)) with
               | Some e => Some e
               | None => head (concat (drop (S (hash_index cfg (name x))) b))
               end in
  refnew_opt entry s.

Fixpoint nth_loop (cfg : config) (node : nat) (n : nat) (ent : option nat) (s : ramfs) : outcome (option nat * ramfs) :=
  match n, ent with
  | S n, Some e =>
      '(nent, s) ← ramfs_dir_nolock_next cfg node e s;
      s ← ramfs_node_refdrop cfg e s;
      nth_loop cfg node n nent s
  | _, _ => Ok (ent, s)
  end.

(** Name, type and size of an entry. *)
Record vfs_dirent_s := { d_name : list Z; d_type : vfs_node_type_e; d_size : Z }.
Definition ramfs_dir_get_nth (cfg : config) (node n : nat) (s : ramfs) : outcome (option vfs_dirent_s * ramfs) :=
  s ← ramfs_dir_wrlock cfg node s;
  '(ent, s) ← ramfs_dir_nolock_head node s;
  '(ent, s) ← nth_loop cfg node n ent s;
  match ent with
  | None => s ← ramfs_dir_unlock cfg node s; Ok (None, s)
  | Some ent =>
      x ← get ent s;
      '(sz, s) ← (if bool_decide (type x = VFS_NODE_FILE)
                  then d ← get_data ent s; o ← of_option FCorrupt (datas s !! d); Ok (RamfsFile.actual_size (data_val o), s)
                  else ramfs_dir_count cfg ent s);
      s ← ramfs_dir_unlock cfg node s;
      s ← ramfs_node_refdrop cfg ent s;
      Ok (Some {| d_name := name x; d_type := type x; d_size := sz |}, s)
  end.

(** *** Open files *)

(** The private field of an open file: the data it refers to and the functions it
    has, or the index of the next entry of a directory. *)
Inductive file_priv := PData (d : nat) (f : RamfsFile.vfs_file_s) | PIndex (cur : nat).
Record vfs_file_s := { f_node : nat; f_priv : file_priv }.

Definition ramfs_node_open (alloc : bool) (flags : Z) (node : nat) (s : ramfs) : outcome (Z * option vfs_file_s * ramfs) :=
  if negb alloc then Ok (- ENOMEM, None, s) else
  s ← ramfs_node_refnew node s;
  x ← get node s;
  match type x with
  | VFS_NODE_FILE =>
      d ← get_data node s; o ← of_option FCorrupt (datas s !! d);
      '(_, f, _) ← RamfsFile.ramfs_node_open true flags (data_val o);
      f ← of_option FUndef f;
      s ← ramfs_data_refnew d s;
      Ok (0, Some {| f_node := node; f_priv := PData d f |}, s)
  | VFS_NODE_DIR => Ok (0, Some {| f_node := node; f_priv := PIndex 0 |}, s)
  end.

(** The size of an entry: the name with its terminator, the type, the size, with
    natural alignments. *)
Definition align_up (a n : Z) : Z := (n + a - 1) / a * a.
Definition sizeof_dirent (cfg : config) : Z :=
  let p := W cfg / 8 in align_up p (align_up p (align_up 4 (Z.of_nat (NAMELEN cfg) + 1) + 4) + p).
(** The end of the directory starts it again. *)
Definition ramfs_dir_read (cfg : config) (file : vfs_file_s) (size : Z) (s : ramfs) : outcome (Z * option vfs_dirent_s * vfs_file_s * ramfs) :=
  if negb (size =? sizeof_dirent cfg) then Ok (- EINVAL, None, file, s) else
  match f_priv file with
  | PData _ _ => Err FUndef
  | PIndex cur =>
      '(gotit, s) ← ramfs_dir_get_nth cfg (f_node file) cur s;
      Ok (if gotit is Some _ then sizeof_dirent cfg else 0, gotit,
          {| f_node := f_node file; f_priv := PIndex (if gotit is Some _ then S cur else 0) |}, s)
  end.

(** A write through an open file reaches the data all the links share. *)
Definition file_write (cfg : config) (ans : RamfsFile.answer) (d : nat) (offset : Z) (buffer : list Z) (s : ramfs) : outcome (Z * Z * ramfs) :=
  o ← of_option FCorrupt (datas s !! d);
  '(r, v, offset) ← RamfsFile.ramfs_file_write (W cfg) ans (data_val o) offset buffer;
  Ok (r, offset, {| nodes := nodes s; datas := <[d := {| data_refcnt := data_refcnt o; data_val := v |}]> (datas s) |}).

(** The reference to the data of a regular file, then the one to the node. *)
Definition ramfs_file_close (cfg : config) (file : vfs_file_s) (s : ramfs) : outcome (Z * ramfs) :=
  x ← get (f_node file) s;
  s ← (if bool_decide (type x = VFS_NODE_FILE) then match f_priv file with PData d _ => ramfs_data_refdrop d s | PIndex _ => Err FUndef end else Ok s);
  s ← ramfs_node_refdrop cfg (f_node file) s;
  Ok (0, s).
End Ramfs.
