(* ===== verification/RamfsSpec.v ===== *)
(** * Directories of the memory file system: reference semantics and refinement

    The reference semantics keeps the live nodes with their attributes, the place of
    each linked node, and the references the clients own.  The heap of the file
    system implements it: the counters are the references that exist, the hash
    lists hold the children, and no operation touches a freed object. *)

From stdpp Require Import gmap gmultiset.
From S2P Require Import Prelude FileOps RamfsFile Ramfs.
Import FileOps Ramfs.

Module RamfsSpec.

(** ** Abstract state *)

Record attr := { a_name : list Z; a_type : vfs_node_type_e; a_parent : option nat; a_data : option nat }.

(** The nodes, the directory each linked node is in, the values of the file data, and
    the references owned by clients to nodes and to data. *)
Record astate := { attrs : gmap nat attr; dirof : gmap nat nat; dvals : gmap nat RamfsFile.ramfs_data_s;
                   held : gmultiset nat; dheld : gmultiset nat }.

Definition set_attrs f A := {| attrs := f (attrs A); dirof := dirof A; dvals := dvals A; held := held A; dheld := dheld A |}.
Definition set_dirof f A := {| attrs := attrs A; dirof := f (dirof A); dvals := dvals A; held := held A; dheld := dheld A |}.
Definition set_dvals f A := {| attrs := attrs A; dirof := dirof A; dvals := f (dvals A); held := held A; dheld := dheld A |}.
Definition set_held f A := {| attrs := attrs A; dirof := dirof A; dvals := dvals A; held := f (held A); dheld := dheld A |}.
Definition set_dheld f A := {| attrs := attrs A; dirof := dirof A; dvals := dvals A; held := held A; dheld := f (dheld A) |}.

Definition with_name nm a := {| a_name := nm; a_type := a_type a; a_parent := a_parent a; a_data := a_data a |}.
Definition with_parent p a := {| a_name := a_name a; a_type := a_type a; a_parent := p; a_data := a_data a |}.

(** The references that exist to a node and to file data. *)
Definition linked (A : astate) (n : nat) : nat := if dirof A !! n is Some _ then 1 else 0.
Definition refs (A : astate) (n : nat) : nat := multiplicity n (held A) + linked A n.
Definition users (A : astate) (d : nat) : nat := size (filter (λ x, a_data x.2 = Some d) (attrs A)).
Definition drefs (A : astate) (d : nat) : nat := multiplicity d (dheld A) + users A d.

(** The children of a directory, and the one of a name. *)
Definition kids (A : astate) (n : nat) : gmap nat nat := filter (λ x, x.2 = n) (dirof A).
Definition named (A : astate) (n : nat) (nm : list Z) : gmap nat nat := filter (λ x, a_name <$> attrs A !! x.1 = Some nm) (kids A n).
Definition entry (A : astate) (n : nat) (nm : list Z) : option nat := fst <$> head (map_to_list (named A n nm)).

(** *** Steps of the reference semantics *)

Definition hold (n : nat) (A : astate) : astate := set_held (λ h, h ⊎ {[+ n +]}) A.
(** Data without references goes away, and so does a node, with its use of the data. *)
Definition dcollect (d : nat) (A : astate) : astate := if (drefs A d =? 0)%nat then set_dvals (delete d) A else A.
Definition collect (n : nat) (A : astate) : astate :=
  if (refs A n =? 0)%nat then
    let A' := set_attrs (delete n) A in
    match attrs A !! n ≫= a_data with Some d => dcollect d A' | None => A' end
  else A.
Definition release (n : nat) (A : astate) : astate := collect n (set_held (λ h, h ∖ {[+ n +]}) A).
Definition dhold (d : nat) (A : astate) : astate := set_dheld (λ h, h ⊎ {[+ d +]}) A.
Definition drelease (d : nat) (A : astate) : astate := dcollect d (set_dheld (λ h, h ∖ {[+ d +]}) A).

Section core.
Context (cfg : config).

(** ** The heap that represents a state *)

Definition chains_ok (A : astate) (n : nat) (b : list (list nat)) : Prop :=
  length b = hashsize ∧ ∀ i ch, b !! i = Some ch → NoDup ch ∧
    ∀ c, c ∈ ch ↔ dirof A !! c = Some n ∧ ∃ a, attrs A !! c = Some a ∧ hash_index cfg (a_name a) = i.

(** [L]: the directories that are locked. *)
Record node_ok (L : gset nat) (A : astate) (n : nat) (x : fs_node_s) (a : attr) : Prop := {
  n_name : name x = a_name a;
  n_type : type x = a_type a;
  n_parent : parent x = a_parent a;
  n_refcnt : refcnt x = Z.of_nat (refs A n);
  n_live : (0 < refs A n)%nat;
  n_body : match body x with
           | Data d => a_type a = VFS_NODE_FILE ∧ a_data a = Some d
           | Children b l => a_type a = VFS_NODE_DIR ∧ a_data a = None ∧ chains_ok A n b ∧ l = smp cfg && bool_decide (n ∈ L)
           end }.
Definition data_ok (A : astate) (d : nat) (o : data_obj) (v : RamfsFile.ramfs_data_s) : Prop :=
  data_val o = v ∧ data_refcnt o = Z.of_nat (drefs A d) ∧ (0 < drefs A d)%nat.

Record wf (A : astate) : Prop := {
  wf_dirof : ∀ c n, dirof A !! c = Some n → is_Some (attrs A !! c) ∧ ∃ a, attrs A !! n = Some a ∧ a_type a = VFS_NODE_DIR;
  wf_names : ∀ c c' n a a', dirof A !! c = Some n → dirof A !! c' = Some n → attrs A !! c = Some a → attrs A !! c' = Some a' → a_name a = a_name a' → c = c';
  wf_held : ∀ n, n ∈ held A → is_Some (attrs A !! n);
  wf_dheld : ∀ d, d ∈ dheld A → is_Some (dvals A !! d);
  wf_data : ∀ n a d, attrs A !! n = Some a → a_data a = Some d → is_Some (dvals A !! d) }.

Record core (L : gset nat) (A : astate) (s : ramfs) : Prop := {
  c_wf : wf A;
  c_nodes : ∀ n, match nodes s !! n, attrs A !! n with Some x, Some a => node_ok L A n x a | None, None => True | _, _ => False end;
  c_datas : ∀ d, match datas s !! d, dvals A !! d with Some o, Some v => data_ok A d o v | None, None => True | _, _ => False end }.

Lemma core_get L A s n a : core L A s → attrs A !! n = Some a → ∃ x, nodes s !! n = Some x ∧ node_ok L A n x a.
Proof. intros [_ Hn _] Ha. specialize (Hn n). rewrite Ha in Hn. destruct (nodes s !! n); [eauto|done]. Qed.
Lemma core_data L A s d v : core L A s → dvals A !! d = Some v → ∃ o, datas s !! d = Some o ∧ data_ok A d o v.
Proof. intros [_ _ Hd] Hv. specialize (Hd d). rewrite Hv in Hd. destruct (datas s !! d); [eauto|done]. Qed.
Lemma getnode_spec L A s n a : core L A s → attrs A !! n = Some a → ∃ x, get n s = Ok x ∧ nodes s !! n = Some x ∧ node_ok L A n x a.
Proof. intros Hc Ha. destruct (core_get _ _ _ _ _ Hc Ha) as (x & E & Hx). exists x. unfold get. by rewrite E. Qed.

(** Only the references matter for the counters. *)
Lemma node_ok_ext L A A' n x a : node_ok L A n x a → refs A' n = refs A n → (∀ b, chains_ok A n b → chains_ok A' n b) → node_ok L A' n x a.
Proof.
  intros [H1 H2 H3 H4 H5 H6] Hr Hch. split; try done; [by rewrite Hr|by rewrite Hr|].
  destruct (body x); [done|]. naive_solver.
Qed.

(** Replacing one node. *)
Lemma core_put L L' A A' s n x a : core L A s → wf A' → attrs A' !! n = Some a → node_ok L' A' n x a →
  (∀ m, m ≠ n → attrs A' !! m = attrs A !! m) →
  (∀ m b, m ≠ n → chains_ok A m b → chains_ok A' m b) → (∀ m, m ≠ n → refs A' m = refs A m) →
  (∀ m, m ≠ n → m ∈ L' ↔ m ∈ L) →
  dvals A' = dvals A → (∀ d, drefs A' d = drefs A d) →
  core L' A' (put n x s).
Proof.
  intros [Hw Hn Hd] Hw' Ha Hx Hat Hch Hrf HL Hdv Hdr. split; [done| |].
  - intros m. unfold put. cbn [nodes]. destruct (decide (m = n)) as [->|Hne].
    + by rewrite lookup_insert_eq, Ha.
    + rewrite lookup_insert_ne, Hat by done. specialize (Hn m). destruct (nodes s !! m), (attrs A !! m) as [a'|]; try done.
      eapply node_ok_ext in Hn; [|by apply Hrf|by intros b; apply Hch]. destruct Hn as [? ? ? ? ? Hb]. split; try done.
      destruct (body f); [done|]. destruct Hb as (? & ? & ? & ->). split_and!; try done. f_equal. apply bool_decide_ext. by rewrite HL.
  - intros d. cbn [put datas]. rewrite Hdv. specialize (Hd d). destruct (datas s !! d), (dvals A !! d); try done.
    destruct Hd as (? & ? & ?). unfold data_ok. by rewrite Hdr.
Qed.

(** *** Counting references *)

Lemma users_split (m : gmap nat attr) n a d : m !! n = Some a →
  size (filter (λ x, a_data x.2 = Some d) m) = (size (filter (λ x, a_data x.2 = Some d) (delete n m)) + if decide (a_data a = Some d) then 1 else 0)%nat.
Proof.
  intros E. rewrite <-(insert_delete_id m n a E) at 1. assert (delete n m !! n = None) as Hn by apply lookup_delete_eq.
  destruct (decide (a_data a = Some d)).
  - rewrite map_filter_insert_True by done. rewrite map_size_insert_None; [lia|]. apply map_lookup_filter_None. by left.
  - rewrite map_filter_insert_False by done. rewrite (delete_id (delete n m)) by done. lia.
Qed.
Lemma users_alter f n A d : (∀ a, a_data (f a) = a_data a) → users (set_attrs (alter f n) A) d = users A d.
Proof.
  intros Hf. unfold users. cbn [set_attrs attrs]. destruct (attrs A !! n) as [a|] eqn:E.
  - rewrite (users_split (alter f n (attrs A)) n (f a) d) by (by rewrite lookup_alter_eq, E). rewrite (users_split (attrs A) n a d E), Hf.
    do 3 f_equal. apply map_eq. intros i. destruct (decide (i = n)) as [->|]; [by rewrite !lookup_delete_eq|].
    by rewrite !lookup_delete_ne, lookup_alter_ne.
  - do 2 f_equal. apply map_eq. intros i. destruct (decide (i = n)) as [->|]; [by rewrite lookup_alter_eq, E|by rewrite lookup_alter_ne].
Qed.
Lemma refs_hold n m A : refs (hold n A) m = (refs A m + if decide (m = n) then 1 else 0)%nat.
Proof.
  unfold refs, linked, hold. cbn [set_held held dirof]. rewrite multiplicity_disj_union, multiplicity_singleton.
  destruct (decide (m = n)); lia.
Qed.
Lemma refs_unhold n m A : n ∈ held A → refs A m = (refs (set_held (λ h, h ∖ {[+ n +]}) A) m + if decide (m = n) then 1 else 0)%nat.
Proof.
  intros Hn. unfold refs, linked. cbn [set_held held dirof]. rewrite multiplicity_difference, multiplicity_singleton.
  pose proof (proj1 (elem_of_multiplicity n (held A)) Hn). destruct (decide (m = n)); subst; lia.
Qed.

(** *** The steps on the heap *)

Lemma node_refnew_spec L A s n : core L A s → is_Some (attrs A !! n) → ∃ s', ramfs_node_refnew n s = Ok s' ∧ core L (hold n A) s'.
Proof.
  intros Hc [a Ha]. destruct (getnode_spec _ _ _ _ _ Hc Ha) as (x & E & Hnx & Hx). pose proof Hc as [[] _ _].
  unfold ramfs_node_refnew. rewrite E. cbn [mbind outcome_bind]. rewrite (n_refcnt _ _ _ _ _ Hx).
  destruct (Z.geb_spec (Z.of_nat (refs A n)) 0); [|lia]. cbn [require mbind outcome_bind]. eexists. split; [done|].
  eapply (core_put L L A (hold n A)); try done.
  - split; try done. intros m Hm. cbn [hold set_held held] in Hm. apply gmultiset_elem_of_disj_union in Hm as [Hm|Hm]; [by apply wf_held0|].
    apply gmultiset_elem_of_singleton in Hm as ->. eauto.
  - destruct Hx. split; try done; rewrite refs_hold, decide_True by done; [cbn [set_refcnt refcnt]; lia|lia].
  - intros m Hm. rewrite refs_hold, decide_False by done. lia.
Qed.

(** Changes of the attributes that do not concern the lists. *)
Lemma modify_spec L A s n a f g : core L A s → attrs A !! n = Some a →
  (∀ x, node_ok L A n x a → name (f x) = a_name (g a) ∧ type (f x) = type x ∧ parent (f x) = a_parent (g a) ∧ body (f x) = body x ∧ refcnt (f x) = refcnt x) →
  (∀ a, a_type (g a) = a_type a ∧ a_data (g a) = a_data a) →
  (a_name (g a) = a_name a ∨ dirof A !! n = None) →
  ∃ s', modify n f s = Ok s' ∧ core L (set_attrs (alter g n) A) s'.
Proof.
  intros Hc Ha Hf Hg Hnm. destruct (getnode_spec _ _ _ _ _ Hc Ha) as (x & E & Hnx & Hx). pose proof Hc as [Hw _ _].
  unfold modify. rewrite E. cbn [mbind outcome_bind]. eexists. split; [done|]. set (A' := set_attrs (alter g n) A).
  assert (∀ c m, dirof A !! c = Some m → a_name <$> attrs A' !! c = a_name <$> attrs A !! c) as Hnames.
  { intros c m Hcm. cbn [A' set_attrs attrs]. destruct (decide (c = n)) as [->|]; [|by rewrite lookup_alter_ne].
    rewrite lookup_alter_eq, Ha. cbn. destruct Hnm as [->|Hnm]; [done|congruence]. }
  assert (∀ c a', attrs A' !! c = Some a' → ∃ a0, attrs A !! c = Some a0 ∧ a_type a' = a_type a0 ∧ a_data a' = a_data a0) as Hback.
  { intros c a'. cbn [A' set_attrs attrs]. destruct (decide (c = n)) as [->|]; [|rewrite lookup_alter_ne by done; eauto].
    rewrite lookup_alter_eq, Ha. intros [= <-]. destruct (Hg a). eauto. }
  assert (∀ c a0, attrs A !! c = Some a0 → ∃ a', attrs A' !! c = Some a' ∧ a_type a' = a_type a0) as Hforth.
  { intros c a0 E0. cbn [A' set_attrs attrs]. destruct (decide (c = n)) as [->|]; [|rewrite lookup_alter_ne by done; eauto].
    rewrite lookup_alter_eq, E0. destruct (Hg a0). eauto. }
  assert (∀ m b, chains_ok A m b → chains_ok A' m b) as Hch.
  { intros m b [Hl Hb]. split; [done|]. intros i ch Hi. destruct (Hb i ch Hi) as [? Hin]. split; [done|]. intros c. rewrite Hin.
    split; intros (Hd & a' & Ea & Eh); (split; [done|]); specialize (Hnames c m Hd); rewrite Ea in Hnames; cbn [fmap option_fmap option_map] in Hnames.
    - destruct (attrs A' !! c) as [a2|]; [|done]. exists a2. split; [done|]. injection Hnames as ->. done.
    - destruct (attrs A !! c) as [a2|]; [|done]. exists a2. split; [done|]. injection Hnames as <-. done. }
  eapply (core_put L L A A'); try done.
  - destruct Hw as [W1 W2 W3 W4 W5]. split; cbn [A' set_attrs dirof held dheld dvals].
    + intros c m Hcm. destruct (W1 c m Hcm) as ([a0 H0] & a1 & H1 & T1). destruct (Hforth _ _ H0) as (? & ? & _), (Hforth _ _ H1) as (? & ? & ?).
      split; [eauto|]. eexists. split; [done|congruence].
    + intros c c' m a1 a2 Hc1 Hc2 E1 E2 En. pose proof (Hnames c m Hc1) as N1. pose proof (Hnames c' m Hc2) as N2. unfold A' in *. cbn [set_attrs attrs] in *. rewrite E1 in N1. rewrite E2 in N2. cbn in N1, N2.
      destruct (attrs A !! c) as [b1|] eqn:F1; [|done]. destruct (attrs A !! c') as [b2|] eqn:F2; [|done]. cbn in N1, N2.
      apply (W2 c c' m b1 b2); congruence.
    + intros m Hm. destruct (W3 m Hm) as [a0 H0]. destruct (Hforth _ _ H0) as (? & ? & _). eauto.
    + done.
    + intros m a' d Hm Hd. destruct (Hback _ _ Hm) as (a0 & H0 & _ & E0). eapply W5; [done|congruence].
  - by cbn [A' set_attrs attrs]; rewrite lookup_alter_eq, Ha.
  - destruct (Hf x Hx) as (F1 & F2 & F3 & F4 & F5). destruct (Hg a) as [G1 G2]. destruct Hx. split; try congruence; try done; [by rewrite F5|].
    rewrite F4, G1, G2. destruct (body x); [done|]. destruct n_body0 as (? & ? & ? & ?). split_and!; try done. by apply Hch.
  - intros m Hm. cbn [A' set_attrs attrs]. by rewrite lookup_alter_ne.
  - eauto.
  - intros d. unfold drefs. cbn [A' set_attrs dheld]. f_equal. apply users_alter. intros a0. apply Hg.
Qed.
Lemma set_name_spec L A s n nm : core L A s → is_Some (attrs A !! n) → dirof A !! n = None →
  ∃ s', modify n (set_name nm) s = Ok s' ∧ core L (set_attrs (alter (with_name nm) n) A) s'.
Proof. intros Hc [a Ha] Hd. apply (modify_spec L A s n a); try done; [|by right]. intros x Hx. destruct Hx. done. Qed.
Lemma set_parent_spec L A s n p : core L A s → is_Some (attrs A !! n) →
  ∃ s', modify n (set_parent p) s = Ok s' ∧ core L (set_attrs (alter (with_parent p) n) A) s'.
Proof. intros Hc [a Ha]. apply (modify_spec L A s n a); try done; [|by left]. intros x Hx. destruct Hx. done. Qed.

Definition is_dir (A : astate) (n : nat) : Prop := a_type <$> attrs A !! n = Some VFS_NODE_DIR.
#[export] Instance is_dir_dec A n : Decision (is_dir A n) := decide (a_type <$> attrs A !! n = Some VFS_NODE_DIR).

Lemma children_spec L A s n : core L A s → is_dir A n →
  ∃ a x b, attrs A !! n = Some a ∧ get n s = Ok x ∧ nodes s !! n = Some x ∧ node_ok L A n x a ∧ body x = Children b (smp cfg && bool_decide (n ∈ L)) ∧
    chains_ok A n b ∧ get_children n s = Ok (b, smp cfg && bool_decide (n ∈ L)).
Proof.
  intros Hc Hd. unfold is_dir in Hd. destruct (attrs A !! n) as [a|] eqn:Ha; [|done]. cbn in Hd. injection Hd as Hd.
  destruct (getnode_spec _ _ _ _ _ Hc Ha) as (x & E & Hnx & Hx). pose proof (n_body _ _ _ _ _ Hx) as Hb.
  destruct (body x) as [d|b l] eqn:Eb; [destruct Hb; congruence|]. destruct Hb as (? & ? & ? & ->). exists a, x, b. split_and!; try done.
  unfold get_children. rewrite E. cbn [mbind outcome_bind]. by rewrite Eb.
Qed.

Lemma set_body_spec L L' A A' s n b : core L A s → is_dir A n → wf A' → attrs A' = attrs A → dvals A' = dvals A → dheld A' = dheld A →
  chains_ok A' n b → (∀ m b, m ≠ n → chains_ok A m b → chains_ok A' m b) → (∀ m, refs A' m = refs A m) → (∀ m, m ≠ n → m ∈ L' ↔ m ∈ L) →
  ∃ s', modify n (set_body (Children b (smp cfg && bool_decide (n ∈ L')))) s = Ok s' ∧ core L' A' s'.
Proof.
  intros Hc Hd Hw E1 E2 E3 Hch Hch' Hr HL. destruct (children_spec _ _ _ _ Hc Hd) as (a & x & b0 & Ha & E & Hnx & Hx & Eb & Hb0 & _).
  unfold modify. rewrite E. cbn [mbind outcome_bind]. eexists. split; [done|].
  eapply (core_put L L' A A'); try done; [by rewrite E1| |by intros m _; rewrite E1|].
  - destruct Hx. rewrite Eb in *. split; try done; [by rewrite Hr|by rewrite Hr|]. cbn [set_body body]. naive_solver.
  - intros d. unfold drefs, users. by rewrite E1, E3.
Qed.

Lemma core_unlocked L L' A s : smp cfg = false → core L A s → core L' A s.
Proof.
  intros Hs [Hw Hn Hd]. split; [done| |done]. intros n. specialize (Hn n). destruct (nodes s !! n), (attrs A !! n); try done.
  destruct Hn. split; try done. rewrite Hs in *. done.
Qed.
Lemma wrlock_spec L A s n : core L A s → is_dir A n → n ∉ L → ∃ s', ramfs_dir_wrlock cfg n s = Ok s' ∧ core ({[n]} ∪ L) A s'.
Proof.
  intros Hc Hd Hn. unfold ramfs_dir_wrlock. destruct (children_spec _ _ _ _ Hc Hd) as (a & x & b & Ha & E & Hnx & Hx & Eb & Hb & ->).
  cbn [mbind outcome_bind]. destruct (smp cfg) eqn:Es; [|eexists; split; [done|by eapply core_unlocked]].
  rewrite bool_decide_false by done. cbn [andb negb require mbind outcome_bind].
  destruct (set_body_spec L ({[n]} ∪ L) A A s n b Hc Hd) as (s' & E' & Hc'); try done; [by destruct Hc|set_solver|].
  rewrite Es, bool_decide_true in E' by set_solver. eauto.
Qed.
Lemma unlock_spec L A s n : core L A s → is_dir A n → ∃ s', ramfs_dir_unlock cfg n s = Ok s' ∧ core (L ∖ {[n]}) A s'.
Proof.
  intros Hc Hd. unfold ramfs_dir_unlock. destruct (children_spec _ _ _ _ Hc Hd) as (a & x & b & Ha & E & Hnx & Hx & Eb & Hb & ->).
  cbn [mbind outcome_bind]. destruct (smp cfg) eqn:Es; [|eexists; split; [done|by eapply core_unlocked]].
  destruct (set_body_spec L (L ∖ {[n]}) A A s n b Hc Hd) as (s' & E' & Hc'); try done; [by destruct Hc|set_solver|].
  rewrite Es, bool_decide_false in E' by set_solver. eauto.
Qed.

Lemma set_children_spec L A A' s n b : core L A s → is_dir A n → wf A' → attrs A' = attrs A → dvals A' = dvals A → dheld A' = dheld A →
  chains_ok A' n b → (∀ m b, m ≠ n → chains_ok A m b → chains_ok A' m b) → (∀ m, refs A' m = refs A m) →
  ∃ s', set_children n b s = Ok s' ∧ core L A' s'.
Proof.
  intros Hc Hd Hw E1 E2 E3 Hch Hch' Hr. unfold set_children. destruct (children_spec _ _ _ _ Hc Hd) as (a & x & b0 & Ha & E & Hnx & Hx & Eb & Hb0 & ->).
  cbn [mbind outcome_bind]. by apply (set_body_spec L L A A').
Qed.

(** *** The lists own references *)

(** Out of the list: its reference passes to the caller. *)
Definition unlist (c : nat) (A : astate) : astate := set_dirof (delete c) (hold c A).
(** Into the list: the reference of the caller passes to it. *)
Definition enlist (c n : nat) (A : astate) : astate := set_dirof (insert c n) (set_held (λ h, h ∖ {[+ c +]}) A).

Lemma chains_elem A n b c : chains_ok A n b → wf A → c ∈ concat b ↔ dirof A !! c = Some n.
Proof.
  intros [Hl Hb] Hw. rewrite list_elem_of_In, in_concat. split.
  - intros (ch & Hch & Hin). apply list_elem_of_In, list_elem_of_lookup in Hch as [i Hi]. apply list_elem_of_In in Hin. by apply (Hb i ch Hi) in Hin as [? _].
  - intros Hd. destruct (wf_dirof _ Hw _ _ Hd) as [[a Ha] _].
    assert (hash_index cfg (a_name a) < length b)%nat as Hlt.
    { rewrite Hl. unfold hash_index, hashsize. pose proof (Z.mod_pos_bound (gpct_rawdata_hash cfg (a_name a)) 5). lia. }
    destruct (lookup_lt_is_Some_2 b _ Hlt) as [ch Hch]. exists ch. rewrite <-!list_elem_of_In. split; [by eapply list_elem_of_lookup_2|].
    apply (Hb _ _ Hch). eauto.
Qed.

Lemma unlist_wf c A n : wf A → dirof A !! c = Some n → wf (unlist c A).
Proof.
  intros [W1 W2 W3 W4 W5] Hc. split; cbn [unlist hold set_dirof set_held attrs dirof held dheld dvals]; try done.
  - intros m p [? Hm]%lookup_delete_Some. eauto.
  - intros x x' p a a' [? Hx]%lookup_delete_Some [? Hx']%lookup_delete_Some. eauto.
  - intros m [Hm|Hm%gmultiset_elem_of_singleton]%gmultiset_elem_of_disj_union; [eauto|]. subst. by destruct (W1 _ _ Hc).
Qed.
Lemma unlist_refs c A n m : dirof A !! c = Some n → refs (unlist c A) m = refs A m.
Proof.
  intros Hc. pose proof (refs_hold c m A) as H. unfold refs, linked in *. cbn [unlist hold set_dirof set_held dirof held] in *.
  destruct (decide (m = c)) as [->|Hne]; [rewrite lookup_delete_eq, Hc in *|rewrite lookup_delete_ne by done]; lia.
Qed.
Lemma unlist_spec L A s n c : core L A s → is_dir A n → dirof A !! c = Some n →
  ∃ s', ('(b, _) ← get_children n s; b ← hash_remove c b; set_children n b s) = Ok s' ∧ core L (unlist c A) s'.
Proof.
  intros Hc Hd Hdc. destruct (children_spec _ _ _ _ Hc Hd) as (a & x & b & Ha & E & Hnx & Hx & Eb & Hb & ->). pose proof (c_wf _ _ _ Hc) as Hw.
  cbn [mbind outcome_bind]. unfold hash_remove. rewrite bool_decide_true by (by eapply chains_elem). cbn [require mbind outcome_bind].
  apply (set_children_spec L A (unlist c A) s n _ Hc Hd); try done; [by eapply unlist_wf| | |intros m; by eapply unlist_refs].
  - destruct Hb as [Hl Hb]. split; [by rewrite length_fmap|]. intros i ch. rewrite list_lookup_fmap, fmap_Some. intros (ch' & Hi & ->).
    destruct (Hb i ch' Hi) as [Hnd Hin]. split; [by apply NoDup_filter|]. intros y. rewrite list_elem_of_filter, Hin. cbn [unlist hold set_dirof set_held dirof attrs].
    rewrite lookup_delete_Some. naive_solver.
  - intros m b' Hm [Hl Hb']. split; [done|]. intros i ch Hi. destruct (Hb' i ch Hi) as [Hnd Hin]. split; [done|]. intros y. rewrite Hin.
    cbn [unlist hold set_dirof set_held dirof attrs]. rewrite lookup_delete_Some. split; [|tauto]. intros [Hy ?]. split; [|done]. split; [congruence|done].
Qed.

Lemma enlist_refs c n A m : c ∈ held A → dirof A !! c = None → refs (enlist c n A) m = refs A m.
Proof.
  intros Hh Hc. pose proof (refs_unhold c m A Hh) as H. unfold refs, linked in *. cbn [enlist set_dirof set_held dirof held] in *.
  destruct (decide (m = c)) as [->|Hne]; [rewrite lookup_insert_eq, Hc in *|rewrite lookup_insert_ne by done]; lia.
Qed.
Lemma enlist_spec L A s n c x a : core L A s → is_dir A n → dirof A !! c = None → c ∈ held A → attrs A !! c = Some a → get c s = Ok x →
  (∀ c' a', dirof A !! c' = Some n → attrs A !! c' = Some a' → a_name a' ≠ a_name a) →
  ∃ s', ('(b, _) ← get_children n s; set_children n (hash_push cfg (name x) c b) s) = Ok s' ∧ core L (enlist c n A) s'.
Proof.
  intros Hc Hd Hdc Hh Ha Hg Hnm. destruct (children_spec _ _ _ _ Hc Hd) as (an & xn & b & Han & E & Hnx & Hx & Eb & Hb & ->). pose proof (c_wf _ _ _ Hc) as Hw.
  destruct (getnode_spec _ _ _ _ _ Hc Ha) as (x' & Hg' & _ & Hx'). rewrite Hg in Hg'. injection Hg' as <-. rewrite (n_name _ _ _ _ _ Hx').
  cbn [mbind outcome_bind]. apply (set_children_spec L A (enlist c n A) s n _ Hc Hd); try done; [| | |intros m; by apply enlist_refs].
  - destruct Hw as [W1 W2 W3 W4 W5]. split; cbn [enlist set_dirof set_held attrs dirof held dheld dvals]; try done.
    + intros m p. rewrite lookup_insert_Some. intros [[<- <-]|[_ ?]]; [|eauto]. split; [eauto|]. unfold is_dir in Hd. rewrite Han in *. naive_solver.
    + intros y y' p a1 a2. rewrite !lookup_insert_Some. intros [[<- <-]|[? Hy]] [[<- E2]|[? Hy']] F1 F2 En; simplify_eq; try done; [by destruct (Hnm y' a2)|by destruct (Hnm y a1)|by eapply W2].
    + intros m Hm. apply W3. multiset_solver.
  - destruct Hb as [Hl Hb]. unfold hash_push. split; [by rewrite length_alter|]. intros i ch Hi. cbn [enlist set_dirof set_held dirof attrs].
    destruct (decide (i = hash_index cfg (a_name a))) as [->|Hne].
    + rewrite list_lookup_alter_eq, fmap_Some in Hi. destruct Hi as (ch' & Hi & ->). destruct (Hb _ ch' Hi) as [Hnd Hin]. split.
      * constructor; [rewrite Hin; naive_solver|done].
      * intros y. rewrite elem_of_cons, Hin, lookup_insert_Some. destruct (decide (y = c)); naive_solver.
    + rewrite list_lookup_alter_ne in Hi by done. destruct (Hb _ ch Hi) as [Hnd Hin]. split; [done|]. intros y. rewrite Hin, lookup_insert_Some. destruct (decide (y = c)); naive_solver.
  - intros m b' Hm [Hl Hb']. split; [done|]. intros i ch Hi. destruct (Hb' i ch Hi) as [Hnd Hin]. split; [done|]. intros y. rewrite Hin.
    cbn [enlist set_dirof set_held dirof attrs]. rewrite lookup_insert_Some. destruct (decide (y = c)); naive_solver.
Qed.

(** *** Data references *)

Lemma core_datas L A A' s ds : core L A s → wf A' → attrs A' = attrs A → dirof A' = dirof A → held A' = held A →
  (∀ d, match ds !! d, dvals A' !! d with Some o, Some v => data_ok A' d o v | None, None => True | _, _ => False end) →
  core L A' {| nodes := nodes s; datas := ds |}.
Proof.
  intros [Hw Hn Hd] Hw' E1 E2 E3 Hds. split; [done| |done]. intros n. cbn [nodes]. rewrite E1. specialize (Hn n). destruct (nodes s !! n), (attrs A !! n); try done.
  eapply node_ok_ext; [done|unfold refs, linked; by rewrite E2, E3|]. intros b. unfold chains_ok. by rewrite E1, E2.
Qed.
Lemma drefs_dhold d d' A : drefs (dhold d A) d' = (drefs A d' + if decide (d' = d) then 1 else 0)%nat.
Proof. unfold drefs, users. cbn [dhold set_dheld dheld attrs]. rewrite multiplicity_disj_union, multiplicity_singleton. lia. Qed.
Lemma data_refnew_spec L A s d : core L A s → is_Some (dvals A !! d) → ∃ s', ramfs_data_refnew d s = Ok s' ∧ core L (dhold d A) s'.
Proof.
  intros Hc [v Hv]. destruct (core_data _ _ _ _ _ Hc Hv) as (o & E & Ho & Hr & Hp). unfold ramfs_data_refnew. rewrite E. cbn [of_option mbind outcome_bind].
  destruct (Z.geb_spec (data_refcnt o) 0); [|lia]. cbn [require mbind outcome_bind]. eexists. split; [done|].
  apply (core_datas L A); try done.
  - destruct Hc as [[] _ _]. split; try done. intros d' [Hd|Hd%gmultiset_elem_of_singleton]%gmultiset_elem_of_disj_union; [eauto|subst; eauto].
  - intros d'. pose proof (c_datas _ _ _ Hc d') as Hd. cbn [dhold set_dheld dvals]. destruct (decide (d' = d)) as [->|Hne].
    + rewrite lookup_insert_eq, Hv. unfold data_ok. cbn [data_val data_refcnt]. rewrite drefs_dhold, decide_True by done. split_and!; [done|lia|lia].
    + rewrite lookup_insert_ne by done. destruct (datas s !! d'), (dvals A !! d'); try done. unfold data_ok in *. rewrite drefs_dhold, decide_False by done. by rewrite Nat.add_0_r.
Qed.

(** Taking away one reference to data, whichever kind. *)
Lemma data_drop L A A0 s d v : core L A s → dvals A !! d = Some v → dvals A0 = dvals A →
  (∀ d', drefs A d' = drefs A0 d' + if decide (d' = d) then 1 else 0)%nat →
  ∃ ds, ramfs_data_refdrop d s = Ok {| nodes := nodes s; datas := ds |} ∧
    ∀ d', match ds !! d', dvals (dcollect d A0) !! d' with Some o, Some v => data_ok A0 d' o v | None, None => True | _, _ => False end.
Proof.
  intros Hc Hv E0 Hr. destruct (core_data _ _ _ _ _ Hc Hv) as (o & E & Ho & Hro & Hp). unfold ramfs_data_refdrop. rewrite E. cbn [of_option mbind outcome_bind].
  destruct (Z.gtb_spec (data_refcnt o) 0); [|lia]. cbn [require mbind outcome_bind]. pose proof (Hr d) as Hrd. rewrite decide_True in Hrd by done.
  assert (∀ d', d' ≠ d → match datas s !! d', dvals A0 !! d' with Some o, Some v => data_ok A0 d' o v | None, None => True | _, _ => False end) as Hne.
  { intros d' Hd. pose proof (c_datas _ _ _ Hc d') as H'. rewrite E0. specialize (Hr d'). rewrite decide_False, Nat.add_0_r in Hr by done. unfold data_ok in *. by rewrite <-Hr. }
  unfold dcollect. destruct (Nat.eqb_spec (drefs A0 d) 0) as [Hz|Hz].
  - replace (data_refcnt o - 1) with 0 by lia. cbn [Z.eqb negb]. eexists. split; [done|]. intros d'. cbn [set_dvals dvals]. destruct (decide (d' = d)) as [->|Hd]; [by rewrite !lookup_delete_eq|].
    rewrite !lookup_delete_ne by done. by apply Hne.
  - destruct (Z.eqb_spec (data_refcnt o - 1) 0); [lia|]. cbn [negb]. eexists. split; [done|]. intros d'. destruct (decide (d' = d)) as [->|Hd]; [|rewrite lookup_insert_ne by done; by apply Hne].
    rewrite lookup_insert_eq, E0, Hv. unfold data_ok. cbn [data_val data_refcnt]. split_and!; [done|lia|lia].
Qed.
Lemma dcollect_ok d A : attrs (dcollect d A) = attrs A ∧ dirof (dcollect d A) = dirof A ∧ held (dcollect d A) = held A ∧ dheld (dcollect d A) = dheld A.
Proof. unfold dcollect. by destruct (_ =? _)%nat. Qed.
Lemma dcollect_wf d A : wf A → wf (dcollect d A).
Proof.
  unfold dcollect. destruct (Nat.eqb_spec (drefs A d) 0) as [Hz|]; [|done]. unfold drefs in Hz. intros [W1 W2 W3 W4 W5]. split; cbn [set_dvals attrs dirof held dheld dvals]; try done.
  - intros d' Hd. rewrite lookup_delete_ne; [eauto|]. intros <-. pose proof (proj1 (elem_of_multiplicity d (dheld A)) Hd). lia.
  - intros n a d' Ha Hd. rewrite lookup_delete_ne; [eauto|]. intros <-. unfold users in Hz. rewrite (users_split _ _ _ _ Ha), decide_True in Hz by done. lia.
Qed.
Lemma data_ok_dcollect d A d' o v : data_ok A d' o v → data_ok (dcollect d A) d' o v.
Proof. unfold data_ok, drefs, users. destruct (dcollect_ok d A) as (-> & _ & _ & ->). done. Qed.

Lemma data_refdrop_spec L A s d : core L A s → d ∈ dheld A → ∃ s', ramfs_data_refdrop d s = Ok s' ∧ core L (drelease d A) s'.
Proof.
  intros Hc Hd. pose proof (c_wf _ _ _ Hc) as Hw. destruct (wf_dheld _ Hw _ Hd) as [v Hv]. set (A0 := set_dheld (λ h, h ∖ {[+ d +]}) A).
  destruct (data_drop L A A0 s d v Hc Hv) as (ds & E & Hds); [done| |].
  { intros d'. unfold drefs, users. cbn [A0 set_dheld dheld attrs]. rewrite multiplicity_difference, multiplicity_singleton.
    pose proof (proj1 (elem_of_multiplicity d (dheld A)) Hd). destruct (decide (d' = d)); subst; lia. }
  eexists. split; [done|]. unfold drelease. fold A0. destruct (dcollect_ok d A0) as (E1 & E2 & E3 & E4). apply (core_datas L A); try done.
  - apply dcollect_wf. destruct Hw. split; try done. cbn [A0 set_dheld dheld dvals]. intros d' Hd'. apply wf_dheld0. multiset_solver.
  - intros d'. specialize (Hds d'). destruct (ds !! d'), (dvals _ !! d'); try done. by apply data_ok_dcollect.
Qed.

(** *** Dropping references to nodes *)

Lemma kids_none A n : kids A n = ∅ → ∀ c, dirof A !! c ≠ Some n.
Proof.
  intros E c Hc. assert (kids A n !! c = Some n) as Hk by (by apply map_lookup_filter_Some). by rewrite E, lookup_empty in Hk.
Qed.

(** The state without a node that nobody refers to any more. *)
Definition freed (n : nat) (A : astate) : astate := set_attrs (delete n) (set_held (λ h, h ∖ {[+ n +]}) A).
Lemma freed_wf n A : wf A → refs A n = 1%nat → n ∈ held A → kids A n = ∅ → wf (freed n A).
Proof.
  intros [W1 W2 W3 W4 W5] Hr Hh Hk. pose proof (kids_none _ _ Hk) as Hkn. pose proof (proj1 (elem_of_multiplicity n (held A)) Hh) as Hm. unfold refs, linked in Hr.
  destruct (dirof A !! n) eqn:Hdn; [lia|]. split; cbn [freed set_attrs set_held attrs dirof held dheld dvals]; try done.
  - intros c p Hc. destruct (W1 c p Hc) as ([a Ha] & ap & Hap & T). rewrite !lookup_delete_ne by congruence. eauto.
  - intros c c' p a a' Hc Hc' [_ Ha]%lookup_delete_Some [_ Ha']%lookup_delete_Some. by eapply W2.
  - intros m Hin. pose proof (proj1 (elem_of_multiplicity m _) Hin) as Hlt. rewrite multiplicity_difference, multiplicity_singleton in Hlt.
    destruct (decide (m = n)) as [->|Hne]; [lia|]. rewrite lookup_delete_ne by done. apply W3. multiset_solver.
  - intros m a d [_ Ha]%lookup_delete_Some. eauto.
Qed.
Lemma freed_refs n A m : n ∈ held A → m ≠ n → refs (freed n A) m = refs A m.
Proof. intros Hh Hne. pose proof (refs_unhold n m A Hh) as H. rewrite decide_False in H by done. unfold freed, refs, linked in *. cbn [set_attrs set_held held dirof] in *. lia. Qed.
Lemma freed_drefs n A a d : attrs A !! n = Some a → drefs A d = (drefs (freed n A) d + if decide (a_data a = Some d) then 1 else 0)%nat.
Proof. intros Ha. unfold drefs, users. cbn [freed set_attrs set_held dheld attrs]. rewrite (users_split _ _ _ _ Ha). lia. Qed.
Lemma release_last n A a : attrs A !! n = Some a → refs A n = 1%nat → n ∈ held A → release n A = match a_data a with Some d => dcollect d (freed n A) | None => freed n A end.
Proof.
  intros Ha Hr Hh. unfold release, collect. pose proof (refs_unhold n n A Hh) as H. rewrite decide_True in H by done.
  destruct (Nat.eqb_spec (refs (set_held (λ h, h ∖ {[+ n +]}) A) n) 0); [|lia]. cbn [set_held attrs]. by rewrite Ha.
Qed.
Lemma release_more n A : (1 < refs A n)%nat → n ∈ held A → release n A = set_held (λ h, h ∖ {[+ n +]}) A.
Proof.
  intros Hr Hh. unfold release, collect. pose proof (refs_unhold n n A Hh) as H. rewrite decide_True in H by done.
  destruct (Nat.eqb_spec (refs (set_held (λ h, h ∖ {[+ n +]}) A) n) 0); [lia|done].
Qed.

Lemma core_free L A s n a : core L A s → attrs A !! n = Some a → refs A n = 1%nat → n ∈ held A → kids A n = ∅ →
  ∃ ds, match a_data a with None => ds = datas s | Some d => ramfs_data_refdrop d s = Ok {| nodes := nodes s; datas := ds |} end ∧
    core L (release n A) {| nodes := delete n (nodes s); datas := ds |}.
Proof.
  intros Hc Ha Hr Hh Hk. pose proof (c_wf _ _ _ Hc) as Hw. pose proof (freed_wf n A Hw Hr Hh Hk) as Hw'. pose proof (kids_none _ _ Hk) as Hkn.
  assert (dirof A !! n = None) as Hdn.
  { unfold refs, linked in Hr. pose proof (proj1 (elem_of_multiplicity n (held A)) Hh). destruct (dirof A !! n); [lia|done]. }
  assert (∀ A', attrs A' = attrs (freed n A) → dirof A' = dirof (freed n A) → held A' = held (freed n A) →
    ∀ m, match delete n (nodes s) !! m, attrs A' !! m with Some x, Some a => node_ok L A' m x a | None, None => True | _, _ => False end) as Hnodes.
  { intros A' E1 E2 E3 m. rewrite E1. cbn [freed set_attrs set_held attrs]. destruct (decide (m = n)) as [->|Hne]; [by rewrite !lookup_delete_eq|].
    rewrite !lookup_delete_ne by done. pose proof (c_nodes _ _ _ Hc m) as Hm. destruct (nodes s !! m), (attrs A !! m); try done.
    eapply node_ok_ext; [done| |].
    - rewrite <-(freed_refs n A m Hh Hne). unfold refs, linked. by rewrite E2, E3.
    - intros b [Hl Hb]. split; [done|]. intros i ch Hi. destruct (Hb i ch Hi) as [Hnd Hin]. split; [done|]. intros c. rewrite Hin, E1, E2. cbn [freed set_attrs set_held attrs dirof].
      split; intros (Hd & a' & Ea & Eh); (split; [done|]); exists a'; (split; [|done]); [rewrite lookup_delete_ne; [done|congruence]|by apply lookup_delete_Some in Ea as [_ ?]]. }
  rewrite (release_last _ _ _ Ha Hr Hh). destruct (a_data a) as [d|] eqn:Ed.
  - destruct (wf_data _ Hw _ _ _ Ha Ed) as [v Hv]. destruct (data_drop L A (freed n A) s d v Hc Hv) as (ds & E & Hds); [done| |].
    { intros d'. rewrite (freed_drefs n A a d' Ha), Ed. f_equal. destruct (decide (Some d = Some d')), (decide (d' = d)); congruence. }
    exists ds. split; [done|]. destruct (dcollect_ok d (freed n A)) as (E1 & E2 & E3 & E4). split; [by apply dcollect_wf|by apply Hnodes|].
    intros d'. specialize (Hds d'). cbn [datas]. destruct (ds !! d'), (dvals _ !! d'); try done. by apply data_ok_dcollect.
  - exists (datas s). split; [done|]. split; [done|by apply Hnodes|]. intros d'. cbn [datas freed set_attrs set_held dvals]. pose proof (c_datas _ _ _ Hc d') as Hd.
    destruct (datas s !! d'), (dvals A !! d'); try done. unfold data_ok in *. pose proof (freed_drefs n A a d' Ha) as Hdr. rewrite Ed, decide_False, Nat.add_0_r in Hdr by done. by rewrite <-Hdr.
Qed.

Lemma get_put n x s : get n (put n x s) = Ok x.
Proof. unfold get, put. cbn [nodes]. by rewrite lookup_insert_eq. Qed.
Lemma put_put n x y s : put n x (put n y s) = put n x s.
Proof. unfold put. cbn [nodes datas]. by rewrite insert_insert_eq. Qed.
Lemma modify_put n f x s : modify n f (put n x s) = Ok (put n (f x) s).
Proof. unfold modify. rewrite get_put. cbn [mbind outcome_bind]. by rewrite put_put. Qed.
Lemma get_children_put n x b l s : body x = Children b l → get_children n (put n x s) = Ok (b, l).
Proof. intros E. unfold get_children. rewrite get_put. cbn [mbind outcome_bind]. by rewrite E. Qed.

Lemma node_refdrop_spec L A s n : core L A s → n ∈ held A → (1 < refs A n)%nat ∨ (kids A n = ∅ ∧ n ∉ L) →
  ∃ s', ramfs_node_refdrop cfg n s = Ok s' ∧ core L (release n A) s'.
Proof.
  intros Hc Hh Hor. pose proof (c_wf _ _ _ Hc) as Hw. destruct (wf_held _ Hw _ Hh) as [a Ha]. destruct (getnode_spec _ _ _ _ _ Hc Ha) as (x & E & Hnx & Hx).
  unfold ramfs_node_refdrop. cbn [refdrop_loop]. unfold ramfs_dir_clear. rewrite E. cbn [mbind outcome_bind]. pose proof (n_refcnt _ _ _ _ _ Hx) as Hr. pose proof (n_live _ _ _ _ _ Hx) as Hl. rewrite Hr.
  destruct (Z.gtb_spec (Z.of_nat (refs A n)) 0); [|lia]. cbn [require mbind outcome_bind]. destruct (decide (refs A n = 1%nat)) as [H1|H1].
  - rewrite H1. cbn [Z.of_nat Z.sub Z.eqb negb]. destruct Hor as [|[Hk HnL]]; [lia|]. destruct (core_free L A s n a Hc Ha H1 Hh Hk) as (ds & Hds & Hc').
    pose proof (n_body _ _ _ _ _ Hx) as Hb. rewrite (n_type _ _ _ _ _ Hx). destruct (body x) as [d|b l] eqn:Eb.
    + destruct Hb as [Ht Hd]. rewrite Ht, bool_decide_false by done. unfold get_data. rewrite get_put. cbn [mbind outcome_bind set_refcnt body]. rewrite Eb. cbn [mbind outcome_bind].
      rewrite Hd in Hds. unfold ramfs_data_refdrop in *. cbn [put datas]. destruct (datas s !! d); [|done]. cbn [of_option mbind outcome_bind] in *.
      destruct (require _ _); [|done]. cbn [mbind outcome_bind] in *. eexists. split; [|exact Hc'].
      destruct (negb _); injection Hds as <-; cbn [mbind outcome_bind]; unfold get; cbn [nodes put]; rewrite lookup_insert_eq; cbn [of_option mbind outcome_bind refcnt Z.gtb Z.compare]; do 2 f_equal; by rewrite delete_insert_eq.
    + destruct Hb as (Ht & Hd & Hch & ->). rewrite Ht, bool_decide_true by done. rewrite Hd in Hds. subst ds.
      assert (concat b = []) as Hcb. { destruct (concat b) as [|c q] eqn:Ec; [done|]. destruct (kids_none _ _ Hk c). apply (chains_elem A n b c Hch Hw). rewrite Ec. set_solver. }
      eexists. split; [|exact Hc']. unfold ramfs_dir_wrlock, ramfs_dir_unlock, set_children. erewrite (get_children_put n (set_refcnt _ x) b _ _ Eb). cbn [mbind outcome_bind].
      rewrite bool_decide_false, andb_false_r by done. destruct (smp cfg); cbn [negb require mbind outcome_bind]; rewrite ?modify_put; cbn [mbind outcome_bind];
        repeat (erewrite get_children_put by (cbn [set_body set_refcnt body]; (reflexivity || exact Eb)); cbn [mbind outcome_bind]; rewrite ?Hcb; cbn [foldl mbind outcome_bind]; rewrite ?modify_put; cbn [mbind outcome_bind]);
        rewrite get_put; cbn [mbind outcome_bind set_body set_refcnt refcnt Z.gtb Z.compare]; unfold put; cbn [nodes datas]; by rewrite delete_insert_eq.
  - destruct (Z.eqb_spec (Z.of_nat (refs A n) - 1) 0); [lia|]. cbn [negb]. eexists. split; [done|]. rewrite release_more by (done || lia).
    pose proof (refs_unhold n n A Hh) as Hrn. rewrite decide_True in Hrn by done. eapply (core_put L L A); try done.
    + destruct Hw. split; try done. intros m Hm. apply wf_held0. cbn [set_held held] in Hm. multiset_solver.
    + destruct Hx. split; try done; [cbn [set_refcnt refcnt]; lia|lia].
    + intros m Hm. pose proof (refs_unhold n m A Hh) as Hrm. rewrite decide_False in Hrm by done. lia.
Qed.

(** *** Lookup *)

Lemma entry_Some A n nm c : wf A → entry A n nm = Some c ↔ dirof A !! c = Some n ∧ a_name <$> attrs A !! c = Some nm.
Proof.
  intros Hw. assert (∀ c p, named A n nm !! c = Some p ↔ p = n ∧ dirof A !! c = Some n ∧ a_name <$> attrs A !! c = Some nm) as Hn.
  { intros c' p. unfold named, kids. rewrite !map_lookup_filter_Some. cbn [fst snd]. naive_solver. }
  unfold entry. split.
  - destruct (map_to_list (named A n nm)) as [|[c' p] q] eqn:E; [done|]. cbn. intros [= <-].
    assert (named A n nm !! c' = Some p) as H by (apply elem_of_map_to_list; rewrite E; set_solver). apply Hn in H. naive_solver.
  - intros [Hd Ha]. assert (named A n nm !! c = Some n) as H by (by apply Hn). apply elem_of_map_to_list in H.
    destruct (map_to_list (named A n nm)) as [|[c' p] q] eqn:E; [set_solver|]. cbn. f_equal.
    assert (named A n nm !! c' = Some p) as H' by (apply elem_of_map_to_list; rewrite E; set_solver). apply Hn in H' as (-> & Hd' & Ha').
    destruct (attrs A !! c) as [a1|] eqn:E1; [|done]. destruct (attrs A !! c') as [a2|] eqn:E2; [|done]. cbn in *. eapply (wf_names _ Hw c' c n a2 a1); congruence.
Qed.
Lemma entry_None A n nm : wf A → entry A n nm = None ↔ ∀ c, dirof A !! c = Some n → a_name <$> attrs A !! c ≠ Some nm.
Proof.
  intros Hw. split.
  - intros E c Hd Ha. assert (entry A n nm = Some c) as H by (by apply entry_Some). congruence.
  - intros H. destruct (entry A n nm) as [c|] eqn:E; [|done]. apply (entry_Some A n nm c Hw) in E as [Hd Ha]. by destruct (H c).
Qed.

Lemma find_name_spec L A s nm l : core L A s → Forall (λ c, is_Some (attrs A !! c)) l →
  ∃ r, find_name nm l s = Ok r ∧ match r with Some c => c ∈ l ∧ a_name <$> attrs A !! c = Some nm | None => Forall (λ c, a_name <$> attrs A !! c ≠ Some nm) l end.
Proof.
  intros Hc. induction 1 as [|c l [a Ha] Hl IH]; [by exists None|]. cbn [find_name]. destruct (getnode_spec _ _ _ _ _ Hc Ha) as (x & -> & _ & Hx). cbn [mbind outcome_bind].
  rewrite (n_name _ _ _ _ _ Hx). destruct (decide (a_name a = nm)) as [E|E].
  - rewrite bool_decide_true by done. exists (Some c). split; [done|]. split; [set_solver|]. rewrite Ha. cbn. congruence.
  - rewrite bool_decide_false by done. destruct IH as (r & -> & Hr). exists r. split; [done|]. destruct r; [set_solver|]. constructor; [|done]. rewrite Ha. cbn. congruence.
Qed.

Definition hold_opt (o : option nat) (A : astate) : astate := match o with Some c => hold c A | None => A end.
Lemma dirlookup_spec L A s n nm : core L A s → is_dir A n →
  ∃ s', ramfs_dir_nolock_lookup cfg n nm s = Ok (entry A n nm, s') ∧ core L (hold_opt (entry A n nm) A) s'.
Proof.
  intros Hc Hd. pose proof (c_wf _ _ _ Hc) as Hw. unfold ramfs_dir_nolock_lookup.
  destruct (children_spec _ _ _ _ Hc Hd) as (a & x & b & Ha & E & Hnx & Hx & Eb & [Hl Hb] & ->). cbn [mbind outcome_bind].
  assert (hash_index cfg nm < length b)%nat as Hlt.
  { rewrite Hl. unfold hash_index, hashsize. pose proof (Z.mod_pos_bound (gpct_rawdata_hash cfg nm) 5). lia. }
  destruct (lookup_lt_is_Some_2 b _ Hlt) as [ch Hch]. rewrite Hch. cbn [of_option mbind outcome_bind]. destruct (Hb _ _ Hch) as [Hnd Hin].
  destruct (find_name_spec L A s nm ch Hc) as (r & -> & Hr).
  { apply Forall_forall. intros c Hcc. apply Hin in Hcc as [Hcd _]. by destruct (wf_dirof _ Hw _ _ Hcd). }
  cbn [mbind outcome_bind]. assert (r = entry A n nm) as ->.
  { destruct r as [c|]; symmetry.
    - destruct Hr as [Hc' Hn]. apply entry_Some; [done|]. split; [|done]. by apply Hin in Hc' as [? _].
    - apply entry_None; [done|]. intros c Hcd Hn. rewrite Forall_forall in Hr. apply (Hr c); [|done]. apply Hin. split; [done|].
      destruct (attrs A !! c) as [ac|]; [|done]. cbn in Hn. exists ac. split; [done|]. congruence. }
  destruct (entry A n nm) as [c|] eqn:Ee; [|by eexists]. apply (entry_Some A n nm c Hw) in Ee as [Hcd _]. destruct (wf_dirof _ Hw _ _ Hcd) as [Hsc _].
  destruct (node_refnew_spec L A s c Hc Hsc) as (s' & -> & Hc'). cbn [mbind outcome_bind]. eauto.
Qed.

(** *** New nodes *)

Definition born (obj : nat) (ty : vfs_node_type_e) (data : option nat) (A : astate) : astate :=
  hold obj (set_attrs (insert obj {| a_name := []; a_type := ty; a_parent := None; a_data := data |}) A).

Lemma hash_init_ok A n : (∀ c, dirof A !! c ≠ Some n) → chains_ok A n hash_init.
Proof.
  intros Hk. split; [done|]. intros i ch. unfold hash_init. rewrite lookup_replicate. intros [-> _]. split; [constructor|]. intros c. split; [set_solver|]. intros [Hc _]. by destruct (Hk c).
Qed.
Lemma born_drefs obj ty data A d : attrs A !! obj = None → drefs (born obj ty data A) d = (drefs A d + if decide (data = Some d) then 1 else 0)%nat.
Proof.
  intros Hf. unfold drefs, users. cbn [born hold set_held set_attrs dheld attrs]. rewrite (users_split (<[obj:=_]> (attrs A)) obj _ d (lookup_insert_eq _ _ _)).
  rewrite delete_insert_id by done. cbn [a_data]. lia.
Qed.
Lemma fresh_unlinked A n : wf A → attrs A !! n = None → dirof A !! n = None ∧ n ∉ held A ∧ ∀ c, dirof A !! c ≠ Some n.
Proof.
  intros Hw Hn. split_and!.
  - destruct (dirof A !! n) eqn:E; [|done]. destruct (wf_dirof _ Hw _ _ E) as [[? ?] _]. congruence.
  - intros Hh. destruct (wf_held _ Hw _ Hh). congruence.
  - intros c Hc. destruct (wf_dirof _ Hw _ _ Hc) as (_ & ? & ? & _). congruence.
Qed.
Lemma core_born L A s obj ty data u ds f : core L A s → attrs A !! obj = None → obj ∉ L →
  match ty with VFS_NODE_DIR => data = None ∧ u = Children hash_init false | VFS_NODE_FILE => ∃ d, data = Some d ∧ u = Data d ∧ is_Some (f (dvals A) !! d) end →
  (∀ d v, dvals A !! d = Some v → is_Some (f (dvals A) !! d)) →
  (∀ d, match ds !! d, f (dvals A) !! d with Some o, Some v => data_ok (born obj ty data A) d o v | None, None => True | _, _ => False end) →
  core L (set_dvals f (born obj ty data A)) {| nodes := <[obj := {| refcnt := 1; name := []; type := ty; parent := None; body := u |}]> (nodes s); datas := ds |}.
Proof.
  intros Hc Hf HL Hu Hdv Hds. pose proof (c_wf _ _ _ Hc) as Hw. destruct (fresh_unlinked A obj Hw Hf) as (Hd & Hh & Hk).
  assert (refs (born obj ty data A) obj = 1%nat) as Hr.
  { unfold born. rewrite refs_hold, decide_True by done. unfold refs, linked. cbn [set_attrs held dirof]. rewrite Hd.
    destruct (multiplicity obj (held A)) eqn:Em; [done|]. destruct Hh. apply elem_of_multiplicity. lia. }
  split.
  - destruct Hw as [W1 W2 W3 W4 W5]. split; cbn [set_dvals born hold set_held set_attrs attrs dirof held dheld dvals].
    + intros c p Hcp. destruct (W1 c p Hcp) as ([a Ha] & ap & Hap & T). rewrite !lookup_insert_ne by congruence. eauto.
    + intros c c' p a a' Hc1 Hc2 E1 E2. rewrite lookup_insert_ne in E1, E2 by congruence. by eapply W2.
    + intros m [Hm|Hm%gmultiset_elem_of_singleton]%gmultiset_elem_of_disj_union; [|subst; rewrite lookup_insert_eq; eauto].
      destruct (W3 m Hm) as [a Ha]. rewrite lookup_insert_ne by congruence. eauto.
    + intros d Hdd. destruct (W4 d Hdd). eauto.
    + intros m a d. rewrite lookup_insert_Some. intros [[<- <-]|[_ Ha]] Had; cbn [a_data] in Had; [destruct ty; naive_solver|]. destruct (W5 m a d Ha Had). eauto.
  - intros m. cbn [nodes set_dvals born hold set_held set_attrs attrs]. destruct (decide (m = obj)) as [->|Hne].
    + rewrite !lookup_insert_eq. split; try done; [by change (1 = Z.of_nat (refs (born obj ty data A) obj)); rewrite Hr|change (0 < refs (born obj ty data A) obj)%nat; lia|]. cbn [body]. destruct ty.
      * destruct Hu as [-> ->]. split_and!; try done; [by apply hash_init_ok|]. by rewrite bool_decide_false, andb_false_r.
      * destruct Hu as (d & -> & -> & _). done.
    + rewrite !lookup_insert_ne by done. pose proof (c_nodes _ _ _ Hc m) as Hm. destruct (nodes s !! m), (attrs A !! m); try done. eapply node_ok_ext; [done| |].
      * unfold refs, linked. cbn [set_dvals born hold set_held set_attrs held dirof]. rewrite multiplicity_disj_union, multiplicity_singleton, decide_False by done. lia.
      * intros b [Hl Hb]. split; [done|]. intros i ch Hi. destruct (Hb i ch Hi) as [Hnd Hin]. split; [done|]. intros c. rewrite Hin. cbn [set_dvals born hold set_held set_attrs attrs dirof].
        split; intros (Hcd & a' & Ea & Eh); (split; [done|]); exists a'; (split; [|done]); [rewrite lookup_insert_ne by congruence|rewrite lookup_insert_ne in Ea by congruence]; done.
  - intros d. cbn [datas set_dvals dvals]. apply (Hds d).
Qed.

Lemma fresh_data A d : wf A → dvals A !! d = None → drefs A d = 0%nat.
Proof.
  intros Hw Hd. unfold drefs. assert (multiplicity d (dheld A) = 0)%nat as ->.
  { destruct (multiplicity d (dheld A)) eqn:E; [done|]. destruct (wf_dheld _ Hw d) as [? ?]; [apply elem_of_multiplicity; lia|congruence]. }
  unfold users. cbn [Nat.add]. apply map_size_empty_iff, map_empty. intros n. apply map_lookup_filter_None. right. intros a Ha Hd'. destruct (wf_data _ Hw n a d Ha Hd'). congruence.
Qed.

Lemma new_dir_spec L A s obj dalloc : core L A s → attrs A !! obj = None → obj ∉ L →
  ∃ s', ramfs_node_new (Some obj) dalloc VFS_NODE_DIR None s = Ok (Some obj, s') ∧ core L (born obj VFS_NODE_DIR None A) s'.
Proof.
  intros Hc Hf HL. eexists. split; [reflexivity|]. apply (core_born L A s obj VFS_NODE_DIR None _ (datas s) (λ m, m)); try done.
  intros d. pose proof (c_datas _ _ _ Hc d) as Hd. destruct (datas s !! d), (dvals A !! d); try done. unfold data_ok in *. by rewrite born_drefs, decide_False, Nat.add_0_r.
Qed.
Lemma new_file_spec L A s obj d : core L A s → attrs A !! obj = None → obj ∉ L → dvals A !! d = None →
  ∃ s', ramfs_node_new (Some obj) (Some d) VFS_NODE_FILE None s = Ok (Some obj, s') ∧
    core L (set_dvals (insert d RamfsFile.ramfs_data_new) (born obj VFS_NODE_FILE (Some d) A)) s'.
Proof.
  intros Hc Hf HL Hd. eexists. split; [reflexivity|]. eapply (core_born L A s obj VFS_NODE_FILE (Some d)); try done.
  - exists d. rewrite lookup_insert_eq. eauto.
  - intros d' v Hv. rewrite lookup_insert_ne by congruence. eauto.
  - intros d'. cbn [datas]. destruct (decide (d' = d)) as [->|Hne].
    + rewrite !lookup_insert_eq. unfold data_ok. rewrite born_drefs, decide_True, (fresh_data A d (c_wf _ _ _ Hc) Hd) by done. split_and!; [done|done|lia].
    + rewrite !lookup_insert_ne by done. pose proof (c_datas _ _ _ Hc d') as Hd'. destruct (datas s !! d'), (dvals A !! d'); try done.
      unfold data_ok in *. rewrite born_drefs, decide_False, Nat.add_0_r by congruence. done.
Qed.
Lemma new_clone_spec L A s obj d : core L A s → attrs A !! obj = None → obj ∉ L → is_Some (dvals A !! d) →
  ∃ s', ramfs_node_new (Some obj) None VFS_NODE_FILE (Some d) s = Ok (Some obj, s') ∧ core L (born obj VFS_NODE_FILE (Some d) A) s'.
Proof.
  intros Hc Hf HL [v Hv]. destruct (core_data _ _ _ _ _ Hc Hv) as (o & E & Ho & Hr & Hp). cbn [ramfs_node_new ramfs_node_constructor]. unfold ramfs_data_refnew. rewrite E.
  cbn [of_option mbind outcome_bind]. destruct (Z.geb_spec (data_refcnt o) 0); [|lia]. cbn [require mbind outcome_bind Z.eqb negb]. eexists. split; [reflexivity|].
  apply (core_born L A s obj VFS_NODE_FILE (Some d) _ _ (λ m, m)); try done; [eauto|]. intros d'. cbn [datas]. destruct (decide (d' = d)) as [->|Hne].
  - rewrite lookup_insert_eq, Hv. unfold data_ok. cbn [data_val data_refcnt]. rewrite born_drefs, decide_True by done. split_and!; [done|lia|lia].
  - rewrite lookup_insert_ne by done. pose proof (c_datas _ _ _ Hc d') as Hd'. destruct (datas s !! d'), (dvals A !! d'); try done.
    unfold data_ok in *. rewrite born_drefs, decide_False, Nat.add_0_r by congruence. done.
Qed.

(** *** Lists with their references *)

Lemma astate_eq A A' : attrs A = attrs A' → dirof A = dirof A' → dvals A = dvals A' → held A = held A' → dheld A = dheld A' → A = A'.
Proof. destruct A, A'. cbn. by intros -> -> -> -> ->. Qed.

Lemma remove_spec L A s n c : core L A s → is_dir A n → dirof A !! c = Some n → c ∈ held A →
  ∃ s', ramfs_dir_nolock_remove cfg n c s = Ok s' ∧ core L (set_dirof (delete c) A) s'.
Proof.
  intros Hc Hd Hdc Hh. unfold ramfs_dir_nolock_remove. destruct (unlist_spec L A s n c Hc Hd Hdc) as (s1 & E1 & Hc1).
  destruct (children_spec _ _ _ _ Hc Hd) as (a & x & b & Ha & E & Hnx & Hx & Eb & Hb & Eg). rewrite Eg in *. cbn [mbind outcome_bind] in *.
  destruct (hash_remove c b) as [b'|]; [|done]. cbn [mbind outcome_bind] in *. rewrite E1. cbn [mbind outcome_bind].
  assert (1 < refs (unlist c A) c)%nat as Hr.
  { rewrite (unlist_refs c A n c Hdc). unfold refs, linked. rewrite Hdc. pose proof (proj1 (elem_of_multiplicity c (held A)) Hh). lia. }
  assert (c ∈ held (unlist c A)) as Hh' by (cbn [unlist set_dirof hold set_held held]; multiset_solver).
  destruct (node_refdrop_spec L _ s1 c Hc1 Hh' (or_introl Hr)) as (s2 & -> & Hc2). exists s2. split; [done|]. rewrite release_more in Hc2 by done.
  replace (set_dirof (delete c) A) with (set_held (λ h, h ∖ {[+ c +]}) (unlist c A)); [done|].
  apply astate_eq; try done. cbn [set_held unlist set_dirof hold held]. multiset_solver.
Qed.
Lemma dirpush_spec L A s n c a : core L A s → is_dir A n → dirof A !! c = None → attrs A !! c = Some a →
  (∀ c' a', dirof A !! c' = Some n → attrs A !! c' = Some a' → a_name a' ≠ a_name a) →
  ∃ s', ramfs_dir_nolock_push cfg n c s = Ok s' ∧ core L (set_dirof (insert c n) A) s'.
Proof.
  intros Hc Hd Hdc Ha Hnm. unfold ramfs_dir_nolock_push. destruct (node_refnew_spec L A s c Hc) as (s1 & -> & Hc1); [eauto|]. cbn [mbind outcome_bind].
  destruct (getnode_spec _ _ _ _ _ Hc1 Ha) as (x & Eg & _ & _). rewrite Eg. cbn [mbind outcome_bind].
  destruct (enlist_spec L (hold c A) s1 n c x a Hc1 Hd Hdc) as (s2 & E2 & Hc2); try done.
  { cbn [hold set_held held]. multiset_solver. }
  rewrite E2. exists s2. split; [done|]. replace (set_dirof (insert c n) A) with (enlist c n (hold c A)); [done|].
  apply astate_eq; try done. cbn [set_held enlist set_dirof hold held]. multiset_solver.
Qed.

(** Out of its directory, without the reference of the list. *)
Definition unplace (o : nat) (A : astate) : astate := set_dirof (delete o) (set_attrs (alter (with_parent None) o) A).

Lemma is_dir_alter g n A m : (∀ a, a_type (g a) = a_type a) → is_dir A m → is_dir (set_attrs (alter g n) A) m.
Proof.
  intros Hg. unfold is_dir. cbn [set_attrs attrs]. destruct (decide (m = n)) as [->|]; [|by rewrite lookup_alter_ne].
  rewrite lookup_alter_eq. destruct (attrs A !! n); [|done]. cbn. by rewrite Hg.
Qed.
Lemma attrs_alter g n A m : is_Some (attrs (set_attrs (alter g n) A) !! m) ↔ is_Some (attrs A !! m).
Proof. cbn [set_attrs attrs]. by rewrite lookup_alter_is_Some. Qed.

Lemma detach_old_spec L A s dir m : core L A s → is_dir A dir →
  ∃ s', detach_old cfg dir m s = Ok (entry A dir m, s') ∧ core L (match entry A dir m with Some o => hold o (unplace o A) | None => A end) s'.
Proof.
  intros Hc Hd. pose proof (c_wf _ _ _ Hc) as Hw. unfold detach_old. destruct (dirlookup_spec L A s dir m Hc Hd) as (s1 & -> & Hc1). cbn [mbind outcome_bind].
  destruct (entry A dir m) as [o|] eqn:Ee; [|by eexists]. cbn [hold_opt] in Hc1. apply (entry_Some A dir m o Hw) in Ee as [Hod _].
  destruct (wf_dirof _ Hw _ _ Hod) as [Hso _]. destruct (set_parent_spec L (hold o A) s1 o None Hc1 Hso) as (s2 & -> & Hc2). cbn [mbind outcome_bind].
  destruct (remove_spec L _ s2 dir o Hc2) as (s3 & -> & Hc3); [by apply is_dir_alter|done|cbn [set_attrs hold set_held held]; multiset_solver|].
  cbn [mbind outcome_bind]. exists s3. split; [done|]. replace (hold o (unplace o A)) with (set_dirof (delete o) (set_attrs (alter (with_parent None) o) (hold o A))); [done|]. by apply astate_eq.
Qed.
Lemma release_hold o A : release o (hold o A) = collect o A.
Proof. unfold release. f_equal. apply astate_eq; try done. cbn [set_held hold held]. multiset_solver. Qed.

(** ** Reference semantics of the operations *)

Definition unplace_opt (o : option nat) (A : astate) : astate := match o with Some o => unplace o A | None => A end.
Definition collect_opt (o : option nat) (A : astate) : astate := match o with Some o => collect o A | None => A end.
Definition place (r dir : nat) (A : astate) : astate := set_dirof (insert r dir) (set_attrs (alter (with_parent (Some dir)) r) A).

(** The node [r] takes the place of the entry of that name. *)
Definition s_replace (dir : nat) (m : list Z) (r : nat) (A : astate) : astate :=
  let A := set_attrs (alter (with_name m) r) A in
  let old := entry A dir m in
  collect_opt old (place r dir (unplace_opt old A)).

Definition s_lookup (ref : nat) (nm : list Z) (A : astate) : Z * option (nat * list Z) * astate :=
  if decide (is_dir A ref) then
    let m := vfs_name_mangle cfg nm in
    match entry A ref m with Some c => (0, Some (c, m), hold c A) | None => (- ENOENT, None, A) end
  else (- EINVAL, None, A).

Definition s_create (alloc dalloc : option nat) (ty : vfs_node_type_e) (A : astate) : Z * option nat * astate :=
  match alloc, ty, dalloc with
  | Some n, VFS_NODE_DIR, _ => (0, Some n, born n VFS_NODE_DIR None A)
  | Some n, VFS_NODE_FILE, Some d => (0, Some n, set_dvals (insert d RamfsFile.ramfs_data_new) (born n VFS_NODE_FILE (Some d) A))
  | _, _, _ => (- ENOMEM, None, A)
  end.

(** Whether a node is in the tree. *)
Definition attached (A : astate) (n : nat) : bool := if attrs A !! n ≫= a_parent is Some _ then true else false.

Definition s_link (alloc : option nat) (node dir : nat) (nm : list Z) (A : astate) : Z * option (nat * list Z) * astate :=
  let m := vfs_name_mangle cfg nm in
  if (NAMELEN cfg <=? length nm)%nat then (- EINVAL, None, A) else
  if decide (¬ is_dir A dir) then (- EINVAL, None, A) else
  if negb (attached A dir) then (- ENOTSUP, None, A) else
  if attached A node then
    if decide (is_dir A node) then (- EISDIR, None, A) else
    match alloc with
    | None => (- ENOMEM, None, A)
    | Some r => (0, Some (r, m), s_replace dir m r (born r VFS_NODE_FILE (attrs A !! node ≫= a_data) A))
    end
  else (0, Some (node, m), s_replace dir m node (hold node A)).

Definition s_move (node dir : nat) (nm : list Z) (A : astate) : Z * astate :=
  if (NAMELEN cfg <=? length nm)%nat then (- EINVAL, A) else
  if decide (¬ is_dir A dir) then (- EINVAL, A) else
  match attrs A !! node ≫= a_parent with
  | None => (- EINVAL, A)
  | Some p =>
      if (p =? node)%nat then (- EINVAL, A) else
      if negb (attached A dir) then (- ENOTSUP, A) else
      (0, s_replace dir (vfs_name_mangle cfg nm) node (set_dirof (delete node) A))
  end.

Definition s_unlink (dir : nat) (nm : list Z) (A : astate) : Z * astate :=
  match entry A dir (vfs_name_mangle cfg nm) with
  | None => (- ENOENT, A)
  | Some c => if decide (kids A c = ∅) then (0, collect c (unplace c A)) else (- EBUSY, A)
  end.

Definition s_stat (node : nat) (A : astate) : vfs_node_type_e * Z * Z :=
  match attrs A !! node ≫= a_data with
  | Some d => (VFS_NODE_FILE, default 0 (RamfsFile.actual_size <$> dvals A !! d), Z.of_nat (drefs A d))
  | None => (VFS_NODE_DIR, Z.of_nat (size (kids A node)), 1)
  end.

(** ** The operations refine the reference semantics *)

Lemma hold_opt_sets o A (f : gmap nat attr → gmap nat attr) (g : gmap nat nat → gmap nat nat) : hold_opt o (set_dirof g (set_attrs f A)) = set_dirof g (set_attrs f (hold_opt o A)).
Proof. by destruct o. Qed.

Lemma attach_spec L A s dir m r : core L A s → is_dir A dir → a_name <$> attrs A !! r = Some m → dirof A !! r = None →
  ∃ s', ('(old, s) ← detach_old cfg dir m s; s ← modify r (set_parent (Some dir)) s; s ← ramfs_dir_nolock_push cfg dir r s; Ok (old, s)) = Ok (entry A dir m, s') ∧
    core L (hold_opt (entry A dir m) (place r dir (unplace_opt (entry A dir m) A))) s'.
Proof.
  intros Hc Hd Hnm Hr. pose proof (c_wf _ _ _ Hc) as Hw. destruct (attrs A !! r) as [ar|] eqn:Ear; [|done]. cbn in Hnm. injection Hnm as Hnm.
  destruct (detach_old_spec L A s dir m Hc Hd) as (s1 & -> & Hc1). cbn [mbind outcome_bind]. unfold place.
  set (old := entry A dir m) in *. set (B := unplace_opt old A).
  assert (core L (hold_opt old B) s1) as Hc1' by (unfold B; by destruct old). clear Hc1.
  assert (is_dir (hold_opt old B) dir) as Hd1 by (unfold B; destruct old; [by apply (is_dir_alter (with_parent None) n A)|done]).
  assert (attrs (hold_opt old B) = attrs B ∧ dirof (hold_opt old B) = dirof B) as [EB1 EB2] by (by destruct old).
  assert (∃ ar', attrs B !! r = Some ar' ∧ a_name ar' = m) as (ar' & Ear' & Enm).
  { unfold B. destruct old as [o|]; [|by exists ar]. cbn [unplace_opt unplace set_dirof set_attrs attrs]. destruct (decide (r = o)) as [->|]; [|rewrite lookup_alter_ne by done; eauto].
    rewrite lookup_alter_eq, Ear. eexists. split; [reflexivity|]. done. }
  destruct (set_parent_spec L _ s1 r (Some dir) Hc1') as (s2 & -> & Hc2); [rewrite EB1; eauto|]. cbn [mbind outcome_bind].
  destruct (dirpush_spec L _ s2 dir r (with_parent (Some dir) ar') Hc2) as (s3 & -> & Hc3).
  - by apply is_dir_alter.
  - cbn [set_attrs dirof]. rewrite EB2. unfold B. destruct old; [|done]. cbn [unplace_opt unplace set_dirof dirof]. apply lookup_delete_None. by right.
  - cbn [set_attrs attrs]. by rewrite EB1, lookup_alter_eq, Ear'.
  - intros c' a'. cbn [set_attrs dirof attrs with_parent a_name]. rewrite EB1, EB2, Enm. intros Hdc Hac En.
    assert (c' ≠ r) as Hne. { intros ->. unfold B in Hdc. destruct old; cbn [unplace_opt unplace set_dirof dirof set_attrs] in Hdc; [apply lookup_delete_Some in Hdc as [_ ?]|]; congruence. }
    rewrite lookup_alter_ne in Hac by done. assert (dirof A !! c' = Some dir ∧ a_name <$> attrs A !! c' = Some m ∧ old ≠ Some c') as (Hx & Hy & Hz).
    { unfold B in Hdc, Hac. destruct old as [o|]; cbn [unplace_opt unplace set_dirof set_attrs dirof attrs] in Hdc, Hac.
      - apply lookup_delete_Some in Hdc as [? Hdc]. rewrite lookup_alter_ne in Hac by done. rewrite Hac. split_and!; [done|by cbn; rewrite En|congruence].
      - rewrite Hac. split_and!; [done|by cbn; rewrite En|done]. }
    apply Hz. unfold old. by apply entry_Some.
  - cbn [mbind outcome_bind]. exists s3. split; [done|]. by rewrite hold_opt_sets.
Qed.
Lemma drop_old_spec L B s old : core L (hold_opt old B) s → (∀ o, old = Some o → kids B o = ∅ ∧ o ∉ L) → ∃ s', drop_old cfg old s = Ok s' ∧ core L (collect_opt old B) s'.
Proof.
  intros Hc Hk. destruct old as [o|]; cbn [hold_opt collect_opt drop_old] in *; [|by eexists].
  destruct (node_refdrop_spec L _ s o Hc) as (s' & E & Hc'); [cbn [hold set_held held]; multiset_solver|right; by apply Hk|]. exists s'. split; [done|]. by rewrite <-release_hold.
Qed.
Lemma replaced_kids A dir m r o : wf A → dirof A !! r = None → entry A dir m = Some o → kids A o = ∅ → kids (place r dir (unplace o A)) o = ∅.
Proof.
  intros Hw Hr Ho Hk. pose proof (kids_none _ _ Hk) as Hn. apply (entry_Some A dir m o Hw) in Ho as [Hod _]. apply map_empty. intros c.
  apply map_lookup_filter_None. right. cbn [place unplace set_dirof set_attrs dirof snd]. intros p Hc ->. apply lookup_insert_Some in Hc as [[<- ->]|[_ Hc]].
  - by destruct (Hn o).
  - apply lookup_delete_Some in Hc as [_ Hc]. by destruct (Hn c).
Qed.

Lemma attached_false A n a : attrs A !! n = Some a → attached A n = negb (bool_decide (a_parent a = None)).
Proof. intros Ha. unfold attached. rewrite Ha. cbn. destruct (a_parent a); [by rewrite bool_decide_false|by rewrite bool_decide_true]. Qed.
Lemma is_dir_eq A n a : attrs A !! n = Some a → is_dir A n ↔ a_type a = VFS_NODE_DIR.
Proof. intros Ha. unfold is_dir. rewrite Ha. cbn. split; [by intros [= ->]|by intros ->]. Qed.

Lemma lookup_op_spec A s ref nm : core ∅ A s → is_Some (attrs A !! ref) →
  ∃ s', ramfs_lookup cfg ref nm s = Ok ((s_lookup ref nm A).1, s') ∧ core ∅ (s_lookup ref nm A).2 s'.
Proof.
  intros Hc [a Ha]. unfold ramfs_lookup, s_lookup. destruct (getnode_spec _ _ _ _ _ Hc Ha) as (x & -> & _ & Hx). cbn [mbind outcome_bind]. rewrite (n_type _ _ _ _ _ Hx).
  destruct (decide (is_dir A ref)) as [Hd|Hd]; rewrite (is_dir_eq _ _ _ Ha) in Hd; [rewrite bool_decide_true by done|rewrite bool_decide_false by done; by eexists].
  apply (is_dir_eq _ _ _ Ha) in Hd. cbn [negb]. unfold ramfs_dir_lookup. destruct (wrlock_spec ∅ A s ref Hc Hd) as (s1 & -> & Hc1); [set_solver|]. cbn [mbind outcome_bind].
  destruct (dirlookup_spec _ A s1 ref (vfs_name_mangle cfg nm) Hc1 Hd) as (s2 & -> & Hc2). cbn [mbind outcome_bind].
  destruct (unlock_spec _ _ s2 ref Hc2) as (s3 & -> & Hc3); [by destruct (entry A ref _)|]. cbn [mbind outcome_bind].
  replace (({[ref]} ∪ ∅) ∖ {[ref]}) with (∅ : gset nat) in Hc3 by set_solver. destruct (entry A ref _); cbn [hold_opt fst snd] in *; eauto.
Qed.

Lemma create_op_spec A s alloc dalloc ty : core ∅ A s → (∀ n, alloc = Some n → attrs A !! n = None) → (∀ d, dalloc = Some d → dvals A !! d = None) →
  ∃ s', ramfs_create alloc dalloc ty s = Ok ((s_create alloc dalloc ty A).1, s') ∧ core ∅ (s_create alloc dalloc ty A).2 s'.
Proof.
  intros Hc Hn Hd. unfold ramfs_create, s_create. destruct alloc as [n|]; [|by eexists]. specialize (Hn n eq_refl). destruct ty.
  - destruct (new_dir_spec ∅ A s n dalloc Hc Hn) as (s' & -> & Hc'); [set_solver|]. by eexists.
  - destruct dalloc as [d|]; [|by eexists]. destruct (new_file_spec ∅ A s n d Hc Hn) as (s' & -> & Hc'); [set_solver|by apply Hd|]. by eexists.
Qed.

(** What the name [m] of the directory would lose is empty. *)
Definition replaceable (A : astate) (dir : nat) (m : list Z) : Prop := ∀ o, entry A dir m = Some o → kids A o = ∅.

Lemma entry_rename A dir m m' r : dirof A !! r = None → entry (set_attrs (alter (with_name m') r) A) dir m = entry A dir m.
Proof.
  intros Hr. unfold entry. enough (named (set_attrs (alter (with_name m') r) A) dir m = named A dir m) as -> by done. apply map_filter_ext. intros c p Hk. cbn [fst set_attrs attrs dirof].
  assert (c ≠ r) as Hne by (intros ->; unfold kids in Hk; apply map_lookup_filter_Some in Hk as [Hk _]; cbn [set_attrs dirof] in Hk; congruence). by rewrite lookup_alter_ne.
Qed.

(** The second half of a link: the node is ready and is put under the name. *)
Lemma link_tail_spec A s dir m r : core ∅ A s → is_dir A dir → is_Some (attrs A !! r) → dirof A !! r = None → replaceable A dir m →
  ∃ s', (s ← modify r (set_name m) s; s ← ramfs_dir_wrlock cfg dir s; '(old_file, s) ← detach_old cfg dir m s; s ← modify r (set_parent (Some dir)) s;
         s ← ramfs_dir_nolock_push cfg dir r s; s ← ramfs_dir_unlock cfg dir s; s ← drop_old cfg old_file s; Ok (0, Some (r, m), s)) = Ok (0, Some (r, m), s') ∧
    core ∅ (s_replace dir m r A) s'.
Proof.
  intros Hc Hd [ar Har] Hr Hrep. destruct (set_name_spec ∅ A s r m Hc ltac:(eauto) Hr) as (s1 & -> & Hc1). cbn [mbind outcome_bind].
  set (A1 := set_attrs (alter (with_name m) r) A) in *. assert (is_dir A1 dir) as Hd1 by (by apply is_dir_alter).
  destruct (wrlock_spec _ A1 s1 dir Hc1 Hd1) as (s2 & -> & Hc2); [set_solver|]. cbn [mbind outcome_bind].
  destruct (attach_spec _ A1 s2 dir m r Hc2 Hd1) as (s3 & E3 & Hc3); [by cbn [A1 set_attrs attrs]; rewrite lookup_alter_eq, Har|done|].
  assert (entry A1 dir m = entry A dir m) as Eent by (by apply entry_rename).
  destruct (detach_old cfg dir m s2) as [[old s2']|]; [|done]. cbn [mbind outcome_bind] in *.
  destruct (modify r (set_parent (Some dir)) s2') as [s2''|]; [|done]. cbn [mbind outcome_bind] in *.
  destruct (ramfs_dir_nolock_push cfg dir r s2'') as [s3'|]; [|done]. cbn [mbind outcome_bind] in *. injection E3 as -> ->.
  destruct (unlock_spec _ _ s3 dir Hc3) as (s4 & -> & Hc4).
  { destruct (entry A1 dir m) as [o|]; cbn [hold_opt unplace_opt]; [apply (is_dir_alter _ r (unplace o A1)); [done|]; by apply (is_dir_alter _ o A1)|by apply (is_dir_alter _ r A1)]. }
  cbn [mbind outcome_bind]. replace (({[dir]} ∪ ∅) ∖ {[dir]}) with (∅ : gset nat) in Hc4 by set_solver.
  destruct (drop_old_spec ∅ _ s4 _ Hc4) as (s5 & -> & Hc5); [|by exists s5].
  intros o Ho. split; [|set_solver]. rewrite Ho. cbn [unplace_opt]. eapply (replaced_kids A1 dir m r o); [by apply Hc1|done|done|]. rewrite Eent in Ho. by apply (Hrep o).
Qed.
End core.
End RamfsSpec.
