(* ===== verification/RamfsTree.v ===== *)
(** * The memory file system is a tree of names

    The operations of the memory file system on its heap refine the reference
    semantics, which keeps a tree: each linked node has one place, all places lead
    to the root, and a node that leaves the tree lives as long as somebody refers
    to it. *)

From stdpp Require Import gmap gmultiset.
From S2P Require Import Prelude FileOps RamfsFile Ramfs RamfsSpec.
Import FileOps Ramfs RamfsSpec.

Module RamfsTree.

Section ops.
Context (cfg : config).
Abbreviation core := (core cfg).

Lemma get_data_spec L A s n a : core L A s → attrs A !! n = Some a → a_type a = VFS_NODE_FILE → ∃ d, get_data n s = Ok d ∧ a_data a = Some d.
Proof.
  intros Hc Ha Ht. destruct (getnode_spec cfg _ _ _ _ _ Hc Ha) as (x & E & _ & Hx). pose proof (n_body _ _ _ _ _ _ Hx) as Hb. unfold get_data. rewrite E. cbn [mbind outcome_bind].
  destruct (body x) as [d|b l]; [|destruct Hb; congruence]. exists d. naive_solver.
Qed.
Lemma entry_born A r ty data dir m : wf A → attrs A !! r = None → entry (born r ty data A) dir m = entry A dir m.
Proof.
  intros Hw Hr. destruct (fresh_unlinked A r Hw Hr) as (Hd & _ & _). unfold entry. enough (named (born r ty data A) dir m = named A dir m) as -> by done.
  apply map_filter_ext. intros c p Hk. cbn [fst born hold set_held set_attrs attrs].
  assert (c ≠ r) as Hne by (intros ->; unfold kids in Hk; apply map_lookup_filter_Some in Hk as [Hk _]; cbn [born hold set_held set_attrs dirof] in Hk; congruence). by rewrite lookup_insert_ne.
Qed.

Lemma link_op_spec A s alloc node dir nm : core ∅ A s → is_Some (attrs A !! node) → is_Some (attrs A !! dir) →
  (attached A node = false → dirof A !! node = None) → (∀ r, alloc = Some r → attrs A !! r = None) → replaceable A dir (vfs_name_mangle cfg nm) →
  ∃ s', ramfs_link cfg alloc node dir nm s = Ok ((s_link cfg alloc node dir nm A).1, s') ∧ core ∅ (s_link cfg alloc node dir nm A).2 s'.
Proof.
  intros Hc [a Ha] [ad Had] Hun Hal Hrep. unfold ramfs_link, s_link. destruct (_ <=? _)%nat; [by eexists|].
  destruct (getnode_spec cfg _ _ _ _ _ Hc Had) as (xd & -> & _ & Hxd). cbn [mbind outcome_bind]. rewrite (n_type _ _ _ _ _ _ Hxd), (n_parent _ _ _ _ _ _ Hxd).
  destruct (decide (¬ is_dir A dir)) as [Hd|Hd].
  { rewrite bool_decide_false by (by rewrite <-(is_dir_eq A dir ad Had)). by eexists. }
  assert (is_dir A dir) as Hdir by (destruct (decide (is_dir A dir)); [done|by destruct Hd]). rewrite bool_decide_true by (by apply (is_dir_eq A dir ad Had)). cbn [negb].
  rewrite (attached_false A dir ad Had). destruct (bool_decide (a_parent ad = None)); [by eexists|]. cbn [negb].
  destruct (getnode_spec cfg _ _ _ _ _ Hc Ha) as (x & -> & _ & Hx). cbn [mbind outcome_bind]. rewrite (n_type _ _ _ _ _ _ Hx), (n_parent _ _ _ _ _ _ Hx).
  rewrite (attached_false A node a Ha) in *. destruct (bool_decide (a_parent a = None)) eqn:Ep; cbn [negb andb] in *.
  - specialize (Hun eq_refl). destruct (node_refnew_spec cfg ∅ A s node Hc ltac:(eauto)) as (s1 & -> & Hc1). cbn [mbind outcome_bind fst snd].
    by apply (link_tail_spec cfg (hold node A) s1 dir (vfs_name_mangle cfg nm) node).
  - destruct (decide (is_dir A node)) as [Hn|Hn]; rewrite (is_dir_eq A node a Ha) in Hn; [rewrite bool_decide_true by done; by eexists|rewrite bool_decide_false by done].
    assert (a_type a = VFS_NODE_FILE) as Ht by (by destruct (a_type a)). destruct (get_data_spec ∅ A s node a Hc Ha Ht) as (d & -> & Hda). cbn [mbind outcome_bind].
    rewrite Ha. cbn [option_bind mbind]. rewrite Hda. destruct alloc as [r|]; [|by eexists]. specialize (Hal r eq_refl).
    destruct (new_clone_spec cfg ∅ A s r d Hc Hal) as (s1 & -> & Hc1); [set_solver|exact (wf_data _ (c_wf _ _ _ _ Hc) node a d Ha Hda)|]. cbn [mbind outcome_bind fst snd].
    pose proof (c_wf _ _ _ _ Hc) as Hw. apply (link_tail_spec cfg (born r VFS_NODE_FILE (Some d) A) s1 dir (vfs_name_mangle cfg nm) r); try done.
    + unfold is_dir in *. cbn [born hold set_held set_attrs attrs]. rewrite lookup_insert_ne by congruence. done.
    + cbn [born hold set_held set_attrs attrs]. rewrite lookup_insert_eq. eauto.
    + cbn [born hold set_held set_attrs dirof]. by destruct (fresh_unlinked A r Hw Hal) as (? & _).
    + intros o. rewrite entry_born by done. apply Hrep.
Qed.

(** *** Two locks *)

Lemma wrlock_any L A s n : core L A s → is_dir A n → smp cfg = false ∨ n ∉ L → ∃ s', ramfs_dir_wrlock cfg n s = Ok s' ∧ core ({[n]} ∪ L) A s'.
Proof.
  intros Hc Hd [Hs|Hn]; [|by apply wrlock_spec]. destruct (wrlock_spec cfg ∅ A s n) as (s' & E & Hc'); [by eapply core_unlocked|done|set_solver|].
  exists s'. split; [done|]. by eapply core_unlocked.
Qed.
Lemma lock2_spec A s d1 d2 : core ∅ A s → is_dir A d1 → is_dir A d2 → smp cfg = false ∨ d1 ≠ d2 → ∃ s', ramfs_2dir_wrlock cfg d1 d2 s = Ok s' ∧ core {[d1; d2]} A s'.
Proof.
  intros Hc H1 H2 Hor. assert (∀ a b, is_dir A a → is_dir A b → smp cfg = false ∨ a ≠ b → ∃ s', (s ← ramfs_dir_wrlock cfg a s; ramfs_dir_wrlock cfg b s) = Ok s' ∧ core ({[b]} ∪ ({[a]} ∪ ∅)) A s') as H.
  { intros a b Ha Hb Hab. destruct (wrlock_spec cfg ∅ A s a Hc Ha) as (s1 & -> & Hc1); [set_solver|]. cbn [mbind outcome_bind]. apply wrlock_any; [done|done|].
    destruct Hab; [by left|right; set_solver]. }
  unfold ramfs_2dir_wrlock. destruct (_ <? _)%nat.
  - destruct (H d1 d2) as (s' & E & Hc'); try done. exists s'. split; [done|]. by replace ({[d1; d2]} : gset nat) with ({[d2]} ∪ ({[d1]} ∪ ∅) : gset nat) by set_solver.
  - destruct (H d2 d1) as (s' & E & Hc'); try done; [destruct Hor; [by left|right; congruence]|]. exists s'. split; [done|]. by replace ({[d1; d2]} : gset nat) with ({[d1]} ∪ ({[d2]} ∪ ∅) : gset nat) by set_solver.
Qed.
Lemma unlock2_spec A s d1 d2 : core {[d2; d1]} A s → is_dir A d1 → is_dir A d2 → ∃ s', ramfs_2dir_unlock cfg d1 d2 s = Ok s' ∧ core ∅ A s'.
Proof.
  intros Hc H1 H2. assert (∀ a b, is_dir A a → is_dir A b → ∃ s', (s ← ramfs_dir_unlock cfg a s; ramfs_dir_unlock cfg b s) = Ok s' ∧ core ({[d2; d1]} ∖ {[a]} ∖ {[b]}) A s') as H.
  { intros a b Ha Hb. destruct (unlock_spec cfg _ A s a Hc Ha) as (s1 & -> & Hc1). cbn [mbind outcome_bind]. by apply unlock_spec. }
  unfold ramfs_2dir_unlock. destruct (_ <? _)%nat; [destruct (H d2 d1) as (s' & E & Hc')|destruct (H d1 d2) as (s' & E & Hc')]; try done; exists s'; (split; [done|]);
    by match type of Hc' with RamfsSpec.core _ ?L _ _ => replace L with (∅ : gset nat) in Hc' by set_solver end.
Qed.

Lemma mangle_short nm : (length nm <= NAMELEN cfg)%nat → nm ++ replicate (NAMELEN cfg - length nm) 0 = vfs_name_mangle cfg nm.
Proof. intros H. unfold vfs_name_mangle. by rewrite take_ge. Qed.

Lemma move_op_spec A s node dir nm : core ∅ A s → node ∈ held A → is_Some (attrs A !! dir) →
  (∀ p, attrs A !! node ≫= a_parent = Some p → p ≠ node → dirof A !! node = Some p ∧ (smp cfg = false ∨ p ≠ dir)) →
  replaceable (set_dirof (delete node) A) dir (vfs_name_mangle cfg nm) →
  ∃ s', ramfs_move cfg node dir nm s = Ok ((s_move cfg node dir nm A).1, s') ∧ core ∅ (s_move cfg node dir nm A).2 s'.
Proof.
  intros Hc Hh [ad Had] Hpar Hrep. pose proof (c_wf _ _ _ _ Hc) as Hw. destruct (wf_held _ Hw _ Hh) as [a Ha]. unfold ramfs_move, s_move.
  destruct (Nat.leb_spec (NAMELEN cfg) (length nm)); [by eexists|]. rewrite mangle_short by lia.
  destruct (getnode_spec cfg _ _ _ _ _ Hc Had) as (xd & -> & _ & Hxd). cbn [mbind outcome_bind]. rewrite (n_type _ _ _ _ _ _ Hxd), (n_parent _ _ _ _ _ _ Hxd).
  destruct (decide (¬ is_dir A dir)) as [Hd|Hd]; [rewrite bool_decide_false by (by rewrite <-(is_dir_eq A dir ad Had)); by eexists|].
  assert (is_dir A dir) as Hdir by (destruct (decide (is_dir A dir)); [done|by destruct Hd]). rewrite bool_decide_true by (by apply (is_dir_eq A dir ad Had)). cbn [negb].
  destruct (getnode_spec cfg _ _ _ _ _ Hc Ha) as (x & -> & _ & Hx). cbn [mbind outcome_bind]. rewrite (n_parent _ _ _ _ _ _ Hx). rewrite Ha in *. cbn [option_bind mbind] in *.
  destruct (a_parent a) as [p|]; [|by eexists]. destruct (Nat.eqb_spec p node) as [|Hpn]; [by eexists|]. rewrite (attached_false A dir ad Had).
  destruct (bool_decide (a_parent ad = None)); [by eexists|]. cbn [negb]. destruct (Hpar p eq_refl Hpn) as [Hdn Hlk].
  assert (is_dir A p) as Hdp. { destruct (wf_dirof _ Hw _ _ Hdn) as (_ & ap & Hap & Hty). by apply (is_dir_eq A p ap). }
  destruct (lock2_spec A s p dir Hc Hdp Hdir Hlk) as (s1 & -> & Hc1). cbn [mbind outcome_bind].
  destruct (remove_spec cfg _ A s1 p node Hc1 Hdp Hdn Hh) as (s2 & -> & Hc2). cbn [mbind outcome_bind]. set (A1 := set_dirof (delete node) A) in *.
  assert (dirof A1 !! node = None) as Hun by (cbn [A1 set_dirof dirof]; apply lookup_delete_eq).
  destruct (set_name_spec cfg _ A1 s2 node (vfs_name_mangle cfg nm) Hc2 ltac:(eauto) Hun) as (s3 & -> & Hc3). cbn [mbind outcome_bind]. set (A2 := set_attrs _ A1) in *.
  assert (∀ n, is_dir A n → is_dir A2 n) as Hkeep by (intros n Hn; by apply is_dir_alter).
  destruct (attach_spec cfg _ A2 s3 dir (vfs_name_mangle cfg nm) node Hc3 (Hkeep _ Hdir)) as (s4 & E4 & Hc4); [by cbn [A2 A1 set_attrs set_dirof attrs]; rewrite lookup_alter_eq, Ha|done|].
  assert (entry A2 dir (vfs_name_mangle cfg nm) = entry A1 dir (vfs_name_mangle cfg nm)) as Eent by (by apply entry_rename).
  destruct (detach_old cfg dir (vfs_name_mangle cfg nm) s3) as [[old s3']|]; [|done]. cbn [mbind outcome_bind] in *.
  destruct (modify node (set_parent (Some dir)) s3') as [s3''|]; [|done]. cbn [mbind outcome_bind] in *.
  destruct (ramfs_dir_nolock_push cfg dir node s3'') as [s4'|]; [|done]. cbn [mbind outcome_bind] in *. injection E4 as -> ->.
  assert (∀ n, is_dir A2 n → is_dir (hold_opt (entry A2 dir (vfs_name_mangle cfg nm)) (place node dir (unplace_opt (entry A2 dir (vfs_name_mangle cfg nm)) A2))) n) as Hkeep2.
  { intros n Hn. destruct (entry A2 dir _) as [o|]; cbn [hold_opt unplace_opt]; [apply (is_dir_alter _ node (unplace o A2)); [done|]; by apply (is_dir_alter _ o A2)|by apply (is_dir_alter _ node A2)]. }
  destruct (unlock2_spec _ s4 dir p Hc4) as (s5 & -> & Hc5); [by apply Hkeep2, Hkeep|by apply Hkeep2, Hkeep|]. cbn [mbind outcome_bind fst snd].
  destruct (drop_old_spec cfg ∅ _ s5 _ Hc5) as (s6 & -> & Hc6); [|by exists s6].
  intros o Ho. split; [|set_solver]. rewrite Ho. cbn [unplace_opt]. eapply (replaced_kids A2 dir (vfs_name_mangle cfg nm) node o); [by apply Hc3|done|done|]. rewrite Eent in Ho. by apply (Hrep o).
Qed.

(** *** Counting the children *)

Lemma concat_nodup (A : astate) n (b : list (list nat)) : chains_ok cfg A n b → NoDup (concat b).
Proof.
  intros [_ Hb]. assert (∀ k (l : list (list nat)), (∀ i ch, l !! i = Some ch → NoDup ch ∧ ∀ c, c ∈ ch → ∃ a, attrs A !! c = Some a ∧ hash_index cfg (a_name a) = (k + i)%nat) → NoDup (concat l)) as H.
  { intros k l. revert k. induction l as [|ch l IH]; intros k Hl; [constructor|]. cbn [concat]. apply NoDup_app. split_and!.
    - by destruct (Hl 0%nat ch eq_refl).
    - intros c Hc Hc'. destruct (Hl 0%nat ch eq_refl) as [_ H0]. destruct (H0 c Hc) as (a & Ha & Eh).
      apply list_elem_of_In, in_concat in Hc' as (ch' & Hch & Hin). apply list_elem_of_In, list_elem_of_lookup in Hch as [i Hi]. apply list_elem_of_In in Hin.
      destruct (Hl (S i) ch' Hi) as [_ H1]. destruct (H1 c Hin) as (a' & Ha' & Eh'). rewrite Ha in Ha'. injection Ha' as <-. lia.
    - apply (IH (S k)). intros i ch' Hi. destruct (Hl (S i) ch' Hi) as [? H1]. split; [done|]. intros c Hc. destruct (H1 c Hc) as (a & ? & ?). exists a. split; [done|lia]. }
  apply (H 0%nat). intros i ch Hi. destruct (Hb i ch Hi) as [? Hin]. split; [done|]. intros c Hc. by apply Hin in Hc as [_ ?].
Qed.
Lemma count_kids A n b : wf A → chains_ok cfg A n b → hash_count b = Z.of_nat (size (kids A n)).
Proof.
  intros Hw Hb. unfold hash_count. f_equal. rewrite <-size_dom. rewrite <-(size_list_to_set (C := gset nat)) by (by eapply concat_nodup). f_equal. apply set_eq. intros c.
  rewrite elem_of_list_to_set, elem_of_dom, (chains_elem cfg A n b c Hb Hw). unfold kids. split.
  - intros Hc. exists n. by apply map_lookup_filter_Some.
  - intros [p Hp]. apply map_lookup_filter_Some in Hp as [Hp Ep]. cbn in Ep. congruence.
Qed.
Lemma kids_empty A n : size (kids A n) = 0%nat ↔ kids A n = ∅.
Proof. apply map_size_empty_iff. Qed.
Lemma file_no_kids A n a : wf A → attrs A !! n = Some a → a_type a = VFS_NODE_FILE → kids A n = ∅.
Proof.
  intros Hw Ha Ht. apply map_empty. intros c. apply map_lookup_filter_None. right. cbn. intros p Hp ->. destruct (wf_dirof _ Hw _ _ Hp) as (_ & a' & Ha' & Ht'). congruence.
Qed.
Lemma collect_live n A : (0 < refs A n)%nat → collect n A = A.
Proof. intros H. unfold collect. destruct (Nat.eqb_spec (refs A n) 0); [lia|done]. Qed.

Lemma unlink_op_spec A s dir nm : core ∅ A s → is_dir A dir → (length nm <= NAMELEN cfg)%nat →
  ∃ s', ramfs_unlink cfg dir nm s = Ok ((s_unlink cfg dir nm A).1, s') ∧ core ∅ (s_unlink cfg dir nm A).2 s'.
Proof.
  intros Hc Hd Hl. pose proof (c_wf _ _ _ _ Hc) as Hw. unfold ramfs_unlink, s_unlink. destruct (Nat.leb_spec (length nm) (NAMELEN cfg)); [|lia]. cbn [require mbind outcome_bind].
  rewrite mangle_short by done. set (m := vfs_name_mangle cfg nm). destruct (wrlock_spec cfg ∅ A s dir Hc Hd) as (s1 & -> & Hc1); [set_solver|]. cbn [mbind outcome_bind].
  destruct (dirlookup_spec cfg _ A s1 dir m Hc1 Hd) as (s2 & -> & Hc2). cbn [mbind outcome_bind].
  assert (({[dir]} ∪ ∅) ∖ {[dir]} = (∅ : gset nat)) as EL by set_solver.
  destruct (entry A dir m) as [c|] eqn:Ee; cbn [hold_opt] in Hc2.
  2:{ destruct (unlock_spec cfg _ A s2 dir Hc2 Hd) as (s3 & -> & Hc3). rewrite EL in Hc3. by eexists. }
  apply (entry_Some A dir m c Hw) in Ee as [Hcd _]. destruct (wf_dirof _ Hw _ _ Hcd) as [[a Ha] _].
  destruct (getnode_spec cfg _ _ _ _ _ Hc2 Ha) as (x & -> & _ & Hx). cbn [mbind outcome_bind]. rewrite (n_type _ _ _ _ _ _ Hx).
  assert ((if bool_decide (a_type a = VFS_NODE_DIR) then c0 ← ramfs_dir_nolock_count c s2; Ok (negb (c0 =? 0)) else Ok false) = Ok (negb (bool_decide (kids A c = ∅)))) as ->.
  { destruct (decide (a_type a = VFS_NODE_DIR)) as [Ht|Ht].
    - rewrite bool_decide_true by done. unfold ramfs_dir_nolock_count. destruct (children_spec cfg _ _ s2 c Hc2) as (? & ? & b & _ & _ & _ & _ & _ & Hb & ->); [by apply (is_dir_eq A c a)|].
      cbn [mbind outcome_bind]. rewrite (count_kids (hold c A) c b (c_wf _ _ _ _ Hc2) Hb). change (kids (hold c A) c) with (kids A c). do 2 f_equal.
      pose proof (kids_empty A c). destruct (decide (kids A c = ∅)); [rewrite bool_decide_true by done|rewrite bool_decide_false by done]; destruct (Z.eqb_spec (Z.of_nat (size (kids A c))) 0); try done; lia || naive_solver lia.
    - rewrite bool_decide_false by done. rewrite bool_decide_true; [done|]. eapply file_no_kids; [done..|]. by destruct (a_type a). }
  cbn [mbind outcome_bind]. assert (1 < refs (hold c A) c)%nat as Hr by (rewrite refs_hold, decide_True by done; unfold refs, linked; rewrite Hcd; lia).
  assert (c ∈ held (hold c A)) as Hh by (cbn [hold set_held held]; multiset_solver).
  destruct (decide (kids A c = ∅)) as [Hk|Hk]; [rewrite bool_decide_true by done|rewrite bool_decide_false by done]; cbn [negb fst snd].
  - destruct (set_parent_spec cfg _ _ s2 c None Hc2) as (s3 & -> & Hc3); [by eexists|]. cbn [mbind outcome_bind].
    destruct (remove_spec cfg _ _ s3 dir c Hc3) as (s4 & -> & Hc4); [by apply (is_dir_alter _ c (hold c A))|done|done|]. cbn [mbind outcome_bind].
    destruct (unlock_spec cfg _ _ s4 dir Hc4) as (s5 & -> & Hc5); [by apply (is_dir_alter _ c (hold c A))|]. cbn [mbind outcome_bind]. rewrite EL in Hc5.
    change (set_dirof (delete c) (set_attrs (alter (with_parent None) c) (hold c A))) with (hold c (unplace c A)) in Hc5.
    destruct (node_refdrop_spec cfg ∅ _ s5 c Hc5) as (s6 & -> & Hc6); [cbn [hold set_held held]; multiset_solver|right; split; [|set_solver]|].
    + apply map_empty. intros y. apply map_lookup_filter_None. right. cbn. intros p [_ Hp]%lookup_delete_Some ->. by destruct (kids_none A c Hk y).
    + rewrite release_hold in Hc6. by eexists.
  - destruct (node_refdrop_spec cfg _ _ s2 c Hc2 Hh (or_introl Hr)) as (s3 & -> & Hc3). cbn [mbind outcome_bind]. rewrite release_hold, collect_live in Hc3 by (unfold refs, linked; rewrite Hcd; lia).
    destruct (unlock_spec cfg _ _ s3 dir Hc3 Hd) as (s4 & -> & Hc4). rewrite EL in Hc4. by eexists.
Qed.

Lemma dircount_spec L A s n : core L A s → is_dir A n → n ∉ L → ∃ s', ramfs_dir_count cfg n s = Ok (Z.of_nat (size (kids A n)), s') ∧ core L A s'.
Proof.
  intros Hc Hd Hn. unfold ramfs_dir_count. destruct (wrlock_spec cfg L A s n Hc Hd Hn) as (s1 & -> & Hc1). cbn [mbind outcome_bind].
  unfold ramfs_dir_nolock_count. destruct (children_spec cfg _ _ s1 n Hc1 Hd) as (? & ? & b & _ & _ & _ & _ & _ & Hb & ->). cbn [mbind outcome_bind].
  rewrite (count_kids A n b (c_wf _ _ _ _ Hc1) Hb). destruct (unlock_spec cfg _ A s1 n Hc1 Hd) as (s2 & -> & Hc2). cbn [mbind outcome_bind].
  exists s2. split; [done|]. by replace (({[n]} ∪ L) ∖ {[n]}) with L in Hc2 by set_solver.
Qed.
Lemma stat_op_spec A s node : core ∅ A s → is_Some (attrs A !! node) → ∃ s', ramfs_stat cfg node s = Ok (0, s_stat node A, s') ∧ core ∅ A s'.
Proof.
  intros Hc [a Ha]. unfold ramfs_stat, s_stat. destruct (getnode_spec cfg _ _ _ _ _ Hc Ha) as (x & E & _ & Hx). rewrite E. cbn [mbind outcome_bind]. rewrite (n_type _ _ _ _ _ _ Hx), Ha. cbn [option_bind mbind].
  destruct (a_type a) eqn:Ht.
  - destruct (dircount_spec ∅ A s node Hc) as (s' & -> & Hc'); [by apply (is_dir_eq A node a)|set_solver|]. pose proof (n_body _ _ _ _ _ _ Hx) as Hb.
    destruct (body x); [destruct Hb; congruence|]. destruct Hb as (_ & -> & _). by eexists.
  - destruct (get_data_spec ∅ A s node a Hc Ha Ht) as (d & -> & Hd). rewrite Hd. cbn [mbind outcome_bind]. destruct (wf_data _ (c_wf _ _ _ _ Hc) node a d Ha Hd) as [v Hv].
    destruct (core_data cfg _ _ _ _ _ Hc Hv) as (o & Eo & Ev & Er & _). rewrite Eo. cbn [of_option mbind outcome_bind]. rewrite Er, Ev, Hv. by eexists.
Qed.
End ops.

(** ** The tree *)

(** The chain of directories above a node leads to [root]. *)
Inductive reach (m : gmap nat nat) (root : nat) : nat → Prop :=
  | reach_root : reach m root root
  | reach_up c p : m !! c = Some p → reach m root p → reach m root c.

Record tree (root : nat) (A : astate) : Prop := {
  t_root : is_dir A root;
  t_top : dirof A !! root = None;
  t_mount : root ∈ held A;
  t_parent : ∀ n a, attrs A !! n = Some a → a_parent a = if decide (n = root) then Some root else dirof A !! n;
  t_reach : ∀ c p, dirof A !! c = Some p → reach (dirof A) root p }.

Lemma tree_outside root A n : tree root A → n ≠ root → dirof A !! n = None → kids A n = ∅.
Proof.
  intros Ht Hn Hd. apply map_empty. intros c. apply map_lookup_filter_None. right. cbn. intros p Hp ->. pose proof (t_reach _ _ Ht c n Hp) as Hr. inversion Hr; congruence.
Qed.

(** Two tops of one chain are the same. *)
Lemma reach_top m a b x : reach m a x → reach m b x → m !! a = None → m !! b = None → a = b.
Proof.
  intros Ha Hb Ea Eb. induction Ha as [|c p Hcp Ha IH]; [inversion Hb; congruence|]. inversion Hb; simplify_eq; auto.
Qed.

Lemma reach_mono m m' r x : m ⊆ m' → reach m r x → reach m' r x.
Proof. intros Hm. induction 1 as [|c p Hcp _ IH]; [constructor|]. eapply reach_up; [|done]. by eapply lookup_weaken. Qed.

(** A node without children can leave. *)
Lemma reach_delete m root c x : (∀ y, m !! y ≠ Some c) → m !! root = None → x ≠ c → reach m root x → reach (delete c m) root x.
Proof.
  intros Hk Hr Hx H. induction H as [|y p Hyp _ IH]; [constructor|]. eapply reach_up; [by rewrite lookup_delete_ne|]. apply IH. intros ->. by apply (Hk y).
Qed.
(** A chain that does not pass a node does not need its edge. *)
Lemma reach_avoid m root n x : ¬ reach m n x → reach m root x → reach (delete n m) root x.
Proof.
  intros Hn H. induction H as [|y p Hyp _ IH]; [constructor|]. eapply reach_up.
  - rewrite lookup_delete_ne; [done|]. intros ->. apply Hn. constructor.
  - apply IH. intros Hp. apply Hn. by eapply reach_up.
Qed.

(** A node moves, with what is below it, under a directory that is not below it. *)
Lemma reach_move m root n dir x : m !! root = None → ¬ reach m n dir → reach m root dir → reach m root x → reach (<[n := dir]> (delete n m)) root x.
Proof.
  intros Hr Hn Hd H. assert (reach (<[n := dir]> (delete n m)) root dir) as Hd'.
  { eapply reach_mono; [|by apply (reach_avoid m root n)]. apply insert_subseteq. apply lookup_delete_eq. }
  induction H as [|y p Hyp _ IH]; [constructor|]. destruct (decide (y = n)) as [->|Hne].
  - eapply reach_up; [apply lookup_insert_eq|done].
  - eapply reach_up; [|done]. by rewrite lookup_insert_ne, lookup_delete_ne.
Qed.

Lemma tree_hold root n A : tree root A → tree root (hold n A).
Proof. intros []. split; try done. cbn [hold set_held held]. multiset_solver. Qed.
Lemma tree_collect root n A : tree root A → tree root (collect n A).
Proof.
  intros Ht. unfold collect. destruct (Nat.eqb_spec (refs A n) 0) as [Hz|]; [|done]. assert (n ≠ root) as Hne.
  { intros ->. pose proof (proj1 (elem_of_multiplicity root (held A)) (t_mount _ _ Ht)). unfold refs in Hz. lia. }
  assert (tree root (set_attrs (delete n) A)) as H.
  { destruct Ht as [T1 T2 T3 T4 T5]. split; try done.
    - unfold is_dir in *. cbn [set_attrs attrs]. by rewrite lookup_delete_ne.
    - cbn [set_attrs attrs dirof]. intros m a [_ Hm]%lookup_delete_Some. by apply T4. }
  destruct (attrs A !! n ≫= a_data) as [d|]; [|done]. unfold dcollect. destruct (_ =? _)%nat; [|done]. by destruct H.
Qed.
Lemma tree_release root n A : tree root A → root ∈ held A ∖ {[+ n +]} → tree root (release n A).
Proof. intros [] Hr. apply tree_collect. by split. Qed.
Lemma tree_born root r ty data A : wf A → tree root A → attrs A !! r = None → tree root (born r ty data A).
Proof.
  intros Hw Ht Hr. apply tree_hold. destruct (fresh_unlinked A r Hw Hr) as (Hd & _ & _). pose proof (t_root _ _ Ht) as Hroot. unfold is_dir in Hroot.
  destruct Ht as [T1 T2 T3 T4 T5]. split; try done.
  - unfold is_dir. cbn [set_attrs attrs]. rewrite lookup_insert_ne; [done|]. intros ->. by rewrite Hr in Hroot.
  - cbn [set_attrs attrs dirof]. intros m a. rewrite lookup_insert_Some. intros [[<- <-]|[_ Hm]]; [|by apply T4]. cbn. rewrite decide_False; [done|]. intros ->. by rewrite Hr in Hroot.
Qed.
Lemma tree_unlink root c A : wf A → tree root A → is_Some (dirof A !! c) → kids A c = ∅ → tree root (unplace c A).
Proof.
  intros Hw Ht [p Hp] Hk. pose proof (kids_none A c Hk) as Hn. destruct Ht as [T1 T2 T3 T4 T5]. assert (c ≠ root) as Hc by congruence. split; try done.
  - by apply (is_dir_alter _ c A).
  - cbn [unplace set_dirof set_attrs dirof]. by rewrite lookup_delete_ne.
  - cbn [unplace set_dirof set_attrs attrs dirof]. intros n a Ha. destruct (decide (n = c)) as [->|Hne].
    + rewrite lookup_alter_eq in Ha. destruct (attrs A !! c); [|done]. cbn in Ha. injection Ha as <-. cbn. by rewrite lookup_delete_eq, decide_False.
    + rewrite lookup_alter_ne in Ha by done. rewrite lookup_delete_ne by done. by apply T4.
  - cbn [unplace set_dirof set_attrs dirof]. intros y q [Hy Hq]%lookup_delete_Some. apply reach_delete; [done|done| |by apply (T5 y)]. intros ->. by apply (Hn y).
Qed.

(** [A] with [r] out of its place: what link and move start from. *)
Lemma tree_replace root dir m r A : wf (set_dirof (delete r) A) → tree root A → r ≠ root → is_Some (attrs A !! r) →
  reach (dirof A) root dir → ¬ reach (dirof A) r dir → replaceable (set_dirof (delete r) A) dir m →
  tree root (s_replace dir m r (set_dirof (delete r) A)).
Proof.
  intros Hw Ht Hr [ar Har] Hdir Hun Hrep. unfold s_replace. set (A1 := set_dirof (delete r) A) in *.
  rewrite (entry_rename A1 dir m m r) by (cbn [A1 set_dirof dirof]; apply lookup_delete_eq).
  assert (tree root (place r dir (unplace_opt (entry A1 dir m) (set_attrs (alter (with_name m) r) A1)))) as H; [|by destruct (entry A1 dir m); [apply tree_collect|]].
  assert (∀ o, entry A1 dir m = Some o → o ≠ root ∧ o ≠ r ∧ o ≠ dir ∧ (∀ y, dirof A !! y = Some o → y = r)) as Hold.
  { intros o Ho. pose proof (kids_none A1 o (Hrep o Ho)) as Hk. apply (entry_Some A1 dir m o Hw) in Ho as [Hod _]. cbn [A1 set_dirof dirof] in *. pose proof Hod as [Hor Hod']%lookup_delete_Some.
    pose proof (t_top _ _ Ht). split_and!; [congruence|congruence|by intros ->; apply (Hk dir)|]. intros y Hy. destruct (decide (y = r)); [done|]. destruct (Hk y). by rewrite lookup_delete_ne. }
  pose proof Ht as [T1 T2 T3 T4 T5]. set (m1 := match entry A1 dir m with Some o => delete o (delete r (dirof A)) | None => delete r (dirof A) end).
  assert (dirof (place r dir (unplace_opt (entry A1 dir m) (set_attrs (alter (with_name m) r) A1))) = <[r := dir]> m1) as Edir by (unfold m1; by destruct (entry A1 dir m)).
  assert (∀ y, y ≠ r → entry A1 dir m ≠ Some y → m1 !! y = dirof A !! y) as Hm1.
  { intros y Hy Hy'. unfold m1. destruct (entry A1 dir m); [rewrite lookup_delete_ne by congruence|]; by rewrite lookup_delete_ne. }
  split.
  - destruct (entry A1 dir m) as [o|]; cbn [unplace_opt]; [apply (is_dir_alter _ r (unplace o _)); [done|]; apply (is_dir_alter _ o (set_attrs _ A1)); [done|]|apply (is_dir_alter _ r (set_attrs _ A1)); [done|]]; by apply (is_dir_alter _ r A1).
  - rewrite Edir, lookup_insert_ne, Hm1 by (done || naive_solver). done.
  - by destruct (entry A1 dir m).
  - intros n a Ha. rewrite Edir. destruct (decide (n = r)) as [->|Hne].
    + rewrite lookup_insert_eq, decide_False by done. cbn [place set_dirof set_attrs attrs] in Ha. rewrite lookup_alter_eq in Ha. by apply fmap_Some in Ha as (? & _ & ->).
    + rewrite lookup_insert_ne by done. cbn [place set_dirof set_attrs attrs] in Ha. rewrite lookup_alter_ne in Ha by done. destruct (decide (entry A1 dir m = Some n)) as [En|En].
      * destruct (Hold n En) as (Hnr & _). rewrite decide_False by done. rewrite En in Ha. cbn [unplace_opt unplace set_dirof set_attrs attrs] in Ha. rewrite lookup_alter_eq in Ha. apply fmap_Some in Ha as (? & _ & ->).
        unfold m1. by rewrite En, lookup_delete_eq.
      * rewrite Hm1 by done. apply T4. destruct (entry A1 dir m) as [o|]; cbn [unplace_opt unplace set_dirof set_attrs attrs] in Ha; rewrite ?lookup_alter_ne in Ha by congruence; done.
  - intros c p. rewrite Edir. assert (∀ x, entry A1 dir m ≠ Some x → reach (dirof A) root x → reach (<[r := dir]> m1) root x) as Hmv.
    { intros x Hx Hrx. pose proof (reach_move (dirof A) root r dir x T2 Hun Hdir Hrx) as Hrx'. unfold m1. destruct (entry A1 dir m) as [o|] eqn:Eo; [|done].
      destruct (Hold o eq_refl) as (Ho1 & Ho2 & Ho3 & Ho4). rewrite <-delete_insert_ne by done. apply reach_delete; [|by rewrite lookup_insert_ne, lookup_delete_ne|congruence|done].
      intros y. rewrite lookup_insert_Some, lookup_delete_Some. intros [[_ ?]|[? [_ Hy]]]; [done|]. by apply Ho4 in Hy. }
    rewrite lookup_insert_Some. intros [[<- <-]|[Hcr Hcp]].
    + apply Hmv; [|done]. intros E. by destruct (Hold dir E) as (_ & _ & ? & _).
    + destruct (decide (entry A1 dir m = Some c)) as [Ec|Ec]; [unfold m1 in Hcp; by rewrite Ec, lookup_delete_eq in Hcp|]. rewrite Hm1 in Hcp by done. apply Hmv; [|by apply (T5 c)].
      intros E. destruct (Hold p E) as (_ & _ & _ & H4). by apply H4 in Hcp.
Qed.

(** ** Clients *)

Inductive op :=
  | OLookup (ref : nat) (nm : list Z)
  | OCreate (alloc dalloc : option nat) (ty : vfs_node_type_e)
  | OLink (alloc : option nat) (node dir : nat) (nm : list Z)
  | OMove (node dir : nat) (nm : list Z)
  | OUnlink (dir : nat) (nm : list Z)
  | OStat (node : nat)
  | ODup (node : nat)
  | ODrop (node : nat)
  | OOpen (alloc : bool) (flags : Z) (node : nat)
  | OClose (file : vfs_file_s)
  | OWrite (ans : RamfsFile.answer) (d : nat) (offset : Z) (bs : list Z).

(** An error code with what the operation returns. *)
Inductive res :=
  | RNode (e : Z) (r : option nat)
  | RName (e : Z) (r : option (nat * list Z))
  | RCode (e : Z)
  | RStat (e : Z) (st : vfs_node_type_e * Z * Z)
  | RFile (e : Z) (f : option vfs_file_s)
  | RWritten (k offset : Z).

Section clients.
Context (cfg : config).

Definition run (o : op) (s : ramfs) : outcome (res * ramfs) :=
  match o with
  | OLookup ref nm => '(e, r, s) ← ramfs_lookup cfg ref nm s; Ok (RName e r, s)
  | OCreate alloc dalloc ty => '(e, r, s) ← ramfs_create alloc dalloc ty s; Ok (RNode e r, s)
  | OLink alloc node dir nm => '(e, r, s) ← ramfs_link cfg alloc node dir nm s; Ok (RName e r, s)
  | OMove node dir nm => '(e, s) ← ramfs_move cfg node dir nm s; Ok (RCode e, s)
  | OUnlink dir nm => '(e, s) ← ramfs_unlink cfg dir nm s; Ok (RCode e, s)
  | OStat node => '(e, st, s) ← ramfs_stat cfg node s; Ok (RStat e st, s)
  | ODup node => s ← ramfs_node_refnew node s; Ok (RCode 0, s)
  | ODrop node => s ← ramfs_node_refdrop cfg node s; Ok (RCode 0, s)
  | OOpen alloc flags node => '(e, f, s) ← ramfs_node_open alloc flags node s; Ok (RFile e f, s)
  | OClose file => '(e, s) ← ramfs_file_close cfg file s; Ok (RCode e, s)
  | OWrite ans d offset bs => '(k, offset, s) ← file_write cfg ans d offset bs s; Ok (RWritten k offset, s)
  end.

(** *** What the operations mean *)

Definition s_open (alloc : bool) (flags : Z) (node : nat) (A : astate) : res * astate :=
  if negb alloc then (RFile (- ENOMEM) None, A) else
  match attrs A !! node ≫= a_data with
  | Some d =>
      (RFile 0 (Some {| f_node := node;
         f_priv := PData d {| RamfsFile.can_read := RamfsFile.flag flags VFS_OPEN_READ;
                              RamfsFile.can_write := RamfsFile.flag flags VFS_OPEN_WRITE || RamfsFile.flag flags VFS_OPEN_APPEND;
                              RamfsFile.append := RamfsFile.flag flags VFS_OPEN_APPEND; RamfsFile.offset := 0 |} |}), dhold d (hold node A))
  | None => (RFile 0 (Some {| f_node := node; f_priv := PIndex 0 |}), hold node A)
  end.
Definition s_close (file : vfs_file_s) (A : astate) : res * astate :=
  (RCode 0, release (f_node file) (match f_priv file with PData d _ => drelease d A | PIndex _ => A end)).
Definition s_write (ans : RamfsFile.answer) (d : nat) (offset : Z) (bs : list Z) (A : astate) : res * astate :=
  match RamfsFile.ramfs_file_write (W cfg) ans (default RamfsFile.ramfs_data_new (dvals A !! d)) offset bs with
  | Ok (k, v, offset) => (RWritten k offset, set_dvals (insert d v) A)
  | Err _ => (RCode 0, A)
  end.

Definition spec (o : op) (A : astate) : res * astate :=
  match o with
  | OLookup ref nm => let '(e, r, A) := s_lookup cfg ref nm A in (RName e r, A)
  | OCreate alloc dalloc ty => let '(e, r, A) := s_create alloc dalloc ty A in (RNode e r, A)
  | OLink alloc node dir nm => let '(e, r, A) := s_link cfg alloc node dir nm A in (RName e r, A)
  | OMove node dir nm => let '(e, A) := s_move cfg node dir nm A in (RCode e, A)
  | OUnlink dir nm => let '(e, A) := s_unlink cfg dir nm A in (RCode e, A)
  | OStat node => (RStat 0 (s_stat node A), A)
  | ODup node => (RCode 0, hold node A)
  | ODrop node => (RCode 0, release node A)
  | OOpen alloc flags node => s_open alloc flags node A
  | OClose file => s_close file A
  | OWrite ans d offset bs => s_write ans d offset bs A
  end.

(** *** What clients have to respect *)

(** They own the references they use and release, memory is fresh, no directory with
    contents is replaced, no directory is moved below itself, and nothing is renamed
    inside a directory when the locks exist. *)
Definition legal (root : nat) (o : op) (A : astate) : Prop :=
  match o with
  | OLookup ref _ => ref ∈ held A
  | OCreate alloc dalloc _ => (∀ n, alloc = Some n → attrs A !! n = None) ∧ (∀ d, dalloc = Some d → dvals A !! d = None)
  | OLink alloc node dir nm =>
      node ∈ held A ∧ dir ∈ held A ∧ (∀ r, alloc = Some r → attrs A !! r = None) ∧ replaceable A dir (vfs_name_mangle cfg nm)
  | OMove node dir nm =>
      node ∈ held A ∧ dir ∈ held A ∧ replaceable (set_dirof (delete node) A) dir (vfs_name_mangle cfg nm) ∧
      ¬ reach (dirof A) node dir ∧ (smp cfg = false ∨ dirof A !! node ≠ Some dir)
  | OUnlink dir nm => dir ∈ held A ∧ is_dir A dir ∧ (length nm <= NAMELEN cfg)%nat
  | OStat node | ODup node => node ∈ held A
  | ODrop node => node ∈ held A ∧ root ∈ held A ∖ {[+ node +]}
  | OOpen _ flags node => node ∈ held A ∧ RamfsFile.flag flags VFS_OPEN_TRUNCATE = false
  | OClose file =>
      f_node file ∈ held A ∧ root ∈ held A ∖ {[+ f_node file +]} ∧
      match f_priv file with PData d _ => ¬ is_dir A (f_node file) ∧ d ∈ dheld A | PIndex _ => is_dir A (f_node file) end
  | OWrite ans d offset bs =>
      d ∈ dheld A ∧ is_ok (RamfsFile.ramfs_file_write (W cfg) ans (default RamfsFile.ramfs_data_new (dvals A !! d)) offset bs) = true
  end.

Definition sim (root : nat) (A : astate) (s : ramfs) : Prop := core cfg ∅ A s ∧ tree root A.

(** ** Refinement *)

Lemma tree_ext root A A' : tree root A → attrs A' = attrs A → dirof A' = dirof A → held A' = held A → tree root A'.
Proof. intros [T1 T2 T3 T4 T5] E1 E2 E3. split; unfold is_dir in *; by rewrite ?E1, ?E2, ?E3. Qed.
Lemma wf_unlinked r A : wf A → wf (set_dirof (delete r) A).
Proof.
  intros [W1 W2 W3 W4 W5]. split; cbn [set_dirof attrs dirof held dheld dvals]; try done.
  - intros c n [_ Hc]%lookup_delete_Some. eauto.
  - intros c c' n a a' [_ Hc]%lookup_delete_Some [_ Hc']%lookup_delete_Some. eauto.
Qed.
Lemma wf_hold n A : wf A → is_Some (attrs A !! n) → wf (hold n A).
Proof. intros [] Hn. split; try done. intros k [Hk|Hk%gmultiset_elem_of_singleton]%gmultiset_elem_of_disj_union; [eauto|by subst]. Qed.
Lemma wf_born r ty data A : wf A → attrs A !! r = None → (∀ d, data = Some d → is_Some (dvals A !! d)) → wf (born r ty data A).
Proof.
  intros Hw Hr Hd. destruct (fresh_unlinked A r Hw Hr) as (Hdr & _ & Hk). apply wf_hold; [|cbn [set_attrs attrs]; rewrite lookup_insert_eq; eauto].
  destruct Hw as [W1 W2 W3 W4 W5]. split; cbn [set_attrs attrs dirof held dheld dvals]; try done.
  - intros c p Hcp. destruct (W1 c p Hcp) as ([a1 Ha1] & ap & Hap & T). rewrite !lookup_insert_ne by congruence. eauto.
  - intros c c' p a1 a2 Hc1 Hc2 E1 E2. rewrite lookup_insert_ne in E1, E2 by congruence. by eapply W2.
  - intros n Hn. destruct (W3 n Hn) as [? ?]. rewrite lookup_insert_ne by congruence. eauto.
  - intros n a1 d. rewrite lookup_insert_Some. intros [[<- <-]|[_ ?]]; [by apply Hd|eauto].
Qed.
Lemma attached_reach root A n : tree root A → attached A n = true → reach (dirof A) root n.
Proof.
  intros Ht Hn. unfold attached in Hn. destruct (attrs A !! n) as [a|] eqn:Ha; [|done]. cbn in Hn. pose proof (t_parent _ _ Ht n a Ha) as Hp.
  destruct (decide (n = root)) as [->|Hne]; [constructor|]. rewrite Hp in Hn. destruct (dirof A !! n) as [p|] eqn:Ed; [|done]. eapply reach_up; [done|]. by eapply (t_reach _ _ Ht).
Qed.
Lemma detached root A n a : tree root A → attrs A !! n = Some a → attached A n = false → dirof A !! n = None ∧ n ≠ root.
Proof.
  intros Ht Ha Hn. unfold attached in Hn. rewrite Ha in Hn. cbn in Hn. pose proof (t_parent _ _ Ht n a Ha) as Hp. destruct (decide (n = root)); rewrite Hp in Hn; [done|].
  by destruct (dirof A !! n).
Qed.

(** A node outside the tree takes a name of a directory of the tree. *)
Lemma tree_link root A dir m r a : wf A → tree root A → attrs A !! r = Some a → dirof A !! r = None → r ≠ root → reach (dirof A) root dir → replaceable A dir m → tree root (s_replace dir m r A).
Proof.
  intros Hw Ht Ha Hd Hr Hdir Hrep. assert (set_dirof (delete r) A = A) as E by (apply astate_eq; try done; cbn [set_dirof dirof]; by rewrite delete_id).
  rewrite <-E. apply tree_replace; rewrite ?E; try done. intros Hrd. exact (Hr (reach_top _ _ _ _ Hrd Hdir Hd (t_top _ _ Ht))).
Qed.

Lemma s_link_tree root A alloc node dir nm a : wf A → tree root A → attrs A !! node = Some a → (∀ r, alloc = Some r → attrs A !! r = None) →
  replaceable A dir (vfs_name_mangle cfg nm) → tree root (s_link cfg alloc node dir nm A).2.
Proof.
  intros Hw Ht Ha Hal Hrep. unfold s_link. destruct (_ <=? _)%nat; [done|]. destruct (decide _); [done|]. destruct (attached A dir) eqn:Ead; [|done]. cbn [negb].
  pose proof (attached_reach root A dir Ht Ead) as Hdir. destruct (attached A node) eqn:Ean.
  - destruct (decide _); [done|]. destruct alloc as [r|]; [|done]. specialize (Hal r eq_refl). cbn [snd]. destruct (fresh_unlinked A r Hw Hal) as (Hd & _ & Hk).
    pose proof (tree_born root r VFS_NODE_FILE (attrs A !! node ≫= a_data) A Hw Ht Hal) as Htb. set (B := born _ _ _ A) in *.
    assert (r ≠ root) as Hr. { intros ->. pose proof (t_root _ _ Ht) as H. unfold is_dir in H. by rewrite Hal in H. }
    assert (attrs B !! r = Some {| a_name := []; a_type := VFS_NODE_FILE; a_parent := None; a_data := attrs A !! node ≫= a_data |}) as Hrb by (cbn [B born hold set_held set_attrs attrs]; apply lookup_insert_eq).
    eapply tree_link; try done.
    + apply wf_born; [done|done|]. rewrite Ha. cbn. intros d Hd'. by eapply (wf_data _ Hw).
    + intros o. unfold B. rewrite entry_born by done. apply Hrep.
  - cbn [snd]. destruct (detached root A node a Ht Ha Ean) as [Hd Hn]. apply (tree_link root (hold node A) dir _ node a); try done; [apply wf_hold; eauto|by apply tree_hold].
Qed.
Lemma s_move_tree root A node dir nm a : wf A → tree root A → attrs A !! node = Some a → ¬ reach (dirof A) node dir →
  replaceable (set_dirof (delete node) A) dir (vfs_name_mangle cfg nm) → tree root (s_move cfg node dir nm A).2.
Proof.
  intros Hw Ht Ha Hun Hrep. unfold s_move. destruct (_ <=? _)%nat; [done|]. destruct (decide _); [done|]. rewrite Ha. cbn [option_bind mbind]. pose proof (t_parent _ _ Ht node a Ha) as Hp.
  destruct (a_parent a) as [p|]; [|done]. destruct (Nat.eqb_spec p node) as [|Hpn]; [done|]. destruct (attached A dir) eqn:Ead; [|done]. cbn [negb snd].
  destruct (decide (node = root)) as [->|Hn]; [congruence|]. apply tree_replace; try done; [by apply wf_unlinked|by apply attached_reach].
Qed.
Lemma s_unlink_tree root A dir nm : wf A → tree root A → tree root (s_unlink cfg dir nm A).2.
Proof.
  intros Hw Ht. unfold s_unlink. destruct (entry A dir _) as [c|] eqn:Ee; [|done]. destruct (decide (kids A c = ∅)); [|done]. cbn [snd].
  apply (entry_Some A dir _ c Hw) in Ee as [Hd _]. apply tree_collect. apply tree_unlink; try done.
Qed.

(** Whatever the client drops, no directory with children goes away. *)
Lemma droppable root A n : tree root A → n ∈ held A → root ∈ held A ∖ {[+ n +]} → (1 < refs A n)%nat ∨ (kids A n = ∅ ∧ n ∉ (∅ : gset nat)).
Proof.
  intros Ht Hn Hr. pose proof (proj1 (elem_of_multiplicity n (held A)) Hn) as Hm. destruct (decide (n = root)) as [->|Hne].
  - left. pose proof (proj1 (elem_of_multiplicity root _) Hr) as Hm'. rewrite multiplicity_difference, multiplicity_singleton, decide_True in Hm' by done. unfold refs. lia.
  - destruct (dirof A !! n) eqn:Ed; [left; unfold refs, linked; rewrite Ed; lia|right]. split; [by eapply tree_outside|set_solver].
Qed.

Lemma open_op_spec A s alloc flags node : core cfg ∅ A s → is_Some (attrs A !! node) → RamfsFile.flag flags VFS_OPEN_TRUNCATE = false →
  ∃ s' e f, ramfs_node_open alloc flags node s = Ok (e, f, s') ∧ (s_open alloc flags node A).1 = RFile e f ∧ core cfg ∅ (s_open alloc flags node A).2 s'.
Proof.
  intros Hc Hn Hfl. unfold ramfs_node_open, s_open. destruct alloc; [|by do 3 eexists]. cbn [negb]. destruct (node_refnew_spec cfg ∅ A s node Hc Hn) as (s1 & -> & Hc1). cbn [mbind outcome_bind].
  destruct Hn as [a Ha]. destruct (getnode_spec cfg _ _ _ _ _ Hc1 Ha) as (x & -> & _ & Hx). cbn [mbind outcome_bind]. rewrite (n_type _ _ _ _ _ _ Hx), Ha. cbn [option_bind mbind].
  pose proof (n_body _ _ _ _ _ _ Hx) as Hb. destruct (a_type a) eqn:Et.
  - destruct (body x); [destruct Hb; congruence|]. destruct Hb as (_ & -> & _). by do 3 eexists.
  - destruct (get_data_spec cfg ∅ (hold node A) s1 node a Hc1 Ha Et) as (d & -> & Hd). rewrite Hd. cbn [mbind outcome_bind].
    destruct (wf_data _ (c_wf _ _ _ _ Hc1) node a d Ha Hd) as [v Hv]. destruct (core_data cfg _ _ _ _ _ Hc1 Hv) as (o & -> & _). cbn [of_option mbind outcome_bind].
    unfold RamfsFile.ramfs_node_open. cbn [negb]. rewrite Hfl. cbn [negb require of_option mbind outcome_bind].
    destruct (data_refnew_spec cfg ∅ _ s1 d Hc1) as (s2 & -> & Hc2); [by eexists|]. by do 3 eexists.
Qed.
Lemma close_op_spec root A s file : sim root A s → legal root (OClose file) A →
  ∃ s', ramfs_file_close cfg file s = Ok (0, s') ∧ sim root (s_close file A).2 s'.
Proof.
  intros [Hc Ht] (Hn & Hr & Hp). pose proof (c_wf _ _ _ _ Hc) as Hw. destruct (wf_held _ Hw _ Hn) as [a Ha]. unfold ramfs_file_close, s_close. cbn [snd].
  destruct (getnode_spec cfg _ _ _ _ _ Hc Ha) as (x & -> & _ & Hx). cbn [mbind outcome_bind]. rewrite (n_type _ _ _ _ _ _ Hx).
  set (A1 := match f_priv file with PData d _ => drelease d A | PIndex _ => A end).
  assert (∃ s1, (if bool_decide (a_type a = VFS_NODE_FILE) then match f_priv file with PData d _ => ramfs_data_refdrop d s | PIndex _ => Err FUndef end else Ok s) = Ok s1 ∧ core cfg ∅ A1 s1) as (s1 & -> & Hc1).
  { unfold A1. destruct (f_priv file) as [d f|i].
    - destruct Hp as [Hd Hh]. rewrite bool_decide_true by (rewrite (is_dir_eq A _ a Ha) in Hd; by destruct (a_type a)). by apply data_refdrop_spec.
    - apply (is_dir_eq A _ a Ha) in Hp. rewrite bool_decide_false by congruence. by eexists. }
  cbn [mbind outcome_bind]. assert (attrs A1 = attrs A ∧ dirof A1 = dirof A ∧ held A1 = held A) as (E1 & E2 & E3).
  { unfold A1. destruct (f_priv file); [|done]. unfold drelease. destruct (dcollect_ok d (set_dheld (λ h, h ∖ {[+ d +]}) A)) as (-> & -> & -> & _). done. }
  pose proof (tree_ext root A A1 Ht E1 E2 E3) as Ht1. destruct (node_refdrop_spec cfg ∅ A1 s1 (f_node file) Hc1) as (s2 & -> & Hc2); [by rewrite E3|apply (droppable root); rewrite ?E3; done|].
  exists s2. split; [done|]. split; [done|]. apply tree_release; [done|]. by rewrite E3.
Qed.
Lemma write_op_spec A s ans d offset bs : core cfg ∅ A s → legal 0 (OWrite ans d offset bs) A →
  ∃ s' k off, file_write cfg ans d offset bs s = Ok (k, off, s') ∧ (s_write ans d offset bs A).1 = RWritten k off ∧ core cfg ∅ (s_write ans d offset bs A).2 s'.
Proof.
  intros Hc [Hd Hok]. pose proof (c_wf _ _ _ _ Hc) as Hw. destruct (wf_dheld _ Hw _ Hd) as [v Hv]. destruct (core_data cfg _ _ _ _ _ Hc Hv) as (o & Eo & Ev & Er & Ep).
  unfold file_write, s_write. rewrite Eo. cbn [of_option mbind outcome_bind]. rewrite Hv in *. cbn [default from_option id] in *. rewrite Ev.
  destruct (RamfsFile.ramfs_file_write (W cfg) ans v offset bs) as [[[k v'] off]|]; [|done]. cbn [mbind outcome_bind fst snd]. do 3 eexists. split; [done|]. split; [done|].
  apply (core_datas cfg ∅ A); try done.
  - destruct Hw. split; try done; cbn [set_dvals dheld dvals attrs].
    + intros d' Hd'. destruct (decide (d' = d)) as [->|]; [rewrite lookup_insert_eq; eauto|rewrite lookup_insert_ne by done; eauto].
    + intros n a d' Ha Hd'. destruct (decide (d' = d)) as [->|]; [rewrite lookup_insert_eq; eauto|rewrite lookup_insert_ne by done; eauto].
  - intros d'. cbn [set_dvals dvals]. destruct (decide (d' = d)) as [->|Hne]; [by rewrite !lookup_insert_eq|]. rewrite !lookup_insert_ne by done. apply (c_datas _ _ _ _ Hc d').
Qed.

Lemma step_spec root o A s : sim root A s → legal root o A → ∃ s', run o s = Ok ((spec o A).1, s') ∧ sim root (spec o A).2 s'.
Proof.
  intros Hs Hl. pose proof Hs as [Hc Ht]. pose proof (c_wf _ _ _ _ Hc) as Hw. destruct o as [ref nm|alloc dalloc ty|alloc node dir nm|node dir nm|dir nm|node|node|node|alloc flags node|file|ans d off bs]; cbn [run spec legal] in *.
  - destruct (lookup_op_spec cfg A s ref nm Hc (wf_held _ Hw _ Hl)) as (s' & -> & Hc'). assert (tree root (s_lookup cfg ref nm A).2) as Ht'.
    { unfold s_lookup. destruct (decide _); [|done]. destruct (entry A ref _); [by apply tree_hold|done]. }
    destruct (s_lookup cfg ref nm A) as [[e r] A']. cbn in *. exists s'. done.
  - destruct Hl as [Hl1 Hl2]. destruct (create_op_spec cfg A s alloc dalloc ty Hc Hl1 Hl2) as (s' & -> & Hc'). assert (tree root (s_create alloc dalloc ty A).2) as Ht'.
    { unfold s_create. destruct alloc as [n|]; [|by destruct ty]. specialize (Hl1 n eq_refl). destruct ty; [by apply tree_born|]. destruct dalloc as [d|]; [|done].
      eapply (tree_ext root (born n VFS_NODE_FILE (Some d) A)); [by apply tree_born|done..]. }
    destruct (s_create alloc dalloc ty A) as [[e r] A']. cbn in *. exists s'. done.
  - destruct Hl as (Hn & Hd & Hal & Hrep). destruct (wf_held _ Hw _ Hn) as [a Ha]. destruct (link_op_spec cfg A s alloc node dir nm Hc) as (s' & -> & Hc'); try done; [by apply (wf_held _ Hw)|intros Hat; by eapply detached|].
    pose proof (s_link_tree root A alloc node dir nm a Hw Ht Ha Hal Hrep) as Ht'. destruct (s_link cfg alloc node dir nm A) as [[e r] A']. cbn in *. exists s'. done.
  - destruct Hl as (Hn & Hd & Hrep & Hun & Hlk). destruct (wf_held _ Hw _ Hn) as [a Ha]. destruct (move_op_spec cfg A s node dir nm Hc Hn) as (s' & -> & Hc'); try done; [by apply (wf_held _ Hw)| |].
    { rewrite Ha. cbn. intros p Hp Hpn. pose proof (t_parent _ _ Ht node a Ha) as E. rewrite Hp in E. destruct (decide (node = root)) as [->|]; [congruence|]. rewrite <-E in Hlk. split; [done|]. destruct Hlk; [by left|right; congruence]. }
    pose proof (s_move_tree root A node dir nm a Hw Ht Ha Hun Hrep) as Ht'. destruct (s_move cfg node dir nm A) as [e A']. cbn in *. exists s'. done.
  - destruct Hl as (Hd & Hdir & Hlen). destruct (unlink_op_spec cfg A s dir nm Hc Hdir Hlen) as (s' & -> & Hc'). pose proof (s_unlink_tree root A dir nm Hw Ht) as Ht'.
    destruct (s_unlink cfg dir nm A) as [e A']. cbn in *. exists s'. done.
  - destruct (stat_op_spec cfg A s node Hc (wf_held _ Hw _ Hl)) as (s' & -> & Hc'). exists s'. done.
  - destruct (node_refnew_spec cfg ∅ A s node Hc (wf_held _ Hw _ Hl)) as (s' & -> & Hc'). exists s'. split; [done|]. split; [done|by apply tree_hold].
  - destruct Hl as [Hn Hr]. destruct (node_refdrop_spec cfg ∅ A s node Hc Hn) as (s' & -> & Hc'); [by apply (droppable root)|]. exists s'. split; [done|]. split; [done|by apply tree_release].
  - destruct Hl as [Hn Hfl]. destruct (open_op_spec A s alloc flags node Hc (wf_held _ Hw _ Hn) Hfl) as (s' & e & f & -> & E & Hc'). cbn [mbind outcome_bind]. rewrite E. exists s'. split; [done|]. split; [done|].
    unfold s_open. destruct alloc; [|done]. cbn [negb]. destruct (_ ≫= _); [|by apply tree_hold]. eapply (tree_ext root (hold node A)); [by apply tree_hold|done..].
  - destruct (close_op_spec root A s file Hs Hl) as (s' & -> & Hs'). by exists s'.
  - destruct (write_op_spec A s ans d off bs Hc Hl) as (s' & k & off' & -> & E & Hc'). cbn [mbind outcome_bind]. rewrite E. exists s'. split; [done|]. split; [done|].
    unfold s_write. destruct (RamfsFile.ramfs_file_write _ _ _ _ _) as [[[? ?] ?]|]; [|done]. by eapply (tree_ext root A).
Qed.

(** ** Runs *)

Fixpoint run_ops (ops : list op) (s : ramfs) : outcome (list res * ramfs) :=
  match ops with
  | [] => Ok ([], s)
  | o :: ops => '(r, s) ← run o s; '(rs, s) ← run_ops ops s; Ok (r :: rs, s)
  end.
Fixpoint spec_ops (ops : list op) (A : astate) : list res * astate :=
  match ops with
  | [] => ([], A)
  | o :: ops => let '(r, A) := spec o A in let '(rs, A) := spec_ops ops A in (r :: rs, A)
  end.
Fixpoint legal_ops (root : nat) (ops : list op) (A : astate) : Prop :=
  match ops with [] => True | o :: ops => legal root o A ∧ legal_ops root ops (spec o A).2 end.

(** The empty file system: the root, which the mount refers to. *)
Definition fs_empty : ramfs := {| nodes := ∅; datas := ∅ |}.
Definition astart (root : nat) : astate :=
  {| attrs := {[root := {| a_name := []; a_type := VFS_NODE_DIR; a_parent := Some root; a_data := None |}]}; dirof := ∅; dvals := ∅; held := {[+ root +]}; dheld := ∅ |}.

Lemma open_spec root : ∃ s0, ramfs_open true (Some root) fs_empty = Ok (0, Some root, s0) ∧ sim root (astart root) s0.
Proof.
  set (E := {| attrs := ∅; dirof := ∅; dvals := ∅; held := ∅; dheld := ∅ |}). assert (core cfg ∅ E fs_empty) as Hc.
  { split; [|done|done]. split; cbn [E attrs dirof held dheld dvals]; intros *; rewrite ?lookup_empty; try done; intros H; multiset_solver. }
  destruct (new_dir_spec cfg ∅ E fs_empty root None Hc) as (s1 & E1 & Hc1); [done|set_solver|]. unfold ramfs_open. rewrite E1. cbn [mbind outcome_bind].
  destruct (set_parent_spec cfg ∅ _ s1 root (Some root) Hc1) as (s2 & -> & Hc2); [cbn [born hold set_held set_attrs attrs]; rewrite lookup_insert_eq; eauto|]. cbn [mbind outcome_bind].
  assert (set_attrs (alter (with_parent (Some root)) root) (born root VFS_NODE_DIR None E) = astart root) as EA.
  { apply astate_eq; try done; cbn [set_attrs born hold set_held attrs held E astart]; [|by rewrite (left_id_L ∅ (⊎))].
    apply map_eq. intros i. destruct (decide (i = root)) as [->|Hne]; [by rewrite lookup_alter_eq, lookup_insert_eq, lookup_singleton_eq|]. by rewrite lookup_alter_ne, lookup_insert_ne, lookup_singleton_ne. }
  rewrite EA in Hc2. exists s2. split; [done|]. split; [done|]. split; try done.
  - unfold is_dir. cbn [astart attrs]. by rewrite lookup_singleton_eq.
  - cbn [astart held]. multiset_solver.
  - cbn [astart attrs dirof]. intros n a. rewrite lookup_singleton_Some. intros [<- <-]. by rewrite decide_True.
Qed.

Lemma run_clients_spec root ops A s : sim root A s → legal_ops root ops A → ∃ s', run_ops ops s = Ok ((spec_ops ops A).1, s') ∧ sim root (spec_ops ops A).2 s'.
Proof.
  revert A s. induction ops as [|o ops IH]; intros A s Hs Hl; [by exists s|]. cbn [run_ops spec_ops legal_ops] in *. destruct Hl as [Hl Hls].
  destruct (step_spec root o A s Hs Hl) as (s1 & -> & Hs1). cbn [mbind outcome_bind]. destruct (spec o A) as [r A1]. cbn [fst snd] in *.
  destruct (IH A1 s1 Hs1 Hls) as (s2 & -> & Hs2). destruct (spec_ops ops A1) as [rs A2]. by exists s2.
Qed.

(** C13. The memory file system is a tree of names: from its creation on, every sequence of
    operations a client may make returns what the reference semantics says, without
    touching freed memory or a lock it would wait for, and leaves a heap that
    represents the tree. *)
Theorem ramfs_is_a_tree root ops :
  legal_ops root ops (astart root) →
  ∃ s0 s', ramfs_open true (Some root) fs_empty = Ok (0, Some root, s0) ∧ run_ops ops s0 = Ok ((spec_ops ops (astart root)).1, s') ∧
    sim root (spec_ops ops (astart root)).2 s'.
Proof.
  intros Hl. destruct (open_spec root) as (s0 & E0 & Hs0). destruct (run_clients_spec root ops _ s0 Hs0 Hl) as (s' & E & Hs'). by exists s0, s'.
Qed.

(** Whether a node is a link to file data. *)
Definition links_to (d : nat) (x : fs_node_s) : Prop := match body x with Data e => e = d | Children _ _ => False end.
#[export] Instance links_to_dec d x : Decision (links_to d x).
Proof. unfold links_to. destruct (body x); apply _. Defined.

(** The nodes of the heap that link to the data are those of the reference. *)
Lemma users_heap A s d : core cfg ∅ A s → users A d = size (filter (λ x, links_to d x.2) (nodes s)).
Proof.
  intros Hc. unfold users. rewrite <-!size_dom. f_equal. apply set_eq. intros n. rewrite !elem_of_dom. unfold is_Some. setoid_rewrite map_lookup_filter_Some.
  pose proof (c_nodes _ _ _ _ Hc n) as Hn. destruct (nodes s !! n) as [x|], (attrs A !! n) as [a|]; try done; [|by split; intros (? & ? & _)].
  assert (a_data a = Some d ↔ links_to d x) as Hd; [|naive_solver]. pose proof (n_body _ _ _ _ _ _ Hn) as Hb. unfold links_to.
  destruct (body x) as [e|bs l]; [destruct Hb as [_ ->]|destruct Hb as (_ & -> & _)]; naive_solver.
Qed.

(** C28. Nothing is freed too early or too late.  Every legal run succeeds, and at its
    end a node is in the heap exactly if a client owns a reference to it or it is in a
    directory, and then its counter is the number of those references (the root is
    kept by the client that opened the volume); file data is in the heap exactly if an
    open file uses it or a node links to it, and then its counter is the number of
    both.  The parent of a node is alive and lists it, and once no client owns anything
    but the root every node that is left hangs in the tree. *)
Theorem ramfs_counts_exact root ops :
  legal_ops root ops (astart root) →
  ∃ s0 rs s', ramfs_open true (Some root) fs_empty = Ok (0, Some root, s0) ∧ run_ops ops s0 = Ok (rs, s') ∧
  let A := (spec_ops ops (astart root)).2 in
  (∀ n, is_Some (nodes s' !! n) ↔ n ∈ held A ∨ is_Some (dirof A !! n)) ∧
  (∀ n x, nodes s' !! n = Some x → refcnt x = Z.of_nat (multiplicity n (held A)) + (if dirof A !! n is Some _ then 1 else 0) ∧ 0 < refcnt x ∧
     (∀ p, parent x = Some p → ∃ b l, get_children p s' = Ok (b, l) ∧ (n ≠ root → dirof A !! n = Some p ∧ n ∈ concat b))) ∧
  (∀ d, is_Some (datas s' !! d) ↔ d ∈ dheld A ∨ ∃ n x, nodes s' !! n = Some x ∧ links_to d x) ∧
  (∀ d o, datas s' !! d = Some o → 0 < data_refcnt o ∧
     data_refcnt o = Z.of_nat (multiplicity d (dheld A)) + Z.of_nat (size (filter (λ x, links_to d x.2) (nodes s')))) ∧
  (held A = {[+ root +]} → ∀ n, is_Some (nodes s' !! n) → reach (dirof A) root n).
Proof.
  intros Hl. destruct (open_spec root) as (s0 & E0 & Hs0). destruct (run_clients_spec root ops _ s0 Hs0 Hl) as (s' & E & [Hc Ht]).
  exists s0, (spec_ops ops (astart root)).1, s'. split; [done|]. split; [done|]. intros A. fold A in Hc, Ht. pose proof (c_wf _ _ _ _ Hc) as Hw.
  assert (∀ n x, nodes s' !! n = Some x → ∃ a, attrs A !! n = Some a ∧ node_ok cfg ∅ A n x a) as Hnode.
  { intros n x Hx. pose proof (c_nodes _ _ _ _ Hc n) as H. rewrite Hx in H. destruct (attrs A !! n); [eauto|done]. }
  assert (∀ n x, nodes s' !! n = Some x → refcnt x = Z.of_nat (multiplicity n (held A)) + (if dirof A !! n is Some _ then 1 else 0) ∧ 0 < refcnt x) as Hcnt.
  { intros n x Hx. destruct (Hnode n x Hx) as (a & Ha & Hok). rewrite (n_refcnt _ _ _ _ _ _ Hok). pose proof (n_live _ _ _ _ _ _ Hok). unfold refs, linked in *. destruct (dirof A !! n); lia. }
  split_and!.
  - intros n. split.
    + intros [x Hx]. destruct (Hcnt n x Hx) as [Ec H0]. destruct (dirof A !! n); [by right|left]. apply elem_of_multiplicity. lia.
    + intros Hn. assert (is_Some (attrs A !! n)) as [a Ha] by (destruct Hn as [Hn|[p Hp]]; [by apply (wf_held _ Hw)|by destruct (wf_dirof _ Hw _ _ Hp)]).
      destruct (core_get cfg _ _ _ _ _ Hc Ha) as (x & -> & _). eauto.
  - intros n x Hx. destruct (Hcnt n x Hx) as [? ?]. split_and!; [done|done|]. destruct (Hnode n x Hx) as (a & Ha & Hok). pose proof (t_parent _ _ Ht n a Ha) as Hp. rewrite (n_parent _ _ _ _ _ _ Hok), Hp.
    intros p Ep. assert (is_dir A p) as Hd. { destruct (decide (n = root)) as [->|]; [injection Ep as <-; apply Ht|]. destruct (wf_dirof _ Hw _ _ Ep) as (_ & ap & Hap & T). by apply (is_dir_eq A p ap). }
    destruct (children_spec cfg _ _ s' p Hc Hd) as (? & ? & b & _ & _ & _ & _ & _ & Hb & ->). do 2 eexists. split; [done|]. intros Hne. rewrite decide_False in Ep by done. split; [done|]. by apply (chains_elem cfg A p b n Hb Hw).
  - intros d. pose proof (c_datas _ _ _ _ Hc d) as Hd. split.
    + intros [o Ho]. rewrite Ho in Hd. destruct (dvals A !! d); [|done]. destruct Hd as (_ & _ & Hlv). unfold drefs in Hlv. rewrite (users_heap A s' d Hc) in Hlv.
      destruct (decide (d ∈ dheld A)) as [Hin|Hin]; [by left|right]. apply not_elem_of_multiplicity in Hin.
      destruct (map_choose (filter (λ x, links_to d x.2) (nodes s'))) as (n & x & [Hx1 Hx2]%map_lookup_filter_Some); [|eauto]. intros Em. rewrite Em, map_size_empty in Hlv. lia.
    + intros Hu. assert (is_Some (dvals A !! d)) as [v Hv]; [|rewrite Hv in Hd; by destruct (datas s' !! d)].
      destruct Hu as [Hu|(n & x & Hx & Hlk)]; [by apply (wf_dheld _ Hw)|]. destruct (Hnode n x Hx) as (a & Ha & Hok). pose proof (n_body _ _ _ _ _ _ Hok) as Hb. unfold links_to in Hlk.
      destruct (body x); [|done]. subst. by apply (wf_data _ Hw n a d Ha), Hb.
  - intros d o Ho. pose proof (c_datas _ _ _ _ Hc d) as H. rewrite Ho in H. destruct (dvals A !! d); [|done]. destruct H as (_ & Hr & Hlv). rewrite <-(users_heap A s' d Hc). unfold drefs in *. lia.
  - intros Hh n [x Hx]. destruct (Hnode n x Hx) as (a & Ha & Hok). pose proof (n_live _ _ _ _ _ _ Hok) as Hlv. destruct (decide (n = root)) as [->|Hne]; [constructor|].
    unfold refs, linked in Hlv. rewrite Hh, multiplicity_singleton, decide_False in Hlv by done. destruct (dirof A !! n) as [p|] eqn:Ed; [|lia]. eapply reach_up; [done|]. by apply (t_reach _ _ Ht n).
Qed.
End clients.

(** ** Examples *)

(** Legality of operations, computed. *)
Fixpoint avoids (fuel : nat) (m : gmap nat nat) (r x : nat) : bool :=
  match fuel with
  | O => false
  | S fuel => negb (x =? r)%nat && match m !! x with None => true | Some p => avoids fuel m r p end
  end.
Lemma avoids_spec m r fuel : ∀ x, avoids fuel m r x = true → ¬ reach m r x.
Proof.
  induction fuel as [|fuel IH]; intros x; cbn [avoids]; [done|]. intros [Hx Hm]%andb_prop Hr. apply negb_true_iff, Nat.eqb_neq in Hx. destruct Hr as [|c p Hcp Hr]; [done|]. rewrite Hcp in Hm. by apply (IH p).
Qed.
Definition fresh {A} (m : gmap nat A) (o : option nat) : bool := match o with None => true | Some n => if m !! n is None then true else false end.
Lemma fresh_spec {A} (m : gmap nat A) o : fresh m o = true → ∀ n, o = Some n → m !! n = None.
Proof. intros H n ->. cbn in H. by destruct (m !! n). Qed.
Definition replaceableb (A : astate) (dir : nat) (m : list Z) : bool := match entry A dir m with None => true | Some o => (size (kids A o) =? 0)%nat end.
Lemma replaceableb_spec A dir m : replaceableb A dir m = true → replaceable A dir m.
Proof. intros H o Ho. unfold replaceableb in H. rewrite Ho in H. apply map_size_empty_iff. by apply Nat.eqb_eq. Qed.

Definition legalb (cfg : config) (root : nat) (o : op) (A : astate) : bool :=
  match o with
  | OLookup ref _ => bool_decide (ref ∈ held A)
  | OCreate alloc dalloc _ => fresh (attrs A) alloc && fresh (dvals A) dalloc
  | OLink alloc node dir nm => bool_decide (node ∈ held A) && bool_decide (dir ∈ held A) && fresh (attrs A) alloc && replaceableb A dir (vfs_name_mangle cfg nm)
  | OMove node dir nm =>
      bool_decide (node ∈ held A) && bool_decide (dir ∈ held A) && replaceableb (set_dirof (delete node) A) dir (vfs_name_mangle cfg nm) &&
      avoids (S (size (dirof A))) (dirof A) node dir && (negb (smp cfg) || bool_decide (dirof A !! node ≠ Some dir))
  | OUnlink dir nm => bool_decide (dir ∈ held A) && bool_decide (is_dir A dir) && (length nm <=? NAMELEN cfg)%nat
  | OStat node | ODup node => bool_decide (node ∈ held A)
  | ODrop node => bool_decide (node ∈ held A) && bool_decide (root ∈ held A ∖ {[+ node +]})
  | OOpen _ flags node => bool_decide (node ∈ held A) && negb (RamfsFile.flag flags VFS_OPEN_TRUNCATE)
  | OClose file =>
      bool_decide (f_node file ∈ held A) && bool_decide (root ∈ held A ∖ {[+ f_node file +]}) &&
      match f_priv file with PData d _ => negb (bool_decide (is_dir A (f_node file))) && bool_decide (d ∈ dheld A) | PIndex _ => bool_decide (is_dir A (f_node file)) end
  | OWrite ans d offset bs =>
      bool_decide (d ∈ dheld A) && is_ok (RamfsFile.ramfs_file_write (W cfg) ans (default RamfsFile.ramfs_data_new (dvals A !! d)) offset bs)
  end.
Ltac reflect :=
  repeat match goal with
  | H : _ && _ = true |- _ => apply andb_prop in H as [? ?]
  | H : bool_decide _ = true |- _ => apply bool_decide_eq_true in H
  | H : negb (bool_decide _) = true |- _ => apply negb_true_iff, bool_decide_eq_false in H
  end.
Lemma legalb_spec cfg root o A : legalb cfg root o A = true → legal cfg root o A.
Proof.
  destruct o as [| | | | | | | | |file|]; cbn [legalb legal]; intros H; reflect; split_and?; try assumption; eauto using fresh_spec, replaceableb_spec, avoids_spec.
  - match goal with H : _ || _ = true |- _ => apply orb_prop in H as [?%negb_true_iff|?%bool_decide_eq_true] end; auto.
  - by apply Nat.leb_le.
  - by apply negb_true_iff.
  - destruct (f_priv file); reflect; auto.
Qed.
Fixpoint legalb_ops (cfg : config) (root : nat) (ops : list op) (A : astate) : bool :=
  match ops with [] => true | o :: ops => legalb cfg root o A && legalb_ops cfg root ops (spec cfg o A).2 end.
Lemma legalb_ops_spec cfg root ops : ∀ A, legalb_ops cfg root ops A = true → legal_ops cfg root ops A.
Proof. induction ops as [|o ops IH]; intros A; cbn [legalb_ops legal_ops]; [done|]. intros [H1 H2]%andb_prop. auto using legalb_spec. Qed.

(** A directory a with a file b; the file gets a second name, is opened, moved to the
    root in place of the second name, and removed; the references and the file go last. *)
Definition demo_cfg : config := {| NAMELEN := 6; W := 32; big := false; smp := true |}.
Definition demo_file : vfs_file_s :=
  {| f_node := 2; f_priv := PData 0 {| RamfsFile.can_read := true; RamfsFile.can_write := true; RamfsFile.append := false; RamfsFile.offset := 0 |} |}.
Definition demo_ops : list op :=
  [OCreate (Some 1%nat) None VFS_NODE_DIR; OLink None 1 0 [97]; OCreate (Some 2%nat) (Some 0%nat) VFS_NODE_FILE; OLink None 2 1 [98]; OLink (Some 3%nat) 2 0 [99];
   OOpen true 3 2; OMove 2 0 [99]; OLookup 0 [99]; OUnlink 1 [98]; OStat 2; OUnlink 0 [97]; ODrop 1; ODrop 3; ODrop 2; ODrop 2; OUnlink 0 [99]; OClose demo_file].
Definition demo_s0 : ramfs := (ok_or (0, None, fs_empty) (ramfs_open true (Some 0%nat) fs_empty)).2.
Definition demo_end : list res * ramfs := ok_or ([], fs_empty) (run_ops demo_cfg demo_ops demo_s0).

Lemma ramfs_is_a_tree_witness :
  legal_ops demo_cfg 0 demo_ops (astart 0) ∧
  ∃ s0 s', ramfs_open true (Some 0%nat) fs_empty = Ok (0, Some 0%nat, s0) ∧ run_ops demo_cfg demo_ops s0 = Ok ((spec_ops demo_cfg demo_ops (astart 0)).1, s') ∧
    sim demo_cfg 0 (spec_ops demo_cfg demo_ops (astart 0)).2 s'.
Proof.
  assert (legal_ops demo_cfg 0 demo_ops (astart 0)) as H by (apply legalb_ops_spec; vm_compute; reflexivity). split; [exact H|]. exact (ramfs_is_a_tree demo_cfg 0 demo_ops H).
Defined.
Lemma ramfs_counts_exact_witness :
  (∃ x, nodes demo_end.2 !! 0%nat = Some x ∧ 0 < refcnt x) ∧ (∃ o, datas demo_end.2 !! 0%nat = Some o ∧ 0 < data_refcnt o).
Proof.
  assert (legal_ops demo_cfg 0 demo_ops (astart 0)) as H by (apply legalb_ops_spec; vm_compute; reflexivity).
  destruct (ramfs_counts_exact demo_cfg 0 demo_ops H) as (s0 & rs & s' & E0 & E & _ & Hn & _ & Hd & _).
  vm_compute in E0. injection E0 as <-. assert (s' = demo_end.2) as ->.
  { assert (run_ops demo_cfg demo_ops demo_s0 = Ok (demo_end.1, demo_end.2)) as E1 by (vm_compute; reflexivity). pose proof (eq_trans (eq_sym E) E1) as E2. injection E2 as _ E2. exact E2. }
  split.
  - eexists. assert (nodes demo_end.2 !! 0%nat = Some _) as Hx by (vm_compute; reflexivity). split; [exact Hx|]. exact (proj1 (proj2 (Hn _ _ Hx))).
  - eexists. assert (datas demo_end.2 !! 0%nat = Some _) as Hx by (vm_compute; reflexivity). split; [exact Hx|]. exact (proj1 (Hd _ _ Hx)).
Defined.
End RamfsTree.
