(* ===== verification/RamfsNames.v ===== *)
(** * Names and listings of the memory file system

    What a client sees of the tree: which names a lookup finds after each
    operation, and that reading a directory gives each of its entries once.  The
    last part shows what happens to clients that leave the rules the code relies on
    without checking them. *)

From stdpp Require Import gmap gmultiset.
From S2P Require Import Prelude FileOps RamfsFile Ramfs RamfsSpec RamfsTree.
Import FileOps Ramfs RamfsSpec RamfsTree.

Module RamfsNames.

Section names.
Context (cfg : config).

(** ** Entries of the reference semantics *)

(** The places stay, and nodes do not change. *)
Definition keeps (A A' : astate) : Prop :=
  dirof A' = dirof A ∧ ∀ n a a', attrs A !! n = Some a → attrs A' !! n = Some a' → a' = a.

Lemma keeps_entry A A' q m : wf A → wf A' → keeps A A' → entry A' q m = entry A q m.
Proof.
  intros Hw Hw' [Hd Ha]. assert (∀ c, dirof A !! c = Some q → attrs A' !! c = attrs A !! c) as E.
  { intros c Hc. destruct (wf_dirof _ Hw _ _ Hc) as [[a Hca] _]. rewrite <-Hd in Hc. destruct (wf_dirof _ Hw' _ _ Hc) as [[a' Hca'] _]. rewrite Hca, Hca'. f_equal. by eapply Ha. }
  unfold entry. enough (named A' q m = named A q m) as -> by done. unfold named, kids. rewrite Hd. apply map_filter_ext. intros c p [Hc Ep]%map_lookup_filter_Some. cbn in *. subst. by rewrite (E c Hc).
Qed.
Lemma keeps_dir A A' q : keeps A A' → is_Some (attrs A !! q) → is_Some (attrs A' !! q) → is_dir A' q ↔ is_dir A q.
Proof. intros [_ Ha] [a E] [a' E']. unfold is_dir. rewrite E, E'. by rewrite (Ha q a a' E E'). Qed.
Lemma keeps_attrs A A' : dirof A' = dirof A → attrs A' = attrs A → keeps A A'.
Proof. intros E1 E2. split; [done|]. intros n a a' H H'. rewrite E2 in H'. congruence. Qed.
Lemma keeps_release A B n : dirof B = dirof A → attrs B = attrs A → keeps A (release n B).
Proof.
  intros E1 E2. unfold release, collect. set (C := set_held _ B). destruct (_ =? _)%nat; [|by apply keeps_attrs].
  assert (keeps A (set_attrs (delete n) C)) as H.
  { split; [done|]. cbn [C set_attrs set_held attrs]. intros k a a' H [_ H']%lookup_delete_Some. congruence. }
  destruct (attrs C !! n ≫= a_data) as [d|]; [|done]. unfold dcollect. by destruct (_ =? _)%nat.
Qed.
Lemma keeps_born A r ty data f : attrs A !! r = None → keeps A (set_dvals f (born r ty data A)).
Proof. intros Hr. split; [done|]. cbn [set_dvals born hold set_held set_attrs attrs]. intros n a a' H. rewrite lookup_insert_ne by congruence. congruence. Qed.

(** The entries after a node took a name, from a state where it has no place. *)
Lemma replace_entry A dir m r q m' : wf A → wf (s_replace dir m r A) → dirof A !! r = None → is_Some (attrs A !! r) →
  entry (s_replace dir m r A) q m' = if decide (q = dir ∧ m' = m) then Some r else entry A q m'.
Proof.
  intros Hw Hw' Hr [ar Har]. set (B := s_replace dir m r A) in *. set (old := entry A dir m).
  assert (∀ o, old = Some o → o ≠ r ∧ dirof A !! o = Some dir ∧ a_name <$> attrs A !! o = Some m) as Hold.
  { intros o Ho. apply (entry_Some A dir m o Hw) in Ho as [? ?]. split; [congruence|done]. }
  assert (dirof B = <[r := dir]> (match old with Some o => delete o (dirof A) | None => dirof A end)) as EB.
  { unfold B, s_replace. rewrite (entry_rename A dir m m r Hr). fold old. destruct old as [o|]; cbn [collect_opt unplace_opt]; [|done]. unfold collect. destruct (_ =? _)%nat; [|done].
    match goal with |- context [match ?x with _ => _ end] => destruct x end; [|done]. unfold dcollect. by destruct (_ =? _)%nat. }
  assert (∀ c, is_Some (attrs B !! c) → a_name <$> attrs B !! c = if decide (c = r) then Some m else a_name <$> attrs A !! c) as Enm.
  { intros c [a Ha]. rewrite Ha. assert (a_name <$> attrs (place r dir (unplace_opt old (set_attrs (alter (with_name m) r) A))) !! c = Some (a_name a)) as E.
    { revert Ha. unfold B, s_replace. rewrite (entry_rename A dir m m r Hr). fold old. destruct old as [o|]; cbn [collect_opt unplace_opt]; [|by intros ->]. unfold collect. destruct (_ =? _)%nat; [|by intros ->].
      match goal with |- context [match ?x with _ => _ end] => destruct x end; [unfold dcollect; destruct (_ =? _)%nat|]; cbn [set_attrs set_dvals attrs]; intros [_ Ha]%lookup_delete_Some; by rewrite Ha. }
    cbn [fmap option_fmap option_map]. rewrite <-E. cbn [place set_dirof set_attrs attrs]. destruct (decide (c = r)) as [->|Hne].
    - rewrite lookup_alter_eq. destruct old as [o|]; cbn [unplace_opt unplace set_dirof set_attrs attrs]; [rewrite lookup_alter_ne by (by destruct (Hold o eq_refl))|]; by rewrite lookup_alter_eq, Har.
    - rewrite lookup_alter_ne by done. destruct old as [o|]; cbn [unplace_opt unplace set_dirof set_attrs attrs]; [|by rewrite lookup_alter_ne].
      destruct (decide (c = o)) as [->|]; [rewrite lookup_alter_eq, lookup_alter_ne by done; by destruct (attrs A !! o)|by rewrite !lookup_alter_ne]. }
  destruct (decide (q = dir ∧ m' = m)) as [[-> ->]|Hqm].
  - apply entry_Some; [done|]. assert (dirof B !! r = Some dir) as Hd by (by rewrite EB, lookup_insert_eq). split; [done|]. rewrite Enm; [by rewrite decide_True|]. by destruct (wf_dirof _ Hw' _ _ Hd).
  - apply option_eq. intros c. rewrite (entry_Some B q m' c Hw'), (entry_Some A q m' c Hw), EB, lookup_insert_Some. split.
    + intros [Hd Hn]. rewrite Enm in Hn by (destruct (attrs B !! c); done). destruct (decide (c = r)) as [->|Hne]; [naive_solver|]. destruct Hd as [[? _]|[_ Hd]]; [congruence|].
      destruct old as [o|]; [by apply lookup_delete_Some in Hd as [_ ?]|done].
    + intros [Hd Hn]. assert (c ≠ r) as Hne by congruence. assert (old ≠ Some c) as Hno. { intros Ho. destruct (Hold c Ho) as (_ & Hd' & Hn'). apply Hqm. split; congruence. }
      assert (match old with Some o => delete o (dirof A) | None => dirof A end !! c = Some q) as Hd' by (destruct old; [rewrite lookup_delete_ne by congruence|]; done).
      split; [by right|]. rewrite Enm; [by rewrite decide_False|]. assert (dirof B !! c = Some q) as HB by (by rewrite EB, lookup_insert_ne). by destruct (wf_dirof _ Hw' _ _ HB).
Qed.
Lemma collect_lookup n A c a : attrs (collect n A) !! c = Some a → attrs A !! c = Some a.
Proof.
  unfold collect. destruct (_ =? _)%nat; [|done]. destruct (attrs A !! n ≫= a_data); [unfold dcollect; destruct (_ =? _)%nat|]; cbn [set_attrs set_dvals attrs]; by intros [_ ?]%lookup_delete_Some.
Qed.
Lemma collect_dirof n A : dirof (collect n A) = dirof A.
Proof. unfold collect. destruct (_ =? _)%nat; [|done]. destruct (attrs A !! n ≫= a_data); [unfold dcollect; by destruct (_ =? _)%nat|done]. Qed.
Lemma alter_type g n (m : gmap nat attr) c a : (∀ a, a_type (g a) = a_type a) → alter g n m !! c = Some a → a_type <$> m !! c = Some (a_type a).
Proof.
  intros Hg. destruct (decide (c = n)) as [->|]; [|rewrite lookup_alter_ne by done; by intros ->]. rewrite lookup_alter_eq. intros (a0 & -> & ->)%fmap_Some. cbn. by rewrite Hg.
Qed.
Lemma replace_type A dir m r c a : attrs (s_replace dir m r A) !! c = Some a → a_type <$> attrs A !! c = Some (a_type a).
Proof.
  unfold s_replace. set (A1 := set_attrs _ A). intros Ha. assert (attrs (place r dir (unplace_opt (entry A1 dir m) A1)) !! c = Some a) as Ha1 by (destruct (entry A1 dir m); [by eapply collect_lookup|done]).
  apply (alter_type (with_parent (Some dir)) r (attrs (unplace_opt (entry A1 dir m) A1))) in Ha1; [|done]. destruct (attrs (unplace_opt (entry A1 dir m) A1) !! c) as [a1|] eqn:E1; [|done]. cbn in Ha1. injection Ha1 as <-.
  assert (a_type <$> attrs A1 !! c = Some (a_type a1)) as E2. { destruct (entry A1 dir m); [by eapply (alter_type (with_parent None) n (attrs A1))|cbn [unplace_opt] in E1; by rewrite E1]. }
  destruct (attrs A1 !! c) as [a2|] eqn:E3; [|done]. cbn in E2. injection E2 as <-. by eapply (alter_type (with_name m) r (attrs A)).
Qed.
Lemma unlinked_entry A node q m : wf A → entry (set_dirof (delete node) A) q m = if decide (entry A q m = Some node) then None else entry A q m.
Proof.
  intros Hw. pose proof (wf_unlinked node A Hw) as Hw'. apply option_eq. intros c. rewrite (entry_Some _ q m c Hw'). cbn [set_dirof dirof attrs]. rewrite lookup_delete_Some. destruct (decide (entry A q m = Some node)) as [E|E].
  - split; [|done]. intros [[Hne Hd] Hn]. assert (entry A q m = Some c) as H by (by apply entry_Some). congruence.
  - rewrite (entry_Some A q m c Hw). split; [tauto|]. intros H. split; [|tauto]. split; [|tauto]. intros ->. apply E. by apply entry_Some.
Qed.
Lemma unplace_entry A c dir m q m' : wf A → wf (collect c (unplace c A)) → entry A dir m = Some c → entry (collect c (unplace c A)) q m' = if decide (q = dir ∧ m' = m) then None else entry A q m'.
Proof.
  intros Hw Hw' Hc. pose proof Hc as Hc'. apply (entry_Some A dir m c Hw) in Hc' as [Hd Hn]. assert (∀ y, y ≠ c → is_Some (attrs (collect c (unplace c A)) !! y) → a_name <$> attrs (collect c (unplace c A)) !! y = a_name <$> attrs A !! y) as Hnm.
  { intros y Hy [a Ha]. rewrite Ha. apply collect_lookup in Ha. cbn [unplace set_dirof set_attrs attrs] in Ha. rewrite lookup_alter_ne in Ha by done. by rewrite Ha. }
  apply option_eq. intros y. rewrite (entry_Some _ q m' y Hw'), collect_dirof. cbn [unplace set_dirof set_attrs dirof]. rewrite lookup_delete_Some. destruct (decide (q = dir ∧ m' = m)) as [[-> ->]|Hne].
  - split; [|done]. intros [[Hy Hyd] Hyn]. rewrite Hnm in Hyn; [|done|by destruct (attrs _ !! y)]. assert (entry A dir m = Some y) by (by apply entry_Some). congruence.
  - rewrite (entry_Some A q m' y Hw). split.
    + intros [[Hy Hyd] Hyn]. rewrite Hnm in Hyn; [done|done|by destruct (attrs _ !! y)].
    + intros [Hyd Hyn]. assert (c ≠ y) as Hy by (intros <-; apply Hne; split; congruence). split; [done|]. rewrite Hnm; [done|done|].
      assert (dirof (collect c (unplace c A)) !! y = Some q) as HB by (rewrite collect_dirof; cbn [unplace set_dirof set_attrs dirof]; by rewrite lookup_delete_ne). by destruct (wf_dirof _ Hw' _ _ HB).
Qed.

(** ** What a client finds *)

Definition finds (s : ramfs) (q : nat) (nm : list Z) : option (Z * option nat) :=
  match ramfs_lookup cfg q nm s with Ok (e, r, _) => Some (e, fst <$> r) | Err _ => None end.
Definition found (A : astate) (q : nat) (nm : list Z) : Z * option nat :=
  if decide (is_dir A q) then match entry A q (vfs_name_mangle cfg nm) with Some c => (0, Some c) | None => (- ENOENT, None) end else (- EINVAL, None).
Lemma finds_spec root A s q nm : sim cfg root A s → q ∈ held A → finds s q nm = Some (found A q nm).
Proof.
  intros [Hc _] Hq. unfold finds, found. destruct (lookup_op_spec cfg A s q nm Hc (wf_held _ (c_wf _ _ _ _ Hc) _ Hq)) as (s' & -> & _). unfold s_lookup.
  destruct (decide (is_dir A q)); [|done]. by destruct (entry A q _).
Qed.
Lemma keeps_found A A' q nm : wf A → wf A' → keeps A A' → q ∈ held A → q ∈ held A' → found A' q nm = found A q nm.
Proof.
  intros Hw Hw' Hk Hq Hq'. unfold found. rewrite (keeps_entry A A') by done. pose proof (keeps_dir A A' q Hk (wf_held _ Hw _ Hq) (wf_held _ Hw' _ Hq')).
  destruct (decide (is_dir A' q)), (decide (is_dir A q)); naive_solver.
Qed.
Lemma types_found A A' q nm e : is_Some (attrs A !! q) → is_Some (attrs A' !! q) → (∀ a, attrs A' !! q = Some a → a_type <$> attrs A !! q = Some (a_type a)) →
  entry A' q (vfs_name_mangle cfg nm) = e → found A' q nm = if decide (is_dir A q) then match e with Some c => (0, Some c) | None => (- ENOENT, None) end else (- EINVAL, None).
Proof.
  intros [a Ha] [a' Ha'] Ht <-. specialize (Ht a' Ha'). rewrite Ha in Ht. unfold found. assert (is_dir A' q ↔ is_dir A q) as Hd by (unfold is_dir; rewrite Ha, Ha'; by rewrite Ht).
  destruct (decide (is_dir A' q)), (decide (is_dir A q)); tauto || naive_solver.
Qed.

Lemma replaced_found A B dir nm r q nm' : wf A → wf (s_replace dir (vfs_name_mangle cfg nm) r B) → wf B → dirof B !! r = None → is_Some (attrs B !! r) → is_dir A dir →
  (∀ m, entry B q m = entry A q m) → (∀ a, attrs B !! q = Some a → a_type <$> attrs A !! q = Some (a_type a)) →
  is_Some (attrs A !! q) → is_Some (attrs (s_replace dir (vfs_name_mangle cfg nm) r B) !! q) →
  Some (found (s_replace dir (vfs_name_mangle cfg nm) r B) q nm') =
    if decide (q = dir ∧ vfs_name_mangle cfg nm' = vfs_name_mangle cfg nm) then Some (0, Some r) else Some (found A q nm').
Proof.
  intros Hw Hw' HwB Hr Hsr Hdir He Hty Hq Hq'. set (m := vfs_name_mangle cfg nm) in *.
  rewrite (types_found A (s_replace dir m r B) q nm' _ Hq Hq' ltac:(intros a Ha; apply replace_type in Ha; destruct (attrs B !! q) as [b|]; [|done]; cbn in Ha; injection Ha as <-; by apply Hty) (replace_entry B dir m r q (vfs_name_mangle cfg nm') HwB Hw' Hr Hsr)).
  destruct (decide (q = dir ∧ vfs_name_mangle cfg nm' = m)) as [[-> Em]|Hne]; [by rewrite decide_True|]. unfold found. by rewrite He.
Qed.

Lemma link_names root A s alloc node dir nm q nm' : sim cfg root A s → legal cfg root (OLink alloc node dir nm) A → q ∈ held A → q ∈ held (spec cfg (OLink alloc node dir nm) A).2 →
  wf (spec cfg (OLink alloc node dir nm) A).2 →
  Some (found (spec cfg (OLink alloc node dir nm) A).2 q nm') =
    match (spec cfg (OLink alloc node dir nm) A).1 with
    | RName 0 (Some (n, _)) => if decide (q = dir ∧ vfs_name_mangle cfg nm' = vfs_name_mangle cfg nm) then Some (0, Some n) else Some (found A q nm')
    | _ => Some (found A q nm')
    end.
Proof.
  intros [Hc Ht] (Hn & Hd & Hal & Hrep) Hq Hq' Hw'. pose proof (c_wf _ _ _ _ Hc) as Hw. destruct (wf_held _ Hw _ Hn) as [a Ha]. cbn [spec] in *. unfold s_link in *.
  destruct (_ <=? _)%nat; [done|]. destruct (decide (¬ is_dir A dir)) as [|Hdir]; [done|]. assert (is_dir A dir) as Hd' by (destruct (decide (is_dir A dir)); [done|by destruct Hdir]). clear Hdir.
  destruct (attached A dir); [|done]. cbn [negb] in *. destruct (attached A node) eqn:Ean.
  - destruct (decide _); [done|]. destruct alloc as [r|]; [|done]. specialize (Hal r eq_refl). cbn [fst snd] in *. destruct (fresh_unlinked A r Hw Hal) as (Hdr & Hhr & _).
    apply replaced_found; try done.
    + apply wf_born; [done|done|]. rewrite Ha. cbn. intros d Hda. by eapply (wf_data _ Hw).
    + cbn [born hold set_held set_attrs attrs]. rewrite lookup_insert_eq. eauto.
    + intros m. by apply entry_born.
    + cbn [born hold set_held set_attrs attrs]. intros aq. rewrite lookup_insert_ne by (by intros ->). by intros ->.
    + by apply (wf_held _ Hw).
    + by apply (wf_held _ Hw').
  - destruct (detached root A node a Ht Ha Ean) as [Hdn Hnr]. cbn [fst snd] in *. apply replaced_found; try done; [by apply wf_hold|cbn [hold set_held attrs]; by intros aq ->|by apply (wf_held _ Hw)|by apply (wf_held _ Hw')].
Qed.
Lemma move_names root A s node dir nm q nm' : sim cfg root A s → legal cfg root (OMove node dir nm) A → q ∈ held A → q ∈ held (spec cfg (OMove node dir nm) A).2 →
  wf (spec cfg (OMove node dir nm) A).2 →
  Some (found (spec cfg (OMove node dir nm) A).2 q nm') =
    match (spec cfg (OMove node dir nm) A).1 with
    | RCode 0 => if decide (q = dir ∧ vfs_name_mangle cfg nm' = vfs_name_mangle cfg nm) then Some (0, Some node) else
                 if decide (Some (found A q nm') = Some (0, Some node)) then Some (- ENOENT, None) else Some (found A q nm')
    | _ => Some (found A q nm')
    end.
Proof.
  intros [Hc Ht] (Hn & Hd & Hrep & Hun & _) Hq Hq' Hw'. pose proof (c_wf _ _ _ _ Hc) as Hw. destruct (wf_held _ Hw _ Hn) as [a Ha]. cbn [spec] in *. unfold s_move in *.
  destruct (_ <=? _)%nat; [done|]. destruct (decide (¬ is_dir A dir)) as [|Hdir]; [done|]. assert (is_dir A dir) as Hd' by (destruct (decide (is_dir A dir)); [done|by destruct Hdir]). clear Hdir.
  rewrite Ha in *. cbn [option_bind mbind] in *. destruct (a_parent a) as [p|]; [|done]. destruct (p =? node)%nat; [done|]. destruct (attached A dir); [|done]. cbn [negb fst snd] in *.
  set (m := vfs_name_mangle cfg nm) in *. set (B := set_dirof (delete node) A) in *. pose proof (wf_unlinked node A Hw) as HwB.
  rewrite (types_found A (s_replace dir m node B) q nm' _ (wf_held _ Hw _ Hq) (wf_held _ Hw' _ Hq') ltac:(intros aq Haq; by apply replace_type in Haq)
    (replace_entry B dir m node q (vfs_name_mangle cfg nm') HwB Hw' (lookup_delete_eq _ _) ltac:(by eexists))).
  destruct (decide (q = dir ∧ vfs_name_mangle cfg nm' = m)) as [[-> Em]|Hne]; [by rewrite decide_True|]. unfold B. rewrite unlinked_entry by done. unfold found.
  destruct (decide (is_dir A q)); [|by rewrite decide_False]. destruct (entry A q (vfs_name_mangle cfg nm')) as [c|]; [|by rewrite !decide_False].
  destruct (decide (Some c = Some node)) as [E|E]; [injection E as ->; by rewrite decide_True|rewrite decide_False; [done|congruence]].
Qed.
Lemma unlink_names A dir nm q nm' : wf A → q ∈ held A → q ∈ held (spec cfg (OUnlink dir nm) A).2 → is_dir A dir → wf (spec cfg (OUnlink dir nm) A).2 →
  Some (found (spec cfg (OUnlink dir nm) A).2 q nm') =
    match (spec cfg (OUnlink dir nm) A).1 with
    | RCode 0 => if decide (q = dir ∧ vfs_name_mangle cfg nm' = vfs_name_mangle cfg nm) then Some (- ENOENT, None) else Some (found A q nm')
    | _ => Some (found A q nm')
    end.
Proof.
  intros Hw Hq Hq' Hd Hw'. cbn [spec] in *. unfold s_unlink in *. destruct (entry A dir (vfs_name_mangle cfg nm)) as [c|] eqn:Ee; [|done]. destruct (decide (kids A c = ∅)); [|done]. cbn [fst snd] in *.
  rewrite (types_found A (collect c (unplace c A)) q nm' _ (wf_held _ Hw _ Hq) (wf_held _ Hw' _ Hq')
    ltac:(intros aq Haq; apply collect_lookup in Haq; by apply (alter_type (with_parent None) c (attrs A)) in Haq) (unplace_entry A c dir (vfs_name_mangle cfg nm) q (vfs_name_mangle cfg nm') Hw Hw' Ee)).
  destruct (decide (q = dir ∧ vfs_name_mangle cfg nm' = vfs_name_mangle cfg nm)) as [[-> Em]|Hne]; [by rewrite decide_True|done].
Qed.

(** C14. Names change in three ways only: a link makes its name find the linked node, a move
    makes the new name find the node and the former one nothing, an unlink makes its
    name find nothing.  Every other name of every directory, and every name after any
    other operation or a failed one, finds what it found before. *)
Theorem ramfs_names root A s o r s' q nm' :
  sim cfg root A s → legal cfg root o A → run cfg o s = Ok (r, s') → q ∈ held A → q ∈ held (spec cfg o A).2 →
  finds s' q nm' =
    match o, r with
    | OLink _ _ dir nm, RName 0 (Some (n, _)) =>
        if decide (q = dir ∧ vfs_name_mangle cfg nm' = vfs_name_mangle cfg nm) then Some (0, Some n) else finds s q nm'
    | OMove node dir nm, RCode 0 =>
        if decide (q = dir ∧ vfs_name_mangle cfg nm' = vfs_name_mangle cfg nm) then Some (0, Some node) else
        if decide (finds s q nm' = Some (0, Some node)) then Some (- ENOENT, None) else finds s q nm'
    | OUnlink dir nm, RCode 0 =>
        if decide (q = dir ∧ vfs_name_mangle cfg nm' = vfs_name_mangle cfg nm) then Some (- ENOENT, None) else finds s q nm'
    | _, _ => finds s q nm'
    end.
Proof.
  intros Hs Hl Hr Hq Hq'. destruct (step_spec cfg root o A s Hs Hl) as (s2 & E2 & Hs2). rewrite Hr in E2. injection E2 as -> <-.
  rewrite (finds_spec root _ s' q nm' Hs2 Hq'), (finds_spec root A s q nm' Hs Hq). pose proof Hs as [Hc Ht]. pose proof (c_wf _ _ _ _ Hc) as Hw. pose proof Hs2 as [Hc2 Ht2]. pose proof (c_wf _ _ _ _ Hc2) as Hw2.
  assert (keeps A (spec cfg o A).2 → Some (found (spec cfg o A).2 q nm') = Some (found A q nm')) as Hkeep by (intros Hk; f_equal; by apply keeps_found).
  destruct o as [ref nm|alloc dalloc ty|alloc node dir nm|node dir nm|dir nm|node|node|node|alloc flags node|file|ans d off bs].
  - assert (keeps A (s_lookup cfg ref nm A).2) as Hk by (unfold s_lookup; destruct (decide _); [destruct (entry A ref _)|]; by apply keeps_attrs).
    cbn [spec] in *. destruct (s_lookup cfg ref nm A) as [[e x] A']. auto.
  - assert (keeps A (s_create alloc dalloc ty A).2) as Hk.
    { destruct Hl as [Hl1 _]. unfold s_create. destruct alloc as [n|]; [|destruct ty; by apply keeps_attrs]. specialize (Hl1 n eq_refl). destruct ty; [by apply (keeps_born A n VFS_NODE_DIR None (λ x, x))|].
      destruct dalloc; [by apply keeps_born|by apply keeps_attrs]. }
    cbn [spec] in *. destruct (s_create alloc dalloc ty A) as [[e x] A']. auto.
  - by apply (link_names root A s).
  - by apply (move_names root A s).
  - destruct Hl as (_ & Hd & _). by apply unlink_names.
  - by apply Hkeep, keeps_attrs.
  - by apply Hkeep, keeps_attrs.
  - by apply Hkeep, keeps_release.
  - cbn [spec] in *. unfold s_open in *. destruct alloc; cbn [negb] in *; [destruct (_ ≫= _)|]; by apply Hkeep, keeps_attrs.
  - cbn [spec] in *. apply Hkeep. unfold s_close. cbn [snd]. destruct (f_priv file) as [d f|i]; [|by apply keeps_release]. destruct (dcollect_ok d (set_dheld (λ h, h ∖ {[+ d +]}) A)) as (E1 & E2 & _). by apply keeps_release.
  - cbn [spec] in *. unfold s_write in *. destruct (RamfsFile.ramfs_file_write _ _ _ _ _) as [[[? ?] ?]|]; by apply Hkeep, keeps_attrs.
Qed.

(** ** Listings *)

(** The lists of a directory, in the order in which they are walked. *)
Definition chains (s : ramfs) (n : nat) : option (list (list nat)) :=
  x ← nodes s !! n; match body x with Children b _ => Some b | Data _ => None end.

Lemma put_chains c x y s n : nodes s !! c = Some y → (body x = body y ∨ ∃ b l l', body x = Children b l ∧ body y = Children b l') → chains (put c x s) n = chains s n.
Proof.
  intros Hy Hb. unfold chains, put. cbn [nodes]. destruct (decide (n = c)) as [->|]; [|by rewrite lookup_insert_ne]. rewrite lookup_insert_eq, Hy. cbn.
  destruct Hb as [->|(b & l & l' & -> & ->)]; done.
Qed.
Lemma refnew_chains c s s' n : ramfs_node_refnew c s = Ok s' → chains s' n = chains s n.
Proof.
  unfold ramfs_node_refnew, get. destruct (nodes s !! c) as [x|] eqn:E; [|done]. cbn [of_option mbind outcome_bind]. destruct (require _ _); [|done]. cbn [mbind outcome_bind]. intros [= <-]. eapply put_chains; [done|by left].
Qed.
Lemma wrlock_chains c s s' n : ramfs_dir_wrlock cfg c s = Ok s' → chains s' n = chains s n.
Proof.
  unfold ramfs_dir_wrlock, get_children, modify, get. destruct (nodes s !! c) as [x|] eqn:E; [|done]. cbn [of_option mbind outcome_bind]. destruct (body x) as [|b l] eqn:Eb; [done|]. cbn [mbind outcome_bind].
  destruct (smp cfg); [|by intros [= <-]]. destruct (require _ _); [|done]. cbn [mbind outcome_bind]. intros [= <-]. eapply put_chains; [done|right]. cbn. eauto.
Qed.
Lemma unlock_chains c s s' n : ramfs_dir_unlock cfg c s = Ok s' → chains s' n = chains s n.
Proof.
  unfold ramfs_dir_unlock, get_children, modify, get. destruct (nodes s !! c) as [x|] eqn:E; [|done]. cbn [of_option mbind outcome_bind]. destruct (body x) as [|b l] eqn:Eb; [done|]. cbn [mbind outcome_bind].
  destruct (smp cfg); [|by intros [= <-]]. intros [= <-]. eapply put_chains; [done|right]. cbn. eauto.
Qed.
Lemma count_chains c s v s' n : ramfs_dir_count cfg c s = Ok (v, s') → chains s' n = chains s n.
Proof.
  unfold ramfs_dir_count. destruct (ramfs_dir_wrlock cfg c s) as [s1|] eqn:E1; [|done]. cbn [mbind outcome_bind]. destruct (ramfs_dir_nolock_count c s1); [|done]. cbn [mbind outcome_bind].
  destruct (ramfs_dir_unlock cfg c s1) as [s2|] eqn:E2; [|done]. intros [= _ <-]. by rewrite (unlock_chains _ _ _ _ E2), (wrlock_chains _ _ _ _ E1).
Qed.
Lemma refdrop_chains L A c s s' n : core cfg L A s → is_Some (attrs A !! c) → (1 < refs A c)%nat → ramfs_node_refdrop cfg c s = Ok s' → chains s' n = chains s n.
Proof.
  intros Hc [a Ha] Hr. destruct (getnode_spec cfg _ _ _ _ _ Hc Ha) as (x & E & Hnx & Hx). unfold ramfs_node_refdrop. cbn [refdrop_loop]. rewrite E. cbn [mbind outcome_bind]. rewrite (n_refcnt _ _ _ _ _ _ Hx).
  destruct (require _ _); [|done]. cbn [mbind outcome_bind]. destruct (Z.eqb_spec (Z.of_nat (refs A c) - 1) 0); [lia|]. cbn [negb]. intros [= <-]. eapply put_chains; [done|by left].
Qed.

(** Dropping a reference to a child that was just taken. *)
Lemma drop_child L A c p s n : core cfg L (hold c A) s → dirof A !! c = Some p → ∃ s', ramfs_node_refdrop cfg c s = Ok s' ∧ core cfg L A s' ∧ chains s' n = chains s n.
Proof.
  intros Hc Hd. assert (1 < refs (hold c A) c)%nat as Hr by (rewrite refs_hold, decide_True by done; unfold refs, linked; rewrite Hd; lia).
  assert (c ∈ held (hold c A)) as Hh by (cbn [hold set_held held]; multiset_solver). destruct (node_refdrop_spec cfg L _ s c Hc Hh (or_introl Hr)) as (s' & E & Hc').
  exists s'. split; [done|]. rewrite release_hold, collect_live in Hc' by (unfold refs, linked; rewrite Hd; lia). split; [done|]. eapply refdrop_chains; [done| |done|done]. by apply (wf_held _ (c_wf _ _ _ _ Hc)).
Qed.

Lemma chain_next_spec (l : list nat) j e : NoDup l → l !! j = Some e → chain_next e l = l !! S j.
Proof.
  revert j. induction l as [|x l IH]; intros j Hnd Hj; [done|]. apply NoDup_cons in Hnd as [Hx Hnd]. cbn [chain_next]. destruct j as [|j]; cbn in Hj.
  - injection Hj as ->. rewrite Nat.eqb_refl. cbn. by destruct l.
  - destruct (Nat.eqb_spec x e) as [->|]; [destruct Hx; by eapply list_elem_of_lookup_2|]. rewrite (IH j Hnd Hj). done.
Qed.
Lemma find_chain (b : list (list nat)) h ch e : NoDup (concat b) → b !! h = Some ch → e ∈ ch → find (λ l, bool_decide (e ∈ l)) b = Some ch.
Proof.
  revert h. induction b as [|c b IH]; intros h Hnd Hh He; [done|]. cbn [find concat] in *. apply NoDup_app in Hnd as (_ & Hdis & Hnd). destruct h as [|h]; cbn in Hh.
  - injection Hh as ->. by rewrite bool_decide_true.
  - rewrite bool_decide_false; [by apply (IH h)|]. intros Hec. apply (Hdis e Hec). apply list_elem_of_In, in_concat. exists ch. rewrite <-!list_elem_of_In. split; [by eapply list_elem_of_lookup_2|done].
Qed.
Lemma concat_split (b : list (list nat)) h ch : b !! h = Some ch → concat b = concat (take h b) ++ ch ++ concat (drop (S h) b).
Proof. intros Hh. rewrite <-(take_drop_middle b h ch Hh) at 1. by rewrite concat_app. Qed.

(** The step of the walk goes to the next item of the directory. *)
Lemma next_item A n b i e a : wf A → chains_ok cfg A n b → concat b !! i = Some e → attrs A !! e = Some a →
  match chain_next e (default [] (find (λ l, bool_decide (e ∈ l)) b)) with Some x => Some x | None => head (concat (drop (S (hash_index cfg (a_name a))) b)) end = concat b !! S i.
Proof.
  intros Hw Hb Hi Ha. pose proof (concat_nodup cfg A n b Hb) as Hnd. assert (e ∈ concat b) as He by (by eapply list_elem_of_lookup_2).
  assert (dirof A !! e = Some n) as Hd by (by eapply (chains_elem cfg A n b e Hb Hw)). destruct Hb as [Hl Hb]. set (h := hash_index cfg (a_name a)).
  assert (h < length b)%nat as Hh. { rewrite Hl. unfold h, hash_index, hashsize. pose proof (Z.mod_pos_bound (gpct_rawdata_hash cfg (a_name a)) 5). lia. }
  destruct (lookup_lt_is_Some_2 b h Hh) as [ch Hch]. destruct (Hb h ch Hch) as [Hnc Hin]. assert (e ∈ ch) as Hec by (apply Hin; eauto). rewrite (find_chain b h ch e Hnd Hch Hec). cbn [default from_option id].
  apply list_elem_of_lookup in Hec as [j Hj]. rewrite (chain_next_spec ch j e Hnc Hj).
  assert (i = length (concat (take h b)) + j)%nat as ->.
  { eapply (NoDup_lookup _ _ _ _ Hnd Hi). rewrite (concat_split b h ch Hch). rewrite lookup_app_r by lia. replace (_ + j - _)%nat with j by lia. by apply lookup_app_l_Some. }
  rewrite (concat_split b h ch Hch). rewrite lookup_app_r by lia. replace (S (_ + j) - _)%nat with (S j) by lia. destruct (ch !! S j) as [x|] eqn:Ex; [symmetry; by apply lookup_app_l_Some|].
  apply lookup_ge_None in Ex. apply lookup_lt_Some in Hj. rewrite lookup_app_r by lia. replace (S j - length ch)%nat with 0%nat by lia. symmetry. by destruct (concat (drop (S h) b)).
Qed.

Lemma chains_spec L A s n b : core cfg L A s → is_dir A n → chains s n = Some b → chains_ok cfg A n b ∧ ∃ l, get_children n s = Ok (b, l).
Proof.
  intros Hc Hd Hb. destruct (children_spec cfg L A s n Hc Hd) as (a & x & b' & _ & _ & Hnx & _ & Eb & Hok & Eg). unfold chains in Hb. rewrite Hnx in Hb. cbn in Hb. rewrite Eb in Hb. injection Hb as <-. eauto.
Qed.
Lemma refnew_opt_spec L A s o n : core cfg L A s → (∀ c, o = Some c → is_Some (attrs A !! c)) → ∃ s', refnew_opt o s = Ok (o, s') ∧ core cfg L (hold_opt o A) s' ∧ chains s' n = chains s n.
Proof.
  intros Hc Ho. destruct o as [c|]; [|by exists s]. cbn [refnew_opt hold_opt]. destruct (node_refnew_spec cfg L A s c Hc (Ho c eq_refl)) as (s' & E & Hc'). rewrite E. cbn [mbind outcome_bind]. exists s'. split; [done|]. split; [done|]. by eapply refnew_chains.
Qed.
Lemma hold_comm o e A : hold_opt o (hold e A) = hold e (hold_opt o A).
Proof. destruct o; [|done]. apply astate_eq; try done. cbn [hold_opt hold set_held held]. multiset_solver. Qed.
Lemma item_alive A n b i e : wf A → chains_ok cfg A n b → concat b !! i = Some e → dirof A !! e = Some n ∧ is_Some (attrs A !! e).
Proof. intros Hw Hb Hi. assert (dirof A !! e = Some n) as Hd by (apply (chains_elem cfg A n b e Hb Hw); by eapply list_elem_of_lookup_2). split; [done|]. by destruct (wf_dirof _ Hw _ _ Hd). Qed.

Lemma nth_loop_spec L A n b k : ∀ i s, wf A → is_dir A n → core cfg L (hold_opt (concat b !! i) A) s → chains s n = Some b →
  ∃ s', nth_loop cfg n k (concat b !! i) s = Ok (concat b !! (i + k)%nat, s') ∧ core cfg L (hold_opt (concat b !! (i + k)%nat) A) s' ∧ chains s' n = Some b.
Proof.
  induction k as [|k IH]; intros i s Hw Hd Hc Hb; [rewrite Nat.add_0_r; by exists s|]. destruct (concat b !! i) as [e|] eqn:Ei; cbn [nth_loop].
  2:{ exists s. assert (concat b !! (i + S k)%nat = None) as -> by (apply lookup_ge_None; apply lookup_ge_None in Ei; lia). done. }
  cbn [hold_opt] in Hc. destruct (chains_spec L (hold e A) s n b Hc Hd Hb) as [Hok [l Eg]]. destruct (item_alive A n b i e Hw Hok Ei) as [Hed [a Ha]].
  unfold ramfs_dir_nolock_next. rewrite Eg. cbn [mbind outcome_bind]. destruct (getnode_spec cfg _ _ _ _ _ Hc Ha) as (x & -> & _ & Hx). cbn [mbind outcome_bind]. rewrite (n_name _ _ _ _ _ _ Hx).
  pose proof (next_item A n b i e a Hw Hok Ei Ha) as En. rewrite En. destruct (refnew_opt_spec L (hold e A) s (concat b !! S i) n Hc) as (s1 & -> & Hc1 & Hb1).
  { intros c Hci. by destruct (item_alive A n b (S i) c Hw Hok Hci). }
  cbn [mbind outcome_bind]. rewrite hold_comm in Hc1. assert (dirof (hold_opt (concat b !! S i) A) !! e = Some n) as Hed' by (by destruct (concat b !! S i)).
  destruct (drop_child L _ e n s1 n Hc1 Hed') as (s2 & -> & Hc2 & Hb2). cbn [mbind outcome_bind]. destruct (IH (S i) s2 Hw Hd Hc2) as (s3 & E3 & Hc3 & Hb3); [congruence|].
  replace (i + S k)%nat with (S i + k)%nat by lia. by exists s3.
Qed.

Definition dirent (A : astate) (c : nat) : vfs_dirent_s :=
  {| d_name := default [] (a_name <$> attrs A !! c); d_type := default VFS_NODE_DIR (a_type <$> attrs A !! c); d_size := (s_stat c A).1.2 |}.

Lemma get_nth_spec A s n b k : core cfg ∅ A s → is_dir A n → dirof A !! n ≠ Some n → chains s n = Some b →
  ∃ s', ramfs_dir_get_nth cfg n k s = Ok (dirent A <$> concat b !! k, s') ∧ core cfg ∅ A s' ∧ chains s' n = Some b.
Proof.
  intros Hc Hd Hself Hb. pose proof (c_wf _ _ _ _ Hc) as Hw. unfold ramfs_dir_get_nth. destruct (wrlock_spec cfg ∅ A s n Hc Hd) as (s1 & E1 & Hc1); [set_solver|]. rewrite E1. cbn [mbind outcome_bind].
  pose proof (wrlock_chains _ _ _ n E1) as Hb1. rewrite Hb in Hb1. destruct (chains_spec _ A s1 n b Hc1 Hd Hb1) as [Hok [l Eg]]. unfold ramfs_dir_nolock_head. rewrite Eg. cbn [mbind outcome_bind].
  replace (head (concat b)) with (concat b !! 0%nat) by (by destruct (concat b)). destruct (refnew_opt_spec _ A s1 (concat b !! 0%nat) n Hc1) as (s2 & -> & Hc2 & Hb2).
  { intros c Hc0. by destruct (item_alive A n b 0 c Hw Hok Hc0). }
  cbn [mbind outcome_bind]. destruct (nth_loop_spec _ A n b k 0 s2 Hw Hd Hc2) as (s3 & -> & Hc3 & Hb3); [congruence|]. cbn [mbind outcome_bind Nat.add] in *.
  assert (({[n]} ∪ ∅) ∖ {[n]} = (∅ : gset nat)) as EL by set_solver. destruct (concat b !! k) as [e|] eqn:Ek; cbn [hold_opt] in Hc3.
  - destruct (item_alive A n b k e Hw Hok Ek) as [Hed [a Ha]]. assert (e ≠ n) as Hen by congruence. destruct (getnode_spec cfg _ _ _ _ _ Hc3 Ha) as (x & -> & _ & Hx). cbn [mbind outcome_bind]. rewrite (n_type _ _ _ _ _ _ Hx).
    assert (∃ s4, (if bool_decide (a_type a = VFS_NODE_FILE) then d ← get_data e s3; o ← of_option FCorrupt (datas s3 !! d); Ok (RamfsFile.actual_size (data_val o), s3) else ramfs_dir_count cfg e s3) = Ok ((s_stat e A).1.2, s4) ∧
      core cfg ({[n]} ∪ ∅) (hold e A) s4 ∧ chains s4 n = Some b) as (s4 & -> & Hc4 & Hb4).
    { unfold s_stat. rewrite Ha. cbn [option_bind mbind]. pose proof (n_body _ _ _ _ _ _ Hx) as Hbody. destruct (decide (a_type a = VFS_NODE_FILE)) as [Ht|Ht].
      - rewrite bool_decide_true by done. destruct (get_data_spec cfg _ (hold e A) s3 e a Hc3 Ha Ht) as (d & -> & Hda). rewrite Hda. cbn [mbind outcome_bind]. destruct (wf_data _ Hw e a d Ha Hda) as [v Hv].
        destruct (core_data cfg _ _ _ _ _ Hc3 Hv) as (o & Eo & Ev & _). rewrite Eo. cbn [of_option mbind outcome_bind]. rewrite Ev, Hv. by exists s3.
      - rewrite bool_decide_false by done. assert (a_type a = VFS_NODE_DIR) as Ht' by (by destruct (a_type a)). destruct (dircount_spec cfg _ (hold e A) s3 e Hc3) as (s4 & E4 & Hc4); [by apply (is_dir_eq A e a)|set_solver|].
        destruct (body x); [destruct Hbody; congruence|]. destruct Hbody as (_ & -> & _). rewrite E4. exists s4. split; [done|]. split; [done|]. by rewrite (count_chains _ _ _ _ n E4). }
    cbn [mbind outcome_bind]. destruct (unlock_spec cfg _ _ s4 n Hc4 Hd) as (s5 & E5 & Hc5). rewrite E5. cbn [mbind outcome_bind]. rewrite EL in Hc5. pose proof (unlock_chains _ _ _ n E5) as Hb5.
    destruct (drop_child ∅ A e n s5 n Hc5 Hed) as (s6 & -> & Hc6 & Hb6). cbn [mbind outcome_bind]. exists s6. split; [|split; [done|congruence]].
    cbn [fmap option_fmap option_map]. unfold dirent. change (attrs (hold e A)) with (attrs A) in Ha. rewrite Ha. cbn [fmap option_fmap option_map default]. by rewrite (n_name _ _ _ _ _ _ Hx).
  - destruct (unlock_spec cfg _ _ s3 n Hc3 Hd) as (s5 & E5 & Hc5). rewrite E5, EL in *. exists s5. split; [done|]. split; [done|]. by rewrite (unlock_chains _ _ _ n E5).
Qed.

(** Reads entries until there is none. *)
Fixpoint read_all (fuel : nat) (file : vfs_file_s) (s : ramfs) : outcome (list vfs_dirent_s * vfs_file_s * ramfs) :=
  match fuel with
  | O => Err FFuel
  | S fuel =>
      '(_, e, file, s) ← ramfs_dir_read cfg file (sizeof_dirent cfg) s;
      match e with
      | None => Ok ([], file, s)
      | Some e => '(l, file, s) ← read_all fuel file s; Ok (e :: l, file, s)
      end
  end.
Lemma read_all_spec A n b : ∀ fuel i s, core cfg ∅ A s → is_dir A n → dirof A !! n ≠ Some n → chains s n = Some b → (length (concat b) < i + fuel)%nat → (i <= length (concat b))%nat →
  ∃ s', read_all fuel {| f_node := n; f_priv := PIndex i |} s = Ok (dirent A <$> drop i (concat b), {| f_node := n; f_priv := PIndex 0 |}, s') ∧ core cfg ∅ A s'.
Proof.
  induction fuel as [|fuel IH]; intros i s Hc Hd Hself Hb Hlt Hle; [lia|]. cbn [read_all]. unfold ramfs_dir_read. rewrite Z.eqb_refl. cbn [negb f_priv f_node]. destruct (get_nth_spec A s n b i Hc Hd Hself Hb) as (s1 & -> & Hc1 & Hb1). cbn [mbind outcome_bind].
  destruct (concat b !! i) as [e|] eqn:Ei; cbn [fmap option_fmap option_map].
  - pose proof (lookup_lt_Some _ _ _ Ei). destruct (IH (S i) s1 Hc1 Hd Hself Hb1) as (s2 & -> & Hc2); [lia|lia|]. cbn [mbind outcome_bind]. exists s2. by rewrite (drop_S _ e i Ei).
  - apply lookup_ge_None in Ei. rewrite drop_ge by done. by exists s1.
Qed.

(** C29. Reading a directory from its start gives each entry exactly once, with the name
    under which a lookup finds it and its type, then the end, and changes nothing. *)
Theorem ramfs_readdir_exact root A s n :
  sim cfg root A s → is_dir A n →
  ∃ l s', read_all (S (size (kids A n))) {| f_node := n; f_priv := PIndex 0 |} s = Ok (l, {| f_node := n; f_priv := PIndex 0 |}, s') ∧ sim cfg root A s' ∧
    NoDup (d_name <$> l) ∧ (∀ m, m ∈ d_name <$> l ↔ is_Some (entry A n m)) ∧
    (∀ e, e ∈ l → ∃ c, entry A n (d_name e) = Some c ∧ e = dirent A c).
Proof.
  intros [Hc Ht] Hd. pose proof (c_wf _ _ _ _ Hc) as Hw. destruct (children_spec cfg ∅ A s n Hc Hd) as (a & x & b & Ha & _ & Hnx & _ & Eb & Hok & _).
  assert (chains s n = Some b) as Hb by (unfold chains; rewrite Hnx; cbn; by rewrite Eb). assert (dirof A !! n ≠ Some n) as Hself.
  { intros E. pose proof (t_reach _ _ Ht n n E) as Hr. assert (∀ y, reach (dirof A) root y → y = n → False) as H; [|by eapply H; [exact Hr|]].
    induction 1 as [|c p Hcp _ IH]; intros ->; [rewrite (t_top _ _ Ht) in E; done|]. rewrite E in Hcp. injection Hcp as <-. auto. }
  pose proof (concat_nodup cfg A n b Hok) as Hnd. pose proof (count_kids cfg A n b Hw Hok) as Hcnt. unfold hash_count in Hcnt.
  destruct (read_all_spec A n b (S (size (kids A n))) 0 s Hc Hd Hself Hb) as (s' & E & Hc'); [lia|lia|]. cbn [drop] in E. exists (dirent A <$> concat b), s'. split; [done|]. split; [done|].
  assert (∀ c, c ∈ concat b → ∃ ac, attrs A !! c = Some ac ∧ dirof A !! c = Some n ∧ d_name (dirent A c) = a_name ac) as Hel.
  { intros c Hcb. apply (chains_elem cfg A n b c Hok Hw) in Hcb. destruct (wf_dirof _ Hw _ _ Hcb) as [[ac Hac] _]. exists ac. unfold dirent. rewrite Hac. done. }
  assert (∀ c, c ∈ concat b → entry A n (d_name (dirent A c)) = Some c) as Hen.
  { intros c Hcb. destruct (Hel c Hcb) as (ac & Hac & Hdc & ->). apply entry_Some; [done|]. by rewrite Hac. }
  split_and!.
  - rewrite <-list_fmap_compose. apply NoDup_fmap_2_strong; [|done]. intros c c' H1 H2 Enm. pose proof (Hen c H1) as E1. pose proof (Hen c' H2) as E2. change (d_name (dirent A c) = d_name (dirent A c')) in Enm. rewrite Enm in E1. congruence.
  - intros m. rewrite <-list_fmap_compose, list_elem_of_fmap. split.
    + intros (c & -> & Hcb). exists c. by apply Hen.
    + intros [c Hcm]. apply (entry_Some A n m c Hw) in Hcm as [Hdc Hn]. assert (c ∈ concat b) as Hcb by (by apply (chains_elem cfg A n b c Hok Hw)). exists c. split; [|done]. change (m = d_name (dirent A c)).
      destruct (Hel c Hcb) as (ac & Hac & _ & ->). rewrite Hac in Hn. cbn in Hn. congruence.
  - intros e (c & -> & Hcb)%list_elem_of_fmap. exists c. split; [by apply Hen|done].
Qed.
End names.

(** ** Examples *)

(** The states after the first operations of the example: a directory a with a file
    b, and a second name c of the file in the root. *)
Definition mid_ops : list op := take 6 demo_ops.
Definition mid_A : astate := (spec_ops demo_cfg mid_ops (astart 0)).2.
Definition mid_s : ramfs := (ok_or ([], fs_empty) (run_ops demo_cfg mid_ops demo_s0)).2.
Lemma mid_sim : sim demo_cfg 0 mid_A mid_s.
Proof.
  destruct (open_spec demo_cfg 0) as (s0 & E0 & Hs0). assert (s0 = demo_s0) as -> by (unfold demo_s0; by rewrite E0).
  destruct (run_clients_spec demo_cfg 0 mid_ops _ demo_s0 Hs0) as (s' & E & Hs'); [apply legalb_ops_spec; vm_compute; reflexivity|].
  assert (s' = mid_s) as <- by (unfold mid_s; by rewrite E). exact Hs'.
Qed.

Definition mid_move : op := OMove 2 0 [99].
Definition moved_s : ramfs := (ok_or (RCode 1, fs_empty) (run demo_cfg mid_move mid_s)).2.
Lemma ramfs_names_witness :
  run demo_cfg mid_move mid_s = Ok (RCode 0, moved_s) ∧ finds demo_cfg mid_s 1 [98] = Some (0, Some 2%nat) ∧ finds demo_cfg moved_s 1 [98] = Some (- ENOENT, None).
Proof.
  assert (run demo_cfg mid_move mid_s = Ok (RCode 0, moved_s)) as E by (vm_compute; reflexivity). split; [exact E|]. split; [vm_compute; reflexivity|].
  assert (legal demo_cfg 0 mid_move mid_A) as Hl by (apply legalb_spec; vm_compute; reflexivity).
  assert (1%nat ∈ held mid_A) as H1 by (apply (bool_decide_unpack _); vm_compute; exact I).
  assert (1%nat ∈ held (spec demo_cfg mid_move mid_A).2) as H2 by (apply (bool_decide_unpack _); vm_compute; exact I).
  rewrite (ramfs_names demo_cfg 0 mid_A mid_s mid_move (RCode 0) moved_s 1 [98] mid_sim Hl E H1 H2). vm_compute; reflexivity.
Defined.

Lemma ramfs_readdir_exact_witness :
  is_dir mid_A 0 ∧ size (kids mid_A 0) = 2%nat ∧
  ∃ l s', read_all demo_cfg 3 {| f_node := 0; f_priv := PIndex 0 |} mid_s = Ok (l, {| f_node := 0; f_priv := PIndex 0 |}, s') ∧ NoDup (d_name <$> l).
Proof.
  assert (is_dir mid_A 0) as Hd by (vm_compute; reflexivity). split; [exact Hd|]. assert (size (kids mid_A 0) = 2%nat) as Hk by (vm_compute; reflexivity). split; [exact Hk|].
  destruct (ramfs_readdir_exact demo_cfg 0 mid_A mid_s 0 mid_sim Hd) as (l & s' & E & _ & Hn & _). rewrite Hk in E. by exists l, s'.
Defined.

(** ** Limits of the code *)

Definition after (ops : list op) : ramfs := (ok_or ([], fs_empty) (run_ops demo_cfg ops demo_s0)).2.

(** With spin locks, renaming an entry inside its directory takes the same lock
    twice. *)
Theorem rename_in_place_spins :
  let s := after [OCreate (Some 1%nat) (Some 0%nat) VFS_NODE_FILE; OLink None 1 0 [97]] in
  finds demo_cfg s 0 [97] = Some (0, Some 1%nat) ∧ ramfs_move demo_cfg 1 0 [98] s = Err FSpin.
Proof. vm_compute. auto. Qed.

(** Moving a directory below itself succeeds, and leaves two directories that are
    each the parent of the other and that the root does not reach. *)
Theorem move_below_itself :
  let s := after [OCreate (Some 1%nat) None VFS_NODE_DIR; OLink None 1 0 [97]; OCreate (Some 2%nat) None VFS_NODE_DIR; OLink None 2 1 [98]] in
  ∃ s', ramfs_move demo_cfg 1 2 [99] s = Ok (0, s') ∧ chains s' 0 = Some hash_init ∧
    parent <$> nodes s' !! 1%nat = Some (Some 2%nat) ∧ parent <$> nodes s' !! 2%nat = Some (Some 1%nat).
Proof. eexists. vm_compute. auto. Qed.

(** Replacing a directory that has entries destroys it and leaves the parent pointer
    of its entries dangling; a later move of such an entry follows the pointer. *)
Theorem replaced_directory_dangles :
  let s := after [OCreate (Some 1%nat) None VFS_NODE_DIR; OLink None 1 0 [97]; OCreate (Some 2%nat) (Some 0%nat) VFS_NODE_FILE; OLink None 2 1 [98]; ODrop 1; ODrop 1;
                  OCreate (Some 3%nat) (Some 1%nat) VFS_NODE_FILE; OLink None 3 0 [97]] in
  nodes s !! 1%nat = None ∧ parent <$> nodes s !! 2%nat = Some (Some 1%nat) ∧ ramfs_move demo_cfg 2 0 [99] s = Err FCorrupt.
Proof. vm_compute. auto. Qed.

(** The name given to unlink is copied to a buffer of fixed size whatever its
    length. *)
Theorem unlink_long_name : ramfs_unlink demo_cfg 0 (replicate 7 97) demo_s0 = Err FBounds.
Proof. reflexivity. Qed.
End RamfsNames.
