(* ===== verification/Vfs.v ===== *)
(** * The virtual file system (libvfs/vfs.c, node.c, helpers.c, fs.c)

    The virtual file system keeps a cache of nodes in front of the file systems: a
    node refers to a node of its volume, to its parent, and to the cached nodes of
    its directory; nodes nobody uses are recycled in the order of a list.  Paths are
    walked through the cache.  The file system is a table of functions, the class
    [FsOps].  Operations run one after the other; a semaphore that is taken twice
    blocks for ever, which is [FSpin].  The spin locks that only protect single
    fields against other processors, and the statistics, are left out. *)

From stdpp Require Import gmap.
From S2P Require Import Prelude FileOps Ramfs.
Import FileOps.

Module Vfs.
Abbreviation config := Ramfs.config.
Abbreviation vfs_node_type_e := Ramfs.vfs_node_type_e.
Abbreviation VFS_NODE_DIR := Ramfs.VFS_NODE_DIR.
Abbreviation VFS_NODE_FILE := Ramfs.VFS_NODE_FILE.
Abbreviation vfs_name_mangle := Ramfs.vfs_name_mangle.
#[export] Existing Instance Ramfs.type_eq_dec.

Definition EUNKNOWN : Z := 1.

(** ** Data *)

(** Type, size and number of links. *)
Record vfs_stat_s := { st_type : vfs_node_type_e; st_size : Z; st_nlink : Z }.

(** A node of the cache, with its counter and its semaphore. *)
Record vfs_node_s := {
  v_refcnt : Z; v_fs : nat; v_name : list Z; v_parent : option nat; v_in_lru : bool; v_fs_node : nat;
  v_children : list (list nat); v_dir_semaphore : Z }.

(** A volume. *)
Record vfs_fs_s := { lru_list : list nat; fs_root : nat; fs_ref : Z; flag_ro : bool; old_node : option nat }.

(** What a file system offers; [A]: the answers of the allocator during a call,
    [F]: open files, [S]: its state. *)
Class FsOps (A F S : Type) := {
  op_node_open : A → Z → nat → S → outcome (Z * option F * S);
  op_lookup : nat → list Z → S → outcome (Z * option (nat * list Z) * S);
  op_create : option (A → vfs_node_type_e → S → outcome (Z * option nat * S));
  op_link : option (A → nat → nat → list Z → S → outcome (Z * option (nat * list Z) * S));
  op_move : option (nat → nat → list Z → S → outcome (Z * S));
  op_unlink : option (nat → list Z → S → outcome (Z * S));
  op_stat : nat → S → outcome (Z * vfs_stat_s * S);
  op_can_unmount : vfs_fs_s → bool;
  op_node_refnew : nat → S → outcome S;
  op_node_refdrop : nat → S → outcome S }.

(** The live nodes and the volumes by their addresses, the global root, and the state
    of the file system. *)
Record vfs (S : Type) := { vnodes : gmap nat vfs_node_s; volumes : gmap nat vfs_fs_s; global_root : option nat; under : S }.
Arguments vnodes {S} _.
Arguments volumes {S} _.
Arguments global_root {S} _.
Arguments under {S} _.
Arguments Build_vfs {S} _ _ _ _.

Definition set_refcnt (r : Z) (x : vfs_node_s) : vfs_node_s :=
  {| v_refcnt := r; v_fs := v_fs x; v_name := v_name x; v_parent := v_parent x; v_in_lru := v_in_lru x; v_fs_node := v_fs_node x; v_children := v_children x; v_dir_semaphore := v_dir_semaphore x |}.
Definition set_parent (p : option nat) (x : vfs_node_s) : vfs_node_s :=
  {| v_refcnt := v_refcnt x; v_fs := v_fs x; v_name := v_name x; v_parent := p; v_in_lru := v_in_lru x; v_fs_node := v_fs_node x; v_children := v_children x; v_dir_semaphore := v_dir_semaphore x |}.
Definition set_in_lru (l : bool) (x : vfs_node_s) : vfs_node_s :=
  {| v_refcnt := v_refcnt x; v_fs := v_fs x; v_name := v_name x; v_parent := v_parent x; v_in_lru := l; v_fs_node := v_fs_node x; v_children := v_children x; v_dir_semaphore := v_dir_semaphore x |}.
Definition set_children (b : list (list nat)) (x : vfs_node_s) : vfs_node_s :=
  {| v_refcnt := v_refcnt x; v_fs := v_fs x; v_name := v_name x; v_parent := v_parent x; v_in_lru := v_in_lru x; v_fs_node := v_fs_node x; v_children := b; v_dir_semaphore := v_dir_semaphore x |}.
Definition set_semaphore (c : Z) (x : vfs_node_s) : vfs_node_s :=
  {| v_refcnt := v_refcnt x; v_fs := v_fs x; v_name := v_name x; v_parent := v_parent x; v_in_lru := v_in_lru x; v_fs_node := v_fs_node x; v_children := v_children x; v_dir_semaphore := c |}.
Definition set_lru (l : list nat) (f : vfs_fs_s) : vfs_fs_s := {| lru_list := l; fs_root := fs_root f; fs_ref := fs_ref f; flag_ro := flag_ro f; old_node := old_node f |}.
Definition set_fs_ref (r : Z) (f : vfs_fs_s) : vfs_fs_s := {| lru_list := lru_list f; fs_root := fs_root f; fs_ref := r; flag_ro := flag_ro f; old_node := old_node f |}.
Definition set_old_node (o : option nat) (f : vfs_fs_s) : vfs_fs_s := {| lru_list := lru_list f; fs_root := fs_root f; fs_ref := fs_ref f; flag_ro := flag_ro f; old_node := o |}.

Section vfs.
Context {A F S : Type} `{ops : !FsOps A F S} (cfg : config).
Abbreviation vfs := (vfs S).

(** An access to a freed node is caught as a corruption. *)
Definition getn (n : nat) (s : vfs) : outcome vfs_node_s := of_option FCorrupt (vnodes s !! n).
Definition putn (n : nat) (x : vfs_node_s) (s : vfs) : vfs := Build_vfs (<[n := x]> (vnodes s)) (volumes s) (global_root s) (under s).
Definition modn (n : nat) (f : vfs_node_s → vfs_node_s) (s : vfs) : outcome vfs := x ← getn n s; Ok (putn n (f x) s).
Definition getf (f : nat) (s : vfs) : outcome vfs_fs_s := of_option FCorrupt (volumes s !! f).
Definition modf (f : nat) (g : vfs_fs_s → vfs_fs_s) (s : vfs) : outcome vfs :=
  x ← getf f s; Ok (Build_vfs (vnodes s) (<[f := g x]> (volumes s)) (global_root s) (under s)).
(** The file system runs on its part of the state. *)
Definition set_under (u : S) (s : vfs) : vfs := Build_vfs (vnodes s) (volumes s) (global_root s) u.
Definition do_refnew (n : nat) (s : vfs) : outcome vfs := u ← op_node_refnew n (under s); Ok (set_under u s).
Definition do_refdrop (n : nat) (s : vfs) : outcome vfs := u ← op_node_refdrop n (under s); Ok (set_under u s).

(** ** Nodes *)

Definition vfs_node_is_dandling (x : vfs_node_s) : bool := bool_decide (v_parent x = None).

Definition vfs_node_refnew (n : nat) (s : vfs) : outcome vfs :=
  x ← getn n s; require (v_refcnt x >=? 0) FAssert;; Ok (putn n (set_refcnt (v_refcnt x + 1) x) s).

Definition vfs_node_dirlock (n : nat) (s : vfs) : outcome vfs :=
  x ← getn n s; require (v_dir_semaphore x - 1 >=? 0) FSpin;; Ok (putn n (set_semaphore (v_dir_semaphore x - 1) x) s).
Definition vfs_node_dirunlock (n : nat) (s : vfs) : outcome vfs := modn n (λ x, set_semaphore (v_dir_semaphore x + 1) x) s.
Definition vfs_node_dirtrylock (n : nat) (s : vfs) : outcome (Z * vfs) :=
  x ← getn n s; if v_dir_semaphore x - 1 <? 0 then Ok (EBUSY, s) else Ok (0, putn n (set_semaphore (v_dir_semaphore x - 1) x) s).

Definition vfs_node_get_parent (n : nat) (s : vfs) : outcome (option nat * vfs) :=
  x ← getn n s;
  match v_parent x with
  | None => Ok (None, s)
  | Some p => s ← vfs_node_refnew p s; Ok (Some p, s)
  end.

(** *** The list of nodes to recycle *)

Definition vfs_lru_remove (f n : nat) (s : vfs) : outcome vfs :=
  v ← getf f s;
  require (bool_decide (n ∈ lru_list v)) FCorrupt;;
  modf f (set_lru (filter (λ m, m ≠ n) (lru_list v))) s.
(** Before the first node that has at least as many references. *)
Fixpoint lru_insert (n : nat) (k : Z) (l : list nat) (s : vfs) : outcome (list nat) :=
  match l with
  | [] => Ok [n]
  | m :: l => x ← getn m s; if k <=? v_refcnt x then Ok (n :: m :: l) else l ← lru_insert n k l s; Ok (m :: l)
  end.
Definition vfs_lru_insert_ascend (f n : nat) (s : vfs) : outcome vfs :=
  v ← getf f s; x ← getn n s;
  l ← lru_insert n (v_refcnt x) (lru_list v) s;
  modf f (set_lru l) s.
Definition vfs_lru_pop (f : nat) (s : vfs) : outcome (option nat * vfs) :=
  v ← getf f s;
  match lru_list v with
  | [] => Ok (None, s)
  | n :: l => s ← modf f (set_lru l) s; Ok (Some n, s)
  end.

Definition vfs_node_lru_drop (n : nat) (s : vfs) : outcome vfs :=
  x ← getn n s;
  s ← (if v_in_lru x then vfs_lru_remove (v_fs x) n s else Ok s);
  modn n (set_in_lru false) s.
Definition vfs_node_lru_rehash (n : nat) (s : vfs) : outcome vfs :=
  x ← getn n s;
  s ← (if v_in_lru x then vfs_lru_remove (v_fs x) n s else Ok s);
  s ← modn n (set_in_lru true) s;
  vfs_lru_insert_ascend (v_fs x) n s.

(** *** Cached children *)

Fixpoint find_child (nm : list Z) (l : list nat) (s : vfs) : outcome (option nat) :=
  match l with
  | [] => Ok None
  | c :: l => x ← getn c s; if bool_decide (v_name x = nm) then Ok (Some c) else find_child nm l s
  end.
Definition vfs_dir_lookup (n : nat) (nm : list Z) (s : vfs) : outcome (option nat * vfs) :=
  x ← getn n s;
  l ← of_option FBounds (v_children x !! Ramfs.hash_index cfg nm);
  r ← find_child nm l s;
  match r with
  | None => Ok (None, s)
  | Some c => s ← vfs_node_refnew c s; Ok (Some c, s)
  end.
Definition vfs_dir_push (n item : nat) (s : vfs) : outcome vfs :=
  s ← vfs_node_refnew item s;
  x ← getn item s;
  modn n (λ d, set_children (Ramfs.hash_push cfg (v_name x) item (v_children d)) d) s.
Definition vfs_dir_remove (refdrop : nat → vfs → outcome vfs) (n item : nat) (s : vfs) : outcome vfs :=
  d ← getn n s;
  b ← Ramfs.hash_remove item (v_children d);
  s ← modn n (set_children b) s;
  refdrop item s.
Definition vfs_dir_mangled_lookup (n : nat) (fullname : list Z) (s : vfs) : outcome (option nat * vfs) :=
  vfs_dir_lookup n (vfs_name_mangle cfg fullname) s.

(** *** Life cycle *)

(** Leaves the directory; [refdrop] is the function that follows. *)
Definition parent_unset (refdrop : nat → vfs → outcome vfs) (n : nat) (s : vfs) : outcome vfs :=
  x ← getn n s;
  match v_parent x with
  | None => Ok s
  | Some p =>
      s ← vfs_dir_remove refdrop p n s;
      s ← modn n (set_parent None) s;
      s ← refdrop p s;
      vfs_node_lru_drop n s
  end.
(** The destructor, for a node whose last reference is gone. *)
Definition vfs_node_destructor (refdrop : nat → vfs → outcome vfs) (n : nat) (s : vfs) : outcome vfs :=
  '(p, s) ← vfs_node_get_parent n s;
  s ← match p with
      | None => Ok s
      | Some p => s ← vfs_node_dirlock p s; s ← parent_unset refdrop n s; s ← vfs_node_dirunlock p s; refdrop p s
      end;
  x ← getn n s;
  s ← (if v_in_lru x then vfs_lru_remove (v_fs x) n s else Ok s);
  s ← modf (v_fs x) (λ v, set_fs_ref (fs_ref v - 1) v) s;
  do_refdrop (v_fs_node x) s.
Fixpoint refdrop_loop (fuel : nat) (n : nat) (s : vfs) : outcome vfs :=
  match fuel with
  | O => Err FFuel
  | Datatypes.S fuel =>
      x ← getn n s;
      require (v_refcnt x >? 0) FAssert;;
      let r := v_refcnt x - 1 in
      let s := putn n (set_refcnt r x) s in
      if negb (r =? 0) then Ok s else
      s ← vfs_node_destructor (refdrop_loop fuel) n s;
      x ← getn n s;
      if v_refcnt x >? 0 then Ok s else Ok (Build_vfs (delete n (vnodes s)) (volumes s) (global_root s) (under s))
  end.
(** The destructors nest at most as deep as there are nodes. *)
Definition vfs_node_refdrop (n : nat) (s : vfs) : outcome vfs := refdrop_loop (Datatypes.S (size (vnodes s))) n s.
Definition vfs_node_parent_nolock_unset (n : nat) (s : vfs) : outcome vfs := parent_unset vfs_node_refdrop n s.

Definition vfs_node_constructor (obj fs : nat) (mangled_name : option (list Z)) (fs_node : nat) (s : vfs) : outcome vfs :=
  s ← do_refnew fs_node s;
  s ← modf fs (λ v, set_fs_ref (fs_ref v + 1) v) s;
  Ok (putn obj {| v_refcnt := 1; v_fs := fs; v_name := default (replicate (Ramfs.NAMELEN cfg) 0) mangled_name; v_parent := None; v_in_lru := false;
                  v_fs_node := fs_node; v_children := Ramfs.hash_init; v_dir_semaphore := 1 |} s).
(** In the given storage, else in a block of the allocator, which answers [alloc]. *)
Definition vfs_node_new (storage alloc : option nat) (fs : nat) (mangled_name : option (list Z)) (fs_node : nat) (s : vfs) : outcome (option nat * vfs) :=
  match (if storage is Some _ then storage else alloc) with
  | None => Ok (None, s)
  | Some obj => s ← vfs_node_constructor obj fs mangled_name fs_node s; Ok (Some obj, s)
  end.

(** Takes the storage of the first node of the list if nobody uses the node.  The
    reference to its parent is not given back. *)
Fixpoint recycle_loop (fuel : nat) (fs : nat) (s : vfs) : outcome (option nat * vfs) :=
  match fuel with
  | O => Err FFuel
  | Datatypes.S fuel =>
      '(node, s) ← vfs_lru_pop fs s;
      match node with
      | None => Ok (None, s)
      | Some node =>
          s ← modn node (set_in_lru false) s;
          x ← getn node s;
          if v_refcnt x >? 1 then s ← vfs_node_lru_rehash node s; Ok (None, s) else
          '(parent, s) ← vfs_node_get_parent node s;
          match parent with
          | None => Ok (None, s)
          | Some parent =>
              '(busy, s) ← vfs_node_dirtrylock parent s;
              if negb (busy =? 0) then s ← vfs_node_lru_rehash node s; s ← vfs_node_refdrop parent s; Ok (None, s) else
              x ← getn node s;
              if (v_refcnt x =? 1) && bool_decide (v_parent x = Some parent) then
                s ← vfs_node_refnew node s;
                s ← vfs_node_parent_nolock_unset node s;
                s ← vfs_node_dirunlock parent s;
                x ← getn node s;
                require (v_refcnt x =? 1) FAssert;;
                s ← vfs_node_refdrop node s;
                Ok (Some node, s)
              else
                s ← vfs_node_dirunlock parent s;
                s ← vfs_node_lru_rehash node s;
                s ← vfs_node_refdrop parent s;
                recycle_loop fuel fs s
          end
      end
  end.
(** Only a node that is its own parent is put back in the list and tried again. *)
Definition vfs_node_createnew (alloc : option nat) (fs : nat) (mangled_name : option (list Z)) (fs_node : nat) (s : vfs) : outcome (option nat * vfs) :=
  v ← getf fs s;
  '(node, s) ← recycle_loop (Datatypes.S (Datatypes.S (length (lru_list v)))) fs s;
  vfs_node_new node alloc fs mangled_name fs_node s.

Definition vfs_node_parent_nolock_set_for_root (n p : nat) (s : vfs) : outcome vfs :=
  s ← vfs_node_refnew p s; s ← modn n (set_parent (Some p)) s; vfs_dir_push p n s.
Definition vfs_node_parent_nolock_set (n p : nat) (s : vfs) : outcome vfs :=
  x ← getn n s;
  require (vfs_node_is_dandling x) FAssert;;
  s ← vfs_node_refnew p s; s ← modn n (set_parent (Some p)) s; s ← vfs_dir_push p n s;
  vfs_node_lru_rehash n s.

Definition vfs_node_2dirlock (d1 d2 : nat) (s : vfs) : outcome vfs :=
  if (d1 <? d2)%nat then s ← vfs_node_dirlock d1 s; vfs_node_dirlock d2 s else s ← vfs_node_dirlock d2 s; vfs_node_dirlock d1 s.
Definition vfs_node_2dirunlock (d1 d2 : nat) (s : vfs) : outcome vfs :=
  if (d1 <? d2)%nat then s ← vfs_node_dirunlock d2 s; vfs_node_dirunlock d1 s else s ← vfs_node_dirunlock d1 s; vfs_node_dirunlock d2 s.


(** ** Operations on nodes *)

Definition vfs_node_stat (n : nat) (s : vfs) : outcome (Z * vfs_stat_s * vfs) :=
  s ← vfs_node_lru_rehash n s;
  x ← getn n s;
  '(e, st, u) ← op_stat (v_fs_node x) (under s);
  Ok (e, st, set_under u s).

Definition vfs_node_lookup (alloc : option nat) (parent : nat) (nm : list Z) (s : vfs) : outcome (Z * option nat * vfs) :=
  x ← getn parent s;
  if vfs_node_is_dandling x then Ok (- EINVAL, None, s) else
  s ← vfs_node_dirlock parent s;
  '(node, s) ← vfs_dir_mangled_lookup parent nm s;
  '(err, node, s) ← match node with
    | Some c => Ok (0, Some c, s)
    | None =>
        '(err, r, u) ← op_lookup (v_fs_node x) nm (under s);
        let s := set_under u s in
        if negb (err =? 0) then Ok (err, None, s) else
        '(fs_node, mangled_name) ← of_option FUndef r;
        '(node, s) ← vfs_node_createnew alloc (v_fs x) (Some mangled_name) fs_node s;
        s ← do_refdrop fs_node s;
        match node with
        | None => Ok (- ENOMEM, None, s)
        | Some n => s ← vfs_node_parent_nolock_set n parent s; Ok (0, Some n, s)
        end
    end;
  s ← vfs_node_dirunlock parent s;
  Ok (err, node, s).

Definition vfs_node_create (ans : A) (alloc : option nat) (fs : nat) (ty : vfs_node_type_e) (s : vfs) : outcome (Z * option nat * vfs) :=
  match op_create with
  | None => Ok (- ENOTSUP, None, s)
  | Some create =>
      v ← getf fs s;
      if flag_ro v then Ok (- EPERM, None, s) else
      '(err, r, u) ← create ans ty (under s);
      let s := set_under u s in
      if negb (err =? 0) then Ok (err, None, s) else
      fs_node ← of_option FUndef r;
      '(node, s) ← vfs_node_createnew alloc fs None fs_node s;
      s ← do_refdrop fs_node s;
      match node with None => Ok (- ENOMEM, None, s) | Some n => Ok (0, Some n, s) end
  end.

Definition vfs_node_open (ans : A) (flags : Z) (n : nat) (s : vfs) : outcome (Z * option F * vfs) :=
  x ← getn n s; v ← getf (v_fs x) s;
  if negb (Z.land flags VFS_OPEN_WRITE =? 0) && flag_ro v then Ok (- EPERM, None, s) else
  s ← vfs_node_lru_rehash n s;
  '(e, f, u) ← op_node_open ans flags (v_fs_node x) (under s);
  Ok (e, f, set_under u s).

Definition unset_opt (o : option nat) (s : vfs) : outcome vfs := match o with None => Ok s | Some n => vfs_node_parent_nolock_unset n s end.
Definition refdrop_opt (o : option nat) (s : vfs) : outcome vfs := match o with None => Ok s | Some n => vfs_node_refdrop n s end.

Definition vfs_node_link (ans : A) (alloc : option nat) (node parent : nat) (nm : list Z) (s : vfs) : outcome (Z * option nat * vfs) :=
  match op_link with
  | None => Ok (- ENOTSUP, None, s)
  | Some link =>
      p ← getn parent s; x ← getn node s;
      if negb (v_fs p =? v_fs x)%nat then Ok (- ENOTSUP, None, s) else
      if vfs_node_is_dandling p then Ok (- ENOTSUP, None, s) else
      v ← getf (v_fs p) s;
      if flag_ro v then Ok (- EPERM, None, s) else
      s ← vfs_node_dirlock parent s;
      '(prev_node, s) ← vfs_dir_mangled_lookup parent nm s;
      '(err, r, u) ← link ans (v_fs_node x) (v_fs_node p) nm (under s);
      let s := set_under u s in
      '(err, ret, s) ← (if negb (err =? 0) then Ok (err, None, s) else
        '(rfs_node, mangled_name) ← of_option FUndef r;
        s ← unset_opt prev_node s;
        '(ret, s) ← vfs_node_createnew alloc (v_fs p) (Some mangled_name) rfs_node s;
        s ← do_refdrop rfs_node s;
        match ret with
        | None => Ok (- ENOMEM, None, s)
        | Some n => s ← vfs_node_parent_nolock_set n parent s; Ok (0, Some n, s)
        end);
      s ← vfs_node_dirunlock parent s;
      s ← refdrop_opt prev_node s;
      Ok (err, ret, s)
  end.

(** The reference to the former parent is not given back, and the name of the node
    stays. *)
Definition vfs_node_move (node parent : nat) (nm : list Z) (s : vfs) : outcome (Z * vfs) :=
  match op_move with
  | None => Ok (- ENOTSUP, s)
  | Some move =>
      p ← getn parent s; x ← getn node s;
      if negb (v_fs p =? v_fs x)%nat then Ok (- ENOTSUP, s) else
      if vfs_node_is_dandling p then Ok (- ENOTSUP, s) else
      v ← getf (v_fs p) s;
      if flag_ro v then Ok (- EPERM, s) else
      '(parent_src, s) ← vfs_node_get_parent node s;
      match parent_src with
      | None => Ok (- EINVAL, s)
      | Some parent_src =>
          s ← vfs_node_2dirlock parent parent_src s;
          '(prev_node, s) ← vfs_dir_mangled_lookup parent nm s;
          '(err, u) ← move (v_fs_node x) (v_fs_node p) nm (under s);
          let s := set_under u s in
          s ← (if negb (err =? 0) then Ok s else
               s ← vfs_node_parent_nolock_unset node s;
               s ← unset_opt prev_node s;
               vfs_node_parent_nolock_set node parent s);
          s ← vfs_node_2dirunlock parent parent_src s;
          s ← refdrop_opt prev_node s;
          Ok (err, s)
      end
  end.

Definition vfs_node_unlink (parent : nat) (nm : list Z) (s : vfs) : outcome (Z * vfs) :=
  match op_unlink with
  | None => Ok (- ENOTSUP, s)
  | Some unlink =>
      p ← getn parent s; v ← getf (v_fs p) s;
      if flag_ro v then Ok (- EPERM, s) else
      s ← vfs_node_dirlock parent s;
      '(node, s) ← vfs_dir_mangled_lookup parent nm s;
      '(err, u) ← unlink (v_fs_node p) nm (under s);
      let s := set_under u s in
      s ← (if negb (err =? 0) then Ok s else unset_opt node s);
      s ← vfs_node_dirunlock parent s;
      s ← refdrop_opt node s;
      Ok (err, s)
  end.

(** ** Mounts *)

Definition vfs_set_root (root : option nat) (s : vfs) : outcome vfs :=
  let old := global_root s in
  s ← match root with Some r => vfs_node_refnew r s | None => Ok s end;
  refdrop_opt old (Build_vfs (vnodes s) (volumes s) root (under s)).
(** [global]: the root is a global variable. *)
Definition vfs_create_root (global : bool) (alloc : option nat) (fs : nat) (s : vfs) : outcome (Z * option nat * vfs) :=
  v ← getf fs s;
  if negb (bool_decide (old_node v = None)) then Ok (- EBUSY, None, s) else
  '(new_node, s) ← vfs_node_createnew alloc fs None (fs_root v) s;
  match new_node with
  | None => Ok (- ENOMEM, None, s)
  | Some n =>
      s ← modn n (set_parent (Some n)) s;
      s ← modf fs (set_old_node None) s;
      s ← (if global then vfs_set_root (Some n) s else Ok s);
      Ok (0, Some n, s)
  end.

Definition vfs_mount (alloc : option nat) (mountpoint fs : nat) (s : vfs) : outcome (Z * vfs) :=
  '(_, st, s) ← vfs_node_stat mountpoint s;
  if negb (bool_decide (st_type st = VFS_NODE_DIR)) then Ok (- EINVAL, s) else
  v ← getf fs s;
  if negb (bool_decide (old_node v = None)) then Ok (- EBUSY, s) else
  x ← getn mountpoint s;
  if bool_decide (v_parent x = Some mountpoint) then Ok (- EINVAL, s) else
  w ← getf (v_fs x) s;
  if (fs_root w =? v_fs_node x)%nat then Ok (- EINVAL, s) else
  s ← vfs_node_refnew mountpoint s;
  s ← modf fs (set_old_node (Some mountpoint)) s;
  s ← vfs_node_refnew mountpoint s;
  '(new_node, s) ← vfs_node_createnew alloc fs (Some (v_name x)) (fs_root v) s;
  match new_node with
  | None => Ok (- ENOMEM, s)
  | Some n =>
      '(parent, s) ← vfs_node_get_parent mountpoint s;
      parent ← of_option FUndef parent;
      s ← vfs_node_dirlock parent s;
      s ← vfs_node_parent_nolock_unset mountpoint s;
      s ← vfs_node_parent_nolock_set_for_root n parent s;
      s ← vfs_node_dirunlock parent s;
      s ← vfs_node_refdrop parent s;
      Ok (0, s)
  end.

Definition vfs_umount (mountpoint : nat) (s : vfs) : outcome (Z * vfs) :=
  x ← getn mountpoint s;
  v ← getf (v_fs x) s;
  if negb (fs_root v =? v_fs_node x)%nat then Ok (- EINVAL, s) else
  match old_node v with
  | None => Ok (- EINVAL, s)
  | Some old =>
      '(parent, s) ← vfs_node_get_parent mountpoint s;
      match parent with
      | None => Ok (- EINVAL, s)
      | Some parent =>
          s ← vfs_node_dirlock parent s;
          if negb (op_can_unmount v) then s ← vfs_node_dirunlock parent s; s ← vfs_node_refdrop parent s; Ok (- EBUSY, s) else
          s ← vfs_node_parent_nolock_unset mountpoint s;
          s ← vfs_node_parent_nolock_set old parent s;
          s ← vfs_node_dirunlock parent s;
          s ← vfs_node_refdrop mountpoint s;
          s ← vfs_node_refdrop mountpoint s;
          s ← vfs_node_refdrop old s;
          s ← modf (v_fs x) (set_old_node None) s;
          s ← vfs_node_refdrop parent s;
          s ← vfs_node_lru_rehash mountpoint s;
          Ok (0, s)
      end
  end.

(** ** Paths *)

(** A path is the list of its characters, a pointer into it an index. *)
Definition slash : Z := 47.
Definition dot : Z := 46.
Fixpoint skip (f : Z → bool) (l : list Z) : nat := match l with c :: l => if f c then Datatypes.S (skip f l) else 0 | [] => 0 end.
Definition is_slash (c : Z) : bool := c =? slash.
Definition next_nonslash (path : list Z) (p : nat) : nat := p + skip is_slash (drop p path).
Definition next_slash (path : list Z) (p : nat) : nat := p + skip (λ c, negb (is_slash c)) (drop p path).
Definition prev_slash (path : list Z) (str : nat) : nat :=
  let p := (str - skip (λ c, negb (is_slash c)) (reverse (take str path)))%nat in if (0 <? p)%nat then (p - 1)%nat else 0%nat.
Definition last_slash_or_end (path : list Z) : nat := length path - skip is_slash (reverse path).
Definition part (path : list Z) (a b : nat) : list Z := take (b - a) (drop a path).

(** Goes as far as it can; gives the error, the place where it stopped and the node.
    [alloc] answers the allocations of the walk one after the other. *)
Fixpoint lookup_loop (fuel : nat) (root : nat) (path : list Z) (stop : nat) (token node : nat) (alloc : list (option nat)) (s : vfs) : outcome (Z * nat * nat * list (option nat) * vfs) :=
  match fuel with
  | O => Err FFuel
  | Datatypes.S fuel =>
      if (stop <=? token)%nat then Ok (0, token, node, alloc, s) else
      let slash_or_end := next_slash path token in
      let tok := part path token slash_or_end in
      if bool_decide (tok = [dot; dot]) then
        if (node =? root)%nat then lookup_loop fuel root path stop (next_nonslash path slash_or_end) node alloc s else
        '(parent, s) ← vfs_node_get_parent node s;
        match parent with
        | None => Ok (0, token, node, alloc, s)
        | Some parent => s ← vfs_node_refdrop node s; lookup_loop fuel root path stop (next_nonslash path slash_or_end) parent alloc s
        end
      else if bool_decide (tok = [dot]) then lookup_loop fuel root path stop (next_nonslash path slash_or_end) node alloc s
      else
        '(err, nnode, s) ← vfs_node_lookup (default None (head alloc)) node tok s;
        if negb (err =? 0) then Ok (err, token, node, tail alloc, s) else
        nnode ← of_option FUndef nnode;
        s ← vfs_node_refdrop node s;
        lookup_loop fuel root path stop (next_nonslash path slash_or_end) nnode (tail alloc) s
  end.
(** Each turn takes at least one character. *)
Definition vfs_lookup_part (root cwd : nat) (path : list Z) (stop : nat) (alloc : list (option nat)) (s : vfs) : outcome (Z * nat * nat * list (option nat) * vfs) :=
  let absolute := bool_decide (head path = Some slash) in
  let token := if absolute then next_nonslash path 0 else 0%nat in
  let cwd := if absolute then root else cwd in
  s ← vfs_node_refnew cwd s;
  lookup_loop (Datatypes.S (length path)) root path stop token cwd alloc s.

Definition vfs_lookup (root cwd : nat) (path : list Z) (alloc : list (option nat)) (s : vfs) : outcome (Z * option nat * vfs) :=
  let stop := last_slash_or_end path in
  '(err, wh, node, _, s) ← vfs_lookup_part root cwd path stop alloc s;
  if (err =? 0) && (stop <=? wh)%nat then Ok (0, Some node, s) else
  s ← vfs_node_refdrop node s;
  Ok (if negb (err =? 0) then err else - ENOENT, None, s).

(** Whether the last part of a path is "." or "..". *)
Definition dots (path : list Z) (last_part stop : nat) : bool :=
  bool_decide (part path last_part stop = [dot]) || bool_decide (part path last_part stop = [dot; dot]).

Definition vfs_create (ans ans' : A) (root cwd : nat) (path : list Z) (ty : vfs_node_type_e) (alloc : list (option nat)) (s : vfs) : outcome (Z * option nat * vfs) :=
  let stop := last_slash_or_end path in
  let last_part := next_nonslash path (prev_slash path stop) in
  if dots path last_part stop then Ok (- EINVAL, None, s) else
  '(err, stopped_at, parent, alloc, s) ← vfs_lookup_part root cwd path stop alloc s;
  if negb ((err =? - ENOENT) && (last_part <=? stopped_at)%nat) then
    s ← vfs_node_refdrop parent s; Ok (if negb (err =? 0) then err else - Ramfs.EEXISTS, None, s) else
  p ← getn parent s;
  '(err, rn, s) ← vfs_node_create ans (default None (head alloc)) (v_fs p) ty s;
  if negb (err =? 0) then s ← vfs_node_refdrop parent s; Ok (err, None, s) else
  rn ← of_option FUndef rn;
  '(err, node, s) ← vfs_node_link ans' (default None (head (tail alloc))) rn parent (part path last_part stop) s;
  s ← vfs_node_refdrop parent s;
  s ← vfs_node_refdrop rn s;
  Ok (err, node, s).

Definition vfs_open (ans ans' ans'' : A) (root cwd : nat) (path : list Z) (flags : Z) (alloc : list (option nat)) (s : vfs) : outcome (Z * option F * vfs) :=
  let stop := last_slash_or_end path in
  let last_part := next_nonslash path (prev_slash path stop) in
  '(err, stopped_at, node, alloc, s) ← vfs_lookup_part root cwd path stop alloc s;
  if (err =? - ENOENT) && (last_part <=? stopped_at)%nat && negb (Z.land flags VFS_OPEN_CREATE =? 0) then
    p ← getn node s;
    '(err, created_node, s) ← vfs_node_create ans (default None (head alloc)) (v_fs p) VFS_NODE_FILE s;
    if negb (err =? 0) then s ← vfs_node_refdrop node s; Ok (err, None, s) else
    created_node ← of_option FUndef created_node;
    '(err, linked_node, s) ← vfs_node_link ans' (default None (head (tail alloc))) created_node node (part path last_part stop) s;
    s ← vfs_node_refdrop node s;
    s ← vfs_node_refdrop created_node s;
    if negb (err =? 0) then Ok (err, None, s) else
    node ← of_option FUndef linked_node;
    '(err, file, s) ← vfs_node_open ans'' flags node s;
    s ← vfs_node_refdrop node s;
    Ok (err, file, s)
  else if err =? 0 then
    '(err, file, s) ← vfs_node_open ans'' flags node s;
    s ← vfs_node_refdrop node s;
    Ok (err, file, s)
  else s ← vfs_node_refdrop node s; Ok (err, None, s).

Definition vfs_stat (root cwd : nat) (path : list Z) (alloc : list (option nat)) (s : vfs) : outcome (Z * option vfs_stat_s * vfs) :=
  '(err, node, s) ← vfs_lookup root cwd path alloc s;
  if negb (err =? 0) then Ok (err, None, s) else
  node ← of_option FUndef node;
  '(err, st, s) ← vfs_node_stat node s;
  s ← vfs_node_refdrop node s;
  Ok (err, Some st, s).

(** A target that exists is reported by the error of its lookup, which is 0. *)
Definition vfs_link (ans : A) (root cwd : nat) (src dst : list Z) (alloc : list (option nat)) (s : vfs) : outcome (Z * vfs) :=
  let dst_end := last_slash_or_end dst in
  let dst_last_part := next_nonslash dst (prev_slash dst dst_end) in
  if dots dst dst_last_part dst_end then Ok (- EINVAL, s) else
  '(err, stopped_at, parent, alloc, s) ← vfs_lookup_part root cwd dst dst_end alloc s;
  if negb ((err =? - ENOENT) && (dst_last_part <=? stopped_at)%nat) then s ← vfs_node_refdrop parent s; Ok (err, s) else
  '(err, rn, s) ← vfs_lookup root cwd src (tail alloc) s;
  if negb (err =? 0) then s ← vfs_node_refdrop parent s; Ok (err, s) else
  rn ← of_option FUndef rn;
  '(err, new_node, s) ← vfs_node_link ans (default None (head alloc)) rn parent (part dst dst_last_part dst_end) s;
  s ← (if err =? 0 then n ← of_option FUndef new_node; vfs_node_refdrop n s else Ok s);
  s ← vfs_node_refdrop parent s;
  s ← vfs_node_refdrop rn s;
  Ok (err, s).

(** The name of a node up to its terminator. *)
Definition strlen (nm : list Z) : outcome nat := let n := skip (λ c, negb (c =? 0)) nm in require (n <? length nm)%nat FBounds;; Ok n.
Definition vfs_unlink (root cwd : nat) (path : list Z) (alloc : list (option nat)) (s : vfs) : outcome (Z * vfs) :=
  '(err, node, s) ← vfs_lookup root cwd path alloc s;
  if negb (err =? 0) then Ok (err, s) else
  node ← of_option FUndef node;
  x ← getn node s;
  v ← getf (v_fs x) s;
  if (fs_root v =? v_fs_node x)%nat then s ← vfs_node_refdrop node s; Ok (- EBUSY, s) else
  '(parent, s) ← vfs_node_get_parent node s;
  match parent with
  | None => s ← vfs_node_refdrop node s; Ok (- EUNKNOWN, s)
  | Some parent =>
      k ← strlen (v_name x);
      '(err, s) ← vfs_node_unlink parent (take k (v_name x)) s;
      s ← vfs_node_refdrop node s;
      s ← vfs_node_refdrop parent s;
      Ok (err, s)
  end.
End vfs.
End Vfs.
