(* ===== verification/VfsSpec.v ===== *)
(** * The virtual file system: its contract with a file system, and its cache

    [FsLaws] states what the cache relies on: a file system is a tree of names with
    references to its nodes.  The abstract cache keeps the attributes of the cached
    nodes, the directory whose list each node is in, and the references to nodes that
    callers own.  The heap of the virtual file system implements it: counters are
    exact, lists hold the children, and the list of nodes to recycle holds the marked
    nodes once. *)

From stdpp Require Import gmap gmultiset.
From S2P Require Import Prelude FileOps RamfsFile Ramfs Vfs.
Import FileOps Vfs.

Module VfsSpec.

(** ** File systems *)

(** The references given out, which nodes are directories, the names, and the
    directory a node is in. *)
Record view := { held : gmultiset nat; dirp : nat → bool; ent : nat → list Z → option nat; up : nat → option nat }.

(** The nodes of the tree below [r]; the nodes somebody can see. *)
Inductive reach (v : view) (r : nat) : nat → Prop :=
  | reach_here : reach v r r
  | reach_ent q m c : reach v r q → ent v q m = Some c → reach v r c.
Definition live (r : nat) (v : view) (q : nat) : Prop := q ∈ held v ∨ reach v r q.

Definition same_at (q : nat) (v v' : view) : Prop := dirp v' q = dirp v q ∧ (∀ m, ent v' q m = ent v q m) ∧ up v' q = up v q.
(** Nothing changed for nodes that are seen before and after. *)
Definition same (r : nat) (v v' : view) : Prop := ∀ q, live r v q → live r v' q → same_at q v v'.
(** The directory [d] has the entry [c] under the name [m], or none; [u] is where
    nodes are. *)
Definition renamed (r d : nat) (m : list Z) (c : option nat) (u : nat → option nat → option nat) (v v' : view) : Prop :=
  ∀ q, live r v q → live r v' q → dirp v' q = dirp v q ∧ (∀ m', ent v' q m' = if decide (q = d ∧ m' = m) then c else ent v q m') ∧ up v' q = u q (up v q).

(** The state of a file system with a root node. *)
Class FsLaws (A F S : Type) `{!FsOps A F S} (cfg : config) := {
  top : nat;
  rel : S → view → Prop;
  (** The answers are unused addresses. *)
  fresh : A → S → Prop;
  (** The answers grant what is asked for. *)
  gives : A → Prop;
  rel_up s v q m c : rel s v → ent v q m = Some c → up v c = Some q;
  rel_name s v q m m' c : rel s v → ent v q m = Some c → ent v q m' = Some c → m = m';
  rel_dir s v q m c : rel s v → ent v q m = Some c → dirp v q = true;
  (** Names are strings that fit, with their terminator. *)
  rel_short s v q m c : rel s v → ent v q m = Some c → ∃ nm, m = vfs_name_mangle cfg nm ∧ 0 ∉ nm ∧ (length nm < Ramfs.NAMELEN cfg)%nat;
  rel_tree s v q m c : rel s v → ent v q m = Some c → reach v top q;
  rel_top s v : rel s v → up v top = None ∧ dirp v top = true;
  refnew_law s v q : rel s v → q ∈ held v →
    ∃ s' v', op_node_refnew q s = Ok s' ∧ rel s' v' ∧ held v' = held v ⊎ {[+ q +]} ∧ same top v v' ∧ ∀ a, fresh a s → fresh a s';
  refdrop_law s v q : rel s v → q ∈ held v → top ∈ held v ∖ {[+ q +]} →
    ∃ s' v', op_node_refdrop q s = Ok s' ∧ rel s' v' ∧ held v' = held v ∖ {[+ q +]} ∧ same top v v' ∧ ∀ a, fresh a s → fresh a s';
  lookup_law s v q nm : rel s v → q ∈ held v →
    ∃ s' v', rel s' v' ∧ same top v v' ∧ (∀ a, fresh a s → fresh a s') ∧
      if dirp v q then
        match ent v q (vfs_name_mangle cfg nm) with
        | Some c => op_lookup q nm s = Ok (0, Some (c, vfs_name_mangle cfg nm), s') ∧ held v' = held v ⊎ {[+ c +]}
        | None => op_lookup q nm s = Ok (- ENOENT, None, s') ∧ held v' = held v
        end
      else op_lookup q nm s = Ok (- EINVAL, None, s') ∧ held v' = held v;
  create_law : ∃ create, op_create = Some create ∧ ∀ a ty s v, rel s v → fresh a s →
    ∃ e r s' v', create a ty s = Ok (e, r, s') ∧ rel s' v' ∧ same top v v' ∧
      ((e = - ENOMEM ∧ ¬ gives a ∧ r = None ∧ held v' = held v) ∨
       (∃ n, e = 0 ∧ r = Some n ∧ n ∉ held v ∧ held v' = held v ⊎ {[+ n +]} ∧ up v' n = None ∧ n ≠ top ∧ dirp v' n = bool_decide (ty = VFS_NODE_DIR) ∧ ∀ m, ent v' n m = None));
  link_law : ∃ link, op_link = Some link ∧ ∀ a q d nm s v, rel s v → (up v q ≠ None → fresh a s) → q ∈ held v → d ∈ held v → 0 ∉ nm →
    (∀ o, ent v d (vfs_name_mangle cfg nm) = Some o → ∀ m, ent v o m = None) →
    ∃ e r s' v', link a q d nm s = Ok (e, r, s') ∧ rel s' v' ∧
      ((e ≠ 0 ∧ r = None ∧ held v' = held v ∧ same top v v' ∧ ¬ ((length nm < Ramfs.NAMELEN cfg)%nat ∧ reach v top d ∧ dirp v d = true ∧ (up v q = None ∧ q ≠ top ∨ dirp v q = false ∧ gives a))) ∨
       (∃ n, let m := vfs_name_mangle cfg nm in
          e = 0 ∧ r = Some (n, m) ∧ (length nm < Ramfs.NAMELEN cfg)%nat ∧ n ≠ top ∧ dirp v d = true ∧ held v' = held v ⊎ {[+ n +]} ∧ dirp v' n = dirp v q ∧
          (n = q ∧ up v q = None ∨ n ∉ held v ∧ dirp v' n = false) ∧
          (∀ m', ent v' n m' = None) ∧ ent v' d m = Some n ∧
          renamed top d m (Some n) (λ x y, if decide (x = n) then Some d else if decide (ent v d m = Some x) then None else y) v v'));
  unlink_law : ∃ unlink, op_unlink = Some unlink ∧ ∀ d nm s v, rel s v → d ∈ held v → dirp v d = true → (length nm <= Ramfs.NAMELEN cfg)%nat →
    ∃ e s' v', unlink d nm s = Ok (e, s') ∧ rel s' v' ∧ held v' = held v ∧ (∀ a, fresh a s → fresh a s') ∧
      ((e ≠ 0 ∧ same top v v' ∧ match ent v d (vfs_name_mangle cfg nm) with None => e = - ENOENT | Some o => ∃ m c, ent v o m = Some c end) ∨
       (∃ o, let m := vfs_name_mangle cfg nm in
          e = 0 ∧ ent v d m = Some o ∧ (∀ m', ent v o m' = None) ∧ renamed top d m None (λ x y, if decide (x = o) then None else y) v v'));
  stat_law s v q : rel s v → q ∈ held v → ∃ st s' v', op_stat q s = Ok (0, st, s') ∧ rel s' v' ∧ held v' = held v ∧ same top v v' ∧ (∀ a, fresh a s → fresh a s') ∧ (st_type st = if dirp v q then VFS_NODE_DIR else VFS_NODE_FILE);
  open_law a flags s v q : rel s v → q ∈ held v → RamfsFile.flag flags VFS_OPEN_TRUNCATE = false →
    ∃ e f s' v', op_node_open a flags q s = Ok (e, f, s') ∧ rel s' v' ∧ same top v v' ∧ (∀ b, fresh b s → fresh b s') ∧ (e ≠ 0 ∧ ¬ gives a ∧ f = None ∧ held v' = held v ∨ e = 0 ∧ is_Some f ∧ held v' = held v ⊎ {[+ q +]}) }.

(** *** The tree *)

Lemma same_at_trans q v1 v2 v3 : same_at q v1 v2 → same_at q v2 v3 → same_at q v1 v3.
Proof. intros (? & H & ?) (? & H' & ?). split_and!; [congruence| |congruence]. intros m. by rewrite H', H. Qed.
Lemma same_refl r v : same r v v.
Proof. done. Qed.
(** The tree is the same. *)
Definition steady (r : nat) (v v' : view) : Prop := ∀ q, reach v r q → same_at q v v'.
Lemma steady_reach r v v' q : steady r v v' → reach v' r q ↔ reach v r q.
Proof.
  intros H. split; induction 1 as [|q m c Hq IH Hc]; try constructor; apply (reach_ent _ _ q m c); try done; [destruct (H q IH) as (_ & <- & _)|destruct (H q Hq) as (_ & -> & _)]; done.
Qed.
Lemma steady_trans r v1 v2 v3 : steady r v1 v2 → steady r v2 v3 → steady r v1 v3.
Proof. intros H1 H2 q Hq. eapply same_at_trans; [by apply H1|]. by apply H2, (steady_reach r v1 v2 q H1). Qed.
Lemma same_steady r v v' : same r v v' → steady r v v'.
Proof.
  intros H. assert (∀ q, reach v r q → reach v' r q) as Hf.
  { induction 1 as [|q m c Hq IH Hc]; [constructor|]. apply (reach_ent _ _ q m c IH). destruct (H q) as (_ & -> & _); [by right..|done]. }
  intros q Hq. apply H; right; [done|by apply Hf].
Qed.
(** The directory [d] of the tree has the entry [c] under the name [m]. *)
Definition edited (r d : nat) (m : list Z) (c : option nat) (v v' : view) : Prop :=
  ∀ q, reach v r q → reach v' r q → dirp v' q = dirp v q ∧ ∀ m', ent v' q m' = if decide (q = d ∧ m' = m) then c else ent v q m'.
Lemma edited_steady r d m c v v1 v2 : edited r d m c v v1 → steady r v1 v2 → edited r d m c v v2.
Proof.
  intros H Hs q Hq Hq2. apply (steady_reach r v1 v2 q Hs) in Hq2. destruct (Hs q Hq2) as (Hd & He & _). destruct (H q Hq Hq2) as [Hd' He']. split; [congruence|]. intros m'. by rewrite He, He'.
Qed.
Lemma renamed_edited r d m c u v v' : renamed r d m c u v v' → edited r d m c v v'.
Proof. intros H q Hq Hq'. destruct (H q) as (? & ? & _); [by right..|done]. Qed.

(** ** The abstract cache *)

Record vattr := { a_name : list Z; a_parent : option nat; a_fsn : nat }.
(** The cached nodes, the directory whose list each node is in, and the references of
    callers. *)
Record cache := { attrs : gmap nat vattr; place : gmap nat nat; ext : gmultiset nat }.

Definition set_attrs f C := {| attrs := f (attrs C); place := place C; ext := ext C |}.
Definition set_place f C := {| attrs := attrs C; place := f (place C); ext := ext C |}.
Definition set_ext f C := {| attrs := attrs C; place := place C; ext := f (ext C) |}.
Definition with_parent p a := {| a_name := a_name a; a_parent := p; a_fsn := a_fsn a |}.
Lemma cache_eq C C' : attrs C = attrs C' → place C = place C' → ext C = ext C' → C = C'.
Proof. destruct C, C'. cbn. by intros -> -> ->. Qed.

(** The references that exist: of callers, of the list of the parent, of children. *)
Definition child_of (n : nat) (x : nat * vattr) : Prop := a_parent x.2 = Some n ∧ x.1 ≠ n.
#[export] Instance child_of_dec n x : Decision (child_of n x).
Proof. unfold child_of. apply _. Defined.
Definition linked (C : cache) (n : nat) : nat := if place C !! n is Some _ then 1 else 0.
Definition users (C : cache) (n : nat) : nat := size (filter (child_of n) (attrs C)).
Definition refs (C : cache) (n : nat) : nat := multiplicity n (ext C) + linked C n + users C n.

Definition hold (n : nat) (C : cache) : cache := set_ext (λ h, h ⊎ {[+ n +]}) C.
Definition unhold (n : nat) (C : cache) : cache := set_ext (λ h, h ∖ {[+ n +]}) C.
(** The nodes of the file system the cache refers to. *)
Definition fsrefs (C : cache) : gmultiset nat := list_to_set_disj ((λ x, a_fsn x.2) <$> map_to_list (attrs C)).

Record wf (C : cache) : Prop := {
  wf_place : ∀ c n, place C !! c = Some n → c ≠ n ∧ a_parent <$> attrs C !! c = Some (Some n);
  wf_parent : ∀ c a n, attrs C !! c = Some a → a_parent a = Some n → is_Some (attrs C !! n);
  wf_ext : ∀ n, n ∈ ext C → is_Some (attrs C !! n) }.

(** ** Counting *)

Lemma users_delete (m : gmap nat vattr) n a d : m !! n = Some a →
  size (filter (child_of d) m) = (size (filter (child_of d) (delete n m)) + if decide (child_of d (n, a)) then 1 else 0)%nat.
Proof.
  intros E. rewrite <-(insert_delete_id m n a E) at 1. assert (delete n m !! n = None) as Hn by apply lookup_delete_eq.
  destruct (decide (child_of d (n, a))).
  - rewrite map_filter_insert_True by done. rewrite map_size_insert_None; [lia|]. apply map_lookup_filter_None. by left.
  - rewrite map_filter_insert_False by done. rewrite (delete_id (delete n m)) by done. lia.
Qed.
Lemma users_parent p n a C d : attrs C !! n = Some a →
  (users (set_attrs (alter (with_parent p) n) C) d + (if decide (child_of d (n, a)) then 1 else 0) = users C d + if decide (p = Some d ∧ n ≠ d) then 1 else 0)%nat.
Proof.
  intros E. unfold users. cbn [set_attrs attrs]. rewrite (users_delete (alter (with_parent p) n (attrs C)) n (with_parent p a) d) by (by rewrite lookup_alter_eq, E).
  rewrite (users_delete (attrs C) n a d E). replace (delete n (alter (with_parent p) n (attrs C))) with (delete n (attrs C)).
  - destruct (decide (child_of d (n, with_parent p a))) as [H1|H1], (decide (p = Some d ∧ n ≠ d)) as [H2|H2]; try lia; exfalso; unfold child_of in H1; cbn in H1; tauto.
  - apply map_eq. intros i. destruct (decide (i = n)) as [->|]; [by rewrite !lookup_delete_eq|]. by rewrite !lookup_delete_ne, lookup_alter_ne.
Qed.
Lemma users_none C n : users C n = 0%nat ↔ ∀ c a, attrs C !! c = Some a → a_parent a = Some n → c = n.
Proof.
  unfold users. rewrite map_size_empty_iff. split.
  - intros H c a Ha Hp. destruct (decide (c = n)) as [|Hne]; [done|]. assert (filter (child_of n) (attrs C) !! c = Some a) as H' by (by apply map_lookup_filter_Some). by rewrite H in H'.
  - intros H. apply map_empty. intros c. apply map_lookup_filter_None. right. intros a Ha [Hp Hne]. cbn in *. eauto.
Qed.
Lemma refs_of_hold n m C : refs (hold n C) m = (refs C m + if decide (m = n) then 1 else 0)%nat.
Proof. unfold refs, linked, users, hold. cbn [set_ext ext place attrs]. rewrite multiplicity_disj_union, multiplicity_singleton. destruct (decide (m = n)); lia. Qed.
Lemma refs_of_unhold n m C : n ∈ ext C → refs C m = (refs (unhold n C) m + if decide (m = n) then 1 else 0)%nat.
Proof.
  intros Hn. unfold refs, linked, users, unhold. cbn [set_ext ext place attrs]. rewrite multiplicity_difference, multiplicity_singleton.
  pose proof (proj1 (elem_of_multiplicity n (ext C)) Hn). destruct (decide (m = n)); subst; lia.
Qed.
Lemma ext_refs n C : n ∈ ext C → (0 < refs C n)%nat.
Proof. intros H. pose proof (refs_of_unhold n n C H) as E. rewrite decide_True in E by done. lia. Qed.

Lemma fsrefs_insert C n a : attrs C !! n = None → fsrefs (set_attrs (insert n a) C) = fsrefs C ⊎ {[+ a_fsn a +]}.
Proof.
  intros Hn. unfold fsrefs. cbn [set_attrs attrs]. rewrite (map_to_list_insert _ _ _ Hn). cbn [fmap list_fmap]. rewrite list_to_set_disj_cons. multiset_solver.
Qed.
Lemma fsrefs_delete C n a : attrs C !! n = Some a → fsrefs C = fsrefs (set_attrs (delete n) C) ⊎ {[+ a_fsn a +]}.
Proof.
  intros Hn. rewrite <-(fsrefs_insert (set_attrs (delete n) C) n a) by apply lookup_delete_eq. f_equal. apply cache_eq; try done.
  cbn [set_attrs attrs]. by rewrite insert_delete_id.
Qed.
Lemma fsrefs_alter C n p : fsrefs (set_attrs (alter (with_parent p) n) C) = fsrefs C.
Proof.
  destruct (attrs C !! n) as [a|] eqn:E.
  - rewrite (fsrefs_delete _ n (with_parent p a)) by (cbn [set_attrs attrs]; by rewrite lookup_alter_eq, E). rewrite (fsrefs_delete C n a E). f_equal. f_equal. apply cache_eq; try done.
    cbn [set_attrs attrs]. apply map_eq. intros i. destruct (decide (i = n)) as [->|]; [by rewrite !lookup_delete_eq|]. by rewrite !lookup_delete_ne, lookup_alter_ne.
  - f_equal. apply cache_eq; try done. cbn [set_attrs attrs]. apply map_eq. intros i. destruct (decide (i = n)) as [->|]; [by rewrite lookup_alter_eq, E|by rewrite lookup_alter_ne].
Qed.
Lemma fsrefs_ext f C : fsrefs (set_ext f C) = fsrefs C.
Proof. done. Qed.
Lemma fsrefs_elem C n a : attrs C !! n = Some a → a_fsn a ∈ fsrefs C.
Proof. intros H. rewrite (fsrefs_delete C n a H). multiset_solver. Qed.

Section core.
Context {A F S : Type} `{ops : !FsOps A F S} (cfg : config) `{laws : !FsLaws A F S cfg} (vol : nat) (Fr : A → Prop).
Abbreviation vfs := (vfs S).

(** ** The heap that represents a cache *)

Definition chains_ok (C : cache) (n : nat) (b : list (list nat)) : Prop :=
  length b = Ramfs.hashsize ∧ ∀ i ch, b !! i = Some ch → NoDup ch ∧
    ∀ c, c ∈ ch ↔ place C !! c = Some n ∧ ∃ a, attrs C !! c = Some a ∧ Ramfs.hash_index cfg (a_name a) = i.

(** [L]: the directories whose semaphore is taken. *)
Record node_ok (L : gset nat) (C : cache) (n : nat) (x : vfs_node_s) (a : vattr) : Prop := {
  n_name : v_name x = a_name a;
  n_parent : v_parent x = a_parent a;
  n_fsn : v_fs_node x = a_fsn a;
  n_fs : v_fs x = vol;
  n_refcnt : v_refcnt x = Z.of_nat (refs C n);
  n_live : (0 < refs C n)%nat;
  n_chains : chains_ok C n (v_children x);
  n_sem : v_dir_semaphore x = if bool_decide (n ∈ L) then 0 else 1 }.

(** The volume, which can be written, lists the nodes that are marked. *)
Definition lru_ok (s : vfs) : Prop :=
  ∃ w, volumes s !! vol = Some w ∧ (fs_root w = top ∧ flag_ro w = false) ∧ NoDup (lru_list w) ∧ ∀ n, n ∈ lru_list w ↔ ∃ x, vnodes s !! n = Some x ∧ v_in_lru x = true.

Record core (L : gset nat) (C : cache) (s : vfs) : Prop := {
  c_wf : wf C;
  c_nodes : ∀ n, match vnodes s !! n, attrs C !! n with Some x, Some a => node_ok L C n x a | None, None => True | _, _ => False end;
  c_lru : lru_ok s }.

(** The cache over a file system: [X] are references to its nodes that others own,
    [Fr] answers that are still unused. *)
Record st (L : gset nat) (C : cache) (v : view) (X : gmultiset nat) (s : vfs) : Prop := {
  s_core : core L C s;
  s_rel : rel (under s) v;
  s_held : held v = X ⊎ fsrefs C;
  s_fresh : ∀ a, Fr a → fresh a (under s) }.

Lemma st_core L L' C C' v X s s' : st L C v X s → core L' C' s' → under s' = under s → fsrefs C' = fsrefs C → st L' C' v X s'.
Proof. intros [_ Hr Hh Hfr] Hc Hu Hf. split; [done|by rewrite Hu|by rewrite Hf|by rewrite Hu]. Qed.

Lemma getn_spec L C v X s n a : st L C v X s → attrs C !! n = Some a → ∃ x, getn n s = Ok x ∧ vnodes s !! n = Some x ∧ node_ok L C n x a.
Proof.
  intros [[_ Hn _] _ _ _] Ha. specialize (Hn n). rewrite Ha in Hn. destruct (vnodes s !! n) as [x|] eqn:E; [|done]. exists x. unfold getn. by rewrite E.
Qed.
Lemma getf_spec L C v X s : st L C v X s → ∃ w, getf vol s = Ok w ∧ volumes s !! vol = Some w ∧ fs_root w = top ∧ flag_ro w = false.
Proof. intros [[_ _ (w & E & [Ht Hro] & _)] _ _ _]. exists w. unfold getf. by rewrite E. Qed.

Lemma node_ok_same L L' C C' n x a : node_ok L C n x a → refs C' n = refs C n → (∀ b, chains_ok C n b → chains_ok C' n b) → (n ∈ L' ↔ n ∈ L) → node_ok L' C' n x a.
Proof.
  intros [H1 H2 H3 H4 H5 H6 H7 H8] Hr Hch HL. split; try done; [by rewrite Hr|by rewrite Hr|by apply Hch|]. rewrite H8. by rewrite (bool_decide_ext _ _ HL).
Qed.
Lemma lru_put s n x y : lru_ok s → vnodes s !! n = Some y → v_in_lru x = v_in_lru y → lru_ok (putn n x s).
Proof.
  intros (w & E & [Ht Hro] & Hnd & Hl) Hn Hx. exists w. split_and!; try done. intros m. rewrite Hl. cbn [putn vnodes]. destruct (decide (m = n)) as [->|Hne].
  - rewrite Hn, lookup_insert_eq. split; intros (z & [= <-] & ?); eexists; (split; [done|congruence]).
  - by rewrite lookup_insert_ne.
Qed.
Lemma core_putn L L' C C' s n x y a : core L C s → wf C' → attrs C' !! n = Some a → node_ok L' C' n x a →
  vnodes s !! n = Some y → v_in_lru x = v_in_lru y →
  (∀ m, m ≠ n → attrs C' !! m = attrs C !! m) → (∀ m b, m ≠ n → chains_ok C m b → chains_ok C' m b) → (∀ m, m ≠ n → refs C' m = refs C m) →
  (∀ m, m ≠ n → m ∈ L' ↔ m ∈ L) → core L' C' (putn n x s).
Proof.
  intros [Hw Hn Hl] Hw' Ha Hx Hy Hi Hat Hch Hrf HL. split; [done| |by eapply lru_put].
  intros m. unfold putn. cbn [vnodes]. destruct (decide (m = n)) as [->|Hne]; [by rewrite lookup_insert_eq, Ha|].
  rewrite lookup_insert_ne, Hat by done. specialize (Hn m). destruct (vnodes s !! m), (attrs C !! m) as [a'|]; try done. eapply node_ok_same; eauto.
Qed.

(** *** References and semaphores *)

Lemma refnew_spec' L C v X s n : st L C v X s → is_Some (attrs C !! n) → ∃ s', vfs_node_refnew n s = Ok s' ∧ st L (hold n C) v X s'.
Proof.
  intros Hs [a Ha]. destruct (getn_spec _ _ _ _ _ _ _ Hs Ha) as (x & E & Hnx & Hx). pose proof Hs as [Hc _ _ _]. pose proof (c_wf _ _ _ Hc) as [W1 W2 W3].
  unfold vfs_node_refnew. rewrite E. cbn [mbind outcome_bind]. rewrite (n_refcnt _ _ _ _ _ Hx). destruct (Z.geb_spec (Z.of_nat (refs C n)) 0); [|lia]. cbn [require mbind outcome_bind].
  eexists. split; [done|]. eapply st_core; [done| |done|done]. eapply (core_putn L L C (hold n C)); try done.
  - split; try done. intros m Hm. cbn [hold set_ext ext] in Hm. apply gmultiset_elem_of_disj_union in Hm as [Hm|Hm]; [by apply W3|]. apply gmultiset_elem_of_singleton in Hm as ->. eauto.
  - destruct Hx. split; try done; rewrite refs_of_hold, decide_True by done; [cbn [set_refcnt v_refcnt]; lia|lia].
  - intros m Hm. rewrite refs_of_hold, decide_False by done. lia.
Qed.
(** The counter goes down, but not to 0. *)
Lemma unhold_core L C v X s n a x : st L C v X s → n ∈ ext C → attrs C !! n = Some a → vnodes s !! n = Some x → node_ok L C n x a → (1 < refs C n)%nat →
  st L (unhold n C) v X (putn n (set_refcnt (v_refcnt x - 1) x) s).
Proof.
  intros Hs Hh Ha Hnx Hx Hr. pose proof Hs as [Hc _ _ _]. pose proof (c_wf _ _ _ Hc) as [W1 W2 W3]. pose proof (refs_of_unhold n n C Hh) as Hrn. rewrite decide_True in Hrn by done.
  eapply st_core; [done| |done|done]. eapply (core_putn L L C); try done.
  - split; try done. intros m Hm. apply W3. cbn [unhold set_ext ext] in Hm. multiset_solver.
  - destruct Hx. split; try done; [cbn [set_refcnt v_refcnt]; lia|lia].
  - intros m Hm. pose proof (refs_of_unhold n m C Hh) as Hrm. rewrite decide_False in Hrm by done. lia.
Qed.

Lemma sem_spec L L' C v X s n a x k : st L C v X s → attrs C !! n = Some a → vnodes s !! n = Some x → node_ok L C n x a →
  k = (if bool_decide (n ∈ L') then 0 else 1) → (∀ m, m ≠ n → m ∈ L' ↔ m ∈ L) → st L' C v X (putn n (set_semaphore k x) s).
Proof.
  intros Hs Ha Hnx Hx -> HL. pose proof Hs as [Hc _ _ _]. eapply st_core; [done| |done|done]. eapply (core_putn L L' C C); try done; [by destruct Hc|]. by destruct Hx.
Qed.
Lemma dirlock_spec L C v X s n : st L C v X s → is_Some (attrs C !! n) → n ∉ L → ∃ s', vfs_node_dirlock n s = Ok s' ∧ st ({[n]} ∪ L) C v X s'.
Proof.
  intros Hs [a Ha] HL. destruct (getn_spec _ _ _ _ _ _ _ Hs Ha) as (x & E & Hnx & Hx). unfold vfs_node_dirlock. rewrite E. cbn [mbind outcome_bind]. rewrite (n_sem _ _ _ _ _ Hx), bool_decide_false by done.
  cbn [Z.sub Z.geb Z.compare require mbind outcome_bind]. eexists. split; [done|]. eapply sem_spec; try done; [by rewrite bool_decide_true by set_solver|set_solver].
Qed.
Lemma dirunlock_spec L C v X s n : st L C v X s → is_Some (attrs C !! n) → n ∈ L → ∃ s', vfs_node_dirunlock n s = Ok s' ∧ st (L ∖ {[n]}) C v X s'.
Proof.
  intros Hs [a Ha] HL. destruct (getn_spec _ _ _ _ _ _ _ Hs Ha) as (x & E & Hnx & Hx). unfold vfs_node_dirunlock, modn. rewrite E. cbn [mbind outcome_bind]. rewrite (n_sem _ _ _ _ _ Hx), bool_decide_true by done.
  eexists. split; [done|]. eapply sem_spec; try done; [by rewrite bool_decide_false by set_solver|set_solver].
Qed.
Lemma dirtrylock_spec L C v X s n : st L C v X s → is_Some (attrs C !! n) →
  if decide (n ∈ L) then vfs_node_dirtrylock n s = Ok (EBUSY, s) else ∃ s', vfs_node_dirtrylock n s = Ok (0, s') ∧ st ({[n]} ∪ L) C v X s'.
Proof.
  intros Hs [a Ha]. destruct (getn_spec _ _ _ _ _ _ _ Hs Ha) as (x & E & Hnx & Hx). unfold vfs_node_dirtrylock. rewrite E. cbn [mbind outcome_bind]. rewrite (n_sem _ _ _ _ _ Hx).
  destruct (decide (n ∈ L)) as [HL|HL]; [by rewrite bool_decide_true|]. rewrite bool_decide_false by done. cbn [Z.sub Z.ltb Z.compare]. eexists. split; [done|].
  eapply sem_spec; try done; [by rewrite bool_decide_true by set_solver|set_solver].
Qed.
Definition hold_opt (o : option nat) (C : cache) : cache := match o with Some n => hold n C | None => C end.
Lemma get_parent_spec L C v X s n a : st L C v X s → attrs C !! n = Some a → ∃ s', vfs_node_get_parent n s = Ok (a_parent a, s') ∧ st L (hold_opt (a_parent a) C) v X s'.
Proof.
  intros Hs Ha. destruct (getn_spec _ _ _ _ _ _ _ Hs Ha) as (x & E & Hnx & Hx). unfold vfs_node_get_parent. rewrite E. cbn [mbind outcome_bind]. rewrite (n_parent _ _ _ _ _ Hx).
  destruct (a_parent a) as [p|] eqn:Ep; [|by exists s]. destruct (refnew_spec' L C v X s p Hs) as (s' & -> & Hs'); [|by exists s']. pose proof (s_core _ _ _ _ _ Hs) as Hc. by apply (wf_parent _ (c_wf _ _ _ Hc) n a).
Qed.

(** *** The list of nodes to recycle *)

(** A change of the mark of a node and of the list together. *)
Lemma lru_change L C v X s n a x w l k : st L C v X s → attrs C !! n = Some a → vnodes s !! n = Some x → volumes s !! vol = Some w → NoDup l →
  (∀ m, m ∈ l ↔ if decide (m = n) then k = true else m ∈ lru_list w) →
  st L C v X (Build_vfs (<[n := set_in_lru k x]> (vnodes s)) (<[vol := set_lru l w]> (volumes s)) (global_root s) (under s)).
Proof.
  intros Hs Ha Hnx Hw Hnd Hl. pose proof Hs as [[Hwf Hn (w' & Ew & [Ht Hro] & Hnd' & Hl')] Hr Hh Hfr]. rewrite Hw in Ew. injection Ew as <-. split; [|done|done|done]. split; [done| |].
  - intros m. cbn [vnodes]. destruct (decide (m = n)) as [->|Hne]; [|rewrite lookup_insert_ne by done; apply Hn]. rewrite lookup_insert_eq. specialize (Hn n). rewrite Hnx, Ha in *. by destruct Hn.
  - exists (set_lru l w). cbn [volumes]. rewrite lookup_insert_eq. split_and!; try done. intros m. cbn [set_lru lru_list vnodes]. rewrite Hl. destruct (decide (m = n)) as [->|Hne].
    + rewrite lookup_insert_eq. split; [intros ->; eauto|]. intros (? & [= <-] & ?). done.
    + by rewrite lookup_insert_ne, Hl'.
Qed.
Lemma modf_eq (s : vfs) w g : volumes s !! vol = Some w → modf vol g s = Ok (Build_vfs (vnodes s) (<[vol := g w]> (volumes s)) (global_root s) (under s)).
Proof. intros E. unfold modf, getf. by rewrite E. Qed.
Lemma st_lru L C v X s w : st L C v X s → volumes s !! vol = Some w → (fs_root w = top ∧ flag_ro w = false) ∧ NoDup (lru_list w) ∧ ∀ n, n ∈ lru_list w ↔ ∃ x, vnodes s !! n = Some x ∧ v_in_lru x = true.
Proof. intros [[_ _ (w' & Ew & ?)] _ _ _] E. rewrite E in Ew. by injection Ew as <-. Qed.
Lemma lru_insert_spec (s : vfs) n k l : (∀ m, m ∈ l → is_Some (vnodes s !! m)) → ∃ l', lru_insert n k l s = Ok l' ∧ l' ≡ₚ n :: l.
Proof.
  induction l as [|m l IH]; intros Hl; [by exists [n]|]. cbn [lru_insert]. destruct (Hl m) as [x Hx]; [set_solver|]. unfold getn at 1. rewrite Hx. cbn [of_option mbind outcome_bind].
  destruct (k <=? v_refcnt x); [by eexists|]. destruct IH as (l' & -> & Hp); [set_solver|]. cbn [mbind outcome_bind]. eexists. split; [done|]. rewrite Hp. constructor.
Qed.
(** Out of the list, if it is in. *)
Lemma lru_out (s : vfs) n x w : lru_ok s → vnodes s !! n = Some x → volumes s !! vol = Some w →
  (if v_in_lru x then vfs_lru_remove vol n s else Ok s) = Ok (Build_vfs (vnodes s) (<[vol := set_lru (filter (λ m, m ≠ n) (lru_list w)) w]> (volumes s)) (global_root s) (under s)).
Proof.
  intros (w' & Ew' & _ & Hnd & Hl) Hnx Hw. rewrite Hw in Ew'. injection Ew' as <-. destruct (v_in_lru x) eqn:Ei.
  - unfold vfs_lru_remove, getf. rewrite Hw. cbn [of_option mbind outcome_bind]. rewrite bool_decide_true by (apply Hl; eauto). cbn [require mbind outcome_bind]. by rewrite (modf_eq s w _ Hw).
  - rewrite list_filter_all; [|apply Forall_forall; intros m Hm ->; apply Hl in Hm as (? & ? & ?); congruence]. replace (set_lru (lru_list w) w) with w by (by destruct w). rewrite insert_id by done. by destruct s.
Qed.
Lemma lru_filter n m (l : list nat) : m ∈ filter (λ y, y ≠ n) l ↔ m ≠ n ∧ m ∈ l.
Proof. by rewrite list_elem_of_filter. Qed.
Lemma lru_drop_spec L C v X s n : st L C v X s → is_Some (attrs C !! n) → ∃ s', vfs_node_lru_drop n s = Ok s' ∧ st L C v X s'.
Proof.
  intros Hs [a Ha]. destruct (getn_spec _ _ _ _ _ _ _ Hs Ha) as (x & E & Hnx & Hx). destruct (getf_spec _ _ _ _ _ Hs) as (w & _ & Ew & _). destruct (st_lru _ _ _ _ _ _ Hs Ew) as (_ & Hnd & Hl).
  unfold vfs_node_lru_drop. rewrite E. cbn [mbind outcome_bind]. rewrite (n_fs _ _ _ _ _ Hx), (lru_out s n x w (c_lru _ _ _ (s_core _ _ _ _ _ Hs)) Hnx Ew). cbn [mbind outcome_bind]. unfold modn, getn. cbn [vnodes]. rewrite Hnx. cbn [of_option mbind outcome_bind].
  eexists. split; [done|]. unfold putn. cbn [vnodes volumes global_root under]. eapply lru_change; try done; [by apply NoDup_filter|].
  intros m. rewrite lru_filter. destruct (decide (m = n)); naive_solver.
Qed.
Lemma lru_rehash_spec L C v X s n : st L C v X s → is_Some (attrs C !! n) → ∃ s', vfs_node_lru_rehash n s = Ok s' ∧ st L C v X s'.
Proof.
  intros Hs [a Ha]. destruct (getn_spec _ _ _ _ _ _ _ Hs Ha) as (x & E & Hnx & Hx). destruct (getf_spec _ _ _ _ _ Hs) as (w & _ & Ew & _). destruct (st_lru _ _ _ _ _ _ Hs Ew) as (_ & Hnd & Hl).
  unfold vfs_node_lru_rehash. rewrite E. cbn [mbind outcome_bind]. rewrite (n_fs _ _ _ _ _ Hx), (lru_out s n x w (c_lru _ _ _ (s_core _ _ _ _ _ Hs)) Hnx Ew). cbn [mbind outcome_bind]. unfold modn, getn at 1. cbn [vnodes]. rewrite Hnx. cbn [of_option mbind outcome_bind].
  unfold putn. cbn [vnodes volumes global_root under]. set (s1 := Build_vfs _ _ _ _). assert (volumes s1 !! vol = Some (set_lru (filter (λ m, m ≠ n) (lru_list w)) w)) as Ew1 by (cbn [s1 volumes]; by rewrite lookup_insert_eq).
  assert (getn n s1 = Ok (set_in_lru true x)) as En1 by (unfold getn; cbn [s1 vnodes]; by rewrite lookup_insert_eq).
  unfold vfs_lru_insert_ascend, getf. rewrite Ew1, En1. cbn [of_option mbind outcome_bind set_lru lru_list]. destruct (lru_insert_spec s1 n (v_refcnt (set_in_lru true x)) (filter (λ m, m ≠ n) (lru_list w))) as (l & -> & Hp).
  { intros m [Hm Hi]%lru_filter. cbn [s1 vnodes]. rewrite lookup_insert_ne by done. apply Hl in Hi as (y & -> & _). eauto. }
  cbn [mbind outcome_bind]. rewrite (modf_eq s1 _ _ Ew1). eexists. split; [done|]. cbn [s1 vnodes volumes global_root under]. rewrite insert_insert_eq. change (set_lru l (set_lru (filter (λ m, m ≠ n) (lru_list w)) w)) with (set_lru l w).
  eapply lru_change; try done.
  - rewrite Hp. constructor; [by intros [? _]%lru_filter|by apply NoDup_filter].
  - intros m. rewrite Hp, elem_of_cons, lru_filter. destruct (decide (m = n)); naive_solver.
Qed.
Lemma lru_pop_spec L C v X s : st L C v X s → ∃ w, volumes s !! vol = Some w ∧
  match lru_list w with
  | [] => vfs_lru_pop vol s = Ok (None, s)
  | n :: _ => ∃ s1 s', vfs_lru_pop vol s = Ok (Some n, s1) ∧ is_Some (attrs C !! n) ∧ modn n (set_in_lru false) s1 = Ok s' ∧ st L C v X s'
  end.
Proof.
  intros Hs. destruct (getf_spec _ _ _ _ _ Hs) as (w & Eg & Ew & _). exists w. split; [done|]. destruct (st_lru _ _ _ _ _ _ Hs Ew) as (_ & Hnd & Hl). unfold vfs_lru_pop. rewrite Eg. cbn [mbind outcome_bind].
  destruct (lru_list w) as [|n l] eqn:El; [done|]. rewrite (modf_eq s w _ Ew). cbn [mbind outcome_bind]. destruct (proj1 (Hl n)) as (x & Hnx & Hi); [set_solver|].
  pose proof (c_nodes _ _ _ (s_core _ _ _ _ _ Hs) n) as Hn. rewrite Hnx in Hn. destruct (attrs C !! n) as [a|] eqn:Ha; [|done]. do 2 eexists. split; [done|]. split; [done|]. unfold modn, getn. cbn [vnodes]. rewrite Hnx. cbn [of_option mbind outcome_bind].
  split; [done|]. unfold putn. cbn [vnodes volumes global_root under]. apply NoDup_cons in Hnd as [Hni Hnd]. eapply lru_change; try done. intros m. rewrite El. destruct (decide (m = n)) as [->|]; [naive_solver|set_solver].
Qed.

(** *** The last reference *)

(** What is left when a reference is dropped. *)
Definition let_go (n : nat) (C : cache) : cache := if (refs C n =? 1)%nat then set_attrs (delete n) (unhold n C) else unhold n C.

Lemma last_ref C n : n ∈ ext C → refs C n = 1%nat → place C !! n = None ∧ users C n = 0%nat ∧ multiplicity n (ext C) = 1%nat.
Proof. intros Hh Hr. unfold refs, linked in Hr. pose proof (proj1 (elem_of_multiplicity n (ext C)) Hh). destruct (place C !! n); split_and!; (done || lia). Qed.
Lemma freed_node_refs C n a m : attrs C !! n = Some a → a_parent a = None → n ∈ ext C → m ≠ n → refs (set_attrs (delete n) (unhold n C)) m = refs C m.
Proof.
  intros Ha Hp Hh Hm. unfold refs, linked, users. cbn [set_attrs unhold set_ext ext place attrs]. rewrite multiplicity_difference, multiplicity_singleton, decide_False by done.
  rewrite (users_delete (attrs C) n a m Ha), decide_False; [lia|]. unfold child_of. cbn. rewrite Hp. naive_solver.
Qed.
Lemma freed_core L C s n a x w r u : core L C s → attrs C !! n = Some a → a_parent a = None → n ∈ ext C → refs C n = 1%nat → vnodes s !! n = Some x → volumes s !! vol = Some w →
  core L (set_attrs (delete n) (unhold n C)) (Build_vfs (delete n (vnodes s)) (<[vol := set_fs_ref r (set_lru (filter (λ m, m ≠ n) (lru_list w)) w)]> (volumes s)) (global_root s) u).
Proof.
  intros [[W1 W2 W3] Hn (w' & Ew & [Ht Hro] & Hnd & Hl)] Ha Hp Hh Hr Hnx Hw. rewrite Hw in Ew. injection Ew as <-. destruct (last_ref C n Hh Hr) as (Hpl & Hus & Hmu). rewrite users_none in Hus. split.
  - split; cbn [set_attrs unhold set_ext attrs place ext].
    + intros c m Hc. destruct (W1 c m Hc) as [Hne Hpc]. split; [done|]. rewrite lookup_delete_ne by congruence. done.
    + intros c b m [Hne Hc]%lookup_delete_Some Hm. rewrite lookup_delete_ne; [eauto|]. intros <-. destruct Hne. symmetry. eauto.
    + intros m Hm. assert (m ∈ ext C) as Hm' by multiset_solver. rewrite lookup_delete_ne; [eauto|]. intros <-. pose proof (proj1 (elem_of_multiplicity _ _) Hm) as Hm2. rewrite multiplicity_difference, multiplicity_singleton, decide_True in Hm2 by done. lia.
  - intros m. cbn [vnodes set_attrs unhold set_ext attrs]. destruct (decide (m = n)) as [->|Hne]; [by rewrite !lookup_delete_eq|]. rewrite !lookup_delete_ne by done. specialize (Hn m).
    destruct (vnodes s !! m), (attrs C !! m); try done. eapply node_ok_same; [done|by eapply freed_node_refs| |done].
    intros b [Hbl Hb]. split; [done|]. intros i ch Hi. destruct (Hb i ch Hi) as [Hnd' Hin]. split; [done|]. intros c. rewrite Hin. cbn [set_attrs unhold set_ext attrs place].
    split; intros (Hc & a' & Ea & Eh); (split; [done|]); exists a'; (split; [|done]); [rewrite lookup_delete_ne; [done|congruence]|by apply lookup_delete_Some in Ea as [_ ?]].
  - eexists. cbn [volumes vnodes]. rewrite lookup_insert_eq. split_and!; [done|done|done|by apply NoDup_filter|]. intros m. cbn [set_fs_ref set_lru lru_list]. rewrite lru_filter, Hl.
    split; [intros [? (y & ? & ?)]; exists y; by rewrite lookup_delete_ne|]. intros (y & [? ?]%lookup_delete_Some & ?). eauto.
Qed.
Lemma refdrop_loop_spec L C v X s n fuel : st L C v X s → n ∈ ext C → top ∈ X → (1 < refs C n)%nat ∨ a_parent <$> attrs C !! n = Some None →
  ∃ s' v', refdrop_loop (Datatypes.S fuel) n s = Ok s' ∧ st L (let_go n C) v' X s' ∧ same top v v'.
Proof.
  intros Hs Hh Ht Hor. pose proof Hs as [Hc Hr Hv Hfr]. destruct (wf_ext _ (c_wf _ _ _ Hc) _ Hh) as [a Ha]. destruct (getn_spec _ _ _ _ _ _ _ Hs Ha) as (x & E & Hnx & Hx).
  cbn [refdrop_loop]. rewrite E. cbn [mbind outcome_bind]. pose proof (n_refcnt _ _ _ _ _ Hx) as Hrc. pose proof (n_live _ _ _ _ _ Hx) as Hlv.
  destruct (Z.gtb_spec (v_refcnt x) 0); [|lia]. cbn [require mbind outcome_bind]. unfold let_go. destruct (decide (refs C n = 1%nat)) as [H1|H1].
  2:{ destruct (Z.eqb_spec (v_refcnt x - 1) 0); [lia|]. destruct (Nat.eqb_spec (refs C n) 1); [lia|]. cbn [negb]. do 2 eexists. split; [done|]. split; [|apply same_refl]. by eapply unhold_core; [done..|lia]. }
  destruct Hor as [|Hp]; [lia|]. rewrite Ha in Hp. cbn in Hp. injection Hp as Hp. rewrite H1, Nat.eqb_refl. rewrite Hrc, H1. change (Z.of_nat 1 - 1) with 0. cbn [Z.eqb negb].
  unfold vfs_node_destructor, vfs_node_get_parent. set (s1 := putn n (set_refcnt 0 x) s). assert (vnodes s1 !! n = Some (set_refcnt 0 x)) as Hn1 by (cbn; by rewrite lookup_insert_eq).
  assert (getn n s1 = Ok (set_refcnt 0 x)) as E1 by (unfold getn; by rewrite Hn1). rewrite E1. cbn [mbind outcome_bind set_refcnt v_parent]. rewrite (n_parent _ _ _ _ _ Hx), Hp. cbn [mbind outcome_bind]. rewrite E1. cbn [mbind outcome_bind].
  destruct (getf_spec _ _ _ _ _ Hs) as (w & _ & Ew & _). pose proof (lru_out s1 n _ w (lru_put s n (set_refcnt 0 x) x (c_lru _ _ _ Hc) Hnx eq_refl) Hn1 Ew) as Hlo.
  change (v_in_lru (set_refcnt 0 x)) with (v_in_lru x) in *. change (v_fs (set_refcnt 0 x)) with (v_fs x). change (v_fs_node (set_refcnt 0 x)) with (v_fs_node x). rewrite (n_fs _ _ _ _ _ Hx), (n_fsn _ _ _ _ _ Hx), Hlo. cbn [mbind outcome_bind].
  rewrite (modf_eq _ (set_lru (filter (λ m, m ≠ n) (lru_list w)) w)) by (cbn [volumes]; by rewrite lookup_insert_eq). cbn [mbind outcome_bind vnodes volumes global_root under s1 putn]. unfold do_refdrop. cbn [under].
  pose proof (fsrefs_delete C n a Ha) as Hfs. destruct (refdrop_law (under s) v (a_fsn a) Hr) as (u & v' & -> & Hr' & Hh' & Hsame & Hfr'); [rewrite Hv, Hfs; multiset_solver|rewrite Hv, Hfs; multiset_solver|]. cbn [mbind outcome_bind].
  unfold set_under, getn. cbn [vnodes volumes global_root]. rewrite lookup_insert_eq. cbn [of_option mbind outcome_bind set_refcnt v_refcnt Z.gtb Z.compare]. do 2 eexists. split; [done|]. split; [|done]. split; [|done| |by cbn; eauto].
  - rewrite delete_insert_eq, insert_insert_eq. by eapply freed_core.
  - rewrite Hh', Hv, Hfs. change (fsrefs (set_attrs (delete n) (unhold n C))) with (fsrefs (set_attrs (delete n) C)). multiset_solver.
Qed.
Lemma refdrop_spec' L C v X s n : st L C v X s → n ∈ ext C → top ∈ X → (1 < refs C n)%nat ∨ a_parent <$> attrs C !! n = Some None →
  ∃ s' v', vfs_node_refdrop n s = Ok s' ∧ st L (let_go n C) v' X s' ∧ same top v v'.
Proof. apply refdrop_loop_spec. Qed.
Lemma refdrop_more L C v X s n : st L C v X s → n ∈ ext C → (1 < refs C n)%nat → ∃ s', vfs_node_refdrop n s = Ok s' ∧ st L (unhold n C) v X s'.
Proof.
  intros Hs Hh Hr. pose proof Hs as [Hc _ _ _]. destruct (wf_ext _ (c_wf _ _ _ Hc) _ Hh) as [a Ha]. destruct (getn_spec _ _ _ _ _ _ _ Hs Ha) as (x & E & Hnx & Hx).
  unfold vfs_node_refdrop. cbn [refdrop_loop]. rewrite E. cbn [mbind outcome_bind]. pose proof (n_refcnt _ _ _ _ _ Hx) as Hrc. destruct (Z.gtb_spec (v_refcnt x) 0); [|lia]. cbn [require mbind outcome_bind].
  destruct (Z.eqb_spec (v_refcnt x - 1) 0); [lia|]. cbn [negb]. eexists. split; [done|]. by eapply unhold_core.
Qed.

(** *** The lists of children *)

Lemma children_put L C C' v X s n a x b : st L C v X s → attrs C !! n = Some a → vnodes s !! n = Some x → node_ok L C n x a → wf C' → attrs C' = attrs C →
  chains_ok C' n b → (∀ m b, m ≠ n → chains_ok C m b → chains_ok C' m b) → (∀ m, refs C' m = refs C m) → st L C' v X (putn n (set_children b x) s).
Proof.
  intros Hs Ha Hnx Hx Hw E1 Hch Hch' Hr. eapply st_core; [done| |done|unfold fsrefs; by rewrite E1]. eapply (core_putn L L C C'); try done; [by destruct Hs|by rewrite E1| |by intros m _; rewrite E1].
  destruct Hx. split; try done; [by rewrite Hr|by rewrite Hr].
Qed.
Lemma children_elem C n b c : chains_ok C n b → wf C → c ∈ concat b ↔ place C !! c = Some n.
Proof.
  intros [Hl Hb] Hw. rewrite list_elem_of_In, in_concat. split.
  - intros (ch & Hch & Hin). apply list_elem_of_In, list_elem_of_lookup in Hch as [i Hi]. apply list_elem_of_In in Hin. by apply (Hb i ch Hi) in Hin as [? _].
  - intros Hd. destruct (wf_place _ Hw _ _ Hd) as [_ Hp]. destruct (attrs C !! c) as [a|] eqn:Ha; [|done].
    assert (Ramfs.hash_index cfg (a_name a) < length b)%nat as Hlt.
    { rewrite Hl. unfold Ramfs.hash_index, Ramfs.hashsize. pose proof (Z.mod_pos_bound (Ramfs.gpct_rawdata_hash cfg (a_name a)) 5). lia. }
    destruct (lookup_lt_is_Some_2 b _ Hlt) as [ch Hch]. exists ch. rewrite <-!list_elem_of_In. split; [by eapply list_elem_of_lookup_2|]. apply (Hb _ _ Hch). eauto.
Qed.

(** Out of the list: its reference passes to the caller. *)
Definition unlist (c : nat) (C : cache) : cache := set_place (delete c) (hold c C).
Lemma unlisted_refs c C n m : place C !! c = Some n → refs (unlist c C) m = refs C m.
Proof.
  intros Hc. pose proof (refs_of_hold c m C) as H. unfold refs, linked, users in *. cbn [unlist hold set_place set_ext place ext attrs] in *.
  destruct (decide (m = c)) as [->|Hne]; [rewrite lookup_delete_eq, Hc in *|rewrite lookup_delete_ne by done]; lia.
Qed.
Lemma dir_remove_spec L C v X s n c : st L C v X s → place C !! c = Some n → c ∈ ext C →
  ∃ s', vfs_dir_remove vfs_node_refdrop n c s = Ok s' ∧ st L (set_place (delete c) C) v X s'.
Proof.
  intros Hs Hpl Hh. pose proof Hs as [Hc _ _ _]. pose proof (c_wf _ _ _ Hc) as Hw. destruct (wf_place _ Hw _ _ Hpl) as [Hne Hp]. destruct (attrs C !! c) as [ac|] eqn:Hac; [|done]. cbn in Hp. injection Hp as Hp.
  destruct (wf_parent _ Hw _ _ _ Hac Hp) as [a Ha]. destruct (getn_spec _ _ _ _ _ _ _ Hs Ha) as (x & E & Hnx & Hx). unfold vfs_dir_remove. rewrite E. cbn [mbind outcome_bind]. unfold Ramfs.hash_remove.
  rewrite bool_decide_true by (by eapply children_elem; [apply Hx|..]). cbn [require mbind outcome_bind]. unfold modn. rewrite E. cbn [mbind outcome_bind].
  assert (st L (unlist c C) v X (putn n (set_children (filter (λ y, y ≠ c) <$> v_children x) x) s)) as Hs1.
  { eapply children_put; try done; [| | |intros m; by eapply unlisted_refs].
    - destruct Hw as [W1 W2 W3]. split; cbn [unlist hold set_place set_ext attrs place ext]; try done; [intros m p [? ?]%lookup_delete_Some; eauto|].
      intros m [Hm|Hm%gmultiset_elem_of_singleton]%gmultiset_elem_of_disj_union; [eauto|]. subst. eauto.
    - destruct (n_chains _ _ _ _ _ Hx) as [Hl Hb]. split; [by rewrite length_fmap|]. intros i ch. rewrite list_lookup_fmap, fmap_Some. intros (ch' & Hi & ->). destruct (Hb i ch' Hi) as [Hnd Hin].
      split; [by apply NoDup_filter|]. intros y. rewrite list_elem_of_filter, Hin. cbn [unlist hold set_place set_ext place attrs]. rewrite lookup_delete_Some. naive_solver.
    - intros m b' Hm [Hl Hb']. split; [done|]. intros i ch Hi. destruct (Hb' i ch Hi) as [Hnd Hin]. split; [done|]. intros y. rewrite Hin. cbn [unlist hold set_place set_ext place attrs].
      rewrite lookup_delete_Some. split; [|tauto]. intros [Hy ?]. split; [|done]. split; [congruence|done]. }
  destruct (refdrop_more L _ v X _ c Hs1) as (s2 & -> & Hs2).
  - cbn [unlist set_place hold set_ext ext]. multiset_solver.
  - rewrite (unlisted_refs c C n c Hpl). unfold refs, linked. rewrite Hpl. pose proof (proj1 (elem_of_multiplicity c (ext C)) Hh). lia.
  - exists s2. split; [done|]. replace (set_place (delete c) C) with (unhold c (unlist c C)); [done|]. apply cache_eq; try done. cbn [unhold unlist set_place hold set_ext ext]. multiset_solver.
Qed.

(** Into the list, which takes a reference. *)
Lemma dir_push_spec L C v X s n c a : st L C v X s → place C !! c = None → attrs C !! c = Some a → a_parent a = Some n → c ≠ n →
  ∃ s', vfs_dir_push cfg n c s = Ok s' ∧ st L (set_place (insert c n) C) v X s'.
Proof.
  intros Hs Hpl Ha Hp Hne. unfold vfs_dir_push. destruct (refnew_spec' L C v X s c Hs) as (s1 & -> & Hs1); [eauto|]. cbn [mbind outcome_bind]. pose proof (c_wf _ _ _ (s_core _ _ _ _ _ Hs)) as [W1 W2 W3].
  destruct (getn_spec _ _ _ _ _ _ _ Hs1 Ha) as (x & E & Hnx & Hx). rewrite E. cbn [mbind outcome_bind]. destruct (W2 _ _ _ Ha Hp) as [an Han]. destruct (getn_spec _ _ _ _ _ _ _ Hs1 Han) as (xn & En & Hnn & Hxn).
  unfold modn. rewrite En. cbn [mbind outcome_bind]. eexists. split; [done|]. eapply (children_put L (hold c C)); try done.
  - split; cbn [set_place attrs place ext]; try done. intros y p. rewrite lookup_insert_Some. intros [[<- <-]|[_ ?]]; [|eauto]. rewrite Ha. cbn. by rewrite Hp.
  - rewrite (n_name _ _ _ _ _ Hx). destruct (n_chains _ _ _ _ _ Hxn) as [Hl Hb]. unfold Ramfs.hash_push. split; [by rewrite length_alter|]. intros i ch Hi. cbn [set_place place attrs hold set_ext] in *.
    destruct (decide (i = Ramfs.hash_index cfg (a_name a))) as [->|Hni].
    + rewrite list_lookup_alter_eq, fmap_Some in Hi. destruct Hi as (ch' & Hi & ->). destruct (Hb _ ch' Hi) as [Hnd Hin]. split.
      * constructor; [rewrite Hin; naive_solver|done].
      * intros y. rewrite elem_of_cons, Hin, lookup_insert_Some. destruct (decide (y = c)); naive_solver.
    + rewrite list_lookup_alter_ne in Hi by done. destruct (Hb _ ch Hi) as [Hnd Hin]. split; [done|]. intros y. rewrite Hin, lookup_insert_Some. destruct (decide (y = c)); naive_solver.
  - intros m b' Hm [Hl Hb']. split; [done|]. intros i ch Hi. destruct (Hb' i ch Hi) as [Hnd Hin]. split; [done|]. intros y. rewrite Hin. cbn [set_place place attrs hold set_ext].
    rewrite lookup_insert_Some. destruct (decide (y = c)); naive_solver.
  - intros m. rewrite refs_of_hold. unfold refs, linked, users. cbn [set_place place ext attrs]. destruct (decide (m = c)) as [->|]; [rewrite lookup_insert_eq, Hpl|rewrite lookup_insert_ne by done]; lia.
Qed.

Lemma find_child_spec L C v X s nm l : st L C v X s → Forall (λ c, is_Some (attrs C !! c)) l →
  ∃ r, find_child nm l s = Ok r ∧ match r with Some c => c ∈ l ∧ a_name <$> attrs C !! c = Some nm | None => Forall (λ c, a_name <$> attrs C !! c ≠ Some nm) l end.
Proof.
  intros Hs. induction 1 as [|c l [a Ha] Hl IH]; [by exists None|]. cbn [find_child]. destruct (getn_spec _ _ _ _ _ _ _ Hs Ha) as (x & -> & _ & Hx). cbn [mbind outcome_bind].
  rewrite (n_name _ _ _ _ _ Hx). destruct (decide (a_name a = nm)) as [E|E].
  - rewrite bool_decide_true by done. exists (Some c). split; [done|]. split; [set_solver|]. rewrite Ha. cbn. congruence.
  - rewrite bool_decide_false by done. destruct IH as (r & -> & Hr). exists r. split; [done|]. destruct r; [set_solver|]. constructor; [|done]. rewrite Ha. cbn. congruence.
Qed.
Lemma dir_lookup_spec L C v X s n nm : st L C v X s → is_Some (attrs C !! n) →
  ∃ r s', vfs_dir_lookup cfg n nm s = Ok (r, s') ∧ st L (hold_opt r C) v X s' ∧
    match r with
    | Some c => place C !! c = Some n ∧ a_name <$> attrs C !! c = Some nm
    | None => ∀ c, place C !! c = Some n → a_name <$> attrs C !! c ≠ Some nm
    end.
Proof.
  intros Hs [a Ha]. pose proof (c_wf _ _ _ (s_core _ _ _ _ _ Hs)) as Hw. destruct (getn_spec _ _ _ _ _ _ _ Hs Ha) as (x & E & Hnx & Hx). unfold vfs_dir_lookup. rewrite E. cbn [mbind outcome_bind].
  destruct (n_chains _ _ _ _ _ Hx) as [Hl Hb]. assert (Ramfs.hash_index cfg nm < length (v_children x))%nat as Hlt.
  { rewrite Hl. unfold Ramfs.hash_index, Ramfs.hashsize. pose proof (Z.mod_pos_bound (Ramfs.gpct_rawdata_hash cfg nm) 5). lia. }
  destruct (lookup_lt_is_Some_2 _ _ Hlt) as [ch Hch]. rewrite Hch. cbn [of_option mbind outcome_bind]. destruct (Hb _ _ Hch) as [Hnd Hin].
  assert (∀ c, place C !! c = Some n → is_Some (attrs C !! c)) as Hal. { intros c Hc. destruct (wf_place _ Hw _ _ Hc) as [_ Hp]. destruct (attrs C !! c); [eauto|done]. }
  destruct (find_child_spec L C v X s nm ch Hs) as (r & -> & Hr). { apply Forall_forall. intros c Hcc. apply Hin in Hcc as [Hcd _]. eauto. }
  cbn [mbind outcome_bind]. destruct r as [c|].
  - destruct Hr as [Hcc Hn]. apply Hin in Hcc as [Hcp _]. destruct (refnew_spec' L C v X s c Hs (Hal c Hcp)) as (s' & -> & Hs'). cbn [mbind outcome_bind]. by exists (Some c), s'.
  - exists None, s. split_and!; try done. intros c Hc Hn. rewrite Forall_forall in Hr. apply (Hr c); [|done]. apply Hin. split; [done|]. destruct (attrs C !! c) as [ac|]; [|done]. cbn in Hn. exists ac. split; [done|]. congruence.
Qed.

(** *** Parents *)

Definition reparent (n : nat) (p : option nat) (C : cache) : cache := set_attrs (alter (with_parent p) n) C.
Lemma reparent_lookup n p C m : attrs (reparent n p C) !! m = if decide (m = n) then with_parent p <$> attrs C !! n else attrs C !! m.
Proof. cbn [reparent set_attrs attrs]. destruct (decide (m = n)) as [->|]; [by rewrite lookup_alter_eq|by rewrite lookup_alter_ne]. Qed.
Lemma reparent_name n p C m : a_name <$> attrs (reparent n p C) !! m = a_name <$> attrs C !! m.
Proof. rewrite reparent_lookup. destruct (decide (m = n)) as [->|]; [|done]. by destruct (attrs C !! n). Qed.
Lemma reparent_alive n p C m : is_Some (attrs (reparent n p C) !! m) ↔ is_Some (attrs C !! m).
Proof. rewrite reparent_lookup. destruct (decide (m = n)) as [->|]; [|done]. by rewrite fmap_is_Some. Qed.
Lemma reparent_chains n p C C' m b : place C' = place C → attrs C' = attrs (reparent n p C) → chains_ok C m b → chains_ok C' m b.
Proof.
  intros E1 E2 [Hl Hb]. split; [done|]. intros i ch Hi. destruct (Hb i ch Hi) as [Hnd Hin]. split; [done|]. intros c. rewrite Hin, E1, E2. pose proof (reparent_name n p C c) as Hn.
  split; intros (Hd & a' & Ea & Eh); (split; [done|]); rewrite Ea in Hn; cbn [fmap option_fmap option_map] in Hn.
  - destruct (attrs (reparent n p C) !! c) as [a2|]; [|done]. exists a2. split; [done|]. injection Hn as ->. done.
  - destruct (attrs C !! c) as [a2|]; [|done]. exists a2. split; [done|]. injection Hn as <-. done.
Qed.
Lemma unplaced C n a : wf C → attrs C !! n = Some a → a_parent a = None → place C !! n = None.
Proof. intros Hw Ha Hp. destruct (place C !! n) as [p|] eqn:E; [|done]. destruct (wf_place _ Hw _ _ E) as [_ H]. rewrite Ha in H. cbn in H. congruence. Qed.

(** A new parent, which the node refers to. *)
Lemma attach_child_spec L C v X s n p a : st L C v X s → attrs C !! n = Some a → a_parent a = None → p ≠ n → is_Some (attrs C !! p) →
  ∃ s', (s ← vfs_node_refnew p s; modn n (set_parent (Some p)) s) = Ok s' ∧ st L (reparent n (Some p) C) v X s'.
Proof.
  intros Hs Ha Hp Hne Hal. pose proof (c_wf _ _ _ (s_core _ _ _ _ _ Hs)) as Hw. pose proof (unplaced C n a Hw Ha Hp) as Hpl. destruct (refnew_spec' L C v X s p Hs Hal) as (s1 & -> & Hs1). cbn [mbind outcome_bind].
  destruct (getn_spec _ _ _ _ _ _ _ Hs1 Ha) as (x & E & Hnx & Hx). unfold modn. rewrite E. cbn [mbind outcome_bind]. eexists. split; [done|]. pose proof Hs1 as [Hc1 _ _ _].
  assert (∀ m, refs (reparent n (Some p) C) m = refs (hold p C) m) as Hr.
  { intros m. rewrite refs_of_hold. unfold refs, linked. cbn [reparent set_attrs ext place]. pose proof (users_parent (Some p) n a C m Ha) as Hu. unfold reparent. rewrite (decide_False (P := child_of m (n, a))) in Hu by (unfold child_of; cbn; naive_solver).
    destruct (decide (m = p)) as [->|]; [rewrite decide_True in Hu by done|rewrite decide_False in Hu by naive_solver]; lia. }
  eapply st_core; [done| |done|unfold reparent; by rewrite fsrefs_alter]. eapply (core_putn L L (hold p C)); try done.
  - destruct Hw as [W1 W2 W3]. split.
    + intros c m Hc. change (place C !! c = Some m) in Hc. destruct (W1 c m Hc). split; [done|]. rewrite reparent_lookup, decide_False by congruence. done.
    + intros c b m. rewrite reparent_lookup, reparent_alive. destruct (decide (c = n)) as [->|]; [|eauto]. rewrite Ha. intros [= <-] Hm. cbn in Hm. injection Hm as <-. exact Hal.
    + intros m Hm. rewrite reparent_alive. by apply W3.
  - by rewrite reparent_lookup, decide_True, Ha.
  - destruct Hx. split; try done; [by rewrite Hr|by rewrite Hr|]. by apply (reparent_chains n (Some p) (hold p C)).
  - intros m Hm. by rewrite reparent_lookup, decide_False.
  - intros m b _. by apply (reparent_chains n (Some p) (hold p C)).
Qed.
(** The node leaves the list of its parent and gives the reference to it up. *)
Lemma unset_spec L C v X s n p a : st L C v X s → attrs C !! n = Some a → a_parent a = Some p → place C !! n = Some p → n ∈ ext C → (1 < refs C p)%nat →
  ∃ s', vfs_node_parent_nolock_unset n s = Ok s' ∧ st L (reparent n None (set_place (delete n) C)) v X s'.
Proof.
  intros Hs Ha Hp Hpl Hh Hrp. pose proof (c_wf _ _ _ (s_core _ _ _ _ _ Hs)) as Hw. destruct (wf_place _ Hw _ _ Hpl) as [Hne _]. unfold vfs_node_parent_nolock_unset, parent_unset.
  destruct (getn_spec _ _ _ _ _ _ _ Hs Ha) as (x0 & -> & _ & Hx0). cbn [mbind outcome_bind]. rewrite (n_parent _ _ _ _ _ Hx0), Hp. destruct (dir_remove_spec L C v X s p n Hs Hpl Hh) as (s1 & -> & Hs1). cbn [mbind outcome_bind].
  set (C1 := set_place (delete n) C) in *. destruct (getn_spec L C1 v X s1 n a Hs1 Ha) as (x & E & Hnx & Hx). unfold modn at 1. rewrite E. cbn [mbind outcome_bind]. pose proof Hs1 as [Hc1 _ _ _].
  assert (∀ m, refs (hold p (reparent n None C1)) m = refs C1 m) as Hr.
  { intros m. rewrite refs_of_hold. unfold refs, linked. cbn [reparent set_attrs ext place]. pose proof (users_parent None n a C1 m Ha) as Hu. rewrite (decide_False (P := None = Some m ∧ _)) in Hu by naive_solver. unfold reparent.
    destruct (decide (m = p)) as [->|Hmp]; [rewrite decide_True in Hu by done|rewrite decide_False in Hu by (unfold child_of; cbn; naive_solver)]; lia. }
  assert (st L (hold p (reparent n None C1)) v X (putn n (set_parent None x) s1)) as Hs2.
  { eapply st_core; [done| |done|unfold reparent; rewrite <-(fsrefs_alter C1 n None); done]. eapply (core_putn L L C1); try done.
    - destruct (c_wf _ _ _ Hc1) as [W1 W2 W3]. split.
      + intros c m Hc. change (place C1 !! c = Some m) in Hc. destruct (W1 c m Hc). split; [done|]. cbn [hold set_ext attrs]. rewrite reparent_lookup, decide_False; [done|]. intros ->. cbn [C1 set_place place] in Hc. by rewrite lookup_delete_eq in Hc.
      + intros c b m. cbn [hold set_ext attrs]. rewrite reparent_lookup, reparent_alive. destruct (decide (c = n)) as [->|]; [|eauto]. change (attrs C1) with (attrs C). rewrite Ha. by intros [= <-].
      + intros m [Hm|Hm%gmultiset_elem_of_singleton]%gmultiset_elem_of_disj_union; cbn [hold set_ext attrs]; rewrite reparent_alive; [by apply W3|]. subst. by apply (W2 n a).
    - cbn [hold set_ext attrs]. rewrite reparent_lookup, decide_True by done. change (attrs C1) with (attrs C). by rewrite Ha.
    - destruct Hx. split; try done; [by rewrite Hr|by rewrite Hr|]. by apply (reparent_chains n None C1).
    - intros m Hm. cbn [hold set_ext attrs]. by rewrite reparent_lookup, decide_False.
    - intros m b _. by apply (reparent_chains n None C1). }
  destruct (refdrop_more L _ v X _ p Hs2) as (s3 & -> & Hs3).
  - cbn [hold set_ext ext]. multiset_solver.
  - rewrite Hr. unfold refs, linked in *. cbn [C1 set_place place ext]. rewrite lookup_delete_ne by done. done.
  - cbn [mbind outcome_bind]. replace (unhold p (hold p (reparent n None C1))) with (reparent n None C1) in Hs3 by (apply cache_eq; try done; cbn [unhold hold set_ext ext]; multiset_solver).
    apply (lru_drop_spec L _ v X s3 n Hs3). rewrite reparent_alive. eauto.
Qed.
Lemma parent_set_spec L C v X s n p a : st L C v X s → attrs C !! n = Some a → a_parent a = None → p ≠ n → is_Some (attrs C !! p) →
  ∃ s', vfs_node_parent_nolock_set cfg n p s = Ok s' ∧ st L (set_place (insert n p) (reparent n (Some p) C)) v X s'.
Proof.
  intros Hs Ha Hp Hne Hal. unfold vfs_node_parent_nolock_set. destruct (getn_spec _ _ _ _ _ _ _ Hs Ha) as (x & -> & _ & Hx). cbn [mbind outcome_bind]. unfold vfs_node_is_dandling. rewrite (n_parent _ _ _ _ _ Hx), Hp, bool_decide_true by done. cbn [require mbind outcome_bind].
  destruct (attach_child_spec L C v X s n p a Hs Ha Hp Hne Hal) as (s1 & E1 & Hs1). destruct (vfs_node_refnew p s) as [s0|]; [|done]. cbn [mbind outcome_bind] in *. rewrite E1. cbn [mbind outcome_bind].
  pose proof (unplaced C n a (c_wf _ _ _ (s_core _ _ _ _ _ Hs)) Ha Hp) as Hpl. destruct (dir_push_spec L _ v X s1 p n (with_parent (Some p) a) Hs1) as (s2 & -> & Hs2); try done.
  { by rewrite reparent_lookup, decide_True, Ha. }
  cbn [mbind outcome_bind]. apply (lru_rehash_spec L _ v X s2 n Hs2). change (is_Some (attrs (reparent n (Some p) C) !! n)). rewrite reparent_alive. eauto.
Qed.

(** *** New nodes *)

Definition born (n : nat) (nm : list Z) (q : nat) (C : cache) : cache := hold n (set_attrs (insert n {| a_name := nm; a_parent := None; a_fsn := q |}) C).
Lemma born_lookup n nm q C m : attrs (born n nm q C) !! m = if decide (m = n) then Some {| a_name := nm; a_parent := None; a_fsn := q |} else attrs C !! m.
Proof. cbn [born hold set_ext set_attrs attrs]. destruct (decide (m = n)) as [->|]; [by rewrite lookup_insert_eq|by rewrite lookup_insert_ne]. Qed.
Lemma fresh_node C n : wf C → attrs C !! n = None → place C !! n = None ∧ n ∉ ext C ∧ users C n = 0%nat ∧ (∀ c, place C !! c ≠ Some n).
Proof.
  intros [W1 W2 W3] Hn. split_and!.
  - destruct (place C !! n) eqn:E; [|done]. destruct (W1 _ _ E) as [_ H]. by rewrite Hn in H.
  - intros Hh. destruct (W3 _ Hh). congruence.
  - apply users_none. intros c a Ha Hp. destruct (W2 _ _ _ Ha Hp). congruence.
  - intros c Hc. destruct (W1 _ _ Hc) as [_ H]. destruct (attrs C !! c) as [a|] eqn:Ha; [|done]. cbn in H. injection H as H. destruct (W2 _ _ _ Ha H). congruence.
Qed.
Lemma born_refs n nm q C m : wf C → attrs C !! n = None → refs (born n nm q C) m = (refs C m + if decide (m = n) then 1 else 0)%nat.
Proof.
  intros Hw Hn. unfold born. rewrite refs_of_hold. f_equal. unfold refs, linked, users. cbn [set_attrs attrs ext place].
  rewrite (users_delete _ n {| a_name := nm; a_parent := None; a_fsn := q |}) by apply lookup_insert_eq. rewrite decide_False by (unfold child_of; cbn; naive_solver). rewrite delete_insert_id by done. lia.
Qed.
Lemma born_core L C s n nm q w r u : core L C s → attrs C !! n = None → n ∉ L → volumes s !! vol = Some w →
  core L (born n nm q C) (Build_vfs (<[n := {| v_refcnt := 1; v_fs := vol; v_name := nm; v_parent := None; v_in_lru := false; v_fs_node := q; v_children := Ramfs.hash_init; v_dir_semaphore := 1 |}]> (vnodes s))
    (<[vol := set_fs_ref r w]> (volumes s)) (global_root s) u).
Proof.
  intros [Hw Hno (w' & Ew & [Ht Hro] & Hnd & Hl)] Hn HL Hvw. rewrite Hvw in Ew. injection Ew as <-. destruct (fresh_node C n Hw Hn) as (Hpl & Hh & Hu & Hk). assert (vnodes s !! n = None) as Hvn. { specialize (Hno n). rewrite Hn in Hno. by destruct (vnodes s !! n). }
  assert (refs C n = 0%nat) as Hr0. { unfold refs, linked. rewrite Hpl, Hu. destruct (multiplicity n (ext C)) eqn:Em; [done|]. destruct Hh. apply elem_of_multiplicity. lia. }
  split.
  - destruct Hw as [W1 W2 W3]. split.
    + intros c m Hc. destruct (W1 c m Hc). split; [done|]. rewrite born_lookup, decide_False; [done|]. intros ->. change (place C !! n = Some m) in Hc. congruence.
    + intros c a m. rewrite !born_lookup. destruct (decide (c = n)) as [->|]; [by intros [= <-]|]. intros Ha Hp. destruct (W2 _ _ _ Ha Hp) as [b Hb]. rewrite decide_False by congruence. eauto.
    + intros m [Hm|Hm%gmultiset_elem_of_singleton]%gmultiset_elem_of_disj_union; rewrite born_lookup; [|rewrite decide_True by done; eauto]. destruct (W3 m Hm) as [b Hb]. rewrite decide_False by congruence. eauto.
  - intros m. cbn [vnodes]. rewrite born_lookup. destruct (decide (m = n)) as [->|Hne].
    + rewrite lookup_insert_eq. split; try done; rewrite ?(born_refs n nm q C n Hw Hn), ?decide_True by done; [cbn [v_refcnt]; lia|lia| |by rewrite bool_decide_false].
      split; [done|]. intros i ch. cbn [v_children]. unfold Ramfs.hash_init. rewrite lookup_replicate. intros [-> _]. split; [constructor|]. intros c. split; [set_solver|]. intros [Hc _]. by destruct (Hk c).
    + rewrite lookup_insert_ne by done. specialize (Hno m). destruct (vnodes s !! m), (attrs C !! m); try done. eapply node_ok_same; [done|rewrite born_refs, decide_False by done; lia| |done].
      intros b [Hbl Hb]. split; [done|]. intros i ch Hi. destruct (Hb i ch Hi) as [Hnd' Hin]. split; [done|]. intros c. rewrite Hin. change (place (born n nm q C)) with (place C).
      split; intros (Hc & a' & Ea & Eh); (split; [done|]); exists a'; (split; [|done]); rewrite born_lookup, decide_False in *; (done || congruence).
  - eexists. cbn [volumes vnodes]. rewrite lookup_insert_eq. split_and!; try done. intros m. cbn [set_fs_ref lru_list]. rewrite Hl. destruct (decide (m = n)) as [->|Hne]; [|by rewrite lookup_insert_ne].
    rewrite lookup_insert_eq, Hvn. split; [naive_solver|]. intros (? & [= <-] & ?). done.
Qed.
Lemma constructor_spec L C v X s n nm q : st L C v X s → attrs C !! n = None → n ∉ L → q ∈ held v →
  ∃ s' v', vfs_node_constructor cfg n vol nm q s = Ok s' ∧ st L (born n (default (replicate (Ramfs.NAMELEN cfg) 0) nm) q C) v' X s' ∧ same top v v'.
Proof.
  intros Hs Hn HL Hq. pose proof Hs as [Hc Hr Hh Hfr]. unfold vfs_node_constructor, do_refnew. destruct (refnew_law (under s) v q Hr Hq) as (u & v' & -> & Hr' & Hh' & Hsame & Hfr'). cbn [mbind outcome_bind].
  destruct (getf_spec _ _ _ _ _ Hs) as (w & _ & Ew & _). rewrite (modf_eq (set_under u s) w _ Ew). cbn [mbind outcome_bind]. do 2 eexists. split; [done|]. split; [|done]. split; [unfold putn; cbn [vnodes volumes global_root under set_under]; by apply (born_core L C s)|done| |by cbn; eauto].
  rewrite Hh', Hh. unfold born. change (fsrefs (hold n ?x)) with (fsrefs x). rewrite fsrefs_insert by done. cbn [a_fsn]. multiset_solver.
Qed.

(** *** Recycling *)

(** Between operations, nodes with a parent are in its list. *)
Definition settled (C : cache) : Prop := ∀ c a p, attrs C !! c = Some a → a_parent a = Some p → c ≠ p → place C !! c = Some p.
(** The node [z] is gone; the reference to its parent [p] stays behind. *)
Definition recycled (z p : nat) (C : cache) : cache := {| attrs := delete z (attrs C); place := delete z (place C); ext := ext C ⊎ {[+ p +]} |}.
Definition recyclable (L : gset nat) (z p : nat) (C : cache) : Prop :=
  z ≠ p ∧ p ∉ L ∧ z ∉ ext C ∧ users C z = 0%nat ∧ place C !! z = Some p ∧ is_Some (attrs C !! z).

Lemma recycle_spec L C v X s fuel : st L C v X s → settled C → (∀ n a, attrs C !! n = Some a → a_parent a = Some n → (1 < refs C n)%nat) → top ∈ X →
  ∃ r s' v', recycle_loop (Datatypes.S fuel) vol s = Ok (r, s') ∧ same top v v' ∧
    match r with None => st L C v' X s' | Some z => ∃ p, recyclable L z p C ∧ st L (recycled z p C) v' X s' end.
Proof.
  intros Hs Hset Hroot Ht. cbn [recycle_loop]. destruct (lru_pop_spec L C v X s Hs) as (w & Ew & Hpop). destruct (lru_list w) as [|n l].
  { rewrite Hpop. cbn [mbind outcome_bind]. do 3 eexists. split; [done|]. split; [apply same_refl|done]. }
  destruct Hpop as (s1 & s2 & -> & [a Ha] & E2 & Hs2). cbn [mbind outcome_bind]. rewrite E2. cbn [mbind outcome_bind]. destruct (getn_spec _ _ _ _ _ _ _ Hs2 Ha) as (x & -> & _ & Hx). cbn [mbind outcome_bind].
  rewrite (n_refcnt _ _ _ _ _ Hx). pose proof (n_live _ _ _ _ _ Hx) as Hlv. destruct (Z.gtb_spec (Z.of_nat (refs C n)) 1) as [Hr|Hr].
  { destruct (lru_rehash_spec L C v X s2 n Hs2) as (s3 & -> & Hs3); [eauto|]. do 3 eexists. split; [done|]. split; [apply same_refl|done]. }
  destruct (get_parent_spec L C v X s2 n a Hs2 Ha) as (s3 & -> & Hs3). cbn [mbind outcome_bind]. destruct (a_parent a) as [p|] eqn:Ep; cbn [hold_opt] in Hs3.
  2:{ do 3 eexists. split; [done|]. split; [apply same_refl|done]. }
  pose proof (c_wf _ _ _ (s_core _ _ _ _ _ Hs)) as Hw. assert (n ≠ p) as Hne. { intros <-. pose proof (Hroot n a Ha Ep). lia. } pose proof (Hset n a p Ha Ep Hne) as Hpl. pose proof (wf_parent _ Hw _ _ _ Ha Ep) as Hal.
  assert (n ∉ ext C ∧ users C n = 0%nat) as [Hnx Hus]. { unfold refs, linked in Hr. rewrite Hpl in Hr. split; [|lia]. intros Hh. pose proof (proj1 (elem_of_multiplicity n (ext C)) Hh). lia. }
  assert (1 < refs (hold p C) p)%nat as Hrp. { rewrite refs_of_hold, decide_True by done. destruct (decide (users C p = 0%nat)) as [Hup|]; [rewrite users_none in Hup; by destruct Hne; eauto|]. unfold refs. lia. }
  assert (p ∈ ext (hold p C)) as Hpe by (cbn [hold set_ext ext]; multiset_solver).
  pose proof (dirtrylock_spec L (hold p C) v X s3 p Hs3 Hal) as Htry. destruct (decide (p ∈ L)) as [HpL|HpL].
  { rewrite Htry. cbn [mbind outcome_bind]. change (negb (EBUSY =? 0)) with true. cbv iota. destruct (lru_rehash_spec L (hold p C) v X s3 n Hs3) as (s4 & -> & Hs4); [eauto|]. cbn [mbind outcome_bind].
    destruct (refdrop_more L _ v X s4 p Hs4 Hpe Hrp) as (s5 & -> & Hs5). do 3 eexists. split; [done|]. split; [apply same_refl|]. cbn. replace C with (unhold p (hold p C)); [done|]. apply cache_eq; try done. cbn [unhold hold set_ext ext]. multiset_solver. }
  destruct Htry as (s4 & -> & Hs4). cbn [mbind outcome_bind Z.eqb negb]. destruct (getn_spec _ _ _ _ _ _ _ Hs4 Ha) as (x4 & -> & _ & Hx4). cbn [mbind outcome_bind]. rewrite (n_refcnt _ _ _ _ _ Hx4), (n_parent _ _ _ _ _ Hx4), Ep, refs_of_hold, decide_False by done.
  replace (refs C n) with 1%nat by lia. rewrite bool_decide_true by done. change (Z.of_nat (1 + 0) =? 1) with true. cbn [andb]. destruct (refnew_spec' _ _ v X s4 n Hs4) as (s5 & -> & Hs5); [eauto|]. cbn [mbind outcome_bind].
  destruct (unset_spec _ _ v X s5 n p a Hs5 Ha Ep Hpl) as (s6 & -> & Hs6); [cbn [hold set_ext ext]; multiset_solver|rewrite refs_of_hold, decide_False by congruence; lia|]. cbn [mbind outcome_bind].
  set (C6 := reparent n None (set_place (delete n) (hold n (hold p C)))) in *. assert (is_Some (attrs C6 !! p)) as Hal6 by (unfold C6; by rewrite reparent_alive).
  destruct (dirunlock_spec _ C6 v X s6 p Hs6 Hal6) as (s7 & -> & Hs7); [set_solver|]. cbn [mbind outcome_bind]. replace (({[p]} ∪ L) ∖ {[p]}) with L in Hs7 by set_solver.
  assert (attrs C6 !! n = Some (with_parent None a)) as Ha6. { unfold C6. rewrite reparent_lookup, decide_True by done. change (with_parent None <$> attrs C !! n = Some (with_parent None a)). by rewrite Ha. }
  assert (multiplicity n (ext C6) = 1%nat) as Hm6. { cbn [C6 reparent set_attrs set_place hold set_ext ext]. rewrite !multiplicity_disj_union, !multiplicity_singleton, decide_False, decide_True by done. destruct (multiplicity n (ext C)) eqn:Em; [lia|]. destruct Hnx. apply elem_of_multiplicity. lia. }
  assert (refs C6 n = 1%nat) as Hr6. { unfold refs, linked. rewrite Hm6. cbn [C6 reparent set_attrs set_place place]. rewrite lookup_delete_eq. pose proof (users_parent None n a C n Ha) as Hu. rewrite Hus in Hu. rewrite !decide_False in Hu by (unfold child_of; cbn; naive_solver). unfold C6, reparent, users in *. cbn [set_attrs set_place hold set_ext attrs] in *. lia. }
  destruct (getn_spec _ _ _ _ _ _ _ Hs7 Ha6) as (x7 & -> & _ & Hx7). cbn [mbind outcome_bind]. rewrite (n_refcnt _ _ _ _ _ Hx7), Hr6. cbn [Z.of_nat Pos.of_succ_nat Z.eqb require mbind outcome_bind]. change (1 =? 1)%positive with true. cbn [require mbind outcome_bind].
  destruct (refdrop_spec' L C6 v X s7 n Hs7) as (s8 & v' & -> & Hs8 & Hsame); [apply elem_of_multiplicity; lia|done|right; by rewrite Ha6|]. cbn [mbind outcome_bind]. do 3 eexists. split; [done|]. split; [done|]. exists p. split; [done|].
  unfold let_go in Hs8. rewrite Hr6, Nat.eqb_refl in Hs8. replace (recycled n p C) with (set_attrs (delete n) (unhold n C6)); [done|]. apply cache_eq.
  - cbn [C6 reparent set_attrs unhold set_ext set_place hold attrs recycled]. apply map_eq. intros i. destruct (decide (i = n)) as [->|]; [by rewrite !lookup_delete_eq|]. by rewrite !lookup_delete_ne, lookup_alter_ne.
  - done.
  - cbn [C6 reparent set_attrs unhold set_ext set_place hold ext recycled]. multiset_solver.
Qed.


(** A cache that is smaller by at most one recycled node. *)
Definition shrunk (L : gset nat) (C C1 : cache) : Prop := C1 = C ∨ ∃ z p, recyclable L z p C ∧ C1 = recycled z p C.
Lemma fsrefs_recycled L z p C : recyclable L z p C → ∃ a, attrs C !! z = Some a ∧ fsrefs C = fsrefs (recycled z p C) ⊎ {[+ a_fsn a +]}.
Proof. intros (_ & _ & _ & _ & _ & [a Ha]). exists a. split; [done|]. exact (fsrefs_delete C z a Ha). Qed.

Lemma createnew_spec L C v X s alloc nm q : st L C v X s → settled C → (∀ n a, attrs C !! n = Some a → a_parent a = Some n → (1 < refs C n)%nat) →
  (∀ l, l ∈ L → l ∈ ext C) → top ∈ X → q ∈ X → (∀ n, alloc = Some n → attrs C !! n = None) →
  ∃ r s' v' C1, vfs_node_createnew cfg alloc vol nm q s = Ok (r, s') ∧ shrunk L C C1 ∧ steady top v v' ∧ (∀ y, y ∈ X ⊎ fsrefs C1 → same_at y v v') ∧
    match r with
    | None => alloc = None ∧ C1 = C ∧ st L C v' X s'
    | Some n => attrs C1 !! n = None ∧ (attrs C !! n = None → alloc = Some n) ∧ st L (born n (default (replicate (Ramfs.NAMELEN cfg) 0) nm) q C1) v' X s'
    end.
Proof.
  intros Hs Hset Hroot HL Ht Hq Hal. unfold vfs_node_createnew. destruct (getf_spec _ _ _ _ _ Hs) as (w & -> & _ & _). cbn [mbind outcome_bind].
  destruct (recycle_spec L C v X s (Datatypes.S (length (lru_list w))) Hs Hset Hroot Ht) as (r & s1 & v1 & -> & Hsame & Hr). cbn [mbind outcome_bind].
  assert (∃ C1, shrunk L C C1 ∧ st L C1 v1 X s1 ∧ (∀ y, y ∈ X ⊎ fsrefs C1 → same_at y v v1) ∧ (r = None → C1 = C) ∧ ∀ n, (if r is Some _ then r else alloc) = Some n → attrs C1 !! n = None ∧ n ∉ L ∧ (attrs C !! n = None → alloc = Some n)) as (C1 & Hsh & Hs1 & Hsm & Hnone & Hfr).
  { pose proof (s_held _ _ _ _ _ Hs) as Hh. destruct r as [z|].
    - destruct Hr as (p & Hrec & Hs1). exists (recycled z p C). split; [right; eauto|]. split; [done|]. destruct (fsrefs_recycled L z p C Hrec) as (az & _ & Hf). split_and!; [|done|].
      + intros y Hy. apply Hsame; left; [rewrite Hh, Hf; multiset_solver|by rewrite (s_held _ _ _ _ _ Hs1)].
      + intros n [= <-]. split; [cbn [recycled attrs]; by rewrite lookup_delete_eq|]. destruct Hrec as (_ & _ & Hz' & _ & _ & [az' Haz]). split; [|congruence]. intros Hz. by apply Hz', HL.
    - exists C. split; [by left|]. split; [done|]. split_and!; [|done|].
      + intros y Hy. apply Hsame; left; [by rewrite Hh|by rewrite (s_held _ _ _ _ _ Hr)].
      + intros n Hn. pose proof (Hal n Hn) as Hnn. split; [done|]. split; [|done]. intros Hl. destruct (wf_ext _ (c_wf _ _ _ (s_core _ _ _ _ _ Hs)) n (HL n Hl)). congruence. }
  pose proof (s_held _ _ _ _ _ Hs1) as Hh1. unfold vfs_node_new. destruct (if r is Some _ then r else alloc) as [n|] eqn:Er.
  - destruct (Hfr n eq_refl) as (Hn & HnL & Hna). destruct (constructor_spec L C1 v1 X s1 n nm q Hs1 Hn HnL) as (s2 & v2 & -> & Hs2 & Hsame2); [rewrite Hh1; multiset_solver|]. cbn [mbind outcome_bind].
    exists (Some n), s2, v2, C1. split_and!; try done; [by eapply steady_trans; apply same_steady|]. intros y Hy. eapply same_at_trans; [by apply Hsm|]. apply Hsame2; left; [by rewrite Hh1|]. rewrite (s_held _ _ _ _ _ Hs2). unfold born. change (fsrefs (hold n ?c)) with (fsrefs c). rewrite fsrefs_insert by done. multiset_solver.
  - destruct r; [done|]. rewrite (Hnone eq_refl) in *. exists None, s1, v1, C. split_and!; try done. by apply same_steady.
Qed.
(** References to nodes of the file system that the operation itself owns. *)
Lemma do_refdrop_spec L C v X s q : st L C v X s → q ∈ X → top ∈ X ∖ {[+ q +]} → ∃ s' v', do_refdrop q s = Ok s' ∧ st L C v' (X ∖ {[+ q +]}) s' ∧ same top v v'.
Proof.
  intros [Hc Hr Hh Hfr] Hq Ht. unfold do_refdrop. destruct (refdrop_law (under s) v q Hr) as (u & v' & -> & Hr' & Hh' & Hsame & Hfr'); [rewrite Hh; multiset_solver|rewrite Hh; multiset_solver|]. cbn [mbind outcome_bind].
  do 2 eexists. split; [done|]. split; [|done]. split; [|done|rewrite Hh', Hh; multiset_solver|by cbn; eauto]. by destruct Hc as [? ? ?].
Qed.
Lemma under_core L C s u : core L C s → core L C (set_under u s).
Proof. by intros [Hw Hn Hl]. Qed.
End core.
Lemma under_spec {A F S} `{!FsOps A F S} cfg `{!FsLaws A F S cfg} vol Fr Fr' L C v v' X X' (s : vfs S) u : st cfg vol Fr L C v X s → rel u v' → held v' = X' ⊎ fsrefs C → (∀ a, Fr' a → fresh a u) →
  st cfg vol Fr' L C v' X' (set_under u s).
Proof. intros [Hc _ _ _] Hr Hh Hf. split; [by apply under_core|done..]. Qed.
(** Other answers are unused. *)
Lemma st_fresh {A F S} `{!FsOps A F S} cfg `{!FsLaws A F S cfg} vol Fr Fr' L C v X (s : vfs S) : st cfg vol Fr L C v X s → (∀ a, Fr' a → fresh a (under s)) → st cfg vol Fr' L C v X s.
Proof. intros [Hc Hr Hh _] Hf. by split. Qed.
End VfsSpec.
