(* ===== verification/VfsOps.v ===== *)
(** * The virtual file system: the cache is coherent

    A cached node that has a parent is the node the file system has under its name,
    no two attached nodes stand for the same node of the file system, and every
    operation on nodes keeps it so, whatever is recycled meanwhile. *)

From stdpp Require Import gmap gmultiset.
From S2P Require Import Prelude FileOps RamfsFile Ramfs Vfs VfsSpec.
Import FileOps Vfs VfsSpec.

Module VfsOps.
(** The new nodes are at the address [o]. *)
Definition within (o : option nat) (C C' : cache) : Prop := ∀ k, attrs C !! k = None → o ≠ Some k → attrs C' !! k = None.
Lemma within_refl o C : within o C C.
Proof. by intros k. Qed.
Lemma within_sub o C C' : (∀ k a, attrs C' !! k = Some a → is_Some (attrs C !! k)) → within o C C'.
Proof. intros H k Hk _. destruct (attrs C' !! k) as [a|] eqn:E; [|done]. destruct (H k a E). congruence. Qed.
Lemma within_trans o C1 C2 C3 : within o C1 C2 → within None C2 C3 → within o C1 C3.
Proof. intros H1 H2 k Hk Ho. apply H2; [by apply H1|done]. Qed.
Lemma within_from o C1 C2 C3 : within None C1 C2 → within o C2 C3 → within o C1 C3.
Proof. intros H1 H2 k Hk Ho. apply H2; [by apply H1|done]. Qed.
Lemma within_hold o c C : within o C (hold c C).
Proof. by intros k. Qed.
Lemma within_unhold o c C : within o C (unhold c C).
Proof. by intros k. Qed.
#[export] Hint Resolve within_refl within_hold within_unhold : core.

Section ops.
Context {A F S : Type} `{ops : !FsOps A F S} (cfg : config) `{laws : !FsLaws A F S cfg} (vol r0 : nat) (Fr : A → Prop).
Abbreviation vfs := (vfs S).
Abbreviation st := (st cfg vol Fr).

(** ** Coherence *)

Record coh (C : cache) (v : view) : Prop := {
  h_settled : settled C;
  h_parent : ∀ c a p, attrs C !! c = Some a → a_parent a = Some p → c ≠ p →
    ∃ ap, attrs C !! p = Some ap ∧ a_parent ap ≠ None ∧ ent v (a_fsn ap) (a_name a) = Some (a_fsn a);
  h_root : ∃ a, attrs C !! r0 = Some a ∧ a_parent a = Some r0 ∧ a_fsn a = top;
  h_self : ∀ c a, attrs C !! c = Some a → a_parent a = Some c → c = r0;
  h_uniq : ∀ c a c' a', attrs C !! c = Some a → attrs C !! c' = Some a' → a_parent a ≠ None → a_parent a' ≠ None → a_fsn a = a_fsn a' → c = c';
  h_ext : (2 <= multiplicity r0 (ext C))%nat }.

Lemma coh_reach C v s c a : coh C v → rel s v → attrs C !! c = Some a → a_parent a ≠ None → reach v top (a_fsn a).
Proof.
  intros H Hr Ha Hp. destruct (a_parent a) as [p|] eqn:Ep; [|done]. destruct (decide (c = p)) as [->|Hne].
  - destruct (h_root _ _ H) as (ar & Har & _ & Ht). rewrite (h_self _ _ H p a Ha Ep), Har in Ha. injection Ha as <-. rewrite Ht. constructor.
  - destruct (h_parent _ _ H c a p Ha Ep Hne) as (ap & _ & _ & He). eapply reach_ent; [by eapply rel_tree|done].
Qed.
Lemma coh_same C v v' : coh C v → (∀ y, y ∈ fsrefs C → same_at y v v') → coh C v'.
Proof.
  intros [H1 H2 H3 H4 H5 H6] Hs. split; try done. intros c a p Ha Hp Hne. destruct (H2 c a p Ha Hp Hne) as (ap & Hap & Hn & He). exists ap. split_and!; try done.
  destruct (Hs (a_fsn ap)) as (_ & -> & _); [by eapply fsrefs_elem|done].
Qed.
Lemma coh_ext C C' v : coh C v → attrs C' = attrs C → place C' = place C → (2 <= multiplicity r0 (ext C'))%nat → coh C' v.
Proof. intros [H1 H2 H3 H4 H5 H6] E1 E2 Hm. split; unfold settled in *; rewrite ?E1, ?E2; done. Qed.
Lemma coh_hold n C v : coh C v → coh (hold n C) v.
Proof. intros H. eapply coh_ext; try done. pose proof (h_ext _ _ H). cbn [hold set_ext ext]. rewrite multiplicity_disj_union. lia. Qed.
Lemma coh_roots C v n a : coh C v → attrs C !! n = Some a → a_parent a = Some n → (1 < refs C n)%nat.
Proof. intros H Ha Hp. rewrite (h_self _ _ H n a Ha Hp). pose proof (h_ext _ _ H). unfold refs. lia. Qed.
(** A node that nobody has as parent goes. *)
Lemma coh_delete C C' v z : coh C v → z ≠ r0 → users C z = 0%nat → attrs C' = delete z (attrs C) → (∀ c, c ≠ z → place C' !! c = place C !! c) → (2 <= multiplicity r0 (ext C'))%nat → coh C' v.
Proof.
  intros [H1 H2 H3 H4 H5 H6] Hz Hu E1 E2 Hm. rewrite users_none in Hu. split; rewrite ?E1; try done.
  - intros c a p. rewrite E1, lookup_delete_Some. intros [Hne Ha] Hp Hcp. rewrite E2 by congruence. eauto.
  - intros c a p [Hne Ha]%lookup_delete_Some Hp Hcp. destruct (H2 c a p Ha Hp Hcp) as (ap & Hap & ? & ?). exists ap. rewrite lookup_delete_ne; [done|]. intros <-. destruct Hcp. eauto.
  - destruct H3 as (a & Ha & ?). exists a. by rewrite lookup_delete_ne.
  - intros c a [_ Ha]%lookup_delete_Some. eauto.
  - intros c a c' a' [_ Ha]%lookup_delete_Some [_ Ha']%lookup_delete_Some. eauto.
Qed.
Lemma coh_shrunk L C C1 v : coh C v → shrunk L C C1 → coh C1 v.
Proof.
  intros H [->|(z & p & (Hne & _ & Hze & Hu & Hpl & _) & ->)]; [done|]. pose proof (h_ext _ _ H) as Hm. apply (coh_delete C _ v z); try done.
  - intros ->. apply Hze, elem_of_multiplicity. lia.
  - intros c Hc. cbn [recycled place]. by rewrite lookup_delete_ne.
  - cbn [recycled ext]. rewrite multiplicity_disj_union. lia.
Qed.
Lemma coh_born n nm q C v : coh C v → attrs C !! n = None → coh (born n nm q C) v.
Proof.
  intros [H1 H2 H3 H4 H5 H6] Hn. split.
  - intros c a p. rewrite born_lookup. destruct (decide (c = n)) as [->|]; [by intros [= <-]|]. by apply H1.
  - intros c a p. rewrite born_lookup. destruct (decide (c = n)) as [->|]; [by intros [= <-]|]. intros Ha Hp Hne. destruct (H2 c a p Ha Hp Hne) as (ap & Hap & ? & ?). exists ap. rewrite born_lookup, decide_False by congruence. done.
  - destruct H3 as (a & Ha & ?). exists a. rewrite born_lookup, decide_False by congruence. done.
  - intros c a. rewrite born_lookup. destruct (decide (c = n)) as [->|]; [by intros [= <-]|]. apply H4.
  - intros c a c' a'. rewrite !born_lookup. destruct (decide (c = n)) as [->|]; [by intros [= <-] _ []|]. destruct (decide (c' = n)) as [->|]; [by intros _ [= <-] _ []|]. apply H5.
  - cbn [born hold set_ext set_attrs ext]. rewrite multiplicity_disj_union. lia.
Qed.
(** The file system has the node under its name in the directory. *)
Lemma coh_set C v s n p a ap : coh C v → rel s v → attrs C !! n = Some a → a_parent a = None → n ≠ p → attrs C !! p = Some ap → a_parent ap ≠ None → ent v (a_fsn ap) (a_name a) = Some (a_fsn a) →
  (∀ c, place C !! c = Some p → a_name <$> attrs C !! c ≠ Some (a_name a)) → coh (set_place (insert n p) (reparent n (Some p) C)) v.
Proof.
  intros H Hr Ha Hp Hne Hap Hatt He Hno. pose proof H as [H1 H2 H3 H4 H5 H6].
  assert (∀ c b, attrs C !! c = Some b → a_parent b ≠ None → a_fsn b ≠ a_fsn a) as Hu.
  { intros c b Hb Hbp E. destruct (a_parent b) as [p'|] eqn:Ep; [|done].  destruct (decide (c = p')) as [->|Hcp].
    - destruct H3 as (ar & Har & _ & Htop). rewrite (H4 p' b Hb Ep), Har in Hb. injection Hb as <-. pose proof (rel_up s v _ _ _ Hr He) as Hup. destruct (rel_top s v Hr) as [Hn _]. congruence.
    - destruct (H2 c b p' Hb Ep Hcp) as (ap' & Hap' & Hatt' & He'). rewrite E in He'. pose proof (rel_up s v _ _ _ Hr He) as U1. pose proof (rel_up s v _ _ _ Hr He') as U2. rewrite U1 in U2. injection U2 as U2.
      assert (p = p') as <- by (by eapply H5). rewrite Hap in Hap'. injection Hap' as <-. pose proof (rel_name s v _ _ _ _ Hr He He') as En. apply (Hno c (H1 c b p Hb Ep Hcp)). rewrite Hb. cbn. by rewrite En. }
  set (C' := set_place _ _). assert (∀ m, attrs C' !! m = if decide (m = n) then Some (with_parent (Some p) a) else attrs C !! m) as Hl.
  { intros m. change (attrs C' !! m) with (attrs (reparent n (Some p) C) !! m). rewrite reparent_lookup. destruct (decide (m = n)); [|done]. by rewrite Ha. }
  assert (∀ m b, attrs C !! m = Some b → a_parent b ≠ None → m ≠ n) as Hdiff by (intros m b Hb Hbp ->; congruence).
  split.
  - intros c b q. rewrite Hl. cbn [C' set_place place]. destruct (decide (c = n)) as [->|Hcn].
    + intros [= <-]. cbn [with_parent a_parent]. intros [= <-] _. by rewrite lookup_insert_eq.
    + intros Hb Hbq Hcq. rewrite lookup_insert_ne by done. eauto.
  - intros c b q. rewrite Hl. destruct (decide (c = n)) as [->|Hcn].
    + intros [= <-]. cbn [with_parent a_parent a_name a_fsn]. intros [= <-] _. exists ap. rewrite Hl, decide_False by (by eapply Hdiff). done.
    + intros Hb Hbq Hcq. destruct (H2 c b q Hb Hbq Hcq) as (aq & Haq & Hqa & Hqe). exists aq. rewrite Hl, decide_False by (by eapply Hdiff). done.
  - destruct H3 as (ar & Har & Hrp & ?). exists ar. rewrite Hl, decide_False; [done|]. eapply Hdiff; [done|by rewrite Hrp].
  - intros c b. rewrite Hl. destruct (decide (c = n)) as [->|Hcn]; [|apply H4]. intros [= <-]. cbn [with_parent a_parent]. congruence.
  - intros c b c' b'. rewrite !Hl. destruct (decide (c = n)) as [->|Hcn], (decide (c' = n)) as [->|Hcn']; try done.
    + intros [= <-] Hb' _ Hp' E. cbn [with_parent a_fsn] in E. by destruct (Hu c' b').
    + intros Hb [= <-] Hp' _ E. cbn [with_parent a_fsn] in E. by destruct (Hu c b).
    + apply H5.
  - done.
Qed.

(** ** What a client sees *)

(** The tree is as before, and so are the nodes a client refers to, here and in the
    file system. *)
Record keeps (E : gmultiset nat) (C : cache) (v : view) (C' : cache) (v' : view) : Prop := {
  k_tree : steady top v v';
  k_node :> ∀ c a, c ∈ E → attrs C !! c = Some a → attrs C' !! c = Some a ∧ same_at (a_fsn a) v v' }.
Lemma keeps_refl E C v : keeps E C v C v.
Proof. done. Qed.
Lemma keeps_trans E C1 v1 C2 v2 C3 v3 : keeps E C1 v1 C2 v2 → keeps E C2 v2 C3 v3 → keeps E C1 v1 C3 v3.
Proof. intros H1 H2. split; [eapply steady_trans; by eapply k_tree|]. intros c a Hc Ha. destruct (H1 c a Hc Ha) as [Ha2 Hs2]. destruct (H2 c a Hc Ha2) as [Ha3 Hs3]. split; [done|]. by eapply same_at_trans. Qed.
Lemma keeps_view E C v v' : same top v v' → (∀ y, y ∈ fsrefs C → same_at y v v') → keeps E C v C v'.
Proof. intros Hs H. split; [by apply same_steady|]. intros c a _ Ha. split; [done|]. apply H. by eapply fsrefs_elem. Qed.
Lemma keeps_nodes E C v C' v' C2 : keeps E C v C' v' → (∀ c, c ∈ E → attrs C2 !! c = attrs C' !! c) → keeps E C v C2 v'.
Proof. intros H He. split; [apply H|]. intros c a Hc Ha. destruct (H c a Hc Ha). split; [by rewrite He|done]. Qed.
Lemma same_fsrefs C v v' : same top v v' → fsrefs C ⊆ held v → fsrefs C ⊆ held v' → ∀ y, y ∈ fsrefs C → same_at y v v'.
Proof. intros Hs H1 H2 y Hy. apply Hs; left; multiset_solver. Qed.
Lemma st_fsrefs L C v X s : st L C v X s → fsrefs C ⊆ held v.
Proof. intros [_ _ ->]. multiset_solver. Qed.

Definition opt (r : option nat) : gmultiset nat := match r with Some n => {[+ n +]} | None => ∅ end.

(** A new node under [n] for the entry [q] named [m] that is not cached. *)
Definition new_child (alloc : option nat) (n : nat) (m : list Z) (q : nat) (s : vfs) : outcome (Z * option nat * vfs) :=
  '(node, s) ← vfs_node_createnew cfg alloc vol (Some m) q s;
  s ← do_refdrop q s;
  match node with
  | None => Ok (- ENOMEM, None, s)
  | Some c => s ← vfs_node_parent_nolock_set cfg c n s; Ok (0, Some c, s)
  end.
Lemma shrunk_attrs L C C1 c : shrunk L C C1 → c ∈ ext C → attrs C1 !! c = attrs C !! c.
Proof. intros [->|(z & p & (_ & _ & Hz & _) & ->)] Hc; [done|]. cbn [recycled attrs]. rewrite lookup_delete_ne; [done|]. by intros ->. Qed.
Lemma shrunk_sub L C C1 c a : shrunk L C C1 → attrs C1 !! c = Some a → attrs C !! c = Some a.
Proof. intros [->|(z & p & _ & ->)]; [done|]. cbn [recycled attrs]. by intros [_ ?]%lookup_delete_Some. Qed.
Lemma shrunk_place L C C1 c p : shrunk L C C1 → place C1 !! c = Some p → place C !! c = Some p.
Proof. intros [->|(z & p' & _ & ->)]; [done|]. cbn [recycled place]. by intros [_ ?]%lookup_delete_Some. Qed.
Lemma shrunk_ext L C C1 : shrunk L C C1 → ext C ⊆ ext C1.
Proof. intros [->|(z & p & _ & ->)]; [done|]. cbn [recycled ext]. multiset_solver. Qed.

Lemma new_child_spec L C v X E s alloc n a m q : st L C v X s → coh C v → q ∈ X → top ∈ X ∖ {[+ q +]} → (∀ l, l ∈ L → l ∈ E) → E ⊆ ext C → n ∈ E →
  attrs C !! n = Some a → a_parent a ≠ None → ent v (a_fsn a) m = Some q → (∀ c, place C !! c = Some n → a_name <$> attrs C !! c ≠ Some m) → (∀ k, alloc = Some k → attrs C !! k = None) →
  ∃ e r s' C' v', new_child alloc n m q s = Ok (e, r, s') ∧ st L C' v' (X ∖ {[+ q +]}) s' ∧ coh C' v' ∧ E ⊎ opt r ⊆ ext C' ∧ keeps E C v C' v' ∧ within alloc C C' ∧
    match r with None => e = - ENOMEM ∧ alloc = None | Some c => e = 0 ∧ c ≠ n ∧ c ∉ E ∧ attrs C' !! c = Some {| a_name := m; a_parent := Some n; a_fsn := q |} ∧ same_at q v v' end.
Proof.
  intros Hs H Hq Ht HL HE Hn Ha Hatt He Hno Hal. unfold new_child.
  destruct (createnew_spec cfg vol Fr L C v X s alloc (Some m) q Hs (h_settled _ _ H) (λ n a, coh_roots C v n a H)) as (r & s1 & v1 & C1 & -> & Hsh & Hst & Hsm & Hr); try done; [multiset_solver|multiset_solver|]. cbn [mbind outcome_bind default] in *.
  assert (coh C1 v1) as H1. { eapply coh_same; [by eapply coh_shrunk|]. intros y Hy. apply Hsm. multiset_solver. }
  assert (keeps E C v C1 v1) as K1. { split; [done|]. intros c b Hc Hb. assert (attrs C1 !! c = Some b) as Hb1 by (rewrite (shrunk_attrs L C C1 c Hsh); [done|multiset_solver]). split; [done|]. apply Hsm. pose proof (fsrefs_elem C1 c b Hb1). multiset_solver. }
  pose proof (shrunk_ext L C C1 Hsh) as HE1. destruct r as [c|].
  - destruct Hr as (Hc1 & Hca & Hs1). set (C2 := born c m q C1) in *. destruct (do_refdrop_spec cfg vol Fr L C2 v1 X s1 q Hs1 Hq Ht) as (s2 & v2 & -> & Hs2 & Hsame2). cbn [mbind outcome_bind].
    destruct (K1 n a Hn Ha) as [Ha1 Hsn]. assert (n ≠ c) as Hnc by congruence. assert (attrs C2 !! n = Some a) as Ha2 by (unfold C2; by rewrite born_lookup, decide_False).
    assert (attrs C2 !! c = Some {| a_name := m; a_parent := None; a_fsn := q |}) as Hc2 by (unfold C2; by rewrite born_lookup, decide_True).
    pose proof (same_fsrefs C2 v1 v2 Hsame2 (st_fsrefs _ _ _ _ _ Hs1) (st_fsrefs _ _ _ _ _ Hs2)) as Hsm2. assert (coh C2 v2) as H2 by (eapply coh_same; [by apply coh_born|done]).
    assert (keeps E C v C2 v2) as K2. { eapply keeps_trans; [|by apply keeps_view]. eapply keeps_nodes; [done|]. intros b Hb. unfold C2. rewrite born_lookup, decide_False; [done|]. intros ->. destruct (wf_ext _ (c_wf _ _ _ _ _ (s_core _ _ _ _ _ _ _ _ Hs)) c) as [ac Hac]; [multiset_solver|]. rewrite <-(shrunk_attrs L C C1 c Hsh) in Hac by multiset_solver. congruence. }
    destruct (parent_set_spec cfg vol Fr L C2 v2 _ s2 c n _ Hs2 Hc2 eq_refl Hnc) as (s3 & -> & Hs3); [eauto|]. cbn [mbind outcome_bind]. exists 0, (Some c), s3. eexists _, v2. split; [done|]. split; [exact Hs3|].
    assert (c ∉ E) as HcE. { intros Hc. destruct (wf_ext _ (c_wf _ _ _ _ _ (s_core _ _ _ _ _ _ _ _ Hs)) c) as [ac Hac]; [multiset_solver|]. rewrite <-(shrunk_attrs L C C1 c Hsh) in Hac by multiset_solver. congruence. }
    split_and!; try done.
    + eapply (coh_set C2 v2 _ c n _ a H2 (s_rel _ _ _ _ _ _ _ _ Hs2) Hc2); try done; cbn [a_name a_fsn].
      * destruct (K2 n a Hn Ha) as [_ (_ & -> & _)]. done.
      * intros b Hb. change (place C1 !! b = Some n) in Hb. unfold C2. rewrite born_lookup. destruct (decide (b = c)) as [->|Hbc].
        { destruct (wf_place _ (c_wf _ _ _ _ _ (s_core _ _ _ _ _ _ _ _ Hs1)) c n Hb) as [_ Hpc]. change (a_parent <$> attrs C2 !! c = Some (Some n)) in Hpc. by rewrite Hc2 in Hpc. }
        pose proof (shrunk_place L C C1 b n Hsh Hb) as Hb'. intros E1. apply (Hno b Hb'). destruct (attrs C1 !! b) as [ab|] eqn:Eb; [|done]. by rewrite (shrunk_sub L C C1 b ab Hsh Eb).
    + cbn [opt C2 set_place reparent set_attrs born hold set_ext ext]. multiset_solver.
    + eapply keeps_nodes; [exact K2|]. intros b Hb. change (attrs (reparent c (Some n) C2) !! b = attrs C2 !! b). rewrite reparent_lookup, decide_False; [done|]. by intros ->.
    + intros k Hk Hkc. change (attrs (reparent c (Some n) C2) !! k = None). rewrite reparent_lookup. destruct (decide (k = c)) as [->|Hne]; [by destruct Hkc; apply Hca|]. unfold C2. rewrite born_lookup, decide_False by done. destruct (attrs C1 !! k) as [b|] eqn:Eb; [|done]. apply (shrunk_sub L C C1 k b Hsh) in Eb. congruence.
    + change (attrs (reparent c (Some n) C2) !! c = Some {| a_name := m; a_parent := Some n; a_fsn := q |}). by rewrite reparent_lookup, decide_True, Hc2.
    + eapply same_at_trans; [apply Hsm, gmultiset_elem_of_disj_union; by left|apply Hsm2; by eapply (fsrefs_elem C2 c) in Hc2].
  - destruct Hr as (Hnone & -> & Hs1). destruct (do_refdrop_spec cfg vol Fr L C v1 X s1 q Hs1 Hq Ht) as (s2 & v2 & -> & Hs2 & Hsame2). cbn [mbind outcome_bind]. pose proof (same_fsrefs C v1 v2 Hsame2 (st_fsrefs _ _ _ _ _ Hs1) (st_fsrefs _ _ _ _ _ Hs2)) as Hsm2.
    exists (- ENOMEM), None, s2, C, v2. split_and!; try done; [by eapply coh_same|cbn [opt]; multiset_solver|]. eapply keeps_trans; [done|]. by apply keeps_view.
Qed.

(** ** Lookup *)

(** Why a lookup in the node fails. *)
Definition lookup_err (a : vattr) (v : view) (m : list Z) : Z :=
  match a_parent a with
  | None => - EINVAL
  | Some _ => if dirp v (a_fsn a) then match ent v (a_fsn a) m with None => - ENOENT | Some _ => - ENOMEM end else - EINVAL
  end.
Lemma st_ext L C C' v X s : st L C v X s → attrs C' = attrs C → place C' = place C → ext C' = ext C → st L C' v X s.
Proof. intros Hs E1 E2 E3. by rewrite (cache_eq C' C E1 E2 E3). Qed.
Lemma no_cached_file C v s n a c : coh C v → rel s v → attrs C !! n = Some a → place C !! c = Some n → wf C → dirp v (a_fsn a) = true ∧ ∃ ac, attrs C !! c = Some ac ∧ a_parent ac = Some n ∧ c ≠ n ∧ ent v (a_fsn a) (a_name ac) = Some (a_fsn ac).
Proof.
  intros H Hr Ha Hc Hw. destruct (wf_place _ Hw _ _ Hc) as [Hne Hp]. destruct (attrs C !! c) as [ac|] eqn:Eac; [|done]. cbn in Hp. injection Hp as Hp. destruct (h_parent _ _ H c ac n Eac Hp Hne) as (an & Han & _ & He). rewrite Ha in Han. injection Han as <-.
  split; [by eapply rel_dir|]. exists ac. done.
Qed.

Lemma node_lookup_spec C v X E s alloc n a nm : st ∅ C v X s → coh C v → top ∈ X → E ⊆ ext C → n ∈ E → attrs C !! n = Some a → (∀ k, alloc = Some k → attrs C !! k = None) →
  ∃ e r s' C' v', vfs_node_lookup cfg alloc n nm s = Ok (e, r, s') ∧ st ∅ C' v' X s' ∧ coh C' v' ∧ E ⊎ opt r ⊆ ext C' ∧ keeps E C v C' v' ∧ within alloc C C' ∧
    match r with
    | Some c => e = 0 ∧ a_parent a ≠ None ∧ c ≠ n ∧ ∃ ac, attrs C' !! c = Some ac ∧ a_parent ac = Some n ∧ a_name ac = vfs_name_mangle cfg nm ∧ ent v (a_fsn a) (vfs_name_mangle cfg nm) = Some (a_fsn ac)
    | None => e = lookup_err a v (vfs_name_mangle cfg nm) ∧ (e = - ENOMEM → alloc = None)
    end.
Proof.
  intros Hs H Ht HE Hn Ha Hal. set (m := vfs_name_mangle cfg nm). unfold vfs_node_lookup, lookup_err. destruct (getn_spec cfg vol Fr _ _ _ _ _ _ _ Hs Ha) as (x & -> & _ & Hx). cbn [mbind outcome_bind]. unfold vfs_node_is_dandling. rewrite (n_parent _ _ _ _ _ _ _ Hx).
  destruct (a_parent a) as [p|] eqn:Ep.
  2:{ rewrite bool_decide_true by done. exists (- EINVAL), None, s, C, v. split_and!; try done. cbn [opt]. multiset_solver. }
  rewrite bool_decide_false by done. pose proof (n_fs _ _ _ _ _ _ _ Hx) as Efs. pose proof (n_fsn _ _ _ _ _ _ _ Hx) as Efn. pose proof (c_wf _ _ _ _ _ (s_core _ _ _ _ _ _ _ _ Hs)) as Hw.
  destruct (dirlock_spec cfg vol Fr ∅ C v X s n Hs) as (s1 & -> & Hs1); [eauto|set_solver|]. cbn [mbind outcome_bind]. unfold vfs_dir_mangled_lookup. fold m. destruct (dir_lookup_spec cfg vol Fr _ C v X s1 n m Hs1) as (r & s2 & -> & Hs2 & Hr); [eauto|]. cbn [mbind outcome_bind].
  assert (({[n]} ∪ ∅) ∖ {[n]} = (∅ : gset nat)) as EL by set_solver. destruct r as [c|]; cbn [hold_opt] in Hs2.
  - destruct Hr as [Hpl Hnm]. destruct (no_cached_file C v _ n a c H (s_rel _ _ _ _ _ _ _ _ Hs) Ha Hpl Hw) as (Hd & ac & Hac & Hpc & Hcn & He). cbn [mbind outcome_bind].
    destruct (dirunlock_spec cfg vol Fr _ (hold c C) v X s2 n Hs2) as (s3 & -> & Hs3); [eauto|set_solver|]. cbn [mbind outcome_bind]. rewrite EL in Hs3. exists 0, (Some c), s3, (hold c C), v.
    split_and!; try done; [by apply coh_hold|cbn [opt hold set_ext ext]; multiset_solver|]. exists ac. rewrite Hac in Hnm. cbn in Hnm. injection Hnm as Hnm. split_and!; try done. by rewrite <-Hnm.
  - pose proof (s_held _ _ _ _ _ _ _ _ Hs2) as Hh2. rewrite Efn. destruct (lookup_law (under s2) v (a_fsn a) nm (s_rel _ _ _ _ _ _ _ _ Hs2)) as (u & v1 & Hr1 & Hsame & Hfr & Hlk); [rewrite Hh2; pose proof (fsrefs_elem C n a Ha); multiset_solver|]. fold m in Hlk.
    assert (∀ X1, held v1 = X1 ⊎ fsrefs C → st ({[n]} ∪ ∅) C v1 X1 (set_under u s2) ∧ coh C v1 ∧ keeps E C v C v1) as Hv1.
    { intros X1 Hh1. assert (st ({[n]} ∪ ∅) C v1 X1 (set_under u s2)) as Hs3 by (eapply under_spec; [done..|]; intros b Hb; by apply Hfr, (s_fresh _ _ _ _ _ _ _ _ Hs2)). pose proof (same_fsrefs C v v1 Hsame (st_fsrefs _ _ _ _ _ Hs2) (st_fsrefs _ _ _ _ _ Hs3)) as Hsm. split_and!; [done|by eapply coh_same|by apply keeps_view]. }
    assert (held v1 = held v → ∃ s4, vfs_node_dirunlock n (set_under u s2) = Ok s4 ∧ st ∅ C v1 X s4 ∧ coh C v1 ∧ E ⊎ opt None ⊆ ext C ∧ keeps E C v C v1) as Hfail.
    { intros Hh1. destruct (Hv1 X) as (Hs3 & H3 & K3); [by rewrite Hh1|]. destruct (dirunlock_spec cfg vol Fr _ C v1 X _ n Hs3) as (s4 & -> & Hs4); [eauto|set_solver|]. rewrite EL in Hs4. exists s4. split_and!; try done. cbn [opt]. multiset_solver. }
    destruct (dirp v (a_fsn a)) eqn:Ed.
    2:{ destruct Hlk as [-> Hh1]. destruct (Hfail Hh1) as (s4 & E4 & ? & ? & ? & ?). cbn [mbind outcome_bind]. change (- EINVAL =? 0) with false. cbn [negb mbind outcome_bind]. rewrite E4. by exists (- EINVAL), None, s4, C, v1. }
    destruct (ent v (a_fsn a) m) as [q|] eqn:He.
    2:{ destruct Hlk as [-> Hh1]. destruct (Hfail Hh1) as (s4 & E4 & ? & ? & ? & ?). cbn [mbind outcome_bind]. change (- ENOENT =? 0) with false. cbn [negb mbind outcome_bind]. rewrite E4. by exists (- ENOENT), None, s4, C, v1. }
    destruct Hlk as [-> Hh1]. cbn [mbind outcome_bind of_option Z.eqb negb]. destruct (Hv1 (X ⊎ {[+ q +]})) as (Hs3 & H3 & K3); [rewrite Hh1, Hh2; multiset_solver|].
    destruct (K3 n a Hn Ha) as [_ (_ & Hent & _)]. destruct (new_child_spec _ C v1 (X ⊎ {[+ q +]}) E _ alloc n a m q Hs3 H3) as (e & r & s4 & C4 & v4 & Enc & Hs4 & H4 & HE4 & K4 & W4 & Hres); try done; [multiset_solver|multiset_solver|set_solver|by rewrite Ep|by rewrite Hent|].
    unfold new_child in Enc. rewrite Efs, Enc. cbn [mbind outcome_bind]. replace ((X ⊎ {[+ q +]}) ∖ {[+ q +]}) with X in Hs4 by multiset_solver.
    assert (is_Some (attrs C4 !! n)) as Hn4 by (destruct (K4 n a Hn Ha) as [-> _]; eauto). destruct (dirunlock_spec cfg vol Fr _ C4 v4 X s4 n Hs4 Hn4) as (s5 & -> & Hs5); [set_solver|]. cbn [mbind outcome_bind]. rewrite EL in Hs5.
    exists e, r, s5, C4, v4. split_and!; try done; [by eapply keeps_trans|]. destruct r as [c|].
    + destruct Hres as (-> & Hcn & _ & Hc4 & _). split_and!; try done. eexists. split; [done|]. done.
    + destruct Hres as [-> Hnone]. done.
Qed.

(** ** References of clients *)

Lemma client_refdrop L C v X s n : st L C v X s → coh C v → top ∈ X → n ∈ ext C → (2 <= multiplicity r0 (ext C ∖ {[+ n +]}))%nat →
  ∃ s' C' v', vfs_node_refdrop n s = Ok s' ∧ st L C' v' X s' ∧ coh C' v' ∧ ext C' = ext C ∖ {[+ n +]} ∧ within None C C' ∧ ∀ E, E ⊆ ext C' → keeps E C v C' v'.
Proof.
  intros Hs H Ht Hn Hm. pose proof (c_wf _ _ _ _ _ (s_core _ _ _ _ _ _ _ _ Hs)) as Hw. destruct (wf_ext _ Hw n Hn) as [a Ha]. destruct (decide (1 < refs C n)%nat) as [Hr|Hr].
  - destruct (refdrop_more cfg vol Fr L C v X s n Hs Hn Hr) as (s' & -> & Hs'). exists s', (unhold n C), v. split_and!; try done. by eapply coh_ext.
  - pose proof (ext_refs n C Hn) as Hr0. assert (refs C n = 1%nat) as Hr1 by lia. destruct (last_ref C n Hn Hr1) as (Hpl & Hus & Hmu). assert (a_parent a = None) as Hp.
    { destruct (a_parent a) as [p|] eqn:Ep; [|done]. destruct (decide (n = p)) as [<-|Hne]; [|pose proof (h_settled _ _ H n a p Ha Ep Hne); congruence]. pose proof (coh_roots C v n a H Ha Ep). lia. }
    destruct (refdrop_spec' cfg vol Fr L C v X s n Hs Hn Ht) as (s' & v' & -> & Hs' & Hsame); [right; by rewrite Ha, <-Hp|]. unfold let_go in Hs'. rewrite Hr1, Nat.eqb_refl in Hs'. set (C' := set_attrs (delete n) (unhold n C)) in *.
    assert (fsrefs C = fsrefs C' ⊎ {[+ a_fsn a +]}) as Hf by exact (fsrefs_delete C n a Ha). pose proof (st_fsrefs _ _ _ _ _ Hs) as HF.
    assert (∀ y, y ∈ fsrefs C' → same_at y v v') as Hsm by (apply (same_fsrefs C' v v' Hsame); [multiset_solver|by eapply st_fsrefs]).
    exists s', C', v'. split_and!; try done.
    + eapply coh_same; [|done]. apply (coh_delete C C' v n); try done. intros ->. destruct (h_root _ _ H) as (ar & Har & Hrp & _). rewrite Ha in Har. injection Har as <-. congruence.
    + apply within_sub. intros k b. cbn [C' set_attrs unhold set_ext attrs]. intros [_ ?]%lookup_delete_Some. eauto.
    + intros E HE. split; [by apply same_steady|]. intros c b Hc Hb. assert (c ≠ n) as Hne. { intros ->. assert (n ∈ ext C') as Hn' by (by eapply gmultiset_elem_of_subseteq). pose proof (proj1 (elem_of_multiplicity _ _) Hn') as Hm2. cbn [C' set_attrs unhold set_ext ext] in Hm2. rewrite multiplicity_difference, multiplicity_singleton, decide_True in Hm2 by done. lia. }
      assert (attrs C' !! c = Some b) as Hb' by (cbn [C' set_attrs unhold set_ext attrs]; by rewrite lookup_delete_ne). split; [done|]. apply Hsm. by eapply fsrefs_elem.
Qed.

(** ** Entries that change *)

Definition detach (r : option nat) (C : cache) : cache := match r with Some c => reparent c None (set_place (delete c) (hold c C)) | None => C end.
(** The cached node of the entry, if there is one. *)
Definition cached (C : cache) (p : nat) (m : list Z) (r : option nat) : Prop :=
  match r with
  | Some c => place C !! c = Some p ∧ a_name <$> attrs C !! c = Some m
  | None => ∀ c, place C !! c = Some p → a_name <$> attrs C !! c ≠ Some m
  end.
Lemma detach_lookup r C c : attrs (detach r C) !! c = if decide (r = Some c) then with_parent None <$> attrs C !! c else attrs C !! c.
Proof.
  destruct r as [c'|]; cbn [detach]; [|by rewrite decide_False]. rewrite reparent_lookup. change (attrs (set_place (delete c') (hold c' C))) with (attrs C). destruct (decide (c = c')) as [->|]; [by rewrite decide_True|by rewrite decide_False by congruence].
Qed.

Lemma coh_detach C v v' s p ap m r : coh C v → rel s v → wf C → attrs C !! p = Some ap → a_parent ap ≠ None →
  (∀ q m', q ∈ fsrefs C → ¬ (q = a_fsn ap ∧ m' = m) → ent v' q m' = ent v q m') → cached C p m r →
  (∀ o, ent v (a_fsn ap) m = Some o → ∀ m', ent v o m' = None) → coh (detach r C) v' ∧ cached (detach r C) p m None.
Proof.
  intros H Hrel Hw Hap Hatt Hent Hr Hemp. pose proof H as [H1 H2 H3 H4 H5 H6].
  assert (∀ c a q, attrs C !! c = Some a → a_parent a = Some q → c ≠ q → ∀ aq, attrs C !! q = Some aq → a_fsn aq = a_fsn ap → a_name a = m → r = Some c) as Huniq.
  { intros c a q Ha Hq Hne aq Haq Ef Em. destruct (H2 c a q Ha Hq Hne) as (aq' & Haq' & Hqa & He). rewrite Haq in Haq'. injection Haq' as <-. assert (q = p) as -> by (by eapply H5). pose proof (H1 c a p Ha Hq Hne) as Hpl.
    destruct r as [c'|]; cbn [cached] in Hr; [|destruct (Hr c Hpl); by rewrite Ha, <-Em]. destruct Hr as [Hpl' Hn']. destruct (no_cached_file C v s p ap c' H Hrel Hap Hpl' Hw) as (_ & ac' & Hac' & Hpc' & _ & He'). rewrite Hac' in Hn'. cbn in Hn'. injection Hn' as Hn'.
    rewrite Hap in Haq. injection Haq as <-. f_equal. eapply H5; [done|exact Ha|by rewrite Hpc'|by rewrite Hq|]. congruence. }
  assert (∀ c, r = Some c → ∃ ac, attrs C !! c = Some ac ∧ a_parent ac = Some p ∧ c ≠ p ∧ c ≠ r0 ∧ ∀ c' a', attrs C !! c' = Some a' → a_parent a' = Some c → c' = c) as Hrc.
  { intros c ->. destruct Hr as [Hpl Hn]. destruct (no_cached_file C v s p ap c H Hrel Hap Hpl Hw) as (_ & ac & Hac & Hpc & Hcp & He). exists ac. rewrite Hac in Hn. cbn in Hn. injection Hn as Hn. rewrite Hn in He. split_and!; try done.
    - intros ->. destruct H3 as (ar & Har & Hrp & _). rewrite Hac in Har. injection Har as <-. congruence.
    - intros c' a' Ha' Hp'. destruct (decide (c' = c)) as [|Hne]; [done|]. destruct (H2 c' a' c Ha' Hp' Hne) as (ac2 & Hac2 & _ & He2). rewrite Hac in Hac2. injection Hac2 as <-. by rewrite (Hemp _ He) in He2. }
  assert (∀ c a, attrs (detach r C) !! c = Some a → a_parent a ≠ None → r ≠ Some c ∧ attrs C !! c = Some a) as Hback.
  { intros c a. rewrite detach_lookup. destruct (decide (r = Some c)) as [->|]; [|done]. destruct (attrs C !! c); [|done]. by intros [= <-] []. }
  split.
  - split.
    + intros c a q Ha Hq Hne. destruct (Hback c a Ha) as [Hcr Ha0]; [by rewrite Hq|]. pose proof (H1 c a q Ha0 Hq Hne) as Hpl. destruct r as [c'|]; cbn [detach]; [|done]. cbn [reparent set_attrs set_place place hold set_ext]. rewrite lookup_delete_ne; [done|congruence].
    + intros c a q Ha Hq Hne. destruct (Hback c a Ha) as [Hcr Ha0]; [by rewrite Hq|]. destruct (H2 c a q Ha0 Hq Hne) as (aq & Haq & Hqa & He). exists aq. rewrite detach_lookup. destruct (decide (r = Some q)) as [Hq'|Hq'].
      * destruct (Hrc q Hq') as (_ & _ & _ & _ & _ & Hk). destruct Hne. by apply (Hk c a).
      * split_and!; try done. rewrite Hent; [done|by eapply fsrefs_elem|]. intros [Ef Em]. destruct Hcr. by eapply Huniq.
    + destruct H3 as (ar & Har & ? & ?). exists ar. rewrite detach_lookup, decide_False; [done|]. intros Hr'. by destruct (Hrc r0 Hr') as (_ & _ & _ & _ & ? & _).
    + intros c a Ha Hp. destruct (Hback c a Ha) as [_ Ha0]; [by rewrite Hp|]. eauto.
    + intros c a c' a' Ha Ha' Hp Hp'. destruct (Hback c a Ha Hp) as [_ Ha0], (Hback c' a' Ha' Hp') as [_ Ha0']. eauto.
    + destruct r; [|done]. cbn [detach reparent set_attrs set_place hold set_ext ext]. rewrite multiplicity_disj_union. lia.
  - intros c Hpl Hn. assert (place C !! c = Some p ∧ r ≠ Some c) as [Hpl0 Hne]. { destruct r as [c'|]; cbn [detach] in Hpl; [|done]. cbn [reparent set_attrs set_place place hold set_ext] in Hpl. apply lookup_delete_Some in Hpl as [? ?]. split; [done|congruence]. }
    rewrite detach_lookup, decide_False in Hn by done. destruct (no_cached_file C v s p ap c H Hrel Hap Hpl0 Hw) as (_ & ac & Hac & Hpc & Hcp & He). rewrite Hac in Hn. cbn in Hn. injection Hn as Hn. destruct Hne. by eapply Huniq.
Qed.
Lemma attached_refs C v p ap c ac : coh C v → attrs C !! p = Some ap → a_parent ap ≠ None → attrs C !! c = Some ac → a_parent ac = Some p → c ≠ p → (1 < refs C p)%nat.
Proof.
  intros H Hap Hatt Hac Hpc Hne. destruct (a_parent ap) as [q|] eqn:Eq; [|done]. destruct (decide (p = q)) as [<-|Hpq]; [by eapply coh_roots|]. pose proof (h_settled _ _ H p ap q Hap Eq Hpq) as Hpl.
  unfold refs, linked. rewrite Hpl. destruct (decide (users C p = 0%nat)) as [Hu|]; [|lia]. rewrite users_none in Hu. destruct Hne. eauto.
Qed.
Lemma unset_opt_spec L C v v' X s p ap m r : st L (hold_opt r C) v' X s → coh C v → attrs C !! p = Some ap → a_parent ap ≠ None → cached C p m r →
  ∃ s', unset_opt r s = Ok s' ∧ st L (detach r C) v' X s'.
Proof.
  intros Hs H Hap Hatt Hr. destruct r as [c|]; [|by exists s]. cbn [hold_opt unset_opt cached] in *. destruct Hr as [Hpl Hn]. destruct (wf_place _ (c_wf _ _ _ _ _ (s_core _ _ _ _ _ _ _ _ Hs)) c p Hpl) as [Hne Hp]. change (attrs (hold c C)) with (attrs C) in Hp.
  destruct (attrs C !! c) as [ac|] eqn:Hac; [|done]. cbn in Hp. injection Hp as Hp. eapply unset_spec; try done; [cbn [hold set_ext ext]; multiset_solver|]. rewrite refs_of_hold. pose proof (attached_refs C v p ap c ac H Hap Hatt Hac Hp Hne). lia.
Qed.
(** The reference of the lookup goes. *)
Lemma refdrop_opt_spec L C v X s r : st L C v X s → coh C v → top ∈ X → opt r ⊆ ext C → (2 <= multiplicity r0 (ext C ∖ opt r))%nat →
  ∃ s' C' v', refdrop_opt r s = Ok s' ∧ st L C' v' X s' ∧ coh C' v' ∧ ext C' = ext C ∖ opt r ∧ within None C C' ∧ ∀ E, E ⊆ ext C' → keeps E C v C' v'.
Proof.
  intros Hs H Ht Hr Hm. destruct r as [n|]; cbn [opt refdrop_opt] in *; [apply client_refdrop; [done..|multiset_solver|done]|]. exists s, C, v. split_and!; try done. multiset_solver.
Qed.
Lemma sub_plus (E Y O : gmultiset nat) : E ⊆ Y → E ⊎ O ⊆ Y ⊎ O.
Proof. multiset_solver. Qed.
Lemma sub_minus (E Y O : gmultiset nat) : E ⊆ Y → E ⊆ (Y ⊎ O) ∖ O.
Proof. multiset_solver. Qed.
Lemma ext_detach r C : ext (detach r C) = ext C ⊎ opt r.
Proof. destruct r; cbn [detach opt reparent set_attrs set_place hold set_ext ext]; [done|multiset_solver]. Qed.
Lemma within_detach r C : within None C (detach r C).
Proof. intros k Hk _. rewrite detach_lookup, Hk. by destruct (decide _). Qed.
Lemma ext_hold_opt r C : ext (hold_opt r C) = ext C ⊎ opt r.
Proof. destruct r; cbn [hold_opt opt hold set_ext ext]; [done|multiset_solver]. Qed.

(** What the nodes of a client become when the entry [m] of [p] is taken out of the
    cache, and what the file system shows of them when the entry changes to [r]. *)
Definition changed (E : gmultiset nat) (p : nat) (m : list Z) (C C' : cache) : Prop :=
  ∀ c a, c ∈ E → attrs C !! c = Some a → attrs C' !! c = Some (if decide (a_parent a = Some p ∧ a_name a = m ∧ c ≠ p) then with_parent None a else a).
Definition shows (E : gmultiset nat) (d : nat) (m : list Z) (r : option nat) (C : cache) (v v' : view) : Prop :=
  ∀ c a, c ∈ E → attrs C !! c = Some a → dirp v' (a_fsn a) = dirp v (a_fsn a) ∧ ∀ m', ent v' (a_fsn a) m' = if decide (a_fsn a = d ∧ m' = m) then r else ent v (a_fsn a) m'.

Lemma detach_changed C v s p ap m r E : coh C v → rel s v → wf C → attrs C !! p = Some ap → cached C p m r → changed E p m C (detach r C).
Proof.
  intros H Hrel Hw Hap Hr c a _ Ha. rewrite detach_lookup. destruct (decide (r = Some c)) as [->|Hne].
  - destruct Hr as [Hpl Hn]. destruct (no_cached_file C v s p ap c H Hrel Hap Hpl Hw) as (_ & ac & Hac & Hpc & Hcp & _). rewrite Ha in *. injection Hac as <-. cbn in Hn. injection Hn as Hn. by rewrite decide_True.
  - rewrite decide_False; [done|]. intros (Hp & Hn & Hcp). pose proof (h_settled _ _ H c a p Ha Hp Hcp) as Hpl. destruct r as [c'|]; cbn [cached] in Hr; [|apply (Hr c Hpl); by rewrite Ha, <-Hn].
    destruct Hr as [Hpl' Hn']. destruct (no_cached_file C v s p ap c' H Hrel Hap Hpl' Hw) as (_ & ac' & Hac' & Hpc' & Hcp' & He'). destruct (no_cached_file C v s p ap c H Hrel Hap Hpl Hw) as (_ & ac & Hac & _ & _ & He).
    rewrite Hac' in Hn'. cbn in Hn'. injection Hn' as Hn'. rewrite Ha in Hac. injection Hac as <-. destruct Hne. f_equal. eapply (h_uniq _ _ H); [done|exact Ha|by rewrite Hpc'|by rewrite Hp|]. congruence.
Qed.
Lemma changed_keeps E p m C C1 C2 v1 v2 : changed E p m C C1 → keeps E C1 v1 C2 v2 → changed E p m C C2.
Proof. intros H K c a Hc Ha. specialize (H c a Hc Ha). by destruct (K c _ Hc H). Qed.
Lemma shows_keeps E d m r C C1 C2 v v1 v2 : shows E d m r C v v1 → (∀ c a, c ∈ E → attrs C !! c = Some a → ∃ a1, attrs C1 !! c = Some a1 ∧ a_fsn a1 = a_fsn a) → keeps E C1 v1 C2 v2 → shows E d m r C v v2.
Proof.
  intros H Hf K c a Hc Ha. destruct (Hf c a Hc Ha) as (a1 & Ha1 & Ef). destruct (K c a1 Hc Ha1) as [_ (Hd & He & _)]. rewrite Ef in *. destruct (H c a Hc Ha) as [Hd' He']. split; [congruence|]. intros m'. by rewrite He, He'.
Qed.
Lemma detach_fsn r C c a : attrs C !! c = Some a → ∃ a1, attrs (detach r C) !! c = Some a1 ∧ a_fsn a1 = a_fsn a.
Proof. intros Ha. rewrite detach_lookup, Ha. destruct (decide _); eexists; (split; [done|]); done. Qed.

(** ** Unlink *)

Lemma coh_hold_opt r C v : coh C v → coh (hold_opt r C) v.
Proof. destruct r; [apply coh_hold|done]. Qed.
Lemma attrs_hold_opt r C : attrs (hold_opt r C) = attrs C.
Proof. by destruct r. Qed.
Lemma fsrefs_hold_opt r C : fsrefs (hold_opt r C) = fsrefs C.
Proof. by destruct r. Qed.
Lemma fsrefs_detach r C : fsrefs (detach r C) = fsrefs C.
Proof. destruct r; [|done]. cbn [detach]. unfold reparent. by rewrite fsrefs_alter. Qed.
(** The end of an operation: the semaphore and the reference of the lookup. *)
Lemma finish_spec C v X s p r E : st ({[p]} ∪ ∅) C v X s → coh C v → top ∈ X → p ∈ E → E ⊎ opt r ⊆ ext C → (2 <= multiplicity r0 E)%nat →
  ∃ s1 s' C' v', vfs_node_dirunlock p s = Ok s1 ∧ refdrop_opt r s1 = Ok s' ∧ st ∅ C' v' X s' ∧ coh C' v' ∧ ext C' = ext C ∖ opt r ∧ within None C C' ∧ ∀ E, E ⊆ ext C' → keeps E C v C' v'.
Proof.
  intros Hs H Ht Hp HE Hm. destruct (wf_ext _ (c_wf _ _ _ _ _ (s_core _ _ _ _ _ _ _ _ Hs)) p) as [ap Hap]; [multiset_solver|]. destruct (dirunlock_spec cfg vol Fr _ C v X s p Hs) as (s1 & -> & Hs1); [eauto|set_solver|].
  replace (({[p]} ∪ ∅) ∖ {[p]}) with (∅ : gset nat) in Hs1 by set_solver. exists s1. destruct (refdrop_opt_spec ∅ C v X s1 r Hs1 H Ht) as (s' & C' & v' & ? & ? & ? & ? & ? & ?); [multiset_solver| |by exists s', C', v'].
  assert (E ⊆ ext C ∖ opt r) as HE' by multiset_solver. pose proof (HE' r0). lia.
Qed.

Lemma node_unlink_spec C v X E s p ap nm : st ∅ C v X s → coh C v → top ∈ X → E ⊆ ext C → (2 <= multiplicity r0 E)%nat → p ∈ E → attrs C !! p = Some ap → a_parent ap ≠ None →
  dirp v (a_fsn ap) = true → (length nm <= Ramfs.NAMELEN cfg)%nat →
  ∃ e s' C' v', vfs_node_unlink cfg p nm s = Ok (e, s') ∧ st ∅ C' v' X s' ∧ coh C' v' ∧ E ⊆ ext C' ∧ within None C C' ∧
    (e ≠ 0 ∧ keeps E C v C' v' ∧ match ent v (a_fsn ap) (vfs_name_mangle cfg nm) with None => e = - ENOENT | Some o => ∃ m c, ent v o m = Some c end ∨
     e = 0 ∧ (∃ o, ent v (a_fsn ap) (vfs_name_mangle cfg nm) = Some o ∧ ∀ m, ent v o m = None) ∧ changed E p (vfs_name_mangle cfg nm) C C' ∧ shows E (a_fsn ap) (vfs_name_mangle cfg nm) None C v v' ∧ edited top (a_fsn ap) (vfs_name_mangle cfg nm) None v v').
Proof.
  intros Hs H Ht HE Hm Hp Hap Hatt Hd Hlen. set (m := vfs_name_mangle cfg nm). unfold vfs_node_unlink. destruct unlink_law as (unlink & -> & Hlaw). destruct (getn_spec cfg vol Fr _ _ _ _ _ _ _ Hs Hap) as (x & -> & _ & Hx). cbn [mbind outcome_bind].
  rewrite (n_fs _ _ _ _ _ _ _ Hx), (n_fsn _ _ _ _ _ _ _ Hx). destruct (getf_spec cfg vol Fr _ _ _ _ _ Hs) as (w & -> & _ & _ & Hro). cbn [mbind outcome_bind]. rewrite Hro. pose proof (c_wf _ _ _ _ _ (s_core _ _ _ _ _ _ _ _ Hs)) as Hw. pose proof (s_rel _ _ _ _ _ _ _ _ Hs) as Hrel.
  destruct (dirlock_spec cfg vol Fr ∅ C v X s p Hs) as (s1 & -> & Hs1); [eauto|set_solver|]. cbn [mbind outcome_bind]. unfold vfs_dir_mangled_lookup. fold m. destruct (dir_lookup_spec cfg vol Fr _ C v X s1 p m Hs1) as (r & s2 & -> & Hs2 & Hr); [eauto|]. cbn [mbind outcome_bind].
  change (cached C p m r) in Hr. pose proof (s_held _ _ _ _ _ _ _ _ Hs2) as Hh2. rewrite fsrefs_hold_opt in Hh2. assert (a_fsn ap ∈ held v) as Hin by (rewrite Hh2; apply gmultiset_elem_of_disj_union; right; by eapply fsrefs_elem).
  destruct (Hlaw (a_fsn ap) nm (under s2) v (s_rel _ _ _ _ _ _ _ _ Hs2) Hin Hd Hlen) as (e & u & v1 & -> & Hr1 & Hh1 & Hf1 & Hcase). cbn [mbind outcome_bind]. fold m in Hcase.
  assert (st ({[p]} ∪ ∅) (hold_opt r C) v1 X (set_under u s2)) as Hs3 by (eapply under_spec; [done|done|by rewrite Hh1, fsrefs_hold_opt|intros b Hb; by apply Hf1, (s_fresh _ _ _ _ _ _ _ _ Hs2)]).
  destruct Hcase as [(He & Hsame & Hwhy)|(o & -> & Ho & Hemp & Hren)].
  - destruct (Z.eqb_spec e 0); [done|]. cbn [negb mbind outcome_bind]. assert (∀ y, y ∈ fsrefs (hold_opt r C) → same_at y v v1) as Hsm by (apply same_fsrefs; [done|by eapply st_fsrefs..]).
    destruct (finish_spec (hold_opt r C) v1 X _ p r E Hs3) as (s4 & s' & C' & v' & -> & E5 & Hs' & H' & Hx' & HW & HK); try done; [by eapply coh_same; [apply coh_hold_opt|]|rewrite ext_hold_opt; by apply sub_plus|]. cbn [mbind outcome_bind]. rewrite E5. cbn [mbind outcome_bind].
    assert (E ⊆ ext C') as HE' by (rewrite Hx', ext_hold_opt; by apply sub_minus). exists e, s', C', v'. split_and!; try done; [intros k; rewrite <-(attrs_hold_opt r C); apply HW|]. left. split_and!; try done. eapply keeps_trans; [|by apply HK]. split; [by apply same_steady|]. intros c a Hc Ha. rewrite attrs_hold_opt. split; [done|]. apply Hsm. rewrite fsrefs_hold_opt. by eapply fsrefs_elem.
  - cbn [Z.eqb negb]. assert (∀ y, y ∈ fsrefs C → y ∈ held v ∧ y ∈ held v1) as Hfh by (intros y Hy; rewrite Hh1, Hh2; split; apply gmultiset_elem_of_disj_union; by right).
    destruct (coh_detach C v v1 _ p ap m r H Hrel Hw Hap Hatt) as [H3 Hno]; [|done|intros o'; rewrite Ho; by intros [= <-]|].
    { intros q m' Hq Hne. destruct (Hfh q Hq) as [Hq1 Hq2]. destruct (Hren q) as (_ & -> & _); [by left..|]. by rewrite decide_False. }
    destruct (unset_opt_spec _ C v v1 X _ p ap m r Hs3 H Hap Hatt Hr) as (s4 & -> & Hs4). cbn [mbind outcome_bind].
    destruct (finish_spec (detach r C) v1 X _ p r E Hs4) as (s5 & s' & C' & v' & -> & E5 & Hs' & H' & Hx' & HW & HK); try done; [rewrite ext_detach; by apply sub_plus|]. cbn [mbind outcome_bind]. rewrite E5. cbn [mbind outcome_bind].
    assert (E ⊆ ext C') as HE' by (rewrite Hx', ext_detach; by apply sub_minus). exists 0, s', C', v'. split_and!; try done; [eapply within_from; [apply within_detach|done]|]. right. split_and!; try done; [eauto|..].
    + by eapply changed_keeps; [by eapply detach_changed|apply HK].
    + eapply shows_keeps; [|intros c a _; by apply detach_fsn|by apply HK]. intros c a _ Ha. destruct (Hfh (a_fsn a)) as [Hq1 Hq2]; [by eapply fsrefs_elem|]. destruct (Hren (a_fsn a)) as (Hd1 & He1 & _); [by left..|done].
    + eapply edited_steady; [by eapply renamed_edited|]. by eapply k_tree, (HK E).
Qed.
End ops.
End VfsOps.
