(* ===== verification/VfsNodes.v ===== *)
(** * The virtual file system: operations on nodes

    Creating, linking, opening and querying nodes through the cache: the operations
    return, keep the cache coherent, and change for their caller what they change in
    the file system. *)

From stdpp Require Import gmap gmultiset.
From S2P Require Import Prelude FileOps RamfsFile Ramfs Vfs VfsSpec VfsOps.
Import FileOps Vfs VfsSpec VfsOps.

Module VfsNodes.
Section nodes.
Context {A F S : Type} `{ops : !FsOps A F S} (cfg : config) `{laws : !FsLaws A F S cfg} (vol r0 : nat).
Abbreviation vfs := (vfs S).
Abbreviation st := (st cfg vol).
Abbreviation coh := (coh cfg r0).
Abbreviation keeps := (keeps cfg).
Definition none : A → Prop := λ _, False.
Lemma st_none Fr L C v X s : st Fr L C v X s → st none L C v X s.
Proof. intros H. eapply st_fresh; [done|]. by intros. Qed.

(** ** Create *)

Lemma node_create_spec Fr C v X E s ans alloc ty : st Fr ∅ C v X s → coh C v → top ∈ X → E ⊆ ext C → Fr ans → (∀ k, alloc = Some k → attrs C !! k = None) →
  ∃ e r s' C' v', vfs_node_create cfg ans alloc vol ty s = Ok (e, r, s') ∧ st none ∅ C' v' X s' ∧ coh C' v' ∧ E ⊎ opt r ⊆ ext C' ∧ keeps E C v C' v' ∧ within alloc C C' ∧
    match r with
    | None => e = - ENOMEM ∧ (gives ans → alloc = None)
    | Some n => e = 0 ∧ n ∉ E ∧ ∃ q, q ≠ top ∧ attrs C' !! n = Some {| a_name := replicate (Ramfs.NAMELEN cfg) 0; a_parent := None; a_fsn := q |} ∧ up v' q = None ∧ dirp v' q = bool_decide (ty = VFS_NODE_DIR)
    end.
Proof.
  intros Hs H Ht HE Hans Hal. unfold vfs_node_create. destruct create_law as (create & -> & Hlaw). destruct (getf_spec cfg vol _ _ _ _ _ _ Hs) as (w & -> & _ & _ & Hro). cbn [mbind outcome_bind]. rewrite Hro.
  destruct (Hlaw ans ty (under s) v (s_rel _ _ _ _ _ _ _ _ Hs) (s_fresh _ _ _ _ _ _ _ _ Hs ans Hans)) as (e & r & u & v1 & -> & Hr1 & Hsame & Hcase). cbn [mbind outcome_bind]. pose proof (s_held _ _ _ _ _ _ _ _ Hs) as Hh.
  destruct Hcase as [(-> & Hg & -> & Hh1)|(q & -> & -> & Hq & Hh1 & Hup & Hqt & Hdq & _)].
  - change (- ENOMEM =? 0) with false. cbn [negb]. assert (st none ∅ C v1 X (set_under u s)) as Hs1 by (eapply under_spec; [done|done|by rewrite Hh1|by intros]).
    pose proof (same_fsrefs cfg C v v1 Hsame (st_fsrefs _ _ _ _ _ _ _ _ Hs) (st_fsrefs _ _ _ _ _ _ _ _ Hs1)) as Hsm. exists (- ENOMEM), None, (set_under u s), C, v1. split_and!; try done; [by eapply coh_same|cbn [opt]; multiset_solver|by apply keeps_view].
  - cbn [Z.eqb negb of_option mbind outcome_bind]. assert (st none ∅ C v1 (X ⊎ {[+ q +]}) (set_under u s)) as Hs1 by (eapply under_spec; [done|done|rewrite Hh1, Hh; multiset_solver|by intros]).
    pose proof (same_fsrefs cfg C v v1 Hsame (st_fsrefs _ _ _ _ _ _ _ _ Hs) (st_fsrefs _ _ _ _ _ _ _ _ Hs1)) as Hsm. assert (coh C v1) as H1 by (by eapply coh_same).
    destruct (createnew_spec cfg vol none ∅ C v1 _ _ alloc None q Hs1 (h_settled _ _ _ _ H1) (λ n a, coh_roots cfg r0 C v1 n a H1)) as (r & s2 & v2 & C2 & -> & Hsh & Hst & Hsm2 & Hr); try done; [multiset_solver|multiset_solver|]. cbn [mbind outcome_bind default] in *.
    assert (keeps E C v C2 v2) as K2. { eapply keeps_trans; [by apply keeps_view|]. split; [done|]. intros c b Hc Hb. assert (attrs C2 !! c = Some b) as Hb1 by (rewrite (shrunk_attrs ∅ C C2 c Hsh); [done|by eapply gmultiset_elem_of_subseteq]). split; [done|]. apply Hsm2, gmultiset_elem_of_disj_union. right. by eapply fsrefs_elem. }
    assert (coh C2 v2) as H2. { eapply coh_same; [by eapply coh_shrunk|]. intros y Hy. apply Hsm2, gmultiset_elem_of_disj_union. by right. }
    pose proof (shrunk_ext ∅ C C2 Hsh) as HE2. assert ((X ⊎ {[+ q +]}) ∖ {[+ q +]} = X) as EX by multiset_solver.
    destruct r as [n|].
    + destruct Hr as (Hn2 & Hna & Hs2). set (C3 := born n _ q C2) in *. destruct (do_refdrop_spec cfg vol none ∅ C3 v2 _ s2 q Hs2) as (s3 & v3 & -> & Hs3 & Hsame3); [multiset_solver|by rewrite EX|]. rewrite EX in Hs3. cbn [mbind outcome_bind].
      pose proof (same_fsrefs cfg C3 v2 v3 Hsame3 (st_fsrefs _ _ _ _ _ _ _ _ Hs2) (st_fsrefs _ _ _ _ _ _ _ _ Hs3)) as Hsm3. assert (n ∉ E) as HnE.
      { intros Hc. destruct (wf_ext _ (c_wf _ _ _ _ _ (s_core _ _ _ _ _ _ _ _ Hs)) n) as [ac Hac]; [by eapply gmultiset_elem_of_subseteq|]. rewrite <-(shrunk_attrs ∅ C C2 n Hsh) in Hac by (by eapply gmultiset_elem_of_subseteq). congruence. }
      assert (attrs C3 !! n = Some {| a_name := replicate (Ramfs.NAMELEN cfg) 0; a_parent := None; a_fsn := q |}) as Hn3 by (unfold C3; by rewrite born_lookup, decide_True).
      exists 0, (Some n), s3, C3, v3. split_and!; try done.
      * eapply coh_same; [|done]. by apply coh_born.
      * cbn [opt C3 born hold set_ext set_attrs ext]. apply sub_plus. by etrans.
      * eapply keeps_trans; [|by apply keeps_view]. eapply keeps_nodes; [done|]. intros b Hb. unfold C3. rewrite born_lookup, decide_False; [done|]. by intros ->.
      * intros k Hk Hkn. unfold C3. rewrite born_lookup. destruct (decide (k = n)) as [->|]; [by destruct Hkn; apply Hna|]. destruct (attrs C2 !! k) as [b|] eqn:Eb; [|done]. apply (shrunk_sub ∅ C C2 k b Hsh) in Eb. congruence.
      * exists q. destruct (Hsm3 q) as (Hd3 & _ & Hu3); [by eapply (fsrefs_elem C3 n) in Hn3|]. destruct (Hsm2 q) as (Hd2 & _ & Hu2); [multiset_solver|]. split_and!; [done|done|congruence|congruence].
    + destruct Hr as (Hnone & -> & Hs2). destruct (do_refdrop_spec cfg vol none ∅ C v2 _ s2 q Hs2) as (s3 & v3 & -> & Hs3 & Hsame3); [multiset_solver|by rewrite EX|]. rewrite EX in Hs3. cbn [mbind outcome_bind].
      pose proof (same_fsrefs cfg C v2 v3 Hsame3 (st_fsrefs _ _ _ _ _ _ _ _ Hs2) (st_fsrefs _ _ _ _ _ _ _ _ Hs3)) as Hsm3. exists (- ENOMEM), None, s3, C, v3. split_and!; try done; [by eapply coh_same|cbn [opt]; multiset_solver|]. eapply keeps_trans; [done|]. by apply keeps_view.
Qed.

(** ** Link *)

(** After the file system has linked [q]: the old node of the entry leaves the cache
    and a node for the new one comes. *)
Lemma relink_spec C v v1 X E s p ap m r q alloc : st none ({[p]} ∪ ∅) (hold_opt r C) v1 (X ⊎ {[+ q +]}) s → wf C → coh C v → top ∈ X → E ⊆ ext C → (2 <= multiplicity r0 E)%nat → p ∈ E →
  attrs C !! p = Some ap → a_parent ap ≠ None → cached C p m r → (∃ u, rel u v) → (∀ o, ent v (a_fsn ap) m = Some o → ∀ m', ent v o m' = None) →
  (∀ y, y ∈ fsrefs C → dirp v1 y = dirp v y ∧ ∀ m', ent v1 y m' = if decide (y = a_fsn ap ∧ m' = m) then Some q else ent v y m') → ent v1 (a_fsn ap) m = Some q → (∀ k, alloc = Some k → attrs C !! k = None) →
  ∃ e c s1 s2 s3 s' C' v', unset_opt r s = Ok s1 ∧ new_child cfg vol alloc p m q s1 = Ok (e, c, s2) ∧ vfs_node_dirunlock p s2 = Ok s3 ∧ refdrop_opt r s3 = Ok s' ∧
    st none ∅ C' v' X s' ∧ coh C' v' ∧ E ⊎ opt c ⊆ ext C' ∧ changed E p m C C' ∧ shows E (a_fsn ap) m (Some q) C v v' ∧ steady top v1 v' ∧ within alloc C C' ∧
    match c with None => e = - ENOMEM ∧ alloc = None | Some c => e = 0 ∧ c ∉ E ∧ attrs C' !! c = Some {| a_name := m; a_parent := Some p; a_fsn := q |} ∧ same_at q v1 v' end.
Proof.
  intros Hs Hw H Ht HE Hm Hp Hap Hatt Hr [u Hrel] Hemp Hren Hq Hal.
  destruct (coh_detach cfg r0 C v v1 u p ap m r H Hrel Hw Hap Hatt) as [H1 Hno]; [|done|done|]. { intros y m' Hy Hne. destruct (Hren y Hy) as [_ ->]. by rewrite decide_False. }
  destruct (unset_opt_spec cfg vol r0 none _ C v v1 _ _ p ap m r Hs H Hap Hatt Hr) as (s1 & -> & Hs1).
  pose proof (detach_changed cfg r0 C v u p ap m r E H Hrel Hw Hap Hr) as Hch. assert (attrs (detach r C) !! p = Some ap) as Hap1 by (rewrite (Hch p ap Hp Hap), decide_False; [done|naive_solver]).
  destruct (new_child_spec cfg vol r0 none _ (detach r C) v1 _ (E ⊎ opt r) s1 alloc p ap m q Hs1 H1) as (e & c & s2 & C2 & v2 & Enc & Hs2 & H2 & HE2 & K2 & W2 & Hres); try done.
  { apply gmultiset_elem_of_disj_union. right. by apply gmultiset_elem_of_singleton. } { clear -Ht. multiset_solver. } { intros l Hl. apply gmultiset_elem_of_disj_union. left. set_solver. } { rewrite ext_detach. by apply sub_plus. } { apply gmultiset_elem_of_disj_union. by left. }
  { intros k Hk. rewrite detach_lookup, (Hal k Hk). by destruct (decide _). }
  replace ((X ⊎ {[+ q +]}) ∖ {[+ q +]}) with X in Hs2 by (clear; multiset_solver). assert (E ⊎ opt c ⊎ opt r ⊆ ext C2) as HE2' by (clear -HE2; multiset_solver).
  destruct (finish_spec cfg vol r0 none C2 v2 X s2 p r (E ⊎ opt c) Hs2 H2 Ht) as (s3 & s' & C' & v' & E3 & E4 & Hs' & H' & Hx' & HW & HK); [apply gmultiset_elem_of_disj_union; by left|done|rewrite multiplicity_disj_union; lia|].
  assert (E ⊎ opt c ⊆ ext C') as HE' by (rewrite Hx'; clear -HE2'; multiset_solver). pose proof (HK _ HE') as K'. assert (keeps E (detach r C) v1 C' v') as KE.
  { split; [eapply steady_trans; by eapply k_tree|]. intros b ab Hb Hab. destruct (K2 b ab) as [Hab2 Hs12]; [by apply gmultiset_elem_of_disj_union; left|done|]. destruct (K' b ab) as [Hab3 Hs23]; [by apply gmultiset_elem_of_disj_union; left|done|]. split; [done|]. by eapply same_at_trans. }
  exists e, c, s1, s2, s3, s', C', v'. split_and!; try done.
  - by eapply changed_keeps.
  - eapply shows_keeps; [|intros b a _; by apply detach_fsn|done]. intros b a _ Ha. apply Hren. by eapply fsrefs_elem.
  - by eapply k_tree.
  - eapply within_from; [apply within_detach|]. by eapply within_trans.
  - destruct c as [c|]; [|done]. destruct Hres as (-> & Hcp & HcE & Hc2 & Hsq). destruct (K' c _ ltac:(apply gmultiset_elem_of_disj_union; right; by apply gmultiset_elem_of_singleton) Hc2) as [Hc' Hsm']. cbn [a_fsn] in Hsm'. split_and!; try done.
    + intros Hc. apply HcE, gmultiset_elem_of_disj_union. by left.
    + by eapply same_at_trans.
Qed.

Lemma node_link_spec Fr C v X E s ans alloc n an p ap nm : st Fr ∅ C v X s → coh C v → top ∈ X → E ⊆ ext C → (2 <= multiplicity r0 E)%nat → n ∈ E → attrs C !! n = Some an → p ∈ E → attrs C !! p = Some ap →
  (up v (a_fsn an) ≠ None → Fr ans) → 0 ∉ nm → (∀ o, ent v (a_fsn ap) (vfs_name_mangle cfg nm) = Some o → ∀ m', ent v o m' = None) → (∀ k, alloc = Some k → attrs C !! k = None) →
  ∃ e r s' C' v', vfs_node_link cfg ans alloc n p nm s = Ok (e, r, s') ∧ st none ∅ C' v' X s' ∧ coh C' v' ∧ E ⊎ opt r ⊆ ext C' ∧ within alloc C C' ∧
    (e ≠ 0 ∧ r = None ∧ keeps E C v C' v' ∧ ¬ ((length nm < Ramfs.NAMELEN cfg)%nat ∧ a_parent ap ≠ None ∧ dirp v (a_fsn ap) = true ∧ (up v (a_fsn an) = None ∧ a_fsn an ≠ top ∨ dirp v (a_fsn an) = false ∧ gives ans)) ∨
     let m := vfs_name_mangle cfg nm in
     ∃ q, a_parent ap ≠ None ∧ dirp v (a_fsn ap) = true ∧ changed E p m C C' ∧ shows E (a_fsn ap) m (Some q) C v v' ∧ edited top (a_fsn ap) m (Some q) v v' ∧ dirp v' q = dirp v (a_fsn an) ∧ (∀ m', ent v' q m' = None) ∧
       match r with
       | None => e = - ENOMEM ∧ alloc = None
       | Some c => e = 0 ∧ c ∉ E ∧ (length nm < Ramfs.NAMELEN cfg)%nat ∧ attrs C' !! c = Some {| a_name := m; a_parent := Some p; a_fsn := q |}
       end ∧ (length nm < Ramfs.NAMELEN cfg)%nat ∧ (up v (a_fsn an) = None ∧ a_fsn an ≠ top ∨ dirp v (a_fsn an) = false)).
Proof.
  intros Hs H Ht HE Hm Hn Han Hp Hap Hans Hz Hemp Hal. set (m := vfs_name_mangle cfg nm) in *. unfold vfs_node_link. destruct link_law as (link & -> & Hlaw). destruct (getn_spec cfg vol Fr _ _ _ _ _ _ _ Hs Hap) as (xp & -> & _ & Hxp). destruct (getn_spec cfg vol Fr _ _ _ _ _ _ _ Hs Han) as (x & -> & _ & Hx). cbn [mbind outcome_bind].
  rewrite (n_fs _ _ _ _ _ _ _ Hx), (n_fsn _ _ _ _ _ _ _ Hx), (n_fs _ _ _ _ _ _ _ Hxp), (n_fsn _ _ _ _ _ _ _ Hxp), Nat.eqb_refl. cbn [negb]. unfold vfs_node_is_dandling. rewrite (n_parent _ _ _ _ _ _ _ Hxp). pose proof (st_none _ _ _ _ _ _ Hs) as Hs0.
  assert (E ⊎ opt None ⊆ ext C) as HE0 by (cbn [opt]; by rewrite (right_id_L ∅ _)). destruct (bool_decide_reflect (a_parent ap = None)) as [|Hatt]. { exists (- ENOTSUP), None, s, C, v. split_and!; try done. left. split_and!; try done. naive_solver. }
  destruct (getf_spec cfg vol Fr _ _ _ _ _ Hs) as (w & -> & _ & _ & Hro). cbn [mbind outcome_bind]. rewrite Hro. pose proof (c_wf _ _ _ _ _ (s_core _ _ _ _ _ _ _ _ Hs)) as Hw. pose proof (s_rel _ _ _ _ _ _ _ _ Hs) as Hrel.
  destruct (dirlock_spec cfg vol Fr ∅ C v X s p Hs) as (s1 & -> & Hs1); [eauto|set_solver|]. cbn [mbind outcome_bind]. unfold vfs_dir_mangled_lookup. fold m. destruct (dir_lookup_spec cfg vol Fr _ C v X s1 p m Hs1) as (r & s2 & -> & Hs2 & Hr); [eauto|]. cbn [mbind outcome_bind].
  change (cached C p m r) in Hr. pose proof (s_held _ _ _ _ _ _ _ _ Hs2) as Hh2. rewrite fsrefs_hold_opt in Hh2. assert (∀ y, y ∈ fsrefs C → y ∈ held v) as Hin by (intros y Hy; rewrite Hh2; apply gmultiset_elem_of_disj_union; by right).
  destruct (Hlaw ans (a_fsn an) (a_fsn ap) nm (under s2) v (s_rel _ _ _ _ _ _ _ _ Hs2)) as (e & r' & u & v1 & -> & Hr1 & Hcase); [intros Hup; apply (s_fresh _ _ _ _ _ _ _ _ Hs2), Hans, Hup|by eapply Hin, fsrefs_elem|by eapply Hin, fsrefs_elem|done|done|]. cbn [mbind outcome_bind]. fold m in Hcase.
  destruct Hcase as [(He & -> & Hh1 & Hsame & Hwhy)|(q & -> & -> & Hlen & Hqt & Hd & Hh1 & Hdq & Hnew & Hq0 & Hq & Hren)].
  - destruct (Z.eqb_spec e 0); [done|]. cbn [negb mbind outcome_bind]. assert (st none ({[p]} ∪ ∅) (hold_opt r C) v1 X (set_under u s2)) as Hs3 by (eapply under_spec; [done|done|by rewrite Hh1, fsrefs_hold_opt|by intros]).
    assert (∀ y, y ∈ fsrefs (hold_opt r C) → same_at y v v1) as Hsm by (apply (same_fsrefs cfg); [done|by eapply st_fsrefs..]).
    destruct (finish_spec cfg vol r0 none (hold_opt r C) v1 X _ p r E Hs3) as (s4 & s' & C' & v' & -> & E5 & Hs' & H' & Hx' & HW & HK); try done; [by eapply coh_same; [apply coh_hold_opt|]|rewrite ext_hold_opt; by apply sub_plus|]. cbn [mbind outcome_bind]. rewrite E5. cbn [mbind outcome_bind].
    assert (E ⊆ ext C') as HE' by (rewrite Hx', ext_hold_opt; by apply sub_minus). exists e, None, s', C', v'. split_and!; try done; [cbn [opt]; by rewrite (right_id_L ∅ _)|intros k; rewrite <-(attrs_hold_opt r C); intros Hk _; by apply HW|]. left. split_and!; try done; [|intros (Hl & _ & Hd & Hor); apply Hwhy; split_and!; try done; by eapply coh_reach]. eapply keeps_trans; [|by apply HK]. split; [by apply same_steady|]. intros c a Hc Ha. rewrite attrs_hold_opt. split; [done|]. apply Hsm. rewrite fsrefs_hold_opt. by eapply fsrefs_elem.
  - cbn [Z.eqb negb of_option mbind outcome_bind]. assert (st none ({[p]} ∪ ∅) (hold_opt r C) v1 (X ⊎ {[+ q +]}) (set_under u s2)) as Hs3 by (eapply under_spec; [done|done|rewrite Hh1, fsrefs_hold_opt, Hh2; clear; multiset_solver|by intros]).
    destruct (relink_spec C v v1 X E _ p ap m r q alloc Hs3) as (e & c & s4 & s5 & s6 & s' & C' & v' & -> & Enc & E6 & E7 & Hs' & H' & HE' & Hch & Hsh & Hst & HW & Hres); try done; [by eexists| |].
    { intros y Hy. destruct (Hren y) as (Hdy & Hey & _); [left; by apply Hin| |done]. left. rewrite Hh1. apply gmultiset_elem_of_disj_union. left. by apply Hin. }
    unfold new_child in Enc. cbn [mbind outcome_bind]. rewrite Enc. cbn [mbind outcome_bind]. rewrite E6. cbn [mbind outcome_bind]. rewrite E7. cbn [mbind outcome_bind]. exists e, c, s', C', v'. split_and!; try done. right. exists q. assert (reach v1 top q) as Hq1.
    { eapply reach_ent; [by eapply (rel_tree u v1)|done]. }
    destruct (Hst q Hq1) as (Hd' & He' & _). split_and!; try done; [by eapply edited_steady; [eapply renamed_edited|]|congruence|intros m'; by rewrite He'| |destruct Hnew as [[-> ?]|[_ ?]]; [by left|right; congruence]].
    destruct c as [c|]; [|done]. by destruct Hres as (-> & HcE & Hc & _).
Qed.

(** ** Queries and open files *)

(** What the file system tells of its node, and the file it opens on it, while the
    tree is [v]. *)
Definition stat_of (v : view) (q : nat) (t : vfs_stat_s) : Prop := ∃ u v0 u', rel u v0 ∧ steady top v v0 ∧ op_stat q u = Ok (0, t, u') ∧ st_type t = if dirp v q then VFS_NODE_DIR else VFS_NODE_FILE.
Definition file_of (v : view) (ans : A) (flags : Z) (q : nat) (f : F) : Prop := ∃ u v0 u', rel u v0 ∧ steady top v v0 ∧ op_node_open ans flags q u = Ok (0, Some f, u').
Lemma file_of_steady v v1 ans flags q f : steady top v v1 → file_of v1 ans flags q f → file_of v ans flags q f.
Proof. intros H (u & v0 & u' & ? & ? & ?). exists u, v0, u'. split_and!; try done. by eapply steady_trans. Qed.

Lemma node_stat_spec Fr C v X s n a : st Fr ∅ C v X s → coh C v → attrs C !! n = Some a →
  ∃ t s' v', vfs_node_stat n s = Ok (0, t, s') ∧ st Fr ∅ C v' X s' ∧ coh C v' ∧ (∀ E, keeps E C v C v') ∧ stat_of v (a_fsn a) t.
Proof.
  intros Hs H Ha. unfold vfs_node_stat. destruct (lru_rehash_spec cfg vol Fr ∅ C v X s n Hs) as (s1 & -> & Hs1); [eauto|]. cbn [mbind outcome_bind]. destruct (getn_spec cfg vol Fr _ _ _ _ _ _ _ Hs1 Ha) as (x & -> & _ & Hx). cbn [mbind outcome_bind]. rewrite (n_fsn _ _ _ _ _ _ _ Hx).
  pose proof (s_held _ _ _ _ _ _ _ _ Hs1) as Hh. destruct (stat_law (under s1) v (a_fsn a) (s_rel _ _ _ _ _ _ _ _ Hs1)) as (t & u & v1 & Eu & Hr1 & Hh1 & Hsame & Hfr & Ht); [rewrite Hh; apply gmultiset_elem_of_disj_union; right; by eapply fsrefs_elem|]. rewrite Eu. cbn [mbind outcome_bind].
  assert (st Fr ∅ C v1 X (set_under u s1)) as Hs2 by (eapply under_spec; [done|done|by rewrite Hh1|intros b Hb; by apply Hfr, (s_fresh _ _ _ _ _ _ _ _ Hs1)]). assert (∀ y, y ∈ fsrefs C → same_at y v v1) as Hsm by (apply (same_fsrefs cfg); [done|by eapply st_fsrefs..]).
  exists t, (set_under u s1), v1. split_and!; try done; [by eapply coh_same|intros E; by apply keeps_view|]. exists (under s1), v, u. split_and!; try done. by apply (s_rel _ _ _ _ _ _ _ _ Hs1).
Qed.
(** An open file refers to its node of the file system. *)
Lemma node_open_spec Fr C v X s ans flags n a : st Fr ∅ C v X s → coh C v → attrs C !! n = Some a → RamfsFile.flag flags VFS_OPEN_TRUNCATE = false →
  ∃ e f s' v', vfs_node_open ans flags n s = Ok (e, f, s') ∧ coh C v' ∧ (∀ E, keeps E C v C v') ∧
    (e ≠ 0 ∧ ¬ gives ans ∧ f = None ∧ st Fr ∅ C v' X s' ∨ e = 0 ∧ (∃ f', f = Some f' ∧ file_of v ans flags (a_fsn a) f') ∧ st Fr ∅ C v' (X ⊎ {[+ a_fsn a +]}) s').
Proof.
  intros Hs H Ha Htr. unfold vfs_node_open. destruct (getn_spec cfg vol Fr _ _ _ _ _ _ _ Hs Ha) as (x & -> & _ & Hx). cbn [mbind outcome_bind]. rewrite (n_fs _ _ _ _ _ _ _ Hx), (n_fsn _ _ _ _ _ _ _ Hx). destruct (getf_spec cfg vol Fr _ _ _ _ _ Hs) as (w & -> & _ & _ & Hro). cbn [mbind outcome_bind]. rewrite Hro, andb_false_r.
  destruct (lru_rehash_spec cfg vol Fr ∅ C v X s n Hs) as (s1 & -> & Hs1); [eauto|]. cbn [mbind outcome_bind].
  pose proof (s_held _ _ _ _ _ _ _ _ Hs1) as Hh. destruct (open_law ans flags (under s1) v (a_fsn a) (s_rel _ _ _ _ _ _ _ _ Hs1)) as (e & f & u & v1 & Eu & Hr1 & Hsame & Hfr & Hcase); [rewrite Hh; apply gmultiset_elem_of_disj_union; right; by eapply fsrefs_elem|done|]. rewrite Eu. cbn [mbind outcome_bind].
  assert (∀ X1, held v1 = X1 ⊎ fsrefs C → st Fr ∅ C v1 X1 (set_under u s1) ∧ ∀ y, y ∈ fsrefs C → same_at y v v1) as Hv.
  { intros X1 Hh1. assert (st Fr ∅ C v1 X1 (set_under u s1)) as Hs2 by (eapply under_spec; [done..|intros b Hb; by apply Hfr, (s_fresh _ _ _ _ _ _ _ _ Hs1)]). split; [done|]. apply (same_fsrefs cfg); [done|by eapply st_fsrefs..]. }
  exists e, f, (set_under u s1), v1. destruct Hcase as [(He & Hg & -> & Hh1)|(-> & [f' ->] & Hh1)].
  - destruct (Hv X) as [Hs2 Hsm]; [by rewrite Hh1|]. split_and!; try done; [by eapply coh_same|intros E; by apply keeps_view|by left].
  - destruct (Hv (X ⊎ {[+ a_fsn a +]})) as [Hs2 Hsm]; [rewrite Hh1, Hh; clear; multiset_solver|]. split_and!; try done; [by eapply coh_same|intros E; by apply keeps_view|]. right. split_and!; try done. exists f'. split; [done|]. exists (under s1), v, u. split_and!; try done. by apply (s_rel _ _ _ _ _ _ _ _ Hs1).
Qed.
End nodes.
End VfsNodes.
