(* ===== verification/VfsPath.v ===== *)
(** * Paths of the virtual file system: components

    The code walks a path with pointers; its meaning is the list of its components.
    The pointers the code computes are the starts and ends of the components. *)

From stdpp Require Import list.
From S2P Require Import Prelude FileOps Ramfs Vfs.
Import Vfs.

Module VfsPath.

(** ** Components *)

Fixpoint pieces (l : list Z) : list (list Z) :=
  match l with
  | [] => [[]]
  | c :: l => if is_slash c then [] :: pieces l else match pieces l with p :: ps => (c :: p) :: ps | [] => [[c]] end
  end.
Definition comps (l : list Z) : list (list Z) := filter (λ p, p ≠ []) (pieces l).

Abbreviation slashes := (Forall (λ c, is_slash c = true)).
Abbreviation plain := (Forall (λ c, is_slash c = false)).

Lemma pieces_cons l : ∃ p ps, pieces l = p :: ps.
Proof. destruct l as [|c l]; cbn; [eauto|]. destruct (is_slash c); [eauto|]. destruct (pieces l); eauto. Qed.
Lemma pieces_slash a b : pieces (a ++ slash :: b) = pieces a ++ pieces b.
Proof.
  induction a as [|c a IH]; [done|]. cbn [app pieces]. rewrite IH. destruct (is_slash c); [done|]. by destruct (pieces_cons a) as (p & ps & ->).
Qed.
Lemma comps_app a b : comps (a ++ slash :: b) = comps a ++ comps b.
Proof. unfold comps. by rewrite pieces_slash, filter_app. Qed.
Lemma pieces_plain a : plain a → pieces a = [a].
Proof. induction 1 as [|c a Hc _ IH]; [done|]. cbn [pieces]. by rewrite Hc, IH. Qed.
Lemma comps_plain a : plain a → a ≠ [] → comps a = [a].
Proof. intros H Hne. unfold comps. rewrite pieces_plain by done. by rewrite filter_cons_True. Qed.
Lemma comps_slash b : comps (slash :: b) = comps b.
Proof. exact (comps_app [] b). Qed.
Lemma is_slash_eq c : is_slash c = true → c = slash.
Proof. apply Z.eqb_eq. Qed.
Lemma comps_slashes a b : slashes a → comps (a ++ b) = comps b.
Proof. induction 1 as [|c a Hc _ IH]; [done|]. apply is_slash_eq in Hc as ->. cbn [app]. by rewrite comps_slash. Qed.
Lemma comps_first a b : plain a → a ≠ [] → head b = None ∨ head b = Some slash → comps (a ++ b) = a :: comps b.
Proof.
  intros Ha Hne Hb. destruct b as [|c b]; [rewrite app_nil_r; by rewrite comps_plain|]. destruct Hb as [|[= ->]]; [done|]. by rewrite comps_app, comps_slash, comps_plain.
Qed.

(** ** Pointers *)

Lemma skip_app f a b : Forall (λ c, f c = true) a → skip f (a ++ b) = (length a + skip f b)%nat.
Proof. induction 1 as [|c a Hc _ IH]; [done|]. cbn [app skip length]. rewrite Hc. lia. Qed.
Lemma skip_none f l : (∀ c, head l = Some c → f c = false) → skip f l = 0%nat.
Proof. destruct l as [|c l]; [done|]. intros H. cbn [skip]. by rewrite (H c eq_refl). Qed.
Lemma skip_split f l : ∃ a b, l = a ++ b ∧ length a = skip f l ∧ Forall (λ c, f c = true) a ∧ ∀ c, head b = Some c → f c = false.
Proof.
  induction l as [|c l (a & b & -> & Hl & Ha & Hb)]; [by exists [], []|]. cbn [skip]. destruct (f c) eqn:E.
  - exists (c :: a), b. split_and!; [done|cbn; lia|by constructor|done].
  - exists [], (c :: a ++ b). split_and!; [done..|]. by intros ? [= <-].
Qed.
Lemma plain_neg a : Forall (λ c, negb (is_slash c) = true) a ↔ plain a.
Proof. apply Forall_iff. intros c. apply negb_true_iff. Qed.
Lemma head_plain b : (∀ c, head b = Some c → negb (is_slash c) = false) → head b = None ∨ head b = Some slash.
Proof. destruct b as [|c b]; [by left|]. intros H. right. cbn. f_equal. apply is_slash_eq, negb_false_iff. by apply H. Qed.

(** A pointer of a walk: at the first character of a component, or at the end. *)
Definition at_token (path : list Z) (t : nat) : Prop := (t <= length path)%nat ∧ ∀ c, head (drop t path) = Some c → is_slash c = false.
Lemma nonslash_token path p : (p <= length path)%nat → at_token path (next_nonslash path p) ∧ comps (drop (next_nonslash path p) path) = comps (drop p path).
Proof.
  intros Hp. unfold next_nonslash. destruct (skip_split is_slash (drop p path)) as (a & b & E & Hl & Ha & Hb). rewrite <-Hl, <-drop_drop, E, drop_app_length. split.
  - split; [apply (f_equal length) in E; rewrite length_drop, length_app in E; lia|]. rewrite <-drop_drop, E, drop_app_length. done.
  - by rewrite comps_slashes.
Qed.
(** One step of a walk. *)
Lemma token_step path t : at_token path t → (t < length path)%nat →
  let e := next_slash path t in let t' := next_nonslash path e in
  part path t e ≠ [] ∧ plain (part path t e) ∧ comps (drop t path) = part path t e :: comps (drop t' path) ∧ at_token path t' ∧ (t < t')%nat ∧ (e <= length path)%nat.
Proof.
  intros [_ Ht] Hlt. unfold next_slash, part. destruct (skip_split (λ c, negb (is_slash c)) (drop t path)) as (a & b & E & Hl & Ha & Hb). rewrite <-Hl. cbn zeta. rewrite plain_neg in Ha.
  replace (t + length a - t)%nat with (length a) by lia. rewrite E, take_app_length. assert (length (drop t path) = length a + length b)%nat as El by (by rewrite E, length_app). rewrite length_drop in El.
  assert (a ≠ []) as Hne. { intros ->. destruct b as [|c b]; [cbn in El; lia|]. specialize (Ht c). rewrite E in Ht. specialize (Ht eq_refl). specialize (Hb c eq_refl). rewrite Ht in Hb. done. }
  destruct (nonslash_token path (t + length a)) as [Htok Hc]; [lia|]. rewrite Hc, <-drop_drop, E, drop_app_length. split; [done|]. split; [done|]. split; [|split; [exact Htok|split; [destruct a; [done|]; unfold next_nonslash; cbn; lia|lia]]].
  apply comps_first; [done..|]. by apply head_plain.
Qed.
Lemma comps_nil l : comps l = [] ↔ slashes l.
Proof.
  split; [|intros H; rewrite <-(app_nil_r l), comps_slashes by done; done]. induction l as [|c l IH]; [done|]. destruct (is_slash c) eqn:E.
  - pose proof (is_slash_eq c E) as ->. rewrite comps_slash. intros H. constructor; [done|]. by apply IH.
  - unfold comps. cbn [pieces]. rewrite E. by destruct (pieces_cons l) as (p & ps & ->).
Qed.
(** The end of the last component. *)
Lemma end_spec path : ∃ a b, path = a ++ b ∧ length a = last_slash_or_end path ∧ slashes b ∧ ∀ c, last a = Some c → is_slash c = false.
Proof.
  unfold last_slash_or_end. destruct (skip_split is_slash (reverse path)) as (a & b & E & Hl & Ha & Hb). exists (reverse b), (reverse a).
  assert (path = reverse b ++ reverse a) as -> by (by rewrite <-reverse_app, <-E, reverse_involutive). rewrite <-Hl, length_app, !length_reverse. split_and!; [done|lia|by apply Forall_reverse|]. by rewrite last_reverse.
Qed.
Lemma stop_spec path t : at_token path t → (last_slash_or_end path <= t)%nat ↔ comps (drop t path) = [].
Proof.
  intros [Hle Ht]. rewrite comps_nil. destruct (end_spec path) as (a & b & E & <- & Hb & Ha). split.
  - intros H. rewrite E, drop_app_ge by done. by apply Forall_drop.
  - intros H. destruct (decide (length a <= t)%nat) as [|Hlt]; [done|]. exfalso. rewrite E, drop_app_le in H by lia. apply Forall_app in H as [H _].
    destruct (drop t a) as [|c l] eqn:Ed; [apply (f_equal length) in Ed; rewrite length_drop in Ed; cbn in Ed; lia|]. inversion H as [|?? Hc _]; subst. specialize (Ht c). rewrite drop_app_le, Ed in Ht by lia. rewrite Ht in Hc; done.
Qed.

(** The last component, as the code finds it. *)
Definition last_part (path : list Z) : nat := next_nonslash path (prev_slash path (last_slash_or_end path)).
Lemma last_part_spec path : comps path ≠ [] →
  ∃ pre c post, path = pre ++ c ++ post ∧ plain c ∧ c ≠ [] ∧ slashes post ∧ last_slash_or_end path = (length pre + length c)%nat ∧ last_part path = length pre ∧ (pre = [] ∨ last pre = Some slash).
Proof.
  intros Hne. unfold last_part. destruct (end_spec path) as (a & post & E & El & Hpost & Ha). rewrite <-El. unfold prev_slash.
  assert (take (length a) path = a) as Et by (by rewrite E, take_app_length). rewrite Et. destruct (skip_split (λ c, negb (is_slash c)) (reverse a)) as (rc & rp & Er & Hl & Hrc & Hrp). rewrite plain_neg in Hrc. apply head_plain in Hrp. rewrite <-Hl.
  set (c := reverse rc). set (pre := reverse rp). assert (a = pre ++ c) as Ea by (unfold pre, c; by rewrite <-reverse_app, <-Er, reverse_involutive).
  assert (length rc = length c) as Elc by (unfold c; by rewrite length_reverse). assert (length a = length pre + length c)%nat as Ela by (rewrite Ea; apply length_app).
  assert (last pre = None ∨ last pre = Some slash) as Hpre by (unfold pre; by rewrite last_reverse).
  assert (plain c) as Hc by (by apply Forall_reverse). assert (c ≠ []) as Hcne.
  { intros Ec. rewrite Ec, app_nil_r in Ea. apply Hne, comps_nil. rewrite E. apply Forall_app. split; [|done]. rewrite Ea. destruct Hpre as [Hp|Hp]; [by apply last_None in Hp as ->|]. rewrite <-Ea in Hp. by specialize (Ha _ Hp). }
  exists pre, c, post. split_and!; try done; [by rewrite E, Ea, (assoc_L app)| |destruct Hpre as [Hp|]; [left; by apply last_None|by right]].
  replace (length a - length rc)%nat with (length pre) by lia. unfold next_nonslash. assert (head (c ++ post) = head c ∧ skip is_slash (c ++ post) = 0%nat) as [_ Hs0].
  { destruct c as [|x c']; [done|]. split; [done|]. apply skip_none. intros ? [= <-]. by inversion Hc. }
  destruct Hpre as [Hp|Hp].
  - apply last_None in Hp. rewrite Hp in *. cbn [length Nat.ltb Nat.leb]. replace path with (c ++ post) by (by rewrite E, Ea). cbn [drop Nat.add]. exact Hs0.
  - apply last_Some in Hp as [pre' Ep]. rewrite Ep, length_app. cbn [length]. destruct (Nat.ltb_spec 0 (length pre' + 1)); [|lia]. replace (length pre' + 1 - 1)%nat with (length pre') by lia.
    rewrite E, Ea, Ep, <-!(assoc_L app), drop_app_length. cbn [app skip]. change (is_slash slash) with true. cbv iota. rewrite Hs0. lia.
Qed.
(** A walk is at the last component when one is left. *)
Lemma last_token path t c l : at_token path t → comps (drop t path) = c :: l →
  (last_part path <= t)%nat ↔ l = [].
Proof.
  intros [Hle Ht] Ec. assert (comps path ≠ []) as Hne. { intros H. apply comps_nil in H. apply (Forall_drop _ t) in H. apply comps_nil in H. congruence. }
  destruct (last_part_spec path Hne) as (pre & c' & post & E & Hc' & Hcne & Hpost & _ & -> & Hpre). split.
  - intros H. rewrite E, drop_app_ge in Ec by done. destruct (decide (t - length pre < length c')%nat) as [Hlt|Hge].
    + rewrite drop_app_le in Ec by lia. rewrite comps_first in Ec; [|by apply Forall_drop|intros Hd; apply (f_equal length) in Hd; rewrite length_drop in Hd; cbn in Hd; lia|destruct Hpost as [|x post Hx]; [by left|right; cbn; f_equal; by apply is_slash_eq]].
      injection Ec as _ <-. by apply comps_nil.
    + rewrite drop_app_ge in Ec by lia. assert (slashes (drop (t - length pre - length c') post)) as Hs by (by apply Forall_drop). apply comps_nil in Hs. congruence.
  - intros ->. destruct (decide (length pre <= t)%nat) as [|Hlt]; [done|]. exfalso. destruct Hpre as [->|Hp]; [cbn in Hlt; lia|]. apply last_Some in Hp as [p Ep]. rewrite E, Ep, <-!(assoc_L app) in Ec, Ht. rewrite Ep, length_app in Hlt. cbn [length] in Hlt.
    rewrite drop_app_le in Ec, Ht by lia. cbn [app] in Ec, Ht. rewrite comps_app in Ec. destruct (drop t p) as [|x d] eqn:Ed.
    { specialize (Ht slash eq_refl). done. }
    specialize (Ht x eq_refl). assert (comps (x :: d) ≠ []) as H1 by (intros H; apply comps_nil in H; inversion H; congruence).
    assert (comps (c' ++ post) ≠ []) as H2. { intros H. apply comps_nil, Forall_app in H as [H _]. destruct c' as [|y c'']; [done|]. inversion H; inversion Hc'; congruence. }
    destruct (comps (x :: d)) as [|y [|]]; [done| |done]. by destruct (comps (c' ++ post)).
Qed.
Lemma last_comp path c : last (comps path) = Some c → part path (last_part path) (last_slash_or_end path) = c.
Proof.
  intros Ec. assert (comps path ≠ []) as Hne by (intros H; by rewrite H in Ec). destruct (last_part_spec path Hne) as (pre & c' & post & E & Hc' & Hcne & Hpost & -> & -> & Hpre).
  unfold part. replace (length pre + length c' - length pre)%nat with (length c') by lia. rewrite E, drop_app_length, take_app_length. assert (comps (c' ++ post) = [c']) as Ec'.
  { rewrite comps_first; [by rewrite (proj2 (comps_nil post) Hpost)|done|done|]. destruct Hpost as [|x post Hx]; [by left|right; cbn; f_equal; by apply is_slash_eq]. }
  rewrite E in Ec. destruct Hpre as [->|Hp]; [cbn [app] in Ec; rewrite Ec' in Ec; by injection Ec|]. apply last_Some in Hp as [p ->]. rewrite <-(assoc_L app) in Ec. cbn [app] in Ec. rewrite comps_app, Ec', last_snoc in Ec. by injection Ec.
Qed.
End VfsPath.
