(* ===== verification/VfsWalk.v ===== *)
(** * The virtual file system: walks along paths

    The walk of the code through the cache ends, and ends where the components of the
    path lead in the tree of the file system, whatever is cached or recycled. *)

From stdpp Require Import gmap gmultiset.
From S2P Require Import Prelude FileOps RamfsFile Ramfs Vfs VfsSpec VfsOps VfsNodes VfsPath.
Import FileOps Vfs VfsSpec VfsOps VfsNodes VfsPath.

Module VfsWalk.

(** ** The meaning of a path *)

(** From the node [q], below the root [rt]: the error, the components that are left
    and the node where the walk ends. *)
Fixpoint resolve (cfg : config) (v : view) (rt : nat) (l : list (list Z)) (q : nat) : Z * list (list Z) * nat :=
  match l with
  | [] => (0, [], q)
  | c :: l' =>
      if bool_decide (c = [dot; dot]) then resolve cfg v rt l' (if (q =? rt)%nat then q else default q (up v q))
      else if bool_decide (c = [dot]) then resolve cfg v rt l' q
      else if dirp v q then match ent v q (vfs_name_mangle cfg c) with Some q' => resolve cfg v rt l' q' | None => (- ENOENT, l, q) end
      else (- EINVAL, l, q)
  end.
Definition start (path : list Z) (rt q : nat) : nat := if bool_decide (head path = Some slash) then rt else q.

Section walk.
Context {A F S : Type} `{ops : !FsOps A F S} (cfg : config) `{laws : !FsLaws A F S cfg} (vol r0 : nat).
Abbreviation vfs := (vfs S).
Abbreviation st := (st cfg vol).
Abbreviation coh := (coh cfg r0).
Abbreviation keeps := (keeps cfg).
Abbreviation resolve := (resolve cfg).

(** The cached node [c] stands for the node [q] of the tree. *)
Definition att (C : cache) (c q : nat) : Prop := ∃ a, attrs C !! c = Some a ∧ a_parent a ≠ None ∧ a_fsn a = q.
Lemma att_keeps E C v C' v' c q : keeps E C v C' v' → c ∈ E → att C c q → att C' c q.
Proof. intros K Hc (a & Ha & Hp & Hq). exists a. by destruct (K c a Hc Ha). Qed.
Lemma att_reach C v s c q : coh C v → rel s v → att C c q → reach v top q.
Proof. intros H Hr (a & Ha & Hp & <-). by eapply coh_reach. Qed.
Lemma att_uniq C v c c' q q' : coh C v → att C c q → att C c' q' → c = c' ↔ q = q'.
Proof. intros H (a & Ha & Hp & <-) (a' & Ha' & Hp' & <-). split; [intros ->; congruence|]. by apply (h_uniq _ _ _ _ H). Qed.
Lemma att_hold C n c q : att C c q → att (hold n C) c q.
Proof. done. Qed.

Lemma up_reach v s q p : rel s v → reach v top q → up v q = Some p → reach v top p.
Proof.
  intros Hr Hq Hu. destruct Hq as [|q m c Hq Hc]; [destruct (rel_top s v Hr); congruence|]. rewrite (rel_up s v _ _ _ Hr Hc) in Hu. by injection Hu as <-.
Qed.
(** Nothing changes for a walk when the tree is the same. *)
Lemma resolve_steady v v' s rt l : ∀ q, rel s v → steady top v v' → reach v top q → reach v top rt → resolve v' rt l q = resolve v rt l q.
Proof.
  induction l as [|c l IH]; intros q Hr Hs Hq Hrt; [done|]. cbn [VfsWalk.resolve]. destruct (Hs q Hq) as (-> & He & ->). rewrite He.
  destruct (bool_decide (c = [dot; dot])).
  - apply IH; try done. destruct (q =? rt)%nat; [done|]. destruct (up v q) as [p|] eqn:Eu; [|done]. exact (up_reach v s q p Hr Hq Eu).
  - destruct (bool_decide (c = [dot])); [by apply IH|]. destruct (dirp v q); [|done]. destruct (ent v q _) as [q'|] eqn:E; [|done]. apply IH; try done. exact (reach_ent _ _ q _ _ Hq E).
Qed.
Lemma resolve_end v s rt l : ∀ q e l' q', rel s v → reach v top q → reach v top rt → resolve v rt l q = (e, l', q') → reach v top q' ∧ (∃ l0, l = l0 ++ l') ∧ (e = 0 ↔ l' = []) ∧ (e = - ENOENT → dirp v q' = true ∧ ∃ c l1, l' = c :: l1 ∧ c ≠ [dot; dot] ∧ c ≠ [dot] ∧ ent v q' (vfs_name_mangle cfg c) = None).
Proof.
  induction l as [|c l IH]; intros q e l' q' Hr Hq Hrt; cbn [VfsWalk.resolve]; [intros [= <- <- <-]; split_and!; [done|by exists []|done|by intros]|].
  assert (∀ q1, reach v top q1 → resolve v rt l q1 = (e, l', q') → reach v top q' ∧ (∃ l0, c :: l = l0 ++ l') ∧ (e = 0 ↔ l' = []) ∧ (e = - ENOENT → dirp v q' = true ∧ ∃ c l1, l' = c :: l1 ∧ c ≠ [dot; dot] ∧ c ≠ [dot] ∧ ent v q' (vfs_name_mangle cfg c) = None)) as H.
  { intros q1 H1 E. destruct (IH q1 e l' q' Hr H1 Hrt E) as (? & [l0 ->] & ? & ?). split_and!; try done. by exists (c :: l0). }
  destruct (bool_decide_reflect (c = [dot; dot])).
  - apply H. destruct (q =? rt)%nat; [done|]. destruct (up v q) as [p|] eqn:Eu; [|done]. exact (up_reach v s q p Hr Hq Eu).
  - destruct (bool_decide_reflect (c = [dot])); [by apply H|]. destruct (dirp v q) eqn:Ed; [|intros [= <- <- <-]; split_and!; [done|by exists []|by split|by intros]]. destruct (ent v q _) as [q2|] eqn:E; [apply H; exact (reach_ent _ _ q _ _ Hq E)|].
    intros [= <- <- <-]. split_and!; [done|by exists []|by split|]. intros _. split; [done|]. by exists c, l.
Qed.

(** ** The walk *)

(** The answers of the allocator are new nodes, each given once. *)
Definition answers (alloc : list (option nat)) (C : cache) : Prop := NoDup (omap id alloc) ∧ ∀ k, Some k ∈ alloc → attrs C !! k = None.
(** Only these answers become nodes. *)
Definition frame (alloc : list (option nat)) (C C' : cache) : Prop := ∀ k, attrs C !! k = None → Some k ∉ alloc → attrs C' !! k = None.
Definition granted (alloc : list (option nat)) (n : nat) : Prop := ∀ i, (i < n)%nat → default None (alloc !! i) ≠ None.

Lemma omap_elem (l : list (option nat)) k : k ∈ omap id l ↔ Some k ∈ l.
Proof. rewrite list_elem_of_omap. split; [by intros (x & Hx & [= ->])|]. intros. by exists (Some k). Qed.
Lemma answers_within alloc C C' : answers alloc C → within (default None (head alloc)) C C' → answers (tail alloc) C'.
Proof.
  intros [Hnd Hn] Hw. destruct alloc as [|o alloc]; [split; [constructor|by intros k ?%not_elem_of_nil]|]. cbn [head tail default omap list_omap id] in *. split.
  - destruct o; [by inversion Hnd|done].
  - intros k Hk. apply Hw; [apply Hn; by right|]. intros ->. inversion Hnd as [|? ? Hno _]; subst. by apply Hno, omap_elem.
Qed.
Lemma answers_none alloc C C' : answers alloc C → within None C C' → answers alloc C'.
Proof. intros [Hnd Hn] Hw. split; [done|]. intros k Hk. apply Hw; [by apply Hn|done]. Qed.
Lemma frame_none alloc C C' : within None C C' → frame alloc C C'.
Proof. intros H k Hk _. by apply H. Qed.
Lemma frame_head alloc C C' : within (default None (head alloc)) C C' → frame alloc C C'.
Proof. intros H k Hk Hn. apply H; [done|]. destruct alloc as [|o alloc]; [done|]. cbn. intros ->. apply Hn. by left. Qed.
Lemma frame_trans j alloc C1 C2 C3 : frame alloc C1 C2 → frame (drop j alloc) C2 C3 → frame alloc C1 C3.
Proof. intros H1 H2 k Hk Hn. apply H2; [by apply H1|]. intros Hd. apply Hn. apply list_elem_of_lookup in Hd as [i Hi]. rewrite lookup_drop in Hi. by eapply list_elem_of_lookup_2. Qed.
Lemma answers_drop j alloc C : answers alloc C → answers (drop j alloc) C.
Proof.
  revert alloc. induction j as [|j IH]; intros alloc H; [by rewrite drop_0|]. destruct alloc as [|o alloc]; [done|]. cbn [drop]. apply IH. exact (answers_within (o :: alloc) C C H (within_refl _ _)).
Qed.
Lemma answers_head alloc C : answers alloc C → ∀ k, default None (head alloc) = Some k → attrs C !! k = None.
Proof. intros [_ Hn] k. destruct alloc as [|o alloc]; [done|]. cbn. intros ->. apply Hn. by left. Qed.

(** What a client knows of the cache: the references of [E] are there. *)
Record good (Fr : A → Prop) (E : gmultiset nat) (C : cache) (v : view) (X : gmultiset nat) (s : vfs) : Prop := {
  g_st : st Fr ∅ C v X s;
  g_coh : coh C v;
  g_top : top ∈ X;
  g_ext : E ⊆ ext C;
  g_root : (2 <= multiplicity r0 E)%nat }.

Lemma good_refnew Fr E C v X s n : good Fr E C v X s → is_Some (attrs C !! n) → ∃ s', vfs_node_refnew n s = Ok s' ∧ good Fr (E ⊎ {[+ n +]}) (hold n C) v X s'.
Proof.
  intros [Hs H Ht HE Hm] Hn. destruct (refnew_spec' cfg vol Fr ∅ C v X s n Hs Hn) as (s' & -> & Hs'). exists s'. split; [done|]. split; try done; [by apply coh_hold|by apply sub_plus|]. rewrite multiplicity_disj_union. lia.
Qed.
Lemma good_refdrop Fr E C v X s n : good Fr (E ⊎ {[+ n +]}) C v X s → (2 <= multiplicity r0 E)%nat →
  ∃ s' C' v', vfs_node_refdrop n s = Ok s' ∧ good Fr E C' v' X s' ∧ keeps E C v C' v' ∧ within None C C'.
Proof.
  intros [Hs H Ht HE _] Hm. assert (E ⊆ ext C ∖ {[+ n +]}) as HE' by (clear -HE; multiset_solver). destruct (client_refdrop cfg vol r0 Fr ∅ C v X s n Hs H Ht) as (s' & C' & v' & -> & Hs' & H' & Hx & HW & HK).
  - eapply gmultiset_elem_of_subseteq; [|exact HE]. apply gmultiset_elem_of_disj_union. right. by apply gmultiset_elem_of_singleton.
  - pose proof (HE' r0). lia.
  - exists s', C', v'. split; [done|]. rewrite <-Hx in HE'. split_and!; [by split|by apply HK|done].
Qed.
Lemma good_swap Fr E a b C v X s : good Fr (E ⊎ {[+ a +]} ⊎ {[+ b +]}) C v X s → good Fr (E ⊎ {[+ b +]} ⊎ {[+ a +]}) C v X s.
Proof. by replace (E ⊎ {[+ b +]} ⊎ {[+ a +]}) with (E ⊎ {[+ a +]} ⊎ {[+ b +]}) by (clear; multiset_solver). Qed.
Lemma keeps_sub E E' C v C' v' : keeps E' C v C' v' → E ⊆ E' → keeps E C v C' v'.
Proof. intros [Ht Hk] Hs. split; [done|]. intros c a Hc. apply Hk. by eapply gmultiset_elem_of_subseteq. Qed.
Lemma keeps_hold E p C v C' v' : keeps E (hold p C) v C' v' → keeps E C v C' v'.
Proof. by intros [Ht Hk]. Qed.
Lemma in_plus (E : gmultiset nat) n : n ∈ E ⊎ {[+ n +]}.
Proof. apply gmultiset_elem_of_disj_union. right. by apply gmultiset_elem_of_singleton. Qed.
Lemma in_left (E O : gmultiset nat) n : n ∈ E → n ∈ E ⊎ O.
Proof. intros. apply gmultiset_elem_of_disj_union. by left. Qed.
Lemma sub_left (E O : gmultiset nat) : E ⊆ E ⊎ O.
Proof. multiset_solver. Qed.

(** The parent in the cache is the parent in the tree. *)
Lemma parent_att C v s n a p : coh C v → rel s v → attrs C !! n = Some a → a_parent a = Some p → att C p (default (a_fsn a) (up v (a_fsn a))).
Proof.
  intros H Hr Ha Hp. destruct (decide (n = p)) as [<-|Hne].
  - exists a. split_and!; [done|by rewrite Hp|]. destruct (h_root _ _ _ _ H) as (ar & Har & _ & Ht). pose proof (h_self _ _ _ _ H n a Ha Hp) as ->. rewrite Ha in Har. injection Har as <-. rewrite Ht. by destruct (rel_top s v Hr) as [-> _].
  - destruct (h_parent _ _ _ _ H n a p Ha Hp Hne) as (ap & Hap & Hpp & He). exists ap. by rewrite (rel_up s v _ _ _ Hr He).
Qed.

Definition ended (path : list Z) (rt token q : nat) (v : view) (alloc : list (option nat)) (e : Z) (t q' : nat) : Prop :=
  at_token path t ∧
  ((e, comps (drop t path), q') = resolve v rt (comps (drop token path)) q ∨ e = - ENOMEM ∧ ¬ granted alloc (length (comps (drop token path)))).

Lemma drop_one {T} (l : list T) : drop 1 l = tail l.
Proof. by destruct l. Qed.
Lemma granted_tail alloc n : granted alloc (Datatypes.S n) → granted (tail alloc) n.
Proof. intros H i Hi. specialize (H (Datatypes.S i)). destruct alloc; cbn in *; apply H; lia. Qed.
Lemma granted_mono alloc n m : granted alloc n → (m <= n)%nat → granted alloc m.
Proof. intros H Hle i Hi. apply H. lia. Qed.

Lemma loop_spec Fr root rt path X E : root ∈ E → ∀ fuel token C v s node q alloc,
  good Fr (E ⊎ {[+ node +]}) C v X s → (2 <= multiplicity r0 E)%nat → att C root rt → att C node q → at_token path token → (length path - token < fuel)%nat → answers alloc C →
  ∃ e t nd j s' C' v' q', lookup_loop cfg fuel root path (last_slash_or_end path) token node alloc s = Ok (e, t, nd, drop j alloc, s') ∧
    good Fr (E ⊎ {[+ nd +]}) C' v' X s' ∧ keeps E C v C' v' ∧ att C' nd q' ∧ answers (drop j alloc) C' ∧ frame alloc C C' ∧ (j <= length (comps (drop token path)))%nat ∧ ended path rt token q v alloc e t q'.
Proof.
  intros HrE. induction fuel as [|fuel IH]; intros token C v s node q alloc Hg Hm Hrt Hq Htok Hf Hans; [lia|]. pose proof Hg as [Hs H Ht HE _]. pose proof (s_rel _ _ _ _ _ _ _ _ Hs) as Hrel. cbn [lookup_loop].
  pose proof (att_reach _ _ _ _ _ H Hrel Hq) as Rq. pose proof (att_reach _ _ _ _ _ H Hrel Hrt) as Rrt.
  destruct (Nat.leb_spec (last_slash_or_end path) token) as [Hstop|Hstop].
  { exists 0, token, node, 0%nat, s, C, v, q. split_and!; try done; [by apply frame_none|lia|]. split; [done|]. left. by rewrite (proj1 (stop_spec path token Htok) Hstop). }
  assert (token < length path)%nat as Hlt. { destruct (end_spec path) as (a & b & Ep & El & _). apply (f_equal length) in Ep. rewrite length_app in Ep. lia. }
  destruct (token_step path token Htok Hlt) as (Hne & Hpl & Ec & Htok' & Hadv & _). set (tok := part path token (next_slash path token)) in *. set (token' := next_nonslash path (next_slash path token)) in *.
  (* the rest of the walk, from a node for [q1] *)
  assert (∀ C1 v1 s1 node1 q1 j1, good Fr (E ⊎ {[+ node1 +]}) C1 v1 X s1 → keeps E C v C1 v1 → att C1 node1 q1 → answers (drop j1 alloc) C1 → frame alloc C C1 → (j1 <= 1)%nat → reach v top q1 →
    resolve v rt (comps (drop token path)) q = resolve v rt (comps (drop token' path)) q1 →
    ∃ e t nd j s' C' v' q', lookup_loop cfg fuel root path (last_slash_or_end path) token' node1 (drop j1 alloc) s1 = Ok (e, t, nd, drop j alloc, s') ∧
      good Fr (E ⊎ {[+ nd +]}) C' v' X s' ∧ keeps E C v C' v' ∧ att C' nd q' ∧ answers (drop j alloc) C' ∧ frame alloc C C' ∧ (j <= length (comps (drop token path)))%nat ∧ ended path rt token q v alloc e t q') as Hrest.
  { intros C1 v1 s1 node1 q1 j1 Hg1 K1 Hq1 Hans1 Hfr1 Hj1 Rq1 Eres. destruct (IH token' C1 v1 s1 node1 q1 (drop j1 alloc) Hg1 Hm) as (e & t & nd & j & s' & C' & v' & q' & El & Hg' & K' & Hq' & Hans' & Hfr' & Hj & Htk & Hend); [by eapply att_keeps|done|done|lia|done|].
    rewrite drop_drop in *. exists e, t, nd, (j1 + j)%nat, s', C', v', q'. rewrite Ec. cbn [length]. split_and!; try done; [by eapply keeps_trans|by eapply frame_trans|lia|]. split; [done|]. rewrite Eres. destruct Hend as [Hend|[-> Hend]].
    - left. rewrite Hend. apply (resolve_steady _ _ (under s)); try done. by eapply k_tree.
    - right. split; [done|]. intros Hgr. apply Hend. rewrite Ec in Hgr. destruct j1 as [|[|]]; [|by rewrite drop_one; apply granted_tail|lia]. rewrite drop_0. eapply granted_mono; [done|]. cbn; lia. }
  rewrite Ec in Hrest. cbn [VfsWalk.resolve] in Hrest. destruct (bool_decide (tok = [dot; dot])) eqn:E1.
  - destruct (Nat.eqb_spec node root) as [En|En]; pose proof (att_uniq _ _ _ _ _ _ H Hq Hrt) as Hiff.
    + destruct (Nat.eqb_spec q rt) as [Eq|Eq]; [|tauto]. destruct (Hrest C v s node q 0%nat) as (e & t & nd & j & Hr); try done; [by apply frame_none|lia|]. exists e, t, nd, j. rewrite <-Ec in Hr. exact Hr.
    + destruct (Nat.eqb_spec q rt) as [Eq|Eq]; [tauto|]. destruct Hq as (a & Ha & Hp & <-). destruct (get_parent_spec cfg vol Fr ∅ C v X s node a Hs Ha) as (s1 & -> & Hs1). cbn [mbind outcome_bind]. destruct (a_parent a) as [p|] eqn:Ep; [|done]. cbn [hold_opt] in Hs1.
      pose proof (parent_att _ _ _ _ _ _ H Hrel Ha Ep) as Hpa. assert (good Fr (E ⊎ {[+ p +]} ⊎ {[+ node +]}) (hold p C) v X s1) as Hg1 by (apply good_swap; split; [done|by apply coh_hold|done|by apply sub_plus|rewrite !multiplicity_disj_union; lia]).
      destruct (good_refdrop _ _ _ _ _ _ _ Hg1) as (s2 & C2 & v2 & -> & Hg2 & K2 & W2); [rewrite multiplicity_disj_union; lia|]. cbn [mbind outcome_bind].
      destruct (Hrest C2 v2 s2 p (default (a_fsn a) (up v (a_fsn a))) 0%nat) as (e & t & nd & j & Hr); try done.
      * apply (keeps_hold _ p). eapply keeps_sub; [exact K2|apply sub_left].
      * eapply att_keeps; [exact K2|apply in_plus|done].
      * by eapply answers_none.
      * by apply frame_none.
      * lia.
      * eapply att_reach; [exact H|done|done].
      * exists e, t, nd, j. rewrite <-Ec in Hr. exact Hr.
  - destruct (bool_decide (tok = [dot])) eqn:E2.
    { destruct (Hrest C v s node q 0%nat) as (e & t & nd & j & Hr); try done; [by apply frame_none|lia|]. exists e, t, nd, j. rewrite <-Ec in Hr. exact Hr. }
    destruct Hq as (a & Ha & Hp & <-). destruct (node_lookup_spec cfg vol r0 Fr C v X (E ⊎ {[+ node +]}) s (default None (head alloc)) node a tok Hs H Ht HE (in_plus _ _) Ha (answers_head _ _ Hans)) as (e & r & s1 & C1 & v1 & -> & Hs1 & H1 & HE1 & K1 & W1 & Hr). cbn [mbind outcome_bind].
    pose proof (answers_within _ _ _ Hans W1) as Hans1. destruct r as [c|].
    + destruct Hr as (-> & _ & Hcn & ac & Hac & Hpc & Hnc & Hec). cbn [Z.eqb negb of_option mbind outcome_bind opt] in *.
      assert (good Fr (E ⊎ {[+ c +]} ⊎ {[+ node +]}) C1 v1 X s1) as Hg1 by (apply good_swap; split; try done; rewrite !multiplicity_disj_union; lia).
      destruct (good_refdrop _ _ _ _ _ _ _ Hg1) as (s2 & C2 & v2 & -> & Hg2 & K2 & W2); [rewrite multiplicity_disj_union; lia|]. cbn [mbind outcome_bind].
      rewrite (rel_dir _ _ _ _ _ Hrel Hec), Hec in Hrest. destruct (Hrest C2 v2 s2 c (a_fsn ac) 1%nat) as (e & t & nd & j & Hr); try done.
      * eapply keeps_trans; [eapply keeps_sub; [exact K1|apply sub_left]|eapply keeps_sub; [exact K2|apply sub_left]].
      * eapply att_keeps; [exact K2|apply in_plus|]. exists ac. by rewrite Hpc.
      * rewrite drop_one. by eapply answers_none.
      * intros k Hk Hn. apply W2; [|done]. by apply (frame_head alloc C C1 W1).
      * exact (reach_ent _ _ _ _ _ Rq Hec).
      * exists e, t, nd, j. rewrite <-Ec, drop_one in Hr. exact Hr.
    + destruct Hr as [-> Hnom]. unfold lookup_err in *. destruct (a_parent a) as [p|] eqn:Ep; [|done]. cbn [opt] in HE1. rewrite (right_id_L ∅ _) in HE1.
      assert (∀ e, (if dirp v (a_fsn a) then match ent v (a_fsn a) (vfs_name_mangle cfg tok) with Some _ => - ENOMEM | None => - ENOENT end else - EINVAL) = e → negb (e =? 0) = true) as Hne0 by (intros ? <-; repeat case_match; done). rewrite (Hne0 _ eq_refl).
      eexists _, token, node, 1%nat, s1, C1, v1, (a_fsn a). rewrite drop_one. split_and!; try done; [split; try done; rewrite multiplicity_disj_union; lia|eapply keeps_sub; [exact K1|apply sub_left]| |by apply frame_head|rewrite Ec; cbn; lia|].
      * eapply att_keeps; [exact K1|apply in_plus|]. exists a. by rewrite Ep.
      * split; [done|]. rewrite Ec. cbn [VfsWalk.resolve]. rewrite E1, E2. destruct (dirp v (a_fsn a)); [|by left]. destruct (ent v (a_fsn a) _); [|by left]. right. split; [done|]. intros Hgr. specialize (Hnom eq_refl). specialize (Hgr 0%nat). cbn in Hgr. destruct alloc; apply Hgr; [lia|done|lia|done].
Qed.

(** A walk from [cwd], or from the root for an absolute path. *)
Lemma lookup_part_spec Fr root rt cwd q path X E C v s alloc : good Fr E C v X s → root ∈ E → cwd ∈ E → att C root rt → att C cwd q → answers alloc C →
  ∃ e t nd j s' C' v' q', vfs_lookup_part cfg root cwd path (last_slash_or_end path) alloc s = Ok (e, t, nd, drop j alloc, s') ∧
    good Fr (E ⊎ {[+ nd +]}) C' v' X s' ∧ keeps E C v C' v' ∧ att C' nd q' ∧ answers (drop j alloc) C' ∧ frame alloc C C' ∧ (j <= length (comps path))%nat ∧ at_token path t ∧
    ((e, comps (drop t path), q') = resolve v rt (comps path) (start path rt q) ∨ e = - ENOMEM ∧ ¬ granted alloc (length (comps path))).
Proof.
  intros Hg HrE HcE Hrt Hq Hans. unfold vfs_lookup_part, start. set (ab := bool_decide _). set (n0 := if ab then root else cwd). set (t0 := if ab then next_nonslash path 0 else 0%nat). set (q0 := if ab then rt else q).
  assert (att C n0 q0) as Hn0 by (unfold n0, q0; by destruct ab). assert (at_token path t0 ∧ comps (drop t0 path) = comps path) as [Ht0 Ec].
  { unfold t0. destruct ab eqn:Eab; [destruct (nonslash_token path 0) as [? E0]; [lia|]; by rewrite drop_0 in E0|]. unfold ab in Eab. apply bool_decide_eq_false in Eab. rewrite drop_0. split; [|done]. split; [lia|]. rewrite drop_0. intros c Hc.
    destruct (is_slash c) eqn:Es; [|done]. apply is_slash_eq in Es as ->. done. }
  destruct (good_refnew Fr E C v X s n0 Hg) as (s1 & -> & Hg1); [destruct Hn0 as (a & Ha & _); eauto|]. cbn [mbind outcome_bind].
  destruct (loop_spec Fr root rt path X E HrE (Datatypes.S (length path)) t0 (hold n0 C) v s1 n0 q0 alloc Hg1) as (e & t & nd & j & s' & C' & v' & q' & -> & Hg' & K' & Hq' & Hans' & Hfr' & Hj & Htok & Hend); try done; [apply Hg|lia|].
  rewrite Ec in Hj, Hend. exists e, t, nd, j, s', C', v', q'. split_and!; try done. by apply (keeps_hold _ n0).
Qed.

Lemma start_reach C v s root rt cwd q path : coh C v → rel s v → att C root rt → att C cwd q → reach v top (start path rt q).
Proof. intros H Hr H1 H2. unfold start. case_match; by eapply att_reach. Qed.

(** The node of a path. *)
Lemma path_lookup_spec Fr root rt cwd q path X E C v s alloc : good Fr E C v X s → root ∈ E → cwd ∈ E → att C root rt → att C cwd q → answers alloc C →
  ∃ e r s' C' v', vfs_lookup cfg root cwd path alloc s = Ok (e, r, s') ∧ good Fr (E ⊎ opt r) C' v' X s' ∧ keeps E C v C' v' ∧ frame alloc C C' ∧
    ((∃ l q', resolve v rt (comps path) (start path rt q) = (e, l, q') ∧ match r with Some n => e = 0 ∧ att C' n q' | None => e ≠ 0 end) ∨ e = - ENOMEM ∧ r = None ∧ ¬ granted alloc (length (comps path))).
Proof.
  intros Hg HrE HcE Hrt Hq Hans. unfold vfs_lookup. pose proof (g_root _ _ _ _ _ _ Hg) as Hm. pose proof (g_coh _ _ _ _ _ _ Hg) as H. pose proof (s_rel _ _ _ _ _ _ _ _ (g_st _ _ _ _ _ _ Hg)) as Hrel.
  destruct (lookup_part_spec Fr root rt cwd q path X E C v s alloc Hg HrE HcE Hrt Hq Hans) as (e & t & nd & j & s1 & C1 & v1 & q1 & -> & Hg1 & K1 & Hq1 & _ & Hfr1 & _ & Htok & Hend). cbn [mbind outcome_bind].
  assert (e = 0 → (last_slash_or_end path <= t)%nat ∧ resolve v rt (comps path) (start path rt q) = (0, [], q1)) as H0.
  { intros ->. destruct Hend as [Hend|[? _]]; [|done]. symmetry in Hend. destruct (resolve_end v (under s) rt _ _ _ _ _ Hrel (start_reach _ _ _ _ _ _ _ _ H Hrel Hrt Hq) (att_reach _ _ _ _ _ H Hrel Hrt) Hend) as (_ & _ & [E0 _] & _). specialize (E0 eq_refl). split; [by apply stop_spec|]. by rewrite Hend, E0. }
  destruct (Z.eqb_spec e 0) as [->|He]; cbn [andb negb].
  - destruct (H0 eq_refl) as [Hle Hres]. destruct (Nat.leb_spec (last_slash_or_end path) t); [|lia]. exists 0, (Some nd), s1, C1, v1. split_and!; try done. left. by exists [], q1.
  - destruct (good_refdrop _ _ _ _ _ _ _ Hg1 Hm) as (s2 & C2 & v2 & -> & Hg2 & K2 & W2). cbn [mbind outcome_bind]. exists e, None, s2, C2, v2. cbn [opt]. rewrite (right_id_L ∅ _). split_and!; try done; [by eapply keeps_trans|intros k Hk Hn; apply W2; [by apply Hfr1|done]|]. destruct Hend as [Hend|[-> Hend]]; [left; eauto|by right].
Qed.
End walk.
End VfsWalk.
