(* ===== verification/VfsApi.v ===== *)
(** * The virtual file system: operations on paths

    What the operations on paths do to the tree of the file system, and that no
    sequence of them goes wrong. *)

From stdpp Require Import gmap gmultiset.
From S2P Require Import Prelude FileOps RamfsFile Ramfs Vfs VfsSpec VfsOps VfsNodes VfsPath VfsWalk.
Import FileOps Vfs VfsSpec VfsOps VfsNodes VfsPath VfsWalk.

Module VfsApi.
Section api.
Context {A F S : Type} `{ops : !FsOps A F S} (cfg : config) `{laws : !FsLaws A F S cfg} (vol r0 : nat).
Abbreviation vfs := (vfs S).
Abbreviation coh := (coh cfg r0).
Abbreviation keeps := (keeps cfg).
Abbreviation resolve := (resolve cfg).
Abbreviation good := (good cfg vol r0).
Abbreviation mangle := (vfs_name_mangle cfg).

(** ** Trees that change *)

Lemma edited_left r d m c v v1 v2 : steady r v v1 → edited r d m c v1 v2 → edited r d m c v v2.
Proof.
  intros Hs He q Hq Hq2. destruct (Hs q Hq) as (Hd & Hent & _). destruct (He q (proj2 (steady_reach r v v1 q Hs) Hq) Hq2) as [Hd2 He2]. split; [congruence|]. intros m'. by rewrite He2, Hent.
Qed.
(** A new entry: the rest of the tree stays. *)
Lemma grow_reach r d m c v v' : edited r d m c v v' → ent v d m = None → ∀ x, reach v r x → reach v' r x.
Proof.
  intros He Hn x. induction 1 as [|q m' x Hq IH Hx]; [constructor|]. apply (reach_ent _ _ q m' x IH). destruct (He q Hq IH) as [_ ->]. rewrite decide_False; [done|]. intros [-> ->]. congruence.
Qed.
Lemma grow_entry r d m c v v' x m' y : edited r d m c v v' → ent v d m = None → reach v r x → ent v x m' = Some y → ent v' x m' = Some y.
Proof. intros He Hn Hx Hy. destruct (He x Hx) as [_ ->]; [by eapply grow_reach|]. rewrite decide_False; [done|]. intros [-> ->]. congruence. Qed.
Lemma grow_up d m c v v' s s' x : rel s v → rel s' v' → edited top d m c v v' → ent v d m = None → reach v top x → up v' x = up v x.
Proof.
  intros Hr Hr' He Hn Hx. destruct Hx as [|q m' x Hq Hx]; [destruct (rel_top s v Hr) as [-> _]; by destruct (rel_top s' v' Hr') as [-> _]|].
  rewrite (rel_up s v _ _ _ Hr Hx). eapply rel_up; [done|]. by eapply grow_entry.
Qed.
Lemma resolve_grow d m c v v' s s' rt l : rel s v → rel s' v' → edited top d m c v v' → ent v d m = None → ∀ q q', reach v top q → resolve v rt l q = (0, [], q') → resolve v' rt l q = (0, [], q').
Proof.
  intros Hr Hr' He Hn. induction l as [|x l IH]; intros q q' Hq; [done|]. cbn [VfsWalk.resolve]. rewrite (grow_up d m c v v' s s' q Hr Hr' He Hn Hq). destruct (He q Hq) as [-> _]; [by eapply grow_reach|].
  destruct (bool_decide (x = [dot; dot])).
  - apply IH. destruct (q =? rt)%nat; [done|]. destruct (up v q) as [p|] eqn:Eu; [|done]. exact (up_reach cfg v s q p Hr Hq Eu).
  - destruct (bool_decide (x = [dot])); [by apply IH|]. destruct (dirp v q); [|done]. destruct (ent v q _) as [y|] eqn:E; [|done]. rewrite (grow_entry _ _ _ _ _ _ _ _ _ He Hn Hq E). apply IH. exact (reach_ent _ _ _ _ _ Hq E).
Qed.
Lemma resolve_app v rt l l' q' : ∀ q, resolve v rt l q = (0, [], q') → resolve v rt (l ++ l') q = resolve v rt l' q'.
Proof.
  induction l as [|x l IH]; intros q; cbn [VfsWalk.resolve app]; [by intros [= ->]|]. repeat case_match; try done; apply IH.
Qed.
(** The walk that stops at the last component. *)
Lemma resolve_last v s rt l q c d e : rel s v → reach v top q → reach v top rt → resolve v rt l q = (e, [c], d) → ∃ l0, l = l0 ++ [c] ∧ resolve v rt l0 q = (0, [], d).
Proof.
  intros Hr. revert q. induction l as [|x l IH]; intros q Hq Hrt; [done|]. intros E. pose proof E as E'. cbn [VfsWalk.resolve] in E'.
  assert (∀ q1, reach v top q1 → resolve v rt l q1 = (e, [c], d) → (∀ l0, resolve v rt (x :: l0) q = resolve v rt l0 q1) → ∃ l0, x :: l = l0 ++ [c] ∧ resolve v rt l0 q = (0, [], d)) as H.
  { intros q1 H1 E1 Hx. destruct (IH q1 H1 Hrt E1) as (l0 & -> & E0). exists (x :: l0). by rewrite Hx. }
  destruct (bool_decide (x = [dot; dot])) eqn:E1.
  - eapply H; [|exact E'|intros l0; cbn [VfsWalk.resolve]; by rewrite E1]. destruct (q =? rt)%nat; [done|]. destruct (up v q) as [p|] eqn:Eu; [|done]. exact (up_reach cfg v s q p Hr Hq Eu).
  - destruct (bool_decide (x = [dot])) eqn:E2; [apply (H q); [done|exact E'|intros l0; cbn [VfsWalk.resolve]; by rewrite E1, E2]|].
    destruct (dirp v q) eqn:Ed; [|simplify_eq; by exists []]. destruct (ent v q _) as [y|] eqn:Ey; [|simplify_eq; by exists []].
    eapply H; [exact (reach_ent _ _ _ _ _ Hq Ey)|exact E'|]. intros l0. cbn [VfsWalk.resolve]. by rewrite E1, E2, Ed, Ey.
Qed.
Lemma up_entry v s x p : rel s v → reach v top x → up v x = Some p → ∃ m, ent v p m = Some x.
Proof.
  intros Hr Hx Hu. destruct Hx as [|y m' x Hy Hx]; [destruct (rel_top s v Hr); congruence|]. rewrite (rel_up s v _ _ _ Hr Hx) in Hu. injection Hu as ->. eauto.
Qed.
(** An entry goes. *)
Lemma cut_reach d m q v v' s : rel s v → edited top d m None v v' → ent v d m = Some q → (∀ m', ent v q m' = None) → ∀ x, reach v top x → x ≠ q → reach v' top x.
Proof.
  intros Hr He Hq Hemp x. induction 1 as [|y m' x Hy IH Hx]; intros Hne; [constructor|]. assert (y ≠ q) as Hyq by (intros ->; by rewrite Hemp in Hx). specialize (IH Hyq). apply (reach_ent _ _ y m' x IH). destruct (He y Hy IH) as [_ ->]. rewrite decide_False; [done|]. intros [-> ->]. congruence.
Qed.
Lemma resolve_cut d m q v v' s s' rt l : rel s v → rel s' v' → edited top d m None v v' → ent v d m = Some q → (∀ m', ent v q m' = None) → rt ≠ q →
  ∀ x, reach v top x → x ≠ q → resolve v rt l x = (0, [], q) → (resolve v' rt l x).1.1 = - ENOENT.
Proof.
  intros Hr Hr' He Hq Hemp Hrt. induction l as [|c l IH]; intros x Hx Hne; [cbn; congruence|]. pose proof (cut_reach d m q v v' s Hr He Hq Hemp) as Hcut. destruct (He x Hx (Hcut x Hx Hne)) as [Hd Hent].
  assert (up v' x = up v x) as Hup. { destruct Hx as [|y m' x Hy Hx]; [destruct (rel_top s v Hr) as [-> _]; by destruct (rel_top s' v' Hr') as [-> _]|]. rewrite (rel_up s v _ _ _ Hr Hx). eapply rel_up; [done|]. assert (y ≠ q) by (intros ->; by rewrite Hemp in Hx).
    destruct (He y Hy) as [_ ->]; [by apply Hcut|]. rewrite decide_False; [done|]. intros [-> ->]. congruence. }
  cbn [VfsWalk.resolve]. rewrite Hup, Hd, Hent. destruct (bool_decide (c = [dot; dot])).
  - destruct (x =? rt)%nat; [by apply IH|]. destruct (up v x) as [p|] eqn:Eu; [|by apply IH]. apply IH; [exact (up_reach cfg v s x p Hr Hx Eu)|]. change (p ≠ q). intros ->. destruct (up_entry v s x q Hr Hx Eu) as [m' Hm']. by rewrite Hemp in Hm'.
  - destruct (bool_decide (c = [dot])); [by apply IH|]. destruct (dirp v x); [|done]. destruct (decide (x = d ∧ mangle c = m)) as [[-> Hm]|Hn]; [done|]. destruct (ent v x (mangle c)) as [y|] eqn:Ey; [|done]. apply IH; [exact (reach_ent _ _ _ _ _ Hx Ey)|].
    intros ->. apply Hn. pose proof (rel_up s v _ _ _ Hr Ey) as U1. pose proof (rel_up s v _ _ _ Hr Hq) as U2. assert (x = d) as Exd by congruence. split; [done|]. rewrite Exd in Ey. exact (rel_name s v _ _ _ _ Hr Ey Hq).
Qed.

(** ** Create *)

(** What [vfs_create] and [vfs_open] do when a name is missing in a directory. *)
Definition make (ans ans' : A) (nd : nat) (c : list Z) (ty : vfs_node_type_e) (al : list (option nat)) (s : vfs) : outcome (Z * option nat * vfs) :=
  p ← getn nd s;
  '(err, rn, s) ← vfs_node_create cfg ans (default None (head al)) (v_fs p) ty s;
  if negb (err =? 0) then s ← vfs_node_refdrop nd s; Ok (err, None, s) else
  rn ← of_option FUndef rn;
  '(err, node, s) ← vfs_node_link cfg ans' (default None (head (tail al))) rn nd c s;
  s ← vfs_node_refdrop nd s;
  s ← vfs_node_refdrop rn s;
  Ok (err, node, s).
Definition stays (E : gmultiset nat) (C C' : cache) : Prop := ∀ x y, x ∈ E → att C x y → att C' x y.
Lemma keeps_stays E C v C' v' : keeps E C v C' v' → stays E C C'.
Proof. intros K x y Hx. by eapply att_keeps. Qed.
Lemma stays_trans E C1 C2 C3 : stays E C1 C2 → stays E C2 C3 → stays E C1 C3.
Proof. intros H1 H2 x y Hx Ha. by apply H2, H1. Qed.
(** The nodes in the cache stay attached, but for the node of an entry that changes. *)
Lemma changed_stays E p ap m C v C' x y : coh C v → changed E p m C C' → attrs C !! p = Some ap → x ∈ E → att C x y → ent v (a_fsn ap) m ≠ Some y → att C' x y.
Proof.
  intros H Hch Hap Hx (a & Ha & Hp & <-) Hne. exists a. rewrite (Hch x a Hx Ha). rewrite decide_False; [done|]. intros (Ep & En & Exp). destruct (h_parent _ _ _ _ H x a p Ha Ep Exp) as (ap' & Hap' & _ & He). rewrite Hap in Hap'. injection Hap' as <-. by rewrite En in He.
Qed.
Definition made (v v' : view) (d : nat) (m : list Z) (ty : vfs_node_type_e) (q : nat) : Prop :=
  edited top d m (Some q) v v' ∧ dirp v' q = bool_decide (ty = VFS_NODE_DIR) ∧ ∀ m', ent v' q m' = None.

Lemma make_spec Fr E C v X s nd d c ans ans' ty al : good Fr (E ⊎ {[+ nd +]}) C v X s → (2 <= multiplicity r0 E)%nat → att C nd d → dirp v d = true → ent v d (mangle c) = None → 0 ∉ c → Fr ans → answers al C →
  ∃ e r s' C' v', make ans ans' nd c ty al s = Ok (e, r, s') ∧ good none (E ⊎ opt r) C' v' X s' ∧ stays E C C' ∧
    (e ≠ 0 ∧ r = None ∧ steady top v v' ∧ ¬ (gives ans ∧ granted al 2 ∧ (length c < Ramfs.NAMELEN cfg)%nat) ∨
     ∃ q, made v v' d (mangle c) ty q ∧ match r with Some n => e = 0 ∧ att C' n q | None => e = - ENOMEM ∧ ¬ granted al 2 end ∧ (length c < Ramfs.NAMELEN cfg)%nat).
Proof.
  intros Hg Hm Hnd Hd Hent Hz Hans Hal. pose proof Hg as [Hs H Ht HE _]. unfold make. destruct Hnd as (ap & Hap & Hpp & <-). destruct (getn_spec cfg vol Fr _ _ _ _ _ _ _ Hs Hap) as (xp & -> & _ & Hxp). cbn [mbind outcome_bind]. rewrite (n_fs _ _ _ _ _ _ _ Hxp).
  pose proof (coh_reach cfg r0 C v _ nd ap H (s_rel _ _ _ _ _ _ _ _ Hs) Hap Hpp) as Rd.
  destruct (node_create_spec cfg vol r0 Fr C v X (E ⊎ {[+ nd +]}) s ans (default None (head al)) ty Hs H Ht HE Hans (answers_head _ _ Hal)) as (e & r & s1 & C1 & v1 & -> & Hs1 & H1 & HE1 & K1 & W1 & Hr). cbn [mbind outcome_bind].
  destruct r as [rn|].
  2:{ destruct Hr as [-> Hno]. change (- ENOMEM =? 0) with false. cbn [negb opt] in *. rewrite (right_id_L ∅ _) in HE1. assert (good none (E ⊎ {[+ nd +]}) C1 v1 X s1) as Hg1 by (split; try done; rewrite multiplicity_disj_union; lia).
      destruct (good_refdrop cfg vol r0 none E C1 v1 X s1 nd Hg1 Hm) as (s2 & C2 & v2 & -> & Hg2 & K2 & _). cbn [mbind outcome_bind]. assert (keeps E C v C2 v2) as K by (eapply keeps_trans; [eapply keeps_sub; [exact K1|apply sub_left]|done]).
      exists (- ENOMEM), None, s2, C2, v2. cbn [opt]. rewrite (right_id_L ∅ _). split_and!; try done; [by eapply keeps_stays|]. left. split_and!; try done; [by eapply k_tree|]. intros (Hgv & Hgr & _). specialize (Hno Hgv). specialize (Hgr 0%nat ltac:(lia)). by destruct al. }
  destruct Hr as (-> & Hrn & q & Hqt & Hrnq & Hup & Hdq). cbn [Z.eqb negb of_option mbind outcome_bind opt] in *. destruct (K1 nd ap (in_plus _ _) Hap) as [Hap1 (Hd1 & He1 & _)].
  pose proof (answers_within _ _ _ Hal W1) as Hal1.
  destruct (node_link_spec cfg vol r0 none C1 v1 X (E ⊎ {[+ nd +]} ⊎ {[+ rn +]}) s1 ans' (default None (head (tail al))) rn {| a_name := replicate (Ramfs.NAMELEN cfg) 0; a_parent := None; a_fsn := q |} nd ap c Hs1 H1 Ht HE1) as (e & r & s2 & C2 & v2 & -> & Hs2 & H2 & HE2 & W2 & Hcase); [rewrite !multiplicity_disj_union; lia|apply in_plus|exact Hrnq|apply in_left, in_plus|done|cbn [a_fsn]; congruence|done|intros o; rewrite He1, Hent; done|by apply answers_head|]. cbn [mbind outcome_bind].
  assert (good none (E ⊎ opt r ⊎ {[+ rn +]} ⊎ {[+ nd +]}) C2 v2 X s2) as Hg2. { split; try done; [|rewrite !multiplicity_disj_union; lia]. etrans; [|exact HE2]. clear. multiset_solver. }
  destruct (good_refdrop cfg vol r0 none _ C2 v2 X s2 nd Hg2) as (s3 & C3 & v3 & -> & Hg3 & K3 & _); [rewrite !multiplicity_disj_union; lia|]. cbn [mbind outcome_bind].
  destruct (good_refdrop cfg vol r0 none _ C3 v3 X s3 rn Hg3) as (s4 & C4 & v4 & -> & Hg4 & K4 & _); [rewrite !multiplicity_disj_union; lia|]. cbn [mbind outcome_bind].
  assert (keeps (E ⊎ opt r) C2 v2 C4 v4) as K24 by (eapply keeps_trans; [eapply keeps_sub; [exact K3|apply sub_left]|done]).
  exists e, r, s4, C4, v4. split_and!; try done.
  - eapply stays_trans; [eapply keeps_stays, keeps_sub; [exact K1|apply sub_left]|]. eapply stays_trans; [|eapply keeps_stays, keeps_sub; [exact K24|apply sub_left]]. destruct Hcase as [(_ & _ & K2 & _)|(q2 & _ & _ & Hch & _)].
    + eapply keeps_stays, keeps_sub; [exact K2|]. clear. multiset_solver.
    + intros x y Hx Hxy. apply (changed_stays _ nd ap (mangle c) C1 v1 C2 x y H1 Hch Hap1); [by apply in_left, in_left|done|]. by rewrite He1, Hent.
  - destruct Hcase as [(He & -> & K2 & Hwhy)|(q2 & _ & _ & _ & _ & Hed & Hdq2 & Hq2 & Hres & Hlen & _)].
    + left. split_and!; try done.
      * eapply steady_trans; [by eapply k_tree|]. eapply steady_trans; by eapply k_tree.
      * intros (Hgv & Hgr & Hlen). apply Hwhy. cbn [a_fsn]. split_and!; try done; [congruence|by left].
    + right. exists q2. assert (reach v2 top q2) as Rq2. { eapply (reach_ent _ _ (a_fsn ap)). - eapply grow_reach; [exact Hed|by rewrite He1|]. by apply (steady_reach top v v1 _ (k_tree _ _ _ _ _ _ K1)). - destruct (Hed (a_fsn ap)) as [_ ->]; [by apply (steady_reach top v v1 _ (k_tree _ _ _ _ _ _ K1))| |by rewrite decide_True]. eapply grow_reach; [exact Hed|by rewrite He1|]. by apply (steady_reach top v v1 _ (k_tree _ _ _ _ _ _ K1)). }
      destruct (k_tree _ _ _ _ _ _ K24 q2 Rq2) as (Hd4 & He4 & _). split_and!; [| |done].
      * split_and!; [eapply edited_steady; [eapply edited_left; [by eapply k_tree|exact Hed]|by eapply k_tree]|cbn [a_fsn] in Hdq2; congruence|intros m'; by rewrite He4].
      * destruct r as [n|]; [|destruct Hres as [-> Hno]; split; [done|]; intros Hgr; apply granted_tail in Hgr; specialize (Hgr 0%nat ltac:(lia)); by destruct (tail al)]. destruct Hres as (-> & _ & _ & Hn). split_and!; try done. eapply att_keeps; [exact K24|apply in_plus|]. eexists. by split.
Qed.

(** The error of a creation, if the path does not name a new entry of a directory. *)
Definition create_code (v : view) (rt : nat) (path : list Z) (q : nat) : option Z :=
  let '(e, l, _) := resolve v rt (comps path) (start path rt q) in
  if dots path (last_part path) (last_slash_or_end path) then Some (- EINVAL) else
  if e =? 0 then Some (- Ramfs.EEXISTS) else
  if (e =? - ENOENT) && (length l =? 1)%nat then None else Some e.

Lemma part_elem path a b x : x ∈ part path a b → x ∈ path.
Proof. unfold part. intros H. apply elem_of_take in H as (i & H & _). rewrite lookup_drop in H. by eapply list_elem_of_lookup_2. Qed.

(** The place where the walk ended, for operations that make the last component. *)
Lemma ended_last v s rt q path e t d : rel s v → reach v top (start path rt q) → reach v top rt → at_token path t → (e, comps (drop t path), d) = resolve v rt (comps path) (start path rt q) →
  if (e =? - ENOENT) && (last_part path <=? t)%nat
  then ∃ c, resolve v rt (comps path) (start path rt q) = (- ENOENT, [c], d) ∧ part path (last_part path) (last_slash_or_end path) = c ∧ dirp v d = true ∧ ent v d (mangle c) = None
  else e = 0 ∨ ¬ (e = - ENOENT ∧ length (comps (drop t path)) = 1%nat).
Proof.
  intros Hr Hq Hrt Htok Hend. pose proof Hend as Hend'. symmetry in Hend. destruct (resolve_end cfg v s rt _ _ _ _ _ Hr Hq Hrt Hend) as (Rd & [l0 El] & _ & Hno). destruct (Z.eqb_spec e (- ENOENT)) as [->|He]; cbn [andb]; [|right; tauto].
  destruct (Hno eq_refl) as (Hd & c & l1 & Ec & Hc1 & Hc2 & Hent). destruct (Nat.leb_spec (last_part path) t) as [Hle|Hlt].
  - apply (last_token path t c l1 Htok Ec) in Hle as ->. exists c. rewrite Hend, Ec. split_and!; try done. apply last_comp. by rewrite El, Ec, last_snoc.
  - right. intros [_ Hl]. rewrite Ec in Hl. destruct l1; [|done]. assert (last_part path <= t)%nat by (by apply (last_token path t c [] Htok Ec)). lia.
Qed.
Lemma granted_drop al j n : granted al n → (j <= n)%nat → granted (drop j al) (n - j).
Proof. intros H Hj i Hi. rewrite lookup_drop. apply H. lia. Qed.

Lemma create_spec Fr root rt cwd q path X E C v s ans ans' ty alloc : good Fr E C v X s → root ∈ E → cwd ∈ E → att C root rt → att C cwd q → 0 ∉ path → Fr ans → answers alloc C →
  ∃ e r s' C' v', vfs_create cfg ans ans' root cwd path ty alloc s = Ok (e, r, s') ∧ good none (E ⊎ opt r) C' v' X s' ∧ stays E C C' ∧
    (e ≠ 0 ∧ r = None ∧ steady top v v' ∧
       (granted alloc (length (comps path) + 2) → match create_code v rt path q with Some e' => e = e' | None => ¬ (gives ans ∧ ∀ c, last (comps path) = Some c → (length c < Ramfs.NAMELEN cfg)%nat) end) ∨
     ∃ c d q', create_code v rt path q = None ∧ resolve v rt (comps path) (start path rt q) = (- ENOENT, [c], d) ∧ ent v d (mangle c) = None ∧ made v v' d (mangle c) ty q' ∧
       match r with Some n => e = 0 ∧ att C' n q' | None => e = - ENOMEM ∧ ¬ granted alloc (length (comps path) + 2) end ∧ (length c < Ramfs.NAMELEN cfg)%nat).
Proof.
  intros Hg HrE HcE Hrt Hq Hz Hans Hal. pose proof Hg as [Hs H Ht HE Hm]. pose proof (s_rel _ _ _ _ _ _ _ _ Hs) as Hrel. unfold vfs_create, create_code. fold (last_part path).
  destruct (dots path (last_part path) (last_slash_or_end path)) eqn:Edot.
  { exists (- EINVAL), None, s, C, v. cbn [opt]. rewrite (right_id_L ∅ _). split_and!; try done; [split; try done; by eapply st_none|by intros ??|]. left. split_and!; try done. intros _. by destruct (resolve _ _ _ _) as [[??]?]. }
  destruct (lookup_part_spec cfg vol r0 Fr root rt cwd q path X E C v s alloc Hg HrE HcE Hrt Hq Hal) as (e & t & nd & j & s1 & C1 & v1 & d & -> & Hg1 & K1 & Hd & Hal1 & _ & Hj & Htok & Hend). cbn [mbind outcome_bind].
  pose proof (start_reach cfg r0 C v _ root rt cwd q path H Hrel Hrt Hq) as Rst. pose proof (att_reach cfg r0 C v _ root rt H Hrel Hrt) as Rrt.
  assert (((e =? - ENOENT) && (last_part path <=? t)%nat = true → ∃ c, resolve v rt (comps path) (start path rt q) = (- ENOENT, [c], d) ∧ part path (last_part path) (last_slash_or_end path) = c ∧ dirp v d = true ∧ ent v d (mangle c) = None) ∧
          ((e =? - ENOENT) && (last_part path <=? t)%nat = false → granted alloc (length (comps path) + 2) → e = 0 ∨ ¬ (e = - ENOENT ∧ length (comps (drop t path)) = 1%nat))) as [Hyes Hnope].
  { destruct Hend as [Hend|[-> Hend]]; [|split; [done|]; intros _ Hgr; destruct Hend; eapply granted_mono; [done|lia]]. pose proof (ended_last v _ rt q path e t d Hrel Rst Rrt Htok Hend) as Hl. destruct (_ && _); by split. }
  destruct ((e =? - ENOENT) && (last_part path <=? t)%nat); cbn [negb].
  2:{ destruct (good_refdrop cfg vol r0 Fr E C1 v1 X s1 nd Hg1 Hm) as (s2 & C2 & v2 & -> & Hg2 & K2 & _). cbn [mbind outcome_bind]. pose proof (keeps_trans _ _ _ _ _ _ _ _ K1 K2) as K. eexists _, None, s2, C2, v2. cbn [opt]. rewrite (right_id_L ∅ _). split_and!; try done; [destruct Hg2; split; try done; by eapply st_none|by eapply keeps_stays|].
      left. split_and!; try done; [destruct (Z.eqb_spec e 0); done|by eapply k_tree|]. intros Hgr. specialize (Hnope eq_refl Hgr). destruct Hend as [<-|[_ Hend]]; [|destruct Hend; eapply granted_mono; [done|lia]].
      destruct (Z.eqb_spec e 0); [done|]. cbn [negb]. destruct (Z.eqb_spec e (- ENOENT)); [|done]. cbn [andb]. destruct (Nat.eqb_spec (length (comps (drop t path))) 1); [tauto|done]. }
  destruct (Hyes eq_refl) as (c & Hres & Hc & Hdd & Hent). rewrite Hc. pose proof Hd as Hd0. destruct Hd0 as (ad & Had & Hpd & <-). destruct (k_tree _ _ _ _ _ _ K1 (a_fsn ad)) as (Hd1 & He1 & _).
  { destruct (resolve_end cfg v _ rt _ _ _ _ _ Hrel Rst Rrt Hres) as (? & _). done. }
  destruct (make_spec Fr E C1 v1 X s1 nd (a_fsn ad) c ans ans' ty (drop j alloc) Hg1 Hm Hd) as (e2 & r & s2 & C2 & v2 & Emk & Hg2 & Hst & Hcase); [congruence|by rewrite He1|rewrite <-Hc; by intros ?%part_elem|done|done|].
  unfold make in Emk. destruct (getn nd s1) as [p|] eqn:Egn; [|done]. cbn [mbind outcome_bind] in *. rewrite Emk. exists e2, r, s2, C2, v2. rewrite Hres. cbn [Z.eqb andb length Nat.eqb]. change (- ENOENT =? 0) with false. change (- ENOENT =? - ENOENT) with true. cbn [andb].
  assert (granted alloc (length (comps path) + 2) → granted (drop j alloc) 2) as Hg2' by (intros Hgr; eapply granted_mono; [apply (granted_drop alloc j _ Hgr); lia|lia]). split_and!; try done; [eapply stays_trans; [by eapply keeps_stays|done]|].
  destruct Hcase as [(He & -> & Hsv & Hwhy)|(q' & (Hed & Hdq & Heq) & Hr & Hlen)].
  - left. split_and!; try done; [eapply steady_trans; [by eapply k_tree|done]|]. intros Hgr [Hgv Hl]. apply Hwhy. split_and!; try done; [by apply Hg2'|]. apply Hl. destruct (resolve_end cfg v _ rt _ _ _ _ _ Hrel Rst Rrt Hres) as (_ & [l0 ->] & _). by rewrite last_snoc.
  - right. exists c, (a_fsn ad), q'. split_and!; try done; [split_and!; try done; eapply edited_left; [by eapply k_tree|done]|]. destruct r as [n|]; [done|]. destruct Hr as [-> Hno]. split; [done|]. intros Hgr. by apply Hno, Hg2'.
Qed.

(** ** Unlink *)

Lemma name_length_spec nm : 0 ∉ nm → (length nm < Ramfs.NAMELEN cfg)%nat → strlen (mangle nm) = Ok (length nm) ∧ take (length nm) (mangle nm) = nm.
Proof.
  intros Hz Hl. assert (mangle nm = nm ++ replicate (Ramfs.NAMELEN cfg - length nm) 0) as -> by (unfold Ramfs.vfs_name_mangle; by rewrite take_ge by lia). rewrite take_app_length. split; [|done].
  unfold strlen. rewrite skip_app; [|apply Forall_forall; intros x Hx; apply negb_true_iff, Z.eqb_neq; by intros ->]. rewrite length_app, length_replicate.
  destruct (Ramfs.NAMELEN cfg - length nm)%nat as [|k] eqn:Ek; [lia|]. cbn [replicate skip]. change (negb (0 =? 0)) with false. cbv iota. rewrite Nat.add_0_r. by destruct (Nat.ltb_spec (length nm) (length nm + Datatypes.S k)); [|lia].
Qed.

Lemma unlink_spec Fr root rt cwd q path X E C v s alloc : good Fr E C v X s → root ∈ E → cwd ∈ E → att C root rt → att C cwd q → answers alloc C →
  ∃ e s' C' v', vfs_unlink cfg root cwd path alloc s = Ok (e, s') ∧ good Fr E C' v' X s' ∧
    (e ≠ 0 ∧ steady top v v' ∧ stays E C C' ∧
       (granted alloc (length (comps path)) → let '(e', _, q') := resolve v rt (comps path) (start path rt q) in if e' =? 0 then q' = top ∧ e = - EBUSY ∨ q' ≠ top ∧ ∃ m c, ent v q' m = Some c else e = e') ∨
     e = 0 ∧ ∃ q' d m, resolve v rt (comps path) (start path rt q) = (0, [], q') ∧ q' ≠ top ∧ ent v d m = Some q' ∧ (∀ m', ent v q' m' = None) ∧ edited top d m None v v' ∧ ∀ x y, x ∈ E → att C x y → y ≠ q' → att C' x y).
Proof.
  intros Hg HrE HcE Hrt Hq Hal. pose proof Hg as [Hs H Ht HE Hm]. pose proof (s_rel _ _ _ _ _ _ _ _ Hs) as Hrel. unfold vfs_unlink.
  destruct (path_lookup_spec cfg vol r0 Fr root rt cwd q path X E C v s alloc Hg HrE HcE Hrt Hq Hal) as (e & r & s1 & C1 & v1 & -> & Hg1 & K1 & _ & Hres). cbn [mbind outcome_bind].
  pose proof (start_reach cfg r0 C v _ root rt cwd q path H Hrel Hrt Hq) as Rst. pose proof (att_reach cfg r0 C v _ root rt H Hrel Hrt) as Rrt. pose proof (k_tree _ _ _ _ _ _ K1) as T1.
  destruct r as [n|].
  2:{ assert (e ≠ 0) as He by (destruct Hres as [(l & q' & _ & ?)|[-> _]]; done). destruct (Z.eqb_spec e 0); [done|]. cbn [negb opt] in *. rewrite (right_id_L ∅ _) in Hg1. exists e, s1, C1, v1. split_and!; try done. left. split_and!; try done; [by eapply keeps_stays|]. intros Hgr. destruct Hres as [(l & q' & -> & _)|(_ & _ & ?)]; [|done]. by destruct (Z.eqb_spec e 0). }
  destruct Hres as [(l & q' & Er & -> & Hn)|(_ & ? & _)]; [|done]. cbn [Z.eqb negb of_option mbind outcome_bind opt] in *. destruct (resolve_end cfg v _ rt _ _ _ _ _ Hrel Rst Rrt Er) as (Rq & _ & [El _] & _). rewrite (El eq_refl) in Er. rewrite Er. clear El l.
  pose proof Hg1 as [Hs1 H1 _ HE1 _]. pose proof (s_rel _ _ _ _ _ _ _ _ Hs1) as Hrel1. destruct Hn as (a & Ha & Hp & <-). destruct (getn_spec cfg vol Fr _ _ _ _ _ _ _ Hs1 Ha) as (x & -> & _ & Hx). cbn [mbind outcome_bind]. rewrite (n_fs _ _ _ _ _ _ _ Hx), (n_fsn _ _ _ _ _ _ _ Hx).
  destruct (getf_spec cfg vol Fr _ _ _ _ _ Hs1) as (w & -> & _ & Hw & _). cbn [mbind outcome_bind]. rewrite Hw. destruct (Nat.eqb_spec top (a_fsn a)) as [Htop|Htop].
  { destruct (good_refdrop cfg vol r0 Fr E C1 v1 X s1 n Hg1 Hm) as (s2 & C2 & v2 & -> & Hg2 & K2 & _). cbn [mbind outcome_bind]. pose proof (keeps_trans _ _ _ _ _ _ _ _ K1 K2) as K. exists (- EBUSY), s2, C2, v2. split_and!; try done. left. split_and!; try done; [by eapply k_tree|by eapply keeps_stays|]. intros _. left. done. }
  destruct (get_parent_spec cfg vol Fr ∅ C1 v1 X s1 n a Hs1 Ha) as (s2 & -> & Hs2). cbn [mbind outcome_bind]. destruct (a_parent a) as [p|] eqn:Ep; [|done]. cbn [hold_opt] in Hs2.
  assert (n ≠ p) as Hnp. { intros <-. destruct (h_root _ _ _ _ H1) as (ar & Har & _ & Hart). pose proof (h_self _ _ _ _ H1 n a Ha Ep). congruence. }
  destruct (h_parent _ _ _ _ H1 n a p Ha Ep Hnp) as (ap & Hap & Hpp & Hent1). destruct (rel_short _ _ _ _ _ Hrel1 Hent1) as (nm & Enm & Hz & Hlen). rewrite (n_name _ _ _ _ _ _ _ Hx), Enm. destruct (name_length_spec nm Hz Hlen) as [-> Et]. cbn [mbind outcome_bind]. rewrite Et. rewrite Enm in Hent1.
  destruct (node_unlink_spec cfg vol r0 Fr (hold p C1) v1 X (E ⊎ {[+ n +]} ⊎ {[+ p +]}) s2 p ap nm Hs2) as (e & s3 & C3 & v3 & -> & Hs3 & H3 & HE3 & _ & Hcase); try done; [by apply coh_hold|by apply sub_plus|rewrite !multiplicity_disj_union; lia|apply in_plus|by eapply rel_dir|lia|]. cbn [mbind outcome_bind].
  assert (good Fr (E ⊎ {[+ p +]} ⊎ {[+ n +]}) C3 v3 X s3) as Hg3 by (apply good_swap; split; try done; rewrite !multiplicity_disj_union; lia).
  destruct (good_refdrop cfg vol r0 Fr _ C3 v3 X s3 n Hg3) as (s4 & C4 & v4 & -> & Hg4 & K4 & _); [rewrite !multiplicity_disj_union; lia|]. cbn [mbind outcome_bind].
  destruct (good_refdrop cfg vol r0 Fr _ C4 v4 X s4 p Hg4 Hm) as (s5 & C5 & v5 & -> & Hg5 & K5 & _). cbn [mbind outcome_bind].
  assert (keeps E C3 v3 C5 v5) as K35 by (eapply keeps_trans; [eapply keeps_sub; [exact K4|apply sub_left]|done]).
  assert (E ⊆ E ⊎ {[+ n +]} ⊎ {[+ p +]}) as Hsub by (clear; multiset_solver). assert (reach v top (a_fsn ap)) as Rp by (apply (steady_reach top v v1 _ T1); by eapply coh_reach).
  destruct (T1 _ Rp) as (_ & He1 & _). rewrite He1 in Hent1. assert (∀ m, ent v1 (a_fsn a) m = ent v (a_fsn a) m) as Heq by (by destruct (T1 _ Rq) as (_ & ? & _)). exists e, s5, C5, v5. split_and!; try done.
  destruct Hcase as [(He & K3 & Hwhy)|(-> & (o & Ho & Hemp) & Hch & Hsh & Hed)].
  - left. apply keeps_hold in K3. assert (keeps E C v C5 v5) as K by (eapply keeps_trans; [exact K1|eapply keeps_trans; [eapply keeps_sub; [exact K3|done]|done]]). split_and!; try done; [by eapply k_tree|by eapply keeps_stays|]. intros _. right. split; [done|]. rewrite He1, Hent1 in Hwhy. destruct Hwhy as (m & c & Hmc). exists m, c. by rewrite <-Heq.
  - right. split; [done|]. rewrite He1, Hent1 in Ho. injection Ho as <-. exists (a_fsn a), (a_fsn ap), (mangle nm). split_and!; try done; [intros m'; by rewrite <-Heq|eapply edited_steady; [eapply edited_left; [exact T1|exact Hed]|by eapply k_tree]|].
    intros y z Hy Hyz Hne. eapply att_keeps; [exact K35|done|]. apply (changed_stays _ p ap (mangle nm) (hold p C1) v1 C3 y z (coh_hold _ _ p _ _ H1) Hch Hap); [by eapply gmultiset_elem_of_subseteq|by eapply (att_keeps cfg E C v C1 v1)|]. rewrite He1, Hent1. congruence.
Qed.

(** ** Query, open, link *)

Lemma stat_spec Fr root rt cwd q path X E C v s alloc : good Fr E C v X s → root ∈ E → cwd ∈ E → att C root rt → att C cwd q → answers alloc C →
  ∃ e t s' C' v', vfs_stat cfg root cwd path alloc s = Ok (e, t, s') ∧ good Fr E C' v' X s' ∧ keeps E C v C' v' ∧
    ((∃ l q', resolve v rt (comps path) (start path rt q) = (e, l, q') ∧ match t with Some t => e = 0 ∧ stat_of cfg v q' t | None => e ≠ 0 end) ∨ e = - ENOMEM ∧ t = None ∧ ¬ granted alloc (length (comps path))).
Proof.
  intros Hg HrE HcE Hrt Hq Hal. pose proof Hg as [Hs H Ht HE Hm]. pose proof (s_rel _ _ _ _ _ _ _ _ Hs) as Hrel. unfold vfs_stat.
  destruct (path_lookup_spec cfg vol r0 Fr root rt cwd q path X E C v s alloc Hg HrE HcE Hrt Hq Hal) as (e & r & s1 & C1 & v1 & -> & Hg1 & K1 & _ & Hres). cbn [mbind outcome_bind]. destruct r as [n|].
  2:{ assert (e ≠ 0) as He by (destruct Hres as [(l & q' & _ & ?)|[-> _]]; done). destruct (Z.eqb_spec e 0); [done|]. cbn [negb opt] in *. rewrite (right_id_L ∅ _) in Hg1. exists e, None, s1, C1, v1. split_and!; try done. destruct Hres as [(l & q' & -> & _)|(-> & _ & ?)]; [left; by exists l, q'|by right]. }
  destruct Hres as [(l & q' & Er & -> & Hn)|(_ & ? & _)]; [|done]. cbn [Z.eqb negb of_option mbind outcome_bind opt] in *. rewrite Er. destruct (resolve_end cfg v _ rt _ _ _ _ _ Hrel (start_reach cfg r0 C v _ root rt cwd q path H Hrel Hrt Hq) (att_reach cfg r0 C v _ root rt H Hrel Hrt) Er) as (Rq & _).
  destruct (k_tree _ _ _ _ _ _ K1 _ Rq) as (Hd1 & _ & _). destruct Hn as (a & Ha & Hp & <-). destruct (node_stat_spec cfg vol r0 Fr C1 v1 X s1 n a (g_st _ _ _ _ _ _ _ _ _ Hg1) (g_coh _ _ _ _ _ _ _ _ _ Hg1) Ha) as (t & s2 & v2 & -> & Hs2 & H2 & K2 & Hty). cbn [mbind outcome_bind].
  assert (good Fr (E ⊎ {[+ n +]}) C1 v2 X s2) as Hg2 by (destruct Hg1; by split). destruct (good_refdrop cfg vol r0 Fr E C1 v2 X s2 n Hg2 Hm) as (s3 & C3 & v3 & -> & Hg3 & K3 & _). cbn [mbind outcome_bind].
  exists 0, (Some t), s3, C3, v3. split_and!; try done; [eapply keeps_trans; [exact K1|]; eapply keeps_trans; [apply K2|done]|]. left. exists l, (a_fsn a). split_and!; try done. destruct Hty as (u & v0 & u' & ? & ? & ? & Hty). exists u, v0, u'. split_and!; try done; [eapply steady_trans; [by eapply k_tree|done]|by rewrite Hty, Hd1].
Qed.

(** The node is opened and the reference to it goes. *)
Lemma open_drop Fr E C v X s n q ans flags : good Fr (E ⊎ {[+ n +]}) C v X s → (2 <= multiplicity r0 E)%nat → att C n q → RamfsFile.flag flags VFS_OPEN_TRUNCATE = false →
  ∃ e f s' C' v', ('(err, file, s) ← vfs_node_open ans flags n s; s ← vfs_node_refdrop n s; Ok (err, file, s)) = Ok (e, f, s') ∧ keeps E C v C' v' ∧
    match f with Some f => e = 0 ∧ file_of cfg v ans flags q f ∧ good Fr E C' v' (X ⊎ {[+ q +]}) s' | None => e ≠ 0 ∧ ¬ gives ans ∧ good Fr E C' v' X s' end.
Proof.
  intros Hg Hm (a & Ha & Hp & <-) Htr. destruct Hg as [Hs H Ht HE Hm']. destruct (node_open_spec cfg vol r0 Fr C v X s ans flags n a Hs H Ha Htr) as (e & f & s1 & v1 & -> & H1 & K1 & Hcase). cbn [mbind outcome_bind].
  destruct Hcase as [(He & Hgv & -> & Hs1)|(-> & (f' & -> & Hf') & Hs1)].
  - destruct (good_refdrop cfg vol r0 Fr E C v1 X s1 n) as (s2 & C2 & v2 & -> & Hg2 & K2 & _); [by split|done|]. cbn [mbind outcome_bind]. exists e, None, s2, C2, v2. split_and!; try done. by eapply keeps_trans.
  - destruct (good_refdrop cfg vol r0 Fr E C v1 (X ⊎ {[+ a_fsn a +]}) s1 n) as (s2 & C2 & v2 & -> & Hg2 & K2 & _); [split; try done; by apply in_left|done|]. cbn [mbind outcome_bind]. exists 0, (Some f'), s2, C2, v2. split_and!; try done. by eapply keeps_trans.
Qed.
Definition opened (q : nat) (f : option F) : gmultiset nat := match f with Some _ => {[+ q +]} | None => ∅ end.

Lemma made_reach v v' d m ty q : made v v' d m ty q → reach v top d → ent v d m = None → reach v' top q.
Proof.
  intros (He & _ & _) Rd Hn. pose proof (grow_reach _ _ _ _ _ _ He Hn d Rd) as Rd'. apply (reach_ent _ _ d m q Rd'). destruct (He d Rd Rd') as [_ ->]. by rewrite decide_True.
Qed.
Lemma made_steady v v' v'' d m ty q : made v v' d m ty q → reach v top d → ent v d m = None → steady top v' v'' → made v v'' d m ty q.
Proof.
  intros Hmk Rd Hn Hs. destruct (Hs q (made_reach v v' d m ty q Hmk Rd Hn)) as (Hd & He & _). destruct Hmk as (Hed & Hdq & Hq). split_and!; [by eapply edited_steady|congruence|]. intros m'. by rewrite He.
Qed.
(** The path leads to the new node. *)
Lemma resolve_made v v' s s' rt l q c d ty q' : rel s v → rel s' v' → reach v top q → reach v top rt → resolve v rt l q = (- ENOENT, [c], d) → made v v' d (mangle c) ty q' → resolve v' rt l q = (0, [], q').
Proof.
  intros Hr Hr' Rq Rrt Hres (Hed & Hdq & Hq'). destruct (resolve_end cfg v s rt l q _ _ _ Hr Rq Rrt Hres) as (Rd & _ & _ & Hno). destruct (Hno eq_refl) as (Hd & c' & l1 & [= <- <-] & Hc1 & Hc2 & Hent).
  destruct (resolve_last v s rt l q c d _ Hr Rq Rrt Hres) as (l0 & -> & Hl0). rewrite (resolve_app v' rt l0 [c] d q (resolve_grow d _ _ v v' s s' rt l0 Hr Hr' Hed Hent q d Rq Hl0)).
  cbn [VfsWalk.resolve]. rewrite !bool_decide_false by done. destruct (Hed d Rd (grow_reach _ _ _ _ _ _ Hed Hent d Rd)) as [-> He]. by rewrite Hd, He, decide_True.
Qed.

(** What [vfs_open] does when it creates. *)
Lemma open_create_eq ans ans' ans'' nd c flags al s :
  (p ← getn nd s;
   '(err, created_node, s) ← vfs_node_create cfg ans (default None (head al)) (v_fs p) VFS_NODE_FILE s;
   if negb (err =? 0) then s ← vfs_node_refdrop nd s; Ok (err, None, s) else
   created_node ← of_option FUndef created_node;
   '(err, linked_node, s) ← vfs_node_link cfg ans' (default None (head (tail al))) created_node nd c s;
   s ← vfs_node_refdrop nd s; s ← vfs_node_refdrop created_node s;
   if negb (err =? 0) then Ok (err, None, s) else
   node ← of_option FUndef linked_node;
   '(err, file, s) ← vfs_node_open ans'' flags node s; s ← vfs_node_refdrop node s; Ok (err, file, s)) =
  ('(err, node, s) ← make ans ans' nd c VFS_NODE_FILE al s;
   if negb (err =? 0) then Ok (err, None, s) else
   node ← of_option FUndef node;
   '(err, file, s) ← vfs_node_open ans'' flags node s; s ← vfs_node_refdrop node s; Ok (err, file, s)).
Proof.
  unfold make. destruct (getn nd s) as [p|]; [|done]. cbn [mbind outcome_bind]. destruct (vfs_node_create _ _ _ _ _ _) as [[[e1 rn] s1]|]; [|done]. cbn [mbind outcome_bind]. destruct (negb (e1 =? 0)) eqn:E1.
  - destruct (vfs_node_refdrop nd s1); [|done]. cbn [mbind outcome_bind]. by rewrite E1.
  - destruct rn as [rn|]; [|done]. cbn [of_option mbind outcome_bind]. destruct (vfs_node_link _ _ _ _ _ _ _) as [[[e2 ln] s2]|]; [|done]. cbn [mbind outcome_bind]. destruct (vfs_node_refdrop nd s2) as [s3|]; [|done]. cbn [mbind outcome_bind]. by destruct (vfs_node_refdrop rn s3).
Qed.

(** ** What the tree says of a call *)

(** A call fails with an error; it is refused with an error of the file system; it
    finds a node; it succeeds and changes nothing; it makes a node or a link of a file in
    a directory; it removes a node. *)
Inductive verdict :=
  | Fails (e : Z)
  | Refuses
  | Finds (q : nat)
  | Keeps
  | Makes (d : nat) (c : list Z) (ty : vfs_node_type_e)
  | Links (d : nat) (c : list Z) (q : nat)
  | Removes (q : nat).
(** The walk ended at the last component of the path. *)
Definition missing (e : Z) (l : list (list Z)) : option (list Z) := match l with [c] => if e =? - ENOENT then Some c else None | _ => None end.
Definition fits (c : list Z) : bool := (length c <? Ramfs.NAMELEN cfg)%nat.
Definition open_verdict (v : view) (rt : nat) (path : list Z) (flags : Z) (q : nat) : verdict :=
  let '(e, l, d) := resolve v rt (comps path) (start path rt q) in
  if e =? 0 then Finds d else
  match missing e l with
  | Some c => if Z.land flags VFS_OPEN_CREATE =? 0 then Fails e else if fits c then Makes d c VFS_NODE_FILE else Refuses
  | None => Fails e
  end.
Definition create_verdict (v : view) (rt : nat) (path : list Z) (ty : vfs_node_type_e) (q : nat) : verdict :=
  if dots path (last_part path) (last_slash_or_end path) then Fails (- EINVAL) else
  let '(e, l, d) := resolve v rt (comps path) (start path rt q) in
  if e =? 0 then Fails (- Ramfs.EEXISTS) else
  match missing e l with Some c => if fits c then Makes d c ty else Refuses | None => Fails e end.
(** A link to a path that exists succeeds and does nothing. *)
Definition link_verdict (v : view) (rt : nat) (src dst : list Z) (q : nat) : verdict :=
  if dots dst (last_part dst) (last_slash_or_end dst) then Fails (- EINVAL) else
  let '(e, l, d) := resolve v rt (comps dst) (start dst rt q) in
  if e =? 0 then Keeps else
  match missing e l with
  | Some c =>
      let '(e', _, q') := resolve v rt (comps src) (start src rt q) in
      if negb (e' =? 0) then Fails e' else if dirp v q' || negb (fits c) then Refuses else Links d c q'
  | None => Fails e
  end.

Lemma steady_sym v v' : steady top v v' → steady top v' v.
Proof. intros H q Hq. apply (steady_reach top v v' q H) in Hq. destruct (H q Hq) as (? & He & ?). split_and!; [done| |done]. intros m. by rewrite He. Qed.
(** The walk ended before the last component, or found the node. *)
Lemma ended_else v s rt q path e t d alloc : rel s v → reach v top (start path rt q) → reach v top rt → at_token path t →
  (e, comps (drop t path), d) = resolve v rt (comps path) (start path rt q) ∨ e = - ENOMEM ∧ ¬ granted alloc (length (comps path)) →
  (e =? - ENOENT) && (last_part path <=? t)%nat = false → e = - ENOMEM ∧ ¬ granted alloc (length (comps path)) ∨ ∃ l, resolve v rt (comps path) (start path rt q) = (e, l, d) ∧ missing e l = None.
Proof.
  intros Hr Hq Hrt Htok [Hend|?] Ewh; [right|by left]. pose proof (ended_last v s rt q path e t d Hr Hq Hrt Htok Hend) as Hl. rewrite Ewh in Hl. exists (comps (drop t path)). split; [done|]. unfold missing. destruct (comps (drop t path)) as [|c [|]]; try done.
  destruct (Z.eqb_spec e (- ENOENT)) as [->|]; [|done]. destruct Hl as [?|Hl]; [done|]. by destruct Hl.
Qed.

Lemma path_open_spec Fr root rt cwd q path X E C v s ans ans' ans'' flags alloc : good Fr E C v X s → root ∈ E → cwd ∈ E → att C root rt → att C cwd q → 0 ∉ path → Fr ans → answers alloc C → RamfsFile.flag flags VFS_OPEN_TRUNCATE = false →
  ∃ e f s' C' v' q', vfs_open cfg ans ans' ans'' root cwd path flags alloc s = Ok (e, f, s') ∧ good none E C' v' (X ⊎ opened q' f) s' ∧ stays E C C' ∧
    (match open_verdict v rt path flags q with
     | Fails e' => e = e' ∧ e ≠ 0 ∧ f = None ∧ steady top v v'
     | Refuses => e ≠ 0 ∧ f = None ∧ steady top v v'
     | Finds d => e = 0 ∧ steady top v v' ∧ ∃ f', f = Some f' ∧ file_of cfg v' ans'' flags d f'
     | Makes d c ty => e = 0 ∧ made v v' d (mangle c) ty q' ∧ ∃ f', f = Some f' ∧ file_of cfg v' ans'' flags q' f'
     | _ => False
     end ∨
     e ≠ 0 ∧ f = None ∧ ¬ (granted alloc (length (comps path) + 2) ∧ ((Z.land flags VFS_OPEN_CREATE =? 0) = false → gives ans) ∧ gives ans'') ∧
       (steady top v v' ∨ ∃ d c ty, open_verdict v rt path flags q = Makes d c ty ∧ made v v' d (mangle c) ty q')).
Proof.
  intros Hg HrE HcE Hrt Hq Hz Hans Hal Htr. pose proof Hg as [Hs H Ht HE Hm]. pose proof (s_rel _ _ _ _ _ _ _ _ Hs) as Hrel. unfold vfs_open, open_verdict. fold (last_part path).
  destruct (lookup_part_spec cfg vol r0 Fr root rt cwd q path X E C v s alloc Hg HrE HcE Hrt Hq Hal) as (e & t & nd & j & s1 & C1 & v1 & d & -> & Hg1 & K1 & Hd & Hal1 & _ & Hj & Htok & Hend). cbn [mbind outcome_bind].
  pose proof (start_reach cfg r0 C v _ root rt cwd q path H Hrel Hrt Hq) as Rst. pose proof (att_reach cfg r0 C v _ root rt H Hrel Hrt) as Rrt. pose proof (k_tree _ _ _ _ _ _ K1) as T1.
  assert (granted alloc (length (comps path) + 2) → granted (drop j alloc) 2) as Hgr2 by (intros Hgr; eapply granted_mono; [apply (granted_drop alloc j _ Hgr); lia|lia]).
  destruct (((e =? - ENOENT) && (last_part path <=? t)%nat) && negb (Z.land flags VFS_OPEN_CREATE =? 0)) eqn:Ecr.
  - apply andb_true_iff in Ecr as [Ewh Ecr]. apply negb_true_iff in Ecr. destruct Hend as [Hend|[-> _]]; [|done]. rewrite open_create_eq.
    pose proof (ended_last v _ rt q path e t d Hrel Rst Rrt Htok Hend) as Hl. rewrite Ewh in Hl. destruct Hl as (c & Hres & Hc & Hdd & Hent). destruct (resolve_end cfg v _ rt _ _ _ _ _ Hrel Rst Rrt Hres) as (Rd & _). destruct (T1 d Rd) as (Hd1 & He1 & _). rewrite Hc.
    destruct (make_spec Fr E C1 v1 X s1 nd d c ans ans' VFS_NODE_FILE (drop j alloc) Hg1 Hm Hd) as (e2 & r & s2 & C2 & v2 & -> & Hg2 & Hst & Hcase); [congruence|by rewrite He1|rewrite <-Hc; by intros ?%part_elem|done|done|]. cbn [mbind outcome_bind].
    pose proof (stays_trans _ _ _ _ (keeps_stays _ _ _ _ _ K1) Hst) as Hst'. assert (∀ q1, made v1 v2 d (mangle c) VFS_NODE_FILE q1 → made v v2 d (mangle c) VFS_NODE_FILE q1) as Hmade by (intros q1 (Hed & ? & ?); split_and!; try done; by eapply edited_left).
    rewrite Hres. change (- ENOENT =? 0) with false. cbn [missing]. change (- ENOENT =? - ENOENT) with true. cbv iota. rewrite Ecr. unfold fits. destruct r as [n|].
    + destruct Hcase as [(_ & ? & _)|(q1 & Hmk & [-> Hn] & Hlen)]; [done|]. cbn [Z.eqb negb of_option mbind outcome_bind opt] in *. destruct (open_drop none E C2 v2 X s2 n q1 ans'' flags Hg2 Hm Hn Htr) as (e3 & f & s3 & C3 & v3 & -> & K3 & Hf). exists e3, f, s3, C3, v3, q1.
      assert (stays E C C3) as Hst3 by (eapply stays_trans; [done|by eapply keeps_stays]). assert (made v v3 d (mangle c) VFS_NODE_FILE q1) as Hmk3 by (eapply made_steady; [by apply Hmade|done..|by eapply k_tree]). apply Nat.ltb_lt in Hlen. rewrite Hlen.
      destruct f as [f|]; cbn [opened].
      * destruct Hf as (-> & Hf & Hg3). split_and!; try done. left. split_and!; try done. exists f. split; [done|]. eapply file_of_steady; [|done]. by eapply steady_sym, k_tree.
      * rewrite (right_id_L ∅ _). destruct Hf as (? & Hng & Hg3). split_and!; try done. right. split_and!; try done; [tauto|]. right. by exists d, c, VFS_NODE_FILE.
    + assert (e2 ≠ 0) as He2 by (destruct Hcase as [(? & _)|(? & _ & [-> _] & _)]; done). destruct (Z.eqb_spec e2 0); [done|]. cbn [negb opt] in *. rewrite (right_id_L ∅ _) in Hg2. destruct Hcase as [(_ & _ & Hsv & Hwhy)|(q1 & Hmk & [_ Hno] & Hlen)].
      * exists e2, None, s2, C2, v2, d. cbn [opened]. rewrite (right_id_L ∅ _). pose proof (steady_trans _ _ _ _ T1 Hsv) as T2. split_and!; try done. destruct (Nat.ltb_spec (length c) (Ramfs.NAMELEN cfg)); [right|by left]. split_and!; try done; [|by left]. intros (? & ? & _). apply Hwhy. split_and!; auto.
      * exists e2, None, s2, C2, v2, q1. cbn [opened]. rewrite (right_id_L ∅ _). split_and!; try done. right. apply Nat.ltb_lt in Hlen. rewrite Hlen. split_and!; try done; [tauto|]. right. exists d, c, VFS_NODE_FILE. split; [done|]. by apply Hmade.
  - destruct (Z.eqb_spec e 0) as [->|He].
    + destruct Hend as [Hend|[? _]]; [|done]. rewrite <-Hend. cbn [Z.eqb].
      destruct (open_drop Fr E C1 v1 X s1 nd d ans'' flags Hg1 Hm Hd Htr) as (e3 & f & s3 & C3 & v3 & -> & K3 & Hf). exists e3, f, s3, C3, v3, d. pose proof (keeps_trans _ _ _ _ _ _ _ _ K1 K3) as K. pose proof (keeps_stays _ _ _ _ _ K). pose proof (k_tree _ _ _ _ _ _ K).
      destruct f as [f|]; cbn [opened]; [destruct Hf as (-> & Hf & Hg3)|rewrite (right_id_L ∅ _); destruct Hf as (? & Hng & Hg3)]; (split_and!; try done; [destruct Hg3; split; try done; by eapply st_none|]).
      * left. split_and!; try done. exists f. split; [done|]. eapply file_of_steady; [|done]. by eapply steady_sym, k_tree.
      * right. split_and!; try done; [tauto|by left].
    + destruct (good_refdrop cfg vol r0 Fr E C1 v1 X s1 nd Hg1 Hm) as (s2 & C2 & v2 & -> & Hg2 & K2 & _). cbn [mbind outcome_bind]. pose proof (keeps_trans _ _ _ _ _ _ _ _ K1 K2) as K. pose proof (k_tree _ _ _ _ _ _ K) as T2. exists e, None, s2, C2, v2, d. cbn [opened]. rewrite (right_id_L ∅ _).
      split_and!; try done; [destruct Hg2; split; try done; by eapply st_none|by eapply keeps_stays|]. destruct ((e =? - ENOENT) && (last_part path <=? t)%nat) eqn:Ewh.
      * destruct Hend as [Hend|[-> _]]; [|done]. pose proof (ended_last v _ rt q path e t d Hrel Rst Rrt Htok Hend) as Hl. rewrite Ewh in Hl. destruct Hl as (c & Hres & _). apply andb_true_iff in Ewh as [->%Z.eqb_eq _]. cbn [andb] in Ecr. rewrite Hres. apply negb_false_iff in Ecr. left. cbn [missing]. rewrite Ecr. done.
      * destruct (ended_else v _ rt q path e t d alloc Hrel Rst Rrt Htok Hend Ewh) as [[_ Hno]|(l & -> & Hmi)]; [right|left; destruct (Z.eqb_spec e 0); [done|by rewrite Hmi]]. split_and!; try done; [|by left]. intros (Hgr & _). apply Hno. eapply granted_mono; [done|lia].
Qed.

Lemma answers_frame al C C' : answers al C → frame (tail al) C C' → ∀ k, default None (head al) = Some k → attrs C' !! k = None.
Proof.
  intros Hal Hf k Hk. apply Hf; [by eapply answers_head|]. destruct al as [|o al]; [done|]. cbn in *. subst o. destruct Hal as [Hnd _]. cbn in Hnd. inversion Hnd as [|? ? Hno _]; subst. intros Hin. by apply Hno, omap_elem.
Qed.
(** The new link is released, then the directory and the old link. *)
Lemma link_drop E C v X s r nd rn : good none (E ⊎ {[+ nd +]} ⊎ {[+ rn +]} ⊎ opt r) C v X s → (2 <= multiplicity r0 E)%nat →
  ∃ s0 s1 s' C' v', refdrop_opt r s = Ok s0 ∧ vfs_node_refdrop nd s0 = Ok s1 ∧ vfs_node_refdrop rn s1 = Ok s' ∧ good none E C' v' X s' ∧ keeps E C v C' v'.
Proof.
  intros Hg Hm. assert (∃ s0 C0 v0, refdrop_opt r s = Ok s0 ∧ good none (E ⊎ {[+ rn +]} ⊎ {[+ nd +]}) C0 v0 X s0 ∧ keeps E C v C0 v0) as (s0 & C0 & v0 & -> & Hg0 & K0).
  { destruct r as [n|]; cbn [opt refdrop_opt] in *.
    - destruct (good_refdrop cfg vol r0 none _ C v X s n Hg) as (s0 & C0 & v0 & -> & Hg0 & K0 & _); [rewrite !multiplicity_disj_union; lia|]. exists s0, C0, v0. split_and!; [done|by apply good_swap|eapply keeps_sub; [exact K0|]; clear; multiset_solver].
    - rewrite (right_id_L ∅ _) in Hg. exists s, C, v. split_and!; [done|by apply good_swap|apply keeps_refl]. }
  destruct (good_refdrop cfg vol r0 none _ C0 v0 X s0 nd Hg0) as (s1 & C1 & v1 & E1 & Hg1 & K1 & _); [rewrite !multiplicity_disj_union; lia|].
  destruct (good_refdrop cfg vol r0 none _ C1 v1 X s1 rn Hg1 Hm) as (s2 & C2 & v2 & E2 & Hg2 & K2 & _). exists s0, s1, s2, C2, v2. split_and!; try done. eapply keeps_trans; [exact K0|]. eapply keeps_trans; [eapply keeps_sub; [exact K1|apply sub_left]|done].
Qed.

(** The directory has an entry for a new name of the file. *)
Definition linked (v v' : view) (d : nat) (m : list Z) (q : nat) : Prop := ∃ qn, edited top d m (Some qn) v v' ∧ dirp v' qn = dirp v q ∧ ∀ m', ent v' qn m' = None.
Lemma linked_steady v v' v'' d m q : linked v v' d m q → reach v top d → ent v d m = None → steady top v' v'' → linked v v'' d m q.
Proof.
  intros (qn & Hed & Hd & He) Rd Hent T. pose proof (grow_reach _ _ _ _ _ _ Hed Hent _ Rd) as Rd'. assert (reach v' top qn) as Rn. { apply (reach_ent _ _ d m qn Rd'). destruct (Hed _ Rd Rd') as [_ ->]. by rewrite decide_True. }
  destruct (T qn Rn) as (Hd' & He' & _). exists qn. split_and!; [by eapply edited_steady|congruence|]. intros m'. by rewrite He'.
Qed.
(** A node of the tree that is not its root is an entry of a directory. *)
Lemma reach_up v s q : rel s v → reach v top q → up v q = None ∧ q ≠ top → False.
Proof. intros Hr R [Hu Hq]. destruct R as [|d m c Rd Hc]; [done|]. by rewrite (rel_up s v d m c Hr Hc) in Hu. Qed.

Lemma link_spec Fr root rt cwd q src dst X E C v s ans alloc : good Fr E C v X s → root ∈ E → cwd ∈ E → att C root rt → att C cwd q → 0 ∉ dst → Fr ans → answers alloc C →
  ∃ e s' C' v', vfs_link cfg ans root cwd src dst alloc s = Ok (e, s') ∧ good none E C' v' X s' ∧ stays E C C' ∧
    (match link_verdict v rt src dst q with
     | Fails e' => e = e' ∧ e ≠ 0 ∧ steady top v v'
     | Refuses => e ≠ 0 ∧ steady top v v'
     | Keeps => e = 0 ∧ steady top v v'
     | Links d c q' => e = 0 ∧ linked v v' d (mangle c) q'
     | _ => False
     end ∨
     e ≠ 0 ∧ ¬ (granted alloc (length (comps dst) + length (comps src) + 1) ∧ gives ans) ∧
       (steady top v v' ∨ ∃ d c q', link_verdict v rt src dst q = Links d c q' ∧ linked v v' d (mangle c) q')).
Proof.
  intros Hg HrE HcE Hrt Hq Hz Hans Hal. pose proof Hg as [Hs H Ht HE Hm]. pose proof (s_rel _ _ _ _ _ _ _ _ Hs) as Hrel. unfold vfs_link, link_verdict. fold (last_part dst).
  destruct (dots dst (last_part dst) (last_slash_or_end dst)). { exists (- EINVAL), s, C, v. split_and!; try done; [split; try done; by eapply st_none|by intros ??|]. by left. }
  destruct (lookup_part_spec cfg vol r0 Fr root rt cwd q dst X E C v s alloc Hg HrE HcE Hrt Hq Hal) as (e & t & nd & j & s1 & C1 & v1 & d & -> & Hg1 & K1 & Hd & Hal1 & _ & Hj & Htok & Hend). cbn [mbind outcome_bind].
  pose proof (λ path, start_reach cfg r0 C v _ root rt cwd q path H Hrel Hrt Hq) as Rst. pose proof (att_reach cfg r0 C v _ root rt H Hrel Hrt) as Rrt. pose proof (k_tree _ _ _ _ _ _ K1) as T1.
  assert (∀ C1 v1 s1, good Fr (E ⊎ {[+ nd +]}) C1 v1 X s1 → keeps E C v C1 v1 → ∃ s' C' v', vfs_node_refdrop nd s1 = Ok s' ∧ good none E C' v' X s' ∧ stays E C C' ∧ steady top v v') as Hstop.
  { intros C2 v2 s2 Hg2 K2. destruct (good_refdrop cfg vol r0 Fr E C2 v2 X s2 nd Hg2 Hm) as (s3 & C3 & v3 & -> & Hg3 & K3 & _). pose proof (keeps_trans _ _ _ _ _ _ _ _ K2 K3) as K. exists s3, C3, v3. split_and!; try done; [destruct Hg3; split; try done; by eapply st_none|by eapply keeps_stays|by eapply k_tree]. }
  destruct ((e =? - ENOENT) && (last_part dst <=? t)%nat) eqn:Ewh; cbn [negb].
  2:{ destruct (Hstop C1 v1 s1 Hg1 K1) as (s2 & C2 & v2 & -> & Hg2 & Hst & T2). cbn [mbind outcome_bind]. exists e, s2, C2, v2. split_and!; try done. destruct (ended_else v _ rt q dst e t d alloc Hrel (Rst dst) Rrt Htok Hend Ewh) as [[-> Hno]|(l & -> & Hmi)]; [right|left; destruct (Z.eqb_spec e 0); [done|by rewrite Hmi]].
      split_and!; try done; [|by left]. intros [Hgr _]. apply Hno. eapply granted_mono; [done|lia]. }
  destruct Hend as [Hend|[-> _]]; [|done]. pose proof (ended_last v _ rt q dst e t d Hrel (Rst dst) Rrt Htok Hend) as Hl. rewrite Ewh in Hl. destruct Hl as (c & Hres & Hc & Hdd & Hent). rewrite Hc, Hres. change (- ENOENT =? 0) with false. cbn [missing]. change (- ENOENT =? - ENOENT) with true. cbv iota.
  assert (granted alloc (length (comps dst) + length (comps src) + 1) → granted (drop j alloc) (Datatypes.S (length (comps src)))) as Hgr1 by (intros Hgr; eapply granted_mono; [apply (granted_drop alloc j _ Hgr); lia|lia]).
  destruct (path_lookup_spec cfg vol r0 Fr root rt cwd q src X (E ⊎ {[+ nd +]}) C1 v1 s1 (tail (drop j alloc)) Hg1) as (e2 & r & s2 & C2 & v2 & -> & Hg2 & K2 & Hf2 & Hsrc); [by apply in_left|by apply in_left|by eapply att_keeps..|by eapply (answers_within _ C1)|]. cbn [mbind outcome_bind].
  rewrite (resolve_steady cfg v v1 _ rt _ _ Hrel T1 (Rst src) Rrt) in Hsrc. pose proof (keeps_trans _ _ _ _ _ _ _ _ K1 (keeps_sub cfg _ _ _ _ _ _ K2 (sub_left _ _))) as K12. pose proof (k_tree _ _ _ _ _ _ K12) as T2. destruct r as [rn|].
  2:{ assert (e2 ≠ 0) as He by (destruct Hsrc as [(l & q' & _ & ?)|[-> _]]; done). destruct (Z.eqb_spec e2 0); [done|]. cbn [negb opt] in *. rewrite (right_id_L ∅ _) in Hg2. destruct (Hstop C2 v2 s2 Hg2 K12) as (s3 & C3 & v3 & -> & Hg3 & Hst & T3). cbn [mbind outcome_bind]. exists e2, s3, C3, v3. split_and!; try done.
      destruct Hsrc as [(l & q' & -> & _)|(-> & _ & Hno)]; [left; by destruct (Z.eqb_spec e2 0)|right]. split_and!; try done; [|by left]. intros [Hgr _]. by apply Hno, granted_tail, Hgr1. }
  destruct Hsrc as [(l & q' & Er & -> & Hn)|(_ & ? & _)]; [|done]. rewrite Er. cbn [Z.eqb negb of_option mbind outcome_bind opt] in *. destruct (resolve_end cfg v _ rt _ _ _ _ _ Hrel (Rst src) Rrt Er) as (Rq & _).
  destruct (resolve_end cfg v _ rt _ _ _ _ _ Hrel (Rst dst) Rrt Hres) as (Rd & _). destruct (T2 d Rd) as (Hd2 & He2 & _). destruct (T2 q' Rq) as (Hdq & _).
  destruct Hn as (an & Han & Hpn & <-). destruct (att_keeps _ _ _ _ _ _ _ _ K2 (in_plus _ _) Hd) as (ap & Hap & Hpp & <-). pose proof Hg2 as [Hs2 H2 _ HE2 _]. pose proof (reach_up v2 _ (a_fsn an) (s_rel _ _ _ _ _ _ _ _ Hs2) (proj2 (steady_reach _ _ _ _ T2) Rq)) as Hup.
  destruct (node_link_spec cfg vol r0 Fr C2 v2 X _ s2 ans (default None (head (drop j alloc))) rn an nd ap c Hs2 H2 Ht HE2) as (e3 & r & s3 & C3 & v3 & -> & Hs3 & H3 & HE3 & _ & Hcase); [rewrite !multiplicity_disj_union; lia|apply in_plus|done|apply in_left, in_plus|done|done|rewrite <-Hc; by intros ?%part_elem|intros o; rewrite He2, Hent; done|by eapply answers_frame|]. cbn [mbind outcome_bind].
  assert (good none (E ⊎ {[+ nd +]} ⊎ {[+ rn +]} ⊎ opt r) C3 v3 X s3) as Hg3 by (split; try done; rewrite !multiplicity_disj_union; lia). destruct (link_drop E C3 v3 X s3 r nd rn Hg3 Hm) as (s4 & s5 & s6 & C6 & v6 & E4 & E5 & E6 & Hg6 & K6). pose proof (k_tree _ _ _ _ _ _ K6) as T6.
  assert ((if e3 =? 0 then n ← of_option FUndef r; vfs_node_refdrop n s3 else Ok s3) = Ok s4) as ->.
  { destruct Hcase as [(He3 & -> & _)|(qn & _ & _ & _ & _ & _ & _ & _ & Hr & _)]; [by destruct (Z.eqb_spec e3 0)|]. destruct r; [by destruct Hr as (-> & _)|by destruct Hr as (-> & _)]. }
  cbn [mbind outcome_bind]. rewrite E5. cbn [mbind outcome_bind]. rewrite E6. cbn [mbind outcome_bind]. exists e3, s6, C6, v6. assert (E ⊆ E ⊎ {[+ nd +]} ⊎ {[+ rn +]}) as Hsub by (clear; multiset_solver). split_and!; try done.
  - eapply stays_trans; [by eapply keeps_stays|]. eapply stays_trans; [|by eapply keeps_stays]. destruct Hcase as [(_ & _ & K3 & _)|(qn & _ & _ & Hch & _)]; [eapply keeps_stays, keeps_sub; [exact K3|done]|].
    intros x y Hx Hxy. apply (changed_stays _ nd ap (mangle c) C2 v2 C3 x y H2 Hch Hap); [by eapply gmultiset_elem_of_subseteq|done|]. by rewrite He2, Hent.
  - unfold fits. rewrite <-Hdq. destruct Hcase as [(He3 & _ & K3 & Hwhy)|(qn & _ & _ & _ & _ & Hed & Hdn & Hne & Hr & Hlen & Hnew)].
    + assert (steady top v v6) as T by (eapply steady_trans; [exact T2|]; eapply steady_trans; by eapply k_tree). destruct (dirp v2 (a_fsn an)) eqn:Edn; [by left|]. destruct (Nat.ltb_spec (length c) (Ramfs.NAMELEN cfg)); [|by left]. right. split_and!; try done; [|by left]. intros [_ Hgv]. apply Hwhy. split_and!; try done; [congruence|by right].
    + destruct Hnew as [?|Edn]; [by destruct Hup|]. apply Nat.ltb_lt in Hlen. rewrite Edn, Hlen. cbn [orb negb]. assert (linked v v6 (a_fsn ap) (mangle c) (a_fsn an)) as Hlk by (eapply linked_steady; [exists qn; split_and!; [by eapply edited_left|congruence|done]|done..]).
      destruct r as [n|]; [left; by destruct Hr as (-> & _)|right]. destruct Hr as [-> Hno]. split_and!; try done; [|right; by exists (a_fsn ap), c, (a_fsn an)]. intros [Hgr _]. specialize (Hgr1 Hgr 0%nat ltac:(lia)). by destruct (drop j alloc).
Qed.
End api.
End VfsApi.
