(* ===== verification/VfsCalls.v ===== *)
(** * The virtual file system: what its users get

    The operations on paths, alone and in sequence, refine operations on the tree of
    the file system. *)

From stdpp Require Import gmap gmultiset.
From S2P Require Import Prelude FileOps RamfsFile Ramfs Vfs VfsSpec VfsOps VfsNodes VfsPath VfsWalk VfsApi.
Import FileOps Vfs VfsSpec VfsOps VfsNodes VfsPath VfsWalk VfsApi.

Module VfsCalls.

(** ** Calls *)

(** The calls of a process whose root is the root of the volume; [cwd]: its working
    directory. *)
Inductive call (A : Type) :=
  | CLookup (cwd : nat) (path : list Z) (alloc : list (option nat))
  | CCreate (ans ans' : A) (cwd : nat) (path : list Z) (ty : vfs_node_type_e) (alloc : list (option nat))
  | COpen (ans ans' ans'' : A) (cwd : nat) (path : list Z) (flags : Z) (alloc : list (option nat))
  | CStat (cwd : nat) (path : list Z) (alloc : list (option nat))
  | CLink (ans : A) (cwd : nat) (src dst : list Z) (alloc : list (option nat))
  | CUnlink (cwd : nat) (path : list Z) (alloc : list (option nat))
  | CDrop (n : nat).
(** What the caller gets: a reference to a node, a file, the attributes of a node. *)
Inductive result (F : Type) := RNone | RNode (n : nat) | RFile (f : F) | RStat (t : vfs_stat_s).
Arguments RNone {F}. Arguments RNode {F}. Arguments RFile {F}. Arguments RStat {F}.
Definition given {F X : Type} (mk : X → result F) (o : option X) : result F := if o is Some x then mk x else RNone.
Definition node_of {F : Type} (r : result F) : option nat := if r is RNode n then Some n else None.
Arguments CLookup {A}. Arguments CCreate {A}. Arguments COpen {A}. Arguments CStat {A}. Arguments CLink {A}. Arguments CUnlink {A}. Arguments CDrop {A}.

#[export] Instance granted_dec alloc n : Decision (granted alloc n).
Proof.
  refine (cast_if (decide (Forall (λ i, default None (alloc !! i) ≠ None) (seq 0 n)))).
  - abstract (intros i Hi; eapply (Forall_forall (λ i, default None (alloc !! i) ≠ None)); [done|]; apply elem_of_seq; lia).
  - abstract (intros Hgr; by destruct n0; apply Forall_forall; intros i [_ Hi]%elem_of_seq; apply Hgr).
Defined.

Section calls.
Context {A F S : Type} `{ops : !FsOps A F S} (cfg : config).
Abbreviation vfs := (vfs S).

(** The error and what the caller gets. *)
Definition run_call (r0 : nat) (c : call A) (s : vfs) : outcome (Z * result F * vfs) :=
  match c with
  | CLookup cwd path alloc => '(e, n, s) ← vfs_lookup cfg r0 cwd path alloc s; Ok (e, given RNode n, s)
  | CCreate ans ans' cwd path ty alloc => '(e, n, s) ← vfs_create cfg ans ans' r0 cwd path ty alloc s; Ok (e, given RNode n, s)
  | COpen ans ans' ans'' cwd path flags alloc => '(e, f, s) ← vfs_open cfg ans ans' ans'' r0 cwd path flags alloc s; Ok (e, given RFile f, s)
  | CStat cwd path alloc => '(e, t, s) ← vfs_stat cfg r0 cwd path alloc s; Ok (e, given RStat t, s)
  | CLink ans cwd src dst alloc => '(e, s) ← vfs_link cfg ans r0 cwd src dst alloc s; Ok (e, RNone, s)
  | CUnlink cwd path alloc => '(e, s) ← vfs_unlink cfg r0 cwd path alloc s; Ok (e, RNone, s)
  | CDrop n => s ← vfs_node_refdrop n s; Ok (0, RNone, s)
  end.
Fixpoint run_calls (r0 : nat) (cs : list (call A)) (s : vfs) : outcome (list (Z * result F) * vfs) :=
  match cs with
  | [] => Ok ([], s)
  | c :: cs => '(e, r, s) ← run_call r0 c s; '(es, s) ← run_calls r0 cs s; Ok ((e, r) :: es, s)
  end.

(** The references of the process after a call. *)
Definition owned (c : call A) (r : result F) (E : gmultiset nat) : gmultiset nat := match c with CDrop n => E ∖ {[+ n +]} | _ => E ⊎ opt (node_of r) end.

Context `{laws : !FsLaws A F S cfg}.
Abbreviation resolve := (resolve cfg).
Abbreviation mangle := (vfs_name_mangle cfg).

(** A working directory the process refers to and that is still in the tree. *)
Definition usable (r0 : nat) (E : gmultiset nat) (s : vfs) (n : nat) : Prop := (n = r0 ∨ n ∈ E) ∧ ∃ x, vnodes s !! n = Some x ∧ v_parent x ≠ None.
(** Addresses that are not in use. *)
Definition unused (s : vfs) (alloc : list (option nat)) : Prop := NoDup (omap id alloc) ∧ ∀ k, Some k ∈ alloc → vnodes s !! k = None.
Definition legal_call (r0 : nat) (E : gmultiset nat) (c : call A) (s : vfs) : Prop :=
  match c with
  | CLookup cwd _ alloc | CStat cwd _ alloc | CUnlink cwd _ alloc => usable r0 E s cwd ∧ unused s alloc
  | CCreate ans _ cwd path _ alloc => usable r0 E s cwd ∧ unused s alloc ∧ 0 ∉ path ∧ fresh ans (under s)
  | COpen ans _ _ cwd path flags alloc => usable r0 E s cwd ∧ unused s alloc ∧ 0 ∉ path ∧ fresh ans (under s) ∧ RamfsFile.flag flags VFS_OPEN_TRUNCATE = false
  | CLink ans cwd _ dst alloc => usable r0 E s cwd ∧ unused s alloc ∧ 0 ∉ dst ∧ fresh ans (under s)
  | CDrop n => n ∈ E
  end.
Fixpoint legal (r0 : nat) (E : gmultiset nat) (cs : list (call A)) (s : vfs) : Prop :=
  match cs with
  | [] => True
  | c :: cs => legal_call r0 E c s ∧ ∀ e r s', run_call r0 c s = Ok (e, r, s') → legal r0 (owned c r E) cs s'
  end.

(** ** The tree machine *)

(** The node of the file system that the working directory stands for. *)
Definition cwd_node (s : vfs) (cwd : nat) : nat := default top (v_fs_node <$> vnodes s !! cwd).
Definition leads (s : vfs) (v : view) (cwd : nat) (path : list Z) : Z * list (list Z) * nat := resolve v top (comps path) (start path top (cwd_node s cwd)).
(** What the tree says of a call. *)
Definition decides (s : vfs) (v : view) (c : call A) : verdict :=
  match c with
  | CLookup cwd path _ | CStat cwd path _ => let '(e, _, q) := leads s v cwd path in if e =? 0 then Finds q else Fails e
  | CCreate _ _ cwd path ty _ => create_verdict cfg v top path ty (cwd_node s cwd)
  | COpen _ _ _ cwd path flags _ => open_verdict cfg v top path flags (cwd_node s cwd)
  | CLink _ cwd src dst _ => link_verdict cfg v top src dst (cwd_node s cwd)
  | CUnlink cwd path _ => let '(e, _, q) := leads s v cwd path in if negb (e =? 0) then Fails e else if (q =? top)%nat then Fails (- EBUSY) else Removes q
  | CDrop _ => Keeps
  end.
(** The caller gets what it asked for of the node [q] of the tree: a node of the cache
    that stands for it, the file the file system opened on it, its attributes. *)
Definition gets (s' : vfs) (v' : view) (c : call A) (q : nat) (r : result F) : Prop :=
  match c, r with
  | CLookup _ _ _, RNode n | CCreate _ _ _ _ _ _, RNode n => ∃ x, vnodes s' !! n = Some x ∧ v_parent x ≠ None ∧ v_fs_node x = q
  | COpen _ _ ans'' _ _ flags _, RFile f => file_of cfg v' ans'' flags q f
  | CStat _ _ _, RStat t => stat_of cfg v' q t
  | _, _ => False
  end.
(** The call does what the tree says. *)
Definition obeys (s' : vfs) (v v' : view) (c : call A) (d : verdict) (e : Z) (r : result F) : Prop :=
  match d with
  | Fails e' => e = e' ∧ e ≠ 0 ∧ r = RNone ∧ steady top v v'
  | Refuses => e ≠ 0 ∧ r = RNone ∧ steady top v v'
  | Finds q => e = 0 ∧ steady top v v' ∧ gets s' v' c q r
  | Keeps => e = 0 ∧ r = RNone ∧ steady top v v'
  | Makes d m ty => e = 0 ∧ ∃ q, made cfg v v' d (mangle m) ty q ∧ gets s' v' c q r
  | Links d m q => e = 0 ∧ r = RNone ∧ linked cfg v v' d (mangle m) q
  | Removes q => r = RNone ∧ (e ≠ 0 ∧ (∃ m x, ent v q m = Some x) ∧ steady top v v' ∨ e = 0 ∧ (∀ m, ent v q m = None) ∧ ∃ d m, ent v d m = Some q ∧ edited top d m None v v')
  end.
(** The memory a call may ask for is granted. *)
Definition supplied (c : call A) : Prop :=
  match c with
  | CLookup _ path alloc | CStat _ path alloc | CUnlink _ path alloc => granted alloc (length (comps path))
  | CCreate ans _ _ path _ alloc => granted alloc (length (comps path) + 2) ∧ gives ans
  | COpen ans _ ans'' _ path flags alloc => granted alloc (length (comps path) + 2) ∧ ((Z.land flags VFS_OPEN_CREATE =? 0) = false → gives ans) ∧ gives ans''
  | CLink ans _ src dst alloc => granted alloc (length (comps dst) + length (comps src) + 1) ∧ gives ans
  | CDrop _ => True
  end.
(** What a call may do that runs out of memory: the entry may be there already. *)
Definition gives_up (v v' : view) (d : verdict) (e : Z) (r : result F) : Prop :=
  e ≠ 0 ∧ r = RNone ∧ (steady top v v' ∨ match d with Makes d m ty => ∃ q, made cfg v v' d (mangle m) ty q | Links d m q => linked cfg v v' d (mangle m) q | _ => False end).
Definition explains (s : vfs) (v : view) (c : call A) (e : Z) (r : result F) (s' : vfs) (v' : view) : Prop :=
  obeys s' v v' c (decides s v c) e r ∨ ¬ supplied c ∧ gives_up v v' (decides s v c) e r.
Fixpoint explained (r0 : nat) (s : vfs) (v : view) (cs : list (call A)) (es : list (Z * result F)) (s' : vfs) (v' : view) : Prop :=
  match cs, es with
  | [], [] => s' = s ∧ v' = v
  | c :: cs, (e, r) :: es => ∃ s1 v1, run_call r0 c s = Ok (e, r, s1) ∧ explains s v c e r s1 v1 ∧ explained r0 s1 v1 cs es s' v'
  | _, _ => False
  end.

(** ** One call *)

Context (vol r0 : nat).
Abbreviation good := (good cfg vol r0).
Definition base : gmultiset nat := {[+ r0 +]} ⊎ {[+ r0 +]}.

Lemma base_root E : r0 ∈ base ⊎ E.
Proof. apply gmultiset_elem_of_disj_union. left. apply in_plus. Qed.
Lemma good_fresh Fr Fr' E C v X s : good Fr E C v X s → (∀ a, Fr' a → fresh a (under s)) → good Fr' E C v X s.
Proof. intros [Hs H1 H2 H3 H4] Hf. split; try done. by eapply st_fresh. Qed.
Lemma root_att C v : coh cfg r0 C v → att C r0 top.
Proof. intros H. destruct (h_root _ _ _ _ H) as (a & Ha & Hp & Hq). exists a. split_and!; [done|by rewrite Hp|done]. Qed.
Lemma usable_att Fr E C v X s n : good Fr (base ⊎ E) C v X s → usable r0 E s n → n ∈ base ⊎ E ∧ att C n (default top (v_fs_node <$> vnodes s !! n)).
Proof.
  intros [Hs _ _ _ _] [Hn (x & Hx & Hp)]. split; [destruct Hn as [->|Hn]; [apply base_root|apply gmultiset_elem_of_disj_union; by right]|]. rewrite Hx. cbn.
  pose proof (c_nodes _ _ _ _ _ (s_core _ _ _ _ _ _ _ _ Hs) n) as Hc. rewrite Hx in Hc. destruct (attrs C !! n) as [a|] eqn:Ea; [|done]. exists a. split_and!; [done|by rewrite <-(n_parent _ _ _ _ _ _ _ Hc)|by rewrite (n_fsn _ _ _ _ _ _ _ Hc)].
Qed.
Lemma unused_answers Fr E C v X s alloc : good Fr E C v X s → unused s alloc → answers alloc C.
Proof.
  intros [Hs _ _ _ _] [Hnd Hn]. split; [done|]. intros k Hk. pose proof (c_nodes _ _ _ _ _ (s_core _ _ _ _ _ _ _ _ Hs) k) as Hc. rewrite (Hn k Hk) in Hc. by destruct (attrs C !! k).
Qed.

Lemma att_gets Fr E C v X s n q : good Fr E C v X s → att C n q → ∃ x, vnodes s !! n = Some x ∧ v_parent x ≠ None ∧ v_fs_node x = q.
Proof.
  intros [Hs _ _ _ _] (a & Ha & Hp & <-). pose proof (c_nodes _ _ _ _ _ (s_core _ _ _ _ _ _ _ _ Hs) n) as Hc. rewrite Ha in Hc. destruct (vnodes s !! n) as [x|]; [|done]. exists x. split_and!; [done|by rewrite (n_parent _ _ _ _ _ _ _ Hc)|by apply (n_fsn _ _ _ _ _ _ _ Hc)].
Qed.
Lemma stat_of_steady v v' s q t : rel s v → steady top v v' → reach v top q → stat_of cfg v q t → stat_of cfg v' q t.
Proof.
  intros Hr T R (u & v0 & u' & ? & ? & ? & Hty). exists u, v0, u'. destruct (T q R) as (-> & _). split_and!; try done. eapply steady_trans; [by apply steady_sym|done].
Qed.

Lemma short_of_memory s v c e s' v' : ¬ supplied c → e ≠ 0 → steady top v v' → explains s v c e RNone s' v'.
Proof. intros Hno He T. right. split; [done|]. split_and!; try done. by left. Qed.
Lemma stopped_short s v c e s' v' d : decides s v c = d → ¬ supplied c → e ≠ 0 → match d with Makes d m ty => ∃ q, made cfg v v' d (mangle m) ty q | Links d m q => linked cfg v v' d (mangle m) q | _ => False end → explains s v c e RNone s' v'.
Proof. intros <- Hno He H. right. split; [done|]. split_and!; try done. by right. Qed.

Section one.
Context (E : gmultiset nat) (C : cache) (v : view) (X : gmultiset nat) (s : vfs).
Hypothesis Hg : good none (base ⊎ E) C v X s.
Abbreviation runs c := (∃ e r s' C' v' X', run_call r0 c s = Ok (e, r, s') ∧ good none (base ⊎ owned c r E) C' v' X' s' ∧ explains s v c e r s' v').

Lemma owned_opt r : base ⊎ (E ⊎ opt r) = base ⊎ E ⊎ opt r.
Proof. by rewrite (assoc_L (⊎)). Qed.
Lemma owned_none : base ⊎ (E ⊎ ∅) = base ⊎ E.
Proof. by rewrite (right_id_L ∅ (⊎)). Qed.
Lemma with_fresh ans : fresh ans (under s) → good (λ a, a = ans) (base ⊎ E) C v X s.
Proof. intros Ha. eapply good_fresh; [done|by intros ? ->]. Qed.

Lemma lookup_call cwd path alloc : usable r0 E s cwd → unused s alloc → runs (CLookup cwd path alloc).
Proof.
  intros Hu Hal. destruct (usable_att none E C v X s cwd Hg Hu) as [Hc Ha]. destruct (path_lookup_spec cfg vol r0 none r0 top cwd _ path X _ C v s alloc Hg (base_root E) Hc (root_att C v (g_coh _ _ _ _ _ _ _ _ _ Hg)) Ha (unused_answers _ _ _ _ _ _ _ Hg Hal)) as (e & r & s' & C' & v' & Er & Hg' & K & _ & Hres).
  exists e, (given RNode r), s', C', v', X. cbn [run_call owned]. rewrite Er. cbn [mbind outcome_bind]. replace (node_of (given RNode r)) with r by (by destruct r). rewrite owned_opt. split_and!; try done. pose proof (k_tree _ _ _ _ _ _ K) as T.
  destruct Hres as [(l & q & Hl & Hr)|(-> & -> & Hno)]; [left|by apply short_of_memory]. cbn [decides]. unfold leads, cwd_node. rewrite Hl. destruct r as [n|]; [destruct Hr as [-> Hn]|by destruct (Z.eqb_spec e 0)]. cbn. split_and!; try done. by eapply att_gets.
Qed.
Lemma stat_call cwd path alloc : usable r0 E s cwd → unused s alloc → runs (CStat cwd path alloc).
Proof.
  intros Hu Hal. destruct (usable_att none E C v X s cwd Hg Hu) as [Hc Ha]. pose proof (g_coh _ _ _ _ _ _ _ _ _ Hg) as H. pose proof (s_rel _ _ _ _ _ _ _ _ (g_st _ _ _ _ _ _ _ _ _ Hg)) as Hrel. pose proof (root_att C v H) as Hr0.
  destruct (stat_spec cfg vol r0 none r0 top cwd _ path X _ C v s alloc Hg (base_root E) Hc Hr0 Ha (unused_answers _ _ _ _ _ _ _ Hg Hal)) as (e & r & s' & C' & v' & Er & Hg' & K & Hres).
  exists e, (given RStat r), s', C', v', X. cbn [run_call owned]. rewrite Er. cbn [mbind outcome_bind]. replace (node_of (given RStat r)) with (@None nat) by (by destruct r). cbn [opt]. rewrite owned_none. split_and!; try done. pose proof (k_tree _ _ _ _ _ _ K) as T.
  destruct Hres as [(l & q & Hl & Hr)|(-> & -> & Hno)]; [left|by apply short_of_memory]. cbn [decides]. unfold leads, cwd_node. rewrite Hl. destruct r as [t|]; [destruct Hr as [-> Ht]|by destruct (Z.eqb_spec e 0)]. cbn. split_and!; try done.
  destruct (resolve_end cfg v _ top _ _ _ _ _ Hrel (start_reach cfg r0 C v _ r0 top cwd _ path H Hrel Hr0 Ha) (att_reach cfg r0 C v _ r0 top H Hrel Hr0) Hl) as (Rq & _). by eapply stat_of_steady.
Qed.
(** The error of a creation, in the tree. *)
Lemma create_code_verdict path q ty :
  match create_code cfg v top path q with
  | Some e => create_verdict cfg v top path ty q = Fails e
  | None => ∃ c d, resolve v top (comps path) (start path top q) = (- ENOENT, [c], d) ∧ create_verdict cfg v top path ty q = if fits cfg c then Makes d c ty else Refuses
  end.
Proof.
  unfold create_code, create_verdict, missing. destruct (resolve v top (comps path) (start path top q)) as [[e l] d]. destruct (dots _ _ _); [done|]. destruct (Z.eqb_spec e 0); [done|]. destruct (Z.eqb_spec e (- ENOENT)) as [->|]; cbn [andb]; [|by destruct l as [|? [|]]]. destruct l as [|c [|]]; try done. by exists c, d.
Qed.
Lemma create_call ans ans' cwd path ty alloc : usable r0 E s cwd → unused s alloc → 0 ∉ path → fresh ans (under s) → runs (CCreate ans ans' cwd path ty alloc).
Proof.
  intros Hu Hal Hz Hf. destruct (usable_att none E C v X s cwd Hg Hu) as [Hc Ha]. pose proof (g_coh _ _ _ _ _ _ _ _ _ Hg) as H. pose proof (s_rel _ _ _ _ _ _ _ _ (g_st _ _ _ _ _ _ _ _ _ Hg)) as Hrel. pose proof (root_att C v H) as Hr0.
  destruct (create_spec cfg vol r0 _ r0 top cwd _ path X _ C v s ans ans' ty alloc (with_fresh ans Hf) (base_root E) Hc Hr0 Ha Hz eq_refl (unused_answers _ _ _ _ _ _ _ Hg Hal)) as (e & r & s' & C' & v' & Er & Hg' & _ & Hres).
  exists e, (given RNode r), s', C', v', X. cbn [run_call owned]. rewrite Er. cbn [mbind outcome_bind]. replace (node_of (given RNode r)) with r by (by destruct r). rewrite owned_opt. split_and!; try done. pose proof (create_code_verdict path (cwd_node s cwd) ty) as Hv. unfold cwd_node in Hv.
  destruct Hres as [(He & -> & T & Hwhy)|(m & d & q & Ecc & Hl & Hn & Hmk & Hr & Hlen)].
  - destruct (decide (granted alloc (length (comps path) + 2))) as [Hgr|Hgr]; [|apply short_of_memory; try done; cbn; tauto]. specialize (Hwhy Hgr). destruct (create_code _ _ _ _ _) as [e'|]; [left; cbn [decides]; unfold cwd_node; by rewrite Hv|]. destruct Hv as (c & d & Hl & Hv).
    destruct (resolve_end cfg v _ top _ _ _ _ _ Hrel (start_reach cfg r0 C v _ r0 top cwd _ path H Hrel Hr0 Ha) (att_reach cfg r0 C v _ r0 top H Hrel Hr0) Hl) as (_ & [l0 El] & _). unfold fits in Hv. destruct (Nat.ltb_spec (length c) (Ramfs.NAMELEN cfg)).
    + apply short_of_memory; try done. intros [_ Hgv]. apply Hwhy. split; [done|]. intros c'. rewrite El, last_snoc. by intros [= <-].
    + left. cbn [decides]. unfold cwd_node. by rewrite Hv.
  - rewrite Ecc in Hv. destruct Hv as (c & d' & Hl' & Hv). rewrite Hl in Hl'. injection Hl' as <- <-. unfold fits in Hv. apply Nat.ltb_lt in Hlen. rewrite Hlen in Hv. destruct r as [n|].
    + destruct Hr as [-> Hn']. left. cbn [decides]. unfold cwd_node. rewrite Hv. cbn. split; [done|]. exists q. split; [done|]. by eapply att_gets.
    + destruct Hr as [-> Hgr]. apply (stopped_short _ _ _ _ _ _ (Makes d m ty)); [done|cbn; tauto|done|]. by exists q.
Qed.
Lemma open_call ans ans' ans'' cwd path flags alloc : usable r0 E s cwd → unused s alloc → 0 ∉ path → fresh ans (under s) → RamfsFile.flag flags VFS_OPEN_TRUNCATE = false → runs (COpen ans ans' ans'' cwd path flags alloc).
Proof.
  intros Hu Hal Hz Hf Htr. destruct (usable_att none E C v X s cwd Hg Hu) as [Hc Ha]. destruct (path_open_spec cfg vol r0 _ r0 top cwd _ path X _ C v s ans ans' ans'' flags alloc (with_fresh ans Hf) (base_root E) Hc (root_att C v (g_coh _ _ _ _ _ _ _ _ _ Hg)) Ha Hz eq_refl (unused_answers _ _ _ _ _ _ _ Hg Hal) Htr) as (e & f & s' & C' & v' & q & Er & Hg' & _ & Hres).
  exists e, (given RFile f), s', C', v', (X ⊎ opened q f). cbn [run_call owned]. rewrite Er. cbn [mbind outcome_bind]. replace (node_of (given RFile f)) with (@None nat) by (by destruct f). cbn [opt]. rewrite owned_none. split_and!; try done.
  destruct Hres as [Hres|(He & -> & Hno & [T|(d & c & ty & Hv & Hmk)])]; [left|by apply short_of_memory|]; [|by apply (stopped_short _ _ _ _ _ _ (Makes d c ty)); [..|exists q]]. cbn [decides]. unfold cwd_node. destruct (open_verdict _ _ _ _ _ _); cbn; try done.
  - destruct Hres as (? & ? & -> & ?). done.
  - destruct Hres as (? & -> & ?). done.
  - destruct Hres as (? & ? & f' & -> & ?). done.
  - destruct Hres as (? & ? & f' & -> & ?). split; [done|]. by exists q.
Qed.
Lemma link_call ans cwd src dst alloc : usable r0 E s cwd → unused s alloc → 0 ∉ dst → fresh ans (under s) → runs (CLink ans cwd src dst alloc).
Proof.
  intros Hu Hal Hz Hf. destruct (usable_att none E C v X s cwd Hg Hu) as [Hc Ha]. destruct (link_spec cfg vol r0 _ r0 top cwd _ src dst X _ C v s ans alloc (with_fresh ans Hf) (base_root E) Hc (root_att C v (g_coh _ _ _ _ _ _ _ _ _ Hg)) Ha Hz eq_refl (unused_answers _ _ _ _ _ _ _ Hg Hal)) as (e & s' & C' & v' & Er & Hg' & _ & Hres).
  exists e, RNone, s', C', v', X. cbn [run_call owned node_of opt]. rewrite Er. cbn [mbind outcome_bind]. rewrite owned_none. split_and!; try done.
  destruct Hres as [Hres|(He & Hno & [T|(d & c & q & Hv & Hlk)])]; [left|by apply short_of_memory|by apply (stopped_short _ _ _ _ _ _ (Links d c q))]. cbn [decides]. unfold cwd_node. destruct (link_verdict _ _ _ _ _ _); cbn; naive_solver.
Qed.
Lemma unlink_call cwd path alloc : usable r0 E s cwd → unused s alloc → runs (CUnlink cwd path alloc).
Proof.
  intros Hu Hal. destruct (usable_att none E C v X s cwd Hg Hu) as [Hc Ha]. destruct (unlink_spec cfg vol r0 none r0 top cwd _ path X _ C v s alloc Hg (base_root E) Hc (root_att C v (g_coh _ _ _ _ _ _ _ _ _ Hg)) Ha (unused_answers _ _ _ _ _ _ _ Hg Hal)) as (e & s' & C' & v' & Er & Hg' & Hres).
  exists e, RNone, s', C', v', X. cbn [run_call owned node_of opt]. rewrite Er. cbn [mbind outcome_bind]. rewrite owned_none. split_and!; try done.
  destruct Hres as [(He & T & _ & Hwhy)|(-> & q & d & m & Hl & Hq & Hm & Hemp & Hed & _)].
  - destruct (decide (granted alloc (length (comps path)))) as [Hgr|]; [|by apply short_of_memory]. specialize (Hwhy Hgr). left. cbn [decides]. unfold leads, cwd_node. destruct (resolve _ _ _ _) as [[e' l] q]. destruct (Z.eqb_spec e' 0); cbn [negb]; [|by subst e'].
    destruct Hwhy as [[-> ->]|[Hq Hent]]; [by rewrite Nat.eqb_refl|]. destruct (Nat.eqb_spec q top); [done|]. split; [done|]. by left.
  - left. cbn [decides]. unfold leads, cwd_node. rewrite Hl. cbn [Z.eqb negb]. destruct (Nat.eqb_spec q top); [done|]. split; [done|]. right. split_and!; try done. by exists d, m.
Qed.
Lemma drop_call n : n ∈ E → runs (CDrop n).
Proof.
  intros Hn. destruct (good_refdrop cfg vol r0 none (base ⊎ (E ∖ {[+ n +]})) C v X s n) as (s' & C' & v' & Er & Hg' & K & _).
  - by replace (base ⊎ E ∖ {[+ n +]} ⊎ {[+ n +]}) with (base ⊎ E) by (clear -Hn; multiset_solver).
  - unfold base. rewrite !multiplicity_disj_union, multiplicity_singleton, decide_True by done. lia.
  - exists 0, RNone, s', C', v', X. cbn [run_call owned]. rewrite Er. split_and!; try done. left. cbn. split_and!; try done. by eapply k_tree.
Qed.
Lemma call_spec c : legal_call r0 E c s → runs c.
Proof. destruct c; cbn [legal_call]; [intros []; by apply lookup_call|intros (?&?&?&?); by apply create_call|intros (?&?&?&?&?); by apply open_call|intros []; by apply stat_call|intros (?&?&?&?); by apply link_call|intros []; by apply unlink_call|apply drop_call]. Qed.
End one.

(** ** Sequences of calls *)

(** The heap of the cache and the tree agree: a node with a parent is what the file
    system has under its name in the directory its parent stands for. *)
Definition coherent (s : vfs) (v : view) : Prop :=
  ∀ c x p, vnodes s !! c = Some x → v_parent x = Some p → c ≠ p →
    0 < v_refcnt x ∧ ∃ y, vnodes s !! p = Some y ∧ ent v (v_fs_node y) (v_name x) = Some (v_fs_node x).
Lemma good_coherent Fr E C v X s : good Fr E C v X s → coherent s v.
Proof.
  intros [Hs H _ _ _] c x p Hx Hp Hne. pose proof (c_nodes _ _ _ _ _ (s_core _ _ _ _ _ _ _ _ Hs)) as Hn. pose proof (Hn c) as Hc. rewrite Hx in Hc. destruct (attrs C !! c) as [a|] eqn:Ea; [|done].
  rewrite (n_parent _ _ _ _ _ _ _ Hc) in Hp. destruct (h_parent _ _ _ _ H c a p Ea Hp Hne) as (ap & Hap & _ & He). split; [rewrite (n_refcnt _ _ _ _ _ _ _ Hc); pose proof (n_live _ _ _ _ _ _ _ Hc); lia|].
  specialize (Hn p). rewrite Hap in Hn. destruct (vnodes s !! p) as [y|]; [|done]. exists y. split; [done|]. by rewrite (n_fsn _ _ _ _ _ _ _ Hn), (n_fsn _ _ _ _ _ _ _ Hc), (n_name _ _ _ _ _ _ _ Hc).
Qed.

Lemma calls_spec cs : ∀ E C v X s, good none (base ⊎ E) C v X s → legal r0 E cs s →
  ∃ es s' E' C' v' X', run_calls r0 cs s = Ok (es, s') ∧ good none (base ⊎ E') C' v' X' s' ∧ explained r0 s v cs es s' v'.
Proof.
  induction cs as [|c cs IH]; intros E C v X s Hg; cbn [run_calls legal explained]; [intros _; by exists [], s, E, C, v, X|]. intros [Hl Hls]. destruct (call_spec E C v X s Hg c Hl) as (e & r & s1 & C1 & v1 & X1 & E1 & Hg1 & Hx1).
  destruct (IH _ C1 v1 X1 s1 Hg1 (Hls e r s1 E1)) as (es & s2 & E2 & C2 & v2 & X2 & Er & Hg2 & Hx2). exists ((e, r) :: es), s2, E2, C2, v2, X2. rewrite E1. cbn [mbind outcome_bind]. rewrite Er. cbn [mbind outcome_bind]. split_and!; try done. by exists s1, v1.
Qed.
End calls.
End VfsCalls.
