(* ===== verification/VfsRamfs.v ===== *)
(** * The virtual file system over the memory file system

    The table of functions of the memory file system, and the proof that it keeps the
    contract the cache relies on. *)

From stdpp Require Import gmap gmultiset.
From S2P Require Import Prelude FileOps RamfsFile Ramfs RamfsSpec RamfsTree RamfsNames Vfs VfsSpec.
Import FileOps Ramfs RamfsSpec RamfsTree.

Module VfsRamfs.

(** ** The table of functions *)

(** The answers of the allocator during a call: for the object, and for the data of a
    regular file. *)
Record answer := { for_object : option nat; for_data : option nat }.
Definition granted (o : option nat) : bool := if o is Some _ then true else false.

Definition ramfs_can_unmount (fs : Vfs.vfs_fs_s) : bool := Vfs.fs_ref fs =? 1.

Definition ramfs_ops (cfg : config) : Vfs.FsOps answer vfs_file_s ramfs := {|
  Vfs.op_node_open a flags node s := ramfs_node_open (granted (for_object a)) flags node s;
  Vfs.op_lookup := ramfs_lookup cfg;
  Vfs.op_create := Some (λ a ty s, ramfs_create (for_object a) (for_data a) ty s);
  Vfs.op_link := Some (λ a node dir nm s, ramfs_link cfg (for_object a) node dir nm s);
  Vfs.op_move := Some (ramfs_move cfg);
  Vfs.op_unlink := Some (ramfs_unlink cfg);
  Vfs.op_stat node s := '(e, (ty, sz, nlink), s) ← ramfs_stat cfg node s; Ok (e, {| Vfs.st_type := ty; Vfs.st_size := sz; Vfs.st_nlink := nlink |}, s);
  Vfs.op_can_unmount := ramfs_can_unmount;
  Vfs.op_node_refnew := ramfs_node_refnew;
  Vfs.op_node_refdrop := ramfs_node_refdrop cfg |}.

(** ** What the cache sees of it *)

Section laws.
Context (cfg : config) (root : nat).
Abbreviation mangle := (vfs_name_mangle cfg).
Abbreviation sim := (sim cfg root).

Definition view_of (A : astate) : VfsSpec.view :=
  {| VfsSpec.held := held A; VfsSpec.dirp q := bool_decide (is_dir A q); VfsSpec.ent := entry A; VfsSpec.up q := dirof A !! q |}.
Definition short (A : astate) : Prop := ∀ q m c, entry A q m = Some c → ∃ nm, m = mangle nm ∧ 0 ∉ nm ∧ (length nm < NAMELEN cfg)%nat.
Definition rel (s : ramfs) (v : VfsSpec.view) : Prop := ∃ A, sim A s ∧ short A ∧ v = view_of A.
Definition fresh (a : answer) (s : ramfs) : Prop := (∀ n, for_object a = Some n → nodes s !! n = None) ∧ (∀ d, for_data a = Some d → datas s !! d = None).
Definition gives (a : answer) : Prop := is_Some (for_object a) ∧ is_Some (for_data a).

Lemma sim_wf A s : sim A s → wf A.
Proof. intros [Hc _]. apply Hc. Qed.
Lemma node_free A s n : sim A s → nodes s !! n = None ↔ attrs A !! n = None.
Proof. intros [[_ Hn _] _]. specialize (Hn n). by destruct (nodes s !! n), (attrs A !! n). Qed.
Lemma data_free A s d : sim A s → datas s !! d = None ↔ dvals A !! d = None.
Proof. intros [[_ _ Hd] _]. specialize (Hd d). by destruct (datas s !! d), (dvals A !! d). Qed.
Lemma fresh_mono A s A' s' : sim A s → sim A' s' → (∀ n, attrs A !! n = None → attrs A' !! n = None) → (∀ d, dvals A !! d = None → dvals A' !! d = None) → ∀ a, fresh a s → fresh a s'.
Proof.
  intros Hs Hs' Hn Hd a [H1 H2]. split; intros x Hx.
  - apply (node_free A' s' x Hs'), Hn, (node_free A s x Hs). by apply H1.
  - apply (data_free A' s' x Hs'), Hd, (data_free A s x Hs). by apply H2.
Qed.

Lemma reach_view A s q : sim A s → reach (dirof A) root q → VfsSpec.reach (view_of A) root q.
Proof.
  intros Hs. induction 1 as [|c p Hc _ IH]; [constructor|]. destruct (wf_dirof _ (sim_wf A s Hs) _ _ Hc) as [[a Ha] _]. apply (VfsSpec.reach_ent _ _ p (a_name a) c IH). cbn. apply entry_Some; [by eapply sim_wf|]. by rewrite Ha.
Qed.
Lemma view_reach A s q : sim A s → VfsSpec.reach (view_of A) root q → reach (dirof A) root q.
Proof.
  intros Hs. induction 1 as [|q m c _ IH Hc]; [constructor|]. cbn in Hc. apply entry_Some in Hc as [Hc _]; [|by eapply sim_wf]. by eapply reach_up.
Qed.
Lemma alive A s q : sim A s → VfsSpec.live root (view_of A) q → is_Some (attrs A !! q).
Proof.
  intros Hs [Hq|Hq]; [by apply (wf_held _ (sim_wf A s Hs))|]. apply (view_reach A s q Hs) in Hq. destruct Hq as [|c p Hc _].
  - pose proof (t_root _ _ (proj2 Hs)) as Hd. unfold is_dir in Hd. destruct (attrs A !! root); [eauto|done].
  - by destruct (wf_dirof _ (sim_wf A s Hs) _ _ Hc).
Qed.
Lemma same_keeps A s A' s' : sim A s → sim A' s' → RamfsNames.keeps A A' → VfsSpec.same root (view_of A) (view_of A').
Proof.
  intros Hs Hs' Hk q Hq Hq'. apply (alive A s q Hs) in Hq. apply (alive A' s' q Hs') in Hq'. split_and!; cbn.
  - apply bool_decide_ext. by apply RamfsNames.keeps_dir.
  - intros m. apply RamfsNames.keeps_entry; [by eapply sim_wf..|done].
  - destruct Hk as [-> _]. done.
Qed.
Lemma short_keeps A s A' s' : sim A s → sim A' s' → RamfsNames.keeps A A' → short A → short A'.
Proof. intros Hs Hs' Hk Hsh q m c. rewrite (RamfsNames.keeps_entry A A' q m (sim_wf A s Hs) (sim_wf A' s' Hs') Hk). apply Hsh. Qed.
(** A step that keeps the names. *)
Lemma quiet A s A' s' : sim A s → short A → sim A' s' → RamfsNames.keeps A A' → rel s' (view_of A') ∧ VfsSpec.same root (view_of A) (view_of A').
Proof. intros Hs Hsh Hs' Hk. split; [exists A'; exact (conj Hs' (conj (short_keeps A s A' s' Hs Hs' Hk Hsh) eq_refl))|by eapply same_keeps]. Qed.

(** *** References *)

Lemma release_sub n A : held (release n A) = held A ∖ {[+ n +]} ∧ (∀ k, attrs A !! k = None → attrs (release n A) !! k = None) ∧ (∀ d, dvals A !! d = None → dvals (release n A) !! d = None).
Proof.
  assert (∀ d B, held (dcollect d B) = held B ∧ attrs (dcollect d B) = attrs B ∧ ∀ k, dvals B !! k = None → dvals (dcollect d B) !! k = None) as Hd.
  { intros d B. unfold dcollect. destruct (_ =? _)%nat; [|done]. split_and!; try done. intros k Hk. cbn. by apply lookup_delete_None; right. }
  unfold release, collect. destruct (_ =? _)%nat; [|done]. assert (∀ k, attrs A !! k = None → attrs (set_attrs (delete n) (set_held (λ h, h ∖ {[+ n +]}) A)) !! k = None) as Hk by (intros k Hk; cbn; by apply lookup_delete_None; right).
  destruct (_ ≫= _) as [d|]; [|done]. destruct (Hd d (set_attrs (delete n) (set_held (λ h, h ∖ {[+ n +]}) A))) as (-> & -> & Hv). split_and!; try done.
Qed.
Lemma ramfs_refnew_law s v q : rel s v → q ∈ VfsSpec.held v →
  ∃ s' v', ramfs_node_refnew q s = Ok s' ∧ rel s' v' ∧ VfsSpec.held v' = VfsSpec.held v ⊎ {[+ q +]} ∧ VfsSpec.same root v v' ∧ ∀ a, fresh a s → fresh a s'.
Proof.
  intros (A & Hs & Hsh & ->) Hq. destruct (step_spec cfg root (ODup q) A s Hs Hq) as (s' & E & Hs'). cbn [run spec fst snd] in *. destruct (ramfs_node_refnew q s) as [s1|]; [|done]. cbn in E. injection E as ->.
  destruct (quiet A s (hold q A) s' Hs Hsh Hs') as [Hr Hk]; [by apply RamfsNames.keeps_attrs|]. exists s', (view_of (hold q A)). split_and!; try done. by eapply fresh_mono.
Qed.
Lemma ramfs_refdrop_law s v q : rel s v → q ∈ VfsSpec.held v → root ∈ VfsSpec.held v ∖ {[+ q +]} →
  ∃ s' v', ramfs_node_refdrop cfg q s = Ok s' ∧ rel s' v' ∧ VfsSpec.held v' = VfsSpec.held v ∖ {[+ q +]} ∧ VfsSpec.same root v v' ∧ ∀ a, fresh a s → fresh a s'.
Proof.
  intros (A & Hs & Hsh & ->) Hq Ht. destruct (step_spec cfg root (ODrop q) A s Hs) as (s' & E & Hs'); [done|]. cbn [run spec fst snd] in *. destruct (ramfs_node_refdrop cfg q s) as [s1|]; [|done]. cbn in E. injection E as ->.
  destruct (quiet A s (release q A) s' Hs Hsh Hs') as [Hr Hk]; [by apply RamfsNames.keeps_release|]. destruct (release_sub q A) as (Hh & Hn & Hd). exists s', (view_of (release q A)). split_and!; try done. by eapply fresh_mono.
Qed.
Lemma ramfs_lookup_law s v q nm : rel s v → q ∈ VfsSpec.held v →
  ∃ s' v', rel s' v' ∧ VfsSpec.same root v v' ∧ (∀ a, fresh a s → fresh a s') ∧
    if VfsSpec.dirp v q then
      match VfsSpec.ent v q (mangle nm) with
      | Some c => ramfs_lookup cfg q nm s = Ok (0, Some (c, mangle nm), s') ∧ VfsSpec.held v' = VfsSpec.held v ⊎ {[+ c +]}
      | None => ramfs_lookup cfg q nm s = Ok (- ENOENT, None, s') ∧ VfsSpec.held v' = VfsSpec.held v
      end
    else ramfs_lookup cfg q nm s = Ok (- EINVAL, None, s') ∧ VfsSpec.held v' = VfsSpec.held v.
Proof.
  intros (A & Hs & Hsh & ->) Hq. destruct (step_spec cfg root (OLookup q nm) A s Hs Hq) as (s' & E & Hs'). cbn [run spec] in *. destruct (ramfs_lookup cfg q nm s) as [[[e r] s1]|]; [|done]. cbn [mbind outcome_bind] in E. unfold s_lookup in *. cbn [VfsSpec.dirp VfsSpec.ent VfsSpec.held view_of].
  destruct (decide (is_dir A q)); [rewrite bool_decide_true by done; destruct (entry A q (mangle nm)) as [c|]|rewrite bool_decide_false by done]; cbn [fst snd] in *; injection E as -> -> ->.
  - destruct (quiet A s (hold c A) s' Hs Hsh Hs') as [Hr Hk]; [by apply RamfsNames.keeps_attrs|]. exists s', (view_of (hold c A)). split_and!; try done. by eapply fresh_mono.
  - destruct (quiet A s A s' Hs Hsh Hs') as [Hr Hk]; [by apply RamfsNames.keeps_attrs|]. exists s', (view_of A). split_and!; try done. by eapply fresh_mono.
  - destruct (quiet A s A s' Hs Hsh Hs') as [Hr Hk]; [by apply RamfsNames.keeps_attrs|]. exists s', (view_of A). split_and!; try done. by eapply fresh_mono.
Qed.
Lemma ramfs_create_law a ty s v : rel s v → fresh a s →
  ∃ e r s' v', ramfs_create (for_object a) (for_data a) ty s = Ok (e, r, s') ∧ rel s' v' ∧ VfsSpec.same root v v' ∧
    ((e = - ENOMEM ∧ ¬ gives a ∧ r = None ∧ VfsSpec.held v' = VfsSpec.held v) ∨
     (∃ n, e = 0 ∧ r = Some n ∧ n ∉ VfsSpec.held v ∧ VfsSpec.held v' = VfsSpec.held v ⊎ {[+ n +]} ∧ VfsSpec.up v' n = None ∧ n ≠ root ∧ VfsSpec.dirp v' n = bool_decide (ty = VFS_NODE_DIR) ∧ ∀ m, VfsSpec.ent v' n m = None)).
Proof.
  intros (A & Hs & Hsh & ->) [Hf1 Hf2]. pose proof (sim_wf A s Hs) as Hw. destruct (step_spec cfg root (OCreate (for_object a) (for_data a) ty) A s Hs) as (s' & E & Hs').
  { split; [intros n Hn; apply (node_free A s n Hs); by apply Hf1|intros d Hd; apply (data_free A s d Hs); by apply Hf2]. }
  cbn [run spec] in *. destruct (ramfs_create _ _ _ _) as [[[e r] s1]|]; [|done]. cbn [mbind outcome_bind] in E.
  assert (∀ n data f, for_object a = Some n → sim (set_dvals f (born n ty data A)) s' → ∃ v', rel s' v' ∧ VfsSpec.same root (view_of A) v' ∧ n ∉ held A ∧ VfsSpec.held v' = held A ⊎ {[+ n +]} ∧ VfsSpec.up v' n = None ∧ n ≠ root ∧ VfsSpec.dirp v' n = bool_decide (ty = VFS_NODE_DIR) ∧ ∀ m, VfsSpec.ent v' n m = None) as Hnew.
  { intros n data f Hn HsB. pose proof (proj1 (node_free A s n Hs) (Hf1 n Hn)) as Ha. destruct (fresh_unlinked A n Hw Ha) as (Hd & Hh & Hk). destruct (quiet A s _ s' Hs Hsh HsB) as [Hr Hsm]; [by apply RamfsNames.keeps_born|]. exists (view_of (set_dvals f (born n ty data A))). split_and!; try done.
    - intros ->. pose proof (t_root _ _ (proj2 Hs)) as Hd'. unfold is_dir in Hd'. by rewrite Ha in Hd'.
    - cbn. apply bool_decide_ext. unfold is_dir. cbn. rewrite lookup_insert_eq. cbn. naive_solver.
    - intros m. cbn. apply entry_None; [by eapply sim_wf|]. intros c Hc. by destruct (Hk c). }
  unfold s_create in *. exists e, r, s1. destruct (for_object a) as [n|] eqn:Eo.
  - destruct ty; [|destruct (for_data a) as [d|] eqn:Ed]; cbn [fst snd] in *; injection E as -> -> ->.
    + destruct (Hnew n None id eq_refl) as (v' & Hr & Hsm & ?); [by destruct A|]. exists v'. split_and!; try done. right. by exists n.
    + destruct (Hnew n (Some d) _ eq_refl Hs') as (v' & Hr & Hsm & ?). exists v'. split_and!; try done. right. by exists n.
    + destruct (quiet A s A s' Hs Hsh Hs') as [Hr Hk]; [by apply RamfsNames.keeps_attrs|]. exists (view_of A). split_and!; try done. left. split_and!; try done. intros [_ [? ?]]. congruence.
  - assert (e = - ENOMEM ∧ r = None ∧ s1 = s' ∧ sim A s') as (-> & -> & -> & HsA) by (by destruct ty; cbn [fst snd] in *; injection E as -> -> ->). destruct (quiet A s A s' Hs Hsh HsA) as [Hr Hk]; [by apply RamfsNames.keeps_attrs|]. exists (view_of A). split_and!; try done. left. split_and!; try done. intros [[? ?] _]. congruence.
Qed.

(** *** Names *)

Lemma kids_entry A s o : sim A s → kids A o = ∅ ↔ ∀ m, entry A o m = None.
Proof.
  intros Hs. pose proof (sim_wf A s Hs) as Hw. split.
  - intros Hk m. apply entry_None; [done|]. intros c Hc. by destruct (kids_none A o Hk c).
  - intros He. apply map_empty. intros c. apply map_lookup_filter_None. right. cbn. intros p Hp ->. destruct (wf_dirof _ Hw _ _ Hp) as [[a Ha] _]. assert (entry A o (a_name a) = Some c) as H by (apply entry_Some; [done|]; by rewrite Ha). by rewrite He in H.
Qed.
Lemma replace_dirof A dir m r : dirof A !! r = None → dirof (s_replace dir m r A) = <[r := dir]> (match entry A dir m with Some o => delete o (dirof A) | None => dirof A end).
Proof.
  intros Hr. unfold s_replace. rewrite (entry_rename A dir m m r Hr). destruct (entry A dir m) as [o|]; cbn [collect_opt unplace_opt]; [|done]. by rewrite RamfsNames.collect_dirof.
Qed.
Lemma collect_held n A : held (collect n A) = held A.
Proof. unfold collect. destruct (_ =? _)%nat; [|done]. destruct (_ ≫= _); [unfold dcollect; by destruct (_ =? _)%nat|done]. Qed.
Lemma replace_held A dir m r : held (s_replace dir m r A) = held A.
Proof. unfold s_replace. destruct (entry _ dir m) as [o|]; cbn [collect_opt unplace_opt]; [by rewrite collect_held|done]. Qed.

Lemma link_done A s B s' dir nm r : sim A s → short A → sim (s_replace dir (mangle nm) r B) s' → RamfsNames.keeps A B → wf B → dirof B !! r = None → is_Some (attrs B !! r) → r ≠ dir → (∀ m, entry A r m = None) →
  0 ∉ nm → (length nm < NAMELEN cfg)%nat → let v := view_of A in let v' := view_of (s_replace dir (mangle nm) r B) in
  rel s' v' ∧ VfsSpec.held v' = held B ∧ VfsSpec.dirp v' r = bool_decide (is_dir B r) ∧ (∀ m, VfsSpec.ent v' r m = None) ∧ VfsSpec.ent v' dir (mangle nm) = Some r ∧
  VfsSpec.renamed root dir (mangle nm) (Some r) (λ x y, if decide (x = r) then Some dir else if decide (VfsSpec.ent v dir (mangle nm) = Some x) then None else y) v v'.
Proof.
  intros Hs Hsh Hs' Hk HwB Hr HrB Hrd He Hz Hl. set (m := mangle nm) in *. set (A' := s_replace dir m r B) in *. pose proof (sim_wf A s Hs) as Hw. pose proof (sim_wf A' s' Hs') as Hw'.
  assert (∀ q m', entry A' q m' = if decide (q = dir ∧ m' = m) then Some r else entry A q m') as Hent by (intros q m'; unfold A'; rewrite RamfsNames.replace_entry by done; by rewrite (RamfsNames.keeps_entry A B)).
  assert (∀ q, is_Some (attrs A' !! q) → is_dir A' q ↔ is_dir B q) as Hdir. { intros q [a Ha]. pose proof (RamfsNames.replace_type B dir m r q a Ha) as Ht. unfold is_dir. rewrite Ha, Ht. done. }
  cbn zeta. split_and!.
  - exists A'. split; [done|]. split; [|done]. intros q m' c. rewrite Hent. destruct (decide (q = dir ∧ m' = m)) as [[-> ->]|]; [|apply Hsh]. intros _. by exists nm.
  - cbn. apply replace_held.
  - cbn. apply bool_decide_ext, Hdir. assert (dirof A' !! r = Some dir) as Hd by (unfold A'; by rewrite replace_dirof, lookup_insert_eq). by destruct (wf_dirof _ Hw' _ _ Hd).
  - intros m'. cbn. rewrite Hent, decide_False by naive_solver. done.
  - cbn. by rewrite Hent, decide_True.
  - intros q Hq Hq'. apply (alive A s q Hs) in Hq. apply (alive A' s' q Hs') in Hq'. cbn. split_and!.
    + apply bool_decide_ext. rewrite (Hdir q Hq'). apply RamfsNames.keeps_dir; [done..|]. destruct Hq' as [a Ha]. pose proof (RamfsNames.replace_type B dir m r q a Ha) as Ht. by destruct (attrs B !! q).
    + intros m'. apply Hent.
    + unfold A'. rewrite replace_dirof by done. rewrite (RamfsNames.keeps_entry A B) by done. destruct Hk as [-> _]. destruct (decide (q = r)) as [->|Hne]; [by rewrite lookup_insert_eq|]. rewrite lookup_insert_ne by done.
      destruct (entry A dir m) as [o|]; [|by rewrite decide_False]. destruct (decide (Some o = Some q)) as [[= ->]|]; [by rewrite lookup_delete_eq|]. rewrite lookup_delete_ne; congruence.
Qed.
Lemma attached_up A s q : sim A s → is_Some (attrs A !! q) → attached A q = true ↔ q = root ∨ is_Some (dirof A !! q).
Proof.
  intros Hs [a Ha]. unfold attached. rewrite Ha. cbn. rewrite (t_parent _ _ (proj2 Hs) q a Ha). destruct (decide (q = root)) as [->|]; [split; [by left|done]|]. destruct (dirof A !! q); split; try done; [by right; eauto|by intros [|[]]].
Qed.
(** The allocator is asked only for another link to a file. *)
Lemma link_alloc alloc q x d nm s : get q s = Ok x → parent x = None ∨ type x = VFS_NODE_DIR → ramfs_link cfg alloc q d nm s = ramfs_link cfg None q d nm s.
Proof.
  intros Ex Hx. unfold ramfs_link. destruct (_ <=? _)%nat; [done|]. destruct (get d s); [|done]. cbn [mbind outcome_bind]. destruct (negb _); [done|]. destruct (bool_decide _); [done|]. rewrite Ex. cbn [mbind outcome_bind].
  destruct (bool_decide_reflect (parent x = None)); [done|]. destruct Hx as [| ->]; done.
Qed.
Lemma ramfs_link_law a q d nm s v : rel s v → (VfsSpec.up v q ≠ None → fresh a s) → q ∈ VfsSpec.held v → d ∈ VfsSpec.held v → 0 ∉ nm →
  (∀ o, VfsSpec.ent v d (mangle nm) = Some o → ∀ m, VfsSpec.ent v o m = None) →
  ∃ e r s' v', ramfs_link cfg (for_object a) q d nm s = Ok (e, r, s') ∧ rel s' v' ∧
    ((e ≠ 0 ∧ r = None ∧ VfsSpec.held v' = VfsSpec.held v ∧ VfsSpec.same root v v' ∧ ¬ ((length nm < NAMELEN cfg)%nat ∧ VfsSpec.reach v root d ∧ VfsSpec.dirp v d = true ∧ (VfsSpec.up v q = None ∧ q ≠ root ∨ VfsSpec.dirp v q = false ∧ gives a))) ∨
     (∃ n, let m := mangle nm in
        e = 0 ∧ r = Some (n, m) ∧ (length nm < NAMELEN cfg)%nat ∧ n ≠ root ∧ VfsSpec.dirp v d = true ∧ VfsSpec.held v' = VfsSpec.held v ⊎ {[+ n +]} ∧ VfsSpec.dirp v' n = VfsSpec.dirp v q ∧
        (n = q ∧ VfsSpec.up v q = None ∨ n ∉ VfsSpec.held v ∧ VfsSpec.dirp v' n = false) ∧
        (∀ m', VfsSpec.ent v' n m' = None) ∧ VfsSpec.ent v' d m = Some n ∧
        VfsSpec.renamed root d m (Some n) (λ x y, if decide (x = n) then Some d else if decide (VfsSpec.ent v d m = Some x) then None else y) v v')).
Proof.
  intros (A & Hs & Hsh & ->) Hfr Hq Hd Hz Hemp. pose proof (sim_wf A s Hs) as Hw. pose proof (proj2 Hs) as Ht. destruct (wf_held _ Hw _ Hq) as [aq Haq]. destruct (wf_held _ Hw _ Hd) as [ad Had]. cbn [VfsSpec.up VfsSpec.held VfsSpec.dirp VfsSpec.ent view_of] in Hfr, Hq, Hd, Hemp.
  set (al := if dirof A !! q is Some _ then for_object a else None). assert (ramfs_link cfg (for_object a) q d nm s = ramfs_link cfg al q d nm s) as ->.
  { unfold al. destruct (dirof A !! q) as [p|] eqn:Ep; [done|]. destruct (getnode_spec cfg _ _ _ _ _ (proj1 Hs) Haq) as (x & Ex & _ & Hx). apply (link_alloc _ _ x); [done|]. rewrite (n_parent _ _ _ _ _ _ Hx), (n_type _ _ _ _ _ _ Hx), (t_parent _ _ Ht q aq Haq). destruct (decide (q = root)) as [->|]; [right|by left].
    pose proof (t_root _ _ Ht) as Hr. by apply (is_dir_eq A root aq Haq). }
  assert (∀ r, al = Some r → attrs A !! r = None) as Hal. { unfold al. destruct (dirof A !! q) as [p|] eqn:Ep; [|done]. intros r Hr. apply (node_free A s r Hs). destruct (Hfr ltac:(done)) as [Hf _]. by apply Hf. }
  destruct (step_spec cfg root (OLink al q d nm) A s Hs) as (s' & E & Hs'). { split_and!; try done. intros o Ho. apply (kids_entry A s o Hs). by apply Hemp. }
  cbn [run spec] in *. destruct (ramfs_link cfg al q d nm s) as [[[e r] s1]|]; [|done]. cbn [mbind outcome_bind] in E. pose proof (attached_up A s q Hs ltac:(eauto)) as Hatq. pose proof (attached_up A s d Hs ltac:(eauto)) as Hatd.
  assert (∀ e', e' ≠ 0 → e = e' → r = None → s1 = s' → sim A s' → ¬ ((length nm < NAMELEN cfg)%nat ∧ VfsSpec.reach (view_of A) root d ∧ VfsSpec.dirp (view_of A) d = true ∧ (VfsSpec.up (view_of A) q = None ∧ q ≠ root ∨ VfsSpec.dirp (view_of A) q = false ∧ gives a)) →
    ∃ v', rel s' v' ∧ (e ≠ 0 ∧ r = None ∧ VfsSpec.held v' = held A ∧ VfsSpec.same root (view_of A) v' ∧ ¬ ((length nm < NAMELEN cfg)%nat ∧ VfsSpec.reach (view_of A) root d ∧ VfsSpec.dirp (view_of A) d = true ∧ (VfsSpec.up (view_of A) q = None ∧ q ≠ root ∨ VfsSpec.dirp (view_of A) q = false ∧ gives a)))) as Hfail.
  { intros e' He -> -> -> HsA Hno. destruct (quiet A s A s' Hs Hsh HsA) as [Hr Hk]; [by apply RamfsNames.keeps_attrs|]. by exists (view_of A). }
  exists e, r, s1. unfold s_link in *. destruct (Nat.leb_spec (NAMELEN cfg) (length nm)) as [Hlen|Hlen]; [cbn [fst snd] in *; injection E as -> -> ->; destruct (Hfail (- EINVAL)) as (v' & ? & ?); try done; [lia|]; exists v'; split_and!; [done..|by left]|].
  destruct (decide (¬ is_dir A d)) as [Hnd|Hnd]; [cbn [fst snd] in *; injection E as -> -> ->; destruct (Hfail (- EINVAL)) as (v' & ? & ?); try done; [intros (_ & _ & Hdd & _); by apply bool_decide_eq_true in Hdd|]; exists v'; split_and!; [done..|by left]|]. apply dec_stable in Hnd.
  destruct (attached A d) eqn:Ead; cbn [negb] in *.
  2:{ cbn [fst snd] in *; injection E as -> -> ->. destruct (Hfail (- ENOTSUP)) as (v' & ? & ?); try done; [|exists v'; split_and!; [done..|by left]]. intros (_ & Rd & _). apply (view_reach A s d Hs) in Rd. enough (false = true) by done. apply Hatd. destruct Rd; [by left|right; eauto]. }
  destruct (attached A q) eqn:Eaq.
  - destruct (decide (is_dir A q)) as [Hqd|Hqd]; [cbn [fst snd] in *; injection E as -> -> ->; destruct (Hfail (- EISDIR)) as (v' & ? & ?); try done; [|exists v'; split_and!; [done..|by left]]|].
    { intros (_ & _ & _ & [[Hu Hqr]|[Hdq _]]); [cbn in Hu; destruct (proj1 Hatq eq_refl) as [?|[? ?]]; congruence|]. cbn in Hdq. by apply bool_decide_eq_false in Hdq. }
    assert (q ≠ root) as Hqr by (intros ->; by apply Hqd, (t_root _ _ Ht)). destruct (proj1 Hatq eq_refl) as [?|[p Hp]]; [done|]. unfold al in *. rewrite Hp in *. destruct (for_object a) as [n|] eqn:Eo.
    2:{ cbn [fst snd] in *; injection E as -> -> ->. destruct (Hfail (- ENOMEM)) as (v' & ? & ?); try done; [|exists v'; split_and!; [done..|by left]]. intros (_ & _ & _ & [[Hu _]|[_ [[? ?] _]]]); [cbn in Hu|]; congruence. }
    cbn [fst snd] in *. injection E as -> -> ->. specialize (Hal n eq_refl). set (B := born n VFS_NODE_FILE _ A) in *. destruct (fresh_unlinked A n Hw Hal) as (Hdn & Hhn & Hkn).
    destruct (link_done A s B s' d nm n Hs Hsh Hs') as (Hr & Hh & Hdp & Hen & Hed & Hren); try done.
    + unfold B. change (RamfsNames.keeps A (set_dvals id (born n VFS_NODE_FILE (attrs A !! q ≫= a_data) A))). by apply RamfsNames.keeps_born.
    + apply wf_born; [done..|]. rewrite Haq. cbn. intros d' Hd'. exact (wf_data _ Hw q aq d' Haq Hd').
    + cbn. rewrite lookup_insert_eq. eauto.
    + intros ->. congruence.
    + intros m. apply entry_None; [done|]. intros c Hc. by destruct (Hkn c).
    + exists (view_of (s_replace d (mangle nm) n B)). split; [done|]. split; [done|]. right. assert (VfsSpec.dirp (view_of (s_replace d (mangle nm) n B)) n = false) as Hdf by (rewrite Hdp; apply bool_decide_eq_false; unfold is_dir; cbn; by rewrite lookup_insert_eq).
      exists n. split_and!; try done; [intros ->; pose proof (t_root _ _ Ht) as Hrt; unfold is_dir in Hrt; by rewrite Hal in Hrt|cbn; by apply bool_decide_eq_true|rewrite Hdf; cbn; symmetry; by apply bool_decide_eq_false|by right].
  - cbn [fst snd] in *. injection E as -> -> ->. destruct (detached root A q aq Ht Haq Eaq) as [Hdn Hqr].
    destruct (link_done A s (hold q A) s' d nm q Hs Hsh Hs') as (Hr & Hh & Hdp & Hen & Hed & Hren); try done.
    + by apply RamfsNames.keeps_attrs.
    + apply wf_hold; [done|eauto].
    + intros ->. congruence.
    + apply (kids_entry A s q Hs). by eapply tree_outside.
    + exists (view_of (s_replace d (mangle nm) q (hold q A))). split; [done|]. split; [done|]. right. exists q. split_and!; try done; [cbn; by apply bool_decide_eq_true|by left].
Qed.
Lemma collect_sub n A : (∀ k, attrs A !! k = None → attrs (collect n A) !! k = None) ∧ (∀ d, dvals A !! d = None → dvals (collect n A) !! d = None).
Proof.
  unfold collect. destruct (_ =? _)%nat; [|done]. assert (∀ k, attrs A !! k = None → delete n (attrs A) !! k = None) as Hk by (intros k Hk; by apply lookup_delete_None; right).
  destruct (_ ≫= _) as [d|]; [|done]. unfold dcollect. destruct (_ =? _)%nat; [|done]. split; [done|]. intros k Hd. cbn. by apply lookup_delete_None; right.
Qed.
Lemma ramfs_unlink_law d nm s v : rel s v → d ∈ VfsSpec.held v → VfsSpec.dirp v d = true → (length nm <= NAMELEN cfg)%nat →
  ∃ e s' v', ramfs_unlink cfg d nm s = Ok (e, s') ∧ rel s' v' ∧ VfsSpec.held v' = VfsSpec.held v ∧ (∀ a, fresh a s → fresh a s') ∧
    ((e ≠ 0 ∧ VfsSpec.same root v v' ∧ match VfsSpec.ent v d (mangle nm) with None => e = - ENOENT | Some o => ∃ m c, VfsSpec.ent v o m = Some c end) ∨
     (∃ o, let m := mangle nm in
        e = 0 ∧ VfsSpec.ent v d m = Some o ∧ (∀ m', VfsSpec.ent v o m' = None) ∧ VfsSpec.renamed root d m None (λ x y, if decide (x = o) then None else y) v v')).
Proof.
  intros (A & Hs & Hsh & ->) Hd Hdir Hlen. cbn in Hd, Hdir. apply bool_decide_eq_true in Hdir. pose proof (sim_wf A s Hs) as Hw. destruct (step_spec cfg root (OUnlink d nm) A s Hs) as (s' & E & Hs'); [done|].
  cbn [run spec] in *. destruct (ramfs_unlink cfg d nm s) as [[e s1]|]; [|done]. cbn [mbind outcome_bind VfsSpec.ent view_of] in *. unfold s_unlink in *. destruct (entry A d (mangle nm)) as [c|] eqn:Ec.
  2:{ cbn [fst snd] in *. injection E as -> ->. destruct (quiet A s A s' Hs Hsh Hs') as [Hr Hk]; [by apply RamfsNames.keeps_attrs|]. exists (- ENOENT), s', (view_of A). split_and!; try done; [by eapply fresh_mono|]. by left. }
  destruct (decide (kids A c = ∅)) as [Hkc|Hkc]; cbn [fst snd] in *; injection E as -> ->.
  2:{ destruct (quiet A s A s' Hs Hsh Hs') as [Hr Hk]; [by apply RamfsNames.keeps_attrs|]. exists (- EBUSY), s', (view_of A). split_and!; try done; [by eapply fresh_mono|]. left. split_and!; try done. apply map_choose in Hkc as (y & p & Hy). unfold kids in Hy. apply map_lookup_filter_Some in Hy as [Hy Ep]. cbn in Ep. subst p.
      destruct (wf_dirof _ Hw _ _ Hy) as [[ay Hay] _]. exists (a_name ay), y. cbn. apply entry_Some; [done|]. by rewrite Hay. }
  set (A' := collect c (unplace c A)) in *. pose proof (sim_wf A' s' Hs') as Hw'. pose proof (RamfsNames.unplace_entry A c d (mangle nm)) as Hent. destruct (collect_sub c (unplace c A)) as [Hn Hv].
  assert (∀ q m', entry A' q m' = if decide (q = d ∧ m' = mangle nm) then None else entry A q m') as He by (intros q m'; by apply Hent). exists 0, s', (view_of A'). split_and!; try done.
  - exists A'. split; [done|]. split; [|done]. intros q m' y. rewrite He. destruct (decide _); [done|]. apply Hsh.
  - cbn. unfold A'. by rewrite collect_held.
  - apply (fresh_mono A s A' s' Hs Hs'); [|done]. intros k Hk. apply Hn. cbn. rewrite lookup_alter. destruct (decide (c = k)) as [->|]; by rewrite Hk.
  - right. exists c. cbn. split_and!; try done; [by apply (kids_entry A s c Hs)|]. intros q Hq Hq'. apply (alive A s q Hs) in Hq. apply (alive A' s' q Hs') in Hq'. split_and!; cbn.
    + apply bool_decide_ext. destruct Hq' as [a Ha]. pose proof (RamfsNames.collect_lookup c (unplace c A) q a Ha) as Ha'. pose proof (RamfsNames.alter_type (with_parent None) c (attrs A) q a ltac:(done) Ha') as Hty. unfold is_dir. by rewrite Ha, Hty.
    + intros m'. apply He.
    + unfold A'. rewrite RamfsNames.collect_dirof. cbn. destruct (decide (q = c)) as [->|]; [by rewrite lookup_delete_eq|by rewrite lookup_delete_ne].
Qed.

(** *** Queries and open files *)

Lemma data_type A s q a : sim A s → attrs A !! q = Some a → (if a_data a is Some _ then VFS_NODE_FILE else VFS_NODE_DIR) = a_type a.
Proof. intros [Hc _] Ha. destruct (getnode_spec cfg _ _ _ _ _ Hc Ha) as (x & _ & _ & Hx). pose proof (n_body _ _ _ _ _ _ Hx) as Hb. destruct (body x); [destruct Hb as (-> & ->)|destruct Hb as (-> & -> & _)]; done. Qed.
Lemma ramfs_stat_law s v q : rel s v → q ∈ VfsSpec.held v →
  ∃ st s' v', Vfs.op_stat (FsOps := ramfs_ops cfg) q s = Ok (0, st, s') ∧ rel s' v' ∧ VfsSpec.held v' = VfsSpec.held v ∧ VfsSpec.same root v v' ∧ (∀ a, fresh a s → fresh a s') ∧
    (Vfs.st_type st = if VfsSpec.dirp v q then VFS_NODE_DIR else VFS_NODE_FILE).
Proof.
  intros (A & Hs & Hsh & ->) Hq. cbn in Hq. destruct (wf_held _ (sim_wf A s Hs) _ Hq) as [a Ha]. destruct (step_spec cfg root (OStat q) A s Hs Hq) as (s' & E & Hs'). cbn [run spec Vfs.op_stat ramfs_ops] in *.
  destruct (ramfs_stat cfg q s) as [[[e t] s1]|]; [|done]. cbn [mbind outcome_bind fst snd] in *. injection E as -> -> ->. unfold s_stat. rewrite Ha. cbn [mbind option_bind]. pose proof (data_type A s q a Hs Ha) as Hty.
  destruct (quiet A s A s' Hs Hsh Hs') as [Hr Hk]; [by apply RamfsNames.keeps_attrs|]. assert (VfsSpec.dirp (view_of A) q = bool_decide (a_type a = VFS_NODE_DIR)) as Hd by (cbn; apply bool_decide_ext; by apply is_dir_eq).
  destruct (a_data a) as [d|]; do 3 eexists; (split; [done|]); (split; [exact Hr|]); (split; [done|]); (split; [done|]); (split; [by eapply fresh_mono|]); rewrite Hd, <-Hty; done.
Qed.
Lemma ramfs_open_law a flags s v q : rel s v → q ∈ VfsSpec.held v → RamfsFile.flag flags VFS_OPEN_TRUNCATE = false →
  ∃ e f s' v', ramfs_node_open (granted (for_object a)) flags q s = Ok (e, f, s') ∧ rel s' v' ∧ VfsSpec.same root v v' ∧ (∀ b, fresh b s → fresh b s') ∧
    (e ≠ 0 ∧ ¬ gives a ∧ f = None ∧ VfsSpec.held v' = VfsSpec.held v ∨ e = 0 ∧ is_Some f ∧ VfsSpec.held v' = VfsSpec.held v ⊎ {[+ q +]}).
Proof.
  intros (A & Hs & Hsh & ->) Hq Htr. cbn in Hq. destruct (wf_held _ (sim_wf A s Hs) _ Hq) as [aq Haq]. destruct (step_spec cfg root (OOpen (granted (for_object a)) flags q) A s Hs) as (s' & E & Hs'); [done|]. cbn [run spec] in *.
  destruct (ramfs_node_open _ flags q s) as [[[e f] s1]|]; [|done]. cbn [mbind outcome_bind] in E. unfold s_open in *. exists e, f, s1. destruct (for_object a) as [o|] eqn:Eo; cbn [granted negb] in *.
  - assert (∃ A', sim A' s' ∧ attrs A' = attrs A ∧ dirof A' = dirof A ∧ dvals A' = dvals A ∧ held A' = held A ⊎ {[+ q +]} ∧ e = 0 ∧ is_Some f ∧ s1 = s') as (A' & HsA & E1 & E2 & E3 & E4 & -> & Hf & ->).
    { destruct (attrs A !! q ≫= a_data) as [d|]; cbn [fst snd] in *; injection E as -> -> ->; eexists; (split; [exact Hs'|]); split_and!; try done; by eexists. }
    destruct (quiet A s A' s' Hs Hsh HsA) as [Hr Hk]; [by apply RamfsNames.keeps_attrs|]. exists (view_of A'). split_and!; try done; [apply (fresh_mono A s A' s' Hs HsA); intros; congruence|]. by right.
  - cbn [fst snd] in *. injection E as -> -> ->. destruct (quiet A s A s' Hs Hsh Hs') as [Hr Hk]; [by apply RamfsNames.keeps_attrs|]. exists (view_of A). split_and!; try done; [by eapply fresh_mono|]. left. split_and!; try done. intros [[? ?] _]. congruence.
Qed.

(** The memory file system keeps the contract. *)
Definition ramfs_laws : @VfsSpec.FsLaws answer vfs_file_s ramfs (ramfs_ops cfg) cfg.
Proof.
  refine (@VfsSpec.Build_FsLaws answer vfs_file_s ramfs (ramfs_ops cfg) cfg root rel fresh gives _ _ _ _ _ _ _ _ _ _ _ _ _ _).
  - intros s v q m c (A & Hs & _ & ->). cbn. intros H. by apply entry_Some in H as [? _]; [|eapply sim_wf].
  - intros s v q m m' c (A & Hs & _ & ->). cbn. intros [_ H1]%entry_Some [_ H2]%entry_Some; [congruence|by eapply sim_wf..].
  - intros s v q m c (A & Hs & _ & ->). cbn. intros [H _]%entry_Some; [|by eapply sim_wf]. apply bool_decide_eq_true. destruct (wf_dirof _ (sim_wf A s Hs) _ _ H) as (_ & a & Ha & Ht). by apply (is_dir_eq A q a Ha).
  - intros s v q m c (A & Hs & Hsh & ->). apply Hsh.
  - intros s v q m c (A & Hs & _ & ->). cbn. intros [H _]%entry_Some; [|by eapply sim_wf]. apply (reach_view A s q Hs). by eapply (t_reach _ _ (proj2 Hs)).
  - intros s v (A & Hs & _ & ->). cbn. split; [apply (t_top _ _ (proj2 Hs))|]. apply bool_decide_eq_true, (t_root _ _ (proj2 Hs)).
  - exact ramfs_refnew_law.
  - exact ramfs_refdrop_law.
  - exact ramfs_lookup_law.
  - eexists. split; [done|]. exact ramfs_create_law.
  - eexists. split; [done|]. exact ramfs_link_law.
  - eexists. split; [done|]. exact ramfs_unlink_law.
  - exact ramfs_stat_law.
  - exact ramfs_open_law.
Defined.
End laws.
End VfsRamfs.
