(* ===== verification/VfsBoot.v ===== *)
(** * The virtual file system: the root of a volume

    The first node of the cache, made by [vfs_create_root] for a new volume. *)

From stdpp Require Import gmap gmultiset.
From S2P Require Import Prelude FileOps RamfsFile Ramfs Vfs VfsSpec VfsOps VfsNodes VfsWalk VfsCalls.
Import FileOps Vfs VfsSpec VfsOps VfsNodes VfsWalk VfsCalls.

Module VfsBoot.
Section boot.
Context {A F S : Type} `{ops : !FsOps A F S} (cfg : config) `{laws : !FsLaws A F S cfg} (vol r0 : nat).
Abbreviation vfs := (vfs S).
Abbreviation st := (st cfg vol none).

(** A volume as its file system makes it, and no node in the cache. *)
Definition volume : vfs_fs_s := {| lru_list := []; fs_root := top; fs_ref := 0; flag_ro := false; old_node := None |}.
Definition mounted (u : S) : vfs := Build_vfs ∅ {[vol := volume]} None u.
Definition empty_cache : cache := {| attrs := ∅; place := ∅; ext := ∅ |}.
Definition root_cache : cache :=
  {| attrs := {[r0 := {| a_name := replicate (Ramfs.NAMELEN cfg) 0; a_parent := Some r0; a_fsn := top |}]}; place := ∅; ext := base r0 |}.

Lemma mounted_st u v : rel u v → st ∅ empty_cache v (held v) (mounted u).
Proof.
  intros Hr. assert (fsrefs empty_cache = ∅) as Hf by (unfold fsrefs; cbn; by rewrite map_to_list_empty). split; [|done|by rewrite Hf, (right_id_L ∅ (⊎))|done]. split.
  - split; cbn; [intros *; by rewrite lookup_empty|intros *; by rewrite lookup_empty|intros n Hn; multiset_solver].
  - intros n. cbn. by rewrite !lookup_empty.
  - exists volume. cbn. rewrite lookup_singleton_eq. split_and!; try done; [constructor|]. intros n. split; [by intros ?%not_elem_of_nil|]. intros (x & Hx & _). by rewrite lookup_empty in Hx.
Qed.
(** A node becomes its own parent. *)
Lemma self_parent_spec C v X s n a : st ∅ C v X s → attrs C !! n = Some a → a_parent a = None → place C !! n = None → ∃ s', modn n (set_parent (Some n)) s = Ok s' ∧ st ∅ (reparent n (Some n) C) v X s'.
Proof.
  intros Hs Ha Hp Hpl. destruct (getn_spec cfg vol none ∅ C v X s n a Hs Ha) as (x & E & Hnx & Hx). unfold modn. rewrite E. cbn [mbind outcome_bind]. eexists. split; [done|]. pose proof Hs as [Hc _ _ _]. pose proof (c_wf _ _ _ _ _ Hc) as [W1 W2 W3].
  assert (∀ m, refs (reparent n (Some n) C) m = refs C m) as Hrf. { intros m. unfold refs, linked. pose proof (users_parent (Some n) n a C m Ha) as Hu. rewrite !decide_False in Hu by (unfold child_of; cbn; naive_solver). cbn [reparent set_attrs ext place]. change (set_attrs (alter (with_parent (Some n)) n) C) with (reparent n (Some n) C) in Hu. lia. }
  eapply st_core; [done| |done|apply fsrefs_alter]. eapply (core_putn cfg vol ∅ ∅ C (reparent n (Some n) C) s n _ x (with_parent (Some n) a)); try done.
  - split.
    + intros c m Hc'. change (place C !! c = Some m) in Hc'. destruct (W1 c m Hc') as [Hne Hpc]. split; [done|]. rewrite reparent_lookup, decide_False; [done|]. intros ->. congruence.
    + intros c b m Hb Hm. rewrite reparent_alive. rewrite reparent_lookup in Hb. destruct (decide (c = n)) as [->|]; [|by eapply W2]. rewrite Ha in Hb. cbn in Hb. injection Hb as <-. cbn in Hm. injection Hm as <-. eauto.
    + intros m Hm. rewrite reparent_alive. by apply W3.
  - by rewrite reparent_lookup, decide_True, Ha.
  - destruct Hx. split; try done; rewrite ?Hrf; try done. by eapply (reparent_chains cfg n (Some n) C).
  - intros m Hm. by rewrite reparent_lookup, decide_False.
  - intros m b _. by apply (reparent_chains cfg n (Some n) C).
Qed.
Lemma base_two : (2 <= multiplicity r0 (base r0))%nat.
Proof. unfold base. rewrite multiplicity_disj_union, multiplicity_singleton, decide_True by done. lia. Qed.
Lemma root_coh v : coh cfg r0 root_cache v.
Proof.
  split; cbn.
  - intros c a p. cbn [root_cache attrs]. rewrite lookup_singleton_Some. intros [<- <-]. cbn. congruence.
  - intros c a p. rewrite lookup_singleton_Some. intros [<- <-]. cbn. congruence.
  - eexists. by rewrite lookup_singleton_eq.
  - intros c a. rewrite lookup_singleton_Some. by intros [<- <-].
  - intros c a c' a'. rewrite !lookup_singleton_Some. by intros [<- _] [<- _].
  - exact base_two.
Qed.

Lemma createnew_root u r s1 : vfs_node_createnew cfg (Some r0) vol None top (mounted u) = Ok (r, s1) → global_root s1 = None.
Proof.
  unfold vfs_node_createnew, getf. cbn [mounted volumes]. rewrite lookup_singleton_eq. cbn [of_option mbind outcome_bind volume lru_list length recycle_loop]. unfold vfs_lru_pop, getf. cbn [mounted volumes]. rewrite lookup_singleton_eq. cbn [of_option mbind outcome_bind volume lru_list].
  unfold vfs_node_new, vfs_node_constructor, do_refnew. cbn [mounted under]. destruct (op_node_refnew top u); [|done]. cbn [mbind outcome_bind]. unfold modf, getf. cbn [mounted set_under volumes]. rewrite lookup_singleton_eq. cbn. by intros [= _ <-].
Qed.

(** The node of the root, with the references of the caller and of the global root. *)
Lemma root_spec u v : rel u v → top ∈ held v →
  ∃ s' v', vfs_create_root cfg true (Some r0) vol (mounted u) = Ok (0, Some r0, s') ∧ good cfg vol r0 none (base r0 ⊎ ∅) root_cache v' (held v) s' ∧ steady top v v'.
Proof.
  intros Hr Ht. pose proof (mounted_st u v Hr) as Hs. unfold vfs_create_root, getf. cbn [mounted volumes]. rewrite lookup_singleton_eq. cbn [of_option mbind outcome_bind volume old_node fs_root]. rewrite bool_decide_true by done. cbn [negb].
  destruct (createnew_spec cfg vol none ∅ empty_cache v (held v) (mounted u) (Some r0) None top Hs) as (r & s1 & v1 & C1 & Ecn & Hsh & Hst & _ & Hres); try done.
  change (Build_vfs ∅ {[vol := _]} None u) with (mounted u). rewrite Ecn. cbn [mbind outcome_bind]. destruct r as [n|]; [|by destruct Hres as [? _]]. destruct Hres as (_ & Hn & Hs1). specialize (Hn (lookup_empty _)). injection Hn as <-.
  assert (C1 = empty_cache) as ->. { destruct Hsh as [->|(z & p & (_ & _ & _ & _ & _ & [az Haz]) & _)]; [done|]. cbn in Haz. by rewrite lookup_empty in Haz. }
  cbn [default] in Hs1. destruct (self_parent_spec _ v1 _ s1 r0 {| a_name := replicate (Ramfs.NAMELEN cfg) 0; a_parent := None; a_fsn := top |} Hs1) as (s2 & E2 & Hs2); [by rewrite born_lookup, decide_True|done..|]. assert (global_root s2 = None) as Hg2.
  { unfold modn in E2. destruct (getn r0 s1); [|done]. injection E2 as <-. cbn. by rewrite (createnew_root _ _ _ Ecn). }
  rewrite E2. cbn [mbind outcome_bind].
  destruct (getf_spec cfg vol none _ _ _ _ _ Hs2) as (w & _ & Ew & Hwt & Hro). rewrite (modf_eq vol s2 w _ Ew). cbn [mbind outcome_bind]. set (s3 := Build_vfs _ _ _ _).
  assert (st ∅ (reparent r0 (Some r0) (born r0 (replicate (Ramfs.NAMELEN cfg) 0) top empty_cache)) v1 (held v) s3) as Hs3.
  { destruct Hs2 as [[Hw Hno (w' & Ew' & Htr & Hnd & Hl)] Hrel Hh Hfr]. rewrite Ew in Ew'. injection Ew' as <-. split; [|done..]. split; [done|done|]. exists (set_old_node None w). cbn. by rewrite lookup_insert_eq. }
  unfold vfs_set_root. destruct (refnew_spec' cfg vol none ∅ _ v1 _ s3 r0 Hs3) as (s4 & -> & Hs4); [rewrite reparent_alive, born_lookup, decide_True by done; eauto|]. cbn [mbind outcome_bind].
  assert (hold r0 (reparent r0 (Some r0) (born r0 (replicate (Ramfs.NAMELEN cfg) 0) top empty_cache)) = root_cache) as EC.
  { apply cache_eq; [|done|change (∅ ⊎ {[+ r0 +]} ⊎ {[+ r0 +]} = base r0); unfold base; by rewrite (left_id_L ∅ (⊎))]. cbn. apply map_eq. intros i. destruct (decide (i = r0)) as [->|]; [by rewrite lookup_alter_eq, lookup_insert_eq, lookup_singleton_eq|]. by rewrite lookup_alter_ne, lookup_insert_ne, lookup_singleton_ne. }
  rewrite EC in Hs4. change (global_root s3) with (global_root s2). rewrite Hg2. cbn [refdrop_opt mbind outcome_bind]. do 2 eexists. split; [done|]. split; [|done]. split; try done.
  - destruct Hs4 as [[Hw Hno Hl] Hrel Hh Hfr]. by split.
  - apply root_coh.
  - change (base r0 ⊎ ∅ ⊆ base r0). by rewrite (right_id_L ∅ (⊎)).
  - rewrite (right_id_L ∅ (⊎)). exact base_two.
Qed.
End boot.
End VfsBoot.
