(* ===== verification/VfsTree.v ===== *)
(** * The virtual file system: its theorems

    Lookups, creations and removals by path, sequences of calls, and the whole stack
    over the memory file system. *)

From stdpp Require Import gmap gmultiset.
From S2P Require Import Prelude FileOps RamfsFile Ramfs RamfsSpec RamfsTree RamfsNames Vfs VfsSpec VfsOps VfsNodes VfsPath VfsWalk VfsApi VfsCalls VfsRamfs VfsBoot.
Import FileOps Vfs VfsSpec VfsOps VfsNodes VfsPath VfsWalk VfsApi VfsCalls VfsBoot.

Module VfsTree.
Section tree.
Context {A F S : Type} `{ops : !FsOps A F S} (cfg : config) `{laws : !FsLaws A F S cfg} (vol r0 : nat).
Abbreviation vfs := (vfs S).
Abbreviation keeps := (keeps cfg).
Abbreviation resolve := (resolve cfg).
Abbreviation good := (good cfg vol r0).
Abbreviation mangle := (vfs_name_mangle cfg).

(** C9. A lookup gives the node the path leads to in the tree of the file system, or the
    error that stops the path there, whatever is in the cache. *)
Theorem vfs_lookup_resolves Fr root rt cwd q path X E C v s alloc :
  good Fr E C v X s → root ∈ E → cwd ∈ E → att C root rt → att C cwd q → answers alloc C → granted alloc (length (comps path)) →
  ∃ e r s' C' v' l q', vfs_lookup cfg root cwd path alloc s = Ok (e, r, s') ∧ good Fr (E ⊎ opt r) C' v' X s' ∧ keeps E C v C' v' ∧
    resolve v rt (comps path) (start path rt q) = (e, l, q') ∧ match r with Some n => e = 0 ∧ att C' n q' | None => e ≠ 0 end.
Proof.
  intros Hg HrE HcE Hrt Hq Hal Hgr. destruct (path_lookup_spec cfg vol r0 Fr root rt cwd q path X E C v s alloc Hg HrE HcE Hrt Hq Hal) as (e & r & s' & C' & v' & Ee & Hg' & K & _ & [(l & q' & Hres & Hr)|(_ & _ & Hno)]); [|by destruct Hno].
  exists e, r, s', C', v', l, q'. done.
Qed.

(** C10. A creation by path makes a node of the type under the last name of the path in
    the directory before it, and the path leads to it afterwards; every other entry of
    the tree stays.  A path that does not name a new entry is an error that changes
    nothing. *)
Theorem vfs_create_makes Fr root rt cwd q path X E C v s ans ans' ty alloc :
  good Fr E C v X s → root ∈ E → cwd ∈ E → att C root rt → att C cwd q → 0 ∉ path → Fr ans → gives ans → answers alloc C → granted alloc (length (comps path) + 2) →
  (∀ c, last (comps path) = Some c → (length c < Ramfs.NAMELEN cfg)%nat) →
  ∃ e r s' C' v', vfs_create cfg ans ans' root cwd path ty alloc s = Ok (e, r, s') ∧ good none (E ⊎ opt r) C' v' X s' ∧ stays E C C' ∧
    match create_code cfg v rt path q with
    | Some e' => e = e' ∧ r = None ∧ steady top v v'
    | None => e = 0 ∧ ∃ n q' c d, r = Some n ∧ att C' n q' ∧ resolve v rt (comps path) (start path rt q) = (- ENOENT, [c], d) ∧ made cfg v v' d (mangle c) ty q' ∧
                                  resolve v' rt (comps path) (start path rt q) = (0, [], q')
    end.
Proof.
  intros Hg HrE HcE Hrt Hq Hz Hf Hgv Hal Hgr Hlen. pose proof (g_coh _ _ _ _ _ _ _ _ _ Hg) as H. pose proof (s_rel _ _ _ _ _ _ _ _ (g_st _ _ _ _ _ _ _ _ _ Hg)) as Hrel.
  destruct (create_spec cfg vol r0 Fr root rt cwd q path X E C v s ans ans' ty alloc Hg HrE HcE Hrt Hq Hz Hf Hal) as (e & r & s' & C' & v' & Ee & Hg' & Hst & Hcase). exists e, r, s', C', v'. split_and!; try done.
  destruct Hcase as [(He & -> & Hs & Hwhy)|(c & d & q' & -> & Hres & Hent & Hmk & Hr & _)].
  - specialize (Hwhy Hgr). destruct (create_code cfg v rt path q); [done|]. by destruct Hwhy.
  - destruct r as [n|]; [|by destruct Hr]. destruct Hr as [-> Hn]. split; [done|]. exists n, q', c, d. split_and!; try done. eapply (resolve_made cfg v v' (under s) (under s')); try done; [apply Hg'|by eapply start_reach|by eapply att_reach].
Qed.

(** C11. A removal by path takes the entry of an empty node out of the tree, and nothing
    else; the path leads nowhere afterwards.  The root, a directory with entries and a
    path that leads nowhere are errors that change nothing. *)
Theorem vfs_unlink_removes Fr root rt cwd q path X E C v s alloc :
  good Fr E C v X s → root ∈ E → cwd ∈ E → att C root rt → att C cwd q → answers alloc C → granted alloc (length (comps path)) →
  ∃ e s' C' v' e' l q', vfs_unlink cfg root cwd path alloc s = Ok (e, s') ∧ good Fr E C' v' X s' ∧ resolve v rt (comps path) (start path rt q) = (e', l, q') ∧
    (e = 0 ∧ e' = 0 ∧ q' ≠ top ∧ (∀ m, ent v q' m = None) ∧ (∃ d m, ent v d m = Some q' ∧ edited top d m None v v') ∧
       (rt ≠ q' → start path rt q ≠ q' → (resolve v' rt (comps path) (start path rt q)).1.1 = - ENOENT) ∨
     e ≠ 0 ∧ steady top v v' ∧ (e' ≠ 0 ∧ e = e' ∨ e' = 0 ∧ (q' = top ∧ e = - EBUSY ∨ ∃ m c, ent v q' m = Some c))).
Proof.
  intros Hg HrE HcE Hrt Hq Hal Hgr. pose proof (g_coh _ _ _ _ _ _ _ _ _ Hg) as H. pose proof (s_rel _ _ _ _ _ _ _ _ (g_st _ _ _ _ _ _ _ _ _ Hg)) as Hrel.
  destruct (unlink_spec cfg vol r0 Fr root rt cwd q path X E C v s alloc Hg HrE HcE Hrt Hq Hal) as (e & s' & C' & v' & Ee & Hg' & Hcase). destruct (resolve v rt (comps path) (start path rt q)) as [[e' l] q'] eqn:Er. exists e, s', C', v', e', l, q'. split; [done|]. split; [done|]. split; [done|].
  destruct Hcase as [(He & Hs & _ & Hwhy)|(-> & q1 & d & m & [= -> -> ->] & Hqt & Hm & Hemp & Hed & _)].
  - right. specialize (Hwhy Hgr). split_and!; try done. destruct (Z.eqb_spec e' 0) as [->|He']; [right; split; [done|]; naive_solver|by left].
  - left. split_and!; try done; [eauto|]. intros Hrt' Hst. eapply (resolve_cut cfg d m q1 v v' (under s) (under s')); try done; [apply Hg'|by eapply start_reach].
Qed.

(** C12. Every sequence of lookups, creations, opens (without truncation), queries, links,
    removals and releases returns, where the process names working directories that it
    refers to and that are still in the tree, releases what it refers to, and the
    allocators answer with unused addresses.  The tree before a call decides its error,
    what it changes in the tree and what the caller gets: the node of the cache that
    stands for the node the path leads to, the file opened on it, its attributes.  A
    call does anything else only when memory it asks for is refused; it then fails, and
    leaves the tree alone or with the entry that it was to make.  The cache agrees with
    the tree at the end. *)
Theorem vfs_calls_refine_tree cs E C v X s :
  good none (base r0 ⊎ E) C v X s → legal cfg r0 E cs s →
  ∃ es s' v', run_calls cfg r0 cs s = Ok (es, s') ∧ explained cfg r0 s v cs es s' v' ∧ rel (under s') v' ∧ coherent s' v'.
Proof.
  intros Hg Hl. destruct (calls_spec cfg vol r0 cs E C v X s Hg Hl) as (es & s' & E' & C' & v' & X' & Er & Hg' & Hx). exists es, s', v'. split_and!; try done; [apply Hg'|by eapply good_coherent].
Qed.
End tree.

(** ** Over the memory file system *)

Section ramfs.
Context (cfg : config) (root : nat).
#[local] Instance ops : FsOps VfsRamfs.answer Ramfs.vfs_file_s Ramfs.ramfs := VfsRamfs.ramfs_ops cfg.
#[local] Instance laws : FsLaws VfsRamfs.answer Ramfs.vfs_file_s Ramfs.ramfs cfg := VfsRamfs.ramfs_laws cfg root.

(** A memory file system that was just opened, and the root of the cache. *)
Lemma booted r0 vol : ∃ u s v, Ramfs.ramfs_open true (Some root) RamfsTree.fs_empty = Ok (0, Some root, u) ∧
  vfs_create_root cfg true (Some r0) vol (mounted cfg vol u) = Ok (0, Some r0, s) ∧ good cfg vol r0 none (base r0 ⊎ ∅) (root_cache cfg r0) v {[+ root +]} s ∧ (∀ m, ent v root m = None).
Proof.
  destruct (RamfsTree.open_spec cfg root) as (u & Eu & Hsim). assert (∀ q m, RamfsSpec.entry (RamfsTree.astart root) q m = None) as Hent.
  { intros q m. apply RamfsSpec.entry_None; [by eapply VfsRamfs.sim_wf|]. intros c. cbn. by rewrite lookup_empty. }
  assert (rel u (VfsRamfs.view_of (RamfsTree.astart root))) as Hr by (exists (RamfsTree.astart root); split; [done|]; split; [|done]; intros q m c; by rewrite Hent).
  destruct (root_spec cfg vol r0 u _ Hr) as (s & v & Es & Hg & Hst); [by apply gmultiset_elem_of_singleton|]. exists u, s, v. split_and!; try done. intros m. destruct (Hst root) as (_ & -> & _); [constructor|]. apply Hent.
Qed.

(** C8. The whole stack: a memory file system is opened and becomes the root of the
    virtual file system with an empty tree.  From then on every legal sequence of calls
    ([legal]: live working directories, owned references, unused addresses, paths
    without a null byte, no truncating open) returns without a fault in either layer.
    The tree decides the error of each call, its change of the tree and the node, file
    or attributes it gives, but for a call that is refused memory, which fails.  The
    memory file system holds the tree that results. *)
Theorem vfs_over_ramfs r0 vol cs :
  ∃ u s v, Ramfs.ramfs_open true (Some root) RamfsTree.fs_empty = Ok (0, Some root, u) ∧
    vfs_create_root cfg true (Some r0) vol (mounted cfg vol u) = Ok (0, Some r0, s) ∧ rel (under s) v ∧ (∀ m, ent v root m = None) ∧
    (legal cfg r0 ∅ cs s → ∃ es s' v', run_calls cfg r0 cs s = Ok (es, s') ∧ explained cfg r0 s v cs es s' v' ∧ rel (under s') v' ∧ coherent s' v').
Proof.
  destruct (booted r0 vol) as (u & s & v & Eu & Es & Hg & Hent). exists u, s, v. split_and!; try done; [apply Hg|].
  intros Hl. destruct (calls_spec cfg vol r0 cs ∅ _ v _ s Hg Hl) as (es & s' & E' & C' & v' & X' & Er & Hg' & Hx). exists es, s', v'. split_and!; try done; [apply Hg'|by eapply good_coherent].
Qed.

(** *** Legal calls, decided *)

Definition usableb (r0 : nat) (E : gmultiset nat) (s : vfs Ramfs.ramfs) (n : nat) : bool :=
  (bool_decide (n = r0) || bool_decide (n ∈ E)) && match vnodes s !! n with Some x => negb (bool_decide (v_parent x = None)) | None => false end.
Definition unusedb (s : vfs Ramfs.ramfs) (alloc : list (option nat)) : bool :=
  bool_decide (NoDup (omap id alloc)) && forallb (λ o, match o with Some k => bool_decide (vnodes s !! k = None) | None => true end) alloc.
Definition freshb (a : VfsRamfs.answer) (u : Ramfs.ramfs) : bool :=
  match VfsRamfs.for_object a with Some n => bool_decide (Ramfs.nodes u !! n = None) | None => true end &&
  match VfsRamfs.for_data a with Some d => bool_decide (Ramfs.datas u !! d = None) | None => true end.
Definition legal_callb (r0 : nat) (E : gmultiset nat) (c : call VfsRamfs.answer) (s : vfs Ramfs.ramfs) : bool :=
  match c with
  | CLookup cwd _ alloc | CStat cwd _ alloc | CUnlink cwd _ alloc => usableb r0 E s cwd && unusedb s alloc
  | CCreate ans _ cwd path _ alloc => usableb r0 E s cwd && unusedb s alloc && bool_decide (0 ∉ path) && freshb ans (under s)
  | COpen ans _ _ cwd path flags alloc => usableb r0 E s cwd && unusedb s alloc && bool_decide (0 ∉ path) && freshb ans (under s) && negb (RamfsFile.flag flags VFS_OPEN_TRUNCATE)
  | CLink ans cwd _ dst alloc => usableb r0 E s cwd && unusedb s alloc && bool_decide (0 ∉ dst) && freshb ans (under s)
  | CDrop n => bool_decide (n ∈ E)
  end.
Fixpoint legalb (r0 : nat) (E : gmultiset nat) (cs : list (call VfsRamfs.answer)) (s : vfs Ramfs.ramfs) : bool :=
  match cs with
  | [] => true
  | c :: cs => legal_callb r0 E c s && match run_call cfg r0 c s with Ok (_, r, s') => legalb r0 (owned c r E) cs s' | Err _ => true end
  end.
Lemma usableb_spec r0 E s n : usableb r0 E s n = true → usable r0 E s n.
Proof.
  unfold usableb. intros [H1 H2]%andb_true_iff. split; [apply orb_true_iff in H1 as [H1|H1]; apply bool_decide_eq_true in H1; [by left|by right]|]. destruct (vnodes s !! n) as [x|]; [|done]. exists x. split; [done|]. by apply negb_true_iff, bool_decide_eq_false in H2.
Qed.
Lemma unusedb_spec s alloc : unusedb s alloc = true → unused s alloc.
Proof.
  unfold unusedb. intros [H1 H2]%andb_true_iff. split; [by apply bool_decide_eq_true in H1|]. intros k Hk. apply list_elem_of_In in Hk. rewrite forallb_forall in H2. specialize (H2 _ Hk). by apply bool_decide_eq_true in H2.
Qed.
Lemma freshb_spec a u : freshb a u = true → fresh a u.
Proof. unfold freshb. intros [H1 H2]%andb_true_iff. split; intros k Hk; rewrite Hk in *; by eapply bool_decide_eq_true. Qed.
Lemma legal_callb_spec r0 E c s : legal_callb r0 E c s = true → legal_call cfg r0 E c s.
Proof.
  destruct c; cbn [legal_callb legal_call]; rewrite ?andb_true_iff, ?bool_decide_eq_true, ?negb_true_iff; intros H; decompose [and] H; split_and?; auto using usableb_spec, unusedb_spec, freshb_spec.
Qed.
Lemma legal_calls_spec r0 cs : ∀ E s, legalb r0 E cs s = true → legal cfg r0 E cs s.
Proof.
  induction cs as [|c cs IH]; intros E s; cbn [legalb legal]; [done|]. intros [H1 H2]%andb_true_iff. split; [by apply legal_callb_spec|]. intros e r s' Er. rewrite Er in H2. by apply IH.
Qed.
End ramfs.

(** ** A run *)

Module Run.
#[local] Instance ops : FsOps VfsRamfs.answer Ramfs.vfs_file_s Ramfs.ramfs := VfsRamfs.ramfs_ops RamfsTree.demo_cfg.
#[local] Instance laws : FsLaws VfsRamfs.answer Ramfs.vfs_file_s Ramfs.ramfs RamfsTree.demo_cfg := VfsRamfs.ramfs_laws RamfsTree.demo_cfg 0.

Definition memory (n : nat) : VfsRamfs.answer := {| VfsRamfs.for_object := Some n; VfsRamfs.for_data := Some n |}.
Definition storage (n : nat) : list (option nat) := Some <$> seq n 6.
(** "/a", "a/b", "/a/../a/./b" and "/a/b". *)
Definition path_a : list Z := [47; 97].
Definition path_ab : list Z := [97; 47; 98].
Definition path_dots : list Z := [47; 97; 47; 46; 46; 47; 47; 97; 47; 46; 47; 98].
Definition calls : list (call VfsRamfs.answer) :=
  [CCreate (memory 1) (memory 2) 10 path_a VFS_NODE_DIR (storage 20);
   CCreate (memory 3) (memory 4) 10 path_ab VFS_NODE_FILE (storage 30);
   CStat 10 path_dots (storage 40);
   CLink (memory 5) 10 path_ab [98] (storage 50);
   CUnlink 10 path_a (storage 60);
   CUnlink 10 path_dots (storage 70);
   CLookup 10 path_ab (storage 80);
   COpen (memory 6) (memory 7) (memory 8) 10 [98] VFS_OPEN_READ (storage 90)].
Definition start_s : vfs Ramfs.ramfs := Eval vm_compute in
  match Ramfs.ramfs_open true (Some 0%nat) RamfsTree.fs_empty with
  | Ok (_, _, u) => (ok_or (0, None, mounted RamfsTree.demo_cfg 0 u) (vfs_create_root RamfsTree.demo_cfg true (Some 10%nat) 0 (mounted RamfsTree.demo_cfg 0 u))).2
  | Err _ => mounted RamfsTree.demo_cfg 0 RamfsTree.fs_empty
  end.
Definition end_s : list (Z * result Ramfs.vfs_file_s) * vfs Ramfs.ramfs := Eval vm_compute in ok_or ([], start_s) (run_calls RamfsTree.demo_cfg 10 calls start_s).

Lemma start_good : ∃ v, good RamfsTree.demo_cfg 0 10 none (base 10 ⊎ ∅) (root_cache RamfsTree.demo_cfg 10) v {[+ 0%nat +]} start_s ∧ ∀ m, ent v 0%nat m = None.
Proof.
  destruct (booted RamfsTree.demo_cfg 0 10 0) as (u & s & v & Eu & Es & Hg & Hent). vm_compute in Eu. injection Eu as <-. vm_compute in Es. injection Es as <-. exists v. split; [exact Hg|done].
Qed.
Lemma calls_legal : legalb RamfsTree.demo_cfg 10 ∅ calls start_s = true.
Proof. by vm_compute. Qed.
Lemma calls_run : run_calls RamfsTree.demo_cfg 10 calls start_s = Ok end_s ∧ end_s.1.*1 = [0; 0; 0; 0; - EBUSY; 0; - ENOENT; 0].
Proof. split; by vm_compute. Qed.

(** After the first two calls. *)
Definition mid_s : vfs Ramfs.ramfs := Eval vm_compute in (ok_or ([], start_s) (run_calls RamfsTree.demo_cfg 10 (take 2 calls) start_s)).2.
Lemma mid_good : ∃ E C v X, good RamfsTree.demo_cfg 0 10 none (base 10 ⊎ E) C v X mid_s.
Proof.
  destruct start_good as (v & Hg & _). destruct (calls_spec RamfsTree.demo_cfg 0 10 (take 2 calls) ∅ _ v _ start_s Hg) as (es & s & E & C & v' & X & Er & Hg' & _); [apply legal_calls_spec; by vm_compute|].
  vm_compute in Er. injection Er as _ <-. exists E, C, v', X. exact Hg'.
Qed.
Lemma storage_granted n k : (k <= 6)%nat → granted (storage n) k.
Proof. intros Hk i Hi. unfold storage. rewrite list_lookup_fmap. destruct (lookup_lt_is_Some_2 (seq n 6) i) as [x ->]; [rewrite length_seq; lia|done]. Qed.
Lemma storage_answers E C v X n : good RamfsTree.demo_cfg 0 10 none E C v X mid_s → unusedb mid_s (storage n) = true → answers (storage n) C.
Proof. intros Hg Hu. eapply unused_answers; [exact Hg|]. by apply unusedb_spec. Qed.

Lemma vfs_lookup_resolves_witness :
  ∃ v n s' q l, vfs_lookup RamfsTree.demo_cfg 10 10 path_dots (storage 40) mid_s = Ok (0, Some n, s') ∧ resolve RamfsTree.demo_cfg v 0 (comps path_dots) 0 = (0, l, q).
Proof.
  destruct mid_good as (E & C & v & X & Hg). pose proof (root_att RamfsTree.demo_cfg 10 C v (g_coh _ _ _ _ _ _ _ _ _ Hg)) as Ha. pose proof (base_root 10 E) as Hr.
  destruct (vfs_lookup_resolves RamfsTree.demo_cfg 0 10 none 10 0 10 0 path_dots X _ C v mid_s (storage 40) Hg Hr Hr Ha Ha) as (e & r & s' & C' & v' & l & q & Ee & _ & _ & Hres & Hn).
  - eapply storage_answers; [exact Hg|]. by vm_compute.
  - apply storage_granted. by vm_compute; lia.
  - pose proof Ee as Ee'. vm_compute in Ee'. injection Ee' as <- <- <-. eexists v, _, _, q, l. split; [exact Ee|exact Hres].
Defined.

Lemma vfs_create_makes_witness :
  ∃ v v' n s' q, vfs_create RamfsTree.demo_cfg (memory 5) (memory 6) 10 10 [97; 47; 99] VFS_NODE_FILE (storage 40) mid_s = Ok (0, Some n, s') ∧
    create_code RamfsTree.demo_cfg v 0 [97; 47; 99] 0 = None ∧ resolve RamfsTree.demo_cfg v' 0 (comps [97; 47; 99]) 0 = (0, [], q).
Proof.
  destruct mid_good as (E & C & v & X & Hg0). pose proof (good_fresh RamfsTree.demo_cfg 0 10 none (λ a, a = memory 5) _ C v X mid_s Hg0 ltac:(intros ? ->; by apply freshb_spec; vm_compute)) as Hg. pose proof (root_att RamfsTree.demo_cfg 10 C v (g_coh _ _ _ _ _ _ _ _ _ Hg)) as Ha. pose proof (base_root 10 E) as Hr.
  destruct (vfs_create_makes RamfsTree.demo_cfg 0 10 (λ a, a = memory 5) 10 0 10 0 [97; 47; 99] X _ C v mid_s (memory 5) (memory 6) VFS_NODE_FILE (storage 40) Hg Hr Hr Ha Ha) as (e & r & s' & C' & v' & Ee & _ & _ & Hn).
  - set_solver.
  - done.
  - split; by eexists.
  - eapply storage_answers; [exact Hg0|]. by vm_compute.
  - apply storage_granted. by vm_compute; lia.
  - vm_compute. intros c [= <-]. by vm_compute; lia.
  - pose proof Ee as Ee'. vm_compute in Ee'. injection Ee' as <- <- <-. destruct (create_code RamfsTree.demo_cfg v 0 [97; 47; 99] 0) as [e'|] eqn:Ec; [by destruct Hn as (_ & ? & _)|]. destruct Hn as (_ & n & q' & c & d & _ & _ & _ & _ & Hres). eexists v, v', _, _, q'. split; [exact Ee|]. split; [exact Ec|exact Hres].
Defined.

Lemma vfs_unlink_removes_witness :
  ∃ v v' s' q l, vfs_unlink RamfsTree.demo_cfg 10 10 path_dots (storage 40) mid_s = Ok (0, s') ∧
    resolve RamfsTree.demo_cfg v 0 (comps path_dots) 0 = (0, l, q) ∧ (resolve RamfsTree.demo_cfg v' 0 (comps path_dots) 0).1.1 = - ENOENT.
Proof.
  destruct mid_good as (E & C & v & X & Hg). pose proof (root_att RamfsTree.demo_cfg 10 C v (g_coh _ _ _ _ _ _ _ _ _ Hg)) as Ha. pose proof (base_root 10 E) as Hr.
  destruct (vfs_unlink_removes RamfsTree.demo_cfg 0 10 none 10 0 10 0 path_dots X _ C v mid_s (storage 40) Hg Hr Hr Ha Ha) as (e & s' & C' & v' & e' & l & q & Ee & _ & Hres & Hcase).
  - eapply storage_answers; [exact Hg|]. by vm_compute.
  - apply storage_granted. by vm_compute; lia.
  - pose proof Ee as Ee'. vm_compute in Ee'. injection Ee' as <- <-. destruct Hcase as [(_ & Hz & Hq & _ & _ & Hgone)|[Hz _]]; [|by destruct Hz]. rewrite Hz in Hres. eexists v, v', _, q, l. split; [exact Ee|]. split; [exact Hres|]. apply Hgone; exact (not_eq_sym Hq).
Defined.

Lemma vfs_calls_refine_tree_witness :
  ∃ v v', run_calls RamfsTree.demo_cfg 10 calls start_s = Ok end_s ∧ explained RamfsTree.demo_cfg 10 start_s v calls end_s.1 end_s.2 v' ∧ coherent end_s.2 v'.
Proof.
  destruct start_good as (v & Hg & _). destruct (vfs_calls_refine_tree RamfsTree.demo_cfg 0 10 calls ∅ _ v _ start_s Hg) as (es & s' & v' & Er & Hx & _ & Hc); [apply legal_calls_spec; exact calls_legal|].
  destruct calls_run as [Er' _]. rewrite Er in Er'. injection Er' as -> ->. exists v, v'. split; [exact Er|]. split; [exact Hx|exact Hc].
Defined.

Lemma vfs_over_ramfs_witness :
  ∃ v v', run_calls RamfsTree.demo_cfg 10 calls start_s = Ok end_s ∧ explained RamfsTree.demo_cfg 10 start_s v calls end_s.1 end_s.2 v' ∧ rel (under end_s.2) v'.
Proof.
  destruct (vfs_over_ramfs RamfsTree.demo_cfg 0 10 0 calls) as (u & s & v & Eu & Es & _ & _ & Hall). vm_compute in Eu. injection Eu as <-. vm_compute in Es. injection Es as <-.
  destruct (Hall (legal_calls_spec RamfsTree.demo_cfg 0 10 calls ∅ start_s calls_legal)) as (es & s' & v' & Er & Hx & Hr & _).
  destruct calls_run as [Er' _]. pose proof (eq_trans (eq_sym Er) Er') as E. injection E as -> ->. exists v, v'. split; [exact Er|]. split; [exact Hx|exact Hr].
Defined.

(** *** What the code does not mean to do *)

Definition after {T} (d : T) (o : outcome (T * vfs Ramfs.ramfs)) : vfs Ramfs.ramfs := (ok_or (d, mid_s) o).2.
Definition node_of (path : list Z) (s : vfs Ramfs.ramfs) : nat := default 0%nat (match vfs_lookup RamfsTree.demo_cfg 10 10 path (storage 100) s with Ok (_, n, _) => n | Err _ => None end).

(** After a move to another directory and name, the cache has the node under its old
    name there: "/b" is found where only "/c" exists, and the memory file system has
    no such entry. *)
Theorem moved_under_old_name :
  let s := after 1 (vfs_node_move RamfsTree.demo_cfg (node_of path_ab mid_s) 10 [99] mid_s) in
  is_ok (vfs_node_move RamfsTree.demo_cfg (node_of path_ab mid_s) 10 [99] mid_s) = true ∧
  (∃ n s', vfs_lookup RamfsTree.demo_cfg 10 10 [98] (storage 100) s = Ok (0, Some n, s')) ∧ (∃ u', Ramfs.ramfs_lookup RamfsTree.demo_cfg 0 [98] (under s) = Ok (- ENOENT, None, u')).
Proof. split_and!; [by vm_compute|eexists _, _; vm_compute; reflexivity|eexists; vm_compute; reflexivity]. Qed.
(** A move inside a directory takes its semaphore twice. *)
Theorem move_in_place_blocks : vfs_node_move RamfsTree.demo_cfg (node_of path_a mid_s) 10 [99] mid_s = Err FSpin.
Proof. by vm_compute. Qed.
(** A link to a target that exists succeeds without linking. *)
Theorem link_to_existing :
  ∃ s', vfs_link RamfsTree.demo_cfg (memory 5) 10 10 path_ab path_a (storage 40) mid_s = Ok (0, s') ∧
    ∃ n x s'', vfs_lookup RamfsTree.demo_cfg 10 10 path_a (storage 60) s' = Ok (0, Some n, s'') ∧ vnodes s'' !! n = Some x ∧ (∃ u, Ramfs.ramfs_stat RamfsTree.demo_cfg (v_fs_node x) (under s'') = Ok (0, (VFS_NODE_DIR, 1, 1), u)).
Proof. eexists. split; [vm_compute; reflexivity|]. eexists _, _, _. split_and!; [vm_compute; reflexivity|vm_compute; reflexivity|]. eexists. vm_compute. reflexivity. Qed.
(** A root that only its caller refers to, once queried, makes the next creation go
    round for ever: the loop that looks for a node to recycle takes it and puts it
    back, and no number of turns ends it. *)
Definition lone_root : vfs Ramfs.ramfs := Eval vm_compute in
  let s := after (0, None) (vfs_create_root RamfsTree.demo_cfg false (Some 10%nat) 0 (mounted RamfsTree.demo_cfg 0 RamfsTree.demo_s0)) in
  match vfs_node_stat 10 s with Ok (_, _, s) => s | Err _ => s end.
Theorem recycling_the_root_spins fuel : recycle_loop fuel 0 lone_root = Err FFuel.
Proof. induction fuel as [|fuel IH]; [done|]. vm_compute in IH |- *. exact IH. Qed.
(** A second volume is mounted on "/a" and found there; its removal, by the caller
    that looked it up, succeeds up to the last line, which puts the node that was just
    freed in the list of its volume. *)
Definition two_volumes : vfs Ramfs.ramfs := Eval vm_compute in
  let u := match Ramfs.ramfs_open true (Some 8%nat) (under mid_s) with Ok (_, _, u) => u | Err _ => under mid_s end in
  Build_vfs (vnodes mid_s) (<[1%nat := {| lru_list := []; fs_root := 8; fs_ref := 0; flag_ro := false; old_node := None |}]> (volumes mid_s)) (global_root mid_s) u.
Definition on_a : vfs Ramfs.ramfs := Eval vm_compute in after 1 (vfs_mount RamfsTree.demo_cfg (Some 70%nat) (node_of path_a two_volumes) 1 two_volumes).
Theorem umount_uses_freed_node :
  ∃ s, vfs_lookup RamfsTree.demo_cfg 10 10 path_a [] on_a = Ok (0, Some 70%nat, s) ∧ vfs_umount RamfsTree.demo_cfg 70 s = Err FCorrupt.
Proof. eexists. split; vm_compute; reflexivity. Qed.
End Run.
End VfsTree.
